(* ===== verification/_CoqProject ===== *)
-Q . S2P
Prelude.v
Totient.v
GF16.v
GF16Linear.v
Par2Solver.v
AccountGov.v
Bencode.v
Torrentmeta.v
Text.v
TorrentProof.v
Doubles.v
PlaybackCoverage.v
Outcome.v
Ladder.v
ContentProof.v
LaneCandidate.v
ByteSource.v
CrossLane.v
Convergence.v
Tables.v
ProofStore.v
HTTPMapping.v
Continuity.v
Inflight.v
RangeCache.v
Readahead.v
HTTPRange.v
RangeStream.v
YEnc.v
SearchBudget.v
Par2Packets.v
Par2Recovery.v
Par2Proof.v
Par2Repair.v
Par2RepairExact.v
Par2Match.v
CrossLaneSpan.v
Par2Rung.v
IdentityCheck.v
ReactiveStore.v
ReactiveLogic.v
ReactiveCommit.v
ReactiveQueue.v
Reactive.v
NntpPool.v
NntpPoolLogic.v
NntpPoolSafe.v
NntpPoolSystem.v
NntpHealth.v
NntpFetch.v
NntpAudit.v
RarHeader.v
RarWrite.v
RarSource.v
