(* ===== verification/Prelude.v ===== *)
(** * Darkharrbor: a verification development

    Darkharrbor is a Go server that plays remote content as if it were local files.  A
    request of a player becomes reads of byte ranges; the bytes come from one of several
    lanes (usenet articles, torrents through debrid services, HTTP origins), go through a
    disk cache with readahead, and are repaired when a lane lost some of them, either from
    the parity data of the same post or from another lane that is proven to hold the same
    bytes.  This library models the parts of [src/src/internal] that decide what is served,
    stored and believed, as executable definitions, and proves that they do what they are
    for.  This file holds the shared prelude; its own description follows the header.

    ** The parts and how they interact

    Parity (internal/archive, internal/nntp)
    - [GF16] gf16.go: tables, multiplication and powers of GF(2^16); [Totient] counts the
      input constants with MathComp's totient; [GF16Linear] matrix inversion by elimination.
    - [Par2Solver] gf16.go: the erasure solver, over both.
    - [Par2Packets] par2.go and [Par2Recovery] par2recovery.go: the packets of an index file
      and the volumes of recovery slices, over any source of bytes.
    - [Par2Proof] par2proof.go: the persisted index as a domain of block proofs.
    - [Par2Repair] par2repair.go composes them: the geometry of a recovery set, the account
      of bytes and time, the measure pass, the solver run and the check of each block.
      [Par2RepairExact] is its completeness.
    - [Par2Match] par2match.go, par2fetch.go: the index file of a post and the assignment of
      its descriptions to the post's files.  [Doubles] is the order of float64 it compares.
    - [CrossLaneSpan] par2crosslane.go: a lost span from the blocks of another lane.
    - [Par2Rung] par2rung4.go, par2crosslane.go: the session of a stream, whose calls resolve
      the geometry once, repair, and then ask the other lane.
    - [YEnc] yenc.go decodes the bodies of articles.
    - [NntpPool] pool.go, with its callers in provider.go, healthaudit.go and dialtest.go: the
      pool of connections as programs of locked sections, sends and receives.
      [NntpPoolLogic] says who holds which slot, token and lease; [NntpPoolSafe] proves each
      program against it; [NntpPoolSystem] runs any number of them side by side.
    - [NntpHealth] negcache.go, health.go: what is remembered of a provider, the articles it
      misses, its failures and its lag, and the order of the candidates.  [NntpFetch]
      provider.go fetches an article from them, over the pools and [Ladder]; [NntpAudit]
      healthaudit.go, grabhealth.go asks them whether a sample of articles is still there.

    Archives (internal/archive)
    - [RarHeader] rar.go: the parsers of RAR volumes, where an index out of range is a value;
      [RarWrite] the two formats they read; [RarSource] the member of many volumes as one
      source, on [ByteSource].

    Torrents (internal/torrentmeta)
    - [Bencode] bencode.go, [Torrentmeta] torrentmeta.go, [TorrentProof] verify.go, proof.go:
      decoder, parser, and the hashes of a torrent as proofs of windows of its files.

    Identity of content (internal/contentproof, internal/crosslane, internal/store)
    - [ContentProof] contentproof.go: evidence and the comparison of representations, against
      the class of its repository; [ProofStore] content_proofs.go is the instance.
    - [LaneCandidate] candidate.go, convergence.go; [HTTPMapping] httpmapping.go;
      [Continuity] continuity.go, content_continuity.go; [Convergence]
      representation_convergence.go.  [Tables] holds the bound the tables share.
    - [CrossLane] coordinator.go runs the ladder over those proofs: a block of another lane
      is emitted only when a proof covers it.

    Serving (internal/bytesource, internal/rangecache, internal/httpstream)
    - [ByteSource] bytesource.go, member.go, reader.go, blocksource.go: the contract of a
      source and the sources built from others.
    - [Inflight] inflight.go: concurrent fetches of one payload share one read.
    - [RangeCache], [Readahead], [RangeStream] rangecache.go: the disk cache, the
      prefetchers, and the stream of a range, which calls the other two.
    - [HTTPRange] httprange.go: range headers.

    Policy (internal/accountgov, internal/ladder, internal/outcome, internal/searchbudget,
    internal/playbackcoverage, internal/store)
    - [AccountGov] admission to an account's connections; [Ladder] the walk over ways to
      acquire a block under that governor; [Outcome] the vocabulary of failures and the
      limiter of warnings; [SearchBudget] the suppression of fruitless searches, with its
      table; [PlaybackCoverage] what a player has received, with its tables.

    Reactive acquisition (internal/reactivecommit, internal/reactivequeue,
    internal/reactivedispatch, internal/identitycheck, internal/store)
    - [IdentityCheck] identitycheck.go: the contradictions between a release and its identity.
    - [ReactiveStore] reactive_commits.go, reactive_pending.go: the rows, their statements and
      the triggers.  [ReactiveLogic] runs programs of such statements side by side, and has
      the logic their safety is proved in: claims on rows, kept apart.
    - [ReactiveCommit] reactivecommit.go commits a proposal that playback asked for to an Arr
      instance and undoes it; [ReactiveQueue] reactivequeue.go, router.go, targets.go,
      dispatcher.go decides which, by an operator or by routing; [Reactive] is the whole.

    [Text] and this file hold the lemmas the components share.  Each component file opens
    with what it models; PROJECT.json's map gives the lines of every definition.

    ** How code became definitions

    - Integers are [Z] with the wrap-around of their width written at the operation
      ([u8] .. [u64], [i64]); where a sum of lengths cannot reach the width, the file says so.
    - Byte strings are lists of numbers below 256 or of [Byte.byte], as the component needs;
      strings of a closed vocabulary are inductive types with a last constructor for any other.
    - An error is a value ([result], or the component's own type); a call that may fail in
      its surroundings is a function on a world [W] that answers, given by a class
      ([Repository], [Admission], [Player], the reader of a repair): the theorems hold for
      every such world.
    - A locked section is one function on the state its mutex guards.  What other goroutines
      may do between two sections is a step relation over threads, and the invariants are
      proved by induction over reachable states ([AccountGov], [Inflight], [SearchBudget],
      [RangeCache], [Readahead], [Par2Rung]).  The reactive functions, which share only the
      database, are trees of statements and questions, and a step runs one of them; so are the
      functions of the connection pool, with sends and receives that wait.  Addresses are kept where the code compares pointers.
    - The iteration order of a Go map, clocks, and outcomes of system calls are arguments.
    - A table of the store is its list of rows, or a finite map by its primary key; a
      statement that fails leaves the tables as they were.

    ** What the theorems show

    - Repair: the arithmetic is that of the field, the solver inverts the encoder and does not
      fail where the exponents are consecutive, the geometry numbers blocks without overlap,
      what a repair serves passed its proofs, and a post that can be repaired is repaired with
      exactly the lost bytes.  Files are matched to descriptions without ambiguity; another
      lane serves verified or exact spans; and whatever calls interleave, the two rungs
      return, and return nothing unverified.
    - Parsers: decoding inverts encoding within the decoder's limits; what is accepted is well
      formed whatever the input; no path of a torrent leaves its root.  The parsers of RAR
      volumes return on every input, read back what is written, and the source over the
      volumes of a member is the member.
    - Content: two representations are taken for one only through authoritative evidence or a
      chain of pairs verified in every byte; tables stay sound and bounded; recovery emits
      proven bytes only.
    - Serving: a stream writes exactly the selected range, or a prefix of it when it fails;
      the cache returns only valid payloads and keeps within its budgets; concurrent readers
      neither block nor cancel each other.  The pool of connections keeps within its bounds,
      loses no slot whatever breaks, and never rests while a caller waits for one.  An article
      is delivered once, or every provider was tried or passed over for a reason that the log
      tells; an audit counts only what a provider said; a provider that fails is avoided for
      exactly its window.
    - Policy: no connection unit is lost or granted twice and every waiter is answered; the
      walk of the ladder releases what it took; budgets, coverage and warnings add up.

    - Reactive acquisition: in every interleaving, with failing statements and restarts, an
      Arr instance holds what the row of a proposal tells and at most one registration of it;
      what was parked or undone is never asked for again; the queue's decisions are true of the
      rows; automatic routing adds only where it may; every entry has its turn.

    ** Fuel and bounds

    A recursion that is not structural has fuel computed from its input, and a theorem shows
    that it is enough: twice the input's length for the bencode decoder (each call consumes a
    byte or returns), the number of entries plus one for an eviction (each turn deletes one),
    the number of packets a walk may visit for the PAR2 readers (a constant of the code), the
    length of the header for the range parser, one more than the length of the prefix for the
    blocks of a RAR volume (a turn moves forward or ends).  A loop that waits on a clock or the network is
    a list of rounds and its result an option: none only when the list ended first.  The turns
    of an acquire have any fuel: the theorems of the pool hold for all of it, and one that runs
    out holds nothing.

    ** What is not modelled

    Hashes (MD5, SHA-1, SHA-256) and Unicode tables are parameters, with only their digest's
    length, or injectivity on the values at hand where a completeness theorem needs it,
    assumed by name.  Sockets, TLS, the SQLite driver, net/http, JSON and XML decoding, the
    file system beyond create, write, rename, read and remove, and the scheduler are the
    surroundings.  Log lines are left out except where the log is the behaviour (the limiter).
    Whole packages not modelled yet are listed, each with its reason, in PROJECT.json: the
    archive headers of ZIP and 7z, the deciphering of RAR, HLS playlists, media facts, the HTTP surface, the
    clients of remote services (the Arr client among them: what a registrar leaves behind when
    it fails is its own), configuration and background loops. *)

(** ** The prelude

    The integer widths of the Go code, the bitwise-xor algebra used by the
    erasure-coding files, list and option facts, the error monad, and the tactics
    every component file uses. *)

From stdpp Require Import base gmap list numbers strings.
From Stdlib Require Import ZArith Lia Sorting.Sorted.

Declare Scope harbor_scope.
Delimit Scope harbor_scope with harbor.

Create HintDb harbor discriminated.

(** ** Machine integers

    Go's unsigned types wrap modulo their width; its signed types wrap in two's
    complement.  [int] is 64 bits wide on every platform the program supports. *)

Section Words.
Local Open Scope Z_scope.

Definition u8 (x : Z) : Z := x mod 2 ^ 8.
Definition u16 (x : Z) : Z := x mod 2 ^ 16.
Definition u32 (x : Z) : Z := x mod 2 ^ 32.
Definition u64 (x : Z) : Z := x mod 2 ^ 64.

Definition maxInt64 : Z := 2 ^ 63 - 1.
Definition minInt64 : Z := - 2 ^ 63.

Definition i64 (x : Z) : Z := (x + 2 ^ 63) mod 2 ^ 64 - 2 ^ 63.

(** A value that fits [n] unsigned bits. *)
Definition fits (n x : Z) : Prop := 0 <= x < 2 ^ n.

(** A value a signed 64-bit integer can hold. *)
Definition is_i64 (x : Z) : Prop := minInt64 <= x <= maxInt64.

Lemma u8_small x : fits 8 x -> u8 x = x.
Proof. intros H; apply Z.mod_small, H. Qed.
Lemma u16_small x : fits 16 x -> u16 x = x.
Proof. intros H; apply Z.mod_small, H. Qed.
Lemma u32_small x : fits 32 x -> u32 x = x.
Proof. intros H; apply Z.mod_small, H. Qed.
Lemma u64_small x : fits 64 x -> u64 x = x.
Proof. intros H; apply Z.mod_small, H. Qed.

Lemma i64_small x : is_i64 x -> i64 x = x.
Proof.
  unfold is_i64, minInt64, maxInt64, i64. intros H.
  rewrite Z.mod_small; lia.
Qed.

Lemma i64_range x : is_i64 (i64 x).
Proof.
  unfold is_i64, minInt64, maxInt64, i64.
  pose proof (Z.mod_pos_bound (x + 2 ^ 63) (2 ^ 64)). lia.
Qed.

Lemma i64_add a b : i64 (i64 a + b) = i64 (a + b).
Proof.
  unfold i64. f_equal.
  replace ((a + 2 ^ 63) mod 2 ^ 64 - 2 ^ 63 + b + 2 ^ 63) with ((a + 2 ^ 63) mod 2 ^ 64 + b) by lia.
  rewrite Z.add_mod_idemp_l by lia. f_equal. lia.
Qed.

Lemma u8_fits x : fits 8 (u8 x).
Proof. apply Z.mod_pos_bound; lia. Qed.
Lemma u16_fits x : fits 16 (u16 x).
Proof. apply Z.mod_pos_bound; lia. Qed.
Lemma u32_fits x : fits 32 (u32 x).
Proof. apply Z.mod_pos_bound; lia. Qed.

(** ** Exclusive or *)

Lemma fits_log2 n a : 0 < n -> fits n a -> Z.log2 a < n.
Proof.
  intros Hn [Ha1 Ha2]. destruct (decide (a = 0)) as [->|]; [done|].
  apply Z.log2_lt_pow2; lia.
Qed.

Lemma fits_lxor n a b : 0 <= n -> fits n a -> fits n b -> fits n (Z.lxor a b).
Proof.
  intros Hn Ha Hb.
  assert (Hnn : 0 <= Z.lxor a b) by (apply Z.lxor_nonneg; unfold fits in *; lia).
  split; [done|].
  destruct (decide (n = 0)) as [->|].
  { unfold fits in *. assert (a = 0) as -> by lia. assert (b = 0) as -> by lia. done. }
  destruct (decide (Z.lxor a b = 0)) as [->|Hne]; [lia|].
  apply Z.log2_lt_pow2; [lia|].
  eapply Z.le_lt_trans; [apply Z.log2_lxor; unfold fits in *; lia|].
  apply Z.max_lub_lt; apply fits_log2; (done || lia).
Qed.

End Words.

#[export] Hint Resolve u8_fits u16_fits u32_fits i64_range : harbor.

(** Equations between xor expressions hold bit by bit. *)
Ltac xor_bits :=
  apply Z.bits_inj'; intros ?bit ?Hbit; rewrite ?Z.lxor_spec, ?Z.bits_0;
  repeat match goal with |- context [Z.testbit ?a ?i] =>
    destruct (Z.testbit a i) end; reflexivity.

(** ** Results

    A Go function that returns [(T, error)] is a function into [result]; the
    errors of each component are an inductive type of its own. *)

Inductive result (E A : Type) : Type :=
| Ok (a : A)
| Err (e : E).
Arguments Ok {E A} a.
Arguments Err {E A} e.

Definition rbind {E A B} (c : result E A) (f : A -> result E B) : result E B :=
  match c with
  | Ok a => f a
  | Err e => Err e
  end.

Notation "'let?' x ':=' c 'in' k" := (rbind c (fun x => k))
  (at level 200, x pattern, c at level 100, k at level 200, right associativity) : harbor_scope.

Definition is_ok {E A} (c : result E A) : bool :=
  match c with Ok _ => true | Err _ => false end.

(** Fold an operation that may fail over a list, left to right. *)
Fixpoint rfold {E S A} (f : S -> A -> result E S) (s : S) (l : list A) : result E S :=
  match l with
  | [] => Ok s
  | x :: l => rbind (f s x) (fun s => rfold f s l)
  end.

Lemma rbind_ok {E A B} (c : result E A) (f : A -> result E B) b :
  rbind c f = Ok b <-> exists a, c = Ok a /\ f a = Ok b.
Proof. destruct c; simpl; naive_solver. Qed.

Lemma rfold_app {E S A} (f : S -> A -> result E S) s l1 l2 :
  rfold f s (l1 ++ l2) = rbind (rfold f s l1) (fun s => rfold f s l2).
Proof.
  revert s. induction l1 as [|x l1 IH]; intros s; simpl; [done|].
  destruct (f s x); simpl; auto.
Qed.

(** An invariant that every step preserves holds after the fold. *)
Lemma rfold_inv {E S A} (f : S -> A -> result E S) (P : S -> Prop) l :
  (forall s x s', x ∈ l -> P s -> f s x = Ok s' -> P s') ->
  forall s s', P s -> rfold f s l = Ok s' -> P s'.
Proof.
  induction l as [|x l IH]; intros Hf s s' Hs; simpl; [by intros [= <-]|].
  intros (s1 & H1 & H2)%rbind_ok. eapply IH; [|eapply Hf; eauto; left|exact H2].
  intros. eapply Hf; eauto. by right.
Qed.

(** Break a chain of error tests in a hypothesis, keeping the branch that
    returns; the other branches are contradictions. *)
Ltac split_guards H :=
  repeat match type of H with
  | (if ?b then Err _ else _) = Ok _ => destruct b eqn:?; [discriminate H|]
  | (if ?b then _ else Err _) = Ok _ => destruct b eqn:?; [|discriminate H]
  | match ?o with Some _ => _ | None => Err _ end = Ok _ =>
      destruct o eqn:?; [|discriminate H]
  | rbind _ _ = Ok _ =>
      let a := fresh "r" in let Ha := fresh "Hr" in
      apply rbind_ok in H as (a & Ha & H)
  end.

(** Turn boolean comparisons in hypotheses into propositions. *)
Ltac bool_hyps :=
  repeat match goal with
  | H : _ || _ = false |- _ => apply orb_false_iff in H as [? ?]
  | H : _ && _ = true |- _ => apply andb_true_iff in H as [? ?]
  | H : negb _ = true |- _ => apply negb_true_iff in H
  | H : negb _ = false |- _ => apply negb_false_iff in H
  | H : (_ <? _)%Z = true |- _ => apply Z.ltb_lt in H
  | H : (_ <? _)%Z = false |- _ => apply Z.ltb_ge in H
  | H : (_ <=? _)%Z = true |- _ => apply Z.leb_le in H
  | H : (_ <=? _)%Z = false |- _ => apply Z.leb_gt in H
  | H : (_ =? _)%Z = true |- _ => apply Z.eqb_eq in H
  | H : (_ =? _)%Z = false |- _ => apply Z.eqb_neq in H
  | H : bool_decide _ = true |- _ => apply bool_decide_eq_true in H
  | H : bool_decide _ = false |- _ => apply bool_decide_eq_false in H
  end.

(** ** Instants and durations

    Instants and durations count nanoseconds.  [Time.Sub] saturates at the
    bounds of a 64-bit duration. *)
Definition time_sub (a b : Z) : Z := Z.max minInt64 (Z.min maxInt64 (a - b)%Z).

Definition second : Z := 1000000000.

(** ** Bytes and strings

    A byte is a number below 256 and a Go string is a list of bytes; [str]
    writes a literal. *)
Abbreviation bytes := (list Z).

Fixpoint str (s : string) : bytes :=
  match s with
  | EmptyString => []
  | String c s => Z.of_N (Ascii.N_of_ascii c) :: str s
  end.

Definition is_byte (c : Z) : Prop := (0 <= c < 256)%Z.

(** Bytewise lexicographic order, the [<] of Go strings. *)
Fixpoint str_ltb (a b : bytes) : bool :=
  match a, b with
  | _, [] => false
  | [], _ :: _ => true
  | x :: a, y :: b => if (x =? y)%Z then str_ltb a b else (x <? y)%Z
  end.

(** [hex.EncodeToString]. *)
Definition hex_digit (n : Z) : Z := if (n <? 10)%Z then (48 + n)%Z else (87 + n)%Z.
Definition hex_encode (b : bytes) : bytes :=
  concat (map (fun c => [hex_digit (Z.shiftr c 4); hex_digit (Z.land c 15)]) b).

(** [strings.ToLower] on ASCII text. *)
Definition ascii_lower (s : bytes) : bytes :=
  map (fun c => if (65 <=? c)%Z && (c <=? 90)%Z then (c + 32)%Z else c) s.

(** [hex.DecodeString], of either case. *)
Definition hex_value (c : Z) : option Z :=
  if (48 <=? c)%Z && (c <=? 57)%Z then Some (c - 48)%Z
  else if (97 <=? c)%Z && (c <=? 102)%Z then Some (c - 87)%Z
  else if (65 <=? c)%Z && (c <=? 70)%Z then Some (c - 55)%Z
  else None.

Fixpoint hex_decode (s : bytes) : option bytes :=
  match s with
  | [] => Some []
  | [_] => None
  | a :: b :: s =>
      match hex_value a, hex_value b, hex_decode s with
      | Some x, Some y, Some r => Some ((16 * x + y)%Z :: r)
      | _, _, _ => None
      end
  end.

(** ** Calls on a world

    Code that calls a context, a clock, a repository or a source is a function
    on the state of those surroundings, a world: it returns the world after the
    call and the answer.  Nothing is assumed of what happens to a world between
    two calls. *)
Definition call_bind {W A B} (c : W -> W * A) (f : A -> W -> W * B) : W -> W * B :=
  fun w => let (w, a) := c w in f a w.
Definition call_ret {W A} (a : A) : W -> W * A := fun w => (w, a).

Notation "'let!' x ':=' c 'in' k" := (call_bind c (fun x => k))
  (at level 200, x pattern, c at level 100, k at level 200, right associativity) : harbor_scope.

(** [if err := e; err != nil { return r, err }], of a function with two results. *)
Notation "'check!' e 'or' r 'in' k" := (match e with Some err => call_ret (r, Some err) | None => k end)
  (at level 200, e at level 100, r at level 100, k at level 200, right associativity) : harbor_scope.

(** [if err := e; err != nil { return err }]. *)
Notation "'stop!' e 'in' k" := (match e with Some err => call_ret (Some err) | None => k end)
  (at level 200, e at level 100, k at level 200, right associativity) : harbor_scope.

(** [x, err := c; if err != nil { return r, err }]. *)
Notation "'take!' x ':=' c 'or' r 'in' k" :=
  (call_bind c (fun res => match res with Ok x => k | Err err => call_ret (r, Some err) end))
  (at level 200, x pattern, c at level 100, r at level 100, k at level 200, right associativity) : harbor_scope.

(** A property every call keeps is kept by the calls composed. *)
Definition keeps {W A} (P : W -> Prop) (c : W -> W * A) : Prop := forall w, P w -> P (c w).1.

Lemma keeps_ret {W A} (P : W -> Prop) (a : A) : keeps P (call_ret a).
Proof. by intros w. Qed.

Lemma keeps_bind {W A B} (P : W -> Prop) (c : W -> W * A) (f : A -> W -> W * B) :
  keeps P c -> (forall a, keeps P (f a)) -> keeps P (call_bind c f).
Proof. intros Hc Hf w Hw. unfold call_bind. specialize (Hc w Hw). destruct (c w) as [w1 a]. by apply Hf. Qed.

Lemma call_bind_inv {W A B} (c : W -> W * A) (f : A -> W -> W * B) w w' b :
  call_bind c f w = (w', b) -> exists w1 a, c w = (w1, a) /\ f a w1 = (w', b).
Proof. unfold call_bind. destruct (c w) as [w1 a]. eauto. Qed.

Create HintDb calls discriminated.
#[export] Hint Resolve keeps_ret keeps_bind : calls.

(** Read a run of composed calls backwards: name every world and answer, and
    drop the branches that return early when they contradict the result. *)
Ltac calls_case o := first [is_var o; destruct o | destruct o eqn:?].
Ltac calls H :=
  repeat match type of H with
  | call_bind _ _ _ = (_, _) =>
      let w := fresh "w" in let a := fresh "a" in let Ha := fresh "Hc" in
      apply call_bind_inv in H as (w & a & Ha & H)
  | call_ret _ _ = (_, _) => unfold call_ret in H; injection H as; subst
  | (match ?o with Some _ => _ | None => _ end) _ = (_, _) => calls_case o; try discriminate H
  | (match ?o with Ok _ => _ | Err _ => _ end) _ = (_, _) => calls_case o; try discriminate H
  | (let (_, _) := ?o in _) _ = (_, _) => calls_case o
  | (if ?b then _ else _) _ = (_, _) => destruct b eqn:?; try discriminate H
  end.

(** ** Times as text

    The store writes instants as [time.RFC3339Nano] text in UTC and orders them
    as text.  For four-digit years the text up to the seconds has a fixed width
    and orders as the seconds do; then comes the fraction, without trailing zeros
    and absent when zero, and a Z. *)
Definition nine_digits (n : Z) : bytes := map (fun k => 48 + (n / 10 ^ k) mod 10)%Z [8; 7; 6; 5; 4; 3; 2; 1; 0]%Z.

Fixpoint drop_zeros (digits : bytes) : bytes :=
  match digits with
  | [] => []
  | d :: ds => if (d =? 48)%Z then drop_zeros ds else digits
  end.

Definition fraction_text (ns : Z) : bytes :=
  if (ns =? 0)%Z then [] else 46%Z :: rev (drop_zeros (rev (nine_digits ns))).

Definition time_text (t : Z) : Z * bytes := (t / second, fraction_text (t mod second) ++ [90])%Z.

(** [a < b] in the order of the texts. *)
Definition time_text_ltb (a b : Z) : bool :=
  let (sa, fa) := time_text a in
  let (sb, fb) := time_text b in
  if (sa =? sb)%Z then str_ltb fa fb else (sa <? sb)%Z.

(** ** Insertion sort *)

Fixpoint insert_by {A} (before : A -> A -> bool) (x : A) (l : list A) : list A :=
  match l with
  | [] => [x]
  | y :: l' => if before y x then y :: insert_by before x l' else x :: l
  end.

(** The stable order of a list: [before y x] keeps [y] in front of [x]. *)
Definition sort_by {A} (before : A -> A -> bool) (l : list A) : list A := foldr (insert_by before) [] l.

Lemma insert_by_perm {A} before (x : A) l : insert_by before x l ≡ₚ x :: l.
Proof. induction l as [|y l IH]; cbn; [done|]. destruct (before y x); [|done]. rewrite IH. constructor. Qed.

Lemma sort_by_perm {A} before (l : list A) : sort_by before l ≡ₚ l.
Proof. induction l as [|x l IH]; cbn; [done|]. by rewrite insert_by_perm, IH. Qed.

(** ** Strict weak orders *)

(** A comparison that never holds both ways, and that splits over any third
    element. *)
Class StrictWeak {A} (before : A -> A -> bool) : Prop := {
  weak_asym a b : before a b = true -> before b a = false;
  weak_split a b c : before a c = true -> before a b = true \/ before b c = true
}.

Lemma insert_by_sorted {A} (before : A -> A -> bool) `{!StrictWeak before} x l :
  StronglySorted (fun a b => before b a = false) l ->
  StronglySorted (fun a b => before b a = false) (insert_by before x l).
Proof.
  induction l as [|y l IH]; intros Hs; cbn; [by repeat constructor|].
  inversion Hs as [|? ? Hl Hy]; subst. destruct (before y x) eqn:E.
  - constructor; [auto|]. rewrite insert_by_perm. constructor; [by apply weak_asym|done].
  - constructor; [done|]. constructor; [done|]. eapply list.Forall_impl; [exact Hy|]. cbn. intros z Hz.
    destruct (before z x) eqn:Ez; [|done]. destruct (weak_split z y x Ez); congruence.
Qed.

Lemma sort_by_sorted {A} (before : A -> A -> bool) `{!StrictWeak before} l :
  StronglySorted (fun a b => before b a = false) (sort_by before l).
Proof. induction l as [|x l IH]; cbn; [constructor|]. by apply insert_by_sorted. Qed.

#[export] Instance str_ltb_weak : StrictWeak str_ltb.
Proof.
  split.
  - intros a. induction a as [|x a IH]; intros [|y b]; cbn; try done.
    rewrite (Z.eqb_sym y x). destruct (Z.eqb_spec x y); [apply IH|]. rewrite !Z.ltb_lt, Z.ltb_ge. lia.
  - intros a. induction a as [|x a IH]; intros [|y b] [|z c]; cbn; try done; auto.
    destruct (Z.eqb_spec x z) as [->|], (Z.eqb_spec z y) as [->|]; rewrite ?Z.eqb_refl, ?Z.ltb_lt; intros H.
    + by apply IH.
    + destruct (Z.eqb_spec y z); [congruence|]. rewrite Z.ltb_lt. lia.
    + destruct (Z.eqb_spec x y); [congruence|]. by left; apply Z.ltb_lt.
    + destruct (Z.eqb_spec x y), (Z.eqb_spec y z); rewrite ?Z.ltb_lt; subst; try congruence; auto; lia.
Qed.

#[export] Instance time_text_weak : StrictWeak time_text_ltb.
Proof.
  split.
  - intros a b. unfold time_text_ltb, time_text. rewrite (Z.eqb_sym (b / second)).
    destruct (Z.eqb_spec (a / second) (b / second)); [apply weak_asym|]. rewrite Z.ltb_lt, Z.ltb_ge. lia.
  - intros a b c. unfold time_text_ltb, time_text.
    destruct (Z.eqb_spec (a / second) (c / second)) as [E|], (Z.eqb_spec (a / second) (b / second)) as [E'|],
      (Z.eqb_spec (b / second) (c / second)) as [E''|]; try congruence; rewrite ?Z.ltb_lt; try lia.
    apply weak_split.
Qed.

(** A text order refined by a key: the order of a query with two columns. *)
Lemma two_column_weak {A} (first : A -> A -> bool) (key : A -> Z) `{!StrictWeak first} :
  StrictWeak (fun a b => first a b || (negb (first b a) && (key a <? key b)%Z)).
Proof.
  split.
  - intros a b. destruct (first a b) eqn:E1, (first b a) eqn:E2; cbn; rewrite ?Z.ltb_lt, ?Z.ltb_ge; try done; try lia.
    by rewrite (weak_asym _ _ E1) in E2.
  - intros a b c. rewrite !orb_true_iff, !andb_true_iff, !negb_true_iff, !Z.ltb_lt.
    intros [H|[H Hk]].
    + destruct (weak_split a b c H); auto.
    + destruct (first a b) eqn:E1; [auto|]. destruct (first b c) eqn:E2; [auto|].
      destruct (first b a) eqn:E3; [destruct (weak_split b c a E3); congruence|].
      destruct (first c b) eqn:E4; [destruct (weak_split c a b E4); congruence|].
      destruct (Z.lt_ge_cases (key a) (key b)); [left; right; auto|right; right]. split; [done|lia].
Qed.

Lemma weak_flip {A} (before : A -> A -> bool) : StrictWeak before -> StrictWeak (fun a b => before b a).
Proof.
  intros H. split; [intros a b; apply weak_asym|]. intros a b c Hac.
  destruct (weak_split c b a Hac); auto.
Qed.

Lemma weak_map {A B} (f : A -> B) (before : B -> B -> bool) :
  StrictWeak before -> StrictWeak (fun a b => before (f a) (f b)).
Proof. intros H. split; intros *; [apply weak_asym|apply weak_split]. Qed.

#[export] Instance Z_ltb_weak : StrictWeak Z.ltb.
Proof. split; intros *; rewrite ?Z.ltb_lt, ?Z.ltb_ge; lia. Qed.

Lemma elem_of_take_in {A} n (l : list A) x : x ∈ take n l -> x ∈ l.
Proof. intros H. rewrite <-(take_drop n l). apply elem_of_app. by left. Qed.

Lemma NoDup_take {A} n (l : list A) : NoDup l -> NoDup (take n l).
Proof. intros H. rewrite <-(take_drop n l) in H. by apply NoDup_app in H as [H _]. Qed.

Lemma strongly_sorted_app {A} (R : A -> A -> Prop) l1 l2 x y :
  StronglySorted R (l1 ++ l2) -> x ∈ l1 -> y ∈ l2 -> R x y.
Proof.
  induction l1 as [|z l1 IH]; intros Hs Hx Hy; [by apply not_elem_of_nil in Hx|].
  cbn in Hs. inversion Hs as [|? ? Hs' Hz]; subst. apply list.elem_of_cons in Hx as [->|Hx]; [|auto].
  apply (proj1 (list.Forall_forall _ _) Hz). apply elem_of_app. by right.
Qed.

Lemma NoDup_map_filter {A B} (f : A -> B) (P : A -> Prop) `{forall x, Decision (P x)} l :
  NoDup (map f l) -> NoDup (map f (filter P l)).
Proof.
  induction l as [|x l IH]; intros Hn; [done|]. cbn in Hn. apply list.NoDup_cons in Hn as [Hx Hn].
  rewrite filter_cons. destruct (decide (P x)); [|auto]. cbn. apply list.NoDup_cons. split; [|auto].
  intros (y & E & Hy)%list_elem_of_fmap. apply Hx. apply list_elem_of_filter in Hy as [_ Hy].
  apply list_elem_of_fmap. eauto.
Qed.

Lemma NoDup_map_inj {A B} (f : A -> B) l x y : NoDup (map f l) -> x ∈ l -> y ∈ l -> f x = f y -> x = y.
Proof.
  induction l as [|z l IH]; intros Hn Hx Hy E; [by apply not_elem_of_nil in Hx|].
  cbn in Hn. apply list.NoDup_cons in Hn as [Hz Hn].
  apply list.elem_of_cons in Hx as [->|Hx], Hy as [->|Hy]; [done| | |auto].
  - destruct Hz. rewrite E. by apply list_elem_of_fmap_2.
  - destruct Hz. rewrite <-E. by apply list_elem_of_fmap_2.
Qed.

Lemma filter_filter_length {A} (P Q : A -> Prop) `{forall x, Decision (P x), forall x, Decision (Q x)} l :
  (length (filter P (filter Q l)) <= length (filter P l))%nat.
Proof.
  induction l as [|x l IH]; [done|]. rewrite !filter_cons.
  destruct (decide (Q x)); rewrite ?filter_cons; destruct (decide (P x)); cbn; lia.
Qed.

(** ** Counting

    How many elements of a list a test accepts, as code counts the threads in a
    state. *)
Definition count_by {A} (f : A -> bool) (l : list A) : Z := Z.of_nat (length (filter (fun x => f x = true) l)).

Lemma count_cons {A} (f : A -> bool) x l : count_by f (x :: l) = ((if f x then 1 else 0) + count_by f l)%Z.
Proof. unfold count_by. rewrite filter_cons. destruct (f x); case_decide; try done; cbn [length]; lia. Qed.

Lemma count_perm {A} (f : A -> bool) l1 l2 : l1 ≡ₚ l2 -> count_by f l1 = count_by f l2.
Proof. intros P. unfold count_by. by rewrite P. Qed.

Lemma count_nonneg {A} (f : A -> bool) l : (0 <= count_by f l)%Z.
Proof. unfold count_by. lia. Qed.

Lemma count_pos {A} (f : A -> bool) l : (0 < count_by f l)%Z <-> exists x, x ∈ l /\ f x = true.
Proof.
  split.
  - unfold count_by. intros H. destruct (filter _ l) as [|x l'] eqn:E; [done|].
    assert (Hx : x ∈ filter (fun x => f x = true) l) by (rewrite E; left). apply list_elem_of_filter in Hx as [? ?]. eauto.
  - intros (x & Hx & Hf). apply list_elem_of_split in Hx as (l1 & l2 & ->).
    rewrite (count_perm f _ (x :: l1 ++ l2)) by (symmetry; apply Permutation_middle). rewrite count_cons, Hf.
    pose proof (count_nonneg f (l1 ++ l2)). lia.
Qed.
Lemma count_nil {A} (f : A -> bool) : count_by f [] = 0%Z.
Proof. done. Qed.
Lemma count_app {A} (f : A -> bool) l k : count_by f (l ++ k) = (count_by f l + count_by f k)%Z.
Proof. induction l as [|x l IH]; [done|]. cbn [app]. rewrite !count_cons, IH. lia. Qed.
Lemma count_replicate {A} (f : A -> bool) n x : count_by f (replicate n x) = if f x then Z.of_nat n else 0%Z.
Proof. induction n as [|n IH]; cbn [replicate]; [by destruct (f x)|]. rewrite count_cons, IH. destruct (f x); lia. Qed.
Lemma count_insert {A} (f : A -> bool) l i x y : l !! i = Some x -> count_by f (<[i := y]> l) = (count_by f l - (if f x then 1 else 0) + (if f y then 1 else 0))%Z.
Proof.
  intros Hi. rewrite (count_perm f l (x :: delete i l)) by by apply delete_Permutation.
  rewrite (count_perm f (<[i := y]> l) (y :: delete i l)), !count_cons; [lia|].
  rewrite (delete_Permutation (<[i := y]> l) i y) by (apply list_lookup_insert_eq; by eapply lookup_lt_Some).
  assert (E : delete i (<[i := y]> l) = delete i l); [|by rewrite E]. clear. revert i. induction l as [|z l IH]; intros [|i]; cbn; [done..|]. f_equal. apply IH.
Qed.
Lemma count_mono {A} (f g : A -> bool) l : (forall x, f x = true -> g x = true) -> (count_by f l <= count_by g l)%Z.
Proof. intros H. induction l as [|x l IH]; [done|]. rewrite !count_cons. specialize (H x). destruct (f x), (g x); lia. Qed.
Lemma count_fmap {A B} (g : A -> B) (f : B -> bool) l : count_by f (g <$> l) = count_by (fun x => f (g x)) l.
Proof. induction l as [|x l IH]; [done|]. rewrite fmap_cons, !count_cons, IH. done. Qed.
Lemma count_negb {A} (f : A -> bool) l : (count_by f l + count_by (fun x => negb (f x)) l)%Z = Z.of_nat (length l).
Proof. induction l as [|x l IH]; [done|]. rewrite !count_cons. cbn [length]. destruct (f x); cbn [negb]; lia. Qed.
Lemma count_indices {A} (f : A -> bool) xs : count_by (fun i => from_option f false (xs !! i)) (seq 0 (length xs)) = count_by f xs.
Proof. induction xs as [|x xs IH]; [done|]. cbn [length seq]. rewrite !count_cons, <- fmap_S_seq, count_fmap. cbn [lookup list_lookup from_option]. by rewrite <- IH. Qed.
(** What [f] accepts of a list without duplicates maps injectively into what [g] accepts. *)
Lemma count_within {A B} (f : A -> bool) (g : B -> bool) l k (r : A -> B) : NoDup l -> (forall x y, r x = r y -> x = y) ->
  (forall x, x ∈ l -> f x = true -> r x ∈ k /\ g (r x) = true) -> (count_by f l <= count_by g k)%Z.
Proof.
  intros Hn Hi Hl. unfold count_by. rewrite <- (length_fmap r). apply Nat2Z.inj_le, submseteq_length, NoDup_submseteq.
  - apply NoDup_fmap_2; [exact Hi|by apply NoDup_filter].
  - intros y (x & -> & [Hf Hx]%list_elem_of_filter)%list_elem_of_fmap. apply list_elem_of_filter. destruct (Hl x Hx Hf). done.
Qed.
