(* ===== verification/Totient.v ===== *)
(** Counting the discrete logarithms relatively prime to 65535.

    The number of PAR2 input-block constants is Euler's totient of the order of
    the multiplicative group.  MathComp's totient theory gives it from the
    factorisation 65535 = 3 * 5 * 17 * 257; the statement exported from here
    uses the Standard Library's lists and gcd only. *)

From mathcomp Require Import boot prime.
From Stdlib Require Import List PeanoNat NArith Lia.

Set Implicit Arguments.
Unset Strict Implicit.
Unset Printing Implicit Defensive.

Lemma gcdn_Nat m n : Nat.gcd m n = gcdn m n.
Proof.
apply: Nat.gcd_unique.
- by have /dvdnP [k Hk] := dvdn_gcdl m n; exists k.
- by have /dvdnP [k Hk] := dvdn_gcdr m n; exists k.
move=> q [a Ha] [b Hb].
have Hq : q %| gcdn m n.
  by rewrite dvdn_gcd; apply/andP; split; apply/dvdnP; [exists a | exists b].
by have /dvdnP [k Hk] := Hq; exists k.
Qed.

(** [List.filter] over [List.seq] counts as a sum over an interval. *)
Lemma length_filter_sum (f : nat -> bool) m n :
  length (List.filter f (List.seq m n)) = \sum_(m <= d < m + n) f d.
Proof.
elim: n m => [|n IH] m; first by rewrite addn0 big_geq.
rewrite addnS big_ltn ?ltnS ?leq_addr //= -addSn -IH.
by case: (f m).
Qed.

Lemma totient_65535 : totient (3 * (5 * (17 * 257))) = 2 * (4 * (16 * 256)).
Proof. by rewrite !totient_coprime // !totient_prime. Qed.

(** There are exactly 32768 logs below [n] = 65535 relatively prime to it. *)
Lemma coprime_count n :
  n = N.to_nat 65535 ->
  length (List.filter (fun l => Nat.eqb (Nat.gcd n l) 1%nat) (List.seq O n)) = N.to_nat 32768.
Proof.
move=> Hn. rewrite length_filter_sum add0n.
have -> : n = 3 * (5 * (17 * 257)) by rewrite Hn -!multE; lia.
have -> : N.to_nat 32768 = 2 * (4 * (16 * 256)) by rewrite -!multE; lia.
rewrite -totient_65535 totient_count_coprime.
apply: eq_bigr => d _; rewrite gcdn_Nat /coprime.
by congr nat_of_bool; apply/Nat.eqb_spec/eqP.
Qed.
