(* ===== verification/GF16.v ===== *)
(** The finite field GF(2^16) of internal/archive/gf16.go: the exponential and
    logarithm tables built at start-up, multiplication, inversion and powers
    through those tables, and the input-block constants of PAR2.

    The reference notion of multiplication is [pmul], the carry-less product
    modulo the generator polynomial 0x1100B.  The file shows that the table
    look-ups of the code compute it, which needs the fact that 2 generates the
    whole multiplicative group. *)

From stdpp Require Import base gmap list numbers.
From Stdlib Require Import ZArith Lia Lists.Finite.
From S2P Require Import Prelude.
From S2P Require Totient.

Local Open Scope Z_scope.

(** ** Constants *)

Definition gf16Poly : Z := 0x1100B.
Definition gf16Limit : Z := 65535.
Definition MaxPAR2TotalBlocks : Z := 32768.

(** ** The tables *)

(** A fixed-size array of zero-initialised words, by index. *)
Definition aget (t : gmap Z Z) (i : Z) : Z := default 0 (t !! i).

(** The body of the shift register: [x <<= 1; if x&0x10000 != 0 { x ^= poly }]. *)
Definition xtime (x : Z) : Z :=
  let y := u32 (Z.shiftl x 1) in
  if Z.land y 0x10000 =? 0 then y else Z.lxor y gf16Poly.

Record gf16_state := GfState {
  gi_x : Z;
  gi_i : Z;
  gf16ALog : gmap Z Z;
  gf16Log : gmap Z Z
}.

Definition gf16Init_step (s : gf16_state) : gf16_state :=
  {| gi_x := xtime (gi_x s);
     gi_i := gi_i s + 1;
     gf16ALog := <[gi_i s := u16 (gi_x s)]> (gf16ALog s);
     gf16Log := <[u16 (gi_x s) := u16 (gi_i s)]> (gf16Log s) |}.

Definition gf16Init : gf16_state :=
  Nat.iter (Z.to_nat gf16Limit) gf16Init_step (GfState 1 0 ∅ ∅).

(** The tables are sealed after start-up: conversion never runs the 65535
    iterations, and proofs read the tables through [gf16Tables_eq]. *)
Definition gf16Tables_aux : seal gf16Init. Proof. by eexists. Qed.
Definition gf16Tables : gf16_state := gf16Tables_aux.(unseal).
Lemma gf16Tables_eq : gf16Tables = gf16Init.
Proof. exact gf16Tables_aux.(seal_eq). Qed.

Definition alog (i : Z) : Z := aget (gf16ALog gf16Tables) i.
Definition glog (a : Z) : Z := aget (gf16Log gf16Tables) a.

(** ** Field operations *)

Definition gf16Mul (a b : Z) : Z :=
  if (a =? 0) || (b =? 0) then 0
  else
    let sum := u32 (glog a + glog b) in
    let sum := if gf16Limit <=? sum then u32 (sum - gf16Limit) else sum in
    alog sum.

Definition gf16Inv (a : Z) : option Z :=
  if a =? 0 then None
  else
    let l := glog a in
    if l =? 0 then Some 1 else Some (alog (u32 (gf16Limit - l))).

Definition gf16Pow (a e : Z) : Z :=
  if e =? 0 then 1
  else if a =? 0 then 0
  else alog (u64 (glog a * e) mod gf16Limit).

(** [gcdU32] loops until its second argument is zero; [fuel] bounds the
    iterations and [gcdU32] supplies enough of it for any pair of 32-bit
    words. *)
Fixpoint gcdU32_loop (fuel : nat) (a b : Z) : option Z :=
  match fuel with
  | O => None
  | S fuel => if b =? 0 then Some a else gcdU32_loop fuel b (a mod b)
  end.

Definition gcdU32 (a b : Z) : Z := default 0 (gcdU32_loop 66 a b).

(** The constants of the whole field, in discovery order. *)
Definition par2Const : list Z :=
  omap (fun l => if gcdU32 gf16Limit l =? 1 then Some (alog l) else None)
       (seqZ 1 (gf16Limit - 1)).

Definition PAR2InputConstants (count : Z) : option (list Z) :=
  if (count <=? 0) || (MaxPAR2TotalBlocks <? count) then None
  else
    let values := par2Const in
    if Z.of_nat (length values) <? count then None
    else Some (take (Z.to_nat count) values).

(** ** The reference product *)

(** Shift-and-add multiplication: bit [i] of [b] contributes [a * x^i]. *)
Fixpoint pmul_loop (n : nat) (a b : Z) : Z :=
  match n with
  | O => 0
  | S n => Z.lxor (if Z.odd b then a else 0) (pmul_loop n (xtime a) (Z.div2 b))
  end.

Definition pmul (a b : Z) : Z := pmul_loop 16 a b.

(** The [n]-th power of the primitive element 2. *)
Definition pw (n : nat) : Z := Nat.iter n xtime 1.

(** Powers by repeated squaring, for evaluation. *)
Fixpoint ppow (a : Z) (e : positive) : Z :=
  match e with
  | xH => a
  | xO e => let h := ppow a e in pmul h h
  | xI e => let h := ppow a e in pmul (pmul h h) a
  end.

(** A 16-bit word. *)
Abbreviation word := (fits 16).

(** ** Linearity *)

Definition additive (f : Z -> Z) : Prop :=
  forall a b, word a -> word b -> f (Z.lxor a b) = Z.lxor (f a) (f b).

Lemma additive_0 f : additive f -> f 0 = 0.
Proof.
  intros Hf. assert (H0 : word 0) by (unfold fits; lia).
  pose proof (Hf 0 0 H0 H0) as H. rewrite Z.lxor_nilpotent in H.
  rewrite H. apply Z.lxor_nilpotent.
Qed.

Lemma split_top_bit (k : Z) a :
  0 <= k -> fits (k + 1) a ->
  a = Z.lxor (a mod 2 ^ k) (if Z.testbit a k then 2 ^ k else 0) /\ fits k (a mod 2 ^ k).
Proof.
  intros Hk Ha. split; [|apply Z.mod_pos_bound; lia].
  apply Z.bits_inj'; intros i Hi. rewrite Z.lxor_spec.
  destruct (decide (i = k)) as [->|Hne].
  - rewrite Z.mod_pow2_bits_high by lia.
    destruct (Z.testbit a k); [rewrite Z.pow2_bits_true by lia|rewrite Z.bits_0]; done.
  - assert (Hr : Z.testbit (if Z.testbit a k then 2 ^ k else 0) i = false).
    { destruct (Z.testbit a k); [apply Z.pow2_bits_false; lia|apply Z.bits_0]. }
    rewrite Hr, xorb_false_r. destruct (decide (i < k)).
    + by rewrite Z.mod_pow2_bits_low by lia.
    + rewrite Z.mod_pow2_bits_high by lia.
      destruct (decide (a = 0)) as [->|]; [apply Z.bits_0|].
      apply Z.bits_above_log2; [unfold fits in Ha; lia|].
      apply Z.lt_le_trans with (k + 1); [|lia]. apply fits_log2; [lia|done].
Qed.

Lemma additive_ext f g :
  additive f -> additive g ->
  (forall k, 0 <= k < 16 -> f (2 ^ k) = g (2 ^ k)) ->
  forall a, word a -> f a = g a.
Proof.
  intros Hf Hg Hb.
  assert (Hn : forall n : nat, (n <= 16)%nat -> forall a, fits (Z.of_nat n) a -> f a = g a).
  { induction n as [|n IH]; intros Hn a Ha.
    - assert (a = 0) as -> by (unfold fits in Ha; lia). by rewrite !additive_0.
    - replace (Z.of_nat (S n)) with (Z.of_nat n + 1) in Ha by lia.
      destruct (split_top_bit (Z.of_nat n) a ltac:(lia) Ha) as [Hs Hl].
      assert (Hp : 2 ^ Z.of_nat n < 2 ^ 16) by (apply Z.pow_lt_mono_r; lia).
      assert (word (a mod 2 ^ Z.of_nat n)) by (unfold fits in *; lia).
      assert (word (2 ^ Z.of_nat n)) by (unfold fits in *; lia).
      rewrite Hs. destruct (Z.testbit a (Z.of_nat n)).
      + rewrite Hf, Hg by done. rewrite IH by (done || lia). by rewrite Hb by lia.
      + rewrite !Z.lxor_0_r. apply IH; [lia|done]. }
  intros a Ha. apply (Hn 16%nat); [lia|done].
Qed.

Definition basis : list Z := map (fun k => 2 ^ Z.of_nat k) (seq 0 16).

Lemma basis_forall (P : Z -> bool) :
  forallb P basis = true -> forall k, 0 <= k < 16 -> P (2 ^ k) = true.
Proof.
  intros H k Hk. rewrite forallb_forall in H. apply H.
  unfold basis. apply in_map_iff. exists (Z.to_nat k).
  split; [by rewrite Z2Nat.id by lia|]. apply in_seq. lia.
Qed.

Lemma word_pow2 k : 0 <= k < 16 -> word (2 ^ k).
Proof. intros. unfold fits. split; [lia|]. apply Z.pow_lt_mono_r; lia. Qed.

(** ** The shift register is linear and stays within 16 bits *)

Lemma land_bit16 y : (Z.land y 0x10000 =? 0) = negb (Z.testbit y 16).
Proof.
  change 0x10000 with (2 ^ 16). rewrite Z.land_comm.
  destruct (Z.testbit y 16) eqn:E; simpl.
  - apply Z.eqb_neq. intros H.
    assert (Z.testbit (Z.land (2 ^ 16) y) 16 = false) as H' by (rewrite H; apply Z.bits_0).
    rewrite Z.land_spec, Z.pow2_bits_true, E in H' by lia. done.
  - apply Z.eqb_eq. apply Z.bits_inj'; intros i Hi.
    rewrite Z.land_spec, Z.bits_0. destruct (decide (i = 16)) as [->|].
    + by rewrite E, andb_false_r.
    + rewrite Z.pow2_bits_false by lia. done.
Qed.

Lemma xtime_unfold x : word x ->
  xtime x = Z.lxor (Z.shiftl x 1) (if Z.testbit x 15 then gf16Poly else 0).
Proof.
  intros Hx. unfold xtime.
  rewrite u32_small by (unfold fits in *; rewrite Z.shiftl_mul_pow2 by lia; lia).
  rewrite land_bit16, Z.shiftl_spec by lia. change (16 - 1) with 15.
  destruct (Z.testbit x 15); simpl; [done|by rewrite Z.lxor_0_r].
Qed.

Lemma xtime_additive : additive xtime.
Proof.
  intros a b Ha Hb. rewrite !xtime_unfold by (done || apply fits_lxor; done || lia).
  rewrite Z.lxor_spec, Z.shiftl_lxor.
  generalize (Z.shiftl a 1) as p, (Z.shiftl b 1) as q. intros p q.
  destruct (Z.testbit a 15), (Z.testbit b 15); simpl; xor_bits.
Qed.

Lemma xtime_word x : word x -> word (xtime x).
Proof.
  intros Hx. rewrite xtime_unfold by done.
  destruct (split_top_bit 15 x ltac:(lia) Hx) as [Hs Hl].
  set (l := x mod 2 ^ 15) in *.
  assert (Hl2 : word (Z.shiftl l 1)).
  { unfold fits in *. rewrite Z.shiftl_mul_pow2 by lia. lia. }
  assert (E : Z.shiftl x 1 = Z.lxor (Z.shiftl l 1) (if Z.testbit x 15 then 2 ^ 16 else 0)).
  { rewrite Hs at 1. rewrite Z.shiftl_lxor. by destruct (Z.testbit x 15). }
  rewrite E. destruct (Z.testbit x 15).
  - rewrite Z.lxor_assoc. apply fits_lxor; [lia|done|]. vm_compute. split; congruence.
  - rewrite !Z.lxor_0_r. done.
Qed.

#[export] Hint Resolve xtime_word : harbor.

Lemma word_0 : word 0. Proof. unfold fits; lia. Qed.
Lemma word_1 : word 1. Proof. unfold fits; lia. Qed.
Lemma word_lxor a b : word a -> word b -> word (Z.lxor a b).
Proof. apply fits_lxor; lia. Qed.

#[export] Hint Resolve word_0 word_1 word_lxor word_pow2 : harbor.

Lemma xtime_inj a b : word a -> word b -> xtime a = xtime b -> a = b.
Proof.
  intros Ha Hb E.
  assert (H0 : xtime (Z.lxor a b) = 0).
  { rewrite xtime_additive by done. rewrite E. apply Z.lxor_nilpotent. }
  apply Z.lxor_eq. set (c := Z.lxor a b) in *.
  assert (Hc : word c) by (apply word_lxor; done).
  rewrite xtime_unfold in H0 by done.
  destruct (Z.testbit c 15) eqn:Eb.
  - apply (f_equal (fun z => Z.testbit z 0)) in H0.
    rewrite Z.lxor_spec, Z.shiftl_spec_low in H0 by lia. done.
  - rewrite Z.lxor_0_r, Z.shiftl_mul_pow2 in H0 by lia. lia.
Qed.

(** ** The reference product is a commutative, associative bilinear product *)

Lemma odd_lxor a b : Z.odd (Z.lxor a b) = xorb (Z.odd a) (Z.odd b).
Proof. by rewrite <-!Z.bit0_odd, Z.lxor_spec. Qed.

Lemma div2_lxor a b : Z.div2 (Z.lxor a b) = Z.lxor (Z.div2 a) (Z.div2 b).
Proof. rewrite !Z.div2_spec. apply Z.shiftr_lxor. Qed.

Lemma pmul_loop_lxor_r n a b c :
  pmul_loop n a (Z.lxor b c) = Z.lxor (pmul_loop n a b) (pmul_loop n a c).
Proof.
  revert a b c. induction n as [|n IH]; intros a b c; simpl; [done|].
  rewrite odd_lxor, div2_lxor, IH.
  generalize (pmul_loop n (xtime a) (Z.div2 b)), (pmul_loop n (xtime a) (Z.div2 c)).
  intros p q. destruct (Z.odd b), (Z.odd c); simpl; xor_bits.
Qed.

Lemma pmul_loop_word n a b : word a -> word (pmul_loop n a b).
Proof.
  revert a b. induction n as [|n IH]; intros a b Ha; simpl; [apply word_0|].
  apply word_lxor; [destruct (Z.odd b)|]; auto with harbor.
Qed.

Lemma pmul_loop_lxor_l n a b c :
  word a -> word b ->
  pmul_loop n (Z.lxor a b) c = Z.lxor (pmul_loop n a c) (pmul_loop n b c).
Proof.
  revert a b c. induction n as [|n IH]; intros a b c Ha Hb; simpl; [done|].
  rewrite xtime_additive, IH by auto with harbor.
  generalize (pmul_loop n (xtime a) (Z.div2 c)), (pmul_loop n (xtime b) (Z.div2 c)).
  intros p q. destruct (Z.odd c); simpl; xor_bits.
Qed.

Lemma pmul_word a b : word a -> word (pmul a b).
Proof. apply pmul_loop_word. Qed.
#[export] Hint Resolve pmul_word : harbor.

Lemma pmul_lxor_r a b c : pmul a (Z.lxor b c) = Z.lxor (pmul a b) (pmul a c).
Proof. apply pmul_loop_lxor_r. Qed.
Lemma pmul_lxor_l a b c :
  word a -> word b -> pmul (Z.lxor a b) c = Z.lxor (pmul a c) (pmul b c).
Proof. apply pmul_loop_lxor_l. Qed.

(** Two products that are additive in both arguments agree on all words when
    they agree on the 256 pairs of powers of two. *)
Lemma biadditive_ext (f g : Z -> Z -> Z) :
  (forall a, word a -> additive (f a)) -> (forall a, word a -> additive (g a)) ->
  (forall b, additive (fun a => f a b)) -> (forall b, additive (fun a => g a b)) ->
  forallb (fun a => forallb (fun b => f a b =? g a b) basis) basis = true ->
  forall a b, word a -> word b -> f a b = g a b.
Proof.
  intros Hf Hg Hf' Hg' Hc a b Ha Hb.
  apply (additive_ext (f a) (g a)); [by apply Hf|by apply Hg| |done].
  intros j Hj. apply (additive_ext (fun a => f a _) (fun a => g a _)); [apply Hf'|apply Hg'| |done].
  intros i Hi. apply Z.eqb_eq.
  apply (basis_forall (fun b => f (2 ^ i) b =? g (2 ^ i) b)); [|done].
  by apply (basis_forall (fun a => forallb (fun b => f a b =? g a b) basis)).
Qed.

Lemma pmul_comm a b : word a -> word b -> pmul a b = pmul b a.
Proof.
  revert a b. apply (biadditive_ext pmul (fun a b => pmul b a)).
  - intros a _ b c _ _. apply pmul_lxor_r.
  - intros a _ b c Hb Hc. by apply pmul_lxor_l.
  - intros b a c Ha Hc. by apply pmul_lxor_l.
  - intros b a c _ _. apply pmul_lxor_r.
  - vm_compute. reflexivity.
Qed.

Lemma pmul_xtime_r a b : word a -> word b -> pmul a (xtime b) = xtime (pmul a b).
Proof.
  revert a b. apply (biadditive_ext (fun a b => pmul a (xtime b)) (fun a b => xtime (pmul a b))).
  - intros a _ b c Hb Hc. rewrite xtime_additive by done. apply pmul_lxor_r.
  - intros a Ha b c Hb Hc. rewrite pmul_lxor_r. apply xtime_additive; auto with harbor.
  - intros b a c Ha Hc. by apply pmul_lxor_l.
  - intros b a c Ha Hc. rewrite pmul_lxor_l by done. apply xtime_additive; auto with harbor.
  - vm_compute. reflexivity.
Qed.

Lemma pmul_1_r a : pmul a 1 = a.
Proof. unfold pmul. simpl. by rewrite Z.lxor_0_r. Qed.
Lemma pmul_0_r a : pmul a 0 = 0.
Proof. reflexivity. Qed.
Lemma pmul_1_l a : word a -> pmul 1 a = a.
Proof. intros. rewrite pmul_comm by auto with harbor. apply pmul_1_r. Qed.
Lemma pmul_0_l a : word a -> pmul 0 a = 0.
Proof. intros. rewrite pmul_comm by auto with harbor. apply pmul_0_r. Qed.

(** ** Powers of the primitive element *)

Lemma pw_S n : pw (S n) = xtime (pw n).
Proof. reflexivity. Qed.

Lemma pw_word n : word (pw n).
Proof. induction n; [apply word_1|]. rewrite pw_S. auto with harbor. Qed.
#[export] Hint Resolve pw_word : harbor.

Lemma pw_add m n : pw (m + n) = pmul (pw m) (pw n).
Proof.
  induction n as [|n IH].
  - rewrite Nat.add_0_r. symmetry. apply pmul_1_r.
  - rewrite Nat.add_succ_r, !pw_S, IH, pmul_xtime_r by auto with harbor. done.
Qed.

Lemma basis_pw : forallb (fun k => Z.eqb (pw k) (2 ^ Z.of_nat k)) (seq 0 16) = true.
Proof. vm_compute. reflexivity. Qed.

Lemma pow2_pw k : 0 <= k < 16 -> 2 ^ k = pw (Z.to_nat k).
Proof.
  intros Hk. pose proof basis_pw as H. rewrite forallb_forall in H.
  specialize (H (Z.to_nat k)). rewrite Z2Nat.id in H by lia.
  symmetry. apply Z.eqb_eq, H, in_seq. lia.
Qed.

Lemma pmul_assoc a b c :
  word a -> word b -> word c -> pmul (pmul a b) c = pmul a (pmul b c).
Proof.
  intros Ha Hb. revert c.
  apply (additive_ext (fun c => pmul (pmul a b) c) (fun c => pmul a (pmul b c))).
  - intros c d _ _. apply pmul_lxor_r.
  - intros c d _ _. by rewrite !pmul_lxor_r.
  - intros k Hk. rewrite pow2_pw by done. induction (Z.to_nat k) as [|n IH].
    + by rewrite !pmul_1_r.
    + rewrite pw_S, !pmul_xtime_r, IH by auto with harbor. done.
Qed.

Lemma ppow_pw e : ppow 2 e = pw (Pos.to_nat e).
Proof.
  induction e as [e IH|e IH|]; cbn [ppow].
  - rewrite IH, <-!pw_add. change 2 with (pw 1). rewrite <-pw_add.
    rewrite Pos2Nat.inj_xI. f_equal. lia.
  - rewrite IH, <-!pw_add. rewrite Pos2Nat.inj_xO. f_equal. lia.
  - reflexivity.
Qed.

(** *** The order of 2 is exactly 65535 *)

Definition period (n : nat) : Prop := pw n = 1.

Lemma period_limit : period (Z.to_nat gf16Limit).
Proof. unfold period. change (Z.to_nat gf16Limit) with (Pos.to_nat 65535).
  rewrite <-ppow_pw. vm_compute. reflexivity. Qed.

Lemma period_add m n : period m -> period (m + n) -> period n.
Proof.
  unfold period. rewrite pw_add. intros ->. by rewrite pmul_1_l by auto with harbor.
Qed.

Lemma period_mul m k : period m -> period (k * m).
Proof.
  unfold period. intros Hm. induction k as [|k IH]; [done|].
  simpl. rewrite pw_add, Hm, IH. reflexivity.
Qed.

Lemma period_gcd m n : period m -> period n -> period (Nat.gcd m n).
Proof.
  intros Hm Hn.
  destruct (decide (m = 0%nat)) as [->|Hm0]; [done|].
  destruct (Nat.gcd_bezout_pos m n ltac:(lia)) as (a & b & E).
  apply (period_add (b * n)); [by apply period_mul|].
  rewrite Nat.add_comm, <-E. by apply period_mul.
Qed.

(** Every divisor of 65535 other than 65535 itself divides 65535/p for one of
    the four prime factors p.  One of a divisor and its cofactor is below 256,
    so a check of the numbers up to 255 settles it. *)
Definition divides_any (g : Z) : bool :=
  existsb (fun p => (65535 / p) mod g =? 0) [3; 5; 17; 257].

Lemma small_divisors :
  forallb (fun d => negb (65535 mod d =? 0) ||
     ((divides_any d) && ((d =? 1) || divides_any (65535 / d)))) (seqZ 1 255) = true.
Proof. vm_compute. reflexivity. Qed.

Lemma proper_divisor g :
  0 < g -> (g | 65535) -> g <> 65535 -> divides_any g = true.
Proof.
  intros Hg [k Hk] Hne. pose proof small_divisors as Hs. rewrite forallb_forall in Hs.
  assert (0 < k) by nia.
  assert (Hin : forall d, 1 <= d <= 255 -> In d (seqZ 1 255)).
  { intros d Hd. apply list_elem_of_In, elem_of_seqZ. lia. }
  destruct (decide (g <= 255)).
  - specialize (Hs g (Hin g ltac:(lia))). rewrite Hk, Z.mod_mul in Hs by lia.
    simpl in Hs. by apply andb_prop in Hs as [-> _].
  - specialize (Hs k (Hin k ltac:(nia))). rewrite Hk, Z.mul_comm, Z.mod_mul in Hs by lia.
    rewrite Z.div_mul in Hs by lia. simpl in Hs. apply andb_prop in Hs as [_ Hs].
    destruct (Z.eqb_spec k 1); [lia|done].
Qed.

Lemma not_period p : pw (Pos.to_nat p) <> 1 -> forall g, (0 < g)%nat -> (Z.of_nat g | Zpos p) -> ~ period g.
Proof.
  intros Hp g Hg [k Hk] Hper. apply Hp.
  replace (Pos.to_nat p) with (Z.to_nat k * g)%nat by nia.
  by apply period_mul.
Qed.

Lemma prime_powers p :
  In p [3; 5; 17; 257] -> exists e, 65535 / p = Zpos e /\ pw (Pos.to_nat e) <> 1.
Proof.
  intros [<-|[<-|[<-|[<-|[]]]]].
  - exists 21845%positive. rewrite <-ppow_pw. vm_compute. split; congruence.
  - exists 13107%positive. rewrite <-ppow_pw. vm_compute. split; congruence.
  - exists 3855%positive. rewrite <-ppow_pw. vm_compute. split; congruence.
  - exists 255%positive. rewrite <-ppow_pw. vm_compute. split; congruence.
Qed.

Lemma pw_order n : (0 < n)%nat -> Z.of_nat n < gf16Limit -> ~ period n.
Proof.
  intros Hn Hlt Hper. unfold gf16Limit in *.
  pose proof (period_gcd _ _ Hper period_limit) as Hg.
  set (g := Nat.gcd n (Z.to_nat gf16Limit)) in *.
  assert (Hgn : (g <= n)%nat) by (apply Nat.divide_pos_le; [lia|apply Nat.gcd_divide_l]).
  assert (Hgd : (Z.of_nat g | 65535)).
  { destruct (Nat.gcd_divide_r n (Z.to_nat gf16Limit)) as [q Hq]. fold g in Hq.
    exists (Z.of_nat q). unfold gf16Limit in Hq. lia. }
  assert (Hg0 : (0 < g)%nat).
  { destruct (decide (g = 0%nat)) as [E|]; [|lia].
    rewrite E in Hgd. destruct Hgd as [q Hq]. lia. }
  pose proof (proper_divisor (Z.of_nat g) ltac:(lia) Hgd ltac:(lia)) as H.
  unfold divides_any in H. apply existsb_exists in H as (p & Hp & Hm).
  apply Z.eqb_eq, Z.mod_divide in Hm; [|lia].
  revert Hg. apply prime_powers in Hp as (e & He & Hpw). rewrite He in Hm.
  exact (not_period e Hpw g Hg0 Hm).
Qed.

Lemma pw_cancel m n : pw m = pw (m + n) -> period n.
Proof.
  unfold period. induction m as [|m IH]; [done|].
  intros E. apply IH. apply xtime_inj; auto with harbor.
Qed.

Lemma pw_inj m n :
  Z.of_nat m < gf16Limit -> Z.of_nat n < gf16Limit -> pw m = pw n -> m = n.
Proof.
  assert (Hw : forall m n, (m < n)%nat -> Z.of_nat n < gf16Limit -> pw m <> pw n).
  { intros a b Hab Hb E. apply (pw_order (b - a)); [lia|lia|].
    apply (pw_cancel a). rewrite E. f_equal. lia. }
  intros Hm Hn E. destruct (Nat.lt_trichotomy m n) as [H|[H|H]]; [|done|].
  - by destruct (Hw m n H Hn).
  - by destruct (Hw n m H Hm).
Qed.

Lemma pw_nonzero n : pw n <> 0.
Proof.
  induction n as [|n IH]; [done|]. rewrite pw_S. intros H. apply IH.
  apply xtime_inj; auto with harbor.
Qed.

(** Every non-zero word is a power of 2, by counting. *)
Definition pw_list : list Z := map pw (seq 0 (Z.to_nat gf16Limit)).

Lemma pw_list_NoDup : NoDup pw_list.
Proof.
  apply NoDup_ListNoDup, Finite.Injective_map_NoDup_in.
  - intros m n Hm Hn. apply in_seq in Hm, Hn. apply pw_inj; lia.
  - apply seq_NoDup.
Qed.

Lemma pw_surj a : word a -> a <> 0 -> exists n, Z.of_nat n < gf16Limit /\ a = pw n.
Proof.
  intros Ha Hne.
  assert (Hin : incl (seqZ 1 gf16Limit) pw_list).
  { apply NoDup_length_incl.
    - apply NoDup_ListNoDup, pw_list_NoDup.
    - unfold pw_list. rewrite length_map, length_seq, length_seqZ. done.
    - intros x Hx. unfold pw_list in Hx. apply in_map_iff in Hx as (n & <- & _).
      apply list_elem_of_In, elem_of_seqZ.
      pose proof (pw_word n). pose proof (pw_nonzero n). unfold fits, gf16Limit in *. lia. }
  specialize (Hin a). unfold pw_list in Hin. rewrite in_map_iff in Hin.
  destruct Hin as (n & <- & Hn).
  { apply list_elem_of_In, elem_of_seqZ. unfold fits, gf16Limit in *. lia. }
  apply in_seq in Hn. exists n. split; [lia|done].
Qed.

(** ** The tables hold the powers and the discrete logarithms *)

Lemma gf16Init_state n :
  Z.of_nat n <= gf16Limit ->
  let s := Nat.iter n gf16Init_step (GfState 1 0 ∅ ∅) in
  gi_x s = pw n /\ gi_i s = Z.of_nat n /\
  (forall k, (k < n)%nat -> gf16ALog s !! Z.of_nat k = Some (pw k)) /\
  (forall k, (k < n)%nat -> gf16Log s !! pw k = Some (Z.of_nat k)).
Proof.
  induction n as [|n IH]; intros Hn; [simpl; repeat split; intros; lia|].
  cbn zeta. rewrite Nat.iter_succ.
  destruct (IH ltac:(lia)) as (Hx & Hi & Ha & Hl).
  set (s := Nat.iter n gf16Init_step (GfState 1 0 ∅ ∅)) in *.
  unfold gf16Init_step; cbn [gi_x gi_i gf16ALog gf16Log].
  rewrite Hx, Hi, (u16_small (pw n)), (u16_small (Z.of_nat n))
    by (apply pw_word || (unfold fits, gf16Limit in *; lia)).
  split; [by rewrite pw_S|]. split; [lia|]. split; intros k Hk.
  - destruct (decide (k = n)) as [->|]; [by rewrite lookup_insert_eq|].
    rewrite lookup_insert_ne by lia. apply Ha. lia.
  - destruct (decide (k = n)) as [->|]; [by rewrite lookup_insert_eq|].
    rewrite lookup_insert_ne; [apply Hl; lia|].
    intros E. apply pw_inj in E; unfold gf16Limit in *; lia.
Qed.

Lemma gf16Init_tables :
  (forall k, Z.of_nat k < gf16Limit -> alog (Z.of_nat k) = pw k) /\
  (forall k, Z.of_nat k < gf16Limit -> glog (pw k) = Z.of_nat k).
Proof.
  destruct (gf16Init_state (Z.to_nat gf16Limit) ltac:(unfold gf16Limit; lia)) as (_ & _ & Ha & Hl).
  unfold alog, glog, aget. rewrite gf16Tables_eq. unfold gf16Init, gf16Limit in *.
  split; intros k Hk; [rewrite Ha by lia|rewrite Hl by lia]; done.
Qed.

Lemma alog_pw k : Z.of_nat k < gf16Limit -> alog (Z.of_nat k) = pw k.
Proof. exact (proj1 gf16Init_tables k). Qed.
Lemma glog_pw k : Z.of_nat k < gf16Limit -> glog (pw k) = Z.of_nat k.
Proof. exact (proj2 gf16Init_tables k). Qed.

Lemma pw_mod n : pw n = pw (n mod Z.to_nat gf16Limit).
Proof.
  rewrite (Nat.div_mod_eq n (Z.to_nat gf16Limit)) at 1.
  rewrite pw_add, Nat.mul_comm, (period_mul _ _ period_limit).
  apply pmul_1_l; auto with harbor.
Qed.

Lemma pw_sub_limit n : (Z.to_nat gf16Limit <= n)%nat -> pw n = pw (n - Z.to_nat gf16Limit).
Proof.
  intros Hn. replace n with (Z.to_nat gf16Limit + (n - Z.to_nat gf16Limit))%nat at 1 by lia.
  rewrite pw_add, period_limit. apply pmul_1_l; auto with harbor.
Qed.

(** The index of a table read is always below the table's length. *)
Lemma gf16Mul_in_bounds a b :
  word a -> word b -> a <> 0 -> b <> 0 ->
  let sum := u32 (glog a + glog b) in
  0 <= (if gf16Limit <=? sum then u32 (sum - gf16Limit) else sum) < gf16Limit.
Proof.
  intros Ha Hb Ha0 Hb0.
  destruct (pw_surj a Ha Ha0) as (m & Hm & ->), (pw_surj b Hb Hb0) as (n & Hn & ->).
  rewrite !glog_pw by assumption. unfold gf16Limit in *. cbn zeta.
  rewrite (u32_small (_ + _)) by (unfold fits; lia).
  case (Z.leb_spec 65535 (Z.of_nat m + Z.of_nat n)); intros; [|lia].
  rewrite u32_small by (unfold fits; lia). lia.
Qed.

Lemma gf16Mul_pmul a b : word a -> word b -> gf16Mul a b = pmul a b.
Proof.
  intros Ha Hb. unfold gf16Mul.
  destruct (Z.eqb_spec a 0) as [->|Ha0]; [simpl; by rewrite pmul_0_l|].
  destruct (Z.eqb_spec b 0) as [->|Hb0]; [done|]. cbn [orb].
  destruct (pw_surj a Ha Ha0) as (m & Hm & ->), (pw_surj b Hb Hb0) as (n & Hn & ->).
  rewrite !glog_pw by assumption. rewrite <-pw_add. unfold gf16Limit in *. cbn zeta.
  rewrite (u32_small (_ + _)) by (unfold fits; lia).
  case (Z.leb_spec 65535 (Z.of_nat m + Z.of_nat n)); intros.
  - rewrite u32_small by (unfold fits; lia). rewrite (pw_sub_limit (m + n)) by (unfold gf16Limit; lia).
    rewrite <-alog_pw by (unfold gf16Limit; lia). f_equal. unfold gf16Limit. lia.
  - rewrite <-Nat2Z.inj_add. apply alog_pw. unfold gf16Limit. lia.
Qed.

Lemma gf16Mul_word a b : word a -> word b -> word (gf16Mul a b).
Proof. intros. rewrite gf16Mul_pmul by done. auto with harbor. Qed.
#[export] Hint Resolve gf16Mul_word : harbor.

Lemma gf16Mul_comm a b : word a -> word b -> gf16Mul a b = gf16Mul b a.
Proof. intros. rewrite !gf16Mul_pmul by done. by apply pmul_comm. Qed.
Lemma gf16Mul_assoc a b c :
  word a -> word b -> word c -> gf16Mul (gf16Mul a b) c = gf16Mul a (gf16Mul b c).
Proof. intros. rewrite !gf16Mul_pmul by auto with harbor. by apply pmul_assoc. Qed.
Lemma gf16Mul_lxor_r a b c : word a -> word b -> word c ->
  gf16Mul a (Z.lxor b c) = Z.lxor (gf16Mul a b) (gf16Mul a c).
Proof. intros. rewrite !gf16Mul_pmul by auto with harbor. apply pmul_lxor_r. Qed.
Lemma gf16Mul_lxor_l a b c : word a -> word b -> word c ->
  gf16Mul (Z.lxor a b) c = Z.lxor (gf16Mul a c) (gf16Mul b c).
Proof. intros. rewrite !gf16Mul_pmul by auto with harbor. by apply pmul_lxor_l. Qed.
Lemma gf16Mul_0_l b : gf16Mul 0 b = 0.
Proof. reflexivity. Qed.
Lemma gf16Mul_0_r a : gf16Mul a 0 = 0.
Proof. unfold gf16Mul. by rewrite orb_true_r. Qed.
Lemma gf16Mul_1_l a : word a -> gf16Mul 1 a = a.
Proof. intros. rewrite gf16Mul_pmul by auto with harbor. by apply pmul_1_l. Qed.
Lemma gf16Mul_1_r a : word a -> gf16Mul a 1 = a.
Proof. intros. rewrite gf16Mul_pmul by auto with harbor. by apply pmul_1_r. Qed.

Lemma gf16Mul_nonzero a b :
  word a -> word b -> a <> 0 -> b <> 0 -> gf16Mul a b <> 0.
Proof.
  intros Ha Hb Ha0 Hb0. rewrite gf16Mul_pmul by done.
  destruct (pw_surj a Ha Ha0) as (m & _ & ->), (pw_surj b Hb Hb0) as (n & _ & ->).
  rewrite <-pw_add. apply pw_nonzero.
Qed.

Lemma gf16Inv_Some a :
  word a -> a <> 0 -> exists b, gf16Inv a = Some b /\ word b /\ gf16Mul a b = 1.
Proof.
  intros Ha Ha0. destruct (pw_surj a Ha Ha0) as (n & Hn & ->).
  unfold gf16Inv. destruct (Z.eqb_spec (pw n) 0) as [E|_]; [done|].
  rewrite glog_pw by assumption. cbn zeta.
  destruct (Z.eqb_spec (Z.of_nat n) 0) as [E|E].
  - exists 1. assert (n = 0%nat) as -> by lia. split; [done|]. split; [apply word_1|].
    rewrite gf16Mul_1_r by apply word_1. reflexivity.
  - eexists; split; [reflexivity|]. unfold gf16Limit in *.
    rewrite u32_small by (unfold fits; lia).
    replace (65535 - Z.of_nat n) with (Z.of_nat (Z.to_nat 65535 - n)) by lia.
    rewrite alog_pw by (unfold gf16Limit; lia). split; [apply pw_word|].
    rewrite gf16Mul_pmul by apply pw_word. rewrite <-pw_add.
    replace (n + (Z.to_nat 65535 - n))%nat with (Z.to_nat 65535) by lia. apply period_limit.
Qed.

Lemma gf16Inv_None a : gf16Inv a = None <-> a = 0.
Proof.
  unfold gf16Inv. destruct (Z.eqb_spec a 0) as [->|]; [done|].
  split; [|done]. destruct (_ =? 0); done.
Qed.

(** Reference power: [e]-fold product. *)
Definition ppower (a : Z) (e : nat) : Z := Nat.iter e (pmul a) 1.

Lemma ppower_word a e : word a -> word (ppower a e).
Proof. intros. induction e; simpl; auto with harbor. Qed.

Lemma ppower_pw n e : ppower (pw n) e = pw (e * n).
Proof.
  induction e as [|e IH]; [done|]. unfold ppower in *. simpl. rewrite IH.
  by rewrite <-pw_add.
Qed.

Lemma gf16Pow_ppower a e : word a -> fits 32 e -> gf16Pow a e = ppower a (Z.to_nat e).
Proof.
  intros Ha He. unfold gf16Pow.
  destruct (Z.eqb_spec e 0) as [->|He0]; [done|].
  destruct (Z.eqb_spec a 0) as [->|Ha0].
  { unfold fits in He. replace (Z.to_nat e) with (S (Z.to_nat (e - 1))) by lia.
    unfold ppower. simpl. rewrite pmul_0_l; [done|]. apply (ppower_word 0). auto with harbor. }
  destruct (pw_surj a Ha Ha0) as (n & Hn & ->). rewrite glog_pw by assumption. rewrite ppower_pw.
  unfold gf16Limit, fits in *. rewrite u64_small by (unfold fits; nia).
  rewrite (pw_mod (Z.to_nat e * n)).
  rewrite <-alog_pw.
  - f_equal. rewrite Nat2Z.inj_mod. unfold gf16Limit. f_equal; lia.
  - rewrite Nat2Z.inj_mod. unfold gf16Limit. apply Z.mod_pos_bound. lia.
Qed.

(** ** The input-block constants *)

Lemma gcdU32_loop_S fuel a b :
  gcdU32_loop (S fuel) a b = if b =? 0 then Some a else gcdU32_loop fuel b (a mod b).
Proof. reflexivity. Qed.

Lemma gcdU32_loop_gcd (k : nat) a b :
  0 <= a -> 0 <= b < 2 ^ Z.of_nat k ->
  gcdU32_loop (S (2 * k)) a b = Some (Z.gcd a b).
Proof.
  revert a b. induction k as [|k IH]; intros a b Ha Hb.
  - assert (b = 0) as -> by lia. simpl. by rewrite Z.gcd_0_r, Z.abs_eq by lia.
  - replace (S (2 * S k)) with (S (S (S (2 * k)))) by lia. rewrite gcdU32_loop_S.
    destruct (Z.eqb_spec b 0) as [->|Hb0]; [by rewrite Z.gcd_0_r, Z.abs_eq by lia|].
    rewrite gcdU32_loop_S.
    assert (Hr : 0 <= a mod b < b) by (apply Z.mod_pos_bound; lia).
    assert (E1 : Z.gcd b (a mod b) = Z.gcd a b).
    { rewrite Z.gcd_comm, Z.gcd_mod by lia. apply Z.gcd_comm. }
    destruct (Z.eqb_spec (a mod b) 0) as [E0|Hr0].
    + rewrite <-E1, E0, Z.gcd_0_r, Z.abs_eq by lia. done.
    + rewrite IH.
      * f_equal. rewrite Z.gcd_comm, Z.gcd_mod by lia. rewrite Z.gcd_comm. apply E1.
      * lia.
      * pose proof (Z.mod_pos_bound b (a mod b) ltac:(lia)).
        pose proof (Z.div_mod b (a mod b) ltac:(lia)).
        assert (1 <= b / (a mod b)) by (apply Z.div_le_lower_bound; lia).
        rewrite Nat2Z.inj_succ, Z.pow_succ_r in Hb by lia. nia.
Qed.

(** The fuel is enough for every pair of 32-bit words. *)
Lemma gcdU32_gcd a b : fits 32 a -> fits 32 b -> gcdU32 a b = Z.gcd a b.
Proof.
  intros Ha Hb. unfold gcdU32.
  change 66%nat with (S (S (2 * 32))). rewrite gcdU32_loop_S.
  destruct (Z.eqb_spec b 0) as [->|Hb0].
  { simpl. unfold fits in Ha. by rewrite Z.gcd_0_r, Z.abs_eq by lia. }
  unfold fits in *. rewrite (gcdU32_loop_gcd 32); [|lia|].
  - simpl. rewrite (Z.gcd_comm b), Z.gcd_mod by lia. apply Z.gcd_comm.
  - pose proof (Z.mod_pos_bound a b). lia.
Qed.

Lemma of_nat_gcd a b : Z.of_nat (Nat.gcd a b) = Z.gcd (Z.of_nat a) (Z.of_nat b).
Proof.
  destruct (decide (a = 0%nat)) as [->|Ha]; [by rewrite Z.gcd_0_l, Z.abs_eq by lia|].
  symmetry. apply Z.gcd_unique; [lia| | |].
  - destruct (Nat.gcd_divide_l a b) as [k Hk]. exists (Z.of_nat k). lia.
  - destruct (Nat.gcd_divide_r a b) as [k Hk]. exists (Z.of_nat k). lia.
  - intros q [x Hx] [y Hy].
    destruct (Nat.gcd_bezout_pos a b ltac:(lia)) as (u & v & E).
    exists (Z.of_nat u * x - Z.of_nat v * y). nia.
Qed.

(** The discrete logarithms that yield constants. *)
Definition par2_logs : list nat :=
  List.filter (fun l => Nat.eqb (Nat.gcd (Z.to_nat gf16Limit) l) 1) (seq 0 (Z.to_nat gf16Limit)).

Lemma par2_logs_spec l :
  In l par2_logs <-> Z.of_nat l < gf16Limit /\ Z.gcd gf16Limit (Z.of_nat l) = 1.
Proof.
  unfold par2_logs. rewrite filter_In, in_seq, Nat.eqb_eq.
  rewrite <-(Nat2Z.inj_iff (Nat.gcd _ _)), of_nat_gcd. unfold gf16Limit.
  rewrite Z2Nat.id by lia. split; intros [H1 H2]; split; try done; lia.
Qed.

Lemma omap_coprime (ls : list nat) :
  Forall (fun l => Z.of_nat l < gf16Limit) ls ->
  omap (fun l => if gcdU32 gf16Limit l =? 1 then Some (alog l) else None) (map Z.of_nat ls) =
  map pw (List.filter (fun l => Nat.eqb (Nat.gcd (Z.to_nat gf16Limit) l) 1) ls).
Proof.
  induction 1 as [|l ls Hl _ IH]; [done|]. cbn [map omap list_omap List.filter].
  unfold gf16Limit in *.
  rewrite gcdU32_gcd by (unfold fits; lia).
  replace (Z.gcd 65535 (Z.of_nat l) =? 1) with (Nat.gcd (Z.to_nat 65535) l =? 1)%nat.
  - destruct (_ =? 1)%nat; cbn [map]; [rewrite alog_pw by done|]; f_equal; exact IH.
  - apply eq_true_iff_eq. rewrite Nat.eqb_eq, Z.eqb_eq, <-(Nat2Z.inj_iff (Nat.gcd _ _)), of_nat_gcd.
    rewrite Z2Nat.id by lia. done.
Qed.

(** The constants are the powers of 2 at those logarithms, in ascending order. *)
Lemma par2Const_logs : par2Const = map pw par2_logs.
Proof.
  unfold par2Const, par2_logs.
  assert (E : seq 0 (Z.to_nat gf16Limit) = 0%nat :: seq 1 (Z.to_nat (gf16Limit - 1))).
  { replace (Z.to_nat gf16Limit) with (S (Z.to_nat (gf16Limit - 1))) by (unfold gf16Limit; lia).
    done. }
  rewrite E. cbn [List.filter].
  replace (Nat.gcd (Z.to_nat gf16Limit) 0 =? 1)%nat with false.
  2: { symmetry. apply Nat.eqb_neq. rewrite Nat.gcd_0_r. unfold gf16Limit. lia. }
  rewrite <-omap_coprime.
  - assert (E2 : forall n, seqZ 1 (Z.of_nat n) = map Z.of_nat (seq 1 n)).
    { intros n. unfold seqZ. rewrite Nat2Z.id, <-seq_shift, map_map.
      apply map_ext. intros. lia. }
    rewrite <-E2, Z2Nat.id by (unfold gf16Limit; lia). reflexivity.
  - apply List.Forall_forall. intros l Hl. apply in_seq in Hl. unfold gf16Limit in *. lia.
Qed.

Lemma par2Const_length : length par2Const = Z.to_nat MaxPAR2TotalBlocks.
Proof.
  rewrite par2Const_logs, length_map. unfold par2_logs.
  rewrite (@Totient.coprime_count (Z.to_nat gf16Limit)); [|unfold gf16Limit; lia].
  unfold MaxPAR2TotalBlocks. lia.
Qed.

Lemma par2Const_NoDup : NoDup par2Const.
Proof.
  rewrite par2Const_logs. apply NoDup_ListNoDup, Finite.Injective_map_NoDup_in.
  - intros m n Hm Hn E. rewrite par2_logs_spec in Hm, Hn. exact (pw_inj m n (proj1 Hm) (proj1 Hn) E).
  - apply List.NoDup_filter, seq_NoDup.
Qed.

Lemma par2Const_lookup i c :
  par2Const !! i = Some c -> word c /\ c <> 0.
Proof.
  rewrite par2Const_logs, list_lookup_fmap. intros H.
  destruct (par2_logs !! i); [|done]. injection H as <-.
  split; [apply pw_word|apply pw_nonzero].
Qed.

(** ** Properties *)

(** C13. The table arithmetic is the arithmetic of GF(2^16): for any two words
    the product read from the tables is the carry-less product modulo the
    generator polynomial, every non-zero word has the inverse the tables give,
    zero has none, and powers are iterated products. *)
Theorem gf16_arithmetic a b e :
  word a -> word b -> fits 32 e ->
  gf16Mul a b = pmul a b /\ word (gf16Mul a b) /\
  (a = 0 -> gf16Inv a = None) /\
  (a <> 0 -> exists i, gf16Inv a = Some i /\ word i /\ pmul a i = 1) /\
  gf16Pow a e = ppower a (Z.to_nat e).
Proof.
  intros Ha Hb He. split_and!.
  - by apply gf16Mul_pmul.
  - by apply gf16Mul_word.
  - apply gf16Inv_None.
  - intros Ha0. destruct (gf16Inv_Some a Ha Ha0) as (i & H1 & H2 & H3).
    exists i. rewrite gf16Mul_pmul in H3 by done. done.
  - by apply gf16Pow_ppower.
Qed.

Lemma gf16_arithmetic_witness : gf16Mul 0x8000 2 = 0x100B /\ gf16Pow 2 20 = ppower 2 20.
Proof.
  assert (W : word 0x8000 /\ word 2 /\ fits 32 20) by (unfold fits; lia).
  destruct W as (W1 & W2 & W3). split.
  - rewrite (proj1 (gf16_arithmetic 0x8000 2 20 W1 W2 W3)). vm_compute. reflexivity.
  - apply (gf16_arithmetic 2 2 20 W2 W2 W3).
Defined.

(** [PAR2InputConstants] answers every count from 1 to 32768 and no other:
    the constants are the powers of 2 whose logarithms are relatively prime
    to 65535, in ascending order of logarithm, non-zero and pairwise distinct. *)
Theorem input_constants count :
  PAR2InputConstants count =
    (if (1 <=? count) && (count <=? 32768)
     then Some (take (Z.to_nat count) (map pw par2_logs)) else None) /\
  Z.of_nat (length (map pw par2_logs)) = 32768 /\
  NoDup (map pw par2_logs) /\ Forall (fun c => word c /\ c <> 0) (map pw par2_logs) /\
  forall l, In l par2_logs <-> Z.of_nat l < gf16Limit /\ Z.gcd gf16Limit (Z.of_nat l) = 1.
Proof.
  rewrite <-par2Const_logs, par2Const_length. split_and!.
  - unfold PAR2InputConstants, MaxPAR2TotalBlocks. rewrite par2Const_length.
    unfold MaxPAR2TotalBlocks. rewrite Z2Nat.id by lia.
    destruct (Z.leb_spec count 0), (Z.leb_spec 1 count); try lia; [done|].
    destruct (Z.ltb_spec 32768 count), (Z.leb_spec count 32768); try lia; done.
  - unfold MaxPAR2TotalBlocks. lia.
  - apply par2Const_NoDup.
  - apply Forall_lookup. apply par2Const_lookup.
  - apply par2_logs_spec.
Qed.
