(* ===== verification/GF16Linear.v ===== *)
(** Linear algebra over GF(2^16): finite xor-sums, the reference statement of
    a matrix inverse, and the Gauss-Jordan elimination of
    [invertGF16Matrix] (internal/archive/gf16.go).

    A matrix is a list of rows.  The elimination works on augmented rows, the
    pair of a row of [work] and the row of [inv] with the same index, because
    every step of the code treats the two alike. *)

From stdpp Require Import base gmap list numbers.
From Stdlib Require Import ZArith Lia.
From S2P Require Import Prelude GF16.

Local Open Scope Z_scope.

(** ** Finite sums *)

Fixpoint xsum (n : nat) (f : nat -> Z) : Z :=
  match n with
  | O => 0
  | S n => Z.lxor (xsum n f) (f n)
  end.

Definition wordf (f : nat -> Z) : Prop := forall k, word (f k).

Lemma xsum_word n f : (forall k, (k < n)%nat -> word (f k)) -> word (xsum n f).
Proof. intros Hf. induction n; simpl; [apply word_0|]. apply word_lxor; auto. Qed.

Lemma xsum_ext n f g : (forall k, (k < n)%nat -> f k = g k) -> xsum n f = xsum n g.
Proof. intros H. induction n; simpl; [done|]. rewrite IHn, H by auto. done. Qed.

Lemma xsum_0 n f : (forall k, (k < n)%nat -> f k = 0) -> xsum n f = 0.
Proof. intros H. induction n; simpl; [done|]. rewrite IHn, H by auto. done. Qed.

Lemma xsum_lxor n f g : xsum n (fun k => Z.lxor (f k) (g k)) = Z.lxor (xsum n f) (xsum n g).
Proof. induction n; simpl; [done|]. rewrite IHn. xor_bits. Qed.

Lemma xsum_mul_l n a f : word a -> wordf f ->
  gf16Mul a (xsum n f) = xsum n (fun k => gf16Mul a (f k)).
Proof.
  intros Ha Hf. induction n; simpl; [apply gf16Mul_0_r|].
  rewrite gf16Mul_lxor_r, IHn; auto using xsum_word.
Qed.

Lemma xsum_mul_r n a f : word a -> wordf f ->
  gf16Mul (xsum n f) a = xsum n (fun k => gf16Mul (f k) a).
Proof.
  intros Ha Hf. rewrite gf16Mul_comm, xsum_mul_l; auto using xsum_word.
  apply xsum_ext. intros. by apply gf16Mul_comm.
Qed.

Lemma xsum_swap m n (f : nat -> nat -> Z) :
  xsum m (fun i => xsum n (f i)) = xsum n (fun j => xsum m (fun i => f i j)).
Proof.
  induction m; simpl.
  - symmetry. by apply xsum_0.
  - rewrite IHm. symmetry. apply (xsum_lxor n _ (f m)).
Qed.

Definition delta (i j : nat) : Z := if decide (i = j) then 1 else 0.

Lemma delta_word i j : word (delta i j).
Proof. unfold delta. case_decide; auto with harbor. Qed.
#[export] Hint Resolve delta_word : harbor.

Lemma xsum_delta n i f : (i < n)%nat -> wordf f ->
  xsum n (fun k => gf16Mul (delta i k) (f k)) = f i.
Proof.
  intros Hi Hf. induction n as [|n IH]; [lia|]. simpl.
  destruct (decide (i = n)) as [->|].
  - rewrite xsum_0.
    + unfold delta. rewrite decide_True by done. by rewrite gf16Mul_1_l, Z.lxor_0_l by done.
    + intros k Hk. unfold delta. by rewrite decide_False by lia.
  - rewrite IH by lia. unfold delta. rewrite decide_False by done. apply Z.lxor_0_r.
Qed.

(** ** Rows and matrices *)

Definition col (w : list Z) (c : nat) : Z := nth c w 0.
Definition mrow (m : list (list Z)) (r : nat) : list Z := nth r m [].
Definition mget (m : list (list Z)) (r c : nat) : Z := col (mrow m r) c.

Definition words (w : list Z) : Prop := Forall word w.

Lemma col_word w c : words w -> word (col w c).
Proof.
  intros Hw. unfold col. destruct (nth_in_or_default c w 0) as [H| ->]; [|apply word_0].
  unfold words in Hw. rewrite List.Forall_forall in Hw. by apply Hw.
Qed.
#[export] Hint Resolve col_word : harbor.

Lemma col_map f w c : f 0 = 0 -> col (map f w) c = f (col w c).
Proof. intros Hf. unfold col. rewrite <-Hf at 1. apply map_nth. Qed.

Lemma col_zip_with f w v c :
  length w = length v -> f 0 0 = 0 -> col (zip_with f w v) c = f (col w c) (col v c).
Proof.
  unfold col. revert v c. induction w as [|a w IH]; intros [|b v] c Hl Hf; try done.
  - by destruct c.
  - destruct c; simpl; [done|]. apply IH; auto.
Qed.

(** The dot product of the first [n] entries. *)
Definition dot (n : nat) (w : list Z) (x : nat -> Z) : Z :=
  xsum n (fun c => gf16Mul (col w c) (x c)).

(** [inv] is a left inverse of the square matrix [m]. *)
Definition left_inverse (dim : nat) (inv m : list (list Z)) : Prop :=
  forall r c, (r < dim)%nat -> (c < dim)%nat ->
  xsum dim (fun k => gf16Mul (mget inv r k) (mget m k c)) = delta r c.

(** ** The elimination *)

Inductive invert_error : Type :=
| err_empty_matrix
| err_not_square
| err_linearly_dependent
| err_singular.

(** An augmented row: [(work[r], inv[r])]. *)
Abbreviation arow := (list Z * list Z)%type.

Definition scale_row (scale : Z) (a : arow) : arow :=
  (map (fun x => gf16Mul x scale) a.1, map (fun x => gf16Mul x scale) a.2).

(** [work[r][c] ^= gf16Mul(work[col][c], factor)] for every [c], and the same
    on [inv]; the row is left alone when [factor] is zero. *)
Definition elim_row (cl : nat) (p a : arow) : arow :=
  let factor := col a.1 cl in
  if factor =? 0 then a
  else (zip_with (fun x y => Z.lxor x (gf16Mul y factor)) a.1 p.1,
        zip_with (fun x y => Z.lxor x (gf16Mul y factor)) a.2 p.2).

(** The first row at or below [cl] whose entry in column [cl] is not zero. *)
Fixpoint find_pivot (cl r : nat) (rows : list arow) : option nat :=
  match rows with
  | [] => None
  | a :: rows =>
      if negb (col a.1 cl =? 0) then Some r else find_pivot cl (S r) rows
  end.

Definition swap_rows (i j : nat) (rows : list arow) : list arow :=
  match rows !! i, rows !! j with
  | Some a, Some b => <[i := b]> (<[j := a]> rows)
  | _, _ => rows
  end.

Definition gauss_step (cl : nat) (rows : list arow) : result invert_error (list arow) :=
  match find_pivot cl cl (drop cl rows) with
  | None => Err err_linearly_dependent
  | Some pivot =>
      let rows := if (pivot =? cl)%nat then rows else swap_rows pivot cl rows in
      let prow := default ([], []) (rows !! cl) in
      match gf16Inv (col prow.1 cl) with
      | None => Err err_singular
      | Some scale =>
          let prow := scale_row scale prow in
          Ok (imap (fun r a => if (r =? cl)%nat then prow else elim_row cl prow a) rows)
      end
  end.

Definition identity_row (dim r : nat) : list Z := map (delta r) (seq 0 dim).

Definition invertGF16Matrix (m : list (list Z)) : result invert_error (list (list Z)) :=
  let dim := length m in
  if (dim =? 0)%nat then Err err_empty_matrix
  else if negb (forallb (fun w => (length w =? dim)%nat) m) then Err err_not_square
  else
    match rfold (fun rows cl => gauss_step cl rows)
                (imap (fun r w => (w, identity_row dim r)) m) (seq 0 dim) with
    | Ok rows => Ok (map snd rows)
    | Err e => Err e
    end.

(** ** Correctness of the elimination *)

Section Elimination.
Context (dim : nat) (m : list (list Z)).

Definition mat_ok : Prop :=
  length m = dim /\ Forall (fun w => length w = dim /\ words w) m.

Hypothesis Hm : mat_ok.

Lemma mget_word r c : word (mget m r c).
Proof.
  unfold mget, mrow. destruct (nth_in_or_default r m []) as [H| ->].
  - apply col_word. destruct Hm as [_ Hf]. rewrite List.Forall_forall in Hf. by apply Hf.
  - apply col_word. constructor.
Qed.
Hint Resolve mget_word : harbor.

(** The augmented part is the row of coefficients that produces the working
    part from the original matrix. *)
Record row_ok (a : arow) : Prop := {
  ro_len1 : length a.1 = dim;
  ro_len2 : length a.2 = dim;
  ro_words1 : words a.1;
  ro_words2 : words a.2;
  ro_eq : forall c, (c < dim)%nat -> col a.1 c = dot dim a.2 (fun k => mget m k c)
}.

Lemma words_map f w : (forall x, word x -> word (f x)) -> words w -> words (map f w).
Proof. intros Hf. induction 1; constructor; auto. Qed.

Lemma words_zip_with f w v :
  (forall x y, word x -> word y -> word (f x y)) -> words w -> words v -> words (zip_with f w v).
Proof.
  intros Hf Hw. revert v. induction Hw; intros v Hv; [constructor|].
  destruct Hv; constructor; auto. apply IHHw. done.
Qed.

Lemma scale_row_ok s a : word s -> row_ok a -> row_ok (scale_row s a).
Proof.
  intros Hs [L1 L2 W1 W2 E]. split; unfold scale_row; simpl.
  - by rewrite length_map.
  - by rewrite length_map.
  - apply words_map; auto with harbor.
  - apply words_map; auto with harbor.
  - intros c Hc. rewrite col_map by done. rewrite E by done. unfold dot.
    rewrite xsum_mul_r by (done || intros k; auto with harbor).
    apply xsum_ext. intros k Hk. rewrite col_map by done.
    rewrite !gf16Mul_assoc by auto with harbor. f_equal.
    apply gf16Mul_comm; auto with harbor.
Qed.

Lemma elim_row_ok cl p a : row_ok p -> row_ok a -> row_ok (elim_row cl p a).
Proof.
  intros Hp Ha. unfold elim_row. destruct (_ =? 0); [done|].
  destruct Hp as [PL1 PL2 PW1 PW2 PE], Ha as [L1 L2 W1 W2 E].
  assert (Hf : word (col a.1 cl)) by auto with harbor.
  set (f := col a.1 cl) in *. split; simpl.
  - rewrite length_zip_with. lia.
  - rewrite length_zip_with. lia.
  - apply words_zip_with; auto with harbor.
  - apply words_zip_with; auto with harbor.
  - intros c Hc. rewrite col_zip_with by (done || lia). rewrite E, PE by done. unfold dot.
    rewrite xsum_mul_r by (done || intros k; auto with harbor). rewrite <-xsum_lxor.
    apply xsum_ext. intros k Hk. rewrite col_zip_with by (done || lia).
    rewrite gf16Mul_lxor_l by auto with harbor. f_equal.
    rewrite !gf16Mul_assoc by auto with harbor. f_equal.
    apply gf16Mul_comm; auto with harbor.
Qed.

Lemma col_identity_row r c : (c < dim)%nat -> col (identity_row dim r) c = delta r c.
Proof.
  intros Hc. unfold col, identity_row.
  rewrite (nth_indep _ 0 (delta r 0)) by (rewrite length_map, length_seq; done).
  rewrite map_nth, seq_nth by done. done.
Qed.

Lemma init_rows_ok : Forall row_ok (imap (fun r w => (w, identity_row dim r)) m).
Proof.
  destruct Hm as [Hlen Hf]. apply Forall_lookup. intros r a. rewrite list_lookup_imap.
  destruct (m !! r) as [w|] eqn:Ew; [|done]. intros [= <-].
  pose proof (lookup_lt_Some _ _ _ Ew) as Hr. rewrite Forall_lookup in Hf.
  destruct (Hf _ _ Ew) as [Hw1 Hw2]. split; simpl; try done.
  - unfold identity_row. by rewrite length_map, length_seq.
  - unfold identity_row, words. apply Forall_lookup. intros i x Hx.
    rewrite list_lookup_fmap in Hx. destruct (seq 0 dim !! i); [|done].
    injection Hx as <-. auto with harbor.
  - intros c Hc. unfold dot.
    rewrite (xsum_ext _ _ (fun k => gf16Mul (delta r k) (mget m k c))).
    + rewrite xsum_delta by (lia || intros k; auto with harbor).
      unfold mget, mrow. by rewrite (nth_lookup_Some _ _ _ _ Ew).
    + intros k Hk. by rewrite col_identity_row.
Qed.

(** *** The pivot search *)

Lemma find_pivot_spec cl r rows :
  match find_pivot cl r rows with
  | Some p => (r <= p)%nat /\ exists a, rows !! (p - r)%nat = Some a /\ col a.1 cl <> 0
  | None => Forall (fun a : arow => col a.1 cl = 0) rows
  end.
Proof.
  revert r. induction rows as [|a rows IH]; intros r; simpl; [constructor|].
  destruct (Z.eqb_spec (col a.1 cl) 0) as [E|E]; simpl.
  - specialize (IH (S r)). destruct (find_pivot cl (S r) rows) as [p|].
    + destruct IH as (H1 & b & H2 & H3). split; [lia|]. exists b.
      replace (p - r)%nat with (S (p - S r)) by lia. done.
    + by constructor.
  - split; [lia|]. exists a. rewrite Nat.sub_diag. done.
Qed.

(** Columns below [cl] are those of the identity matrix. *)
Definition cleared (cl : nat) (rows : list arow) : Prop :=
  forall r a c, rows !! r = Some a -> (c < cl)%nat -> col a.1 c = delta r c.

Record step_inv (cl : nat) (rows : list arow) : Prop := {
  si_len : length rows = dim;
  si_rows : Forall row_ok rows;
  si_clear : cleared cl rows
}.

(** Reading a row after the exchange of two rows. *)
Lemma swap_rows_lookup i j rows a b r :
  rows !! i = Some a -> rows !! j = Some b ->
  swap_rows i j rows !! r =
  if decide (r = i) then Some b else if decide (r = j) then Some a else rows !! r.
Proof.
  intros Hi Hj. unfold swap_rows. rewrite Hi, Hj.
  pose proof (lookup_lt_Some _ _ _ Hi). pose proof (lookup_lt_Some _ _ _ Hj).
  repeat case_decide; subst.
  - by rewrite list_lookup_insert_eq by (rewrite length_insert; lia).
  - rewrite list_lookup_insert_ne, list_lookup_insert_eq by (lia || done). done.
  - by rewrite !list_lookup_insert_ne by congruence.
Qed.

Lemma swap_rows_inv i cl rows a :
  (cl <= i)%nat -> rows !! i = Some a -> (cl < dim)%nat ->
  step_inv cl rows -> step_inv cl (swap_rows i cl rows).
Proof.
  intros Hic Hi Hcl [Hlen Hrows Hclear].
  destruct (lookup_lt_is_Some_2 rows cl ltac:(lia)) as [b Hb].
  assert (HL : forall r x, swap_rows i cl rows !! r = Some x ->
    exists r', rows !! r' = Some x /\ (r = r' \/ (cl <= r /\ cl <= r')%nat)).
  { intros r x. rewrite (swap_rows_lookup i cl rows a b) by done.
    repeat case_decide; intros; simplify_eq; eauto. }
  split.
  - unfold swap_rows. rewrite Hi, Hb. by rewrite !length_insert.
  - rewrite Forall_lookup in Hrows |- *. intros r x Hx.
    destruct (HL r x Hx) as (r' & H' & _). eauto.
  - intros r x c Hx Hc. destruct (HL r x Hx) as (r' & H' & [->|[H1 H2]]).
    + eauto.
    + rewrite (Hclear r' x c H' Hc). unfold delta.
      by rewrite !decide_False by lia.
Qed.

Lemma swap_rows_mem i cl rows a b x :
  rows !! i = Some a -> rows !! cl = Some b -> x ∈ rows -> x ∈ swap_rows i cl rows.
Proof.
  intros Hi Hb [r Hr]%list_elem_of_lookup. apply list_elem_of_lookup.
  exists (if decide (r = i) then cl else if decide (r = cl) then i else r).
  rewrite (swap_rows_lookup i cl rows a b) by done.
  repeat case_decide; simplify_eq; congruence.
Qed.

Definition reduce (cl : nat) (s : Z) (p : arow) (rows : list arow) : list arow :=
  imap (fun r a => if (r =? cl)%nat then scale_row s p else elim_row cl (scale_row s p) a) rows.

(** A step either finds no pivot, or brings a row with a non-zero entry into
    place and reduces every other row by it. *)
Lemma gauss_step_cases cl rows :
  (cl < dim)%nat -> step_inv cl rows ->
  (gauss_step cl rows = Err err_linearly_dependent /\
   Forall (fun a : arow => col a.1 cl = 0) (drop cl rows)) \/
  exists rows1 p s, step_inv cl rows1 /\ (forall x, x ∈ rows -> x ∈ rows1) /\
    rows1 !! cl = Some p /\ word s /\ gf16Mul (col p.1 cl) s = 1 /\
    gauss_step cl rows = Ok (reduce cl s p rows1).
Proof.
  intros Hcl Hinv. unfold gauss_step.
  pose proof (find_pivot_spec cl cl (drop cl rows)) as Hp.
  destruct (find_pivot cl cl (drop cl rows)) as [i|]; [right|by left].
  destruct Hp as (Hi & a & Ha & Hne). rewrite lookup_drop in Ha.
  replace (cl + (i - cl))%nat with i in Ha by lia.
  set (rows1 := if (i =? cl)%nat then rows else swap_rows i cl rows).
  destruct (lookup_lt_is_Some_2 rows cl) as [b Hb]; [by rewrite (si_len _ _ Hinv)|].
  assert (H1 : rows1 !! cl = Some a /\ step_inv cl rows1 /\ forall x, x ∈ rows -> x ∈ rows1).
  { subst rows1. destruct (Nat.eqb_spec i cl) as [->|Hic]; [done|]. split; [|split].
    - rewrite (swap_rows_lookup i cl rows a b) by done. by rewrite decide_False, decide_True by lia.
    - by apply swap_rows_inv with a.
    - intros x. by apply swap_rows_mem with a b. }
  destruct H1 as (Hl & Hinv1 & Hmem).
  assert (Hok : row_ok a).
  { pose proof (si_rows _ _ Hinv1) as Hr. rewrite Forall_lookup in Hr. eauto. }
  destruct (gf16Inv_Some (col a.1 cl)) as (s & Es & Hs & E1); [|done|].
  { apply col_word, Hok. }
  exists rows1, a, s. rewrite Hl. simpl. rewrite Es. done.
Qed.

Lemma elim_row_col cl p a c :
  row_ok p -> row_ok a -> (forall x, word x -> gf16Mul x (col p.1 c) = 0) ->
  col (elim_row cl p a).1 c = col a.1 c.
Proof.
  intros Hp Ha Hz. unfold elim_row. destruct (_ =? 0); [done|]. simpl.
  rewrite col_zip_with; [|by rewrite (ro_len1 _ Hp), (ro_len1 _ Ha)|done].
  pose proof (ro_words1 _ Hp). pose proof (ro_words1 _ Ha).
  rewrite gf16Mul_comm, Hz by auto with harbor. apply Z.lxor_0_r.
Qed.

Lemma elim_row_pivot cl p a :
  row_ok p -> row_ok a -> col p.1 cl = 1 -> col (elim_row cl p a).1 cl = 0.
Proof.
  intros Hp Ha H1. unfold elim_row.
  destruct (Z.eqb_spec (col a.1 cl) 0) as [E|E]; [done|]. simpl.
  rewrite col_zip_with; [|by rewrite (ro_len1 _ Hp), (ro_len1 _ Ha)|done].
  pose proof (ro_words1 _ Ha). rewrite H1, gf16Mul_1_l by auto with harbor.
  apply Z.lxor_nilpotent.
Qed.

Lemma reduce_inv cl rows p s :
  (cl < dim)%nat -> step_inv cl rows -> rows !! cl = Some p -> word s ->
  gf16Mul (col p.1 cl) s = 1 -> step_inv (S cl) (reduce cl s p rows).
Proof.
  intros Hcl [Hlen Hrows Hclear] Hp Hs H1. rewrite Forall_lookup in Hrows.
  assert (Hpok : row_ok (scale_row s p)) by (apply scale_row_ok; eauto).
  assert (Hpc : col (scale_row s p).1 cl = 1) by (simpl; by rewrite col_map by done).
  assert (Hpz : forall c, (c < cl)%nat -> col (scale_row s p).1 c = 0).
  { intros c Hc. simpl. rewrite col_map by done. rewrite (Hclear _ _ _ Hp Hc).
    unfold delta. by rewrite decide_False by lia. }
  split.
  - unfold reduce. by rewrite length_imap.
  - apply Forall_lookup. intros r a. unfold reduce. rewrite list_lookup_imap.
    destruct (rows !! r) as [a0|] eqn:Ea; [|done]. simpl. intros [= <-].
    destruct (r =? cl)%nat; [done|]. apply elim_row_ok; eauto.
  - intros r a c. unfold reduce. rewrite list_lookup_imap.
    destruct (rows !! r) as [a0|] eqn:Ea; [|done]. simpl. intros [= <-] Hc.
    destruct (Nat.eqb_spec r cl) as [->|Hr].
    + destruct (decide (c = cl)) as [->|].
      * rewrite Hpc. unfold delta. by rewrite decide_True.
      * rewrite Hpz by lia. unfold delta. by rewrite decide_False by lia.
    + destruct (decide (c = cl)) as [->|].
      * rewrite elim_row_pivot by eauto. unfold delta. by rewrite decide_False by lia.
      * rewrite elim_row_col; [apply (Hclear r); [done|lia]|done|eauto|].
        intros x Hx. rewrite Hpz by lia. apply gf16Mul_0_r.
Qed.

(** *** The kernel *)

Definition ker (rows : list arow) (x : nat -> Z) : Prop :=
  forall a, a ∈ rows -> dot dim a.1 x = 0.

Lemma dot_scale s w x :
  word s -> words w -> wordf x -> dot dim (map (fun y => gf16Mul y s) w) x = gf16Mul s (dot dim w x).
Proof.
  intros Hs Hw Hx. unfold dot. rewrite xsum_mul_l by (done || intros k; auto with harbor).
  apply xsum_ext. intros k Hk. rewrite col_map by done.
  rewrite (gf16Mul_comm (col w k)) by auto with harbor.
  apply gf16Mul_assoc; auto with harbor.
Qed.

Lemma dot_elim f w v x :
  word f -> words w -> words v -> length w = length v -> wordf x ->
  dot dim (zip_with (fun y z => Z.lxor y (gf16Mul z f)) w v) x =
  Z.lxor (dot dim w x) (gf16Mul f (dot dim v x)).
Proof.
  intros Hf Hw Hv Hl Hx. unfold dot.
  rewrite xsum_mul_l by (done || intros k; auto with harbor). rewrite <-xsum_lxor.
  apply xsum_ext. intros k Hk. rewrite col_zip_with by done.
  rewrite gf16Mul_lxor_l by auto with harbor. f_equal.
  rewrite (gf16Mul_comm (col v k)) by auto with harbor.
  apply gf16Mul_assoc; auto with harbor.
Qed.

Lemma reduce_ker cl rows p s x :
  (cl < dim)%nat -> step_inv cl rows -> rows !! cl = Some p -> word s ->
  gf16Mul (col p.1 cl) s = 1 -> wordf x -> ker (reduce cl s p rows) x -> ker rows x.
Proof.
  intros Hcl [Hlen Hrows Hclear] Hp Hs H1 Hx Hk. rewrite Forall_lookup in Hrows.
  assert (Hpok : row_ok (scale_row s p)) by (apply scale_row_ok; eauto).
  assert (Hred : forall r a, rows !! r = Some a ->
    dot dim (if (r =? cl)%nat then scale_row s p else elim_row cl (scale_row s p) a).1 x = 0).
  { intros r a Ha. apply Hk, list_elem_of_lookup. exists r. unfold reduce.
    by rewrite list_lookup_imap, Ha. }
  assert (Hps : dot dim (scale_row s p).1 x = 0).
  { specialize (Hred cl p Hp). by rewrite Nat.eqb_refl in Hred. }
  intros a [r Ha]%list_elem_of_lookup. specialize (Hred r a Ha).
  destruct (Nat.eqb_spec r cl) as [E|Hr]; [rewrite E in Ha|].
  - rewrite Hp in Ha. injection Ha as <-. simpl in Hps.
    assert (Hw : words p.1) by (eapply ro_words1; eauto).
    rewrite dot_scale in Hps by done. destruct (decide (dot dim p.1 x = 0)) as [|Hne]; [done|].
    exfalso. revert Hps. apply gf16Mul_nonzero; try done.
    + apply xsum_word. auto with harbor.
    + intros ->. by rewrite gf16Mul_0_r in H1.
  - unfold elim_row in Hred. destruct (col a.1 cl =? 0); [done|]. simpl in Hred, Hps.
    rewrite dot_elim in Hred; try done.
    + by rewrite Hps, gf16Mul_0_r, Z.lxor_0_r in Hred.
    + apply col_word. eapply ro_words1; eauto.
    + eapply ro_words1; eauto.
    + exact (ro_words1 _ Hpok).
    + rewrite (ro_len1 a) by eauto. symmetry. exact (ro_len1 _ Hpok).
Qed.

(** When no pivot exists, the columns to the left combine into the current one. *)
Lemma no_pivot_ker cl rows :
  (cl < dim)%nat -> step_inv cl rows ->
  Forall (fun a : arow => col a.1 cl = 0) (drop cl rows) ->
  exists x, wordf x /\ x cl = 1 /\ ker rows x.
Proof.
  intros Hcl [Hlen Hrows Hclear] Hz. rewrite Forall_lookup in Hrows.
  set (x := fun c => if decide (c < cl)%nat then col (default ([], []) (rows !! c)).1 cl
                     else delta cl c).
  assert (Hx : wordf x).
  { intros c. unfold x. case_decide; [|auto with harbor].
    destruct (rows !! c) eqn:E; simpl; [|by destruct cl]. apply col_word. eapply ro_words1; eauto. }
  exists x. split; [done|]. split; [unfold x, delta; by rewrite decide_False, decide_True by lia|].
  intros a [r Ha]%list_elem_of_lookup.
  assert (Hr : (r < dim)%nat) by (rewrite <-Hlen; by eapply lookup_lt_Some).
  assert (Hwa : words a.1) by (eapply ro_words1; eauto).
  destruct (decide (r < cl)%nat) as [Hlt|Hge].
  - assert (Ed : dot dim a.1 x = Z.lxor (xsum dim (fun k => gf16Mul (delta r k) (x k)))
                                  (xsum dim (fun k => gf16Mul (delta cl k) (col a.1 cl)))).
    { unfold dot. rewrite <-xsum_lxor. apply xsum_ext. intros c Hc.
      destruct (decide (c < cl)%nat) as [H1|H1].
      - rewrite (Hclear r a c) by done. unfold delta at 3. rewrite (decide_False (P := cl = c)) by lia.
        by rewrite gf16Mul_0_l, Z.lxor_0_r.
      - unfold x at 1 2. rewrite !decide_False by lia. unfold delta. rewrite (decide_False (P := r = c)) by lia.
        rewrite gf16Mul_0_l, Z.lxor_0_l. case_decide as E; subst.
        + apply gf16Mul_comm; auto with harbor.
        + by rewrite gf16Mul_0_r. }
    rewrite Ed, !xsum_delta by (done || intros k; auto with harbor).
    unfold x. rewrite decide_True by done. rewrite Ha. simpl. apply Z.lxor_nilpotent.
  - rewrite Forall_lookup in Hz. specialize (Hz (r - cl)%nat a).
    rewrite lookup_drop in Hz. replace (cl + (r - cl))%nat with r in Hz by lia.
    specialize (Hz Ha). unfold dot. apply xsum_0. intros c Hc.
    destruct (decide (c < cl)%nat).
    + rewrite (Hclear r a c) by done. unfold delta. rewrite decide_False by lia. done.
    + unfold x. rewrite decide_False by done. unfold delta. case_decide; subst.
      * by rewrite Hz.
      * apply gf16Mul_0_r.
Qed.

(** The whole elimination, from column [cl] on. *)
Lemma gauss_loop k cl rows :
  (cl + k = dim)%nat -> step_inv cl rows ->
  (exists rows', rfold (fun rows cl => gauss_step cl rows) rows (seq cl k) = Ok rows' /\
                 step_inv dim rows') \/
  (rfold (fun rows cl => gauss_step cl rows) rows (seq cl k) = Err err_linearly_dependent /\
   exists x c, wordf x /\ (c < dim)%nat /\ x c = 1 /\ ker rows x).
Proof.
  revert cl rows. induction k as [|k IH]; intros cl rows Hk Hinv; cbn [seq rfold].
  { left. exists rows. split; [done|]. by replace dim with cl by lia. }
  destruct (gauss_step_cases cl rows ltac:(lia) Hinv)
    as [[-> Hz]|(rows1 & p & s & Hinv1 & Hmem & Hp & Hs & H1 & ->)]; cbn [rbind].
  - right. split; [done|].
    destruct (no_pivot_ker cl rows ltac:(lia) Hinv Hz) as (x & Hx & Hx1 & Hk').
    exists x, cl. split_and!; [done|lia|done|done].
  - destruct (IH (S cl) (reduce cl s p rows1)) as [H|[H (x & c & Hx & Hc & Hx1 & Hker)]];
      [lia|exact (reduce_inv cl rows1 p s ltac:(lia) Hinv1 Hp Hs H1)|by left|].
    right. split; [done|]. exists x, c. split_and!; [done..|].
    intros a Ha. refine (reduce_ker cl rows1 p s x _ Hinv1 Hp Hs H1 Hx Hker a (Hmem a Ha)). lia.
Qed.

Lemma init_inv : step_inv 0 (imap (fun r w => (w, identity_row dim r)) m).
Proof.
  split.
  - rewrite length_imap. apply Hm.
  - apply init_rows_ok.
  - intros r a c _ Hc. lia.
Qed.

Lemma mat_ok_square : forallb (fun w => (length w =? dim)%nat) m = true.
Proof.
  apply forallb_forall. intros w Hw. apply Nat.eqb_eq.
  destruct Hm as [_ Hf]. rewrite List.Forall_forall in Hf. by apply Hf.
Qed.

Definition mat_ok' (inv : list (list Z)) : Prop :=
  length inv = dim /\ Forall (fun w => length w = dim /\ words w) inv.

Lemma invert_cases :
  (0 < dim)%nat ->
  (exists inv, invertGF16Matrix m = Ok inv /\ mat_ok' inv /\ left_inverse dim inv m) \/
  (invertGF16Matrix m = Err err_linearly_dependent /\
   exists x c, wordf x /\ (c < dim)%nat /\ x c = 1 /\
     forall w, w ∈ m -> dot dim w x = 0).
Proof.
  intros Hd. unfold invertGF16Matrix. rewrite (proj1 Hm).
  destruct (Nat.eqb_spec dim 0); [lia|]. rewrite mat_ok_square. cbn [negb].
  destruct (gauss_loop dim 0 _ eq_refl init_inv) as [(rows & -> & Hinv)|[-> (x & c & Hx & Hc & Hx1 & Hk)]].
  - left. eexists; split; [reflexivity|]. destruct Hinv as [Hlen Hrows Hclear].
    rewrite Forall_lookup in Hrows. split.
    + split; [by rewrite length_map|]. apply Forall_lookup. intros r w Hr.
      rewrite list_lookup_fmap in Hr. destruct (rows !! r) as [a|] eqn:Ea; [|done].
      injection Hr as <-. destruct (Hrows _ _ Ea). done.
    + intros r c Hr Hc. destruct (lookup_lt_is_Some_2 rows r ltac:(lia)) as [a Ha].
      assert (E : mrow (map snd rows) r = a.2).
      { unfold mrow. apply nth_lookup_Some. by rewrite list_lookup_fmap, Ha. }
      rewrite <-(Hclear r a c Ha) by done. rewrite (ro_eq _ (Hrows _ _ Ha)) by done.
      unfold dot, mget. by rewrite E.
  - right. split; [done|]. exists x, c. split_and!; [done..|].
    intros w [r Hr]%list_elem_of_lookup. apply (Hk (w, identity_row dim r)).
    apply list_elem_of_lookup. exists r. by rewrite list_lookup_imap, Hr.
Qed.
End Elimination.

(** ** Vandermonde systems *)

Lemma vandermonde_kernel n (g y : nat -> Z) :
  wordf g -> wordf y ->
  (forall i j, (i < n)%nat -> (j < n)%nat -> g i = g j -> i = j) ->
  (forall r, (r < n)%nat -> xsum n (fun c => pmul (ppower (g c) r) (y c)) = 0) ->
  forall c, (c < n)%nat -> y c = 0.
Proof.
  intros Hg. assert (Wg : forall k, word (g k)) by exact Hg.
  revert y. induction n as [|n IH]; intros y Hy Hinj Hs c Hc; [lia|].
  assert (Wy : forall k, word (y k)) by exact Hy.
  assert (Hz : forall c, (c < n)%nat -> pmul (Z.lxor (g c) (g n)) (y c) = 0).
  { apply (IH (fun c => pmul (Z.lxor (g c) (g n)) (y c))).
    - intros k. auto with harbor.
    - intros i j Hi Hj. apply Hinj; lia.
    - intros r Hr.
      assert (E : forall k, pmul (ppower (g k) r) (pmul (Z.lxor (g k) (g n)) (y k)) =
        Z.lxor (pmul (ppower (g k) (S r)) (y k)) (pmul (g n) (pmul (ppower (g k) r) (y k)))).
      { intros k. assert (word (ppower (g k) r)) by (by apply ppower_word).
        rewrite pmul_lxor_l, pmul_lxor_r by auto. f_equal.
        - change (ppower (g k) (S r)) with (pmul (g k) (ppower (g k) r)).
          rewrite (pmul_comm (g k) (ppower (g k) r)), pmul_assoc by auto. done.
        - rewrite <-!pmul_assoc by auto. f_equal. apply pmul_comm; auto. }
      rewrite (xsum_ext _ _ _ (fun k _ => E k)), xsum_lxor.
      assert (Hp : forall r, xsum n (fun k => pmul (ppower (g k) r) (y k)) =
        Z.lxor (xsum (S n) (fun k => pmul (ppower (g k) r) (y k))) (pmul (ppower (g n) r) (y n))).
      { intros q. simpl. rewrite Z.lxor_assoc, Z.lxor_nilpotent, Z.lxor_0_r. done. }
      assert (W : forall k q, word (pmul (ppower (g k) q) (y k))).
      { intros k q. apply pmul_word. by apply ppower_word. }
      assert (Em : xsum n (fun k => pmul (g n) (pmul (ppower (g k) r) (y k))) =
                   pmul (g n) (xsum n (fun k => pmul (ppower (g k) r) (y k)))).
      { generalize (g n). intros a. clear. induction n as [|p IH]; simpl; [done|].
        by rewrite pmul_lxor_r, IH. }
      rewrite Em, !Hp, !Hs by lia. rewrite !Z.lxor_0_l.
      change (ppower (g n) (S r)) with (pmul (g n) (ppower (g n) r)).
      rewrite pmul_assoc by (auto; by apply ppower_word). apply Z.lxor_nilpotent. }
  assert (Hlt : forall c, (c < n)%nat -> y c = 0).
  { intros k Hk. specialize (Hz k Hk). destruct (decide (y k = 0)) as [|Hne]; [done|].
    exfalso. revert Hz. rewrite <-gf16Mul_pmul by auto with harbor.
    apply gf16Mul_nonzero; auto with harbor. intros E. apply Z.lxor_eq in E.
    apply Hinj in E; lia. }
  destruct (decide (c < n)%nat) as [|Hge]; [by apply Hlt|].
  assert (c = n) as -> by lia. specialize (Hs 0%nat ltac:(lia)). simpl in Hs.
  rewrite xsum_0 in Hs.
  - rewrite Z.lxor_0_l, pmul_1_l in Hs; auto.
  - intros k Hk. rewrite Hlt by done. apply pmul_0_r.
Qed.
