(* ===== verification/Par2Solver.v ===== *)
(** The PAR2 block solver of internal/archive/gf16.go: the byte-level
    multiply-accumulate [mulXorInto], the solver's state and its operations
    [NewPAR2Solver], [AddRecoverySlice], [AddKnownBlock] and [Solve].

    The reference encoder [recovery_slice] is the PAR2 2.0 definition of a
    recovery slice: word [j] of the slice for exponent [e] is the sum over all
    input blocks [i] of [c_i^e * B_i[j]].  The theorems state that the solver
    inverts that encoder. *)

From Stdlib Require Import ZArith Lia.
From stdpp Require Import base gmap list numbers fin_sets.
From S2P Require Import Prelude GF16 GF16Linear.

Local Open Scope Z_scope.
Local Open Scope harbor_scope.

Definition MaxPAR2SliceBytes : Z := Z.shiftl 64 20.
Definition MaxPAR2UnknownBlocks : Z := 256.
Definition maxPAR2SolverBytes : Z := Z.shiftl 256 20.

(** ** Multiply-accumulate over byte slices *)

(** [dst[i] ^= src[i]] for the first [n] bytes. *)
Fixpoint xor_bytes (n : nat) (dst src : list Z) : list Z :=
  match n, dst, src with
  | S n, d :: dst, s :: src => Z.lxor d s :: xor_bytes n dst src
  | _, _, _ => dst
  end.

(** The loop over 16-bit little-endian words, [k] words long. *)
Fixpoint mulXor_words (k : nat) (dst src : list Z) (logFactor : Z) : list Z :=
  match k, dst, src with
  | S k, d0 :: d1 :: dst, s0 :: s1 :: src =>
      let word := Z.lor s0 (Z.shiftl s1 8) in
      if word =? 0 then d0 :: d1 :: mulXor_words k dst src logFactor
      else
        let sum := u32 (glog word + logFactor) in
        let sum := if gf16Limit <=? sum then u32 (sum - gf16Limit) else sum in
        let product := alog sum in
        Z.lxor d0 (u8 product) :: Z.lxor d1 (u8 (Z.shiftr product 8)) ::
          mulXor_words k dst src logFactor
  | _, _, _ => dst
  end.

Definition mulXorInto (dst src : list Z) (factor : Z) : list Z :=
  if factor =? 0 then dst
  else
    let n := if (length src <? length dst)%nat then length src else length dst in
    let n := (2 * Nat.div2 n)%nat in
    if factor =? 1 then xor_bytes n dst src
    else mulXor_words (Nat.div2 n) dst src (glog factor).

(** ** The solver *)

Inductive solver_error : Type :=
| err_slice_size | err_block_count | err_no_unknown | err_dimension
| err_too_many_unknown | err_more_unknown_than_total | err_working_set
| err_unknown_range | err_unknown_duplicate | err_exponent_duplicate | err_constants
| err_already_solved | err_exponent_undeclared | err_slice_length | err_slice_twice
| err_known_range | err_known_declared_unknown | err_known_twice | err_known_too_long
| err_slices_missing | err_known_missing | err_invert (e : invert_error).

Record PAR2Solver := MkSolver {
  sliceSize : Z;
  total : Z;
  unknown : list Z;
  exponents : list Z;
  coeff : list (list Z);
  rhs : list (list Z);
  unknownSet : gset Z;
  haveSlice : list bool;
  slicesSeen : Z;
  known : gset Z;
  pad : list Z;
  solved : bool
}.

Definition zeros (n : Z) : list Z := replicate (Z.to_nat n) 0.

Definition check_unknown (total : Z) (seen : gset Z) (index : Z) : result solver_error (gset Z) :=
  if (index <? 0) || (total <=? index) then Err err_unknown_range
  else if bool_decide (index ∈ seen) then Err err_unknown_duplicate
  else Ok ({[index]} ∪ seen).

Definition check_exponent (seen : gset Z) (e : Z) : result solver_error (gset Z) :=
  if bool_decide (e ∈ seen) then Err err_exponent_duplicate else Ok ({[e]} ∪ seen).

Definition NewPAR2Solver (sliceSize total : Z) (unknown exponents : list Z)
    : result solver_error PAR2Solver :=
  if (sliceSize <=? 0) || negb (Z.rem sliceSize 4 =? 0) || (MaxPAR2SliceBytes <? sliceSize)
  then Err err_slice_size
  else if (total <=? 0) || (MaxPAR2TotalBlocks <? total) then Err err_block_count
  else if (length unknown =? 0)%nat then Err err_no_unknown
  else if negb (length unknown =? length exponents)%nat then Err err_dimension
  else if MaxPAR2UnknownBlocks <? Z.of_nat (length unknown) then Err err_too_many_unknown
  else if total <? Z.of_nat (length unknown) then Err err_more_unknown_than_total
  else if maxPAR2SolverBytes <? i64 (Z.of_nat (length unknown) * sliceSize) then Err err_working_set
  else
    let? unknownSet := rfold (check_unknown total) ∅ unknown in
    let? _ := rfold check_exponent ∅ exponents in
    match PAR2InputConstants total with
    | None => Err err_constants
    | Some constants =>
        let dim := length unknown in
        Ok {| sliceSize := sliceSize; total := total;
              unknown := unknown; exponents := exponents;
              coeff := map (fun e => map (fun c => gf16Pow (nth (Z.to_nat c) constants 0) e) unknown)
                           exponents;
              rhs := replicate dim (zeros sliceSize);
              unknownSet := unknownSet;
              haveSlice := replicate dim false;
              slicesSeen := 0;
              known := ∅;
              pad := zeros sliceSize;
              solved := false |}
    end.

(** The row of an exponent: the first index at which it was declared. *)
Fixpoint find_row (e : Z) (es : list Z) : option nat :=
  match es with
  | [] => None
  | x :: es => if x =? e then Some O else S <$> find_row e es
  end.

Definition AddRecoverySlice (s : PAR2Solver) (exponent : Z) (data : list Z)
    : result solver_error PAR2Solver :=
  if solved s then Err err_already_solved
  else
    match find_row exponent (exponents s) with
    | None => Err err_exponent_undeclared
    | Some row =>
        if negb (Z.of_nat (length data) =? sliceSize s) then Err err_slice_length
        else if nth row (haveSlice s) false then Err err_slice_twice
        else Ok (MkSolver (sliceSize s) (total s) (unknown s) (exponents s) (coeff s)
                  (<[row := data]> (rhs s)) (unknownSet s)
                  (<[row := true]> (haveSlice s)) (slicesSeen s + 1) (known s) (pad s) (solved s))
    end.

(** [copy(dst, src)]: the prefix both lists have is overwritten. *)
Definition copy_bytes (dst src : list Z) : list Z :=
  take (length dst) src ++ drop (length src) dst.

Definition AddKnownBlock (s : PAR2Solver) (index : Z) (data : list Z)
    : result solver_error PAR2Solver :=
  if solved s then Err err_already_solved
  else if (index <? 0) || (total s <=? index) then Err err_known_range
  else if bool_decide (index ∈ unknownSet s) then Err err_known_declared_unknown
  else if bool_decide (index ∈ known s) then Err err_known_twice
  else if sliceSize s <? Z.of_nat (length data) then Err err_known_too_long
  else
    let pad' := if Z.of_nat (length data) <? sliceSize s
                then copy_bytes (replicate (length (pad s)) 0) data else pad s in
    let block := if Z.of_nat (length data) <? sliceSize s then pad' else data in
    match PAR2InputConstants (total s) with
    | None => Err err_constants
    | Some constants =>
        Ok (MkSolver (sliceSize s) (total s) (unknown s) (exponents s) (coeff s)
              (imap (fun r row => mulXorInto row block
                       (gf16Pow (nth (Z.to_nat index) constants 0) (nth r (exponents s) 0))) (rhs s))
              (unknownSet s) (haveSlice s) (slicesSeen s) ({[index]} ∪ known s) pad' (solved s))
    end.

(** One output block: every right-hand side scaled by a row of the inverse. *)
Fixpoint apply_inverse_row (block : list Z) (rhs : list (list Z)) (w : list Z) : list Z :=
  match rhs, w with
  | row :: rhs, f :: w => apply_inverse_row (mulXorInto block row f) rhs w
  | _, _ => block
  end.

Definition Solve (s : PAR2Solver) : result solver_error (list (list Z) * PAR2Solver) :=
  if solved s then Err err_already_solved
  else
    let dim := length (unknown s) in
    if negb (slicesSeen s =? Z.of_nat dim) then Err err_slices_missing
    else
      match invertGF16Matrix (coeff s) with
      | Err e => Err (err_invert e)
      | Ok inv =>
          let wantKnown := total s - Z.of_nat dim in
          if negb (Z.of_nat (size (known s)) =? wantKnown) then Err err_known_missing
          else
            let out := map (fun c => apply_inverse_row (zeros (sliceSize s)) (rhs s) (mrow inv c))
                           (seq 0 dim) in
            Ok (out, MkSolver (sliceSize s) (total s) (unknown s) (exponents s) (coeff s) (rhs s)
                       (unknownSet s) (haveSlice s) (slicesSeen s) (known s) (pad s) true)
      end.

(** ** The reference encoder *)

(** The 16-bit little-endian word [j] of a byte slice; bytes past the end read
    as zero. *)
Definition word_at (b : list Z) (j : nat) : Z :=
  Z.lor (nth (2 * j) b 0) (Z.shiftl (nth (2 * j + 1) b 0) 8).

Definition block_constant (i : nat) : Z := nth i par2Const 0.

Definition padded (sliceSize : Z) (data : list Z) : list Z :=
  data ++ replicate (Z.to_nat sliceSize - length data) 0.

Definition recovery_word (total : Z) (blocks : Z -> list Z) (e : Z) (j : nat) : Z :=
  xsum (Z.to_nat total) (fun i =>
    pmul (ppower (block_constant i) (Z.to_nat e)) (word_at (blocks (Z.of_nat i)) j)).

Definition split_word (w : Z) : list Z := [u8 w; u8 (Z.shiftr w 8)].

Definition recovery_slice (sliceSize total : Z) (blocks : Z -> list Z) (e : Z) : list Z :=
  concat (map (fun j => split_word (recovery_word total blocks e j))
              (seq 0 (Z.to_nat sliceSize / 2))).

(** ** Bytes and words *)

Definition bytes (b : list Z) : Prop := Forall (fits 8) b.

Lemma bytes_nth b i : bytes b -> fits 8 (nth i b 0).
Proof.
  intros Hb. destruct (nth_in_or_default i b 0) as [H| ->]; [|unfold fits; lia].
  unfold bytes in Hb. rewrite List.Forall_forall in Hb. by apply Hb.
Qed.

Lemma land_high lo hi : fits 8 lo -> Z.land lo (Z.shiftl hi 8) = 0.
Proof.
  intros Hlo. apply Z.bits_inj'. intros i Hi. rewrite Z.land_spec, Z.bits_0.
  destruct (decide (i < 8)).
  - rewrite Z.shiftl_spec_low by lia. apply andb_false_r.
  - assert (Z.testbit lo i = false) as ->; [|done].
    destruct (decide (lo = 0)) as [->|]; [apply Z.bits_0|].
    apply Z.bits_above_log2; [unfold fits in Hlo; lia|].
    apply Z.lt_le_trans with 8; [|lia]. apply fits_log2; [lia|done].
Qed.

Lemma mkword_lxor lo hi : fits 8 lo -> Z.lor lo (Z.shiftl hi 8) = Z.lxor lo (Z.shiftl hi 8).
Proof. intros Hlo. symmetry. by apply Z.lxor_lor, land_high. Qed.

Lemma mkword_add lo hi : fits 8 lo -> Z.lor lo (Z.shiftl hi 8) = lo + hi * 2 ^ 8.
Proof.
  intros Hlo. rewrite mkword_lxor, <-Z.add_nocarry_lxor by (done || by apply land_high).
  by rewrite Z.shiftl_mul_pow2 by lia.
Qed.

Lemma mkword_word lo hi : fits 8 lo -> fits 8 hi -> word (Z.lor lo (Z.shiftl hi 8)).
Proof.
  intros Hlo Hhi. rewrite mkword_lxor by done. apply word_lxor.
  - unfold fits in *. lia.
  - unfold fits in *. rewrite Z.shiftl_mul_pow2 by lia. lia.
Qed.

Lemma mkword_split w : word w -> Z.lor (u8 w) (Z.shiftl (u8 (Z.shiftr w 8)) 8) = w.
Proof.
  intros Hw. apply Z.bits_inj'. intros i Hi. rewrite Z.lor_spec. unfold u8.
  destruct (decide (i < 8)).
  - rewrite Z.shiftl_spec_low by lia. by rewrite Z.mod_pow2_bits_low, orb_false_r by lia.
  - rewrite Z.mod_pow2_bits_high, Z.shiftl_spec by lia. cbn [orb].
    destruct (decide (i < 16)).
    + rewrite Z.mod_pow2_bits_low by lia. rewrite Z.shiftr_spec by lia. f_equal; lia.
    + rewrite Z.mod_pow2_bits_high by lia. symmetry.
      destruct (decide (w = 0)) as [->|]; [apply Z.bits_0|].
      apply Z.bits_above_log2; [unfold fits in Hw; lia|].
      apply Z.lt_le_trans with 16; [|lia]. apply fits_log2; [lia|done].
Qed.

Lemma mkword_inj a b c d :
  fits 8 a -> fits 8 b -> fits 8 c -> fits 8 d ->
  Z.lor a (Z.shiftl b 8) = Z.lor c (Z.shiftl d 8) -> a = c /\ b = d.
Proof. intros Ha Hb Hc Hd. rewrite !mkword_add by done. unfold fits in *. lia. Qed.

Lemma word_at_word b j : bytes b -> word (word_at b j).
Proof. intros. apply mkword_word; by apply bytes_nth. Qed.
#[export] Hint Resolve word_at_word : harbor.

Lemma word_at_cons2_0 a b l : word_at (a :: b :: l) 0 = Z.lor a (Z.shiftl b 8).
Proof. reflexivity. Qed.
Lemma word_at_cons2_S a b l j : word_at (a :: b :: l) (S j) = word_at l j.
Proof.
  unfold word_at. replace (2 * S j)%nat with (S (S (2 * j))) by lia.
  replace (2 * S j + 1)%nat with (S (S (2 * j + 1))) by lia. reflexivity.
Qed.

(** Two slices of the same even length with the same words are equal. *)
Lemma word_at_ext k b c :
  length b = (2 * k)%nat -> length c = (2 * k)%nat -> bytes b -> bytes c ->
  (forall j, (j < k)%nat -> word_at b j = word_at c j) -> b = c.
Proof.
  revert b c. induction k as [|k IH]; intros b c Hb Hc Bb Bc Hw.
  - by destruct b, c.
  - destruct b as [|b0 [|b1 b]], c as [|c0 [|c1 c]]; simpl in *; try lia.
    apply Forall_cons_1 in Bb as [Hb0 Bb]. apply Forall_cons_1 in Bb as [Hb1 Bb].
    apply Forall_cons_1 in Bc as [Hc0 Bc]. apply Forall_cons_1 in Bc as [Hc1 Bc].
    pose proof (Hw 0%nat ltac:(lia)) as H0. rewrite !word_at_cons2_0 in H0.
    apply mkword_inj in H0 as [-> ->]; try done. do 2 f_equal.
    apply IH; try done; try lia. intros j Hj. specialize (Hw (S j) ltac:(lia)).
    by rewrite !word_at_cons2_S in Hw.
Qed.

Lemma mkword_xor a b c d :
  fits 8 a -> fits 8 c -> 
  Z.lor (Z.lxor a c) (Z.shiftl (Z.lxor b d) 8) =
  Z.lxor (Z.lor a (Z.shiftl b 8)) (Z.lor c (Z.shiftl d 8)).
Proof.
  intros Ha Hc. rewrite !mkword_lxor by (done || apply fits_lxor; done || lia).
  rewrite Z.shiftl_lxor. generalize (Z.shiftl b 8), (Z.shiftl d 8). intros p q. xor_bits.
Qed.

(** *** The multiply-accumulate works word by word *)

(** [out] is [dst] with [src * f] added to its first [k] words. *)
Definition macc (k : nat) (dst src out : list Z) (f : Z) : Prop :=
  length out = length dst /\ bytes out /\
  forall j, word_at out j =
    if decide (j < k)%nat then Z.lxor (word_at dst j) (gf16Mul (word_at src j) f)
    else word_at dst j.

Lemma macc_cons2 k d0 d1 s0 s1 dst src out f o0 o1 :
  macc k dst src out f -> fits 8 o0 -> fits 8 o1 ->
  Z.lor o0 (Z.shiftl o1 8) =
    Z.lxor (Z.lor d0 (Z.shiftl d1 8)) (gf16Mul (Z.lor s0 (Z.shiftl s1 8)) f) ->
  macc (S k) (d0 :: d1 :: dst) (s0 :: s1 :: src) (o0 :: o1 :: out) f.
Proof.
  intros (Hl & Hb & Hw) H0 H1 E. split; [simpl; lia|]. split; [by repeat (apply List.Forall_cons || apply list.Forall_cons_2)|].
  intros [|j].
  - rewrite !word_at_cons2_0. by rewrite decide_True by lia.
  - rewrite !word_at_cons2_S, Hw.
    destruct (decide (j < k)%nat), (decide (S j < S k)%nat); done || lia.
Qed.

Lemma macc_0 dst src f : bytes dst -> macc 0 dst src dst f.
Proof. intros. split; [done|]. split; [done|]. done. Qed.

Lemma xor_bytes_macc k dst src :
  (2 * k <= length dst)%nat -> (2 * k <= length src)%nat -> bytes dst -> bytes src ->
  macc k dst src (xor_bytes (2 * k) dst src) 1.
Proof.
  revert dst src. induction k as [|k IH]; intros dst src Hd Hs Bd Bs.
  - destruct dst; by apply macc_0.
  - replace (2 * S k)%nat with (S (S (2 * k))) by lia.
    destruct dst as [|d0 [|d1 dst]], src as [|s0 [|s1 src]]; simpl in Hd, Hs; try lia.
    apply Forall_cons_1 in Bd as [Hd0 Bd]. apply Forall_cons_1 in Bd as [Hd1 Bd].
    apply Forall_cons_1 in Bs as [Hs0 Bs]. apply Forall_cons_1 in Bs as [Hs1 Bs].
    cbn [xor_bytes]. apply macc_cons2.
    + apply IH; try done; lia.
    + apply fits_lxor; done || lia.
    + apply fits_lxor; done || lia.
    + rewrite gf16Mul_1_r by (by apply mkword_word). by apply mkword_xor.
Qed.

Lemma mulXor_words_macc k dst src f :
  word f -> f <> 0 ->
  (2 * k <= length dst)%nat -> (2 * k <= length src)%nat -> bytes dst -> bytes src ->
  macc k dst src (mulXor_words k dst src (glog f)) f.
Proof.
  intros Hf Hf0. revert dst src. induction k as [|k IH]; intros dst src Hd Hs Bd Bs.
  - destruct dst; by apply macc_0.
  - destruct dst as [|d0 [|d1 dst]], src as [|s0 [|s1 src]]; simpl in Hd, Hs; try lia.
    apply Forall_cons_1 in Bd as [Hd0 Bd]. apply Forall_cons_1 in Bd as [Hd1 Bd].
    apply Forall_cons_1 in Bs as [Hs0 Bs]. apply Forall_cons_1 in Bs as [Hs1 Bs].
    specialize (IH dst src ltac:(lia) ltac:(lia) Bd Bs). cbn [mulXor_words].
    set (w := Z.lor s0 (Z.shiftl s1 8)).
    assert (Hw : word w) by (by apply mkword_word).
    destruct (Z.eqb_spec w 0) as [E|E].
    + apply macc_cons2; try done. fold w. by rewrite E, gf16Mul_0_l, Z.lxor_0_r.
    + assert (Em : gf16Mul w f = (let sum := u32 (glog w + glog f) in
        let sum := if gf16Limit <=? sum then u32 (sum - gf16Limit) else sum in alog sum)).
      { unfold gf16Mul. by rewrite (proj2 (Z.eqb_neq _ _) E), (proj2 (Z.eqb_neq _ _) Hf0). }
      cbn zeta in Em |- *. rewrite <-Em. apply macc_cons2; try done.
      * apply fits_lxor; [lia|done|apply u8_fits].
      * apply fits_lxor; [lia|done|apply u8_fits].
      * rewrite mkword_xor by (done || apply u8_fits). f_equal.
        apply mkword_split. by apply gf16Mul_word.
Qed.

Lemma word_at_zero b j : (length b <= 2 * j)%nat -> word_at b j = 0.
Proof. intros. unfold word_at. by rewrite !nth_overflow by lia. Qed.

(** [mulXorInto] over a source of even length: the words of [dst] gain
    [src * factor], a shorter source counting as zero-extended. *)
Lemma mulXorInto_words k h dst src f :
  length dst = (2 * k)%nat -> length src = (2 * h)%nat -> (h <= k)%nat ->
  bytes dst -> bytes src -> word f ->
  length (mulXorInto dst src f) = length dst /\ bytes (mulXorInto dst src f) /\
  forall j, word_at (mulXorInto dst src f) j = Z.lxor (word_at dst j) (gf16Mul (word_at src j) f).
Proof.
  intros Hd Hs Hhk Bd Bs Hf. unfold mulXorInto.
  destruct (Z.eqb_spec f 0) as [->|Hf0].
  { split_and!; try done. intros j. by rewrite gf16Mul_0_r, Z.lxor_0_r. }
  assert (E : (if (length src <? length dst)%nat then length src else length dst) = (2 * h)%nat).
  { destruct (Nat.ltb_spec (length src) (length dst)); lia. }
  rewrite E, Nat.div2_double, Nat.div2_double. cbn zeta.
  assert (Hm : forall out, macc h dst src out f ->
    length out = length dst /\ bytes out /\
    forall j, word_at out j = Z.lxor (word_at dst j) (gf16Mul (word_at src j) f)).
  { intros out (H1 & H2 & H3). split_and!; try done. intros j. rewrite H3.
    case_decide; [done|]. by rewrite (word_at_zero src), gf16Mul_0_l, Z.lxor_0_r by lia. }
  destruct (Z.eqb_spec f 1) as [->|Hf1]; apply Hm.
  - apply xor_bytes_macc; done || lia.
  - apply mulXor_words_macc; done || lia.
Qed.

Lemma u8_split w : bytes (split_word w).
Proof. repeat constructor; apply u8_fits. Qed.

(** Slices written word by word. *)
Lemma word_slice n (f : nat -> Z) :
  (forall j, word (f j)) ->
  length (concat (map (fun j => split_word (f j)) (seq 0 n))) = (2 * n)%nat /\
  bytes (concat (map (fun j => split_word (f j)) (seq 0 n))) /\
  forall j, (j < n)%nat -> word_at (concat (map (fun j => split_word (f j)) (seq 0 n))) j = f j.
Proof.
  intros Hf. assert (G : forall n a,
    length (concat (map (fun j => split_word (f j)) (seq a n))) = (2 * n)%nat /\
    bytes (concat (map (fun j => split_word (f j)) (seq a n))) /\
    forall j, (j < n)%nat -> word_at (concat (map (fun j => split_word (f j)) (seq a n))) j = f (a + j)%nat).
  { clear n. induction n as [|n IH]; intros a.
    - split_and!; [done|constructor|lia].
    - destruct (IH (S a)) as (H1 & H2 & H3). cbn [seq map concat].
      split_and!.
      + rewrite length_app, H1. simpl. lia.
      + apply Forall_app. split; [apply u8_split|done].
      + intros [|j] Hj.
        * rewrite Nat.add_0_r. unfold split_word. cbn [app]. rewrite word_at_cons2_0.
          by apply mkword_split.
        * unfold split_word. cbn [app]. rewrite word_at_cons2_S, H3 by lia. f_equal; lia. }
  apply G.
Qed.

(** ** Construction *)

Lemma check_unknown_fold tot seen l s' :
  rfold (check_unknown tot) seen l = Ok s' <->
  NoDup l /\ Forall (fun i => 0 <= i < tot /\ i ∉ seen) l /\ s' = list_to_set l ∪ seen.
Proof.
  revert seen. induction l as [|x l IH]; intros seen; simpl.
  - rewrite union_empty_l_L. split; [intros [= <-]|intros (_ & _ & ->)]; [|done].
    split_and!; [constructor|constructor|done].
  - rewrite list.NoDup_cons, list.Forall_cons, rbind_ok. unfold check_unknown at 1.
    destruct (Z.ltb_spec x 0), (Z.leb_spec tot x); cbn [orb];
      try (split; [by intros (? & ? & ?)|intros (_ & [[? _] _] & _); lia]).
    case_bool_decide as Hin; [split; [by intros (? & ? & ?)|intros (_ & [[_ ?] _] & _); done]|].
    split.
    + intros (a & [= <-] & H'). apply IH in H' as (Hn & Hf & ->).
      rewrite list.Forall_forall in Hf. split_and!.
      * intros Hx. destruct (Hf x Hx) as [_ Hx']. set_solver.
      * done.
      * lia.
      * lia.
      * done.
      * apply list.Forall_forall. intros i Hi. destruct (Hf i Hi). split; [lia|]. set_solver.
      * set_solver.
    + intros ((Hx & Hn) & (_ & Hf) & ->). eexists; split; [done|]. apply IH.
      rewrite list.Forall_forall in Hf. split_and!; [done| |set_solver].
      apply list.Forall_forall. intros i Hi. destruct (Hf i Hi). split; [lia|]. set_solver.
Qed.

Lemma check_exponent_fold seen l s' :
  rfold check_exponent seen l = Ok s' <->
  NoDup l /\ Forall (fun e => e ∉ seen) l /\ s' = list_to_set l ∪ seen.
Proof.
  revert seen. induction l as [|x l IH]; intros seen; simpl.
  - rewrite union_empty_l_L. split; [intros [= <-]|intros (_ & _ & ->)]; [|done].
    split_and!; [constructor|constructor|done].
  - rewrite list.NoDup_cons, list.Forall_cons, rbind_ok. unfold check_exponent at 1.
    case_bool_decide as Hin; [split; [by intros (? & ? & ?)|intros (_ & [? _] & _); done]|].
    split.
    + intros (a & [= <-] & H'). apply IH in H' as (Hn & Hf & ->).
      rewrite list.Forall_forall in Hf. split_and!; try done.
      * intros Hx. specialize (Hf x Hx). set_solver.
      * apply list.Forall_forall. intros i Hi. specialize (Hf i Hi). set_solver.
      * set_solver.
    + intros ((Hx & Hn) & (_ & Hf) & ->). eexists; split; [done|]. apply IH.
      rewrite list.Forall_forall in Hf. split_and!; [done| |set_solver].
      apply list.Forall_forall. intros i Hi. specialize (Hf i Hi). set_solver.
Qed.

(** What [NewPAR2Solver] accepts. *)
Record geometry (ss tot : Z) (unk exps : list Z) : Prop := {
  geo_ss : 0 < ss <= MaxPAR2SliceBytes;
  geo_ss4 : Z.rem ss 4 = 0;
  geo_tot : 0 < tot <= MaxPAR2TotalBlocks;
  geo_dim : 0 < Z.of_nat (length unk) <= MaxPAR2UnknownBlocks;
  geo_dims : length unk = length exps;
  geo_le : Z.of_nat (length unk) <= tot;
  geo_bytes : Z.of_nat (length unk) * ss <= maxPAR2SolverBytes;
  geo_unk : NoDup unk;
  geo_range : Forall (fun i => 0 <= i < tot) unk;
  geo_exps : NoDup exps
}.

Definition coeff_matrix (unk exps : list Z) : list (list Z) :=
  map (fun e => map (fun c => gf16Pow (block_constant (Z.to_nat c)) e) unk) exps.

Definition initial_solver (ss tot : Z) (unk exps : list Z) : PAR2Solver :=
  MkSolver ss tot unk exps (coeff_matrix unk exps) (replicate (length unk) (zeros ss))
    (list_to_set unk) (replicate (length unk) false) 0 ∅ (zeros ss) false.

Lemma PAR2InputConstants_Some n :
  0 < n <= MaxPAR2TotalBlocks -> PAR2InputConstants n = Some (take (Z.to_nat n) par2Const).
Proof.
  intros Hn. unfold PAR2InputConstants.
  destruct (Z.leb_spec n 0); [lia|]. destruct (Z.ltb_spec MaxPAR2TotalBlocks n); [lia|].
  cbn [orb]. rewrite par2Const_length.
  destruct (Z.ltb_spec (Z.of_nat (Z.to_nat MaxPAR2TotalBlocks)) n); [|done].
  unfold MaxPAR2TotalBlocks in *. lia.
Qed.

Lemma take_nth {A} (d : A) n i l : (i < n)%nat -> nth i (take n l) d = nth i l d.
Proof.
  revert i l. induction n as [|n IH]; intros i [|x l] Hi; simpl; try lia; [done|].
  destruct i; [done|]. apply IH. lia.
Qed.

Lemma coeff_matrix_eq tot unk exps :
  Forall (fun i => 0 <= i < tot) unk ->
  map (fun e => map (fun c => gf16Pow (nth (Z.to_nat c) (take (Z.to_nat tot) par2Const) 0) e) unk) exps
  = coeff_matrix unk exps.
Proof.
  intros Hr. apply map_ext. intros e. apply List.map_ext_Forall.
  apply List.Forall_forall. intros c Hc. unfold block_constant. f_equal.
  rewrite List.Forall_forall in Hr. specialize (Hr c Hc). apply take_nth. lia.
Qed.

(** The constructor accepts exactly the good geometries. *)
Lemma NewPAR2Solver_Ok ss tot unk exps s :
  NewPAR2Solver ss tot unk exps = Ok s <->
  geometry ss tot unk exps /\ s = initial_solver ss tot unk exps.
Proof.
  unfold NewPAR2Solver, MaxPAR2UnknownBlocks. split.
  - intros H. split_guards H. bool_hyps.
    apply check_unknown_fold in Hr as (Hn & Hf & ->).
    apply check_exponent_fold in Hr0 as (Hn' & _ & _).
    assert (Hrange : Forall (fun i => 0 <= i < tot) unk).
    { rewrite list.Forall_forall in Hf |- *. intros i Hi. apply (Hf i Hi). }
    rewrite PAR2InputConstants_Some in Heqo by lia. injection Heqo as <-.
    rewrite coeff_matrix_eq in H by done. injection H as <-.
    rewrite union_empty_r_L.
    apply Nat.eqb_neq in Heqb1. apply Nat.eqb_eq in Heqb2.
    rewrite i64_small in Heqb5.
    + split; [|done]. split; try done; unfold MaxPAR2UnknownBlocks in *; try lia.
    + unfold is_i64, minInt64, maxInt64, MaxPAR2SliceBytes in *.
      change (Z.shiftl 64 20) with (2 ^ 26) in *. nia.
  - intros [[] ->]. unfold MaxPAR2UnknownBlocks in *.
    destruct (Z.leb_spec ss 0); [lia|]. rewrite geo_ss5. cbn [orb negb Z.eqb].
    destruct (Z.ltb_spec MaxPAR2SliceBytes ss); [lia|].
    destruct (Z.leb_spec tot 0); [lia|]. cbn [orb].
    destruct (Z.ltb_spec MaxPAR2TotalBlocks tot); [lia|].
    destruct (Nat.eqb_spec (length unk) 0); [lia|].
    destruct (Nat.eqb_spec (length unk) (length exps)); [|lia]. cbn [negb].
    destruct (Z.ltb_spec 256 (Z.of_nat (length unk))); [lia|].
    destruct (Z.ltb_spec tot (Z.of_nat (length unk))); [lia|].
    rewrite i64_small.
    2: { unfold is_i64, minInt64, maxInt64, maxPAR2SolverBytes in *.
         change (Z.shiftl 256 20) with (2 ^ 28) in *. nia. }
    destruct (Z.ltb_spec maxPAR2SolverBytes (Z.of_nat (length unk) * ss)); [lia|].
    rewrite (proj2 (check_unknown_fold tot ∅ unk (list_to_set unk ∪ ∅))).
    + rewrite (proj2 (check_exponent_fold ∅ exps (list_to_set exps ∪ ∅))).
      * cbn [rbind]. rewrite PAR2InputConstants_Some by lia.
        rewrite coeff_matrix_eq by done. by rewrite union_empty_r_L.
      * split_and!; try done. apply list.Forall_forall. set_solver.
    + split_and!; try done. rewrite list.Forall_forall in geo_range0 |- *.
      intros i Hi. split; [by apply geo_range0|]. set_solver.
Qed.

(** ** Sums over a chosen set of indices *)

Lemma xsum_point n x f :
  (x < n)%nat -> xsum n (fun i => if decide (i = x) then f i else 0) = f x.
Proof.
  intros Hx. induction n as [|n IH]; [lia|]. simpl. destruct (decide (n = x)) as [->|].
  - rewrite xsum_0; [apply Z.lxor_0_l|]. intros k Hk. by rewrite decide_False by lia.
  - rewrite IH by lia. apply Z.lxor_0_r.
Qed.

Lemma xsum_shift n h : xsum (S n) h = Z.lxor (h 0%nat) (xsum n (fun k => h (S k))).
Proof.
  induction n as [|n IH]; [simpl; by rewrite Z.lxor_0_r|].
  cbn [xsum] in *. rewrite IH. apply Z.lxor_assoc.
Qed.

Lemma xsum_select n (l : list nat) f :
  NoDup l -> Forall (fun i => (i < n)%nat) l ->
  xsum n (fun i => if decide (i ∈ l) then f i else 0) =
  xsum (length l) (fun c => f (nth c l 0%nat)).
Proof.
  induction l as [|x l IH]; intros Hn Hf.
  - apply xsum_0. intros k _. by rewrite decide_False by set_solver.
  - apply list.NoDup_cons in Hn as [Hx Hn]. apply list.Forall_cons in Hf as [Hlt Hf].
    cbn [length]. rewrite xsum_shift. cbn [nth]. rewrite <-IH by done.
    rewrite <-(xsum_point n x f) by done. rewrite <-xsum_lxor. apply xsum_ext.
    intros k _. destruct (decide (k = x)) as [->|].
    + rewrite decide_True by set_solver. rewrite decide_False by done. by rewrite Z.lxor_0_r.
    + rewrite Z.lxor_0_l. destruct (decide (k ∈ l)); [by rewrite decide_True by set_solver|].
      by rewrite decide_False by set_solver.
Qed.

Lemma block_constant_ok i :
  (i < Z.to_nat MaxPAR2TotalBlocks)%nat -> word (block_constant i) /\ block_constant i <> 0.
Proof.
  intros Hi. unfold block_constant. rewrite <-par2Const_length in Hi.
  destruct (lookup_lt_is_Some_2 par2Const i Hi) as [c Hc].
  rewrite (nth_lookup_Some _ _ _ _ Hc). by apply par2Const_lookup in Hc.
Qed.

Lemma block_constant_inj i j :
  (i < Z.to_nat MaxPAR2TotalBlocks)%nat -> (j < Z.to_nat MaxPAR2TotalBlocks)%nat ->
  block_constant i = block_constant j -> i = j.
Proof.
  intros Hi Hj. unfold block_constant. rewrite <-par2Const_length in Hi, Hj.
  destruct (lookup_lt_is_Some_2 par2Const i Hi) as [c Hc].
  destruct (lookup_lt_is_Some_2 par2Const j Hj) as [d Hd].
  rewrite (nth_lookup_Some _ _ _ _ Hc), (nth_lookup_Some _ _ _ _ Hd). intros ->.
  eapply NoDup_lookup; eauto using par2Const_NoDup.
Qed.

Lemma block_constant_word i : word (block_constant i).
Proof.
  unfold block_constant. destruct (nth_in_or_default i par2Const 0) as [H| ->]; [|apply word_0].
  apply list_elem_of_In, list_elem_of_lookup in H as [k Hk]. exact (proj1 (par2Const_lookup _ _ Hk)).
Qed.
#[export] Hint Resolve block_constant_word ppower_word : harbor.

(** The number of raised flags. *)
Fixpoint count_true (l : list bool) : nat :=
  match l with
  | [] => 0
  | b :: l => (if b then 1 else 0) + count_true l
  end%nat.

Lemma count_true_replicate n : count_true (replicate n false) = 0%nat.
Proof. induction n; done. Qed.

Lemma count_true_insert n l :
  l !! n = Some false -> count_true (<[n := true]> l) = S (count_true l).
Proof.
  revert n. induction l as [|b l IH]; intros [|n] H; try done.
  - by injection H as ->.
  - simpl in H |- *. rewrite (IH n H). lia.
Qed.

Lemma count_true_full l : count_true l = length l -> forall n, (n < length l)%nat -> l !! n = Some true.
Proof.
  assert (Hle : forall l, (count_true l <= length l)%nat).
  { clear. induction l as [|[] l IH]; simpl; lia. }
  induction l as [|b l IH]; simpl; intros H n Hn; [lia|].
  specialize (Hle l). destruct b; [|lia]. destruct n; [done|]. apply IH; lia.
Qed.

Lemma nth_repeat_zero n i : nth i (replicate n 0) 0 = 0.
Proof. revert i. induction n as [|n IH]; intros [|i]; simpl; auto. Qed.

(** ** The solver's invariant *)

Section Solver.
Context (ss tot : Z) (unk exps : list Z) (B : Z -> list Z).
Hypothesis Hgeo : geometry ss tot unk exps.
Hypothesis Hexps : Forall (fits 32) exps.
Hypothesis HB : forall i, 0 <= i < tot -> bytes (B i) /\ Z.of_nat (length (B i)) <= ss.

(** Words per slice. *)
Let kw : nat := (Z.to_nat ss / 2)%nat.
Let Bp (i : Z) : list Z := padded ss (B i).
Let dim : nat := length unk.

(** The contribution of block [i] to word [j] of the slice with exponent [e]. *)
Definition term (e : Z) (j i : nat) : Z :=
  pmul (ppower (block_constant i) (Z.to_nat e)) (word_at (Bp (Z.of_nat i)) j).

(** What is left of a recovery slice once the blocks of [K] are folded out. *)
Definition residual (K : gset Z) (e : Z) (j : nat) : Z :=
  xsum (Z.to_nat tot) (fun i => if decide (Z.of_nat i ∈ K) then 0 else term e j i).

Lemma ss_even : Z.to_nat ss = (2 * kw)%nat /\ (0 < kw)%nat.
Proof.
  destruct Hgeo. unfold kw. rewrite Z.rem_mod_nonneg in geo_ss5 by lia.
  pose proof (Z.div_mod ss 4 ltac:(lia)) as E. rewrite geo_ss5 in E.
  assert (E2 : Z.to_nat ss = (2 * (2 * Z.to_nat (ss / 4)))%nat) by lia.
  rewrite E2. rewrite Nat.mul_comm, Nat.div_mul by lia. split; [lia|].
  assert (1 <= ss / 4) by (apply Z.div_le_lower_bound; lia). lia.
Qed.

Lemma Bp_ok i : 0 <= i < tot -> bytes (Bp i) /\ length (Bp i) = (2 * kw)%nat.
Proof.
  intros Hi. destruct (HB i Hi) as [Hb Hl]. pose proof ss_even as [E _]. split.
  - apply Forall_app. split; [done|]. apply Forall_replicate. unfold fits. lia.
  - unfold Bp, padded. rewrite length_app, length_replicate. lia.
Qed.

Lemma term_word e j i : (Z.of_nat i < tot) -> word (term e j i).
Proof. intros. unfold term. auto with harbor. Qed.

Lemma residual_insert K e j i :
  0 <= i < tot -> i ∉ K ->
  residual ({[i]} ∪ K) e j = Z.lxor (residual K e j) (term e j (Z.to_nat i)).
Proof.
  intros Hi HK. unfold residual.
  rewrite <-(xsum_point (Z.to_nat tot) (Z.to_nat i) (term e j)) by lia.
  rewrite <-xsum_lxor. apply xsum_ext. intros k Hk.
  destruct (decide (k = Z.to_nat i)) as [->|Hne].
  - rewrite Z2Nat.id by lia. rewrite decide_True by set_solver.
    rewrite decide_False by done. by rewrite Z.lxor_nilpotent.
  - rewrite Z.lxor_0_r. destruct (decide (Z.of_nat k ∈ K)).
    + by rewrite decide_True by set_solver.
    + rewrite decide_False; [done|]. rewrite elem_of_union, elem_of_singleton. intros [|]; [lia|done].
Qed.

Record sinv (s : PAR2Solver) : Prop := {
  sv_ss : sliceSize s = ss;
  sv_total : total s = tot;
  sv_unknown : unknown s = unk;
  sv_exps : exponents s = exps;
  sv_coeff : coeff s = coeff_matrix unk exps;
  sv_set : unknownSet s = list_to_set unk;
  sv_solved : solved s = false;
  sv_rhs : length (rhs s) = dim;
  sv_have : length (haveSlice s) = dim;
  sv_seen : slicesSeen s = Z.of_nat (count_true (haveSlice s));
  sv_pad : length (pad s) = (2 * kw)%nat;
  sv_known : forall i, i ∈ known s -> 0 <= i < tot /\ i ∉ unk;
  sv_rows : forall r row, rhs s !! r = Some row ->
    length row = (2 * kw)%nat /\ bytes row /\
    (haveSlice s !! r = Some true -> forall j, (j < kw)%nat ->
       word_at row j = residual (known s) (nth r exps 0) j)
}.

Lemma initial_sinv : sinv (initial_solver ss tot unk exps).
Proof.
  pose proof ss_even as [E _]. split; try done; simpl.
  - apply length_replicate.
  - apply length_replicate.
  - by rewrite count_true_replicate.
  - unfold zeros. by rewrite length_replicate.
  - intros r row Hr. apply lookup_replicate in Hr as [-> Hr]. unfold zeros.
    rewrite length_replicate. split_and!; [done| |].
    + apply Forall_replicate. unfold fits. lia.
    + intros Hh. by apply lookup_replicate in Hh as [? _].
Qed.

Lemma find_row_Some e row : find_row e exps = Some row -> exps !! row = Some e.
Proof.
  clear. revert row. induction exps as [|x l IH]; intros row; simpl; [done|].
  destruct (Z.eqb_spec x e) as [->|]; [by intros [= <-]|].
  destruct (find_row e l) as [r|]; simpl; [|done]. intros [= <-]. by apply IH.
Qed.

Lemma recovery_slice_word e :
  length (recovery_slice ss tot Bp e) = (2 * kw)%nat /\ bytes (recovery_slice ss tot Bp e) /\
  forall j, (j < kw)%nat -> word_at (recovery_slice ss tot Bp e) j = residual ∅ e j.
Proof.
  destruct (word_slice kw (recovery_word tot Bp e)) as (H1 & H2 & H3).
  - intros j. apply xsum_word. intros i Hi. apply term_word. lia.
  - split_and!; [done|done|]. intros j Hj. unfold recovery_slice. fold kw. rewrite H3 by done.
    apply xsum_ext. intros i Hi. by rewrite decide_False by set_solver.
Qed.

Lemma AddRecoverySlice_inv s e s' :
  sinv s -> known s = ∅ -> AddRecoverySlice s e (recovery_slice ss tot Bp e) = Ok s' ->
  sinv s' /\ known s' = ∅.
Proof.
  intros [] Hk H. unfold AddRecoverySlice in H. split_guards H.
  rewrite sv_exps0 in Heqo. apply find_row_Some in Heqo.
  destruct (recovery_slice_word e) as (R1 & R2 & R3).
  assert (Hrow : haveSlice s !! n = Some false).
  { destruct (lookup_lt_is_Some_2 (haveSlice s) n) as [b Hb].
    - rewrite sv_have0. unfold dim. rewrite (geo_dims _ _ _ _ Hgeo). by eapply lookup_lt_Some.
    - rewrite (nth_lookup_Some _ _ _ _ Hb) in Heqb1. by rewrite Hb, Heqb1. }
  injection H as <-. split; [|done]. split; try done; simpl.
  - by rewrite length_insert.
  - by rewrite length_insert.
  - rewrite sv_seen0, (count_true_insert n) by done. lia.
  - intros r row Hr. destruct (decide (r = n)) as [->|Hne].
    + rewrite list_lookup_insert_eq in Hr by (pose proof (lookup_lt_Some _ _ _ Hrow); lia).
      injection Hr as <-. split_and!; [done|done|]. intros _ j Hj.
      rewrite R3, Hk by done. by rewrite (nth_lookup_Some _ _ _ _ Heqo).
    + rewrite !list_lookup_insert_ne in * by done. by apply sv_rows0.
Qed.

Lemma coeff_pow e i : e ∈ exps -> gf16Pow (block_constant i) e = ppower (block_constant i) (Z.to_nat e).
Proof.
  intros He. rewrite list.Forall_forall in Hexps.
  apply gf16Pow_ppower; auto with harbor.
Qed.

Lemma AddKnownBlock_inv s i s' :
  sinv s -> AddKnownBlock s i (B i) = Ok s' -> sinv s' /\ known s' = {[i]} ∪ known s.
Proof.
  intros [] H. unfold AddKnownBlock in H. split_guards H. bool_hyps.
  rewrite sv_total0, sv_ss0, sv_set0 in *.
  assert (Hi : 0 <= i < tot) by lia.
  pose proof ss_even as [E _]. destruct (HB i Hi) as [Hbb Hbl].
  assert (Hblock : (if Z.of_nat (length (B i)) <? ss
     then copy_bytes (replicate (length (pad s)) 0) (B i) else B i) = Bp i).
  { unfold Bp, padded, copy_bytes. rewrite length_replicate, sv_pad0.
    destruct (Z.ltb_spec (Z.of_nat (length (B i))) ss).
    - rewrite take_ge by lia. rewrite drop_replicate. by rewrite E.
    - replace (Z.to_nat ss - length (B i))%nat with 0%nat by lia. simpl. by rewrite app_nil_r. }
  rewrite PAR2InputConstants_Some in Heqo by apply Hgeo. injection Heqo as <-.
  rewrite take_nth in H by lia. fold (block_constant (Z.to_nat i)) in H.
  destruct (Bp_ok i Hi) as [Bb Bl].
  assert (Hpad : length (if Z.of_nat (length (B i)) <? ss
     then copy_bytes (replicate (length (pad s)) 0) (B i) else pad s) = (2 * kw)%nat).
  { destruct (Z.ltb_spec (Z.of_nat (length (B i))) ss); [|done]. unfold copy_bytes.
    rewrite length_app, length_take, length_drop, length_replicate. lia. }
  assert (Hblock' : (if Z.of_nat (length (B i)) <? ss
     then if Z.of_nat (length (B i)) <? ss
          then copy_bytes (replicate (length (pad s)) 0) (B i) else pad s else B i) = Bp i).
  { destruct (Z.of_nat (length (B i)) <? ss); done. }
  rewrite Hblock' in H. injection H as <-. split; [|done]. split; try done; simpl.
  - by rewrite length_imap.
  - intros k [->%elem_of_singleton|Hk]%elem_of_union; [|auto]. split; [done|]. set_solver.
  - intros r row Hr. rewrite list_lookup_imap in Hr.
    destruct (rhs s !! r) as [row0|] eqn:Er; [|done]. simpl in Hr. injection Hr as <-.
    destruct (sv_rows0 r row0 Er) as (L & Bt & W).
    assert (He : nth r exps 0 ∈ exps).
    { pose proof (lookup_lt_Some _ _ _ Er). pose proof (geo_dims _ _ _ _ Hgeo).
      unfold dim in *. apply list_elem_of_In, nth_In. lia. }
    rewrite sv_exps0, coeff_pow by done.
    destruct (mulXorInto_words kw kw row0 (Bp i) (ppower (block_constant (Z.to_nat i)) (Z.to_nat (nth r exps 0))))
      as (M1 & M2 & M3); auto with harbor.
    split_and!; [lia|done|]. intros Hh j Hj. rewrite M3, W by done.
    rewrite residual_insert by done. f_equal. unfold term.
    rewrite gf16Mul_comm, gf16Mul_pmul by auto with harbor. by rewrite Z2Nat.id by lia.
Qed.

(** ** The solve step *)

Lemma apply_inverse_row_words (rows : list (list Z)) w block :
  length block = (2 * kw)%nat -> bytes block -> words w ->
  Forall (fun row => length row = (2 * kw)%nat /\ bytes row) rows -> length w = length rows ->
  length (apply_inverse_row block rows w) = (2 * kw)%nat /\
  bytes (apply_inverse_row block rows w) /\
  forall j, word_at (apply_inverse_row block rows w) j =
    Z.lxor (word_at block j)
      (xsum (length rows) (fun r => gf16Mul (word_at (nth r rows []) j) (col w r))).
Proof.
  revert w block. induction rows as [|row rows IH]; intros w block Lb Bb Hw Hr Hl.
  - destruct w; [|done]. simpl. split_and!; [done|done|]. intros j. by rewrite Z.lxor_0_r.
  - destruct w as [|f w]; [done|]. apply list.Forall_cons in Hr as [[Lr Br] Hr].
    apply list.Forall_cons in Hw as [Hf Hw]. cbn [apply_inverse_row].
    destruct (mulXorInto_words kw kw block row f) as (M1 & M2 & M3); try done.
    destruct (IH w (mulXorInto block row f)) as (I1 & I2 & I3); try done.
    { by rewrite M1. }
    { simpl in Hl. lia. }
    split_and!; [done|done|]. intros j. cbn [length]. rewrite xsum_shift, I3, M3.
    cbn [nth col]. by rewrite Z.lxor_assoc.
Qed.

Lemma coeff_matrix_ok : mat_ok dim (coeff_matrix unk exps).
Proof.
  unfold coeff_matrix. split; [rewrite length_map; symmetry; apply Hgeo|].
  apply list.Forall_forall. intros w Hw. apply list_elem_of_In, in_map_iff in Hw as (e & <- & He).
  apply list_elem_of_In in He.
  split; [by rewrite length_map|]. apply list.Forall_forall. intros x Hx.
  apply list_elem_of_In, in_map_iff in Hx as (c & <- & _).
  rewrite coeff_pow by done. auto with harbor.
Qed.

Lemma coeff_matrix_get r c :
  (r < dim)%nat -> (c < dim)%nat ->
  mget (coeff_matrix unk exps) r c =
  ppower (block_constant (Z.to_nat (nth c unk 0))) (Z.to_nat (nth r exps 0)).
Proof.
  intros Hr Hc. pose proof (geo_dims _ _ _ _ Hgeo). unfold dim in *.
  destruct (lookup_lt_is_Some_2 exps r ltac:(lia)) as [e He].
  destruct (lookup_lt_is_Some_2 unk c ltac:(lia)) as [u Hu].
  unfold mget, mrow, col, coeff_matrix.
  rewrite (nth_lookup_Some (map _ exps) r _ (map (fun c => gf16Pow (block_constant (Z.to_nat c)) e) unk)).
  2: by rewrite list_lookup_fmap, He.
  rewrite (nth_lookup_Some (map _ unk) c _ (gf16Pow (block_constant (Z.to_nat u)) e)).
  2: by rewrite list_lookup_fmap, Hu.
  rewrite (nth_lookup_Some _ _ _ _ He), (nth_lookup_Some _ _ _ _ Hu).
  apply coeff_pow. apply list_elem_of_lookup. eauto.
Qed.

(** Once every surviving block is folded out, exactly the unknown ones remain. *)
Lemma residual_complete K e j :
  (forall i, 0 <= i < tot -> i ∈ K <-> i ∉ unk) ->
  residual K e j = xsum dim (fun c => term e j (Z.to_nat (nth c unk 0))).
Proof.
  intros HK. unfold residual. pose proof (geo_range _ _ _ _ Hgeo) as Hr. rewrite list.Forall_forall in Hr.
  rewrite (xsum_ext _ _ (fun i => if decide (i ∈ map Z.to_nat unk) then term e j i else 0)).
  - rewrite xsum_select.
    + rewrite length_map. apply xsum_ext. intros c Hc.
      by rewrite <-(map_nth Z.to_nat unk 0 c).
    + apply NoDup_fmap_2_strong; [|exact (geo_unk _ _ _ _ Hgeo)]. intros x y Hx Hy ?.
      pose proof (Hr x Hx). pose proof (Hr y Hy). lia.
    + apply list.Forall_forall. intros i Hi. apply list_elem_of_fmap in Hi as (x & -> & Hx).
      specialize (Hr x Hx). lia.
  - intros i Hi. specialize (HK (Z.of_nat i) ltac:(lia)).
    assert (Hm : i ∈ map Z.to_nat unk <-> Z.of_nat i ∈ unk).
    { rewrite list_elem_of_fmap. split.
      - intros (x & -> & Hx). specialize (Hr x Hx). by rewrite Z2Nat.id by lia.
      - intros Hx. exists (Z.of_nat i). by rewrite Nat2Z.id. }
    destruct (decide (i ∈ map Z.to_nat unk)) as [H|H]; rewrite Hm in H.
    + rewrite decide_False by tauto. done.
    + rewrite decide_True by tauto. done.
Qed.

(** A set of surviving blocks of the right size is complete. *)
Lemma known_complete (K : gset Z) :
  (forall i, i ∈ K -> 0 <= i < tot /\ i ∉ unk) ->
  Z.of_nat (size K) = tot - Z.of_nat dim ->
  forall i, 0 <= i < tot -> i ∈ K <-> i ∉ unk.
Proof.
  intros HK Hsize i Hi. split; [intros H; apply (HK i H)|]. intros Hu.
  set (all := list_to_set (seqZ 0 tot) : gset Z).
  assert (Hall : forall x, x ∈ all <-> 0 <= x < tot).
  { intros x. unfold all. rewrite elem_of_list_to_set, elem_of_seqZ. lia. }
  pose proof (geo_range _ _ _ _ Hgeo) as Hr. rewrite list.Forall_forall in Hr.
  assert (Hsub : (list_to_set unk : gset Z) ⊆ all).
  { intros x Hx. apply elem_of_list_to_set in Hx. apply Hall. by apply Hr. }
  assert (Hsz : size (all ∖ list_to_set unk) = (Z.to_nat tot - dim)%nat).
  { rewrite size_difference by done. unfold all.
    rewrite !size_list_to_set by (exact (geo_unk _ _ _ _ Hgeo) || apply NoDup_seqZ). by rewrite length_seqZ. }
  assert (E : K = all ∖ list_to_set unk).
  { apply set_subseteq_size_eq.
    - intros x Hx. destruct (HK x Hx). apply elem_of_difference. rewrite Hall, elem_of_list_to_set. done.
    - rewrite Hsz. lia. }
  rewrite E, elem_of_difference, Hall, elem_of_list_to_set. done.
Qed.

(** The inverse applied to the residual right-hand sides gives back each
    unknown block. *)
Lemma solve_block inv s c :
  sinv s -> slicesSeen s = Z.of_nat dim -> Z.of_nat (size (known s)) = tot - Z.of_nat dim ->
  mat_ok' dim inv -> left_inverse dim inv (coeff_matrix unk exps) -> (c < dim)%nat ->
  apply_inverse_row (zeros ss) (rhs s) (mrow inv c) = Bp (nth c unk 0).
Proof.
  intros [] Hseen Hknown [Linv Finv] Hinv Hc. pose proof ss_even as [E _].
  pose proof (geo_range _ _ _ _ Hgeo) as Hr. rewrite list.Forall_forall in Hr.
  pose proof (geo_tot _ _ _ _ Hgeo) as Ht.
  assert (Hu : forall c, 0 <= nth c unk 0 < tot).
  { intros k. destruct (nth_in_or_default k unk 0) as [H| ->]; [|lia].
    by apply Hr, list_elem_of_In. }
  assert (Hrow : length (mrow inv c) = dim /\ words (mrow inv c)).
  { unfold mrow. rewrite list.Forall_forall in Finv.
    apply Finv, list_elem_of_In, nth_In. lia. }
  destruct (apply_inverse_row_words (rhs s) (mrow inv c) (zeros ss)) as (A1 & A2 & A3).
  { unfold zeros. by rewrite length_replicate. }
  { apply Forall_replicate. unfold fits. lia. }
  { apply Hrow. }
  { apply list.Forall_forall. intros row [r Hr']%list_elem_of_lookup.
    destruct (sv_rows0 r row Hr') as (? & ? & _). done. }
  { destruct Hrow. lia. }
  destruct (Bp_ok (nth c unk 0) (Hu c)) as [Bb Bl].
  apply (word_at_ext kw); try done. intros j Hj. rewrite A3, sv_rhs0.
  replace (word_at (zeros ss) j) with 0.
  2: { unfold word_at, zeros. by rewrite !nth_repeat_zero. }
  rewrite Z.lxor_0_l.
  assert (Hfull : forall r, (r < dim)%nat -> haveSlice s !! r = Some true).
  { intros r Hr'. apply count_true_full; lia. }
  pose proof (known_complete _ sv_known0 Hknown) as HK.
  set (M := coeff_matrix unk exps) in *. set (b := fun u => word_at (Bp (nth u unk 0)) j).
  assert (Wb : wordf b) by (intros u; apply word_at_word, Bp_ok, Hu).
  assert (Wm : forall r u, word (mget M r u)).
  { intros r u. apply (mget_word dim), coeff_matrix_ok. }
  assert (Wi : forall r, word (mget inv c r)) by (intros r; apply col_word, Hrow).
  transitivity (xsum dim (fun r => xsum dim (fun u =>
    gf16Mul (mget inv c r) (gf16Mul (mget M r u) (b u))))).
  - apply xsum_ext. intros r Hr'.
    destruct (lookup_lt_is_Some_2 (rhs s) r ltac:(lia)) as [row Hrw].
    destruct (sv_rows0 r row Hrw) as (_ & Brow & W).
    rewrite (nth_lookup_Some _ _ _ _ Hrw), W by auto.
    rewrite (residual_complete _ _ _ HK).
    rewrite (xsum_ext _ _ (fun u => gf16Mul (mget M r u) (b u))).
    2: { intros u Hu'. unfold term, M. rewrite coeff_matrix_get by done.
         rewrite Z2Nat.id by apply Hu. rewrite gf16Mul_pmul; auto with harbor. }
    change (col (mrow inv c) r) with (mget inv c r).
    rewrite xsum_mul_r by (done || intros u; auto with harbor).
    apply xsum_ext. intros u _. apply gf16Mul_comm; auto with harbor.
  - rewrite xsum_swap. transitivity (xsum dim (fun u => gf16Mul (delta c u) (b u))).
    + apply xsum_ext. intros u Hu'. rewrite <-(Hinv c u) by done.
      rewrite xsum_mul_r by (done || intros r; auto with harbor).
      apply xsum_ext. intros r _. symmetry. apply gf16Mul_assoc; auto with harbor.
    + exact (xsum_delta dim c b Hc Wb).
Qed.

Lemma dim_pos : (0 < dim)%nat.
Proof. pose proof (geo_dim _ _ _ _ Hgeo). unfold dim. lia. Qed.

Lemma Solve_blocks s out s' : sinv s -> Solve s = Ok (out, s') -> out = map Bp unk.
Proof.
  intros Hs H. pose proof Hs as Hs'. destruct Hs'. unfold Solve in H.
  rewrite sv_solved0, sv_unknown0, sv_total0, sv_ss0, sv_coeff0 in H. fold dim in H.
  destruct (slicesSeen s =? Z.of_nat dim) eqn:E1; [cbn [negb] in H|discriminate H].
  destruct (invert_cases dim _ coeff_matrix_ok dim_pos) as [(inv & Ei & Hok & Hinv)|[Ei _]];
    rewrite Ei in H; [|discriminate H].
  destruct (Z.of_nat (size (known s)) =? tot - Z.of_nat dim) eqn:E2; [cbn [negb] in H|discriminate H].
  bool_hyps. injection H as <- _.
  transitivity (map (fun c => Bp (nth c unk 0)) (seq 0 dim)).
  - apply map_ext_in. intros c Hc. apply in_seq in Hc. apply solve_block; auto. lia.
  - rewrite <-(map_map (fun c => nth c unk 0) Bp). f_equal. unfold dim.
    clear. induction unk as [|u l IH]; [done|]. cbn [length seq map nth]. f_equal.
    by rewrite <-seq_shift, map_map.
Qed.

(** *** Every step of the intended driver succeeds *)

Lemma find_row_is_Some e : e ∈ exps -> exists row, find_row e exps = Some row.
Proof.
  clear. induction exps as [|x l IH]; intros He; [by apply not_elem_of_nil in He|].
  simpl. destruct (Z.eqb_spec x e) as [->|Hne]; [by eauto|].
  apply elem_of_cons in He as [->|He]; [done|]. destruct (IH He) as [r ->]. by eexists.
Qed.

Lemma AddRecoverySlice_all l s :
  sinv s -> known s = ∅ -> NoDup l ->
  (forall e, e ∈ l -> exists row, exps !! row = Some e /\ haveSlice s !! row = Some false) ->
  exists s', rfold (fun s e => AddRecoverySlice s e (recovery_slice ss tot Bp e)) s l = Ok s' /\
    sinv s' /\ known s' = ∅ /\ slicesSeen s' = slicesSeen s + Z.of_nat (length l).
Proof.
  revert s. induction l as [|e l IH]; intros s Hs Hk Hn Hl.
  { exists s. simpl. split_and!; auto; lia. }
  apply list.NoDup_cons in Hn as [He Hn].
  destruct (Hl e ltac:(left)) as (row & Hrow & Hh).
  destruct (find_row_is_Some e) as [r Hr]; [apply list_elem_of_lookup; eauto|].
  pose proof (find_row_Some _ _ Hr) as Hr'.
  assert (r = row) as -> by exact (NoDup_lookup exps r row e (geo_exps _ _ _ _ Hgeo) Hr' Hrow).
  destruct (recovery_slice_word e) as (R1 & _ & _). pose proof ss_even as [Ess _].
  set (s1 := MkSolver (sliceSize s) (total s) (unknown s) (exponents s) (coeff s)
               (<[row := recovery_slice ss tot Bp e]> (rhs s)) (unknownSet s)
               (<[row := true]> (haveSlice s)) (slicesSeen s + 1) (known s) (pad s) (solved s)).
  assert (E : AddRecoverySlice s e (recovery_slice ss tot Bp e) = Ok s1).
  { unfold AddRecoverySlice, s1. rewrite (sv_solved _ Hs), (sv_exps _ Hs), Hr, (sv_ss _ Hs).
    rewrite R1, <-Ess, Z2Nat.id, Z.eqb_refl by (destruct (geo_ss _ _ _ _ Hgeo); lia).
    cbn [negb]. by rewrite (nth_lookup_Some _ _ _ _ Hh). }
  destruct (AddRecoverySlice_inv s e s1 Hs Hk E) as [Hs1 Hk1].
  destruct (IH s1 Hs1 Hk1 Hn) as (s' & H1 & H2 & H3 & H4).
  - intros e' He'. destruct (Hl e' ltac:(by right)) as (row' & Hrow' & Hh').
    exists row'. split; [done|]. simpl. rewrite list_lookup_insert_ne; [done|].
    intros ->. congruence.
  - exists s'. simpl rfold. rewrite E. split_and!; auto. simpl in H4. cbn [length]. lia.
Qed.

Lemma AddKnownBlock_all l s :
  sinv s -> NoDup l -> (forall i, i ∈ l -> 0 <= i < tot /\ i ∉ unk /\ i ∉ known s) ->
  exists s', rfold (fun s i => AddKnownBlock s i (B i)) s l = Ok s' /\
    sinv s' /\ slicesSeen s' = slicesSeen s /\ known s' = list_to_set l ∪ known s.
Proof.
  revert s. induction l as [|i l IH]; intros s Hs Hn Hl.
  { exists s. simpl. split_and!; auto. by rewrite union_empty_l_L. }
  apply list.NoDup_cons in Hn as [Hi Hn]. destruct (Hl i ltac:(left)) as (H1 & H2 & H3).
  destruct (AddKnownBlock s i (B i)) as [s1|] eqn:E.
  - destruct (AddKnownBlock_inv s i s1 Hs E) as [Hs1 Hk1].
    destruct (IH s1 Hs1 Hn) as (s' & G1 & G2 & G3 & G4).
    + intros x Hx. destruct (Hl x ltac:(by right)) as (?&?&?). rewrite Hk1. set_solver.
    + exists s'. simpl rfold. rewrite E. split_and!; auto.
      * rewrite G3. unfold AddKnownBlock in E. split_guards E. by injection E as <-.
      * rewrite G4, Hk1. simpl. set_solver.
  - exfalso. unfold AddKnownBlock in E. destruct Hs.
    rewrite sv_solved0, sv_total0, sv_set0, sv_ss0 in E.
    destruct (HB i H1) as [_ Hlen].
    destruct (Z.ltb_spec i 0); [lia|]. destruct (Z.leb_spec tot i); [lia|]. cbn [orb] in E.
    rewrite !bool_decide_eq_false_2 in E by set_solver.
    destruct (Z.ltb_spec ss (Z.of_nat (length (B i)))); [lia|].
    rewrite PAR2InputConstants_Some in E by exact (geo_tot _ _ _ _ Hgeo). discriminate E.
Qed.

(** Consecutive exponents give a Vandermonde system, which is never singular. *)
Lemma ppower_add a m n : word a -> ppower a (m + n) = pmul (ppower a m) (ppower a n).
Proof.
  intros Ha. induction m as [|m IH].
  - change (ppower a 0) with 1. by rewrite pmul_1_l by auto with harbor.
  - change (ppower a (S m + n)) with (pmul a (ppower a (m + n))).
    change (ppower a (S m)) with (pmul a (ppower a m)).
    rewrite IH. symmetry. apply pmul_assoc; auto with harbor.
Qed.

Lemma ppower_nonzero a n : word a -> a <> 0 -> ppower a n <> 0.
Proof.
  intros Ha Ha0. induction n as [|n IH]; [done|].
  change (ppower a (S n)) with (pmul a (ppower a n)).
  rewrite <-gf16Mul_pmul by auto with harbor. apply gf16Mul_nonzero; auto with harbor.
Qed.

Lemma contiguous_invertible e0 :
  0 <= e0 -> (forall r, (r < dim)%nat -> nth r exps 0 = e0 + Z.of_nat r) ->
  exists inv, invertGF16Matrix (coeff_matrix unk exps) = Ok inv.
Proof.
  intros He0 Hexp.
  destruct (invert_cases dim _ coeff_matrix_ok dim_pos) as [(inv & Ei & _)|[_ (x & c & Hx & Hc & Hx1 & Hker)]];
    [by eauto|exfalso].
  pose proof (geo_tot _ _ _ _ Hgeo) as Ht. pose proof (geo_range _ _ _ _ Hgeo) as Hr.
  rewrite list.Forall_forall in Hr.
  set (g := fun c => block_constant (Z.to_nat (nth c unk 0))).
  assert (Hu : forall c, (c < dim)%nat -> 0 <= nth c unk 0 < tot).
  { intros k Hk. by apply Hr, list_elem_of_In, nth_In. }
  assert (Wg : wordf g) by (intros k; apply block_constant_word).
  assert (Hg0 : g c <> 0) by (apply block_constant_ok; specialize (Hu c Hc); lia).
  set (y := fun c => pmul (ppower (g c) (Z.to_nat e0)) (x c)).
  assert (Hy : y c = 0).
  { apply (vandermonde_kernel dim g y); try done.
    - intros k. unfold y. auto with harbor.
    - intros i j Hi Hj Hij. pose proof (Hu i Hi). pose proof (Hu j Hj).
      apply block_constant_inj in Hij; [|lia|lia].
      apply (NoDup_nth unk 0); [apply NoDup_ListNoDup; exact (geo_unk _ _ _ _ Hgeo)|done|done|lia].
    - intros r Hr'. rewrite <-(Hker (mrow (coeff_matrix unk exps) r)).
      + unfold dot. apply xsum_ext. intros k Hk.
        change (col (mrow (coeff_matrix unk exps) r) k) with (mget (coeff_matrix unk exps) r k).
        rewrite coeff_matrix_get by done. fold (g k). rewrite Hexp by done.
        rewrite gf16Mul_pmul by auto with harbor. unfold y.
        rewrite <-pmul_assoc by auto with harbor. f_equal.
        rewrite <-ppower_add by auto. f_equal. lia.
      + unfold mrow. apply list_elem_of_In, nth_In. rewrite (proj1 coeff_matrix_ok). done. }
  unfold y in Hy. rewrite Hx1, pmul_1_r in Hy. revert Hy. by apply ppower_nonzero.
Qed.
End Solver.

(** The order in which internal/nntp/par2repair.go drives the solver: every
    recovery slice first, then the surviving blocks, then [Solve]. *)
Definition reconstruct (ss tot : Z) (unk exps : list Z) (slices known : list (Z * list Z))
    : result solver_error (list (list Z)) :=
  let? s := NewPAR2Solver ss tot unk exps in
  let? s := rfold (fun s p => AddRecoverySlice s p.1 p.2) s slices in
  let? s := rfold (fun s p => AddKnownBlock s p.1 p.2) s known in
  let? r := Solve s in
  Ok r.1.

(** The input blocks of a recovery set. *)
Definition valid_blocks (ss tot : Z) (B : Z -> list Z) : Prop :=
  forall i, 0 <= i < tot -> bytes (B i) /\ Z.of_nat (length (B i)) <= ss.

Definition slices_of (ss tot : Z) (B : Z -> list Z) (es : list Z) : list (Z * list Z) :=
  map (fun e => (e, recovery_slice ss tot (fun i => padded ss (B i)) e)) es.

Definition blocks_of (B : Z -> list Z) (idx : list Z) : list (Z * list Z) :=
  map (fun i => (i, B i)) idx.

Lemma rfold_map {E S A C} (f : S -> A -> result E S) (g : C -> A) s l :
  rfold f s (map g l) = rfold (fun s c => f s (g c)) s l.
Proof.
  revert s. induction l as [|x l IH]; intros s; simpl; [done|].
  destruct (f s (g x)); simpl; auto.
Qed.

Lemma surviving_size ss tot unk exps ks :
  geometry ss tot unk exps -> NoDup ks -> (forall i, i ∈ ks <-> 0 <= i < tot /\ i ∉ unk) ->
  Z.of_nat (size (list_to_set ks : gset Z)) = tot - Z.of_nat (length exps).
Proof.
  intros Hgeo Hn Hks. rewrite size_list_to_set by done.
  assert (P : ks ++ unk ≡ₚ seqZ 0 tot).
  { apply NoDup_Permutation.
    - apply NoDup_app. split_and!; [done| |exact (geo_unk _ _ _ _ Hgeo)].
      intros i Hi Hi'. apply Hks in Hi as [_ Hi]. done.
    - apply NoDup_seqZ.
    - intros i. rewrite elem_of_app, elem_of_seqZ, Hks.
      pose proof (geo_range _ _ _ _ Hgeo) as Hg. rewrite list.Forall_forall in Hg.
      specialize (Hg i). destruct (decide (i ∈ unk)); naive_solver lia. }
  apply Permutation_length in P. rewrite length_app, length_seqZ in P.
  pose proof (geo_tot _ _ _ _ Hgeo). rewrite <-(geo_dims _ _ _ _ Hgeo). lia.
Qed.

(** With an invertible coefficient matrix, one slice per exponent and every
    surviving block supplied once, no step of the driver fails. *)
Lemma reconstruct_complete ss tot unk exps B ks :
  geometry ss tot unk exps -> valid_blocks ss tot B -> Forall (fits 32) exps ->
  (exists inv, invertGF16Matrix (coeff_matrix unk exps) = Ok inv) ->
  NoDup ks -> (forall i, i ∈ ks <-> 0 <= i < tot /\ i ∉ unk) ->
  reconstruct ss tot unk exps (slices_of ss tot B exps) (blocks_of B ks)
  = Ok (map (fun u => padded ss (B u)) unk).
Proof.
  intros Hgeo HB He [inv Hinv] Hn Hks.
  assert (Hnew : NewPAR2Solver ss tot unk exps = Ok (initial_solver ss tot unk exps)).
  { by apply NewPAR2Solver_Ok. }
  pose proof (initial_sinv ss tot unk exps B Hgeo) as Hs0.
  destruct (AddRecoverySlice_all ss tot unk exps B Hgeo He HB exps _ Hs0 eq_refl)
    as (s1 & E1 & Hs1 & Hk1 & Hseen1).
  { exact (geo_exps _ _ _ _ Hgeo). }
  { intros e [row Hrow]%list_elem_of_lookup. exists row. split; [done|]. simpl.
    apply lookup_replicate. split; [done|]. rewrite (geo_dims _ _ _ _ Hgeo).
    by eapply lookup_lt_Some. }
  destruct (AddKnownBlock_all ss tot unk exps B Hgeo He HB ks s1 Hs1 Hn) as (s2 & E2 & Hs2 & Hseen2 & Hk2).
  { intros i Hi. apply Hks in Hi as [H1 H2]. rewrite Hk1. split_and!; [lia|lia|done|set_solver]. }
  assert (Hsz : Z.of_nat (size (known s2)) = tot - Z.of_nat (length exps)).
  { rewrite Hk2, Hk1, union_empty_r_L. by apply (surviving_size ss tot unk exps). }
  assert (E3 : exists out s3, Solve s2 = Ok (out, s3)).
  { unfold Solve. pose proof Hs2 as [].
    rewrite sv_solved0, sv_unknown0, sv_coeff0, sv_total0, Hinv.
    rewrite Hseen2, Hseen1. cbn [slicesSeen initial_solver].
    rewrite (geo_dims _ _ _ _ Hgeo), Z.add_0_l, Z.eqb_refl. cbn [negb].
    rewrite Hsz, Z.eqb_refl. cbn [negb]. eauto. }
  destruct E3 as (out & s3 & E3).
  pose proof (Solve_blocks ss tot unk exps B Hgeo He HB s2 out s3 Hs2 E3) as ->.
  unfold reconstruct, slices_of, blocks_of. rewrite Hnew. cbn [rbind].
  rewrite rfold_map. cbn [fst snd]. rewrite E1. cbn [rbind].
  rewrite rfold_map. cbn [fst snd]. rewrite E2. cbn [rbind]. by rewrite E3.
Qed.

(** ** Properties *)

(** C6. Reconstruction is correct: whatever distinct exponents are chosen,
    when every recovery slice encodes the blocks and every surviving block is
    the original one, a reconstruction that succeeds returns the original
    unknown blocks, in the order they were declared and zero-padded to a
    slice. *)
Theorem reconstruct_sound ss tot unk exps B es ks out :
  Forall (fits 32) exps -> valid_blocks ss tot B ->
  reconstruct ss tot unk exps (slices_of ss tot B es) (blocks_of B ks) = Ok out ->
  out = map (fun u => padded ss (B u)) unk.
Proof.
  intros He HB H. unfold reconstruct, slices_of, blocks_of in H.
  split_guards H. apply NewPAR2Solver_Ok in Hr as [Hgeo ->].
  rewrite rfold_map in Hr0, Hr1. simpl in Hr0, Hr1.
  destruct r2 as [out' s']. injection H as <-.
  assert (H1 : sinv ss tot unk exps B r0 /\ known r0 = ∅).
  { eapply (rfold_inv _ (fun s => sinv ss tot unk exps B s /\ known s = ∅) es); [| |exact Hr0].
    - intros s e s1 _ [Hs Hk] E.
      exact (AddRecoverySlice_inv ss tot unk exps B Hgeo He HB s e s1 Hs Hk E).
    - split; [|done]. by apply initial_sinv. }
  eapply (Solve_blocks ss tot unk exps B Hgeo He HB); [|exact Hr2].
  eapply (rfold_inv _ (sinv ss tot unk exps B) ks); [|exact (proj1 H1)|exact Hr1].
  intros s i s1 _ Hs E. exact (proj1 (AddKnownBlock_inv ss tot unk exps B Hgeo He HB s i s1 Hs E)).
Qed.

(** Reconstruction is total for consecutive exponents: on any geometry the
    constructor accepts, with exponents e0, e0+1, ..., one slice per exponent
    and every surviving block supplied once, no step fails, the coefficient
    matrix is never singular, and the unknown blocks come back. *)
Theorem reconstruct_total ss tot unk exps B e0 ks :
  geometry ss tot unk exps -> valid_blocks ss tot B ->
  0 <= e0 -> e0 + Z.of_nat (length unk) <= 2 ^ 32 -> exps = seqZ e0 (Z.of_nat (length unk)) ->
  NoDup ks -> (forall i, i ∈ ks <-> 0 <= i < tot /\ i ∉ unk) ->
  reconstruct ss tot unk exps (slices_of ss tot B exps) (blocks_of B ks)
  = Ok (map (fun u => padded ss (B u)) unk).
Proof.
  intros Hgeo HB He0 He1 Hexps Hn Hks.
  assert (He : Forall (fits 32) exps).
  { rewrite Hexps. apply list.Forall_forall. intros e He%elem_of_seqZ. unfold fits. lia. }
  apply reconstruct_complete; try done.
  apply (contiguous_invertible ss tot unk exps Hgeo He e0 He0).
  intros r Hr. apply nth_lookup_Some. rewrite Hexps, lookup_seqZ_lt; [done|lia].
Qed.

(** The order of the calls matters: [AddRecoverySlice] overwrites the
    right-hand side, so a block folded in before its slice arrives is counted
    as known but its contribution is gone. *)
Theorem slice_overwrites_known s i d s1 e data s2 :
  length (rhs s) = length (exponents s) ->
  AddKnownBlock s i d = Ok s1 -> AddRecoverySlice s1 e data = Ok s2 ->
  i ∈ known s2 /\ exists row, exponents s !! row = Some e /\ rhs s2 !! row = Some data.
Proof.
  intros Hl H1 H2. unfold AddKnownBlock in H1. split_guards H1. injection H1 as <-.
  unfold AddRecoverySlice in H2. split_guards H2. injection H2 as <-. simpl in *.
  split; [set_solver|]. exists n. apply find_row_Some in Heqo0. split; [done|].
  apply list_lookup_insert_eq. rewrite length_imap, Hl. by eapply lookup_lt_Some.
Qed.

(** ** Witnesses: one lost block out of two, four bytes each *)

Definition demo_blocks (i : Z) : list Z := if i =? 0 then [1; 2; 3; 4] else [5; 6; 7].

Lemma demo_geometry : geometry 4 2 [1] [0].
Proof.
  split; try (vm_compute; split; congruence); try (vm_compute; congruence).
  - apply NoDup_singleton.
  - repeat constructor; lia.
  - apply NoDup_singleton.
Qed.

Lemma demo_valid : valid_blocks 4 2 demo_blocks.
Proof.
  intros i Hi. unfold demo_blocks, bytes, fits. destruct (i =? 0); (split; [repeat constructor; lia|simpl; lia]).
Qed.

Lemma demo_known : NoDup [0] /\ forall i, i ∈ [0] <-> 0 <= i < 2 /\ i ∉ [1].
Proof.
  split; [apply NoDup_singleton|]. intros i. rewrite !list_elem_of_singleton. lia.
Qed.

Lemma demo_complete :
  reconstruct 4 2 [1] [0] (slices_of 4 2 demo_blocks [0]) (blocks_of demo_blocks [0])
  = Ok [[5; 6; 7; 0]].
Proof.
  assert (He : Forall (fits 32) [0]) by (repeat constructor; unfold fits; lia).
  apply (reconstruct_complete 4 2 [1] [0] demo_blocks [0] demo_geometry demo_valid He).
  - apply (contiguous_invertible 4 2 [1] [0] demo_geometry He 0 ltac:(lia)).
    intros [|r] Hr; [done|simpl in Hr; lia].
  - apply demo_known.
  - apply demo_known.
Qed.

Lemma reconstruct_sound_witness :
  [[5; 6; 7; 0]] = map (fun u => padded 4 (demo_blocks u)) [1].
Proof.
  apply (reconstruct_sound 4 2 [1] [0] demo_blocks [0] [0]).
  - repeat constructor; unfold fits; lia.
  - exact demo_valid.
  - exact demo_complete.
Defined.

Lemma reconstruct_total_witness :
  reconstruct 4 2 [1] [0] (slices_of 4 2 demo_blocks [0]) (blocks_of demo_blocks [0])
  = Ok (map (fun u => padded 4 (demo_blocks u)) [1]).
Proof.
  apply (reconstruct_total 4 2 [1] [0] demo_blocks 0 [0]).
  - exact demo_geometry.
  - exact demo_valid.
  - lia.
  - simpl; lia.
  - reflexivity.
  - apply demo_known.
  - apply demo_known.
Defined.

Lemma demo_wrong_order :
  exists s1 s2, AddKnownBlock (initial_solver 4 2 [1] [0]) 0 [1; 2; 3; 4] = Ok s1 /\
    AddRecoverySlice s1 0 [4; 4; 4; 4] = Ok s2.
Proof.
  unfold AddKnownBlock. cbn [initial_solver solved total].
  rewrite PAR2InputConstants_Some by (vm_compute; split; congruence).
  do 2 eexists. split; reflexivity.
Qed.

Lemma slice_overwrites_known_witness :
  exists s2, 0 ∈ known s2 /\ exists row, [0] !! row = Some 0 /\ rhs s2 !! row = Some [4; 4; 4; 4].
Proof.
  destruct demo_wrong_order as (s1 & s2 & H1 & H2). exists s2.
  exact (slice_overwrites_known (initial_solver 4 2 [1] [0]) 0 [1; 2; 3; 4] s1 0 [4; 4; 4; 4] s2
           eq_refl H1 H2).
Defined.
