(* ===== verification/AccountGov.v ===== *)
(** The account governor of internal/accountgov/accountgov.go.

    [Governor] is the record the Go type locks; every method is one function on
    it, the critical sections of [Acquire] and [cancelWaiter] being separate
    functions because other goroutines run between them.  A waiter carries the
    address it was allocated at, [w_ptr], which is what the code compares in
    [cand == w]; the closed [ready] channels are the set [ready] of those
    addresses.  The step relation at the end interleaves any number of callers;
    its invariant is the conservation of capacity units. *)

From Stdlib Require Import ZArith Lia.
From stdpp Require Import base gmap list numbers strings sets.
From S2P Require Import Prelude.

Local Open Scope Z_scope.

(** ** Priorities *)

Definition PriorityPlayback : Z := 0.
Definition PriorityRecovery : Z := 1.
Definition PriorityGrab : Z := 2.
Definition PriorityRepair : Z := 3.
Definition PriorityAudit : Z := 4.
Definition PriorityPrewarm : Z := 5.

Definition denialPriorities : Z := 7.
Definition denialReasons : Z := 2.

(** The names of the six fixed priorities; [None] is the formatted number the
    code falls back to. *)
Definition Priority_String (p : Z) : option string :=
  if p =? PriorityPlayback then Some "playback"%string
  else if p =? PriorityRecovery then Some "recovery"%string
  else if p =? PriorityGrab then Some "grab"%string
  else if p =? PriorityRepair then Some "repair"%string
  else if p =? PriorityAudit then Some "audit"%string
  else if p =? PriorityPrewarm then Some "prewarm"%string
  else None.

Inductive ctx_error : Type := Canceled | DeadlineExceeded.

Definition denialPriorityIndex (p : Z) : Z :=
  if (p <? PriorityPlayback) || (PriorityPrewarm <? p) then denialPriorities - 1 else p.

Definition denialReasonIndex (e : ctx_error) : Z :=
  match e with DeadlineExceeded => 1 | Canceled => 0 end.

Definition denialPriorityName (index : Z) : option string :=
  if index =? denialPriorities - 1 then Some "unknown"%string else Priority_String index.

(** ** State *)

Record waiter := Waiter {
  w_ptr : nat;
  w_priority : Z;
  w_session : string;
  w_seq : Z
}.

#[export] Instance waiter_eq_dec : EqDecision waiter.
Proof. solve_decision. Defined.

Record Governor := MkGovernor {
  g_name : string;
  caps : gmap string Z;
  inUse : gmap string Z;
  waiting : gmap string (list waiter);
  served : gmap string (gmap string Z);
  denials : gmap string (gmap (Z * Z) Z);
  g_seq : Z;
  g_next : nat;
  ready : gset nat
}.

Definition New (name : string) : Governor :=
  MkGovernor name ∅ ∅ ∅ ∅ ∅ 0 0 ∅.

(** Reading a Go map gives the zero value of an absent key. *)
Definition cap_of (g : Governor) (op : string) : Z := default 0 (caps g !! op).
Definition in_use (g : Governor) (op : string) : Z := default 0 (inUse g !! op).
Definition queue_of (g : Governor) (op : string) : list waiter := default [] (waiting g !! op).
Definition served_of (g : Governor) (op : string) : gmap string Z := default ∅ (served g !! op).
Definition served_count (m : gmap string Z) (session : string) : Z := default 0 (m !! session).

Definition set_inUse (g : Governor) (op : string) (n : Z) : Governor :=
  MkGovernor (g_name g) (caps g) (<[op := n]> (inUse g)) (waiting g) (served g)
    (denials g) (g_seq g) (g_next g) (ready g).

Definition set_waiting (g : Governor) (op : string) (q : list waiter) : Governor :=
  MkGovernor (g_name g) (caps g) (inUse g) (<[op := q]> (waiting g)) (served g)
    (denials g) (g_seq g) (g_next g) (ready g).

Definition close_ready (g : Governor) (p : nat) : Governor :=
  MkGovernor (g_name g) (caps g) (inUse g) (waiting g) (served g)
    (denials g) (g_seq g) (g_next g) ({[p]} ∪ ready g).

(** ** Operations *)

Definition SetCapacity (g : Governor) (op : string) (capacity : Z) : Governor :=
  MkGovernor (g_name g)
    (if capacity <=? 0 then delete op (caps g) else <[op := capacity]> (caps g))
    (inUse g) (waiting g) (served g) (denials g) (g_seq g) (g_next g) (ready g).

Definition Capacity (g : Governor) (op : string) : Z := cap_of g op.
Definition InUse (g : Governor) (op : string) : Z := in_use g op.
Definition Waiting (g : Governor) (op : string) : Z := Z.of_nat (length (queue_of g op)).

Definition markServedLocked (g : Governor) (op session : string) : Governor :=
  let m := served_of g op in
  MkGovernor (g_name g) (caps g) (inUse g) (waiting g)
    (<[op := <[session := i64 (served_count m session + 1)]> m]> (served g))
    (denials g) (g_seq g) (g_next g) (ready g).

(** What the locked part of [Acquire] decides. *)
Inductive admission : Type :=
| Granted
| Queued (w : waiter).

Definition Acquire (g : Governor) (op : string) (priority : Z) (session : string)
    : Governor * admission :=
  let capacity := cap_of g op in
  if capacity <=? 0 then (g, Granted)
  else if in_use g op <? capacity then
    (markServedLocked (set_inUse g op (i64 (in_use g op + 1))) op session, Granted)
  else
    let w := Waiter (g_next g) priority session (i64 (g_seq g + 1)) in
    (MkGovernor (g_name g) (caps g) (inUse g) (<[op := queue_of g op ++ [w]]> (waiting g))
       (served g) (denials g) (i64 (g_seq g + 1)) (S (g_next g)) (ready g),
     Queued w).

(** Whether [candidate] is admitted ahead of [current]. *)
Definition betterWaiter (candidate current : waiter) (m : gmap string Z) : bool :=
  if negb (w_priority candidate =? w_priority current)
  then w_priority candidate <? w_priority current
  else if negb (served_count m (w_session candidate) =? served_count m (w_session current))
  then served_count m (w_session candidate) <? served_count m (w_session current)
  else w_seq candidate <? w_seq current.

(** The scan [for i := 1; i < len(queue); i++], which starts with the first
    waiter as the best; [i] is the index of the head of [rest]. *)
Fixpoint best_loop (m : gmap string Z) (i best : nat) (bw : waiter) (rest : list waiter)
    : nat * waiter :=
  match rest with
  | [] => (best, bw)
  | w :: rest =>
      if betterWaiter w bw m then best_loop m (S i) i w rest
      else best_loop m (S i) best bw rest
  end.

Definition release (g : Governor) (op : string) : Governor :=
  match caps g !! op with
  | None => g
  | Some _ =>
      match queue_of g op with
      | [] => if 0 <? in_use g op then set_inUse g op (i64 (in_use g op - 1)) else g
      | w0 :: rest =>
          let (best, w) := best_loop (served_of g op) 1 0 w0 rest in
          let g := set_waiting g op (take best (w0 :: rest) ++ drop (S best) (w0 :: rest)) in
          close_ready (markServedLocked g op (w_session w)) (w_ptr w)
      end
  end.

(** Remove the waiter from the queue, comparing addresses; [None] when it is
    not there. *)
Fixpoint remove_waiter (w : waiter) (queue : list waiter) : option (list waiter) :=
  match queue with
  | [] => None
  | cand :: queue =>
      if (w_ptr cand =? w_ptr w)%nat then Some queue
      else cons cand <$> remove_waiter w queue
  end.

Definition count_denial (g : Governor) (op : string) (w : waiter) (e : ctx_error) : Governor :=
  let counts := default ∅ (denials g !! op) in
  let k := (denialPriorityIndex (w_priority w), denialReasonIndex e) in
  MkGovernor (g_name g) (caps g) (inUse g) (waiting g) (served g)
    (<[op := <[k := u64 (default 0 (counts !! k) + 1)]> counts]> (denials g))
    (g_seq g) (g_next g) (ready g).

(** The locked part of [cancelWaiter]: whether the waiter was still queued. *)
Definition cancelWaiter_lock (g : Governor) (op : string) (w : waiter) (e : ctx_error)
    : Governor * bool :=
  let g := count_denial g op w e in
  match remove_waiter w (queue_of g op) with
  | Some q => (set_waiting g op q, true)
  | None => (g, false)
  end.

(** Its second part, after the lock: a granted lease is handed back. *)
Definition cancelWaiter_handback (g : Governor) (op : string) (w : waiter) : Governor :=
  if bool_decide (w_ptr w ∈ ready g) then release g op else g.

(** The non-zero counters of an operation, in the order of the two loops. *)
Definition Denials (g : Governor) (op : string) : list (option string * string * Z) :=
  let counts := default ∅ (denials g !! op) in
  priority ← seqZ 0 denialPriorities;
  reason ← seqZ 0 denialReasons;
  let n := default 0 (counts !! (priority, reason)) in
  if n =? 0 then []
  else [(denialPriorityName priority, if reason =? 0 then "canceled"%string else "deadline"%string, n)].

(** ** The interleaving of callers *)

(** A goroutine inside the package, or holding a lease of it. *)
Inductive thread : Type :=
| TWait (op : string) (w : waiter)    (* blocked in [select] *)
| TCancel (op : string) (w : waiter)  (* cancelled, and its waiter had left the queue *)
| THold (op : string).                (* [Acquire] returned a lease *)

Record sys := Sys { gov : Governor; threads : list thread }.

Inductive step : sys -> sys -> Prop :=
| step_acquire g ts op p s g' :
    Acquire g op p s = (g', Granted) ->
    step (Sys g ts) (Sys g' (THold op :: ts))
| step_queue g ts op p s g' w :
    Acquire g op p s = (g', Queued w) ->
    step (Sys g ts) (Sys g' (TWait op w :: ts))
| step_ready g t1 t2 op w :
    w_ptr w ∈ ready g ->
    step (Sys g (t1 ++ TWait op w :: t2)) (Sys g (t1 ++ THold op :: t2))
| step_cancel g t1 t2 op w e g' :
    cancelWaiter_lock g op w e = (g', true) ->
    step (Sys g (t1 ++ TWait op w :: t2)) (Sys g' (t1 ++ t2))
| step_cancel_late g t1 t2 op w e g' :
    cancelWaiter_lock g op w e = (g', false) ->
    step (Sys g (t1 ++ TWait op w :: t2)) (Sys g' (t1 ++ TCancel op w :: t2))
| step_handback g t1 t2 op w :
    step (Sys g (t1 ++ TCancel op w :: t2)) (Sys (cancelWaiter_handback g op w) (t1 ++ t2))
| step_release g t1 t2 op :
    step (Sys g (t1 ++ THold op :: t2)) (Sys (release g op) (t1 ++ t2)).

(** A governor whose capacities were configured before any caller arrived. *)
Inductive reachable (name : string) (config : list (string * Z)) : sys -> Prop :=
| reach_init :
    reachable name config
      (Sys (fold_left (fun g c => SetCapacity g c.1 c.2) config (New name)) [])
| reach_step s s' : reachable name config s -> step s s' -> reachable name config s'.

(** *** Admission order *)

(** The order in which waiters are admitted: priority, then the number of
    grants of the session, then arrival. *)
Definition rank (m : gmap string Z) (w : waiter) : Z * Z * Z :=
  (w_priority w, served_count m (w_session w), w_seq w).

Definition rank_lt (a b : Z * Z * Z) : Prop :=
  let '(p1, s1, q1) := a in
  let '(p2, s2, q2) := b in
  p1 < p2 \/ (p1 = p2 /\ (s1 < s2 \/ (s1 = s2 /\ q1 < q2))).

Lemma betterWaiter_rank c w m : betterWaiter c w m = true <-> rank_lt (rank m c) (rank m w).
Proof.
  unfold betterWaiter, rank, rank_lt.
  destruct (Z.eqb_spec (w_priority c) (w_priority w)); cbn [negb].
  - destruct (Z.eqb_spec (served_count m (w_session c)) (served_count m (w_session w))); cbn [negb];
      rewrite Z.ltb_lt; lia.
  - rewrite Z.ltb_lt. lia.
Qed.

Lemma rank_lt_trans a b c : rank_lt a b -> rank_lt b c -> rank_lt a c.
Proof. destruct a as [[]], b as [[]], c as [[]]. unfold rank_lt. lia. Qed.

Lemma rank_lt_total a b : ~ rank_lt a b -> ~ rank_lt b a -> a = b.
Proof.
  destruct a as [[]], b as [[]]. unfold rank_lt. intros.
  repeat f_equal; lia.
Qed.

Lemma best_loop_spec m i best bw rest queue :
  (best < i)%nat -> length queue = i -> queue !! best = Some bw ->
  (forall w, w ∈ queue -> ~ rank_lt (rank m w) (rank m bw)) ->
  let (best', w') := best_loop m i best bw rest in
  (queue ++ rest) !! best' = Some w' /\
  forall w, w ∈ queue ++ rest -> ~ rank_lt (rank m w) (rank m w').
Proof.
  revert i best bw queue. induction rest as [|w rest IH]; intros i best bw queue Hlt Hlen Hb Hmin.
  - cbn [best_loop]. rewrite app_nil_r. done.
  - cbn [best_loop]. replace (queue ++ w :: rest) with ((queue ++ [w]) ++ rest) by by rewrite <-app_assoc.
    destruct (betterWaiter w bw m) eqn:E.
    + apply betterWaiter_rank in E. apply IH; [lia|rewrite length_app; simpl; lia| |].
      * rewrite lookup_app_r by lia. by rewrite Hlen, Nat.sub_diag.
      * intros x [Hx| ->%list_elem_of_singleton]%elem_of_app.
        -- intros Hl. apply (Hmin x Hx). by eapply rank_lt_trans.
        -- destruct (rank m w) as [[]]. unfold rank_lt. lia.
    + apply IH; [lia|rewrite length_app; simpl; lia| |].
      * rewrite lookup_app_l by lia. done.
      * intros x [Hx| ->%list_elem_of_singleton]%elem_of_app; [by apply Hmin|].
        rewrite <-betterWaiter_rank, E. done.
Qed.

(** The waiter that [release] admits: a member of the queue no other member
    precedes; the queue loses exactly it. *)
Lemma release_queue g op w0 rest :
  is_Some (caps g !! op) -> queue_of g op = w0 :: rest ->
  exists q1 w q2, w0 :: rest = q1 ++ w :: q2 /\
    (forall x, x ∈ w0 :: rest -> ~ rank_lt (rank (served_of g op) x) (rank (served_of g op) w)) /\
    release g op = close_ready (markServedLocked (set_waiting g op (q1 ++ q2)) op (w_session w)) (w_ptr w).
Proof.
  intros [c Hc] Hq. unfold release. rewrite Hc, Hq.
  pose proof (best_loop_spec (served_of g op) 1 0 w0 rest [w0]) as H.
  destruct (best_loop (served_of g op) 1 0 w0 rest) as [best w].
  destruct H as [H1 H2]; [lia|done|done| |].
  { intros x ->%list_elem_of_singleton. destruct (rank _ w0) as [[]]. unfold rank_lt. lia. }
  cbn [app] in H1, H2. exists (take best (w0 :: rest)), w, (drop (S best) (w0 :: rest)).
  split_and!; [|done|done]. symmetry. by apply take_drop_middle.
Qed.

(** *** Conservation of capacity units *)

Definition thread_ptr (t : thread) : option nat :=
  match t with
  | TWait _ w | TCancel _ w => Some (w_ptr w)
  | THold _ => None
  end.

(** How many units of [op] a goroutine accounts for: a lease it holds, a grant
    it has not seen yet, or a grant it is about to hand back. *)
Definition unit_of (op : string) (R : gset nat) (t : thread) : Z :=
  match t with
  | THold op' => if decide (op' = op) then 1 else 0
  | TCancel op' _ => if decide (op' = op) then 1 else 0
  | TWait op' w => if decide (op' = op /\ w_ptr w ∈ R) then 1 else 0
  end.

Definition units (op : string) (R : gset nat) (ts : list thread) : Z :=
  foldr (fun t n => unit_of op R t + n) 0 ts.

#[export] Instance thread_eq_dec : EqDecision thread.
Proof. solve_decision. Defined.

Definition holders (op : string) (ts : list thread) : Z :=
  Z.of_nat (length (filter (fun t => t = THold op) ts)).

Lemma units_app op R t1 t2 : units op R (t1 ++ t2) = units op R t1 + units op R t2.
Proof. induction t1; simpl; lia. Qed.

Lemma units_perm op R t1 t2 : t1 ≡ₚ t2 -> units op R t1 = units op R t2.
Proof. induction 1; simpl; lia. Qed.

Lemma unit_of_range op R t : 0 <= unit_of op R t <= 1.
Proof. destruct t; simpl; case_decide; lia. Qed.

Lemma units_nonneg op R ts : 0 <= units op R ts.
Proof. induction ts as [|t ts IH]; simpl; [lia|]. pose proof (unit_of_range op R t). lia. Qed.

Lemma holders_units op R ts : holders op ts <= units op R ts.
Proof.
  unfold holders. induction ts as [|t ts IH]; [done|].
  rewrite filter_cons. cbn [units foldr]. fold (units op R ts).
  pose proof (unit_of_range op R t). case_decide as E; [|lia].
  subst t. cbn [unit_of length]. rewrite decide_True by done. lia.
Qed.

(** Closing a channel changes the units of at most the goroutine waiting on it. *)
Lemma units_close_fresh op R p ts :
  (forall op' w, TWait op' w ∈ ts -> w_ptr w <> p) -> units op ({[p]} ∪ R) ts = units op R ts.
Proof.
  induction ts as [|t ts IH]; intros H; [done|]. cbn [units foldr]. f_equal.
  - destruct t as [op' w| |]; try done. simpl.
    pose proof (H op' w ltac:(left)) as Hne.
    destruct (decide (op' = op /\ w_ptr w ∈ R)); [rewrite decide_True by set_solver; done|].
    rewrite decide_False; [done|]. set_solver.
  - apply IH. intros. apply (H op'). by right.
Qed.

Record inv (g : Governor) (ts : list thread) : Prop := {
  i_caps : forall op c, caps g !! op = Some c -> 0 < c;
  i_fresh : forall p, p ∈ omap thread_ptr ts -> (p < g_next g)%nat;
  i_ready : forall p, p ∈ ready g -> (p < g_next g)%nat;
  i_nodup : NoDup (omap thread_ptr ts);
  i_queue : forall op w, w ∈ queue_of g op -> TWait op w ∈ ts /\ w_ptr w ∉ ready g;
  i_qnodup : forall op, NoDup (queue_of g op);
  i_wait : forall op w, TWait op w ∈ ts ->
    is_Some (caps g !! op) /\ (w ∈ queue_of g op \/ w_ptr w ∈ ready g);
  i_cancel : forall op w, TCancel op w ∈ ts -> is_Some (caps g !! op) /\ w_ptr w ∈ ready g;
  i_units : forall op c, caps g !! op = Some c ->
    in_use g op = units op (ready g) ts /\ in_use g op <= c <= maxInt64 /\
    (queue_of g op <> [] -> in_use g op = c)
}.

Lemma inv_perm g t1 t2 : t1 ≡ₚ t2 -> inv g t1 -> inv g t2.
Proof.
  intros P [].
  assert (Po : omap thread_ptr t1 ≡ₚ omap thread_ptr t2) by by rewrite P.
  split; try done.
  - intros p. rewrite <-Po. auto.
  - by rewrite <-Po.
  - intros op w Hw. rewrite <-P. auto.
  - intros op w. rewrite <-P. auto.
  - intros op w. rewrite <-P. auto.
  - intros op c Hc. rewrite <-(units_perm _ _ _ _ P). auto.
Qed.

Lemma ptr_elem t (ts : list thread) p : t ∈ ts -> thread_ptr t = Some p -> p ∈ omap thread_ptr ts.
Proof. intros. apply list_elem_of_omap. eauto. Qed.

(** Two goroutines with the same waiter address are the same goroutine. *)
Lemma same_ptr ts t1 t2 p :
  NoDup (omap thread_ptr ts) -> t1 ∈ ts -> t2 ∈ ts ->
  thread_ptr t1 = Some p -> thread_ptr t2 = Some p -> t1 = t2.
Proof.
  induction ts as [|t ts IH]; intros Hn H1 H2 E1 E2; [by apply not_elem_of_nil in H1|].
  cbn [omap list_omap] in Hn.
  assert (Hhd : forall t', t' ∈ ts -> thread_ptr t' = Some p -> thread_ptr t = Some p -> False).
  { intros t' Ht' E' E. rewrite E in Hn. apply list.NoDup_cons in Hn as [Hn _].
    apply Hn. by eapply ptr_elem. }
  apply elem_of_cons in H1 as [H1|H1]; apply elem_of_cons in H2 as [H2|H2]; subst.
  - done.
  - by destruct (Hhd t2).
  - by destruct (Hhd t1).
  - apply IH; auto. destruct (thread_ptr t) in Hn; [apply list.NoDup_cons in Hn as [_ Hn]|]; exact Hn.
Qed.


(** What an operation leaves alone is read through these equations. *)
Lemma queue_of_set g op q op' :
  queue_of (set_waiting g op q) op' = if decide (op' = op) then q else queue_of g op'.
Proof.
  unfold queue_of, set_waiting. cbn [waiting]. destruct (decide (op' = op)) as [->|].
  - by rewrite lookup_insert_eq.
  - by rewrite lookup_insert_ne.
Qed.

Lemma in_use_set g op n op' :
  in_use (set_inUse g op n) op' = if decide (op' = op) then n else in_use g op'.
Proof.
  unfold in_use, set_inUse. cbn [inUse]. destruct (decide (op' = op)) as [->|].
  - by rewrite lookup_insert_eq.
  - by rewrite lookup_insert_ne.
Qed.

(** [markServedLocked] and [count_denial] only touch their own tables. *)
Lemma inv_counters g g' ts :
  caps g' = caps g -> inUse g' = inUse g -> waiting g' = waiting g ->
  g_next g' = g_next g -> ready g' = ready g -> inv g ts -> inv g' ts.
Proof.
  intros E1 E2 E3 E4 E5 []. unfold queue_of, in_use in *.
  split; unfold queue_of, in_use; rewrite ?E1, ?E2, ?E3, ?E4, ?E5; auto.
Qed.

Lemma remove_waiter_some w queue q :
  remove_waiter w queue = Some q ->
  exists q1 w' q2, queue = q1 ++ w' :: q2 /\ q = q1 ++ q2 /\ w_ptr w' = w_ptr w.
Proof.
  revert q. induction queue as [|c queue IH]; intros q; [done|]. cbn [remove_waiter].
  destruct (Nat.eqb_spec (w_ptr c) (w_ptr w)) as [E|].
  - intros [= <-]. by exists [], c, queue.
  - intros (q' & Hq & ->)%fmap_Some. apply IH in Hq as (q1 & w' & q2 & -> & -> & ?).
    by exists (c :: q1), w', q2.
Qed.

Lemma remove_waiter_none w queue : remove_waiter w queue = None -> w ∉ queue.
Proof.
  induction queue as [|c queue IH]; [intros _ H; by apply not_elem_of_nil in H|].
  cbn [remove_waiter]. destruct (Nat.eqb_spec (w_ptr c) (w_ptr w)) as [E|]; [done|].
  intros Hn%fmap_None [->|H]%elem_of_cons; [done|]. by apply IH.
Qed.

Lemma units_close op R op0 w ts :
  NoDup (omap thread_ptr ts) -> TWait op0 w ∈ ts -> w_ptr w ∉ R ->
  units op ({[w_ptr w]} ∪ R) ts = units op R ts + (if decide (op0 = op) then 1 else 0).
Proof.
  intros Hn (t1 & t2 & ->)%list_elem_of_split Hr.
  assert (P : t1 ++ TWait op0 w :: t2 ≡ₚ TWait op0 w :: (t1 ++ t2)) by by rewrite Permutation_middle.
  rewrite !(units_perm _ _ _ _ P). rewrite P in Hn. cbn [omap list_omap thread_ptr] in Hn.
  apply list.NoDup_cons in Hn as [Hn _]. cbn [units foldr].
  fold (units op ({[w_ptr w]} ∪ R) (t1 ++ t2)). fold (units op R (t1 ++ t2)).
  rewrite units_close_fresh.
  - cbn [unit_of]. destruct (decide (op0 = op)).
    + rewrite decide_True by set_solver. rewrite (decide_False (P := op0 = op /\ _)) by set_solver. lia.
    + rewrite !decide_False by naive_solver. lia.
  - intros op' w' Hw' E. apply Hn. eapply ptr_elem; [exact Hw'|]. simpl. by f_equal.
Qed.

Lemma units_cons op R t ts : units op R (t :: ts) = unit_of op R t + units op R ts.
Proof. done. Qed.

(** A goroutine that waits for nothing leaves: its ghost unit goes. *)
Lemma inv_drop g t ts :
  (forall op w, t <> TWait op w) ->
  (forall op, is_Some (caps g !! op) -> unit_of op (ready g) t = 0) ->
  inv g (t :: ts) -> inv g ts.
Proof.
  intros Hw Hu [].
  assert (Hsub : forall p, p ∈ omap thread_ptr ts -> p ∈ omap thread_ptr (t :: ts)).
  { intros p. cbn [omap list_omap]. destruct (thread_ptr t); [by right|done]. }
  split; eauto.
  - cbn [omap list_omap] in i_nodup0. by destruct (thread_ptr t); [apply list.NoDup_cons in i_nodup0 as []|].
  - intros op w [H ?]%i_queue0. split; [|done]. apply elem_of_cons in H as [H|]; [by destruct (Hw op w)|done].
  - intros op w H. apply i_wait0. by right.
  - intros op w H. apply i_cancel0. by right.
  - intros op c Hc. destruct (i_units0 op c Hc) as (H1 & H2). rewrite units_cons, Hu in H1 by eauto. auto.
Qed.

(** The unit of a departing goroutine [t] goes back, or to the best waiter. *)
Section Departing.
Context (g : Governor) (op : string) (c : Z) (t : thread) (ts : list thread).
Context (Hcap : caps g !! op = Some c).
Context (Hnowait : forall op' w, t <> TWait op' w).
Context (Hunit : forall op' R, unit_of op' R t = if decide (op = op') then 1 else 0).
Context (Hinv : inv g (t :: ts)).

Lemma departing_sub p : p ∈ omap thread_ptr ts -> p ∈ omap thread_ptr (t :: ts).
Proof. cbn [omap list_omap]. destruct (thread_ptr t); [by right|done]. Qed.

Lemma departing_nodup : NoDup (omap thread_ptr ts).
Proof.
  pose proof (i_nodup _ _ Hinv) as Hn. cbn [omap list_omap] in Hn.
  by destruct (thread_ptr t); [apply list.NoDup_cons in Hn as []|].
Qed.

Lemma departing_queue op' w : w ∈ queue_of g op' -> TWait op' w ∈ ts /\ w_ptr w ∉ ready g.
Proof.
  intros [H ?]%(i_queue _ _ Hinv). split; [|done].
  apply elem_of_cons in H as [H|]; [by destruct (Hnowait op' w)|done].
Qed.

Lemma release_empty_inv : queue_of g op = [] -> inv (release g op) ts.
Proof.
  intros Q. unfold release. rewrite Hcap, Q.
  destruct (i_units _ _ Hinv op c Hcap) as (H1 & H2 & _).
  rewrite units_cons, Hunit, decide_True in H1 by done.
  pose proof (units_nonneg op (ready g) ts).
  destruct (Z.ltb_spec 0 (in_use g op)); [|lia].
  pose proof departing_sub. pose proof departing_nodup. pose proof departing_queue. destruct Hinv.
  split; try (cbn; eauto; fail).
  - intros op' w H'. apply i_wait0. by right.
  - intros op' w H'. apply i_cancel0. by right.
  - intros op' c' Hc'. rewrite in_use_set. cbn [caps set_inUse ready] in *.
    destruct (i_units0 op' c' Hc') as (H6 & H7). rewrite units_cons, Hunit in H6.
    destruct (decide (op' = op)) as [E|]; [|rewrite decide_False in H6 by congruence; auto].
    subst op'. rewrite Hcap in Hc'. injection Hc' as <-.
    rewrite i64_small by (unfold is_i64, maxInt64, minInt64 in *; lia).
    split_and!; try lia. intros HQ. by destruct HQ.
Qed.

Section Admitting.
Context (q1 q2 : list waiter) (w : waiter).
Context (Hq : queue_of g op = q1 ++ w :: q2).

Definition admitted : Governor :=
  close_ready (markServedLocked (set_waiting g op (q1 ++ q2)) op (w_session w)) (w_ptr w).

Lemma admitted_queue op' :
  queue_of admitted op' = if decide (op' = op) then q1 ++ q2 else queue_of g op'.
Proof. exact (queue_of_set g op (q1 ++ q2) op'). Qed.

Lemma admitted_waits : TWait op w ∈ ts /\ w_ptr w ∉ ready g.
Proof. apply departing_queue. rewrite Hq. set_solver. Qed.

(** The rest of the queue are other waiters, at other addresses. *)
Lemma admitted_others op' w' :
  w' ∈ queue_of admitted op' -> w' ∈ queue_of g op' /\ w_ptr w' <> w_ptr w.
Proof.
  destruct admitted_waits as [Hts _]. rewrite admitted_queue. intros H.
  assert (H1 : w' ∈ queue_of g op').
  { case_decide; [|done]. subst op'. rewrite Hq. set_solver. }
  split; [done|]. intros E. destruct (departing_queue op' w' H1) as [H' _].
  assert (TWait op' w' = TWait op w) as [= -> ->].
  { apply (same_ptr ts _ _ (w_ptr w)); try done; [apply departing_nodup|]. simpl. by rewrite E. }
  rewrite decide_True in H by done.
  pose proof (i_qnodup _ _ Hinv op) as Hn. rewrite Hq, <-Permutation_middle in Hn.
  by apply list.NoDup_cons in Hn as [].
Qed.

Lemma admitted_inv : inv admitted ts.
Proof.
  destruct admitted_waits as [Hts Hnr].
  pose proof departing_sub as Hsub. pose proof departing_nodup as Hnd.
  pose proof admitted_others as Ho. pose proof departing_queue as Hdq. pose proof Hinv as [].
  split; cbn [caps admitted close_ready markServedLocked set_waiting ready g_next]; eauto.
  - intros p [->%elem_of_singleton|]%elem_of_union; [|eauto].
    apply i_fresh0, Hsub. by eapply ptr_elem.
  - intros op' w' [H1 Hne]%Ho. destruct (Hdq op' w' H1). split; [done|]. set_solver.
  - intros op'. rewrite admitted_queue. case_decide; [|done].
    pose proof (i_qnodup0 op) as Hn. rewrite Hq, <-Permutation_middle in Hn.
    by apply list.NoDup_cons in Hn as [].
  - intros op' w' H'. destruct (i_wait0 op' w') as [H1 H2]; [by right|]. split; [done|].
    rewrite admitted_queue. destruct (decide (w_ptr w' = w_ptr w)) as [->|Hne]; [right; set_solver|].
    destruct H2 as [H2|H2]; [left|right; set_solver]. case_decide; [|done]. subst op'.
    rewrite Hq in H2. set_solver.
  - intros op' w' H'. destruct (i_cancel0 op' w') as [H1 H2]; [by right|]. split; [done|]. set_solver.
  - intros op' c' Hc'. destruct (i_units0 op' c' Hc') as (H1 & H2 & H3).
    rewrite (units_close op' (ready g) op w ts) by done. rewrite units_cons, Hunit in H1.
    rewrite admitted_queue. change (in_use admitted op') with (in_use g op').
    split_and!; [lia|lia|lia|]. destruct (decide (op' = op)); [|done].
    intros _. apply H3. subst op'. rewrite Hq. by destruct q1.
Qed.

End Admitting.

Lemma release_inv : inv (release g op) ts.
Proof.
  destruct (queue_of g op) as [|w0 rest] eqn:Q; [by apply release_empty_inv|].
  destruct (release_queue g op w0 rest) as (q1 & w & q2 & Eq & _ & ->); [by eexists|done|].
  apply admitted_inv. by rewrite Q.
Qed.

End Departing.

(** ** Every step preserves the invariant *)

Lemma inv_hold_more g op ts n :
  inv g ts -> in_use (set_inUse g op n) op = in_use g op + 1 ->
  (forall c, caps g !! op = Some c -> in_use g op < c) ->
  inv (set_inUse g op n) (THold op :: ts).
Proof.
  intros [] Hn Hlt. rewrite in_use_set, decide_True in Hn by done.
  split; try (cbn; eauto; fail).
  - intros op' w [H ?]%i_queue0. split; [by right|done].
  - intros op' w [|H]%elem_of_cons; [done|]. by apply i_wait0.
  - intros op' w [|H]%elem_of_cons; [done|]. by apply i_cancel0.
  - intros op' c Hc. destruct (i_units0 op' c Hc) as (H1 & H2 & H3).
    rewrite in_use_set, units_cons. cbn [unit_of ready set_inUse].
    change (queue_of (set_inUse g op n) op') with (queue_of g op').
    destruct (decide (op' = op)) as [->|].
    + rewrite decide_True by done. specialize (Hlt c Hc). split_and!; try lia.
      intros H%H3. lia.
    + rewrite decide_False by done. auto.
Qed.

Lemma acquire_granted_inv g op p s g' ts :
  inv g ts -> Acquire g op p s = (g', Granted) -> inv g' (THold op :: ts).
Proof.
  intros Hinv. unfold Acquire. destruct (Z.leb_spec (cap_of g op) 0) as [Hc|Hc].
  - intros [= <-].
    assert (Hno : caps g !! op = None).
    { unfold cap_of in Hc. destruct (caps g !! op) as [c|] eqn:E; [|done].
      apply (i_caps _ _ Hinv) in E. simpl in Hc. lia. }
    destruct Hinv. split; try done.
    + intros op' w [H ?]%i_queue0. split; [by right|done].
    + intros op' w [|H]%elem_of_cons; [done|]. by apply i_wait0.
    + intros op' w [|H]%elem_of_cons; [done|]. by apply i_cancel0.
    + intros op' c Hc'. rewrite units_cons. cbn [unit_of].
      rewrite decide_False by congruence. by apply i_units0.
  - destruct (Z.ltb_spec (in_use g op) (cap_of g op)) as [Hlt|]; [|done].
    intros [= <-].
    assert (Hcap : caps g !! op = Some (cap_of g op)).
    { unfold cap_of in *. destruct (caps g !! op); [done|]. simpl in Hc. lia. }
    apply (inv_counters (set_inUse g op (i64 (in_use g op + 1)))); try done.
    pose proof (i_units _ _ Hinv op _ Hcap) as (H1 & H2 & _).
    pose proof (units_nonneg op (ready g) ts).
    apply inv_hold_more; [done| |].
    + rewrite in_use_set, decide_True by done.
      apply i64_small. unfold is_i64, maxInt64, minInt64 in *. lia.
    + intros c Hc'. rewrite Hcap in Hc'. injection Hc' as <-. done.
Qed.

Lemma acquire_queued_inv g op p s g' w ts :
  inv g ts -> Acquire g op p s = (g', Queued w) -> inv g' (TWait op w :: ts).
Proof.
  intros Hinv. unfold Acquire. destruct (Z.leb_spec (cap_of g op) 0) as [|Hc]; [done|].
  destruct (Z.ltb_spec (in_use g op) (cap_of g op)) as [|Hge]; [done|].
  intros [= <- <-].
  assert (Hcap : caps g !! op = Some (cap_of g op)).
  { unfold cap_of in *. destruct (caps g !! op); [done|]. simpl in Hc. lia. }
  set (w := Waiter (g_next g) p s (i64 (g_seq g + 1))). destruct Hinv.
  assert (Hnr : g_next g ∉ ready g) by (intros H%i_ready0; lia).
  assert (HQ : forall op', queue_of (MkGovernor (g_name g) (caps g) (inUse g)
       (<[op:=queue_of g op ++ [w]]> (waiting g)) (served g) (denials g)
       (i64 (g_seq g + 1)) (S (g_next g)) (ready g)) op'
      = if decide (op' = op) then queue_of g op ++ [w] else queue_of g op')
    by exact (queue_of_set g op _).
  assert (Hold : forall op' w', w' ∈ queue_of g op' -> w_ptr w' <> g_next g).
  { intros op' w' H'. destruct (i_queue0 op' w' H') as [H1 _].
    apply (ptr_elem _ _ (w_ptr w')) in H1; [|done]. apply i_fresh0 in H1. lia. }
  split; cbn [caps ready g_next]; try done.
  - intros q. cbn [omap list_omap thread_ptr]. intros [->|H]%elem_of_cons; [simpl; lia|].
    apply i_fresh0 in H. lia.
  - intros q H%i_ready0. lia.
  - cbn [omap list_omap thread_ptr]. apply list.NoDup_cons. split; [|done].
    intros H%i_fresh0. simpl in H. lia.
  - intros op' w'. rewrite HQ. intros H.
    assert (w' ∈ queue_of g op' \/ (op' = op /\ w' = w)) as [[H1 H2]%i_queue0|[-> ->]]
      by (case_decide; set_solver).
    + split; [by right|done].
    + split; [by left|done].
  - intros op'. rewrite HQ. case_decide; [|done]. apply NoDup_app. split_and!; [done| |apply NoDup_singleton].
    intros x Hx ->%list_elem_of_singleton. by apply (Hold op w Hx).
  - intros op' w' [[= -> ->]|H]%elem_of_cons; rewrite HQ.
    + split; [by eexists|left]. rewrite decide_True by done. set_solver.
    + destruct (i_wait0 op' w' H) as [H1 [H2|H2]]; (split; [done|]); [left|by right].
      case_decide; [|done]. subst. set_solver.
  - intros op' w' [|H]%elem_of_cons; [done|]. by apply i_cancel0.
  - intros op' c Hc'. destruct (i_units0 op' c Hc') as (H1 & H2 & H3).
    rewrite units_cons, HQ. cbn [unit_of w_ptr w]. rewrite decide_False by tauto.
    split_and!; try done; unfold in_use; cbn [inUse]; fold (in_use g op'); try tauto; try lia.
    destruct (decide (op' = op)) as [->|]; [|done]. intros _.
    rewrite Hcap in Hc'. injection Hc' as <-. lia.
Qed.

Lemma ready_inv g op w ts :
  w_ptr w ∈ ready g -> inv g (TWait op w :: ts) -> inv g (THold op :: ts).
Proof.
  intros Hr []. cbn [omap list_omap thread_ptr] in *.
  split; try done.
  - intros q H. apply i_fresh0. by right.
  - cbn [omap list_omap thread_ptr]. by apply list.NoDup_cons in i_nodup0 as [].
  - intros op' w' H'. destruct (i_queue0 op' w' H') as [[[= -> ->]|H]%elem_of_cons H2]; [done|].
    split; [by right|done].
  - intros op' w' [|H]%elem_of_cons; [done|]. apply i_wait0. by right.
  - intros op' w' [|H]%elem_of_cons; [done|]. apply i_cancel0. by right.
  - intros op' c Hc'. destruct (i_units0 op' c Hc') as (H1 & H2 & H3).
    rewrite units_cons in *. cbn [unit_of] in *. split_and!; try done; try lia.
    destruct (decide (op = op')) as [->|]; [rewrite decide_True in H1 by done|rewrite decide_False in H1 by tauto]; lia.
Qed.

Lemma dequeue_inv g op w ts q1 q2 :
  queue_of g op = q1 ++ w :: q2 -> inv g (TWait op w :: ts) ->
  inv (set_waiting g op (q1 ++ q2)) ts.
Proof.
  intros Hq Hinv. pose proof Hinv as []. cbn [omap list_omap thread_ptr] in *.
  pose proof i_nodup0 as [Hnp Hnd]%list.NoDup_cons.
  assert (Hw : w ∈ queue_of g op) by (rewrite Hq; set_solver).
  destruct (i_queue0 op w Hw) as [_ Hnr].
  assert (Hne : forall t p, t ∈ ts -> thread_ptr t = Some p -> p <> w_ptr w).
  { intros t p Ht E ->. apply Hnp. by eapply ptr_elem. }
  pose proof (i_qnodup0 op) as Hn. rewrite Hq, <-Permutation_middle in Hn.
  apply list.NoDup_cons in Hn as [Hnq Hqq].
  split; cbn [caps set_waiting ready g_next]; try done.
  - intros p H. apply i_fresh0. by right.
  - intros op' w' H. rewrite queue_of_set in H.
    assert (H1 : w' ∈ queue_of g op').
    { case_decide; [subst; rewrite Hq; set_solver|done]. }
    destruct (i_queue0 op' w' H1) as [[[= -> ->]|H2]%elem_of_cons H3]; [|done].
    by rewrite decide_True in H.
  - intros op'. rewrite queue_of_set. by case_decide.
  - intros op' w' H. destruct (i_wait0 op' w') as [H1 H2]; [by right|]. split; [done|].
    rewrite queue_of_set. destruct H2 as [H2|]; [left|by right]. case_decide; [|done]. subst.
    rewrite Hq in H2. apply elem_of_app in H2 as [|[->|]%elem_of_cons]; [set_solver| |set_solver].
    by destruct (Hne _ (w_ptr w) H).
  - intros op' w' H. apply i_cancel0. by right.
  - intros op' c Hc. destruct (i_units0 op' c Hc) as (H1 & H2 & H3).
    rewrite units_cons in H1. cbn [unit_of] in H1. rewrite decide_False in H1 by tauto.
    change (in_use (set_waiting g op (q1 ++ q2)) op') with (in_use g op'). split_and!; [lia|lia|lia|].
    rewrite queue_of_set. destruct (decide (op' = op)) as [->|]; [|done]. intros _. apply H3. rewrite Hq.
    by destruct q1.
Qed.

Lemma count_denial_inv g op w e ts : inv g ts -> inv (count_denial g op w e) ts.
Proof. by apply inv_counters. Qed.

Lemma cancel_inv g op w e g' ts :
  cancelWaiter_lock g op w e = (g', true) -> inv g (TWait op w :: ts) -> inv g' ts.
Proof.
  unfold cancelWaiter_lock. intros Hc Hinv%(count_denial_inv g op w e).
  destruct (remove_waiter w _) as [q|] eqn:R; [|done]. injection Hc as <-.
  apply remove_waiter_some in R as (q1 & w' & q2 & HQ & -> & E).
  assert (w' = w) as ->.
  { destruct (i_queue _ _ Hinv op w') as [H _]; [rewrite HQ; set_solver|].
    assert (TWait op w' = TWait op w) as [= ->]; [|done].
    eapply (same_ptr _ _ _ (w_ptr w) (i_nodup _ _ Hinv)); [done|left|simpl; by rewrite E|done]. }
  by eapply dequeue_inv.
Qed.

Lemma cancel_late_inv g op w e g' ts :
  cancelWaiter_lock g op w e = (g', false) -> inv g (TWait op w :: ts) ->
  inv g' (TCancel op w :: ts).
Proof.
  unfold cancelWaiter_lock. intros H Hinv%(count_denial_inv g op w e).
  destruct (remove_waiter w _) as [q|] eqn:R; [done|]. injection H as <-.
  apply remove_waiter_none in R. revert R Hinv. generalize (count_denial g op w e). clear g. intros g R [].
  destruct (i_wait0 op w) as [Hc [H|Hr]]; [left|done|].
  split; try done.
  - intros op' w' H'. destruct (i_queue0 op' w' H') as [[[= -> ->]|H]%elem_of_cons H2]; [done|].
    split; [by right|done].
  - intros op' w' [|H]%elem_of_cons; [done|]. apply i_wait0. by right.
  - intros op' w' [[= -> ->]|H]%elem_of_cons; [done|]. apply i_cancel0. by right.
  - intros op' c Hc'. destruct (i_units0 op' c Hc') as (H1 & H2 & H3).
    rewrite units_cons in *. cbn [unit_of] in *. split_and!; try done; try lia.
    destruct (decide (op = op')) as [->|]; [rewrite decide_True in H1 by done|rewrite decide_False in H1 by tauto]; lia.
Qed.

Lemma handback_inv g op w ts :
  inv g (TCancel op w :: ts) -> inv (cancelWaiter_handback g op w) ts.
Proof.
  intros Hinv. destruct (i_cancel _ _ Hinv op w) as [[c Hc] Hr]; [left|].
  unfold cancelWaiter_handback. rewrite bool_decide_true by done.
  by apply (release_inv g op c (TCancel op w)).
Qed.

Lemma hold_release_inv g op ts : inv g (THold op :: ts) -> inv (release g op) ts.
Proof.
  intros Hinv. destruct (caps g !! op) as [c|] eqn:Hc.
  - by apply (release_inv g op c (THold op)).
  - unfold release. rewrite Hc. apply (inv_drop g (THold op)); [done| |done].
    intros op' [c' Hc']. cbn [unit_of]. apply decide_False. congruence.
Qed.

Lemma step_inv s s' : step s s' -> inv (gov s) (threads s) -> inv (gov s') (threads s').
Proof.
  destruct 1; cbn [gov threads]; intros Hinv;
    try (eapply inv_perm in Hinv; [|symmetry; apply Permutation_middle]).
  - by eapply acquire_granted_inv.
  - by eapply acquire_queued_inv.
  - eapply inv_perm; [apply Permutation_middle|]. by eapply ready_inv.
  - by eapply cancel_inv.
  - eapply inv_perm; [apply Permutation_middle|]. by eapply cancel_late_inv.
  - by apply handback_inv.
  - by apply hold_release_inv.
Qed.

(** Capacities fit the machine's [int]. *)
Definition config_ok (config : list (string * Z)) : Prop :=
  Forall (fun c => c.2 <= maxInt64) config.

Lemma configured_inv name config :
  config_ok config ->
  inv (fold_left (fun g c => SetCapacity g c.1 c.2) config (New name)) [].
Proof.
  intros Hok.
  assert (H : forall g, inv g [] -> inUse g = ∅ -> waiting g = ∅ ->
    inv (fold_left (fun g c => SetCapacity g c.1 c.2) config g) []).
  { induction Hok as [|[op c] config Hc Hok IH]; [done|]. cbn [fold_left]. intros g Hinv E1 E2.
    apply IH; [|by cbn|by cbn]. destruct Hinv. cbn [snd] in Hc.
    assert (Hcap : forall op' c', caps (SetCapacity g op c) !! op' = Some c' -> 0 < c' <= maxInt64).
    { unfold SetCapacity. cbn [caps]. intros op' c'. destruct (Z.leb_spec c 0) as [Hle|Hle].
      - intros [_ H]%lookup_delete_Some. pose proof (i_caps0 _ _ H). destruct (i_units0 _ _ H) as (_ & ? & _). lia.
      - intros [[_ <-]|[_ H]]%lookup_insert_Some; [lia|]. pose proof (i_caps0 _ _ H).
        destruct (i_units0 _ _ H) as (_ & ? & _). lia. }
    split; cbn [gov threads]; try exact i_fresh0; try done;
      try (intros op' w' H; by apply not_elem_of_nil in H).
    - intros op' c' H%Hcap. lia.
    - intros op' c' H%Hcap. unfold in_use, queue_of. cbn [inUse waiting SetCapacity fst snd].
      rewrite E1, E2, !lookup_empty. cbn. split_and!; try lia. intros Hf. by destruct Hf. }
  apply H; [|done|done]. split; try done.
  - intros p Hp. by apply not_elem_of_nil in Hp.
  - apply NoDup_nil_2.
  - intros op w Hw. by apply not_elem_of_nil in Hw.
  - intros op. apply NoDup_nil_2.
  - intros op w Hw. by apply not_elem_of_nil in Hw.
  - intros op w Hw. by apply not_elem_of_nil in Hw.
Qed.

Lemma reachable_inv name config s :
  config_ok config -> reachable name config s -> inv (gov s) (threads s).
Proof.
  intros Hok. induction 1 as [|s s' _ IH Hs]; [by apply configured_inv|by eapply step_inv].
Qed.

(** ** What the governor promises *)

(** C5. Capacity is conserved however callers interleave.  In every state
    reachable from a governor configured before its callers arrive, a gated
    operation has at most as many lease holders as its capacity; [InUse] counts
    exactly the leases held, granted but not yet seen, or about to be handed
    back; nobody waits while a unit is free; every blocked caller is either in
    the queue or already granted (no lost wake-up); and a cancelled caller whose
    waiter had left the queue always finds its channel closed, so its unit is
    handed back rather than leaked. *)
Theorem capacity_conserved name config s op :
  config_ok config -> reachable name config s -> 0 < Capacity (gov s) op ->
  InUse (gov s) op = units op (ready (gov s)) (threads s) /\
  holders op (threads s) <= InUse (gov s) op <= Capacity (gov s) op /\
  (0 < Waiting (gov s) op -> InUse (gov s) op = Capacity (gov s) op) /\
  (forall w, TWait op w ∈ threads s -> w ∈ queue_of (gov s) op \/ w_ptr w ∈ ready (gov s)) /\
  (forall w, TCancel op w ∈ threads s ->
     cancelWaiter_handback (gov s) op w = release (gov s) op).
Proof.
  intros Hok Hr Hc. pose proof (reachable_inv _ _ _ Hok Hr) as Hinv.
  unfold Capacity, InUse, Waiting in *.
  assert (Hcap : caps (gov s) !! op = Some (cap_of (gov s) op)).
  { unfold cap_of in *. destruct (caps (gov s) !! op); [done|]. simpl in Hc. lia. }
  destruct (i_units _ _ Hinv op _ Hcap) as (H1 & H2 & H3).
  pose proof (holders_units op (ready (gov s)) (threads s)).
  split_and!; try lia.
  - intros H'. apply H3. intros E. rewrite E in H'. simpl in H'. lia.
  - intros w Hw. by destruct (i_wait _ _ Hinv op w Hw).
  - intros w Hw. destruct (i_cancel _ _ Hinv op w Hw) as [_ Hr'].
    unfold cancelWaiter_handback. by rewrite bool_decide_true.
Qed.

(** Two callers contend for one unit: the first holds it, the second waits. *)
Definition demo_config : list (string * Z) := [("stream"%string, 1)].
Definition demo_waiter : waiter := Waiter 0 PriorityPrewarm "b" 1.
Definition demo_gov : Governor :=
  fold_left (fun g c => SetCapacity g c.1 c.2) demo_config (New "acct").
Definition demo_sys : sys :=
  Sys (Acquire (Acquire demo_gov "stream" PriorityPlayback "a").1 "stream" PriorityPrewarm "b").1
      [TWait "stream" demo_waiter; THold "stream"].

Lemma demo_reachable : reachable "acct" demo_config demo_sys.
Proof.
  eapply reach_step; [eapply reach_step; [apply reach_init|]|].
  - apply step_acquire with (op := "stream"%string) (p := PriorityPlayback) (s := "a"%string). reflexivity.
  - apply step_queue with (p := PriorityPrewarm) (s := "b"%string). reflexivity.
Qed.

Lemma demo_ok : config_ok demo_config.
Proof. repeat constructor. unfold maxInt64. simpl. lia. Qed.

Lemma capacity_conserved_witness :
  InUse (gov demo_sys) "stream" = 1 /\ holders "stream" (threads demo_sys) <= 1.
Proof.
  destruct (capacity_conserved "acct" demo_config demo_sys "stream" demo_ok demo_reachable)
    as (H & ? & _); [reflexivity|].
  split; [reflexivity|]. vm_compute. discriminate.
Defined.

(** A released lease goes to the right caller.  When a holder of a gated
    operation releases its lease, either nobody waits and one unit becomes free,
    or exactly one waiter leaves the queue: its channel is closed, its session is
    charged one grant, the number of units in use does not change, and no other
    waiter precedes it in the order (priority, grants of its session so far,
    arrival). *)
Theorem release_admits_best name config s op :
  config_ok config -> reachable name config s -> 0 < Capacity (gov s) op ->
  THold op ∈ threads s ->
  let g := gov s in
  let g' := release g op in
  (queue_of g op = [] /\ queue_of g' op = [] /\ InUse g' op = InUse g op - 1) \/
  (exists q1 w q2,
     queue_of g op = q1 ++ w :: q2 /\ queue_of g' op = q1 ++ q2 /\
     w_ptr w ∉ ready g /\ ready g' = {[w_ptr w]} ∪ ready g /\ InUse g' op = InUse g op /\
     served_of g' op = <[w_session w := i64 (served_count (served_of g op) (w_session w) + 1)]> (served_of g op) /\
     forall x, x ∈ queue_of g op ->
       ~ rank_lt (rank (served_of g op) x) (rank (served_of g op) w)).
Proof.
  intros Hok Hr Hc Hh g g'. pose proof (reachable_inv _ _ _ Hok Hr) as Hinv. fold g in Hinv, Hc.
  assert (Hcap : caps g !! op = Some (cap_of g op)).
  { unfold Capacity, cap_of in *. destruct (caps g !! op); [done|]. simpl in Hc. lia. }
  destruct (queue_of g op) as [|w0 rest] eqn:Q.
  - left. destruct (i_units _ _ Hinv op _ Hcap) as (H1 & H2 & _).
    assert (Hpos : 0 < in_use g op).
    { pose proof (holders_units op (ready g) (threads s)).
      apply list_elem_of_split in Hh as (t1 & t2 & E). rewrite E in H1.
      rewrite units_app, units_cons in H1. cbn [unit_of] in H1. rewrite decide_True in H1 by done.
      pose proof (units_nonneg op (ready g) t1). pose proof (units_nonneg op (ready g) t2). lia. }
    unfold g', release. rewrite Hcap, Q. destruct (Z.ltb_spec 0 (in_use g op)); [|lia].
    unfold InUse. rewrite in_use_set, decide_True by done. split_and!; [done|done|].
    apply i64_small. unfold is_i64, minInt64, maxInt64 in *. lia.
  - right. destruct (release_queue g op w0 rest) as (q1 & w & q2 & E & Hbest & Hrel); [by eexists|done|].
    exists q1, w, q2. unfold g'. rewrite Hrel, <-E. split_and!; try done.
    + etransitivity; [apply (queue_of_set g op (q1 ++ q2) op)|]. by rewrite decide_True.
    + apply (i_queue _ _ Hinv op). rewrite Q, E. set_solver.
    + unfold served_of at 1. cbn [served close_ready markServedLocked]. by rewrite lookup_insert_eq.
Qed.

Lemma release_admits_best_witness :
  queue_of (gov demo_sys) "stream" = [demo_waiter] /\
  queue_of (release (gov demo_sys) "stream") "stream" = [] /\
  InUse (release (gov demo_sys) "stream") "stream" = 1.
Proof.
  destruct (release_admits_best "acct" demo_config demo_sys "stream" demo_ok demo_reachable)
    as [(H & _)|(q1 & w & q2 & H & _)]; [reflexivity|right; left| |].
  - exfalso. vm_compute in H. discriminate H.
  - split_and!; reflexivity.
Defined.

(** *** Draining *)

(** A step in which no caller arrives. *)
Definition quiet (s s' : sys) : Prop := step s s' /\ (length (threads s') <= length (threads s))%nat.

(** The steps a caller takes by itself when it is not cancelled: it sees its
    grant, hands back a grant it no longer wants, or releases its lease. *)
Inductive advance : sys -> sys -> Prop :=
| advance_ready g t1 t2 op w :
    w_ptr w ∈ ready g ->
    advance (Sys g (t1 ++ TWait op w :: t2)) (Sys g (t1 ++ THold op :: t2))
| advance_handback g t1 t2 op w :
    advance (Sys g (t1 ++ TCancel op w :: t2)) (Sys (cancelWaiter_handback g op w) (t1 ++ t2))
| advance_release g t1 t2 op :
    advance (Sys g (t1 ++ THold op :: t2)) (Sys (release g op) (t1 ++ t2)).

(** The steps the callers have left: a blocked caller two, any other one. *)
Definition steps_left (ts : list thread) : nat :=
  sum_list_with (fun t => match t with TWait _ _ => 2 | _ => 1 end)%nat ts.

Lemma steps_left_app t1 t2 : steps_left (t1 ++ t2) = (steps_left t1 + steps_left t2)%nat.
Proof. apply sum_list_with_app. Qed.

Lemma quiet_decreases s s' : quiet s s' -> (steps_left (threads s') < steps_left (threads s))%nat.
Proof.
  intros [Hs Hl]. destruct Hs; cbn [threads] in *; rewrite ?length_app in Hl; cbn [length] in Hl; try lia;
    rewrite !steps_left_app; cbn; fold (steps_left t2); lia.
Qed.

(** A unit in use belongs to a caller that can advance. *)
Lemma unit_advances g ts op : 0 < units op (ready g) ts -> exists s', advance (Sys g ts) s'.
Proof.
  intros Hu. assert (Hex : exists t, t ∈ ts /\ unit_of op (ready g) t = 1).
  { induction ts as [|t ts IH]; [done|]. rewrite units_cons in Hu. pose proof (unit_of_range op (ready g) t).
    destruct (decide (unit_of op (ready g) t = 1)) as [E|E]; [exists t; split; [left|done]|].
    destruct IH as (t' & Ht' & E'); [lia|]. exists t'. split; [by right|done]. }
  destruct Hex as (t & (t1 & t2 & ->)%list_elem_of_split & E). destruct t as [op' w|op' w|op']; cbn in E.
  - case_decide as Hd; [|done]. eexists. apply advance_ready. apply Hd.
  - eexists. apply advance_handback.
  - eexists. apply advance_release.
Qed.

(** C11. The governor drains.  Once callers stop arriving, however they are
    scheduled and cancelled, at most two steps are left for each blocked caller and
    one for any other, and as long as any caller is left some caller can advance
    without being cancelled: there is no deadlock and no livelock, so every blocked
    caller gets its lease or is cancelled.  When the last is gone nobody is queued
    and no unit of a gated operation is in use. *)
Theorem governor_drains name config s n s' :
  config_ok config -> reachable name config s -> nsteps quiet n s s' ->
  (n + steps_left (threads s') <= steps_left (threads s))%nat /\
  (threads s' <> [] -> exists s'', advance s' s'' /\ step s' s'') /\
  (threads s' = [] -> forall op, queue_of (gov s') op = [] /\ (0 < Capacity (gov s') op -> InUse (gov s') op = 0)).
Proof.
  intros Hok Hr Hn. assert (Hinv : inv (gov s') (threads s')).
  { apply (reachable_inv name config); [done|]. clear Hok. induction Hn as [|n s s1 s' [Hq _] _ IH]; [done|].
    apply IH. by eapply reach_step. }
  split_and!.
  - clear Hr Hinv. induction Hn as [|n s s1 s' Hq _ IH]; [lia|]. pose proof (quiet_decreases s s1 Hq). lia.
  - destruct s' as [g ts]. cbn [gov threads] in *. intros Hne.
    assert (Ha : exists s'', advance (Sys g ts) s'').
    { destruct ts as [|t ts]; [done|]. destruct t as [op w|op w|op].
      - destruct (i_wait _ _ Hinv op w ltac:(left)) as [[c Hc] [Hq|Hready]].
        + apply (unit_advances g _ op). destruct (i_units _ _ Hinv op c Hc) as (<- & _ & Hfull).
          rewrite Hfull; [apply (i_caps _ _ Hinv op c Hc)|]. intros Hnil. rewrite Hnil in Hq. by apply not_elem_of_nil in Hq.
        + eexists. exact (advance_ready g [] ts op w Hready).
      - eexists. exact (advance_handback g [] ts op w).
      - eexists. exact (advance_release g [] ts op). }
    destruct Ha as [s'' Ha]. exists s''. split; [done|]. destruct Ha; by constructor.
  - intros Hts op. rewrite Hts in Hinv. split.
    + destruct (queue_of (gov s') op) as [|w q] eqn:Hq; [done|].
      destruct (i_queue _ _ Hinv op w) as [Hw _]; [rewrite Hq; left|]. by apply not_elem_of_nil in Hw.
    + intros Hc. unfold Capacity, cap_of in Hc. destruct (caps (gov s') !! op) as [c|] eqn:Ec; [|cbn in Hc; lia].
      unfold InUse. by destruct (i_units _ _ Hinv op c Ec) as (-> & _).
Qed.

Lemma governor_drains_witness :
  exists s', nsteps quiet 1 demo_sys s' /\ threads s' = [TWait "stream" demo_waiter] /\
    (exists s'', advance s' s'' /\ step s' s'').
Proof.
  exists (Sys (release (gov demo_sys) "stream") [TWait "stream" demo_waiter]).
  assert (Hn : nsteps quiet 1 demo_sys (Sys (release (gov demo_sys) "stream") [TWait "stream" demo_waiter])).
  { eapply nsteps_l; [|apply nsteps_O]. split; [|cbn; lia].
    apply (step_release (gov demo_sys) [TWait "stream" demo_waiter] [] "stream"). }
  split; [exact Hn|]. split; [reflexivity|].
  apply (proj1 (proj2 (governor_drains "acct" demo_config demo_sys 1 _ demo_ok demo_reachable Hn))). discriminate.
Defined.


Lemma acquire_unbounded g op p s : cap_of g op <= 0 -> Acquire g op p s = (g, Granted).
Proof. intros H. unfold Acquire. by destruct (Z.leb_spec (cap_of g op) 0); [|lia]. Qed.

Lemma acquire_free g op p s :
  0 < cap_of g op -> in_use g op < cap_of g op ->
  Acquire g op p s = (markServedLocked (set_inUse g op (i64 (in_use g op + 1))) op s, Granted).
Proof.
  intros H1 H2. unfold Acquire. destruct (Z.leb_spec (cap_of g op) 0); [lia|].
  by destruct (Z.ltb_spec (in_use g op) (cap_of g op)); [|lia].
Qed.

Lemma release_idle g op :
  is_Some (caps g !! op) -> queue_of g op = [] -> 0 < in_use g op ->
  release g op = set_inUse g op (i64 (in_use g op - 1)).
Proof.
  intros [c Hc] Hq H. unfold release. rewrite Hc, Hq.
  by destruct (Z.ltb_spec 0 (in_use g op)); [|lia].
Qed.

(** Reconfiguring a class while leases are out loses track of them: a lease
    granted while the class is unbounded, released after a capacity of one is
    set, gives back a unit that another caller still holds, so the governor
    admits a second concurrent holder and [InUse] counts one. *)
Theorem late_capacity_overadmits name op p1 p2 p3 s1 s2 s3 :
  let '(g1, a1) := Acquire (New name) op p1 s1 in
  let '(g2, a2) := Acquire (SetCapacity g1 op 1) op p2 s2 in
  let '(g3, a3) := Acquire (release g2 op) op p3 s3 in
  a1 = Granted /\ a2 = Granted /\ a3 = Granted /\
  Capacity g3 op = 1 /\ InUse g3 op = 1.
Proof.
  rewrite acquire_unbounded by done.
  set (g1 := SetCapacity (New name) op 1).
  assert (C1 : cap_of g1 op = 1) by (unfold cap_of; cbn; by rewrite lookup_insert_eq).
  assert (U1 : in_use g1 op = 0) by done.
  rewrite acquire_free by lia. rewrite U1.
  set (g2 := markServedLocked _ op s2).
  assert (U2 : in_use g2 op = 1) by (unfold in_use; cbn; by rewrite lookup_insert_eq).
  assert (C2 : caps g2 !! op = Some 1) by (cbn; by rewrite lookup_insert_eq).
  rewrite release_idle by (done || lia). rewrite U2.
  set (g3 := set_inUse g2 op _).
  assert (U3 : in_use g3 op = 0) by (unfold in_use; cbn; by rewrite lookup_insert_eq).
  assert (C3 : cap_of g3 op = 1) by (unfold cap_of; cbn; by rewrite lookup_insert_eq).
  rewrite acquire_free by lia. rewrite U3.
  split_and!; try done. unfold InUse, in_use. cbn. by rewrite lookup_insert_eq.
Qed.

(** ** The learned connection ceiling *)

(** [lastChange] is [None] while it is the zero time; the injectable clock is
    the argument [now] of the operations that read it. *)
Record ConnCeiling := MkConnCeiling {
  configured : Z;
  current : Z;
  minCeiling : Z;
  growEvery : Z;
  lastChange : option Z
}.

Definition NewConnCeiling (n : Z) : ConnCeiling :=
  let n := if n <? 1 then 1 else n in
  MkConnCeiling n n 1 (30 * second) None.

Definition SetGrowInterval (c : ConnCeiling) (d : Z) : ConnCeiling :=
  if 0 <? d then MkConnCeiling (configured c) (current c) (minCeiling c) d (lastChange c) else c.

Definition maybeGrowLocked (c : ConnCeiling) (now : Z) : ConnCeiling :=
  if configured c <=? current c then c
  else
    match lastChange c with
    | None => MkConnCeiling (configured c) (current c) (minCeiling c) (growEvery c) (Some now)
    | Some last =>
        if growEvery c <=? time_sub now last
        then MkConnCeiling (configured c) (i64 (current c + 1)) (minCeiling c) (growEvery c) (Some now)
        else c
    end.

Definition Current (c : ConnCeiling) (now : Z) : ConnCeiling * Z :=
  let c := maybeGrowLocked c now in (c, current c).

Definition OnRejected (c : ConnCeiling) (now : Z) : ConnCeiling :=
  let next := Z.quot (current c) 2 in
  let next := if next <? minCeiling c then minCeiling c else next in
  MkConnCeiling (configured c) next (minCeiling c) (growEvery c) (Some now).

Inductive ceiling_event : Type :=
| Read (now : Z)
| Reject (now : Z)
| Interval (d : Z).

Definition ceiling_step (c : ConnCeiling) (e : ceiling_event) : ConnCeiling :=
  match e with
  | Read now => (Current c now).1
  | Reject now => OnRejected c now
  | Interval d => SetGrowInterval c d
  end.

Definition ceiling_run (c : ConnCeiling) (es : list ceiling_event) : ConnCeiling :=
  fold_left ceiling_step es c.

Definition event_ok (e : ceiling_event) : Prop :=
  match e with Interval d => d <= maxInt64 | _ => True end.

Record ceiling_inv (n : Z) (c : ConnCeiling) : Prop := {
  ci_conf : configured c = Z.max 1 n;
  ci_min : minCeiling c = 1;
  ci_range : 1 <= current c <= configured c /\ configured c <= maxInt64;
  ci_grow : 0 < growEvery c <= maxInt64;
  ci_last : current c < configured c -> is_Some (lastChange c)
}.

Lemma ceiling_step_inv n c e : event_ok e -> ceiling_inv n c -> ceiling_inv n (ceiling_step c e).
Proof.
  intros He []. destruct e as [now|now|d]; cbn [ceiling_step].
  - unfold Current, maybeGrowLocked. cbn [fst]. destruct (Z.leb_spec (configured c) (current c)); [done|].
    destruct (ci_last0 ltac:(lia)) as [last ->]. destruct (Z.leb_spec (growEvery c) (time_sub now last)); [|done].
    split; cbn; try done.
    rewrite i64_small by (unfold is_i64, maxInt64, minInt64 in *; lia). lia.
  - unfold OnRejected. split; cbn; try done. rewrite ci_min0, Z.quot_div_nonneg by lia.
    pose proof (Z.div_lt (current c) 2). destruct (Z.ltb_spec (current c / 2) 1); lia.
  - unfold SetGrowInterval. destruct (Z.ltb_spec 0 d); [|done]. split; cbn; try done.
Qed.

Lemma ceiling_run_inv n es c :
  Forall event_ok es -> ceiling_inv n c -> ceiling_inv n (ceiling_run c es).
Proof.
  intros H. revert c. induction H as [|e es He _ IH]; intros c Hc; [done|].
  apply IH. by apply ceiling_step_inv.
Qed.

Lemma new_ceiling_inv n : n <= maxInt64 -> ceiling_inv n (NewConnCeiling n).
Proof.
  intros H. unfold NewConnCeiling, second.
  destruct (Z.ltb_spec n 1); split; cbn; unfold maxInt64 in *; try lia.
Qed.

(** Reads that each come a growth interval after the one before. *)
Fixpoint spaced (d last : Z) (reads : list Z) : Prop :=
  match reads with
  | [] => True
  | t :: reads => d <= t - last /\ spaced d t reads
  end.

Lemma spaced_reads n reads : forall c last,
  ceiling_inv n c -> lastChange c = Some last -> spaced (growEvery c) last reads ->
  current (ceiling_run c (map Read reads)) = Z.min (configured c) (current c + Z.of_nat (length reads)).
Proof.
  induction reads as [|t reads IH]; intros c last Hinv Hl Hs.
  - pose proof (ci_range _ _ Hinv). cbn. lia.
  - destruct Hs as [Hd Hs]. pose proof (ceiling_step_inv n c (Read t) I Hinv) as Hinv'.
    cbn [map ceiling_run fold_left]. destruct (ceiling_step c (Read t)) as [cf cu mc ge lc] eqn:E.
    pose proof (ci_range _ _ Hinv) as Hr. pose proof (ci_grow _ _ Hinv) as Hg.
    cbn [ceiling_step] in E. unfold Current, maybeGrowLocked in E. cbn [fst] in E.
    destruct (Z.leb_spec (configured c) (current c)) as [Hle|Hlt].
    + subst c. cbn [current configured lastChange growEvery] in *.
      assert (Hk : forall reads, ceiling_run (MkConnCeiling cf cu mc ge lc) (map Read reads) = MkConnCeiling cf cu mc ge lc).
      { clear -Hle. induction reads; [done|]. cbn [map ceiling_run fold_left ceiling_step].
        unfold Current, maybeGrowLocked. cbn [configured current fst].
        by destruct (Z.leb_spec cf cu); [|lia]. }
      fold (ceiling_run (MkConnCeiling cf cu mc ge lc) (map Read reads)). rewrite Hk. cbn [current]. lia.
    + rewrite Hl in E. destruct (Z.leb_spec (growEvery c) (time_sub t last)) as [|Hn].
      2: { exfalso. unfold time_sub, minInt64, maxInt64 in *. lia. }
      rewrite i64_small in E by (unfold is_i64, maxInt64, minInt64 in *; lia).
      injection E as <- <- <- <- <-.
      etransitivity; [apply (IH _ t); [exact Hinv'|done|done]|]. cbn. lia.
Qed.

(** The AIMD connection ceiling stays within [1, configured] whatever the
    sequence of rejections, reads and interval changes; a rejection halves it,
    never below one; and after a rejection, reads that come at least a growth
    interval apart with no further rejection raise it by exactly one each until
    the configured bound is reached again. *)
Theorem ceiling_aimd n es now reads :
  n <= maxInt64 -> Forall event_ok es ->
  let c := ceiling_run (NewConnCeiling n) es in
  let r := OnRejected c now in
  spaced (growEvery c) now reads ->
  configured c = Z.max 1 n /\ 1 <= current c <= configured c /\
  current r = Z.max 1 (current c / 2) /\
  current (ceiling_run r (map Read reads))
    = Z.min (configured c) (current r + Z.of_nat (length reads)).
Proof.
  intros Hn He c r Hs.
  assert (Hinv : ceiling_inv n c) by by apply ceiling_run_inv, new_ceiling_inv.
  assert (Hr : ceiling_inv n r) by exact (ceiling_step_inv n c (Reject now) I Hinv).
  pose proof Hinv as [].
  split_and!; try done; try lia.
  - unfold r, OnRejected. cbn [current]. rewrite ci_min0, Z.quot_div_nonneg by lia.
    destruct (Z.ltb_spec (current c / 2) 1); lia.
  - by apply (spaced_reads n reads r now).
Qed.

Lemma ceiling_aimd_witness :
  current (ceiling_run (OnRejected (ceiling_run (NewConnCeiling 8) []) 0)
    (map Read [30 * second; 60 * second])) = 6.
Proof.
  destruct (ceiling_aimd 8 [] 0 [30 * second; 60 * second]) as (_ & _ & _ & H).
  - unfold maxInt64. lia.
  - constructor.
  - cbn. unfold second. lia.
  - rewrite H. reflexivity.
Defined.
