(* ===== verification/Bencode.v ===== *)
(** The bencode decoder of internal/torrentmeta/bencode.go.

    A decoded node keeps the span of its own encoding; [decode], [decodeList]
    and [decodeDict] take the buffer and the position and return the node with
    the position after it.  A Go map is an association list without duplicate
    keys, a later entry replacing an earlier one in place.  [fuel] bounds the
    recursion; [decodeTop] gives twice the input length, which suffices. *)

From Stdlib Require Import ZArith Lia.
From stdpp Require Import base list numbers sets.
From S2P Require Import Prelude.

Local Open Scope Z_scope.
Local Open Scope harbor_scope.

Definition maxDecodeDepth : Z := 64.
Definition maxContainerLen : Z := 200000.

(** ** Decoded nodes *)

Inductive value : Type :=
| VInt (i : Z) (start fin : nat)
| VBytes (b : bytes) (start fin : nat)
| VList (l : list value) (start fin : nat)
| VDict (d : list (bytes * value)) (start fin : nat).

Definition v_start (v : value) : nat :=
  match v with VInt _ s _ | VBytes _ s _ | VList _ s _ | VDict _ s _ => s end.
Definition v_end (v : value) : nat :=
  match v with VInt _ _ e | VBytes _ _ e | VList _ _ e | VDict _ _ e => e end.

(** Map assignment [m[k] = v] and lookup. *)
Fixpoint dict_set {V} (k : bytes) (v : V) (m : list (bytes * V)) : list (bytes * V) :=
  match m with
  | [] => [(k, v)]
  | (k', v') :: m => if decide (k = k') then (k, v) :: m else (k', v') :: dict_set k v m
  end.

Fixpoint dict_get {V} (k : bytes) (m : list (bytes * V)) : option V :=
  match m with
  | [] => None
  | (k', v') :: m => if decide (k = k') then Some v' else dict_get k m
  end.

(** ** Errors *)

Inductive bencode_error : Type :=
| TooDeep
| EndOfInput
| BadType (c : Z) (pos : nat)
| BadInteger
| UnterminatedInteger
| IntegerRange
| ExpectedLength
| BadLength
| ExpectedColon
| LengthExceedsInput
| UnterminatedList
| ListTooLarge
| UnterminatedDict
| KeyNotString
| DictTooLarge
| OutOfFuel.

(** ** Scalars *)

Definition is_digit (c : Z) : bool := (48 <=? c) && (c <=? 57).

(** How many digits a suffix of the buffer starts with. *)
Fixpoint digit_run (l : bytes) : nat :=
  match l with
  | c :: l => if is_digit c then S (digit_run l) else 0%nat
  | [] => 0%nat
  end.

Definition digits_value (ds : bytes) : Z := fold_left (fun acc c => acc * 10 + (c - 48)) ds 0.

(** [strconv.ParseInt(s, 10, bits)]; [None] is an error. *)
Definition ParseInt (s : bytes) (bits : Z) : option Z :=
  let '(neg, ds) := match s with
    | c :: ds => if c =? 45 then (true, ds) else if c =? 43 then (false, ds) else (false, s)
    | [] => (false, [])
    end in
  if bool_decide (ds = []) then None
  else if negb (forallb is_digit ds) then None
  else
    let un := digits_value ds in
    if negb neg && (2 ^ (bits - 1) <=? un) then None
    else if neg && (2 ^ (bits - 1) <? un) then None
    else Some (if neg then - un else un).

Definition decodeInt (buf : bytes) (start pos : nat) : result bencode_error (value * nat) :=
  let i := S pos in
  let j := if bool_decide (buf !! i = Some 45) then S i else i in
  let digitsStart := j in
  let j := (j + digit_run (drop j buf))%nat in
  if (j =? digitsStart)%nat then Err BadInteger
  else if bool_decide (buf !! j = Some 101) then
    match ParseInt (take (j - i) (drop i buf)) 64 with
    | None => Err IntegerRange
    | Some n => Ok (VInt n start (S j), S j)
    end
  else Err UnterminatedInteger.

Definition decodeBytes (buf : bytes) (start pos : nat) : result bencode_error (value * nat) :=
  let i := (pos + digit_run (drop pos buf))%nat in
  if (i =? pos)%nat then Err ExpectedLength
  else
    match ParseInt (take (i - pos) (drop pos buf)) 63 with
    | None => Err BadLength
    | Some n =>
        if n <? 0 then Err BadLength
        else if bool_decide (buf !! i = Some 58) then
          let i := S i in
          if Z.of_nat (length buf - i) <? n then Err LengthExceedsInput
          else
            let fin := (i + Z.to_nat n)%nat in
            Ok (VBytes (take (fin - i) (drop i buf)) start fin, fin)
        else Err ExpectedColon
    end.

(** ** The recursive decoder *)

Fixpoint decode (fuel : nat) (buf : bytes) (depth : Z) (pos : nat) {struct fuel}
    : result bencode_error (value * nat) :=
  match fuel with
  | O => Err OutOfFuel
  | S fuel =>
      if maxDecodeDepth <? depth then Err TooDeep
      else
        match buf !! pos with
        | None => Err EndOfInput
        | Some c =>
            if c =? 105 then decodeInt buf pos pos
            else if c =? 108 then decodeList fuel buf pos depth (S pos) []
            else if c =? 100 then decodeDict fuel buf pos depth (S pos) []
            else if is_digit c then decodeBytes buf pos pos
            else Err (BadType c pos)
        end
  end
with decodeList (fuel : nat) (buf : bytes) (start : nat) (depth : Z) (pos : nat)
    (l : list value) {struct fuel} : result bencode_error (value * nat) :=
  match fuel with
  | O => Err OutOfFuel
  | S fuel =>
      match buf !! pos with
      | None => Err UnterminatedList
      | Some c =>
          if c =? 101 then Ok (VList l start (S pos), S pos)
          else
            let? (v, pos) := decode fuel buf (depth + 1) pos in
            let l := l ++ [v] in
            if maxContainerLen <? Z.of_nat (length l) then Err ListTooLarge
            else decodeList fuel buf start depth pos l
      end
  end
with decodeDict (fuel : nat) (buf : bytes) (start : nat) (depth : Z) (pos : nat)
    (d : list (bytes * value)) {struct fuel} : result bencode_error (value * nat) :=
  match fuel with
  | O => Err OutOfFuel
  | S fuel =>
      match buf !! pos with
      | None => Err UnterminatedDict
      | Some c =>
          if c =? 101 then Ok (VDict d start (S pos), S pos)
          else
            let? (k, pos) := decode fuel buf (depth + 1) pos in
            match k with
            | VBytes key _ _ =>
                let? (v, pos) := decode fuel buf (depth + 1) pos in
                let d := dict_set key v d in
                if maxContainerLen <? Z.of_nat (length d) then Err DictTooLarge
                else decodeDict fuel buf start depth pos d
            | _ => Err KeyNotString
            end
      end
  end.

Definition decode_fuel (data : bytes) : nat := (2 * length data + 1)%nat.

Definition decodeTop (data : bytes) : result bencode_error value :=
  let? (v, _) := decode (decode_fuel data) data 0 0 in Ok v.

(** d1:ai-7e1:bl2:xyee *)
Example decodeTop_example :
  decodeTop [100; 49; 58; 97; 105; 45; 55; 101; 49; 58; 98; 108; 50; 58; 120; 121; 101; 101]
  = Ok (VDict [([97], VInt (-7) 4 8); ([98], VList [VBytes [120; 121] 12 16] 11 17)] 0 18).
Proof. reflexivity. Qed.

(** ** Progress: a decoded node covers a non-empty span of the buffer *)

Lemma digit_run_le l : (digit_run l <= length l)%nat.
Proof. induction l as [|c l IH]; simpl; [lia|]. destruct (is_digit c); lia. Qed.

Lemma lookup_lt (buf : bytes) i c : buf !! i = Some c -> (i < length buf)%nat.
Proof. apply lookup_lt_Some. Qed.

Lemma decodeInt_span buf s pos v p :
  decodeInt buf s pos = Ok (v, p) ->
  v_start v = s /\ v_end v = p /\ (pos < p <= length buf)%nat.
Proof.
  unfold decodeInt. intros H. set (j0 := if bool_decide _ then _ else _) in H.
  split_guards H. injection H as <- <-.
  assert (S pos <= j0)%nat by (unfold j0; destruct (bool_decide _); lia).
  apply bool_decide_eq_true in Heqb0. apply lookup_lt in Heqb0.
  clearbody j0. cbn [v_start v_end]. lia.
Qed.

Lemma decodeBytes_span buf s pos v p :
  decodeBytes buf s pos = Ok (v, p) ->
  v_start v = s /\ v_end v = p /\ (pos < p <= length buf)%nat.
Proof.
  unfold decodeBytes. intros H. split_guards H. injection H as <- <-.
  bool_hyps. apply lookup_lt in Heqb1. cbn [v_start v_end]. lia.
Qed.

Lemma decode_span fuel :
  (forall buf depth pos v p, decode fuel buf depth pos = Ok (v, p) ->
     v_start v = pos /\ v_end v = p /\ (pos < p <= length buf)%nat) /\
  (forall buf s depth pos l v p, decodeList fuel buf s depth pos l = Ok (v, p) ->
     v_start v = s /\ v_end v = p /\ (pos < p <= length buf)%nat) /\
  (forall buf s depth pos d v p, decodeDict fuel buf s depth pos d = Ok (v, p) ->
     v_start v = s /\ v_end v = p /\ (pos < p <= length buf)%nat).
Proof.
  induction fuel as [|fuel (IH1 & IH2 & IH3)]; [done|]. split_and!; intros.
  - cbn [decode] in H. split_guards H.
    destruct (_ =? 105); [by apply decodeInt_span in H|].
    destruct (_ =? 108); [apply IH2 in H; lia|].
    destruct (_ =? 100); [apply IH3 in H; lia|].
    destruct (is_digit _); [by apply decodeBytes_span in H|done].
  - cbn [decodeList] in H. split_guards H. apply lookup_lt in Heqo.
    destruct (_ =? 101); [injection H as <- <-; cbn [v_start v_end]; lia|].
    split_guards H. destruct r as [v1 p1]. split_guards H.
    apply IH1 in Hr. apply IH2 in H. lia.
  - cbn [decodeDict] in H. split_guards H. apply lookup_lt in Heqo.
    destruct (_ =? 101); [injection H as <- <-; cbn [v_start v_end]; lia|].
    split_guards H. destruct r as [k1 p1]. destruct k1; try done. split_guards H.
    destruct r as [v1 p2]. split_guards H.
    apply IH1 in Hr. apply IH1 in Hr0. apply IH3 in H. lia.
Qed.

(** ** Fuel: twice the remaining input is enough *)

Lemma scalars_no_fuel buf s pos :
  decodeInt buf s pos <> Err OutOfFuel /\ decodeBytes buf s pos <> Err OutOfFuel.
Proof.
  unfold decodeInt, decodeBytes. split;
  repeat match goal with |- context [if ?b then _ else _] => destruct b end;
  repeat match goal with |- context [match ?o with Some _ => _ | None => _ end] => destruct o end;
  repeat match goal with |- context [if ?b then _ else _] => destruct b end; done.
Qed.

Lemma decode_enough fuel :
  (forall buf depth pos, (2 * (length buf - pos) < fuel)%nat ->
     decode fuel buf depth pos <> Err OutOfFuel) /\
  (forall buf s depth pos l, (2 * (length buf - pos) + 1 < fuel)%nat ->
     decodeList fuel buf s depth pos l <> Err OutOfFuel) /\
  (forall buf s depth pos d, (2 * (length buf - pos) + 1 < fuel)%nat ->
     decodeDict fuel buf s depth pos d <> Err OutOfFuel).
Proof.
  induction fuel as [|fuel (IH1 & IH2 & IH3)]; [split_and!; intros; lia|].
  assert (Hn : forall buf depth pos, (2 * (length buf - pos) + 1 < S fuel)%nat ->
    decode fuel buf depth pos <> Err OutOfFuel) by (intros; apply IH1; lia).
  split_and!; intros.
  - cbn [decode]. destruct (maxDecodeDepth <? depth); [done|].
    destruct (buf !! pos) eqn:E; [|done]. apply lookup_lt in E.
    destruct (_ =? 105); [apply scalars_no_fuel|].
    destruct (_ =? 108); [apply IH2; lia|].
    destruct (_ =? 100); [apply IH3; lia|].
    destruct (is_digit _); [apply scalars_no_fuel|done].
  - cbn [decodeList]. destruct (buf !! pos) eqn:E; [|done]. apply lookup_lt in E.
    destruct (_ =? 101); [done|]. specialize (Hn buf (depth + 1) pos H).
    destruct (decode fuel buf (depth + 1) pos) as [[v p]|] eqn:D; cbn [rbind]; [|congruence].
    destruct (_ <? _); [done|]. apply (proj1 (decode_span fuel)) in D. apply IH2. lia.
  - cbn [decodeDict]. destruct (buf !! pos) eqn:E; [|done]. apply lookup_lt in E.
    destruct (_ =? 101); [done|]. pose proof (Hn buf (depth + 1) pos H) as Hk.
    destruct (decode fuel buf (depth + 1) pos) as [[k p]|] eqn:D; cbn [rbind]; [|congruence].
    destruct k; try done. apply (proj1 (decode_span fuel)) in D.
    specialize (Hn buf (depth + 1) p ltac:(lia)).
    destruct (decode fuel buf (depth + 1) p) as [[v p']|] eqn:D'; cbn [rbind]; [|congruence].
    destruct (_ <? _); [done|]. apply (proj1 (decode_span fuel)) in D'. apply IH3. lia.
Qed.

(** More fuel never changes an outcome. *)
Lemma decode_mono fuel :
  (forall f' buf depth pos, (fuel <= f')%nat -> decode fuel buf depth pos <> Err OutOfFuel ->
     decode f' buf depth pos = decode fuel buf depth pos) /\
  (forall f' buf s depth pos l, (fuel <= f')%nat ->
     decodeList fuel buf s depth pos l <> Err OutOfFuel ->
     decodeList f' buf s depth pos l = decodeList fuel buf s depth pos l) /\
  (forall f' buf s depth pos d, (fuel <= f')%nat ->
     decodeDict fuel buf s depth pos d <> Err OutOfFuel ->
     decodeDict f' buf s depth pos d = decodeDict fuel buf s depth pos d).
Proof.
  induction fuel as [|fuel (IH1 & IH2 & IH3)]; [done|].
  split_and!; intros [|f'] * Hf H; try lia.
  - cbn [decode] in *. destruct (maxDecodeDepth <? depth); [done|].
    destruct (buf !! pos); [|done]. destruct (_ =? 105); [done|].
    destruct (_ =? 108); [apply IH2; (done || lia)|].
    destruct (_ =? 100); [apply IH3; (done || lia)|done].
  - cbn [decodeList] in *. destruct (buf !! pos); [|done]. destruct (_ =? 101); [done|].
    assert (E : decode fuel buf (depth + 1) pos <> Err OutOfFuel) by (intros E; by rewrite E in H).
    rewrite (IH1 f' _ _ _ ltac:(lia) E).
    destruct (decode fuel buf (depth + 1) pos) as [[v p]|]; [|done]. cbn [rbind] in *.
    destruct (_ <? _); [done|]. apply IH2; (done || lia).
  - cbn [decodeDict] in *. destruct (buf !! pos); [|done]. destruct (_ =? 101); [done|].
    assert (E : decode fuel buf (depth + 1) pos <> Err OutOfFuel) by (intros E; by rewrite E in H).
    rewrite (IH1 f' _ _ _ ltac:(lia) E).
    destruct (decode fuel buf (depth + 1) pos) as [[k p]|]; [|done]. cbn [rbind] in *.
    destruct k; try done.
    assert (E' : decode fuel buf (depth + 1) p <> Err OutOfFuel) by (intros E'; by rewrite E' in H).
    rewrite (IH1 f' _ _ _ ltac:(lia) E').
    destruct (decode fuel buf (depth + 1) p) as [[v p2]|]; [|done]. cbn [rbind] in *.
    destruct (_ <? _); [done|]. apply IH3; (done || lia).
Qed.

(** Any fuel that gives a result gives the one of [decodeTop]. *)
Lemma decodeTop_any fuel data v p :
  decode fuel data 0 0 = Ok (v, p) -> decodeTop data = Ok v.
Proof.
  intros H. unfold decodeTop.
  assert (E : decode (decode_fuel data) data 0 0 = Ok (v, p)); [|by rewrite E].
  rewrite <-H. transitivity (decode (fuel + decode_fuel data) data 0 0).
  - symmetry. apply decode_mono; [lia|]. apply decode_enough. unfold decode_fuel. lia.
  - apply decode_mono; [lia|]. by rewrite H.
Qed.

(** ** Locality: a node is decoded from its own span only *)

(** The node with every position moved [k] bytes down. *)
Fixpoint rebase (k : nat) (v : value) : value :=
  match v with
  | VInt i s e => VInt i (s - k) (e - k)
  | VBytes b s e => VBytes b (s - k) (e - k)
  | VList l s e => VList (map (rebase k) l) (s - k) (e - k)
  | VDict d s e => VDict (map (fun kv => (kv.1, rebase k kv.2)) d) (s - k) (e - k)
  end.

Lemma digit_run_take l n : digit_run (take n l) = Nat.min n (digit_run l).
Proof.
  revert n. induction l as [|c l IH]; intros [|n]; simpl; try lia.
  destruct (is_digit c); [rewrite IH|]; lia.
Qed.

Section Window.
Context (buf : bytes) (k n : nat).
Context (Hwin : (k + n <= length buf)%nat).

Definition window : bytes := take n (drop k buf).

Lemma window_length : length window = n.
Proof. unfold window. rewrite length_take, length_drop. lia. Qed.

Lemma window_lookup i : (i < n)%nat -> window !! i = buf !! (k + i)%nat.
Proof. intros. unfold window. rewrite lookup_take_lt by lia. apply lookup_drop. Qed.

Lemma window_drop i : drop i window = take (n - i) (drop (k + i) buf).
Proof. unfold window. rewrite skipn_firstn_comm, drop_drop. done. Qed.

Lemma window_digits i :
  (i + digit_run (drop (k + i) buf) <= n)%nat ->
  digit_run (drop i window) = digit_run (drop (k + i) buf).
Proof. intros. rewrite window_drop, digit_run_take. lia. Qed.

Lemma window_slice i m :
  (i + m <= n)%nat -> take m (drop i window) = take m (drop (k + i) buf).
Proof. intros. rewrite window_drop, take_take. f_equal. lia. Qed.

Lemma decodeInt_window q v p :
  decodeInt buf (k + q) (k + q) = Ok (v, p) -> (p <= k + n)%nat ->
  decodeInt window q q = Ok (rebase k v, (p - k)%nat).
Proof.
  unfold decodeInt. intros H Hp.
  assert (Hneg : (S q < n)%nat -> window !! S q = buf !! S (k + q)).
  { intros. rewrite window_lookup by done. f_equal. lia. }
  set (j0 := if bool_decide (buf !! _ = _) then _ else _) in H.
  assert (Hj0 : (S (k + q) <= j0 <= S (S (k + q)))%nat) by (unfold j0; destruct (bool_decide _); lia).
  split_guards H. injection H as <- <-.
  apply Nat.eqb_neq in Heqb. 
  rewrite Hneg by lia.
  replace (if bool_decide (buf !! S (k + q) = Some 45) then S (S q) else S q) with (j0 - k)%nat
    by (unfold j0; destruct (bool_decide _); lia).
  clearbody j0. rewrite window_digits by (replace (k + (j0 - k))%nat with j0 by lia; lia).
  replace (k + (j0 - k))%nat with j0 by lia. set (r := digit_run (drop j0 buf)) in *.
  destruct (Nat.eqb_spec (j0 - k + r) (j0 - k)); [lia|].
  rewrite window_lookup by lia. replace (k + (j0 - k + r))%nat with (j0 + r)%nat by lia.
  rewrite Heqb0, window_slice by lia.
  replace (k + S q)%nat with (S (k + q)) by lia.
  replace (j0 - k + r - S q)%nat with (j0 + r - S (k + q))%nat by lia.
  rewrite Heqo. cbn [rebase]. repeat f_equal; lia.
Qed.

Lemma decodeBytes_window q v p :
  decodeBytes buf (k + q) (k + q) = Ok (v, p) -> (p <= k + n)%nat ->
  decodeBytes window q q = Ok (rebase k v, (p - k)%nat).
Proof.
  unfold decodeBytes. intros H Hp. split_guards H. injection H as <- <-.
  rewrite window_digits by lia. set (r := digit_run (drop (k + q) buf)) in *.
  apply Nat.eqb_neq in Heqb. destruct (Nat.eqb_spec (q + r) q); [lia|].
  rewrite window_slice by lia. replace (q + r - q)%nat with (k + q + r - (k + q))%nat by lia.
  rewrite Heqo, Heqb0. rewrite window_lookup by lia.
  replace (k + (q + r))%nat with (k + q + r)%nat by lia. rewrite Heqb1.
  rewrite window_length. bool_hyps. destruct (Z.ltb_spec (Z.of_nat (n - S (q + r))) z); [lia|].
  rewrite window_slice by lia. cbn [rebase]. replace (k + S (q + r))%nat with (S (k + q + r)) by lia.
  replace (S (q + r) + Z.to_nat z - S (q + r))%nat
    with (k + q + r + Z.to_nat z - (k + q + r))%nat by lia.
  replace (S (q + r) + Z.to_nat z)%nat with (S (k + q + r + Z.to_nat z) - k)%nat by lia.
  by replace (k + q - k)%nat with q by lia.
Qed.

Lemma dict_set_map key v d :
  map (fun kv => (kv.1, rebase k kv.2)) (dict_set key v d)
  = dict_set key (rebase k v) (map (fun kv => (kv.1, rebase k kv.2)) d).
Proof.
  induction d as [|[k' v'] d IH]; simpl; [done|]. destruct (decide (key = k')); simpl; [done|].
  by rewrite IH.
Qed.

Lemma decode_window fuel :
  (forall depth depth' q v p, decode fuel buf depth (k + q) = Ok (v, p) ->
     (p <= k + n)%nat -> depth' <= depth ->
     decode fuel window depth' q = Ok (rebase k v, (p - k)%nat)) /\
  (forall s depth depth' q l v p, decodeList fuel buf (k + s) depth (k + q) l = Ok (v, p) ->
     (p <= k + n)%nat -> depth' <= depth ->
     decodeList fuel window s depth' q (map (rebase k) l) = Ok (rebase k v, (p - k)%nat)) /\
  (forall s depth depth' q d v p, decodeDict fuel buf (k + s) depth (k + q) d = Ok (v, p) ->
     (p <= k + n)%nat -> depth' <= depth ->
     decodeDict fuel window s depth' q (map (fun kv => (kv.1, rebase k kv.2)) d)
     = Ok (rebase k v, (p - k)%nat)).
Proof.
  induction fuel as [|fuel (IH1 & IH2 & IH3)]; [done|].
  assert (Hre : forall p, (k <= p)%nat -> p = (k + (p - k))%nat) by lia.
  split_and!.
  - intros depth depth' q v p H Hp Hd. destruct (proj1 (decode_span _) _ _ _ _ _ H) as (_ & _ & Hpos).
    cbn [decode] in *. split_guards H. bool_hyps.
    destruct (Z.ltb_spec maxDecodeDepth depth'); [lia|].
    rewrite window_lookup, Heqo by lia.
    destruct (_ =? 105); [by apply decodeInt_window|].
    rewrite <-Nat.add_succ_r in H.
    destruct (_ =? 108); [exact (IH2 q depth depth' (S q) [] v p H Hp Hd)|].
    destruct (_ =? 100); [exact (IH3 q depth depth' (S q) [] v p H Hp Hd)|].
    destruct (is_digit _); [by apply decodeBytes_window|done].
  - intros s depth depth' q l v p H Hp Hd. destruct (proj1 (proj2 (decode_span _)) _ _ _ _ _ _ _ H) as (_ & _ & Hpos).
    cbn [decodeList] in *. split_guards H. rewrite window_lookup, Heqo by lia.
    destruct (_ =? 101).
    { injection H as <- <-. cbn [rebase]. repeat f_equal; lia. }
    split_guards H. destruct r as [v1 p1]. split_guards H.
    pose proof (proj1 (decode_span _) _ _ _ _ _ Hr) as (_ & _ & Hp1).
    pose proof (proj1 (proj2 (decode_span _)) _ _ _ _ _ _ _ H) as (_ & _ & Hp2).
    rewrite (IH1 _ (depth' + 1) _ _ _ Hr) by lia. cbn [rbind].
    rewrite (Hre p1) in H by lia. apply IH2 with (depth' := depth') in H; [|lia|lia].
    rewrite map_app in H. rewrite length_app, length_map in *. cbn [map length] in *. by rewrite Heqb.
  - intros s depth depth' q d v p H Hp Hd. destruct (proj2 (proj2 (decode_span _)) _ _ _ _ _ _ _ H) as (_ & _ & Hpos).
    cbn [decodeDict] in *. split_guards H. rewrite window_lookup, Heqo by lia.
    destruct (_ =? 101).
    { injection H as <- <-. cbn [rebase]. repeat f_equal; lia. }
    split_guards H. destruct r as [k1 p1]. destruct k1 as [|b1 s1 e1| |]; try done. split_guards H.
    destruct r as [v1 p2]. split_guards H.
    pose proof (proj1 (decode_span _) _ _ _ _ _ Hr) as (_ & _ & Hp1).
    pose proof (proj1 (decode_span _) _ _ _ _ _ Hr0) as (_ & _ & Hp2).
    pose proof (proj2 (proj2 (decode_span _)) _ _ _ _ _ _ _ H) as (_ & _ & Hp3).
    rewrite (IH1 _ (depth' + 1) _ _ _ Hr) by lia. cbn [rbind rebase].
    rewrite (Hre p1) in Hr0 by lia. rewrite (IH1 _ (depth' + 1) _ _ _ Hr0) by lia. cbn [rbind].
    rewrite (Hre p2) in H by lia. apply IH3 with (depth' := depth') in H; [|lia|lia].
    rewrite <-dict_set_map, length_map, Heqb. exact H.
Qed.

End Window.

(** ** Spans of the nodes inside a decoded node *)

Inductive child : value -> value -> Prop :=
| child_list v l s e : v ∈ l -> child v (VList l s e)
| child_dict key v d s e : (key, v) ∈ d -> child v (VDict d s e).

Inductive subvalue (root : value) : value -> Prop :=
| sub_root : subvalue root root
| sub_child v c : subvalue root v -> child c v -> subvalue root c.

(** [v] is what the decoder reads at its own start. *)
Definition decoded_at (buf : bytes) (v : value) : Prop :=
  exists fuel depth, 0 <= depth /\ decode fuel buf depth (v_start v) = Ok (v, v_end v).

Lemma dict_set_elem {V} key (v : V) d kv : kv ∈ dict_set key v d -> kv = (key, v) \/ kv ∈ d.
Proof.
  induction d as [|[k' v'] d IH]; simpl; [set_solver|].
  destruct (decide (key = k')); [set_solver|]. intros [->|H]%elem_of_cons; [set_solver|].
  apply IH in H. set_solver.
Qed.

Lemma decode_at fuel buf depth pos v p :
  0 <= depth -> decode fuel buf depth pos = Ok (v, p) -> decoded_at buf v.
Proof.
  intros Hd H. destruct (proj1 (decode_span _) _ _ _ _ _ H) as (E1 & E2 & _).
  exists fuel, depth. by rewrite E1, E2.
Qed.

Lemma decode_children fuel :
  (forall buf depth pos v p, 0 <= depth -> decode fuel buf depth pos = Ok (v, p) ->
     forall c, child c v -> decoded_at buf c) /\
  (forall buf s depth pos l v p, 0 <= depth -> decodeList fuel buf s depth pos l = Ok (v, p) ->
     (forall c, c ∈ l -> decoded_at buf c) -> forall c, child c v -> decoded_at buf c) /\
  (forall buf s depth pos d v p, 0 <= depth -> decodeDict fuel buf s depth pos d = Ok (v, p) ->
     (forall key c, (key, c) ∈ d -> decoded_at buf c) -> forall c, child c v -> decoded_at buf c).
Proof.
  induction fuel as [|fuel (IH1 & IH2 & IH3)]; [done|]. split_and!.
  - intros buf depth pos v p Hd H c Hc. cbn [decode] in H. split_guards H.
    destruct (_ =? 105).
    { unfold decodeInt in H. split_guards H. injection H as <- <-. inversion Hc. }
    destruct (_ =? 108).
    { eapply (IH2 _ _ _ _ _ _ _ Hd H); [|done]. intros c' Hc'. by apply not_elem_of_nil in Hc'. }
    destruct (_ =? 100).
    { eapply (IH3 _ _ _ _ _ _ _ Hd H); [|done]. intros ? c' Hc'. by apply not_elem_of_nil in Hc'. }
    destruct (is_digit _); [|done].
    unfold decodeBytes in H. split_guards H. injection H as <- <-. inversion Hc.
  - intros buf s depth pos l v p Hd H Hl c Hc. cbn [decodeList] in H. split_guards H.
    destruct (_ =? 101).
    { injection H as <- <-. inversion Hc. auto. }
    split_guards H. destruct r as [v1 p1]. split_guards H.
    eapply (IH2 _ _ _ _ _ _ _ Hd H); [|done].
    intros c' [Hc'| ->%list_elem_of_singleton]%elem_of_app; [auto|].
    eapply decode_at; [|done]. lia.
  - intros buf s depth pos l v p Hd H Hl c Hc. cbn [decodeDict] in H. split_guards H.
    destruct (_ =? 101).
    { injection H as <- <-. inversion Hc. eauto. }
    split_guards H. destruct r as [k1 p1]. destruct k1; try done. split_guards H.
    destruct r as [v1 p2]. split_guards H.
    eapply (IH3 _ _ _ _ _ _ _ Hd H); [|done].
    intros key c' [[= -> ->]|Hc']%dict_set_elem; [|eauto]. eapply decode_at; [|done]. lia.
Qed.

Lemma subvalue_at buf root v : decoded_at buf root -> subvalue root v -> decoded_at buf v.
Proof.
  intros Hroot. induction 1 as [|v c _ (fuel & depth & Hd & H) Hc]; [done|].
  by eapply (proj1 (decode_children fuel)).
Qed.

(** The span of a node, cut out of the input, decodes to the same node. *)
Lemma decoded_slice data v :
  decoded_at data v ->
  (v_start v < v_end v <= length data)%nat /\
  decodeTop (take (v_end v - v_start v) (drop (v_start v) data)) = Ok (rebase (v_start v) v).
Proof.
  intros (fuel & depth & Hd & H).
  destruct (proj1 (decode_span _) _ _ _ _ _ H) as (_ & _ & Hs). split; [done|].
  set (n := (v_end v - v_start v)%nat).
  assert (Hwin : (v_start v + n <= length data)%nat) by lia.
  rewrite <-(Nat.add_0_r (v_start v)) in H at 1.
  apply (proj1 (decode_window data (v_start v) n Hwin fuel)) with (depth' := 0) in H; [|lia|lia].
  change (take n (drop (v_start v) data)) with (window data (v_start v) n).
  by eapply decodeTop_any.
Qed.

(** Decoded integers fit 64 bits. *)
Lemma ParseInt_range s bits n :
  0 < bits -> ParseInt s bits = Some n -> - 2 ^ (bits - 1) <= n < 2 ^ (bits - 1).
Proof.
  intros Hb. unfold ParseInt. set (p := match s with [] => _ | _ => _ end). destruct p as [neg ds].
  destruct (bool_decide _); [done|]. destruct (forallb is_digit ds) eqn:Ha; [|done]. cbn [negb].
  assert (Hv : 0 <= digits_value ds).
  { unfold digits_value. assert (H0 : 0 <= 0) by lia. revert H0 Ha. generalize 0 at 2 4.
    induction ds as [|c ds IH]; intros acc Hacc Ha; [done|]. cbn [fold_left]. cbn [forallb] in Ha.
    apply andb_true_iff in Ha as [Hc Ha]. unfold is_digit in Hc. apply IH; [lia|done]. }
  destruct neg; cbn [negb andb].
  - destruct (Z.ltb_spec (2 ^ (bits - 1)) (digits_value ds)); [done|]. intros [= <-].
    pose proof (Z.pow_pos_nonneg 2 (bits - 1)). lia.
  - destruct (Z.leb_spec (2 ^ (bits - 1)) (digits_value ds)); [done|]. intros [= <-]. lia.
Qed.

Lemma decoded_int buf i s e : decoded_at buf (VInt i s e) -> is_i64 i.
Proof.
  intros (fuel & depth & _ & H). destruct fuel; [done|]. cbn [decode v_start v_end] in H.
  split_guards H. destruct (_ =? 105).
  - unfold decodeInt in H. split_guards H. injection H as -> _ _.
    apply ParseInt_range in Heqo0; [|done]. unfold is_i64, minInt64, maxInt64. change (64 - 1) with 63 in *. lia.
  - destruct (_ =? 108); [|destruct (_ =? 100)].
    + exfalso. revert H. generalize s at 1. generalize (S s). generalize (@nil value).
      induction fuel as [|fuel IH]; intros l p s0 H; [done|]. cbn [decodeList] in H.
      split_guards H. destruct (_ =? 101); [done|]. split_guards H. destruct r. split_guards H. by apply IH in H.
    + exfalso. revert H. generalize s at 1. generalize (S s). generalize (@nil (bytes * value)).
      induction fuel as [|fuel IH]; intros l p s0 H; [done|]. cbn [decodeDict] in H.
      split_guards H. destruct (_ =? 101); [done|]. split_guards H. destruct r as [[] ?]; try done.
      split_guards H. destruct r. split_guards H. by apply IH in H.
    + destruct (is_digit _); [|done]. unfold decodeBytes in H. by split_guards H.
Qed.

Lemma dict_get_elem {V} key (d : list (bytes * V)) v : dict_get key d = Some v -> (key, v) ∈ d.
Proof.
  induction d as [|[k' v'] d IH]; simpl; [done|]. destruct (decide (key = k')) as [->|].
  - intros [= ->]. left.
  - intros H%IH. by right.
Qed.

(** ** Encoding *)

Inductive tree : Type :=
| TInt (i : Z)
| TStr (b : bytes)
| TList (l : list tree)
| TDict (d : list (bytes * tree)).

Fixpoint dec_digits (fuel : nat) (n : Z) (acc : bytes) : bytes :=
  match fuel with
  | O => acc
  | S fuel =>
      if n <? 10 then (48 + n) :: acc
      else dec_digits fuel (n / 10) ((48 + n mod 10) :: acc)
  end.

(** The decimal digits of a natural number, and of an integer. *)
Definition dec (n : Z) : bytes := dec_digits (S (Z.to_nat (Z.log2 n))) n [].
Definition itoa (n : Z) : bytes := if n <? 0 then 45 :: dec (- n) else dec n.

Definition encode_str (b : bytes) : bytes := dec (Z.of_nat (length b)) ++ 58 :: b.

Fixpoint encode (t : tree) : bytes :=
  match t with
  | TInt i => 105 :: itoa i ++ [101]
  | TStr b => encode_str b
  | TList l => 108 :: concat (map encode l) ++ [101]
  | TDict d => 100 :: concat (map (fun kv => encode_str kv.1 ++ encode kv.2) d) ++ [101]
  end.

(** What a decoded node says, without the spans. *)
Fixpoint erase (v : value) : tree :=
  match v with
  | VInt i _ _ => TInt i
  | VBytes b _ _ => TStr b
  | VList l _ _ => TList (map erase l)
  | VDict d _ _ => TDict (map (fun kv => (kv.1, erase kv.2)) d)
  end.

Fixpoint height (t : tree) : Z :=
  match t with
  | TInt _ | TStr _ => 0
  | TList l => foldr (fun t h => Z.max (1 + height t) h) 0 l
  | TDict d => foldr (fun kv h => Z.max (1 + height kv.2) h) 0 d
  end.

(** Trees the decoder can represent. *)
Inductive well_formed : tree -> Prop :=
| wf_int i : is_i64 i -> well_formed (TInt i)
| wf_str b : Z.of_nat (length b) < 2 ^ 62 -> well_formed (TStr b)
| wf_list l : Z.of_nat (length l) <= maxContainerLen -> Forall well_formed l -> well_formed (TList l)
| wf_dict d : Z.of_nat (length d) <= maxContainerLen -> NoDup (map fst d) ->
    Forall (fun kv => Z.of_nat (length kv.1) < 2 ^ 62 /\ well_formed kv.2) d ->
    well_formed (TDict d).

Lemma tree_nested_ind (P : tree -> Prop) :
  (forall i, P (TInt i)) -> (forall b, P (TStr b)) ->
  (forall l, Forall P l -> P (TList l)) ->
  (forall d, Forall (fun kv => P kv.2) d -> P (TDict d)) -> forall t, P t.
Proof.
  intros Hi Hs Hl Hd. fix IH 1. intros [i|b|l|d]; [apply Hi|apply Hs|apply Hl|apply Hd].
  - induction l; constructor; [apply IH|done].
  - induction d; constructor; [apply IH|done].
Qed.

(** *** Decimal numbers *)

Lemma dec_digits_all fuel n acc :
  0 <= n -> forallb is_digit acc = true -> forallb is_digit (dec_digits fuel n acc) = true.
Proof.
  revert n acc. induction fuel as [|fuel IH]; intros n acc Hn Ha; [done|]. cbn [dec_digits].
  destruct (Z.ltb_spec n 10).
  - cbn [forallb]. rewrite Ha. unfold is_digit. lia.
  - apply IH; [apply Z.div_pos; lia|]. cbn [forallb]. rewrite Ha. unfold is_digit.
    pose proof (Z.mod_pos_bound n 10). lia.
Qed.

Lemma dec_digits_value fuel n acc :
  0 <= n -> Z.log2 n < Z.of_nat fuel ->
  fold_left (fun acc c => acc * 10 + (c - 48)) (dec_digits fuel n acc) 0
  = fold_left (fun acc c => acc * 10 + (c - 48)) acc n.
Proof.
  revert n acc. induction fuel as [|fuel IH]; intros n acc Hn Hf.
  { pose proof (Z.log2_nonneg n). lia. }
  cbn [dec_digits]. destruct (Z.ltb_spec n 10).
  - cbn [fold_left]. f_equal. lia.
  - pose proof (Z.div_mod n 10). rewrite IH; [|apply Z.div_pos; lia|].
    + cbn [fold_left]. f_equal. lia.
    + assert (Hlt : Z.log2 (n / 10) <= Z.log2 (n / 2)).
      { apply Z.log2_le_mono. apply Z.div_le_compat_l; lia. }
      assert (E : Z.log2 (n / 2) = Z.log2 n - 1).
      { change (n / 2) with (n / 2 ^ 1). rewrite <-(Z.shiftr_div_pow2 n 1) by lia. rewrite Z.log2_shiftr by lia.
        pose proof (Z.log2_le_mono 10 n). change (Z.log2 10) with 3 in *. lia. }
      lia.
Qed.

Lemma dec_all n : 0 <= n -> forallb is_digit (dec n) = true.
Proof. intros. by apply dec_digits_all. Qed.

Lemma dec_value n : 0 <= n -> digits_value (dec n) = n.
Proof. intros. unfold digits_value, dec. rewrite dec_digits_value; [done|done|lia]. Qed.

Lemma dec_nonempty n : exists c ds, dec n = c :: ds.
Proof.
  assert (H : forall fuel n acc, acc <> [] -> dec_digits fuel n acc <> []).
  { induction fuel as [|fuel IH]; intros m acc Ha; [done|]. cbn [dec_digits].
    destruct (m <? 10); [done|]. by apply IH. }
  unfold dec. cbn [dec_digits]. destruct (n <? 10); [eauto|].
  destruct (dec_digits _ _ _) as [|c ds] eqn:E; [by apply H in E|eauto].
Qed.

Lemma digit_run_app ds c rest :
  forallb is_digit ds = true -> is_digit c = false -> digit_run (ds ++ c :: rest) = length ds.
Proof.
  intros H Hc. induction ds as [|d ds IH]; simpl; [by rewrite Hc|].
  cbn [forallb] in H. bool_hyps. by rewrite H, IH.
Qed.

Lemma ParseInt_dec n bits : 0 <= n < 2 ^ (bits - 1) -> ParseInt (dec n) bits = Some n.
Proof.
  intros Hn. pose proof (dec_all n ltac:(lia)) as Ha. pose proof (dec_value n ltac:(lia)) as Hv.
  destruct (dec_nonempty n) as (c & ds & E). unfold ParseInt. rewrite E in *.
  cbn [forallb] in Ha. apply andb_true_iff in Ha as [Hc Ha]. unfold is_digit in Hc.
  destruct (Z.eqb_spec c 45); [lia|]. destruct (Z.eqb_spec c 43); [lia|].
  rewrite bool_decide_false by done. cbn [forallb]. unfold is_digit at 1. rewrite Hc, Ha, Hv.
  cbn [negb andb]. destruct (Z.leb_spec (2 ^ (bits - 1)) n); [lia|done].
Qed.

Lemma ParseInt_itoa n bits :
  - 2 ^ (bits - 1) <= n < 2 ^ (bits - 1) -> ParseInt (itoa n) bits = Some n.
Proof.
  intros Hn. unfold itoa. destruct (Z.ltb_spec n 0); [|apply ParseInt_dec; lia].
  unfold ParseInt. cbn [Z.eqb Pos.eqb].
  destruct (dec_nonempty (- n)) as (c & ds & E). rewrite bool_decide_false by congruence.
  rewrite dec_all, dec_value by lia. cbn [negb andb].
  destruct (Z.ltb_spec (2 ^ (bits - 1)) (- n)); [lia|]. f_equal. lia.
Qed.

(** *** Decoding an encoding in the middle of a buffer *)

Lemma drop_past (buf a post : bytes) pos :
  drop pos buf = a ++ post -> drop (pos + length a) buf = post.
Proof. intros H. rewrite <-drop_drop, H. apply drop_app_length. Qed.

Lemma drop_head (buf post : bytes) c pos : drop pos buf = c :: post -> buf !! pos = Some c.
Proof. intros H. rewrite <-(Nat.add_0_r pos), <-lookup_drop, H. done. Qed.

Lemma drop_tail (buf post : bytes) c pos : drop pos buf = c :: post -> drop (S pos) buf = post.
Proof. intros H. rewrite <-(Nat.add_1_r pos). apply (drop_past _ [c]). done. Qed.

Lemma drop_bound (buf l : bytes) pos : drop pos buf = l -> l <> [] -> (length l = length buf - pos)%nat.
Proof. intros <- _. by rewrite length_drop. Qed.

Lemma decodeInt_encode buf s pos n post :
  is_i64 n -> drop pos buf = 105 :: itoa n ++ 101 :: post ->
  exists p, decodeInt buf s pos = Ok (VInt n s p, p) /\ p = (pos + length (encode (TInt n)))%nat.
Proof.
  intros Hn H. pose proof (drop_tail _ _ _ _ H) as Ht.
  assert (Hlen : length (encode (TInt n)) = (2 + length (itoa n))%nat).
  { cbn [encode length]. rewrite length_app. simpl. lia. }
  rewrite Hlen. clear Hlen.
  assert (Hparse : ParseInt (itoa n) 64 = Some n).
  { apply ParseInt_itoa. unfold is_i64, minInt64, maxInt64 in Hn. change (64 - 1) with 63. lia. }
  assert (He : buf !! (S pos + length (itoa n))%nat = Some 101).
  { apply (drop_head _ post). by apply drop_past. }
  assert (Hs : take (length (itoa n)) (drop (S pos) buf) = itoa n).
  { rewrite Ht. apply take_app_length. }
  unfold decodeInt.
  set (j0 := if bool_decide _ then _ else _).
  assert (Hj : (j0 + digit_run (drop j0 buf) = S pos + length (itoa n))%nat /\ (j0 < S pos + length (itoa n))%nat).
  { unfold j0, itoa in *. destruct (Z.ltb_spec n 0).
    - destruct (dec_nonempty (- n)) as (c & ds & E).
      rewrite (drop_head _ _ _ _ Ht), bool_decide_true by done.
      cbn [length] in *. rewrite (drop_tail _ _ _ _ Ht).
      rewrite digit_run_app; [|apply dec_all; lia|done]. rewrite E. simpl. lia.
    - destruct (dec_nonempty n) as (c & ds & E). pose proof (dec_all n ltac:(lia)) as Ha.
      rewrite bool_decide_false.
      + rewrite Ht, digit_run_app by done. rewrite E. simpl. lia.
      + rewrite E in *. rewrite (drop_head _ _ _ _ Ht). intros [= ->]. done. }
  destruct Hj as [-> Hj]. destruct (Nat.eqb_spec (S pos + length (itoa n)) j0); [lia|].
  rewrite bool_decide_true by done.
  replace (S pos + length (itoa n) - S pos)%nat with (length (itoa n)) by lia.
  rewrite Hs, Hparse. eexists. split; [done|]. lia.
Qed.

Lemma decodeBytes_encode buf s pos b post :
  Z.of_nat (length b) < 2 ^ 62 -> drop pos buf = encode_str b ++ post ->
  exists p, decodeBytes buf s pos = Ok (VBytes b s p, p) /\ p = (pos + length (encode_str b))%nat.
Proof.
  intros Hb H. unfold encode_str in *. rewrite <-app_assoc in H. cbn [app] in H.
  set (n := Z.of_nat (length b)) in *. pose proof (dec_all n ltac:(lia)) as Ha.
  destruct (dec_nonempty n) as (c & ds & E).
  unfold decodeBytes. rewrite H, digit_run_app by done.
  assert (Hd : (0 < length (dec n))%nat) by (rewrite E; simpl; lia).
  destruct (Nat.eqb_spec (pos + length (dec n)) pos); [lia|].
  replace (pos + length (dec n) - pos)%nat with (length (dec n)) by lia.
  rewrite take_app_length, ParseInt_dec by (change (63 - 1) with 62; lia).
  destruct (Z.ltb_spec n 0); [lia|]. apply drop_past in H.
  rewrite (drop_head _ _ _ _ H), bool_decide_true by done. apply drop_tail in H.
  assert (Hl : (length b <= length buf - S (pos + length (dec n)))%nat).
  { rewrite <-length_drop, H, length_app. lia. }
  destruct (Z.ltb_spec (Z.of_nat (length buf - S (pos + length (dec n)))) n); [lia|].
  rewrite H. replace (S (pos + length (dec n)) + Z.to_nat n - S (pos + length (dec n)))%nat
    with (length b) by lia.
  rewrite take_app_length. eexists. split; [done|]. rewrite length_app. simpl. lia.
Qed.

(** Whatever follows, a prefix of the buffer that encodes [t] decodes to [t]. *)
Definition decodes (t : tree) : Prop :=
  forall buf depth pos post, drop pos buf = encode t ++ post -> depth + height t <= maxDecodeDepth ->
  exists fuel v p, decode fuel buf depth pos = Ok (v, p) /\
    erase v = t /\ p = (pos + length (encode t))%nat.

Lemma encode_head t : exists c r, encode t = c :: r /\ (c =? 101) = false.
Proof.
  assert (Hs : forall b, exists c r, encode_str b = c :: r /\ (c =? 101) = false).
  { intros b. unfold encode_str. destruct (dec_nonempty (Z.of_nat (length b))) as (c & ds & E).
    pose proof (dec_all (Z.of_nat (length b)) ltac:(lia)) as Ha. rewrite E in *. cbn [forallb] in Ha.
    bool_hyps. unfold is_digit in *. exists c. eexists. split; [done|]. lia. }
  destruct t; cbn [encode]; eauto.
Qed.

Lemma decode_str buf depth pos b post :
  Z.of_nat (length b) < 2 ^ 62 -> drop pos buf = encode_str b ++ post -> depth <= maxDecodeDepth ->
  decode 1 buf depth pos
  = Ok (VBytes b pos (pos + length (encode_str b)), (pos + length (encode_str b))%nat).
Proof.
  intros Hb H Hd. destruct (decodeBytes_encode buf pos pos b post Hb H) as (p & E & ->).
  cbn [decode]. destruct (Z.ltb_spec maxDecodeDepth depth); [lia|].
  unfold encode_str in H. destruct (dec_nonempty (Z.of_nat (length b))) as (c & ds & Ed).
  pose proof (dec_all (Z.of_nat (length b)) ltac:(lia)) as Ha. rewrite Ed in H, Ha.
  rewrite (drop_head _ _ _ _ H). cbn [forallb] in Ha. apply andb_true_iff in Ha as [Hc _].
  rewrite Hc. unfold is_digit in Hc. destruct (Z.eqb_spec c 105); [lia|].
  destruct (Z.eqb_spec c 108); [lia|]. destruct (Z.eqb_spec c 100); [lia|]. done.
Qed.

Lemma decodeList_encode l : forall buf s depth pos acc post,
  Forall decodes l -> drop pos buf = concat (map encode l) ++ 101 :: post ->
  (forall t, t ∈ l -> depth + 1 + height t <= maxDecodeDepth) ->
  Z.of_nat (length acc + length l) <= maxContainerLen ->
  exists fuel v p, decodeList fuel buf s depth pos acc = Ok (v, p) /\
    erase v = TList (map erase acc ++ l) /\ p = (pos + length (concat (map encode l)) + 1)%nat.
Proof.
  induction l as [|t l IH]; intros buf s depth pos acc post Hdec H Hh Hlen.
  - exists 1%nat. cbn [decodeList]. rewrite (drop_head _ _ _ _ H). eexists _, _.
    split; [done|]. cbn [erase]. rewrite app_nil_r. simpl. split; [done|lia].
  - apply list.Forall_cons in Hdec as [Ht Hdec]. cbn [map concat] in H. rewrite <-app_assoc in H.
    destruct (Ht buf (depth + 1) pos _ H) as (f1 & v & p & Hv & Ev & ->); [apply Hh; left|].
    destruct (IH buf s depth (pos + length (encode t))%nat (acc ++ [v]) post) as (f2 & v' & p' & Hv' & Ev' & ->).
    { done. } { by apply drop_past. } { intros t' Ht'. apply Hh. by right. }
    { rewrite length_app. simpl in *. lia. }
    exists (S (f1 + f2)). cbn [decodeList]. destruct (encode_head t) as (c & r & E & Hc).
    rewrite E in H. rewrite (drop_head _ _ _ _ H), Hc.
    rewrite (proj1 (decode_mono f1)) by (try lia; by rewrite Hv). rewrite Hv. cbn [rbind].
    rewrite length_app. cbn [length]. simpl in Hlen.
    destruct (Z.ltb_spec maxContainerLen (Z.of_nat (length acc + 1))); [lia|].
    rewrite (proj1 (proj2 (decode_mono f2))) by (try lia; by rewrite Hv'). rewrite Hv'.
    eexists _, _. split; [done|]. rewrite Ev', map_app, <-app_assoc. cbn [map app]. rewrite Ev.
    split; [done|]. cbn [concat map]. rewrite length_app. lia.
Qed.

Lemma dict_set_fresh {V} key (v : V) d : key ∉ map fst d -> dict_set key v d = d ++ [(key, v)].
Proof.
  induction d as [|[k' v'] d IH]; intros H; [done|]. simpl.
  destruct (decide (key = k')) as [->|]; [set_solver|]. f_equal. apply IH. set_solver.
Qed.

Definition encode_entry (kv : bytes * tree) : bytes := encode_str kv.1 ++ encode kv.2.
Definition erase_entry (kv : bytes * value) : bytes * tree := (kv.1, erase kv.2).

Lemma decodeDict_encode d : forall buf s depth pos acc post,
  Forall (fun kv => Z.of_nat (length kv.1) < 2 ^ 62 /\ decodes kv.2) d ->
  NoDup (map fst acc ++ map fst d) ->
  drop pos buf = concat (map encode_entry d) ++ 101 :: post ->
  (forall kv, kv ∈ d -> depth + 1 <= depth + 1 + height kv.2 <= maxDecodeDepth) ->
  Z.of_nat (length acc + length d) <= maxContainerLen ->
  exists fuel v p, decodeDict fuel buf s depth pos acc = Ok (v, p) /\
    erase v = TDict (map erase_entry acc ++ d) /\
    p = (pos + length (concat (map encode_entry d)) + 1)%nat.
Proof.
  induction d as [|[key t] d IH]; intros buf s depth pos acc post Hdec Hnd H Hh Hlen.
  - exists 1%nat. cbn [decodeDict]. rewrite (drop_head _ _ _ _ H). eexists _, _.
    split; [done|]. cbn [erase]. rewrite app_nil_r. simpl. split; [done|lia].
  - apply list.Forall_cons in Hdec as [[Hk Ht] Hdec]. cbn [fst snd] in Hk, Ht.
    cbn [map concat encode_entry fst snd] in H. unfold encode_entry at 1 in H. cbn [fst snd] in H.
    rewrite <-!app_assoc in H. cbn [map] in Hnd.
    pose proof (Hh (key, t) ltac:(left)) as Hd. cbn [snd] in Hd.
    pose proof (decode_str buf (depth + 1) pos key _ Hk H ltac:(lia)) as Ek.
    pose proof (drop_past _ _ _ _ H) as H1.
    destruct (Ht buf (depth + 1) _ _ H1) as (f1 & v & p & Hv & Ev & ->); [lia|].
    assert (Hfresh : key ∉ map fst acc).
    { intros Hin. apply NoDup_app in Hnd as (_ & Hnd & _). apply (Hnd key Hin). left. }
    destruct (IH buf s depth (pos + length (encode_str key) + length (encode t))%nat (acc ++ [(key, v)]) post)
      as (f2 & v' & p' & Hv' & Ev' & ->).
    { done. } { by rewrite map_app, <-app_assoc. } { by apply drop_past. }
    { intros t' Ht'. apply Hh. by right. } { rewrite length_app. simpl in *. lia. }
    exists (S (1 + f1 + f2)). cbn [decodeDict].
    assert (Hc : exists c r, encode_str key = c :: r /\ (c =? 101) = false) by apply (encode_head (TStr key)).
    destruct Hc as (c & r & E & Hc).
    rewrite E in H. rewrite (drop_head _ _ _ _ H), Hc.
    rewrite (proj1 (decode_mono 1)) by (try lia; by rewrite Ek). rewrite Ek. cbn [rbind].
    rewrite (proj1 (decode_mono f1)) by (try lia; by rewrite Hv). rewrite Hv. cbn [rbind].
    rewrite dict_set_fresh by done. rewrite length_app. cbn [length]. simpl in Hlen.
    destruct (Z.ltb_spec maxContainerLen (Z.of_nat (length acc + 1))); [lia|].
    rewrite (proj2 (proj2 (decode_mono f2))) by (try lia; by rewrite Hv'). rewrite Hv'.
    eexists _, _. split; [done|]. rewrite Ev', map_app, <-app_assoc. cbn [map app].
    unfold erase_entry at 2. cbn [fst snd]. rewrite Ev.
    split; [done|]. cbn [concat map]. unfold encode_entry at 2. rewrite !length_app. simpl. lia.
Qed.

Lemma height_nonneg t : 0 <= height t.
Proof. destruct t as [| |l|d]; cbn [height]; [lia|lia| |]; [induction l|induction d]; simpl; lia. Qed.

Lemma list_height t l : t ∈ l -> 1 + height t <= height (TList l).
Proof.
  cbn [height]. induction l as [|t' l IH]; [by intros ?%not_elem_of_nil|].
  intros [->|H]%elem_of_cons; simpl; [lia|]. apply IH in H. lia.
Qed.

Lemma dict_height kv d : kv ∈ d -> 1 + height kv.2 <= height (TDict d).
Proof.
  cbn [height]. induction d as [|t' d IH]; [by intros ?%not_elem_of_nil|].
  intros [->|H]%elem_of_cons; simpl; [lia|]. apply IH in H. lia.
Qed.

Lemma encode_decodes t : well_formed t -> decodes t.
Proof.
  induction t as [i|b|l IH|d IH] using tree_nested_ind; intros Hwf;
    inversion Hwf as [? Hi|? Hb|? Hlen Hall|? Hlen Hnd Hall]; subst; intros buf depth pos post H Hd.
  - cbn [encode app] in H. rewrite <-app_assoc in H.
    destruct (decodeInt_encode buf pos pos i post ltac:(done) H) as (p & E & ->).
    exists 1%nat. cbn [decode]. cbn [height] in Hd.
    destruct (Z.ltb_spec maxDecodeDepth depth); [lia|]. rewrite (drop_head _ _ _ _ H).
    cbn [Z.eqb Pos.eqb]. rewrite E. by eexists _, _.
  - exists 1%nat. eexists _, _. split; [|split; [|reflexivity]].
    + apply (decode_str _ _ _ _ post); [done|done|]. cbn [height] in Hd. lia.
    + done.
  - cbn [encode app] in H. rewrite <-app_assoc in H. cbn [app] in H.
    destruct (decodeList_encode l buf pos depth (S pos) [] post) as (f & v & p & E & Ev & ->).
    { rewrite list.Forall_forall in *. intros x Hx. by apply IH, Hall. }
    { by apply drop_tail in H. } { intros t Ht%list_height. lia. } { done. }
    exists (S f), v. eexists. cbn [decode].
    pose proof (height_nonneg (TList l)).
    destruct (Z.ltb_spec maxDecodeDepth depth); [lia|].
    rewrite (drop_head _ _ _ _ H). cbn [Z.eqb Pos.eqb]. split; [exact E|]. split; [done|].
    cbn [encode length]. rewrite length_app. simpl. lia.
  - cbn [encode app] in H. rewrite <-app_assoc in H. cbn [app] in H.
    destruct (decodeDict_encode d buf pos depth (S pos) [] post) as (f & v & p & E & Ev & ->).
    { rewrite list.Forall_forall in *. intros x Hx. destruct (Hall x Hx). split; [done|]. by apply IH. }
    { done. } { by apply drop_tail in H. }
    { intros kv Ht. pose proof (height_nonneg kv.2). apply dict_height in Ht. lia. } { done. }
    exists (S f), v. eexists. cbn [decode].
    pose proof (height_nonneg (TDict d)).
    destruct (Z.ltb_spec maxDecodeDepth depth); [lia|].
    rewrite (drop_head _ _ _ _ H). cbn [Z.eqb Pos.eqb]. split; [exact E|]. split; [done|].
    cbn [encode length]. rewrite length_app. simpl. change (fun kv => encode_str kv.1 ++ encode kv.2) with encode_entry. lia.
Qed.

(** ** What the decoder promises *)

(** C14. Decoding inverts encoding: every tree with 64-bit integers, distinct
    dictionary keys, containers of at most 200000 entries and at most 64 levels
    below the root comes back from the decoder unchanged, and bytes after the
    encoding do not matter. *)
Theorem decode_encode t rest :
  well_formed t -> height t <= maxDecodeDepth ->
  exists v, decodeTop (encode t ++ rest) = Ok v /\ erase v = t /\
    v_start v = 0%nat /\ v_end v = length (encode t).
Proof.
  intros Hwf Hh.
  destruct (encode_decodes t Hwf (encode t ++ rest) 0 0%nat rest) as (f & v & p & E & Ev & ->);
    [done|lia|].
  exists v. destruct (proj1 (decode_span _) _ _ _ _ _ E) as (E1 & E2 & _).
  split_and!; [by eapply decodeTop_any|done|done|done].
Qed.

Definition sample_tree : tree :=
  TDict [([97], TInt (-7)); ([98], TList [TStr [120; 121]; TInt 40])].

Lemma sample_well_formed : well_formed sample_tree.
Proof.
  apply wf_dict; [done| |].
  - repeat constructor; set_solver.
  - repeat constructor; unfold is_i64, minInt64, maxInt64, maxContainerLen; simpl; lia.
Qed.

Lemma decode_encode_witness :
  exists v, decodeTop (encode sample_tree ++ [0; 0]) = Ok v /\ erase v = sample_tree.
Proof.
  destruct (decode_encode sample_tree [0; 0] sample_well_formed) as (v & H1 & H2 & _).
  - unfold maxDecodeDepth. simpl. lia.
  - exists v. split; [exact H1|exact H2].
Defined.

(** The decoder always answers, and the span it records for any node of
    its answer, at any depth, is exactly that node's encoding: it is a non-empty
    range inside the input, and those bytes alone decode to the same node.  The
    info hash is the digest of such a span. *)
Theorem spans_verbatim data :
  decodeTop data <> Err OutOfFuel /\
  forall root v, decodeTop data = Ok root -> subvalue root v ->
    (v_start v < v_end v <= length data)%nat /\
    decodeTop (take (v_end v - v_start v) (drop (v_start v) data)) = Ok (rebase (v_start v) v).
Proof.
  split.
  - unfold decodeTop. pose proof (proj1 (decode_enough (decode_fuel data)) data 0 0%nat) as H.
    destruct (decode _ _ _ _) as [[]|]; [done|]. cbn [rbind]. intros [= ->].
    apply H; [unfold decode_fuel; lia|done].
  - intros root v H Hsub. apply decoded_slice. apply (subvalue_at data root); [|done].
    unfold decodeTop in H. apply rbind_ok in H as ([r p] & H & [= <-]). by eapply decode_at.
Qed.

Definition sample_bytes : bytes :=
  [100; 49; 58; 97; 105; 45; 55; 101; 49; 58; 98; 108; 50; 58; 120; 121; 101; 101].
Definition sample_list : value := VList [VBytes [120; 121] 12 16] 11 17.
Definition sample_root : value := VDict [([97], VInt (-7) 4 8); ([98], sample_list)] 0 18.

Lemma spans_verbatim_witness :
  decodeTop [108; 50; 58; 120; 121; 101] = Ok (VList [VBytes [120; 121] 1 5] 0 6).
Proof.
  destruct (spans_verbatim sample_bytes) as [_ H].
  destruct (H sample_root sample_list) as [_ E]; [reflexivity| |exact E].
  apply (sub_child _ sample_root); [apply sub_root|].
  apply child_dict with (key := [98]). right. left.
Defined.
