(* ===== verification/Torrentmeta.v ===== *)
(** The .torrent parser of internal/torrentmeta/torrentmeta.go, on top of the
    bencode decoder.

    SHA-1 and SHA-256 are parameters: the parser only copies their digests.
    The iteration over the [piece layers] map follows the list that models it;
    Go's order is unspecified and only chooses which of two errors is reported. *)

From Stdlib Require Import ZArith Lia.
From stdpp Require Import base list numbers strings sets.
From S2P Require Import Prelude Bencode.

Local Open Scope Z_scope.
Local Open Scope harbor_scope.

Definition maxTorrentBytes : Z := Z.shiftl 16 20.
Definition maxFileEntries : Z := 100000.

Record FileEntry := MkFileEntry {
  Path : bytes;
  Size : Z;
  StartOffset : Z;
  EndOffset : Z
}.

#[export] Instance FileEntry_eq_dec : EqDecision FileEntry.
Proof. solve_decision. Defined.

Record TorrentMeta := MkTorrentMeta {
  Name : bytes;
  InfoHashV1 : bytes;
  InfoHashV2 : bytes;
  MetaVersion : Z;
  PieceLength : Z;
  Files : list FileEntry;
  PieceHashesV1 : bytes;
  V2MerkleRoots : list (bytes * bytes);
  PieceLayers : list (bytes * bytes)
}.

(** ** Errors *)

Inductive segment_error : Type := EmptySegment | InvalidSegment | EmptyPath.

Inductive torrent_error : Type :=
| EmptyInput
| InputTooLarge
| DecodeError (e : bencode_error)
| RootNotDict
| MissingInfo
| NameNotString
| NameError (e : segment_error)
| BadPieceLength
| BadMetaVersion
| BadPieces
| FileTreeNotDict
| FilesNotList
| TooManyFiles
| BadLengthField
| MissingName
| NoFileField
| FileEntryNotDict
| FileEntryLength
| FileEntryPath
| SegmentNotString
| PathError (e : segment_error)
| NodeNotDict
| LeafLength
| BadPiecesRoot
| TreeSegment (e : segment_error)
| PieceLayersNotDict
| PieceLayersKey
| PieceLayersValue
| NoInfoHash
| NoFiles.

(** ** Path segments *)

(** The UTF-8 encodings of the characters [unicode.IsSpace] accepts. *)
Definition space_encodings : list bytes :=
  [[9]; [10]; [11]; [12]; [13]; [32]; [194; 133]; [194; 160]; [225; 154; 128];
   [226; 128; 168]; [226; 128; 169]; [226; 128; 175]; [226; 129; 159]; [227; 128; 128]]
  ++ map (fun c => [226; 128; c]) (seqZ 128 11).

Fixpoint strip_prefix (p l : bytes) : option bytes :=
  match p, l with
  | [], _ => Some l
  | x :: p, y :: l => if x =? y then strip_prefix p l else None
  | _ :: _, [] => None
  end.

(** The rest of [l] after the first of [encs] it starts with. *)
Fixpoint strip_one (encs : list bytes) (l : bytes) : option bytes :=
  match encs with
  | [] => None
  | e :: encs =>
      match strip_prefix e l with
      | Some l' => Some l'
      | None => strip_one encs l
      end
  end.

Fixpoint strip_all (fuel : nat) (encs : list bytes) (l : bytes) : bytes :=
  match fuel with
  | O => l
  | S fuel =>
      match strip_one encs l with
      | Some l' => strip_all fuel encs l'
      | None => l
      end
  end.

(** [strings.TrimSpace]. *)
Definition TrimLeft (s : bytes) : bytes := strip_all (length s) space_encodings s.
Definition TrimRight (s : bytes) : bytes :=
  rev (strip_all (length s) (map (@rev Z) space_encodings) (rev s)).
Definition TrimSpace (s : bytes) : bytes := TrimRight (TrimLeft s).

Definition sanitizeSegment (seg : bytes) : result segment_error bytes :=
  let seg := TrimSpace seg in
  if bool_decide (seg = []) then Err EmptySegment
  else if bool_decide (seg = str ".") || bool_decide (seg = str "..") then Err InvalidSegment
  else if bool_decide (47 ∈ seg) || bool_decide (92 ∈ seg) || bool_decide (0 ∈ seg)
  then Err InvalidSegment
  else Ok seg.

Fixpoint sanitize_loop (segs clean : list bytes) : result segment_error (list bytes) :=
  match segs with
  | [] => Ok clean
  | seg :: segs =>
      let? s := sanitizeSegment seg in
      sanitize_loop segs (clean ++ [s])
  end.

(** [strings.Join(_, "/")]. *)
Fixpoint join_slash (segs : list bytes) : bytes :=
  match segs with
  | [] => []
  | [s] => s
  | s :: segs => s ++ 47 :: join_slash segs
  end.

Definition sanitizePathSegments (segs : list bytes) : result segment_error bytes :=
  if bool_decide (segs = []) then Err EmptyPath
  else
    let? clean := sanitize_loop segs [] in
    Ok (join_slash clean).

(** Change the error of a result, as [fmt.Errorf] with [%w] does. *)
Definition map_err {E F A} (f : E -> F) (c : result E A) : result F A :=
  match c with Ok a => Ok a | Err e => Err (f e) end.

(** ** Fields *)

(** The map of a node; the map of any other node than a dict is nil. *)
Definition dict_of (v : value) : list (bytes * value) :=
  match v with VDict d _ _ => d | _ => [] end.

Definition field (v : value) (key : string) : option value := dict_get (str key) (dict_of v).

Definition fieldPresent (v : value) (key : string) : bool :=
  match field v key with Some _ => true | None => false end.

(** [!ok || v.kind != kInt || v.i < 0], negated. *)
Definition nonneg_int (v : option value) : option Z :=
  match v with
  | Some (VInt i _ _) => if i <? 0 then None else Some i
  | _ => None
  end.

(** ** The v1 files list *)

Fixpoint string_segments (l : list value) (segs : list bytes) : result torrent_error (list bytes) :=
  match l with
  | [] => Ok segs
  | VBytes b _ _ :: l => string_segments l (segs ++ [b])
  | _ :: _ => Err SegmentNotString
  end.

Fixpoint parseV1_loop (l : list value) (name : bytes) (offset : Z) (files : list FileEntry)
    : result torrent_error (list FileEntry) :=
  match l with
  | [] => Ok files
  | fv :: l =>
      match fv with
      | VDict _ _ _ =>
          match nonneg_int (field fv "length") with
          | None => Err FileEntryLength
          | Some len =>
              match field fv "path" with
              | Some (VList (seg :: segs0) _ _) =>
                  let segs := if bool_decide (name = []) then [] else [name] in
                  let? segs := string_segments (seg :: segs0) segs in
                  let? path := map_err PathError (sanitizePathSegments segs) in
                  parseV1_loop l name (i64 (offset + len))
                    (files ++ [MkFileEntry path len offset (i64 (offset + len))])
              | _ => Err FileEntryPath
              end
          end
      | _ => Err FileEntryNotDict
      end
  end.

Definition parseV1FilesList (l : list value) (name : bytes) : result torrent_error (list FileEntry) :=
  parseV1_loop l name 0 [].

(** ** The v2 file tree *)

Record v2Leaf := MkV2Leaf { l_path : bytes; l_size : Z; l_root : bytes }.

(** [sort.Strings] on the keys of a map, each with what it maps to. *)
Fixpoint insert_entry {V} (kv : bytes * V) (l : list (bytes * V)) : list (bytes * V) :=
  match l with
  | [] => [kv]
  | kv' :: l => if str_ltb kv'.1 kv.1 then kv' :: insert_entry kv l else kv :: kv' :: l
  end.
Definition sort_entries {V} (l : list (bytes * V)) : list (bytes * V) := foldr insert_entry [] l.

Definition tree_leaf (child : value) (prefix : list bytes) : result torrent_error (list v2Leaf) :=
  match nonneg_int (field child "length") with
  | None => Err LeafLength
  | Some len =>
      let? path := map_err PathError (sanitizePathSegments prefix) in
      match field child "pieces root" with
      | None => Ok [MkV2Leaf path len []]
      | Some (VBytes b _ _) =>
          if (length b =? 32)%nat then Ok [MkV2Leaf path len (hex_encode b)] else Err BadPiecesRoot
      | Some _ => Err BadPiecesRoot
      end
  end.

(** Concatenate the leaves of the children, stopping at the first error. *)
Fixpoint collect {A} (rs : list (bytes * result torrent_error (list A))) : result torrent_error (list A) :=
  match rs with
  | [] => Ok []
  | (_, r) :: rs =>
      let? here := r in
      let? rest := collect rs in
      Ok (here ++ rest)
  end.

(** The children are walked first and their results taken in key order; the
    walk of one has no effect on the others. *)
Fixpoint walkFileTreeLeaves (node : value) (prefix : list bytes) : result torrent_error (list v2Leaf) :=
  match node with
  | VDict d _ _ =>
      collect (sort_entries (map (fun kv =>
        (kv.1,
         if bool_decide (kv.1 = []) then tree_leaf kv.2 prefix
         else
           let? _ := map_err TreeSegment (sanitizeSegment kv.1) in
           walkFileTreeLeaves kv.2 (prefix ++ [kv.1]))) d))
  | _ => Err NodeNotDict
  end.

Fixpoint tree_files (leaves : list v2Leaf) (offset : Z) (files : list FileEntry) : list FileEntry :=
  match leaves with
  | [] => files
  | l :: leaves =>
      tree_files leaves (i64 (offset + l_size l))
        (files ++ [MkFileEntry (l_path l) (l_size l) offset (i64 (offset + l_size l))])
  end.

Fixpoint merkle_roots (leaves : list v2Leaf) (roots : list (bytes * bytes)) : list (bytes * bytes) :=
  match leaves with
  | [] => roots
  | l :: leaves =>
      merkle_roots leaves
        (if bool_decide (l_root l = []) then roots else dict_set (l_path l) (l_root l) roots)
  end.

Fixpoint piece_layers (d : list (bytes * value)) (layers : list (bytes * bytes))
    : result torrent_error (list (bytes * bytes)) :=
  match d with
  | [] => Ok layers
  | (k, v) :: d =>
      if negb (length k =? 32)%nat then Err PieceLayersKey
      else
        match v with
        | VBytes b _ _ =>
            if (length b =? 0)%nat || negb (length b mod 32 =? 0)%nat then Err PieceLayersValue
            else piece_layers d (dict_set (hex_encode k) b layers)
        | _ => Err PieceLayersValue
        end
  end.

(** ** Parse *)

Section Parse.
Context (sha1 sha256 : bytes -> bytes).

Definition parse_name (info : value) : result torrent_error bytes :=
  match field info "name" with
  | None => Ok []
  | Some (VBytes b _ _) => map_err NameError (sanitizeSegment b)
  | Some _ => Err NameNotString
  end.

Definition parse_piece_length (info : value) : result torrent_error Z :=
  match field info "piece length" with
  | Some (VInt i _ _) => if i <=? 0 then Err BadPieceLength else Ok i
  | _ => Err BadPieceLength
  end.

Definition parse_meta_version (info : value) : result torrent_error Z :=
  match field info "meta version" with
  | None => Ok 1
  | Some (VInt i _ _) => Ok i
  | Some _ => Err BadMetaVersion
  end.

(** [PieceHashesV1] and [InfoHashV1]. *)
Definition parse_pieces (info : value) (rawInfo : bytes) : result torrent_error (bytes * bytes) :=
  match field info "pieces" with
  | None => Ok ([], [])
  | Some (VBytes b _ _) =>
      if (length b =? 0)%nat || negb (length b mod 20 =? 0)%nat then Err BadPieces
      else Ok (b, hex_encode (sha1 rawInfo))
  | Some _ => Err BadPieces
  end.

Definition parse_files (info : value) (name : bytes) : result torrent_error (list FileEntry) :=
  match field info "files" with
  | Some filesVal =>
      match filesVal with
      | VList l _ _ =>
          if maxFileEntries <? Z.of_nat (length l) then Err TooManyFiles
          else parseV1FilesList l name
      | _ => Err FilesNotList
      end
  | None =>
      match field info "length" with
      | Some lengthVal =>
          match nonneg_int (Some lengthVal) with
          | None => Err BadLengthField
          | Some len =>
              if bool_decide (name = []) then Err MissingName
              else Ok [MkFileEntry name len 0 len]
          end
      | None =>
          match field info "file tree" with
          | Some fileTree =>
              let? leaves := walkFileTreeLeaves fileTree [] in
              if maxFileEntries <? Z.of_nat (length leaves) then Err TooManyFiles
              else Ok (tree_files leaves 0 [])
          | None => Err NoFileField
          end
      end
  end.

Definition parse_roots (info : value) : result torrent_error (list (bytes * bytes)) :=
  match field info "file tree" with
  | None => Ok []
  | Some fileTree =>
      let? leaves := walkFileTreeLeaves fileTree [] in
      Ok (merkle_roots leaves [])
  end.

Definition parse_layers (info : value) : result torrent_error (list (bytes * bytes)) :=
  match field info "piece layers" with
  | None => Ok []
  | Some (VDict d _ _) => piece_layers d []
  | Some _ => Err PieceLayersNotDict
  end.

Definition is_dict (v : value) : bool := match v with VDict _ _ _ => true | _ => false end.

Definition Parse (data : bytes) : result torrent_error TorrentMeta :=
  if (length data =? 0)%nat then Err EmptyInput
  else if maxTorrentBytes <? Z.of_nat (length data) then Err InputTooLarge
  else
    let? root := map_err DecodeError (decodeTop data) in
    if negb (is_dict root) then Err RootNotDict
    else
      match field root "info" with
      | None => Err MissingInfo
      | Some info =>
          if negb (is_dict info) then Err MissingInfo
          else
            let rawInfo := take (v_end info - v_start info) (drop (v_start info) data) in
            let? name := parse_name info in
            let? pieceLength := parse_piece_length info in
            let? metaVersion := parse_meta_version info in
            let? (pieces, hashV1) := parse_pieces info rawInfo in
            let hasFileTree := fieldPresent info "file tree" in
            if hasFileTree && negb (match field info "file tree" with Some t => is_dict t | None => false end)
            then Err FileTreeNotDict
            else
              let v2 := (metaVersion =? 2) || hasFileTree in
              let hashV2 := if v2 then hex_encode (sha256 rawInfo) else [] in
              let? files := parse_files info name in
              let? roots := parse_roots info in
              let? layers := parse_layers info in
              if bool_decide (hashV1 = []) && bool_decide (hashV2 = []) then Err NoInfoHash
              else if (length files =? 0)%nat then Err NoFiles
              else Ok (MkTorrentMeta name hashV1 hashV2 (if v2 then 2 else 1) pieceLength files
                         pieces roots layers)
      end.

End Parse.

(** ** Paths stay inside their root *)

Definition clean_segment (s : bytes) : Prop :=
  s <> [] /\ s <> str "." /\ s <> str ".." /\ 47 ∉ s /\ 92 ∉ s /\ 0 ∉ s.

(** A path cut at its slashes, as the code that uses it would cut it. *)
Fixpoint split_slash (p : bytes) : list bytes :=
  match p with
  | [] => [[]]
  | c :: p =>
      if c =? 47 then [] :: split_slash p
      else
        match split_slash p with
        | s :: segs => (c :: s) :: segs
        | [] => [[c]]
        end
  end.

Definition clean_path (p : bytes) : Prop := Forall clean_segment (split_slash p).

Lemma sanitizeSegment_clean seg s : sanitizeSegment seg = Ok s -> clean_segment s.
Proof.
  unfold sanitizeSegment. intros H. split_guards H. injection H as <-.
  bool_hyps. by unfold clean_segment.
Qed.

Lemma split_slash_one s : 47 ∉ s -> split_slash s = [s].
Proof.
  induction s as [|c s IH]; [done|]. intros H. simpl. destruct (Z.eqb_spec c 47); [set_solver|].
  rewrite IH by set_solver. done.
Qed.

Lemma split_slash_cons s p : 47 ∉ s -> split_slash (s ++ 47 :: p) = s :: split_slash p.
Proof.
  induction s as [|c s IH]; [done|]. intros H. simpl. destruct (Z.eqb_spec c 47); [set_solver|].
  rewrite IH by set_solver. done.
Qed.

Lemma split_join segs :
  segs <> [] -> Forall clean_segment segs -> split_slash (join_slash segs) = segs.
Proof.
  induction segs as [|s segs IH]; [done|]. intros _ H.
  apply list.Forall_cons in H as [(_ & _ & _ & Hs & _) H]. cbn [join_slash].
  destruct segs as [|s' segs]; [by apply split_slash_one|].
  rewrite split_slash_cons by done. f_equal. by apply IH.
Qed.

Lemma sanitize_loop_clean segs clean clean' :
  Forall clean_segment clean -> sanitize_loop segs clean = Ok clean' ->
  Forall clean_segment clean' /\ length clean' = (length clean + length segs)%nat.
Proof.
  revert clean. induction segs as [|seg segs IH]; intros clean Hc H; cbn [sanitize_loop] in H.
  - injection H as <-. simpl. auto.
  - split_guards H. apply sanitizeSegment_clean in Hr. apply IH in H as [H Hl].
    + split; [done|]. rewrite Hl, length_app. simpl. lia.
    + apply Forall_app. split; [done|]. by constructor.
Qed.

Lemma sanitizePath_clean segs p : sanitizePathSegments segs = Ok p -> clean_path p.
Proof.
  unfold sanitizePathSegments. intros H. split_guards H. injection H as <-.
  apply sanitize_loop_clean in Hr as [Hr Hl]; [|done]. unfold clean_path.
  bool_hyps. rewrite split_join; [done| |done]. intros ->. destruct segs; [done|]. simpl in Hl. lia.
Qed.

Lemma map_err_ok {E F A} (f : E -> F) (c : result E A) a : map_err f c = Ok a <-> c = Ok a.
Proof. destruct c; simpl; naive_solver. Qed.

(** ** Extents *)

(** Files laid end to end from [offset], in wrapping 64-bit arithmetic. *)
Fixpoint laid_out (offset : Z) (files : list FileEntry) : Prop :=
  match files with
  | [] => True
  | f :: files =>
      0 <= Size f /\ StartOffset f = i64 offset /\ EndOffset f = i64 (offset + Size f) /\
      laid_out (offset + Size f) files
  end.

Definition total (files : list FileEntry) : Z := foldr (fun f n => Size f + n) 0 files.

Lemma laid_out_app offset f1 f2 :
  laid_out offset (f1 ++ f2) <-> laid_out offset f1 /\ laid_out (offset + total f1) f2.
Proof.
  revert offset. induction f1 as [|f f1 IH]; intros offset; simpl.
  - rewrite Z.add_0_r. tauto.
  - rewrite IH, Z.add_assoc. tauto.
Qed.

Lemma total_app f1 f2 : total (f1 ++ f2) = total f1 + total f2.
Proof. induction f1; simpl; lia. Qed.

(** One more entry at the end of files that are laid out. *)
Lemma laid_out_snoc files path len :
  laid_out 0 files -> 0 <= len ->
  laid_out 0 (files ++ [MkFileEntry path len (i64 (total files)) (i64 (i64 (total files) + len))]) /\
  i64 (i64 (total files) + len) = i64 (total (files ++ [MkFileEntry path len (i64 (total files)) (i64 (i64 (total files) + len))])).
Proof.
  intros H Hl. rewrite laid_out_app, total_app, i64_add. cbn [laid_out Size StartOffset EndOffset total foldr].
  rewrite ?Z.add_0_r, ?Z.add_0_l. by split_and!.
Qed.

Lemma nonneg_int_some v i : nonneg_int v = Some i -> 0 <= i.
Proof.
  unfold nonneg_int. destruct v as [[| | |]|]; try done.
  destruct (Z.ltb_spec i0 0); [done|]. by intros [= <-].
Qed.

Lemma parseV1_loop_ok l name files files' :
  laid_out 0 files -> Forall (fun f => clean_path (Path f)) files ->
  parseV1_loop l name (i64 (total files)) files = Ok files' ->
  laid_out 0 files' /\ Forall (fun f => clean_path (Path f)) files' /\
  length files' = (length files + length l)%nat.
Proof.
  revert files. induction l as [|fv l IH]; intros files Hl Hc H; cbn [parseV1_loop] in H.
  { injection H as <-. simpl. auto. }
  destruct fv as [| | |d s e]; try done.
  destruct (nonneg_int _) as [len|] eqn:En; [|done]. apply nonneg_int_some in En.
  destruct (field _ "path") as [[| |segs| ]|]; try done. destruct segs as [|seg segs]; [done|].
  split_guards H. apply map_err_ok, sanitizePath_clean in Hr0.
  destruct (laid_out_snoc files r0 len Hl En) as [H1 H2]. rewrite H2 in H at 1.
  apply IH in H as (? & ? & Hlen); [split_and!; try done| |].
  - rewrite Hlen, length_app. simpl. lia.
  - exact H1.
  - apply Forall_app. split; [done|]. by constructor.
Qed.

Definition good_leaf (l : v2Leaf) : Prop := clean_path (l_path l) /\ 0 <= l_size l.

Lemma collect_ok {A} (P : A -> Prop) rs l :
  (forall kr la, kr ∈ rs -> kr.2 = Ok la -> Forall P la) -> collect rs = Ok l -> Forall P l.
Proof.
  revert l. induction rs as [|[k r] rs IH]; intros l Hr H; cbn [collect] in H.
  - by injection H as <-.
  - split_guards H. injection H as <-. apply Forall_app. split.
    + eapply (Hr (k, r)); [left|done].
    + apply IH; [|done]. intros kr la Hin. apply Hr. by right.
Qed.

Lemma insert_entry_perm {V} (kv : bytes * V) l : insert_entry kv l ≡ₚ kv :: l.
Proof.
  induction l as [|kv' l IH]; simpl; [done|]. destruct (str_ltb _ _); [|done].
  rewrite IH. by constructor.
Qed.

Lemma sort_entries_perm {V} (l : list (bytes * V)) : sort_entries l ≡ₚ l.
Proof.
  induction l as [|kv l IH]; simpl; [done|].
  change (insert_entry kv (sort_entries l) ≡ₚ kv :: l). by rewrite insert_entry_perm, IH.
Qed.

Lemma tree_leaf_good child prefix ls : tree_leaf child prefix = Ok ls -> Forall good_leaf ls.
Proof.
  unfold tree_leaf. intros H. destruct (nonneg_int _) as [len|] eqn:En; [|done].
  apply nonneg_int_some in En. split_guards H. apply map_err_ok, sanitizePath_clean in Hr.
  destruct (field _ _) as [[|b ? ?| |]|]; try done; [destruct (_ =? _)%nat; [|done]|];
    injection H as <-; constructor; done.
Qed.

Lemma value_nested_ind (P : value -> Prop) :
  (forall i s e, P (VInt i s e)) -> (forall b s e, P (VBytes b s e)) ->
  (forall l s e, P (VList l s e)) ->
  (forall d s e, Forall (fun kv => P kv.2) d -> P (VDict d s e)) -> forall v, P v.
Proof.
  intros Hi Hs Hl Hd. fix IH 1. intros [i s e|b s e|l s e|d s e]; [apply Hi|apply Hs|apply Hl|apply Hd].
  induction d; constructor; [apply IH|done].
Qed.

Lemma walk_good node prefix ls : walkFileTreeLeaves node prefix = Ok ls -> Forall good_leaf ls.
Proof.
  revert prefix ls. induction node as [| | |d s e IH] using value_nested_ind; try done.
  intros prefix ls H. cbn [walkFileTreeLeaves] in H. eapply collect_ok; [|exact H].
  intros kr la Hin. rewrite sort_entries_perm in Hin.
  apply list_elem_of_fmap in Hin as (kv & -> & Hkv). cbn [snd].
  destruct (bool_decide _); [apply tree_leaf_good|].
  intros (? & _ & Hw)%rbind_ok. rewrite list.Forall_forall in IH. by eapply (IH kv).
Qed.

Lemma tree_files_ok leaves files :
  Forall good_leaf leaves -> laid_out 0 files -> Forall (fun f => clean_path (Path f)) files ->
  let fs := tree_files leaves (i64 (total files)) files in
  laid_out 0 fs /\ Forall (fun f => clean_path (Path f)) fs.
Proof.
  revert files. induction leaves as [|l leaves IH]; intros files Hg Hl Hc; [done|].
  apply list.Forall_cons in Hg as [[Hp Hs] Hg]. cbn [tree_files].
  destruct (laid_out_snoc files (l_path l) (l_size l) Hl Hs) as [H1 H2].
  assert (Hc' := list.Forall_app_2 _ _ _ Hc (list.Forall_cons_2 (fun f => clean_path (Path f))
    (MkFileEntry (l_path l) (l_size l) (i64 (total files)) (i64 (i64 (total files) + l_size l)))
    [] Hp (list.Forall_nil_2 _))).
  pose proof (IH _ Hg H1 Hc') as H. by rewrite <-H2 in H.
Qed.

Lemma parse_files_ok info name files :
  (name = [] \/ clean_segment name) ->
  (forall i s e, field info "length" = Some (VInt i s e) -> is_i64 i) ->
  parse_files info name = Ok files ->
  laid_out 0 files /\ Forall (fun f => clean_path (Path f)) files.
Proof.
  intros Hname Hint H. unfold parse_files in H.
  destruct (field info "files") as [[| |l s e|]|]; try done.
  { split_guards H. destruct (parseV1_loop_ok l name [] files I (list.Forall_nil_2 _) H) as (? & ? & _). done. }
  destruct (field info "length") as [v|] eqn:El.
  - destruct (nonneg_int (Some v)) as [len|] eqn:En; [|done]. pose proof (nonneg_int_some _ _ En).
    split_guards H. injection H as <-. bool_hyps. destruct Hname as [|Hn]; [done|].
    assert (Hl : i64 len = len).
    { destruct v as [i s e| | |]; try done. cbn [nonneg_int] in En. destruct (i <? 0); [done|].
      injection En as ->. apply i64_small. by eapply Hint. }
    split.
    + cbn [laid_out Size StartOffset EndOffset]. rewrite Z.add_0_l, Hl. done.
    + constructor; [|done]. unfold clean_path. cbn [Path]. rewrite split_slash_one by apply Hn.
      by constructor.
  - destruct (field info "file tree") as [t|]; [|done]. split_guards H. injection H as <-.
    apply walk_good in Hr. by apply (tree_files_ok r []).
Qed.

Lemma field_at data root key v :
  decoded_at data root -> field root key = Some v -> decoded_at data v.
Proof.
  intros Hr H. destruct root as [| | |d s e]; try done. unfold field, dict_of in H.
  apply dict_get_elem in H. apply (subvalue_at _ (VDict d s e)); [done|].
  eapply sub_child; [apply sub_root|]. by econstructor.
Qed.

Lemma decodeTop_at data root : decodeTop data = Ok root -> decoded_at data root.
Proof.
  unfold decodeTop. intros ([r p] & H & [= <-])%rbind_ok. by eapply decode_at.
Qed.

(** What a successful [Parse] went through. *)
Record parsed (sha1 sha256 : bytes -> bytes) (data : bytes) (info : value) (m : TorrentMeta) : Prop := {
  pa_info : decoded_at data info;
  pa_dict : is_dict info = true;
  pa_name : parse_name info = Ok (Name m);
  pa_plen : parse_piece_length info = Ok (PieceLength m);
  pa_pieces : parse_pieces sha1 info (take (v_end info - v_start info) (drop (v_start info) data))
    = Ok (PieceHashesV1 m, InfoHashV1 m);
  pa_v2 : InfoHashV2 m = [] \/
    InfoHashV2 m = hex_encode (sha256 (take (v_end info - v_start info) (drop (v_start info) data)));
  pa_some : ~ (InfoHashV1 m = [] /\ InfoHashV2 m = []);
  pa_files : parse_files info (Name m) = Ok (Files m);
  pa_nonempty : Files m <> []
}.

Lemma Parse_parsed sha1 sha256 data m :
  Parse sha1 sha256 data = Ok m -> exists info, parsed sha1 sha256 data info m.
Proof.
  unfold Parse. intros H. split_guards H. rename r into root, v into info.
  apply map_err_ok, decodeTop_at in Hr. destruct r3 as [pieces hashV1]. split_guards H.
  injection H as <-. exists info.
  split; cbn [Name PieceLength PieceHashesV1 InfoHashV1 InfoHashV2 Files]; try done.
  - by eapply field_at.
  - by apply negb_false_iff in Heqb2.
  - destruct (_ || _); auto.
  - intros [-> E2]. by rewrite E2 in *.
  - intros ->. done.
Qed.

Lemma parse_name_clean info name : parse_name info = Ok name -> name = [] \/ clean_segment name.
Proof.
  unfold parse_name. destruct (field info "name") as [[|b ? ?| |]|]; try done.
  - intros H%map_err_ok. right. by eapply sanitizeSegment_clean.
  - intros [= <-]. by left.
Qed.

Lemma parsed_layout sha1 sha256 data info m :
  parsed sha1 sha256 data info m ->
  laid_out 0 (Files m) /\ Forall (fun f => clean_path (Path f)) (Files m).
Proof.
  intros []. apply (parse_files_ok info (Name m)); [by apply parse_name_clean in pa_name0| |done].
  intros i s e H. eapply decoded_int, field_at; [exact pa_info0|exact H].
Qed.

(** Files laid end to end without wrapping. *)
Fixpoint contiguous (offset : Z) (files : list FileEntry) : Prop :=
  match files with
  | [] => True
  | f :: files =>
      0 <= Size f /\ StartOffset f = offset /\ EndOffset f = offset + Size f /\
      contiguous (offset + Size f) files
  end.

Lemma total_nonneg offset files : laid_out offset files -> 0 <= total files.
Proof.
  revert offset. induction files as [|f files IH]; simpl; [lia|].
  intros offset (H & _ & _ & Hl). apply IH in Hl. lia.
Qed.

Lemma laid_out_contiguous offset files :
  0 <= offset -> offset + total files <= maxInt64 -> laid_out offset files -> contiguous offset files.
Proof.
  revert offset. induction files as [|f files IH]; [done|]. intros offset H0 Ht (Hs & E1 & E2 & Hl).
  cbn [total foldr] in Ht. fold (total files) in Ht. pose proof (total_nonneg _ _ Hl).
  cbn [contiguous]. rewrite E1, E2, !i64_small by (unfold is_i64, minInt64, maxInt64 in *; lia).
  split_and!; try done. apply IH; [lia|lia|done].
Qed.

(** ** What the parser promises *)

(** No path a parsed torrent names can leave its root: cut at its slashes,
    every file path consists of segments that are not empty, not [.] and not
    [..] and hold no slash, backslash or NUL, and the name is absent or such a
    segment. *)
Theorem parse_paths_safe sha1 sha256 data m :
  Parse sha1 sha256 data = Ok m ->
  Forall (fun f => Forall clean_segment (split_slash (Path f))) (Files m) /\
  (Name m = [] \/ clean_segment (Name m)).
Proof.
  intros (info & H)%Parse_parsed. destruct (parsed_layout _ _ _ _ _ H) as [_ Hc].
  split; [exact Hc|]. eapply parse_name_clean, H.
Qed.

(** d4:infod6:lengthi3e4:name1:x12:piece lengthi16384e6:pieces20:(20 bytes)ee *)
Definition sample_torrent : bytes :=
  str "d4:infod6:lengthi3e4:name1:x12:piece lengthi16384e6:pieces20:" ++ repeat 7 20 ++ str "ee".
Definition toy_hash (n : nat) (b : bytes) : bytes := repeat (fold_left Z.add b 0 mod 256) n.

Definition sample_meta : TorrentMeta :=
  MkTorrentMeta (str "x") (hex_encode (toy_hash 20 (take 75 (drop 7 sample_torrent)))) [] 1 16384
    [MkFileEntry (str "x") 3 0 3] (repeat 7 20) [] [].

Lemma sample_parses : Parse (toy_hash 20) (toy_hash 32) sample_torrent = Ok sample_meta.
Proof. vm_compute. reflexivity. Qed.

Lemma parse_paths_safe_witness :
  Forall (fun f => Forall clean_segment (split_slash (Path f))) (Files sample_meta).
Proof. exact (proj1 (parse_paths_safe _ _ _ _ sample_parses)). Defined.

(** A parsed torrent is well formed and identified by its own bytes: the
    piece length is positive, there is a file, the files are laid end to end
    from offset 0 as long as their sizes sum to at most 2^63-1, and the info
    hashes are the digests of one verbatim span of the input, a span that by
    itself decodes to the info dictionary; at least one of them is present. *)
Theorem parse_identity sha1 sha256 data m :
  Parse sha1 sha256 data = Ok m ->
  0 < PieceLength m /\ Files m <> [] /\
  (total (Files m) <= maxInt64 -> contiguous 0 (Files m)) /\
  exists s e info,
    (s < e <= length data)%nat /\
    let raw := take (e - s) (drop s data) in
    decodeTop raw = Ok (rebase s info) /\ is_dict info = true /\
    (PieceHashesV1 m = [] -> InfoHashV1 m = []) /\
    (PieceHashesV1 m <> [] -> InfoHashV1 m = hex_encode (sha1 raw)) /\
    (InfoHashV2 m = [] \/ InfoHashV2 m = hex_encode (sha256 raw)) /\
    (InfoHashV1 m <> [] \/ InfoHashV2 m <> []).
Proof.
  intros (info & H)%Parse_parsed. destruct (parsed_layout _ _ _ _ _ H) as [Hl _]. destruct H.
  split_and!; try done.
  - unfold parse_piece_length in pa_plen0. destruct (field _ _) as [[i ? ?| | |]|]; try done.
    destruct (Z.leb_spec i 0); [done|]. injection pa_plen0 as <-. done.
  - intros. by apply laid_out_contiguous.
  - destruct (decoded_slice _ _ pa_info0) as [Hs Hd].
    exists (v_start info), (v_end info), info. split; [done|]. cbn zeta.
    unfold parse_pieces in pa_pieces0. split; [done|]. split; [done|].
    set (raw := take _ _) in *.
    destruct (field info "pieces") as [[|b ? ?| |]|]; try done.
    + destruct b; [done|]. destruct (_ || _); [done|]. injection pa_pieces0 as Ep Eh. rewrite <-Ep, <-Eh in *.
      split_and!; try done. destruct (decide (hex_encode (sha1 raw) = [])) as [E1|]; [|by left]. right.
      intros E2. by apply pa_some0.
    + injection pa_pieces0 as Ep Eh. rewrite <-Ep, <-Eh in *. split_and!; try done. right. intros E. by apply pa_some0.
Qed.

Lemma parse_identity_witness : contiguous 0 (Files sample_meta) /\ 0 < PieceLength sample_meta.
Proof.
  destruct (parse_identity _ _ _ _ sample_parses) as (H1 & _ & H2 & _).
  split; [apply H2; unfold maxInt64; simpl; lia|exact H1].
Defined.

(** Sizes that sum past 2^63-1 are accepted, and the extents wrap. *)
Definition overflow_torrent : bytes :=
  str "d4:infod5:filesld6:lengthi9223372036854775807e4:pathl1:aeed6:lengthi9e4:pathl1:beee4:name1:x12:piece lengthi16384e6:pieces20:"
  ++ repeat 7 20 ++ str "ee".

Lemma parse_extent_overflow :
  exists m f, Parse (toy_hash 20) (toy_hash 32) overflow_torrent = Ok m /\
    f ∈ Files m /\ 0 < Size f /\ EndOffset f < 0.
Proof.
  eexists _, (MkFileEntry (str "x/b") 9 9223372036854775807 (-9223372036854775800)).
  split; [vm_compute; reflexivity|]. split; [right; left|]. split; reflexivity.
Qed.
