(* ===== verification/Text.v ===== *)
(** Lemmas on text: trimming, decimal fields and spaces, for the files that parse
    headers. *)

From Stdlib Require Import ZArith Lia.
From stdpp Require Import base list numbers strings.
From S2P Require Import Prelude Bencode Torrentmeta.

Local Open Scope Z_scope.

(** ** Trimming *)

(** Printable ASCII: part of no encoding of a space. *)
Definition plain (c : Z) : bool := (33 <=? c) && (c <? 127).

Lemma encodings_plain : forallb (fun e => negb (bool_decide (e = [])) && forallb (fun c => negb (plain c)) e)
  (space_encodings ++ map (@rev Z) space_encodings) = true.
Proof. reflexivity. Qed.

Lemma strip_prefix_plain e l c r l' : forallb (fun c => negb (plain c)) e = true -> plain c = true ->
  strip_prefix e (l ++ c :: r) = Some l' -> exists l2, l' = l2 ++ c :: r.
Proof.
  revert l. induction e as [|x e IH]; intros l He Hc; cbn [strip_prefix]; [intros [= <-]; eauto|].
  cbn [forallb] in He. apply andb_true_iff in He as [Hx He].
  destruct l as [|y l]; cbn [app].
  - destruct (Z.eqb_spec x c) as [->|]; [by rewrite Hc in Hx|done].
  - destruct (x =? y); [eauto|done].
Qed.

Lemma strip_one_plain encs l c r l' :
  forallb (fun e => negb (bool_decide (e = [])) && forallb (fun c => negb (plain c)) e) encs = true -> plain c = true ->
  strip_one encs (l ++ c :: r) = Some l' -> (exists l2, l' = l2 ++ c :: r) /\ l <> [].
Proof.
  induction encs as [|e encs IH]; intros He Hc; cbn [strip_one]; [done|].
  cbn [forallb] in He. rewrite !andb_true_iff in He. destruct He as [[Hn He] Hes].
  destruct (strip_prefix e _) as [l1|] eqn:E; [|by apply IH]. intros [= <-]. split; [by eapply strip_prefix_plain|].
  intros ->. destruct e as [|x e]; [done|]. cbn in E. destruct (Z.eqb_spec x c) as [->|]; [|done]. cbn in He. by rewrite Hc in He.
Qed.

Lemma strip_all_plain fuel encs l c r :
  forallb (fun e => negb (bool_decide (e = [])) && forallb (fun c => negb (plain c)) e) encs = true -> plain c = true ->
  exists l2, strip_all fuel encs (l ++ c :: r) = l2 ++ c :: r /\ (l = [] -> l2 = []).
Proof.
  intros He Hc. revert l. induction fuel as [|fuel IH]; intros l; cbn [strip_all]; [eauto|].
  destruct (strip_one encs (l ++ c :: r)) as [l'|] eqn:E; [|eauto].
  apply strip_one_plain in E as [[l2 ->] Hl]; [|done..]. destruct (IH l2) as (l3 & -> & _). exists l3. split; [done|]. by intros ->.
Qed.

(** Trimming a text that starts with a printable character removes at most some of
    what follows its last one. *)
Lemma TrimSpace_tail a x c t : plain a = true -> plain c = true ->
  exists t', TrimSpace (a :: x ++ c :: t) = a :: x ++ c :: t' /\ (t = [] -> t' = []).
Proof.
  intros Ha Hc. pose proof encodings_plain as He. rewrite forallb_app in He. apply andb_true_iff in He as [He Hr].
  unfold TrimSpace, TrimLeft.
  destruct (strip_all_plain (length (a :: x ++ c :: t)) space_encodings [] a (x ++ c :: t) He Ha) as (l2 & E & Hl).
  rewrite (Hl eq_refl) in E. cbn [app] in E. rewrite E. unfold TrimRight.
  replace (rev (a :: x ++ c :: t)) with (rev t ++ c :: rev (a :: x)) by (cbn; rewrite rev_app_distr; cbn; by rewrite <-!app_assoc).
  destruct (strip_all_plain (length (a :: x ++ c :: t)) (map (@rev Z) space_encodings) (rev t) c (rev (a :: x)) Hr Hc) as (l3 & -> & Hl3).
  exists (rev l3). split; [|intros ->; by rewrite Hl3]. rewrite rev_app_distr. cbn [rev].
  rewrite rev_app_distr, rev_involutive. cbn. by rewrite <-app_assoc.
Qed.

Lemma TrimSpace_plain s : match s with [] => true | a :: _ => plain a && plain (List.last s 0) end = true -> TrimSpace s = s.
Proof.
  destruct s as [|a s]; [done|]. intros H. apply andb_true_iff in H as [Ha Hl].
  destruct (exists_last (l := a :: s) ltac:(done)) as (x & c & E). rewrite E, last_last in Hl.
  destruct x as [|b x]; cbn in E; injection E as -> ->.
  - pose proof encodings_plain as He. rewrite forallb_app in He. apply andb_true_iff in He as [He Hr].
    unfold TrimSpace, TrimLeft, TrimRight.
    destruct (strip_all_plain (length [c]) space_encodings [] c [] He Hl) as (l2 & E & Hl2). cbn [app] in E. rewrite E, Hl2 by done. cbn [app rev].
    destruct (strip_all_plain (length [c]) (map (@rev Z) space_encodings) [] c [] Hr Hl) as (l3 & E3 & Hl3). cbn [app] in E3.
    by rewrite E3, Hl3.
  - destruct (TrimSpace_tail b x c [] Ha Hl) as (t' & E & Ht). by rewrite E, Ht.
Qed.

(** ** Decimal fields *)

Lemma dec_plain n : 0 <= n -> forallb plain (dec n) = true.
Proof.
  intros Hn. pose proof (dec_all n Hn) as Hd. revert Hd. induction (dec n) as [|c l IH]; [done|]. cbn [forallb].
  rewrite !andb_true_iff. intros [Hc Hl]. split; [|auto]. unfold is_digit in Hc. unfold plain. lia.
Qed.

Lemma plain_trim s : forallb plain s = true -> TrimSpace s = s.
Proof.
  intros H. apply TrimSpace_plain. destruct s as [|a s]; [done|].
  destruct (exists_last (l := a :: s) ltac:(done)) as (x & c & E). rewrite E, last_last.
  pose proof H as Hl. rewrite E, forallb_app in Hl. cbn [forallb] in *. bool_hyps. by apply andb_true_iff.
Qed.

Lemma dec_no c n : 0 <= n -> is_digit c = false -> c ∉ dec n.
Proof.
  intros Hn Hc Hin. pose proof (dec_all n Hn) as Hd. rewrite forallb_forall in Hd.
  apply list_elem_of_In in Hin. apply Hd in Hin. congruence.
Qed.

Lemma digits_value_snoc ds c : digits_value (ds ++ [c]) = digits_value ds * 10 + (c - 48).
Proof. unfold digits_value. by rewrite fold_left_app. Qed.

Lemma digits_value_bound ds : forallb is_digit ds = true -> 0 <= digits_value ds < 10 ^ Z.of_nat (length ds).
Proof.
  induction ds as [|c ds IH] using rev_ind; [done|]. rewrite forallb_app. cbn [forallb]. intros H. bool_hyps.
  rewrite digits_value_snoc, length_app, Nat2Z.inj_add. cbn [length]. rewrite Z.pow_add_r by lia.
  change (10 ^ Z.of_nat 1) with 10. specialize (IH ltac:(done)). unfold is_digit in *. lia.
Qed.

Lemma digits_value_app a b : digits_value (a ++ b) = digits_value a * 10 ^ Z.of_nat (length b) + digits_value b.
Proof.
  induction b as [|c b IH] using rev_ind; [rewrite app_nil_r; cbn; lia|].
  rewrite app_assoc, !digits_value_snoc, IH, length_app, Nat2Z.inj_add. cbn [length]. rewrite Z.pow_add_r by lia.
  change (10 ^ Z.of_nat 1) with 10. lia.
Qed.

Lemma digits_value_cons c ds : digits_value (c :: ds) = (c - 48) * 10 ^ Z.of_nat (length ds) + digits_value ds.
Proof. change (c :: ds) with ([c] ++ ds). rewrite digits_value_app. f_equal. Qed.

(** Texts of digits without a leading zero are told apart by their values. *)
Lemma digits_value_inj a b : forallb is_digit a = true -> forallb is_digit b = true -> head a <> Some 48 -> head b <> Some 48 ->
  digits_value a = digits_value b -> a = b.
Proof.
  assert (Hsame : forall a b, length a = length b -> forallb is_digit a = true -> forallb is_digit b = true ->
    digits_value a = digits_value b -> a = b).
  { intros x. induction x as [|c x IH] using rev_ind; intros y Hl Hx Hy E; [by destruct y|].
    destruct y as [|d y _] using rev_ind; [rewrite length_app in Hl; cbn in Hl; lia|].
    rewrite !length_app in Hl. rewrite forallb_app in Hx, Hy. cbn [forallb length] in *. bool_hyps. rewrite !digits_value_snoc in E.
    unfold is_digit in *. bool_hyps. assert (digits_value x = digits_value y) by lia. rewrite (IH y); try done; [|lia]. do 2 f_equal. lia. }
  assert (Hlow : forall ds, forallb is_digit ds = true -> head ds <> Some 48 -> ds <> [] -> 10 ^ Z.of_nat (length ds - 1) <= digits_value ds).
  { intros [|c ds] Hd Hh Hn; [done|]. cbn [forallb length] in *. bool_hyps. rewrite digits_value_cons.
    replace (S (length ds) - 1)%nat with (length ds) by lia. pose proof (digits_value_bound ds ltac:(done)).
    assert (c <> 48) by (intros ->; by apply Hh). unfold is_digit in *. bool_hyps. nia. }
  assert (Hlen : forall a b, forallb is_digit a = true -> forallb is_digit b = true -> head b <> Some 48 -> digits_value a = digits_value b ->
    (length b <= length a)%nat).
  { intros x y Hx Hy Hh E. destruct y as [|d y]; [cbn; lia|]. pose proof (Hlow (d :: y) Hy Hh ltac:(done)) as Hl.
    pose proof (digits_value_bound x Hx). destruct (decide (length (d :: y) <= length x)%nat); [done|exfalso].
    assert (10 ^ Z.of_nat (length x) <= 10 ^ Z.of_nat (length (d :: y) - 1)) by (apply Z.pow_le_mono_r; lia). lia. }
  intros Ha Hb Hha Hhb E. apply Hsame; try done. pose proof (Hlen a b Ha Hb Hhb E). pose proof (Hlen b a Hb Ha Hha (eq_sym E)). lia.
Qed.

Lemma drop_zeros_value ds : digits_value (drop_zeros ds) = digits_value ds.
Proof.
  induction ds as [|c ds IH]; [done|]. cbn [drop_zeros]. destruct (Z.eqb_spec c 48) as [->|]; [|done].
  rewrite digits_value_cons. lia.
Qed.

Lemma drop_zeros_digits ds : forallb is_digit ds = true -> forallb is_digit (drop_zeros ds) = true /\ head (drop_zeros ds) <> Some 48.
Proof.
  induction ds as [|c ds IH]; [done|]. cbn [forallb drop_zeros]. intros H. bool_hyps.
  destruct (Z.eqb_spec c 48) as [->|]; [by apply IH|]. cbn [forallb head]. split; [by apply andb_true_iff|congruence].
Qed.

Lemma dec_digits_head fuel n acc : 0 < n -> Z.log2 n < Z.of_nat fuel -> head (dec_digits fuel n acc) <> Some 48.
Proof.
  revert n acc. induction fuel as [|fuel IH]; intros n acc Hn Hf; [pose proof (Z.log2_nonneg n); lia|].
  cbn [dec_digits]. destruct (Z.ltb_spec n 10); [cbn; intros [= E]; lia|]. apply IH; [apply Z.div_str_pos; lia|].
  assert (Z.log2 (n / 10) <= Z.log2 (n / 2)) by (apply Z.log2_le_mono, Z.div_le_compat_l; lia).
  assert (Z.log2 (n / 2) = Z.log2 n - 1); [|lia].
  change (n / 2) with (n / 2 ^ 1). rewrite <-(Z.shiftr_div_pow2 n 1), Z.log2_shiftr by lia.
  pose proof (Z.log2_le_mono 10 n). change (Z.log2 10) with 3 in *. lia.
Qed.

(** A number without its leading zeros is the decimal text of its value. *)
Lemma drop_zeros_dec ds : forallb is_digit ds = true ->
  drop_zeros ds = if 0 <? digits_value ds then dec (digits_value ds) else [].
Proof.
  intros Hd. destruct (drop_zeros_digits ds Hd) as [Ha Hh]. pose proof (drop_zeros_value ds) as Hv.
  pose proof (digits_value_bound ds Hd). destruct (Z.ltb_spec 0 (digits_value ds)).
  - apply digits_value_inj; [done|by apply dec_all; lia|done| |rewrite dec_value; [done|lia]].
    unfold dec. apply dec_digits_head; [done|]. pose proof (Z.log2_nonneg (digits_value ds)). lia.
  - destruct (drop_zeros ds) as [|c l]; [done|]. exfalso. cbn [forallb] in Ha. bool_hyps. rewrite digits_value_cons in Hv.
    pose proof (digits_value_bound l ltac:(done)). assert (c <> 48) by (intros ->; by apply Hh). unfold is_digit in *. bool_hyps. nia.
Qed.

Lemma dec_inj a b : 0 <= a -> 0 <= b -> dec a = dec b -> a = b.
Proof. intros Ha Hb E. rewrite <-(dec_value a), <-(dec_value b) by done. by rewrite E. Qed.

(** ** Joined texts *)

(** [strings.Join] with a separator of one byte. *)
Fixpoint strings_Join (sep : Z) (parts : list bytes) : bytes :=
  match parts with
  | [] => []
  | [s] => s
  | s :: parts => s ++ sep :: strings_Join sep parts
  end.

Lemma cut_inj (sep : Z) a b x y : sep ∉ a -> sep ∉ b -> a ++ sep :: x = b ++ sep :: y -> a = b /\ x = y.
Proof.
  revert b. induction a as [|c a IH]; intros [|d b] Ha Hb E; cbn in E.
  - by injection E.
  - injection E as <- _. destruct Hb. by left.
  - injection E as -> _. destruct Ha. by left.
  - injection E as -> E. rewrite list.not_elem_of_cons in Ha, Hb. destruct (IH b) as [-> ->]; naive_solver.
Qed.

(** Parts without the separator can be read back. *)
Lemma strings_Join_inj sep ps qs : ps <> [] -> qs <> [] -> Forall (fun s => sep ∉ s) ps -> Forall (fun s => sep ∉ s) qs ->
  strings_Join sep ps = strings_Join sep qs -> ps = qs.
Proof.
  assert (Hcons : forall s l, l <> [] -> strings_Join sep (s :: l) = s ++ sep :: strings_Join sep l) by (by intros s [|]).
  revert qs. induction ps as [|p ps IH]; intros [|q qs] Hp Hq Fp Fq E; try done.
  apply list.Forall_cons in Fp as [Hsp Fp]. apply list.Forall_cons in Fq as [Hsq Fq].
  destruct (decide (ps = [])) as [->|Hps], (decide (qs = [])) as [->|Hqs].
  - cbn in E. by subst.
  - rewrite (Hcons q qs Hqs) in E. cbn in E. subst p. destruct Hsp. rewrite elem_of_app, list.elem_of_cons. auto.
  - rewrite (Hcons p ps Hps) in E. cbn in E. subst q. destruct Hsq. rewrite elem_of_app, list.elem_of_cons. auto.
  - rewrite !Hcons in E by done. apply cut_inj in E as [-> E]; [|done..]. f_equal. by apply IH.
Qed.

(** ** Prefixes *)

(** [bytes.HasPrefix], [strings.HasPrefix]. *)
Definition has_prefix (p s : bytes) : bool := bool_decide (take (length p) s = p).

Lemma prefix_app p s : has_prefix p (p ++ s) = true.
Proof. unfold has_prefix. rewrite take_app_length. by apply bool_decide_eq_true. Qed.

Lemma prefix_inv p l : has_prefix p l = true -> exists s, l = p ++ s.
Proof. unfold has_prefix. intros H. bool_hyps. exists (drop (length p) l). by rewrite <-H at 1; rewrite take_drop. Qed.
