(* ===== verification/TorrentProof.v ===== *)
(** Torrent content proofs: internal/torrentmeta/verify.go and proof.go.

    SHA-1 and SHA-256 are parameters.  A context is the function [ctx] that says
    what the n-th call of [ctx.Err()] answers; a function that polls it takes
    the number of calls made so far and returns it. *)

From Stdlib Require Import ZArith Lia.
From stdpp Require Import base list numbers strings sets.
From S2P Require Import Prelude Bencode Torrentmeta.

Local Open Scope Z_scope.
Local Open Scope harbor_scope.

Definition v2BlockSize : Z := 16384.
Definition MaxProofBlockBytes : Z := Z.shiftl 64 20.

(** [s[a:b]] of a byte slice. *)
Definition slice (s : bytes) (a b : Z) : bytes := take (Z.to_nat (b - a)) (drop (Z.to_nat a) s).

Definition len (s : bytes) : Z := Z.of_nat (length s).

Inductive proof_error : Type := Cancelled | SpanMismatch | UnknownProvenance | SizeMismatch | NoUsableProof.

Inductive Scope : Type := ScopeWhole | ScopeBlock.
Inductive Algorithm : Type := AlgorithmSHA1 | AlgorithmSHA256.
Inductive Provenance : Type := ProvenanceTorrentPiece | ProvenanceTorrentMerkle.

Record ProofDomain := MkProofDomain {
  d_meta : TorrentMeta;
  d_file : FileEntry;
  d_totalSize : Z;
  d_v1 : bool;
  d_v2Root : bytes;
  d_v2Layer : bytes
}.

Record NativeProof := MkNativeProof {
  p_Scope : Scope;
  p_Offset : Z;
  p_Length : Z;
  p_Algorithm : Algorithm;
  p_Provenance : Provenance;
  p_digest : bytes;
  p_pieceLength : Z
}.

(** [hex.DecodeString] of lower- or upper-case digits. *)
Definition unhex_digit (c : Z) : option Z :=
  if (48 <=? c) && (c <=? 57) then Some (c - 48)
  else if (97 <=? c) && (c <=? 102) then Some (c - 87)
  else if (65 <=? c) && (c <=? 70) then Some (c - 55)
  else None.

Fixpoint hex_decode (s : bytes) : option bytes :=
  match s with
  | [] => Some []
  | [_] => None
  | a :: b :: s =>
      match unhex_digit a, unhex_digit b, hex_decode s with
      | Some x, Some y, Some r => Some (16 * x + y :: r)
      | _, _, _ => None
      end
  end.

Section Hashes.
Context (sha1 sha256 : bytes -> bytes).

(** ** Merkle roots *)

Definition zeroBlockHash : bytes := sha256 (repeat 0 (Z.to_nat v2BlockSize)).

Fixpoint pairs (level : list bytes) : list bytes :=
  match level with
  | a :: b :: level => sha256 (a ++ b) :: pairs level
  | _ => []
  end.

Fixpoint merkleRootContext (fuel : nat) (ctx : nat -> bool) (t : nat) (level : list bytes)
    : result proof_error (bytes * nat) :=
  match fuel with
  | O => Ok (hd [] level, t)
  | S fuel =>
      if (1 <? length level)%nat then
        if ctx t then Err Cancelled
        else merkleRootContext fuel ctx (S t) (pairs level)
      else Ok (hd [] level, t)
  end.

(** The [n] leaves that are left from byte [off] on. *)
Fixpoint leaf_loop (n : nat) (ctx : nat -> bool) (t : nat) (pieceData : bytes) (off : Z)
    : result proof_error (list bytes * nat) :=
  match n with
  | O => Ok ([], t)
  | S n' =>
      if off <? len pieceData then
        if ctx t then Err Cancelled
        else
          let fin := off + v2BlockSize in
          let fin := if len pieceData <? fin then len pieceData else fin in
          let? (leaves, t) := leaf_loop n' ctx (S t) pieceData fin in
          Ok (sha256 (slice pieceData off fin) :: leaves, t)
      else Ok (repeat zeroBlockHash n, t)
  end.

Definition computeV2PieceHashContext (ctx : nat -> bool) (t : nat) (pieceData : bytes) (pieceLength : Z)
    : result proof_error (bytes * nat) :=
  let leavesNeeded := Z.quot pieceLength v2BlockSize in
  let leavesNeeded := if leavesNeeded <? 1 then 1 else leavesNeeded in
  let? (leaves, t) := leaf_loop (Z.to_nat leavesNeeded) ctx t pieceData 0 in
  merkleRootContext (length leaves) ctx t leaves.

Definition computeV2PieceHash (pieceData : bytes) (pieceLength : Z) : bytes :=
  match computeV2PieceHashContext (fun _ => false) 0 pieceData pieceLength with
  | Ok (root, _) => root
  | Err _ => repeat 0 32
  end.

(** ** Windows of fetched bytes *)

(** The loop of both window checks: [hash i] is the digest of the i-th piece of
    the window, [expected] slices the hash material. *)
Fixpoint window_loop (n : nat) (i base numPieces : Z) (hash expected : Z -> bytes) (checked : Z)
    : Z * bool * Z :=
  match n with
  | O => (checked, true, 0)
  | S n =>
      let idx := base + i in
      if (idx <? 0) || (numPieces <=? idx) then
        window_loop n (i + 1) base numPieces hash expected checked
      else
        let checked := checked + 1 in
        if bool_decide (hash i = expected idx) then
          window_loop n (i + 1) base numPieces hash expected checked
        else (checked, false, idx)
  end.

Definition verifyWindowV1 (meta : TorrentMeta) (file : FileEntry) (windowFileOffset : Z)
    (data : bytes) (pieceLength : Z) : Z * bool * Z :=
  let numPieces := Z.quot (len (PieceHashesV1 meta)) 20 in
  let absStart := i64 (StartOffset file + windowFileOffset) in
  let numWindowPieces := Z.quot (len data) pieceLength in
  window_loop (Z.to_nat numWindowPieces) 0 (Z.quot absStart pieceLength) numPieces
    (fun i => sha1 (slice data (i * pieceLength) ((i + 1) * pieceLength)))
    (fun idx => slice (PieceHashesV1 meta) (idx * 20) (idx * 20 + 20)) 0.

Definition verifyWindowV2 (meta : TorrentMeta) (file : FileEntry) (windowFileOffset : Z)
    (data : bytes) (pieceLength : Z) : Z * bool * Z :=
  match dict_get (Path file) (V2MerkleRoots meta) with
  | None => (0, true, 0)
  | Some rootHex =>
      match dict_get rootHex (PieceLayers meta) with
      | None => (0, true, 0)
      | Some layer =>
          let numPieces := Z.quot (len layer) 32 in
          let numWindowPieces := Z.quot (len data) pieceLength in
          window_loop (Z.to_nat numWindowPieces) 0 (Z.quot windowFileOffset pieceLength) numPieces
            (fun i => computeV2PieceHash (slice data (i * pieceLength) ((i + 1) * pieceLength)) pieceLength)
            (fun idx => slice layer (idx * 32) (idx * 32 + 32)) 0
      end
  end.

Definition VerifyWindow (meta : option TorrentMeta) (file : option FileEntry)
    (windowFileOffset : Z) (data : bytes) : Z * bool * Z :=
  match meta, file with
  | Some meta, Some file =>
      let pieceLength := PieceLength meta in
      if (len data =? 0) || (pieceLength <=? 0) || (windowFileOffset <? 0) then (0, true, 0)
      else if negb (Z.rem (len data) pieceLength =? 0) then (0, true, 0)
      else
        let absolute := i64 (StartOffset file + windowFileOffset) in
        if (0 <? len (PieceHashesV1 meta)) &&
           ((0 <=? StartOffset file) && (StartOffset file <=? absolute) &&
            (Z.rem absolute pieceLength =? 0))
        then verifyWindowV1 meta file windowFileOffset data pieceLength
        else if (0 <? Z.of_nat (length (V2MerkleRoots meta))) && (0 <? Z.of_nat (length (PieceLayers meta)))
        then
          if negb (Z.rem windowFileOffset pieceLength =? 0) then (0, true, 0)
          else verifyWindowV2 meta file windowFileOffset data pieceLength
        else (0, true, 0)
  | _, _ => (0, true, 0)
  end.

(** ** Proof domains *)

Definition validV2PieceLength (pieceLength : Z) : bool :=
  if (pieceLength <? v2BlockSize) || (MaxProofBlockBytes <? pieceLength) ||
     negb (Z.rem pieceLength v2BlockSize =? 0) then false
  else
    let blocks := Z.quot pieceLength v2BlockSize in
    Z.land blocks (blocks - 1) =? 0.

Definition proofAtV1 (d : ProofDomain) (offset : Z) : option NativeProof :=
  let file := d_file d in
  let pieceLength := PieceLength (d_meta d) in
  let absolute := i64 (StartOffset file + offset) in
  if absolute <? StartOffset file then None
  else
    let index := Z.quot absolute pieceLength in
    let start := i64 (index * pieceLength) in
    let fin := i64 (start + pieceLength) in
    let fin := if (fin <? start) || (d_totalSize d <? fin) then d_totalSize d else fin in
    if (start <? StartOffset file) || (EndOffset file <? fin) || (fin <=? start) then None
    else
      let digestStart := i64 (index * 20) in
      if (digestStart <? 0) || (len (PieceHashesV1 (d_meta d)) <? i64 (digestStart + 20)) then None
      else Some (MkNativeProof ScopeBlock (i64 (start - StartOffset file)) (i64 (fin - start))
                   AlgorithmSHA1 ProvenanceTorrentPiece
                   (slice (PieceHashesV1 (d_meta d)) digestStart (digestStart + 20)) 0).

Definition proofAtV2 (d : ProofDomain) (offset : Z) : option NativeProof :=
  let file := d_file d in
  let pieceLength := PieceLength (d_meta d) in
  if negb (len (d_v2Root d) =? 32) then None
  else if Size file <=? pieceLength then
    Some (MkNativeProof ScopeWhole 0 (Size file) AlgorithmSHA256 ProvenanceTorrentMerkle
            (d_v2Root d) pieceLength)
  else
    let index := Z.quot offset pieceLength in
    let start := i64 (index * pieceLength) in
    let remaining := i64 (Size file - start) in
    let length := if remaining <? pieceLength then remaining else pieceLength in
    let digestStart := i64 (index * 32) in
    if (length <=? 0) || (digestStart <? 0) || (len (d_v2Layer d) <? i64 (digestStart + 32)) then None
    else Some (MkNativeProof ScopeBlock start length AlgorithmSHA256 ProvenanceTorrentMerkle
                 (slice (d_v2Layer d) digestStart (digestStart + 32)) pieceLength).

Definition ProofAt (d : ProofDomain) (offset : Z) : option NativeProof :=
  if (offset <? 0) || (Size (d_file d) <=? offset) then None
  else
    match (if d_v1 d then proofAtV1 d offset else None) with
    | Some proof => Some proof
    | None => proofAtV2 d offset
    end.

Definition hasProof (d : ProofDomain) : bool :=
  match ProofAt d 0 with
  | Some _ => true
  | None =>
      if d_v1 d then
        let file := d_file d in
        let pieceLength := PieceLength (d_meta d) in
        let next := i64 (Z.quot (i64 (i64 (StartOffset file + pieceLength) - 1)) pieceLength * pieceLength) in
        if (StartOffset file <=? next) && (next <? EndOffset file) then
          match ProofAt d (i64 (next - StartOffset file)) with Some _ => true | None => false end
        else false
      else false
  end.

(** The geometry loop: the running total and the number of matching entries. *)
Fixpoint geometry_loop (files : list FileEntry) (file : FileEntry) (totalSize matches : Z)
    : option (Z * Z) :=
  match files with
  | [] => Some (totalSize, matches)
  | entry :: files =>
      if (Size entry <? 0) || negb (StartOffset entry =? totalSize) || (EndOffset entry <? StartOffset entry) ||
         negb (i64 (EndOffset entry - StartOffset entry) =? Size entry) then None
      else
        geometry_loop files file (EndOffset entry)
          (if decide (entry = file) then matches + 1 else matches)
  end.

Definition domain_v1 (meta : TorrentMeta) (totalSize : Z) : bool :=
  if (0 <? len (PieceHashesV1 meta)) && (Z.rem (len (PieceHashesV1 meta)) 20 =? 0) then
    let expected := Z.quot (i64 (i64 (totalSize + PieceLength meta) - 1)) (PieceLength meta) in
    Z.quot (len (PieceHashesV1 meta)) 20 =? expected
  else false.

Definition domain_v2 (meta : TorrentMeta) (file : FileEntry) : bytes * bytes :=
  match dict_get (Path file) (V2MerkleRoots meta) with
  | Some rootHex =>
      if validV2PieceLength (PieceLength meta) then
        match hex_decode rootHex with
        | Some root =>
            if len root =? 32 then
              if PieceLength meta <? Size file then
                let layer := default [] (dict_get rootHex (PieceLayers meta)) in
                let expected := Z.quot (i64 (i64 (Size file + PieceLength meta) - 1)) (PieceLength meta) in
                if (Z.rem (len layer) 32 =? 0) && (Z.quot (len layer) 32 =? expected)
                then (root, layer) else (root, [])
              else (root, [])
            else ([], [])
        | None => ([], [])
        end
      else ([], [])
  | None => ([], [])
  end.

Definition NewProofDomain (meta : option TorrentMeta) (file : option FileEntry) : option ProofDomain :=
  match meta, file with
  | Some meta, Some file =>
      if (PieceLength meta <=? 0) || (MaxProofBlockBytes <? PieceLength meta) ||
         (Size file <=? 0) || (StartOffset file <? 0) || (EndOffset file <? StartOffset file) ||
         negb (i64 (EndOffset file - StartOffset file) =? Size file) then None
      else
        match geometry_loop (Files meta) file 0 0 with
        | None => None
        | Some (totalSize, matches) =>
            if negb (matches =? 1) || (totalSize <=? 0) then None
            else
              let '(v2Root, v2Layer) := domain_v2 meta file in
              let domain := MkProofDomain meta file totalSize (domain_v1 meta totalSize) v2Root v2Layer in
              if (negb (d_v1 domain) && (len v2Root =? 0)) || negb (hasProof domain) then None
              else Some domain
        end
  | _, _ => None
  end.

(** ** Digests of candidate bytes *)

(** Write the data in chunks, polling the context before each. *)
Fixpoint write_chunks (fuel : nat) (ctx : nat -> bool) (t : nat) (data : bytes) (offset : Z) (written : bytes)
    : result proof_error (bytes * nat) :=
  match fuel with
  | O => Ok (written, t)
  | S fuel =>
      if offset <? len data then
        if ctx t then Err Cancelled
        else
          let fin := offset + Z.shiftl 64 10 in
          let fin := if len data <? fin then len data else fin in
          write_chunks fuel ctx (S t) data (offset + Z.shiftl 64 10) (written ++ slice data offset fin)
      else Ok (written, t)
  end.

Definition hashCancellable (h : bytes -> bytes) (ctx : nat -> bool) (t : nat) (data : bytes)
    : result proof_error (bytes * nat) :=
  let? (written, t) := write_chunks (S (length data)) ctx t data 0 [] in
  Ok (h written, t).

Definition CandidateDigest (p : NativeProof) (ctx : nat -> bool) (data : bytes) : result proof_error bytes :=
  if ctx 0%nat then Err Cancelled
  else if (p_Length p <=? 0) || (MaxProofBlockBytes <? p_Length p) || negb (len data =? p_Length p)
  then Err SpanMismatch
  else
    let? (digest, _) :=
      match p_Provenance p with
      | ProvenanceTorrentPiece => hashCancellable sha1 ctx 1 data
      | ProvenanceTorrentMerkle => computeV2PieceHashContext ctx 1 data (p_pieceLength p)
      end in
    Ok digest.

End Hashes.

(** ** Typing: what Go's types already guarantee *)

Record typed_meta (m : TorrentMeta) : Prop := {
  ty_plen : is_i64 (PieceLength m);
  ty_files : Forall (fun f => is_i64 (EndOffset f)) (Files m);
  ty_hashes : len (PieceHashesV1 m) <= maxInt64;
  ty_layers : forall root layer, dict_get root (PieceLayers m) = Some layer -> len layer <= maxInt64
}.

Lemma len_nonneg s : 0 <= len s.
Proof. unfold len. lia. Qed.

Lemma slice_len s a b : 0 <= a <= b -> b <= len s -> len (slice s a b) = b - a.
Proof. unfold len, slice. intros. rewrite length_take, length_drop. lia. Qed.

Lemma slice_slice s a b c d :
  0 <= a -> 0 <= c <= d -> d <= b - a -> slice (slice s a b) c d = slice s (a + c) (a + d).
Proof.
  intros. unfold slice. rewrite skipn_firstn_comm, take_take, drop_drop. f_equal; [lia|].
  f_equal. lia.
Qed.

Lemma slice_full s : slice s 0 (len s) = s.
Proof. unfold slice, len. rewrite drop_0. apply take_ge. lia. Qed.

(** ** The window check *)

Lemma window_loop_spec n hash expected N base : forall i checked c ok bad,
  window_loop n i base N hash expected checked = (c, ok, bad) ->
  (ok = true <-> forall j, i <= j < i + Z.of_nat n -> 0 <= base + j < N -> hash j = expected (base + j)) /\
  (ok = false -> exists j, i <= j < i + Z.of_nat n /\ 0 <= bad < N /\ bad = base + j /\ hash j <> expected bad) /\
  checked <= c.
Proof.
  induction n as [|n IH]; intros i checked c ok bad H; cbn [window_loop] in H.
  { injection H as <- <- <-. split_and!; try done. split; [|done]. intros. lia. }
  destruct ((base + i <? 0) || (N <=? base + i)) eqn:E.
  - apply IH in H as (H1 & H2 & H3). split_and!; [|intros Hf; destruct (H2 Hf) as (j & ? & ?); exists j; split; [lia|done]|done].
    rewrite H1. split; intros H j Hj Hr; [|apply H; lia].
    destruct (decide (j = i)) as [->|]; [lia|]. apply H; lia.
  - case_bool_decide as Eq.
    + apply IH in H as (H1 & H2 & H3). split_and!; [|intros Hf; destruct (H2 Hf) as (j & ? & ?); exists j; split; [lia|done]|lia].
      rewrite H1. split; intros H j Hj Hr; [|apply H; lia].
      destruct (decide (j = i)) as [->|]; [done|]. apply H; lia.
    + injection H as <- <- <-. split_and!; [|intros _; exists i; split; [lia|]; split_and!; (done || lia)|lia].
      split; [done|]. intros H. destruct Eq. apply H; lia.
Qed.

Section Window.
Context (sha1 sha256 : bytes -> bytes).

(** The torrent's piece [idx] lies inside a window of [n] bytes that starts at
    byte [start] of the torrent, and the torrent has a hash for it. *)
Definition piece_in_window (m : TorrentMeta) (start n idx : Z) : Prop :=
  start <= idx * PieceLength m /\ (idx + 1) * PieceLength m <= start + n /\
  0 <= idx /\ idx * 20 + 20 <= len (PieceHashesV1 m).

Definition piece_matches (m : TorrentMeta) (start : Z) (data : bytes) (idx : Z) : Prop :=
  sha1 (slice data (idx * PieceLength m - start) ((idx + 1) * PieceLength m - start))
  = slice (PieceHashesV1 m) (idx * 20) (idx * 20 + 20).

(** The check of a window of fetched bytes against the v1 piece hashes.
    For a window whose length and position are whole pieces, the answer is ok
    exactly when every piece of the torrent inside the window that has a hash
    matches it, and a negative answer names a piece that does not match.  A
    window that is not aligned to the torrent's pieces, or has no hash material,
    is never judged. *)
Theorem verify_window_v1 m f off data c ok bad :
  0 <= StartOffset f + off <= maxInt64 ->
  VerifyWindow sha1 sha256 (Some m) (Some f) off data = (c, ok, bad) ->
  (V2MerkleRoots m = [] \/ PieceLayers m = [] ->
   data = [] \/ PieceLength m <= 0 \/ off < 0 \/ len data mod PieceLength m <> 0 \/
   (StartOffset f + off) mod PieceLength m <> 0 \/ StartOffset f < 0 \/ PieceHashesV1 m = [] ->
   (c, ok, bad) = (0, true, 0)) /\
  (data <> [] -> 0 < PieceLength m -> 0 <= off -> len data mod PieceLength m = 0 ->
   (StartOffset f + off) mod PieceLength m = 0 -> 0 <= StartOffset f -> PieceHashesV1 m <> [] ->
   let start := StartOffset f + off in
   (ok = true <-> forall idx, piece_in_window m start (len data) idx -> piece_matches m start data idx) /\
   (ok = false -> piece_in_window m start (len data) bad /\ ~ piece_matches m start data bad)).
Proof.
  intros Hr H. unfold VerifyWindow in H.
  assert (Hz : forall s : bytes, len s = 0 <-> s = []).
  { intros [|]; unfold len; simpl; split; (done || lia). }
  rewrite (i64_small (_ + _)) in H by (unfold is_i64, minInt64; lia).
  split.
  - intros Hno Hcase. symmetry in H. rewrite H. clear H. set (r := (0, true, 0)).
    destruct (_ || _ || _) eqn:E1; [done|].
    destruct (negb (Z.rem (len data) _ =? 0)) eqn:E2; [done|].
    destruct (_ && (_ && _ && _)) eqn:E3; [exfalso|].
    + bool_hyps. pose proof (len_nonneg data). 
      rewrite Z.rem_mod_nonneg in * by lia.
      destruct Hcase as [->|[?|[?|[?|[?|[?|Hp]]]]]]; try done; try lia.
      apply Hz in Hp. lia.
    + replace (_ && _) with false; [done|]. destruct Hno as [->| ->]; [done|].
      cbn [length]. by rewrite andb_false_r.
  - intros Hd Hp Ho Hl Ha Hs Hh. cbn zeta.
    assert (0 < len data) by (destruct (Z.eq_dec (len data) 0) as [E|]; [by apply Hz in E|pose proof (len_nonneg data); lia]).
    assert (0 < len (PieceHashesV1 m)) by (destruct (Z.eq_dec (len (PieceHashesV1 m)) 0) as [E|]; [by apply Hz in E|pose proof (len_nonneg (PieceHashesV1 m)); lia]).
    rewrite !Z.rem_mod_nonneg in H by lia. rewrite Hl, Ha in H.
    replace ((len data =? 0) || (PieceLength m <=? 0) || (off <? 0)) with false in H by lia.
    replace ((0 <? len (PieceHashesV1 m)) && _) with true in H by lia. cbn [negb Z.eqb] in H.
    unfold verifyWindowV1 in H. rewrite (i64_small (_ + _)) in H by (unfold is_i64, minInt64; lia).
    rewrite !Z.quot_div_nonneg in H by lia.
    set (P := PieceLength m) in *. set (start := StartOffset f + off) in *.
    assert (Es : start = P * (start / P)) by (pose proof (Z.div_mod start P); lia).
    assert (En : len data = P * (len data / P)) by (pose proof (Z.div_mod (len data) P); lia).
    apply window_loop_spec in H as (W1 & W2 & _).
    rewrite Z2Nat.id in W1, W2 by (apply Z.div_pos; lia).
    set (q := start / P) in *. set (k := len data / P) in *.
    assert (Hin : forall j, 0 <= j < 0 + k -> 0 <= q + j < len (PieceHashesV1 m) / 20 ->
      piece_in_window m start (len data) (q + j)).
    { intros j Hj [Hj1 Hj2]. pose proof (Z.mul_div_le (len (PieceHashesV1 m)) 20 ltac:(lia)).
      unfold piece_in_window. fold P. split_and!; [nia|nia|lia|lia]. }
    assert (Hsl : forall j, piece_matches m start data (q + j) <->
      sha1 (slice data (j * P) ((j + 1) * P)) = slice (PieceHashesV1 m) ((q + j) * 20) ((q + j) * 20 + 20)).
    { intros j. unfold piece_matches. fold P. 
      replace ((q + j) * P - start) with (j * P) by lia.
      replace ((q + j + 1) * P - start) with ((j + 1) * P) by lia. done. }
    split.
    + rewrite W1. split; intros HW.
      * intros idx (Hi1 & Hi2 & Hi3 & Hi4). fold P in Hi1, Hi2.
        replace idx with (q + (idx - q)) by lia. apply Hsl, HW.
        -- split; [nia|]. nia.
        -- split; [lia|]. replace (q + (idx - q)) with idx by lia. 
           pose proof (Z.div_le_mono (idx * 20 + 20) (len (PieceHashesV1 m)) 20 ltac:(lia) Hi4) as Hq.
           replace (idx * 20 + 20) with ((idx + 1) * 20) in Hq by lia. rewrite Z.div_mul in Hq; lia.
      * intros j Hj Hrange. apply Hsl, HW, Hin; done.
    + intros Hf. destruct (W2 Hf) as (j & Hj & Hb & -> & Hne). split; [by apply Hin|].
      intros Hm. by apply Hsl in Hm.
Qed.

End Window.

(** ** Geometry of a proof domain *)

Lemma geometry_spec files file : forall t k total' k',
  Forall (fun f => is_i64 (EndOffset f)) files -> 0 <= t ->
  geometry_loop files file t k = Some (total', k') ->
  contiguous t files /\ t <= total' /\ total' = t + total files /\ k <= k' /\ (k < k' -> file ∈ files) /\
  (file ∈ files -> EndOffset file <= total') /\ (files <> [] -> is_i64 total').
Proof.
  induction files as [|e files IH]; intros t k total' k' Hty Ht H; cbn [geometry_loop] in H.
  { injection H as <- <-. simpl. split_and!; try done; try lia. intros H; by apply not_elem_of_nil in H. }
  apply list.Forall_cons in Hty as [He Hty]. destruct (_ || _ || _ || _) eqn:E; [done|]. bool_hyps. subst t.
  rewrite i64_small in * by (unfold is_i64, minInt64, maxInt64 in *; lia).
  apply IH in H as (G1 & G2 & G3 & G4 & G5 & G6 & G7); [|done|lia].
  assert (E' : StartOffset e + Size e = EndOffset e) by lia.
  cbn [contiguous total foldr]. fold (total files). rewrite E'. split_and!; try done; try lia.
  - case_decide; lia.
  - case_decide as Ed; [intros _; subst; left|]. intros Hk. right. apply G5. lia.
  - intros [<-|Hin]%elem_of_cons; [lia|auto].
  - intros _. destruct files; [|by apply G7]. cbn [total foldr] in G3. by replace total' with (EndOffset e) by lia.
Qed.

(** What [NewProofDomain] checked. *)
Record domain_ok (m : TorrentMeta) (f : FileEntry) (d : ProofDomain) : Prop := {
  do_meta : d_meta d = m;
  do_file : d_file d = f;
  do_plen : 0 < PieceLength m <= MaxProofBlockBytes;
  do_size : 0 < Size f;
  do_start : 0 <= StartOffset f;
  do_end : EndOffset f = StartOffset f + Size f;
  do_in : f ∈ Files m;
  do_cont : contiguous 0 (Files m);
  do_total : d_totalSize d = total (Files m);
  do_bound : EndOffset f <= d_totalSize d <= maxInt64;
  do_v1 : d_v1 d = domain_v1 m (d_totalSize d);
  do_v2 : domain_v2 m f = (d_v2Root d, d_v2Layer d)
}.

Lemma NewProofDomain_ok m f d :
  typed_meta m -> NewProofDomain (Some m) (Some f) = Some d -> domain_ok m f d.
Proof.
  intros [] H. unfold NewProofDomain in H.
  destruct (_ || _ || _ || _ || _ || _) eqn:E; [done|]. bool_hyps.
  destruct (geometry_loop _ _ _ _) as [[t k]|] eqn:G; [|done].
  apply geometry_spec in G as (G1 & G2 & G3 & G4 & G5 & G6 & G7); [|done|lia].
  destruct (negb (k =? 1) || (t <=? 0)) eqn:E2; [done|]. bool_hyps.
  assert (Hin : f ∈ Files m) by (apply G5; lia).
  assert (Hf : is_i64 (EndOffset f)) by (rewrite list.Forall_forall in ty_files0; by apply ty_files0).
  assert (Ht : is_i64 t) by (apply G7; intros En; rewrite En in Hin; by apply not_elem_of_nil in Hin).
  rewrite i64_small in * by (unfold is_i64, minInt64, maxInt64 in *; lia).
  destruct (domain_v2 m f) as [root layer] eqn:E3. destruct (_ || _); [done|]. injection H as <-.
  specialize (G6 Hin). unfold is_i64 in *.
  split; cbn [d_meta d_file d_totalSize d_v1 d_v2Root d_v2Layer]; try done; lia.
Qed.

Lemma i64_pred x : i64 (i64 x - 1) = i64 (x - 1).
Proof. apply i64_add. Qed.

Lemma i64_over x : maxInt64 < x < 2 ^ 64 - 1 -> i64 x = x - 2 ^ 64.
Proof.
  unfold i64, maxInt64. intros H. replace (x + 2 ^ 63) with (x - 2 ^ 63 + 1 * 2 ^ 64) by lia.
  rewrite Z.mod_add, Z.mod_small by lia. lia.
Qed.

(** The hash count a v1 domain was accepted with covers every piece. *)
Lemma domain_v1_count m t o :
  0 < PieceLength m <= MaxProofBlockBytes -> 0 <= o < t -> t <= maxInt64 -> domain_v1 m t = true ->
  o / PieceLength m * 20 + 20 <= len (PieceHashesV1 m).
Proof.
  unfold domain_v1. change MaxProofBlockBytes with 67108864. set (P := PieceLength m). intros HP Ho Ht H.
  destruct (_ && _) eqn:E; [|done]. bool_hyps. rewrite i64_pred in H.
  pose proof (len_nonneg (PieceHashesV1 m)) as Hl.
  rewrite Z.rem_mod_nonneg in * by lia. rewrite Z.quot_div_nonneg in H by lia.
  pose proof (Z.div_mod (len (PieceHashesV1 m)) 20) as Hdm.
  destruct (Z.le_gt_cases (t + P - 1) maxInt64).
  - rewrite i64_small in H by (unfold is_i64, minInt64; lia). rewrite Z.quot_div_nonneg in H by lia.
    assert (o / P + 1 <= (t + P - 1) / P).
    { apply Z.div_le_lower_bound; [lia|]. pose proof (Z.mul_div_le o P). nia. }
    lia.
  - exfalso. rewrite i64_over in H by (unfold maxInt64 in *; lia).
    assert (Z.quot (t + P - 1 - 2 ^ 64) P <= 0).
    { rewrite <-(Z.opp_involutive (t + P - 1 - 2 ^ 64)), Z.quot_opp_l by lia.
      pose proof (Z.quot_pos (- (t + P - 1 - 2 ^ 64)) P). unfold maxInt64 in *. lia. }
    assert (len (PieceHashesV1 m) / 20 = 0) by lia. lia.
Qed.

(** The piece of the stream at an absolute offset and where it ends. *)
Definition piece_start (P o : Z) : Z := o / P * P.
Definition piece_end (P total o : Z) : Z := Z.min total (o / P * P + P).

Lemma proofAtV1_spec m f d o p :
  typed_meta m -> domain_ok m f d -> d_v1 d = true -> 0 <= o < Size f ->
  proofAtV1 d o = Some p ->
  let abs := StartOffset f + o in
  let P := PieceLength m in
  p_Provenance p = ProvenanceTorrentPiece /\
  StartOffset f + p_Offset p = piece_start P abs /\
  p_Offset p + p_Length p = piece_end P (d_totalSize d) abs - StartOffset f /\
  0 <= p_Offset p /\ p_Offset p + p_Length p <= Size f /\
  0 <= abs / P /\ abs / P * 20 + 20 <= len (PieceHashesV1 m) /\
  p_digest p = slice (PieceHashesV1 m) (abs / P * 20) (abs / P * 20 + 20).
Proof.
  intros [] [] Hv1 Ho. unfold proofAtV1. rewrite do_meta0, do_file0. set (P := PieceLength m) in *.
  unfold is_i64, MaxProofBlockBytes in *. change (Z.shiftl 64 20) with 67108864 in *.
  rewrite (i64_small (StartOffset f + o)) by (unfold is_i64, minInt64; lia).
  set (abs := StartOffset f + o).
  destruct (Z.ltb_spec abs (StartOffset f)); [lia|].
  rewrite Z.quot_div_nonneg by lia. pose proof (Z.mul_div_le abs P ltac:(lia)) as Hq.
  pose proof (Z.div_pos abs P ltac:(lia) ltac:(lia)) as Hq0.
  pose proof (Z.mul_succ_div_gt abs P ltac:(lia)) as Hq1.
  set (q := abs / P) in *.
  assert (Hstart : i64 (q * P) = q * P) by (apply i64_small; unfold is_i64, minInt64; nia).
  rewrite Hstart.
  assert (Hfin : (if (i64 (q * P + P) <? q * P) || (d_totalSize d <? i64 (q * P + P)) then d_totalSize d
    else i64 (q * P + P)) = piece_end P (d_totalSize d) abs).
  { unfold piece_end. fold q. destruct (Z.le_gt_cases (q * P + P) maxInt64).
    - rewrite i64_small by (unfold is_i64, minInt64; nia).
      destruct (Z.ltb_spec (q * P + P) (q * P)), (Z.ltb_spec (d_totalSize d) (q * P + P)); cbn [orb]; lia.
    - rewrite i64_over by (unfold maxInt64 in *; lia). destruct (Z.ltb_spec (q * P + P - 2 ^ 64) (q * P)); [|lia]. cbn [orb]. lia. }
  cbv zeta. rewrite Hfin. 
  assert (Hend : piece_end P (d_totalSize d) abs <= d_totalSize d) by (unfold piece_end; lia).
  set (fin := piece_end P (d_totalSize d) abs) in *.
  destruct (_ || _ || _) eqn:E; [done|]. bool_hyps.
  destruct ((i64 (q * 20) <? 0) || _) eqn:E2; [done|]. bool_hyps. intros [= <-].
  cbn [p_Provenance p_Offset p_Length p_digest].
  assert (Hd : q * 20 + 20 <= len (PieceHashesV1 m) /\ i64 (q * 20) = q * 20).
  { pose proof (domain_v1_count m (d_totalSize d) abs) as Hc. fold P q in Hc.
    specialize (Hc ltac:(done) ltac:(unfold abs; lia) ltac:(lia) ltac:(congruence)). split; [done|]. apply i64_small. unfold is_i64, minInt64. lia. }
  destruct Hd as [Hd1 Hd2]. rewrite Hd2.
  rewrite !i64_small by (unfold is_i64, minInt64, maxInt64 in *; lia). unfold piece_start. fold q.
  split_and!; try done; try lia.
Qed.

Lemma validV2_block P : validV2PieceLength P = true -> v2BlockSize <= P.
Proof. unfold validV2PieceLength. destruct (_ || _ || _) eqn:E; [done|]. bool_hyps. lia. Qed.

(** The v2 root of a domain, when it is there, is 32 bytes long. *)
Lemma domain_v2_root m f root layer :
  domain_v2 m f = (root, layer) -> len root = 32 -> v2BlockSize <= PieceLength m.
Proof.
  unfold domain_v2. destruct (dict_get _ _); [|by intros [= <- <-]].
  destruct (validV2PieceLength _) eqn:Ev; [|by intros [= <- <-]]. intros _ _. by apply validV2_block.
Qed.

Lemma proofAtV2_spec m f d o p :
  typed_meta m -> domain_ok m f d -> 0 <= o < Size f -> proofAtV2 d o = Some p ->
  p_Provenance p = ProvenanceTorrentMerkle /\
  0 <= p_Offset p <= o /\ o < p_Offset p + p_Length p <= Size f /\ p_Length p <= PieceLength m /\
  len (p_digest p) = 32.
Proof.
  intros [] [] Ho. unfold proofAtV2. rewrite do_meta0, do_file0. set (P := PieceLength m) in *.
  unfold is_i64, MaxProofBlockBytes in *. change (Z.shiftl 64 20) with 67108864 in *.
  destruct (negb _) eqn:Er; [done|]. bool_hyps.
  pose proof (domain_v2_root _ _ _ _ do_v4 Er) as HP. fold P in HP. unfold v2BlockSize in HP.
  destruct (Z.leb_spec (Size f) P).
  { intros [= <-]. cbn. split_and!; try done; lia. }
  rewrite Z.quot_div_nonneg by lia. pose proof (Z.mul_div_le o P ltac:(lia)) as Hq.
  pose proof (Z.div_pos o P ltac:(lia) ltac:(lia)). pose proof (Z.mul_succ_div_gt o P ltac:(lia)).
  assert (o / P <= o / 16384) by (apply Z.div_le_compat_l; lia).
  pose proof (Z.mul_div_le o 16384 ltac:(lia)). set (q := o / P) in *.
  rewrite (i64_small (q * P)) by (unfold is_i64, minInt64; nia).
  rewrite (i64_small (Size f - q * P)) by (unfold is_i64, minInt64; nia).
  rewrite (i64_small (q * 32)) by (unfold is_i64, minInt64; lia).
  rewrite (i64_small (q * 32 + 32)) by (unfold is_i64, minInt64, maxInt64 in *; lia).
  cbv zeta. destruct (_ || _ || _) eqn:E; [done|]. bool_hyps. intros [= <-].
  cbn [p_Provenance p_Offset p_Length p_digest].
  rewrite slice_len by lia. destruct (Z.ltb_spec (Size f - q * P) P); split_and!; try done; lia.
Qed.

(** What a proof of either kind says about its span. *)
Lemma ProofAt_cases m f d o p :
  typed_meta m -> domain_ok m f d -> ProofAt d o = Some p ->
  0 <= o < Size f /\
  ((d_v1 d = true /\ proofAtV1 d o = Some p) \/ proofAtV2 d o = Some p).
Proof.
  intros Ht Hd H. unfold ProofAt in H. rewrite (do_file _ _ _ Hd) in H.
  destruct (_ || _) eqn:E; [done|]. bool_hyps. split; [lia|].
  destruct (d_v1 d); [|auto]. destruct (proofAtV1 d o); [injection H as <-|]; auto.
Qed.

(** A proof a domain hands out is about the offset that was asked for: its
    span contains the offset, lies inside the file, is at most one piece and at
    most 64 MiB long, and carries a digest of the length of its algorithm. *)
Theorem proof_span m f d o p :
  typed_meta m -> NewProofDomain (Some m) (Some f) = Some d -> ProofAt d o = Some p ->
  0 <= p_Offset p <= o /\ o < p_Offset p + p_Length p <= Size f /\
  p_Length p <= PieceLength m <= MaxProofBlockBytes /\
  len (p_digest p) = (match p_Provenance p with ProvenanceTorrentPiece => 20 | ProvenanceTorrentMerkle => 32 end).
Proof.
  intros Ht Hd%NewProofDomain_ok Hp; [|done].
  destruct (ProofAt_cases _ _ _ _ _ Ht Hd Hp) as [Ho [[Hv Hp1]|Hp2]].
  - pose proof (proofAtV1_spec _ _ _ _ _ Ht Hd Hv Ho Hp1) as (-> & E1 & E2 & E3 & E4 & E5 & E6 & ->).
    destruct Hd. rewrite slice_len by lia. unfold piece_start, piece_end in *.
    pose proof (Z.mul_div_le (StartOffset f + o) (PieceLength m) ltac:(lia)).
    pose proof (Z.mul_succ_div_gt (StartOffset f + o) (PieceLength m) ltac:(lia)).
    split_and!; lia.
  - pose proof (proofAtV2_spec _ _ _ _ _ Ht Hd Ho Hp2) as (-> & ? & ? & ? & ?). destruct Hd. split_and!; lia.
Qed.

(** A torrent of one 3-byte file and one v1 piece. *)
Definition demo_file : FileEntry := MkFileEntry (str "x") 3 0 3.
Definition demo_stream : bytes := [1; 2; 3].
Definition demo_meta : TorrentMeta :=
  MkTorrentMeta (str "x") (str "00") [] 1 16384 [demo_file] (toy_hash 20 demo_stream) [] [].
Definition demo_domain : ProofDomain := MkProofDomain demo_meta demo_file 3 true [] [].
Definition demo_proof : NativeProof :=
  MkNativeProof ScopeBlock 0 3 AlgorithmSHA1 ProvenanceTorrentPiece (toy_hash 20 demo_stream) 0.

Lemma demo_typed : typed_meta demo_meta.
Proof.
  split.
  - unfold is_i64, minInt64, maxInt64. simpl. lia.
  - repeat constructor; unfold minInt64, maxInt64; simpl; lia.
  - unfold maxInt64, len. simpl. lia.
  - done.
Qed.

Lemma proof_span_witness : p_Offset demo_proof + p_Length demo_proof <= 3.
Proof.
  destruct (proof_span demo_meta demo_file demo_domain 2 demo_proof demo_typed) as (_ & [_ H] & _);
    [reflexivity|reflexivity|exact H].
Defined.

Definition window_meta : TorrentMeta :=
  MkTorrentMeta (str "x") (str "00") [] 1 3 [demo_file] (toy_hash 20 demo_stream) [] [].

Lemma verify_window_v1_witness :
  VerifyWindow (toy_hash 20) (toy_hash 32) (Some window_meta) (Some demo_file) 0 [1; 2; 4] = (1, false, 0) /\
  ~ piece_matches (toy_hash 20) window_meta 0 [1; 2; 4] 0.
Proof.
  split; [reflexivity|].
  refine (proj2 (proj2 (proj2 (verify_window_v1 (toy_hash 20) (toy_hash 32) window_meta demo_file 0
    [1; 2; 4] 1 false 0 _ _) _ _ _ _ _ _ _) _)); try reflexivity; try discriminate; vm_compute; intuition discriminate.
Defined.

(** ** Hashing in chunks *)

Definition never : nat -> bool := fun _ => false.

Lemma slice_snoc s a b c : 0 <= a <= b -> b <= c -> slice s a b ++ slice s b c = slice s a c.
Proof.
  intros. unfold slice.
  replace (drop (Z.to_nat b) s) with (drop (Z.to_nat (b - a)) (drop (Z.to_nat a) s))
    by (rewrite drop_drop; f_equal; lia).
  replace (Z.to_nat (c - a)) with (Z.to_nat (b - a) + Z.to_nat (c - b))%nat by lia.
  by rewrite take_take_drop.
Qed.

Lemma write_chunks_spec fuel ctx data : forall t offset,
  0 <= offset -> Z.of_nat fuel * 65536 > len data - offset -> offset <= len data + 65536 ->
  match write_chunks fuel ctx t data offset (slice data 0 (Z.min offset (len data))) with
  | Ok (w, _) => w = data
  | Err e => e = Cancelled /\ exists n, ctx n = true
  end.
Proof.
  change 65536 with (Z.shiftl 64 10). pose proof (len_nonneg data).
  induction fuel as [|fuel IH]; intros t offset H0 Hf Hb; cbn [write_chunks].
  - rewrite Z.min_r by lia. apply slice_full.
  - destruct (Z.ltb_spec offset (len data)); [|rewrite Z.min_r by lia; apply slice_full].
    destruct (ctx t) eqn:Ec; [eauto|]. change (Z.shiftl 64 10) with 65536 in *.
    replace (Z.min offset (len data)) with offset by lia.
    assert (Ef : (if len data <? offset + 65536 then len data else offset + 65536)
      = Z.min (offset + 65536) (len data)) by (destruct (Z.ltb_spec (len data) (offset + 65536)); lia).
    cbv zeta. rewrite Ef, slice_snoc by lia. apply IH; lia.
Qed.

Lemma hashCancellable_spec h ctx t data :
  match hashCancellable h ctx t data with
  | Ok (dg, _) => dg = h data
  | Err e => e = Cancelled /\ exists n, ctx n = true
  end.
Proof.
  unfold hashCancellable. pose proof (len_nonneg data).
  pose proof (write_chunks_spec (S (length data)) ctx data t 0) as Hw.
  rewrite Z.min_l in Hw by lia. change (slice data 0 0) with (@nil Z) in Hw.
  specialize (Hw ltac:(lia) ltac:(unfold len; lia) ltac:(lia)).
  destruct (write_chunks _ _ _ _ _ _) as [[w t']|e]; cbn [rbind]; [by subst|done].
Qed.

(** Hash material made from the torrent's own content, piece by piece. *)
Definition honest_v1 (sha1 : bytes -> bytes) (m : TorrentMeta) (stream : bytes) : Prop :=
  len stream = total (Files m) /\
  forall idx, 0 <= idx -> idx * 20 + 20 <= len (PieceHashesV1 m) ->
    slice (PieceHashesV1 m) (idx * 20) (idx * 20 + 20)
    = sha1 (slice stream (idx * PieceLength m) (Z.min (len stream) (idx * PieceLength m + PieceLength m))).

(** The v1 proofs of an honest torrent accept its own content and only
    judge by SHA-1: for the piece hashes of a stream, the candidate digest of
    the bytes of the stream at a proof's span is the proof's digest, and any
    bytes whose candidate digest equals it have the length and the SHA-1 of the
    original span. *)
Theorem honest_candidate sha1 sha256 m f d o p stream :
  typed_meta m -> NewProofDomain (Some m) (Some f) = Some d ->
  honest_v1 sha1 m stream ->
  ProofAt d o = Some p -> p_Provenance p = ProvenanceTorrentPiece ->
  let content := slice stream (StartOffset f) (EndOffset f) in
  let original := slice content (p_Offset p) (p_Offset p + p_Length p) in
  CandidateDigest sha1 sha256 p never original = Ok (p_digest p) /\
  forall ctx data, CandidateDigest sha1 sha256 p ctx data = Ok (p_digest p) ->
    len data = len original /\ sha1 data = sha1 original.
Proof.
  intros Ht Hd [Hlen Hh] Hp Hprov content original. apply NewProofDomain_ok in Hd; [|done].
  destruct (ProofAt_cases _ _ _ _ _ Ht Hd Hp) as [Ho [[Hv Hp1]|Hp2]].
  2: { apply (proofAtV2_spec m f) in Hp2 as [E _]; [congruence|done..]. }
  pose proof (proofAtV1_spec _ _ _ _ _ Ht Hd Hv Ho Hp1) as (_ & E1 & E2 & E3 & E4 & E5 & E6 & Edg).
  destruct Hd. set (P := PieceLength m) in *. set (abs := StartOffset f + o) in *.
  unfold piece_start, piece_end in *. rewrite <-do_total0 in Hlen.
  pose proof (Z.mul_div_le abs P ltac:(lia)). pose proof (Z.mul_succ_div_gt abs P ltac:(lia)).
  assert (Eorig : original = slice stream (abs / P * P) (Z.min (len stream) (abs / P * P + P))).
  { unfold original, content. rewrite slice_slice by lia. f_equal; lia. }
  assert (El : len original = p_Length p) by (rewrite Eorig, slice_len by lia; lia).
  assert (Edg' : p_digest p = sha1 original) by (rewrite Edg, Eorig; apply Hh; lia).
  assert (Hmax : p_Length p <= MaxProofBlockBytes) by lia.
  split.
  - unfold CandidateDigest. rewrite Hprov, El, Z.eqb_refl. cbn [never].
    destruct (Z.leb_spec (p_Length p) 0); [lia|].
    destruct (Z.ltb_spec MaxProofBlockBytes (p_Length p)); [lia|]. cbn [orb negb].
    pose proof (hashCancellable_spec sha1 never 1 original) as Hs.
    destruct (hashCancellable _ _ _ _) as [[dg t]|e]; cbn [rbind]; [congruence|].
    by destruct Hs as (_ & n & ?).
  - intros ctx data Hc. unfold CandidateDigest in Hc. rewrite Hprov in Hc.
    destruct (ctx 0%nat); [done|]. destruct (_ || _ || _) eqn:E; [done|]. bool_hyps.
    split; [congruence|]. pose proof (hashCancellable_spec sha1 ctx 1 data) as Hs.
    destruct (hashCancellable _ _ _ _) as [[dg t]|e]; cbn [rbind] in Hc; [|done].
    injection Hc as ->. congruence.
Qed.

Lemma honest_candidate_witness :
  CandidateDigest (toy_hash 20) (toy_hash 32) demo_proof never demo_stream = Ok (toy_hash 20 demo_stream).
Proof.
  destruct (honest_candidate (toy_hash 20) (toy_hash 32) demo_meta demo_file demo_domain 2 demo_proof
    demo_stream demo_typed) as [H _]; [reflexivity| |reflexivity|reflexivity|exact H].
  split; [reflexivity|]. intros idx H1 H2. unfold demo_meta, len in *. cbn in H2.
  assert (idx = 0) as -> by lia. reflexivity.
Defined.

(** ** The v2 piece hash *)

Section Merkle.
Context (sha256 : bytes -> bytes).

(** The root of a complete binary tree of height [h], top down. *)
Fixpoint mroot (h : nat) (leaves : list bytes) : bytes :=
  match h with
  | O => hd [] leaves
  | S h => sha256 (mroot h (take (2 ^ h) leaves) ++ mroot h (drop (2 ^ h) leaves))
  end.

(** The leaf of the i-th block of a piece: the digest of the block, which may be
    short, or of a whole block of zeros past the end of the piece. *)
Definition leaf_of (pieceData : bytes) (i : Z) : bytes :=
  if i * v2BlockSize <? len pieceData
  then sha256 (slice pieceData (i * v2BlockSize) (Z.min (len pieceData) ((i + 1) * v2BlockSize)))
  else sha256 (repeat 0 (Z.to_nat v2BlockSize)).

Lemma pairs_length n level : length level = (2 * n)%nat -> length (pairs sha256 level) = n.
Proof.
  revert level. induction n as [|n IH]; intros level H; [by destruct level|].
  destruct level as [|a [|b level]]; simpl in H; try lia. cbn [pairs length]. f_equal. apply IH. lia.
Qed.

Lemma pairs_take n level : take n (pairs sha256 level) = pairs sha256 (take (2 * n) level).
Proof.
  revert level. induction n as [|n IH]; intros level; [done|].
  replace (2 * S n)%nat with (S (S (2 * n))) by lia.
  destruct level as [|a [|b level]]; [done|done|]. cbn [pairs take]. by rewrite IH.
Qed.

Lemma pairs_drop n level : drop n (pairs sha256 level) = pairs sha256 (drop (2 * n) level).
Proof.
  revert level. induction n as [|n IH]; intros level; [done|].
  replace (2 * S n)%nat with (S (S (2 * n))) by lia.
  destruct level as [|a [|b level]]; [done|done|]. cbn [pairs drop]. by rewrite IH.
Qed.

Lemma mroot_pairs h level : length level = (2 ^ S h)%nat -> mroot (S h) level = mroot h (pairs sha256 level).
Proof.
  revert level. induction h as [|h IH]; intros level H.
  - destruct level as [|a [|b [|c level]]]; try done.
  - cbn [mroot]. rewrite pairs_take, pairs_drop. change (2 * 2 ^ h)%nat with (2 ^ S h)%nat.
    cbn [Nat.pow] in H.
    pose proof (IH (take (2 ^ S h) level)) as H1. pose proof (IH (drop (2 ^ S h) level)) as H2.
    rewrite length_take in H1. rewrite length_drop in H2. cbn [Nat.pow] in H1, H2.
    cbn [mroot Nat.pow] in *. rewrite <-H1, <-H2 by lia. done.
Qed.

Lemma merkleRoot_spec h : forall fuel ctx t level,
  length level = (2 ^ h)%nat -> (h <= fuel)%nat ->
  match merkleRootContext sha256 fuel ctx t level with
  | Ok (root, _) => root = mroot h level
  | Err e => e = Cancelled /\ exists n, ctx n = true
  end.
Proof.
  induction h as [|h IH]; intros fuel ctx t level Hl Hf.
  - destruct fuel; cbn [merkleRootContext]; [done|]. rewrite Hl. done.
  - destruct fuel as [|fuel]; [lia|]. cbn [merkleRootContext].
    assert (1 < length level)%nat by (rewrite Hl; cbn [Nat.pow]; pose proof (Nat.pow_nonzero 2 h); lia).
    destruct (Nat.ltb_spec 1 (length level)); [|lia]. destruct (ctx t) eqn:Ec; [eauto|].
    rewrite mroot_pairs by done. apply IH; [|lia]. apply pairs_length. by rewrite Hl.
Qed.

Lemma leaf_loop_spec n : forall ctx t data i,
  0 <= i ->
  match leaf_loop sha256 n ctx t data (Z.min (len data) (i * v2BlockSize)) with
  | Ok (leaves, _) => leaves = map (leaf_of data) (seqZ i (Z.of_nat n))
  | Err e => e = Cancelled /\ exists k, ctx k = true
  end.
Proof.
  unfold v2BlockSize. induction n as [|n IH]; intros ctx t data i Hi; cbn [leaf_loop]; [done|].
  pose proof (len_nonneg data). rewrite seqZ_cons by lia.
  replace (Z.pred (Z.of_nat (S n))) with (Z.of_nat n) by lia. cbn [map].
  destruct (Z.ltb_spec (Z.min (len data) (i * 16384)) (len data)) as [Hlt|Hge].
  - destruct (ctx t) eqn:Ec; [eauto|]. unfold v2BlockSize. cbv zeta.
    assert (Ef : (if len data <? Z.min (len data) (i * 16384) + 16384 then len data
      else Z.min (len data) (i * 16384) + 16384) = Z.min (len data) ((i + 1) * 16384))
      by (destruct (Z.ltb_spec (len data) (Z.min (len data) (i * 16384) + 16384)); lia).
    rewrite Ef. specialize (IH ctx (S t) data (i + 1) ltac:(lia)).
    destruct (leaf_loop _ _ _ _ _ _) as [[leaves t']|e]; cbn [rbind]; [|done].
    rewrite IH, <-Z.add_1_r. f_equal. unfold leaf_of, v2BlockSize.
    replace (Z.min (len data) (i * 16384)) with (i * 16384) by lia.
    by destruct (Z.ltb_spec (i * 16384) (len data)); [|lia].
  - assert (Hz : forall j, i <= j -> leaf_of data j = zeroBlockHash sha256).
    { intros j Hj. unfold leaf_of, v2BlockSize. destruct (Z.ltb_spec (j * 16384) (len data)); [nia|done]. }
    rewrite <-(Hz i) at 1 by lia. cbn [repeat]. rewrite (Hz i) by lia. f_equal. clear -Hz Hi.
    assert (Hs : forall j, i <= j -> repeat (zeroBlockHash sha256) n = map (leaf_of data) (seqZ j (Z.of_nat n))).
    { induction n as [|n IH]; intros j Hj; [done|]. rewrite seqZ_cons by lia. cbn [map repeat].
      rewrite Hz by lia. f_equal. replace (Z.pred (Z.of_nat (S n))) with (Z.of_nat n) by lia. apply IH. lia. }
    apply Hs. lia.
Qed.

(** The v2 hash of a piece of [2^h] blocks is the root of the complete
    binary tree over its block digests, whatever the cancellation polls answer
    unless one of them cancels; blocks past the end of the data count as the
    digest of a block of zeros, so a full piece needs no padding at all. *)
Theorem piece_hash_merkle h ctx t data :
  match computeV2PieceHashContext sha256 ctx t data (2 ^ Z.of_nat h * v2BlockSize) with
  | Ok (root, _) =>
      root = mroot h (map (leaf_of data) (seqZ 0 (2 ^ Z.of_nat h))) /\
      (len data = 2 ^ Z.of_nat h * v2BlockSize ->
       root = mroot h (map (fun i => sha256 (slice data (i * v2BlockSize) ((i + 1) * v2BlockSize)))
                        (seqZ 0 (2 ^ Z.of_nat h))))
  | Err e => e = Cancelled /\ exists n, ctx n = true
  end /\
  computeV2PieceHash sha256 data (2 ^ Z.of_nat h * v2BlockSize)
  = mroot h (map (leaf_of data) (seqZ 0 (2 ^ Z.of_nat h))).
Proof.
  assert (Hp : 0 < 2 ^ Z.of_nat h) by lia.
  assert (Hn : Z.of_nat (Z.to_nat (2 ^ Z.of_nat h)) = 2 ^ Z.of_nat h) by lia.
  assert (Hpow : Z.to_nat (2 ^ Z.of_nat h) = (2 ^ h)%nat) by (rewrite <-(Nat2Z.id (2 ^ h)), Nat2Z.inj_pow; done).
  assert (Hall : forall ctx t, match computeV2PieceHashContext sha256 ctx t data (2 ^ Z.of_nat h * v2BlockSize) with
    | Ok (root, _) => root = mroot h (map (leaf_of data) (seqZ 0 (2 ^ Z.of_nat h)))
    | Err e => e = Cancelled /\ exists n, ctx n = true end).
  { clear ctx t. intros ctx t. unfold computeV2PieceHashContext. rewrite Z.quot_mul by done.
    destruct (Z.ltb_spec (2 ^ Z.of_nat h) 1); [lia|]. cbv zeta.
    pose proof (leaf_loop_spec (Z.to_nat (2 ^ Z.of_nat h)) ctx t data 0 ltac:(lia)) as Hl.
    rewrite Z.min_r in Hl by (pose proof (len_nonneg data); lia). rewrite Hn in Hl. cbn [Z.mul] in Hl.
    destruct (leaf_loop _ _ _ _ _ _) as [[leaves t']|e]; cbn [rbind]; [|done]. subst leaves.
    apply merkleRoot_spec; rewrite length_map, length_seqZ, Hpow; [done|].
    pose proof (Nat.pow_gt_lin_r 2 h). lia. }
  split.
  - specialize (Hall ctx t). destruct (computeV2PieceHashContext _ _ _ _ _) as [[root t']|e]; [|done].
    split; [done|]. intros Hlen. rewrite Hall. f_equal. apply map_ext_in. intros i Hi%list_elem_of_In.
    apply elem_of_seqZ in Hi. unfold leaf_of, v2BlockSize in *.
    destruct (Z.ltb_spec (i * 16384) (len data)); [|nia]. do 2 f_equal. nia.
  - specialize (Hall (fun _ => false) 0%nat). unfold computeV2PieceHash.
    destruct (computeV2PieceHashContext _ _ _ _ _) as [[root t']|e]; [done|]. by destruct Hall as (_ & ? & ?).
Qed.

End Merkle.
