(* ===== verification/Doubles.v ===== *)
(** IEEE doubles: the arithmetic of Go's float64 on the axiom-free floats of the
    Standard Library, and the laws of their order. *)

From Stdlib Require Import ZArith Lia SpecFloat.
From stdpp Require Import base numbers.
From S2P Require Import Prelude.

Local Open Scope Z_scope.

(** [float64(n)], rounded to nearest. *)
Definition float64 (n : Z) : spec_float := binary_normalize 53 1024 n 0 false.

Definition fdiv : spec_float -> spec_float -> spec_float := SFdiv 53 1024.
Definition fsub : spec_float -> spec_float -> spec_float := SFsub 53 1024.

Definition inf : spec_float := S754_infinity false.

(** ** The order

    A double that is a number is its sign, exponent and mantissa, compared in that
    order; NaN compares with nothing. *)

Definition rank (x : spec_float) : option (Z * Z * Z) :=
  match x with
  | S754_nan => None
  | S754_infinity true => Some (-2, 0, 0)
  | S754_finite true m e => Some (-1, - e, Zneg m)
  | S754_zero _ => Some (0, 0, 0)
  | S754_finite false m e => Some (1, e, Zpos m)
  | S754_infinity false => Some (2, 0, 0)
  end.

Definition rank_lt (a b : Z * Z * Z) : Prop :=
  let '(a1, a2, a3) := a in let '(b1, b2, b3) := b in
  a1 < b1 \/ a1 = b1 /\ (a2 < b2 \/ a2 = b2 /\ a3 < b3).

Lemma SFltb_rank x y : SFltb x y = true <-> exists a b, rank x = Some a /\ rank y = Some b /\ rank_lt a b.
Proof.
  assert (Hc : forall m n, PosDef.Pos.compare_cont Eq m n = (Zpos m ?= Zpos n)) by done.
  unfold SFltb. destruct x as [[]|[]| |[] m e], y as [[]|[]| |[] n f]; cbn [SFcompare rank]; rewrite ?Hc;
    (split; [|intros (a & b & [= <-] & [= <-] & Hl); cbn in Hl]);
    try (intros _; do 2 eexists; split_and!; [done..|cbn; lia]); try done; try (exfalso; lia);
    destruct (Z.compare_spec e f); try (destruct (Z.compare_spec (Zpos m) (Zpos n))); cbn; try done;
    try (exfalso; lia); intros _; do 2 eexists; (split_and!; [done..|cbn; lia]).
Qed.

Lemma double_rank_trans a b c : rank_lt a b -> rank_lt b c -> rank_lt a c.
Proof. destruct a as [[a1 a2] a3], b as [[b1 b2] b3], c as [[c1 c2] c3]. cbn. lia. Qed.

Lemma SFltb_irrefl x : SFltb x x = false.
Proof.
  destruct (SFltb x x) eqn:E; [|done]. apply SFltb_rank in E as (a & b & E1 & E2 & Hl). rewrite E1 in E2. injection E2 as <-.
  destruct a as [[a1 a2] a3]. cbn in Hl. lia.
Qed.

Lemma SFltb_trans x y z : SFltb x y = true -> SFltb y z = true -> SFltb x z = true.
Proof.
  rewrite !SFltb_rank. intros (a & b & Ha & Hb & Hl) (b' & c & Hb' & Hc & Hl'). rewrite Hb in Hb'. injection Hb' as <-.
  exists a, c. split_and!; [done..|]. by eapply double_rank_trans.
Qed.

(** What is not below a bound stays so below any smaller one. *)
Lemma SFltb_false_trans x y z : SFltb x y = false -> SFltb z y = true -> SFltb x z = false.
Proof. intros Hx Hz. destruct (SFltb x z) eqn:E; [|done]. by rewrite (SFltb_trans _ _ _ E Hz) in Hx. Qed.

Lemma SFltb_asym x y : SFltb x y = true -> SFltb y x = false.
Proof. intros H. destruct (SFltb y x) eqn:E; [|done]. pose proof (SFltb_trans _ _ _ H E). by rewrite SFltb_irrefl in *. Qed.

(** A double within a bound is a number, and below infinity with the bound. *)
Lemma SFleb_inf x y : SFleb x y = true -> SFltb y inf = true -> SFltb x inf = true /\ SFltb y x = false.
Proof.
  destruct x as [[]|[]| |[] m e], y as [[]|[]| |[] n f]; try done; cbn; try done; unfold SFleb, SFltb; cbn.
  all: rewrite ?(Z.compare_antisym e f); destruct (e ?= f); cbn; try done.
  all: change (PosDef.Pos.compare_cont Eq) with Pos.compare; rewrite (Pos.compare_antisym m n); by destruct (m ?= n)%positive.
Qed.

(** Two numbers neither of which is below the other are the same number. *)
Lemma rank_total x y : SFltb x inf = true -> SFltb y inf = true -> SFltb x y = false -> SFltb y x = false -> rank x = rank y.
Proof.
  intros (a & i & Ha & Hi & _)%SFltb_rank (b & j & Hb & Hj & _)%SFltb_rank Hxy Hyx. rewrite Ha, Hb. f_equal.
  assert (~ rank_lt a b) by (intros Hl; assert (SFltb x y = true) by (apply SFltb_rank; by exists a, b); congruence).
  assert (~ rank_lt b a) by (intros Hl; assert (SFltb y x = true) by (apply SFltb_rank; by exists b, a); congruence).
  destruct a as [[a1 a2] a3], b as [[b1 b2] b3]. cbn in *. assert (a1 = b1) by lia. assert (a2 = b2) by lia. assert (a3 = b3) by lia. congruence.
Qed.

Lemma rank_same x y : rank x = rank y -> rank x <> None -> x = y \/ exists s t, x = S754_zero s /\ y = S754_zero t.
Proof.
  destruct x as [s|[]| |[] m e], y as [t|[]| |[] n f]; cbn; intros E Hn; try done; (try by left); (try by right; do 2 eexists); left; injection E; intros; f_equal; lia.
Qed.

(** The sign of a zero does not show. *)
Lemma fsub_zeros s t d tol : SFleb (fsub (S754_zero s) d) tol = SFleb (fsub (S754_zero t) d) tol.
Proof. destruct s, t, d as [[]|[]| |[]], tol as [[]|[]| |[]]; reflexivity. Qed.

Lemma shl_align_same m e : fst (shl_align m e (Z.min e e)) = m.
Proof. rewrite Z.min_id. unfold shl_align. by rewrite Z.sub_diag. Qed.

(** A number less itself is zero. *)
Lemma fsub_same x y : rank x = rank y -> SFltb x inf = true -> SFltb x (S754_zero false) = false -> exists s, fsub x y = S754_zero s.
Proof.
  intros Hr Hi Hz. destruct (rank_same x y Hr) as [<-|(s & t & -> & ->)].
  - destruct x as [s|[]| |[] m e]; try done.
  - destruct x as [s|[]| |[] m e]; try done; [destruct s; by eexists|]. exists false. unfold fsub, SFsub. rewrite !shl_align_same. cbn [cond_Zopp]. by rewrite Z.sub_diag.
  - destruct s, t; by eexists.
Qed.

Lemma SFleb_of_ltb x y : SFltb x inf = true -> SFltb y inf = true -> SFltb y x = false -> SFleb x y = true.
Proof.
  destruct x as [[]|[]| |[] m e], y as [[]|[]| |[] n f]; try done; intros _ _; unfold SFleb, SFltb; cbn; try done.
  all: rewrite ?(Z.compare_antisym e f); destruct (e ?= f); cbn; try done.
  all: change (PosDef.Pos.compare_cont Eq) with Pos.compare; rewrite (Pos.compare_antisym m n); by destruct (m ?= n)%positive.
Qed.

Lemma fsub_inf d : SFltb d inf = true -> SFltb d (S754_zero false) = false -> fsub inf d = inf.
Proof. by destruct d as [[]|[]| |[] m e]. Qed.

Example division_demo : SFltb (fdiv (float64 2) (float64 25)) (fdiv (float64 1) (float64 12)) = true.
Proof. vm_compute. reflexivity. Qed.
