(* ===== verification/PlaybackCoverage.v ===== *)
(** Playback coverage: internal/playbackcoverage/coverage.go and its tables in
    internal/store (playback_coverage.go, playback_media_coverage.go,
    playback_proposals.go).

    A table is the list of its rows; a transaction is a function from the tables
    to the tables, and an error leaves them as they were.  Instants count
    nanoseconds from the zero time.  The threshold is an IEEE double, computed
    with the axiom-free floats of the Standard Library.  Driver failures are not
    modelled; constraint failures and the errors the code raises are. *)

From Stdlib Require Import ZArith Lia SpecFloat.
From stdpp Require Import base list numbers strings sets.
From S2P Require Import Prelude Doubles.

Local Open Scope Z_scope.
Local Open Scope harbor_scope.

Definition MaxRepresentationIDBytes : Z := 256.
Definition MaxTargetIDBytes : Z := 256.
Definition DefaultMaxIntervals : Z := 4096.
Definition DefaultWriteTimeout : Z := 5 * second.

Inductive ExtentKind : Type := ExtentDeclaredBytes | ExtentMediaTruth | ExtentVODHLS | ExtentOther (s : bytes).

#[export] Instance ExtentKind_eq_dec : EqDecision ExtentKind.
Proof. solve_decision. Defined.

Record Target := MkTarget { t_ItemID : bytes; t_FileID : bytes; t_Kind : ExtentKind; t_Total : Z }.

Record Interval := MkInterval { Start : Z; End : Z }.

Record Proposal := MkProposal {
  pr_RepresentationID : bytes;
  pr_ItemID : bytes;
  pr_FileID : bytes;
  pr_ExtentKind : ExtentKind;
  pr_Delivered : Z;
  pr_Total : Z;
  pr_Threshold : spec_float;
  pr_CreatedAt : Z
}.

Record Snapshot := MkSnapshot {
  s_RepresentationID : bytes;
  s_Intervals : list Interval;
  s_Delivered : Z;
  s_UpdatedAt : Z
}.

Inductive coverage_error : Type :=
| InvalidRepresentation
| InvalidTarget
| InvalidExtent
| InvalidSpan
| MediaUnavailable
| ProposalUnavailable
| InvalidThreshold
| IntervalLimit
| TotalOverflow
| ConstraintFailed
| InvalidProposal.

(** ** Validation *)

Fixpoint has_prefix (p s : bytes) : bool :=
  match p, s with
  | [], _ => true
  | x :: p, y :: s => (x =? y) && has_prefix p s
  | _ :: _, [] => false
  end.

(** [strings.Contains]. *)
Fixpoint contains (s sub : bytes) : bool :=
  has_prefix sub s || match s with [] => false | _ :: s => contains s sub end.

(** [strings.ContainsAny] with a set of ASCII characters. *)
Definition contains_any (s chars : bytes) : bool := existsb (fun c => existsb (Z.eqb c) chars) s.

(** The characters [\r\n\x00?&=]. *)
Definition forbidden : bytes := [13; 10; 0; 63; 38; 61].

(** Every rune of the string is a printable ASCII character; a byte that is not
    ASCII belongs to a rune above 0x7e. *)
Definition printable (s : bytes) : bool := forallb (fun r => (33 <=? r) && (r <=? 126)) s.

Definition ValidateRepresentationID (v : bytes) : bool :=
  if bool_decide (v = []) || (MaxRepresentationIDBytes <? Z.of_nat (length v)) ||
     contains v (str "://") || contains_any v forbidden then false
  else printable v.

Definition valid_target_id (v : bytes) : bool :=
  if contains v (str "://") || contains_any v forbidden then false else printable v.

Definition ValidateTarget (t : Target) : option coverage_error :=
  if bool_decide (t_ItemID t = []) || bool_decide (t_FileID t = []) ||
     (MaxTargetIDBytes <? Z.of_nat (length (t_ItemID t))) ||
     (MaxTargetIDBytes <? Z.of_nat (length (t_FileID t))) || (t_Total t <=? 0)
  then Some InvalidTarget
  else if negb (forallb valid_target_id [t_ItemID t; t_FileID t]) then Some InvalidTarget
  else match t_Kind t with ExtentOther _ => Some InvalidExtent | _ => None end.

Definition target_ok (t : Target) : bool :=
  match ValidateTarget t with None => true | Some _ => false end.

(** ** Contexts: the three values the package stores in one *)

Record context := Ctx {
  c_representation : option bytes;
  c_target : option Target;
  c_declared : option Z
}.

Definition WithRepresentation (ctx : context) (id : bytes) : context :=
  if ValidateRepresentationID id then Ctx (Some id) (c_target ctx) (c_declared ctx) else ctx.

Definition Representation (ctx : context) : option bytes :=
  match c_representation ctx with
  | Some v => if ValidateRepresentationID v then Some v else None
  | None => None
  end.

Definition WithDeclaredSize (ctx : context) (total : Z) : context :=
  if total <=? 0 then ctx else Ctx (c_representation ctx) (c_target ctx) (Some total).

Definition declaredSizeFromContext (ctx : context) : Z :=
  let total := default 0 (c_declared ctx) in if total <=? 0 then 0 else total.

Definition WithTarget (ctx : context) (t : Target) : context :=
  if target_ok t then Ctx (c_representation ctx) (Some t) (c_declared ctx) else ctx.

Definition targetFromContext (ctx : context) : option Target :=
  match c_target ctx with
  | Some t => if target_ok t then Some t else None
  | None => None
  end.

(** ** Tables *)

(** What both coverage tables have in common. *)
Class IntervalRow (R : Type) := {
  row_rep : R -> bytes;
  row_ivl : R -> Interval;
  row_at : R -> Z
}.

Record coverage_row := CoverageRow { cr_rep : bytes; cr_ivl : Interval; cr_at : Z; cr_declared : Z }.
Record media_row := MediaRow { mr_rep : bytes; mr_ivl : Interval; mr_at : Z }.

#[export] Instance coverage_interval_row : IntervalRow coverage_row :=
  {| row_rep := cr_rep; row_ivl := cr_ivl; row_at := cr_at |}.
#[export] Instance media_interval_row : IntervalRow media_row :=
  {| row_rep := mr_rep; row_ivl := mr_ivl; row_at := mr_at |}.

Section Rows.
Context {R : Type} `{IntervalRow R}.

(** [representation_id=? AND start<=? AND end>=?]. *)
Definition overlaps (rep : bytes) (incoming : Interval) (r : R) : bool :=
  bool_decide (row_rep r = rep) && (Start (row_ivl r) <=? End incoming) &&
  (Start incoming <=? End (row_ivl r)).

Definition of_rep (rep : bytes) (r : R) : bool := bool_decide (row_rep r = rep).

(** [ORDER BY start]. *)
Fixpoint insert_row (r : R) (l : list R) : list R :=
  match l with
  | [] => [r]
  | r' :: l => if Start (row_ivl r') <? Start (row_ivl r) then r' :: insert_row r l else r :: r' :: l
  end.
Definition order_by_start (l : list R) : list R := foldr insert_row [] l.

(** The loop over the overlapping rows. *)
Definition merge_row (merged : Interval) (r : R) : Interval :=
  MkInterval (if Start (row_ivl r) <? Start merged then Start (row_ivl r) else Start merged)
             (if End merged <? End (row_ivl r) then End (row_ivl r) else End merged).

Definition merge_rows (incoming : Interval) (rows : list R) : Interval := fold_left merge_row rows incoming.

(** The constraints of both tables: the checks on the bounds and the primary
    key (representation, start). *)
Definition insert_into (r : R) (rows : list R) : result coverage_error (list R) :=
  if (Start (row_ivl r) <? 0) || (End (row_ivl r) <=? Start (row_ivl r)) ||
     existsb (fun r' => bool_decide (row_rep r' = row_rep r) && (Start (row_ivl r') =? Start (row_ivl r))) rows
  then Err ConstraintFailed
  else Ok (rows ++ [r]).

(** The loop over the rows of a snapshot; [checked] is the overflow test only
    the media table has. *)
Fixpoint snapshot_loop (checked : bool) (maxIntervals : Z) (rows : list R) (s : Snapshot)
    : result coverage_error Snapshot :=
  match rows with
  | [] => Ok s
  | r :: rows =>
      if Z.of_nat (length (s_Intervals s)) =? maxIntervals then Err IntervalLimit
      else
        let n := i64 (End (row_ivl r) - Start (row_ivl r)) in
        if checked && (i64 (maxInt64 - s_Delivered s) <? n) then Err TotalOverflow
        else
          snapshot_loop checked maxIntervals rows
            (MkSnapshot (s_RepresentationID s) (s_Intervals s ++ [row_ivl r])
               (i64 (s_Delivered s + n))
               (if s_UpdatedAt s <? row_at r then row_at r else s_UpdatedAt s))
  end.

(** The snapshot of a representation, and whether it has rows. *)
Definition get_snapshot (checked : bool) (rows : list R) (rep : bytes) (maxIntervals : Z)
    : result coverage_error (Snapshot * bool) :=
  let selected := take (Z.to_nat (maxIntervals + 1)) (order_by_start (List.filter (of_rep rep) rows)) in
  let? s := snapshot_loop checked maxIntervals selected (MkSnapshot rep [] 0 0) in
  Ok (s, negb (length (s_Intervals s) =? 0)%nat).

(** The statements both merges share, from the overlap query to the snapshot;
    [mk] builds the inserted row, which the snapshot then always finds. *)
Definition merge_into (checked : bool) (mk : Interval -> R) (rows : list R) (rep : bytes)
    (incoming : Interval) (maxIntervals : Z) : result coverage_error (list R * Snapshot) :=
  let merged := merge_rows incoming (order_by_start (List.filter (overlaps rep incoming) rows)) in
  let rows := List.filter (fun r => negb (overlaps rep incoming r)) rows in
  let remaining := Z.of_nat (length (List.filter (of_rep rep) rows)) in
  if maxIntervals <=? remaining then Err IntervalLimit
  else
    let? rows := insert_into (mk merged) rows in
    let? (s, _) := get_snapshot checked rows rep maxIntervals in
    Ok (rows, s).

End Rows.

(** ** The store *)

Record tables := Tables {
  playback_coverage : list coverage_row;
  playback_media_coverage : list media_row;
  playback_proposals : list Proposal
}.

(** [SELECT MAX(declared_size)]; [None] is NULL. *)
Definition max_declared (rows : list coverage_row) (rep : bytes) : option Z :=
  fold_right (fun r m =>
    if bool_decide (cr_rep r = rep)
    then Some (match m with Some m => Z.max (cr_declared r) m | None => cr_declared r end)
    else m) None rows.

(** Adopt or reset on the declared size. *)
Definition reconcile_declared (rows : list coverage_row) (rep : bytes) (declaredSize : Z) : list coverage_row :=
  if 0 <? declaredSize then
    match max_declared rows rep with
    | None | Some 0 =>
        map (fun r => if bool_decide (cr_rep r = rep)
                      then CoverageRow (cr_rep r) (cr_ivl r) (cr_at r) declaredSize else r) rows
    | Some stored =>
        if negb (stored =? declaredSize)
        then List.filter (fun r => negb (bool_decide (cr_rep r = rep))) rows
        else rows
    end
  else rows.

Definition MergePlaybackCoverage (db : tables) (rep : bytes) (incoming : Interval) (updatedAt : Z)
    (maxIntervals declaredSize : Z) : result coverage_error (tables * Snapshot) :=
  let rows := reconcile_declared (playback_coverage db) rep declaredSize in
  let? (rows, s) := merge_into false (fun m => CoverageRow rep m updatedAt declaredSize)
                      rows rep incoming maxIntervals in
  Ok (Tables rows (playback_media_coverage db) (playback_proposals db), s).

Definition GetPlaybackCoverage (db : tables) (rep : bytes) (maxIntervals : Z)
    : result coverage_error (Snapshot * bool) :=
  get_snapshot false (playback_coverage db) rep maxIntervals.

Definition MergePlaybackMediaCoverage (db : tables) (rep : bytes) (incoming : Interval) (updatedAt : Z)
    (maxIntervals : Z) : result coverage_error (tables * Snapshot) :=
  let? (rows, s) := merge_into true (fun m => MediaRow rep m updatedAt)
                      (playback_media_coverage db) rep incoming maxIntervals in
  Ok (Tables (playback_coverage db) rows (playback_proposals db), s).

Definition GetPlaybackMediaCoverage (db : tables) (rep : bytes) (maxIntervals : Z)
    : result coverage_error (Snapshot * bool) :=
  get_snapshot true (playback_media_coverage db) rep maxIntervals.

(** *** Doubles *)

Definition float_one : spec_float := float64 1.
Definition float_nan_or_inf (x : spec_float) : bool :=
  match x with S754_nan | S754_infinity _ => true | _ => false end.

(** [x <= 0 || x > 1 || NaN || Inf]. *)
Definition bad_threshold (x : spec_float) : bool :=
  SFleb x (S754_zero false) || SFltb float_one x || float_nan_or_inf x.

Definition CreatePlaybackProposal (db : tables) (p : Proposal) : result coverage_error (tables * bool) :=
  if negb (ValidateRepresentationID (pr_RepresentationID p)) ||
     negb (target_ok (MkTarget (pr_ItemID p) (pr_FileID p) (pr_ExtentKind p) (pr_Total p))) ||
     (pr_Delivered p <=? 0) || bad_threshold (pr_Threshold p) || (pr_CreatedAt p =? 0)
  then Err InvalidProposal
  else if existsb (fun q => bool_decide (pr_RepresentationID q = pr_RepresentationID p)) (playback_proposals db)
  then Ok (db, false)
  else Ok (Tables (playback_coverage db) (playback_media_coverage db) (playback_proposals db ++ [p]), true).

Definition GetPlaybackProposal (db : tables) (rep : bytes) : option Proposal :=
  find (fun q => bool_decide (pr_RepresentationID q = rep)) (playback_proposals db).

(** ** The tracker *)

Record Options := MkOptions {
  o_MaxIntervals : Z;
  o_WriteTimeout : Z;
  o_ProposalEnabled : bool;
  o_ProposalThreshold : spec_float
}.

(** [proposalRepo] is only told apart from nil; the store implements every
    repository interface. *)
Record Tracker := MkTracker {
  maxIntervals : Z;
  writeTimeout : Z;
  proposalRepo : bool;
  proposalThreshold : spec_float
}.

Definition New (opts : Options) : result coverage_error Tracker :=
  let maxIntervals := if o_MaxIntervals opts <=? 0 then DefaultMaxIntervals else o_MaxIntervals opts in
  let writeTimeout := if o_WriteTimeout opts <=? 0 then DefaultWriteTimeout else o_WriteTimeout opts in
  if o_ProposalEnabled opts then
    if bad_threshold (o_ProposalThreshold opts) then Err InvalidThreshold
    else Ok (MkTracker maxIntervals writeTimeout true (o_ProposalThreshold opts))
  else Ok (MkTracker maxIntervals writeTimeout false (S754_zero false)).

Definition is_vod (k : ExtentKind) : bool := bool_decide (k = ExtentVODHLS).

(** [float64(delivered)/float64(total) < threshold]. *)
Definition below_threshold (delivered total : Z) (threshold : spec_float) : bool :=
  SFltb (SFdiv 53 1024 (float64 delivered) (float64 total)) threshold.

Definition maybePropose (t : Tracker) (db : tables) (ctx : context) (rep : bytes) (delivered : Z)
    (observedKind : ExtentKind) (now : Z) : tables * option coverage_error :=
  if negb (proposalRepo t) || (delivered <=? 0) then (db, None)
  else
    match targetFromContext ctx with
    | None => (db, None)
    | Some target =>
        if negb (Bool.eqb (is_vod observedKind) (is_vod (t_Kind target))) ||
           below_threshold delivered (t_Total target) (proposalThreshold t)
        then (db, None)
        else
          match CreatePlaybackProposal db
                  (MkProposal rep (t_ItemID target) (t_FileID target) (t_Kind target) delivered
                     (t_Total target) (proposalThreshold t) now) with
          | Ok (db, _) => (db, None)
          | Err e => (db, Some e)
          end
    end.

(** Both observations return the tables, and the snapshot or the error; [now1]
    and [now2] are the two readings of the clock. *)
Definition Observe (t : Tracker) (db : tables) (ctx : context) (rep : bytes) (offset len now1 now2 : Z)
    : tables * option Snapshot * option coverage_error :=
  if negb (ValidateRepresentationID rep) then (db, None, Some InvalidRepresentation)
  else if (offset <? 0) || (len <=? 0) || (i64 (maxInt64 - len) <? offset) then (db, None, Some InvalidSpan)
  else
    let declaredSize := declaredSizeFromContext ctx in
    let declaredSize :=
      match targetFromContext ctx with
      | Some target => if bool_decide (t_Kind target = ExtentDeclaredBytes) then t_Total target else declaredSize
      | None => declaredSize
      end in
    match MergePlaybackCoverage db rep (MkInterval offset (i64 (offset + len))) now1 (maxIntervals t) declaredSize with
    | Err e => (db, None, Some e)
    | Ok (db, snapshot) =>
        let (db, e) := maybePropose t db ctx rep (s_Delivered snapshot) ExtentDeclaredBytes now2 in
        (db, Some snapshot, e)
    end.

Definition ObserveMedia (t : Tracker) (db : tables) (ctx : context) (rep : bytes) (startNS endNS now1 now2 : Z)
    : tables * option Snapshot * option coverage_error :=
  if negb (ValidateRepresentationID rep) then (db, None, Some InvalidRepresentation)
  else if (startNS <? 0) || (endNS <=? startNS) then (db, None, Some InvalidSpan)
  else
    match MergePlaybackMediaCoverage db rep (MkInterval startNS endNS) now1 (maxIntervals t) with
    | Err e => (db, None, Some e)
    | Ok (db, snapshot) =>
        let (db, e) := maybePropose t db ctx rep (s_Delivered snapshot) ExtentVODHLS now2 in
        (db, Some snapshot, e)
    end.

(** ** Sets of separated intervals *)

Definition valid_interval (i : Interval) : Prop := 0 <= Start i < End i /\ End i <= maxInt64.

(** Two intervals with a gap between them. *)
Definition apart (i j : Interval) : Prop := End i < Start j \/ End j < Start i.

Fixpoint separated (l : list Interval) : Prop :=
  match l with
  | [] => True
  | i :: l => Forall (apart i) l /\ separated l
  end.

Definition inside (x : Z) (i : Interval) : Prop := Start i <= x < End i.
Definition covered (x : Z) (l : list Interval) : Prop := exists i, i ∈ l /\ inside x i.
Definition measure (l : list Interval) : Z := foldr (fun i n => End i - Start i + n) 0 l.

Lemma apart_sym i j : apart i j -> apart j i.
Proof. unfold apart. tauto. Qed.

Lemma separated_perm l1 l2 : l1 ≡ₚ l2 -> separated l1 -> separated l2.
Proof.
  induction 1 as [|i l1 l2 P IH|i j l|l1 l2 l3 _ IH1 _ IH2]; cbn [separated]; [done| | |auto].
  - intros [Hi Hs]. split; [by rewrite <-P|auto].
  - intros [Hi [Hj Hs]]. apply list.Forall_cons in Hi as [Hij Hi].
    split_and!; try done. constructor; [by apply apart_sym|done].
Qed.

Lemma separated_snoc l i : separated l -> Forall (apart i) l -> separated (l ++ [i]).
Proof.
  intros Hs Hi. apply (separated_perm (i :: l)); [|done]. by rewrite Permutation_cons_append.
Qed.

Lemma separated_filter p l : separated l -> separated (List.filter p l).
Proof.
  induction l as [|i l IH]; cbn [separated List.filter]; [done|]. intros [Hi Hs].
  destruct (p i); [|auto]. split; [|auto]. rewrite list.Forall_forall in *.
  intros j Hj%list_elem_of_In%filter_In. apply Hi, list_elem_of_In, Hj.
Qed.

Lemma covered_app x l1 l2 : covered x (l1 ++ l2) <-> covered x l1 \/ covered x l2.
Proof. unfold covered. set_solver. Qed.

Lemma covered_one x i : covered x [i] <-> inside x i.
Proof. unfold covered. set_solver. Qed.

Lemma covered_perm x l1 l2 : l1 ≡ₚ l2 -> covered x l1 <-> covered x l2.
Proof. intros P. unfold covered. by setoid_rewrite P. Qed.

(** Sorted and separated, from [lo] on. *)
Fixpoint chain (lo : Z) (l : list Interval) : Prop :=
  match l with
  | [] => True
  | i :: l => lo <= Start i < End i /\ chain (End i + 1) l
  end.

Lemma chain_weaken lo lo' l : lo' <= lo -> chain lo l -> chain lo' l.
Proof. destruct l; cbn [chain]; [done|]. intros ? [? ?]. split; [lia|done]. Qed.

Lemma chain_bound lo l i : chain lo l -> i ∈ l -> lo <= Start i < End i.
Proof.
  revert lo. induction l as [|j l IH]; intros lo H Hi; [by apply not_elem_of_nil in Hi|].
  destruct H as [Hj H]. apply elem_of_cons in Hi as [->|Hi]; [done|].
  apply (IH _ H) in Hi. lia.
Qed.

Lemma chain_measure lo hi l :
  chain lo l -> lo <= hi -> (forall i, i ∈ l -> End i <= hi) ->
  0 <= measure l <= hi - lo /\ (measure l = hi - lo -> lo = hi \/ l = [MkInterval lo hi]).
Proof.
  revert lo. induction l as [|[a b] l IH]; intros lo H Hlo Hhi; cbn [measure foldr].
  { split; [lia|]. intros. left. lia. }
  destruct H as [Hi H]. cbn [Start End] in *. fold (measure l).
  pose proof (Hhi (MkInterval a b) ltac:(left)) as Hb. cbn [End] in Hb.
  destruct l as [|j l].
  - cbn. split; [lia|]. intros. right. do 2 f_equal; lia.
  - assert (Hj : End j <= hi) by (apply Hhi; right; left). pose proof H as [Hj' _].
    destruct (IH (b + 1) H) as [Hm _]; [lia|intros; apply Hhi; by right|]. lia.
Qed.

(** ** Rows and their intervals *)

Section RowLemmas.
Context {R : Type} `{IntervalRow R}.

Definition intervals (rep : bytes) (rows : list R) : list Interval :=
  map row_ivl (List.filter (of_rep rep) rows).

Definition well_formed (rows : list R) : Prop :=
  forall rep, Forall valid_interval (intervals rep rows) /\ separated (intervals rep rows).

Lemma elem_intervals rep rows i :
  i ∈ intervals rep rows <-> exists r, r ∈ rows /\ row_rep r = rep /\ row_ivl r = i.
Proof.
  unfold intervals. rewrite list_elem_of_fmap. split.
  - intros (r & -> & [Hr E]%list_elem_of_In%filter_In). unfold of_rep in E. bool_hyps.
    exists r. by rewrite list_elem_of_In.
  - intros (r & Hr & <- & <-). exists r. split; [done|]. apply list_elem_of_In, filter_In.
    rewrite <-list_elem_of_In. split; [done|]. unfold of_rep. by rewrite bool_decide_true.
Qed.

Lemma insert_row_perm (r : R) l : insert_row r l ≡ₚ r :: l.
Proof.
  induction l as [|r' l IH]; simpl; [done|]. destruct (_ <? _); [|done]. rewrite IH. constructor.
Qed.

Lemma order_perm (l : list R) : order_by_start l ≡ₚ l.
Proof.
  induction l as [|r l IH]; [done|]. simpl. rewrite insert_row_perm. by constructor.
Qed.

Lemma insert_row_chain lo r (l : list R) :
  chain lo (map row_ivl l) -> lo <= Start (row_ivl r) < End (row_ivl r) ->
  Forall (apart (row_ivl r)) (map row_ivl l) -> chain lo (map row_ivl (insert_row r l)).
Proof.
  revert lo. induction l as [|r' l IH]; intros lo Hc Hr Ha; [by simpl|].
  cbn [map] in *. apply list.Forall_cons in Ha as [Ha' Ha]. destruct Hc as [Hr' Hc]. cbn [insert_row].
  unfold apart in Ha'. destruct (Z.ltb_spec (Start (row_ivl r')) (Start (row_ivl r))); cbn [map chain].
  - split; [done|]. apply IH; [done|lia|done].
  - split_and!; try done; try lia. 
Qed.

Lemma order_chain (l : list R) :
  Forall valid_interval (map row_ivl l) -> separated (map row_ivl l) ->
  chain 0 (map row_ivl (order_by_start l)).
Proof.
  induction l as [|r l IH]; [done|]. cbn [map separated]. intros [Hr Hv]%list.Forall_cons [Ha Hs].
  change (order_by_start (r :: l)) with (insert_row r (order_by_start l)).
  apply insert_row_chain; [auto|destruct Hr; lia|]. by rewrite order_perm.
Qed.

Lemma filter_of_rep_other rep' (rows : list R) (p : R -> bool) :
  (forall r, row_rep r = rep' -> p r = true) ->
  intervals rep' (List.filter p rows) = intervals rep' rows.
Proof.
  intros Hp. unfold intervals. f_equal. induction rows as [|r rows IH]; [done|]. cbn [List.filter].
  unfold of_rep at 2. case_bool_decide as E.
  - rewrite Hp by done. cbn [List.filter]. unfold of_rep at 1. rewrite bool_decide_true by done. by rewrite IH.
  - destruct (p r); cbn [List.filter]; [unfold of_rep at 1; rewrite bool_decide_false by done|]; done.
Qed.

(** Deleting rows by a test on the interval filters the intervals. *)
Lemma intervals_filter rep (rows : list R) (p : R -> bool) (q : Interval -> bool) :
  (forall r, row_rep r = rep -> p r = q (row_ivl r)) ->
  intervals rep (List.filter p rows) = List.filter q (intervals rep rows).
Proof.
  intros Hp. unfold intervals. induction rows as [|r rows IH]; [done|]. cbn [List.filter].
  destruct (of_rep rep r) eqn:E.
  - cbn [map List.filter]. unfold of_rep in E. bool_hyps. rewrite <-Hp by done.
    destruct (p r); cbn [List.filter]; [|done]. unfold of_rep at 1. rewrite bool_decide_true by done.
    cbn [map]. by rewrite IH.
  - destruct (p r); cbn [List.filter]; [rewrite E|]; done.
Qed.

(** *** Merging *)

Definition touches (i j : Interval) : bool := (Start j <=? End i) && (Start i <=? End j).

Lemma touches_apart i j : touches i j = false -> apart i j.
Proof. unfold touches, apart. lia. Qed.

Lemma merge_rows_spec incoming (l : list R) : 
  Start incoming < End incoming -> Forall (fun r => touches incoming (row_ivl r) = true) l ->
  let m := merge_rows incoming l in
  Start m <= Start incoming /\ End incoming <= End m /\
  (Forall (fun r => valid_interval (row_ivl r)) l -> valid_interval incoming -> valid_interval m) /\
  (forall x, inside x m <-> inside x incoming \/ covered x (map row_ivl l)) /\
  (forall j, Start j <= End j -> apart incoming j -> Forall (fun r => apart (row_ivl r) j) l -> apart m j).
Proof.
  intros Hin Hl. cbv zeta. unfold merge_rows.
  induction l as [|r l IH] using rev_ind.
  { cbn. split_and!; try done. intros x. unfold covered. set_solver. }
  apply Forall_app in Hl as [Hl Hr]. apply list.Forall_cons in Hr as [Hr _].
  destruct (IH Hl) as (H1 & H2 & H3 & H4 & H5). rewrite fold_left_app. cbn [fold_left].
  set (m := fold_left merge_row l incoming) in *. unfold touches in Hr. bool_hyps.
  assert (Es : Start (merge_row m r) = Z.min (Start (row_ivl r)) (Start m))
    by (cbn; destruct (Z.ltb_spec (Start (row_ivl r)) (Start m)); lia).
  assert (Ee : End (merge_row m r) = Z.max (End (row_ivl r)) (End m))
    by (cbn; destruct (Z.ltb_spec (End m) (End (row_ivl r))); lia).
  rewrite Es, Ee. split_and!; [lia|lia| | |].
  - intros [Hv [Hvr _]%list.Forall_cons]%Forall_app Hvi. specialize (H3 Hv Hvi).
    unfold valid_interval in *. rewrite Es, Ee. lia.
  - intros x. rewrite map_app, covered_app. cbn [map]. rewrite covered_one.
    pose proof (H4 x) as Hx. unfold inside in *. rewrite Es, Ee. split.
    2: { intros Hc. assert (Start m <= x < End m \/ Start (row_ivl r) <= x < End (row_ivl r)) by tauto. lia. }
    intros Hm. destruct (decide (Start (row_ivl r) <= x < End (row_ivl r))); [tauto|].
    assert (Start m <= x < End m) by lia. tauto.
  - intros j Hle Hj [Ha [Har _]%list.Forall_cons]%Forall_app. specialize (H5 j Hle Hj Ha).
    unfold apart in *. rewrite Es, Ee. lia.
Qed.

(** *** Snapshots *)

Lemma snapshot_loop_spec checked maxI rows : forall s lo,
  chain lo (map row_ivl rows) -> 0 <= lo -> Forall valid_interval (map row_ivl rows) ->
  Z.of_nat (length (s_Intervals s) + length rows) <= maxI -> 0 <= s_Delivered s <= lo ->
  exists s', snapshot_loop checked maxI rows s = Ok s' /\
    s_RepresentationID s' = s_RepresentationID s /\
    s_Intervals s' = s_Intervals s ++ map row_ivl rows /\
    s_Delivered s' = s_Delivered s + measure (map row_ivl rows).
Proof.
  induction rows as [|r rows IH]; intros s lo Hc Hlo Hv Hlen Hd.
  { exists s. cbn. rewrite app_nil_r, Z.add_0_r. done. }
  cbn [map chain] in *. destruct Hc as [Hr Hc]. apply list.Forall_cons in Hv as [Hvr Hv].
  cbn [length] in Hlen. cbn [snapshot_loop]. unfold valid_interval, maxInt64 in Hvr.
  destruct (Z.eqb_spec (Z.of_nat (length (s_Intervals s))) maxI); [lia|].
  rewrite !i64_small by (unfold is_i64, minInt64, maxInt64; lia). cbv zeta.
  replace (checked && _) with false
    by (symmetry; apply andb_false_iff; right; apply Z.ltb_ge; unfold maxInt64; lia).
  destruct (IH (MkSnapshot (s_RepresentationID s) (s_Intervals s ++ [row_ivl r])
    (s_Delivered s + (End (row_ivl r) - Start (row_ivl r)))
    (if s_UpdatedAt s <? row_at r then row_at r else s_UpdatedAt s)) (End (row_ivl r) + 1))
    as (s' & -> & E1 & E2 & E3); cbn [s_Intervals s_Delivered s_RepresentationID] in *.
  - done.
  - lia.
  - done.
  - rewrite length_app. cbn. lia.
  - lia.
  - exists s'. rewrite E1, E2, E3, <-app_assoc. cbn [measure foldr]. fold (measure (map row_ivl rows)).
    split_and!; try done. lia.
Qed.

Lemma get_snapshot_spec checked rows rep maxI :
  well_formed rows -> Z.of_nat (length (intervals rep rows)) <= maxI ->
  exists s, get_snapshot checked rows rep maxI = Ok (s, negb (bool_decide (intervals rep rows = []))) /\
    s_RepresentationID s = rep /\ chain 0 (s_Intervals s) /\
    s_Intervals s ≡ₚ intervals rep rows /\ s_Delivered s = measure (s_Intervals s).
Proof.
  intros Hwf Hlen. destruct (Hwf rep) as [Hv Hs]. unfold intervals in *.
  set (l := List.filter (of_rep rep) rows) in *. rewrite length_map in Hlen.
  pose proof (order_chain l Hv Hs) as Hc. pose proof (order_perm l) as P.
  assert (Ht : take (Z.to_nat (maxI + 1)) (order_by_start l) = order_by_start l).
  { apply take_ge. rewrite P. lia. }
  unfold get_snapshot. fold l. rewrite Ht.
  destruct (snapshot_loop_spec checked maxI (order_by_start l) (MkSnapshot rep [] 0 0) 0)
    as (s & -> & E1 & E2 & E3); cbn [s_Intervals s_Delivered s_RepresentationID] in *; try lia.
  - done.
  - by rewrite P.
  - rewrite P. simpl. lia.
  - cbn [rbind app] in *. exists s. rewrite E2, E3. split_and!; try done.
    + do 2 f_equal. rewrite length_map, P. destruct l; [done|]. by rewrite bool_decide_false.
    + by rewrite P.
Qed.

(** *** The statements of a merge *)

Section Merge.
Context (mk : Interval -> R) (rep : bytes) (at_ : Z).
Context (Hrep : forall i, row_rep (mk i) = rep) (Hivl : forall i, row_ivl (mk i) = i).
Context (checked : bool) (rows : list R) (incoming : Interval) (maxI : Z).
Context (Hwf : well_formed rows) (Hin : valid_interval incoming).

Definition kept : list R := List.filter (fun r => negb (overlaps rep incoming r)) rows.
Definition merged : Interval := merge_rows incoming (order_by_start (List.filter (overlaps rep incoming) rows)).

Lemma kept_intervals : intervals rep kept = List.filter (fun i => negb (touches incoming i)) (intervals rep rows).
Proof.
  apply intervals_filter. intros r Hr. unfold overlaps, touches. by rewrite bool_decide_true.
Qed.

Lemma kept_other rep' : rep' <> rep -> intervals rep' kept = intervals rep' rows.
Proof.
  intros Hne. apply filter_of_rep_other. intros r Hr. unfold overlaps.
  by rewrite bool_decide_false by congruence.
Qed.

Lemma touched_rows r :
  r ∈ order_by_start (List.filter (overlaps rep incoming) rows) ->
  touches incoming (row_ivl r) = true /\ row_ivl r ∈ intervals rep rows.
Proof.
  rewrite order_perm, list_elem_of_In, filter_In. unfold overlaps. intros [Hr E]. bool_hyps.
  split; [unfold touches; lia|]. apply elem_intervals. exists r. by rewrite list_elem_of_In.
Qed.

Lemma touched_intervals i :
  i ∈ intervals rep rows -> touches incoming i = true ->
  i ∈ map row_ivl (order_by_start (List.filter (overlaps rep incoming) rows)).
Proof.
  intros (r & Hr & Er & <-)%elem_intervals Ht. apply list_elem_of_fmap. exists r. split; [done|].
  rewrite order_perm, list_elem_of_In, filter_In, <-list_elem_of_In. split; [done|].
  unfold overlaps, touches in *. bool_hyps. rewrite bool_decide_true by done. lia.
Qed.

Lemma separated_elem l i j : separated l -> i ∈ l -> j ∈ l -> i = j \/ apart i j.
Proof.
  induction l as [|k l IH]; intros Hs Hi Hj; [by apply not_elem_of_nil in Hi|].
  destruct Hs as [Hk Hs]. rewrite list.Forall_forall in Hk.
  apply elem_of_cons in Hi as [->|Hi]; apply elem_of_cons in Hj as [->|Hj]; auto.
  right. by apply apart_sym, Hk.
Qed.

Lemma merged_spec :
  valid_interval merged /\
  (forall x, inside x merged <-> inside x incoming \/ exists i, i ∈ intervals rep rows /\ touches incoming i = true /\ inside x i) /\
  Forall (apart merged) (intervals rep kept).
Proof.
  destruct (Hwf rep) as [Hv Hs].
  destruct (merge_rows_spec incoming (order_by_start (List.filter (overlaps rep incoming) rows)))
    as (_ & _ & H3 & H4 & H5).
  { destruct Hin. lia. } { apply list.Forall_forall. intros r Hr. by apply touched_rows. }
  fold merged in H3, H4, H5. split_and!.
  - apply H3; [|done]. apply list.Forall_forall. intros r Hr. rewrite list.Forall_forall in Hv.
    by apply Hv, touched_rows.
  - intros x. rewrite H4. unfold covered. split; (intros [?|(i & Hi)]; [by left|right]).
    + destruct Hi as [(r & -> & Hr)%list_elem_of_fmap Hx]. destruct (touched_rows r Hr). eauto.
    + destruct Hi as (Hi & Ht & Hx). eauto using touched_intervals.
  - rewrite kept_intervals. apply list.Forall_forall. intros j [Hj Ht]%list_elem_of_In%filter_In.
    apply negb_true_iff in Ht. rewrite <-list_elem_of_In in Hj.
    rewrite list.Forall_forall in Hv. pose proof (Hv j Hj) as Hvj. unfold valid_interval in Hvj.
    apply H5; [lia|by apply touches_apart|].
    apply list.Forall_forall. intros r [Hr1 Hr2]%touched_rows.
    destruct (separated_elem _ _ _ Hs Hr2 Hj) as [E|]; [congruence|done].
Qed.

Lemma kept_separated : Forall valid_interval (intervals rep kept) /\ separated (intervals rep kept).
Proof.
  destruct (Hwf rep) as [Hv Hs]. rewrite kept_intervals. split; [|by apply separated_filter].
  rewrite list.Forall_forall in *. intros i [Hi _]%list_elem_of_In%filter_In.
  by apply Hv, list_elem_of_In.
Qed.

Lemma insert_kept : insert_into (mk merged) kept = Ok (kept ++ [mk merged]).
Proof.
  destruct merged_spec as (Hm & _ & Ha). unfold insert_into. rewrite Hivl. unfold valid_interval in Hm.
  destruct (Z.ltb_spec (Start merged) 0); [lia|].
  destruct (Z.leb_spec (End merged) (Start merged)); [lia|]. cbn [orb].
  destruct (existsb _ _) eqn:E; [|done]. exfalso.
  apply existsb_exists in E as (r & Hr & E). bool_hyps. rewrite Hrep in *.
  rewrite list.Forall_forall in Ha. specialize (Ha (row_ivl r)).
  destruct kept_separated as [Hv _]. rewrite list.Forall_forall in Hv. specialize (Hv (row_ivl r)).
  assert (Hi : row_ivl r ∈ intervals rep kept) by (apply elem_intervals; exists r; by rewrite list_elem_of_In).
  specialize (Ha Hi). specialize (Hv Hi). unfold apart, valid_interval in *. lia.
Qed.

Lemma intervals_snoc rep' : intervals rep' (kept ++ [mk merged])
  = intervals rep' kept ++ (if decide (rep' = rep) then [merged] else []).
Proof.
  unfold intervals. rewrite List.filter_app, map_app. f_equal. cbn [List.filter]. unfold of_rep. rewrite Hrep.
  destruct (decide (rep' = rep)) as [->|]; [rewrite bool_decide_true by done; cbn; by rewrite Hivl|].
  by rewrite bool_decide_false by congruence.
Qed.

Lemma merged_well_formed : well_formed (kept ++ [mk merged]).
Proof.
  intros rep'. rewrite intervals_snoc. destruct (decide (rep' = rep)) as [->|Hne].
  - destruct merged_spec as (Hm & _ & Ha). destruct kept_separated as [Hv Hs]. split.
    + apply Forall_app. split; [done|]. by constructor.
    + apply separated_snoc; [done|]. rewrite list.Forall_forall in *. intros i Hi. by apply Ha.
  - rewrite app_nil_r, kept_other by done. apply Hwf.
Qed.

Lemma merged_covered x :
  covered x (intervals rep (kept ++ [mk merged])) <-> inside x incoming \/ covered x (intervals rep rows).
Proof.
  destruct merged_spec as (_ & Hx & _). rewrite intervals_snoc, decide_True by done.
  rewrite covered_app, covered_one, Hx, kept_intervals. unfold covered. split.
  - intros [(i & Hi%list_elem_of_In%filter_In & ?)|[?|(i & ? & ? & ?)]]; [|tauto|eauto].
    destruct Hi as [Hi%list_elem_of_In _]. eauto.
  - intros [?|(i & Hi & ?)]; [tauto|]. destruct (touches incoming i) eqn:E; [right; right; eauto|].
    left. exists i. split; [|done]. apply list_elem_of_In, filter_In. rewrite E, <-list_elem_of_In. done.
Qed.

(** A merge fails exactly when the limit of separate intervals is reached, and
    otherwise adds the incoming interval to what is covered. *)
Lemma merge_into_spec :
  match merge_into checked mk rows rep incoming maxI with
  | Err e => e = IntervalLimit /\ maxI <= Z.of_nat (length (intervals rep kept))
  | Ok (rows', s) =>
      rows' = kept ++ [mk merged] /\ well_formed rows' /\
      (forall x, covered x (intervals rep rows') <-> inside x incoming \/ covered x (intervals rep rows)) /\
      (forall rep', rep' <> rep -> intervals rep' rows' = intervals rep' rows) /\
      s_RepresentationID s = rep /\ chain 0 (s_Intervals s) /\
      s_Intervals s ≡ₚ intervals rep rows' /\ s_Delivered s = measure (s_Intervals s)
  end.
Proof.
  unfold merge_into. fold kept merged. destruct (Z.leb_spec maxI (Z.of_nat (length (List.filter (of_rep rep) kept)))) as [Hle|Hgt].
  { split; [done|]. unfold intervals. by rewrite length_map. }
  rewrite insert_kept. cbn [rbind].
  destruct (get_snapshot_spec checked (kept ++ [mk merged]) rep maxI) as (s & -> & H1 & H2 & H3 & H4).
  - apply merged_well_formed.
  - rewrite intervals_snoc, decide_True, length_app by done. unfold intervals. rewrite length_map. cbn. lia.
  - cbn [rbind]. split_and!; try done.
    + apply merged_well_formed.
    + apply merged_covered.
    + intros rep' Hne. rewrite intervals_snoc, decide_False, app_nil_r by done. by apply kept_other.
Qed.

End Merge.
End RowLemmas.

(** ** What the store promises *)

Definition byte_intervals (db : tables) (rep : bytes) : list Interval := intervals rep (playback_coverage db).
Definition media_intervals (db : tables) (rep : bytes) : list Interval := intervals rep (playback_media_coverage db).

Definition tables_ok (db : tables) : Prop :=
  well_formed (playback_coverage db) /\ well_formed (playback_media_coverage db).

(** The declared size says the stored coverage is of another release. *)
Definition size_changed (db : tables) (rep : bytes) (declaredSize : Z) : Prop :=
  0 < declaredSize /\
  exists stored, max_declared (playback_coverage db) rep = Some stored /\ stored <> 0 /\ stored <> declaredSize.

#[export] Instance size_changed_dec db rep d : Decision (size_changed db rep d).
Proof.
  unfold size_changed. destruct (max_declared _ _) as [stored|].
  - destruct (decide (0 < d /\ stored <> 0 /\ stored <> d)) as [(?&?&?)|H]; [left|right]; [eauto|].
    intros (? & st & [= ->] & ?). naive_solver.
  - right. naive_solver.
Defined.

Lemma filter_true {A} (p : A -> bool) l : (forall x, x ∈ l -> p x = true) -> List.filter p l = l.
Proof.
  induction l as [|x l IH]; intros H; [done|]. simpl. rewrite H by left. f_equal. apply IH.
  intros. apply H. by right.
Qed.

Lemma reconcile_intervals db rep d rep' :
  intervals rep' (reconcile_declared (playback_coverage db) rep d)
  = if decide (rep' = rep /\ size_changed db rep d) then [] else byte_intervals db rep'.
Proof.
  unfold reconcile_declared, byte_intervals.
  assert (Hmap : forall rows, intervals rep' (map (fun r => if bool_decide (cr_rep r = rep)
      then CoverageRow (cr_rep r) (cr_ivl r) (cr_at r) d else r) rows) = intervals rep' rows).
  { intros rows. unfold intervals. induction rows as [|r rows IH]; [done|]. cbn [map List.filter].
    assert (E : of_rep rep' (if bool_decide (cr_rep r = rep) then CoverageRow (cr_rep r) (cr_ivl r) (cr_at r) d else r)
      = of_rep rep' r) by (by destruct (bool_decide (cr_rep r = rep))).
    rewrite E. destruct (of_rep rep' r); [|done]. cbn [map]. rewrite IH. by destruct (bool_decide _). }
  destruct (Z.ltb_spec 0 d); [|rewrite decide_False; [done|intros (_ & ? & _); lia]].
  destruct (max_declared (playback_coverage db) rep) as [stored|] eqn:Em.
  2: { rewrite Hmap, decide_False; [done|]. unfold size_changed. rewrite Em. naive_solver. }
  destruct (decide (stored = 0)) as [->|Hne].
  { rewrite Hmap, decide_False; [done|]. unfold size_changed. rewrite Em. naive_solver. }
  assert (Hm : match Some stored with Some 0 | None => map (fun r => if bool_decide (cr_rep r = rep)
      then CoverageRow (cr_rep r) (cr_ivl r) (cr_at r) d else r) (playback_coverage db)
    | Some stored => if negb (stored =? d) then List.filter (fun r => negb (bool_decide (cr_rep r = rep))) (playback_coverage db)
      else playback_coverage db end
    = if negb (stored =? d) then List.filter (fun r => negb (bool_decide (cr_rep r = rep))) (playback_coverage db)
      else playback_coverage db) by (by destruct stored).
  rewrite Hm. clear Hm. destruct (Z.eqb_spec stored d) as [->|Hd]; cbn [negb].
  { rewrite decide_False; [done|]. intros (_ & _ & st & Est & _ & Hst). congruence. }
  destruct (decide (rep' = rep)) as [->|Hrep].
  - rewrite decide_True by (split; [done|split; [done|eauto]]).
    assert (E : intervals rep (List.filter (fun r => negb (bool_decide (cr_rep r = rep))) (playback_coverage db))
      = List.filter (fun _ => false) (intervals rep (playback_coverage db))).
    { apply intervals_filter. intros r Hr. cbn in Hr. by rewrite bool_decide_true. }
    rewrite E. clear. by induction (intervals _ _).
  - rewrite decide_False by tauto. apply filter_of_rep_other. intros r Hr. cbn in Hr.
    by rewrite bool_decide_false by congruence.
Qed.

Lemma reconcile_well_formed db rep d :
  well_formed (playback_coverage db) -> well_formed (reconcile_declared (playback_coverage db) rep d).
Proof.
  intros Hwf rep'. rewrite reconcile_intervals. case_decide; [by split|]. apply Hwf.
Qed.

(** Recording a delivery computes the union.  Whatever interval arrives, the
    stored intervals of every representation stay non-empty and separated by
    gaps; what the representation covers afterwards is exactly the new interval
    together with what it covered before, or the new interval alone when the
    declared size says the stored bytes are of another release; no other
    representation and no other table changes; and the snapshot returned lists
    those intervals in order and counts their bytes.  The only failure is the
    limit on separate intervals, and it changes nothing. *)
Theorem merge_is_union db rep incoming at_ maxI declaredSize :
  tables_ok db -> valid_interval incoming ->
  match MergePlaybackCoverage db rep incoming at_ maxI declaredSize with
  | Err e => e = IntervalLimit
  | Ok (db', s) =>
      tables_ok db' /\
      playback_media_coverage db' = playback_media_coverage db /\
      playback_proposals db' = playback_proposals db /\
      (forall x, covered x (byte_intervals db' rep) <->
         inside x incoming \/ (~ size_changed db rep declaredSize /\ covered x (byte_intervals db rep))) /\
      (forall rep', rep' <> rep -> byte_intervals db' rep' = byte_intervals db rep') /\
      s_RepresentationID s = rep /\ chain 0 (s_Intervals s) /\
      s_Intervals s ≡ₚ byte_intervals db' rep /\ s_Delivered s = measure (s_Intervals s)
  end.
Proof.
  intros [Hb Hm] Hin. unfold MergePlaybackCoverage.
  pose proof (merge_into_spec (fun m => CoverageRow rep m at_ declaredSize) rep ltac:(done) ltac:(done)
    false (reconcile_declared (playback_coverage db) rep declaredSize) incoming maxI
    (reconcile_well_formed db rep declaredSize Hb) Hin) as H.
  destruct (merge_into _ _ _ _ _ _) as [[rows s]|e]; cbn [rbind]; [|apply H].
  destruct H as (_ & H1 & H2 & H3 & H4 & H5 & H6 & H7).
  unfold tables_ok. cbn [playback_coverage playback_media_coverage playback_proposals].
  assert (EB : forall rep', byte_intervals (Tables rows (playback_media_coverage db) (playback_proposals db)) rep'
    = intervals rep' rows) by done.
  split_and!; try done.
  - intros x. rewrite EB, H2, reconcile_intervals. case_decide as Ec.
    + unfold covered. split; [intros [?|(i & Hi & _)]; [by left|by apply not_elem_of_nil in Hi]|].
      intros [?|[Hn _]]; [by left|]. tauto.
    + split; intros [?|?]; tauto.
  - intros rep' Hne. rewrite EB, H3, reconcile_intervals by done. by rewrite decide_False by tauto.
Qed.

Definition demo_rep : bytes := str "http:x".
Definition demo_db : tables :=
  Tables [CoverageRow demo_rep (MkInterval 0 10) 1 100; CoverageRow demo_rep (MkInterval 20 30) 2 100] [] [].

Lemma demo_db_ok : tables_ok demo_db.
Proof.
  split; intros rep; [|by split].
  unfold intervals. cbn [playback_coverage demo_db List.filter].
  destruct (of_rep rep (CoverageRow demo_rep (MkInterval 0 10) 1 100)) eqn:E1,
    (of_rep rep (CoverageRow demo_rep (MkInterval 20 30) 2 100)) eqn:E2; cbn [map row_ivl cr_ivl coverage_interval_row];
    split; repeat constructor; unfold apart, valid_interval, maxInt64; cbn; lia.
Qed.

Lemma merge_is_union_witness :
  exists db' s, MergePlaybackCoverage demo_db demo_rep (MkInterval 10 20) 3 8 100 = Ok (db', s) /\
    s_Intervals s = [MkInterval 0 30] /\ s_Delivered s = 30 /\ tables_ok db'.
Proof.
  pose proof (merge_is_union demo_db demo_rep (MkInterval 10 20) 3 8 100 demo_db_ok) as H.
  assert (Hv : valid_interval (MkInterval 10 20)) by (unfold valid_interval, maxInt64; cbn; lia).
  specialize (H Hv).
  destruct (MergePlaybackCoverage demo_db demo_rep (MkInterval 10 20) 3 8 100) as [[db' s]|e] eqn:E.
  - exists db', s. split; [reflexivity|]. vm_compute in E. injection E as <- <-.
    split_and!; [reflexivity|reflexivity|apply H].
  - discriminate.
Defined.

(** What a snapshot counts is what was delivered: reading the coverage of a
    representation gives its intervals in order, found exactly when there are
    any; if all of them lie within the first [total] bytes then the count is at
    most [total], and it is [total] exactly when every byte was delivered. *)
Theorem snapshot_counts db rep maxI total :
  tables_ok db -> 0 < total -> Z.of_nat (length (byte_intervals db rep)) <= maxI ->
  (forall x, covered x (byte_intervals db rep) -> 0 <= x < total) ->
  exists s, GetPlaybackCoverage db rep maxI = Ok (s, negb (bool_decide (byte_intervals db rep = []))) /\
    chain 0 (s_Intervals s) /\ s_Intervals s ≡ₚ byte_intervals db rep /\
    0 <= s_Delivered s <= total /\
    (s_Delivered s = total <-> forall x, 0 <= x < total -> covered x (byte_intervals db rep)).
Proof.
  intros [Hb _] Ht Hlen Hcov.
  destruct (get_snapshot_spec false _ rep maxI Hb Hlen) as (s & E & _ & Hc & P & Hd).
  exists s. split; [exact E|]. split; [done|]. split; [done|]. rewrite Hd.
  assert (Hend : forall i, i ∈ s_Intervals s -> End i <= total).
  { intros i Hi. destruct (chain_bound 0 _ _ Hc Hi) as [Hi1 Hi2].
    assert (Hx : covered (End i - 1) (byte_intervals db rep)).
    { apply (covered_perm _ _ _ P). exists i. unfold inside. split; [done|lia]. }
    apply Hcov in Hx. lia. }
  destruct (chain_measure 0 total _ Hc ltac:(lia) Hend) as [H1 H2]. split; [lia|]. split.
  - intros Em x Hx. destruct H2 as [|H2]; [lia|lia|]. apply (covered_perm _ _ _ P). rewrite H2.
    apply covered_one. unfold inside. cbn. lia.
  - intros Hall. assert (H0 : covered 0 (s_Intervals s)) by (apply (covered_perm _ _ _ P), Hall; lia).
    destruct (s_Intervals s) as [|i l] eqn:El.
    { destruct H0 as (i & Hi & _). by apply not_elem_of_nil in Hi. }
    destruct Hc as [Hi Hc].
    assert (Hl : l = []).
    { destruct l as [|j l]; [done|]. exfalso.
      assert (Hg : covered (End i) (i :: j :: l)).
      { apply (covered_perm _ _ _ P), Hall. pose proof (Hend j ltac:(right; left)). destruct Hc as [Hj _]. lia. }
      destruct Hg as (k & [->|Hk]%elem_of_cons & Hin); unfold inside in Hin; [lia|].
      pose proof (chain_bound _ _ _ Hc Hk). lia. }
    subst l. apply covered_one in H0. unfold inside in H0. cbn [measure foldr].
    assert (Hlast : covered (total - 1) [i]) by (apply (covered_perm _ _ _ P), Hall; lia).
    apply covered_one in Hlast. unfold inside in Hlast. pose proof (Hend i ltac:(left)). lia.
Qed.

Lemma snapshot_counts_witness :
  exists s, GetPlaybackCoverage demo_db demo_rep 8 = Ok (s, true) /\ s_Delivered s <= 100.
Proof.
  destruct (snapshot_counts demo_db demo_rep 8 100 demo_db_ok) as (s & E & _ & _ & H & _).
  - lia.
  - reflexivity || (vm_compute; discriminate).
  - intros x (i & Hi & Hx). unfold inside in Hx.
    change (byte_intervals demo_db demo_rep) with [MkInterval 0 10; MkInterval 20 30] in Hi.
    apply elem_of_cons in Hi as [->|[->|Hi]%elem_of_cons]; cbn in Hx; [lia|lia|by apply not_elem_of_nil in Hi].
  - exists s. split; [exact E|]. apply H.
Defined.


(** One delivery of [0, n) under a declared size, 0 when it is not known. *)
Definition deliver (db : tables) (n declaredSize : Z) : result coverage_error (tables * Z) :=
  let? (db, s) := MergePlaybackCoverage db demo_rep (MkInterval 0 n) 1 8 declaredSize in
  Ok (db, s_Delivered s).

(** An observation without a declared size makes the store forget the size
    it had recorded.  After 100 bytes of a release of 1000 bytes, a delivery of
    a release of 10 bytes discards the old coverage; but if one overlapping
    observation without a declared size comes in between, the old coverage is
    adopted by the new release, and 100 of its 10 bytes count as delivered. *)
Theorem unknown_size_forgets :
  (let? (db, _) := deliver (Tables [] [] []) 100 1000 in
   let? (_, n) := deliver db 5 10 in Ok n) = Ok 5 /\
  (let? (db, _) := deliver (Tables [] [] []) 100 1000 in
   let? (db, _) := deliver db 50 0 in
   let? (_, n) := deliver db 5 10 in Ok n) = Ok 100.
Proof. split; vm_compute; reflexivity. Qed.

(** ** Observations *)

Inductive observation : Type :=
| ObsBytes (ctx : context) (rep : bytes) (offset len now1 now2 : Z)
| ObsMedia (ctx : context) (rep : bytes) (startNS endNS now1 now2 : Z).

Definition observe (t : Tracker) (db : tables) (o : observation) : tables * option Snapshot * option coverage_error :=
  match o with
  | ObsBytes ctx rep offset len now1 now2 => Observe t db ctx rep offset len now1 now2
  | ObsMedia ctx rep a b now1 now2 => ObserveMedia t db ctx rep a b now1 now2
  end.

(** The arguments are 64-bit integers and the clock has been set. *)
Definition observation_typed (o : observation) : Prop :=
  match o with
  | ObsBytes _ _ offset len _ now2 => is_i64 offset /\ is_i64 len /\ now2 <> 0
  | ObsMedia _ _ a b _ now2 => is_i64 a /\ is_i64 b /\ now2 <> 0
  end.

Definition proposal_ok (t : Tracker) (p : Proposal) : Prop :=
  ValidateRepresentationID (pr_RepresentationID p) = true /\
  target_ok (MkTarget (pr_ItemID p) (pr_FileID p) (pr_ExtentKind p) (pr_Total p)) = true /\
  0 < pr_Delivered p /\ pr_Threshold p = proposalThreshold t /\
  below_threshold (pr_Delivered p) (pr_Total p) (proposalThreshold t) = false.

Definition proposals_ok (t : Tracker) (db : tables) : Prop :=
  NoDup (map pr_RepresentationID (playback_proposals db)) /\
  Forall (proposal_ok t) (playback_proposals db) /\
  (proposalRepo t = false -> playback_proposals db = []).

Lemma maybePropose_spec t db ctx rep delivered kind now db' e :
  ValidateRepresentationID rep = true -> tables_ok db -> proposals_ok t db ->
  (proposalRepo t = true -> bad_threshold (proposalThreshold t) = false) -> now <> 0 ->
  maybePropose t db ctx rep delivered kind now = (db', e) ->
  e = None /\ tables_ok db' /\ proposals_ok t db' /\
  exists l, playback_proposals db' = playback_proposals db ++ l.
Proof.
  intros Hv Hdb (Hn & Hp & He) Hth Hnow H. unfold maybePropose in H.
  assert (Hsame : (db, @None coverage_error) = (db', e) -> e = None /\ tables_ok db' /\ proposals_ok t db' /\
    exists l, playback_proposals db' = playback_proposals db ++ l).
  { intros [= <- <-]. split_and!; try apply Hdb; try done. exists []. by rewrite app_nil_r. }
  destruct (negb (proposalRepo t) || (delivered <=? 0)) eqn:E; [by apply Hsame|].
  destruct (targetFromContext ctx) as [target|] eqn:Et; [|by apply Hsame].
  destruct (negb (Bool.eqb _ _) || below_threshold _ _ _) eqn:Eb; [by apply Hsame|].
  bool_hyps. unfold targetFromContext in Et. destruct (c_target ctx) as [tg|]; [|done].
  destruct (target_ok tg) eqn:Ht; [|done]. injection Et as ->.
  unfold CreatePlaybackProposal in H.
  cbn [pr_RepresentationID pr_ItemID pr_FileID pr_ExtentKind pr_Delivered pr_Total pr_Threshold pr_CreatedAt] in H.
  rewrite Hv, (Hth ltac:(done)) in H. destruct target as [item file k total].
  cbn [t_ItemID t_FileID t_Kind t_Total] in *. rewrite Ht in H.
  destruct (Z.leb_spec delivered 0); [lia|]. destruct (Z.eqb_spec now 0); [lia|]. cbn [negb orb] in H.
  destruct (existsb _ _) eqn:Ex; [by apply Hsame|]. injection H as <- <-.
  split; [done|]. split; [exact Hdb|]. cbn [playback_proposals]. split; [|by eexists].
  unfold proposals_ok. cbn [playback_proposals]. split_and!.
  - rewrite map_app. apply NoDup_app. split_and!; [done| |apply NoDup_singleton].
    intros r (q & -> & Hq)%list_elem_of_fmap E%list_elem_of_singleton. cbn in E.
    assert (Ht' : existsb (fun q => bool_decide (pr_RepresentationID q = rep)) (playback_proposals db) = true).
    { apply existsb_exists. exists q. rewrite <-list_elem_of_In. split; [done|]. by apply bool_decide_true. }
    congruence.
  - apply Forall_app. split; [done|]. constructor; [|done]. unfold proposal_ok.
    cbn [pr_RepresentationID pr_ItemID pr_FileID pr_ExtentKind pr_Delivered pr_Total pr_Threshold].
    split_and!; try done.
  - congruence.
Qed.

Lemma media_merge_ok db rep incoming at_ maxI :
  tables_ok db -> valid_interval incoming ->
  match MergePlaybackMediaCoverage db rep incoming at_ maxI with
  | Err e => e = IntervalLimit
  | Ok (db', s) => tables_ok db' /\ playback_proposals db' = playback_proposals db
  end.
Proof.
  intros [Hb Hm] Hin. unfold MergePlaybackMediaCoverage.
  pose proof (merge_into_spec (fun m => MediaRow rep m at_) rep ltac:(done) ltac:(done)
    true (playback_media_coverage db) incoming maxI Hm Hin) as H.
  destruct (merge_into _ _ _ _ _ _) as [[rows s]|e]; cbn [rbind]; [|apply H].
  destruct H as (_ & H1 & _). by split.
Qed.

Lemma byte_merge_ok db rep incoming at_ maxI d :
  tables_ok db -> valid_interval incoming ->
  match MergePlaybackCoverage db rep incoming at_ maxI d with
  | Err e => e = IntervalLimit
  | Ok (db', s) => tables_ok db' /\ playback_proposals db' = playback_proposals db
  end.
Proof.
  intros [Hb Hm] Hin. unfold MergePlaybackCoverage.
  pose proof (merge_into_spec (fun m => CoverageRow rep m at_ d) rep ltac:(done) ltac:(done)
    false (reconcile_declared (playback_coverage db) rep d) incoming maxI
    (reconcile_well_formed db rep d Hb) Hin) as H.
  destruct (merge_into _ _ _ _ _ _) as [[rows s]|e]; cbn [rbind]; [|apply H].
  destruct H as (_ & H1 & _). by split.
Qed.

Lemma observe_step t db o db' s e :
  tables_ok db -> proposals_ok t db ->
  (proposalRepo t = true -> bad_threshold (proposalThreshold t) = false) -> observation_typed o ->
  observe t db o = (db', s, e) ->
  tables_ok db' /\ proposals_ok t db' /\
  (exists l, playback_proposals db' = playback_proposals db ++ l) /\
  (s = None -> db' = db) /\
  (e = None \/ e = Some InvalidRepresentation \/ e = Some InvalidSpan \/ e = Some IntervalLimit).
Proof.
  intros Hdb Hp Hth Ho H.
  assert (Hsame : forall e', (db, @None Snapshot, Some e') = (db', s, e) ->
    (e' = InvalidRepresentation \/ e' = InvalidSpan \/ e' = IntervalLimit) -> 
    tables_ok db' /\ proposals_ok t db' /\ (exists l, playback_proposals db' = playback_proposals db ++ l) /\
    (s = None -> db' = db) /\
    (e = None \/ e = Some InvalidRepresentation \/ e = Some InvalidSpan \/ e = Some IntervalLimit)).
  { intros e' [= <- <- <-] He. split_and!; try done; try apply Hdb; try apply Hp;
      [exists []; by rewrite app_nil_r|naive_solver]. }
  assert (Hgo : forall db1 s1 ctx rep kind now2,
    ValidateRepresentationID rep = true -> now2 <> 0 ->
    tables_ok db1 /\ playback_proposals db1 = playback_proposals db ->
    (let (db2, e) := maybePropose t db1 ctx rep (s_Delivered s1) kind now2 in (db2, Some s1, e)) = (db', s, e) ->
    tables_ok db' /\ proposals_ok t db' /\ (exists l, playback_proposals db' = playback_proposals db ++ l) /\
    (s = None -> db' = db) /\
    (e = None \/ e = Some InvalidRepresentation \/ e = Some InvalidSpan \/ e = Some IntervalLimit)).
  { intros db1 s1 ctx rep kind now2 Hv Hn [Hdb1 Ep] Hm.
    destruct (maybePropose _ _ _ _ _ _ _) as [db2 e2] eqn:E. injection Hm as <- <- <-.
    apply maybePropose_spec in E; try done; [|by unfold proposals_ok in *; rewrite Ep].
    destruct E as (-> & ? & ? & l & El). rewrite Ep in El. split_and!; eauto. done. }
  destruct o as [ctx rep off n now1 now2|ctx rep a b now1 now2]; destruct Ho as (Ha & Hb & Hnow); cbn [observe] in H.
  - unfold Observe in H. destruct (ValidateRepresentationID rep) eqn:Ev; [cbn [negb] in H|apply (Hsame _ H); auto].
    destruct ((off <? 0) || (n <=? 0) || _) eqn:Es; [apply (Hsame _ H); auto|]. bool_hyps.
    unfold is_i64, minInt64, maxInt64 in *. rewrite !i64_small in * by (unfold is_i64, minInt64, maxInt64; lia).
    match type of H with context [MergePlaybackCoverage db rep ?i now1 ?m ?d] =>
      pose proof (byte_merge_ok db rep i now1 m d Hdb) as Hm;
      destruct (MergePlaybackCoverage db rep i now1 m d) as [[db1 s1]|e1] end.
    + eapply Hgo; [done|exact Hnow| |exact H]. apply Hm. unfold valid_interval, maxInt64. cbn. lia.
    + apply (Hsame e1); [done|]. right; right. apply Hm. unfold valid_interval, maxInt64. cbn. lia.
  - unfold ObserveMedia in H. destruct (ValidateRepresentationID rep) eqn:Ev; [cbn [negb] in H|apply (Hsame _ H); auto].
    destruct ((a <? 0) || _) eqn:Es; [apply (Hsame _ H); auto|]. bool_hyps. unfold is_i64 in *.
    pose proof (media_merge_ok db rep (MkInterval a b) now1 (maxIntervals t) Hdb) as Hm.
    destruct (MergePlaybackMediaCoverage _ _ _ _ _) as [[db1 s1]|e1].
    + eapply Hgo; [done|exact Hnow| |exact H]. apply Hm. unfold valid_interval. cbn. lia.
    + apply (Hsame e1); [done|]. right; right. apply Hm. unfold valid_interval. cbn. lia.
Qed.

Definition run (t : Tracker) (db : tables) (os : list observation) : tables :=
  fold_left (fun db o => (observe t db o).1.1) os db.

(** Whatever a tracker observes, in any order and starting from empty
    tables, its tables stay well formed, each representation has at most one
    proposal, and every proposal names a valid target whose threshold, computed
    in doubles, the delivered amount had reached; a tracker without proposals
    enabled never makes one.  One more observation fails only for an invalid
    representation, an invalid span or the interval limit; a failure leaves the
    tables as they were, and no proposal is ever changed or withdrawn. *)
Theorem tracker_invariant opts t os o db' s e :
  New opts = Ok t -> Forall observation_typed os -> observation_typed o ->
  let db := run t (Tables [] [] []) os in
  observe t db o = (db', s, e) ->
  (tables_ok db' /\ proposals_ok t db') /\
  (exists l, playback_proposals db' = playback_proposals db ++ l) /\
  (s = None -> db' = db) /\
  (e = None \/ e = Some InvalidRepresentation \/ e = Some InvalidSpan \/ e = Some IntervalLimit).
Proof.
  intros Hnew Hos Ho db H.
  assert (Hth : proposalRepo t = true -> bad_threshold (proposalThreshold t) = false).
  { unfold New in Hnew. destruct (o_ProposalEnabled opts); [|by injection Hnew as <-].
    destruct (bad_threshold _) eqn:E; [done|]. by injection Hnew as <-. }
  assert (Hdb : tables_ok db /\ proposals_ok t db).
  { assert (Hgen : forall db0, tables_ok db0 -> proposals_ok t db0 ->
      tables_ok (run t db0 os) /\ proposals_ok t (run t db0 os)).
    { clear -Hos Hth. induction Hos as [|o os Ho _ IH]; intros db0 H1 H2; [done|]. cbn [run fold_left].
      destruct (observe t db0 o) as [[db1 s] e] eqn:E.
      destruct (observe_step _ _ _ _ _ _ H1 H2 Hth Ho E) as (H3 & H4 & _). by apply IH. }
    apply Hgen; repeat split; try constructor; intros; apply NoDup_nil_2. }
  destruct Hdb as [Hdb Hp].
  destruct (observe_step _ _ _ _ _ _ Hdb Hp Hth Ho H) as (? & ? & ? & ? & ?). done.
Qed.

Definition demo_tracker : Tracker := MkTracker 4096 (5 * second) true (binary_normalize 53 1024 1 (-1) false).
Definition demo_ctx : context :=
  WithTarget (Ctx None None None) (MkTarget (str "item") (str "file") ExtentDeclaredBytes 100).

Lemma tracker_invariant_witness :
  exists db' s, observe demo_tracker (run demo_tracker (Tables [] [] []) [ObsBytes demo_ctx demo_rep 0 49 1 1])
      (ObsBytes demo_ctx demo_rep 49 1 2 2) = (db', s, None) /\
    length (playback_proposals db') = 1%nat /\ proposals_ok demo_tracker db'.
Proof.
  pose proof (tracker_invariant (MkOptions 0 0 true (binary_normalize 53 1024 1 (-1) false)) demo_tracker
    [ObsBytes demo_ctx demo_rep 0 49 1 1] (ObsBytes demo_ctx demo_rep 49 1 2 2)) as H.
  destruct (observe demo_tracker (run demo_tracker (Tables [] [] []) [ObsBytes demo_ctx demo_rep 0 49 1 1])
      (ObsBytes demo_ctx demo_rep 49 1 2 2)) as [[db' s] e] eqn:E.
  exists db', s. vm_compute in E. injection E as <- <- <-.
  split; [reflexivity|]. split; [reflexivity|].
  refine (proj2 (proj1 (H _ _ _ _ _ _ _))); try reflexivity.
  - repeat constructor; unfold minInt64, maxInt64; lia || discriminate.
  - split_and!; unfold is_i64, minInt64, maxInt64; lia || discriminate.
Defined.
