(* ===== verification/Outcome.v ===== *)
(** The shared outcome vocabulary: internal/outcome/outcome.go and limiter.go.

    A Go error is a node of its chain: what the node's own type is, and the
    errors it unwraps to.  [errors.As] visits the node, then its children, depth
    first.  The limiter logs through a list of log lines. *)

From Stdlib Require Import ZArith Lia.
From stdpp Require Import base list numbers strings sets gmap.
From S2P Require Import Prelude.

Local Open Scope Z_scope.

Inductive Class : Type :=
| ClassNone
| ClassPermanentHere
| ClassTransientHere
| ClassAccountLevel
| ClassUnknown.

#[export] Instance Class_eq_dec : EqDecision Class.
Proof. solve_decision. Defined.

Definition class_string (c : Class) : bytes :=
  match c with
  | ClassNone => []
  | ClassPermanentHere => str "permanent_here"
  | ClassTransientHere => str "transient_here"
  | ClassAccountLevel => str "account_level"
  | ClassUnknown => str "unknown"
  end.

(** ** Errors *)

(** The dynamic type of a node: [classified] and every other type with an
    [OutcomeClass] method carry a class; [*provider.RetryableError]; any other. *)
Inductive error_type : Type :=
| TClassifier (c : Class)
| TRetryable
| TPlain (name : bytes).

#[export] Instance error_type_eq_dec : EqDecision error_type.
Proof. solve_decision. Defined.

Inductive goerror : Type :=
| Error (t : error_type) (unwrap : list goerror).

(** The first node of the chain whose type [f] accepts. *)
Fixpoint errors_As {A} (f : error_type -> option A) (err : goerror) : option A :=
  match err with
  | Error t children =>
      match f t with
      | Some a => Some a
      | None =>
          (fix first (es : list goerror) : option A :=
             match es with
             | [] => None
             | e :: es => match errors_As f e with Some a => Some a | None => first es end
             end) children
      end
  end.

(** [errors.Is]: a sentinel is the one error of its text. *)
Definition errors_Is (err : goerror) (sentinel : string) : bool :=
  match errors_As (fun t => if bool_decide (t = TPlain (str sentinel)) then Some tt else None) err with
  | Some _ => true
  | None => false
  end.

Definition as_classifier (t : error_type) : option Class :=
  match t with TClassifier c => Some c | _ => None end.
Definition as_retryable (t : error_type) : option unit :=
  match t with TRetryable => Some tt | _ => None end.

Definition IsRetryable (err : goerror) : bool :=
  match errors_As as_retryable err with Some _ => true | None => false end.

Definition Classify (err : option goerror) : Class :=
  match err with
  | None => ClassNone
  | Some err =>
      match errors_As as_classifier err with
      | Some c => c
      | None => if IsRetryable err then ClassTransientHere else ClassUnknown
      end
  end.

Definition wrap (err : option goerror) (class : Class) : option goerror :=
  match err with
  | None => None
  | Some err => Some (Error (TClassifier class) [err])
  end.

Definition Permanent (err : option goerror) := wrap err ClassPermanentHere.
Definition Transient (err : option goerror) := wrap err ClassTransientHere.
Definition AccountLevel (err : option goerror) := wrap err ClassAccountLevel.

Inductive TorrentOutcome : Type :=
| OutcomeEmpty | OutcomeUnknown | OutcomeReady | TerminalDeadSource | DeadSentinel | TransientError
| Stalled | CapacityLimited | OutcomeCancelled | RemoteRemoved.

Definition ClassifyTorrentOutcome (o : TorrentOutcome) : Class :=
  match o with
  | OutcomeEmpty | OutcomeReady => ClassNone
  | TerminalDeadSource | RemoteRemoved | OutcomeCancelled => ClassPermanentHere
  | TransientError | Stalled | DeadSentinel => ClassTransientHere
  | CapacityLimited => ClassAccountLevel
  | OutcomeUnknown => ClassUnknown
  end.

(** ** The rate limiter *)

Definition DefaultWindow : Z := 30 * second.

Record limiterEntry := MkEntry { windowStart : Z; suppressed : Z }.

Record Limiter := MkLimiter { window : Z; entries : gmap bytes limiterEntry }.

Definition NewLimiter : Limiter := MkLimiter DefaultWindow ∅.

Definition SetWindow (l : Limiter) (d : Z) : Limiter := MkLimiter d (entries l).

Definition dedupKey (itemID : bytes) (class : Class) (key : bytes) : bytes :=
  itemID ++ [0] ++ class_string class ++ [0] ++ key.

(** A line of the log: an occurrence, or the summary of suppressed ones; the
    class of a summary is the string that was logged. *)
Inductive log_line : Type :=
| Occurrence (msg : bytes)
| Summary (itemID class key : bytes) (count window_seconds : Z).

Definition record (l : Limiter) (now : Z) (itemID : bytes) (class : Class) (key : bytes)
    : Limiter * bool * option limiterEntry :=
  let k := dedupKey itemID class key in
  match entries l !! k with
  | Some e =>
      if window l <=? time_sub now (windowStart e) then
        (MkLimiter (window l) (<[k := MkEntry now 0]> (entries l)), true,
         if 0 <? suppressed e then Some e else None)
      else
        (MkLimiter (window l) (<[k := MkEntry (windowStart e) (i64 (suppressed e + 1))]> (entries l)),
         false, None)
  | None => (MkLimiter (window l) (<[k := MkEntry now 0]> (entries l)), true, None)
  end.

Definition emitSummary (l : Limiter) (itemID class key : bytes) (e : option limiterEntry) : list log_line :=
  match e with
  | None => []
  | Some e =>
      if suppressed e <=? 0 then []
      else [Summary itemID class key (suppressed e) (Z.quot (window l) second)]
  end.

Definition Warn (l : Limiter) (now : Z) (itemID : bytes) (class : Class) (key msg : bytes)
    : Limiter * list log_line :=
  let '(l, shouldLog, pending) := record l now itemID class key in
  (l, (if shouldLog then [Occurrence msg] else []) ++ emitSummary l itemID (class_string class) key pending).

Definition Flush (l : Limiter) (itemID : bytes) (class : Class) (key : bytes) : Limiter * list log_line :=
  let k := dedupKey itemID class key in
  match entries l !! k with
  | Some e =>
      let l := MkLimiter (window l) (delete k (entries l)) in
      (l, if 0 <? suppressed e then emitSummary l itemID (class_string class) key (Some e) else [])
  | None => (l, [])
  end.

(** [strings.Cut] at the first NUL. *)
Fixpoint cut_nul (s : bytes) : option (bytes * bytes) :=
  match s with
  | [] => None
  | c :: s =>
      if c =? 0 then Some ([], s)
      else match cut_nul s with Some (a, b) => Some (c :: a, b) | None => None end
  end.

(** [strings.SplitN(k, keySep, 3)] when it has three parts: the class and key. *)
Definition split_key (k : bytes) : option (bytes * bytes) :=
  match cut_nul k with
  | Some (_, rest) => cut_nul rest
  | None => None
  end.

Fixpoint has_prefix (p s : bytes) : bool :=
  match p, s with
  | [], _ => true
  | x :: p, y :: s => (x =? y) && has_prefix p s
  | _ :: _, [] => false
  end.

(** The summary an entry under the prefix leaves behind. *)
Definition flush_pending (prefix : bytes) (ke : bytes * limiterEntry) : option (bytes * bytes * limiterEntry) :=
  if has_prefix prefix ke.1 then
    if 0 <? suppressed ke.2 then
      match split_key ke.1 with Some (class, key) => Some (class, key, ke.2) | None => None end
    else None
  else None.

Definition FlushItem (l : Limiter) (itemID : bytes) : Limiter * list log_line :=
  let prefix := itemID ++ [0] in
  let pending := omap (flush_pending prefix) (map_to_list (entries l)) in
  let l := MkLimiter (window l) (filter (fun ke => has_prefix prefix ke.1 = false) (entries l)) in
  (l, p ← pending; emitSummary l itemID p.1.1 p.1.2 (Some p.2)).

(** ** Classification *)

(** The nodes of a chain in the order [errors.As] visits them. *)
Fixpoint chain_nodes (err : goerror) : list error_type :=
  match err with
  | Error t children => t :: concat (map chain_nodes children)
  end.

Lemma goerror_nested_ind (P : goerror -> Prop) :
  (forall t es, Forall P es -> P (Error t es)) -> forall e, P e.
Proof.
  intros H. fix IH 1. intros [t es]. apply H. induction es; constructor; [apply IH|done].
Qed.

Lemma errors_As_nodes {A} (f : error_type -> option A) err : errors_As f err = head (omap f (chain_nodes err)).
Proof.
  induction err as [t es IH] using goerror_nested_ind. cbn [errors_As chain_nodes omap list_omap].
  destruct (f t); [done|]. induction IH as [|e es He _ IHes]; [done|]. cbn [map concat].
  rewrite omap_app, He.
  destruct (omap f (chain_nodes e)); cbn; [apply IHes|done].
Qed.

(** Classification follows the error chain: the class is that of the first
    node, depth first, whose type carries one; without such a node an error
    marked retryable anywhere is transient and any other is unknown; nil is no
    failure.  Wrapping an error in a class makes that its class whatever it
    wraps, and hides nothing: a search for any other type finds the same node as
    before. *)
Theorem classify_chain err c (A : Type) (f : error_type -> option A) :
  Classify None = ClassNone /\ wrap None c = None /\
  Classify (Some err) =
    match head (omap as_classifier (chain_nodes err)) with
    | Some c => c
    | None => if decide (TRetryable ∈ chain_nodes err) then ClassTransientHere else ClassUnknown
    end /\
  exists w, wrap (Some err) c = Some w /\ Classify (Some w) = c /\
    (f (TClassifier c) = None -> errors_As f w = errors_As f err).
Proof.
  split_and!; [done|done| |].
  - unfold Classify, IsRetryable. rewrite !errors_As_nodes.
    destruct (head (omap as_classifier (chain_nodes err))) as [c'|]; [done|].
    destruct (head (omap as_retryable (chain_nodes err))) as [[]|] eqn:E; case_decide as Ed; try done.
    + destruct Ed. apply head_Some in E as [l E].
      assert (Hin : tt ∈ omap as_retryable (chain_nodes err)) by (rewrite E; left).
      apply list_elem_of_omap in Hin as (t & Ht & Et). by destruct t.
    + apply head_None in E. exfalso.
      assert (Hin : tt ∈ omap as_retryable (chain_nodes err)) by (apply list_elem_of_omap; by exists TRetryable).
      rewrite E in Hin. by apply not_elem_of_nil in Hin.
  - eexists. split; [done|]. split; [done|]. intros Hf. cbn [errors_As]. rewrite Hf.
    by destruct (errors_As f err).
Qed.

Lemma classify_chain_witness :
  exists w, Permanent (Some (Error TRetryable [])) = Some w /\ Classify (Some w) = ClassPermanentHere /\
    errors_As as_retryable w = Some tt.
Proof.
  destruct (classify_chain (Error TRetryable []) ClassPermanentHere unit as_retryable) as (_ & _ & _ & w & Hw & Hc & Ha).
  exists w. split; [exact Hw|]. split; [exact Hc|]. rewrite Ha by reflexivity. reflexivity.
Defined.

(** ** The limiter loses nothing *)

Definition pending_total (m : gmap bytes limiterEntry) : Z := map_fold (fun _ e n => suppressed e + n) 0 m.

Lemma pending_insert m k e : m !! k = None -> pending_total (<[k := e]> m) = suppressed e + pending_total m.
Proof. intros H. unfold pending_total. rewrite map_fold_insert_L; [done|lia|done]. Qed.

Lemma pending_delete m k e : m !! k = Some e -> pending_total m = suppressed e + pending_total (delete k m).
Proof. intros H. unfold pending_total. rewrite (map_fold_delete_L _ _ k e m); [done| |done]. intros. lia. Qed.

Lemma pending_set m k e e' : m !! k = Some e' -> 
  pending_total (<[k := e]> m) = pending_total m - suppressed e' + suppressed e.
Proof.
  intros H. rewrite <-insert_delete_eq, pending_insert by apply lookup_delete_eq.
  rewrite (pending_delete m k e' H). lia.
Qed.

Lemma pending_list m : pending_total m = foldr (fun ke n => suppressed ke.2 + n) 0 (map_to_list m).
Proof.
  unfold pending_total. rewrite map_fold_foldr. induction (map_to_list m) as [|[k e] l IH]; [done|].
  cbn. by rewrite IH.
Qed.

Definition sum_entries (l : list (bytes * limiterEntry)) : Z := foldr (fun ke n => suppressed ke.2 + n) 0 l.

Lemma sum_entries_perm l1 l2 : l1 ≡ₚ l2 -> sum_entries l1 = sum_entries l2.
Proof. induction 1; cbn; try fold (sum_entries l); try lia. unfold sum_entries in *. lia. Qed.

Lemma pending_filter (m : gmap bytes limiterEntry) (P : bytes * limiterEntry -> Prop) `{!∀ x, Decision (P x)} :
  pending_total (filter P m) = sum_entries (filter P (map_to_list m)).
Proof.
  rewrite pending_list, map_filter_alt. apply sum_entries_perm, map_to_list_to_map.
  assert (Hn : NoDup (map_to_list m).*1) by apply NoDup_fst_map_to_list.
  clear -Hn. induction (map_to_list m) as [|ke l IH]; [done|]. rewrite filter_cons.
  cbn [fmap list_fmap] in Hn. apply list.NoDup_cons in Hn as [Hn1 Hn2]. case_decide; [|auto].
  cbn [fmap list_fmap]. apply list.NoDup_cons. split; [|auto]. intros Hin. apply Hn1.
  apply list_elem_of_fmap in Hin as (x & -> & Hx). apply list_elem_of_fmap. exists x.
  split; [done|]. by apply list_elem_of_filter in Hx as [_ Hx].
Qed.

(** How many occurrences a log accounts for. *)
Definition line_count (line : log_line) : Z :=
  match line with Occurrence _ => 1 | Summary _ _ _ n _ => n end.
Definition log_count (lines : list log_line) : Z := foldr (fun line n => line_count line + n) 0 lines.

Lemma log_count_app l1 l2 : log_count (l1 ++ l2) = log_count l1 + log_count l2.
Proof. induction l1 as [|x l1 IH]; cbn; [done|]. fold (log_count (l1 ++ l2)) (log_count l1). lia. Qed.

Lemma emit_count l a b c e : log_count (emitSummary l a b c (Some e)) = Z.max 0 (suppressed e).
Proof. unfold emitSummary. destruct (Z.leb_spec (suppressed e) 0); cbn; lia. Qed.

Inductive limiter_op : Type :=
| OpWarn (now : Z) (itemID : bytes) (class : Class) (key msg : bytes)
| OpFlush (itemID : bytes) (class : Class) (key : bytes)
| OpFlushItem (itemID : bytes)
| OpSetWindow (d : Z).

Definition limiter_step (s : Limiter * list log_line) (op : limiter_op) : Limiter * list log_line :=
  let (l, log) := s in
  let (l, lines) :=
    match op with
    | OpWarn now item class key msg => Warn l now item class key msg
    | OpFlush item class key => Flush l item class key
    | OpFlushItem item => FlushItem l item
    | OpSetWindow d => (SetWindow l d, [])
    end in
  (l, log ++ lines).

Definition limiter_run (ops : list limiter_op) : Limiter * list log_line :=
  fold_left limiter_step ops (NewLimiter, []).

Definition warns (ops : list limiter_op) : Z :=
  Z.of_nat (length (List.filter (fun op => match op with OpWarn _ _ _ _ _ => true | _ => false end) ops)).

(** Every entry was made by a warning, so its key can be split again. *)
Record limiter_inv (n : Z) (s : Limiter * list log_line) : Prop := {
  li_entry : forall k e, entries s.1 !! k = Some e -> 0 <= suppressed e /\ is_Some (split_key k);
  li_count : n = log_count s.2 + pending_total (entries s.1);
  li_log : 0 <= log_count s.2
}.

Lemma cut_nul_some a b : is_Some (cut_nul (a ++ 0 :: b)) /\
  forall r, (exists p, cut_nul (a ++ 0 :: b) = Some (p, r)) -> exists c, r = c ++ b.
Proof.
  induction a as [|x a [[[p r] IH] IH2]]; cbn.
  - split; [by eexists|]. intros r [p [= <- <-]]. by exists [].
  - destruct (x =? 0).
    + split; [by eexists|]. intros r' [p' [= <- <-]]. exists (a ++ [0]). by rewrite <-app_assoc.
    + rewrite IH. split; [by eexists|]. intros r' [p' [= <- <-]]. apply IH2. eauto.
Qed.

Lemma split_dedupKey item class key : is_Some (split_key (dedupKey item class key)).
Proof.
  unfold split_key, dedupKey. cbn [app].
  destruct (cut_nul_some item (class_string class ++ 0 :: key)) as [[[p r] E] H].
  rewrite E. destruct (H r ltac:(eauto)) as [c ->]. rewrite app_assoc. apply cut_nul_some.
Qed.

Lemma pending_nonneg (m : gmap bytes limiterEntry) :
  (forall k e, m !! k = Some e -> 0 <= suppressed e) -> 0 <= pending_total m.
Proof.
  intros H. rewrite pending_list.
  assert (Hl : forall ke, ke ∈ map_to_list m -> 0 <= suppressed ke.2).
  { intros [k e] Hin%elem_of_map_to_list. by apply (H k). }
  induction (map_to_list m) as [|ke l IH]; cbn; [lia|].
  pose proof (Hl ke ltac:(left)). assert (0 <= foldr (fun ke n => suppressed ke.2 + n) 0 l); [|lia].
  apply IH. intros. apply Hl. by right.
Qed.

Lemma pending_entry (m : gmap bytes limiterEntry) k e :
  (forall k e, m !! k = Some e -> 0 <= suppressed e) -> m !! k = Some e -> suppressed e <= pending_total m.
Proof.
  intros H Hk. rewrite (pending_delete m k e Hk).
  assert (0 <= pending_total (delete k m)); [|lia]. apply pending_nonneg.
  intros k' e' [_ H']%lookup_delete_Some. by eapply H.
Qed.

Lemma flush_item_count l item :
  (forall k e, entries l !! k = Some e -> 0 <= suppressed e /\ is_Some (split_key k)) ->
  pending_total (entries l) = log_count (FlushItem l item).2 + pending_total (entries (FlushItem l item).1).
Proof.
  intros He. unfold FlushItem. cbn [fst snd entries]. set (l' := MkLimiter _ _).
  rewrite pending_filter, pending_list. fold (sum_entries (map_to_list (entries l))).
  assert (Hl : forall ke, ke ∈ map_to_list (entries l) -> 0 <= suppressed ke.2 /\ is_Some (split_key ke.1)).
  { intros [k e] Hin%elem_of_map_to_list. by apply He. }
  clearbody l'. set (f := flush_pending (item ++ [0])).
  assert (Hc : forall ke m, omap f (ke :: m) = match f ke with Some y => y :: omap f m | None => omap f m end) by done.
  induction (map_to_list (entries l)) as [|ke m IH]; [done|].
  specialize (IH ltac:(intros; apply Hl; by right)). destruct (Hl ke ltac:(left)) as [Hp [[c k] Hs]].
  rewrite filter_cons, Hc. cbn [sum_entries foldr]. fold (sum_entries m).
  destruct (has_prefix (item ++ [0]) ke.1) eqn:Ep.
  - rewrite decide_False by congruence. destruct (Z.ltb_spec 0 (suppressed ke.2)) as [Hlt|Hge].
    + assert (Hf : f ke = Some (c, k, ke.2)) by (unfold f, flush_pending; rewrite Ep, Hs; by destruct (Z.ltb_spec 0 (suppressed ke.2)); [|lia]).
      rewrite Hf. cbn [mbind list_bind fst snd]. rewrite log_count_app, emit_count. lia.
    + assert (Hf : f ke = None) by (unfold f, flush_pending; rewrite Ep; by destruct (Z.ltb_spec 0 (suppressed ke.2)); [lia|]).
      rewrite Hf. lia.
  - rewrite decide_True by done. cbn [sum_entries foldr].
    assert (Hf : f ke = None) by (unfold f, flush_pending; by rewrite Ep). rewrite Hf.
    fold (sum_entries (filter (fun ke => has_prefix (item ++ [0]) ke.1 = false) m)). lia.
Qed.

Lemma flush_item_log_nonneg l item :
  0 <= log_count (FlushItem l item).2.
Proof.
  unfold FlushItem. cbn [snd].
  induction (omap (flush_pending (item ++ [0])) (map_to_list (entries l))) as [|p m IH]; [done|].
  rewrite bind_cons, log_count_app, emit_count. lia.
Qed.

Lemma limiter_step_inv n s op :
  limiter_inv n s -> n < maxInt64 ->
  limiter_inv (n + match op with OpWarn _ _ _ _ _ => 1 | _ => 0 end) (limiter_step s op).
Proof.
  destruct s as [l log]. intros [He Hn Hl] Hmax. cbn [fst snd] in *.
  assert (Hpos : forall k e, entries l !! k = Some e -> 0 <= suppressed e) by (intros; by eapply He).
  unfold limiter_step. destruct op as [now item class key msg|item class key|item|d].
  - unfold Warn, record. set (k := dedupKey item class key).
    assert (Hk : is_Some (split_key k)) by apply split_dedupKey.
    assert (Hins : forall e, 0 <= suppressed e -> forall k' e', <[k := e]> (entries l) !! k' = Some e' ->
      0 <= suppressed e' /\ is_Some (split_key k')).
    { intros e Hs k' e' [[<- <-]|[_ H']]%lookup_insert_Some; [done|by apply He]. }
    destruct (entries l !! k) as [e|] eqn:Ek.
    + pose proof (Hpos _ _ Ek) as Hs. pose proof (pending_entry _ _ _ Hpos Ek) as Hle.
      destruct (_ <=? _).
      * split; cbn [fst snd entries]; [by apply Hins| |];
          rewrite ?log_count_app; destruct (Z.ltb_spec 0 (suppressed e)); cbn [emitSummary];
          rewrite ?(pending_set _ _ _ e) by done; rewrite ?emit_count; cbn; try lia;
          unfold emitSummary; destruct (Z.leb_spec (suppressed e) 0); cbn; lia.
      * assert (Hi : i64 (suppressed e + 1) = suppressed e + 1)
          by (apply i64_small; unfold is_i64, minInt64; lia).
        split; cbn [fst snd entries]; [apply Hins; cbn; lia| |];
          rewrite ?log_count_app, ?(pending_set _ _ _ e) by done; cbn; lia.
    + split; cbn [fst snd entries]; [apply Hins; cbn; lia| |];
        rewrite ?log_count_app, ?pending_insert by done; cbn; lia.
  - unfold Flush. set (k := dedupKey item class key). destruct (entries l !! k) as [e|] eqn:Ek.
    + pose proof (Hpos _ _ Ek) as Hs. rewrite (pending_delete _ _ _ Ek) in Hn.
      assert (Hdel : forall k' e', delete k (entries l) !! k' = Some e' -> 0 <= suppressed e' /\ is_Some (split_key k'))
        by (intros k' e' [_ H']%lookup_delete_Some; by apply He).
      split; cbn [fst snd entries]; [done| |]; rewrite log_count_app;
        destruct (Z.ltb_spec 0 (suppressed e)); rewrite ?emit_count; cbn; lia.
    + split; cbn [fst snd entries]; rewrite ?app_nil_r; try done. lia.
  - pose proof (flush_item_count l item He) as Hf. pose proof (flush_item_log_nonneg l item).
    destruct (FlushItem l item) as [l' lines] eqn:E. cbn [fst snd] in *.
    split; cbn [fst snd]; rewrite ?log_count_app; [|lia|lia].
    intros k e Hk. apply He. unfold FlushItem in E. injection E as <- _. cbn [entries] in Hk.
    by apply map_lookup_filter_Some in Hk as [Hk _].
  - split; cbn [fst snd entries SetWindow]; rewrite ?app_nil_r; try done. lia.
Qed.

(** The limiter loses no warning.  After any sequence of warnings, flushes
    and window changes, at any instants and for any items, classes and keys, the
    number of warnings given equals the occurrences logged, plus the counts in
    the summaries logged, plus the suppressed counts still pending; flushing an
    item leaves nothing of it pending. *)
Theorem limiter_conserves ops item :
  Z.of_nat (length ops) <= maxInt64 ->
  let (l, log) := limiter_run ops in
  warns ops = log_count log + pending_total (entries l) /\
  forall class key, entries (FlushItem l item).1 !! dedupKey item class key = None.
Proof.
  intros Hlen.
  assert (H : forall n s, limiter_inv n s -> n + Z.of_nat (length ops) <= maxInt64 ->
    limiter_inv (n + warns ops) (fold_left limiter_step ops s)).
  { clear item. induction ops as [|op ops IH]; intros n s Hs Hn; cbn [fold_left].
    { unfold warns. cbn. by rewrite Z.add_0_r. }
    replace (n + warns (op :: ops)) with ((n + match op with OpWarn _ _ _ _ _ => 1 | _ => 0 end) + warns ops)
      by (unfold warns; destruct op; cbn; lia).
    cbn [length] in *. apply IH; [lia| |destruct op; lia]. apply limiter_step_inv; [done|lia]. }
  specialize (H 0 (NewLimiter, [])). unfold limiter_run.
  destruct (fold_left limiter_step ops (NewLimiter, [])) as [l log]. split.
  - apply H; [|lia]. split; cbn; [|done|done]. intros k e Hk. by rewrite lookup_empty in Hk.
  - intros class key. unfold FlushItem. cbn [fst entries]. apply map_lookup_filter_None. right.
    intros e _. cbn [fst]. unfold dedupKey.
    assert (Hp : forall a b, has_prefix a (a ++ b) = true).
    { induction a as [|x a IH]; intros b; cbn; [by destruct b|]. by rewrite Z.eqb_refl, IH. }
    by rewrite (app_assoc item [0]), Hp.
Qed.

Lemma limiter_conserves_witness :
  warns [OpWarn 0 (str "i") ClassTransientHere (str "k") (str "m"); OpWarn 1 (str "i") ClassTransientHere (str "k") (str "m")] = 2 /\
  exists l log, limiter_run [OpWarn 0 (str "i") ClassTransientHere (str "k") (str "m");
    OpWarn 1 (str "i") ClassTransientHere (str "k") (str "m")] = (l, log) /\
    2 = log_count log + pending_total (entries l).
Proof.
  split; [reflexivity|].
  pose proof (limiter_conserves [OpWarn 0 (str "i") ClassTransientHere (str "k") (str "m");
    OpWarn 1 (str "i") ClassTransientHere (str "k") (str "m")] (str "i")) as H.
  destruct (limiter_run _) as [l log]. exists l, log. split; [reflexivity|].
  destruct H as [H _]; [unfold maxInt64; cbn; lia|exact H].
Defined.
