(* ===== verification/Ladder.v ===== *)
(** The acquisition ladder of internal/ladder/ladder.go.

    The ladder calls into its surroundings: the context, the account governor and
    the rungs' own attempts.  Each is a function on a state [W] of the
    surroundings that returns the state after the call and the answer.  The
    results also carry the trace of the calls, which the code does not keep; it
    is what the theorems speak of. *)

From Stdlib Require Import ZArith Lia.
From stdpp Require Import base list numbers strings sets.
From S2P Require Import Prelude Outcome.

Local Open Scope Z_scope.

Record Rung {W : Type} := MkRung {
  r_Name : bytes;
  r_Op : bytes;
  r_Priority : Z;
  r_MaxAttempts : Z;
  r_Attempt : W -> W * option goerror
}.
Arguments Rung : clear implicits.
Arguments MkRung {W}.

Record RungResult := MkRungResult {
  rr_Name : bytes;
  rr_Attempts : Z;
  rr_Class : Class;
  rr_Err : option goerror
}.

Record Result := MkResult {
  Succeeded : bool;
  StoppedAt : bytes;
  Rungs : list RungResult
}.

(** [ErrAccountLevel], [ErrExhausted], or the error of the context or of a
    lease. *)
Inductive run_error : Type :=
| ErrAccountLevel
| ErrExhausted
| Aborted (e : goerror).

(** ** Calls *)

Inductive call : Type :=
| CtxErr (answer : option goerror)
| AcquireLease (op : bytes) (priority : Z) (answer : option goerror)
| Attempt (rung : bytes) (answer : option goerror)
| ReleaseLease (op : bytes).

Abbreviation trace := (list call).

Section Ladder.

(** The context, and the governor's two operations. *)
Context {W : Type}.
Context (ctxErr : W -> W * option goerror).
Context (acquire : W -> bytes -> Z -> bytes -> W * option goerror).
Context (release : W -> bytes -> W).

(** Whether the ladder has a governor. *)
Context (gov : bool).

(** One turn of the attempt loop: it returns from [runRung], or goes on. *)
Inductive turn : Type :=
| Return (rr : RungResult) (class : Class) (err : option goerror)
| Failed (class : Class) (err : goerror).

Definition attempt_turn (rung : Rung W) (session : bytes) (rr : RungResult) (attempt : Z) (w : W) (tr : trace)
    : W * trace * turn :=
  let (w, c) := ctxErr w in
  let tr := tr ++ [CtxErr c] in
  match c with
  | Some err => (w, tr, Return (MkRungResult (rr_Name rr) (attempt - 1) (rr_Class rr) (Some err)) ClassNone (Some err))
  | None =>
      let '(w, tr, lerr) :=
        if gov then
          let (w, a) := acquire w (r_Op rung) (r_Priority rung) session in
          (w, tr ++ [AcquireLease (r_Op rung) (r_Priority rung) a], a)
        else (w, tr, None) in
      match lerr with
      | Some lerr => (w, tr, Return (MkRungResult (rr_Name rr) attempt (rr_Class rr) (Some lerr)) ClassNone (Some lerr))
      | None =>
          let (w, err) := r_Attempt rung w in
          let tr := tr ++ [Attempt (r_Name rung) err] in
          let '(w, tr) := if gov then (release w (r_Op rung), tr ++ [ReleaseLease (r_Op rung)]) else (w, tr) in
          match err with
          | None => (w, tr, Return (MkRungResult (rr_Name rr) attempt ClassNone None) ClassNone None)
          | Some err => (w, tr, Failed (Classify (Some err)) err)
          end
      end
  end.

(** The loop from [attempt] to [max], [n] turns at most. *)
Fixpoint attempt_loop (n : nat) (rung : Rung W) (session : bytes) (max : Z) (rr : RungResult)
    (lastClass : Class) (attempt : Z) (w : W) (tr : trace) : W * trace * RungResult * Class * option goerror :=
  match n with
  | O => (w, tr, rr, lastClass, None)
  | S n =>
      match attempt_turn rung session rr attempt w tr with
      | (w, tr, Return rr class err) => (w, tr, rr, class, err)
      | (w, tr, Failed class err) =>
          let rr := MkRungResult (rr_Name rr) attempt class (Some err) in
          if bool_decide (class = ClassTransientHere) && (attempt <? max)
          then attempt_loop n rung session max rr class (attempt + 1) w tr
          else (w, tr, rr, class, None)
      end
  end.

Definition maxAttempts (rung : Rung W) : Z := if r_MaxAttempts rung <? 1 then 1 else r_MaxAttempts rung.

Definition runRung (rung : Rung W) (session : bytes) (w : W) (tr : trace)
    : W * trace * RungResult * Class * option goerror :=
  attempt_loop (Z.to_nat (maxAttempts rung)) rung session (maxAttempts rung)
    (MkRungResult (r_Name rung) 0 ClassNone None) ClassNone 1 w tr.

Fixpoint run_loop (rungs : list (Rung W)) (session : bytes) (res : Result) (w : W) (tr : trace)
    : W * trace * Result * option run_error :=
  match rungs with
  | [] => (w, tr, res, Some ErrExhausted)
  | rung :: rungs =>
      let '(w, tr, rr, class, err) := runRung rung session w tr in
      let done_rungs := Rungs res ++ [rr] in
      match err with
      | Some err => (w, tr, MkResult (Succeeded res) (r_Name rung) done_rungs, Some (Aborted err))
      | None =>
          if bool_decide (class = ClassNone) then (w, tr, MkResult true (r_Name rung) done_rungs, None)
          else if bool_decide (class = ClassAccountLevel)
          then (w, tr, MkResult (Succeeded res) (r_Name rung) done_rungs, Some ErrAccountLevel)
          else run_loop rungs session (MkResult (Succeeded res) (StoppedAt res) done_rungs) w tr
      end
  end.

Definition Run (rungs : list (Rung W)) (session : bytes) (w : W) : W * trace * Result * option run_error :=
  run_loop rungs session (MkResult false [] []) w [].

(** ** The shape of a walk *)

(** The calls of one completed attempt. *)
Definition one_attempt (rung : Rung W) (answer : option goerror) : trace :=
  [CtxErr None] ++
  (if gov then [AcquireLease (r_Op rung) (r_Priority rung) None] else []) ++
  [Attempt (r_Name rung) answer] ++
  (if gov then [ReleaseLease (r_Op rung)] else []).

(** The calls of an attempt that did not start: the context or the lease said
    no. *)
Definition aborted_attempt (rung : Rung W) (e : goerror) (tr : trace) : Prop :=
  tr = [CtxErr (Some e)] \/
  (gov = true /\ tr = [CtxErr None; AcquireLease (r_Op rung) (r_Priority rung) (Some e)]).

(** The last attempt of a visit to a rung. *)
Inductive visit_end : Type :=
| VSuccess
| VAbort (e : goerror)
| VFail (c : Class) (e : goerror).

(** A visit of a rung: transient failures, each followed by another attempt, and
    then the attempt the visit ends with; [n] is the number of failures before it. *)
Inductive visit (rung : Rung W) : nat -> trace -> visit_end -> Prop :=
| visit_success : visit rung 0 (one_attempt rung None) VSuccess
| visit_abort e tr : aborted_attempt rung e tr -> visit rung 0 tr (VAbort e)
| visit_fail e : visit rung 0 (one_attempt rung (Some e)) (VFail (Classify (Some e)) e)
| visit_retry e n tr v :
    Classify (Some e) = ClassTransientHere -> visit rung n tr v ->
    visit rung (S n) (one_attempt rung (Some e) ++ tr) v.

(** What [runRung] reports of a visit. *)
Definition reports (rung : Rung W) (n : nat) (v : visit_end) (rr : RungResult) (class : Class)
    (err : option goerror) : Prop :=
  rr_Name rr = r_Name rung /\
  match v with
  | VSuccess => rr_Attempts rr = Z.of_nat n + 1 /\ rr_Class rr = ClassNone /\ rr_Err rr = None /\
      class = ClassNone /\ err = None
  | VAbort e => Z.of_nat n <= rr_Attempts rr <= Z.of_nat n + 1 /\ rr_Err rr = Some e /\
      class = ClassNone /\ err = Some e
  | VFail c e => rr_Attempts rr = Z.of_nat n + 1 /\ rr_Class rr = c /\ rr_Err rr = Some e /\
      class = c /\ err = None /\ (c = ClassTransientHere -> Z.of_nat n + 1 = maxAttempts rung)
  end.

Lemma attempt_turn_spec rung session rr attempt w tr w' tr' t :
  attempt_turn rung session rr attempt w tr = (w', tr', t) ->
  (exists e, t = Failed (Classify (Some e)) e /\ tr' = tr ++ one_attempt rung (Some e)) \/
  (t = Return (MkRungResult (rr_Name rr) attempt ClassNone None) ClassNone None /\
     tr' = tr ++ one_attempt rung None) \/
  (exists e a l, t = Return (MkRungResult (rr_Name rr) a (rr_Class rr) (Some e)) ClassNone (Some e) /\
     attempt - 1 <= a <= attempt /\ aborted_attempt rung e l /\ tr' = tr ++ l).
Proof.
  unfold attempt_turn. destruct (ctxErr w) as [w1 [e|]].
  { intros [= <- <- <-]. right; right. exists e, (attempt - 1), [CtxErr (Some e)].
    split_and!; [done|lia|lia|by left|done]. }
  unfold one_attempt, aborted_attempt. destruct gov.
  - destruct (acquire _ _ _ _) as [w2 [e|]].
    { intros [= <- <- <-]. right; right. exists e, attempt. eexists. split_and!; [done|lia|lia|by right|].
      by rewrite <-app_assoc. }
    destruct (r_Attempt _ _) as [w3 [e|]]; intros [= <- <- <-].
    + left. exists e. split; [done|]. by rewrite <-!app_assoc.
    + right; left. split; [done|]. by rewrite <-!app_assoc.
  - destruct (r_Attempt _ _) as [w3 [e|]]; intros [= <- <- <-].
    + left. exists e. split; [done|]. by rewrite <-!app_assoc.
    + right; left. split; [done|]. by rewrite <-!app_assoc.
Qed.

Lemma attempt_loop_spec n rung session : forall rr lastClass k w tr w' tr' rr' class err,
  rr_Name rr = r_Name rung -> (0 < n)%nat -> Z.of_nat k + Z.of_nat n = maxAttempts rung ->
  attempt_loop n rung session (maxAttempts rung) rr lastClass (Z.of_nat k + 1) w tr = (w', tr', rr', class, err) ->
  exists m v l, visit rung m l v /\ tr' = tr ++ l /\ reports rung (k + m) v rr' class err /\
    Z.of_nat (k + m) + 1 <= maxAttempts rung.
Proof.
  induction n as [|n IH]; intros rr lastClass k w tr w' tr' rr' class err Hname Hn Hmax H; [lia|].
  cbn [attempt_loop] in H.
  destruct (attempt_turn rung session rr (Z.of_nat k + 1) w tr) as [[w1 tr1] t] eqn:Et.
  apply attempt_turn_spec in Et as [(e & -> & ->)|[[-> ->]|(e & a & l & -> & Ha & Hab & ->)]].
  - destruct (bool_decide (Classify (Some e) = ClassTransientHere) && _) eqn:Er.
    + bool_hyps. replace (Z.of_nat k + 1 + 1) with (Z.of_nat (S k) + 1) in H by lia.
      apply IH in H as (m & v & l & Hv & -> & Hrep & Hle); [|done|lia|lia].
      exists (S m), v, (one_attempt rung (Some e) ++ l). split; [by apply visit_retry|].
      split; [by rewrite app_assoc|]. by replace (k + S m)%nat with (S k + m)%nat by lia.
    + injection H as <- <- <- <- <-. exists 0%nat, (VFail (Classify (Some e)) e), (one_attempt rung (Some e)).
      split; [constructor|]. split; [done|]. rewrite Nat.add_0_r. split; [|lia].
      split; [done|]. cbn [rr_Attempts rr_Class rr_Err]. split_and!; try done. intros E.
      rewrite bool_decide_true in Er by exact E. cbn [andb] in Er. lia.
  - injection H as <- <- <- <- <-. exists 0%nat, VSuccess, (one_attempt rung None).
    split; [constructor|]. split; [done|]. rewrite Nat.add_0_r. split; [done|lia].
  - injection H as <- <- <- <- <-. exists 0%nat, (VAbort e), l.
    split; [by constructor|]. split; [done|]. rewrite Nat.add_0_r. split; [|lia]. split; [done|].
    cbn [rr_Attempts rr_Class rr_Err]. split_and!; try done; lia.
Qed.

Lemma maxAttempts_pos rung : 1 <= maxAttempts rung.
Proof. unfold maxAttempts. destruct (Z.ltb_spec (r_MaxAttempts rung) 1); lia. Qed.

Lemma runRung_spec rung session w tr w' tr' rr class err :
  runRung rung session w tr = (w', tr', rr, class, err) ->
  exists m v l, visit rung m l v /\ tr' = tr ++ l /\ reports rung m v rr class err /\
    Z.of_nat m + 1 <= maxAttempts rung.
Proof.
  pose proof (maxAttempts_pos rung). intros Hr. unfold runRung in Hr.
  apply (attempt_loop_spec _ _ _ _ _ 0%nat) in Hr as (m & v & l & Hv & -> & Hr & Hle); [|done|lia|lia].
  exists m, v, l. done.
Qed.

(** A walk: visits that failed without stopping the walk, then the visit it ends
    with, or the end of the ladder. *)
Definition advances (c : Class) : Prop := c <> ClassNone /\ c <> ClassAccountLevel.

Inductive walk : list (Rung W) -> trace -> list RungResult -> option bytes -> option run_error -> Prop :=
| walk_exhausted : walk [] [] [] None (Some ErrExhausted)
| walk_success rung rungs n l v rr c err :
    visit rung n l v -> reports rung n v rr c err -> Z.of_nat n + 1 <= maxAttempts rung ->
    err = None -> c = ClassNone ->
    walk (rung :: rungs) l [rr] (Some (r_Name rung)) None
| walk_account rung rungs n l v rr err :
    visit rung n l v -> reports rung n v rr ClassAccountLevel err -> Z.of_nat n + 1 <= maxAttempts rung ->
    err = None -> walk (rung :: rungs) l [rr] (Some (r_Name rung)) (Some ErrAccountLevel)
| walk_abort rung rungs n l e rr c :
    visit rung n l (VAbort e) -> reports rung n (VAbort e) rr c (Some e) -> Z.of_nat n + 1 <= maxAttempts rung ->
    walk (rung :: rungs) l [rr] (Some (r_Name rung)) (Some (Aborted e))
| walk_advance rung rungs n l e c rr l' rrs stop err :
    visit rung n l (VFail c e) -> reports rung n (VFail c e) rr c None -> Z.of_nat n + 1 <= maxAttempts rung ->
    advances c -> walk rungs l' rrs stop err ->
    walk (rung :: rungs) (l ++ l') (rr :: rrs) stop err.

Lemma run_loop_spec rungs session : forall res w tr w' tr' res' err,
  Succeeded res = false -> StoppedAt res = [] ->
  run_loop rungs session res w tr = (w', tr', res', err) ->
  exists l rrs stop, walk rungs l rrs stop err /\ tr' = tr ++ l /\ Rungs res' = Rungs res ++ rrs /\
    StoppedAt res' = default [] stop /\ (Succeeded res' = true <-> err = None).
Proof.
  induction rungs as [|rung rungs IH]; intros res w tr w' tr' res' err Hs Hst H; cbn [run_loop] in H.
  { injection H as <- <- <- <-. exists [], [], None. split; [constructor|]. rewrite !app_nil_r, Hs, Hst.
    split_and!; done. }
  destruct (runRung rung session w tr) as [[[[w1 tr1] rr] class] err1] eqn:Er.
  apply runRung_spec in Er as (n & v & l & Hv & -> & Hr & Hle).
  destruct err1 as [e|].
  { injection H as <- <- <- <-. pose proof Hr as [_ Hr']. destruct v as [|e'|c' e']; [naive_solver| |naive_solver].
    destruct Hr' as (_ & _ & _ & [= <-]). exists l, [rr], (Some (r_Name rung)). cbn.
    split; [by eapply walk_abort|]. rewrite Hs. done. }
  destruct (bool_decide (class = ClassNone)) eqn:E1.
  { bool_hyps. injection H as <- <- <- <-. exists l, [rr], (Some (r_Name rung)).
    split; [by eapply walk_success|]. done. }
  destruct (bool_decide (class = ClassAccountLevel)) eqn:E2.
  { bool_hyps. subst class. injection H as <- <- <- <-. exists l, [rr], (Some (r_Name rung)). cbn.
    split; [by eapply walk_account|]. rewrite Hs. done. }
  bool_hyps. apply IH in H as (l' & rrs & stop & Hw & -> & HR & HS & Hsucc); [|done|done].
  cbn [Rungs] in HR. pose proof Hr as [_ Hr']. destruct v as [|e'|c' e']; [naive_solver|naive_solver|].
  destruct Hr' as (_ & _ & _ & -> & _). exists (l ++ l'), (rr :: rrs), stop.
  split; [by eapply walk_advance|]. rewrite <-!app_assoc in *. by rewrite HR, app_assoc.
Qed.

(** *** Leases *)

(** Leases granted and not yet released, after a trace; [None] once a lease is
    released that was not held, or taken while one is held. *)
Fixpoint held (tr : trace) (h : option bytes) : option (option bytes) :=
  match tr with
  | [] => Some h
  | AcquireLease op _ None :: tr => match h with None => held tr (Some op) | Some _ => None end
  | ReleaseLease op :: tr => if decide (h = Some op) then held tr None else None
  | Attempt _ _ :: tr => if gov then match h with Some _ => held tr h | None => None end else held tr h
  | _ :: tr => held tr h
  end.

Lemma held_app tr1 tr2 h h' : held tr1 h = Some h' -> held (tr1 ++ tr2) h = held tr2 h'.
Proof.
  revert h. induction tr1 as [|c tr1 IH]; intros h H; cbn [held app] in *; [by injection H as ->|].
  destruct c as [|op p [e|]| |op]; auto.
  - destruct h; [done|auto].
  - destruct gov; [destruct h; [auto|done]|auto].
  - case_decide; [auto|done].
Qed.

Lemma held_attempt rung a : held (one_attempt rung a) None = Some None.
Proof. unfold one_attempt. destruct gov eqn:E; cbn; rewrite ?E; [|done]. by rewrite decide_True. Qed.

Lemma held_visit rung n l v : visit rung n l v -> held l None = Some None.
Proof.
  induction 1 as [|e tr [->|[_ ->]]| |e n tr v _ _ IH]; [apply held_attempt|done|done|apply held_attempt|].
  by rewrite (held_app _ _ _ None) by apply held_attempt.
Qed.

Lemma held_walk rungs l rrs stop err : walk rungs l rrs stop err -> held l None = Some None.
Proof.
  induction 1; try (by eapply held_visit); [done|].
  rewrite (held_app _ _ _ None) by (by eapply held_visit). done.
Qed.


(** What the attempts establish about the surroundings: an invariant of every
    call holds after the walk, and what a successful attempt guarantees, and the
    release of its lease keeps, holds after a walk that succeeds. *)
Section Guarantee.
Context (P : W -> Prop) (Q : bytes -> W -> Prop).
Context (Hctx : forall w, P w -> P (ctxErr w).1).
Context (Hacq : forall w op p s, P w -> P (acquire w op p s).1).
Context (Hrel : forall w op, P w -> P (release w op)).
Context (HQ : forall w op name, Q name w -> Q name (release w op)).

Definition attempt_guarantees (rung : Rung W) : Prop :=
  forall w, P w -> P (r_Attempt rung w).1 /\
    match (r_Attempt rung w).2 with
    | None => Q (r_Name rung) (r_Attempt rung w).1
    | Some e => Classify (Some e) <> ClassNone
    end.

Lemma attempt_turn_guarantee rung session rr attempt w tr w' tr' t :
  attempt_guarantees rung -> P w -> attempt_turn rung session rr attempt w tr = (w', tr', t) ->
  P w' /\ match t with
    | Return _ c None => c = ClassNone /\ Q (r_Name rung) w'
    | Return _ _ (Some _) => True
    | Failed c _ => c <> ClassNone
    end.
Proof.
  intros Ha HP H. unfold attempt_turn in H. pose proof (Hctx w HP) as H1. destruct (ctxErr w) as [w1 [e|]].
  { by injection H as <- <- <-. }
  cbn [fst] in H1. destruct gov.
  - pose proof (Hacq w1 (r_Op rung) (r_Priority rung) session H1) as H2.
    destruct (acquire _ _ _ _) as [w2 [e|]]; [by injection H as <- <- <-|]. cbn [fst] in H2.
    destruct (Ha w2 H2) as [H3 H4]. destruct (r_Attempt rung w2) as [w3 [e|]]; injection H as <- <- <-; cbn [fst snd] in *; auto.
  - destruct (Ha w1 H1) as [H3 H4]. destruct (r_Attempt rung w1) as [w3 [e|]]; injection H as <- <- <-; auto.
Qed.

Lemma attempt_loop_guarantee n rung session max : forall rr lastClass attempt w tr w' tr' rr' class err,
  attempt_guarantees rung -> P w -> (0 < n)%nat ->
  attempt_loop n rung session max rr lastClass attempt w tr = (w', tr', rr', class, err) ->
  P w' /\ (err = None -> class = ClassNone -> Q (r_Name rung) w').
Proof.
  induction n as [|n IH]; intros rr lastClass attempt w tr w' tr' rr' class err Ha HP Hn H; [lia|].
  cbn [attempt_loop] in H. destruct (attempt_turn _ _ _ _ _ _) as [[w1 tr1] t] eqn:Et.
  destruct (attempt_turn_guarantee _ _ _ _ _ _ _ _ _ Ha HP Et) as [HP1 Ht].
  destruct t as [rr1 c1 e1|c1 e1].
  - injection H as <- <- <- <- <-. split; [done|]. intros -> _. apply Ht.
  - destruct (bool_decide (c1 = ClassTransientHere) && _).
    + destruct n as [|n]; [|by eapply (IH _ _ _ _ _ _ _ _ _ _ Ha HP1); [lia|exact H]].
      cbn [attempt_loop] in H. injection H as <- <- <- <- <-. split; [done|]. by intros _ ->.
    + injection H as <- <- <- <- <-. split; [done|]. by intros _ ->.
Qed.

Lemma Run_guarantee rungs session w w' tr res err :
  Forall attempt_guarantees rungs -> P w -> Run rungs session w = (w', tr, res, err) ->
  P w' /\ (err = None -> exists rung, rung ∈ rungs /\ StoppedAt res = r_Name rung /\ Q (r_Name rung) w').
Proof.
  unfold Run. generalize (MkResult false [] []). generalize (@nil call). intros tr0 res0 Hall.
  revert w tr0 res0. induction Hall as [|rung rungs Ha _ IH]; intros w tr0 res0 HP H; cbn [run_loop] in H.
  { injection H as <- <- <- <-. by split. }
  destruct (runRung rung session w tr0) as [[[[w1 tr1] rr] class] err1] eqn:Er.
  pose proof (maxAttempts_pos rung). unfold runRung in Er.
  apply attempt_loop_guarantee in Er as [HP1 Hq]; [|done|done|lia].
  destruct err1 as [e|]; [by injection H as <- <- <- <-|].
  destruct (bool_decide (class = ClassNone)) eqn:E1.
  { bool_hyps. injection H as <- <- <- <-. split; [done|]. intros _. exists rung. split; [left|]. auto. }
  destruct (bool_decide (class = ClassAccountLevel)); [by injection H as <- <- <- <-|].
  apply IH in H as [HP' Hr]; [|done]. split; [done|]. intros He. destruct (Hr He) as (r & Hr' & ? & ?).
  exists r. split; [by right|done].
Qed.

End Guarantee.

End Ladder.

Definition cancelled : goerror := Error (TPlain (str "context canceled")) [].

(** A context cancelled while the last attempt of the last rung runs is not
    reported: the attempt fails with the context's error, which has no class, so
    the walk ends as exhausted, although the context answers with its error from
    then on.  Cancelled one rung earlier, the same walk ends with that error. *)
Theorem cancelled_last_rung acquire release op name1 name2 session :
  let ctx := fun w : bool => (w, if w then Some cancelled else None) in
  let attempt := fun _ : bool => (true, Some cancelled) in
  let rung1 := MkRung name1 op 0 1 attempt in
  let rung2 := MkRung name2 op 0 1 attempt in
  (Run ctx acquire release false [rung1] session false).2 = Some ErrExhausted /\
  (Run ctx acquire release false [rung1; rung2] session false).2 = Some (Aborted cancelled).
Proof. by split. Qed.
