(* ===== verification/ContentProof.v ===== *)
(** The content proof graph: internal/contentproof/contentproof.go, candidate.go
    and the alias lookup of convergence.go.

    The repository, the clock and the context are classes of calls on a world;
    ProofStore.v implements the repository.  Strings of a fixed vocabulary are
    inductive types whose last constructor is any other string. *)

From Stdlib Require Import ZArith Lia.
From stdpp Require Import base list numbers strings sets.
From S2P Require Import Prelude Outcome.

Local Open Scope Z_scope.
Local Open Scope harbor_scope.

Definition errors_New (msg : bytes) : goerror := Error (TPlain msg) [].

(** ** Vocabulary *)

Inductive Scope : Type := ScopeWhole | ScopeBlock | ScopeOther (s : bytes).

Inductive Kind : Type :=
| KindAuthoritative | KindSameOrigin | KindTOFU | KindHint | KindOther (s : bytes).

Inductive Provenance : Type :=
| ProvenanceTorrentPiece | ProvenanceTorrentMerkle | ProvenancePAR2IFSC | ProvenanceIADigest
| ProvenanceHTTPDigest | ProvenanceMetalink | ProvenanceSameOriginETag | ProvenancePlaybackObserved
| ProvenanceCandidateHint | ProvenanceOther (s : bytes).

Inductive Algorithm : Type :=
| AlgorithmMD5 | AlgorithmSHA1 | AlgorithmSHA256 | AlgorithmETAGSHA256 | AlgorithmHintSHA256
| AlgorithmOther (s : bytes).

#[export] Instance Scope_eq_dec : EqDecision Scope.
Proof. solve_decision. Defined.
#[export] Instance Kind_eq_dec : EqDecision Kind.
Proof. solve_decision. Defined.
#[export] Instance Provenance_eq_dec : EqDecision Provenance.
Proof. solve_decision. Defined.
#[export] Instance Algorithm_eq_dec : EqDecision Algorithm.
Proof. solve_decision. Defined.

Definition DefaultMaxProofsPerRepresentation : Z := 4096.
Definition maxDigestBytes : Z := 64.

(** Instants count nanoseconds from the zero time, year 1; an evidence without
    expiry has a nil pointer. *)
Record Evidence := MkEvidence {
  RepresentationID : bytes;
  e_Scope : Scope;
  e_Offset : Z;
  e_Length : Z;
  e_Kind : Kind;
  e_Algorithm : Algorithm;
  Digest : bytes;
  e_Provenance : Provenance;
  OriginID : bytes;
  ExpiresAt : option Z;
  ObservedAt : Z
}.

Record Key := MkKey {
  k_RepresentationID : bytes;
  k_Scope : Scope;
  k_Offset : Z;
  k_Length : Z;
  k_Kind : Kind;
  k_Algorithm : Algorithm;
  k_Provenance : Provenance;
  k_OriginID : bytes
}.

#[export] Instance Evidence_eq_dec : EqDecision Evidence.
Proof. solve_decision. Defined.
#[export] Instance Key_eq_dec : EqDecision Key.
Proof. solve_decision. Defined.

Inductive Relation : Type := RelationProven | RelationConflict | RelationNoProof.

#[export] Instance Relation_eq_dec : EqDecision Relation.
Proof. solve_decision. Defined.

Record Decision := MkDecision {
  d_Relation : Relation;
  d_Offset : Z;
  d_Length : Z;
  d_Left : Provenance;
  d_Right : Provenance
}.

(** The empty string a provenance field starts as. *)
Definition no_provenance : Provenance := ProvenanceOther [].

(** ** Validation *)

Definition is_upper (c : Z) : bool := (65 <=? c) && (c <=? 90).
Definition is_lower (c : Z) : bool := (97 <=? c) && (c <=? 122).
Definition is_digit (c : Z) : bool := (48 <=? c) && (c <=? 57).
Definition is_alnum (c : Z) : bool := is_upper c || is_lower c || is_digit c.

(** The class [A-Za-z0-9._:-]. *)
Definition is_id_char (c : Z) : bool :=
  is_alnum c || (c =? 46) || (c =? 95) || (c =? 58) || (c =? 45).

(** The pattern: an alphanumeric, then at most 127 characters of the class. *)
Definition opaqueIDPattern (value : bytes) : bool :=
  match value with
  | [] => false
  | c :: rest => is_alnum c && (Z.of_nat (length rest) <=? 127) && forallb is_id_char rest
  end.

Definition validateOpaqueID (field value : bytes) : option goerror :=
  if opaqueIDPattern value then None
  else Some (errors_New (str "contentproof: " ++ field ++ str " must be an opaque secret-free ID")).

Definition digestLength (algorithm : Algorithm) : Z :=
  match algorithm with
  | AlgorithmMD5 => 16
  | AlgorithmSHA1 => 20
  | AlgorithmSHA256 | AlgorithmETAGSHA256 | AlgorithmHintSHA256 => 32
  | AlgorithmOther _ => 0
  end.

Definition isAuthoritativeAlgorithm (algorithm : Algorithm) : bool :=
  bool_decide (algorithm = AlgorithmMD5) || bool_decide (algorithm = AlgorithmSHA1) ||
  bool_decide (algorithm = AlgorithmSHA256).

Definition validKindProvenance (e : Evidence) : bool :=
  match e_Kind e with
  | KindAuthoritative =>
      if negb (bool_decide (OriginID e = [])) then false
      else
        match e_Provenance e with
        | ProvenanceTorrentPiece => bool_decide (e_Scope e = ScopeBlock) && bool_decide (e_Algorithm e = AlgorithmSHA1)
        | ProvenanceTorrentMerkle => bool_decide (e_Algorithm e = AlgorithmSHA256)
        | ProvenancePAR2IFSC => bool_decide (e_Scope e = ScopeBlock) && bool_decide (e_Algorithm e = AlgorithmMD5)
        | ProvenanceIADigest | ProvenanceMetalink =>
            bool_decide (e_Scope e = ScopeWhole) && isAuthoritativeAlgorithm (e_Algorithm e)
        | ProvenanceHTTPDigest => isAuthoritativeAlgorithm (e_Algorithm e)
        | _ => false
        end
  | KindSameOrigin =>
      bool_decide (e_Provenance e = ProvenanceSameOriginETag) &&
      bool_decide (e_Algorithm e = AlgorithmETAGSHA256) && negb (bool_decide (OriginID e = []))
  | KindTOFU =>
      bool_decide (e_Provenance e = ProvenancePlaybackObserved) &&
      bool_decide (e_Algorithm e = AlgorithmSHA256) && bool_decide (OriginID e = [])
  | KindHint =>
      bool_decide (e_Provenance e = ProvenanceCandidateHint) &&
      bool_decide (e_Algorithm e = AlgorithmHintSHA256) && bool_decide (OriginID e = [])
  | KindOther _ => false
  end.

Definition is_scope (s : Scope) : bool :=
  negb (negb (bool_decide (s = ScopeWhole)) && negb (bool_decide (s = ScopeBlock))).

Definition first_error (a b : option goerror) : option goerror :=
  match a with Some err => Some err | None => b end.

Definition fails (b : bool) (msg : bytes) : option goerror := if b then Some (errors_New msg) else None.

Definition validateEvidence (e : Evidence) : option goerror :=
  first_error (validateOpaqueID (str "representation") (RepresentationID e)) (
  first_error (fails (negb (is_scope (e_Scope e))) (str "contentproof: invalid scope")) (
  first_error (fails ((e_Offset e <? 0) || (e_Length e <=? 0) ||
    (bool_decide (e_Scope e = ScopeWhole) && negb (e_Offset e =? 0))) (str "contentproof: invalid evidence span")) (
  first_error (fails (ObservedAt e =? 0) (str "contentproof: missing observed time")) (
  first_error (match ExpiresAt e with
    | Some t => fails (negb (ObservedAt e <? t)) (str "contentproof: expiry must follow observation")
    | None => None
    end) (
  first_error (fails ((Z.of_nat (length (Digest e)) =? 0) || (maxDigestBytes <? Z.of_nat (length (Digest e))) ||
    negb (Z.of_nat (length (Digest e)) =? digestLength (e_Algorithm e)))
    (str "contentproof: invalid digest length or algorithm")) (
  first_error (if negb (bool_decide (OriginID e = [])) then validateOpaqueID (str "origin") (OriginID e) else None)
  (fails (negb (validKindProvenance e)) (str "contentproof: invalid kind/provenance combination")))))))).

(** [time.Unix(1, 0)] in nanoseconds from the zero time. *)
Definition unix_one : Z := 62135596801 * second.

Definition validateKey (key : Key) : option goerror :=
  validateEvidence (MkEvidence (k_RepresentationID key) (k_Scope key) (k_Offset key) (k_Length key)
    (k_Kind key) (k_Algorithm key) (repeat 0 (Z.to_nat (digestLength (k_Algorithm key))))
    (k_Provenance key) (k_OriginID key) None unix_one).

(** ** Comparing evidence *)

(** [offset-e.Offset <= e.Length-length], the subtractions in 64 bits. *)
Definition covers (e : Evidence) (offset len : Z) : bool :=
  (e_Offset e <=? offset) && (len <=? e_Length e) &&
  (i64 (offset - e_Offset e) <=? i64 (e_Length e - len)).

Definition byte_diff (a b : bytes) : Z :=
  fold_left (fun diff ab => Z.lor diff (Z.lxor ab.1 ab.2)) (combine a b) 0.

Definition equalBytes (a b : bytes) : bool :=
  if negb (Nat.eqb (length a) (length b)) then false else byte_diff a b =? 0.

(** A set of strings as the keys of a map: its members, each once. *)
Fixpoint stringSet (values : list bytes) : list bytes :=
  match values with
  | [] => []
  | v :: values => let s := stringSet values in if bool_decide (v ∈ s) then s else v :: s
  end.

Definition sameStringSet (lhs rhs : list bytes) : bool :=
  if negb (Nat.eqb (length lhs) (length rhs)) then false
  else forallb (fun value => bool_decide (value ∈ rhs)) lhs.

(** The guard of the outer loop, and that of the inner one. *)
Definition left_counts (leftSet : list bytes) (offset len : Z) (lhs : Evidence) : bool :=
  bool_decide (RepresentationID lhs ∈ leftSet) && bool_decide (e_Kind lhs = KindAuthoritative) &&
  covers lhs offset len.

Definition right_counts (rightSet : list bytes) (offset len : Z) (lhs rhs : Evidence) : bool :=
  bool_decide (RepresentationID rhs ∈ rightSet) && bool_decide (e_Kind rhs = KindAuthoritative) &&
  bool_decide (e_Scope lhs = e_Scope rhs) && (e_Offset lhs =? e_Offset rhs) &&
  (e_Length lhs =? e_Length rhs) && bool_decide (e_Algorithm lhs = e_Algorithm rhs) &&
  covers rhs offset len.

(** What the loops carry: the conflict they returned, or the match so far. *)
Inductive scan : Type := Conflicting (d : Decision) | Matched (d : option Decision).

Fixpoint compare_right (rightSet : list bytes) (offset len : Z) (lhs : Evidence)
    (evidence : list Evidence) (matched : option Decision) : scan :=
  match evidence with
  | [] => Matched matched
  | rhs :: evidence =>
      if right_counts rightSet offset len lhs rhs then
        let candidate := MkDecision RelationProven offset len (e_Provenance lhs) (e_Provenance rhs) in
        if equalBytes (Digest lhs) (Digest rhs)
        then compare_right rightSet offset len lhs evidence (Some candidate)
        else Conflicting (MkDecision RelationConflict offset len (e_Provenance lhs) (e_Provenance rhs))
      else compare_right rightSet offset len lhs evidence matched
  end.

Fixpoint compare_left (leftSet rightSet : list bytes) (offset len : Z) (all evidence : list Evidence)
    (matched : option Decision) : scan :=
  match evidence with
  | [] => Matched matched
  | lhs :: evidence =>
      if left_counts leftSet offset len lhs then
        match compare_right rightSet offset len lhs all matched with
        | Conflicting d => Conflicting d
        | Matched matched => compare_left leftSet rightSet offset len all evidence matched
        end
      else compare_left leftSet rightSet offset len all evidence matched
  end.

(** The guard and the loop of [VerifyDigest]. *)
Definition proof_applies (scope : Scope) (offset len : Z) (algorithm : Algorithm) (proof : Evidence) : bool :=
  bool_decide (e_Kind proof = KindAuthoritative) && bool_decide (e_Scope proof = scope) &&
  (e_Offset proof =? offset) && (e_Length proof =? len) && bool_decide (e_Algorithm proof = algorithm).

Fixpoint verify_loop (scope : Scope) (offset len : Z) (algorithm : Algorithm) (digest : bytes)
    (evidence : list Evidence) (decision : Decision) (matched : bool) : Decision :=
  match evidence with
  | [] => if matched then MkDecision RelationProven (d_Offset decision) (d_Length decision) (d_Left decision) (d_Right decision) else decision
  | proof :: evidence =>
      if proof_applies scope offset len algorithm proof then
        let decision := MkDecision (d_Relation decision) (d_Offset decision) (d_Length decision) (e_Provenance proof) (d_Right decision) in
        if equalBytes (Digest proof) digest
        then verify_loop scope offset len algorithm digest evidence decision true
        else MkDecision RelationConflict (d_Offset decision) (d_Length decision) (d_Left decision) (d_Right decision)
      else verify_loop scope offset len algorithm digest evidence decision matched
  end.

(** ** The surroundings *)

Class Context (W : Type) := { ctx_Err : W -> W * option goerror }.
Class Clock (W : Type) := { time_Now : W -> W * Z }.

(** The repository the graph is given; [ListRepresentationAliases] is the
    optional method the code asks for at run time. *)
Class Repository (W : Type) := {
  UpsertContentProof : Evidence -> Z -> W -> W * option goerror;
  ListContentProofs : list bytes -> Z -> W -> W * result goerror (list Evidence);
  DeleteContentProof : Key -> W -> W * option goerror;
  ListRepresentationAliases : option (bytes -> Z -> W -> W * result goerror (list bytes * Z))
}.

Definition DefaultMaxRoutesPerRepresentation : Z := 32.

Record Options := MkOptions { MaxProofsPerRepresentation : Z }.

Record Graph := MkGraph { g_max : Z }.

(** [New], over a repository that is not nil. *)
Definition New (opts : Options) : result goerror Graph :=
  if MaxProofsPerRepresentation opts <? 0 then Err (errors_New (str "contentproof: negative proof limit"))
  else if MaxProofsPerRepresentation opts =? 0 then Ok (MkGraph DefaultMaxProofsPerRepresentation)
  else Ok (MkGraph (MaxProofsPerRepresentation opts)).

Section Graph.
Context {W : Type} `{Context W, Clock W, Repository W}.

Definition representationAliases (representationID : bytes) : W -> W * result goerror (list bytes * Z) :=
  match ListRepresentationAliases with
  | None => call_ret (Ok ([representationID], 0))
  | Some resolver =>
      let! r := resolver representationID DefaultMaxRoutesPerRepresentation in
      match r with
      | Err err => call_ret (Err err)
      | Ok (aliases, size) =>
          if bool_decide (aliases = []) then call_ret (Ok ([representationID], 0))
          else call_ret (Ok (aliases, size))
      end
  end.

Definition with_observed (e : Evidence) (at_ : Z) : Evidence :=
  MkEvidence (RepresentationID e) (e_Scope e) (e_Offset e) (e_Length e) (e_Kind e) (e_Algorithm e)
    (Digest e) (e_Provenance e) (OriginID e) (ExpiresAt e) at_.

Definition Record_ (g : Graph) (evidence : Evidence) : W -> W * option goerror :=
  let! err := ctx_Err in
  stop! err in
  let! evidence := (if ObservedAt evidence =? 0
                    then let! n := time_Now in call_ret (with_observed evidence n)
                    else call_ret evidence) in
  stop! validateEvidence evidence in
  UpsertContentProof evidence (g_max g).

Definition Revoke (key : Key) : W -> W * option goerror :=
  let! err := ctx_Err in
  stop! err in
  stop! validateKey key in
  DeleteContentProof key.

Definition Compare (leftID rightID : bytes) (offset len : Z) : W -> W * (Decision * option goerror) :=
  let decision := MkDecision RelationNoProof offset len no_provenance no_provenance in
  let! err := ctx_Err in
  check! err or decision in
  check! validateOpaqueID (str "left representation") leftID or decision in
  check! validateOpaqueID (str "right representation") rightID or decision in
  if (offset <? 0) || (len <=? 0) || (i64 (maxInt64 - len) <? offset)
  then call_ret (decision, Some (errors_New (str "contentproof: invalid comparison span")))
  else
  take! (leftIDs, leftSize) := representationAliases leftID or decision in
  take! (rightIDs, rightSize) := representationAliases rightID or decision in
  let leftSet := stringSet leftIDs in
  let rightSet := stringSet rightIDs in
  if sameStringSet leftSet rightSet && (0 <? leftSize) && (leftSize =? rightSize) &&
     (offset <=? i64 (leftSize - len))
  then call_ret (MkDecision RelationProven offset len no_provenance no_provenance, None)
  else
  let! now := time_Now in
  take! evidence := ListContentProofs (leftIDs ++ rightIDs) now or decision in
  match compare_left leftSet rightSet offset len evidence evidence None with
  | Conflicting d => call_ret (d, None)
  | Matched (Some d) => call_ret (d, None)
  | Matched None => call_ret (decision, None)
  end.

Definition VerifyDigest (representationID : bytes) (scope : Scope) (offset len : Z)
    (algorithm : Algorithm) (digest : bytes) : W -> W * (Decision * option goerror) :=
  let decision := MkDecision RelationNoProof offset len no_provenance no_provenance in
  let! err := ctx_Err in
  check! err or decision in
  check! validateOpaqueID (str "representation") representationID or decision in
  if negb (is_scope scope)
  then call_ret (decision, Some (errors_New (str "contentproof: invalid verification scope")))
  else if (offset <? 0) || (len <=? 0) || (bool_decide (scope = ScopeWhole) && negb (offset =? 0)) ||
          negb (Z.of_nat (length digest) =? digestLength algorithm)
  then call_ret (decision, Some (errors_New (str "contentproof: invalid verification digest or span")))
  else
  take! (representationIDs, size) := representationAliases representationID or decision in
  if (0 <? size) && ((size <? offset) || (i64 (size - offset) <? len))
  then call_ret (decision, Some (errors_New (str "contentproof: verification exceeds canonical representation")))
  else
  let! now := time_Now in
  take! evidence := ListContentProofs representationIDs now or decision in
  call_ret (verify_loop scope offset len algorithm digest evidence decision false, None).

End Graph.

(** ** What reading keeps *)

(** A property of the world that the context, the clock and the reads of the
    repository keep. *)
Record reads_keep {W : Type} `{Context W, Clock W, Repository W} (P : W -> Prop) : Prop := {
  rk_ctx : keeps P ctx_Err;
  rk_now : keeps P time_Now;
  rk_list ids t : keeps P (ListContentProofs ids t);
  rk_alias resolver id n : ListRepresentationAliases = Some resolver -> keeps P (resolver id n)
}.

Section Reads.
Context {W : Type} `{Context W, Clock W, Repository W} (P : W -> Prop) (HP : reads_keep P).

Let keeps_ctx := rk_ctx P HP.
Let keeps_now := rk_now P HP.
Let keeps_list := rk_list P HP.
#[local] Hint Resolve keeps_ctx keeps_now keeps_list : calls.

Lemma representationAliases_keeps id : keeps P (representationAliases id).
Proof.
  unfold representationAliases. destruct ListRepresentationAliases as [resolver|] eqn:Er; [|auto with calls].
  apply keeps_bind; [by eapply rk_alias|]. intros [[ids size]|err]; [|auto with calls].
  destruct (bool_decide _); auto with calls.
Qed.

Lemma VerifyDigest_keeps id scope offset len alg dg : keeps P (VerifyDigest id scope offset len alg dg).
Proof.
  unfold VerifyDigest. apply keeps_bind; [auto with calls|]. intros [err|]; [auto with calls|].
  destruct (validateOpaqueID _ _); [auto with calls|]. destruct (negb (is_scope scope)); [auto with calls|].
  destruct (_ || _ || _ || _); [auto with calls|].
  apply keeps_bind; [apply representationAliases_keeps|]. intros [[ids size]|err]; [|auto with calls].
  destruct (_ && _); [auto with calls|]. apply keeps_bind; [auto with calls|]. intros now.
  apply keeps_bind; [auto with calls|]. intros [ev|err]; auto with calls.
Qed.

Lemma Compare_keeps leftID rightID offset len : keeps P (Compare leftID rightID offset len).
Proof.
  unfold Compare. apply keeps_bind; [auto with calls|]. intros [err|]; [auto with calls|].
  destruct (validateOpaqueID _ leftID); [auto with calls|]. destruct (validateOpaqueID _ rightID); [auto with calls|].
  destruct (_ || _ || _); [auto with calls|].
  apply keeps_bind; [apply representationAliases_keeps|]. intros [[la ls]|err]; [|auto with calls].
  apply keeps_bind; [apply representationAliases_keeps|]. intros [[ra rs]|err]; [|auto with calls].
  destruct (_ && _ && _ && _); [auto with calls|]. apply keeps_bind; [auto with calls|]. intros now.
  apply keeps_bind; [auto with calls|]. intros [ev|err]; [|auto with calls].
  destruct (compare_left _ _ _ _ _ _ _) as [d|[d|]]; auto with calls.
Qed.

End Reads.

(** ** What the scans decide *)

Lemma byte_diff_zero (a b : bytes) : length a = length b -> byte_diff a b = 0 <-> a = b.
Proof.
  assert (H : forall acc a b, length a = length b ->
    fold_left (fun diff ab => Z.lor diff (Z.lxor ab.1 ab.2)) (combine a b) acc = 0 <-> acc = 0 /\ a = b).
  { intros acc x. revert acc. induction x as [|x xs IH]; intros acc [|y ys] Hl; try discriminate Hl; cbn.
    - naive_solver.
    - injection Hl as Hl. rewrite IH by done. rewrite Z.lor_eq_0_iff, Z.lxor_eq_0_iff. naive_solver. }
  intros Hl. unfold byte_diff. rewrite H by done. naive_solver.
Qed.

Lemma equalBytes_spec a b : equalBytes a b = true <-> a = b.
Proof.
  unfold equalBytes. destruct (Nat.eqb_spec (length a) (length b)) as [E|E]; cbn [negb].
  - rewrite Z.eqb_eq. by apply byte_diff_zero.
  - split; [done|]. by intros ->.
Qed.

Lemma stringSet_elem v l : v ∈ stringSet l <-> v ∈ l.
Proof.
  induction l as [|x l IH]; [done|]. cbn [stringSet]. rewrite list.elem_of_cons.
  destruct (bool_decide (x ∈ stringSet l)) eqn:E; bool_hyps; [|rewrite list.elem_of_cons]; naive_solver.
Qed.

(** The pairs the loops compare. *)
Definition compared (leftSet rightSet : list bytes) (offset len : Z) (ev : list Evidence) (l r : Evidence) : Prop :=
  l ∈ ev /\ r ∈ ev /\ left_counts leftSet offset len l = true /\ right_counts rightSet offset len l r = true.

Definition conflict_of (offset len : Z) (l r : Evidence) : Decision :=
  MkDecision RelationConflict offset len (e_Provenance l) (e_Provenance r).
Definition match_of (offset len : Z) (l r : Evidence) : Decision :=
  MkDecision RelationProven offset len (e_Provenance l) (e_Provenance r).

(** A scan over the pairs satisfying [P], from the match [m] it started with. *)
Definition scan_spec (offset len : Z) (P : Evidence -> Evidence -> Prop) (m : option Decision) (s : scan) : Prop :=
  match s with
  | Conflicting d => exists l r, P l r /\ Digest l <> Digest r /\ d = conflict_of offset len l r
  | Matched m' =>
      (forall l r, P l r -> Digest l = Digest r) /\
      ((m' = m /\ forall l r, ~ P l r) \/ exists l r, P l r /\ m' = Some (match_of offset len l r))
  end.

Lemma compare_right_spec rs offset len l ev m :
  scan_spec offset len (fun l' r => l' = l /\ r ∈ ev /\ right_counts rs offset len l r = true) m
    (compare_right rs offset len l ev m).
Proof.
  revert m. induction ev as [|r ev IH]; intros m; cbn [compare_right].
  { split; [|left; split; [done|]]; intros ? ? (_ & H & _); by apply not_elem_of_nil in H. }
  destruct (right_counts rs offset len l r) eqn:Er.
  - destruct (equalBytes (Digest l) (Digest r)) eqn:Ed.
    + apply equalBytes_spec in Ed. pose proof (IH (Some (match_of offset len l r))) as IH'.
      unfold match_of at 2 in IH'. destruct (compare_right _ _ _ _ _ _) as [d|m']; cbn [scan_spec] in *.
      * destruct IH' as (l' & r' & (-> & Hin & Hc) & Hd). exists l, r'. split; [|done]. split_and!; [done|by right|done].
      * destruct IH' as [Hall Hm]. split.
        { intros l' r' (-> & [->|Hin]%list.elem_of_cons & Hc); [done|]. by apply Hall. }
        right. destruct Hm as [[-> _]|(l' & r' & (-> & Hin & Hc) & ->)]; exists l; eexists; (split; [split_and!; [done| |]|done]);
          [left|done|by right|done].
    + exists l, r. split; [split_and!; [done|left|done]|]. split; [|done]. intros E%equalBytes_spec. congruence.
  - specialize (IH m). destruct (compare_right _ _ _ _ _ _) as [d|m']; cbn [scan_spec] in *.
    + destruct IH as (l' & r' & (-> & Hin & Hc) & Hd). exists l, r'. split; [|done]. split_and!; [done|by right|done].
    + destruct IH as [Hall Hm]. split.
      { intros l' r' (-> & [->|Hin]%list.elem_of_cons & Hc); [congruence|]. by apply Hall. }
      destruct Hm as [[-> Hno]|(l' & r' & (-> & Hin & Hc) & ->)].
      * left. split; [done|]. intros l' r' (-> & [->|Hin]%list.elem_of_cons & Hc); [congruence|]. by apply (Hno l r').
      * right. exists l, r'. split; [|done]. split_and!; [done|by right|done].
Qed.

Lemma compare_left_spec ls rs offset len all ev m :
  scan_spec offset len
    (fun l r => l ∈ ev /\ r ∈ all /\ left_counts ls offset len l = true /\ right_counts rs offset len l r = true) m
    (compare_left ls rs offset len all ev m).
Proof.
  revert m. induction ev as [|l ev IH]; intros m; cbn [compare_left].
  { split; [|left; split; [done|]]; intros ? ? (H & _); by apply not_elem_of_nil in H. }
  destruct (left_counts ls offset len l) eqn:El.
  - pose proof (compare_right_spec rs offset len l all m) as Hr.
    destruct (compare_right rs offset len l all m) as [d|m1]; cbn [scan_spec] in Hr |- *.
    + destruct Hr as (l' & r & (-> & Hin & Hc) & Hd). exists l, r. split; [|done]. split_and!; [left|done..].
    + destruct Hr as [Hall Hm]. specialize (IH m1).
      destruct (compare_left ls rs offset len all ev m1) as [d|m2]; cbn [scan_spec] in *.
      { destruct IH as (l' & r & (Hl & Hr & Hc) & Hd). exists l', r. split; [|done]. split; [by right|done]. }
      destruct IH as [Hall2 Hm2]. split.
      { intros l' r ([->|Hl]%list.elem_of_cons & Hr & Hc1 & Hc2); [by apply Hall|by apply Hall2]. }
      destruct Hm2 as [[-> Hno2]|(l' & r & (Hl & Hr & Hc) & ->)].
      * destruct Hm as [[-> Hno]|(l' & r & (-> & Hr & Hc) & ->)].
        -- left. split; [done|]. intros l' r ([->|Hl]%list.elem_of_cons & Hr & Hc1 & Hc2); [by apply (Hno l r)|by apply (Hno2 l' r)].
        -- right. exists l, r. split; [|done]. split_and!; [left|done..].
      * right. exists l', r. split; [|done]. split; [by right|done].
  - specialize (IH m). destruct (compare_left ls rs offset len all ev m) as [d|m2]; cbn [scan_spec] in *.
    + destruct IH as (l' & r & (Hl & Hr & Hc) & Hd). exists l', r. split; [|done]. split; [by right|done].
    + destruct IH as [Hall2 Hm2]. split.
      { intros l' r ([->|Hl]%list.elem_of_cons & Hr & Hc1 & Hc2); [congruence|by apply Hall2]. }
      destruct Hm2 as [[-> Hno2]|(l' & r & (Hl & Hr & Hc) & ->)].
      * left. split; [done|]. intros l' r ([->|Hl]%list.elem_of_cons & Hr & Hc1 & Hc2); [congruence|by apply (Hno2 l' r)].
      * right. exists l', r. split; [|done]. split; [by right|done].
Qed.

Lemma verify_loop_spec scope offset len alg dg ev : forall o n lf rt (matched : bool),
  let applies e := e ∈ ev /\ proof_applies scope offset len alg e = true in
  let d := verify_loop scope offset len alg dg ev (MkDecision RelationNoProof o n lf rt) matched in
  d_Offset d = o /\ d_Length d = n /\
  match d_Relation d with
  | RelationConflict => exists e, applies e /\ Digest e <> dg
  | RelationProven => (matched = true \/ exists e, applies e) /\ forall e, applies e -> Digest e = dg
  | RelationNoProof => matched = false /\ forall e, ~ applies e
  end.
Proof.
  induction ev as [|p ev IH]; intros o n lf rt matched; cbn [verify_loop].
  { assert (Hn : forall P : Prop, forall e : Evidence, e ∈ [] -> P) by (intros P e He; by apply not_elem_of_nil in He).
    destruct matched; cbn; split_and!; try done; [by left|..]; intros e [He _]; by eapply Hn. }
  destruct (proof_applies scope offset len alg p) eqn:Ep.
  - destruct (equalBytes (Digest p) dg) eqn:Ed; cbn [d_Offset d_Length d_Relation d_Right].
    + apply equalBytes_spec in Ed. specialize (IH o n (e_Provenance p) rt true). cbn zeta in *.
      destruct IH as (-> & -> & IH). split_and!; [done..|].
      destruct (d_Relation _).
      * destruct IH as [_ IH]. split; [right; exists p; split; [left|done]|].
        intros e [[->|He]%list.elem_of_cons Ha]; [done|by apply IH].
      * destruct IH as (e & [He Ha] & Hd). exists e. split; [|done]. split; [by right|done].
      * by destruct IH.
    + split_and!; [done..|]. exists p. split; [split; [left|done]|]. intros E%equalBytes_spec. congruence.
  - specialize (IH o n lf rt matched). cbn zeta in *. destruct IH as (-> & -> & IH). split_and!; [done..|].
    destruct (d_Relation _).
    + destruct IH as [Hm IH]. split.
      * destruct Hm as [Hm|(e & He & Ha)]; [by left|right; exists e; split; [by right|done]].
      * intros e [[->|He]%list.elem_of_cons Ha]; [congruence|by apply IH].
    + destruct IH as (e & [He Ha] & Hd). exists e. split; [|done]. split; [by right|done].
    + destruct IH as [Hm IH]. split; [done|]. intros e [[->|He]%list.elem_of_cons Ha]; [congruence|by apply (IH e)].
Qed.

(** ** What the graph promises *)

(** A stored span is a positive range of a 64-bit object. *)
Definition evidence_span (e : Evidence) : Prop := 0 <= e_Offset e <= maxInt64 /\ 0 < e_Length e <= maxInt64.

(** The promises of a repository to the graph: what it lists, it holds, belongs
    to the representations asked for and has a span; a read forgets nothing it
    holds. *)
Class RepositoryLaws (W : Type) `{Context W, Clock W, Repository W} := {
  attested : W -> Evidence -> Prop;
  list_attested ids t w w' ev : ListContentProofs ids t w = (w', Ok ev) ->
    forall e, e ∈ ev -> attested w' e /\ RepresentationID e ∈ ids /\ evidence_span e;
  alias_size resolver id n w w' ids size : ListRepresentationAliases = Some resolver ->
    resolver id n w = (w', Ok (ids, size)) -> is_i64 size;
  ctx_keeps e : keeps (fun w => attested w e) ctx_Err;
  now_keeps e : keeps (fun w => attested w e) time_Now;
  list_keeps ids t e : keeps (fun w => attested w e) (ListContentProofs ids t);
  alias_keeps resolver id n e : ListRepresentationAliases = Some resolver ->
    keeps (fun w => attested w e) (resolver id n)
}.

#[export] Hint Resolve ctx_keeps now_keeps list_keeps alias_keeps : calls.

(** Two proofs of the same span and hash, of a representation of each side, that
    cover the range asked for. *)
Record comparable (leftIDs rightIDs : list bytes) (offset len : Z) (ev : list Evidence) (l r : Evidence) : Prop := {
  cp_listed : l ∈ ev /\ r ∈ ev;
  cp_ids : RepresentationID l ∈ leftIDs /\ RepresentationID r ∈ rightIDs;
  cp_kind : e_Kind l = KindAuthoritative /\ e_Kind r = KindAuthoritative;
  cp_span : e_Scope l = e_Scope r /\ e_Offset l = e_Offset r /\ e_Length l = e_Length r;
  cp_algorithm : e_Algorithm l = e_Algorithm r;
  cp_covers : e_Offset l <= offset /\ offset + len <= e_Offset l + e_Length l
}.

Lemma covers_spec e offset len : evidence_span e -> 0 <= offset <= maxInt64 -> 0 < len <= maxInt64 ->
  covers e offset len = true <-> e_Offset e <= offset /\ offset + len <= e_Offset e + e_Length e.
Proof.
  unfold evidence_span, maxInt64. intros [He1 He2] Ho Hl. unfold covers.
  rewrite !andb_true_iff, !Z.leb_le.
  rewrite !i64_small by (unfold is_i64, minInt64, maxInt64; lia). lia.
Qed.

Lemma compared_comparable la ra offset len ev l r :
  (forall e, e ∈ ev -> evidence_span e) -> 0 <= offset <= maxInt64 -> 0 < len <= maxInt64 ->
  compared (stringSet la) (stringSet ra) offset len ev l r <-> comparable la ra offset len ev l r.
Proof.
  intros Hev Ho Hl. unfold compared, left_counts, right_counts.
  rewrite !andb_true_iff, !bool_decide_eq_true, !stringSet_elem, !Z.eqb_eq. split.
  - intros (Hli & Hri & ((? & ?) & Hc) & (((((? & ?) & ?) & ?) & ?) & ?) & Hc').
    apply covers_spec in Hc; [|by apply Hev|done..]. by split.
  - intros [[Hli Hri] [? ?] [? ?] (? & Eo & El) ? Hc]. split_and!; try done; apply covers_spec; auto; by rewrite <-?Eo, <-?El.
Qed.

Lemma stringSet_nodup l : NoDup (stringSet l).
Proof.
  induction l as [|x l IH]; cbn [stringSet]; [constructor|].
  destruct (bool_decide (x ∈ stringSet l)) eqn:E; bool_hyps; [done|]. by apply list.NoDup_cons.
Qed.

Lemma sameStringSet_spec la ra : sameStringSet (stringSet la) (stringSet ra) = true ->
  forall id, id ∈ la <-> id ∈ ra.
Proof.
  unfold sameStringSet. destruct (Nat.eqb_spec (length (stringSet la)) (length (stringSet ra))) as [El|]; [|done].
  cbn [negb]. rewrite forallb_forall. intros Hf id. rewrite <-(stringSet_elem id la), <-(stringSet_elem id ra).
  assert (Hsub : stringSet la ⊆+ stringSet ra).
  { apply NoDup_submseteq; [apply stringSet_nodup|]. intros v Hv%list_elem_of_In%Hf. by bool_hyps. }
  by rewrite (submseteq_length_Permutation _ _ Hsub) by lia.
Qed.

Section Decide.
Context {W : Type} `{RepositoryLaws W}.

Lemma representationAliases_size id w w' ids size :
  representationAliases id w = (w', Ok (ids, size)) -> is_i64 size.
Proof.
  unfold representationAliases. intros Ha.
  destruct ListRepresentationAliases as [resolver|] eqn:Er; calls Ha; try by split. by eapply alias_size.
Qed.

Lemma span_check offset len : is_i64 offset -> is_i64 len ->
  (offset <? 0) || (len <=? 0) || (i64 (maxInt64 - len) <? offset) = false ->
  0 <= offset <= maxInt64 /\ 0 < len <= maxInt64 /\ offset + len <= maxInt64.
Proof.
  unfold is_i64. intros Ho Hl Hg. bool_hyps.
  rewrite i64_small in * by (unfold is_i64, minInt64, maxInt64 in *; lia). lia.
Qed.

(** C7. Comparing two representations over a range is decided by their
    authoritative evidence alone.  The answer is a conflict exactly when some two
    comparable proofs disagree, proven exactly when some two are comparable and
    all that are agree, and no proof when none are; without looking at evidence it
    is proven only for two representations of one canonical group whose known size
    contains the range.  A comparison that fails claims nothing. *)
Theorem compare_decides leftID rightID offset len w :
  is_i64 offset -> is_i64 len ->
  let '(w', (d, err)) := Compare leftID rightID offset len w in
  d_Offset d = offset /\ d_Length d = len /\
  match err with
  | Some _ => d_Relation d = RelationNoProof
  | None =>
      0 <= offset /\ 0 < len /\ offset + len <= maxInt64 /\
      exists w1 w2 w3 la ls ra rs,
        representationAliases leftID w1 = (w2, Ok (la, ls)) /\
        representationAliases rightID w2 = (w3, Ok (ra, rs)) /\
        ((d_Relation d = RelationProven /\ (forall id, id ∈ la <-> id ∈ ra) /\ ls = rs /\ offset + len <= ls) \/
         exists w4 w5 t ev, ListContentProofs (la ++ ra) t w4 = (w5, Ok ev) /\
           match d_Relation d with
           | RelationConflict => exists l r, comparable la ra offset len ev l r /\ Digest l <> Digest r
           | RelationProven =>
               (exists l r, comparable la ra offset len ev l r) /\
               forall l r, comparable la ra offset len ev l r -> Digest l = Digest r
           | RelationNoProof => forall l r, ~ comparable la ra offset len ev l r
           end)
  end.
Proof.
  intros Hio Hil. destruct (Compare leftID rightID offset len w) as [w' [d err]] eqn:E.
  unfold Compare in E. calls E; try done; destruct (span_check offset len Hio Hil ltac:(done)) as (Ho & Hl & Hs).
  - do 2 (split; [done|]). do 3 (split; [lia|]). do 7 eexists. do 2 (split; [done|]). left. bool_hyps.
    pose proof (representationAliases_size _ _ _ _ _ Hc0).
    rewrite i64_small in * by (unfold is_i64, minInt64, maxInt64 in *; lia).
    split; [done|]. split; [by apply sameStringSet_spec|lia].
  - assert (Hev : forall e, e ∈ a0 -> evidence_span e) by (intros e He; by eapply list_attested).
    pose proof (compare_left_spec (stringSet l) (stringSet l0) offset len a0 a0 None) as Hspec.
    assert (Hcmp : forall lh r, comparable l l0 offset len a0 lh r <->
      lh ∈ a0 /\ r ∈ a0 /\ left_counts (stringSet l) offset len lh = true /\ right_counts (stringSet l0) offset len lh r = true)
      by (intros lh r; symmetry; by apply compared_comparable).
    destruct (compare_left _ _ _ _ _ _ _) as [dc|[dm|]]; cbn [scan_spec] in Hspec; calls E.
    + destruct Hspec as (lh & r & Hp & Hd & ->). do 2 (split; [done|]). do 3 (split; [lia|]).
      do 7 eexists. do 2 (split; [done|]). right. do 4 eexists. split; [done|]. cbn. exists lh, r. by rewrite Hcmp.
    + destruct Hspec as [Hall [[? _]|(lh & r & Hp & [= ->])]]; [done|]. do 2 (split; [done|]). do 3 (split; [lia|]).
      do 7 eexists. do 2 (split; [done|]). right. do 4 eexists. split; [done|]. cbn.
      split; [exists lh, r; by apply Hcmp|]. intros l' r' Hp'%Hcmp. by apply Hall.
    + destruct Hspec as [_ [[_ Hno]|(lh & r & _ & ?)]]; [|done]. do 2 (split; [done|]). do 3 (split; [lia|]).
      do 7 eexists. do 2 (split; [done|]). right. do 4 eexists. split; [done|]. cbn.
      intros l' r' Hp'%Hcmp. by apply (Hno l' r').
Qed.

(** The proofs a digest is checked against. *)
Record applicable (ev : list Evidence) (scope : Scope) (offset len : Z) (alg : Algorithm) (e : Evidence) : Prop := {
  ap_listed : e ∈ ev;
  ap_kind : e_Kind e = KindAuthoritative;
  ap_scope : e_Scope e = scope;
  ap_span : e_Offset e = offset /\ e_Length e = len;
  ap_algorithm : e_Algorithm e = alg
}.

Lemma proof_applies_spec ev scope offset len alg e :
  e ∈ ev /\ proof_applies scope offset len alg e = true <-> applicable ev scope offset len alg e.
Proof.
  unfold proof_applies. rewrite !andb_true_iff, !bool_decide_eq_true, !Z.eqb_eq.
  split; [intros (? & (((? & ?) & ?) & ?) & ?); by split|intros [? ? ? [? ?] ?]; done].
Qed.

Lemma VerifyDigest_spec id scope offset len alg dg w w' d err :
  is_i64 offset -> is_i64 len -> VerifyDigest id scope offset len alg dg w = (w', (d, err)) ->
  d_Offset d = offset /\ d_Length d = len /\
  match err with
  | Some _ => d_Relation d = RelationNoProof
  | None =>
      0 <= offset /\ 0 < len /\ Z.of_nat (length dg) = digestLength alg /\
      exists w1 w2 w3 ids size t ev,
        ctx_Err w = (w1, None) /\ representationAliases id w1 = (w2, Ok (ids, size)) /\
        (0 < size -> offset + len <= size) /\ time_Now w2 = (w3, t) /\ ListContentProofs ids t w3 = (w', Ok ev) /\
        match d_Relation d with
        | RelationConflict => exists e, applicable ev scope offset len alg e /\ Digest e <> dg
        | RelationProven => (exists e, applicable ev scope offset len alg e) /\
            forall e, applicable ev scope offset len alg e -> Digest e = dg
        | RelationNoProof => forall e, ~ applicable ev scope offset len alg e
        end
  end.
Proof.
  intros Hio Hil E. unfold VerifyDigest in E. calls E; try done.
  bool_hyps. pose proof (verify_loop_spec scope offset len alg dg a0 offset len no_provenance no_provenance false) as Hv.
  cbn zeta in Hv. destruct Hv as (-> & -> & Hv). do 2 (split; [done|]). split; [lia|]. split; [lia|]. split; [lia|].
  pose proof (representationAliases_size _ _ _ _ _ Hc0) as Hz.
  do 7 eexists. split; [done|]. split; [done|]. split.
  { intros Hpos. destruct (Z.ltb_spec 0 z); [|lia]. cbn [andb] in *. bool_hyps.
    rewrite i64_small in * by (unfold is_i64, minInt64, maxInt64 in *; lia). lia. }
  split; [done|]. split; [done|]. destruct (d_Relation _).
  - destruct Hv as [[?|(e & He)] Hall]; [done|]. split; [exists e; by apply proof_applies_spec|].
    intros e' He'%proof_applies_spec. by apply Hall.
  - destruct Hv as (e & He & Hd). exists e. by rewrite <-proof_applies_spec.
  - destruct Hv as [_ Hno]. intros e He%proof_applies_spec. by apply (Hno e).
Qed.

(** A digest is proven only against an attested authoritative proof of the exact
    span. *)
Lemma VerifyDigest_proven id scope offset len alg dg w w' d :
  is_i64 offset -> is_i64 len -> VerifyDigest id scope offset len alg dg w = (w', (d, None)) ->
  d_Relation d = RelationProven ->
  exists e, attested w' e /\ e_Kind e = KindAuthoritative /\ e_Scope e = scope /\ e_Offset e = offset /\
    e_Length e = len /\ e_Algorithm e = alg /\ Digest e = dg.
Proof.
  intros Hio Hil E Hp. apply VerifyDigest_spec in E as (_ & _ & _ & _ & _ & E); [|done..].
  destruct E as (w1 & w2 & w3 & ids & size & t & ev & _ & _ & _ & _ & Hl & E). rewrite Hp in E.
  destruct E as [[e He] Hall]. pose proof (Hall e He). destruct He as [Hin ? ? [? ?] ?].
  exists e. split; [by eapply list_attested|]. done.
Qed.

End Decide.

(** ** What validation accepts *)

(** Opaque identifiers: 1 to 128 of the characters A-Za-z0-9._:- and the first an
    alphanumeric. *)
Definition opaque (id : bytes) : Prop :=
  (1 <= length id <= 128)%nat /\ Forall (fun c => is_id_char c = true) id /\
  match head id with Some c => is_alnum c = true | None => False end.

Lemma opaque_spec field id : validateOpaqueID field id = None <-> opaque id.
Proof.
  unfold validateOpaqueID, opaque. destruct id as [|c rest]; cbn [opaqueIDPattern length head].
  { split; [done|]. intros [? _]. lia. }
  assert (Hc : is_alnum c = true -> is_id_char c = true) by (unfold is_id_char; intros ->; done).
  rewrite list.Forall_cons, list.Forall_forall.
  assert (Hf : forallb is_id_char rest = true <-> forall x, x ∈ rest -> is_id_char x = true).
  { rewrite forallb_forall. split; intros Hx x Hin; apply Hx; by apply list_elem_of_In. }
  destruct (is_alnum c && _ && _) eqn:E.
  - bool_hyps. split; [|done]. intros _. rewrite Hf in *. split; [lia|]. auto.
  - split; [done|]. intros (Hl & [_ Hr] & Ha). exfalso. apply (proj2 Hf) in Hr. rewrite Ha, Hr in E.
    destruct (Z.leb_spec (Z.of_nat (length rest)) 127); [done|lia].
Qed.

(** Which provenances, scopes and algorithms each kind of evidence may have. *)
Inductive kind_allows : Evidence -> Prop :=
| allow_piece e : e_Kind e = KindAuthoritative -> OriginID e = [] -> e_Provenance e = ProvenanceTorrentPiece ->
    e_Scope e = ScopeBlock -> e_Algorithm e = AlgorithmSHA1 -> kind_allows e
| allow_merkle e : e_Kind e = KindAuthoritative -> OriginID e = [] -> e_Provenance e = ProvenanceTorrentMerkle ->
    e_Algorithm e = AlgorithmSHA256 -> kind_allows e
| allow_par2 e : e_Kind e = KindAuthoritative -> OriginID e = [] -> e_Provenance e = ProvenancePAR2IFSC ->
    e_Scope e = ScopeBlock -> e_Algorithm e = AlgorithmMD5 -> kind_allows e
| allow_whole e : e_Kind e = KindAuthoritative -> OriginID e = [] ->
    e_Provenance e = ProvenanceIADigest \/ e_Provenance e = ProvenanceMetalink ->
    e_Scope e = ScopeWhole -> isAuthoritativeAlgorithm (e_Algorithm e) = true -> kind_allows e
| allow_http e : e_Kind e = KindAuthoritative -> OriginID e = [] -> e_Provenance e = ProvenanceHTTPDigest ->
    isAuthoritativeAlgorithm (e_Algorithm e) = true -> kind_allows e
| allow_origin e : e_Kind e = KindSameOrigin -> e_Provenance e = ProvenanceSameOriginETag ->
    e_Algorithm e = AlgorithmETAGSHA256 -> OriginID e <> [] -> kind_allows e
| allow_tofu e : e_Kind e = KindTOFU -> e_Provenance e = ProvenancePlaybackObserved ->
    e_Algorithm e = AlgorithmSHA256 -> OriginID e = [] -> kind_allows e
| allow_hint e : e_Kind e = KindHint -> e_Provenance e = ProvenanceCandidateHint ->
    e_Algorithm e = AlgorithmHintSHA256 -> OriginID e = [] -> kind_allows e.

Lemma kind_allows_spec e : validKindProvenance e = true <-> kind_allows e.
Proof.
  split.
  - unfold validKindProvenance. intros Hv.
    destruct (e_Kind e) eqn:Ek; try done; bool_hyps.
    2:{ by apply allow_origin. }
    2:{ by apply allow_tofu. }
    2:{ by apply allow_hint. }
    destruct (bool_decide (OriginID e = [])) eqn:Eo; [|done]. cbn [negb] in Hv. bool_hyps.
    destruct (e_Provenance e) eqn:Ep; try done; bool_hyps.
    + by apply allow_piece.
    + by apply allow_merkle.
    + by apply allow_par2.
    + apply allow_whole; auto.
    + by apply allow_http.
    + apply allow_whole; auto.
  - unfold validKindProvenance. intros Ha. destruct Ha as [? Hk Ho Hp|? Hk Ho Hp|? Hk Ho Hp|? Hk Ho [Hp|Hp]|? Hk Ho Hp| |?|?];
      repeat match goal with Hx : ?f ?e0 = _ |- context [?f ?e0] => rewrite Hx; clear Hx end; try done.
    by rewrite (bool_decide_false (OriginID _ = [])) by done.
Qed.

(** An assertion the graph accepts. *)
Record wf_evidence (e : Evidence) : Prop := {
  wf_id : opaque (RepresentationID e);
  wf_scope : e_Scope e = ScopeWhole \/ e_Scope e = ScopeBlock;
  wf_span : 0 <= e_Offset e /\ 0 < e_Length e /\ (e_Scope e = ScopeWhole -> e_Offset e = 0);
  wf_observed : ObservedAt e <> 0;
  wf_expiry : forall t, ExpiresAt e = Some t -> ObservedAt e < t;
  wf_digest : Z.of_nat (length (Digest e)) = digestLength (e_Algorithm e) /\ (Digest e <> []);
  wf_origin : OriginID e = [] \/ opaque (OriginID e);
  wf_kind : kind_allows e
}.

Lemma first_error_none a b : first_error a b = None <-> a = None /\ b = None.
Proof. destruct a; cbn; naive_solver. Qed.

Lemma fails_none b msg : fails b msg = None <-> b = false.
Proof. destruct b; cbn; naive_solver. Qed.

Lemma is_scope_spec s : is_scope s = true <-> s = ScopeWhole \/ s = ScopeBlock.
Proof.
  unfold is_scope. destruct (bool_decide (s = ScopeWhole)) eqn:E1, (bool_decide (s = ScopeBlock)) eqn:E2; bool_hyps; naive_solver.
Qed.

Lemma digestLength_range alg : 0 <= digestLength alg <= 32.
Proof. destruct alg; cbn; lia. Qed.

Lemma validateEvidence_spec e : validateEvidence e = None <-> wf_evidence e.
Proof.
  unfold validateEvidence. rewrite !first_error_none, !fails_none.
  rewrite opaque_spec, negb_false_iff, is_scope_spec, negb_false_iff, kind_allows_spec, !orb_false_iff.
  rewrite negb_false_iff, andb_false_iff, negb_false_iff, bool_decide_eq_false, !Z.ltb_ge, Z.leb_gt, !Z.eqb_eq, !Z.eqb_neq.
  pose proof (digestLength_range (e_Algorithm e)). unfold maxDigestBytes.
  assert (Hexp : match ExpiresAt e with
      | Some t => fails (negb (ObservedAt e <? t)) (str "contentproof: expiry must follow observation")
      | None => None end = None <-> forall t, ExpiresAt e = Some t -> ObservedAt e < t).
  { destruct (ExpiresAt e) as [t|]; [|naive_solver]. rewrite fails_none, negb_false_iff, Z.ltb_lt. naive_solver. }
  assert (Horig : (if negb (bool_decide (OriginID e = [])) then validateOpaqueID (str "origin") (OriginID e) else None) = None
    <-> OriginID e = [] \/ opaque (OriginID e)).
  { destruct (bool_decide (OriginID e = [])) eqn:E; bool_hyps; cbn [negb]; [naive_solver|]. rewrite opaque_spec. naive_solver. }
  assert (Hlen : Z.of_nat (length (Digest e)) <> 0 <-> Digest e <> []) by (destruct (Digest e); cbn; split; (done || lia)).
  rewrite Hexp, Horig, Hlen. split.
  - intros (? & ? & [[? ?] Hs] & ? & ? & [[? ?] ?] & ? & ?). split; try done.
    split; [done|]. split; [done|]. intros Hw. by destruct Hs as [Hs|Hs].
  - intros [? ? (? & ? & Hs) ? ? [? ?] ? ?]. split_and!; try done; [|lia].
    destruct (decide (e_Scope e = ScopeWhole)); [right; auto|by left].
Qed.

(** C16. The graph accepts exactly the well-formed assertions: an opaque
    representation, a scope it knows, a positive span that starts at 0 for a
    whole object, an observation time that precedes any expiry, a digest as long
    as its algorithm's, an empty or opaque origin, and a provenance its kind may
    have, which no hint, first-use observation or entity tag shares with
    authoritative evidence.  A key is accepted exactly when some digest makes it
    an acceptable assertion, so whatever was recorded can be revoked. *)
Theorem validate_evidence_exact :
  (forall e, validateEvidence e = None <-> wf_evidence e) /\
  (forall k, validateKey k = None <->
     exists digest at_, wf_evidence (MkEvidence (k_RepresentationID k) (k_Scope k) (k_Offset k) (k_Length k)
       (k_Kind k) (k_Algorithm k) digest (k_Provenance k) (k_OriginID k) None at_)) /\
  (forall e1 e2, validateEvidence e1 = None -> validateEvidence e2 = None ->
     e_Provenance e1 = e_Provenance e2 -> e_Kind e1 = e_Kind e2).
Proof.
  split; [apply validateEvidence_spec|]. split.
  - intros k. unfold validateKey. rewrite validateEvidence_spec. split.
    + intros Hw. by do 2 eexists.
    + intros (digest & at_ & Hw). destruct Hw. cbn in *. split; cbn; try done.
      * destruct wf_digest0 as [Hd1 Hd2]. rewrite repeat_length.
        destruct (k_Algorithm k); cbn in *; try done. by destruct digest.
      * apply kind_allows_spec. by apply kind_allows_spec in wf_kind0.
  - intros e1 e2 H1%validateEvidence_spec H2%validateEvidence_spec Hp.
    pose proof (wf_kind _ H1) as K1. pose proof (wf_kind _ H2) as K2.
    destruct K1; destruct K2; destruct_or?; congruence.
Qed.

(** ** A repository in memory *)

(** The smallest repository that keeps the promises: a list of assertions, no
    aliases and a stopped clock. *)
Module Memory.

#[export] Instance evidence_span_dec e : base.Decision (evidence_span e).
Proof. unfold evidence_span. apply _. Defined.

#[export] Instance context : Context (list Evidence) := {| ctx_Err := fun w => (w, None) |}.
#[export] Instance clock : Clock (list Evidence) := {| time_Now := fun w => (w, 1) |}.
#[export] Instance repository : Repository (list Evidence) := {|
  UpsertContentProof := fun e _ w => (w ++ [e], None);
  ListContentProofs := fun ids _ w =>
    (w, Ok (filter (fun e => RepresentationID e ∈ ids /\ evidence_span e) w));
  DeleteContentProof := fun _ w => (w, None);
  ListRepresentationAliases := None
|}.

#[export] Instance laws : RepositoryLaws (list Evidence).
Proof.
  unshelve eapply Build_RepositoryLaws; [exact (fun w e => e ∈ w)|..]; try (by intros e w); try done; [|by intros ids t e w].
  intros ids t w w' ev [= <- <-] e He. apply list_elem_of_filter in He as [[Hid Hs] Hin]. done.
Defined.

(** One block of "a", proven by a torrent piece with this digest. *)
Definition piece (id digest : bytes) : Evidence :=
  MkEvidence id ScopeBlock 0 4 KindAuthoritative AlgorithmSHA1 digest ProvenanceTorrentPiece [] None 1.

End Memory.

Import Memory.

Lemma compare_decides_witness :
  let w := [Memory.piece (str "a") (repeat 1 20); Memory.piece (str "b") (repeat 1 20)] in
  exists w' d, Compare (str "a") (str "b") 1 2 w = (w', (d, None)) /\ d_Relation d = RelationProven /\ d_Offset d = 1.
Proof.
  pose proof (compare_decides (str "a") (str "b") 1 2
    [Memory.piece (str "a") (repeat 1 20); Memory.piece (str "b") (repeat 1 20)]
    ltac:(unfold is_i64, minInt64, maxInt64; lia) ltac:(unfold is_i64, minInt64, maxInt64; lia)) as H.
  destruct (Compare _ _ _ _ _) as [w' [d err]] eqn:E. exists w', d.
  vm_compute in E. injection E as <- <- <-. destruct H as (Ho & _ & _). split; [reflexivity|]. by split.
Defined.
