(* ===== verification/LaneCandidate.v ===== *)
(** Lane candidates and convergence requests: internal/contentproof/candidate.go,
    convergence.go, and the digests of httpmapping.go.

    The hashes and the Unicode tables are parameters: [lower_runes] is the code
    points of strings.ToLower(strings.TrimSpace(name)), [utf8] the encoding of
    one. *)

From Stdlib Require Import ZArith Lia.
From stdpp Require Import base list numbers strings sets.
From S2P Require Import Prelude Outcome Bencode ContentProof.

Local Open Scope Z_scope.
Local Open Scope harbor_scope.

Definition MaxLaneCandidates : Z := 2048.
Definition MaxReleaseNameBytes : Z := 1024.

Definition releaseKeyDomain : bytes := str "darkharrbor/crosslane-release/v1" ++ [0].

Inductive Lane : Type := LaneTorrent | LaneNNTP | LaneHTTP | LaneOther (s : bytes).

#[export] Instance Lane_eq_dec : EqDecision Lane.
Proof. solve_decision. Defined.

Record LaneCandidate := MkLaneCandidate {
  lc_Lane : Lane;
  lc_ItemID : bytes;
  lc_FileID : bytes;
  lc_RepresentationID : bytes;
  lc_ReleaseKey : bytes;
  lc_Size : Z
}.

#[export] Instance LaneCandidate_eq_dec : EqDecision LaneCandidate.
Proof. solve_decision. Defined.

Definition sha256_Size : Z := 32.

Definition validateLaneCandidate (candidate : LaneCandidate) : option goerror :=
  match lc_Lane candidate with
  | LaneOther _ => Some (errors_New (str "contentproof: unknown candidate lane"))
  | _ =>
      first_error (validateOpaqueID (str "candidate item") (lc_ItemID candidate)) (
      first_error (validateOpaqueID (str "candidate file") (lc_FileID candidate)) (
      first_error (validateOpaqueID (str "candidate representation") (lc_RepresentationID candidate)) (
      first_error (fails (lc_Size candidate <=? 0) (str "contentproof: candidate size must be positive")) (
      fails (match hex_decode (lc_ReleaseKey candidate) with
             | None => true
             | Some decoded =>
                 negb (Z.of_nat (length decoded) =? sha256_Size) ||
                 negb (bool_decide (lc_ReleaseKey candidate = ascii_lower (lc_ReleaseKey candidate)))
             end) (str "contentproof: invalid candidate release key")))))
  end.

(** [strings.Contains(s, sub)]. *)
Fixpoint starts_with (p s : bytes) : bool :=
  match p, s with
  | [], _ => true
  | x :: p, y :: s => (x =? y) && starts_with p s
  | _ :: _, [] => false
  end.

Fixpoint strings_Contains (s sub : bytes) : bool :=
  starts_with sub s || match s with [] => false | _ :: s => strings_Contains s sub end.

Definition ContainsAny (s chars : bytes) : bool := existsb (fun c => bool_decide (c ∈ chars)) s.

Section Candidates.
Context (sha256 : bytes -> bytes).
Context (lower_runes : bytes -> list Z) (isLetter isDigit : Z -> bool) (utf8 : Z -> bytes).

(** The builder and the pending separator, after each rune. *)
Fixpoint normalize_loop (runes : list Z) (b : bytes) (separator : bool) : bytes :=
  match runes with
  | [] => b
  | r :: runes =>
      if isLetter r || isDigit r then
        let b := if separator && negb (bool_decide (b = [])) then b ++ [32] else b in
        normalize_loop runes (b ++ utf8 r) false
      else normalize_loop runes b true
  end.

Definition normalizeReleaseName (name : bytes) : bytes := normalize_loop (lower_runes name) [] false.

Definition ReleaseKey (releaseName : bytes) (size : Z) : result goerror bytes :=
  if size <=? 0 then Err (errors_New (str "contentproof: candidate size must be positive"))
  else if bool_decide (releaseName = []) || (MaxReleaseNameBytes <? Z.of_nat (length releaseName))
  then Err (errors_New (str "contentproof: invalid candidate release name length"))
  else if strings_Contains releaseName (str "://") || ContainsAny releaseName [0; 13; 10]
  then Err (errors_New (str "contentproof: candidate release name is not URL-free"))
  else
    let normalized := normalizeReleaseName releaseName in
    if bool_decide (normalized = [])
    then Err (errors_New (str "contentproof: candidate release name is empty after normalization"))
    else Ok (hex_encode (sha256 (releaseKeyDomain ++ normalized ++ [0] ++ itoa size))).

Definition NewLaneCandidate (lane : Lane) (itemID fileID representationID releaseName : bytes) (size : Z)
    : result goerror LaneCandidate :=
  let? key := ReleaseKey releaseName size in
  let candidate := MkLaneCandidate lane itemID fileID representationID key size in
  match validateLaneCandidate candidate with
  | Some err => Err err
  | None => Ok candidate
  end.

Section Resolve.
Context {W : Type} `{Context W}.

Fixpoint resolve_loop (i : nat) (key : bytes) (size : Z) (candidates matches : list LaneCandidate)
    : W -> W * result goerror (list LaneCandidate) :=
  match candidates with
  | [] => call_ret (Ok matches)
  | candidate :: candidates =>
      let! err := (if Nat.eqb (Nat.modulo i 64) 0 then ctx_Err else call_ret None) in
      match err with
      | Some err => call_ret (Err err)
      | None =>
          match validateLaneCandidate candidate with
          | Some err => call_ret (Err err)
          | None =>
              let matches :=
                if bool_decide (lc_ReleaseKey candidate = key) && (lc_Size candidate =? size)
                then matches ++ [candidate] else matches in
              resolve_loop (S i) key size candidates matches
          end
      end
  end.

Definition ResolveLaneCandidates (releaseName : bytes) (size : Z) (candidates : list LaneCandidate)
    : W -> W * result goerror (list LaneCandidate) :=
  let! err := ctx_Err in
  match err with
  | Some err => call_ret (Err err)
  | None =>
      if MaxLaneCandidates <? Z.of_nat (length candidates)
      then call_ret (Err (errors_New (str "contentproof: too many lane candidates")))
      else
        match ReleaseKey releaseName size with
        | Err err => call_ret (Err err)
        | Ok key => resolve_loop 0 key size candidates []
        end
  end.

End Resolve.
End Candidates.

(** ** Digests and proofs of a lane *)

Definition MaxMappingProofBytes : Z := Z.shiftl 64 20.

Definition ProofMatchesLane (lane : Lane) (provenance : Provenance) : bool :=
  match lane with
  | LaneTorrent =>
      bool_decide (provenance = ProvenanceTorrentPiece) || bool_decide (provenance = ProvenanceTorrentMerkle)
  | LaneNNTP => bool_decide (provenance = ProvenancePAR2IFSC)
  | LaneHTTP =>
      bool_decide (provenance = ProvenanceIADigest) || bool_decide (provenance = ProvenanceHTTPDigest) ||
      bool_decide (provenance = ProvenanceMetalink)
  | LaneOther _ => false
  end.

Section Digest.
Context (md5 sha1 sha256 : bytes -> bytes).
Context {W : Type} `{Context W}.

(** Write the data in chunks of 64 KiB, polling the context before each. *)
Fixpoint digest_loop (fuel : nat) (data : bytes) (offset : Z) (written : bytes) : W -> W * result goerror bytes :=
  match fuel with
  | O => call_ret (Ok written)
  | S fuel =>
      if offset <? Z.of_nat (length data) then
        let! err := ctx_Err in
        match err with
        | Some err => call_ret (Err err)
        | None =>
            let fin := offset + Z.shiftl 64 10 in
            let fin := if Z.of_nat (length data) <? fin then Z.of_nat (length data) else fin in
            digest_loop fuel data (offset + Z.shiftl 64 10)
              (written ++ take (Z.to_nat (fin - offset)) (drop (Z.to_nat offset) data))
        end
      else call_ret (Ok written)
  end.

Definition hash_of (algorithm : Algorithm) : option (bytes -> bytes) :=
  match algorithm with
  | AlgorithmMD5 => Some md5
  | AlgorithmSHA1 => Some sha1
  | AlgorithmSHA256 => Some sha256
  | _ => None
  end.

Definition Digest_ (algorithm : Algorithm) (data : bytes) : W -> W * result goerror bytes :=
  match hash_of algorithm with
  | None => call_ret (Err (errors_New (str "contentproof: unsupported mapping algorithm")))
  | Some h =>
      let! r := digest_loop (S (length data)) data 0 [] in
      match r with
      | Err err => call_ret (Err err)
      | Ok written => call_ret (Ok (h written))
      end
  end.

End Digest.

(** ** Convergence requests *)

Definition DefaultMaxPendingSpansPerPair : Z := 4096.

Record VerifiedSpan := MkSpan { s_Offset : Z; s_Length : Z }.

#[export] Instance VerifiedSpan_eq_dec : EqDecision VerifiedSpan.
Proof. solve_decision. Defined.

Class ConvergenceRepository (W : Type) := {
  ObserveRepresentationConvergence : LaneCandidate -> LaneCandidate -> VerifiedSpan -> bytes -> Z -> Z -> Z ->
    W -> W * result goerror bytes;
  ListRepresentationRoutes : bytes -> Z -> W -> W * result goerror (list LaneCandidate);
  ResolveRepresentationCanonical : bytes -> W -> W * result goerror (option bytes)
}.

Section Converger.
Context (sha256 : bytes -> bytes).
Context {W : Type} `{Context W, Clock W, ConvergenceRepository W}.

Definition canonicalID (l r : bytes) : bytes :=
  let ids := if str_ltb r l then (r, l) else (l, r) in
  str "canonical:" ++ hex_encode (sha256 (str "darkharrbor/canonical-representation/v1" ++ [0] ++ ids.1 ++ [0] ++ ids.2)).

Definition CanonicalRepresentationID (representationID : bytes) : W -> W * result goerror (option bytes) :=
  match validateOpaqueID (str "representation") representationID with
  | Some err => call_ret (Err err)
  | None => ResolveRepresentationCanonical representationID
  end.

Definition ObserveVerified (l r : LaneCandidate) (span : VerifiedSpan) (decision : Decision)
    : W -> W * result goerror bytes :=
  let! err := ctx_Err in
  match err with
  | Some err => call_ret (Err err)
  | None =>
      if negb (bool_decide (d_Relation decision = RelationProven)) || negb (d_Offset decision =? s_Offset span) ||
         negb (d_Length decision =? s_Length span)
      then call_ret (Err (errors_New (str "contentproof: convergence span is not proven")))
      else
      match first_error (validateLaneCandidate l) (validateLaneCandidate r) with
      | Some err => call_ret (Err err)
      | None =>
          if bool_decide (lc_RepresentationID l = lc_RepresentationID r) ||
             negb (bool_decide (lc_ReleaseKey l = lc_ReleaseKey r)) || negb (lc_Size l =? lc_Size r)
          then call_ret (Err (errors_New (str "contentproof: convergence candidates disagree")))
          else if (s_Offset span <? 0) || (s_Length span <=? 0) || (lc_Size l <? s_Offset span) ||
                  (i64 (lc_Size l - s_Offset span) <? s_Length span)
          then call_ret (Err (errors_New (str "contentproof: invalid convergence span")))
          else
            let! now := time_Now in
            ObserveRepresentationConvergence l r span
              (canonicalID (lc_RepresentationID l) (lc_RepresentationID r)) now
              DefaultMaxRoutesPerRepresentation DefaultMaxPendingSpansPerPair
      end
  end.

(** The first route that is not valid. *)
Fixpoint routes_error (routes : list LaneCandidate) : option goerror :=
  match routes with
  | [] => None
  | route :: routes => first_error (validateLaneCandidate route) (routes_error routes)
  end.

Definition Routes (representationID : bytes) : W -> W * result goerror (list LaneCandidate) :=
  match validateOpaqueID (str "representation") representationID with
  | Some err => call_ret (Err err)
  | None =>
      let! r := ListRepresentationRoutes representationID DefaultMaxRoutesPerRepresentation in
      match r with
      | Err err => call_ret (Err err)
      | Ok routes =>
          match routes_error routes with
          | Some err => call_ret (Err err)
          | None => call_ret (Ok routes)
          end
      end
  end.

End Converger.

(** ** Release names *)

Section Names.
Context (isLetter isDigit : Z -> bool) (utf8 : Z -> bytes).

Definition is_word (r : Z) : bool := isLetter r || isDigit r.

(** The maximal runs of letters and digits. *)
Fixpoint words_from (cur : list Z) (runes : list Z) : list (list Z) :=
  match runes with
  | [] => if bool_decide (cur = []) then [] else [cur]
  | r :: runes =>
      if is_word r then words_from (cur ++ [r]) runes
      else (if bool_decide (cur = []) then [] else [cur]) ++ words_from [] runes
  end.

Definition spell (word : list Z) : bytes := concat (map utf8 word).
Definition spell_rest (words : list (list Z)) : bytes := concat (map (fun word => 32 :: spell word) words).

(** The words with one space between. *)
Definition join_words (words : list (list Z)) : bytes :=
  match words with
  | [] => []
  | w :: words => spell w ++ spell_rest words
  end.

Context (utf8_nonempty : forall r, is_word r = true -> utf8 r <> []).

Lemma spell_snoc w r : spell (w ++ [r]) = spell w ++ utf8 r.
Proof. unfold spell. rewrite map_app, concat_app. cbn. by rewrite app_nil_r. Qed.

Lemma spell_one r : spell [r] = utf8 r.
Proof. apply (spell_snoc [] r). Qed.

Lemma snoc_not_nil {A} (l : list A) x : l ++ [x] <> [].
Proof. by destruct l. Qed.

Lemma normalize_loop_words runes :
  (forall pre cur, cur <> [] -> pre ++ spell cur <> [] ->
     normalize_loop isLetter isDigit utf8 runes (pre ++ spell cur) false = pre ++ join_words (words_from cur runes)) /\
  (forall b, b <> [] -> normalize_loop isLetter isDigit utf8 runes b true = b ++ spell_rest (words_from [] runes)) /\
  (forall sep, normalize_loop isLetter isDigit utf8 runes [] sep = join_words (words_from [] runes)).
Proof.
  induction runes as [|r runes (IH1 & IH2 & IH3)]; cbn [normalize_loop words_from].
  { split_and!; intros.
    - rewrite bool_decide_false by done. cbn. by rewrite app_nil_r.
    - cbn. by rewrite app_nil_r.
    - done. }
  fold (is_word r). destruct (is_word r) eqn:Ew.
  - pose proof (utf8_nonempty r Ew) as Hr. split_and!.
    + intros pre cur Hc Hb. cbn [andb]. rewrite <-app_assoc, <-spell_snoc.
      apply IH1; [apply snoc_not_nil|]. rewrite spell_snoc. by destruct pre, (spell cur), (utf8 r).
    + intros b Hb. rewrite bool_decide_false by done. cbn [andb negb app].
      rewrite <-spell_one. rewrite IH1; [|done|by destruct b]. rewrite <-app_assoc. f_equal. cbn [app].
      assert (Hne : forall runes cur, cur <> [] -> words_from cur runes <> []).
      { clear. induction runes as [|x runes IH]; intros cur Hc; cbn; [by rewrite bool_decide_false|].
        destruct (is_word x); [apply IH, snoc_not_nil|by rewrite bool_decide_false]. }
      pose proof (Hne runes [r] ltac:(done)) as Hn. destruct (words_from [r] runes); [done|]. done.
    + intros sep. rewrite bool_decide_true by done. rewrite andb_false_r. cbn [app].
      rewrite <-spell_one. by apply (IH1 [] [r]); rewrite ?spell_one.
  - split_and!.
    + intros pre cur Hc Hb. rewrite bool_decide_false by done. cbn [app join_words].
      rewrite IH2 by done. by rewrite <-app_assoc.
    + intros b Hb. rewrite bool_decide_true by done. by apply IH2.
    + intros sep. rewrite bool_decide_true by done. apply IH3.
Qed.

End Names.

(** A release name is reduced to its words: the maximal runs of letters and
    digits of the trimmed, lower-cased name, in order, one space between them and
    nothing else.  So the release key is a digest of the words and the size, of a
    fixed domain, and two names with the same words and size have the same key
    however they are punctuated. *)
Theorem release_key_words sha256 lower_runes isLetter isDigit utf8 name size key :
  (forall r, is_word isLetter isDigit r = true -> utf8 r <> []) ->
  let words n := words_from isLetter isDigit [] (lower_runes n) in
  let Key := ReleaseKey sha256 lower_runes isLetter isDigit utf8 in
  normalizeReleaseName lower_runes isLetter isDigit utf8 name = join_words utf8 (words name) /\
  (Key name size = Ok key ->
     0 < size /\ (0 < length name <= 1024)%nat /\ words name <> [] /\
     key = hex_encode (sha256 (releaseKeyDomain ++ join_words utf8 (words name) ++ [0] ++ itoa size)) /\
     forall name' key', words name' = words name -> Key name' size = Ok key' -> key' = key).
Proof.
  intros Hu words Key.
  assert (Hn : forall n, normalizeReleaseName lower_runes isLetter isDigit utf8 n = join_words utf8 (words n))
    by (intros n; by apply normalize_loop_words).
  assert (Hk : forall n k, Key n size = Ok k -> 0 < size /\ (0 < length n <= 1024)%nat /\ words n <> [] /\
     k = hex_encode (sha256 (releaseKeyDomain ++ join_words utf8 (words n) ++ [0] ++ itoa size))).
  { intros n k H. unfold Key, ReleaseKey in H. rewrite Hn in H. split_guards H. bool_hyps.
    unfold MaxReleaseNameBytes in *. split; [lia|]. split; [destruct n; cbn in *; [done|lia]|].
    split; [intros Hw; match goal with Hx : join_words _ _ <> [] |- _ => apply Hx; by rewrite Hw end|]. injection H as <-. done. }
  split; [apply Hn|]. intros H. destruct (Hk _ _ H) as (H1 & H2 & H3 & H4). do 4 (split; [done|]).
  intros name' key' Hw H'. apply Hk in H' as (_ & _ & _ & ->). by rewrite H4, Hw.
Qed.

(** ASCII stand-ins for the Unicode tables. *)
Definition ascii_word (r : Z) : bool := is_lower r.

Lemma release_key_words_witness :
  ReleaseKey (fun b => b) ascii_lower ascii_word is_digit (fun r => [r]) (str "A.b--1") 5 =
    ReleaseKey (fun b => b) ascii_lower ascii_word is_digit (fun r => [r]) (str "a B 1!") 5 /\
  normalizeReleaseName ascii_lower ascii_word is_digit (fun r => [r]) (str "A.b--1") = str "a b 1".
Proof.
  split; [reflexivity|].
  destruct (release_key_words (fun b => b) ascii_lower ascii_word is_digit (fun r => [r]) (str "A.b--1") 5 []) as [H _].
  - intros r _. discriminate.
  - rewrite H. reflexivity.
Defined.
