(* ===== verification/ByteSource.v ===== *)
(** Byte sources: internal/bytesource/bytesource.go, the archive members and reads
    of internal/archive (member.go, reader.go) and the blocks of
    internal/rangecache/blocksource.go.

    A source is what it answers: its key, size and capabilities, and the bytes it
    wrote to the front of the buffer it was given with the count and the error it
    returned.  Reads run on a world, which holds the context and whatever serves
    the chunks. *)

From Stdlib Require Import ZArith Lia.
From stdpp Require Import base list numbers strings.
From S2P Require Import Prelude Outcome Bencode ContentProof LaneCandidate Text.

Local Open Scope Z_scope.
Local Open Scope harbor_scope.

(** ** The interface *)

Inductive TailCost : Type := TailCostUnknown | TailCostCheap | TailCostSegmented.

Record Capabilities := MkCaps {
  RangeSupport : bool;
  ExactSize : bool;
  TailCostHint : TailCost;
  Alignment : Z
}.

Record ByteSource (W : Type) := MkSource {
  SourceKey : bytes;
  Size : Z;
  Caps : Capabilities;
  ReadAt : Z -> Z -> W -> W * (bytes * Z * option goerror)
}.
Arguments MkSource {W}.
Arguments SourceKey {W}.
Arguments Size {W}.
Arguments Caps {W}.
Arguments ReadAt {W}.

(** A zeroed buffer of a length after a source wrote to it. *)
Definition fill (n : Z) (written : bytes) : bytes :=
  take (Z.to_nat n) (written ++ repeat 0 (Z.to_nat n)).

Lemma fill_length n written : length (fill n written) = Z.to_nat n.
Proof. unfold fill. rewrite length_take, length_app, repeat_length. lia. Qed.

Lemma fill_exact n written : length written = Z.to_nat n -> fill n written = written.
Proof. intros H. unfold fill. rewrite <-H. apply take_app_length. Qed.

(** [make([]byte, int(n))] and the read into it. *)
Definition read_block {W} (source : ByteSource W) (n offset : Z) : W -> W * (bytes * Z * option goerror) :=
  let! (written, count, err) := ReadAt source n offset in
  call_ret (fill n written, count, err).

Definition ErrNegativeOffset : goerror := errors_New (str "bytesource: negative offset").
Definition io_EOF : goerror := errors_New (str "EOF").
Definition io_ErrUnexpectedEOF : goerror := errors_New (str "unexpected EOF").

(** [errors.Is(err, io.EOF)]: the sentinel is the one error of its text. *)
Definition is_EOF (err : goerror) : bool :=
  match errors_As (fun t => if bool_decide (t = TPlain (str "EOF")) then Some tt else None) err with
  | Some _ => true
  | None => false
  end.

Section Sources.
Context {W : Type} `{Context W}.

(** ** Chunks *)

Record Chunk := MkChunk { Index : Z; ChunkKey : bytes; DeclaredSize : Z }.

Fixpoint non_decreasing (starts : list Z) : bool :=
  match starts with
  | a :: (b :: _) as rest => (a <=? b) && non_decreasing rest
  | _ => true
  end.

(** [sort.Search]: the first chunk whose end is past the offset. *)
Fixpoint first_covering (chunks : list Chunk) (starts : list Z) (off : Z) : list Chunk * list Z :=
  match chunks, starts with
  | _ :: chunks', _ :: (e :: _) as starts' => if off <? e then (chunks, starts) else first_covering chunks' starts' off
  | _, _ => (chunks, starts)
  end.

(** The loop over the covering chunks; [p] holds what was copied. *)
Fixpoint read_chunks (fetch : Chunk -> W -> W * result goerror bytes) (chunks : list Chunk) (starts : list Z) (off want : Z)
    (p : bytes) : W -> W * (bytes * option goerror) :=
  match chunks, starts with
  | c :: chunks, s :: starts =>
      if Z.of_nat (length p) <? want then
        let! err := ctx_Err in
        match err with
        | Some err => call_ret (p, Some err)
        | None =>
            let! res := fetch c in
            match res with
            | Err err => call_ret (p, Some err)
            | Ok data =>
                let frontSkip := if s <? off then off - s else 0 in
                if Z.of_nat (length data) <=? frontSkip then read_chunks fetch chunks starts off want p
                else
                  let avail := drop (Z.to_nat frontSkip) data in
                  let avail := take (Z.to_nat (want - Z.of_nat (length p))) avail in
                  read_chunks fetch chunks starts off want (p ++ avail)
            end
        end
      else call_ret (p, None)
  | _, _ => call_ret (p, None)
  end.

Definition chunked_ReadAt (fetch : Chunk -> W -> W * result goerror bytes) (chunks : list Chunk) (starts : list Z)
    (n off : Z) : W -> W * (bytes * Z * option goerror) :=
  if off <? 0 then call_ret ([], 0, Some ErrNegativeOffset)
  else if n =? 0 then call_ret ([], 0, None)
  else
    let! err := ctx_Err in
    match err with
    | Some err => call_ret ([], 0, Some err)
    | None =>
        if List.last starts 0 <=? off then call_ret ([], 0, Some io_EOF)
        else
          let (chunks, starts) := first_covering chunks starts off in
          let! (p, err) := read_chunks fetch chunks starts off n [] in
          match err with
          | Some err => call_ret (p, Z.of_nat (length p), Some err)
          | None => call_ret (p, Z.of_nat (length p), if Z.of_nat (length p) <? n then Some io_EOF else None)
          end
    end.

(** A fetch that is not nil. *)
Definition NewChunked (key : bytes) (chunks : list Chunk) (starts : list Z) (size : Z) (caps : Capabilities)
    (fetch : Chunk -> W -> W * result goerror bytes) : result goerror (ByteSource W) :=
  if negb (Z.of_nat (length starts) =? Z.of_nat (length chunks) + 1)
  then Err (errors_New (str "bytesource: starts must have len(chunks)+1 entries"))
  else if negb (non_decreasing starts) then Err (errors_New (str "bytesource: starts must be non-decreasing"))
  else Ok (MkSource key size caps (chunked_ReadAt fetch chunks starts)).

(** ** Memory *)

Definition mem_ReadAt (data : bytes) (n off : Z) : W -> W * (bytes * Z * option goerror) :=
  if off <? 0 then call_ret ([], 0, Some ErrNegativeOffset)
  else if n =? 0 then call_ret ([], 0, None)
  else
    let! err := ctx_Err in
    match err with
    | Some err => call_ret ([], 0, Some err)
    | None =>
        if Z.of_nat (length data) <=? off then call_ret ([], 0, Some io_EOF)
        else
          let p := take (Z.to_nat n) (drop (Z.to_nat off) data) in
          call_ret (p, Z.of_nat (length p), if Z.of_nat (length p) <? n then Some io_EOF else None)
    end.

Definition NewMemSource (key data : bytes) : ByteSource W :=
  MkSource key (Z.of_nat (length data)) (MkCaps true true TailCostCheap 1) (mem_ReadAt data).

(** ** Archives *)

Definition archive_error (msg : string) (causes : list goerror) : goerror := Error (TPlain (str msg)) causes.

(** [readAt] of reader.go. *)
Definition readAt (src : option (ByteSource W)) (off size : Z) : W -> W * result goerror bytes :=
  match src with
  | None => call_ret (Err (archive_error "archive: nil byte source" []))
  | Some src =>
      if (off <? 0) || (size <? 0) || (Size src <? off) || (Size src - off <? size)
      then call_ret (Err (archive_error "archive: invalid read" []))
      else if size =? 0 then call_ret (Ok [])
      else
        let! (buf, n, err) := read_block src size off in
        if negb (n =? size)
        then call_ret (Err (archive_error "archive: short read" [match err with Some err => err | None => io_ErrUnexpectedEOF end]))
        else
          match err with
          | Some err => call_ret (Err (archive_error "archive: read" [err]))
          | None => call_ret (Ok buf)
          end
  end.

Definition readPrefix (src : option (ByteSource W)) (limit : Z) : W -> W * result goerror bytes :=
  match src with
  | None => call_ret (Err (archive_error "archive: nil byte source" []))
  | Some source =>
      if Size source <=? 0 then call_ret (Err (archive_error "archive: empty byte source" []))
      else readAt src 0 (if limit <? Size source then limit else Size source)
  end.

Definition member_ReadAt (src : ByteSource W) (offset size n off : Z) : W -> W * (bytes * Z * option goerror) :=
  if off <? 0 then call_ret ([], 0, Some ErrNegativeOffset)
  else if n =? 0 then call_ret ([], 0, None)
  else
    let! err := ctx_Err in
    match err with
    | Some err => call_ret ([], 0, Some err)
    | None =>
        if size <=? off then call_ret ([], 0, Some io_EOF)
        else
          let truncated := size - off <? n in
          let want := if truncated then size - off else n in
          let! (p, count, err) := ReadAt src want (offset + off) in
          match err with
          | Some e =>
              if negb (is_EOF e && (count =? want)) then call_ret (p, count, err)
              else if count <? want then call_ret (p, count, Some io_ErrUnexpectedEOF)
              else call_ret (p, count, if truncated then Some io_EOF else None)
          | None =>
              if count <? want then call_ret (p, count, Some io_ErrUnexpectedEOF)
              else call_ret (p, count, if truncated then Some io_EOF else None)
          end
    end.

Definition NewArchiveMemberByteSource (key : bytes) (src : option (ByteSource W)) (dataOffset size : Z)
    : result goerror (ByteSource W) :=
  if bool_decide (key = []) || strings_Contains key (str "://") then Err (archive_error "archive: invalid member source key" [])
  else
    match src with
    | None => Err (archive_error "archive: nil byte source" [])
    | Some src =>
        if (dataOffset <? 0) || (size <=? 0) || (Size src <? dataOffset) || (Size src - dataOffset <? size)
        then Err (archive_error "archive: invalid member span" [])
        else Ok (MkSource key size (MkCaps (RangeSupport (Caps src)) true (TailCostHint (Caps src)) 0)
                   (member_ReadAt src dataOffset size))
    end.

(** ** Blocks of a cache *)

Definition DefaultBlockBytes : Z := Z.shiftl 4 20.

Record ChunkRef := MkRef { ref_Index : Z; ref_Key : bytes; ref_Size : Z }.

Record byteSourceBlocks := MkBlocks {
  bs : ByteSource W;
  blockSize : Z;
  b_key : bytes;
  refs : list ChunkRef
}.

Definition block_ref (size blockSize i : Z) : ChunkRef :=
  let rem := size - i * blockSize in
  MkRef i (itoa i) (if rem <? blockSize then rem else blockSize).

Definition NewByteSourceBlocks (source : option (ByteSource W)) (block : Z) : result goerror byteSourceBlocks :=
  match source with
  | None => Err (errors_New (str "rangecache: nil byte source"))
  | Some source =>
      let block := if block <=? 0 then DefaultBlockBytes else block in
      let size := Size source in
      if size <=? 0 then Err (errors_New (str "rangecache: byte source has no positive size"))
      else if bool_decide (SourceKey source = []) then Err (errors_New (str "rangecache: byte source has no key"))
      else
        let n := Z.quot (i64 (i64 (size + block) - 1)) block in
        Ok (MkBlocks source block (str "bs|" ++ SourceKey source) (map (block_ref size block) (seqZ 0 n)))
  end.

Definition ExactSizes (b : byteSourceBlocks) : bool := ExactSize (Caps (bs b)).

Definition PayloadKey (b : byteSourceBlocks) (ref : ChunkRef) : bytes :=
  SourceKey (bs b) ++ str "|blk" ++ itoa (blockSize b) ++ [124] ++ itoa (ref_Index ref).

Definition block_Fetch (b : byteSourceBlocks) (ref : ChunkRef) : W -> W * result goerror bytes :=
  match (if ref_Index ref <? 0 then None else refs b !! Z.to_nat (ref_Index ref)) with
  | None => call_ret (Err (errors_New (str "rangecache: block index out of range")))
  | Some want =>
      let! (buf, n, err) := read_block (bs b) (ref_Size want) (ref_Index ref * blockSize b) in
      match err with
      | Some e =>
          if negb (is_EOF e && (n =? ref_Size want)) then call_ret (Err e)
          else if negb (n =? ref_Size want) then call_ret (Err (errors_New (str "rangecache: short block read")))
          else call_ret (Ok buf)
      | None =>
          if negb (n =? ref_Size want) then call_ret (Err (errors_New (str "rangecache: short block read")))
          else call_ret (Ok buf)
      end
  end.

End Sources.
Arguments byteSourceBlocks : clear implicits.

(** ** Sources that read like memory *)

Definition alive W `{Context W} : Prop := forall w : W, (ctx_Err w).2 = None.

(** The answer of a memory source while the context lives. *)
Definition mem_answer (data : bytes) (n off : Z) : bytes * Z * option goerror :=
  if off <? 0 then ([], 0, Some ErrNegativeOffset)
  else if n =? 0 then ([], 0, None)
  else if Z.of_nat (length data) <=? off then ([], 0, Some io_EOF)
  else
    let p := take (Z.to_nat n) (drop (Z.to_nat off) data) in
    (p, Z.of_nat (length p), if Z.of_nat (length p) <? n then Some io_EOF else None).

Definition reads_as {W} (src : ByteSource W) (data : bytes) : Prop :=
  Size src = Z.of_nat (length data) /\ forall n off w, 0 <= n -> (ReadAt src n off w).2 = mem_answer data n off.

(** The start offsets of chunks with known contents. *)
Fixpoint exact_starts (content : Chunk -> bytes) (base : Z) (chunks : list Chunk) : list Z :=
  match chunks with
  | [] => [base]
  | c :: chunks => base :: exact_starts content (base + Z.of_nat (length (content c))) chunks
  end.

Definition contents (content : Chunk -> bytes) (chunks : list Chunk) : bytes := concat (map content chunks).

Lemma exact_starts_last content base chunks d :
  List.last (exact_starts content base chunks) d = base + Z.of_nat (length (contents content chunks)).
Proof.
  revert base. induction chunks as [|c chunks IH]; intros base; cbn [exact_starts]; [cbn; lia|].
  assert (E : forall b l, l <> [] -> List.last (b :: l) d = List.last l d) by (by intros b [|]).
  rewrite E by (by destruct chunks). rewrite IH. unfold contents. cbn [map concat]. rewrite length_app. lia.
Qed.

Lemma exact_starts_head content base chunks : exists l, exact_starts content base chunks = base :: l.
Proof. destruct chunks; cbn; eauto. Qed.

Section Refinement.
Context {W : Type} `{Context W}.
Context (Halive : alive W).

Lemma poll w {A} (k : option goerror -> W -> W * A) : exists w', call_bind ctx_Err k w = k None w'.
Proof. unfold call_bind. pose proof (Halive w) as E. destruct (ctx_Err w) as [w' err]. cbn in E. subst. eauto. Qed.

(** What the loop over chunks copies. *)
Lemma read_chunks_spec fetch content chunks : (forall c w, c ∈ chunks -> (fetch c w).2 = Ok (content c)) ->
  forall base off want p w,
  (read_chunks fetch chunks (exact_starts content base chunks) off want p w).2 =
    (p ++ take (Z.to_nat want - length p) (drop (Z.to_nat (off - base)) (contents content chunks)), None).
Proof.
  induction chunks as [|c chunks IH]; intros Hf base off want p w; cbn [exact_starts read_chunks].
  { unfold contents. cbn. by rewrite drop_nil, take_nil, app_nil_r. }
  destruct (Z.ltb_spec (Z.of_nat (length p)) want) as [Hlt|Hge].
  2: { cbn. replace (Z.to_nat want - length p)%nat with 0%nat by lia. by rewrite take_0, app_nil_r. }
  match goal with |- context [call_bind ctx_Err ?k] => destruct (poll w k) as [w1 ->] end. cbn beta iota.
  unfold call_bind at 1. pose proof (Hf c w1 ltac:(left)) as E. destruct (fetch c w1) as [w2 res]. cbn in E. subst res.
  assert (Hf' : forall c w, c ∈ chunks -> (fetch c w).2 = Ok (content c)) by (intros; apply Hf; by right).
  unfold contents. cbn [map concat]. fold (contents content chunks).
  set (n := length (content c)). set (skip := if base <? off then off - base else 0).
  assert (Hskip : Z.to_nat (off - base) = Z.to_nat skip) by (unfold skip; destruct (Z.ltb_spec base off); lia).
  destruct (Z.leb_spec (Z.of_nat n) skip) as [Hs|Hs].
  - rewrite IH by done. do 2 f_equal. rewrite Hskip. rewrite drop_app_ge by lia. do 3 f_equal.
    unfold skip in *. destruct (Z.ltb_spec base off); lia.
  - rewrite IH by done. rewrite <-app_assoc. do 2 f_equal. rewrite Hskip.
    rewrite drop_app_le by lia. rewrite take_app.
    replace (Z.to_nat (want - Z.of_nat (length p))) with (Z.to_nat want - length p)%nat by lia. f_equal.
    replace (Z.to_nat (off - (base + Z.of_nat n))) with 0%nat by (unfold skip in *; destruct (Z.ltb_spec base off); lia).
    rewrite drop_0. f_equal. rewrite length_app, length_take, length_drop. fold n. lia.
Qed.

Lemma first_covering_spec content chunks : forall base off, base <= off -> off < base + Z.of_nat (length (contents content chunks)) ->
  exists pre chunks', chunks = pre ++ chunks' /\
    first_covering chunks (exact_starts content base chunks) off =
      (chunks', exact_starts content (base + Z.of_nat (length (contents content pre))) chunks') /\
    base + Z.of_nat (length (contents content pre)) <= off.
Proof.
  induction chunks as [|c chunks IH]; intros base off Hb Ho; [unfold contents in Ho; cbn in Ho; lia|].
  cbn [exact_starts first_covering]. destruct (exact_starts_head content (base + Z.of_nat (length (content c))) chunks) as [l El].
  rewrite El. destruct (Z.ltb_spec off (base + Z.of_nat (length (content c)))).
  - exists [], (c :: chunks). split; [done|]. unfold contents. cbn [map concat length exact_starts]. rewrite Z.add_0_r, El. done.
  - rewrite <-El. destruct (IH (base + Z.of_nat (length (content c))) off) as (pre & chunks' & -> & -> & Hle); [done| |].
    { unfold contents in Ho. cbn [map concat] in Ho. rewrite length_app in Ho. unfold contents. lia. }
    exists (c :: pre), chunks'. split; [done|]. unfold contents in *. cbn [map concat]. rewrite length_app. split; [|lia].
    f_equal. f_equal. lia.
Qed.

Lemma exact_non_decreasing content base chunks : non_decreasing (exact_starts content base chunks) = true.
Proof.
  revert base. induction chunks as [|c chunks IH]; intros base; [done|]. cbn [exact_starts].
  destruct (exact_starts_head content (base + Z.of_nat (length (content c))) chunks) as [l El].
  pose proof (IH (base + Z.of_nat (length (content c)))) as Hr. rewrite El in *. cbn [non_decreasing]. rewrite andb_true_iff. split; [apply Z.leb_le; lia|done].
Qed.

Lemma length_exact_starts content base chunks : length (exact_starts content base chunks) = S (length chunks).
Proof. revert base. induction chunks as [|c chunks IH]; intros base; cbn; [done|]. by rewrite IH. Qed.

Lemma mem_reads_as key data : reads_as (NewMemSource key data) data.
Proof.
  split; [done|]. intros n off w Hn. cbn. unfold mem_ReadAt, mem_answer. destruct (off <? 0); [done|]. destruct (n =? 0); [done|].
  match goal with |- context [call_bind ctx_Err ?k] => destruct (poll w k) as [w1 ->] end. cbn beta iota. by destruct (_ <=? off).
Qed.

Lemma chunked_reads_as key chunks caps fetch content :
  (forall c w, c ∈ chunks -> (fetch c w).2 = Ok (content c)) ->
  exists src, NewChunked key chunks (exact_starts content 0 chunks) (Z.of_nat (length (contents content chunks))) caps fetch = Ok src /\
    reads_as src (contents content chunks).
Proof.
  intros Hf. unfold NewChunked. rewrite length_exact_starts, exact_non_decreasing.
  destruct (Z.eqb_spec (Z.of_nat (S (length chunks))) (Z.of_nat (length chunks) + 1)); [|lia]. cbn [negb].
  eexists. split; [done|]. split; [done|]. intros n off w Hn. cbn [ReadAt]. unfold chunked_ReadAt, mem_answer.
  destruct (Z.ltb_spec off 0); [done|]. destruct (n =? 0); [done|].
  match goal with |- context [call_bind ctx_Err ?k] => destruct (poll w k) as [w1 ->] end. cbn beta iota.
  rewrite exact_starts_last, Z.add_0_l. destruct (Z.leb_spec (Z.of_nat (length (contents content chunks))) off); [done|].
  destruct (first_covering_spec content chunks 0 off) as (pre & chunks' & -> & -> & Hle); [lia|lia|].
  unfold call_bind. pose proof (read_chunks_spec fetch content chunks') as Hr.
  specialize (Hr ltac:(intros; apply Hf, elem_of_app; by right) (0 + Z.of_nat (length (contents content pre))) off n [] w1).
  destruct (read_chunks fetch chunks' _ off n [] w1) as [w2 [p err]]. cbn in Hr. injection Hr as -> ->. cbn [fst snd call_ret].
  assert (E : contents content (pre ++ chunks') = contents content pre ++ contents content chunks')
    by (unfold contents; by rewrite map_app, concat_app).
  rewrite E, drop_app_ge by lia. rewrite Nat.sub_0_r.
  replace (Z.to_nat (off - (0 + Z.of_nat (length (contents content pre))))) with (Z.to_nat off - length (contents content pre))%nat by lia.
  done.
Qed.

(** The span of a buffer. *)
Definition span (data : bytes) (off n : Z) : bytes := take (Z.to_nat n) (drop (Z.to_nat off) data).

Lemma span_length data off n : 0 <= off -> 0 <= n -> off + n <= Z.of_nat (length data) -> Z.of_nat (length (span data off n)) = n.
Proof. intros. unfold span. rewrite length_take, length_drop. lia. Qed.

Lemma span_span data o1 n1 o2 n2 : 0 <= o1 -> 0 <= o2 -> 0 <= n2 -> o2 + n2 <= n1 ->
  span (span data o1 n1) o2 n2 = span data (o1 + o2) n2.
Proof.
  intros. unfold span. rewrite skipn_firstn_comm, take_take, drop_drop. f_equal; [lia|]. f_equal. lia.
Qed.

(** A read inside a source that reads like memory. *)
Lemma reads_inside (src : ByteSource W) data n off w : reads_as src data -> 0 < n -> 0 <= off -> off + n <= Z.of_nat (length data) ->
  (ReadAt src n off w).2 = (span data off n, n, None).
Proof.
  intros [_ Hr] Hn Ho Hb. rewrite Hr by lia. unfold mem_answer. destruct (Z.ltb_spec off 0); [lia|]. destruct (Z.eqb_spec n 0); [lia|].
  destruct (Z.leb_spec (Z.of_nat (length data)) off); [lia|]. fold (span data off n). rewrite span_length by lia.
  by rewrite Z.ltb_irrefl.
Qed.

Lemma read_block_inside (src : ByteSource W) data n off w : reads_as src data -> 0 < n -> 0 <= off -> off + n <= Z.of_nat (length data) ->
  (read_block src n off w).2 = (span data off n, n, None).
Proof.
  intros Hr Hn Ho Hb. unfold read_block, call_bind. pose proof (reads_inside src data n off w Hr Hn Ho Hb) as E.
  destruct (ReadAt src n off w) as [w1 r]. cbn in E. subst r. cbn. rewrite fill_exact; [done|].
  pose proof (span_length data off n ltac:(lia) ltac:(lia) Hb). lia.
Qed.

Lemma readAt_inside (src : ByteSource W) data n off w : reads_as src data ->
  (readAt (Some src) off n w).2 =
    if (off <? 0) || (n <? 0) || (Z.of_nat (length data) <? off) || (Z.of_nat (length data) - off <? n)
    then Err (archive_error "archive: invalid read" [])
    else Ok (span data off n).
Proof.
  intros Hr. unfold readAt. rewrite (proj1 Hr). destruct ((off <? 0) || _ || _ || _) eqn:Eg; [done|]. bool_hyps.
  destruct (Z.eqb_spec n 0) as [->|]; [done|]. unfold call_bind.
  pose proof (read_block_inside src data n off w Hr ltac:(lia) ltac:(lia) ltac:(lia)) as E.
  destruct (read_block src n off w) as [w1 r]. cbn in E. subst r. cbn. by rewrite Z.eqb_refl.
Qed.

Lemma member_reads_as key (src : ByteSource W) data off size m : reads_as src data ->
  NewArchiveMemberByteSource key (Some src) off size = Ok m -> reads_as m (span data off size).
Proof.
  intros Hr. unfold NewArchiveMemberByteSource. destruct (_ || strings_Contains _ _); [done|]. rewrite (proj1 Hr).
  destruct ((off <? 0) || _ || _ || _) eqn:Eg; [done|]. bool_hyps. intros [= <-].
  pose proof (span_length data off size ltac:(lia) ltac:(lia) ltac:(lia)) as Hl. split; [by rewrite Hl|].
  intros n o w Hn. cbn [ReadAt]. unfold member_ReadAt, mem_answer. rewrite Hl.
  destruct (Z.ltb_spec o 0); [done|]. destruct (Z.eqb_spec n 0); [done|].
  match goal with |- context [call_bind ctx_Err ?k] => destruct (poll w k) as [w1 ->] end. cbn beta iota.
  destruct (Z.leb_spec size o); [done|]. set (want := if size - o <? n then size - o else n).
  assert (Hw : 0 < want /\ o + want <= size /\ want = Z.min n (size - o)) by (unfold want; destruct (Z.ltb_spec (size - o) n); lia).
  unfold call_bind. pose proof (reads_inside src data want (off + o) w1 Hr ltac:(lia) ltac:(lia) ltac:(lia)) as E.
  destruct (ReadAt src want (off + o) w1) as [w2 r]. cbn in E. subst r. cbn. rewrite Z.ltb_irrefl. cbn.
  assert (Es : take (Z.to_nat n) (drop (Z.to_nat o) (span data off size)) = span data (off + o) want).
  { destruct Hw as (? & ? & Hmin). rewrite <-(span_span data off size o want) by lia. unfold span at 2.
    destruct (decide (n <= size - o)); [do 2 f_equal; lia|]. rewrite !take_ge; [done|rewrite length_drop; lia|rewrite length_drop; lia]. }
  rewrite Es, (span_length data (off + o) want) by lia. do 2 f_equal.
  destruct (Z.ltb_spec (size - o) n), (Z.ltb_spec want n); try done; lia.
Qed.

End Refinement.

(** *** Blocks *)

Lemma blocks_prefix data block k : 0 < block ->
  concat (map (fun i => span data (i * block) block) (seqZ 0 (Z.of_nat k))) = take (Z.to_nat (Z.of_nat k * block)) data.
Proof.
  intros Hb. induction k as [|k IH]; [done|].
  replace (Z.of_nat (S k)) with (Z.of_nat k + 1) by lia. rewrite seqZ_app by lia. rewrite map_app, concat_app, IH.
  assert (E1 : forall m, seqZ m 1 = [m]) by (intros m; by rewrite seqZ_cons by lia). rewrite E1. cbn [map concat].
  rewrite app_nil_r, Z.add_0_l. unfold span. rewrite take_take_drop. f_equal. lia.
Qed.

Lemma block_count size block : 0 < size -> 0 < block -> size + block < 2 ^ 63 ->
  Z.quot (i64 (i64 (size + block) - 1)) block = (size + block - 1) / block.
Proof. intros. rewrite (i64_small (size + block)), i64_small by (unfold is_i64, minInt64, maxInt64; lia). rewrite Z.quot_div_nonneg by lia. done. Qed.

Lemma block_size_spec size block i : 0 < block -> 0 < size -> 0 <= i < (size + block - 1) / block ->
  0 < ref_Size (block_ref size block i) <= block /\ i * block + ref_Size (block_ref size block i) <= size /\
  ref_Size (block_ref size block i) = Z.min block (size - i * block).
Proof.
  intros Hb Hs [Hi Hn]. assert (i * block < size).
  { assert (i + 1 <= (size + block - 1) / block) by lia. pose proof (Z.mul_div_le (size + block - 1) block Hb). nia. }
  unfold block_ref. cbn [ref_Size]. destruct (Z.ltb_spec (size - i * block) block); lia.
Qed.

Lemma span_end data off n m : 0 <= off -> 0 <= n -> n = Z.min m (Z.of_nat (length data) - off) -> span data off n = span data off m.
Proof.
  intros Ho Hn ->. unfold span. destruct (decide (m <= Z.of_nat (length data) - off)); [do 2 f_equal; lia|].
  rewrite !take_ge; [done|rewrite length_drop; lia|rewrite length_drop; lia].
Qed.

(** The last separator cuts a text. *)
Lemma cut_last_inj (sep : Z) a b x y : sep ∉ x -> sep ∉ y -> a ++ sep :: x = b ++ sep :: y -> a = b /\ x = y.
Proof.
  intros Hx Hy E. apply (f_equal (@rev Z)) in E. rewrite !rev_app_distr in E. cbn [rev] in E. rewrite <-!app_assoc in E. cbn [app] in E.
  assert (Hr : forall l, sep ∉ l -> sep ∉ rev l) by (intros l Hl; by rewrite list_elem_of_In, <-in_rev, <-list_elem_of_In).
  apply cut_inj in E as [E1 E2]; [|by apply Hr..].
  apply (f_equal (@rev Z)) in E1, E2. by rewrite !rev_involutive in E1, E2.
Qed.

Lemma itoa_nonneg n : 0 <= n -> itoa n = dec n.
Proof. intros. unfold itoa. by destruct (Z.ltb_spec n 0); [lia|]. Qed.

Lemma dec_no_bar n : 0 <= n -> 124 ∉ dec n.
Proof. intros. by apply dec_no. Qed.

Lemma PayloadKey_inj {W} (a b : byteSourceBlocks W) r1 r2 :
  0 <= blockSize a -> 0 <= blockSize b -> 0 <= ref_Index r1 -> 0 <= ref_Index r2 -> PayloadKey a r1 = PayloadKey b r2 ->
  SourceKey (bs a) = SourceKey (bs b) /\ blockSize a = blockSize b /\ ref_Index r1 = ref_Index r2.
Proof.
  intros Ha Hb H1 H2. unfold PayloadKey. rewrite !itoa_nonneg by done.
  assert (Er : forall (k s i : bytes), k ++ str "|blk" ++ s ++ [124] ++ i = (k ++ 124 :: str "blk" ++ s) ++ 124 :: i)
    by (intros; by rewrite <-!app_assoc; cbn).
  rewrite !Er. intros [E Ei]%cut_last_inj; [|by apply dec_no_bar..]. apply dec_inj in Ei; [|done..].
  apply cut_last_inj in E as [Ek Es].
  - apply app_inv_head in Es. apply dec_inj in Es; done.
  - rewrite elem_of_app. intros [H|H]; [|by apply dec_no_bar in H].
    repeat (apply list.elem_of_cons in H as [H|H]; [by vm_compute in H|]). by apply not_elem_of_nil in H.
  - rewrite elem_of_app. intros [H|H]; [|by apply dec_no_bar in H].
    repeat (apply list.elem_of_cons in H as [H|H]; [by vm_compute in H|]). by apply not_elem_of_nil in H.
Qed.

Lemma list_map_lookup {A B} (f : A -> B) l i : map f l !! i = f <$> l !! i.
Proof. revert i. induction l as [|x l IH]; intros [|i]; cbn; done. Qed.

(** The refs of blocks over a source that reads like memory. *)
Lemma blocks_read {W} `{Context W} (src : ByteSource W) data block b : reads_as src data ->
  0 < block -> Z.of_nat (length data) + block < 2 ^ 63 -> NewByteSourceBlocks (Some src) block = Ok b ->
  blockSize b = block /\
  (forall ref w, ref ∈ refs b -> (block_Fetch b ref w).2 = Ok (span data (ref_Index ref * block) (ref_Size ref)) /\
     0 < ref_Size ref <= block) /\
  concat (map (fun ref => span data (ref_Index ref * block) (ref_Size ref)) (refs b)) = data.
Proof.
  intros Hr Hb Hsize. unfold NewByteSourceBlocks. destruct (Z.leb_spec block 0); [lia|]. rewrite (proj1 Hr).
  destruct (Z.leb_spec (Z.of_nat (length data)) 0); [done|]. destruct (bool_decide (SourceKey src = [])); [done|].
  rewrite block_count by lia. set (size := Z.of_nat (length data)) in *. set (n := (size + block - 1) / block).
  intros [= <-]. cbn [blockSize refs bs]. assert (Hn : 0 <= n) by (apply Z.div_pos; lia). split; [done|]. split.
  - intros ref w Hin. apply list_elem_of_In, in_map_iff in Hin as (i & <- & Hi). apply list_elem_of_In, elem_of_seqZ in Hi.
    destruct (block_size_spec size block i) as (Hz & Hend & _); [lia|lia|lia|]. split; [|done].
    unfold block_Fetch. cbn [ref_Index refs bs blockSize]. unfold block_ref at 1 2 4. cbn [ref_Index].
    destruct (Z.ltb_spec i 0); [lia|].
    assert (El : map (block_ref size block) (seqZ 0 n) !! Z.to_nat i = Some (block_ref size block i)).
    { rewrite list_map_lookup, lookup_seqZ_lt by lia. cbn. f_equal. f_equal. lia. }
    rewrite El. unfold call_bind.
    pose proof (read_block_inside src data (ref_Size (block_ref size block i)) (i * block) w Hr ltac:(lia) ltac:(lia) ltac:(unfold size in *; lia)) as E.
    destruct (read_block src _ _ w) as [w1 r]. cbn in E. subst r. cbn -[block_ref]. by rewrite Z.eqb_refl.
  - rewrite map_map. rewrite (map_ext_in _ (fun i => span data (i * block) block)).
    + replace n with (Z.of_nat (Z.to_nat n)) by lia. rewrite blocks_prefix by done. apply take_ge.
      assert (Hcov : size <= n * block).
      { pose proof (Z.mod_pos_bound (size + block - 1) block Hb). pose proof (Z.div_mod (size + block - 1) block ltac:(lia)). unfold n. lia. }
      rewrite Z2Nat.id by done. unfold size in *. lia.
    + intros i Hi. apply list_elem_of_In, elem_of_seqZ in Hi.
      destruct (block_size_spec size block i) as (Hz & Hend & Hmin); [lia|lia|lia|].
      change (ref_Index (block_ref size block i)) with i. apply span_end; unfold size in *; lia.
Qed.

(** Every source reads like memory.  While the context lives, a memory source, a
    chunked source over chunks at their exact offsets, and an archive member over any
    source that reads like memory all answer each read at each offset exactly as a
    buffer with their bytes does, short reads, ends and negative offsets included; a
    bounded read of an archive gives exactly the span or refuses it; and the blocks of
    a cache over such a source are fetched whole, put together to its bytes, and have
    keys that tell source, block size and index apart. *)
Theorem byte_sources_refine {W} `{Context W} : alive W ->
  (forall key data, reads_as (NewMemSource key data) data) /\
  (forall key chunks caps fetch content, (forall c w, c ∈ chunks -> (fetch c w).2 = Ok (content c)) ->
     exists src, NewChunked key chunks (exact_starts content 0 chunks) (Z.of_nat (length (contents content chunks))) caps fetch = Ok src /\
       reads_as src (contents content chunks)) /\
  (forall key (src m : ByteSource W) data off size, reads_as src data ->
     NewArchiveMemberByteSource key (Some src) off size = Ok m -> reads_as m (span data off size)) /\
  (forall (src : ByteSource W) data off n w, reads_as src data ->
     (readAt (Some src) off n w).2 =
       if (off <? 0) || (n <? 0) || (Z.of_nat (length data) <? off) || (Z.of_nat (length data) - off <? n)
       then Err (archive_error "archive: invalid read" []) else Ok (span data off n)) /\
  (forall (src : ByteSource W) data block b, reads_as src data -> 0 < block -> Z.of_nat (length data) + block < 2 ^ 63 ->
     NewByteSourceBlocks (Some src) block = Ok b ->
     (forall ref w, ref ∈ refs b -> (block_Fetch b ref w).2 = Ok (span data (ref_Index ref * block) (ref_Size ref)) /\
        0 < ref_Size ref <= block) /\
     concat (map (fun ref => span data (ref_Index ref * block) (ref_Size ref)) (refs b)) = data) /\
  (forall (a b : byteSourceBlocks W) r1 r2, 0 <= blockSize a -> 0 <= blockSize b -> 0 <= ref_Index r1 -> 0 <= ref_Index r2 ->
     PayloadKey a r1 = PayloadKey b r2 -> SourceKey (bs a) = SourceKey (bs b) /\ blockSize a = blockSize b /\ ref_Index r1 = ref_Index r2).
Proof.
  intros Halive. split_and!.
  - intros. by apply mem_reads_as.
  - intros. by apply chunked_reads_as.
  - intros *. by apply member_reads_as.
  - intros. by apply readAt_inside.
  - intros src data block b Hr Hb Hs E. by destruct (blocks_read src data block b Hr Hb Hs E) as (_ & ? & ?).
  - apply PayloadKey_inj.
Qed.

(** A context that never ends, and chunks served from memory. *)
Module SourceSample.
#[export] Instance forever : Context unit := {| ctx_Err := fun w => (w, None) |}.
Definition content (c : Chunk) : bytes := if Index c =? 0 then [1; 2; 3] else [4; 5].
Definition chunks : list Chunk := [MkChunk 0 [97] 3; MkChunk 1 [98] 2].
Definition fetch (c : Chunk) (w : unit) : unit * result goerror bytes := (w, Ok (content c)).
End SourceSample.
Import SourceSample.

Lemma byte_sources_refine_witness : exists src : ByteSource unit,
  NewChunked [1] chunks [0; 3; 5] 5 (MkCaps true true TailCostCheap 0) fetch = Ok src /\
  (ReadAt src 3 1 tt).2 = ([2; 3; 4], 3, None).
Proof.
  destruct (byte_sources_refine (H := forever) ltac:(intros w; reflexivity)) as (_ & Hc & _).
  destruct (Hc [1] chunks (MkCaps true true TailCostCheap 0) fetch content) as (src & Hsrc & [_ Hread]); [done|].
  exists src. split; [exact Hsrc|]. rewrite Hread by lia. reflexivity.
Defined.
