(* ===== verification/CrossLane.v ===== *)
(** Proof-gated recovery: internal/crosslane/coordinator.go.

    The coordinator runs the ladder on a world paired with the variables its
    attempts share. *)

From Stdlib Require Import ZArith Lia.
From stdpp Require Import base list numbers strings sets.
From S2P Require Import Prelude AccountGov Outcome Ladder Bencode ContentProof LaneCandidate ByteSource.

Local Open Scope Z_scope.
Local Open Scope harbor_scope.

Definition Operation : bytes := str "cross-source-recovery".

(** ** Requests *)

Record Candidate (W : Type) := MkCandidate { Handle : LaneCandidate; Source : option (ByteSource W) }.
Arguments MkCandidate {W}.
Arguments Handle {W}.
Arguments Source {W}.

Record Request (W : Type) := MkRequest {
  Target : LaneCandidate;
  Proof : Evidence;
  Candidates : list (Candidate W);
  CandidateDigest : option (bytes -> W -> W * result goerror bytes)
}.
Arguments MkRequest {W}.
Arguments Target {W}.
Arguments Proof {W}.
Arguments Candidates {W}.
Arguments CandidateDigest {W}.

Record Block := MkBlock {
  Data : bytes;
  b_Candidate : option LaneCandidate;
  b_Decision : Decision;
  b_Ladder : Ladder.Result;
  CanonicalID : bytes;
  ConvergenceErr : option goerror
}.

(** Whether the coordinator has a governor and a converger; its graph may be
    nil. *)
Record Coordinator := MkCoordinator { graph : option Graph; gov : bool; converger : bool }.

Definition noProof {W} (req : Request W) : Decision :=
  MkDecision RelationNoProof (e_Offset (Proof req)) (e_Length (Proof req)) no_provenance no_provenance.

Definition proofMayAuthorizeTarget (lane : Lane) (provenance : Provenance) : bool :=
  if ProofMatchesLane lane provenance then true
  else bool_decide (lane = LaneHTTP) &&
    (bool_decide (provenance = ProvenanceTorrentPiece) || bool_decide (provenance = ProvenanceTorrentMerkle) ||
     bool_decide (provenance = ProvenancePAR2IFSC)).

Definition validate_candidate {W} (req : Request W) (candidate : Candidate W) : option goerror :=
  first_error (validateLaneCandidate (Handle candidate)) (
  first_error (fails (negb (bool_decide (lc_ReleaseKey (Handle candidate) = lc_ReleaseKey (Target req))) ||
                      negb (lc_Size (Handle candidate) =? lc_Size (Target req)))
    (str "crosslane: candidate does not exactly match target"))
  (fails (bool_decide (Source candidate = None)) (str "crosslane: nil candidate source"))).

Fixpoint validate_candidates {W} (req : Request W) (candidates : list (Candidate W)) : option goerror :=
  match candidates with
  | [] => None
  | candidate :: candidates => first_error (validate_candidate req candidate) (validate_candidates req candidates)
  end.

Definition validateRequest {W} (req : Request W) : option goerror :=
  let proof := Proof req in
  let target := Target req in
  first_error (validateLaneCandidate target) (
  first_error (fails (negb (bool_decide (RepresentationID proof = lc_RepresentationID target)) ||
                      negb (bool_decide (e_Kind proof = KindAuthoritative)))
    (str "crosslane: proof does not belong to target")) (
  first_error (fails (negb (proofMayAuthorizeTarget (lc_Lane target) (e_Provenance proof)))
    (str "crosslane: proof provenance does not match target lane")) (
  first_error (fails ((e_Offset proof <? 0) || (e_Length proof <=? 0) || (MaxMappingProofBytes <? e_Length proof) ||
                      (lc_Size target <? e_Offset proof) || (i64 (lc_Size target - e_Offset proof) <? e_Length proof))
    (str "crosslane: invalid proof span")) (
  first_error (fails (bool_decide (Candidates req = []) || (MaxLaneCandidates <? Z.of_nat (length (Candidates req))))
    (str "crosslane: invalid candidate count"))
  (validate_candidates req (Candidates req)))))).

(** The variables the attempts share. *)
Record shared := MkShared {
  verified : bytes;
  verifiedCandidate : option LaneCandidate;
  lastDecision : Decision
}.

Definition lane_string (lane : Lane) : bytes :=
  match lane with
  | LaneTorrent => str "torrent"
  | LaneNNTP => str "nntp"
  | LaneHTTP => str "http"
  | LaneOther s => s
  end.

(** The errors of a run as Go values. *)
Definition run_goerror (err : run_error) : goerror :=
  match err with
  | ErrAccountLevel => errors_New (str "ladder: account-level outcome, stopping walk")
  | ErrExhausted => errors_New (str "ladder: all rungs exhausted")
  | Aborted e => e
  end.

Definition no_ladder : Ladder.Result := Ladder.MkResult false [] [].

Section Recover.
Context (md5 sha1 sha256 : bytes -> bytes).
Context {W : Type} `{Context W, Clock W, Repository W, ConvergenceRepository W}.

(** The governor's operations. *)
Context (acquire : W -> bytes -> Z -> bytes -> W * option goerror) (release : W -> bytes -> W).

(** The request's own digest, or the flat digest of the proof's algorithm. *)
Definition digestFn (req : Request W) : bytes -> W -> W * result goerror bytes :=
  match CandidateDigest req with
  | Some f => f
  | None => Digest_ md5 sha1 sha256 (e_Algorithm (Proof req))
  end.

Definition verify_proof (req : Request W) (digest : bytes) : W -> W * (Decision * option goerror) :=
  VerifyDigest (lc_RepresentationID (Target req)) (e_Scope (Proof req)) (e_Offset (Proof req))
    (e_Length (Proof req)) (e_Algorithm (Proof req)) digest.

(** The context's error if it has one, else the given error. *)
Definition ctx_or (err : option goerror) : W -> W * option goerror :=
  let! c := ctx_Err in
  match c with Some c => call_ret (Some c) | None => call_ret err end.

(** The body of an attempt, on the shared variables. *)
Definition attempt_body (req : Request W) (handle : LaneCandidate) (source : ByteSource W) (vars : shared)
    : W -> W * (shared * option goerror) :=
  let! (data, n, readErr) := read_block source (e_Length (Proof req)) (e_Offset (Proof req)) in
  if negb (bool_decide (readErr = None)) || negb (n =? Z.of_nat (length data)) then
    let! err := ctx_or (Transient (Some (errors_New (str "crosslane: source read failed")))) in
    call_ret (vars, err)
  else
  let! digest := digestFn req data in
  match digest with
  | Err digestErr =>
      let! err := ctx_or (Permanent (Some digestErr)) in
      call_ret (vars, err)
  | Ok digest =>
      let! (candidateDecision, verifyErr) := verify_proof req digest in
      match verifyErr with
      | Some verifyErr =>
          let! err := ctx_or (Transient (Some verifyErr)) in
          call_ret (vars, err)
      | None =>
          if negb (bool_decide (d_Relation candidateDecision = RelationProven)) then
            call_ret (MkShared (verified vars) (verifiedCandidate vars) candidateDecision,
                      Permanent (Some (errors_New (str "crosslane: recovery block not proven"))))
          else call_ret (MkShared data (Some handle) candidateDecision, None)
      end
  end.

Definition attempt (req : Request W) (candidate : Candidate W) (s : W * shared) : (W * shared) * option goerror :=
  match Source candidate with
  | None => (s, None)
  | Some source =>
      let '(w, (vars, err)) := attempt_body req (Handle candidate) source s.2 s.1 in
      ((w, vars), err)
  end.

(** The rungs, numbered from [i]. *)
Fixpoint recovery_rungs (req : Request W) (i : Z) (candidates : list (Candidate W)) : list (Rung (W * shared)) :=
  match candidates with
  | [] => []
  | candidate :: candidates =>
      MkRung (lane_string (lc_Lane (Handle candidate)) ++ str "-" ++ itoa i) Operation PriorityRecovery 1
        (attempt req candidate) :: recovery_rungs req (i + 1) candidates
  end.

(** The context and the governor beside the shared variables. *)
Definition on_world {A} (c : W -> W * A) (s : W * shared) : (W * shared) * A :=
  let (w, a) := c s.1 in ((w, s.2), a).

Definition run_ladder (c : Coordinator) (req : Request W) (s : W * shared)
    : (W * shared) * (Ladder.Result * option run_error) :=
  let '(s, _, res, err) :=
    Ladder.Run (on_world ctx_Err) (fun s op p session => on_world (fun w => acquire w op p session) s)
      (fun s op => (release s.1 op, s.2)) (gov c) (recovery_rungs req 0 (Candidates req))
      (lc_ItemID (Target req)) s in
  (s, (res, err)).

(** The guard of a source: exact ranges of the target's size. *)
Definition exact_source (req : Request W) (candidate : Candidate W) : bool :=
  match Source candidate with
  | None => false
  | Some source => RangeSupport (Caps source) && ExactSize (Caps source) && (Size source =? lc_Size (Target req))
  end.

Definition converge (c : Coordinator) (req : Request W) (candidate : option LaneCandidate) (decision : Decision)
    : W -> W * (bytes * option goerror) :=
  if converger c then
    match candidate with
    | None => call_ret ([], None)
    | Some candidate =>
        let! r := ObserveVerified sha256 (Target req) candidate
                    (MkSpan (e_Offset (Proof req)) (e_Length (Proof req))) decision in
        match r with
        | Ok canonical => call_ret (canonical, None)
        | Err err => call_ret ([], Some err)
        end
    end
  else call_ret ([], None).

Definition RecoverBlock (c : option Coordinator) (req : Request W) : W -> W * (Block * option goerror) :=
  let result := MkBlock [] None (noProof req) no_ladder [] None in
  let! err := ctx_Err in
  check! err or result in
  match c with
  | None | Some (MkCoordinator None _ _) => call_ret (result, Some (errors_New (str "crosslane: nil proof graph")))
  | Some c =>
      check! validateRequest req or result in
      let! (decision, err) := verify_proof req (Digest (Proof req)) in
      check! err or result in
      let result := MkBlock [] None decision no_ladder [] None in
      if negb (bool_decide (d_Relation decision = RelationProven)) then call_ret (result, None)
      else if negb (forallb (exact_source req) (Candidates req))
      then call_ret (result, Some (errors_New (str "crosslane: source lacks an exact bounded range")))
      else fun w =>
        let '((w, vars), (ladderResult, runErr)) := run_ladder c req (w, MkShared [] None (noProof req)) in
        (let! err := ctx_Err in
         check! err or MkBlock [] None (noProof req) ladderResult [] None in
         match runErr with
         | Some runErr =>
             call_ret (MkBlock [] None (lastDecision vars) ladderResult [] None, Some (run_goerror runErr))
         | None =>
             let! (canonical, convErr) := converge c req (verifiedCandidate vars) (lastDecision vars) in
             call_ret (MkBlock (verified vars) (verifiedCandidate vars) (lastDecision vars) ladderResult
                         canonical convErr, None)
         end) w
  end.

End Recover.

(** ** Recovered bytes are proven *)

(** The bytes hash, as the request says, to the digest of an attested
    authoritative proof of the exact span. *)
Record proven_bytes {W} `{RepositoryLaws W} (req : Request W)
    (digest : bytes -> W -> W * result goerror bytes) (data : bytes) (w : W) : Prop := {
  pb_length : Z.of_nat (length data) = e_Length (Proof req);
  pb_proof : exists w1 w2 dg e, digest data w1 = (w2, Ok dg) /\ attested w e /\ Digest e = dg /\
    e_Kind e = KindAuthoritative /\ e_Scope e = e_Scope (Proof req) /\ e_Offset e = e_Offset (Proof req) /\
    e_Length e = e_Length (Proof req) /\ e_Algorithm e = e_Algorithm (Proof req)
}.

Section Safety.
Context (md5 sha1 sha256 : bytes -> bytes).
Context {W : Type} `{RepositoryLaws W} `{ConvergenceRepository W}.
Context (acquire : W -> bytes -> Z -> bytes -> W * option goerror) (release : W -> bytes -> W).

(** The errors of a context carry no class of success; releasing a lease and
    recording convergence forget no proof. *)
Context (ctx_plain : forall w w' e, ctx_Err w = (w', Some e) -> Classify (Some e) <> ClassNone).
Context (release_keeps : forall w op e, attested w e -> attested (release w op) e).
Context (converge_keeps : forall l r s c t m n e, keeps (fun w => attested w e)
  (ObserveRepresentationConvergence l r s c t m n)).

Let digest_of (req : Request W) := digestFn md5 sha1 sha256 req.

(** What a successful attempt leaves behind. *)
Record recovered (req : Request W) (s : W * shared) : Prop := {
  rc_bytes : proven_bytes req (digest_of req) (verified s.2) s.1;
  rc_candidate : exists cand, cand ∈ Candidates req /\ verifiedCandidate s.2 = Some (Handle cand);
  rc_decision : d_Relation (lastDecision s.2) = RelationProven /\
    d_Offset (lastDecision s.2) = e_Offset (Proof req) /\ d_Length (lastDecision s.2) = e_Length (Proof req)
}.

Lemma proven_bytes_keeps {A} req f data (c : W -> W * A) : (forall e, keeps (fun w => attested w e) c) ->
  keeps (proven_bytes req f data) c.
Proof.
  intros Hc w [Hl (w1 & w2 & dg & e & Hd & Ha & Hr)]. split; [done|].
  exists w1, w2, dg, e. split; [done|]. split; [by apply Hc|done].
Qed.

Lemma ctx_or_class e0 w w' err (P : Prop) : ctx_or e0 w = (w', err) -> Classify e0 <> ClassNone ->
  match err with Some e => Classify (Some e) <> ClassNone | None => P end.
Proof. intros E He. unfold ctx_or in E. calls E; [by eapply ctx_plain|]. by destruct err. Qed.

Lemma attempt_recovers req cand source :
  is_i64 (e_Offset (Proof req)) -> is_i64 (e_Length (Proof req)) -> 0 <= e_Length (Proof req) ->
  cand ∈ Candidates req -> Source cand = Some source ->
  forall s, match attempt md5 sha1 sha256 req cand s with
    | (s', None) => recovered req s'
    | (_, Some e) => Classify (Some e) <> ClassNone
    end.
Proof.
  intros Ho Hl Hpos Hin Hs [w vars]. unfold attempt. rewrite Hs. cbn [fst snd].
  destruct (attempt_body _ _ _ _ _ _ _ _) as [w' [vars' err]] eqn:E. unfold attempt_body in E.
  calls E; try done; try (by eapply ctx_or_class; [done|]).
  unfold read_block in Hc. calls Hc. unfold verify_proof in *.
  match goal with Hv : VerifyDigest _ _ _ _ _ _ _ = _ |- _ => rename Hv into Hver end.
  bool_hyps. pose proof Hver as Hver'.
  apply VerifyDigest_proven in Hver; [|done..]. destruct Hver as (e & ? & ? & ? & ? & ? & ? & ?).
  apply VerifyDigest_spec in Hver' as (Hdo & Hdl & _); [|done..].
  split; cbn [fst snd verified verifiedCandidate lastDecision].
  - split; [rewrite fill_length; lia|]. by do 4 eexists.
  - by exists cand.
  - done.
Qed.

Lemma validate_candidates_spec (req : Request W) l : validate_candidates req l = None ->
  forall cand, cand ∈ l -> validate_candidate req cand = None.
Proof.
  induction l as [|c l IH]; intros E cand Hin; [by apply not_elem_of_nil in Hin|].
  cbn in E. apply first_error_none in E as [E1 E2]. apply list.elem_of_cons in Hin as [->|Hin]; auto.
Qed.

Lemma validateRequest_spec (req : Request W) : validateRequest req = None ->
  0 <= e_Offset (Proof req) /\ 0 < e_Length (Proof req) <= MaxMappingProofBytes /\
  forall cand, cand ∈ Candidates req -> exists source, Source cand = Some source.
Proof.
  unfold validateRequest. rewrite !first_error_none, !fails_none. intros (_ & _ & _ & Hs & _ & Hc).
  bool_hyps. split; [lia|]. split; [lia|]. intros cand Hin.
  pose proof (validate_candidates_spec _ _ Hc cand Hin) as Hv. unfold validate_candidate in Hv.
  rewrite !first_error_none, !fails_none in Hv. destruct Hv as (_ & _ & Hv). bool_hyps.
  destruct (Source cand); [eauto|done].
Qed.

Lemma recovery_rungs_elem req i l rung : rung ∈ recovery_rungs md5 sha1 sha256 req i l ->
  exists cand, cand ∈ l /\ r_Attempt rung = attempt md5 sha1 sha256 req cand.
Proof.
  revert i. induction l as [|c l IH]; intros i Hin; cbn in Hin; [by apply not_elem_of_nil in Hin|].
  apply list.elem_of_cons in Hin as [->|Hin].
  - exists c. split; [left|done].
  - apply IH in Hin as (cand & ? & ?). exists cand. split; [by right|done].
Qed.

Lemma run_ladder_recovers c req s s' res :
  is_i64 (e_Offset (Proof req)) -> is_i64 (e_Length (Proof req)) -> validateRequest req = None ->
  run_ladder md5 sha1 sha256 acquire release c req s = (s', (res, None)) -> recovered req s'.
Proof.
  intros Ho Hl Hv E. apply validateRequest_spec in Hv as (_ & Hpos & Hsrc).
  unfold run_ladder in E. destruct (Ladder.Run _ _ _ _ _ _ _) as [[[s1 tr] res1] err] eqn:Er.
  injection E as -> -> ->.
  apply (Run_guarantee _ _ _ _ (fun _ => True) (fun _ => recovered req)) in Er; try done.
  - destruct Er as [_ Er]. by destruct (Er eq_refl) as (rung & _ & _ & Hr).
  - intros [w vars] op _ [Hb Hc Hd]. split; cbn in *; [|done|done].
    destruct Hb as [Hlen (w1 & w2 & dg & e & Hdg & Ha & Hr)]. split; [done|].
    exists w1, w2, dg, e. split; [done|]. split; [by apply release_keeps|done].
  - apply list.Forall_forall. intros rung Hin. apply recovery_rungs_elem in Hin as (cand & Hin & Hatt).
    destruct (Hsrc cand Hin) as [source Hs]. intros w _. split; [done|]. rewrite Hatt.
    pose proof (attempt_recovers req cand source Ho Hl ltac:(lia) Hin Hs w) as Hr.
    by destruct (attempt md5 sha1 sha256 req cand w) as [s2 [e|]].
Qed.

Lemma ObserveVerified_keeps l r span d e : keeps (fun w => attested w e) (ObserveVerified sha256 l r span d).
Proof.
  unfold ObserveVerified. apply keeps_bind; [auto with calls|]. intros [err|]; [auto with calls|].
  destruct (_ || _ || _); [auto with calls|]. destruct (first_error _ _); [auto with calls|].
  destruct (_ || _ || _); [auto with calls|]. destruct (_ || _ || _ || _); [auto with calls|].
  apply keeps_bind; [auto with calls|]. intros now. apply converge_keeps.
Qed.

Lemma converge_keeps' c req cand d e : keeps (fun w => attested w e) (converge sha256 c req cand d).
Proof.
  unfold converge. destruct (converger c); [|auto with calls]. destruct cand as [cand|]; [|auto with calls].
  apply keeps_bind; [apply ObserveVerified_keeps|]. intros [?|?]; auto with calls.
Qed.


End Safety.

(** Two sources for the block proven in the memory repository; the first answers
    other bytes. *)
Module Sample.
Import ContentProof.Memory.

#[export] Instance convergence : ConvergenceRepository (list Evidence) := {|
  ObserveRepresentationConvergence := fun _ _ _ _ _ _ _ w => (w, Ok []);
  ListRepresentationRoutes := fun _ _ w => (w, Ok []);
  ResolveRepresentationCanonical := fun _ w => (w, Ok None)
|}.

Definition key : bytes := hex_encode (repeat 7 32).
Definition handle (id : bytes) : LaneCandidate := MkLaneCandidate LaneTorrent (str "item") (str "file") id key 4.
Definition source (data : bytes) : ByteSource (list Evidence) :=
  MkSource [1] 4 (MkCaps true true TailCostUnknown 0) (fun n offset w => (w, (data, n, None))).
(** A hash of 20 bytes that tells the samples apart. *)
Definition sum (data : bytes) : bytes := fold_right Z.add 0 data :: repeat 0 19.
Definition request : Request (list Evidence) :=
  MkRequest (handle (str "t")) (piece (str "t") (sum [1; 2; 3; 4]))
    [MkCandidate (handle (str "a")) (Some (source [9; 9; 9; 9]));
     MkCandidate (handle (str "b")) (Some (source [1; 2; 3; 4]))] None.
Definition world : list Evidence := [piece (str "t") (sum [1; 2; 3; 4])].
Definition recover : list Evidence * (Block * option goerror) :=
  RecoverBlock sum sum sum (fun w _ _ _ => (w, None)) (fun w _ => w)
    (Some (MkCoordinator (Some (MkGraph 10)) true true)) request world.

End Sample.

Import ContentProof.Memory Sample.

