(* ===== verification/Convergence.v ===== *)
(** The convergence tables of internal/store/representation_convergence.go.

    A pair of representations accumulates the spans proven identical; once they
    cover the whole object both join one canonical group.  The tables are finite
    maps by their primary keys; a statement that fails rolls the transaction
    back, so a failed call leaves the tables as they were.  Instants are kept only
    where a query orders by them. *)

From Stdlib Require Import ZArith Lia Sorting.Sorted.
From stdpp Require Import base list numbers strings sets gmap relations.
From S2P Require Import Prelude Outcome ContentProof LaneCandidate.

Local Open Scope Z_scope.
Local Open Scope harbor_scope.

Record route := MkRoute { r_canonical : bytes; r_candidate : LaneCandidate; r_verified_at : Z }.

Record tables := MkTables {
  (** representation_verification_spans, the rows of each pair *)
  pending : gmap (bytes * bytes) (list VerifiedSpan);
  (** canonical_representations: id and byte_size *)
  canonicals : gmap bytes Z;
  (** representation_aliases: representation_id and canonical_id *)
  aliases : gmap bytes bytes;
  (** representation_routes by representation_id *)
  routes : gmap bytes route
}.

Definition empty_tables : tables := MkTables ∅ ∅ ∅ ∅.

Definition with_pending (t : tables) p := MkTables p (canonicals t) (aliases t) (routes t).

(** ** Spans *)

Definition span_end (s : VerifiedSpan) : Z := i64 (s_Offset s + s_Length s).

(** One turn of the loop; the merged spans are kept in reverse. *)
Definition merge_turn (merged : list VerifiedSpan) (span : VerifiedSpan) : list VerifiedSpan :=
  match merged with
  | [] => [span]
  | last :: front =>
      let lastEnd := span_end last in
      let spanEnd := span_end span in
      if lastEnd <? s_Offset span then span :: last :: front
      else if lastEnd <? spanEnd then MkSpan (s_Offset last) (i64 (spanEnd - s_Offset last)) :: front
      else last :: front
  end.

Definition span_before (a b : VerifiedSpan) : bool := s_Offset a <? s_Offset b.

Definition mergeVerifiedSpans (spans : list VerifiedSpan) : list VerifiedSpan :=
  rev (fold_left merge_turn (sort_by span_before spans) []).

(** ** Pairs *)

Definition verificationPairExists (t : tables) (l r : bytes) : bool :=
  match pending t !! (l, r) with Some (_ :: _) => true | _ => false end.

(** ORDER BY byte_offset, byte_length. *)
Definition row_before (a b : VerifiedSpan) : bool :=
  if s_Offset a =? s_Offset b then s_Length a <? s_Length b else s_Offset a <? s_Offset b.

Definition loadVerificationSpans (t : tables) (l r : bytes) : list VerifiedSpan :=
  sort_by row_before (default [] (pending t !! (l, r))).

(** The pairs with rows that mention a representation. *)
Definition count_pairs (t : tables) (id : bytes) : Z :=
  Z.of_nat (size (filter (fun row : (bytes * bytes) * list VerifiedSpan =>
    (row.1.1 = id \/ row.1.2 = id) /\ row.2 <> []) (pending t))).

Fixpoint pair_limit (t : tables) (ids : list bytes) (maxRoutes : Z) : bool :=
  match ids with
  | [] => false
  | id :: ids => if maxRoutes <=? count_pairs t id then true else pair_limit t ids maxRoutes
  end.

(** ** Groups *)

Definition count_routes (t : tables) (ids : list bytes) : Z :=
  Z.of_nat (size (filter (fun row : bytes * route => r_canonical row.2 ∈ ids) (routes t))).

Definition aliasCanonical (t : tables) (representationID : bytes) : bytes :=
  default [] (aliases t !! representationID).

Definition ensureCanonicalSize (t : tables) (canonical : bytes) (size : Z) : result goerror unit :=
  match canonicals t !! canonical with
  | None => Err (errors_New (str "read canonical representation size"))
  | Some existing =>
      if negb (existing =? size) then Err (errors_New (str "store: canonical representation size conflict")) else Ok tt
  end.

Definition upsertRepresentationRoute (t : tables) (canonical : bytes) (candidate : LaneCandidate) (at_ : Z)
    : result goerror tables :=
  let id := lc_RepresentationID candidate in
  match routes t !! id with
  | Some existing =>
      if negb (bool_decide (r_candidate existing = candidate))
      then Err (errors_New (str "store: representation route identity conflict"))
      else Ok (MkTables (pending t) (canonicals t) (aliases t)
                 (<[id := MkRoute canonical (r_candidate existing) at_]> (routes t)))
  | None =>
      Ok (MkTables (pending t) (canonicals t) (aliases t) (<[id := MkRoute canonical candidate at_]> (routes t)))
  end.

(** UPDATE ... SET canonical_id=winner WHERE canonical_id=loser, on both tables. *)
Definition move_alias (winner loser : bytes) (c : bytes) : bytes := if bool_decide (c = loser) then winner else c.
Definition move_route (winner loser : bytes) (r : route) : route :=
  MkRoute (move_alias winner loser (r_canonical r)) (r_candidate r) (r_verified_at r).

(** DELETE FROM canonical_representations, with the cascades of the foreign keys. *)
Definition delete_canonical (t : tables) (id : bytes) : tables :=
  MkTables (pending t) (delete id (canonicals t))
    (filter (fun row : bytes * bytes => row.2 <> id) (aliases t))
    (filter (fun row : bytes * route => r_canonical row.2 <> id /\ aliases t !! row.1 <> Some id) (routes t)).

Definition merge_groups (t : tables) (leftCanonical rightCanonical : bytes) (maxRoutes : Z)
    : result goerror (tables * bytes) :=
  let (winner, loser) := if str_ltb rightCanonical leftCanonical
    then (rightCanonical, leftCanonical) else (leftCanonical, rightCanonical) in
  if maxRoutes <? count_routes t [winner; loser]
  then Err (errors_New (str "store: canonical representation route limit exceeded"))
  else
    let t := MkTables (pending t) (canonicals t) (move_alias winner loser <$> aliases t)
               (move_route winner loser <$> routes t) in
    Ok (delete_canonical t loser, winner).

(** The loop over the two routes. *)
Definition attach_route (canonical : bytes) (at_ : Z) (t : tables) (candidate : LaneCandidate) : result goerror tables :=
  let? _ := ensureCanonicalSize t canonical (lc_Size candidate) in
  let t := MkTables (pending t) (canonicals t)
             (<[lc_RepresentationID candidate := canonical]> (aliases t)) (routes t) in
  upsertRepresentationRoute t canonical candidate at_.

Definition choose_canonical (t : tables) (leftCanonical rightCanonical proposed : bytes) (size : Z)
    : result goerror (tables * bytes) :=
  let canonical := if bool_decide (leftCanonical = []) then rightCanonical else leftCanonical in
  if bool_decide (canonical = []) then
    match canonicals t !! proposed with
    | Some _ => Err (errors_New (str "create canonical representation"))
    | None => Ok (MkTables (pending t) (<[proposed := size]> (canonicals t)) (aliases t) (routes t), proposed)
    end
  else Ok (t, canonical).

Definition convergeGroups (t : tables) (l r : LaneCandidate) (proposed : bytes) (at_ maxRoutes : Z)
    : result goerror (tables * bytes) :=
  let leftCanonical := aliasCanonical t (lc_RepresentationID l) in
  let rightCanonical := aliasCanonical t (lc_RepresentationID r) in
  let? (t, canonical) := choose_canonical t leftCanonical rightCanonical proposed (lc_Size l) in
  let? (t, canonical) :=
    (if negb (bool_decide (leftCanonical = [])) && negb (bool_decide (rightCanonical = [])) &&
        negb (bool_decide (leftCanonical = rightCanonical))
     then merge_groups t leftCanonical rightCanonical maxRoutes
     else Ok (t, canonical)) in
  let? t := rfold (attach_route canonical at_) t [l; r] in
  if maxRoutes <? count_routes t [canonical]
  then Err (errors_New (str "store: canonical representation route limit exceeded"))
  else Ok (t, canonical).

(** ** The operation *)

(** The transaction: the tables it commits and the canonical id, or the error
    it rolls back with. *)
Definition observe (t : tables) (l r : LaneCandidate) (span : VerifiedSpan) (proposedCanonical : bytes)
    (verifiedAt maxRoutes maxSpans : Z) : result goerror (tables * bytes) :=
  let (l, r) := if str_ltb (lc_RepresentationID r) (lc_RepresentationID l) then (r, l) else (l, r) in
  let pair := (lc_RepresentationID l, lc_RepresentationID r) in
  if negb (verificationPairExists t (lc_RepresentationID l) (lc_RepresentationID r)) &&
     pair_limit t [lc_RepresentationID l; lc_RepresentationID r] maxRoutes
  then Err (errors_New (str "store: representation verification pair limit exceeded"))
  else
    let spans := mergeVerifiedSpans (loadVerificationSpans t (lc_RepresentationID l) (lc_RepresentationID r) ++ [span]) in
    if maxSpans <? Z.of_nat (length spans)
    then Err (errors_New (str "store: representation verification span limit exceeded"))
    else
      let t := with_pending t (<[pair := spans]> (pending t)) in
      if negb (bool_decide (spans = [MkSpan 0 (lc_Size l)])) then Ok (t, [])
      else
        let? (t, canonical) := convergeGroups t l r proposedCanonical verifiedAt maxRoutes in
        Ok (with_pending t (delete pair (pending t)), canonical).

Definition StoreObserve (l r : LaneCandidate) (span : VerifiedSpan) (proposedCanonical : bytes)
    (verifiedAt maxRoutes maxSpans : Z) (t : tables) : tables * result goerror bytes :=
  match observe t l r span proposedCanonical verifiedAt maxRoutes maxSpans with
  | Ok (t', canonical) => (t', Ok canonical)
  | Err err => (t, Err err)
  end.

(** ** Reads *)

(** ORDER BY verified_at, representation_id. *)
Definition route_before (a b : route) : bool :=
  time_text_ltb (r_verified_at a) (r_verified_at b) ||
  (negb (time_text_ltb (r_verified_at b) (r_verified_at a)) &&
   str_ltb (lc_RepresentationID (r_candidate a)) (lc_RepresentationID (r_candidate b))).

Definition StoreRoutes (representationID : bytes) (limit : Z) (t : tables) : tables * result goerror (list LaneCandidate) :=
  (t,
   if limit <? 1 then Ok []
   else
     match aliases t !! representationID with
     | None => Ok []
     | Some canonical =>
         let rows := take (Z.to_nat (limit + 1)) (sort_by route_before
           (map snd (map_to_list (filter (fun row : bytes * route => r_canonical row.2 = canonical) (routes t))))) in
         if limit <? Z.of_nat (length rows)
         then Err (errors_New (str "store: representation route limit exceeded"))
         else Ok (map r_candidate rows)
     end).

Definition StoreAliases (representationID : bytes) (limit : Z) (t : tables) : tables * result goerror (list bytes * Z) :=
  (t,
   if limit <? 1 then Ok ([], 0)
   else
     match aliases t !! representationID with
     | None => Ok ([], 0)
     | Some canonical =>
         match canonicals t !! canonical with
         | None => Ok ([], 0)
         | Some size =>
             let rows := take (Z.to_nat (limit + 1)) (sort_by str_ltb
               (map fst (map_to_list (filter (fun row : bytes * bytes => row.2 = canonical) (aliases t))))) in
             if limit <? Z.of_nat (length rows)
             then Err (errors_New (str "store: representation alias limit exceeded"))
             else Ok (rows, size)
         end
     end).

Definition StoreCanonical (representationID : bytes) (t : tables) : tables * result goerror (option bytes) :=
  (t, Ok (aliases t !! representationID)).

#[export] Instance store_convergence : ConvergenceRepository tables := {|
  ObserveRepresentationConvergence := StoreObserve;
  ListRepresentationRoutes := StoreRoutes;
  ResolveRepresentationCanonical := StoreCanonical
|}.

(** ** Merging spans *)

Definition valid_span (s : VerifiedSpan) : Prop :=
  0 <= s_Offset s /\ 0 < s_Length s /\ s_Offset s + s_Length s <= maxInt64.

(** The byte [x] lies in one of the spans. *)
Definition covered (spans : list VerifiedSpan) (x : Z) : Prop :=
  exists s, s ∈ spans /\ s_Offset s <= x < s_Offset s + s_Length s.

(** Ascending, with a gap of at least a byte between spans and after [lo]. *)
Fixpoint separated (lo : Z) (spans : list VerifiedSpan) : Prop :=
  match spans with
  | [] => True
  | s :: spans => lo < s_Offset s /\ valid_span s /\ separated (s_Offset s + s_Length s) spans
  end.

Lemma covers_cons s l x : covered (s :: l) x <-> s_Offset s <= x < s_Offset s + s_Length s \/ covered l x.
Proof.
  unfold covered. split.
  - intros (y & [->|Hy]%list.elem_of_cons & Hx); [by left|right; eauto].
  - intros [Hx|(y & Hy & Hx)]; [exists s; split; [left|done]|exists y; split; [by right|done]].
Qed.

Lemma covers_nil x : covered [] x <-> False.
Proof. split; [|done]. intros (y & Hy & _). by apply not_elem_of_nil in Hy. Qed.

Lemma covers_perm l l' x : l ≡ₚ l' -> covered l x <-> covered l' x.
Proof. intros Hp. unfold covered. by setoid_rewrite Hp. Qed.

Lemma covers_app l l' x : covered (l ++ l') x <-> covered l x \/ covered l' x.
Proof. unfold covered. setoid_rewrite elem_of_app. naive_solver. Qed.

Lemma separated_app lo l s : separated lo l -> valid_span s ->
  (forall s', s' ∈ l -> s_Offset s' + s_Length s' < s_Offset s) -> lo < s_Offset s -> separated lo (l ++ [s]).
Proof.
  revert lo. induction l as [|y l IH]; intros lo Hl Hs Hall Hlo; cbn in *; [done|].
  destruct Hl as (Hlo' & Hy & Hl). split_and!; [done|done|]. apply IH; [done|done| |].
  - intros. apply Hall. by right.
  - apply Hall. left.
Qed.

(** Spans merged so far, in reverse, below an offset. *)
Fixpoint merged_below (hi : Z) (merged : list VerifiedSpan) : Prop :=
  match merged with
  | [] => True
  | s :: front => valid_span s /\ s_Offset s + s_Length s < hi /\ merged_below (s_Offset s) front
  end.

Lemma merged_below_separated hi merged : merged_below hi merged ->
  separated (-1) (rev merged) /\ forall s, s ∈ rev merged -> s_Offset s + s_Length s < hi.
Proof.
  revert hi. induction merged as [|s front IH]; intros hi H; cbn [rev merged_below] in *.
  { split; [done|]. intros s Hs. by apply not_elem_of_nil in Hs. }
  destruct H as (Hs & Hhi & H). destruct (IH _ H) as [IH1 IH2]. unfold valid_span in Hs. split.
  - apply separated_app; [done|done|done|lia].
  - intros y Hy. apply elem_of_app in Hy as [Hy|Hy%list_elem_of_singleton]; [pose proof (IH2 y Hy); lia|by subst].
Qed.

Lemma span_end_eq s : valid_span s -> span_end s = s_Offset s + s_Length s.
Proof. intros (? & ? & ?). unfold span_end. rewrite i64_small; [done|]. unfold is_i64, minInt64. lia. Qed.

(** The spans merged so far end where a span at or after the last one begins. *)
Definition merged_from (merged : list VerifiedSpan) (lo : Z) : Prop :=
  match merged with
  | [] => True
  | s :: front => valid_span s /\ s_Offset s <= lo /\ merged_below (s_Offset s) front
  end.

Lemma merge_turn_spec merged s : merged_from merged (s_Offset s) -> valid_span s ->
  merged_from (merge_turn merged s) (s_Offset s) /\
  forall x, covered (merge_turn merged s) x <-> covered merged x \/ covered [s] x.
Proof.
  intros Hm Hs. unfold merge_turn. destruct merged as [|last front].
  { split; [by split_and!; cbn; try apply Hs|]. intros x. rewrite covers_nil. naive_solver. }
  destruct Hm as (Hlast & Hle & Hfront). rewrite !span_end_eq by done.
  assert (Hs' := Hs). unfold valid_span in Hs', Hlast.
  destruct (Z.ltb_spec (s_Offset last + s_Length last) (s_Offset s)) as [Hlt|Hge].
  - split; [split; [done|]; split; [lia|]; by split_and!|].
    intros x. rewrite !covers_cons, covers_nil. naive_solver.
  - destruct (Z.ltb_spec (s_Offset last + s_Length last) (s_Offset s + s_Length s)) as [Hlt|Hge'].
    + rewrite i64_small by (unfold is_i64, minInt64; lia). split.
      * split; [unfold valid_span; cbn; lia|]. split; [done|exact Hfront].
      * intros x. rewrite !covers_cons, covers_nil. cbn [s_Offset s_Length].
        assert (s_Offset last <= x < s_Offset last + (s_Offset s + s_Length s - s_Offset last) <->
          s_Offset last <= x < s_Offset last + s_Length last \/ s_Offset s <= x < s_Offset s + s_Length s) by lia. tauto.
    + split; [split; [done|]; by split|]. intros x. rewrite !covers_cons, covers_nil.
      assert (s_Offset s <= x < s_Offset s + s_Length s -> s_Offset last <= x < s_Offset last + s_Length last) by lia. tauto.
Qed.

Lemma merge_fold_spec l : forall merged lo,
  StronglySorted (fun a b => s_Offset a <= s_Offset b) l -> Forall valid_span l ->
  (forall s, s ∈ l -> lo <= s_Offset s) -> merged_from merged lo ->
  (exists hi, merged_from (fold_left merge_turn l merged) hi) /\
  forall x, covered (fold_left merge_turn l merged) x <-> covered merged x \/ covered l x.
Proof.
  induction l as [|s l IH]; intros merged lo Hsort Hval Hlo Hm; cbn [fold_left].
  { split; [by exists lo|]. intros x. rewrite covers_nil. naive_solver. }
  apply StronglySorted_inv in Hsort as [Hsort Hle]. apply list.Forall_cons in Hval as [Hv Hval].
  assert (Hm' : merged_from merged (s_Offset s)).
  { pose proof (Hlo s ltac:(left)). destruct merged; [done|]. destruct Hm as (? & ? & ?). split_and!; [done|lia|done]. }
  destruct (merge_turn_spec merged s Hm' Hv) as [Hm1 Hc1].
  destruct (IH (merge_turn merged s) (s_Offset s) Hsort Hval) as [IH1 IH2]; [|done|].
  { intros y Hy. by apply (list.Forall_forall (fun b => s_Offset s <= s_Offset b) l). }
  split; [done|]. intros x. rewrite IH2, Hc1. rewrite (covers_cons s l), (covers_cons s []), covers_nil. naive_solver.
Qed.

Lemma sort_by_key (key : VerifiedSpan -> Z) l :
  StronglySorted (fun a b => key a <= key b) (sort_by (fun a b => key a <? key b) l).
Proof.
  assert (Hins : forall s l, StronglySorted (fun a b => key a <= key b) l ->
    StronglySorted (fun a b => key a <= key b) (insert_by (fun a b => key a <? key b) s l)).
  { intros s l'. induction l' as [|y l' IH]; intros Hs; cbn.
    - by repeat constructor.
    - apply StronglySorted_inv in Hs as [Hs Hy]. destruct (Z.ltb_spec (key y) (key s)).
      + constructor; [auto|]. rewrite insert_by_perm. constructor; [lia|done].
      + constructor; [by constructor|]. constructor; [lia|].
        eapply list.Forall_impl; [exact Hy|]. cbn. intros. lia. }
  induction l as [|s l IH]; cbn; [constructor|]. by apply Hins.
Qed.

Lemma merge_spans_spec l : Forall valid_span l ->
  separated (-1) (mergeVerifiedSpans l) /\ forall x, covered (mergeVerifiedSpans l) x <-> covered l x.
Proof.
  intros Hv. unfold mergeVerifiedSpans.
  destruct (merge_fold_spec (sort_by span_before l) [] 0) as [[hi H1] H2].
  - apply (sort_by_key s_Offset).
  - by rewrite sort_by_perm.
  - intros s Hs. rewrite sort_by_perm in Hs. by apply (proj1 (list.Forall_forall valid_span l) Hv) in Hs as [? _].
  - done.
  - split.
    + destruct (fold_left merge_turn _ _) as [|s front]; [done|]. destruct H1 as (Hs & _ & Hf).
      apply (merged_below_separated (s_Offset s + s_Length s + 1)). split_and!; [done|lia|done].
    + intros x. rewrite (covers_perm (rev _) (fold_left merge_turn (sort_by span_before l) [])) by (symmetry; apply Permutation_rev).
      rewrite H2, (covers_perm (sort_by span_before l) l) by apply sort_by_perm.
      rewrite covers_nil. naive_solver.
Qed.

Lemma separated_above lo l x : separated lo l -> covered l x -> lo < x.
Proof.
  revert lo. induction l as [|s l IH]; intros lo Hl Hc; [by apply covers_nil in Hc|].
  destruct Hl as (Hlo & (? & ? & ?) & Hl). apply covers_cons in Hc as [?|Hc]; [lia|].
  pose proof (IH _ Hl Hc). lia.
Qed.

(** Separated spans that cover exactly an object are one span. *)
Lemma separated_whole l size : 0 < size -> separated (-1) l ->
  l = [MkSpan 0 size] <-> forall x, covered l x <-> 0 <= x < size.
Proof.
  intros Hsize Hsep. split.
  { intros -> x. rewrite covers_cons, covers_nil. cbn. lia. }
  intros Hc. destruct l as [|s l]; [exfalso; by apply covers_nil with 0, Hc; lia|].
  destruct Hsep as (Hlo & (Hs1 & Hs2 & Hs3) & Hsep).
  assert (Hfirst : s_Offset s = 0).
  { pose proof (proj2 (Hc 0) ltac:(lia)) as H0. apply covers_cons in H0 as [?|H0]; [lia|].
    pose proof (separated_above _ _ _ Hsep H0). lia. }
  assert (Hend : s_Offset s + s_Length s = size).
  { pose proof (proj1 (Hc (s_Offset s + s_Length s - 1)) ltac:(apply covers_cons; left; lia)).
    destruct (decide (s_Offset s + s_Length s < size)) as [Hlt|]; [|lia].
    pose proof (proj2 (Hc (s_Offset s + s_Length s)) ltac:(lia)) as He. apply covers_cons in He as [?|He]; [lia|].
    pose proof (separated_above _ _ _ Hsep He). lia. }
  destruct l as [|s' l].
  - destruct s as [o n]. cbn in *. f_equal. f_equal; lia.
  - destruct Hsep as (Hs' & (? & ? & ?) & _). exfalso.
    pose proof (proj1 (Hc (s_Offset s')) ltac:(apply covers_cons; right; apply covers_cons; left; lia)). lia.
Qed.

(** Merging spans loses no byte and invents none: the merged spans are in
    ascending order with a gap of at least one byte between them and cover exactly
    what the spans covered.  So a pair is complete, one span from 0 to the size,
    exactly when its spans cover every byte of the object and no other. *)
Theorem merge_spans_union spans size :
  Forall valid_span spans -> 0 < size ->
  separated (-1) (mergeVerifiedSpans spans) /\
  (forall x, covered (mergeVerifiedSpans spans) x <-> covered spans x) /\
  (mergeVerifiedSpans spans = [MkSpan 0 size] <-> forall x, covered spans x <-> 0 <= x < size).
Proof.
  intros Hv Hsize. destruct (merge_spans_spec spans Hv) as [Hsep Hcov].
  split_and!; [done|done|]. rewrite separated_whole by done. by setoid_rewrite Hcov.
Qed.

Lemma merge_spans_union_witness :
  mergeVerifiedSpans [MkSpan 6 4; MkSpan 0 3; MkSpan 2 4] = [MkSpan 0 10] /\
  forall x, covered [MkSpan 6 4; MkSpan 0 3; MkSpan 2 4] x <-> 0 <= x < 10.
Proof.
  split; [reflexivity|].
  apply (merge_spans_union [MkSpan 6 4; MkSpan 0 3; MkSpan 2 4] 10); [|lia|reflexivity].
  unfold valid_span, maxInt64. repeat constructor; cbn; lia.
Defined.

(** ** What the tables mean *)

(** An observation the converger may pass to the store. *)
Record observation := MkObservation { o_left : LaneCandidate; o_right : LaneCandidate; o_span : VerifiedSpan }.

Record valid_observation (o : observation) (proposed : bytes) : Prop := {
  vo_distinct : lc_RepresentationID (o_left o) <> lc_RepresentationID (o_right o);
  vo_size : lc_Size (o_left o) = lc_Size (o_right o) /\ 0 < lc_Size (o_left o) <= maxInt64;
  vo_span : 0 <= s_Offset (o_span o) /\ 0 < s_Length (o_span o) /\
    s_Offset (o_span o) + s_Length (o_span o) <= lc_Size (o_left o);
  vo_proposed : proposed <> []
}.

(** Some observation of the two representations proved the byte [x] identical. *)
Definition verified_byte (history : list observation) (a b : bytes) (x : Z) : Prop :=
  exists o, o ∈ history /\
    ((lc_RepresentationID (o_left o) = a /\ lc_RepresentationID (o_right o) = b) \/
     (lc_RepresentationID (o_left o) = b /\ lc_RepresentationID (o_right o) = a)) /\
    s_Offset (o_span o) <= x < s_Offset (o_span o) + s_Length (o_span o).

(** Every byte of two objects of a size was proven identical. *)
Definition verified_whole (history : list observation) (size : Z) (a b : bytes) : Prop :=
  forall x, 0 <= x < size -> verified_byte history a b x.

Lemma verified_whole_sym history size a b : verified_whole history size a b -> verified_whole history size b a.
Proof. intros H x Hx. destruct (H x Hx) as (o & Ho & Hids & Hspan). exists o. naive_solver. Qed.

(** A group: its representations have routes of one size, and any two are joined
    by a chain of pairs verified over all of it. *)
Record groups_ok (linked : Z -> bytes -> bytes -> Prop) (maxRoutes : Z) (t : tables) : Prop := {
  go_alias : forall id c, aliases t !! id = Some c -> c <> [] /\ exists size rt,
    canonicals t !! c = Some size /\ routes t !! id = Some rt /\ r_canonical rt = c /\
    lc_RepresentationID (r_candidate rt) = id /\ lc_Size (r_candidate rt) = size;
  go_route : forall id rt, routes t !! id = Some rt -> aliases t !! id = Some (r_canonical rt);
  go_linked : forall a b c size, aliases t !! a = Some c -> aliases t !! b = Some c ->
    canonicals t !! c = Some size -> rtc (linked size) a b;
  go_limit : forall c, count_routes t [c] <= maxRoutes
}.

(** ** One convergence *)

(** The canonical ids of both sides become one. *)
Definition relabel (lc rc c : bytes) (d : bytes) : bytes := if decide (d = lc \/ d = rc) then c else d.
Definition relabel_route (lc rc c : bytes) (rt : route) : route :=
  MkRoute (relabel lc rc c (r_canonical rt)) (r_candidate rt) (r_verified_at rt).

(** The tables once both groups are one, before the two routes are attached. *)
Record joined (t t' : tables) (lc rc c : bytes) : Prop := {
  jn_alias : forall id, aliases t' !! id = relabel lc rc c <$> aliases t !! id;
  jn_route : forall id, routes t' !! id = relabel_route lc rc c <$> routes t !! id;
  jn_canonical : forall d, d <> c -> d <> lc -> d <> rc -> canonicals t' !! d = canonicals t !! d;
  jn_choice : c <> [] /\ (c = lc \/ c = rc \/ (lc = [] /\ rc = [] /\ canonicals t !! c = None));
  jn_pending : pending t' = pending t
}.

(** Every alias and route names a canonical id that is not empty. *)
Definition labelled (t : tables) : Prop :=
  (forall id d, aliases t !! id = Some d -> d <> []) /\
  (forall id rt, routes t !! id = Some rt -> r_canonical rt <> [] /\ aliases t !! id = Some (r_canonical rt)).

Lemma joined_same t t' lc rc c :
  labelled t -> aliases t' = aliases t -> routes t' = routes t -> pending t' = pending t ->
  (forall d, d <> c -> canonicals t' !! d = canonicals t !! d) ->
  (forall d, d <> [] -> d = lc \/ d = rc -> d = c) ->
  c <> [] /\ (c = lc \/ c = rc \/ (lc = [] /\ rc = [] /\ canonicals t !! c = None)) ->
  joined t t' lc rc c.
Proof.
  intros [Ha Hr] Ea Er Ep Hcan Hlab Hc.
  assert (Hid : forall d, d <> [] -> relabel lc rc c d = d).
  { intros d Hd. unfold relabel. destruct (decide _); [symmetry; by apply Hlab|done]. }
  split; [| |auto|done|done]; intros id; rewrite ?Ea, ?Er.
  - destruct (aliases t !! id) as [d|] eqn:E; [|done]. cbn. rewrite Hid; [done|by eapply Ha].
  - destruct (routes t !! id) as [rt|] eqn:E; [|done]. cbn. unfold relabel_route. rewrite Hid by (by eapply Hr).
    by destruct rt.
Qed.

Lemma choose_canonical_ok t lc rc proposed size t' c : proposed <> [] ->
  choose_canonical t lc rc proposed size = Ok (t', c) ->
  c <> [] /\ aliases t' = aliases t /\ routes t' = routes t /\ pending t' = pending t /\
  ((lc = [] /\ rc = [] /\ canonicals t !! c = None /\ canonicals t' = <[c := size]> (canonicals t)) \/
   (t' = t /\ ((lc <> [] /\ c = lc) \/ (lc = [] /\ rc <> [] /\ c = rc)))).
Proof.
  intros Hp H. unfold choose_canonical in H.
  destruct (decide (lc = [])) as [->|El].
  - rewrite (bool_decide_true ([] = [])) in H by done. destruct (decide (rc = [])) as [->|Er].
    + rewrite bool_decide_true in H by done. destruct (canonicals t !! proposed) eqn:Ec; [done|].
      injection H as <- <-. naive_solver.
    + rewrite bool_decide_false in H by done. injection H as <- <-. naive_solver.
  - rewrite (bool_decide_false (lc = [])) in H by done. rewrite bool_decide_false in H by done.
    injection H as <- <-. naive_solver.
Qed.

Lemma merge_groups_ok t lc rc maxRoutes t' c :
  labelled t -> lc <> [] -> rc <> [] -> lc <> rc ->
  merge_groups t lc rc maxRoutes = Ok (t', c) -> joined t t' lc rc c.
Proof.
  intros [Ha Hr] Hl Hrr Hne H. unfold merge_groups in H.
  assert (Hcase : exists winner loser, ((winner = lc /\ loser = rc) \/ (winner = rc /\ loser = lc)) /\
    c = winner /\ t' = delete_canonical (MkTables (pending t) (canonicals t) (move_alias winner loser <$> aliases t)
               (move_route winner loser <$> routes t)) loser).
  { destruct (str_ltb rc lc); destruct (_ <? _); try done; injection H as <- <-; do 2 eexists; (split; [|by split]); auto. }
  destruct Hcase as (winner & loser & Hwl & -> & ->).
  assert (Hwn : winner <> loser) by naive_solver.
  assert (Hmove : forall d, move_alias winner loser d = relabel lc rc winner d).
  { intros d. unfold move_alias, relabel. destruct (bool_decide (d = loser)) eqn:E; bool_hyps;
      destruct (decide (d = lc \/ d = rc)); naive_solver. }
  assert (Hlos : forall d, move_alias winner loser d <> loser).
  { intros d. unfold move_alias. destruct (bool_decide (d = loser)) eqn:E; by bool_hyps. }
  split; cbn [aliases routes canonicals pending delete_canonical].
  - intros id. rewrite map_lookup_filter, lookup_fmap. destruct (aliases t !! id) as [d|]; [|done]. cbn.
    rewrite option_guard_True by (cbn; apply Hlos). by rewrite Hmove.
  - intros id. rewrite map_lookup_filter, lookup_fmap. destruct (routes t !! id) as [rt|] eqn:E; [|done]. cbn.
    destruct (Hr _ _ E) as [_ Hal]. rewrite option_guard_True.
    + unfold move_route, relabel_route. by rewrite Hmove.
    + cbn. rewrite lookup_fmap, Hal. cbn. split; [apply Hlos|]. intros [= Heq]. by eapply Hlos.
  - intros d _ H1 H2. rewrite lookup_delete_ne; [done|]. naive_solver.
  - split; naive_solver.
  - done.
Qed.

Lemma attach_route_ok c at_ t cand t' : attach_route c at_ t cand = Ok t' ->
  canonicals t !! c = Some (lc_Size cand) /\
  (forall rt, routes t !! lc_RepresentationID cand = Some rt -> r_candidate rt = cand) /\
  t' = MkTables (pending t) (canonicals t) (<[lc_RepresentationID cand := c]> (aliases t))
         (<[lc_RepresentationID cand := MkRoute c cand at_]> (routes t)).
Proof.
  unfold attach_route, ensureCanonicalSize. intros H. apply rbind_ok in H as (u & Hs & H).
  destruct (canonicals t !! c) as [n|] eqn:Ec; [|done]. destruct (Z.eqb_spec n (lc_Size cand)) as [->|]; [|done].
  split; [done|]. unfold upsertRepresentationRoute in H. cbn [routes pending canonicals aliases] in H.
  destruct (routes t !! lc_RepresentationID cand) as [rt|] eqn:Er.
  - destruct (bool_decide (r_candidate rt = cand)) eqn:Eq; [|done]. bool_hyps. injection H as <-.
    split; [by intros ? [= <-]|]. by rewrite Eq.
  - injection H as <-. by split.
Qed.

(** What a convergence that commits does to the tables. *)
Record converged (t t' : tables) (l r : LaneCandidate) (c : bytes) (at_ maxRoutes : Z) : Prop := {
  cv_joined : exists t1, joined t t1 (aliasCanonical t (lc_RepresentationID l)) (aliasCanonical t (lc_RepresentationID r)) c /\
    t' = MkTables (pending t) (canonicals t1)
           (<[lc_RepresentationID r := c]> (<[lc_RepresentationID l := c]> (aliases t1)))
           (<[lc_RepresentationID r := MkRoute c r at_]> (<[lc_RepresentationID l := MkRoute c l at_]> (routes t1)));
  cv_size : canonicals t' !! c = Some (lc_Size l) /\ lc_Size l = lc_Size r;
  cv_known : forall rt cand, cand = l \/ cand = r -> routes t !! lc_RepresentationID cand = Some rt -> r_candidate rt = cand;
  cv_limit : count_routes t' [c] <= maxRoutes
}.

Lemma convergeGroups_ok t l r proposed at_ maxRoutes t' c :
  labelled t -> proposed <> [] -> lc_RepresentationID l <> lc_RepresentationID r ->
  convergeGroups t l r proposed at_ maxRoutes = Ok (t', c) -> converged t t' l r c at_ maxRoutes.
Proof.
  intros Ht Hp Hne H. unfold convergeGroups in H.
  set (lc := aliasCanonical t (lc_RepresentationID l)) in *. set (rc := aliasCanonical t (lc_RepresentationID r)) in *.
  apply rbind_ok in H as ([t1 c1] & H1 & H). apply choose_canonical_ok in H1 as (Hc1 & Ea & Er & Epd & Hch); [|done].
  apply rbind_ok in H as ([t2 c2] & H2 & H).
  assert (Hj : joined t t2 lc rc c2).
  { destruct (negb (bool_decide (lc = [])) && _ && _) eqn:E.
    - bool_hyps. destruct Hch as [(? & _)|(-> & _)]; [done|]. by eapply merge_groups_ok.
    - injection H2 as <- <-. apply joined_same; try done.
      + intros d Hd. destruct Hch as [(_ & _ & _ & ->)|(-> & _)]; [by rewrite lookup_insert_ne|done].
      + intros d Hd Hor. destruct Hch as [(-> & -> & _)|(_ & Hch)]; [naive_solver|].
        apply andb_false_iff in E as [E|E]; [apply andb_false_iff in E as [E|E]|]; bool_hyps; naive_solver.
      + split; [done|]. naive_solver. }
  cbn [rfold] in H. apply rbind_ok in H as (t5 & H3 & H).
  apply rbind_ok in H3 as (t3 & Hl & H3). apply rbind_ok in H3 as (t4 & Hr & [= <-]).
  apply attach_route_ok in Hl as (Hsl & Hkl & ->). apply attach_route_ok in Hr as (Hsr & Hkr & ->).
  cbn [pending canonicals aliases routes] in *. destruct (_ <? _) eqn:Elim; [done|]. injection H as <- <-. bool_hyps.
  split; [|split|intros rt cand Hor Hrt|done].
  - exists t2. split; [done|]. by rewrite (jn_pending _ _ _ _ _ Hj).
  - done.
  - rewrite Hsl in Hsr. by injection Hsr.
  - assert (Hrt2 : routes t2 !! lc_RepresentationID cand = Some (relabel_route lc rc c2 rt))
      by (by rewrite (jn_route _ _ _ _ _ Hj), Hrt).
    destruct Hor as [->| ->]; [by apply Hkl in Hrt2|].
    rewrite lookup_insert_ne in Hkr by done. by apply Hkr in Hrt2.
Qed.

(** *** The groups stay sound *)

Lemma groups_labelled linked n t : groups_ok linked n t -> labelled t.
Proof.
  intros Hg. split.
  - intros id d H. by apply (go_alias _ _ _ Hg) in H as [? _].
  - intros id rt H. pose proof (go_route _ _ _ Hg _ _ H) as Ha. split; [|done]. by apply (go_alias _ _ _ Hg) in Ha as [? _].
Qed.

Lemma groups_ok_mono linked linked' n t :
  (forall size a b, linked size a b -> linked' size a b) -> groups_ok linked n t -> groups_ok linked' n t.
Proof.
  intros Hl [Ha Hr Hk Hn]. split; try done. intros a b c size H1 H2 H3.
  eapply rtc_subrel; [|by eapply Hk]. intros ? ?. apply Hl.
Qed.

Lemma groups_ok_pending linked n t p : groups_ok linked n t -> groups_ok linked n (with_pending t p).
Proof. intros [Ha Hr Hk Hn]. by split. Qed.

(** The size of a side's group is the side's own. *)
Lemma known_size linked n t cand c size :
  groups_ok linked n t -> (forall rt, routes t !! lc_RepresentationID cand = Some rt -> r_candidate rt = cand) ->
  aliases t !! lc_RepresentationID cand = Some c -> canonicals t !! c = Some size -> size = lc_Size cand.
Proof.
  intros Hg Hk Ha Hc. destruct (go_alias _ _ _ Hg _ _ Ha) as (_ & size' & rt & Hc' & Hrt & _ & _ & Hs).
  rewrite Hc in Hc'. injection Hc' as <-. by rewrite <-Hs, (Hk _ Hrt).
Qed.

Lemma aliasCanonical_some t id c : c <> [] -> c = aliasCanonical t id <-> aliases t !! id = Some c.
Proof.
  intros Hc. unfold aliasCanonical. destruct (aliases t !! id) as [d|]; cbn; naive_solver.
Qed.

Section Converged.
Context (linked : Z -> bytes -> bytes -> Prop) `{forall size, Symmetric (linked size)}.
Context (n : Z) (t t' : tables) (l r : LaneCandidate) (c : bytes) (at_ : Z).
Context (Hg : groups_ok linked n t) (Hcv : converged t t' l r c at_ n).
Context (Hne : lc_RepresentationID l <> lc_RepresentationID r).
Context (Hlink : linked (lc_Size l) (lc_RepresentationID l) (lc_RepresentationID r)).

Let lc := aliasCanonical t (lc_RepresentationID l).
Let rc := aliasCanonical t (lc_RepresentationID r).

Lemma converged_alias id : aliases t' !! id =
  if decide (id = lc_RepresentationID l \/ id = lc_RepresentationID r) then Some c
  else relabel lc rc c <$> aliases t !! id.
Proof.
  destruct (cv_joined _ _ _ _ _ _ _ Hcv) as (t1 & Hj & ->). cbn [aliases].
  destruct (decide (id = lc_RepresentationID r)) as [->|Hr].
  { rewrite lookup_insert_eq, decide_True; auto. }
  rewrite lookup_insert_ne by done. destruct (decide (id = lc_RepresentationID l)) as [->|Hl].
  { rewrite lookup_insert_eq, decide_True; auto. }
  rewrite lookup_insert_ne, decide_False by naive_solver. apply (jn_alias _ _ _ _ _ Hj).
Qed.

Lemma converged_route id : routes t' !! id =
  if decide (id = lc_RepresentationID r) then Some (MkRoute c r at_)
  else if decide (id = lc_RepresentationID l) then Some (MkRoute c l at_)
  else relabel_route lc rc c <$> routes t !! id.
Proof.
  destruct (cv_joined _ _ _ _ _ _ _ Hcv) as (t1 & Hj & ->). cbn [routes].
  destruct (decide (id = lc_RepresentationID r)) as [->|Hr]; [by rewrite lookup_insert_eq|].
  rewrite lookup_insert_ne by done. destruct (decide (id = lc_RepresentationID l)) as [->|Hl]; [by rewrite lookup_insert_eq|].
  rewrite lookup_insert_ne by done. apply (jn_route _ _ _ _ _ Hj).
Qed.

Lemma converged_choice : c <> [] /\ (c = lc \/ c = rc \/ (lc = [] /\ rc = [] /\ canonicals t !! c = None)).
Proof. destruct (cv_joined _ _ _ _ _ _ _ Hcv) as (t1 & Hj & _). apply (jn_choice _ _ _ _ _ Hj). Qed.

Lemma converged_canonical d : d <> c -> d <> lc -> d <> rc -> canonicals t' !! d = canonicals t !! d.
Proof. destruct (cv_joined _ _ _ _ _ _ _ Hcv) as (t1 & Hj & ->). apply (jn_canonical _ _ _ _ _ Hj). Qed.

(** A representation that ends in the joined group was in the group of one of
    the two sides, and that group had the sides' size. *)
Lemma joined_member id d : aliases t !! id = Some d -> relabel lc rc c d = c ->
  (aliases t !! lc_RepresentationID l = Some d \/ aliases t !! lc_RepresentationID r = Some d) /\
  canonicals t !! d = Some (lc_Size l).
Proof.
  intros Ha Hd. destruct (go_alias _ _ _ Hg _ _ Ha) as (Hd0 & size & rt & Hcan & _).
  assert (Hor : d = lc \/ d = rc).
  { unfold relabel in Hd. destruct (decide (d = lc \/ d = rc)); [done|]. subst d.
    destruct converged_choice as [_ [?|[?|(_ & _ & Hnone)]]]; [auto|auto|by rewrite Hcan in Hnone]. }
  unfold lc, rc in Hor. rewrite !aliasCanonical_some in Hor by done. split; [done|].
  rewrite Hcan. f_equal. destruct Hor as [Hl|Hr].
  - apply (known_size linked n t l d); try done. intros rt'. apply (cv_known _ _ _ _ _ _ _ Hcv). auto.
  - destruct (cv_size _ _ _ _ _ _ _ Hcv) as [_ ->].
    apply (known_size linked n t r d); try done. intros rt'. apply (cv_known _ _ _ _ _ _ _ Hcv). auto.
Qed.

Lemma joined_linked id : aliases t' !! id = Some c -> rtc (linked (lc_Size l)) id (lc_RepresentationID l).
Proof.
  rewrite converged_alias. destruct (decide _) as [[->| ->]|]; intros Ha.
  - done.
  - apply rtc_once. by symmetry.
  - destruct (aliases t !! id) as [d|] eqn:E; [|done]. cbn in Ha. injection Ha as Ha.
    destruct (joined_member _ _ E Ha) as [[Hl|Hr] Hs].
    + by apply (go_linked _ _ _ Hg id _ d).
    + eapply rtc_r; [by apply (go_linked _ _ _ Hg id (lc_RepresentationID r) d)|]. by symmetry.
Qed.

(** Outside the joined group nothing changed. *)
Lemma other_member id d : d <> c -> aliases t' !! id = Some d ->
  aliases t !! id = Some d /\ canonicals t' !! d = canonicals t !! d /\
  id <> lc_RepresentationID l /\ id <> lc_RepresentationID r.
Proof.
  intros Hd. rewrite converged_alias. destruct (decide _) as [|Hn]; [naive_solver|].
  destruct (aliases t !! id) as [d0|] eqn:E; [|done]. cbn. unfold relabel. intros [= Hr].
  destruct (decide (d0 = lc \/ d0 = rc)) as [|Hn']; [naive_solver|]. subst d0.
  rewrite converged_canonical by naive_solver. naive_solver.
Qed.

Lemma converged_groups : groups_ok linked n t'.
Proof.
  destruct (cv_size _ _ _ _ _ _ _ Hcv) as [Hcs Hsz]. destruct converged_choice as [Hc0 _]. split.
  - intros id d Ha. destruct (decide (d = c)) as [->|Hd].
    + split; [done|]. exists (lc_Size l). rewrite converged_route.
      destruct (decide (id = lc_RepresentationID r)) as [->|Hir]; [by eexists|].
      destruct (decide (id = lc_RepresentationID l)) as [->|Hil]; [by eexists|].
      rewrite converged_alias, decide_False in Ha by naive_solver.
      destruct (aliases t !! id) as [d|] eqn:E; [|done]. cbn in Ha. injection Ha as Ha.
      destruct (joined_member _ _ E Ha) as [_ Hs].
      destruct (go_alias _ _ _ Hg _ _ E) as (_ & size & rt & Hcan & -> & Hrc & Hid & Hsize).
      rewrite Hs in Hcan. injection Hcan as <-. eexists. split; [done|]. split; [done|]. cbn. by rewrite Hrc.
    + destruct (other_member _ _ Hd Ha) as (E & -> & Hil & Hir).
      destruct (go_alias _ _ _ Hg _ _ E) as (? & size & rt & Hcan & Hrt & Hrc & Hid & Hsize).
      split; [done|]. exists size. rewrite converged_route, !decide_False, Hrt by done. eexists. split; [done|]. split; [done|].
      cbn. split; [|done]. rewrite Hrc. rewrite converged_alias, decide_False, E in Ha by naive_solver. by injection Ha.
  - intros id rt. rewrite converged_route, converged_alias.
    destruct (decide (id = lc_RepresentationID r)) as [->|]; [intros [= <-]; rewrite decide_True; auto|].
    destruct (decide (id = lc_RepresentationID l)) as [->|]; [intros [= <-]; rewrite decide_True; auto|].
    rewrite decide_False by naive_solver. destruct (routes t !! id) as [rt0|] eqn:E; [|done].
    intros [= <-]. by rewrite (go_route _ _ _ Hg _ _ E).
  - intros a b d size Ha Hb Hs. destruct (decide (d = c)) as [->|Hd].
    + rewrite Hcs in Hs. injection Hs as <-. etrans; [by apply joined_linked|]. symmetry. by apply joined_linked.
    + destruct (other_member _ _ Hd Ha) as (Ea & Ecan & _). destruct (other_member _ _ Hd Hb) as (Eb & _).
      rewrite Ecan in Hs. by apply (go_linked _ _ _ Hg a b d).
  - intros d. destruct (decide (d = c)) as [->|Hd]; [apply Hcv|].
    etrans; [|apply (go_limit _ _ _ Hg d)]. unfold count_routes. apply inj_le, map_subseteq_size, map_subseteq_spec.
    intros id rt. rewrite !map_lookup_filter_Some. cbn [snd]. rewrite list_elem_of_singleton. intros [Hrt Hrd].
    rewrite converged_route in Hrt.
    destruct (decide (id = lc_RepresentationID r)) as [->|]; [injection Hrt as <-; done|].
    destruct (decide (id = lc_RepresentationID l)) as [->|]; [injection Hrt as <-; done|].
    destruct (routes t !! id) as [rt0|] eqn:E; [|done]. cbn in Hrt. injection Hrt as <-. cbn in Hrd.
    unfold relabel in Hrd. unfold relabel_route, relabel. destruct (decide _); [done|]. by destruct rt0.
Qed.

End Converged.

(** ** Every observation keeps the tables sound *)

Record tables_ok (maxRoutes : Z) (t : tables) (history : list observation) : Prop := {
  to_groups : groups_ok (verified_whole history) maxRoutes t;
  to_pending : forall a b ss, pending t !! (a, b) = Some ss -> separated (-1) ss /\
    forall x, covered ss x -> verified_byte history a b x
}.

Lemma verified_byte_mono h h' a b x : (forall o, o ∈ h -> o ∈ h') -> verified_byte h a b x -> verified_byte h' a b x.
Proof. intros Hsub (o & Ho & H). exists o. split; [auto|done]. Qed.

Lemma separated_valid lo l : separated lo l -> Forall valid_span l.
Proof. revert lo. induction l as [|s l IH]; intros lo H; [constructor|]. destruct H as (_ & ? & ?). constructor; eauto. Qed.

(** The pair in the order the tables keep it. *)
Definition ordered (l r : LaneCandidate) : LaneCandidate * LaneCandidate :=
  if str_ltb (lc_RepresentationID r) (lc_RepresentationID l) then (r, l) else (l, r).

(** The spans pending for the pair once the observation is merged. *)
Definition merged_spans (t : tables) (l r : LaneCandidate) (span : VerifiedSpan) : list VerifiedSpan :=
  mergeVerifiedSpans (loadVerificationSpans t (lc_RepresentationID l) (lc_RepresentationID r) ++ [span]).

Lemma merged_spans_ok maxRoutes t h l r span :
  tables_ok maxRoutes t h -> valid_span span ->
  separated (-1) (merged_spans t l r span) /\
  forall x, covered (merged_spans t l r span) x <->
    covered (default [] (pending t !! (lc_RepresentationID l, lc_RepresentationID r))) x \/
    s_Offset span <= x < s_Offset span + s_Length span.
Proof.
  intros Ht Hs. unfold merged_spans, loadVerificationSpans. set (rows := default [] _).
  assert (Hrows : Forall valid_span rows).
  { unfold rows. destruct (pending t !! _) as [ss|] eqn:E; cbn; [|by constructor].
    apply (to_pending _ _ _ Ht) in E as [E _]. by eapply separated_valid. }
  destruct (merge_spans_spec (sort_by row_before rows ++ [span])) as [H1 H2].
  { apply Forall_app. split; [by rewrite sort_by_perm|]. by constructor. }
  split; [done|]. intros x. rewrite H2, covers_app, (covers_perm _ rows) by apply sort_by_perm.
  rewrite covers_cons, covers_nil. tauto.
Qed.

(** What a committed observation did: it extended the pending spans of the pair,
    or found them complete and joined the groups. *)
Inductive observe_result (t t' : tables) (l r : LaneCandidate) (span : VerifiedSpan) (at_ maxRoutes : Z)
    : bytes -> Prop :=
| observe_partial :
    merged_spans t l r span <> [MkSpan 0 (lc_Size l)] ->
    t' = with_pending t (<[(lc_RepresentationID l, lc_RepresentationID r) := merged_spans t l r span]> (pending t)) ->
    observe_result t t' l r span at_ maxRoutes []
| observe_complete t1 c :
    merged_spans t l r span = [MkSpan 0 (lc_Size l)] ->
    converged (with_pending t (<[(lc_RepresentationID l, lc_RepresentationID r) := merged_spans t l r span]> (pending t)))
      t1 l r c at_ maxRoutes ->
    t' = with_pending t1 (delete (lc_RepresentationID l, lc_RepresentationID r) (pending t1)) ->
    observe_result t t' l r span at_ maxRoutes c.

Lemma observe_ok t l r span proposed at_ maxRoutes maxSpans t' c :
  labelled t -> proposed <> [] -> lc_RepresentationID l <> lc_RepresentationID r ->
  observe t l r span proposed at_ maxRoutes maxSpans = Ok (t', c) ->
  observe_result t t' (ordered l r).1 (ordered l r).2 span at_ maxRoutes c.
Proof.
  intros Ht Hp Hne H. unfold observe in H. fold (ordered l r) in H.
  assert (Hne' : lc_RepresentationID (ordered l r).1 <> lc_RepresentationID (ordered l r).2)
    by (unfold ordered; destruct (str_ltb _ _); cbn; auto).
  destruct (ordered l r) as [a b]. cbn [fst snd] in *. fold (merged_spans t a b span) in H.
  destruct (_ && _); [done|]. destruct (_ <? _); [done|].
  destruct (bool_decide (merged_spans t a b span = [MkSpan 0 (lc_Size a)])) eqn:E; bool_hyps; cbn [negb] in H.
  - apply rbind_ok in H as ([t1 c1] & Hc & [= <- <-]). eapply observe_complete; [done| |done].
    by eapply convergeGroups_ok.
  - injection H as <- <-. by apply observe_partial.
Qed.

Lemma observe_tables maxRoutes t t' h l r span at_ c o :
  tables_ok maxRoutes t h -> observe_result t t' l r span at_ maxRoutes c ->
  lc_RepresentationID l <> lc_RepresentationID r -> valid_span span ->
  o_span o = span -> (o_left o = l /\ o_right o = r) \/ (o_left o = r /\ o_right o = l) ->
  tables_ok maxRoutes t' (o :: h).
Proof.
  intros Ht Hres Hne Hs Ho Hids. destruct (merged_spans_ok maxRoutes t h l r span Ht Hs) as [Hsep Hcov].
  assert (Hsub : forall a b x, verified_byte h a b x -> verified_byte (o :: h) a b x)
    by (intros a b x; apply verified_byte_mono; intros; by right).
  assert (Hpair : forall x, covered (merged_spans t l r span) x -> verified_byte (o :: h) (lc_RepresentationID l) (lc_RepresentationID r) x).
  { intros x Hx. apply Hcov in Hx as [Hx|Hx].
    - destruct (pending t !! _) as [ss|] eqn:E; [|by apply covers_nil in Hx].
      apply Hsub. by eapply (to_pending _ _ _ Ht).
    - exists o. split; [left|]. rewrite Ho. split; [|done]. destruct Hids as [[-> ->]|[-> ->]]; auto. }
  assert (Hg : groups_ok (verified_whole (o :: h)) maxRoutes t).
  { eapply groups_ok_mono; [|apply Ht]. intros size a b Hw x Hx. by apply Hsub, Hw. }
  destruct Hres as [Hpart ->|t1 c Hwhole Hcv ->].
  - split; [by apply groups_ok_pending|]. cbn [pending with_pending].
    intros a b ss [[[= <- <-] <-]|[_ E]]%lookup_insert_Some; [done|].
    destruct (to_pending _ _ _ Ht _ _ _ E) as [H1 H2]. split; [done|]. auto.
  - assert (Hlink : verified_whole (o :: h) (lc_Size l) (lc_RepresentationID l) (lc_RepresentationID r)).
    { intros x Hx. apply Hpair. rewrite Hwhole, covers_cons. left. done. }
    assert (Hpd : pending t1 = <[(lc_RepresentationID l, lc_RepresentationID r) := merged_spans t l r span]> (pending t)).
    { by destruct (cv_joined _ _ _ _ _ _ _ Hcv) as (t2 & _ & ->). }
    split.
    + assert (Hsym : forall size, Symmetric (verified_whole (o :: h) size)) by (intros size a b; apply verified_whole_sym).
      apply groups_ok_pending. by eapply converged_groups; [|by apply groups_ok_pending|exact Hcv|..].
    + cbn [pending with_pending]. rewrite Hpd, delete_insert_eq. intros a b ss [_ E]%lookup_delete_Some.
      destruct (to_pending _ _ _ Ht _ _ _ E) as [H1 H2]. split; [done|]. auto.
Qed.

(** ** Any history of observations *)

Section History.
Context (sha256 : bytes -> bytes) `{Context tables, Clock tables}.

(** The context and the clock leave the tables alone. *)
Context (ctx_reads : forall t, (ctx_Err t).1 = t) (clock_reads : forall t, (time_Now t).1 = t).

(** The tables and the accepted observations after any calls, failed ones
    included; sizes and spans are 64-bit integers. *)
Inductive recorded : tables -> list observation -> Prop :=
| recorded_nil : recorded empty_tables []
| recorded_call t h l r span d t' res :
    recorded t h -> lc_Size l <= maxInt64 -> is_i64 (s_Length span) ->
    ObserveVerified sha256 l r span d t = (t', res) ->
    recorded t' (match res with Ok _ => MkObservation l r span :: h | Err _ => h end).

Lemma ctx_same t t' e : ctx_Err t = (t', e) -> t' = t.
Proof. intros E. pose proof (ctx_reads t) as H1. by rewrite E in H1. Qed.

Lemma clock_same t t' e : time_Now t = (t', e) -> t' = t.
Proof. intros E. pose proof (clock_reads t) as H1. by rewrite E in H1. Qed.

Lemma canonicalID_nonempty a b : canonicalID sha256 a b <> [].
Proof. done. Qed.

(** A call reaches the tables only with candidates that differ and agree on size,
    and with a span of them, proven. *)
Lemma ObserveVerified_calls l r span d t t' res :
  lc_Size l <= maxInt64 -> is_i64 (s_Length span) ->
  ObserveVerified sha256 l r span d t = (t', res) ->
  (t' = t /\ exists err, res = Err err) \/
  (d_Relation d = RelationProven /\ d_Offset d = s_Offset span /\ d_Length d = s_Length span /\
   lc_RepresentationID l <> lc_RepresentationID r /\ lc_Size l = lc_Size r /\
   valid_span span /\ s_Offset span + s_Length span <= lc_Size l /\
   exists now c, res = Ok c /\
     observe t l r span (canonicalID sha256 (lc_RepresentationID l) (lc_RepresentationID r)) now
       DefaultMaxRoutesPerRepresentation DefaultMaxPendingSpansPerPair = Ok (t', c)).
Proof.
  intros Hsz Hlen E. unfold ObserveVerified in E. calls E;
    try (by left; split; [by eapply ctx_same|eexists]).
  apply ctx_same in Hc as ->. apply clock_same in Hc0 as ->. bool_hyps.
  cbn in E. unfold StoreObserve in E. destruct (observe _ _ _ _ _ _ _ _) as [[t1 c]|err] eqn:Eo.
  - injection E as <- <-. right. rewrite i64_small in * by (unfold is_i64, minInt64, maxInt64 in *; lia).
    do 5 (split; [done || lia|]). split; [unfold valid_span; lia|]. split; [lia|]. by do 2 eexists.
  - injection E as <- <-. left. eauto.
Qed.

Lemma recorded_ok t h : recorded t h -> tables_ok DefaultMaxRoutesPerRepresentation t h.
Proof.
  induction 1 as [|t h l r span d t' res _ IH Hsz Hlen E].
  { split; [split|]; cbn [aliases routes pending empty_tables]; try (intros *; rewrite lookup_empty; done).
    intros c. unfold count_routes. cbn [routes empty_tables].
    rewrite map_filter_empty, map_size_empty. done. }
  apply ObserveVerified_calls in E as [[-> [err ->]]|(_ & _ & _ & Hne & Hsize & Hv & _ & now & c & -> & E)]; [done| |done|done].
  apply observe_ok in E; [|by eapply groups_labelled, IH|apply canonicalID_nonempty|done].
  eapply observe_tables; [exact IH|exact E| |done|done|].
  - unfold ordered. destruct (str_ltb _ _); cbn; auto.
  - unfold ordered. destruct (str_ltb _ _); cbn; auto.
Qed.

Lemma group_size maxRoutes t h c : tables_ok maxRoutes t h ->
  Z.of_nat (size (filter (fun row : bytes * bytes => row.2 = c) (aliases t))) <= maxRoutes.
Proof.
  intros Ht. etrans; [|apply (go_limit _ _ _ (to_groups _ _ _ Ht) c)]. unfold count_routes. apply inj_le.
  rewrite <-!size_dom. apply subseteq_size. intros id. rewrite !elem_of_dom.
  intros [d [Ha Hd]%map_lookup_filter_Some]. cbn in Hd. subst d.
  destruct (go_alias _ _ _ (to_groups _ _ _ Ht) _ _ Ha) as (_ & n & rt & _ & Hrt & Hc & _).
  exists rt. apply map_lookup_filter_Some. split; [done|]. cbn. rewrite Hc. left.
Qed.

(** A list of aliases is empty or mentions the representation asked for. *)
Lemma StoreAliases_self id n t t' ids size : StoreAliases id n t = (t', Ok (ids, size)) -> ids = [] \/ id ∈ ids.
Proof.
  unfold StoreAliases. intros E. assert (Hr : forall (a b : tables * result goerror (list bytes * Z)), a = b -> a.2 = b.2) by (by intros ? ? ->).
  apply Hr in E. cbv zeta in E. cbn [snd] in E. destruct (n <? 1) eqn:En; [injection E as <- _; by left|].
  destruct (aliases t !! id) as [c|] eqn:Ea; [|injection E as <- _; by left].
  destruct (canonicals t !! c); [|injection E as <- _; by left].
  match type of E with (if ?b then _ else _) = _ => destruct b eqn:El; [discriminate E|] end. injection E as <- _. right. bool_hyps.
  rewrite length_take in El. rewrite take_ge by lia. rewrite sort_by_perm. apply list_elem_of_fmap.
  exists (id, c). split; [done|]. by apply elem_of_map_to_list, map_lookup_filter_Some.
Qed.

Lemma StoreAliases_group maxRoutes t h id c :
  tables_ok maxRoutes t h -> 0 < maxRoutes -> aliases t !! id = Some c ->
  exists ids n, StoreAliases id maxRoutes t = (t, Ok (ids, n)) /\ canonicals t !! c = Some n /\
    forall a, a ∈ ids <-> aliases t !! a = Some c.
Proof.
  intros Ht Hpos Ha. destruct (go_alias _ _ _ (to_groups _ _ _ Ht) _ _ Ha) as (_ & n & rt & Hn & _).
  pose proof (group_size maxRoutes t h c Ht) as Hsize.
  unfold StoreAliases. destruct (Z.ltb_spec maxRoutes 1); [lia|]. rewrite Ha, Hn.
  set (rows := map fst (map_to_list (filter (fun row : bytes * bytes => row.2 = c) (aliases t)))).
  assert (Hlen : Z.of_nat (length (sort_by str_ltb rows)) <= maxRoutes).
  { rewrite sort_by_perm. unfold rows. rewrite length_map, length_map_to_list. exact Hsize. }
  rewrite take_ge by lia. destruct (Z.ltb_spec maxRoutes (Z.of_nat (length (sort_by str_ltb rows)))); [lia|].
  do 2 eexists. split; [done|]. split; [done|]. intros a. rewrite sort_by_perm. unfold rows.
  rewrite list_elem_of_fmap. split.
  - intros ([a' d] & -> & Hin%elem_of_map_to_list). apply map_lookup_filter_Some in Hin as [Hin Hd]. cbn in Hd. by subst d.
  - intros Hal. exists (a, c). split; [done|]. apply elem_of_map_to_list, map_lookup_filter_Some. done.
Qed.


(** Observations accumulate and converge exactly when they are complete.  A
    call that succeeds was given a proof of exactly its span, inside both objects;
    it answers no canonical id exactly when some byte of the object is not yet
    covered by the pair's pending spans and this one, which then become pending;
    otherwise both representations are in the group it answers.  A call that fails
    changes nothing. *)
Theorem observation_converges t h l r span d t' res :
  recorded t h -> lc_Size l <= maxInt64 -> is_i64 (s_Length span) ->
  ObserveVerified sha256 l r span d t = (t', res) ->
  let pair := (lc_RepresentationID (ordered l r).1, lc_RepresentationID (ordered l r).2) in
  let known x := covered (default [] (pending t !! pair)) x \/ s_Offset span <= x < s_Offset span + s_Length span in
  match res with
  | Err _ => t' = t
  | Ok c =>
      d_Relation d = RelationProven /\ d_Offset d = s_Offset span /\ d_Length d = s_Length span /\
      0 <= s_Offset span /\ 0 < s_Length span /\ s_Offset span + s_Length span <= lc_Size l /\ lc_Size l = lc_Size r /\
      (c = [] <-> ~ forall x, known x <-> 0 <= x < lc_Size l) /\
      (c = [] -> aliases t' = aliases t /\ forall x, covered (default [] (pending t' !! pair)) x <-> known x) /\
      (c <> [] -> aliases t' !! lc_RepresentationID l = Some c /\ aliases t' !! lc_RepresentationID r = Some c)
  end.
Proof.
  intros Hr Hsz Hlen E pair known. pose proof (recorded_ok _ _ Hr) as Ht.
  apply ObserveVerified_calls in E as [[-> [err ->]]|(H1 & H2 & H3 & Hne & Hsize & Hv & Hin & now & c & -> & E)]; [done| |done|done].
  apply observe_ok in E; [|by eapply groups_labelled, Ht|apply canonicalID_nonempty|done].
  destruct (merged_spans_ok _ _ _ (ordered l r).1 (ordered l r).2 _ Ht Hv) as [Hsep Hcov].
  assert (Hs1 : lc_Size (ordered l r).1 = lc_Size l) by (unfold ordered; destruct (str_ltb _ _); cbn; auto).
  destruct Hv as (Hv1 & Hv2 & Hv3).
  assert (Hwhole : merged_spans t (ordered l r).1 (ordered l r).2 span = [MkSpan 0 (lc_Size (ordered l r).1)] <->
    forall x, known x <-> 0 <= x < lc_Size l).
  { rewrite Hs1, separated_whole by (done || lia). by setoid_rewrite Hcov. }
  do 7 (split; [done|]). inversion E as [Hpart Et Ec|t1 c' Hcomp Hcv Et Ec]; subst.
  - split; [rewrite <-Hwhole; naive_solver|]. split; [|done]. intros _. split; [done|]. intros x.
    cbn [pending with_pending]. unfold pair. rewrite lookup_insert_eq. apply Hcov.
  - assert (Hc : c <> []) by by apply (converged_choice _ _ _ _ _ _ _ Hcv).
    split; [rewrite <-Hwhole; naive_solver|]. split; [done|]. intros _. cbn [aliases with_pending].
    rewrite !(converged_alias _ _ _ _ _ _ _ Hcv).
    split; rewrite decide_True; auto; unfold ordered; destruct (str_ltb _ _); cbn; auto.
Qed.

End History.

(** Two candidates of 10 bytes, proven identical in two steps. *)
Module Demo.

#[export] Instance context : Context tables := {| ctx_Err := fun t => (t, None) |}.
#[export] Instance clock : Clock tables := {| time_Now := fun t => (t, 1) |}.

Definition cand (id : bytes) : LaneCandidate :=
  MkLaneCandidate LaneNNTP (str "item") (str "file") id (hex_encode (repeat 7 32)) 10.
Definition call (span : VerifiedSpan) (t : tables) : tables * result goerror bytes :=
  ObserveVerified (fun b => b) (cand (str "b")) (cand (str "a")) span
    (MkDecision RelationProven (s_Offset span) (s_Length span) no_provenance no_provenance) t.
Definition half : tables := (call (MkSpan 0 6) empty_tables).1.
Definition whole : tables := (call (MkSpan 4 6) half).1.
Definition group : bytes := default [] (aliases whole !! str "a").

End Demo.

Import Demo.

Lemma demo_recorded : exists h, recorded (fun b => b) whole h /\
  h = [MkObservation (cand (str "b")) (cand (str "a")) (MkSpan 4 6); MkObservation (cand (str "b")) (cand (str "a")) (MkSpan 0 6)].
Proof.
  eexists. split.
  - eapply recorded_call; [eapply recorded_call; [constructor| | |apply surjective_pairing]| | |apply surjective_pairing];
      unfold is_i64, minInt64, maxInt64; cbn; lia.
  - vm_compute. reflexivity.
Qed.

Lemma demo_context : forall t : tables, (ctx_Err t).1 = t.
Proof. reflexivity. Qed.

Lemma demo_clock : forall t : tables, (time_Now t).1 = t.
Proof. reflexivity. Qed.


Lemma observation_converges_witness :
  (call (MkSpan 0 6) empty_tables).2 = Ok [] /\
  exists c, (call (MkSpan 4 6) half).2 = Ok c /\ c <> [] /\ aliases whole !! str "a" = Some c.
Proof.
  split; [vm_compute; reflexivity|].
  assert (Hr : exists h, recorded (fun b => b) half h).
  { eexists. eapply recorded_call; [constructor| | |apply surjective_pairing];
      unfold is_i64, minInt64, maxInt64; cbn; lia. }
  destruct Hr as [h Hr].
  pose proof (observation_converges (fun b => b) demo_context demo_clock
    half h (cand (str "b")) (cand (str "a")) (MkSpan 4 6) _ whole (call (MkSpan 4 6) half).2 Hr
    ltac:(unfold maxInt64; cbn; lia) ltac:(unfold is_i64, minInt64, maxInt64; cbn; lia) (surjective_pairing _)) as Hc.
  destruct ((call (MkSpan 4 6) half).2) as [c|err] eqn:E; [|vm_compute in E; discriminate E].
  exists c. split; [reflexivity|]. assert (Hn : c <> []) by (intros ->; vm_compute in E; discriminate E).
  split; [exact Hn|]. destruct Hc as (_ & _ & _ & _ & _ & _ & _ & _ & _ & Hc). apply Hc. exact Hn.
Defined.
