(* ===== verification/Tables.v ===== *)
(** Tables bounded per representation.

    Several tables of internal/store keep, after every insert, only the newest
    rows of a representation: DELETE FROM t WHERE representation_id=? AND id NOT IN
    (SELECT id FROM t WHERE representation_id=? ORDER BY observed_at DESC, id DESC
    LIMIT ?).  A row is any type with an id, a representation and an instant. *)

From Stdlib Require Import ZArith Lia Sorting.Sorted.
From stdpp Require Import base list numbers sets.
From S2P Require Import Prelude.

Local Open Scope Z_scope.

Section Rows.
Context {A : Type} (id : A -> Z) (rep_of : A -> bytes) (at_ : A -> Z).

(** ORDER BY observed_at DESC, id DESC: the row nearer the front. *)
Definition newer (a b : A) : bool :=
  time_text_ltb (at_ b) (at_ a) || (negb (time_text_ltb (at_ a) (at_ b)) && (id b <? id a)).

(** ORDER BY observed_at, id. *)
Definition older (a b : A) : bool :=
  time_text_ltb (at_ a) (at_ b) || (negb (time_text_ltb (at_ b) (at_ a)) && (id a <? id b)).

(** The ids the subquery keeps; a negative LIMIT is no limit. *)
Definition newest_ids (rs : list A) (rep : bytes) (limit : Z) : list Z :=
  let own := sort_by newer (filter (fun r => rep_of r = rep) rs) in
  map id (if limit <? 0 then own else take (Z.to_nat limit) own).

Definition keep_newest (rs : list A) (rep : bytes) (limit : Z) : list A :=
  filter (fun r => ~ (rep_of r = rep /\ id r ∉ newest_ids rs rep limit)) rs.

#[export] Instance older_weak : StrictWeak older.
Proof. apply two_column_weak, (weak_map at_), time_text_weak. Qed.

#[export] Instance newer_weak : StrictWeak newer.
Proof. apply weak_flip, older_weak. Qed.

Definition newest (rs : list A) (rep : bytes) (limit : Z) : list A :=
  take (Z.to_nat limit) (sort_by newer (filter (fun r => rep_of r = rep) rs)).

Lemma keep_newest_perm rs rep limit : 0 <= limit -> NoDup (map id rs) ->
  filter (fun r => rep_of r = rep) (keep_newest rs rep limit) ≡ₚ newest rs rep limit.
Proof.
  intros Hl Hn.
  assert (Hnd : NoDup rs) by by eapply NoDup_fmap_1.
  assert (Hown : forall r, r ∈ newest rs rep limit -> rep_of r = rep /\ r ∈ rs).
  { intros r Hr. apply elem_of_take_in in Hr. rewrite sort_by_perm in Hr. by apply list_elem_of_filter in Hr. }
  assert (Hkn : NoDup (newest rs rep limit)).
  { unfold newest. apply NoDup_take. rewrite sort_by_perm. by apply NoDup_filter. }
  assert (Hids : newest_ids rs rep limit = map id (newest rs rep limit)).
  { unfold newest_ids. destruct (Z.ltb_spec limit 0); [lia|done]. }
  apply NoDup_Permutation; [by apply NoDup_filter, NoDup_filter|done|]. intros r.
  unfold keep_newest. rewrite !list_elem_of_filter, Hids. split.
  - intros (Hrep & Hk & Hin).
    destruct (decide (id r ∈ map id (newest rs rep limit))) as [Hi|Hi]; [|by destruct Hk].
    apply list_elem_of_fmap in Hi as (k & E & Hk'). destruct (Hown k Hk') as [_ Hkin].
    by rewrite (NoDup_map_inj id rs r k).
  - intros Hr. destruct (Hown r Hr) as [Hrep Hin]. split_and!; [done| |done]. intros [_ Hno]. apply Hno.
    by apply list_elem_of_fmap_2.
Qed.

Lemma keep_newest_spec rs rep limit : 0 <= limit -> NoDup (map id rs) ->
  keep_newest rs rep limit ⊆ rs /\
  (forall r, r ∈ rs -> rep_of r <> rep -> r ∈ keep_newest rs rep limit) /\
  Z.of_nat (length (filter (fun r => rep_of r = rep) (keep_newest rs rep limit))) <= limit /\
  (forall r, r ∈ rs -> rep_of r = rep -> r ∈ keep_newest rs rep limit \/
     (Z.of_nat (length (filter (fun r => rep_of r = rep) (keep_newest rs rep limit))) = limit /\
      forall k, k ∈ keep_newest rs rep limit -> rep_of k = rep -> newer r k = false)).
Proof.
  intros Hl Hn. pose proof (keep_newest_perm rs rep limit Hl Hn) as Hp.
  assert (Hlen : length (newest rs rep limit) = Nat.min (Z.to_nat limit) (length (filter (fun r => rep_of r = rep) rs)))
    by (unfold newest; by rewrite length_take, sort_by_perm).
  split_and!.
  - intros r Hr. by apply list_elem_of_filter in Hr as [_ Hr].
  - intros r Hr Hrep. apply list_elem_of_filter. split; [naive_solver|done].
  - rewrite Hp, Hlen. lia.
  - intros r Hr Hrep. set (own := sort_by newer (filter (fun r => rep_of r = rep) rs)).
    assert (Hin : r ∈ own) by (unfold own; rewrite sort_by_perm; by apply list_elem_of_filter).
    rewrite <-(take_drop (Z.to_nat limit) own) in Hin. apply elem_of_app in Hin as [Hin|Hin].
    { left. change (r ∈ newest rs rep limit) in Hin. rewrite <-Hp in Hin. by apply list_elem_of_filter in Hin as [_ Hin]. }
    right. split.
    + rewrite Hp, Hlen. assert (0 < length (drop (Z.to_nat limit) own))%nat by (destruct (drop _ _); [by apply not_elem_of_nil in Hin|cbn; lia]).
      rewrite length_drop in *. unfold own in *. rewrite sort_by_perm in *. lia.
    + intros k Hk Hkrep. assert (Hk' : k ∈ take (Z.to_nat limit) own)
        by (change (k ∈ newest rs rep limit); rewrite <-Hp; by apply list_elem_of_filter).
      pose proof (sort_by_sorted newer (filter (fun r => rep_of r = rep) rs)) as Hs. fold own in Hs.
      rewrite <-(take_drop (Z.to_nat limit) own) in Hs.
      by apply (strongly_sorted_app _ _ _ k r Hs).
Qed.

End Rows.
