(* ===== verification/ProofStore.v ===== *)
(** The proof table of internal/store/content_proofs.go, as the repository of the
    content proof graph.

    A row is an evidence with its row id and a proof that the table's CHECK
    constraints hold of it.  Instants are compared as the RFC3339Nano texts the
    table holds. *)

From Stdlib Require Import ZArith Lia Sorting.Sorted.
From stdpp Require Import base list numbers strings sets gmap.
From S2P Require Import Prelude Outcome ContentProof LaneCandidate Convergence Tables.

Local Open Scope Z_scope.
Local Open Scope harbor_scope.

(** ** The table *)

(** The CHECK constraints; the integer columns hold 64 bits. *)
Definition row_check (e : Evidence) : bool :=
  is_scope (e_Scope e) && (0 <=? e_Offset e) && (e_Offset e <=? maxInt64) &&
  (0 <? e_Length e) && (e_Length e <=? maxInt64) &&
  match e_Kind e with KindOther _ => false | _ => true end &&
  (1 <=? Z.of_nat (length (Digest e))) && (Z.of_nat (length (Digest e)) <=? 64).

Record proof_row := MkRow { row_id : Z; row_evidence : Evidence; row_checked : row_check row_evidence = true }.

Record proof_table := MkTable { rows : list proof_row; next_id : Z }.

(** The columns of the UNIQUE constraint. *)
Definition key_of (e : Evidence) : Key :=
  MkKey (RepresentationID e) (e_Scope e) (e_Offset e) (e_Length e) (e_Kind e) (e_Algorithm e)
    (e_Provenance e) (OriginID e).

Definition row_key (r : proof_row) : Key := key_of (row_evidence r).
Definition row_rep (r : proof_row) : bytes := RepresentationID (row_evidence r).

(** DO UPDATE SET digest, expires_at, observed_at. *)
Definition updated (old e : Evidence) : Evidence :=
  MkEvidence (RepresentationID old) (e_Scope old) (e_Offset old) (e_Length old) (e_Kind old) (e_Algorithm old)
    (Digest e) (e_Provenance old) (OriginID old) (ExpiresAt e) (ObservedAt e).

Definition constraint_failed : goerror := errors_New (str "upsert content proof").

(** INSERT ... ON CONFLICT DO UPDATE. *)
Fixpoint upsert_row (rs : list proof_row) (id : Z) (e : Evidence) (checked : row_check e = true)
    : result goerror (list proof_row) :=
  match rs with
  | [] => Ok [MkRow id e checked]
  | r :: rs =>
      if bool_decide (row_key r = key_of e) then
        match decide (row_check (updated (row_evidence r) e) = true) with
        | left ok => Ok (MkRow (row_id r) (updated (row_evidence r) e) ok :: rs)
        | right _ => Err constraint_failed
        end
      else let? rs := upsert_row rs id e checked in Ok (r :: rs)
  end.

(** The order of the query that lists, and that of the DELETE. *)
Definition staler : proof_row -> proof_row -> bool := older row_id (fun r => ObservedAt (row_evidence r)).

Definition fresher : proof_row -> proof_row -> bool := newer row_id (fun r => ObservedAt (row_evidence r)).

Definition bound_rows (rs : list proof_row) (rep : bytes) (limit : Z) : list proof_row :=
  keep_newest row_id row_rep (fun r => ObservedAt (row_evidence r)) rs rep limit.

Definition has_key (rs : list proof_row) (k : Key) : bool := existsb (fun r => bool_decide (row_key r = k)) rs.

Definition UpsertProof (e : Evidence) (maxPerRepresentation : Z) (t : proof_table) : proof_table * option goerror :=
  match decide (row_check e = true) with
  | right _ => (t, Some constraint_failed)
  | left checked =>
      match upsert_row (rows t) (next_id t) e checked with
      | Err err => (t, Some err)
      | Ok rs =>
          let next := if has_key (rows t) (key_of e) then next_id t else next_id t + 1 in
          (MkTable (bound_rows rs (RepresentationID e) maxPerRepresentation) next, None)
      end
  end.

(** ** Reads *)

(** expires_at IS NULL OR expires_at > now. *)
Definition unexpired (now : Z) (e : Evidence) : bool :=
  match ExpiresAt e with None => true | Some t => time_text_ltb now t end.

Definition in_window (offset len : Z) (intersect : bool) (e : Evidence) : bool :=
  let fin := i64 (offset + len) in
  bool_decide (e_Kind e = KindAuthoritative) && (0 <? e_Length e) &&
  (if intersect then (e_Offset e <? fin) && (offset - e_Offset e <? e_Length e)
   else (offset <=? e_Offset e) && (e_Offset e <=? fin) && (e_Length e <=? fin - e_Offset e)).

Definition listContentProofs (t : proof_table) (representationIDs : list bytes) (now offset len limit : Z)
    (intersect : bool) : result goerror (list Evidence) :=
  if bool_decide (representationIDs = []) then Ok []
  else
    let selected := filter (fun r => row_rep r ∈ representationIDs /\ unexpired now (row_evidence r) = true /\
      (0 < limit -> in_window offset len intersect (row_evidence r) = true)) (rows t) in
    let ordered := sort_by staler selected in
    let result := map row_evidence (if 0 <? limit then take (Z.to_nat (limit + 1)) ordered else ordered) in
    if (0 <? limit) && (limit <? Z.of_nat (length result))
    then Err (errors_New (str "store: content proof window limit exceeded"))
    else Ok result.

Definition ListProofs (representationIDs : list bytes) (now : Z) (t : proof_table) : result goerror (list Evidence) :=
  listContentProofs t representationIDs now 0 0 0 false.

Definition window_ok (offset len limit : Z) : bool :=
  negb ((offset <? 0) || (len <=? 0) || (i64 (maxInt64 - len) <? offset) || (limit <=? 0)).

Definition ListContentProofsForWindow (t : proof_table) (representationIDs : list bytes) (now offset len limit : Z)
    : result goerror (list Evidence) :=
  if negb (window_ok offset len limit) then Err (errors_New (str "store: invalid content proof window"))
  else listContentProofs t representationIDs now offset len limit false.

Definition ListContentProofsIntersectingWindow (t : proof_table) (representationIDs : list bytes)
    (now offset len limit : Z) : result goerror (list Evidence) :=
  if negb (window_ok offset len limit) then Err (errors_New (str "store: invalid content proof window"))
  else listContentProofs t representationIDs now offset len limit true.

Definition DeleteProof (key : Key) (t : proof_table) : proof_table :=
  MkTable (filter (fun r => row_key r <> key) (rows t)) (next_id t).

(** ** The store as the graph's repository *)

Record Store := MkStore { proofs : proof_table; convergence : tables }.

Definition empty_store : Store := MkStore (MkTable [] 1) empty_tables.

(** The size is scanned into an int64. *)
Definition list_aliases (id : bytes) (limit : Z) (s : Store) : Store * result goerror (list bytes * Z) :=
  (s, match (StoreAliases id limit (convergence s)).2 with
      | Ok (ids, size) => Ok (ids, i64 size)
      | Err err => Err err
      end).

#[export] Instance store_repository : Repository Store := {|
  UpsertContentProof := fun e n s => let (t, err) := UpsertProof e n (proofs s) in (MkStore t (convergence s), err);
  ListContentProofs := fun ids now s => (s, ListProofs ids now (proofs s));
  DeleteContentProof := fun key s => (MkStore (DeleteProof key (proofs s)) (convergence s), None);
  ListRepresentationAliases := Some list_aliases
|}.

(** ** The table's invariant *)

(** Keys and row ids are unique, and no representation has more rows than the
    limit. *)
Record table_ok (limit : Z) (t : proof_table) : Prop := {
  tb_keys : NoDup (map row_key (rows t));
  tb_ids : NoDup (map row_id (rows t));
  tb_next : Forall (fun r => row_id r < next_id t) (rows t);
  tb_limit : forall rep, Z.of_nat (length (filter (fun r => row_rep r = rep) (rows t))) <= limit
}.

Lemma updated_eq old e : key_of old = key_of e -> updated old e = e.
Proof. destruct old, e. unfold key_of, updated. cbn. by intros [= -> -> -> -> -> -> -> ->]. Qed.

(** An upsert never fails on a row that satisfies the constraints; it replaces
    the row of the key, or adds one. *)
Inductive upserted (rs : list proof_row) (id : Z) (e : Evidence) : list proof_row -> Prop :=
| upserted_new r : ~ key_of e ∈ map row_key rs -> row_id r = id -> row_evidence r = e ->
    upserted rs id e (rs ++ [r])
| upserted_old front r r' back : rs = front ++ r :: back -> row_key r = key_of e -> row_id r' = row_id r ->
    row_evidence r' = e -> upserted rs id e (front ++ r' :: back).

Lemma upsert_row_ok rs id e checked : exists rs', upsert_row rs id e checked = Ok rs' /\ upserted rs id e rs'.
Proof.
  induction rs as [|r rs (rs' & IH & Hu)]; cbn [upsert_row].
  { eexists. split; [done|]. apply (upserted_new []); [|done|done]. by apply not_elem_of_nil. }
  destruct (bool_decide (row_key r = key_of e)) eqn:E; bool_hyps.
  - destruct (decide _) as [ok|Hno].
    + eexists. split; [done|]. by apply (upserted_old (r :: rs) id e [] r (MkRow (row_id r) _ ok)); [| | |apply updated_eq].
    + destruct Hno. by rewrite (updated_eq (row_evidence r) e E).
  - rewrite IH. cbn. eexists. split; [done|]. destruct Hu as [r' Hn Hi He|front r0 r' back -> Hk Hi He].
    + apply (upserted_new (r :: rs)); [|done|done]. cbn. rewrite list.elem_of_cons. naive_solver.
    + by apply (upserted_old _ id e (r :: front) r0 r' back).
Qed.

(** The rows after an upsert: one holds [e], the others are those of other keys. *)
Lemma upserted_spec rs id e rs' : upserted rs id e rs' -> NoDup (map row_key rs) -> NoDup (map row_id rs) ->
  Forall (fun r => row_id r < id) rs ->
  NoDup (map row_key rs') /\ NoDup (map row_id rs') /\
  (forall r, r ∈ rs' -> row_id r < id \/ (row_id r = id /\ key_of e ∉ map row_key rs)) /\
  (exists r, r ∈ rs' /\ row_evidence r = e) /\
  (forall r, r ∈ rs' -> row_evidence r = e \/ r ∈ rs) /\
  (forall r, r ∈ rs -> row_key r <> key_of e -> r ∈ rs').
Proof.
  intros Hu Hk Hi Hn. rewrite list.Forall_forall in Hn.
  destruct Hu as [r Hnew Hid He|front r r' back -> Hkey Hid He].
  - rewrite !map_app. cbn [map]. split_and!.
    + apply NoDup_app. split_and!; [done| |apply NoDup_singleton].
      intros k Hin Hk'%list_elem_of_singleton. subst k. apply Hnew. by rewrite <-He.
    + apply NoDup_app. split_and!; [done| |apply NoDup_singleton].
      intros i (x & -> & Hx)%list_elem_of_fmap Hi'%list_elem_of_singleton.
      specialize (Hn x Hx). lia.
    + intros x [Hx|Hx%list_elem_of_singleton]%elem_of_app; [by left; apply Hn|]. subst x. by right.
    + exists r. split; [apply elem_of_app; right; left|done].
    + intros x [Hx|Hx%list_elem_of_singleton]%elem_of_app; [auto|subst; auto].
    + intros x Hx _. apply elem_of_app. by left.
  - assert (Hkeys : map row_key (front ++ r' :: back) = map row_key (front ++ r :: back)).
    { rewrite !map_app. cbn. unfold row_key at 2. by rewrite He, <-Hkey. }
    assert (Hids : map row_id (front ++ r' :: back) = map row_id (front ++ r :: back)).
    { rewrite !map_app. cbn. by rewrite Hid. }
    split_and!; [by rewrite Hkeys|by rewrite Hids| | | |].
    + intros x. rewrite elem_of_app, list.elem_of_cons. intros [Hx|[->|Hx]]; left; rewrite ?Hid; apply Hn;
        rewrite elem_of_app, list.elem_of_cons; auto.
    + exists r'. split; [apply elem_of_app; right; left|done].
    + intros x. rewrite !elem_of_app, !list.elem_of_cons. intros [?|[->|?]]; auto.
    + intros x. rewrite !elem_of_app, !list.elem_of_cons. intros [?|[->|?]] Hx; [auto|done|auto].
Qed.

Lemma has_key_spec rs k : has_key rs k = true <-> k ∈ map row_key rs.
Proof.
  unfold has_key. rewrite existsb_exists, list_elem_of_fmap. split.
  - intros (r & Hr & E). bool_hyps. exists r. split; [done|by apply list_elem_of_In].
  - intros (r & -> & Hr). exists r. split; [by apply list_elem_of_In|by apply bool_decide_eq_true].
Qed.

Lemma upserted_other rs id e rs' rep : upserted rs id e rs' -> rep <> RepresentationID e ->
  filter (fun r => row_rep r = rep) rs' = filter (fun r => row_rep r = rep) rs.
Proof.
  intros [r _ _ He|front r r' back -> Hk _ He] Hne.
  - rewrite filter_app, filter_cons_False, filter_nil, app_nil_r; [done|]. unfold row_rep. rewrite He. congruence.
  - unfold row_key, key_of in Hk. injection Hk as Hr _ _ _ _ _ _ _.
    rewrite !filter_app, !filter_cons_False; [done| |]; unfold row_rep; rewrite ?He, ?Hr; congruence.
Qed.

(** What recording does to a sound table. *)
Lemma UpsertProof_ok limit t e : 0 <= limit -> table_ok limit t -> row_check e = true ->
  exists t', UpsertProof e limit t = (t', None) /\ table_ok limit t' /\
    (forall r, r ∈ rows t' -> row_evidence r = e \/ r ∈ rows t) /\
    (forall r, r ∈ rows t -> row_rep r <> RepresentationID e -> r ∈ rows t') /\
    ((exists r, r ∈ rows t' /\ row_evidence r = e) \/
     (Z.of_nat (length (filter (fun r => row_rep r = RepresentationID e) (rows t'))) = limit /\
      forall k, k ∈ rows t' -> row_rep k = RepresentationID e ->
        time_text_ltb (ObservedAt (row_evidence k)) (ObservedAt e) = false)).
Proof.
  intros Hl Ht Hc. unfold UpsertProof. destruct (decide (row_check e = true)) as [checked|]; [|done].
  destruct (upsert_row_ok (rows t) (next_id t) e checked) as (rs' & -> & Hu).
  destruct (upserted_spec _ _ _ _ Hu (tb_keys _ _ Ht) (tb_ids _ _ Ht) (tb_next _ _ Ht))
    as (Hk & Hi & Hn & (r & Hr & He) & Hfrom & Hkeep).
  destruct (keep_newest_spec row_id row_rep (fun r => ObservedAt (row_evidence r)) rs' (RepresentationID e) limit Hl Hi) as (Hsub & Hoth & Hlim & Hrank).
  eexists. split; [done|]. cbn [rows]. split; [|split; [|split]].
  - split; cbn [rows next_id]; [by apply NoDup_map_filter..| |].
    + apply list.Forall_forall. intros x Hx%Hsub%Hn. destruct (has_key (rows t) (key_of e)) eqn:Eh.
      * apply has_key_spec in Eh. naive_solver.
      * destruct Hx as [?|[? _]]; lia.
    + intros rep. destruct (decide (rep = RepresentationID e)) as [->|Hne]; [done|].
      etrans; [|apply (tb_limit _ _ Ht rep)]. apply inj_le. unfold bound_rows, keep_newest.
      etrans; [apply filter_filter_length|]. by rewrite (upserted_other _ _ _ _ _ Hu Hne).
  - intros x Hx%Hsub. by apply Hfrom.
  - intros x Hx Hrep. apply Hoth; [|done]. apply Hkeep; [done|]. unfold row_key, key_of. intros [= E _ _ _ _ _ _ _]. done.
  - destruct (Hrank r Hr) as [Hin|[Hfull Hfresh]]; [unfold row_rep; by rewrite He|left; eauto|right].
    split; [done|]. intros k Hk' Hrep. specialize (Hfresh k Hk' Hrep). unfold newer in Hfresh.
    apply orb_false_iff in Hfresh as [Hfresh _]. by rewrite He in Hfresh.
Qed.

Lemma DeleteProof_ok limit t key : table_ok limit t -> table_ok limit (DeleteProof key t).
Proof.
  intros [Hk Hi Hn Hl]. split; cbn [DeleteProof rows next_id]; [by apply NoDup_map_filter..| |].
  - apply list.Forall_forall. intros r Hr. apply list_elem_of_filter in Hr as [_ Hr].
    by apply (proj1 (list.Forall_forall _ _) Hn).
  - intros rep. etrans; [|apply (Hl rep)]. apply inj_le, filter_filter_length.
Qed.

Lemma ListProofs_elem t ids now ev : ListProofs ids now t = Ok ev -> forall e, e ∈ ev <->
  exists r, r ∈ rows t /\ row_evidence r = e /\ RepresentationID e ∈ ids /\ unexpired now e = true.
Proof.
  unfold ListProofs, listContentProofs. destruct (bool_decide (ids = [])) eqn:E; bool_hyps.
  { intros [= <-] e. subst ids. split; [intros H; by apply not_elem_of_nil in H|].
    intros (r & _ & _ & H & _). by apply not_elem_of_nil in H. }
  cbn [Z.ltb andb]. intros [= <-] e. rewrite list_elem_of_fmap. split.
  - intros (r & -> & Hr). rewrite sort_by_perm in Hr. apply list_elem_of_filter in Hr as [(? & ? & _) Hr]. by exists r.
  - intros (r & Hr & <- & Hid & Hu). exists r. split; [done|]. rewrite sort_by_perm. apply list_elem_of_filter. naive_solver.
Qed.

(** ** The store keeps the repository's promises *)

Section Reads.
Context `{Context Store, Clock Store}.

(** The context and the clock leave the store alone. *)
Context (ctx_reads : forall s, (ctx_Err s).1 = s) (clock_reads : forall s, (time_Now s).1 = s).

Lemma row_span r : evidence_span (row_evidence r).
Proof.
  pose proof (row_checked r) as Hc. unfold row_check in Hc. bool_hyps. unfold evidence_span. lia.
Qed.

#[local] Instance store_laws : RepositoryLaws Store.
Proof.
  unshelve eapply Build_RepositoryLaws; [exact (fun s e => exists r, r ∈ rows (proofs s) /\ row_evidence r = e)|..].
  - intros ids t s s' ev E e He. cbn in E. injection E as <- E.
    apply (ListProofs_elem _ _ _ _ E) in He as (r & Hr & <- & Hid & _).
    split; [by exists r|]. split; [done|]. apply row_span.
  - intros resolver id n s s' ids size [= <-] E. unfold list_aliases in E.
    destruct (StoreAliases id n (convergence s)).2 as [[ids' size']|err]; [|discriminate E].
    assert (Hs : size = i64 size') by congruence. rewrite Hs. apply i64_range.
  - intros e s Hs. by rewrite ctx_reads.
  - intros e s Hs. by rewrite clock_reads.
  - by intros ids t e s.
  - by intros resolver id n e [= <-] s.
Defined.

(** The stores reached by recording and revoking through a graph; the integer
    fields of an evidence hold 64 bits. *)
Inductive graph_reached (g : Graph) : Store -> Prop :=
| reached_empty tables : graph_reached g (MkStore (MkTable [] 1) tables)
| reached_record s e s' err : graph_reached g s -> e_Offset e <= maxInt64 -> e_Length e <= maxInt64 ->
    Record_ g e s = (s', err) -> graph_reached g s'
| reached_revoke s k s' err : graph_reached g s -> Revoke k s = (s', err) -> graph_reached g s'.

(** An evidence as [Record] stores it: observed now unless it says when. *)
Definition observed (e : Evidence) (s : Store) : Evidence :=
  if ObservedAt e =? 0 then with_observed e (time_Now s).2 else e.

Lemma wf_row_check e : wf_evidence e -> e_Offset e <= maxInt64 -> e_Length e <= maxInt64 -> row_check e = true.
Proof.
  intros [Hid Hsc (Ho & Hl & _) _ _ [Hd Hd0] _ Hk] Hmo Hml. unfold row_check.
  apply is_scope_spec in Hsc. rewrite Hsc. pose proof (digestLength_range (e_Algorithm e)).
  assert (1 <= Z.of_nat (length (Digest e))) by (destruct (Digest e); cbn; [done|lia]).
  repeat (apply andb_true_intro; split); try (apply Z.leb_le; lia); try (apply Z.ltb_lt; lia); [done|].
  destruct (e_Kind e) eqn:Ek; try done. destruct Hk; congruence.
Qed.

Lemma UpsertProof_fail e n t t' err : UpsertProof e n t = (t', Some err) -> t' = t.
Proof.
  unfold UpsertProof. destruct (decide _); [|by intros [= <- _]].
  destruct (upsert_row _ _ _ _); [done|by intros [= <- _]].
Qed.

Lemma ctx_store w w' a : ctx_Err w = (w', a) -> w' = w.
Proof. intros E. pose proof (ctx_reads w) as Hr. by rewrite E in Hr. Qed.

Lemma clock_store w w' a : time_Now w = (w', a) -> w' = w.
Proof. intros E. pose proof (clock_reads w) as Hr. by rewrite E in Hr. Qed.

Lemma observed_span e s : e_Offset (observed e s) = e_Offset e /\ e_Length (observed e s) = e_Length e.
Proof. unfold observed. by destruct (ObservedAt e =? 0). Qed.

Lemma observe_now e s s' a :
  (if ObservedAt e =? 0 then let! n := time_Now in call_ret (with_observed e n) else call_ret e) s = (s', a) ->
  s' = s /\ a = observed e s.
Proof.
  unfold observed. destruct (ObservedAt e =? 0); intros E; calls E; [|done].
  pose proof Hc as Hc'. apply clock_store in Hc' as ->. by rewrite Hc.
Qed.

Lemma Record_store g e s s' err : Record_ g e s = (s', err) ->
  match err with
  | None => wf_evidence (observed e s) /\
      exists t, UpsertProof (observed e s) (g_max g) (proofs s) = (t, None) /\ s' = MkStore t (convergence s)
  | Some _ => s' = s
  end.
Proof.
  intros E. unfold Record_ in E. calls E; [by eapply ctx_store|..]; apply ctx_store in Hc as ->;
    apply observe_now in Hc0 as [-> ->]; [done|].
  cbn in E. destruct (UpsertProof _ _ _) as [t err0] eqn:Eu. injection E as <- <-. destruct err0 as [err0|].
  - apply UpsertProof_fail in Eu as ->. by destruct s.
  - split; [by apply validateEvidence_spec|]. eauto.
Qed.

Lemma Revoke_store k s s' err : Revoke k s = (s', err) ->
  match err with
  | None => s' = MkStore (DeleteProof k (proofs s)) (convergence s)
  | Some _ => s' = s
  end.
Proof.
  intros E. unfold Revoke in E. calls E; [by eapply ctx_store|by eapply ctx_store|].
  apply ctx_store in Hc as ->. cbn in E. by injection E as <- <-.
Qed.

(** A reached table: sound, and every row is a well-formed evidence. *)
Lemma reached_ok g s : 0 <= g_max g -> graph_reached g s ->
  table_ok (g_max g) (proofs s) /\ forall r, r ∈ rows (proofs s) -> wf_evidence (row_evidence r).
Proof.
  intros Hg. induction 1 as [tables|s e s' err _ [IH1 IH2] Ho Hl E|s k s' err _ [IH1 IH2] E].
  - split; [split; cbn; try constructor; lia|]. intros r Hr. by apply not_elem_of_nil in Hr.
  - apply Record_store in E. destruct err as [err|]; [by subst|]. destruct E as (Hwf & t & E & ->).
    destruct (observed_span e s) as [Eo El].
    destruct (UpsertProof_ok (g_max g) (proofs s) (observed e s) Hg IH1) as (t' & E' & Ht & Hfrom & _).
    { apply wf_row_check; [done|by rewrite Eo|by rewrite El]. }
    rewrite E in E'. injection E' as <-. split; [done|]. intros r Hr. cbn in Hr. apply Hfrom in Hr as [->|Hr]; auto.
  - apply Revoke_store in E. destruct err as [err|]; subst s'; [done|]. split; [by apply DeleteProof_ok|].
    intros r Hr. cbn in Hr. apply list_elem_of_filter in Hr as [_ Hr]. auto.
Qed.

(** The proof table stays sound and bounded.  After any records and revokes,
    accepted or not, its rows are well-formed assertions, one per key, at most the
    graph's limit per representation.  A record that succeeds keeps every proof of
    other representations, and stores the assertion unless the representation is
    full of proofs whose observation texts are none older; one that fails changes
    nothing.  A revoke removes exactly the assertion of its key. *)
Theorem proof_table_sound g s :
  0 <= g_max g -> graph_reached g s ->
  NoDup (map row_key (rows (proofs s))) /\
  (forall r, r ∈ rows (proofs s) -> wf_evidence (row_evidence r)) /\
  (forall rep, Z.of_nat (length (filter (fun r => row_rep r = rep) (rows (proofs s)))) <= g_max g) /\
  (forall e s' err, e_Offset e <= maxInt64 -> e_Length e <= maxInt64 -> Record_ g e s = (s', err) ->
     match err with
     | Some _ => s' = s
     | None =>
         (forall r, r ∈ rows (proofs s) -> row_rep r <> RepresentationID e -> r ∈ rows (proofs s')) /\
         ((exists r, r ∈ rows (proofs s') /\ row_evidence r = observed e s) \/
          (Z.of_nat (length (filter (fun r => row_rep r = RepresentationID e) (rows (proofs s')))) = g_max g /\
           forall k, k ∈ rows (proofs s') -> row_rep k = RepresentationID e ->
             time_text_ltb (ObservedAt (row_evidence k)) (ObservedAt (observed e s)) = false))
     end) /\
  (forall k s', Revoke k s = (s', None) -> forall r, r ∈ rows (proofs s') <-> r ∈ rows (proofs s) /\ row_key r <> k).
Proof.
  intros Hg Hr. destruct (reached_ok g s Hg Hr) as [Ht Hwf]. split_and!; [apply Ht|done|apply Ht| |].
  - intros e s' err Ho Hl E. apply Record_store in E. destruct err as [err|]; [done|]. destruct E as (Hw & t & E & ->).
    destruct (observed_span e s) as [Eo El].
    assert (Er : RepresentationID (observed e s) = RepresentationID e) by (unfold observed; by destruct (_ =? _)).
    destruct (UpsertProof_ok (g_max g) (proofs s) (observed e s) Hg Ht) as (t' & E' & _ & _ & Hkeep & Hst).
    { apply wf_row_check; [done|by rewrite Eo|by rewrite El]. }
    rewrite E in E'. injection E' as <-. by rewrite !Er in *.
  - intros k s' E r. apply Revoke_store in E. subst s'. cbn. rewrite list_elem_of_filter. naive_solver.
Qed.

Lemma list_aliases_self id n w w' x : list_aliases id n w = (w', x) ->
  w' = w /\ forall ids size, x = Ok (ids, size) -> ids = [] \/ id ∈ ids.
Proof.
  unfold list_aliases. intros E. destruct (StoreAliases id n (convergence w)) as [t [[ids1 n1]|err]] eqn:Ea;
    injection E as <- <-; (split; [done|]); intros ids size Ex; [|done]. injection Ex as <- _. by eapply StoreAliases_self.
Qed.

Lemma representationAliases_store id s s' ids size : representationAliases id s = (s', Ok (ids, size)) -> s' = s /\ id ∈ ids.
Proof.
  unfold representationAliases, ListRepresentationAliases. intros E. cbn [store_repository] in E.
  calls E; apply list_aliases_self in Hc as [-> Hc]; (split; [done|]); [left|].
  destruct (Hc _ _ eq_refl); [|done]. bool_hyps. done.
Qed.

(** What is recorded decides.  While an authoritative assertion is stored and
    not expired by its text, checking a digest of its exact span and algorithm
    against its representation, by that name or another of its group, never says
    there is no proof: the assertion's own digest is proven unless another stored
    proof of the group disagrees with it, and every other digest is a conflict. *)
Theorem recorded_proof_decides g s r dg s' d :
  0 <= g_max g -> graph_reached g s -> r ∈ rows (proofs s) -> e_Kind (row_evidence r) = KindAuthoritative ->
  unexpired (time_Now s).2 (row_evidence r) = true ->
  let e := row_evidence r in
  VerifyDigest (RepresentationID e) (e_Scope e) (e_Offset e) (e_Length e) (e_Algorithm e) dg s = (s', (d, None)) ->
  s' = s /\ d_Relation d <> RelationNoProof /\
  (dg <> Digest e -> d_Relation d = RelationConflict) /\
  (dg = Digest e -> d_Relation d = RelationConflict ->
     exists r', r' ∈ rows (proofs s) /\ row_evidence r' <> e /\ Digest (row_evidence r') <> dg /\
       e_Kind (row_evidence r') = KindAuthoritative /\ e_Scope (row_evidence r') = e_Scope e /\
       e_Offset (row_evidence r') = e_Offset e /\ e_Length (row_evidence r') = e_Length e /\
       e_Algorithm (row_evidence r') = e_Algorithm e).
Proof.
  intros Hg Hr Hin Hkind Hexp e E. pose proof (row_span r) as [Ho Hl].
  apply VerifyDigest_spec in E as (_ & _ & _ & _ & _ & E);
    [|unfold is_i64, minInt64, e, maxInt64 in *; lia|unfold is_i64, minInt64, e, maxInt64 in *; lia].
  destruct E as (w1 & w2 & w3 & ids & size & t & ev & Hc & Ha & _ & Hn & Hlist & E).
  apply ctx_store in Hc as ->. apply representationAliases_store in Ha as [-> Hid].
  assert (Ht : t = (time_Now s).2) by (by rewrite Hn). apply clock_store in Hn as ->.
  cbn in Hlist. injection Hlist as <- Hlist.
  pose proof (ListProofs_elem _ _ _ _ Hlist) as Hev.
  assert (Happ : applicable ev (e_Scope e) (e_Offset e) (e_Length e) (e_Algorithm e) e).
  { split; [apply Hev; exists r; subst t|done|done|done|done]. done. }
  split; [done|]. destruct (d_Relation d).
  - destruct E as [_ E]. split; [done|]. split; [|done]. intros Hne. by rewrite (E e Happ) in Hne.
  - split; [done|]. split; [done|]. intros Hdg _. destruct E as (e' & [Hin' ? ? [? ?] ?] & Hne).
    apply Hev in Hin' as (r' & Hr' & <- & _). exists r'. split; [done|]. split; [|done].
    intros Heq. apply Hne. by rewrite Heq, Hdg.
  - by destruct (E e).
Qed.

End Reads.

(** ** Text order of instants *)

Lemma subsecond_text k n : 0 < n < second -> time_text_ltb (k * second + n) (k * second) = true.
Proof.
  intros Hn. unfold time_text_ltb, time_text, fraction_text.
  replace ((k * second + n) / second) with k by (unfold second in *; rewrite Z.div_add_l, Z.div_small; lia).
  replace (k * second / second) with k by (by rewrite Z.div_mul).
  replace ((k * second + n) mod second) with n
    by (unfold second in *; rewrite Z.add_comm, Z_mod_plus_full, Z.mod_small; lia).
  replace ((k * second) mod second) with 0 by (by rewrite Z_mod_mult).
  rewrite Z.eqb_refl. destruct (Z.eqb_spec n 0); [lia|done].
Qed.

(** Texts of instants do not order as the instants do.  An instant after a
    whole second, within that second, has a text before the whole second's.  So a
    proof that expired on a whole second is still listed for the rest of that
    second; and in a representation at its limit, the proof just recorded is the
    one removed when the stored one was observed on the whole second before it. *)
Theorem text_order_subsecond k n r e next :
  0 < n < second ->
  (ExpiresAt (row_evidence r) = Some (k * second) ->
     ListProofs [row_rep r] (k * second + n) (MkTable [r] next) = Ok [row_evidence r]) /\
  (row_rep r = RepresentationID e -> row_key r <> key_of e -> row_id r < next -> row_check e = true ->
   ObservedAt (row_evidence r) = k * second -> ObservedAt e = k * second + n ->
     UpsertProof e 1 (MkTable [r] next) = (MkTable [r] (next + 1), None)).
Proof.
  intros Hn. pose proof (subsecond_text k n Hn) as Ht. split.
  - intros Hexp. unfold ListProofs, listContentProofs. rewrite bool_decide_false by done. cbn [Z.ltb andb rows].
    rewrite filter_cons_True, filter_nil; [done|]. split; [left|]. split; [|done]. unfold unexpired. by rewrite Hexp.
  - intros Hrep Hkey Hid Hc Hr He. unfold UpsertProof. destruct (decide _) as [checked|]; [|done].
    cbn [rows next_id upsert_row]. rewrite bool_decide_false by done. cbn [rbind].
    unfold has_key. cbn [existsb]. rewrite bool_decide_false by done. cbn [orb].
    set (new := MkRow next e checked). f_equal. f_equal.
    assert (Hf : fresher new r = false).
    { unfold fresher, newer. cbn [row_evidence new]. rewrite Hr, He, Ht, (weak_asym _ _ Ht). done. }
    assert (Hids : newest_ids row_id row_rep (fun r => ObservedAt (row_evidence r)) [r; new] (RepresentationID e) 1 = [row_id r]).
    { unfold newest_ids. rewrite !filter_cons_True, filter_nil by done. cbn [sort_by foldr insert_by]. change (newer _ _ new r) with (fresher new r). by rewrite Hf. }
    unfold bound_rows, keep_newest. rewrite Hids, filter_cons_True, filter_cons_False, filter_nil; [done| |].
    + intros Hno. apply Hno. split; [done|]. cbn. intros Hin%list_elem_of_singleton. lia.
    + intros [_ Hno]. apply Hno. left.
Qed.

(** A store with one recorded torrent piece. *)
Module StoreDemo.

#[export] Instance context : Context Store := {| ctx_Err := fun s => (s, None) |}.
#[export] Instance clock : Clock Store := {| time_Now := fun s => (s, 5 * second) |}.

Definition piece (digest : Z) (at_ : Z) (expiry : option Z) : Evidence :=
  MkEvidence (str "rep") ScopeBlock 0 16 KindAuthoritative AlgorithmSHA1 (repeat digest 20)
    ProvenanceTorrentPiece [] expiry at_.
Definition graph : Graph := MkGraph 2.
Definition recorded_store : Store := (Record_ graph (piece 1 0 None) empty_store).1.
Definition checked_row (e : Evidence) (H : row_check e = true) : proof_row := MkRow 1 e H.

End StoreDemo.

Import StoreDemo.

Lemma demo_ctx_reads : forall s : Store, (ctx_Err s).1 = s.
Proof. reflexivity. Qed.

Lemma demo_clock_reads : forall s : Store, (time_Now s).1 = s.
Proof. reflexivity. Qed.

Lemma demo_reached : graph_reached graph recorded_store.
Proof.
  apply (reached_record graph empty_store (piece 1 0 None) recorded_store
    (Record_ graph (piece 1 0 None) empty_store).2); [apply reached_empty|cbn; unfold maxInt64; lia..|].
  apply surjective_pairing.
Qed.

Lemma proof_table_sound_witness :
  graph_reached graph recorded_store /\ length (rows (proofs recorded_store)) = 1%nat /\
  forall rep, Z.of_nat (length (filter (fun r => row_rep r = rep) (rows (proofs recorded_store)))) <= 2.
Proof.
  split; [exact demo_reached|]. split; [vm_compute; reflexivity|].
  apply (proof_table_sound demo_ctx_reads demo_clock_reads graph recorded_store); [cbn; lia|exact demo_reached].
Defined.

Lemma recorded_proof_decides_witness :
  exists r, r ∈ rows (proofs recorded_store) /\ Digest (row_evidence r) = repeat 1 20 /\
  exists d, VerifyDigest (str "rep") ScopeBlock 0 16 AlgorithmSHA1 (repeat 2 20) recorded_store = (recorded_store, (d, None)) /\
    d_Relation d = RelationConflict.
Proof.
  exists (MkRow 1 (piece 1 (5 * second) None) eq_refl).
  assert (Hin : MkRow 1 (piece 1 (5 * second) None) eq_refl ∈ rows (proofs recorded_store)).
  { assert (Hr : exists r, rows (proofs recorded_store) = [r] /\ row_id r = 1 /\ row_evidence r = piece 1 (5 * second) None)
      by (vm_compute; eexists; split; [reflexivity|split; reflexivity]).
    destruct Hr as ([i e H] & -> & Hi & He). cbn in Hi, He. subst i e.
    rewrite (proof_irrel H eq_refl). left. }
  split; [exact Hin|]. split; [reflexivity|].
  destruct (VerifyDigest (str "rep") ScopeBlock 0 16 AlgorithmSHA1 (repeat 2 20) recorded_store) as [s' [d err]] eqn:E.
  assert (Herr : err = None) by (vm_compute in E; congruence). subst err.
  pose proof (recorded_proof_decides demo_ctx_reads demo_clock_reads graph recorded_store
    (MkRow 1 (piece 1 (5 * second) None) eq_refl) (repeat 2 20) s' d ltac:(cbn; lia) demo_reached Hin
    eq_refl eq_refl E) as (Hs & _ & Hc & _).
  exists d. rewrite Hs. split; [reflexivity|]. apply Hc. cbn. discriminate.
Defined.

Lemma text_order_subsecond_witness :
  UpsertProof (MkEvidence (str "rep") ScopeBlock 16 16 KindAuthoritative AlgorithmSHA1 (repeat 2 20)
      ProvenanceTorrentPiece [] None (5 * second + 7)) 1
    (MkTable [MkRow 1 (piece 1 (5 * second) None) eq_refl] 2) =
  (MkTable [MkRow 1 (piece 1 (5 * second) None) eq_refl] 3, None).
Proof.
  apply (text_order_subsecond 5 7 (MkRow 1 (piece 1 (5 * second) None) eq_refl)
    (MkEvidence (str "rep") ScopeBlock 16 16 KindAuthoritative AlgorithmSHA1 (repeat 2 20)
      ProvenanceTorrentPiece [] None (5 * second + 7)) 2);
    [unfold second; lia|reflexivity|discriminate|cbn; lia|reflexivity..].
Defined.
