(* ===== verification/HTTPMapping.v ===== *)
(** The mapping of HTTP representations: internal/contentproof/httpmapping.go.

    The bytes of an HTTP source are hashed against a native proof of the same
    release, and the proof is then recorded for the HTTP representation. *)

From Stdlib Require Import ZArith Lia.
From stdpp Require Import base list numbers strings sets gmap.
From S2P Require Import Prelude Outcome ContentProof LaneCandidate Convergence CrossLane ByteSource ProofStore.

Local Open Scope Z_scope.
Local Open Scope harbor_scope.

Definition with_representation (e : Evidence) (id : bytes) (at_ : Z) : Evidence :=
  MkEvidence id (e_Scope e) (e_Offset e) (e_Length e) (e_Kind e) (e_Algorithm e) (Digest e)
    (e_Provenance e) (OriginID e) (ExpiresAt e) at_.

(** [proof.ExpiresAt != nil && !proof.ExpiresAt.After(now)]. *)
Definition expired (e : Evidence) (now : Z) : bool :=
  match ExpiresAt e with Some t => negb (now <? t) | None => false end.

Section Mapping.
Context (md5 sha1 sha256 : bytes -> bytes).
Context {W : Type} `{Context W, Clock W, Repository W}.

(** A source that can serve the span exactly. *)
Definition mappable (source : option (ByteSource W)) (httpCandidate : LaneCandidate) (proof : Evidence)
    : option (ByteSource W) :=
  match source with
  | None => None
  | Some src =>
      if negb (RangeSupport (Caps src)) || negb (ExactSize (Caps src)) || negb (Size src =? lc_Size httpCandidate) ||
         (MaxMappingProofBytes <? e_Length proof)
      then None else Some src
  end.

Definition mapping_digest (candidateDigest : option (bytes -> W -> W * result goerror bytes)) (proof : Evidence)
    : bytes -> W -> W * result goerror bytes :=
  match candidateDigest with
  | Some f => f
  | None => Digest_ md5 sha1 sha256 (e_Algorithm proof)
  end.

(** The checks on the candidates and the proof before the graph is asked. *)
Definition admissible (proofCandidate : LaneCandidate) (proof : Evidence) : option goerror :=
  first_error (validateEvidence proof) (
  first_error (fails (negb (ProofMatchesLane (lc_Lane proofCandidate) (e_Provenance proof)))
    (str "contentproof: proof provenance does not match candidate lane"))
  (fails ((lc_Size proofCandidate <? e_Offset proof) ||
          (i64 (lc_Size proofCandidate - e_Offset proof) <? e_Length proof))
    (str "contentproof: proof exceeds candidate size"))).

(** From the read of the source to the final comparison. *)
Definition map_source (g : Graph) (source : ByteSource W) (httpCandidate proofCandidate : LaneCandidate)
    (proof : Evidence) (now : Z) (candidateDigest : option (bytes -> W -> W * result goerror bytes))
    (decision : Decision) : W -> W * (Decision * option goerror) :=
  let! (data, n, err) := read_block source (e_Length proof) (e_Offset proof) in
  if negb (bool_decide (err = None)) || negb (n =? Z.of_nat (length data)) then
    let! c := ctx_Err in
    match c with
    | Some _ => let! c := ctx_Err in call_ret (decision, c)
    | None => call_ret (decision, None)
    end
  else
  take! digest := mapping_digest candidateDigest proof data or decision in
  let! (verified, err) := VerifyDigest (lc_RepresentationID proofCandidate) (e_Scope proof) (e_Offset proof)
    (e_Length proof) (e_Algorithm proof) digest in
  if negb (bool_decide (err = None)) || negb (bool_decide (d_Relation verified = RelationProven))
  then call_ret (verified, err)
  else
  let httpProof := with_representation proof (lc_RepresentationID httpCandidate) now in
  let! (existing, err) := VerifyDigest (RepresentationID httpProof) (e_Scope httpProof) (e_Offset httpProof)
    (e_Length httpProof) (e_Algorithm httpProof) (Digest httpProof) in
  check! err or decision in
  if bool_decide (d_Relation existing = RelationConflict) then call_ret (existing, None)
  else
  let! err := (if bool_decide (d_Relation existing = RelationNoProof) then Record_ g httpProof else call_ret None) in
  check! err or decision in
  Compare (lc_RepresentationID httpCandidate) (lc_RepresentationID proofCandidate) (e_Offset proof) (e_Length proof).

(** From the native check to the source. *)
Definition map_native (g : Graph) (source : option (ByteSource W)) (httpCandidate proofCandidate : LaneCandidate)
    (proof : Evidence) (now : Z) (candidateDigest : option (bytes -> W -> W * result goerror bytes))
    (decision : Decision) : W -> W * (Decision * option goerror) :=
  let! (native, err) := VerifyDigest (RepresentationID proof) (e_Scope proof) (e_Offset proof) (e_Length proof)
    (e_Algorithm proof) (Digest proof) in
  check! err or decision in
  if bool_decide (d_Relation native = RelationConflict) then call_ret (native, None)
  else
  let! err := (if bool_decide (d_Relation native = RelationNoProof) then Record_ g proof else call_ret None) in
  check! err or decision in
  let! (mapped, err) := Compare (lc_RepresentationID httpCandidate) (lc_RepresentationID proofCandidate)
    (e_Offset proof) (e_Length proof) in
  check! err or decision in
  if negb (bool_decide (d_Relation mapped = RelationNoProof)) then call_ret (mapped, None)
  else
  match mappable source httpCandidate proof with
  | None => call_ret (decision, None)
  | Some src => map_source g src httpCandidate proofCandidate proof now candidateDigest decision
  end.

Definition mapHTTPRepresentation (graph : option Graph) (source : option (ByteSource W))
    (httpCandidate proofCandidate : LaneCandidate) (proof : Evidence)
    (candidateDigest : option (bytes -> W -> W * result goerror bytes)) : W -> W * (Decision * option goerror) :=
  let decision := MkDecision RelationNoProof (e_Offset proof) (e_Length proof) no_provenance no_provenance in
  let! err := ctx_Err in
  check! err or decision in
  match graph with
  | None => call_ret (decision, Some (errors_New (str "contentproof: nil graph")))
  | Some g =>
      check! validateLaneCandidate httpCandidate or decision in
      check! validateLaneCandidate proofCandidate or decision in
      if negb (bool_decide (lc_Lane httpCandidate = LaneHTTP))
      then call_ret (decision, Some (errors_New (str "contentproof: mapping source is not HTTP")))
      else if negb (bool_decide (lc_ReleaseKey httpCandidate = lc_ReleaseKey proofCandidate)) ||
              negb (lc_Size httpCandidate =? lc_Size proofCandidate)
      then call_ret (decision, None)
      else if negb (bool_decide (RepresentationID proof = lc_RepresentationID proofCandidate)) ||
              negb (bool_decide (e_Kind proof = KindAuthoritative))
      then call_ret (decision, Some (errors_New (str "contentproof: proof does not belong to candidate")))
      else
      let! proof := (if ObservedAt proof =? 0
                     then let! n := time_Now in call_ret (with_observed proof n)
                     else call_ret proof) in
      check! admissible proofCandidate proof or decision in
      let! now := time_Now in
      if expired proof now then call_ret (decision, None)
      else map_native g source httpCandidate proofCandidate proof now candidateDigest decision
  end.

Definition MapHTTPRepresentation (graph : option Graph) (source : option (ByteSource W))
    (httpCandidate proofCandidate : LaneCandidate) (proof : Evidence) : W -> W * (Decision * option goerror) :=
  mapHTTPRepresentation graph source httpCandidate proofCandidate proof None.

Definition MapHTTPRepresentationWithDigest (graph : option Graph) (source : option (ByteSource W))
    (httpCandidate proofCandidate : LaneCandidate) (proof : Evidence)
    (candidateDigest : option (bytes -> W -> W * result goerror bytes)) : W -> W * (Decision * option goerror) :=
  match candidateDigest with
  | None => call_ret (MkDecision RelationNoProof (e_Offset proof) (e_Length proof) no_provenance no_provenance,
                      Some (errors_New (str "contentproof: nil native candidate digest")))
  | Some f => mapHTTPRepresentation graph source httpCandidate proofCandidate proof (Some f)
  end.

End Mapping.

(** ** Mapping on the tables *)

Section Sequential.
Context (md5 sha1 sha256 : bytes -> bytes).
Context `{Context Store, Clock Store}.

(** Nothing else writes the tables while the mapping runs, and it runs at one
    instant. *)
Context (ctx_reads : forall s, (ctx_Err s).1 = s) (now : Z) (clock_stands : forall s, time_Now s = (s, now)).

Lemma clock_reads s : (time_Now s).1 = s.
Proof. by rewrite clock_stands. Qed.

#[local] Instance mapping_laws : RepositoryLaws Store := store_laws ctx_reads clock_reads.

Lemma store_reads_keep s : reads_keep (fun w => w = s).
Proof.
  split; [intros w ->; apply ctx_reads|intros w ->; by rewrite clock_stands|by intros ids t w|].
  intros resolver id n [= <-] w. by cbn.
Qed.

(** The proofs the graph finds for a representation. *)
Definition listed (s : Store) (id : bytes) (e : Evidence) : Prop :=
  exists ids size, representationAliases id s = (s, Ok (ids, size)) /\ RepresentationID e ∈ ids /\
    unexpired now e = true /\ exists r, r ∈ rows (proofs s) /\ row_evidence r = e.

(** The span, scope and hash a proof speaks of. *)
Definition same_claim (p e : Evidence) : Prop :=
  e_Kind e = KindAuthoritative /\ e_Scope e = e_Scope p /\ (e_Offset e = e_Offset p /\ e_Length e = e_Length p) /\
  e_Algorithm e = e_Algorithm p.

Lemma VerifyDigest_store id p dg s s' d err : is_i64 (e_Offset p) -> is_i64 (e_Length p) ->
  VerifyDigest id (e_Scope p) (e_Offset p) (e_Length p) (e_Algorithm p) dg s = (s', (d, err)) ->
  s' = s /\ (err = None ->
    match d_Relation d with
    | RelationProven => (exists e, listed s id e /\ same_claim p e) /\
        forall e, listed s id e -> same_claim p e -> Digest e = dg
    | RelationConflict => True
    | RelationNoProof => forall e, listed s id e -> ~ same_claim p e
    end).
Proof.
  intros Ho Hl E.
  pose proof (VerifyDigest_keeps _ (store_reads_keep s) id (e_Scope p) (e_Offset p) (e_Length p) (e_Algorithm p) dg s eq_refl) as Hs.
  rewrite E in Hs. cbn in Hs. subst s'. split; [done|]. intros ->.
  apply VerifyDigest_spec in E as (_ & _ & _ & _ & _ & E); [|done..].
  destruct E as (w1 & w2 & w3 & ids & size & t & ev & Hc & Ha & _ & Hn & Hlist & E).
  pose proof (ctx_reads s) as Hr. rewrite Hc in Hr. cbn in Hr. subst w1.
  pose proof (representationAliases_keeps _ (store_reads_keep s) id s eq_refl) as Hs. rewrite Ha in Hs. cbn in Hs. subst w2.
  rewrite clock_stands in Hn. injection Hn as <- <-. cbn in Hlist. injection Hlist as Hlist.
  pose proof (ListProofs_elem _ _ _ _ Hlist) as Hev.
  assert (Happ : forall e, applicable ev (e_Scope p) (e_Offset p) (e_Length p) (e_Algorithm p) e <-> listed s id e /\ same_claim p e).
  { intros e. split.
    - intros [Hin ? ? ? ?]. apply Hev in Hin as (r & Hr & He & Hid & Hu). split; [|done]. exists ids, size. eauto 10.
    - intros [(ids' & size' & Ha' & Hid & Hu & r & Hr & He) (? & ? & ? & ?)]. rewrite Ha in Ha'. injection Ha' as <- <-.
      split; [apply Hev; by exists r|done..]. }
  destruct (d_Relation d); [|done|].
  - destruct E as [(e & He) Hall]. split; [exists e; by apply Happ|]. intros e' He' Hc'. by apply Hall, Happ.
  - intros e He Hc'. by apply (E e), Happ.
Qed.

Lemma Verify_reads id sc o n alg dg s : (VerifyDigest id sc o n alg dg s).1 = s.
Proof. by apply (VerifyDigest_keeps _ (store_reads_keep s)). Qed.

Lemma Compare_reads l r o n s : (Compare l r o n s).1 = s.
Proof. by apply (Compare_keeps _ (store_reads_keep s)). Qed.

(** Recording changes the proofs only, and adds at most the assertion. *)
Lemma Record_adds g e s s' err : 0 <= g_max g -> graph_reached g s -> e_Offset e <= maxInt64 -> e_Length e <= maxInt64 ->
  ObservedAt e <> 0 \/ ObservedAt e = now -> Record_ g e s = (s', err) ->
  graph_reached g s' /\ convergence s' = convergence s /\
  forall r, r ∈ rows (proofs s') -> r ∈ rows (proofs s) \/ (err = None /\ row_evidence r = e).
Proof.
  intros Hg Hs Ho Hl He E. split; [by eapply reached_record|].
  pose proof (Record_store ctx_reads clock_reads _ _ _ _ _ E) as Hr. destruct err as [err|]; [subst; by auto|].
  assert (Hobs : observed e s = e).
  { unfold observed. rewrite clock_stands. destruct (Z.eqb_spec (ObservedAt e) 0); [|done].
    destruct He as [He|He]; [done|]. unfold with_observed. cbn [snd]. rewrite <-He. by destruct e. }
  rewrite Hobs in Hr. destruct Hr as (Hwf & t & Eu & ->). split; [done|]. intros r Hin.
  destruct (UpsertProof_ok (g_max g) (proofs s) e Hg) as (t' & Eu' & _ & Hfrom & _);
    [by eapply (reached_ok ctx_reads clock_reads)|by apply (wf_row_check)|].
  rewrite Eu in Eu'. injection Eu' as <-. apply Hfrom in Hin as [?|?]; auto.
Qed.

Lemma maybe_record (b : bool) g e s s' err : 0 <= g_max g -> graph_reached g s -> e_Offset e <= maxInt64 ->
  e_Length e <= maxInt64 -> ObservedAt e <> 0 \/ ObservedAt e = now ->
  (if b then Record_ g e else call_ret None) s = (s', err) ->
  graph_reached g s' /\ convergence s' = convergence s /\
  forall r, r ∈ rows (proofs s') -> r ∈ rows (proofs s) \/ (b = true /\ row_evidence r = e).
Proof.
  intros Hg Hs Ho Hl He E. destruct b; [|injection E as <- _; by auto].
  destruct (Record_adds g e s s' err Hg Hs Ho Hl He E) as (? & ? & Hr). split_and!; [done..|].
  intros r Hin. destruct (Hr r Hin) as [?|[_ ?]]; auto.
Qed.

Lemma listed_convergence s s' id e : convergence s' = convergence s ->
  (forall r, r ∈ rows (proofs s') -> row_evidence r = e -> r ∈ rows (proofs s)) ->
  listed s' id e -> listed s id e.
Proof.
  intros Hc Hrows (ids & size & Ha & Hid & Hu & r & Hr & He). exists ids, size. split_and!; [|done|done|eauto].
  unfold representationAliases, ListRepresentationAliases in *. cbn [store_repository] in *.
  unfold call_bind, list_aliases in *. rewrite <-Hc. cbn [snd fst] in *.
  destruct (StoreAliases id DefaultMaxRoutesPerRepresentation (convergence s')).2 as [[ids' size']|err]; [|done].
  destruct (bool_decide (ids' = [])); by injection Ha as <- <-.
Qed.

Lemma Digest_reads alg data s : (Digest_ md5 sha1 sha256 alg data s).1 = s.
Proof.
  assert (Hk : forall fuel data offset written, keeps (fun w => w = s) (digest_loop fuel data offset written)).
  { induction fuel as [|fuel IH]; intros data' offset written; cbn [digest_loop]; [auto with calls|].
    destruct (_ <? _); [|auto with calls]. apply keeps_bind; [apply (rk_ctx _ (store_reads_keep s))|].
    intros [err|]; auto with calls. }
  enough (keeps (fun w => w = s) (Digest_ md5 sha1 sha256 alg data)) as Hd by by apply Hd.
  unfold Digest_. destruct (hash_of _ _ _ _); [|auto with calls]. apply keeps_bind; [auto|].
  intros [written|err]; auto with calls.
Qed.

(** ** The bytes behind a mapping *)

Context (source : option (ByteSource Store)) (candidateDigest : option (bytes -> Store -> Store * result goerror bytes)).

(** A source and a digest of the caller's that leave the tables alone. *)
Context (source_reads : forall src n o s, source = Some src -> (ReadAt src n o s).1 = s)
  (digest_reads : forall f data s, candidateDigest = Some f -> (f data s).1 = s).

(** An exact source of the candidate's size served the whole span, and the bytes
    have the proof's digest. *)
Definition served (httpCandidate : LaneCandidate) (proof : Evidence) : Prop :=
  exists src data s, source = Some src /\ RangeSupport (Caps src) = true /\ ExactSize (Caps src) = true /\
    Size src = lc_Size httpCandidate /\ e_Length proof <= MaxMappingProofBytes /\
    Z.of_nat (length data) = e_Length proof /\
    read_block src (e_Length proof) (e_Offset proof) s = (s, (data, e_Length proof, None)) /\
    mapping_digest md5 sha1 sha256 candidateDigest proof data s = (s, Ok (Digest proof)).

Lemma mapping_digest_reads proof data s : (mapping_digest md5 sha1 sha256 candidateDigest proof data s).1 = s.
Proof. unfold mapping_digest. destruct candidateDigest as [f|]; [by apply digest_reads|apply Digest_reads]. Qed.

Lemma mappable_spec httpCandidate proof src : mappable source httpCandidate proof = Some src ->
  source = Some src /\ RangeSupport (Caps src) = true /\ ExactSize (Caps src) = true /\ Size src = lc_Size httpCandidate /\
  e_Length proof <= MaxMappingProofBytes.
Proof.
  unfold mappable. destruct source as [src'|]; [|done].
  destruct (_ || _) eqn:E; [done|]. intros [= <-]. bool_hyps. done.
Qed.

Lemma read_block_reads src n o s : source = Some src -> (read_block src n o s).1 = s.
Proof.
  intros Hsrc. unfold read_block, call_bind. pose proof (source_reads src n o s Hsrc) as Hr.
  by destruct (ReadAt src n o s) as [s' [[written count] err]].
Qed.

(** Identify the worlds before and after every read. *)
Ltac same_world :=
  repeat match goal with
  | Hc : ?c ?w = (?w', _) |- _ =>
      tryif constr_eq w w' then fail else
        (let X := fresh in
         assert (X : (c w).1 = w) by
           first [apply ctx_reads | apply clock_reads | apply Verify_reads | apply Compare_reads
                 | apply mapping_digest_reads | done];
         rewrite Hc in X; cbn [fst] in X; subst w')
  end.

Lemma map_source_spec g src http proofc proof decision s s' x :
  0 <= g_max g -> graph_reached g s -> is_i64 (e_Offset proof) -> 0 < e_Length proof <= maxInt64 ->
  mappable source http proof = Some src ->
  (forall e, listed s (lc_RepresentationID proofc) e -> same_claim proof e -> Digest e = Digest proof) ->
  map_source md5 sha1 sha256 g src http proofc proof now candidateDigest decision s = (s', x) ->
  graph_reached g s' /\ convergence s' = convergence s /\
  forall r, r ∈ rows (proofs s') -> r ∈ rows (proofs s) \/
    (row_evidence r = with_representation proof (lc_RepresentationID http) now /\ served http proof).
Proof.
  intros Hg Hs Ho Hl Hmap Hagree E. pose proof Hmap as (Hsrc & _ & _ & _ & _)%mappable_spec.
  assert (Hil : is_i64 (e_Length proof)) by (unfold is_i64, minInt64, maxInt64 in *; lia).
  assert (Hread : forall w, (read_block src (e_Length proof) (e_Offset proof) w).1 = w) by (intros w; by apply read_block_reads).
  clear Hsrc.
  unfold map_source in E. calls E; same_world; auto.
  all: assert (Hserved : served http proof) by
    (bool_hyps; subst; pose proof Hc as Hlen; unfold read_block in Hlen; calls Hlen;
     destruct (VerifyDigest_store _ _ _ _ _ _ _ Ho Hil Hc1) as [_ Hv]; specialize (Hv eq_refl);
     match goal with Hp : d_Relation _ = RelationProven |- _ => rewrite Hp in Hv end;
     destruct Hv as [(e & He1 & He2) Hall]; rewrite <-(Hall e He1 He2), (Hagree e He1 He2) in Hc0;
     apply mappable_spec in Hmap as (? & ? & ? & ? & ?); exists src; do 2 eexists;
     rewrite fill_length in *; rewrite ?Z2Nat.id in * by lia; split_and!; try done; lia).
  all: match goal with Hrec : (if _ then _ else _) _ = _ |- _ =>
      apply maybe_record in Hrec as (? & ? & Hrows); [|done|done|apply Ho|apply Hl|by right] end.
  all: split_and!; [done..|]; intros r Hin; destruct (Hrows r Hin) as [?|[_ ?]]; auto.
Qed.

(** The native proof as the mapping uses it. *)
Definition native_proof (proof : Evidence) : Evidence :=
  if ObservedAt proof =? 0 then with_observed proof now else proof.

Lemma observe_native proof s s' a :
  (if ObservedAt proof =? 0 then let! n := time_Now in call_ret (with_observed proof n) else call_ret proof) s = (s', a) ->
  s' = s /\ a = native_proof proof.
Proof.
  unfold native_proof. destruct (ObservedAt proof =? 0); intros E; calls E; [|done].
  rewrite clock_stands in Hc. by injection Hc as <- <-.
Qed.

Lemma map_native_spec g http proofc proof decision s s' x :
  0 <= g_max g -> graph_reached g s -> is_i64 (e_Offset proof) -> 0 < e_Length proof <= maxInt64 ->
  ObservedAt proof <> 0 -> RepresentationID proof = lc_RepresentationID proofc ->
  map_native md5 sha1 sha256 g source http proofc proof now candidateDigest decision s = (s', x) ->
  graph_reached g s' /\ convergence s' = convergence s /\
  forall r, r ∈ rows (proofs s') -> r ∈ rows (proofs s) \/ row_evidence r = proof \/
    (row_evidence r = with_representation proof (lc_RepresentationID http) now /\ served http proof).
Proof.
  intros Hg Hs Ho Hl Hobs Hrep E.
  assert (Hil : is_i64 (e_Length proof)) by (unfold is_i64, minInt64, maxInt64 in *; lia).
  unfold map_native in E. calls E; same_world; auto.
  all: match goal with Hrec : (if _ then _ else _) _ = _ |- _ =>
      apply maybe_record in Hrec as (Hreach & Hconv & Hrows); [|done|done|apply Ho|apply Hl|by left] end.
  all: try (split_and!; [done..|]; intros r Hin; destruct (Hrows r Hin) as [?|[_ ?]]; auto).
  destruct (VerifyDigest_store _ _ _ _ _ _ _ Ho Hil Hc) as [_ Hnative]. specialize (Hnative eq_refl). bool_hyps.
  apply map_source_spec in E as (? & Hconv' & Hrows'); [|done..|].
  - split_and!; [done|congruence|]. intros r Hin. destruct (Hrows' r Hin) as [Hin'|?]; [|auto].
    destruct (Hrows r Hin') as [?|[_ ?]]; auto.
  - intros e He Hclaim. destruct (decide (e = proof)) as [->|Hne]; [done|]. rewrite <-Hrep in He.
    apply (listed_convergence s) in He; [|done|].
    + destruct (d_Relation d); [by apply Hnative|done|by destruct (Hnative e)].
    + intros r Hr ?. destruct (Hrows r Hr) as [?|[_ ?]]; [done|congruence].
Qed.

(** Only proven bytes lend an HTTP representation a proof.  Whatever a mapping
    answers, and whatever the source and the digest function do short of writing
    the tables, the proofs it leaves are those of before, at most the native proof
    it was given, and at most a copy of that proof for the HTTP representation.
    The copy appears only when an exact source of the candidate's size served the
    whole span, within the read limit, and the digest of the bytes it served is
    the native proof's; the two candidates then have one release key and size, and
    the native proof is a well-formed unexpired proof of the other lane's own
    kind, inside the release. *)
Theorem http_mapping_sound g http proofc proof s s' x :
  0 <= g_max g -> graph_reached g s -> e_Offset proof <= maxInt64 -> e_Length proof <= maxInt64 ->
  lc_Size proofc <= maxInt64 ->
  mapHTTPRepresentation md5 sha1 sha256 (Some g) source http proofc proof candidateDigest s = (s', x) ->
  let native := native_proof proof in
  let copy := with_representation native (lc_RepresentationID http) now in
  graph_reached g s' /\ convergence s' = convergence s /\
  forall r, r ∈ rows (proofs s') -> r ∈ rows (proofs s) \/ row_evidence r = native \/
    (row_evidence r = copy /\ served http native /\
     lc_Lane http = LaneHTTP /\ lc_ReleaseKey http = lc_ReleaseKey proofc /\ lc_Size http = lc_Size proofc /\
     RepresentationID native = lc_RepresentationID proofc /\ e_Kind native = KindAuthoritative /\
     wf_evidence native /\ ProofMatchesLane (lc_Lane proofc) (e_Provenance native) = true /\
     e_Offset native + e_Length native <= lc_Size proofc /\ (forall t, ExpiresAt native = Some t -> now < t)).
Proof.
  intros Hg Hs Ho Hl Hz E. cbv zeta. unfold mapHTTPRepresentation in E. calls E; same_world; auto.
  all: match goal with Hn : (if _ then _ else _) _ = _ |- _ => apply observe_native in Hn as [-> ->] end; auto.
  assert (Hn : now = a0) by (match goal with Hn : time_Now _ = _ |- _ => rewrite clock_stands in Hn; by injection Hn end).
  subst a0.
  match goal with Ha : admissible _ _ = None |- _ => unfold admissible in Ha; rewrite !first_error_none, !fails_none in Ha;
    destruct Ha as (Hwf%validateEvidence_spec & Hlane & Hspan) end.
  pose proof (wf_span _ Hwf) as (Hpo & Hpl & _). bool_hyps.
  assert (Hnat : let native := native_proof proof in e_Offset native = e_Offset proof /\
    e_Length native = e_Length proof /\ RepresentationID native = RepresentationID proof /\ e_Kind native = e_Kind proof)
    by (unfold native_proof; by destruct (ObservedAt proof =? 0)).
  destruct Hnat as (Eo & El & Er & Ek).
  apply map_native_spec in E as (? & ? & Hrows); [|done|done|unfold is_i64, minInt64 in *; lia|lia|apply Hwf|congruence].
  split_and!; [done..|]. intros r Hin. destruct (Hrows r Hin) as [?|[?|[? ?]]]; [auto..|]. right; right.
  split_and!; try done; try congruence.
  - rewrite i64_small in * by (unfold is_i64, minInt64, maxInt64 in *; lia). lia.
  - intros t Ht. match goal with Hx : expired _ _ = false |- _ => unfold expired in Hx; rewrite Ht in Hx end.
    bool_hyps. done.
Qed.

End Sequential.

(** A torrent piece of "rep" and an HTTP object with the same first bytes; the
    hash repeats the first byte. *)
Module MappingDemo.
Export StoreDemo.

Definition candidate (lane : Lane) (rep : bytes) : LaneCandidate :=
  MkLaneCandidate lane (str "item") (str "file") rep (repeat 97 64) 32.
Definition http : LaneCandidate := candidate LaneHTTP (str "web").
Definition torrent : LaneCandidate := candidate LaneTorrent (str "rep").
Definition first_byte (data : bytes) : bytes := repeat (nth 0 data 0) 20.
Definition source : option (ByteSource Store) :=
  Some (MkSource [1] 32 (MkCaps true true TailCostUnknown 0) (fun n o s => (s, (repeat 7 (Z.to_nat n), n, None)))).

Lemma demo_source : forall src n o s, source = Some src -> (ReadAt src n o s).1 = s.
Proof. by intros src n o s [= <-]. Qed.

Lemma demo_no_digest : forall (f : bytes -> Store -> Store * result goerror bytes) data s, None = Some f -> (f data s).1 = s.
Proof. done. Qed.

Lemma demo_clock_stands : forall s : Store, time_Now s = (s, 5 * second).
Proof. reflexivity. Qed.

End MappingDemo.

Import MappingDemo.

Lemma http_mapping_sound_witness :
  exists s' x,
    mapHTTPRepresentation first_byte first_byte first_byte (Some graph) source http torrent (piece 7 0 None) None
      empty_store = (s', x) /\
    d_Relation x.1 = RelationProven /\ map row_rep (rows (proofs s')) = [str "rep"; str "web"] /\
    convergence s' = empty_tables.
Proof.
  destruct (mapHTTPRepresentation first_byte first_byte first_byte (Some graph) source http torrent (piece 7 0 None) None
    empty_store) as [s' x] eqn:E. exists s', x.
  assert (Hrows : d_Relation x.1 = RelationProven /\ map row_rep (rows (proofs s')) = [str "rep"; str "web"])
    by (vm_compute in E; injection E as <- <-; split; reflexivity).
  split; [reflexivity|]. split; [apply Hrows|]. split; [apply Hrows|].
  refine (proj1 (proj2 (http_mapping_sound first_byte first_byte first_byte demo_ctx_reads (5 * second) demo_clock_stands
    source None demo_source demo_no_digest graph http torrent (piece 7 0 None) empty_store s' x _ _ _ _ _ E)));
    [cbn; lia|apply reached_empty|cbn; unfold maxInt64; lia..].
Defined.
