(* ===== verification/Continuity.v ===== *)
(** The continuity ledger: internal/contentproof/continuity.go over the table of
    internal/store/content_continuity.go.

    Each served span is recorded with its digest, how it relates to the
    authoritative proofs of its group, and whether it differs from the last one
    recorded. *)

From Stdlib Require Import ZArith Lia Sorting.Sorted.
From stdpp Require Import base list numbers strings sets gmap.
From S2P Require Import Prelude Outcome ContentProof LaneCandidate Convergence Tables ProofStore.

Local Open Scope Z_scope.
Local Open Scope harbor_scope.

(** ** Entries *)

Definition DefaultMaxContinuityEntriesPerRepresentation : Z := DefaultMaxProofsPerRepresentation.

Inductive ContinuityRelation : Type := ContinuityTOFU | ContinuityAuthoritative | ContinuityConflict.

#[export] Instance ContinuityRelation_eq_dec : EqDecision ContinuityRelation.
Proof. solve_decision. Defined.

Record Observation := MkObservation {
  o_RepresentationID : bytes;
  o_Offset : Z;
  o_Length : Z;
  o_Digest : bytes
}.

Record ContinuityEntry := MkEntry {
  ce_Observation : Observation;
  ce_Relation : ContinuityRelation;
  ce_Provenance : Provenance;
  ce_Mutation : bool;
  ce_ObservedAt : Z
}.

#[export] Instance Observation_eq_dec : EqDecision Observation.
Proof. solve_decision. Defined.
#[export] Instance ContinuityEntry_eq_dec : EqDecision ContinuityEntry.
Proof. solve_decision. Defined.

(** The methods of the repository beside those of the proofs. *)
Class ContinuityRepository (W : Type) := {
  LatestContinuity : bytes -> Z -> Z -> W -> W * result goerror (option ContinuityEntry);
  AppendContinuity : ContinuityEntry -> Z -> W -> W * option goerror;
  ListContinuity : bytes -> W -> W * result goerror (list ContinuityEntry)
}.

Record Ledger := MkLedger { l_max : Z }.

(** [NewLedger], over a repository that is not nil. *)
Definition NewLedger (opts : Options) : result goerror Ledger :=
  if MaxProofsPerRepresentation opts <? 0 then Err (errors_New (str "contentproof: negative continuity limit"))
  else if MaxProofsPerRepresentation opts =? 0 then Ok (MkLedger DefaultMaxContinuityEntriesPerRepresentation)
  else Ok (MkLedger (MaxProofsPerRepresentation opts)).

Definition validateObservation (o : Observation) : option goerror :=
  first_error (validateOpaqueID (str "representation") (o_RepresentationID o)) (
  first_error (fails ((o_Offset o <? 0) || (o_Length o <=? 0) || (i64 (maxInt64 - o_Length o) <? o_Offset o))
    (str "contentproof: invalid continuity span"))
  (fails (negb (Z.of_nat (length (o_Digest o)) =? digestLength AlgorithmSHA256))
    (str "contentproof: continuity digest must be SHA-256"))).

(** The guard of the loop over the proofs, and the loop. *)
Definition proof_of_span (o : Observation) (proof : Evidence) : bool :=
  bool_decide (e_Kind proof = KindAuthoritative) && bool_decide (e_Algorithm proof = AlgorithmSHA256) &&
  (e_Offset proof =? o_Offset o) && (e_Length proof =? o_Length o).

Fixpoint relate_loop (proofs : list Evidence) (entry : ContinuityEntry) : ContinuityEntry :=
  match proofs with
  | [] => entry
  | proof :: proofs =>
      let o := ce_Observation entry in
      if proof_of_span o proof then
        if equalBytes (Digest proof) (o_Digest o)
        then relate_loop proofs
          (MkEntry o ContinuityAuthoritative (e_Provenance proof) (ce_Mutation entry) (ce_ObservedAt entry))
        else MkEntry o ContinuityConflict (e_Provenance proof) (ce_Mutation entry) (ce_ObservedAt entry)
      else relate_loop proofs entry
  end.

(** [candidate != nil && (latest == nil || candidate.ObservedAt.After(...))]. *)
Definition later (candidate latest : option ContinuityEntry) : option ContinuityEntry :=
  match candidate with
  | None => latest
  | Some c =>
      match latest with
      | None => Some c
      | Some l => if ce_ObservedAt l <? ce_ObservedAt c then Some c else Some l
      end
  end.

Definition mutated (latest : option ContinuityEntry) (digest : bytes) : bool :=
  match latest with
  | None => false
  | Some l => negb (equalBytes (o_Digest (ce_Observation l)) digest)
  end.

Definition ascending (a b : ContinuityEntry) : bool := ce_ObservedAt a <? ce_ObservedAt b.

#[export] Instance ascending_weak : StrictWeak ascending.
Proof. apply (weak_map ce_ObservedAt), Z_ltb_weak. Qed.

Section Ledger.
Context {W : Type} `{Context W, Clock W, Repository W, ContinuityRepository W}.

Fixpoint latest_loop (aliases : list bytes) (offset len : Z) (latest : option ContinuityEntry)
    : W -> W * result goerror (option ContinuityEntry) :=
  match aliases with
  | [] => call_ret (Ok latest)
  | alias :: aliases =>
      let! r := LatestContinuity alias offset len in
      match r with
      | Err err => call_ret (Err err)
      | Ok candidate => latest_loop aliases offset len (later candidate latest)
      end
  end.

Definition Observe (l : Ledger) (o : Observation) : W -> W * (ContinuityEntry * option goerror) :=
  let entry := MkEntry o ContinuityTOFU no_provenance false 0 in
  let! err := ctx_Err in
  check! err or entry in
  check! validateObservation o or entry in
  let! observed := time_Now in
  let entry := MkEntry o ContinuityTOFU no_provenance false observed in
  let! err := ctx_Err in
  check! err or entry in
  take! (aliases, _) := representationAliases (o_RepresentationID o) or entry in
  take! latest := latest_loop aliases (o_Offset o) (o_Length o) None or entry in
  let entry := MkEntry o ContinuityTOFU no_provenance (mutated latest (o_Digest o)) observed in
  let! now := time_Now in
  take! proofs := ListContentProofs aliases now or entry in
  let entry := relate_loop proofs entry in
  let! err := AppendContinuity entry (l_max l) in
  check! err or entry in
  call_ret (entry, None).

Fixpoint history_loop (aliases : list bytes) (history : list ContinuityEntry)
    : W -> W * result goerror (list ContinuityEntry) :=
  match aliases with
  | [] => call_ret (Ok history)
  | alias :: aliases =>
      let! r := ListContinuity alias in
      match r with
      | Err err => call_ret (Err err)
      | Ok entries => history_loop aliases (history ++ entries)
      end
  end.

Definition History (representationID : bytes) : W -> W * result goerror (list ContinuityEntry) :=
  let! err := ctx_Err in
  match err with
  | Some err => call_ret (Err err)
  | None =>
      match validateOpaqueID (str "representation") representationID with
      | Some err => call_ret (Err err)
      | None =>
          let! r := representationAliases representationID in
          match r with
          | Err err => call_ret (Err err)
          | Ok (aliases, _) =>
              let! r := history_loop aliases [] in
              match r with
              | Err err => call_ret (Err err)
              | Ok history => call_ret (Ok (sort_by ascending history))
              end
          end
      end
  end.

End Ledger.

(** ** The table *)

(** The CHECK constraints; the integer columns hold 64 bits.  The relation and the
    flag always satisfy theirs. *)
Definition entry_check (e : ContinuityEntry) : bool :=
  let o := ce_Observation e in
  (0 <=? o_Offset o) && (o_Offset o <=? maxInt64) && (0 <? o_Length o) && (o_Length o <=? maxInt64) &&
  (Z.of_nat (length (o_Digest o)) =? 32).

Record continuity_row := MkCRow { c_id : Z; c_entry : ContinuityEntry }.

Record continuity_table := MkCTable { c_rows : list continuity_row; c_next : Z }.

Definition c_rep (r : continuity_row) : bytes := o_RepresentationID (ce_Observation (c_entry r)).
Definition c_at (r : continuity_row) : Z := ce_ObservedAt (c_entry r).

(** The rows of one span of one representation. *)
Definition of_span (rep : bytes) (offset len : Z) (r : continuity_row) : bool :=
  bool_decide (c_rep r = rep) && (o_Offset (ce_Observation (c_entry r)) =? offset) &&
  (o_Length (ce_Observation (c_entry r)) =? len).

(** ORDER BY observed_at DESC, id DESC LIMIT 1. *)
Definition StoreLatest (rep : bytes) (offset len : Z) (t : continuity_table) : option ContinuityEntry :=
  c_entry <$> head (sort_by (newer c_id c_at) (filter (fun r => of_span rep offset len r = true) (c_rows t))).

Definition StoreAppend (e : ContinuityEntry) (maxPerRepresentation : Z) (t : continuity_table)
    : continuity_table * option goerror :=
  if negb (entry_check e) then (t, Some (errors_New (str "append representation continuity")))
  else
    let rs := c_rows t ++ [MkCRow (c_next t) e] in
    (MkCTable (keep_newest c_id c_rep c_at rs (o_RepresentationID (ce_Observation e)) maxPerRepresentation)
       (c_next t + 1), None).

(** ORDER BY observed_at, id. *)
Definition StoreHistory (rep : bytes) (t : continuity_table) : list ContinuityEntry :=
  map c_entry (sort_by (older c_id c_at) (filter (fun r => c_rep r = rep) (c_rows t))).

(** ** The ledger's store: the proofs, the groups and the table *)

Record LedgerStore := MkLedgerStore { ls_store : Store; ls_table : continuity_table }.

Definition on_store {A} (c : Store -> Store * A) (s : LedgerStore) : LedgerStore * A :=
  let (p, a) := c (ls_store s) in (MkLedgerStore p (ls_table s), a).

#[export] Instance ledger_proofs : Repository LedgerStore := {|
  UpsertContentProof := fun e n => on_store (UpsertContentProof e n);
  ListContentProofs := fun ids now => on_store (ListContentProofs ids now);
  DeleteContentProof := fun key => on_store (DeleteContentProof key);
  ListRepresentationAliases := Some (fun id limit => on_store (list_aliases id limit))
|}.

#[export] Instance ledger_entries : ContinuityRepository LedgerStore := {|
  LatestContinuity := fun rep offset len s => (s, Ok (StoreLatest rep offset len (ls_table s)));
  AppendContinuity := fun e n s => let (t, err) := StoreAppend e n (ls_table s) in (MkLedgerStore (ls_store s) t, err);
  ListContinuity := fun rep s => (s, Ok (StoreHistory rep (ls_table s)))
|}.

(** ** What appending does *)

Record ctable_ok (limit : Z) (t : continuity_table) : Prop := {
  ct_ids : NoDup (map c_id (c_rows t));
  ct_next : forall r, r ∈ c_rows t -> c_id r < c_next t;
  ct_limit : forall rep, Z.of_nat (length (filter (fun r => c_rep r = rep) (c_rows t))) <= limit;
  ct_checked : forall r, r ∈ c_rows t -> entry_check (c_entry r) = true
}.

Lemma StoreAppend_fail e n t t' err : StoreAppend e n t = (t', Some err) -> t' = t.
Proof. unfold StoreAppend. destruct (negb _); [by intros [= <- _]|done]. Qed.

Lemma StoreAppend_ok limit t e t' : 0 <= limit -> ctable_ok limit t -> StoreAppend e limit t = (t', None) ->
  ctable_ok limit t' /\
  (forall r, r ∈ c_rows t' -> c_entry r = e \/ r ∈ c_rows t) /\
  (forall r, r ∈ c_rows t -> c_rep r <> o_RepresentationID (ce_Observation e) -> r ∈ c_rows t') /\
  ((exists r, r ∈ c_rows t' /\ c_entry r = e) \/
   (Z.of_nat (length (filter (fun r => c_rep r = o_RepresentationID (ce_Observation e)) (c_rows t'))) = limit /\
    forall k, k ∈ c_rows t' -> c_rep k = o_RepresentationID (ce_Observation e) ->
      time_text_ltb (c_at k) (ce_ObservedAt e) = false)).
Proof.
  intros Hl [Hi Hn Hlim Hc] E. unfold StoreAppend in E. destruct (entry_check e) eqn:Ec; [|done]. cbn [negb] in E.
  injection E as <-. set (new := MkCRow (c_next t) e). set (rep := o_RepresentationID (ce_Observation e)).
  assert (Hi' : NoDup (map c_id (c_rows t ++ [new]))).
  { rewrite map_app. apply NoDup_app. split_and!; [done| |apply NoDup_singleton].
    intros i (x & -> & Hx)%list_elem_of_fmap Hi'%list_elem_of_singleton. specialize (Hn x Hx). cbn in Hi'. lia. }
  destruct (keep_newest_spec c_id c_rep c_at (c_rows t ++ [new]) rep limit Hl Hi') as (Hsub & Hoth & Hcap & Hrank).
  assert (Hfrom : forall r, r ∈ keep_newest c_id c_rep c_at (c_rows t ++ [new]) rep limit -> r = new \/ r ∈ c_rows t).
  { intros r [Hr|Hr%list_elem_of_singleton]%Hsub%elem_of_app; auto. }
  cbn [c_rows]. split_and!.
  - split; cbn [c_rows c_next].
    + by apply NoDup_map_filter.
    + intros r [->|Hr]%Hfrom; [cbn; lia|]. specialize (Hn r Hr). lia.
    + intros rep'. destruct (decide (rep' = rep)) as [->|Hne]; [done|]. etrans; [|apply (Hlim rep')]. apply inj_le.
      unfold keep_newest. etrans; [apply filter_filter_length|].
      rewrite filter_app, filter_cons_False, filter_nil, app_nil_r; [done|]. by intros <-.
    + intros r [->|Hr]%Hfrom; [done|auto].
  - intros r [->|Hr]%Hfrom; auto.
  - intros r Hr Hrep. apply Hoth; [|done]. apply elem_of_app. by left.
  - destruct (Hrank new) as [Hin|[Hfull Hold]]; [apply elem_of_app; right; left|done|left; by exists new|right].
    split; [done|]. intros k Hk Hrep. specialize (Hold k Hk Hrep). unfold newer in Hold.
    apply orb_false_iff in Hold as [Hold _]. done.
Qed.

(** ** What the loops compute *)

Lemma relate_loop_spec o proofs : forall rel prov mut at_, rel <> ContinuityConflict ->
  let e := relate_loop proofs (MkEntry o rel prov mut at_) in
  ce_Observation e = o /\ ce_Mutation e = mut /\ ce_ObservedAt e = at_ /\
  match ce_Relation e with
  | ContinuityTOFU => rel = ContinuityTOFU /\ forall p, p ∈ proofs -> proof_of_span o p = false
  | ContinuityAuthoritative =>
      (rel = ContinuityAuthoritative \/ exists p, p ∈ proofs /\ proof_of_span o p = true) /\
      forall p, p ∈ proofs -> proof_of_span o p = true -> Digest p = o_Digest o
  | ContinuityConflict => exists p, p ∈ proofs /\ proof_of_span o p = true /\ Digest p <> o_Digest o /\
      ce_Provenance e = e_Provenance p
  end.
Proof.
  induction proofs as [|p proofs IH]; intros rel prov mut at_ Hrel; cbn [relate_loop ce_Observation ce_Mutation ce_ObservedAt].
  { split_and!; [done..|]. cbn. destruct rel; [|..|done]; split; try (by left); try done; intros q Hq; by apply not_elem_of_nil in Hq. }
  destruct (proof_of_span o p) eqn:Ep.
  - destruct (equalBytes (Digest p) (o_Digest o)) eqn:Ed.
    + apply equalBytes_spec in Ed.
      destruct (IH ContinuityAuthoritative (e_Provenance p) mut at_ ltac:(done)) as (-> & -> & -> & IH').
      split_and!; [done..|]. destruct (ce_Relation _).
      * by destruct IH'.
      * split; [right; exists p; split; [left|done]|]. intros q [->|Hq]%list.elem_of_cons; [done|]. by apply IH'.
      * destruct IH' as (q & Hq & ?). exists q. split; [by right|done].
    + cbn. split_and!; [done..|]. exists p. split; [left|]. split_and!; [done| |done].
      intros E%equalBytes_spec. congruence.
  - destruct (IH rel prov mut at_ Hrel) as (-> & -> & -> & IH'). split_and!; [done..|]. destruct (ce_Relation _).
    + destruct IH' as [? Hno]. split; [done|]. intros q [->|Hq]%list.elem_of_cons; auto.
    + destruct IH' as [Hex Hall]. split.
      * destruct Hex as [?|(q & Hq & ?)]; [by left|right; exists q; split; [by right|done]].
      * intros q [->|Hq]%list.elem_of_cons; [congruence|by apply Hall].
    + destruct IH' as (q & Hq & ?). exists q. split; [by right|done].
Qed.

Lemma of_span_spec rep offset len r : of_span rep offset len r = true <->
  c_rep r = rep /\ o_Offset (ce_Observation (c_entry r)) = offset /\ o_Length (ce_Observation (c_entry r)) = len.
Proof. unfold of_span. rewrite !andb_true_iff, bool_decide_eq_true, !Z.eqb_eq. tauto. Qed.

Lemma StoreLatest_spec rep offset len t :
  match StoreLatest rep offset len t with
  | None => forall r, r ∈ c_rows t -> of_span rep offset len r = false
  | Some e => exists k, k ∈ c_rows t /\ of_span rep offset len k = true /\ c_entry k = e /\
      forall r, r ∈ c_rows t -> of_span rep offset len r = true -> newer c_id c_at r k = false
  end.
Proof.
  unfold StoreLatest. pose proof (sort_by_sorted (newer c_id c_at) (filter (fun r => of_span rep offset len r = true) (c_rows t))) as Hs.
  pose proof (sort_by_perm (newer c_id c_at) (filter (fun r => of_span rep offset len r = true) (c_rows t))) as Hp.
  destruct (sort_by _ _) as [|k ks]; cbn [head fmap option_fmap option_map].
  - intros r Hr. apply not_true_iff_false. intros Hsp. apply (not_elem_of_nil r). rewrite Hp. by apply list_elem_of_filter.
  - assert (Hk : k ∈ k :: ks) by left. rewrite Hp in Hk. apply list_elem_of_filter in Hk as [Hk Hin].
    exists k. split_and!; [done..|]. intros r Hr Hsp.
    assert (Hrk : r ∈ k :: ks) by (rewrite Hp; by apply list_elem_of_filter).
    apply list.elem_of_cons in Hrk as [->|Hrk].
    + unfold newer. rewrite Z.ltb_irrefl, andb_false_r, orb_false_r. destruct (time_text_ltb _ _) eqn:E; [|done].
      pose proof (weak_asym _ _ E). congruence.
    + inversion Hs as [|? ? _ Hf]; subst. by apply (proj1 (list.Forall_forall _ _) Hf).
Qed.

(** The latest of the spans of a list of representations, as the loop finds it. *)
Definition latest_of (t : continuity_table) (offset len : Z) (aliases : list bytes) (l : option ContinuityEntry)
    : option ContinuityEntry :=
  fold_left (fun l alias => later (StoreLatest alias offset len t) l) aliases l.

Lemma latest_of_spec t offset len aliases : forall l0,
  match latest_of t offset len aliases l0 with
  | None => l0 = None /\ forall a, a ∈ aliases -> StoreLatest a offset len t = None
  | Some e => (l0 = Some e \/ exists a, a ∈ aliases /\ StoreLatest a offset len t = Some e) /\
      (forall e0, l0 = Some e0 -> ce_ObservedAt e0 <= ce_ObservedAt e) /\
      forall a e', a ∈ aliases -> StoreLatest a offset len t = Some e' -> ce_ObservedAt e' <= ce_ObservedAt e
  end.
Proof.
  induction aliases as [|a aliases IH]; intros l0.
  { cbn. destruct l0 as [e|]; [|split; [done|]; intros a Ha; by apply not_elem_of_nil in Ha].
    split; [by left|]. split; [by intros e0 [= ->]|]. intros a e' Ha. by apply not_elem_of_nil in Ha. }
  change (latest_of t offset len (a :: aliases) l0) with (latest_of t offset len aliases (later (StoreLatest a offset len t) l0)).
  specialize (IH (later (StoreLatest a offset len t) l0)).
  destruct (latest_of t offset len aliases _) as [e|].
  - destruct IH as (Hfrom & Hle0 & Hle). split; [|split].
    + destruct Hfrom as [Hl|(b & Hb & E)]; [|right; exists b; split; [by right|done]]. unfold later in Hl.
      destruct (StoreLatest a offset len t) as [c|] eqn:Ec; [|by left].
      destruct l0 as [l|]; [destruct (_ <? _); [|by left]|]; right; exists a; (split; [left|congruence]).
    + intros e0 ->. unfold later in Hle0. destruct (StoreLatest a offset len t) as [c|]; [|by apply Hle0].
      destruct (Z.ltb_spec (ce_ObservedAt e0) (ce_ObservedAt c)); [|by apply Hle0]. specialize (Hle0 c eq_refl). lia.
    + intros b e' [->|Hb]%list.elem_of_cons E; [|by eapply Hle]. unfold later in Hle0. rewrite E in Hle0.
      destruct l0 as [l|]; [|by apply Hle0]. destruct (Z.ltb_spec (ce_ObservedAt l) (ce_ObservedAt e')); [by apply Hle0|].
      specialize (Hle0 l eq_refl). lia.
  - destruct IH as [Hl Hno]. unfold later in Hl. destruct (StoreLatest a offset len t) as [c|] eqn:Ec.
    + by destruct l0 as [l|]; [destruct (_ <? _)|].
    + split; [done|]. intros b [->|Hb]%list.elem_of_cons; auto.
Qed.

(** ** The ledger on its store *)

Section Sequential.
Context `{Context LedgerStore, Clock LedgerStore}.

(** The context and the clock leave the store alone. *)
Context (ctx_reads : forall s, (ctx_Err s).1 = s) (clock_reads : forall s, (time_Now s).1 = s).

Definition now_of (s : LedgerStore) : Z := (time_Now s).2.

Lemma aliases_read id s s' r : representationAliases id s = (s', r) -> s' = s /\
  forall ids size, r = Ok (ids, size) -> id ∈ ids.
Proof.
  unfold representationAliases, ListRepresentationAliases. intros E. cbn [ledger_proofs] in E.
  assert (Hl : forall w w' x, on_store (list_aliases id DefaultMaxRoutesPerRepresentation) w = (w', x) -> w' = w /\
    forall ids size, x = Ok (ids, size) -> ids = [] \/ id ∈ ids).
  { intros [p t] w' x Ew. unfold on_store in Ew. cbn [ls_store ls_table] in Ew.
    destruct (list_aliases _ _ _) as [p' r'] eqn:Ea. injection Ew as <- <-. apply list_aliases_self in Ea as [-> Ea]. by split. }
  calls E; apply Hl in Hc as [-> Hc]; (split; [done|]); intros ids size [= <- <-]; [left|].
  destruct (Hc _ _ eq_refl); [|done]. bool_hyps. done.
Qed.

Lemma list_read ids now s s' r : ListContentProofs ids now s = (s', r) -> s' = s /\ r = ListProofs ids now (proofs (ls_store s)).
Proof. destruct s as [[p c] t]. cbn. intros E. by injection E as <- <-. Qed.

Lemma latest_loop_read aliases offset len l s :
  latest_loop aliases offset len l s = (s, Ok (latest_of (ls_table s) offset len aliases l)).
Proof.
  revert l. induction aliases as [|a aliases IH]; intros l; [done|]. cbn [latest_loop].
  unfold call_bind at 1. cbn. apply IH.
Qed.

Lemma clock_read s s' t : time_Now s = (s', t) -> s' = s /\ t = now_of s.
Proof. intros E. pose proof (clock_reads s) as Hr. unfold now_of. by rewrite E in *. Qed.

Lemma ctx_read s s' r : ctx_Err s = (s', r) -> s' = s.
Proof. intros E. pose proof (ctx_reads s) as Hr. by rewrite E in Hr. Qed.

(** The proofs of a group of names that are in force. *)
Definition in_force (s : LedgerStore) (ids : list bytes) (p : Evidence) : Prop :=
  (exists r, r ∈ rows (proofs (ls_store s)) /\ row_evidence r = p) /\ RepresentationID p ∈ ids /\
  unexpired (now_of s) p = true.

(** A last recorded observation of a span among a group of names: no row of its
    own name has a newer text, and the newest row of every name is no later. *)
Definition last_of (t : continuity_table) (ids : list bytes) (o : Observation) (k : continuity_row) : Prop :=
  k ∈ c_rows t /\ c_rep k ∈ ids /\ of_span (c_rep k) (o_Offset o) (o_Length o) k = true /\
  (forall r, r ∈ c_rows t -> of_span (c_rep k) (o_Offset o) (o_Length o) r = true -> newer c_id c_at r k = false) /\
  forall a e, a ∈ ids -> StoreLatest a (o_Offset o) (o_Length o) t = Some e -> ce_ObservedAt e <= c_at k.

Lemma append_run e n s s' err : AppendContinuity e n s = (s', err) ->
  match err with
  | Some _ => s' = s
  | None => exists t, StoreAppend e n (ls_table s) = (t, None) /\ s' = MkLedgerStore (ls_store s) t
  end.
Proof.
  cbn [AppendContinuity ledger_entries]. destruct (StoreAppend e n (ls_table s)) as [t r] eqn:E. intros [= <- <-].
  destruct r as [err|]; [|eauto]. apply StoreAppend_fail in E as ->. by destruct s.
Qed.

(** One run of [Observe] on the store. *)
Lemma Observe_run l o s s' e err : Observe l o s = (s', (e, err)) ->
  match err with
  | Some _ => s' = s
  | None =>
      exists ids size ev, o_RepresentationID o ∈ ids /\ validateObservation o = None /\
        representationAliases (o_RepresentationID o) s = (s, Ok (ids, size)) /\
        ListProofs ids (now_of s) (proofs (ls_store s)) = Ok ev /\
        e = relate_loop ev (MkEntry o ContinuityTOFU no_provenance
              (mutated (latest_of (ls_table s) (o_Offset o) (o_Length o) ids None) (o_Digest o)) (now_of s)) /\
        exists t, StoreAppend e (l_max l) (ls_table s) = (t, None) /\ s' = MkLedgerStore (ls_store s) t
  end.
Proof.
  intros E. unfold Observe in E. calls E;
    repeat match goal with
    | Hc : ctx_Err _ = _ |- _ => apply ctx_read in Hc as ->
    | Hc : time_Now _ = _ |- _ => apply clock_read in Hc as [-> ->]
    | Hc : latest_loop _ _ _ _ _ = _ |- _ => rewrite latest_loop_read in Hc; injection Hc as <- <-
    | Hc : ListContentProofs _ _ _ = _ |- _ => apply list_read in Hc as [-> Hc]
    end; try done.
  all: match goal with Ha : representationAliases _ _ = _ |- _ => pose proof Ha as Ha'; apply aliases_read in Ha' as [-> Hid] end;
    try done.
  all: try match goal with Ha : AppendContinuity _ _ _ = _ |- _ => apply append_run in Ha end; try done.
  - do 3 eexists. split; [by eapply Hid|]. split_and!; eauto.
  - match goal with Hl : latest_loop _ _ _ _ _ = _ |- _ => by rewrite latest_loop_read in Hl end.
Qed.

Lemma mutated_spec t ids o : let l := latest_of t (o_Offset o) (o_Length o) ids None in
  if mutated l (o_Digest o)
  then exists k, last_of t ids o k /\ o_Digest (ce_Observation (c_entry k)) <> o_Digest o
  else (forall r, r ∈ c_rows t -> c_rep r ∈ ids -> of_span (c_rep r) (o_Offset o) (o_Length o) r = false) \/
       exists k, last_of t ids o k /\ o_Digest (ce_Observation (c_entry k)) = o_Digest o.
Proof.
  intros l. pose proof (latest_of_spec t (o_Offset o) (o_Length o) ids None) as Hl. fold l in Hl. clearbody l.
  destruct l as [e|]; cbn [mutated].
  - destruct Hl as ([?|(a & Ha & Ea)] & _ & Hle); [done|].
    pose proof (StoreLatest_spec a (o_Offset o) (o_Length o) t) as Hs. rewrite Ea in Hs.
    destruct Hs as (k & Hk & Hsp & <- & Hnew). pose proof Hsp as (Hrep & _)%of_span_spec.
    assert (Hlast : last_of t ids o k) by (unfold last_of; rewrite Hrep; done).
    destruct (equalBytes _ _) eqn:Ed; cbn [negb].
    + right. exists k. split; [done|]. by apply equalBytes_spec.
    + exists k. split; [done|]. intros Eq%equalBytes_spec. congruence.
  - destruct Hl as [_ Hno]. left. intros r Hr Hrep. specialize (Hno _ Hrep).
    pose proof (StoreLatest_spec (c_rep r) (o_Offset o) (o_Length o) t) as Hs. rewrite Hno in Hs. by apply Hs.
Qed.

(** Every recorded observation is classified by the evidence and by the
    history.  An observation that fails changes nothing.  One that succeeds stores
    the span as observed now (unless the representation is full of entries whose
    texts are none older), keeps the entries of other representations and the
    bounds of the table, and is authoritative exactly when its group has proofs in
    force of SHA-256 for exactly this span and all have its digest, a conflict
    exactly when one has another digest, and first use exactly when there is none.
    It is a mutation exactly when the last entry of the span in the group has
    another digest. *)
Theorem observe_classifies l o s s' e err :
  0 <= l_max l -> ctable_ok (l_max l) (ls_table s) -> Observe l o s = (s', (e, err)) ->
  match err with
  | Some _ => s' = s
  | None =>
      exists ids, o_RepresentationID o ∈ ids /\
      let proof p := in_force s ids p /\ proof_of_span o p = true in
      ce_Observation e = o /\ ce_ObservedAt e = now_of s /\ validateObservation o = None /\
      match ce_Relation e with
      | ContinuityTOFU => forall p, ~ proof p
      | ContinuityAuthoritative => (exists p, proof p) /\ forall p, proof p -> Digest p = o_Digest o
      | ContinuityConflict => exists p, proof p /\ Digest p <> o_Digest o /\ ce_Provenance e = e_Provenance p
      end /\
      (if ce_Mutation e
       then exists k, last_of (ls_table s) ids o k /\ o_Digest (ce_Observation (c_entry k)) <> o_Digest o
       else (forall r, r ∈ c_rows (ls_table s) -> c_rep r ∈ ids ->
               of_span (c_rep r) (o_Offset o) (o_Length o) r = false) \/
            exists k, last_of (ls_table s) ids o k /\ o_Digest (ce_Observation (c_entry k)) = o_Digest o) /\
      ls_store s' = ls_store s /\ ctable_ok (l_max l) (ls_table s') /\
      (forall r, r ∈ c_rows (ls_table s') -> c_entry r = e \/ r ∈ c_rows (ls_table s)) /\
      (forall r, r ∈ c_rows (ls_table s) -> c_rep r <> o_RepresentationID o -> r ∈ c_rows (ls_table s')) /\
      ((exists r, r ∈ c_rows (ls_table s') /\ c_entry r = e) \/
       (Z.of_nat (length (filter (fun r => c_rep r = o_RepresentationID o) (c_rows (ls_table s')))) = l_max l /\
        forall k, k ∈ c_rows (ls_table s') -> c_rep k = o_RepresentationID o ->
          time_text_ltb (c_at k) (ce_ObservedAt e) = false))
  end.
Proof.
  intros Hm Ht E. apply Observe_run in E. destruct err as [err|]; [done|].
  destruct E as (ids & size & ev & Hid & Hv & _ & Hlist & -> & t & Happ & ->). exists ids. split; [done|].
  set (mut := mutated _ _) in *.
  destruct (relate_loop_spec o ev ContinuityTOFU no_provenance mut (now_of s) ltac:(done)) as (Eo & Em & Ea & Hrel).
  destruct (StoreAppend_ok (l_max l) _ _ _ Hm Ht Happ) as (Ht' & Hfrom & Hoth & Hst). rewrite Eo in *.
  assert (Hev : forall p, p ∈ ev <-> in_force s ids p).
  { intros p. rewrite (ListProofs_elem _ _ _ _ Hlist p). unfold in_force. naive_solver. }
  cbn zeta. cbn [ls_store ls_table]. split_and!; try done.
  - destruct (ce_Relation _).
    + intros p [Hp%Hev Hsp]. destruct Hrel as [_ Hno]. specialize (Hno p Hp). congruence.
    + destruct Hrel as [[?|(p & Hp & Hsp)] Hall]; [done|]. split; [exists p; by rewrite <-Hev|].
      intros q [Hq%Hev Hsq]. auto.
    + destruct Hrel as (p & Hp%Hev & Hsp & Hd & Hprov). by exists p.
  - rewrite Em. unfold mut. apply (mutated_spec (ls_table s) ids o).
Qed.

(** ** History *)

(** The stores reached by any observations, accepted or not, while the proofs and
    the groups change in any way between them. *)
Inductive ledger_reached (l : Ledger) : LedgerStore -> Prop :=
| ledger_empty p : ledger_reached l (MkLedgerStore p (MkCTable [] 1))
| ledger_observed s o s' r : ledger_reached l s -> Observe l o s = (s', r) -> ledger_reached l s'
| ledger_others s p : ledger_reached l s -> ledger_reached l (MkLedgerStore p (ls_table s)).

Lemma ledger_reached_ok l s : 0 <= l_max l -> ledger_reached l s ->
  ctable_ok (l_max l) (ls_table s) /\
  forall r, r ∈ c_rows (ls_table s) -> validateObservation (ce_Observation (c_entry r)) = None.
Proof.
  intros Hm. induction 1 as [p|s o s' [e err] _ [IH1 IH2] E|s p _ IH]; [| |done].
  - split; [split; cbn; [constructor|..]; try lia|]; intros r Hr; by apply not_elem_of_nil in Hr.
  - apply Observe_run in E. destruct err as [err|]; [by subst|].
    destruct E as (ids & size & ev & _ & Hv & _ & _ & -> & t & Happ & ->).
    destruct (StoreAppend_ok (l_max l) _ _ _ Hm IH1 Happ) as (Ht & Hfrom & _). split; [done|].
    intros r [->|Hr]%Hfrom; [|auto]. set (mut := mutated _ _).
    by destruct (relate_loop_spec o ev ContinuityTOFU no_provenance mut (now_of s) ltac:(done)) as (-> & _).
Qed.

(** The entries of one name, oldest row first. *)
Definition entries_of (t : continuity_table) (rep : bytes) : list ContinuityEntry :=
  map c_entry (filter (fun r => c_rep r = rep) (c_rows t)).

Lemma history_loop_run aliases h s : exists h', history_loop aliases h s = (s, Ok h') /\
  h' ≡ₚ h ++ concat (map (entries_of (ls_table s)) aliases).
Proof.
  revert h. induction aliases as [|a aliases IH]; intros h; cbn [history_loop map concat].
  { exists h. by rewrite app_nil_r. }
  destruct (IH (h ++ StoreHistory a (ls_table s))) as (h' & E & Hp). exists h'. split.
  - unfold call_bind at 1. cbn. exact E.
  - rewrite Hp, <-app_assoc. do 2 f_equiv. unfold StoreHistory, entries_of. by rewrite sort_by_perm.
Qed.

(** The ledger's history is whole, ordered and bounded.  After any
    observations, accepted or not, while proofs and groups change in between, a
    representation has at most the ledger's limit of entries, all of valid spans
    with a SHA-256 digest; and reading the history of a representation changes
    nothing and returns exactly the entries of every name of its group, in the
    order of their observation. *)
Theorem ledger_history l s :
  0 <= l_max l -> ledger_reached l s ->
  (forall rep, Z.of_nat (length (entries_of (ls_table s) rep)) <= l_max l) /\
  (forall r, r ∈ c_rows (ls_table s) ->
     let o := ce_Observation (c_entry r) in
     opaque (o_RepresentationID o) /\ 0 <= o_Offset o <= maxInt64 /\ 0 < o_Length o <= maxInt64 /\
     length (o_Digest o) = 32%nat) /\
  forall id s' h, History id s = (s', Ok h) ->
    s' = s /\ exists ids, id ∈ ids /\ h ≡ₚ concat (map (entries_of (ls_table s)) ids) /\
    StronglySorted (fun a b => ce_ObservedAt a <= ce_ObservedAt b) h.
Proof.
  intros Hm Hs. destruct (ledger_reached_ok l s Hm Hs) as [Ht Hv]. split_and!.
  - intros rep. unfold entries_of. rewrite length_map. apply (ct_limit _ _ Ht).
  - intros r Hr o. specialize (Hv r Hr). pose proof (ct_checked _ _ Ht r Hr) as Hc. unfold entry_check in Hc. fold o in Hc, Hv.
    unfold validateObservation in Hv. rewrite !first_error_none, opaque_spec in Hv. bool_hyps. split_and!; try lia. apply Hv.
  - intros id s' h E. unfold History in E. calls E.
    apply ctx_read in Hc as ->. pose proof Hc0 as Ha. apply aliases_read in Ha as [-> Hid].
    match goal with Hl : history_loop ?ids [] s = _ |- _ => destruct (history_loop_run ids [] s) as (h' & E' & Hp); rewrite Hl in E' end.
    injection E' as -> ->. split; [done|]. eexists. split; [by eapply Hid|]. split; [by rewrite sort_by_perm|].
    pose proof (sort_by_sorted ascending h') as Hsort. revert Hsort.
    induction (sort_by ascending h') as [|a b IH]; intros Hsort; [constructor|]. inversion Hsort as [|? ? Hb Hf]; subst.
    constructor; [auto|]. eapply list.Forall_impl; [exact Hf|]. unfold ascending. intros x Hx. bool_hyps. lia.
Qed.

End Sequential.

(** A ledger over a store with one proof of the span observed. *)
Module LedgerDemo.

#[export] Instance context : Context LedgerStore := {| ctx_Err := fun s => (s, None) |}.
#[export] Instance clock : Clock LedgerStore := {| time_Now := fun s => (s, 5 * second) |}.

Definition block : Evidence :=
  MkEvidence (str "rep") ScopeBlock 0 16 KindAuthoritative AlgorithmSHA256 (repeat 1 32)
    ProvenanceHTTPDigest [] None (5 * second).
Definition start : LedgerStore :=
  MkLedgerStore (MkStore (MkTable [MkRow 1 block eq_refl] 2) empty_tables) (MkCTable [] 1).
Definition ledger : Ledger := MkLedger 2.
Definition served (digest : Z) : Observation := MkObservation (str "rep") 0 16 (repeat digest 32).
(** The store after a span that agrees with the proof was served. *)
Definition once : LedgerStore := (Observe ledger (served 1) start).1.

End LedgerDemo.

Import LedgerDemo.

Lemma ledger_ctx_reads : forall s : LedgerStore, (ctx_Err s).1 = s.
Proof. reflexivity. Qed.

Lemma ledger_clock_reads : forall s : LedgerStore, (time_Now s).1 = s.
Proof. reflexivity. Qed.

Lemma ledger_once : ledger_reached ledger once.
Proof. eapply ledger_observed; [apply ledger_empty|apply surjective_pairing]. Qed.

Lemma once_ok : ctable_ok 2 (ls_table once).
Proof. exact (proj1 (ledger_reached_ok ledger_ctx_reads ledger_clock_reads ledger once ltac:(cbn; lia) ledger_once)). Qed.

Lemma observe_classifies_witness :
  exists s' e, Observe ledger (served 2) once = (s', (e, None)) /\ ce_Relation e = ContinuityConflict /\
    ce_Mutation e = true /\ ls_store s' = ls_store once /\ ctable_ok 2 (ls_table s').
Proof.
  destruct (Observe ledger (served 2) once) as [s' [e err]] eqn:E.
  assert (Hr : err = None /\ ce_Relation e = ContinuityConflict /\ ce_Mutation e = true)
    by (vm_compute in E; injection E as <- <- <-; split; [reflexivity|split; reflexivity]).
  destruct Hr as (Herr & Hrel & Hmut). subst err. exists s', e. split; [reflexivity|]. split; [exact Hrel|]. split; [exact Hmut|].
  destruct (observe_classifies ledger_ctx_reads ledger_clock_reads ledger (served 2) once s' e None ltac:(cbn; lia) once_ok E)
    as (ids & _ & _ & _ & _ & _ & _ & Hs & Ht & _).
  split; [exact Hs|exact Ht].
Defined.

Lemma ledger_history_witness :
  exists s' h, History (str "rep") once = (s', Ok h) /\ s' = once /\ length h = 1%nat.
Proof.
  destruct (History (str "rep") once) as [s' r] eqn:E.
  destruct r as [h|err]; [|exfalso; vm_compute in E; discriminate E].
  exists s', h. split; [reflexivity|]. split; [|vm_compute in E; injection E as _ <-; reflexivity].
  exact (proj1 (proj2 (proj2 (ledger_history ledger_ctx_reads ledger_clock_reads ledger once ltac:(cbn; lia) ledger_once))
    (str "rep") s' h E)).
Defined.
