(* ===== verification/Inflight.v ===== *)
(** Coalesced fetches: internal/rangecache/inflight.go.

    Callers that want one payload share one upstream read.  The struct of a fetch
    lives at an address of the heap, which is what [cur == e] compares; each locked
    section is one function on the cache, and the step relation interleaves any
    number of callers with the goroutines that read upstream.  [waiters] counts
    blocked goroutines, far below the width of an int. *)

From Stdlib Require Import ZArith Lia.
From stdpp Require Import base list numbers strings gmap.
From S2P Require Import Prelude Outcome.

Local Open Scope Z_scope.

(** ** The cache *)

Inductive FetchClass : Type := FetchDemand | FetchReadahead.

#[export] Instance FetchClass_eq_dec : EqDecision FetchClass.
Proof. solve_decision. Defined.

(** A payload and an error; a nil slice is [None]. *)
Abbreviation answer := (option bytes * option goerror)%type.

Record inflightFetch := MkFetch {
  waiters : Z;
  demandJoined : bool;
  done : bool;
  f_data : option bytes;
  f_err : option goerror;
  cancelled : bool
}.

Record Cache := MkCache {
  inflight : gmap bytes nat;
  heap : gmap nat inflightFetch;
  next : nat;
  demandJoins : Z;
  coalescedJoins : Z;
  coalescedAborts : Z
}.

Definition empty_cache : Cache := MkCache ∅ ∅ 0 0 0 0.

Definition set_fetch (c : Cache) (a : nat) (e : inflightFetch) : Cache :=
  MkCache (inflight c) (<[a := e]> (heap c)) (next c) (demandJoins c) (coalescedJoins c) (coalescedAborts c).

Definition set_inflight (c : Cache) (m : gmap bytes nat) : Cache :=
  MkCache m (heap c) (next c) (demandJoins c) (coalescedJoins c) (coalescedAborts c).

(** The locked section of [fetchCoalesced]: the fetch to wait for, and whether
    the caller leads it. *)
Definition join (c : Cache) (key : bytes) (class : FetchClass) : Cache * nat * bool :=
  match inflight c !! key with
  | Some a =>
      match heap c !! a with
      | Some e =>
          let first_demand := bool_decide (class = FetchDemand) && negb (demandJoined e) in
          let e := MkFetch (waiters e + 1) (demandJoined e || first_demand) (done e) (f_data e) (f_err e) (cancelled e) in
          (MkCache (inflight c) (<[a := e]> (heap c)) (next c)
             (if first_demand then i64 (demandJoins c + 1) else demandJoins c)
             (i64 (coalescedJoins c + 1)) (coalescedAborts c), a, false)
      | None => (c, a, false)
      end
  | None =>
      let a := next c in
      let e := MkFetch 1 (bool_decide (class = FetchDemand)) false None None false in
      (MkCache (<[key := a]> (inflight c)) (<[a := e]> (heap c)) (S a)
         (demandJoins c) (coalescedJoins c) (coalescedAborts c), a, true)
  end.

(** A readahead fetch that returned neither data nor an error is tried again as a
    demand fetch. *)
Definition falls_back (class : FetchClass) (r : answer) : bool :=
  bool_decide (r.1 = None) && bool_decide (r.2 = None) && bool_decide (class = FetchReadahead).

(** The end of the goroutine: the result, [close(e.done)] and [cancel()]. *)
Definition finish (c : Cache) (a : nat) (r : answer) : Cache :=
  match heap c !! a with
  | Some e => set_fetch c a (MkFetch (waiters e) (demandJoined e) true r.1 r.2 true)
  | None => c
  end.

(** The locked section of [releaseWaiter], and whether the caller then cancels
    the fetch. *)
Definition releaseWaiter (c : Cache) (key : bytes) (a : nat) (abandoned : bool) : Cache * bool :=
  match heap c !! a with
  | Some e =>
      let e := MkFetch (waiters e - 1) (demandJoined e) (done e) (f_data e) (f_err e) (cancelled e) in
      let last := waiters e <=? 0 in
      let c := set_fetch c a e in
      let c := if last && bool_decide (inflight c !! key = Some a)
               then set_inflight c (delete key (inflight c)) else c in
      (c, abandoned && last)
  | None => (c, false)
  end.

(** What follows the lock: the counter and [e.cancel()]. *)
Definition cancel_fetch (c : Cache) (a : nat) : Cache :=
  match heap c !! a with
  | Some e =>
      MkCache (inflight c) (<[a := MkFetch (waiters e) (demandJoined e) (done e) (f_data e) (f_err e) true]> (heap c))
        (next c) (demandJoins c) (coalescedJoins c) (i64 (coalescedAborts c + 1))
  | None => c
  end.

(** [append([]byte(nil), data...)]: a copy, nil when empty. *)
Definition copy_payload (data : option bytes) : option bytes :=
  match data with Some [] => None | _ => data end.

(** What [fetchCoalesced] returns once the fetch is done. *)
Definition returned (e : inflightFetch) (leader : bool) : answer * bool :=
  match f_err e with
  | Some err => ((None, Some err), false)
  | None => if leader then ((f_data e, None), true) else ((copy_payload (f_data e), None), false)
  end.

Definition inflightLen (c : Cache) : nat := size (inflight c).

(** ** The interleaving of callers and fetches *)

Inductive thread : Type :=
| TAwait (key : bytes) (a : nat) (leader : bool)            (* blocked in [awaitInflight] *)
| TFetch (key : bytes) (class : FetchClass) (a : nat)       (* the goroutine that reads upstream *)
| TCancel (a : nat)                                         (* about to cancel the fetch *)
| TReturned (key : bytes) (r : answer) (leader : bool).     (* [fetchCoalesced] returned *)

Record sys := Sys { cache : Cache; threads : list thread }.

Section Steps.
(** What the source may answer for the payload of a key. *)
Context (Fetch : bytes -> FetchClass -> answer -> Prop).

Definition fetched (key : bytes) (class : FetchClass) (r : answer) : Prop :=
  exists first, Fetch key class first /\ if falls_back class first then Fetch key FetchDemand r else r = first.

Inductive step : sys -> sys -> Prop :=
| step_arrive c ts key class c' a leader :
    join c key class = (c', a, leader) ->
    step (Sys c ts) (Sys c' ((if leader then [TFetch key class a] else []) ++ TAwait key a leader :: ts))
| step_finish c ts rest key class a r :
    ts ≡ₚ TFetch key class a :: rest -> fetched key class r ->
    step (Sys c ts) (Sys (finish c a r) rest)
| step_take c ts rest key a leader e :
    ts ≡ₚ TAwait key a leader :: rest -> heap c !! a = Some e -> done e = true ->
    step (Sys c ts) (Sys (releaseWaiter c key a false).1
      (TReturned key (returned e leader).1 (returned e leader).2 :: rest))
| step_abandon c ts rest key a leader err c' cancels :
    ts ≡ₚ TAwait key a leader :: rest -> releaseWaiter c key a true = (c', cancels) ->
    step (Sys c ts) (Sys c' ((if cancels then [TCancel a] else []) ++ TReturned key (None, Some err) false :: rest))
| step_cancel c ts rest a :
    ts ≡ₚ TCancel a :: rest ->
    step (Sys c ts) (Sys (cancel_fetch c a) rest).

Inductive reachable : sys -> Prop :=
| reach_init : reachable (Sys empty_cache [])
| reach_step s s' : reachable s -> step s s' -> reachable s'.

(** ** Counting waiters *)

Definition awaits (a : nat) (t : thread) : bool :=
  match t with TAwait _ a' _ => bool_decide (a' = a) | _ => false end.

Definition waiting (a : nat) (ts : list thread) : Z := count_by (awaits a) ts.

Definition fetch_addr (t : thread) : option nat := match t with TFetch _ _ a => Some a | _ => None end.

Lemma waiting_cons a t ts : waiting a (t :: ts) = (if awaits a t then 1 else 0) + waiting a ts.
Proof. apply count_cons. Qed.

Lemma waiting_perm a t1 t2 : t1 ≡ₚ t2 -> waiting a t1 = waiting a t2.
Proof. apply count_perm. Qed.

Lemma waiting_nonneg a ts : 0 <= waiting a ts.
Proof. apply count_nonneg. Qed.

Lemma waiting_zero a ts key ld : waiting a ts = 0 -> TAwait key a ld ∉ ts.
Proof.
  intros Hw Hin. assert (0 < waiting a ts); [|lia]. apply count_pos. eexists. split; [done|]. cbn. by rewrite bool_decide_true.
Qed.

Lemma waiting_pos a ts : 0 < waiting a ts -> exists key ld, TAwait key a ld ∈ ts.
Proof. intros (t & Ht & Hf)%count_pos. destruct t; try done. cbn in Hf. bool_hyps. subst. eauto. Qed.

(** ** The invariant *)

(** A fetch in the map: it has waiters, it is running or done, and it is not
    cancelled while it runs. *)
Record live (ts : list thread) (key : bytes) (a : nat) (e : inflightFetch) : Prop := {
  lv_waiters : 0 < waiters e;
  lv_cancelled : cancelled e = true -> done e = true;
  lv_result : (done e = false /\ exists class, TFetch key class a ∈ ts) \/
    (done e = true /\ exists class, fetched key class (f_data e, f_err e))
}.

(** A result that came from upstream. *)
Definition delivered (key : bytes) (r : answer) (leader : bool) : Prop :=
  exists class r0, fetched key class r0 /\ r0.2 = None /\ default [] r.1 = default [] r0.1 /\
    (leader = true -> r.1 = r0.1).

Record inv (c : Cache) (ts : list thread) : Prop := {
  v_heap : forall a e, heap c !! a = Some e -> (a < next c)%nat;
  v_count : forall a e, heap c !! a = Some e -> waiters e = waiting a ts;
  v_await : forall key a ld, TAwait key a ld ∈ ts -> inflight c !! key = Some a;
  v_map : forall key a, inflight c !! key = Some a -> exists e, heap c !! a = Some e /\ live ts key a e;
  v_inj : forall k1 k2 a, inflight c !! k1 = Some a -> inflight c !! k2 = Some a -> k1 = k2;
  v_fetch : forall key class a, TFetch key class a ∈ ts -> exists e, heap c !! a = Some e /\ done e = false /\
    (inflight c !! key = Some a \/ (waiters e = 0 /\ (cancelled e = true \/ TCancel a ∈ ts)));
  v_once : NoDup (omap fetch_addr ts);
  v_cancel : forall a, TCancel a ∈ ts -> exists e, heap c !! a = Some e /\ waiters e = 0;
  v_returned : forall key r ld, TReturned key r ld ∈ ts -> r.2 = None -> delivered key r ld
}.

Lemma live_perm t1 t2 key a e : t1 ≡ₚ t2 -> live t1 key a e -> live t2 key a e.
Proof. intros P [? ? H]. split; [done..|]. destruct H as [[? (cl & H)]|H]; [left|by right]. split; [done|]. exists cl. by rewrite <-P. Qed.

Lemma flight_inv_perm c t1 t2 : t1 ≡ₚ t2 -> inv c t1 -> inv c t2.
Proof.
  intros P []. split; try done.
  - intros a e He. rewrite <-(waiting_perm a _ _ P). auto.
  - intros key a ld. rewrite <-P. eauto.
  - intros key a Ha. destruct (v_map0 key a Ha) as (e & He & Hl). exists e. split; [done|]. by eapply live_perm.
  - intros key class a. rewrite <-P. intros H. destruct (v_fetch0 key class a H) as (e & ? & ? & Hc). exists e.
    split_and!; [done..|]. by rewrite <-P.
  - by rewrite <-P.
  - intros a. rewrite <-P. auto.
  - intros key r ld. rewrite <-P. auto.
Qed.

Lemma empty_inv : inv empty_cache [].
Proof.
  split; cbn; try (intros * H; exfalso; by apply not_elem_of_nil in H); try (by (intros *; rewrite lookup_empty)); constructor.
Qed.

(** Threads other than the waiters of [a] do not change what is live at [a]. *)
Lemma live_threads ts ts' key a e : (forall class, TFetch key class a ∈ ts -> TFetch key class a ∈ ts') ->
  live ts key a e -> live ts' key a e.
Proof. intros Hf [? ? H]. split; [done..|]. destruct H as [[? (cl & H)]|H]; [left; eauto|by right]. Qed.

(** A caller joins the fetch of its key. *)
Lemma join_fetch_inv c ts key class c' a ld b : inv c ts -> inflight c !! key = Some b ->
  join c key class = (c', a, ld) -> ld = false /\ inv c' (TAwait key a ld :: ts).
Proof.
  intros [Hheap Hcount Hawait Hmap Hinj Hfetch Honce Hcancel Hret] Hk E. unfold join in E. rewrite Hk in E.
  destruct (Hmap key b Hk) as (e & He & [Hw Hc Hr]). rewrite He in E. injection E as <- <- <-. split; [done|].
  split; cbn [inflight heap next].
  - intros a' e' [[<- _]|[_ H]]%lookup_insert_Some; eauto.
  - intros a' e' [[<- <-]|[Hne H]]%lookup_insert_Some; rewrite waiting_cons; cbn [waiters awaits].
    + rewrite bool_decide_true by done. rewrite (Hcount b e He). lia.
    + rewrite bool_decide_false by done. rewrite (Hcount a' e' H). lia.
  - intros k a' ld [[= -> -> ->]|H]%list.elem_of_cons; [done|eauto].
  - intros k a' Hk'. destruct (Hmap k a' Hk') as (e' & He' & Hl). destruct (decide (a' = b)) as [->|Hne].
    + rewrite lookup_insert_eq. eexists. split; [done|]. rewrite He in He'. injection He' as <-.
      apply (live_threads ts); [by intros; apply list.elem_of_cons; right|].
      destruct Hl as [? ? ?]. split; cbn [waiters cancelled done f_data f_err]; [lia|done|done].
    + rewrite lookup_insert_ne by done. exists e'. split; [done|].
      apply (live_threads ts); [by intros; apply list.elem_of_cons; right|done].
  - done.
  - intros k cl a' [?|H]%list.elem_of_cons; [done|]. destruct (Hfetch k cl a' H) as (e' & He' & Hd & Hor).
    destruct (decide (a' = b)) as [->|Hne].
    + rewrite lookup_insert_eq. eexists. split; [done|]. cbn [done waiters cancelled]. rewrite He in He'. injection He' as <-.
      split; [done|]. left. destruct Hor as [?|[? _]]; [done|lia].
    + rewrite lookup_insert_ne by done. exists e'. split_and!; [done..|]. rewrite list.elem_of_cons. tauto.
  - done.
  - intros a' [?|H]%list.elem_of_cons; [done|]. destruct (Hcancel a' H) as (e' & He' & Hz).
    rewrite lookup_insert_ne; [eauto|]. intros <-. rewrite He in He'. injection He' as <-. lia.
  - intros k r l [?|H]%list.elem_of_cons; [done|eauto].
Qed.

(** A caller starts the fetch of its key. *)
Lemma start_fetch_inv c ts key class c' a ld : inv c ts -> inflight c !! key = None ->
  join c key class = (c', a, ld) -> ld = true /\ inv c' (TFetch key class a :: TAwait key a ld :: ts).
Proof.
  intros [Hheap Hcount Hawait Hmap Hinj Hfetch Honce Hcancel Hret] Hk E. unfold join in E. rewrite Hk in E.
  injection E as <- <- <-. split; [done|].
  assert (Hnext : heap c !! next c = None) by (destruct (heap c !! next c) as [e|] eqn:He; [apply Hheap in He; lia|done]).
  assert (Hfresh : forall k, inflight c !! k <> Some (next c)).
  { intros k Hk'. destruct (Hmap k _ Hk') as (e & He & _). congruence. }
  assert (Hw0 : waiting (next c) ts = 0).
  { destruct (decide (0 < waiting (next c) ts)) as [Hp|]; [|pose proof (waiting_nonneg (next c) ts); lia].
    apply waiting_pos in Hp as (k & l' & H). by destruct (Hfresh k); eapply Hawait. }
  split; cbn [inflight heap next].
  - intros a' e' [[<- _]|[_ H]]%lookup_insert_Some; [lia|]. apply Hheap in H. lia.
  - intros a' e' [[<- <-]|[Hne H]]%lookup_insert_Some; rewrite !waiting_cons; cbn [waiters awaits].
    + rewrite bool_decide_true by done. lia.
    + rewrite bool_decide_false by done. rewrite (Hcount a' e' H). lia.
  - intros k a' ld [?|[[= -> -> ->]|H]%list.elem_of_cons]%list.elem_of_cons; [done|by rewrite lookup_insert_eq|].
    destruct (decide (k = key)) as [->|Hne]; [apply Hawait in H; congruence|]. rewrite lookup_insert_ne by done. eauto.
  - intros k a' [[<- <-]|[Hne H]]%lookup_insert_Some.
    + rewrite lookup_insert_eq. eexists. split; [done|]. split; cbn; [lia|done|]. left. split; [done|]. exists class. left.
    + destruct (Hmap k a' H) as (e' & He' & Hl). rewrite lookup_insert_ne by congruence. exists e'. split; [done|].
      apply (live_threads ts); [|done]. intros. by do 2 (apply list.elem_of_cons; right).
  - intros k1 k2 a' [[<- <-]|[Hne1 H1]]%lookup_insert_Some [[<- E2]|[Hne2 H2]]%lookup_insert_Some; try done;
      [by destruct (Hfresh k2)|subst; by destruct (Hfresh k1)|eauto].
  - intros k cl a' [[= -> -> ->]|[?|H]%list.elem_of_cons]%list.elem_of_cons; [|done|].
    + rewrite lookup_insert_eq. eexists. split; [done|]. split; [done|]. left. by rewrite lookup_insert_eq.
    + destruct (Hfetch k cl a' H) as (e' & He' & Hd & Hor). rewrite lookup_insert_ne by congruence.
      exists e'. split_and!; [done..|]. destruct Hor as [Hk'|Hz]; [left|right].
      * rewrite lookup_insert_ne; [done|]. congruence.
      * rewrite !list.elem_of_cons. tauto.
  - cbn [omap list_omap fetch_addr]. apply list.NoDup_cons. split; [|done].
    intros (t & Ht & E)%list_elem_of_omap. destruct t; try done. cbn in E. injection E as ->.
    destruct (Hfetch _ _ _ Ht) as (e & He & _). congruence.
  - intros a' [?|[?|H]%list.elem_of_cons]%list.elem_of_cons; [done..|]. destruct (Hcancel a' H) as (e' & He' & Hz).
    rewrite lookup_insert_ne by congruence. eauto.
  - intros k r l [?|[?|H]%list.elem_of_cons]%list.elem_of_cons; [done..|eauto].
Qed.

Lemma join_inv c ts key class c' a ld : inv c ts -> join c key class = (c', a, ld) ->
  inv c' ((if ld then [TFetch key class a] else []) ++ TAwait key a ld :: ts).
Proof.
  intros Hinv E. destruct (inflight c !! key) as [b|] eqn:Hk.
  - by destruct (join_fetch_inv c ts key class c' a ld b Hinv Hk E) as [-> H].
  - by destruct (start_fetch_inv c ts key class c' a ld Hinv Hk E) as [-> H].
Qed.

(** The goroutine publishes what it read. *)
Lemma finish_inv c rest key class a r : inv c (TFetch key class a :: rest) -> fetched key class r -> inv (finish c a r) rest.
Proof.
  intros [Hheap Hcount Hawait Hmap Hinj Hfetch Honce Hcancel Hret] Hr.
  destruct (Hfetch key class a ltac:(left)) as (e & He & Hd & Hor). unfold finish. rewrite He.
  cbn [omap list_omap fetch_addr] in Honce. apply list.NoDup_cons in Honce as [Hnot Honce].
  assert (Hother : forall k cl a', TFetch k cl a' ∈ rest -> a' <> a).
  { intros k cl a' H ->. apply Hnot, list_elem_of_omap. by exists (TFetch k cl a). }
  assert (Hin : forall t, t ∈ rest -> t ∈ TFetch key class a :: rest) by (intros t H; by right).
  split; cbn [set_fetch inflight heap next]; try by eauto.
  - intros a' e' [[<- _]|[_ H]]%lookup_insert_Some; eauto.
  - intros a' e' [[<- <-]|[Hne H]]%lookup_insert_Some; [pose proof (Hcount a e He) as Hw|pose proof (Hcount a' e' H) as Hw];
      by rewrite waiting_cons in Hw.
  - intros k a' Hk. destruct (Hmap k a' Hk) as (e' & He' & Hl). destruct (decide (a' = a)) as [->|Hne].
    + rewrite lookup_insert_eq. eexists. split; [done|]. rewrite He in He'. injection He' as <-. destruct Hl as [Hw _ _].
      destruct Hor as [Hk'|[? _]]; [|lia]. rewrite (Hinj _ _ _ Hk Hk'). split; [done|done|]. right. split; [done|].
      exists class. cbn. by destruct r.
    + rewrite lookup_insert_ne by done. exists e'. split; [done|]. apply (live_threads (TFetch key class a :: rest)); [|done].
      intros cl [[= -> -> ->]|H]%list.elem_of_cons; done.
  - intros k cl a' H. pose proof (Hother k cl a' H). destruct (Hfetch k cl a' (Hin _ H)) as (e' & He' & ? & Hor').
    rewrite lookup_insert_ne by done. exists e'. split_and!; [done..|]. rewrite list.elem_of_cons in Hor'. naive_solver.
  - intros a' H. destruct (Hcancel a' (Hin _ H)) as (e' & He' & Hz). destruct (decide (a' = a)) as [->|Hne].
    + rewrite lookup_insert_eq. eexists. split; [done|]. rewrite He in He'. by injection He' as <-.
    + rewrite lookup_insert_ne by done. eauto.
Qed.

(** A waiter leaves a fetch others still wait for. *)
Lemma leave_inv c rest key a ld e b r l : inv c (TAwait key a ld :: rest) -> heap c !! a = Some e ->
  1 < waiters e -> (r.2 = None -> delivered key r l) ->
  releaseWaiter c key a b = ((releaseWaiter c key a b).1, false) /\
  inv (releaseWaiter c key a b).1 (TReturned key r l :: rest).
Proof.
  intros [Hheap Hcount Hawait Hmap Hinj Hfetch Honce Hcancel Hret] He Hw Hr. unfold releaseWaiter. rewrite He.
  cbn [waiters]. destruct (Z.leb_spec (waiters e - 1) 0); [lia|]. rewrite andb_false_r. cbn [andb fst]. split; [done|].
  assert (Hin : forall t, t ∈ rest -> t ∈ TAwait key a ld :: rest) by (intros t H'; by right).
  split; cbn [set_fetch inflight heap next].
  - intros a' e' [[<- _]|[_ H']]%lookup_insert_Some; eauto.
  - intros a' e' [[<- <-]|[Hne H']]%lookup_insert_Some; rewrite waiting_cons; cbn [awaits waiters].
    + rewrite (Hcount a e He), waiting_cons. cbn. rewrite bool_decide_true by done. lia.
    + rewrite (Hcount a' e' H'), waiting_cons. cbn. by rewrite bool_decide_false.
  - intros k a' l' [?|H']%list.elem_of_cons; [done|eauto].
  - intros k a' Hk. destruct (Hmap k a' Hk) as (e' & He' & Hl).
    assert (Hl' : live (TReturned key r l :: rest) k a' e').
    { apply (live_threads (TAwait key a ld :: rest)); [|done]. intros cl [?|H']%list.elem_of_cons; [done|by right]. }
    destruct (decide (a' = a)) as [->|Hne]; [rewrite lookup_insert_eq|rewrite lookup_insert_ne by done; eauto].
    eexists. split; [done|]. rewrite He in He'. injection He' as <-. destruct Hl' as [? ? ?]. split; cbn; [lia|done|done].
  - done.
  - intros k cl a' [?|H']%list.elem_of_cons; [done|]. destruct (Hfetch k cl a' (Hin _ H')) as (e' & He' & Hd & Hor).
    destruct (decide (a' = a)) as [->|Hne]; [rewrite lookup_insert_eq|rewrite lookup_insert_ne by done].
    + eexists. split; [done|]. rewrite He in He'. injection He' as <-. split; [done|]. left. destruct Hor as [?|[? _]]; [done|lia].
    + exists e'. split_and!; [done..|]. rewrite list.elem_of_cons in *. naive_solver.
  - done.
  - intros a' [?|H']%list.elem_of_cons; [done|]. destruct (Hcancel a' (Hin _ H')) as (e' & He' & Hz).
    rewrite lookup_insert_ne; [eauto|]. intros <-. rewrite He in He'. injection He' as <-. lia.
  - intros k r' l' [[= -> -> ->]|H']%list.elem_of_cons; [done|eauto].
Qed.

(** The last waiter leaves: the key is free, and a running fetch is about to be
    cancelled. *)
Lemma last_leaves_inv c rest key a ld e b r l : inv c (TAwait key a ld :: rest) -> heap c !! a = Some e ->
  waiters e = 1 -> b = true \/ done e = true -> (r.2 = None -> delivered key r l) ->
  releaseWaiter c key a b = ((releaseWaiter c key a b).1, b) /\
  inflight (releaseWaiter c key a b).1 = delete key (inflight c) /\
  inv (releaseWaiter c key a b).1 ((if b then [TCancel a] else []) ++ TReturned key r l :: rest).
Proof.
  intros [Hheap Hcount Hawait Hmap Hinj Hfetch Honce Hcancel Hret] He Hw Hb Hr. unfold releaseWaiter. rewrite He.
  cbn [waiters]. rewrite Hw. change (1 - 1 <=? 0) with true. cbn [andb]. pose proof (Hawait key a ld ltac:(left)) as Hk.
  rewrite bool_decide_true by done. rewrite andb_true_r. cbn [andb fst]. split; [done|]. split; [done|].
  assert (Hin : forall t, t ∈ rest -> t ∈ TAwait key a ld :: rest) by (intros t H'; by right).
  assert (Hw0 : waiting a rest = 0).
  { pose proof (Hcount a e He) as Hc. rewrite waiting_cons in Hc. cbn in Hc. rewrite bool_decide_true in Hc by done. lia. }
  set (ts := (if b then [TCancel a] else []) ++ TReturned key r l :: rest).
  assert (Hts : forall t, t ∈ ts <-> (b = true /\ t = TCancel a) \/ t = TReturned key r l \/ t ∈ rest).
  { intros t. unfold ts. rewrite elem_of_app, list.elem_of_cons. destruct b; rewrite ?list_elem_of_singleton; [naive_solver|].
    split; [intros [H'|H']; [by apply not_elem_of_nil in H'|auto]|naive_solver]. }
  assert (Hwait : forall a', waiting a' ts = waiting a' rest) by (intros a'; unfold ts; destruct b; cbn [app]; by rewrite ?waiting_cons).
  split; cbn [set_fetch set_inflight inflight heap next].
  - intros a' e' [[<- _]|[_ H']]%lookup_insert_Some; eauto.
  - intros a' e' [[<- <-]|[Hne H']]%lookup_insert_Some; rewrite Hwait; cbn [waiters]; [lia|].
    rewrite (Hcount a' e' H'), waiting_cons. cbn. by rewrite bool_decide_false.
  - intros k a' l' [[_ ?]|[?|H']]%Hts; [done..|]. pose proof (Hawait k a' l' (Hin _ H')) as Hk'. rewrite lookup_delete_ne; [done|].
    intros <-. rewrite Hk in Hk'. injection Hk' as <-. by eapply waiting_zero.
  - intros k a' [Hne Hk']%lookup_delete_Some. destruct (Hmap k a' Hk') as (e' & He' & Hl).
    rewrite lookup_insert_ne by (intros <-; by destruct Hne; eapply Hinj). exists e'. split; [done|].
    apply (live_threads (TAwait key a ld :: rest)); [|done]. intros cl [?|H']%list.elem_of_cons; [done|]. apply Hts. auto.
  - intros k1 k2 a' [_ H1]%lookup_delete_Some [_ H2]%lookup_delete_Some. eauto.
  - intros k cl a' [[_ ?]|[?|H']]%Hts; [done..|]. destruct (Hfetch k cl a' (Hin _ H')) as (e' & He' & Hd & Hor).
    destruct (decide (a' = a)) as [->|Hne]; [rewrite lookup_insert_eq|rewrite lookup_insert_ne by done].
    + eexists. split; [done|]. rewrite He in He'. injection He' as <-. cbn. split; [done|]. right. split; [lia|]. right.
      apply Hts. left. split; [|done]. destruct Hb; [done|congruence].
    + exists e'. split_and!; [done..|]. destruct Hor as [Hk'|[Hz Hc]]; [left|right].
      * rewrite lookup_delete_ne; [done|]. congruence.
      * split; [done|]. rewrite list.elem_of_cons in Hc. destruct Hc as [?|[?|?]]; [auto|done|]. right. apply Hts. auto.
  - unfold ts. by destruct b.
  - intros a' [[_ [= ->]]|[?|H']]%Hts; [|done|].
    + rewrite lookup_insert_eq. eexists. split; [done|]. cbn. lia.
    + destruct (Hcancel a' (Hin _ H')) as (e' & He' & Hz). rewrite lookup_insert_ne; [eauto|].
      intros <-. rewrite He in He'. injection He' as <-. lia.
  - intros k r' l' [[_ ?]|[[= -> -> ->]|H']]%Hts; [done|done|eauto].
Qed.

(** The cancellation of a fetch nobody waits for. *)
Lemma flight_cancel_inv c rest a : inv c (TCancel a :: rest) -> inv (cancel_fetch c a) rest.
Proof.
  intros [Hheap Hcount Hawait Hmap Hinj Hfetch Honce Hcancel Hret].
  destruct (Hcancel a ltac:(left)) as (e & He & Hz). unfold cancel_fetch. rewrite He.
  assert (Hin : forall t, t ∈ rest -> t ∈ TCancel a :: rest) by (intros t H; by right).
  split; cbn [inflight heap next]; try by eauto.
  - intros a' e' [[<- _]|[_ H]]%lookup_insert_Some; eauto.
  - intros a' e' [[<- <-]|[Hne H]]%lookup_insert_Some; [pose proof (Hcount a e He) as Hw|pose proof (Hcount a' e' H) as Hw];
      by rewrite waiting_cons in Hw.
  - intros k a' Hk. destruct (Hmap k a' Hk) as (e' & He' & Hl). destruct (decide (a' = a)) as [->|Hne].
    + rewrite He in He'. injection He' as <-. destruct Hl. lia.
    + rewrite lookup_insert_ne by done. exists e'. split; [done|]. apply (live_threads (TCancel a :: rest)); [|done].
      intros cl [?|H]%list.elem_of_cons; done.
  - intros k cl a' H. destruct (Hfetch k cl a' (Hin _ H)) as (e' & He' & ? & Hor).
    destruct (decide (a' = a)) as [->|Hne]; [rewrite lookup_insert_eq|rewrite lookup_insert_ne by done].
    + eexists. split; [done|]. rewrite He in He'. injection He' as <-. cbn. split; [done|]. right. auto.
    + exists e'. split_and!; [done..|]. rewrite list.elem_of_cons in Hor. naive_solver.
  - intros a' H. destruct (Hcancel a' (Hin _ H)) as (e' & He' & Hz'). destruct (decide (a' = a)) as [->|Hne].
    + rewrite lookup_insert_eq. eexists. split; [done|]. done.
    + rewrite lookup_insert_ne by done. eauto.
Qed.

(** A caller that leaves with a result the source gave, or without one. *)
Lemma flight_release_inv c rest key a ld e b r l : inv c (TAwait key a ld :: rest) -> heap c !! a = Some e ->
  b = true \/ done e = true -> (r.2 = None -> delivered key r l) ->
  let (c', cancels) := releaseWaiter c key a b in
  inv c' ((if cancels then [TCancel a] else []) ++ TReturned key r l :: rest) /\ (cancels = true -> b = true).
Proof.
  intros Hinv He Hb Hr.
  assert (Hw : 1 <= waiters e).
  { pose proof (v_count _ _ Hinv a e He) as Hw. rewrite waiting_cons in Hw. cbn in Hw.
    rewrite bool_decide_true in Hw by done. pose proof (waiting_nonneg a rest). lia. }
  destruct (decide (waiters e = 1)) as [Hone|Hmore].
  - destruct (last_leaves_inv c rest key a ld e b r l Hinv He Hone Hb Hr) as (E & _ & H). by rewrite E.
  - destruct (leave_inv c rest key a ld e b r l Hinv He ltac:(lia) Hr) as (E & H). by rewrite E.
Qed.

Lemma returned_delivered ts key a e ld : live ts key a e -> done e = true ->
  (returned e ld).1.2 = None -> delivered key (returned e ld).1 (returned e ld).2.
Proof.
  intros [_ _ [[? _]|[_ (class & Hf)]]] Hd; [congruence|]. unfold returned. destruct (f_err e) as [err|] eqn:Ee; [done|].
  intros _. exists class, (f_data e, None). split; [done|]. split; [done|]. destruct ld; cbn; [done|].
  split; [|done]. by destruct (f_data e) as [[|x d]|].
Qed.

Lemma flight_step_inv s s' : step s s' -> inv (cache s) (threads s) -> inv (cache s') (threads s').
Proof.
  intros Hs Hinv. destruct Hs as [c ts key class c' a ld E|c ts rest key class a r Hp Hr|c ts rest key a ld e Hp He Hd
    |c ts rest key a ld err c' cancels Hp E|c ts rest a Hp]; cbn [cache threads] in *.
  - by eapply join_inv.
  - eapply finish_inv; [by eapply flight_inv_perm|done].
  - apply (flight_inv_perm _ _ _ Hp) in Hinv.
    destruct (v_map _ _ Hinv key a) as (e' & He' & Hl); [eapply (v_await _ _ Hinv); left|]. rewrite He in He'. injection He' as <-.
    pose proof (flight_release_inv c rest key a ld e false _ _ Hinv He (or_intror Hd) (returned_delivered _ _ _ _ ld Hl Hd)) as H.
    destruct (releaseWaiter c key a false) as [c' []]; destruct H as [H Hc]; [by specialize (Hc eq_refl)|done].
  - apply (flight_inv_perm _ _ _ Hp) in Hinv.
    destruct (v_map _ _ Hinv key a) as (e & He & _); [eapply (v_await _ _ Hinv); left|].
    pose proof (flight_release_inv c rest key a ld e true (None, Some err) false Hinv He (or_introl eq_refl) ltac:(done)) as H.
    rewrite E in H. apply H.
  - eapply flight_cancel_inv. by eapply flight_inv_perm.
Qed.

Lemma flight_reachable_inv s : reachable s -> inv (cache s) (threads s).
Proof. induction 1; [apply empty_inv|by eapply flight_step_inv]. Qed.

(** C8. Concurrent callers share one read, and only their own loss hurts them.
    However callers arrive, leave and are cancelled: the callers blocked on a key
    all wait for one fetch, and a key is in the map exactly while somebody waits;
    of the running fetches of a key at most one is neither cancelled nor about to
    be; a blocked caller's fetch is either running and not cancelled, or done with
    what the source answered for that key, so no caller is cancelled by another and
    no wake-up is lost; a running fetch has a waiter, or is cancelled, or is about
    to be; and a caller that returns without an error has the bytes the source gave
    for its key.  But the entry does not outlive the leader's wait: once the only
    waiter takes the result, before it can persist it, the next caller leads a new
    fetch. *)
Theorem coalescing_sound s :
  reachable s ->
  let c := cache s in
  let ts := threads s in
  (forall key a b l l', TAwait key a l ∈ ts -> TAwait key b l' ∈ ts -> a = b) /\
  (forall key, is_Some (inflight c !! key) <-> exists a l, TAwait key a l ∈ ts) /\
  (forall key cl cl' a b e e', TFetch key cl a ∈ ts -> TFetch key cl' b ∈ ts ->
     heap c !! a = Some e -> heap c !! b = Some e' -> cancelled e = false -> cancelled e' = false ->
     TCancel a ∉ ts -> TCancel b ∉ ts -> a = b) /\
  (forall key a l, TAwait key a l ∈ ts -> exists e, heap c !! a = Some e /\
     ((done e = false /\ cancelled e = false /\ exists cl, TFetch key cl a ∈ ts) \/
      (done e = true /\ exists cl, fetched key cl (f_data e, f_err e)))) /\
  (forall key cl a, TFetch key cl a ∈ ts -> (exists l, TAwait key a l ∈ ts) \/
     (exists e, heap c !! a = Some e /\ cancelled e = true) \/ TCancel a ∈ ts) /\
  (forall key r l, TReturned key r l ∈ ts -> r.2 = None -> delivered key r l) /\
  (forall key a l e rest class, ts ≡ₚ TAwait key a l :: rest -> heap c !! a = Some e -> done e = true ->
     waiters e = 1 -> (join (releaseWaiter c key a false).1 key class).2 = true).
Proof.
  intros Hr c ts. pose proof (flight_reachable_inv s Hr) as Hinv. fold c ts in Hinv.
  assert (Hin : forall key a, inflight c !! key = Some a -> exists l, TAwait key a l ∈ ts).
  { intros key a Hk. destruct (v_map _ _ Hinv key a Hk) as (e & He & [Hw _ _]). rewrite (v_count _ _ Hinv a e He) in Hw.
    apply waiting_pos in Hw as (key' & l & H). exists l. by rewrite (v_inj _ _ Hinv key key' a Hk (v_await _ _ Hinv _ _ _ H)). }
  split_and!.
  - intros key a b l l' H1%(v_await _ _ Hinv) H2%(v_await _ _ Hinv). congruence.
  - intros key. split; [intros [a Hk]; exists a; by apply Hin|]. intros (a & l & H%(v_await _ _ Hinv)). by exists a.
  - intros key cl cl' a b e e' Ha Hb He He' Hc Hc' Hno Hno'.
    destruct (v_fetch _ _ Hinv _ _ _ Ha) as (e1 & E1 & _ & Hor1), (v_fetch _ _ Hinv _ _ _ Hb) as (e2 & E2 & _ & Hor2).
    rewrite He in E1. rewrite He' in E2. injection E1 as <-. injection E2 as <-.
    destruct Hor1 as [H1|[_ [?|?]]]; [|congruence|done]. destruct Hor2 as [H2|[_ [?|?]]]; [|congruence|done]. congruence.
  - intros key a l H%(v_await _ _ Hinv). destruct (v_map _ _ Hinv key a H) as (e & He & [_ Hc Hres]). exists e. split; [done|].
    destruct Hres as [[Hd Hf]|Hres]; [left|by right]. split_and!; [done| |done]. destruct (cancelled e); [|done].
    specialize (Hc eq_refl). congruence.
  - intros key cl a H. destruct (v_fetch _ _ Hinv _ _ _ H) as (e & He & _ & [Hk|[_ [?|?]]]); [left; auto|right; left; eauto|auto].
  - apply (v_returned _ _ Hinv).
  - intros key a l e rest class Hp He Hd Hw. apply (flight_inv_perm _ _ _ Hp) in Hinv.
    destruct (v_map _ _ Hinv key a) as (e' & He' & Hl); [eapply (v_await _ _ Hinv); left|]. rewrite He in He'. injection He' as <-.
    destruct (last_leaves_inv c rest key a l e false (None, Some (Error (TPlain []) [])) false Hinv He Hw (or_intror Hd) ltac:(done)) as (_ & E & _).
    unfold join. by rewrite E, lookup_delete_eq.
Qed.

End Steps.

(** Two callers of one key: the first leads, the second joins. *)
Module InflightDemo.

Definition source (key : bytes) (class : FetchClass) (r : answer) : Prop := r = (Some key, None).
Definition led : Cache := (join empty_cache [1] FetchReadahead).1.1.
Definition joined : Cache := (join led [1] FetchDemand).1.1.
Definition callers : list thread := [TAwait [1] 0 false; TFetch [1] FetchReadahead 0; TAwait [1] 0 true].

End InflightDemo.

Import InflightDemo.

Lemma demo_shared : reachable source (Sys joined callers).
Proof.
  eapply reach_step; [eapply reach_step; [apply reach_init|]|].
  - apply (step_arrive source empty_cache [] [1] FetchReadahead led 0 true). reflexivity.
  - apply (step_arrive source led [TFetch [1] FetchReadahead 0; TAwait [1] 0 true] [1] FetchDemand joined 0 false). reflexivity.
Qed.

Lemma coalescing_sound_witness :
  reachable source (Sys joined callers) /\
  exists e, heap joined !! 0%nat = Some e /\ waiters e = 2 /\ demandJoined e = true /\
    ((done e = false /\ cancelled e = false /\ exists cl, TFetch [1] cl 0 ∈ callers) \/
     (done e = true /\ exists cl, fetched source [1] cl (f_data e, f_err e))).
Proof.
  split; [exact demo_shared|].
  destruct (coalescing_sound source (Sys joined callers) demo_shared) as (_ & _ & _ & Hblocked & _).
  destruct (Hblocked [1] 0%nat false) as (e & He & Hs); [left|].
  exists e. split; [exact He|]. split; [|split; [|exact Hs]]; vm_compute in He; injection He as <-; reflexivity.
Defined.
