(* ===== verification/RangeCache.v ===== *)
(** The disk cache: internal/rangecache/rangecache.go.

    An index in memory names the files of a directory.  The fields that [Cache.mu]
    guards, the files and the counters are one state; each locked section is one
    function on it, and a call of [getChunk] runs as a thread that moves from one
    section, or one operation on a file, to the next.  The step relation interleaves
    any number of calls with the sweeper and with promotions.  Sizes are sums of file
    lengths, far below the width of an int64; the budgets are computed at their width.
    The order of a range over a map, the clock, the outcome of every system call and
    what a fetch answers are the oracle of a turn. *)

From Stdlib Require Import ZArith Lia.
From stdpp Require Import base list numbers strings gmap.
From S2P Require Import Prelude Outcome Inflight.

Local Open Scope Z_scope.

(** ** Modes and configuration *)

Inductive Mode : Type := ModeNone | ModeReadahead | ModeDisk | ModeFull | ModeOther (name : bytes).

#[export] Instance Mode_eq_dec : EqDecision Mode.
Proof. solve_decision. Defined.

Definition ValidMode (m : Mode) : bool := match m with ModeOther _ => false | _ => true end.

Record Config := MkConfig {
  ReadaheadEnabled : bool; ReadaheadMaxSegments : Z; ReadaheadWorkers : Z; MinBufferSegments : Z;
  TailEvict : bool; TailLookback : Z;
  DiskCacheSizeMB : Z; DiskCacheTTLMin : Z; DiskCachePath : bytes; FullEvictMode : bytes; FullEvictTTLMin : Z;
  PinnedBudgetMB : Z; SeekWidenDuration : Z
}.

(** The defaults [New] applies. *)
Definition or_default (x d : Z) : Z := if x =? 0 then d else x.
Definition or_text (x d : bytes) : bytes := if bool_decide (x = []) then d else x.

Definition with_defaults (cfg : Config) : Config :=
  MkConfig (ReadaheadEnabled cfg) (or_default (ReadaheadMaxSegments cfg) 16) (ReadaheadWorkers cfg)
    (or_default (MinBufferSegments cfg) 4) (TailEvict cfg) (or_default (TailLookback cfg) 4)
    (or_default (DiskCacheSizeMB cfg) 2048) (or_default (DiskCacheTTLMin cfg) 60)
    (or_text (DiskCachePath cfg) (str ".cache")) (or_text (FullEvictMode cfg) (str "ttl"))
    (or_default (FullEvictTTLMin cfg) 120) (PinnedBudgetMB cfg) (SeekWidenDuration cfg).

(** ** The index *)

Record diskEntry := MkEntry {
  d_key : bytes; d_path : bytes; sizeB : Z; lastUsed : Z; d_mode : Mode;
  contentSHA : bytes; sourceKey : bytes; pinned : bool
}.

Record state := MkState {
  diskEntries : gmap bytes diskEntry; diskSizeB : Z; pinnedSizeB : Z;
  files : gmap bytes bytes;
  diskHits : Z; diskMisses : Z; crossHits : Z
}.

Definition set_index (st : state) (m : gmap bytes diskEntry) (disk pin : Z) : state :=
  MkState m disk pin (files st) (diskHits st) (diskMisses st) (crossHits st).
Definition set_files (st : state) (fs : gmap bytes bytes) : state :=
  MkState (diskEntries st) (diskSizeB st) (pinnedSizeB st) fs (diskHits st) (diskMisses st) (crossHits st).

(** [size -= n; if size < 0 { size = 0 }]. *)
Definition sub_size (a n : Z) : Z := if a - n <? 0 then 0 else a - n.

(** [filepath.Join(cfg.DiskCachePath, key)], of a clean directory. *)
Definition path_of (cfg : Config) (key : bytes) : bytes := DiskCachePath cfg ++ 47 :: key.
Definition pinnedMarkerPath (path : bytes) : bytes := path ++ str ".pin".

(** ** Writing a file at once

    The system calls of [atomicWriteFile]: which fail, the random part of the temporary
    name, and how much of the data a failing write left. *)
Record write_oracle := MkWrite {
  w_mkdir : bool; w_temp : option bytes; w_write : option nat; w_chmod : bool; w_close : bool; w_rename : bool; w_cleanup : bool
}.

Definition temp_path (cfg : Config) (key random : bytes) : bytes :=
  path_of cfg (46 :: key ++ 46 :: random ++ str ".tmp").

(** The file systems a crash or another reader may meet, oldest first, and the last with
    whether the call succeeded. *)
Definition atomicWriteFile (cfg : Config) (a : write_oracle) (key data : bytes) (fs : gmap bytes bytes)
    : list (gmap bytes bytes) * (gmap bytes bytes * bool) :=
  if negb (w_mkdir a) then ([fs], (fs, false))
  else
    match w_temp a with
    | None => ([fs], (fs, false))
    | Some random =>
        let tmp := temp_path cfg key random in
        let cleanup fs := if w_cleanup a then delete tmp fs else fs in
        let created := <[tmp := []]> fs in
        match w_write a with
        | Some n => let partial := <[tmp := take n data]> fs in ([fs; created; partial; cleanup partial], (cleanup partial, false))
        | None =>
            let written := <[tmp := data]> fs in
            if negb (w_chmod a) || negb (w_close a) || negb (w_rename a)
            then ([fs; created; written; cleanup written], (cleanup written, false))
            else
              let renamed := <[path_of cfg key := data]> (delete tmp written) in
              ([fs; created; written; renamed], (renamed, true))
        end
    end.

(** What the surroundings answer during one turn. *)
Record oracle := MkOracle {
  o_now : Z;
  o_order : nat -> gmap bytes diskEntry -> list (bytes * diskEntry);  (* the order of the n-th range *)
  o_removed : bytes -> bool;                                          (* os.Remove succeeds *)
  o_marked : bool;                                                    (* os.WriteFile of a marker succeeds *)
  o_read : bool;                                                      (* os.ReadFile of a present file succeeds *)
  o_fetch : answer * bool;                                            (* what [fetchCoalesced] returns *)
  o_write : write_oracle
}.

Definition os_Remove (o : oracle) (path : bytes) (st : state) : state :=
  if o_removed o path then set_files st (delete path (files st)) else st.

Definition write_marker (o : oracle) (path : bytes) (st : state) : state :=
  if o_marked o then set_files st (<[pinnedMarkerPath path := []]> (files st)) else st.

(** ** Eviction *)

Definition sampleK : Z := 16.

(** The loop that picks the least recently used of the first sixteen wanted entries. *)
Fixpoint sample_oldest (want : diskEntry -> bool) (i : Z) (oldest : option (bytes * diskEntry)) (l : list (bytes * diskEntry))
    : option (bytes * diskEntry) :=
  match l with
  | [] => oldest
  | (k, entry) :: l =>
      if negb (want entry) then sample_oldest want i oldest l
      else
        let oldest :=
          match oldest with
          | None => Some (k, entry)
          | Some (_, old) => if lastUsed entry <? lastUsed old then Some (k, entry) else oldest
          end in
        if sampleK <=? i + 1 then oldest else sample_oldest want (i + 1) oldest l
  end.

(** [for over { pick; if none { break }; drop }]; a round drops an entry, so the number of
    entries bounds the rounds. *)
Fixpoint evict_while (want : diskEntry -> bool) (over : state -> bool) (drop : state -> bytes -> diskEntry -> state)
    (order : nat -> gmap bytes diskEntry -> list (bytes * diskEntry)) (fuel n : nat) (st : state) : state :=
  match fuel with
  | O => st
  | S fuel =>
      if over st then
        match sample_oldest want 0 None (order n (diskEntries st)) with
        | None => st
        | Some (k, e) => evict_while want over drop order fuel (S n) (drop st k e)
        end
      else st
  end.

Definition lowWater (budget : Z) : Z := Z.quot (i64 (budget * 95)) 100.
Definition budget_bytes (mb : Z) : Z := i64 (i64 (mb * 1024) * 1024).

(** A round of [pinnedEvictLocked]. *)
Definition drop_pinned (o : oracle) (st : state) (k : bytes) (e : diskEntry) : state :=
  let st := os_Remove o (pinnedMarkerPath (d_path e)) (os_Remove o (d_path e) st) in
  set_index st (delete k (diskEntries st)) (sub_size (diskSizeB st) (sizeB e)) (sub_size (pinnedSizeB st) (sizeB e)).

Definition pinnedEvictLocked (cfg : Config) (o : oracle) (st : state) : state :=
  let budget := budget_bytes (PinnedBudgetMB cfg) in
  if budget <=? 0 then st
  else evict_while pinned (fun st => lowWater budget <? pinnedSizeB st) (drop_pinned o) (o_order o) (S (size (diskEntries st))) 0 st.

(** A round of [evictLRU]. *)
Definition drop_lru (o : oracle) (st : state) (k : bytes) (e : diskEntry) : state :=
  let st := os_Remove o (d_path e) st in
  set_index st (delete k (diskEntries st)) (sub_size (diskSizeB st) (sizeB e)) (pinnedSizeB st).

Definition unpinned (e : diskEntry) : bool := negb (pinned e).

Definition evictLRU (cfg : Config) (o : oracle) (st : state) : state :=
  evict_while unpinned (fun st => lowWater (budget_bytes (DiskCacheSizeMB cfg)) <? diskSizeB st) (drop_lru o) (o_order o)
    (S (size (diskEntries st))) 0 st.

(** ** Hits *)

Definition touched (e : diskEntry) (sha : bytes) (now : Z) (pin : bool) : diskEntry :=
  MkEntry (d_key e) (d_path e) (sizeB e) now (d_mode e) sha (sourceKey e) pin.

Definition promoteAndStoreLocked (cfg : Config) (o : oracle) (st : state) (key : bytes) (e : diskEntry) (pin : bool) : state :=
  let promotes := pin && negb (pinned e) in
  let e' := touched e (contentSHA e) (lastUsed e) (pinned e || promotes) in
  let st := if promotes then write_marker o (d_path e) (set_index st (diskEntries st) (diskSizeB st) (pinnedSizeB st + sizeB e)) else st in
  let st := set_index st (<[key := e']> (diskEntries st)) (diskSizeB st) (pinnedSizeB st) in
  if pinned e' then pinnedEvictLocked cfg o st else st.

(** The section after a file was read: [verify] when the entry that was looked up had no
    digest, which then becomes the digest of what was read. *)
Definition touch (cfg : Config) (o : oracle) (sha : bytes) (verify : bool) (key : bytes) (pin : bool) (st : state) : state :=
  match diskEntries st !! key with
  | None => st
  | Some e =>
      if verify then
        if bool_decide (contentSHA e = []) then promoteAndStoreLocked cfg o st key (touched e sha (o_now o) (pinned e)) pin
        else st
      else promoteAndStoreLocked cfg o st key (touched e (contentSHA e) (o_now o) (pinned e)) pin
  end.

(** The section after a file could not be read, and whether the entry was pinned. *)
Definition drop_unreadable (key : bytes) (st : state) : state * bool :=
  match diskEntries st !! key with
  | None => (st, false)
  | Some e =>
      (set_index st (delete key (diskEntries st)) (sub_size (diskSizeB st) (sizeB e))
         (if pinned e then sub_size (pinnedSizeB st) (sizeB e) else pinnedSizeB st), pinned e)
  end.

(** ** Misses *)

(** The section after the file of a fetched payload was written. *)
Definition persist (cfg : Config) (o : oracle) (sha source key data : bytes) (mode : Mode) (pin : bool) (st : state) : state :=
  let path := path_of cfg key in
  let n := Z.of_nat (length data) in
  let entry := MkEntry key path n (o_now o) mode sha source pin in
  let st := set_index st (<[key := entry]> (diskEntries st)) (diskSizeB st + n) (pinnedSizeB st) in
  if pin then
    pinnedEvictLocked cfg o (write_marker o path (set_index st (diskEntries st) (diskSizeB st) (pinnedSizeB st + n)))
  else if i64 (i64 (DiskCacheSizeMB cfg * 1024) * 1024) <? diskSizeB st then evictLRU cfg o st
  else st.

(** ** The sweeper *)

Definition minute : Z := 60 * second.

Definition expired (cfg : Config) (now : Z) (entry : diskEntry) : bool :=
  if pinned entry then false
  else
    match d_mode entry with
    | ModeDisk => i64 (DiskCacheTTLMin cfg * minute) <? time_sub now (lastUsed entry)
    | ModeFull =>
        if negb (bool_decide (FullEvictMode cfg = str "ttl")) then false
        else i64 (FullEvictTTLMin cfg * minute) <? time_sub now (lastUsed entry)
    | _ => false
    end.

Definition sweep_turn (cfg : Config) (now : Z) (acc : state * list diskEntry) (ke : bytes * diskEntry) : state * list diskEntry :=
  let '(st, toEvict, (key, entry)) := (acc, ke) in
  if expired cfg now entry
  then (set_index st (delete key (diskEntries st)) (sub_size (diskSizeB st) (sizeB entry)) (pinnedSizeB st), toEvict ++ [entry])
  else (st, toEvict).

(** The locked section of [sweepOnce]: the entries whose files are removed after it. *)
Definition sweep (cfg : Config) (o : oracle) (now : Z) (st : state) : state * list diskEntry :=
  fold_left (sweep_turn cfg now) (o_order o 0%nat (diskEntries st)) (st, []).

Definition sweepOnce (cfg : Config) (o : oracle) (now : Z) (st : state) : state * Z :=
  let (st, toEvict) := sweep cfg o now st in
  (fold_left (fun st entry => os_Remove o (d_path entry) st) toEvict st, Z.of_nat (length toEvict)).

(** The interval of [startTTLSweeper]. *)
Definition sweep_interval (cfg : Config) : Z :=
  let ttl := i64 (DiskCacheTTLMin cfg * minute) in
  let ttl :=
    if bool_decide (FullEvictMode cfg = str "ttl")
    then let ft := i64 (FullEvictTTLMin cfg * minute) in if ft <? ttl then ft else ttl
    else ttl in
  let interval := Z.quot ttl 4 in
  if interval <? minute then minute else interval.

(** ** Space for a promotion *)

Record Statfs_t := MkStatfs { Bavail : Z; Bsize : Z; Blocks : Z }.

(** What one round of [YieldForPromotion] meets: the context, the volume, the locked
    section's oracle and what others do before the next round. *)
Record yield_round := MkRound {
  y_ctx : option goerror; y_statfs : result goerror Statfs_t; y_oracle : oracle; y_others : state -> state
}.

Definition space (stat : Statfs_t) (floorPercent : Z) : Z * Z :=
  let free := i64 (i64 (Bavail stat) * i64 (Bsize stat)) in
  let total := i64 (i64 (Blocks stat) * i64 (Bsize stat)) in
  (free, Z.quot (i64 (total * floorPercent)) 100).

Fixpoint oldest_of (oldest : option (bytes * diskEntry)) (l : list (bytes * diskEntry)) : option (bytes * diskEntry) :=
  match l with
  | [] => oldest
  | (key, entry) :: l =>
      oldest_of (match oldest with
                 | None => Some (key, entry)
                 | Some (_, old) => if lastUsed entry <? lastUsed old then Some (key, entry) else oldest
                 end) l
  end.

Definition yield_error (msg : string) : goerror := Error (TPlain (str msg)) [].

(** The locked section: the oldest entry goes, pinned or not. *)
Definition yield_evict (o : oracle) (st : state) : result goerror state :=
  match oldest_of None (o_order o 0%nat (diskEntries st)) with
  | None => Err (yield_error "rangecache: promotion would cross free-space floor")
  | Some (k, e) =>
      if negb (o_removed o (d_path e)) && bool_decide (is_Some (files st !! d_path e))
      then Err (yield_error "rangecache: promotion cache eviction failed")
      else
        let st := os_Remove o (d_path e) st in
        let st := if pinned e then os_Remove o (pinnedMarkerPath (d_path e)) st else st in
        Ok (set_index st (delete k (diskEntries st)) (sub_size (diskSizeB st) (sizeB e))
              (if pinned e then sub_size (pinnedSizeB st) (sizeB e)
               else if pinnedSizeB st <? 0 then 0 else pinnedSizeB st))
  end.

(** [None] when the rounds given do not suffice. *)
Fixpoint yield_rounds (pending floorPercent : Z) (rounds : list yield_round) (st : state) : state * option (result goerror Z) :=
  match rounds with
  | [] => (st, None)
  | y :: rounds =>
      match y_ctx y with
      | Some err => (st, Some (Err err))
      | None =>
          match y_statfs y with
          | Err err => (st, Some (Err err))
          | Ok stat =>
              let (free, floor) := space stat floorPercent in
              if (pending <=? free) && (floor <=? i64 (free - pending)) then (st, Some (Ok (i64 (i64 (free - pending) - floor))))
              else
                match yield_evict (y_oracle y) st with
                | Err err => (st, Some (Err err))
                | Ok st => yield_rounds pending floorPercent rounds (y_others y st)
                end
          end
      end
  end.

Definition YieldForPromotion (target : bytes) (pending floorPercent : Z) (rounds : list yield_round) (st : state)
    : state * option (result goerror Z) :=
  if bool_decide (target = []) || (pending <=? 0) || (floorPercent <? 1) || (99 <? floorPercent)
  then (st, Some (Err (yield_error "rangecache: invalid promotion space request")))
  else yield_rounds pending floorPercent rounds st.

(** ** Restarting *)

Record DirEntry := MkDirEntry { Name : bytes; IsDir : bool; Info : option (Z * Z) }.

(** The index of the files that survived a restart; [marked] is whether a marker is there. *)
Definition restore_entry (cfg : Config) (marked : bytes -> bool) (st : state) (de : DirEntry) : state :=
  if IsDir de then st
  else if negb (Z.of_nat (length (Name de)) =? 64) then st
  else
    match Info de with
    | None => st
    | Some (size, modTime) =>
        let key := Name de in
        let path := path_of cfg key in
        let pin := marked (pinnedMarkerPath path) in
        set_index st (<[key := MkEntry key path size modTime ModeFull [] [] pin]> (diskEntries st)) (diskSizeB st + size)
          (if pin then pinnedSizeB st + size else pinnedSizeB st)
    end.

Definition restore (cfg : Config) (listing : list DirEntry) (fs : gmap bytes bytes) : state :=
  fold_left (restore_entry cfg (fun p => bool_decide (is_Some (fs !! p)))) listing (MkState ∅ 0 0 fs 0 0 0).

(** ** Reading a chunk *)

Record ChunkRef := MkRef { r_Index : Z; r_Key : bytes; r_Size : Z }.

(** A source and the optional interfaces it implements; [src_Fetch] is what it may answer. *)
Record ChunkSource := MkSource {
  src_Key : bytes;
  src_PayloadKey : option (ChunkRef -> bytes);
  src_Transform : option (ChunkRef -> bytes -> bytes);
  src_Validate : option (ChunkRef -> bytes -> option goerror);
  src_Fetch : ChunkRef -> FetchClass -> answer -> Prop
}.

Definition transformChunk (src : ChunkSource) (ref : ChunkRef) (data : bytes) : bytes :=
  match src_Transform src with Some f => f ref data | None => data end.

Definition validateChunk (src : ChunkSource) (ref : ChunkRef) (data : bytes) : option goerror :=
  match src_Validate src with Some f => f ref data | None => None end.

(** What is returned of a payload: the source's view, once it is valid. *)
Definition visible (src : ChunkSource) (ref : ChunkRef) (data : bytes) : result goerror bytes :=
  let data := transformChunk src ref data in
  match validateChunk src ref data with Some err => Err err | None => Ok data end.

(** A call of [getChunk]. *)
Record job := MkJob { j_src : ChunkSource; j_mode : Mode; j_ref : ChunkRef; j_class : FetchClass; j_pin : bool }.

Definition GetChunk (src : ChunkSource) (mode : Mode) (ref : ChunkRef) : job := MkJob src mode ref FetchDemand false.
Definition GetChunkPinned (cfg : Config) (src : ChunkSource) (ref : ChunkRef) : job :=
  MkJob src ModeFull ref FetchDemand (0 <? PinnedBudgetMB cfg).

(** [PrefetchChunk]: a call of [getChunk], or what is returned of a live answer. *)
Definition PrefetchChunk (src : ChunkSource) (mode : Mode) (ref : ChunkRef) : job + (answer -> answer) :=
  match mode with
  | ModeDisk | ModeFull => inl (MkJob src mode ref FetchReadahead false)
  | _ => inr (fun r => match r.2 with Some _ => r | None => (option_map (transformChunk src ref) r.1, None) end)
  end.

(** Where a call is. *)
Inductive phase : Type :=
| PLive                                     (* about to fetch without the cache *)
| PLookup                                   (* about to look the payload up *)
| PRead (e : diskEntry)                     (* found; about to read the file *)
| PTouch (e : diskEntry) (data : bytes)     (* read; about to mark it used *)
| PDrop (e : diskEntry)                     (* not readable; about to drop it *)
| PUnlink (e : diskEntry) (wasPinned : bool)
| PFetch                                    (* about to share or start a fetch *)
| PWrite (data : bytes)                     (* about to write the file *)
| PInsert (data : bytes)                    (* written; about to enter it *)
| PReturned (res : result goerror bytes).

Definition start (j : job) : phase := match j_mode j with ModeNone | ModeReadahead => PLive | _ => PLookup end.

Section Hash.
Context (sha256 : bytes -> bytes).

Definition sha256hex (s : bytes) : bytes := hex_encode (sha256 s).

Definition payloadKey (src : ChunkSource) (ref : ChunkRef) : bytes :=
  sha256hex (match src_PayloadKey src with Some f => f ref | None => src_Key src ++ 124 :: r_Key ref end).

Definition count_hit (j : job) (e : diskEntry) (st : state) : state :=
  MkState (diskEntries st) (diskSizeB st) (pinnedSizeB st) (files st) (i64 (diskHits st + 1)) (diskMisses st)
    (if negb (bool_decide (sourceKey e = [])) && negb (bool_decide (sourceKey e = src_Key (j_src j)))
     then i64 (crossHits st + 1) else crossHits st).

Definition count_miss (st : state) : state :=
  MkState (diskEntries st) (diskSizeB st) (pinnedSizeB st) (files st) (diskHits st) (i64 (diskMisses st + 1)) (crossHits st).

(** One turn of a call of [getChunk]. *)
Definition turn (cfg : Config) (o : oracle) (j : job) (ph : phase) (st : state) : state * phase :=
  let key := payloadKey (j_src j) (j_ref j) in
  let give data := PReturned (visible (j_src j) (j_ref j) data) in
  match ph with
  | PLive =>
      let (r, _) := o_fetch o in
      (st, match r.2 with Some err => PReturned (Err err) | None => give (default [] r.1) end)
  | PLookup => (st, match diskEntries st !! key with Some e => PRead e | None => PFetch end)
  | PRead e =>
      (st, match files st !! d_path e with Some data => if o_read o then PTouch e data else PDrop e | None => PDrop e end)
  | PTouch e data =>
      (count_hit j e (touch cfg o (sha256hex data) (bool_decide (contentSHA e = [])) key (j_pin j) st), give data)
  | PDrop e => let (st, wasPinned) := drop_unreadable key st in (st, PUnlink e wasPinned)
  | PUnlink e wasPinned =>
      let st := os_Remove o (d_path e) st in
      (if wasPinned then os_Remove o (pinnedMarkerPath (d_path e)) st else st, PFetch)
  | PFetch =>
      let st := count_miss st in
      let (r, leader) := o_fetch o in
      (st, match r.2 with
           | Some err => PReturned (Err (Error (TPlain (str "rangecache: fetch failed")) [err]))
           | None =>
               let data := default [] r.1 in
               if negb leader then give data
               else match visible (j_src j) (j_ref j) data with
                    | Err err => PReturned (Err err)
                    | Ok _ => PWrite data
                    end
           end)
  | PWrite data =>
      let (fs, written) := (atomicWriteFile cfg (o_write o) key data (files st)).2 in
      (set_files st fs, if written then PInsert data else give data)
  | PInsert data => (persist cfg o (sha256hex data) (src_Key (j_src j)) key data (j_mode j) (j_pin j) st, give data)
  | PReturned res => (st, ph)
  end.

(** ** The interleaving *)

Record sys := Sys { cache : state; jobs : list (job * phase); unlinks : list bytes }.

Context (sources : ChunkSource -> Prop).

(** What the oracles may answer: a range visits every entry once, and a fetch gives what
    one of the sources answers for the same payload. *)
Definition ordered (o : oracle) : Prop := forall n m, o_order o n m ≡ₚ map_to_list m.

Definition upstream (key data : bytes) : Prop :=
  exists src ref class r, sources src /\ payloadKey src ref = key /\ src_Fetch src ref class r /\ r.2 = None /\ data = default [] r.1.

Definition answers (j : job) (ph : phase) (o : oracle) : Prop :=
  let (r, leader) := o_fetch o in
  match ph with
  | PLive => r.2 = None -> src_Fetch (j_src j) (j_ref j) FetchDemand r
  | PFetch => r.2 = None -> upstream (payloadKey (j_src j) (j_ref j)) (default [] r.1)
  | _ => True
  end.

(** The calls that arrive: what [GetChunk], [GetChunkPinned] and [PrefetchChunk] start. *)
Definition arrives (cfg : Config) (j : job) : Prop :=
  exists src ref, sources src /\ ((exists mode, j = GetChunk src mode ref) \/ j = GetChunkPinned cfg src ref \/
    exists mode, PrefetchChunk src mode ref = inl j).

Inductive step (cfg : Config) : sys -> sys -> Prop :=
| step_arrive st js us j : arrives cfg j -> step cfg (Sys st js us) (Sys st ((j, start j) :: js) us)
| step_turn st st' js rest us j ph ph' o :
    js ≡ₚ (j, ph) :: rest -> ordered o -> answers j ph o -> turn cfg o j ph st = (st', ph') ->
    step cfg (Sys st js us) (Sys st' ((j, ph') :: rest) us)
| step_sweep st st' js us now o evicted :
    ordered o -> sweep cfg o now st = (st', evicted) ->
    step cfg (Sys st js us) (Sys st' js (map d_path evicted ++ us))
| step_unlink st js us rest path o :
    us ≡ₚ path :: rest -> step cfg (Sys st js us) (Sys (os_Remove o path st) js rest)
| step_yield st st' js us o :
    ordered o -> yield_evict o st = Ok st' -> step cfg (Sys st js us) (Sys st' js us).

(** A cache starts on the files of its directory, of which it reads names and sizes. *)
Definition listed (listing : list DirEntry) : Prop :=
  NoDup (map Name listing) /\ Forall (fun de => match Info de with Some (size, _) => 0 <= size | None => True end) listing.

Inductive reachable (cfg : Config) (st0 : state) : sys -> Prop :=
| reach_init : reachable cfg st0 (Sys st0 [] [])
| reach_step s s' : reachable cfg st0 s -> step cfg s s' -> reachable cfg st0 s'.
End Hash.

(** ** Sizes *)

Definition total (p : diskEntry -> bool) (m : gmap bytes diskEntry) : Z :=
  map_fold (fun _ e s => (if p e then sizeB e else 0) + s) 0 m.

Definition any (_ : diskEntry) : bool := true.

Lemma total_new p m k e : m !! k = None -> total p (<[k := e]> m) = (if p e then sizeB e else 0) + total p m.
Proof. intros H. unfold total. rewrite map_fold_insert_L; [done| |done]. intros. lia. Qed.

Lemma total_delete p m k e : m !! k = Some e -> total p m = (if p e then sizeB e else 0) + total p (delete k m).
Proof. intros H. rewrite <-(total_new p (delete k m) k e) by (by rewrite lookup_delete_eq). by rewrite insert_delete_id. Qed.

Lemma total_insert p m k e : total p (<[k := e]> m) = (if p e then sizeB e else 0) + total p (delete k m).
Proof. rewrite <-insert_delete_eq, total_new; [done|by rewrite lookup_delete_eq]. Qed.

Lemma total_split m : total any m = total pinned m + total unpinned m.
Proof.
  induction m as [|k e m Hk IH] using map_ind; [done|]. rewrite !total_new by done. rewrite IH.
  unfold unpinned, any. destruct (pinned e); cbn [negb]; lia.
Qed.

Lemma sizes_nonneg p m : (forall k e, m !! k = Some e -> 0 <= sizeB e) -> 0 <= total p m.
Proof.
  induction m as [|k e m Hk IH] using map_ind; intros Hm; [done|]. rewrite total_new by done.
  assert (0 <= total p m). { apply IH. intros k' e' H. apply (Hm k' e'). rewrite lookup_insert_ne; [done|congruence]. }
  assert (0 <= sizeB e) by (apply (Hm k e); by rewrite lookup_insert_eq). destruct (p e); lia.
Qed.

Lemma total_none p m : (forall k e, m !! k = Some e -> p e = false) -> total p m = 0.
Proof.
  induction m as [|k e m Hk IH] using map_ind; intros Hm; [done|]. rewrite total_new by done.
  rewrite (Hm k e) by (by rewrite lookup_insert_eq). rewrite IH; [done|].
  intros k' e' H. apply (Hm k' e'). rewrite lookup_insert_ne; [done|congruence].
Qed.

(** ** The sample *)

Lemma sample_in want l i b r : sample_oldest want i b l = Some r -> b = Some r \/ (r ∈ l /\ want r.2 = true).
Proof.
  revert i b. induction l as [|[k e] l IH]; intros i b H; cbn in H; [by left|].
  assert (Hin : r ∈ l -> r ∈ (k, e) :: l) by (by right).
  destruct (want e) eqn:Ew; cbn [negb] in H; [|destruct (IH _ _ H) as [?|[? ?]]; auto].
  set (b' := match b with None => _ | Some _ => _ end) in H.
  assert (Hb : b' = Some r -> b = Some r \/ r ∈ (k, e) :: l /\ want r.2 = true).
  { unfold b'. destruct b as [[k' old]|]; [destruct (lastUsed e <? lastUsed old)|]; intros E; auto;
      injection E as <-; right; split; [left|done|left|done]. }
  destruct (sampleK <=? i + 1); [auto|]. destruct (IH _ _ H) as [?|[? ?]]; auto.
Qed.

Lemma sample_none want l i b : sample_oldest want i b l = None -> b = None /\ forall r, r ∈ l -> want r.2 = false.
Proof.
  revert i b. induction l as [|[k e] l IH]; intros i b H; cbn in H; [split; [done|]; intros r Hr; by apply not_elem_of_nil in Hr|].
  destruct (want e) eqn:Ew; cbn [negb] in H.
  - exfalso. set (b' := match b with None => _ | Some _ => _ end) in H.
    assert (b' <> None) by (unfold b'; destruct b as [[]|]; [destruct (_ <? _)|]; done).
    destruct (sampleK <=? i + 1); [done|]. by destruct (IH _ _ H).
  - destruct (IH _ _ H) as [-> Hn]. split; [done|]. intros r [->|Hr]%list.elem_of_cons; auto.
Qed.

(** With at most sixteen candidates the sample is all of them. *)
Lemma sample_oldest_min want l i b r : 0 <= i -> i + count_by (fun ke => want ke.2) l <= 16 ->
  sample_oldest want i b l = Some r ->
  (forall r', r' ∈ l -> want r'.2 = true -> lastUsed r.2 <= lastUsed r'.2) /\
  match b with Some old => lastUsed r.2 <= lastUsed old.2 | None => True end.
Proof.
  revert i b. induction l as [|[k e] l IH]; intros i b Hi Hc H; cbn [sample_oldest] in H.
  { subst b. split; [|lia]. intros r' Hr'. by apply not_elem_of_nil in Hr'. }
  rewrite count_cons in Hc. cbn [snd] in Hc. destruct (want e) eqn:Ew; cbn [negb] in H.
  - set (b' := match b with None => _ | Some _ => _ end) in H.
    assert (Hb : exists o, b' = Some o /\ lastUsed o.2 <= lastUsed e /\ match b with Some old => lastUsed o.2 <= lastUsed old.2 | None => True end).
    { unfold b'. destruct b as [[k' old]|]; [destruct (Z.ltb_spec (lastUsed e) (lastUsed old))|]; eexists; split; try done; cbn [snd]; lia. }
    destruct Hb as (o & Eb & Hoe & Hob). unfold sampleK in H. destruct (Z.leb_spec 16 (i + 1)) as [Hle|Hgt].
    + assert (count_by (fun ke => want ke.2) l = 0) as Hz by (pose proof (count_nonneg (fun ke : bytes * diskEntry => want ke.2) l); lia).
      rewrite Eb in H. injection H as ->. split; [|done].
      intros r' [->|Hr']%list.elem_of_cons Hw; [done|].
      assert (0 < count_by (fun ke => want ke.2) l) by (apply count_pos; eauto). lia.
    + destruct (IH (i + 1) b' ltac:(lia) ltac:(lia) H) as [Hl Hb']. rewrite Eb in Hb'. split.
      * intros r' [->|Hr']%list.elem_of_cons Hw; [cbn [snd]; lia|auto].
      * destruct b; [lia|done].
  - destruct (IH i b Hi ltac:(lia) H) as [Hl Hb]. split; [|done].
    intros r' [->|Hr']%list.elem_of_cons Hw; [cbn in Hw; congruence|auto].
Qed.

(** ** Eviction loops *)

Section Evict.
Context (want : diskEntry -> bool) (over : state -> bool) (drop : state -> bytes -> diskEntry -> state).
Context (order : nat -> gmap bytes diskEntry -> list (bytes * diskEntry)) (Hord : forall n m, order n m ≡ₚ map_to_list m).
Context (Hdrop : forall st k e, diskEntries (drop st k e) = delete k (diskEntries st)).

Lemma order_lookup n m k e : (k, e) ∈ order n m <-> m !! k = Some e.
Proof. rewrite Hord. apply elem_of_map_to_list. Qed.

Lemma sample_lookup n m k e : sample_oldest want 0 None (order n m) = Some (k, e) -> m !! k = Some e /\ want e = true.
Proof. intros [?|[H ?]]%sample_in; [done|]. split; [|done]. by apply (order_lookup n). Qed.

Lemma evict_while_ind (I : state -> Prop) fuel n st : I st ->
  (forall st k e, I st -> over st = true -> diskEntries st !! k = Some e -> want e = true -> I (drop st k e)) ->
  I (evict_while want over drop order fuel n st).
Proof.
  intros H Hd. revert n st H. induction fuel as [|fuel IH]; intros n st H; cbn; [done|].
  destruct (over st) eqn:Eo; [|done]. destruct (sample_oldest _ _ _ _) as [[k e]|] eqn:Es; [|done].
  apply sample_lookup in Es as [Hk Hw]. auto.
Qed.

(** The fuel is enough: the loop ends by its own conditions. *)
Lemma evict_while_ends fuel n st : (size (diskEntries st) < fuel)%nat ->
  let st' := evict_while want over drop order fuel n st in
  over st' = false \/ forall k e, diskEntries st' !! k = Some e -> want e = false.
Proof.
  revert n st. induction fuel as [|fuel IH]; intros n st Hf; [lia|]. cbn.
  destruct (over st) eqn:Eo; [|by left]. destruct (sample_oldest _ _ _ _) as [[k e]|] eqn:Es.
  - apply sample_lookup in Es as [Hk _]. apply IH. rewrite Hdrop. rewrite map_size_delete_Some by (by eexists).
    assert (size (diskEntries st) <> 0)%nat by (intros E; apply map_size_empty_iff in E; rewrite E in Hk; by apply lookup_empty_Some in Hk).
    lia.
  - right. apply sample_none in Es as [_ Es]. intros k e Hk. apply (Es (k, e)). by apply order_lookup.
Qed.
End Evict.

(** ** Accounting

    The recorded sizes never fall below the sums of the entries, and what they exceed
    them by is accounted first to the whole and then to the pinned part; so no
    subtraction is ever cut off at zero. *)

Definition drift (p : diskEntry -> bool) (recorded : Z) (m : gmap bytes diskEntry) : Z := recorded - total p m.

Record sound (cfg : Config) (st : state) : Prop := {
  s_entry : forall k e, diskEntries st !! k = Some e ->
    d_key e = k /\ d_path e = path_of cfg k /\ 0 <= sizeB e /\ length k = 64%nat;
  s_drift : 0 <= drift pinned (pinnedSizeB st) (diskEntries st) <= drift any (diskSizeB st) (diskEntries st)
}.

(** The same index over other files. *)
Definition same_index (a b : state) : Prop :=
  diskEntries a = diskEntries b /\ diskSizeB a = diskSizeB b /\ pinnedSizeB a = pinnedSizeB b.

Lemma remove_index o p st : same_index (os_Remove o p st) st.
Proof. unfold os_Remove. by destruct (o_removed o p). Qed.

Lemma marker_index o p st : same_index (write_marker o p st) st.
Proof. unfold write_marker. by destruct (o_marked o). Qed.

Lemma same_trans a b c : same_index a b -> same_index b c -> same_index a c.
Proof. unfold same_index. intuition congruence. Qed.

Lemma sound_index cfg a b : same_index a b -> sound cfg b -> sound cfg a.
Proof. intros (E1 & E2 & E3) []. by split; rewrite ?E1, ?E2, ?E3. Qed.

(** An entry leaves the index with its size. *)
Definition forget (k : bytes) (e : diskEntry) (st : state) : state :=
  set_index st (delete k (diskEntries st)) (diskSizeB st - sizeB e) (if pinned e then pinnedSizeB st - sizeB e else pinnedSizeB st).

Lemma size_in cfg st k e : sound cfg st -> diskEntries st !! k = Some e ->
  0 <= sizeB e <= diskSizeB st /\ (pinned e = true -> sizeB e <= pinnedSizeB st) /\ 0 <= pinnedSizeB st.
Proof.
  intros [He Hd] Hk. destruct (He k e Hk) as (_ & _ & Hs & _). unfold drift in Hd.
  assert (Hsub : forall p, 0 <= total p (delete k (diskEntries st))).
  { intros p. apply sizes_nonneg. intros k' e' [_ H]%lookup_delete_Some. apply (He k' e' H). }
  pose proof (total_delete any _ _ _ Hk) as Ha. pose proof (total_delete pinned _ _ _ Hk) as Hp.
  pose proof (Hsub any). pose proof (Hsub pinned). cbn [any] in Ha. destruct (pinned e); split_and!; try done; try lia; intros _; lia.
Qed.

Lemma sub_size_exact a n : n <= a -> sub_size a n = a - n.
Proof. intros H. unfold sub_size. destruct (Z.ltb_spec (a - n) 0); lia. Qed.

Lemma forget_sound cfg st k e : sound cfg st -> diskEntries st !! k = Some e -> sound cfg (forget k e st).
Proof.
  intros [He Hd] Hk. unfold drift in Hd.
  pose proof (total_delete any _ _ _ Hk) as Ha. pose proof (total_delete pinned _ _ _ Hk) as Hp. cbn [any] in Ha.
  split; cbn [forget set_index diskEntries diskSizeB pinnedSizeB].
  - intros k' e' [_ H]%lookup_delete_Some. by apply He.
  - unfold drift. destruct (pinned e); lia.
Qed.

Lemma drop_pinned_forget cfg o st k e : sound cfg st -> diskEntries st !! k = Some e -> pinned e = true ->
  same_index (drop_pinned o st k e) (forget k e st).
Proof.
  intros Hs Hk Hp. destruct (size_in cfg st k e Hs Hk) as (Hd & Hpin & _). specialize (Hpin Hp).
  unfold drop_pinned. pose proof (same_trans _ _ _ (remove_index o (pinnedMarkerPath (d_path e)) _) (remove_index o (d_path e) st)) as (E1 & E2 & E3).
  unfold same_index, forget. cbn [set_index diskEntries diskSizeB pinnedSizeB]. rewrite E1, E2, E3, Hp.
  rewrite !sub_size_exact by lia. done.
Qed.

Lemma drop_lru_forget cfg o st k e : sound cfg st -> diskEntries st !! k = Some e -> unpinned e = true ->
  same_index (drop_lru o st k e) (forget k e st).
Proof.
  intros Hs Hk Hp. destruct (size_in cfg st k e Hs Hk) as (Hd & _). apply negb_true_iff in Hp.
  unfold drop_lru. pose proof (remove_index o (d_path e) st) as (E1 & E2 & E3).
  unfold same_index, forget. cbn [set_index diskEntries diskSizeB pinnedSizeB]. rewrite E1, E2, E3, Hp.
  rewrite sub_size_exact by lia. done.
Qed.

Lemma drop_unreadable_forget cfg key st : sound cfg st ->
  match diskEntries st !! key with
  | Some e => (drop_unreadable key st).1 = forget key e st
  | None => (drop_unreadable key st).1 = st
  end.
Proof.
  intros Hs. unfold drop_unreadable. destruct (diskEntries st !! key) as [e|] eqn:Hk; [|done].
  destruct (size_in cfg st key e Hs Hk) as (Hd & Hp & _). unfold forget. cbn [fst]. rewrite sub_size_exact by lia.
  destruct (pinned e); [rewrite sub_size_exact by auto|]; done.
Qed.

Lemma forget_drift st k e : diskEntries st !! k = Some e ->
  drift any (diskSizeB (forget k e st)) (diskEntries (forget k e st)) = drift any (diskSizeB st) (diskEntries st) /\
  drift pinned (pinnedSizeB (forget k e st)) (diskEntries (forget k e st)) = drift pinned (pinnedSizeB st) (diskEntries st).
Proof.
  intros Hk. unfold drift, forget. cbn [set_index diskEntries diskSizeB pinnedSizeB].
  rewrite (total_delete any _ _ _ Hk), (total_delete pinned _ _ _ Hk). cbn [any]. destruct (pinned e); lia.
Qed.

(** What an eviction keeps: soundness, and that the index only shrinks. *)
Definition shrinks (a b : state) : Prop := diskEntries b ⊆ diskEntries a /\ diskSizeB b <= diskSizeB a /\ pinnedSizeB b <= pinnedSizeB a.

Lemma forget_shrinks cfg st k e : sound cfg st -> diskEntries st !! k = Some e -> shrinks st (forget k e st).
Proof.
  intros Hs Hk. destruct (size_in cfg st k e Hs Hk) as (Hd & _). unfold shrinks, forget. cbn [set_index diskEntries diskSizeB pinnedSizeB].
  split; [apply delete_subseteq|]. destruct (pinned e); lia.
Qed.

Lemma shrinks_trans a b c : shrinks a b -> shrinks b c -> shrinks a c.
Proof. intros (? & ? & ?) (? & ? & ?). split_and!; [by etrans|lia..]. Qed.

Lemma shrinks_index a b b' : same_index b' b -> shrinks a b -> shrinks a b'.
Proof. unfold shrinks. intros (-> & -> & ->). done. Qed.

Lemma shrinks_refl a : shrinks a a.
Proof. unfold shrinks. split_and!; [done|lia..]. Qed.

(** A total over a part of an index. *)
Lemma total_shrinks p a b : (forall k e, diskEntries a !! k = Some e -> 0 <= sizeB e) -> diskEntries b ⊆ diskEntries a ->
  total p (diskEntries b) <= total p (diskEntries a).
Proof.
  generalize (diskEntries b). induction (diskEntries a) as [|k e m Hk IH] using map_ind; intros b' Hm Hsub.
  { assert (b' = ∅) as -> by (apply map_empty; intros i; destruct (b' !! i) eqn:E; [|done]; pose proof (lookup_weaken _ _ _ _ E Hsub) as H; by rewrite lookup_empty in H). lia. }
  assert (He : 0 <= sizeB e) by (apply (Hm k e); by rewrite lookup_insert_eq).
  assert (Hm' : forall k e, m !! k = Some e -> 0 <= sizeB e).
  { intros k' e' H. apply (Hm k' e'). rewrite lookup_insert_ne; [done|congruence]. }
  rewrite total_new by done. destruct (b' !! k) as [e'|] eqn:Ek.
  - assert (e' = e) as -> by (pose proof (lookup_weaken _ _ _ _ Ek Hsub) as H; rewrite lookup_insert_eq in H; congruence).
    rewrite (total_delete p b' k e Ek). specialize (IH (delete k b') Hm').
    assert (total p (delete k b') <= total p m); [|destruct (p e); lia]. apply IH.
    apply map_subseteq_spec. intros i x [Hne H]%lookup_delete_Some. eapply lookup_weaken in H; [|done]. by rewrite lookup_insert_ne in H.
  - assert (total p b' <= total p m); [|destruct (p e); lia]. apply IH; [done|].
    apply map_subseteq_spec. intros i x H. assert (i <> k) by congruence. eapply lookup_weaken in H; [|done]. by rewrite lookup_insert_ne in H.
Qed.

(** ** Files *)

(** What is known of the file of each payload. *)
Definition stored (cfg : Config) (P : bytes -> bytes -> Prop) (fs : gmap bytes bytes) : Prop :=
  forall k d, length k = 64%nat -> fs !! path_of cfg k = Some d -> P k d.

Lemma path_of_inj cfg a b : path_of cfg a = path_of cfg b -> a = b.
Proof. unfold path_of. intros H. apply app_inv_head in H. congruence. Qed.

Lemma marker_not_payload cfg a b : length a = 64%nat -> length b = 64%nat -> pinnedMarkerPath (path_of cfg a) <> path_of cfg b.
Proof.
  intros Ha Hb E. apply (f_equal length) in E. unfold pinnedMarkerPath, path_of in E.
  rewrite !length_app in E. cbn [length str] in E. lia.
Qed.

Lemma temp_not_payload cfg a r b : length a = 64%nat -> length b = 64%nat -> temp_path cfg a r <> path_of cfg b.
Proof.
  intros Ha Hb E. unfold temp_path in E. apply path_of_inj in E. apply (f_equal length) in E.
  cbn [length] in E. rewrite length_app in E. cbn [length] in E. lia.
Qed.

Lemma stored_remove cfg P o p st : stored cfg P (files st) -> stored cfg P (files (os_Remove o p st)).
Proof. intros H. unfold os_Remove. destruct (o_removed o p); [|done]. cbn [set_files files]. intros k d Hl [_ Hk]%lookup_delete_Some. auto. Qed.

Lemma stored_marker cfg P o a st : length a = 64%nat -> stored cfg P (files st) -> stored cfg P (files (write_marker o (path_of cfg a) st)).
Proof.
  intros Ha H. unfold write_marker. destruct (o_marked o); [|done]. intros k d Hl Hk. cbn [set_files files] in Hk.
  rewrite lookup_insert_ne in Hk by (by apply marker_not_payload). auto.
Qed.

(** ** What an eviction does *)

Record evicted (cfg : Config) (want : diskEntry -> bool) (st st' : state) : Prop := {
  ev_sound : sound cfg st';
  ev_shrinks : shrinks st st';
  ev_stored P : stored cfg P (files st) -> stored cfg P (files st');
  ev_only k e : diskEntries st !! k = Some e -> want e = false -> diskEntries st' !! k = Some e;
  ev_drift : drift any (diskSizeB st') (diskEntries st') = drift any (diskSizeB st) (diskEntries st) /\
    drift pinned (pinnedSizeB st') (diskEntries st') = drift pinned (pinnedSizeB st) (diskEntries st)
}.

Lemma evicted_refl cfg want st : sound cfg st -> evicted cfg want st st.
Proof. intros H. split; [done|apply shrinks_refl|done|done|done]. Qed.

Section Evicted.
Context (cfg : Config) (want : diskEntry -> bool) (over : state -> bool) (drop : state -> bytes -> diskEntry -> state) (o : oracle).
Context (Hord : ordered o).
Context (Hforget : forall st k e, sound cfg st -> diskEntries st !! k = Some e -> want e = true -> same_index (drop st k e) (forget k e st)).
Context (Hentries : forall st k e, diskEntries (drop st k e) = delete k (diskEntries st)).
Context (Hfiles : forall P st k e, stored cfg P (files st) -> stored cfg P (files (drop st k e))).

Lemma drop_evicted st st1 k e : evicted cfg want st st1 -> diskEntries st1 !! k = Some e -> want e = true ->
  evicted cfg want st (drop st1 k e).
Proof.
  intros [Hs Hsh Hst Ho Hd] Hk Hw. pose proof (Hforget _ _ _ Hs Hk Hw) as Hi. split.
  - eapply sound_index; [exact Hi|]. by apply forget_sound.
  - eapply shrinks_trans; [exact Hsh|]. eapply shrinks_index; [exact Hi|]. by apply (forget_shrinks cfg).
  - intros P H. auto.
  - intros k' e' Hk' Hw'. rewrite Hentries. rewrite lookup_delete_ne; [auto|]. intros ->. specialize (Ho _ _ Hk' Hw'). congruence.
  - destruct Hi as (-> & -> & ->). destruct (forget_drift st1 k e Hk) as [-> ->]. done.
Qed.

Lemma evict_while_evicted fuel n st : sound cfg st -> evicted cfg want st (evict_while want over drop (o_order o) fuel n st).
Proof.
  intros Hs. apply evict_while_ind; [exact Hord|by apply evicted_refl|]. intros st1 k e H _ Hk Hw. by apply drop_evicted.
Qed.
End Evicted.

Lemma drop_lru_entries o st k e : diskEntries (drop_lru o st k e) = delete k (diskEntries st).
Proof. unfold drop_lru. cbn [set_index diskEntries]. by rewrite (proj1 (remove_index o _ _)). Qed.

Lemma drop_pinned_entries o st k e : diskEntries (drop_pinned o st k e) = delete k (diskEntries st).
Proof. unfold drop_pinned. cbn [set_index diskEntries]. by rewrite (proj1 (remove_index o _ _)), (proj1 (remove_index o _ _)). Qed.

Lemma evictLRU_ends cfg o st : ordered o ->
  diskSizeB (evictLRU cfg o st) <= lowWater (budget_bytes (DiskCacheSizeMB cfg)) \/
  forall k e, diskEntries (evictLRU cfg o st) !! k = Some e -> unpinned e = false.
Proof.
  intros Ho. destruct (evict_while_ends unpinned (fun st => lowWater (budget_bytes (DiskCacheSizeMB cfg)) <? diskSizeB st)
    (drop_lru o) (o_order o) Ho (drop_lru_entries o) (S (size (diskEntries st))) 0 st ltac:(lia)) as [H|H]; [left; by apply Z.ltb_ge in H|by right].
Qed.

Lemma pinnedEvict_ends cfg o st : ordered o -> 0 < budget_bytes (PinnedBudgetMB cfg) ->
  pinnedSizeB (pinnedEvictLocked cfg o st) <= lowWater (budget_bytes (PinnedBudgetMB cfg)) \/
  forall k e, diskEntries (pinnedEvictLocked cfg o st) !! k = Some e -> pinned e = false.
Proof.
  intros Ho Hb. unfold pinnedEvictLocked. destruct (Z.leb_spec (budget_bytes (PinnedBudgetMB cfg)) 0); [lia|].
  destruct (evict_while_ends pinned (fun st => lowWater (budget_bytes (PinnedBudgetMB cfg)) <? pinnedSizeB st)
    (drop_pinned o) (o_order o) Ho (drop_pinned_entries o) (S (size (diskEntries st))) 0 st ltac:(lia)) as [H'|H']; [left; by apply Z.ltb_ge in H'|by right].
Qed.

Lemma evictLRU_evicted cfg o st : ordered o -> sound cfg st ->
  evicted cfg unpinned st (evictLRU cfg o st) /\
  (diskSizeB (evictLRU cfg o st) <= lowWater (budget_bytes (DiskCacheSizeMB cfg)) \/ total unpinned (diskEntries (evictLRU cfg o st)) = 0).
Proof.
  intros Ho Hs. split; [|destruct (evictLRU_ends cfg o st Ho); [by left|right; by apply total_none]].
  apply evict_while_evicted; try done.
  - intros. by apply (drop_lru_forget cfg).
  - intros. apply drop_lru_entries.
  - intros P st1 k e H. by apply (stored_remove cfg P).
Qed.

Lemma pinnedEvict_evicted cfg o st : ordered o -> sound cfg st ->
  evicted cfg pinned st (pinnedEvictLocked cfg o st) /\
  (0 < budget_bytes (PinnedBudgetMB cfg) ->
    pinnedSizeB (pinnedEvictLocked cfg o st) <= lowWater (budget_bytes (PinnedBudgetMB cfg)) \/
    total pinned (diskEntries (pinnedEvictLocked cfg o st)) = 0).
Proof.
  intros Ho Hs. split; [|intros Hb; destruct (pinnedEvict_ends cfg o st Ho Hb); [by left|right; by apply total_none]].
  unfold pinnedEvictLocked. destruct (Z.leb_spec (budget_bytes (PinnedBudgetMB cfg)) 0); [by apply evicted_refl|].
  apply evict_while_evicted; try done.
  - intros. by apply (drop_pinned_forget cfg).
  - intros. apply drop_pinned_entries.
  - intros P st1 k e H1. by apply (stored_remove cfg P), (stored_remove cfg P).
Qed.

(** ** What every section keeps *)

(** Budgets whose arithmetic does not overflow: up to 64 pebibytes. *)
Definition sane (cfg : Config) : Prop := Z.abs (DiskCacheSizeMB cfg) <= 2 ^ 36 /\ Z.abs (PinnedBudgetMB cfg) <= 2 ^ 36.

Lemma budget_bytes_exact mb : Z.abs mb <= 2 ^ 36 -> budget_bytes mb = mb * 2 ^ 20.
Proof. intros H. unfold budget_bytes. rewrite i64_small, i64_small; rewrite ?i64_small; unfold is_i64, minInt64, maxInt64; lia. Qed.

Lemma lowWater_le mb : Z.abs mb <= 2 ^ 36 -> lowWater (mb * 2 ^ 20) <= Z.max 0 (mb * 2 ^ 20).
Proof.
  intros H. unfold lowWater. rewrite i64_small by (unfold is_i64, minInt64, maxInt64; lia).
  destruct (Z.leb_spec 0 mb).
  - rewrite Z.max_r by lia. apply Z.quot_le_upper_bound; lia.
  - rewrite Z.max_l by lia. apply Z.quot_le_upper_bound; lia.
Qed.

Record good (cfg : Config) (U V : Z) (P : bytes -> bytes -> Prop) (st : state) : Prop := {
  g_sound : sound cfg st;
  g_unpinned : total unpinned (diskEntries st) <= U;
  g_pinned : total pinned (diskEntries st) <= V;
  g_stored : stored cfg P (files st)
}.

Section Good.
Context (cfg : Config) (U V : Z) (P : bytes -> bytes -> Prop) (Hsane : sane cfg).
Context (HU : Z.max 0 (DiskCacheSizeMB cfg * 2 ^ 20) <= U) (HV : Z.max 0 (PinnedBudgetMB cfg * 2 ^ 20) <= V).

Lemma good_nonneg st k e : good cfg U V P st -> diskEntries st !! k = Some e -> 0 <= sizeB e.
Proof. intros [[He _] _ _ _] Hk. by apply (He k e Hk). Qed.

Lemma good_evicted want st st' : good cfg U V P st -> evicted cfg want st st' -> good cfg U V P st'.
Proof.
  intros Hg [Hs [Hsub _] Hst _ _]. pose proof (fun p => total_shrinks p st st' (fun k e => good_nonneg st k e Hg) Hsub) as Ht.
  destruct Hg as [_ Hu Hp Hf]. split; [done| | |by apply Hst].
  - specialize (Ht unpinned). lia.
  - specialize (Ht pinned). lia.
Qed.

Lemma good_index st st' : same_index st' st -> stored cfg P (files st') -> good cfg U V P st -> good cfg U V P st'.
Proof.
  intros Hi Hf [Hs Hu Hp _]. split; [by eapply sound_index| | |done]; by rewrite (proj1 Hi).
Qed.

Lemma good_remove o p st : good cfg U V P st -> good cfg U V P (os_Remove o p st).
Proof. intros H. eapply good_index; [apply remove_index|apply stored_remove, (g_stored _ _ _ _ _ H)|done]. Qed.

Lemma good_forget st k e : good cfg U V P st -> diskEntries st !! k = Some e -> good cfg U V P (forget k e st).
Proof.
  intros Hg Hk. apply (good_evicted any st); [done|]. pose proof (g_sound _ _ _ _ _ Hg) as Hs.
  split; [by apply forget_sound|by apply (forget_shrinks cfg)|done|done|by apply forget_drift].
Qed.

(** An entry takes the place of what the index had for its key. *)
Lemma insert_sound st key e : sound cfg st -> d_key e = key -> d_path e = path_of cfg key -> 0 <= sizeB e -> length key = 64%nat ->
  sound cfg (set_index st (<[key := e]> (diskEntries st)) (diskSizeB st + sizeB e)
               (if pinned e then pinnedSizeB st + sizeB e else pinnedSizeB st)).
Proof.
  intros [He Hd] ? ? ? ?. split; cbn [set_index diskEntries diskSizeB pinnedSizeB].
  - intros k' e' [[<- <-]|[_ H']]%lookup_insert_Some; [done|by apply He].
  - unfold drift in *. rewrite !total_insert. cbn [any]. destruct (diskEntries st !! key) as [old|] eqn:Eo.
    + rewrite (total_delete any _ _ _ Eo), (total_delete pinned _ _ _ Eo) in Hd. cbn [any] in Hd.
      destruct (He key old Eo) as (_ & _ & Ho & _). destruct (pinned e), (pinned old); lia.
    + rewrite delete_id by done. destruct (pinned e); lia.
Qed.

Lemma total_delete_le p m k : (forall k e, m !! k = Some e -> 0 <= sizeB e) -> total p (delete k m) <= total p m.
Proof.
  intros Hm. destruct (m !! k) as [e|] eqn:E; [|by rewrite delete_id].
  rewrite (total_delete p m k e E). pose proof (Hm k e E). destruct (p e); lia.
Qed.

Lemma recorded_bounds st : sound cfg st ->
  total unpinned (diskEntries st) <= diskSizeB st /\ total pinned (diskEntries st) <= pinnedSizeB st.
Proof.
  intros [He Hd]. unfold drift in Hd. rewrite total_split in Hd.
  assert (0 <= total pinned (diskEntries st)) by (apply sizes_nonneg; intros k e H; by apply (He k e H)). lia.
Qed.

Lemma good_persist o sha source key data mode pin st : ordered o -> length key = 64%nat -> (pin = true -> 0 < PinnedBudgetMB cfg) ->
  P key data -> good cfg U V P st -> good cfg U V P (persist cfg o sha source key data mode pin st).
Proof.
  intros Ho Hl Hpin HP Hg. destruct Hsane as [HsD HsP].
  set (e := MkEntry key (path_of cfg key) (Z.of_nat (length data)) (o_now o) mode sha source pin).
  pose proof (insert_sound st key e (g_sound _ _ _ _ _ Hg) eq_refl eq_refl ltac:(cbn; lia) Hl) as Hs.
  pose proof (total_delete_le unpinned (diskEntries st) key (fun k e => good_nonneg st k e Hg)) as Htu.
  pose proof (total_delete_le pinned (diskEntries st) key (fun k e => good_nonneg st k e Hg)) as Htp.
  destruct Hg as [_ Hu Hp Hf]. unfold persist. cbn [e pinned sizeB] in Hs. destruct pin.
  - set (st1 := write_marker _ _ _).
    assert (Hi : same_index st1 (set_index st (<[key := e]> (diskEntries st)) (diskSizeB st + Z.of_nat (length data)) (pinnedSizeB st + Z.of_nat (length data)))).
    { apply marker_index. }
    pose proof (sound_index cfg _ _ Hi Hs) as Hs1. destruct (pinnedEvict_evicted cfg o st1 Ho Hs1) as [Hev Hb].
    rewrite budget_bytes_exact in Hb by done. specialize (Hb ltac:(specialize (Hpin eq_refl); lia)).
    pose proof (lowWater_le _ HsP) as Hlow. destruct (recorded_bounds _ (ev_sound _ _ _ _ Hev)) as [_ Hrec]. split.
    + apply Hev.
    + etrans; [apply (total_shrinks _ st1)|].
      * intros k e' H. by apply (s_entry _ _ Hs1 k e').
      * apply Hev.
      * rewrite (proj1 Hi). cbn [set_index diskEntries]. rewrite total_insert. cbn. lia.
    + lia.
    + apply (ev_stored _ _ _ _ Hev). by apply (stored_marker cfg P).
  - rewrite (budget_bytes_exact _ HsD : i64 (i64 (DiskCacheSizeMB cfg * 1024) * 1024) = _).
    set (st1 := set_index _ _ _ _). change (sound cfg st1) in Hs.
    assert (Hp1 : total pinned (diskEntries st1) <= V) by (cbn [st1 set_index diskEntries]; rewrite total_insert; cbn; lia).
    destruct (Z.ltb_spec (DiskCacheSizeMB cfg * 2 ^ 20) (diskSizeB st1)).
    + destruct (evictLRU_evicted cfg o st1 Ho Hs) as [Hev Hb]. rewrite budget_bytes_exact in Hb by done.
      pose proof (lowWater_le _ HsD) as Hlow. destruct (recorded_bounds _ (ev_sound _ _ _ _ Hev)) as [Hrec _]. split.
      * apply Hev.
      * lia.
      * etrans; [apply (total_shrinks _ st1)|exact Hp1]; [|apply Hev]. intros k e' H'. by apply (s_entry _ _ Hs k e').
      * by apply (ev_stored _ _ _ _ Hev).
    + destruct (recorded_bounds _ Hs) as [Hrec _]. split; [done|lia|done|done].
Qed.

(** A hit stores the entry again, with another use, another digest and maybe pinned. *)
Lemma replace_sound st key e e' : sound cfg st -> diskEntries st !! key = Some e ->
  sizeB e' = sizeB e -> d_key e' = d_key e -> d_path e' = d_path e -> (pinned e = true -> pinned e' = true) ->
  sound cfg (set_index st (<[key := e']> (diskEntries st)) (diskSizeB st)
               (if pinned e' && negb (pinned e) then pinnedSizeB st + sizeB e else pinnedSizeB st)).
Proof.
  intros [He Hd] Hk Es Ek Ep Hpin. split; cbn [set_index diskEntries diskSizeB pinnedSizeB].
  - intros k' e1 [[<- <-]|[_ H']]%lookup_insert_Some; [|by apply He]. rewrite Es, Ek, Ep. by apply He.
  - unfold drift in *. rewrite !total_insert. cbn [any]. rewrite (total_delete any _ _ _ Hk), (total_delete pinned _ _ _ Hk) in Hd.
    cbn [any] in Hd. rewrite Es. destruct (pinned e) eqn:E1, (pinned e') eqn:E2; cbn [andb negb]; try lia.
Qed.

Lemma good_promote o st key e0 sha now pin : ordered o -> (pin = true -> 0 < PinnedBudgetMB cfg) ->
  diskEntries st !! key = Some e0 -> good cfg U V P st ->
  good cfg U V P (promoteAndStoreLocked cfg o st key (touched e0 sha now (pinned e0)) pin).
Proof.
  intros Ho Hpin Hk Hg. destruct Hsane as [_ HsP]. pose proof (g_sound _ _ _ _ _ Hg) as Hs.
  destruct (s_entry _ _ Hs key e0 Hk) as (Ek & Ep & Hsz & Hl).
  unfold promoteAndStoreLocked. cbn [touched pinned sizeB contentSHA lastUsed d_path].
  set (e' := touched _ _ _ _). set (st2 := set_index _ _ _ _).
  assert (Hi : same_index st2 (set_index st (<[key := e']> (diskEntries st)) (diskSizeB st)
    (if pinned e' && negb (pinned e0) then pinnedSizeB st + sizeB e0 else pinnedSizeB st))).
  { unfold st2, e', same_index. cbn [touched pinned set_index diskEntries diskSizeB pinnedSizeB].
    destruct pin, (pinned e0); cbn [andb negb orb]; try done.
    destruct (marker_index o (d_path e0) (set_index st (diskEntries st) (diskSizeB st) (pinnedSizeB st + sizeB e0))) as (-> & -> & ->). done. }
  assert (Hs2 : sound cfg st2).
  { eapply sound_index; [exact Hi|]. apply replace_sound; try done. cbn [e' touched pinned]. by intros ->. }
  assert (Hf2 : stored cfg P (files st2)).
  { unfold st2. cbn [set_index files]. destruct (pin && negb (pinned e0)); [|apply Hg]. rewrite Ep. apply (stored_marker cfg P); [done|apply Hg]. }
  assert (Hu2 : total unpinned (diskEntries st2) <= U).
  { rewrite (proj1 Hi). cbn [set_index diskEntries]. rewrite total_insert. etrans; [|apply (g_unpinned _ _ _ _ _ Hg)].
    rewrite (total_delete unpinned _ _ _ Hk). unfold unpinned, e'. cbn [touched pinned sizeB]. destruct pin, (pinned e0); cbn; lia. }
  change (good cfg U V P (if pinned e' then pinnedEvictLocked cfg o st2 else st2)). destruct (pinned e') eqn:Epin.
  - destruct (pinnedEvict_evicted cfg o st2 Ho Hs2) as [Hev Hb].
    assert (Hshu := total_shrinks unpinned st2 (pinnedEvictLocked cfg o st2) (fun k e H => proj1 (proj2 (proj2 (s_entry _ _ Hs2 k e H)))) (proj1 (ev_shrinks _ _ _ _ Hev))).
    split; [apply Hev|lia| |by apply (ev_stored _ _ _ _ Hev)].
    destruct (pinned e0) eqn:Ep0.
    + etrans; [apply (total_shrinks pinned st2)|]; [intros k e H; by apply (s_entry _ _ Hs2 k e)|apply Hev|].
      rewrite (proj1 Hi). cbn [set_index diskEntries]. rewrite total_insert, Epin. etrans; [|apply (g_pinned _ _ _ _ _ Hg)].
      rewrite (total_delete pinned _ _ _ Hk), Ep0. cbn. lia.
    + assert (pin = true) as Hp by (by destruct pin).
      rewrite budget_bytes_exact in Hb by done. specialize (Hb ltac:(specialize (Hpin Hp); lia)).
      pose proof (lowWater_le _ HsP). destruct (recorded_bounds _ (ev_sound _ _ _ _ Hev)) as [_ Hrec]. lia.
  - split; try done. rewrite (proj1 Hi). cbn [set_index diskEntries]. rewrite total_insert, Epin.
    pose proof (total_delete_le pinned (diskEntries st) key (fun k e => good_nonneg st k e Hg)). destruct Hg. lia.
Qed.

Lemma good_touch o sha verify key pin st : ordered o -> (pin = true -> 0 < PinnedBudgetMB cfg) ->
  good cfg U V P st -> good cfg U V P (touch cfg o sha verify key pin st).
Proof.
  intros Ho Hpin Hg. unfold touch. destruct (diskEntries st !! key) as [e|] eqn:Hk; [|done].
  destruct verify; [case_bool_decide; [|done]|]; by apply good_promote.
Qed.

Lemma good_drop_unreadable key st : good cfg U V P st -> good cfg U V P (drop_unreadable key st).1.
Proof.
  intros Hg. pose proof (drop_unreadable_forget cfg key st (g_sound _ _ _ _ _ Hg)) as H.
  destruct (diskEntries st !! key) as [e|] eqn:Hk; rewrite H; [by apply good_forget|done].
Qed.

Lemma sweep_turn_forget now st evs k e : sound cfg st -> diskEntries st !! k = Some e ->
  sweep_turn cfg now (st, evs) (k, e) = if expired cfg now e then (forget k e st, evs ++ [e]) else (st, evs).
Proof.
  intros Hs Hk. unfold sweep_turn. destruct (expired cfg now e) eqn:Ex; [|done].
  destruct (size_in cfg st k e Hs Hk) as (Hd & _). rewrite sub_size_exact by lia. unfold forget.
  assert (pinned e = false) as -> by (unfold expired in Ex; by destruct (pinned e)). done.
Qed.

Lemma sweep_loop now l st evs : NoDup l.*1 -> (forall k e, (k, e) ∈ l -> diskEntries st !! k = Some e) -> good cfg U V P st ->
  let r := fold_left (sweep_turn cfg now) l (st, evs) in
  good cfg U V P r.1 /\ files r.1 = files st /\ pinnedSizeB r.1 = pinnedSizeB st /\
  r.2 = evs ++ filter (fun e => expired cfg now e = true) l.*2 /\
  diskSizeB r.1 = diskSizeB st - foldr (fun e n => sizeB e + n) 0 (filter (fun e => expired cfg now e = true) l.*2) /\
  forall k e, diskEntries r.1 !! k = Some e <-> diskEntries st !! k = Some e /\ ((k, e) ∈ l -> expired cfg now e = false).
Proof.
  revert st evs. induction l as [|[k e] l IH]; intros st evs Hn Hl Hg r; unfold r; clear r; cbn [fold_left fmap list_fmap fst snd].
  { rewrite app_nil_r. split_and!; try done; [cbn; lia|]. intros k' e'. split; [|by intros [? _]]. intros Hk. split; [done|]. intros H. by apply not_elem_of_nil in H. }
  cbn [fmap list_fmap fst] in Hn. apply list.NoDup_cons in Hn as [Hk Hn]. pose proof (Hl k e ltac:(left)) as Hke.
  rewrite (sweep_turn_forget now st evs k e (g_sound _ _ _ _ _ Hg) Hke). rewrite !filter_cons.
  destruct (expired cfg now e) eqn:Ex.
  - rewrite !decide_True by done. destruct (IH (forget k e st) (evs ++ [e]) Hn) as (Hg' & Hf & Hp & Hev & Hd & Hm).
    + intros k' e' H. cbn [forget set_index diskEntries]. rewrite lookup_delete_ne; [apply Hl; by right|].
      intros <-. apply Hk. apply list_elem_of_fmap. by exists (k, e').
    + by apply good_forget.
    + split_and!; [done|by rewrite Hf| | | |].
      * rewrite Hp. cbn. unfold expired in Ex. by destruct (pinned e).
      * by rewrite Hev, <-app_assoc.
      * rewrite Hd. cbn. lia.
      * intros k' e'. rewrite Hm. cbn [forget set_index diskEntries]. rewrite lookup_delete_Some, list.elem_of_cons. split.
        -- intros [[Hne H] Hx]. split; [done|]. intros [[= -> ->]|?]; [done|auto].
        -- intros [H Hx]. split; [|auto]. split; [|done]. intros <-. rewrite Hke in H. injection H as <-. rewrite Hx in Ex; [done|by left].
  - rewrite !decide_False by done. destruct (IH st evs Hn ltac:(intros; apply Hl; by right) Hg) as (Hg' & Hf & Hp & Hev & Hd & Hm).
    split_and!; [done..|]. intros k' e'. rewrite Hm, list.elem_of_cons. split.
    + intros [H Hx]. split; [done|]. intros [[= -> ->]|?]; [done|auto].
    + intros [H Hx]. split; [done|auto].
Qed.

Lemma order_nodup o n m : ordered o -> NoDup (o_order o n m).*1 /\ forall k e, (k, e) ∈ o_order o n m <-> m !! k = Some e.
Proof.
  intros Ho. split; [rewrite (Ho n m); apply NoDup_fst_map_to_list|]. intros k e. rewrite (Ho n m). apply elem_of_map_to_list.
Qed.

Lemma good_sweep o now st : ordered o -> good cfg U V P st -> good cfg U V P (sweep cfg o now st).1.
Proof.
  intros Ho Hg. destruct (order_nodup o 0 (diskEntries st) Ho) as [Hn Hl]. unfold sweep.
  apply (sweep_loop now _ st []); [done|intros; by apply Hl|done].
Qed.

Lemma oldest_of_in b l r : oldest_of b l = Some r -> b = Some r \/ r ∈ l.
Proof.
  revert b. induction l as [|[k e] l IH]; intros b H; cbn in H; [by left|].
  destruct (IH _ H) as [Hb|?]; [|right; by right]. destruct b as [[k' old]|].
  - destruct (_ <? _); [injection Hb as <-; right; left|by left].
  - injection Hb as <-. right; left.
Qed.

Lemma yield_evict_forget o st st' : ordered o -> sound cfg st -> yield_evict o st = Ok st' ->
  exists k e, diskEntries st !! k = Some e /\ same_index st' (forget k e st) /\ forall Q, stored cfg Q (files st) -> stored cfg Q (files st').
Proof.
  intros Ho Hs E. unfold yield_evict in E. destruct (oldest_of _ _) as [[k e]|] eqn:Eo; [|done].
  apply oldest_of_in in Eo as [?|Hin]; [done|]. apply (order_nodup o 0 (diskEntries st) Ho) in Hin.
  destruct (size_in cfg st k e Hs Hin) as (Hd & Hp & H0). case_match; [done|]. injection E as <-. exists k, e. split; [done|].
  set (st1 := os_Remove o (d_path e) st). set (st2 := if pinned e then _ else st1).
  assert (Hi : same_index st2 st).
  { unfold st2. destruct (pinned e); [eapply same_trans; [apply remove_index|]|]; apply remove_index. }
  destruct Hi as (E1 & E2 & E3). split.
  - unfold same_index, forget. cbn [set_index diskEntries diskSizeB pinnedSizeB]. rewrite E1, E2, E3, sub_size_exact by lia.
    destruct (pinned e); [by rewrite sub_size_exact by auto|]. destruct (Z.ltb_spec (pinnedSizeB st) 0); [lia|done].
  - intros Q HQ. cbn [set_index files]. unfold st2. destruct (pinned e); repeat apply (stored_remove cfg Q); done.
Qed.

Lemma good_yield o st st' : ordered o -> good cfg U V P st -> yield_evict o st = Ok st' -> good cfg U V P st'.
Proof.
  intros Ho Hg E. destruct (yield_evict_forget o st st' Ho (g_sound _ _ _ _ _ Hg) E) as (k & e & Hk & Hi & Hf).
  apply (good_index (forget k e st)); [done|apply Hf, Hg|by apply good_forget].
Qed.
End Good.

(** ** Restored indexes *)

Definition exact (st : state) : Prop :=
  diskSizeB st = total any (diskEntries st) /\ pinnedSizeB st = total pinned (diskEntries st).

Lemma restore_loop cfg marked l st :
  NoDup (map Name l) -> Forall (fun de => match Info de with Some (size, _) => 0 <= size | None => True end) l ->
  (forall de, de ∈ l -> diskEntries st !! Name de = None) -> sound cfg st -> exact st ->
  let st' := fold_left (restore_entry cfg marked) l st in
  sound cfg st' /\ exact st' /\ files st' = files st.
Proof.
  revert st. induction l as [|de l IH]; intros st Hn Hf Hfresh Hs Hx; cbn [fold_left]; [done|].
  cbn [map] in Hn. apply list.NoDup_cons in Hn as [Hde Hn]. apply list.Forall_cons in Hf as [Hsz Hf].
  assert (Hnew := Hfresh de ltac:(left)).
  assert (Hrest : forall de', de' ∈ l -> diskEntries st !! Name de' = None) by (intros; apply Hfresh; by right).
  unfold restore_entry at 2 4 6. destruct (IsDir de); [by apply IH|].
  destruct (Z.eqb_spec (Z.of_nat (length (Name de))) 64) as [Hl|]; cbn [negb]; [|by apply IH].
  destruct (Info de) as [[size modTime]|]; [|by apply IH].
  set (e := MkEntry _ _ _ _ _ _ _ _). set (st1 := set_index _ _ _ _).
  assert (Hs1 : sound cfg st1).
  { apply (insert_sound cfg st (Name de) e); [done..|cbn; lia|lia]. }
  destruct (IH st1 Hn Hf) as (H1 & H2 & H3); [|done| |done].
  - intros de' H. cbn [st1 set_index diskEntries]. rewrite lookup_insert_ne; [auto|]. intros E. apply Hde. rewrite E.
    apply list_elem_of_fmap. eauto.
  - destruct Hx as [E1 E2]. split; cbn [st1 set_index diskEntries diskSizeB pinnedSizeB]; rewrite total_new, ?E1, ?E2 by done; cbn.
    + lia.
    + destruct (marked _); lia.
Qed.

Lemma restore_good cfg listing fs : listed listing ->
  sound cfg (restore cfg listing fs) /\ exact (restore cfg listing fs) /\ files (restore cfg listing fs) = fs.
Proof.
  intros [Hn Hf]. unfold restore. apply restore_loop; done.
Qed.

(** ** The invariant of the interleaving *)

Section Invariant.
Context (sha256 : bytes -> bytes) (sha256_length : forall x, length (sha256 x) = 32%nat) (sources : ChunkSource -> Prop).
Context (cfg : Config) (Hsane : sane cfg) (st0 : state).

(** A payload: fetched from a source under its key, or in the file the cache found for it. *)
Definition payload (key data : bytes) : Prop :=
  upstream sha256 sources key data \/ files st0 !! path_of cfg key = Some data.

Definition key_of (j : job) : bytes := payloadKey sha256 (j_src j) (j_ref j).

(** What a call may return. *)
Definition served (j : job) (data : bytes) : Prop :=
  exists raw, payload (key_of j) raw /\ visible (j_src j) (j_ref j) raw = Ok data.

Definition phase_ok (j : job) (ph : phase) : Prop :=
  match ph with
  | PRead e => d_path e = path_of cfg (key_of j)
  | PTouch _ data | PWrite data | PInsert data => payload (key_of j) data
  | PReturned (Ok data) => served j data
  | _ => True
  end.

Definition pins (j : job) : Prop := (j_pin j = true -> 0 < PinnedBudgetMB cfg) /\ sources (j_src j).

Definition most (mb restored : Z) : Z := Z.max (Z.max 0 (mb * 2 ^ 20)) restored.

Abbreviation U := (most (DiskCacheSizeMB cfg) (total unpinned (diskEntries st0))).
Abbreviation V := (most (PinnedBudgetMB cfg) (total pinned (diskEntries st0))).

Record sys_ok (s : sys) : Prop := {
  o_good : good cfg U V payload (cache s);
  o_jobs : Forall (fun jp => pins jp.1 /\ phase_ok jp.1 jp.2) (jobs s)
}.

Lemma hex_length b : length (hex_encode b) = (2 * length b)%nat.
Proof. unfold hex_encode. induction b as [|c b IH]; [done|]. cbn. rewrite IH. lia. Qed.

Lemma key_length j : length (key_of j) = 64%nat.
Proof. unfold key_of, payloadKey, sha256hex. by rewrite hex_length, sha256_length. Qed.

Lemma arrives_pins j : arrives sources cfg j -> pins j.
Proof.
  unfold pins. intros (src & ref & Hs & [(mode & ->)|[->|(mode & H)]]); cbn; [done|by rewrite Z.ltb_lt|].
  destruct mode; cbn in H; try done; by injection H as <-.
Qed.

Lemma served_intro j data raw : payload (key_of j) raw -> visible (j_src j) (j_ref j) raw = Ok data -> phase_ok j (PReturned (Ok data)).
Proof. intros H E. by exists raw. Qed.

Lemma give_ok j raw : payload (key_of j) raw -> phase_ok j (PReturned (visible (j_src j) (j_ref j) raw)).
Proof. intros H. destruct (visible _ _ raw) eqn:E; [by eapply served_intro|done]. Qed.

Local Ltac each := repeat first [apply list.Forall_nil_2|apply list.Forall_cons_2]; auto.

Lemma write_stored a key data fs : length key = 64%nat -> payload key data -> stored cfg payload fs ->
  Forall (stored cfg payload) (atomicWriteFile cfg a key data fs).1 /\
  stored cfg payload (atomicWriteFile cfg a key data fs).2.1.
Proof.
  intros Hl Hd Hf. unfold atomicWriteFile. destruct (w_mkdir a); cbn [negb]; [|by split; [each|]].
  destruct (w_temp a) as [random|]; [|by split; [each|]].
  assert (Ht : forall fs x, stored cfg payload fs -> stored cfg payload (<[temp_path cfg key random := x]> fs)).
  { intros fs' x H k d Hk E. rewrite lookup_insert_ne in E by (by apply temp_not_payload). auto. }
  assert (Hc : forall fs, stored cfg payload fs -> stored cfg payload (if w_cleanup a then delete (temp_path cfg key random) fs else fs)).
  { intros fs' H. destruct (w_cleanup a); [|done]. intros k d Hk [_ E]%lookup_delete_Some. auto. }
  destruct (w_write a) as [n|]; cbn [fst snd].
  { split; [each|]; auto. }
  destruct (negb _ || _ || _); cbn [fst snd]; [split; [each|]; auto|].
  assert (Hr : stored cfg payload (<[path_of cfg key := data]> (delete (temp_path cfg key random) (<[temp_path cfg key random := data]> fs)))).
  { intros k d Hk E. apply lookup_insert_Some in E as [[Ep <-]|[_ E]].
    - apply path_of_inj in Ep as <-. done.
    - apply lookup_delete_Some in E as [_ E]. by eapply Ht. }
  split; [each|]; auto.
Qed.

Lemma turn_ok o j ph st st' ph' : ordered o -> answers sha256 sources j ph o -> pins j -> phase_ok j ph -> good cfg U V payload st ->
  turn sha256 cfg o j ph st = (st', ph') -> good cfg U V payload st' /\ phase_ok j ph'.
Proof.
  intros Ho Ha [Hpin Hsrc] Hph Hg. assert (HU : Z.max 0 (DiskCacheSizeMB cfg * 2 ^ 20) <= U) by (unfold most; lia).
  assert (HV : Z.max 0 (PinnedBudgetMB cfg * 2 ^ 20) <= V) by (unfold most; lia).
  pose proof (key_length j) as Hl. unfold answers in Ha. unfold turn. fold (key_of j).
  assert (Hcount : forall st1 st2, same_index st1 st2 -> files st1 = files st2 -> good cfg U V payload st2 -> good cfg U V payload st1).
  { intros st1 st2 Hi Hf H. eapply good_index; [exact Hi|rewrite Hf; apply H|done]. }
  destruct ph as [| |e|e data|e|e wp| |data|data|res]; cbn beta iota.
  - destruct (o_fetch o) as [r leader]. intros [= <- <-]. split; [done|]. destruct r.2 eqn:Er; [done|].
    apply give_ok. left. exists (j_src j), (j_ref j), FetchDemand, r. auto 6.
  - intros [= <- <-]. split; [done|]. destruct (diskEntries st !! key_of j) as [e|] eqn:Ek; [|done].
    apply (s_entry _ _ (g_sound _ _ _ _ _ Hg) _ _ Ek).
  - intros [= <- <-]. split; [done|]. cbn in Hph. rewrite Hph. destruct (files st !! _) as [data|] eqn:Ef; [|done].
    destruct (o_read o); [|done]. cbn. by apply (g_stored _ _ _ _ _ Hg).
  - intros [= <- <-]. split; [|by apply give_ok]. eapply Hcount; [| |by apply good_touch]; done.
  - pose proof (good_drop_unreadable cfg U V payload (key_of j) st Hg) as H.
    destruct (drop_unreadable (key_of j) st) as [st1 wp]. by intros [= <- <-].
  - intros [= <- <-]. split; [|done]. destruct wp; repeat apply good_remove; done.
  - destruct (o_fetch o) as [r leader]. intros [= <- <-]. split; [by eapply Hcount; [| |exact Hg]|]. destruct r.2 eqn:Er; [done|].
    assert (payload (key_of j) (default [] r.1)) as Hp by (left; auto).
    destruct leader; cbn [negb]; [|by apply give_ok]. by destruct (visible _ _ _).
  - pose proof (write_stored (o_write o) (key_of j) data (files st) Hl Hph (g_stored _ _ _ _ _ Hg)) as [_ Hw].
    destruct (atomicWriteFile _ _ _ _ _) as [states [fs written]]. cbn [fst snd] in *. intros [= <- <-].
    split; [by eapply good_index; [| |exact Hg]|]. destruct written; [done|by apply give_ok].
  - intros [= <- <-]. split; [by apply good_persist|by apply give_ok].
  - by intros [= <- <-].
Qed.

Lemma step_ok s s' : step sha256 sources cfg s s' -> sys_ok s -> sys_ok s'.
Proof.
  assert (HU : Z.max 0 (DiskCacheSizeMB cfg * 2 ^ 20) <= U) by (unfold most; lia).
  assert (HV : Z.max 0 (PinnedBudgetMB cfg * 2 ^ 20) <= V) by (unfold most; lia).
  intros Hstep [Hg Hj]. destruct Hstep as [st js us j Ha|st st' js rest us j ph ph' o Hjs Ho Han E|st st' js us now o evs Ho E|
    st js us rest path o Hus|st st' js us o Ho E]; cbn [cache jobs] in *.
  - split; [done|]. constructor; [|done]. split; [by apply arrives_pins|]. by destruct j as [? [] ? ? ?].
  - rewrite Hjs in Hj. apply list.Forall_cons in Hj as [[Hp Hph] Hj]. cbn [fst snd] in *.
    destruct (turn_ok o j ph st st' ph' Ho Han Hp Hph Hg E). split; [done|]. by constructor.
  - split; [|done]. cbn [cache]. change st' with ((st', evs).1). rewrite <-E. by apply good_sweep.
  - split; [|done]. by apply good_remove.
  - split; [|done]. by eapply good_yield.
Qed.

Lemma reachable_ok s : sound cfg st0 -> reachable sha256 sources cfg st0 s -> sys_ok s.
Proof.
  intros Hs. induction 1 as [|s s' _ IH Hstep]; [|by eapply step_ok].
  split; [|constructor]. cbn [cache]. split; [done|unfold most; lia|unfold most; lia|]. intros k d _ Hk. by right.
Qed.
End Invariant.

(** ** Which entries leave *)

Lemma evict_while_subset want over drop o fuel n st : ordered o ->
  (forall st k e, diskEntries (drop st k e) = delete k (diskEntries st)) ->
  diskEntries (evict_while want over drop (o_order o) fuel n st) ⊆ diskEntries st.
Proof.
  intros Ho Hd. apply (evict_while_ind want over drop (o_order o) Ho (fun st' => diskEntries st' ⊆ diskEntries st)); [done|].
  intros st' k e H _ _ _. rewrite Hd. etrans; [apply delete_subseteq|done].
Qed.

(** With at most sixteen candidates an eviction loop takes them oldest first. *)
Lemma evict_while_oldest want over drop o fuel n st k e k' e' : ordered o ->
  (forall st k e, diskEntries (drop st k e) = delete k (diskEntries st)) ->
  count_by (fun ke => want ke.2) (map_to_list (diskEntries st)) <= 16 ->
  diskEntries st !! k = Some e -> diskEntries (evict_while want over drop (o_order o) fuel n st) !! k = None ->
  diskEntries (evict_while want over drop (o_order o) fuel n st) !! k' = Some e' -> want e' = true -> lastUsed e <= lastUsed e'.
Proof.
  intros Ho Hd. revert n st. induction fuel as [|fuel IH]; intros n st Hc Hk Hgone Hk' Hw; cbn [evict_while] in *; [congruence|].
  destruct (over st) eqn:Eo; [|congruence].
  destruct (sample_oldest want 0 None (o_order o n (diskEntries st))) as [[k0 e0]|] eqn:Es; [|congruence].
  assert (Hc' : count_by (fun ke => want ke.2) (o_order o n (diskEntries st)) <= 16) by (by rewrite (count_perm _ _ _ (Ho n _))).
  destruct (sample_oldest_min want (o_order o n (diskEntries st)) 0 None (k0, e0) ltac:(lia) ltac:(lia) Es) as [Hmin _].
  pose proof (sample_lookup want (o_order o) Ho n _ _ _ Es) as [Hk0 Hw0].
  assert (Hstill : diskEntries st !! k' = Some e').
  { eapply lookup_weaken in Hk'; [|by apply evict_while_subset]. rewrite Hd in Hk'. by apply lookup_delete_Some in Hk' as [_ ?]. }
  destruct (decide (k = k0)) as [->|Hne].
  - rewrite Hk in Hk0. injection Hk0 as <-. apply (Hmin (k', e')); [|done]. rewrite (Ho n _). by apply elem_of_map_to_list.
  - apply (IH (S n) (drop st k0 e0)); try done; rewrite Hd.
    + etrans; [|exact Hc]. rewrite <-(count_perm _ _ _ (map_to_list_delete _ _ _ Hk0)), count_cons. cbn [snd]. destruct (want e0); lia.
    + by rewrite lookup_delete_ne.
Qed.

(** A sweep takes exactly what has expired. *)
Lemma eviction_order_sweep cfg o now st : ordered o -> sound cfg st ->
  sound cfg (sweep cfg o now st).1 /\
  (sweep cfg o now st).2 ≡ₚ filter (fun e => expired cfg now e = true) (map_to_list (diskEntries st)).*2 /\
  diskSizeB (sweep cfg o now st).1 = diskSizeB st - foldr (fun e n => sizeB e + n) 0 (sweep cfg o now st).2 /\
  pinnedSizeB (sweep cfg o now st).1 = pinnedSizeB st /\
  forall k e, diskEntries (sweep cfg o now st).1 !! k = Some e <-> diskEntries st !! k = Some e /\ expired cfg now e = false.
Proof.
  intros Ho Hs.
  destruct (order_nodup o 0 (diskEntries st) Ho) as [Hn Hl]. unfold sweep.
  pose proof (sweep_loop cfg (total unpinned (diskEntries st)) (total pinned (diskEntries st)) (fun _ _ => True) now
    (o_order o 0%nat (diskEntries st)) st [] Hn (fun k e => proj1 (Hl k e))) as H.
  specialize (H ltac:(split; [done|lia|lia|done])).
  destruct (fold_left _ _ _) as [st' gone]. cbn zeta in H. cbn [fst snd app] in H. destruct H as (Hg & _ & Hp & -> & Hd & Hm).
  split_and!; [apply Hg|by rewrite (Ho 0%nat (diskEntries st))|done|done|].
  intros k e. rewrite Hm, (Hl k e). intuition.
Qed.

(** ** Properties *)

(** C10. The index stays within its budgets and never loses track.  From any directory the
    cache starts on, after any interleaving of reads, writes, sweeps and promotions, with
    any failures of the file system: every entry is under its own key and path; the
    unpinned entries sum to at most the disk budget, the pinned ones to at most the pinned
    budget, or to what was restored when that was more; and the recorded sizes are never
    less than the sums, so that no size is ever cut off at zero. *)
Theorem disk_cache_bounded sha256 sources cfg listing fs s :
  (forall x, length (sha256 x) = 32%nat) -> sane cfg -> listed listing ->
  reachable sha256 sources cfg (restore cfg listing fs) s ->
  let m := diskEntries (cache s) in
  let m0 := diskEntries (restore cfg listing fs) in
  (forall k e, m !! k = Some e -> d_key e = k /\ d_path e = path_of cfg k /\ 0 <= sizeB e /\ length k = 64%nat) /\
  total unpinned m <= Z.max (Z.max 0 (DiskCacheSizeMB cfg * 2 ^ 20)) (total unpinned m0) /\
  total pinned m <= Z.max (Z.max 0 (PinnedBudgetMB cfg * 2 ^ 20)) (total pinned m0) /\
  0 <= pinnedSizeB (cache s) - total pinned m <= diskSizeB (cache s) - total any m.
Proof.
  intros Hsha Hsane Hl Hr m m0. destruct (restore_good cfg listing fs Hl) as (Hs & _).
  destruct (reachable_ok sha256 Hsha sources cfg Hsane _ s Hs Hr) as [[Hsound Hu Hp _] _].
  split_and!; [apply Hsound|exact Hu|exact Hp|apply Hsound..].
Qed.


(** What leaves, and what does not.  An LRU eviction takes unpinned entries only, with
    their sizes, until the recorded size is at 95% of the budget or none is left, and takes
    none below that; the eviction of the pinned tier does the same for pinned entries; and
    while there are at most sixteen candidates no entry leaves before an older one.  A
    sweep takes exactly the unpinned entries whose mode's time is over, and their sizes. *)
Theorem eviction_order cfg o now st : ordered o -> sound cfg st ->
  (let st' := evictLRU cfg o st in
    evicted cfg unpinned st st' /\
    (diskSizeB st' <= lowWater (budget_bytes (DiskCacheSizeMB cfg)) \/ forall k e, diskEntries st' !! k = Some e -> pinned e = true) /\
    (diskSizeB st <= lowWater (budget_bytes (DiskCacheSizeMB cfg)) -> st' = st) /\
    (count_by (fun ke => unpinned ke.2) (map_to_list (diskEntries st)) <= 16 -> forall k e k' e', diskEntries st !! k = Some e ->
      diskEntries st' !! k = None -> diskEntries st' !! k' = Some e' -> pinned e' = false -> lastUsed e <= lastUsed e')) /\
  (let st' := pinnedEvictLocked cfg o st in
    evicted cfg pinned st st' /\
    (0 < budget_bytes (PinnedBudgetMB cfg) ->
      pinnedSizeB st' <= lowWater (budget_bytes (PinnedBudgetMB cfg)) \/ forall k e, diskEntries st' !! k = Some e -> pinned e = false) /\
    (pinnedSizeB st <= lowWater (budget_bytes (PinnedBudgetMB cfg)) \/ budget_bytes (PinnedBudgetMB cfg) <= 0 -> st' = st) /\
    (count_by (fun ke => pinned ke.2) (map_to_list (diskEntries st)) <= 16 -> forall k e k' e', diskEntries st !! k = Some e ->
      diskEntries st' !! k = None -> diskEntries st' !! k' = Some e' -> pinned e' = true -> lastUsed e <= lastUsed e')) /\
  (let (st', gone) := sweep cfg o now st in
    sound cfg st' /\
    gone ≡ₚ filter (fun e => expired cfg now e = true) (map_to_list (diskEntries st)).*2 /\
    diskSizeB st' = diskSizeB st - foldr (fun e n => sizeB e + n) 0 gone /\ pinnedSizeB st' = pinnedSizeB st /\
    forall k e, diskEntries st' !! k = Some e <-> diskEntries st !! k = Some e /\ expired cfg now e = false).
Proof.
  intros Ho Hs. split_and!.
  - cbn zeta. split_and!; [by apply evictLRU_evicted| | |].
    + destruct (evictLRU_ends cfg o st Ho) as [H|H]; [by left|right]. intros k e Hk. specialize (H k e Hk). unfold unpinned in H. by destruct (pinned e).
    + intros Hle. unfold evictLRU. cbn [evict_while]. by destruct (Z.ltb_spec (lowWater (budget_bytes (DiskCacheSizeMB cfg))) (diskSizeB st)); [lia|].
    + intros Hc k e k' e' Hk Hg Hk' Hp. eapply (evict_while_oldest unpinned _ (drop_lru o)); try done; [intros; apply drop_lru_entries|].
      unfold unpinned. by rewrite Hp.
  - cbn zeta. split_and!; [by apply pinnedEvict_evicted|by apply pinnedEvict_ends| |]; unfold pinnedEvictLocked;
      destruct (Z.leb_spec (budget_bytes (PinnedBudgetMB cfg)) 0); try done.
    + intros [Hle|?]; [|lia]. cbn [evict_while]. by destruct (Z.ltb_spec (lowWater (budget_bytes (PinnedBudgetMB cfg))) (pinnedSizeB st)); [lia|].
    + intros _ k e k' e' Hk Hg. congruence.
    + intros Hc k e k' e' Hk Hg Hk' Hp. by eapply (evict_while_oldest pinned _ (drop_pinned o)); [| |exact Hc| | | |]; try done; intros; apply drop_pinned_entries.
  - destruct (sweep cfg o now st) as [st' gone] eqn:E. pose proof (eviction_order_sweep cfg o now st Ho Hs) as H. by rewrite E in H.
Qed.

(** ** Promotions *)

(** A round in which nobody else adds an entry, on a volume of at most 64 pebibytes. *)
Definition volume (stat : Statfs_t) : Prop :=
  0 <= Bavail stat <= Blocks stat /\ 0 < Bsize stat <= 2 ^ 56 /\ Blocks stat * Bsize stat <= 2 ^ 56.

Definition calm (y : yield_round) : Prop :=
  ordered (y_oracle y) /\ (forall st, (size (diskEntries (y_others y st)) <= size (diskEntries st))%nat) /\
  match y_statfs y with Ok stat => volume stat | Err _ => True end.

Lemma space_exact stat percent : volume stat -> 1 <= percent <= 99 ->
  space stat percent = (Bavail stat * Bsize stat, Z.quot (Blocks stat * Bsize stat * percent) 100).
Proof.
  intros (Ha & Hb & Hv) Hp. unfold space. change (2 ^ 56) with 72057594037927936 in *.
  assert (Blocks stat <= 72057594037927936) by nia. assert (0 <= Bavail stat * Bsize stat <= 72057594037927936) by nia.
  assert (0 <= Blocks stat * Bsize stat) by nia.
  assert (Hsmall : forall x, 0 <= x <= 72057594037927936 * 99 -> i64 x = x).
  { intros x Hx. apply i64_small. unfold is_i64, minInt64, maxInt64. lia. }
  rewrite (Hsmall (Bavail stat)), (Hsmall (Blocks stat)), (Hsmall (Bsize stat)) by lia.
  rewrite (Hsmall (Bavail stat * Bsize stat)), (Hsmall (Blocks stat * Bsize stat)), Hsmall by nia. done.
Qed.

Lemma yield_evict_size o st st' : ordered o -> yield_evict o st = Ok st' ->
  (size (diskEntries st') < size (diskEntries st))%nat.
Proof.
  intros Ho E. unfold yield_evict in E. destruct (oldest_of _ _) as [[k e]|] eqn:Eo; [|done].
  apply oldest_of_in in Eo as [?|Hin]; [done|]. apply (order_nodup o 0 (diskEntries st) Ho) in Hin.
  case_match; [done|]. injection E as <-. cbn [set_index diskEntries].
  assert (Hi : diskEntries (if pinned e then os_Remove o (pinnedMarkerPath (d_path e)) (os_Remove o (d_path e) st) else os_Remove o (d_path e) st) = diskEntries st).
  { destruct (pinned e); [rewrite (proj1 (remove_index o _ _))|]; apply remove_index. }
  rewrite Hi, map_size_delete_Some by (by eexists).
  assert (size (diskEntries st) <> 0)%nat; [|lia]. intros E. apply map_size_empty_iff in E. rewrite E in Hin. by rewrite lookup_empty in Hin.
Qed.

Lemma oldest_of_some b l : b <> None \/ l <> [] -> oldest_of b l <> None.
Proof.
  revert b. induction l as [|[k e] l IH]; intros b H; cbn; [by destruct H|]. apply IH. left.
  destruct b as [[]|]; [by destruct (_ <? _)|done].
Qed.

(** Why a promotion is refused. *)
Definition refused (rounds : list yield_round) (st' : state) (err : goerror) : Prop :=
  (exists y, y ∈ rounds /\ (y_ctx y = Some err \/ y_statfs y = Err err)) \/
  err = yield_error "rangecache: promotion cache eviction failed" \/
  (err = yield_error "rangecache: promotion would cross free-space floor" /\ diskEntries st' = ∅).

(** Why it is granted: the last look at the volume found the space. *)
Definition granted (pending percent : Z) (rounds : list yield_round) (n : Z) : Prop :=
  exists y stat, y ∈ rounds /\ y_ctx y = None /\ y_statfs y = Ok stat /\ 0 <= n /\
    n = Bavail stat * Bsize stat - pending - Z.quot (Blocks stat * Bsize stat * percent) 100.

Lemma yield_refused o rounds st err : ordered o -> yield_evict o st = Err err -> refused rounds st err.
Proof.
  intros Ho E. unfold yield_evict in E. destruct (oldest_of _ _) as [[k e]|] eqn:Eo; right.
  - case_match; [|done]. injection E as <-. by left.
  - injection E as <-. right. split; [done|]. destruct (decide (diskEntries st = ∅)) as [?|Hne]; [done|exfalso].
    eapply oldest_of_some; [|exact Eo]. right. intros En. apply Hne, map_to_list_empty_iff, Permutation_nil.
    symmetry. rewrite <-(Ho 0%nat (diskEntries st)). by rewrite En.
Qed.

Lemma yield_rounds_end pending percent rounds st : 0 < pending -> 1 <= percent <= 99 -> Forall calm rounds ->
  (size (diskEntries st) < length rounds)%nat ->
  exists st' res, yield_rounds pending percent rounds st = (st', Some res) /\
    match res with Ok n => granted pending percent rounds n | Err err => refused rounds st' err end.
Proof.
  intros Hp Hc. revert st. induction rounds as [|y rounds IH]; intros st Hr Hl; [cbn in Hl; lia|].
  apply list.Forall_cons in Hr as [(Ho & Hothers & Hvol) Hr]. cbn [yield_rounds].
  assert (Hin : y ∈ y :: rounds) by left. destruct (y_ctx y) as [err|] eqn:Ec.
  { eexists _, _. split; [done|]. left. eauto. }
  destruct (y_statfs y) as [stat|err] eqn:Es; [|eexists _, _; split; [done|]; left; eauto].
  rewrite (space_exact stat percent Hvol Hc). destruct Hvol as (Ha & Hb & Hv).
  set (free := Bavail stat * Bsize stat). set (floor := Z.quot _ 100). change (2 ^ 56) with 72057594037927936 in *.
  assert (Hfree : 0 <= free <= 72057594037927936) by (unfold free; nia).
  assert (Hused : 0 <= Blocks stat * Bsize stat) by nia.
  assert (Hfloor : 0 <= floor <= 72057594037927936 * 99).
  { unfold floor. split; [apply Z.quot_pos; nia|]. apply Z.quot_le_upper_bound; nia. }
  destruct (Z.leb_spec pending free) as [Hpf|]; cbn [andb].
  1: rewrite (i64_small (free - pending)) by (unfold is_i64, minInt64, maxInt64; lia).
  1: destruct (Z.leb_spec floor (free - pending)) as [Hff|].
  1: { eexists _, _. split; [done|]. exists y, stat. split_and!; try done; rewrite i64_small by (unfold is_i64, minInt64, maxInt64; lia); fold free floor; lia. }
  all: destruct (yield_evict (y_oracle y) st) as [st1|err] eqn:Ev;
    [destruct (IH (y_others y st1) Hr) as (st' & res & E & Hres);
      [pose proof (yield_evict_size _ _ _ Ho Ev); specialize (Hothers st1); cbn in Hl; lia|];
      exists st', res; split; [done|]; destruct res;
      [destruct Hres as (y' & stat' & ? & ?); exists y', stat'; split; [by right|done]
      |destruct Hres as [(y' & ? & ?)|?]; [left; exists y'; split; [by right|done]|by right]]
    |eexists _, _; split; [done|]; by eapply yield_refused].
Qed.

(** C21. A promotion gets its space or a reason.  When nobody adds entries in between, a
    request ends after at most as many evictions as there are entries.  It is granted only
    when the volume, looked at last, keeps the floor after the pending write, and the
    answer is what is left above it; it is refused for an invalid request, an error of the
    context, the volume or a removal, or because nothing is left to evict. *)
Theorem promotion_space target pending percent rounds st : Forall calm rounds -> (size (diskEntries st) < length rounds)%nat ->
  exists st' res, YieldForPromotion target pending percent rounds st = (st', Some res) /\
    match res with
    | Ok n => target <> [] /\ 0 < pending /\ granted pending percent rounds n
    | Err err => refused rounds st' err \/
        (st' = st /\ err = yield_error "rangecache: invalid promotion space request" /\ (target = [] \/ pending <= 0 \/ ~ 1 <= percent <= 99))
    end.
Proof.
  intros Hc Hl. unfold YieldForPromotion.
  case_bool_decide as Ht; cbn [orb]; [eexists _, _; split; [done|]; right; auto|].
  destruct (Z.leb_spec pending 0); cbn [orb]; [eexists _, _; split; [done|]; right; auto|].
  destruct (Z.ltb_spec percent 1); cbn [orb]; [eexists _, _; split; [done|]; right; split_and!; try done; right; right; lia|].
  destruct (Z.ltb_spec 99 percent); [eexists _, _; split; [done|]; right; split_and!; try done; right; right; lia|].
  destruct (yield_rounds_end pending percent rounds st) as (st' & res & E & H'); [done|lia|done..|].
  exists st', res. split; [done|]. destruct res; auto.
Qed.

(** ** What the index does not promise *)

Section Limits.
Context (sha256 : bytes -> bytes).

(** A file system that never fails, and sources whose payloads are the byte 7. *)
Definition seven_answer : answer := (Some [7], None).
Definition seven : ChunkSource := MkSource (str "s") None None None (fun _ _ r => r = seven_answer).
Definition only_seven (src : ChunkSource) : Prop := src = seven.
Definition seven_job : job := GetChunk seven ModeDisk (MkRef 0 (str "0") 1).
Definition plain_oracle : oracle :=
  MkOracle 0 (fun _ m => map_to_list m) (fun _ => true) true true (seven_answer, true) (MkWrite true (Some []) None true true true true).
Definition default_config : Config := with_defaults (MkConfig false 0 0 0 false 0 0 0 [] [] 0 0 0).

(** The calls at the given positions take turns; the one that moved becomes the first. *)
Fixpoint run (turns : list nat) (st : state) (js : list (job * phase)) : state * list (job * phase) :=
  match turns with
  | [] => (st, js)
  | n :: turns =>
      match js !! n with
      | Some (j, ph) => let (st, ph) := turn sha256 default_config plain_oracle j ph st in run turns st ((j, ph) :: delete n js)
      | None => (st, js)
      end
  end.

Lemma run_reachable turns st0 st js : Forall (fun jp => jp.1 = seven_job) js ->
  reachable sha256 only_seven default_config st0 (Sys st js []) ->
  reachable sha256 only_seven default_config st0 (Sys (run turns st js).1 (run turns st js).2 []).
Proof.
  revert st js. induction turns as [|n turns IH]; intros st js Hj H; cbn [run]; [done|].
  destruct (js !! n) as [[j ph]|] eqn:En; [|done]. destruct (turn _ _ _ j ph st) as [st' ph'] eqn:Et.
  assert (Hp := delete_Permutation _ _ _ En). rewrite Hp in Hj. apply list.Forall_cons in Hj as [Hj Hrest]. cbn [fst] in Hj.
  apply IH; [by apply list.Forall_cons_2|]. eapply reach_step; [exact H|]. apply (step_turn _ _ _ _ _ _ _ _ _ ph _ plain_oracle); [exact Hp|intros k m; reflexivity| |exact Et].
  subst j. assert (upstream sha256 only_seven (payloadKey sha256 seven (MkRef 0 (str "0") 1)) [7]).
  { by exists seven, (MkRef 0 (str "0") 1), FetchDemand, seven_answer. }
  destruct ph; try exact I; unfold answers; cbn [o_fetch plain_oracle]; intros _; [reflexivity|assumption].
Qed.

Lemma seven_arrivals st0 n : reachable sha256 only_seven default_config st0 (Sys st0 (replicate n (seven_job, PLookup)) []).
Proof.
  induction n as [|n IH]; [apply reach_init|]. eapply reach_step; [exact IH|]. apply (step_arrive sha256 only_seven _ _ _ _ seven_job).
  exists seven, (MkRef 0 (str "0") 1). split; [done|]. left. by exists ModeDisk.
Qed.

Lemma seven_run turns n st0 :
  let s := run turns st0 (replicate n (seven_job, PLookup)) in reachable sha256 only_seven default_config st0 (Sys s.1 s.2 []).
Proof. apply run_reachable; [|apply seven_arrivals]. by apply Forall_replicate. Qed.
End Limits.

(** A digest of the right length, and the file of the payload with another byte in it. *)
Definition zero_sha (_ : bytes) : bytes := replicate 32 0.
Definition zero_key : bytes := hex_encode (replicate 32 0).
Definition spoiled : gmap bytes bytes := {[path_of default_config zero_key := [0]]}.
Definition spoiled_listing : list DirEntry := [MkDirEntry zero_key false (Some (1, 0))].

(** What the index does not promise.  The recorded size can drift: two calls that each
    lead a fetch of one payload both add its size, and one entry of one byte is then
    accounted as two.  A file is not checked when it is read: bytes that no source ever
    answered are served, and their digest becomes the entry's.  And with the pinned tier
    disabled, a pinned entry restored from before is taken by no eviction and no sweep. *)
Theorem cache_limits :
  (exists s, reachable zero_sha only_seven default_config (restore default_config [] ∅) s /\
    jobs s = [(seven_job, PReturned (Ok [7])); (seven_job, PReturned (Ok [7]))] /\
    total any (diskEntries (cache s)) = 1 /\ size (diskEntries (cache s)) = 1%nat /\ diskSizeB (cache s) = 2) /\
  (exists s, listed spoiled_listing /\ reachable zero_sha only_seven default_config (restore default_config spoiled_listing spoiled) s /\
    (seven_job, PReturned (Ok [0])) ∈ jobs s /\ ~ upstream zero_sha only_seven zero_key [0] /\
    exists e, diskEntries (cache s) !! zero_key = Some e /\ contentSHA e = sha256hex zero_sha [0]) /\
  (forall cfg o now st k e, sane cfg -> ordered o -> sound cfg st -> PinnedBudgetMB cfg <= 0 ->
    diskEntries st !! k = Some e -> pinned e = true ->
    diskEntries (evictLRU cfg o st) !! k = Some e /\ diskEntries (pinnedEvictLocked cfg o st) !! k = Some e /\
    diskEntries (sweep cfg o now st).1 !! k = Some e).
Proof.
  split_and!.
  - eexists. split; [apply (seven_run zero_sha [1;1;1;1;1;1;1;1]%nat 2)|]. by vm_compute.
  - eexists. split; [split; [repeat constructor; apply not_elem_of_nil|by repeat constructor]|].
    split; [apply (seven_run zero_sha [0;0;0]%nat 1)|]. split; [vm_compute; left|]. split.
    + intros (src & ref & class & r & -> & _ & Hr & _ & E). by cbn in Hr; subst r.
    + eexists. split; [by vm_compute|done].
  - intros cfg o now st k e [_ HsP] Ho Hs Hb Hk Hp. destruct (eviction_order_sweep cfg o now st Ho Hs) as (_ & _ & _ & _ & Hm). split_and!.
    + apply (ev_only _ _ _ _ (proj1 (evictLRU_evicted cfg o st Ho Hs))); [done|]. unfold unpinned. by rewrite Hp.
    + unfold pinnedEvictLocked. rewrite budget_bytes_exact by done. destruct (Z.leb_spec (PinnedBudgetMB cfg * 2 ^ 20) 0); [done|lia].
    + apply Hm. split; [done|]. unfold expired. by rewrite Hp.
Qed.

(** ** Witnesses *)

Lemma zero_sha_length x : length (zero_sha x) = 32%nat.
Proof. done. Qed.

Lemma spoiled_listed : listed spoiled_listing.
Proof. split; [repeat constructor; apply not_elem_of_nil|by repeat constructor]. Qed.

Definition two_calls : sys :=
  let s := run zero_sha [1;1;1;1;1;1]%nat (restore default_config spoiled_listing spoiled) (replicate 2 (seven_job, PLookup)) in
  Sys s.1 s.2 [].

Lemma disk_cache_bounded_witness :
  total any (diskEntries (cache two_calls)) = 1 /\
  0 <= pinnedSizeB (cache two_calls) - total pinned (diskEntries (cache two_calls)) <=
    diskSizeB (cache two_calls) - total any (diskEntries (cache two_calls)).
Proof.
  split; [vm_compute; reflexivity|].
  apply (disk_cache_bounded zero_sha only_seven default_config spoiled_listing spoiled two_calls);
    [exact zero_sha_length|split; vm_compute; discriminate|exact spoiled_listed|apply (seven_run zero_sha [1;1;1;1;1;1]%nat 2)].
Defined.


Lemma eviction_order_witness :
  diskEntries (evictLRU (MkConfig false 0 0 0 false 0 (-1) 0 [] [] 0 0 0) plain_oracle (restore default_config spoiled_listing spoiled)) = ∅ /\
  evicted default_config unpinned (restore default_config spoiled_listing spoiled)
    (evictLRU default_config plain_oracle (restore default_config spoiled_listing spoiled)).
Proof.
  split; [vm_compute; reflexivity|].
  assert (Ho : ordered plain_oracle) by (intros k m; reflexivity).
  destruct (eviction_order default_config plain_oracle 0 (restore default_config spoiled_listing spoiled) Ho
    (proj1 (restore_good default_config spoiled_listing spoiled spoiled_listed))) as [[H _] _].
  exact H.
Defined.

Definition roomy : yield_round := MkRound None (Ok (MkStatfs 900 4096 1000)) plain_oracle (fun st => st).

Lemma promotion_space_witness :
  (YieldForPromotion (str "f") 4096 10 [roomy] (MkState ∅ 0 0 ∅ 0 0 0)).2 = Some (Ok (899 * 4096 - 409600)) /\
  exists st' res, YieldForPromotion (str "f") 4096 10 [roomy] (MkState ∅ 0 0 ∅ 0 0 0) = (st', Some res) /\
    match res with
    | Ok n => str "f" <> [] /\ 0 < 4096 /\ granted 4096 10 [roomy] n
    | Err err => refused [roomy] st' err \/
        (st' = MkState ∅ 0 0 ∅ 0 0 0 /\ err = yield_error "rangecache: invalid promotion space request" /\ (str "f" = [] \/ 4096 <= 0 \/ ~ 1 <= 10 <= 99))
    end.
Proof.
  split; [vm_compute; reflexivity|]. apply promotion_space; [|vm_compute; lia].
  apply list.Forall_cons_2; [|apply list.Forall_nil_2].
  split; [intros k m; reflexivity|split; [reflexivity|split; [split; discriminate|split; [split; [reflexivity|discriminate]|discriminate]]]].
Defined.
