(* ===== verification/Readahead.v ===== *)
(** Readahead sessions: the prefetchers of internal/rangecache/rangecache.go.

    A session outlives the requests that share it: a buffer of prefetched chunks, the
    claims of its workers, the position of the reader, and the number of workers that may
    work.  Each section under [sess.mu] is one function on the session; loads of the
    atomic fields are turns of their own, so that a worker may act on what it read earlier.
    The step relation interleaves the workers with the requests of any number of streams.
    Broadcasts wake the workers that wait at that moment and no others. *)

From Stdlib Require Import ZArith Lia.
From stdpp Require Import base list numbers strings gmap sets.
From S2P Require Import Prelude Outcome Inflight RangeCache.

Local Open Scope Z_scope.

Definition i32 (x : Z) : Z := (x + 2 ^ 31) mod 2 ^ 32 - 2 ^ 31.

Record session := MkSession {
  buf : gmap Z bytes;
  claimed : gset Z;
  writePos : Z;
  s_lastUsed : Z;
  ceiling : Z;
  steady : Z;
  activeLimit : Z;
  widenUntil : Z
}.

(** [raActiveFor]. *)
Definition raActiveFor (cfg : Config) (m : Mode) : bool :=
  if bool_decide (m = ModeFull) then true
  else ReadaheadEnabled cfg && (bool_decide (m = ModeReadahead) || bool_decide (m = ModeDisk)).

(** ** Opening a session

    [maxWorkers] and [steadyWorkers] are what the optional interfaces of the source answer. *)
Definition worker_ceiling (cfg : Config) (maxWorkers : option Z) : Z :=
  let ceiling := if ReadaheadWorkers cfg <? 1 then 1 else ReadaheadWorkers cfg in
  match maxWorkers with
  | Some max => if (0 <? max) && (max <? ceiling) then max else ceiling
  | None => ceiling
  end.

Definition worker_steady (cfg : Config) (steadyWorkers : option Z) (ceiling : Z) : Z :=
  if 0 <? SeekWidenDuration cfg then
    match steadyWorkers with
    | Some want => if (0 <? want) && (want <? ceiling) then want else ceiling
    | None => ceiling
    end
  else ceiling.

Definition new_session (cfg : Config) (maxWorkers steadyWorkers : option Z) (head now : Z) : session :=
  let ceiling := worker_ceiling cfg maxWorkers in
  let steady := worker_steady cfg steadyWorkers ceiling in
  MkSession ∅ ∅ head now (i32 ceiling) (i32 steady) (i32 steady) 0.

(** The window that a flush keeps, and the header chunk. *)
Definition keeps_chunk (newHead newWindowEnd k : Z) : bool :=
  if k =? 0 then true else negb ((k <? newHead) || (newWindowEnd <? k)).

(** A request joins the session: its position, the decay of an old widening, and the flush
    after a jump. *)
Definition reaim (cfg : Config) (newHead now : Z) (s : session) : session :=
  let seekDelta := newHead - writePos s in
  let seekDelta := if seekDelta <? 0 then - seekDelta else seekDelta in
  let decays := negb (widenUntil s =? 0) && (widenUntil s <=? now) in
  let limit := if decays then steady s else activeLimit s in
  let until := if decays then 0 else widenUntil s in
  if ReadaheadMaxSegments cfg <? seekDelta then
    let newWindowEnd := newHead + ReadaheadMaxSegments cfg in
    let buf := filter (fun kd => keeps_chunk newHead newWindowEnd kd.1 = true) (buf s) in
    if (0 <? SeekWidenDuration cfg) && (steady s <? ceiling s)
    then MkSession buf ∅ newHead now (ceiling s) (steady s) (ceiling s) (i64 (now + SeekWidenDuration cfg))
    else MkSession buf ∅ newHead now (ceiling s) (steady s) limit until
  else MkSession (buf s) (claimed s) newHead now (ceiling s) (steady s) limit until.

(** ** The reader's sections *)

Definition set_buf (s : session) (m : gmap Z bytes) : session :=
  MkSession m (claimed s) (writePos s) (s_lastUsed s) (ceiling s) (steady s) (activeLimit s) (widenUntil s).

(** The position moves to a chunk, and the chunk is taken out of the buffer. *)
Definition advance (wi : Z) (s : session) : session :=
  MkSession (buf s) (claimed s) wi (s_lastUsed s) (ceiling s) (steady s) (activeLimit s) (widenUntil s).

Definition take_chunk (wi : Z) (s : session) : session * option bytes :=
  match buf s !! wi with
  | Some data => (set_buf s (delete wi (buf s)), Some data)
  | None => (s, None)
  end.

Definition keep_alive (now : Z) (s : session) : session :=
  MkSession (buf s) (claimed s) (writePos s) now (ceiling s) (steady s) (activeLimit s) (widenUntil s).

(** The tail eviction behind the lookback window. *)
Definition drop_behind (cfg : Config) (wi : Z) (s : session) : session :=
  let cutoff := wi - TailLookback cfg in
  if TailEvict cfg && (0 <? cutoff)
  then set_buf s (filter (fun kd => negb (kd.1 <? cutoff) = true) (buf s))
  else s.

(** A turn of [sessionReaper]. *)
Definition reaps (now : Z) (s : session) : bool := 2 * minute <? time_sub now (s_lastUsed s).

(** ** The workers *)

Definition millisecond : Z := 1000000.

Definition readaheadPrefetchBackoff (consecutiveFails : Z) : Z :=
  let base := 50 * millisecond in
  let cap := 10 * second in
  let consecutiveFails := if consecutiveFails <? 1 then 1 else consecutiveFails in
  if 20 <? consecutiveFails then cap
  else
    let d := i64 (Z.shiftl base (consecutiveFails - 1)) in
    if (cap <? d) || (d <=? 0) then cap else d.

(** The lowest chunk of the window that is neither buffered nor claimed. *)
Fixpoint window_target (s : session) (n : Z) (idx : Z) (more : nat) : option Z :=
  match more with
  | O => None
  | S more =>
      if n <=? idx then None
      else if bool_decide (buf s !! idx = None) && bool_decide (idx ∉ claimed s) then Some idx
      else window_target s n (idx + 1) more
  end.

Definition claim (cfg : Config) (n head : Z) (s : session) : session * option Z :=
  let ahead := if ReadaheadMaxSegments cfg <? 1 then 1 else ReadaheadMaxSegments cfg in
  match window_target s n (head + 1) (Z.to_nat ahead) with
  | Some idx => (MkSession (buf s) ({[idx]} ∪ claimed s) (writePos s) (s_lastUsed s) (ceiling s) (steady s) (activeLimit s) (widenUntil s), Some idx)
  | None => (s, None)
  end.

(** The section after a fetch: the claim is released, and data is buffered. *)
Definition release (target : Z) (data : option bytes) (s : session) : session :=
  MkSession (match data with Some d => <[target := d]> (buf s) | None => buf s end) (claimed s ∖ {[target]})
    (writePos s) (s_lastUsed s) (ceiling s) (steady s) (activeLimit s) (widenUntil s).

Inductive worker_state : Type :=
| WTop                                  (* at the top of the loop *)
| WHead (head : Z)                      (* read the position *)
| WActive (head : Z)                    (* not benched; about to look for a target *)
| WFetching (target : Z)
| WBackoff (delay : Z)
| WIdle                                 (* found nothing to do *)
| WCommitted                            (* saw that the session lives; about to wait *)
| WWaiting                              (* in [headCond.Wait] *)
| WGone.

Record worker := MkWorker { w_index : Z; w_state : worker_state; consecFails : gmap Z Z }.

(** A session and its workers; once it is cancelled, how many of the goroutines that
    broadcast the cancellation, one per worker, have still to do so. *)
Record crew := MkCrew { cr_session : session; cr_workers : list worker; cancelled : option nat }.

(** [headCond.Broadcast]. *)
Definition wake (w : worker) : worker :=
  match w_state w with WWaiting => MkWorker (w_index w) WTop (consecFails w) | _ => w end.

Definition broadcast (ws : list worker) : list worker := map wake ws.

Section Steps.
Context (cfg : Config) (n : Z).
(** What [PrefetchChunk] may answer for a chunk. *)
Context (prefetch : Z -> answer -> Prop).

Definition fails_of (w : worker) (target : Z) : Z := default 0 (consecFails w !! target).

(** A turn of [readaheadGoroutine]: what it does to the session and where it is then. *)
Inductive worker_turn (s : session) (stopped : bool) (w : worker) : session -> worker -> Prop :=
| turn_stop : w_state w = WTop -> stopped = true -> worker_turn s stopped w s (MkWorker (w_index w) WGone (consecFails w))
| turn_head : w_state w = WTop -> stopped = false ->
    worker_turn s stopped w s (MkWorker (w_index w) (WHead (if writePos s <? 0 then 0 else writePos s)) (consecFails w))
| turn_active head : w_state w = WHead head -> w_index w < activeLimit s ->
    worker_turn s stopped w s (MkWorker (w_index w) (WActive head) (consecFails w))
| turn_benched head : w_state w = WHead head -> activeLimit s <= w_index w ->
    worker_turn s stopped w s (MkWorker (w_index w) WIdle (consecFails w))
| turn_claim head s' : w_state w = WActive head -> claim cfg n head s = (s', None) ->
    worker_turn s stopped w s' (MkWorker (w_index w) WIdle (consecFails w))
| turn_target head s' target : w_state w = WActive head -> claim cfg n head s = (s', Some target) ->
    worker_turn s stopped w s' (MkWorker (w_index w) (WFetching target) (consecFails w))
| turn_fetched target data : w_state w = WFetching target -> prefetch target (data, None) ->
    worker_turn s stopped w (release target data s) (MkWorker (w_index w) WTop (delete target (consecFails w)))
| turn_failed target data err : w_state w = WFetching target -> prefetch target (data, Some err) ->
    let fails := fails_of w target + 1 in
    worker_turn s stopped w (release target None s)
      (MkWorker (w_index w) (WBackoff (readaheadPrefetchBackoff fails)) (<[target := fails]> (consecFails w)))
| turn_waited delay : w_state w = WBackoff delay -> stopped = false ->
    worker_turn s stopped w s (MkWorker (w_index w) WTop (consecFails w))
| turn_backoff_stop delay : w_state w = WBackoff delay -> stopped = true ->
    worker_turn s stopped w s (MkWorker (w_index w) WGone (consecFails w))
| turn_idle_stop : w_state w = WIdle -> stopped = true ->
    worker_turn s stopped w s (MkWorker (w_index w) WGone (consecFails w))
| turn_commit : w_state w = WIdle -> stopped = false ->
    worker_turn s stopped w s (MkWorker (w_index w) WCommitted (consecFails w))
| turn_wait : w_state w = WCommitted ->
    worker_turn s stopped w s (MkWorker (w_index w) WWaiting (consecFails w)).

(** What requests do to the session; those that broadcast are marked. *)
Inductive request (s : session) : session -> bool -> Prop :=
| req_reaim head now : 0 <= head -> request s (reaim cfg head now s) true
| req_advance wi : 0 <= wi -> request s (advance wi s) false
| req_take wi : request s (take_chunk wi s).1 true
| req_keep now : request s (keep_alive now s) false
| req_drop wi : request s (drop_behind cfg wi s) false.

Inductive crew_step : crew -> crew -> Prop :=
| crew_worker s s' pre w w' post c : worker_turn s (bool_decide (c <> None)) w s' w' ->
    crew_step (MkCrew s (pre ++ w :: post) c) (MkCrew s' (pre ++ w' :: post) c)
| crew_request s s' ws c b : request s s' b ->
    crew_step (MkCrew s ws c) (MkCrew s' (if b then broadcast ws else ws) c)
| crew_cancel s ws : crew_step (MkCrew s ws None) (MkCrew s ws (Some (length ws)))
| crew_cancel_wake s ws left_ : crew_step (MkCrew s ws (Some (S left_))) (MkCrew s (broadcast ws) (Some left_)).

(** The workers a new session spawns. *)
Definition hired (s : session) : crew :=
  MkCrew s (map (fun i => MkWorker (Z.of_nat i) WTop ∅) (seq 0 (Z.to_nat (ceiling s)))) None.

Inductive crew_reachable : crew -> Prop :=
| crew_init maxWorkers steadyWorkers head now : 0 <= head ->
    crew_reachable (hired (new_session cfg maxWorkers steadyWorkers head now))
| crew_next c c' : crew_reachable c -> crew_step c c' -> crew_reachable c'.
End Steps.

(** ** Lemmas *)

Lemma window_target_spec s n idx more t : window_target s n idx more = Some t ->
  idx <= t < n /\ t < idx + Z.of_nat more /\ buf s !! t = None /\ t ∉ claimed s /\
  forall i, idx <= i < t -> is_Some (buf s !! i) \/ i ∈ claimed s.
Proof.
  revert idx. induction more as [|more IH]; intros idx H; cbn [window_target] in H; [done|].
  destruct (Z.leb_spec n idx); [done|]. destruct (bool_decide (buf s !! idx = None)) eqn:Eb; cbn [andb] in H.
  - destruct (bool_decide (idx ∉ claimed s)) eqn:Ec.
    + injection H as <-. bool_hyps. split_and!; try done; try lia.
    + apply IH in H as (? & ? & ? & ? & Hall). split_and!; try done; try lia. intros i Hi.
      destruct (Z.eq_dec i idx) as [->|]; [right|apply Hall; lia]. bool_hyps. by apply dec_stable.
  - apply IH in H as (? & ? & ? & ? & Hall). split_and!; try done; try lia. intros i Hi.
    destruct (Z.eq_dec i idx) as [->|]; [left|apply Hall; lia]. bool_hyps. by destruct (buf s !! idx).
Qed.

Lemma window_target_none s n idx more : window_target s n idx more = None ->
  forall i, idx <= i < idx + Z.of_nat more -> i < n -> is_Some (buf s !! i) \/ i ∈ claimed s.
Proof.
  revert idx. induction more as [|more IH]; intros idx H i Hi Hn; cbn [window_target] in H; [lia|].
  destruct (Z.leb_spec n idx); [lia|]. destruct (bool_decide (buf s !! idx = None)) eqn:Eb; cbn [andb] in H.
  - destruct (bool_decide (idx ∉ claimed s)) eqn:Ec; [done|].
    destruct (Z.eq_dec i idx) as [->|]; [right; bool_hyps; by apply dec_stable|apply (IH _ H); lia].
  - destruct (Z.eq_dec i idx) as [->|]; [left; bool_hyps; by destruct (buf s !! idx)|apply (IH _ H); lia].
Qed.

(** The backoff doubles from 50 milliseconds and stops at ten seconds. *)
Lemma backoff_exact k : readaheadPrefetchBackoff k = Z.min (50000000 * 2 ^ (Z.max 1 k - 1)) 10000000000.
Proof.
  unfold readaheadPrefetchBackoff, millisecond, second. change (50 * 1000000) with 50000000. change (10 * 1000000000) with 10000000000.
  destruct (Z.ltb_spec k 1); [rewrite Z.max_l by lia; reflexivity|]. rewrite Z.max_r by lia. destruct (Z.ltb_spec 20 k).
  - rewrite Z.min_r; [done|]. assert (2 ^ 20 <= 2 ^ (k - 1)) by (apply Z.pow_le_mono_r; lia). change (2 ^ 20) with 1048576 in *. lia.
  - rewrite Z.shiftl_mul_pow2 by lia. assert (1 <= 2 ^ (k - 1) <= 2 ^ 19).
    { split; [change 1 with (2 ^ 0) at 1|]; apply Z.pow_le_mono_r; lia. }
    change (2 ^ 19) with 524288 in *. rewrite i64_small by (unfold is_i64, minInt64, maxInt64; lia).
    destruct (Z.ltb_spec 10000000000 (50000000 * 2 ^ (k - 1))); cbn [orb]; [lia|].
    destruct (Z.leb_spec (50000000 * 2 ^ (k - 1)) 0); lia.
Qed.

Lemma backoff_bounds k : 50 * millisecond <= readaheadPrefetchBackoff k <= 10 * second.
Proof.
  rewrite backoff_exact. unfold millisecond, second. assert (1 <= 2 ^ (Z.max 1 k - 1)); [|lia].
  change 1 with (2 ^ 0) at 1. apply Z.pow_le_mono_r; lia.
Qed.

(** ** The invariant *)

Section Invariant.
Context (cfg : Config) (n : Z) (prefetch : Z -> answer -> Prop).
Context (Hworkers : ReadaheadWorkers cfg < 2 ^ 31).

Definition worker_ok (limit : Z) (w : worker) : Prop :=
  0 <= w_index w < limit /\
  match w_state w with
  | WHead head | WActive head => 0 <= head
  | WFetching t => 0 < t < n
  | WBackoff delay => 50 * millisecond <= delay <= 10 * second
  | _ => True
  end.

Record crew_ok (c : crew) : Prop := {
  k_buf i d : buf (cr_session c) !! i = Some d -> 0 < i < n /\ prefetch i (Some d, None);
  k_claimed t : t ∈ claimed (cr_session c) -> exists w, w ∈ cr_workers c /\ w_state w = WFetching t;
  k_steady : 1 <= steady (cr_session c) <= ceiling (cr_session c);
  k_limit : activeLimit (cr_session c) = steady (cr_session c) \/ activeLimit (cr_session c) = ceiling (cr_session c);
  k_length : Z.of_nat (length (cr_workers c)) = ceiling (cr_session c);
  k_workers : Forall (worker_ok (ceiling (cr_session c))) (cr_workers c)
}.

(** What a section leaves of a session: no chunk is made up, no claim is added, and the
    widths are in order. *)
Record tamed (s s' : session) : Prop := {
  t_buf : buf s' ⊆ buf s;
  t_claimed : claimed s' ⊆ claimed s;
  t_steady : steady s' = steady s /\ ceiling s' = ceiling s;
  t_limit : activeLimit s' = activeLimit s \/ activeLimit s' = steady s \/ activeLimit s' = ceiling s
}.

Lemma request_tamed s s' b : request cfg s s' b -> tamed s s'.
Proof.
  intros [head now _|wi _|wi|now|wi].
  - unfold reaim. set (limit := if negb (widenUntil s =? 0) && _ then steady s else activeLimit s).
    assert (limit = activeLimit s \/ limit = steady s) as Hl by (unfold limit; destruct (_ && _); auto).
    clearbody limit. destruct (ReadaheadMaxSegments cfg <? _); [destruct (_ && (steady s <? ceiling s))|]; split; cbn; auto; try set_solver;
      try apply map_filter_subseteq; destruct Hl; auto.
  - split; cbn; auto.
  - unfold take_chunk. destruct (buf s !! wi); split; cbn; auto. apply delete_subseteq.
  - split; cbn; auto.
  - unfold drop_behind. destruct (_ && _); split; cbn; auto. apply map_filter_subseteq.
Qed.

Lemma wake_ok limit w : worker_ok limit w -> worker_ok limit (wake w).
Proof. unfold worker_ok, wake. destruct (w_state w) eqn:E; rewrite ?E; done. Qed.

Lemma broadcast_fetching ws t : (exists w, w ∈ ws /\ w_state w = WFetching t) -> exists w, w ∈ broadcast ws /\ w_state w = WFetching t.
Proof.
  intros (w & Hw & E). exists w. split; [|done]. apply list_elem_of_fmap. exists w. split; [|done]. unfold wake. by rewrite E.
Qed.

Lemma broadcast_ok s ws c c' : crew_ok (MkCrew s ws c) -> crew_ok (MkCrew s (broadcast ws) c').
Proof.
  intros []. split; try done; cbn [cr_session cr_workers] in *.
  - intros t Ht. by apply broadcast_fetching, k_claimed0.
  - unfold broadcast. by rewrite length_map.
  - unfold broadcast. apply Forall_map. eapply list.Forall_impl; [done|]. apply wake_ok.
Qed.

Lemma tamed_ok s s' ws c : crew_ok (MkCrew s ws c) -> tamed s s' -> crew_ok (MkCrew s' ws c).
Proof.
  intros [] [Hb Hc [Es Ec] Hl]. split; cbn [cr_session cr_workers] in *; rewrite ?Es, ?Ec; try done.
  - intros i d H. apply k_buf0. by eapply lookup_weaken.
  - intros t Ht. apply k_claimed0. set_solver.
  - destruct Hl as [->|[->| ->]]; auto.
Qed.

(** The worker at one place moves. *)
Lemma moved_fetching pre (w w' : worker) post t : (exists w0, w0 ∈ pre ++ w :: post /\ w_state w0 = WFetching t) ->
  w_state w <> WFetching t -> exists w0, w0 ∈ pre ++ w' :: post /\ w_state w0 = WFetching t.
Proof.
  intros (w0 & Hin & E) Hne. exists w0. split; [|done]. rewrite elem_of_app, list.elem_of_cons in *.
  destruct Hin as [?|[->|?]]; [by left|done|by right; right].
Qed.

Lemma moved_workers limit pre w w' post : Forall (worker_ok limit) (pre ++ w :: post) -> worker_ok limit w' ->
  Forall (worker_ok limit) (pre ++ w' :: post).
Proof. rewrite !list.Forall_app, !list.Forall_cons. tauto. Qed.

Lemma idle_move s pre w st post c : crew_ok (MkCrew s (pre ++ w :: post) c) ->
  (forall t, w_state w <> WFetching t) -> worker_ok (ceiling s) (MkWorker (w_index w) st (consecFails w)) ->
  crew_ok (MkCrew s (pre ++ MkWorker (w_index w) st (consecFails w) :: post) c).
Proof.
  intros [] Hne Hok. split; cbn [cr_session cr_workers] in *; try done.
  - intros t Ht. eapply moved_fetching; [by apply k_claimed0|done].
  - rewrite <-k_length0, !length_app. done.
  - by eapply moved_workers.
Qed.

Lemma release_ok s pre w post c t data w' : crew_ok (MkCrew s (pre ++ w :: post) c) -> w_state w = WFetching t ->
  (match data with Some d => prefetch t (Some d, None) | None => True end) -> worker_ok (ceiling s) w' ->
  crew_ok (MkCrew (release t data s) (pre ++ w' :: post) c).
Proof.
  intros [] Ew Hd Hok. split; cbn [cr_session cr_workers release buf claimed steady ceiling activeLimit] in *; try done.
  - intros i d H. destruct data as [d'|]; [|by apply k_buf0]. apply lookup_insert_Some in H as [[<- <-]|[_ H]]; [|by apply k_buf0].
    split; [|done]. rewrite list.Forall_app, list.Forall_cons in k_workers0. destruct k_workers0 as (_ & [_ Hw] & _). by rewrite Ew in Hw.
  - intros t' Ht. apply elem_of_difference in Ht as [Ht Hne]. eapply moved_fetching; [by apply k_claimed0|].
    rewrite Ew. intros [= ->]. set_solver.
  - rewrite <-k_length0, !length_app. done.
  - by eapply moved_workers.
Qed.

Lemma worker_turn_ok s pre w w' post c s' : crew_ok (MkCrew s (pre ++ w :: post) c) ->
  worker_turn cfg n prefetch s (bool_decide (c <> None)) w s' w' -> crew_ok (MkCrew s' (pre ++ w' :: post) c).
Proof.
  intros Hok Ht. pose proof (k_workers _ Hok) as Hw. cbn [cr_session cr_workers] in Hw.
  rewrite list.Forall_app, list.Forall_cons in Hw. destruct Hw as (_ & [Hidx Hst] & _).
  assert (Hidle : forall st, (forall t, w_state w <> WFetching t) -> worker_ok (ceiling s) (MkWorker (w_index w) st (consecFails w)) ->
    crew_ok (MkCrew s (pre ++ MkWorker (w_index w) st (consecFails w) :: post) c)) by (intros; by apply (idle_move s)).
  destruct Ht as [E _|E _|head E _|head E _|head s' E Hc|head s' target E Hc|target data E Hp|target data err E Hp fails|delay E _|delay E _|E _|E _|E];
    rewrite E in Hst; try (apply Hidle; [by rewrite E|split; [exact Hidx|cbn; done]]).
  - apply Hidle; [by rewrite E|]. split; [exact Hidx|]. cbn. destruct (Z.ltb_spec (writePos s) 0); lia.
  - unfold claim in Hc. destruct (window_target _ _ _ _); [done|]. injection Hc as <-. apply Hidle; [by rewrite E|by split].
  - unfold claim in Hc. destruct (window_target _ _ _ _) as [idx|] eqn:Et; [|done]. injection Hc as <- <-.
    apply window_target_spec in Et as (Hlo & _ & _ & _ & _). destruct Hok as [Hb Hcl ? ? Hlen Hws]. cbn [cr_session cr_workers] in *.
    split; cbn [cr_session cr_workers buf claimed steady ceiling activeLimit]; try done.
    + intros t Hin. apply elem_of_union in Hin as [Hin|Hin].
      * apply elem_of_singleton in Hin as ->. eexists. split; [apply elem_of_app; right; left|done].
      * eapply moved_fetching; [by apply Hcl|by rewrite E].
    + rewrite <-Hlen, !length_app. done.
    + eapply moved_workers; [done|]. split; [done|]. cbn. lia.
  - eapply (release_ok s pre w); [exact Hok|exact E|destruct data; done|split; [exact Hidx|done]].
  - eapply (release_ok s pre w); [exact Hok|exact E|done|split; [exact Hidx|apply backoff_bounds]].
Qed.

Lemma crew_step_ok c c' : crew_ok c -> crew_step cfg n prefetch c c' -> crew_ok c'.
Proof.
  intros Hok Hs. destruct Hs as [s s' pre w w' post c Ht|s s' ws c b Hr|s ws|s ws k].
  - by eapply worker_turn_ok.
  - pose proof (tamed_ok _ _ _ _ Hok (request_tamed _ _ _ Hr)) as H. destruct b; [by eapply broadcast_ok|done].
  - by destruct Hok; split.
  - by eapply broadcast_ok.
Qed.

Lemma hired_ok maxWorkers steadyWorkers head now : 0 <= head -> crew_ok (hired (new_session cfg maxWorkers steadyWorkers head now)).
Proof.
  intros Hh. unfold new_session. set (ceil := worker_ceiling cfg maxWorkers). set (st := worker_steady cfg steadyWorkers ceil).
  assert (Hc : 1 <= ceil < 2 ^ 31).
  { unfold ceil, worker_ceiling. destruct (Z.ltb_spec (ReadaheadWorkers cfg) 1), maxWorkers as [max|]; try lia;
      destruct (Z.ltb_spec 0 max); cbn [andb]; try lia;
      match goal with |- context [max <? ?x] => destruct (Z.ltb_spec max x) end; lia. }
  assert (Hs : 1 <= st <= ceil).
  { unfold st, worker_steady. destruct (0 <? SeekWidenDuration cfg), steadyWorkers as [want|]; try lia;
      destruct (Z.ltb_spec 0 want); cbn [andb]; try lia; destruct (Z.ltb_spec want ceil); lia. }
  assert (Hi : forall x, 1 <= x < 2 ^ 31 -> i32 x = x) by (intros x Hx; unfold i32; rewrite Z.mod_small; lia).
  rewrite !Hi by lia. split; cbn [hired cr_session cr_workers buf claimed steady ceiling activeLimit].
  - intros i d H. by rewrite lookup_empty in H.
  - intros t H. by apply elem_of_empty in H.
  - done.
  - by left.
  - rewrite length_map, length_seq. lia.
  - apply Forall_map, list.Forall_forall. intros i Hin. apply elem_of_seq in Hin. split; [cbn; lia|done].
Qed.

Lemma crew_reachable_ok c : crew_reachable cfg n prefetch c -> crew_ok c.
Proof. induction 1; [by apply hired_ok|by eapply crew_step_ok]. Qed.
End Invariant.

(** ** What a request and a worker find *)

Definition window (cfg : Config) : Z := if ReadaheadMaxSegments cfg <? 1 then 1 else ReadaheadMaxSegments cfg.

(** A worker takes the lowest chunk of its window that is missing, or finds none. *)
Lemma claim_lowest cfg n head s :
  match claim cfg n head s with
  | (s', Some t) => head < t <= head + window cfg /\ t < n /\ buf s !! t = None /\ t ∉ claimed s /\
      (forall i, head < i < t -> is_Some (buf s !! i) \/ i ∈ claimed s) /\ buf s' = buf s /\ claimed s' = {[t]} ∪ claimed s
  | (s', None) => s' = s /\ forall i, head < i <= head + window cfg -> i < n -> is_Some (buf s !! i) \/ i ∈ claimed s
  end.
Proof.
  unfold claim. change (if ReadaheadMaxSegments cfg <? 1 then 1 else ReadaheadMaxSegments cfg) with (window cfg).
  assert (1 <= window cfg) by (unfold window; destruct (Z.ltb_spec (ReadaheadMaxSegments cfg) 1); lia).
  destruct (window_target s n (head + 1) _) as [t|] eqn:E.
  - apply window_target_spec in E as (H1 & H2 & H3 & H4 & H5). split_and!; try done; try lia. intros i Hi. apply H5. lia.
  - split; [done|]. intros i Hi Hn. apply (window_target_none _ _ _ _ E); lia.
Qed.

(** What a jump leaves in the buffer. *)
Lemma flush_buffer cfg head now s : 0 <= head -> 0 <= ReadaheadMaxSegments cfg < Z.abs (head - writePos s) ->
  let s' := reaim cfg head now s in
  claimed s' = ∅ /\ (size (buf s') <= Z.to_nat (ReadaheadMaxSegments cfg) + 2)%nat /\
  (forall k d, buf s' !! k = Some d <-> buf s !! k = Some d /\ (k = 0 \/ head <= k <= head + ReadaheadMaxSegments cfg)) /\
  (activeLimit s' = ceiling s \/ activeLimit s' = steady s \/ activeLimit s' = activeLimit s).
Proof.
  intros Hh Hm s'. set (m := ReadaheadMaxSegments cfg) in *.
  assert (Hb : claimed s' = ∅ /\ buf s' = filter (fun kd => keeps_chunk head (head + m) kd.1 = true) (buf s) /\
    (activeLimit s' = ceiling s \/ activeLimit s' = steady s \/ activeLimit s' = activeLimit s)).
  { unfold s', reaim. fold m. destruct (Z.ltb_spec (head - writePos s) 0).
    - destruct (Z.ltb_spec m (- (head - writePos s))); [|lia]. destruct (_ && _); split_and!; try done; cbn; [by left|].
      destruct (_ && _); auto.
    - destruct (Z.ltb_spec m (head - writePos s)); [|lia]. destruct (_ && _); split_and!; try done; cbn; [by left|].
      destruct (_ && _); auto. }
  destruct Hb as (Hc & Eb & Hl).
  assert (Hk : forall k, keeps_chunk head (head + m) k = true <-> k = 0 \/ head <= k <= head + m).
  { intros k. unfold keeps_chunk. destruct (Z.eqb_spec k 0); [tauto|]. destruct (Z.ltb_spec k head), (Z.ltb_spec (head + m) k); cbn; lia. }
  split_and!; [done| | |done].
  - set (Y := list_to_set (seqZ head (m + 1)) : gset Z). rewrite <-size_dom. transitivity (size ({[0]} ∪ Y)).
    + apply subseteq_size. intros k (d & Hd)%elem_of_dom. rewrite Eb in Hd. apply map_lookup_filter_Some in Hd as [_ Hd]. cbn in Hd.
      apply Hk in Hd. apply elem_of_union. destruct Hd as [->|Hd]; [left; by apply elem_of_singleton|right].
      apply elem_of_list_to_set, elem_of_seqZ. lia.
    + rewrite size_union_alt, size_singleton. pose proof (subseteq_size (Y ∖ {[0]}) Y ltac:(set_solver)) as H.
      unfold Y in H at 2. rewrite size_list_to_set, length_seqZ in H by apply NoDup_seqZ. lia.
  - intros k d. rewrite Eb, map_lookup_filter_Some. cbn. by rewrite Hk.
Qed.

(** ** Properties *)

(** Prefetching never makes bytes up and never leaks a claim.  After any interleaving of
    the workers with the requests of any streams: what the buffer holds for a chunk is what
    a prefetch of that chunk answered; every claimed chunk is being fetched, so that with no
    fetch running every chunk can be claimed; as many workers exist as the ceiling says, and
    the width in force is the resting one or the ceiling; a worker fetches chunks of the
    source after the first, and backs off between 50 milliseconds and ten seconds, doubling.
    A worker takes the lowest missing chunk of its window; and a jump of the reader leaves
    the chunks of the new window and the header chunk, and no claims. *)
Theorem readahead_sound cfg n prefetch c : ReadaheadWorkers cfg < 2 ^ 31 -> crew_reachable cfg n prefetch c ->
  let s := cr_session c in
  (forall i d, buf s !! i = Some d -> 0 < i < n /\ prefetch i (Some d, None)) /\
  (forall t, t ∈ claimed s -> exists w, w ∈ cr_workers c /\ w_state w = WFetching t) /\
  1 <= steady s <= ceiling s /\ (activeLimit s = steady s \/ activeLimit s = ceiling s) /\
  Z.of_nat (length (cr_workers c)) = ceiling s /\
  (forall w t, w ∈ cr_workers c -> w_state w = WFetching t -> 0 < t < n) /\
  (forall w delay, w ∈ cr_workers c -> w_state w = WBackoff delay -> 50 * millisecond <= delay <= 10 * second) /\
  (forall k, readaheadPrefetchBackoff k = Z.min (50 * millisecond * 2 ^ (Z.max 1 k - 1)) (10 * second)) /\
  (forall head, match claim cfg n head s with
    | (s', Some t) => head < t <= head + window cfg /\ t < n /\ buf s !! t = None /\ t ∉ claimed s /\
        (forall i, head < i < t -> is_Some (buf s !! i) \/ i ∈ claimed s) /\ buf s' = buf s /\ claimed s' = {[t]} ∪ claimed s
    | (s', None) => s' = s /\ forall i, head < i <= head + window cfg -> i < n -> is_Some (buf s !! i) \/ i ∈ claimed s
    end) /\
  (forall head now, 0 <= head -> 0 <= ReadaheadMaxSegments cfg < Z.abs (head - writePos s) ->
    claimed (reaim cfg head now s) = ∅ /\ (size (buf (reaim cfg head now s)) <= Z.to_nat (ReadaheadMaxSegments cfg) + 2)%nat /\
    forall k d, buf (reaim cfg head now s) !! k = Some d <->
      buf s !! k = Some d /\ (k = 0 \/ head <= k <= head + ReadaheadMaxSegments cfg)).
Proof.
  intros Hw Hr s. destruct (crew_reachable_ok cfg n prefetch Hw c Hr) as [Hb Hc Hs Hl Hlen Hws].
  assert (Hin : forall w, w ∈ cr_workers c -> worker_ok n (ceiling s) w) by (by apply list.Forall_forall).
  split_and!; try done; try apply Hs.
  - intros w t H E. destruct (Hin w H) as [_ Ho]. by rewrite E in Ho.
  - intros w delay H E. destruct (Hin w H) as [_ Ho]. by rewrite E in Ho.
  - apply backoff_exact.
  - intros head. apply claim_lowest.
  - intros head now Hh Hm. destruct (flush_buffer cfg head now s Hh Hm) as (? & ? & ? & _). done.
Qed.

(** ** A wake-up that is lost *)

Definition quiet : Config := with_defaults (MkConfig true 0 0 0 false 0 0 0 [] [] 0 0 0).
Definition nothing (_ : Z) (_ : answer) : Prop := False.

(** A worker can outlive its session.  The cancellation of a session wakes each worker
    once; a worker that saw the session alive and has not begun to wait misses it, and then
    waits for ever: no turn of any worker is left, no broadcast of the cancellation is
    pending, and the session, which is out of the table, gets no requests. *)
Theorem wakeup_lost : exists c, crew_reachable quiet 1 nothing c /\ cancelled c = Some 0%nat /\
  (exists w, w ∈ cr_workers c /\ w_state w = WWaiting) /\
  forall w s' w', w ∈ cr_workers c -> ~ worker_turn quiet 1 nothing (cr_session c) true w s' w'.
Proof.
  set (s := new_session quiet None None 0 0). set (at_ st := MkWorker 0 st ∅ : worker).
  assert (H0 : crew_reachable quiet 1 nothing (MkCrew s [at_ WTop] None)) by (by apply (crew_init quiet 1 nothing None None 0 0)).
  assert (go : forall c st st', crew_reachable quiet 1 nothing (MkCrew s [at_ st] c) ->
    worker_turn quiet 1 nothing s (bool_decide (c <> None)) (at_ st) s (at_ st') -> crew_reachable quiet 1 nothing (MkCrew s [at_ st'] c)).
  { intros c st st' H Ht. eapply crew_next; [exact H|]. by apply (crew_worker _ _ _ s s [] (at_ st) (at_ st') []). }
  exists (MkCrew s [at_ WWaiting] (Some 0%nat)). split_and!; [|done|exists (at_ WWaiting); split; [left|done]|].
  - apply (go _ WCommitted); [|by apply turn_wait].
    eapply crew_next; [|apply (crew_cancel_wake _ _ _ s [at_ WCommitted])].
    eapply crew_next; [|apply (crew_cancel _ _ _ s [at_ WCommitted])].
    apply (go _ WIdle); [|by apply turn_commit]. apply (go _ (WActive 0)); [|by eapply turn_claim].
    apply (go _ (WHead 0)); [|by apply turn_active]. apply (go _ WTop); [done|]. by apply (turn_head quiet 1 nothing s false (at_ WTop)).
  - intros w s' w' ->%list_elem_of_singleton Ht. inversion Ht; done.
Qed.

(** ** A witness *)

Definition echo (i : Z) (r : answer) : Prop := r = (Some [i], None).

Lemma readahead_sound_witness : exists c, crew_reachable quiet 3 echo c /\ buf (cr_session c) !! 1 = Some [1] /\
  (0 < 1 < 3 /\ echo 1 (Some [1], None)) /\ readaheadPrefetchBackoff 3 = 200 * millisecond.
Proof.
  set (s := new_session quiet None None 0 0). set (s1 := (claim quiet 3 0 s).1). set (s2 := release 1 (Some [1]) s1).
  assert (Hr : crew_reachable quiet 3 echo (MkCrew s2 ([] ++ [MkWorker 0 WTop (delete 1 ∅)]) None)).
  { eapply crew_next; [|apply (crew_worker quiet 3 echo s1 s2 [] (MkWorker 0 (WFetching 1) ∅)); by apply (turn_fetched quiet 3 echo s1 false (MkWorker 0 (WFetching 1) ∅) 1 (Some [1]))].
    eapply crew_next; [|apply (crew_worker quiet 3 echo s s1 [] (MkWorker 0 (WActive 0) ∅)); by apply (turn_target quiet 3 echo s false (MkWorker 0 (WActive 0) ∅) 0)].
    eapply crew_next; [|apply (crew_worker quiet 3 echo s s [] (MkWorker 0 (WHead 0) ∅)); by apply (turn_active quiet 3 echo s false (MkWorker 0 (WHead 0) ∅))].
    eapply crew_next; [|apply (crew_worker quiet 3 echo s s [] (MkWorker 0 WTop ∅)); by apply (turn_head quiet 3 echo s false (MkWorker 0 WTop ∅))].
    by apply (crew_init quiet 3 echo None None 0 0). }
  exists (MkCrew s2 [MkWorker 0 WTop (delete 1 ∅)] None).
  destruct (readahead_sound quiet 3 echo _ ltac:(reflexivity) Hr) as (H & _ & _ & _ & _ & _ & _ & Hb & _).
  split; [exact Hr|]. split; [reflexivity|]. split; [exact (H 1 [1] eq_refl)|]. rewrite Hb. reflexivity.
Defined.
