(* ===== verification/HTTPRange.v ===== *)
(** Range arithmetic of the byte relay: internal/httpstream/httprange.go.

    Headers are byte strings; integers are parsed as [strconv.ParseInt] does and
    have 64 bits. *)

From Stdlib Require Import ZArith Lia.
From stdpp Require Import base list numbers strings.
From S2P Require Import Prelude Bencode Torrentmeta Text.

Local Open Scope Z_scope.

(** An inclusive span. *)
Record ByteRange := MkRange { Start : Z; End : Z }.

#[export] Instance ByteRange_eq_dec : EqDecision ByteRange.
Proof. solve_decision. Defined.

(** [Length] of a range. *)
Definition Length (r : ByteRange) : Z := i64 (i64 (End r - Start r) + 1).

(** [strings.IndexByte]. *)
Fixpoint index_byte (c : Z) (s : bytes) : option nat :=
  match s with
  | [] => None
  | x :: s => if x =? c then Some O else S <$> index_byte c s
  end.

(** [strings.HasPrefix(strings.ToLower(s), p)], for a lower-case ASCII [p]: no
    other character lower-cases to one of its letters. *)
Definition has_lower_prefix (p s : bytes) : bool := bool_decide (take (length p) (ascii_lower s) = p).

Definition bytes_unit : bytes := str "bytes=".

(** The part of [ParseRange] after the unit and the first comma. *)
Definition parse_spec (spec : bytes) (size : Z) : option ByteRange * bool :=
  match index_byte 45 spec with
  | None => (None, false)
  | Some dash =>
      let startStr := TrimSpace (take dash spec) in
      let endStr := TrimSpace (drop (S dash) spec) in
      if bool_decide (startStr = []) then
        match ParseInt endStr 64 with
        | None => (None, false)
        | Some n =>
            if n <=? 0 then (None, false)
            else
            let n := if size <? n then size else n in
            (Some (MkRange (i64 (size - n)) (i64 (size - 1))), true)
        end
      else
      match ParseInt startStr 64 with
      | None => (None, false)
      | Some start =>
          if start <? 0 then (None, false)
          else if size <=? start then (None, false)
          else
          let fin := i64 (size - 1) in
          if negb (bool_decide (endStr = [])) then
            match ParseInt endStr 64 with
            | None => (None, false)
            | Some e =>
                if e <? start then (None, false)
                else (Some (MkRange start (if e <? fin then e else fin)), true)
            end
          else (Some (MkRange start fin), true)
      end
  end.

Definition ParseRange (header : bytes) (size : Z) : option ByteRange * bool :=
  let header := TrimSpace header in
  if bool_decide (header = []) || (size <=? 0) then (None, true)
  else if negb (has_lower_prefix bytes_unit header) then (None, true)
  else
  let spec := TrimSpace (drop (length bytes_unit) header) in
  if bool_decide (spec = []) then (None, false)
  else
  let spec := match index_byte 44 spec with Some i => TrimSpace (take i spec) | None => spec end in
  parse_spec spec size.

Definition ContentRange (r : ByteRange) (total : Z) : bytes :=
  str "bytes " ++ itoa (Start r) ++ 45 :: itoa (End r) ++ 47 :: itoa total.

Definition UnsatisfiedContentRange (total : Z) : bytes := str "bytes */" ++ itoa total.

Definition UpstreamRangeHeader (r : ByteRange) : bytes :=
  str "bytes=" ++ itoa (Start r) ++ 45 :: itoa (End r).

(** Every error of the validation has the class of a malformed upstream. *)
Inductive upstream_error : Type := UpstreamMalformed (message : bytes).

Definition content_unit : bytes := str "bytes ".

Definition ValidateUpstream206 (contentRange : bytes) (want : ByteRange) : result upstream_error Z :=
  let cr := TrimSpace contentRange in
  if negb (has_lower_prefix content_unit cr)
  then Err (UpstreamMalformed (str "206 without valid Content-Range unit"))
  else
  let rest := TrimSpace (drop (length content_unit) cr) in
  match index_byte 47 rest with
  | None => Err (UpstreamMalformed (str "206 Content-Range missing total"))
  | Some slash =>
      let span := TrimSpace (take slash rest) in
      let totalStr := TrimSpace (drop (S slash) rest) in
      match index_byte 45 span with
      | None => Err (UpstreamMalformed (str "206 Content-Range missing span"))
      | Some dash =>
          match ParseInt (TrimSpace (take dash span)) 64, ParseInt (TrimSpace (drop (S dash) span)) 64 with
          | Some start, Some fin =>
              if (start <? 0) || (fin <? start)
              then Err (UpstreamMalformed (str "206 Content-Range span not parseable"))
              else if negb (start =? Start want) || negb (fin =? End want)
              then Err (UpstreamMalformed (str "206 Content-Range does not match requested range"))
              else if bool_decide (totalStr = str "*") then Ok 0
              else
              match ParseInt totalStr 64 with
              | None => Err (UpstreamMalformed (str "206 Content-Range total incoherent"))
              | Some total =>
                  if total <=? fin
                  then Err (UpstreamMalformed (str "206 Content-Range total incoherent"))
                  else Ok total
              end
          | _, _ => Err (UpstreamMalformed (str "206 Content-Range span not parseable"))
          end
      end
  end.

Example parse_demo : ParseRange (str " BYTES=2-9,20- ") 8 = (Some (MkRange 2 7), true).
Proof. reflexivity. Qed.
Example suffix_demo : ParseRange (str "bytes=-3") 8 = (Some (MkRange 5 7), true).
Proof. reflexivity. Qed.
Example validate_demo : ValidateUpstream206 (str "bytes 2-7/8") (MkRange 2 7) = Ok 8.
Proof. reflexivity. Qed.

Lemma index_byte_app c ds rest : c ∉ ds -> index_byte c (ds ++ c :: rest) = Some (length ds).
Proof.
  induction ds as [|d ds IH]; intros Hd; cbn; [by rewrite Z.eqb_refl|]. rewrite list.elem_of_cons in Hd.
  destruct (Z.eqb_spec d c); [naive_solver|]. rewrite IH; [done|naive_solver].
Qed.

Lemma index_byte_none c ds : c ∉ ds -> index_byte c ds = None.
Proof.
  induction ds as [|d ds IH]; intros Hd; cbn; [done|]. rewrite list.elem_of_cons in Hd.
  destruct (Z.eqb_spec d c); [naive_solver|]. rewrite IH; [done|naive_solver].
Qed.

(** ** What a range asks for *)

Inductive range_spec : Type :=
| FirstLast (a b : Z)
| From (a : Z)
| Suffix (n : Z).

Definition spec_ok (s : range_spec) : Prop :=
  match s with
  | FirstLast a b => 0 <= a <= maxInt64 /\ 0 <= b <= maxInt64
  | From a => 0 <= a <= maxInt64
  | Suffix n => 0 <= n <= maxInt64
  end.

Definition render (s : range_spec) : bytes :=
  match s with
  | FirstLast a b => dec a ++ 45 :: dec b
  | From a => dec a ++ [45]
  | Suffix n => 45 :: dec n
  end.

(** The bytes of a [size]-byte object a range selects. *)
Definition select (s : range_spec) (size : Z) : option ByteRange :=
  match s with
  | FirstLast a b => if (a <? size) && (a <=? b) then Some (MkRange a (Z.min b (size - 1))) else None
  | From a => if a <? size then Some (MkRange a (size - 1)) else None
  | Suffix n => if 0 <? n then Some (MkRange (size - Z.min n size) (size - 1)) else None
  end.

Lemma ParseInt_dec64 n : 0 <= n <= maxInt64 -> ParseInt (dec n) 64 = Some n.
Proof. intros H. apply ParseInt_dec. unfold maxInt64 in H. change (64 - 1) with 63. lia. Qed.

Lemma dec_not_nil n : bool_decide (dec n = []) = false.
Proof. apply bool_decide_eq_false. destruct (dec_nonempty n) as (c & ds & ->). done. Qed.

Lemma split_dash (l r : bytes) : 45 ∉ l ->
  index_byte 45 (l ++ 45 :: r) = Some (length l) /\ take (length l) (l ++ 45 :: r) = l /\ drop (S (length l)) (l ++ 45 :: r) = r.
Proof.
  intros Hl. split; [by apply index_byte_app|]. split; [by rewrite take_app_length|].
  replace (S (length l)) with (length l + 1)%nat by lia. rewrite <-drop_drop, drop_app_length. done.
Qed.

(** Each form of range selects what it asks for. *)
Lemma parse_spec_select s size : spec_ok s -> 0 < size <= maxInt64 ->
  parse_spec (render s) size = match select s size with Some r => (Some r, true) | None => (None, false) end.
Proof.
  intros Hs Hz. assert (Hi : i64 (size - 1) = size - 1) by (apply i64_small; unfold is_i64, minInt64, maxInt64 in *; lia).
  unfold parse_spec. destruct s as [a b|a|n]; cbn [render select spec_ok] in *.
  - destruct (split_dash (dec a) (dec b)) as (-> & -> & ->); [apply dec_no; [lia|done]|].
    rewrite !plain_trim, !dec_not_nil, !ParseInt_dec64 by (lia || (apply dec_plain; lia)). cbn [negb].
    destruct (Z.ltb_spec a 0); [lia|]. destruct (Z.leb_spec size a), (Z.ltb_spec a size); try lia; [done|].
    destruct (Z.ltb_spec b a), (Z.leb_spec a b); try lia; cbn [andb]; [done|].
    rewrite Hi. do 3 f_equal. destruct (Z.ltb_spec b (size - 1)); lia.
  - destruct (split_dash (dec a) []) as (-> & -> & ->); [apply dec_no; [lia|done]|].
    rewrite plain_trim, dec_not_nil, ParseInt_dec64 by (lia || (apply dec_plain; lia)).
    change (TrimSpace []) with (@nil Z). rewrite bool_decide_true by done. cbn [negb].
    destruct (Z.ltb_spec a 0); [lia|]. destruct (Z.leb_spec size a), (Z.ltb_spec a size); try lia; [done|]. by rewrite Hi.
  - destruct (split_dash [] (dec n)) as (E1 & E2 & E3); [by apply not_elem_of_nil|]. cbn [app] in *. rewrite E1, E2, E3.
    change (TrimSpace []) with (@nil Z). rewrite bool_decide_true by done.
    rewrite plain_trim, ParseInt_dec64 by (lia || (apply dec_plain; lia)).
    destruct (Z.leb_spec n 0), (Z.ltb_spec 0 n); try lia; [done|]. rewrite Hi. do 3 f_equal.
    destruct (Z.ltb_spec size n); rewrite i64_small by (unfold is_i64, minInt64, maxInt64 in *; lia); lia.
Qed.

Lemma parse_spec_sound spec size : 0 < size <= maxInt64 ->
  match parse_spec spec size with
  | (Some r, ok) => ok = true /\ 0 <= Start r <= End r /\ End r < size
  | (None, ok) => ok = false
  end.
Proof.
  intros Hz. assert (Hi : i64 (size - 1) = size - 1) by (apply i64_small; unfold is_i64, minInt64, maxInt64 in *; lia).
  unfold parse_spec. destruct (index_byte 45 spec) as [dash|]; [|done]. cbv zeta. rewrite Hi.
  destruct (bool_decide _).
  - destruct (ParseInt _ 64) as [n|]; [|done]. destruct (Z.leb_spec n 0); [done|]. cbn [Start End]. split; [done|].
    destruct (Z.ltb_spec size n); rewrite i64_small by (unfold is_i64, minInt64, maxInt64 in *; lia); lia.
  - destruct (ParseInt _ 64) as [a|]; [|done]. destruct (Z.ltb_spec a 0); [done|]. destruct (Z.leb_spec size a); [done|].
    destruct (negb _); [|cbn; lia]. destruct (ParseInt _ 64) as [b|]; [|done]. destruct (Z.ltb_spec b a); [done|].
    cbn [Start End]. split; [done|]. destruct (Z.ltb_spec b (size - 1)); lia.
Qed.

(** The unit in any case: six printable characters. *)
Lemma unit_shape unit : ascii_lower unit = bytes_unit ->
  exists u0 us u, unit = u0 :: us ++ [u] /\ plain u0 = true /\ plain u = true /\ length unit = 6%nat.
Proof.
  intros Hu. assert (Hl : length unit = 6%nat)
    by (apply (f_equal length) in Hu; unfold ascii_lower in Hu; by rewrite length_map in Hu).
  destruct unit as [|u0 [|u1 [|u2 [|u3 [|u4 [|u5 [|]]]]]]]; try done. exists u0, [u1; u2; u3; u4], u5.
  unfold ascii_lower, bytes_unit in Hu. cbn [map str] in Hu. injection Hu as H0 _ _ _ _ H5. split_and!; [done| | |done].
  - unfold plain. destruct ((65 <=? u0) && (u0 <=? 90)) eqn:E; bool_hyps; cbn in H0; lia.
  - unfold plain. destruct ((65 <=? u5) && (u5 <=? 90)) eqn:E; bool_hyps; cbn in H5; lia.
Qed.

Lemma render_shape s : spec_ok s -> render s <> [] /\ forallb plain (render s) = true /\ 44 ∉ render s.
Proof.
  intros Hs. assert (Hd : forall n, 0 <= n -> 44 ∉ dec n) by (intros; by apply dec_no).
  split; [|split].
  - destruct s; cbn [render]; try done; by destruct (dec a).
  - destruct s; cbn [render spec_ok] in *; rewrite ?forallb_app; cbn [forallb]; by rewrite ?dec_plain by lia.
  - destruct s; cbn [render spec_ok] in *; rewrite ?elem_of_app, ?list.elem_of_cons; intros Hin; destruct_or?; try done;
      try (by apply not_elem_of_nil in Hin);
      match goal with H : 44 ∈ dec ?n |- _ => apply (Hd n); [lia|done] end.
Qed.

Definition comma_tail (tail : bytes) : Prop := tail = [] \/ exists t, tail = 44 :: t.

(** Trimming a text of printable characters keeps it, up to what follows a comma. *)
Lemma trim_comma (a : Z) (x : bytes) tail : plain a = true -> plain (List.last (a :: x) 0) = true -> comma_tail tail ->
  exists tail', TrimSpace ((a :: x) ++ tail) = (a :: x) ++ tail' /\ comma_tail tail'.
Proof.
  intros Ha Hl [->|[t ->]].
  - exists []. split; [|by left]. rewrite app_nil_r. apply TrimSpace_plain. by apply andb_true_iff.
  - destruct (TrimSpace_tail a x 44 t Ha eq_refl) as (t' & E & _). exists (44 :: t'). split; [exact E|right; eauto].
Qed.

Lemma last_plain l s d : s <> [] -> forallb plain s = true -> plain (List.last (l ++ s) d) = true.
Proof.
  intros Hn Hp. destruct (exists_last Hn) as (x & c & ->). rewrite app_assoc, last_last. rewrite forallb_app in Hp.
  cbn in Hp. by bool_hyps.
Qed.

(** The first of several ranges. *)
Lemma first_range s tail : spec_ok s -> comma_tail tail ->
  match index_byte 44 (render s ++ tail) with Some i => TrimSpace (take i (render s ++ tail)) | None => render s ++ tail end
  = render s.
Proof.
  intros Hs Ht. destruct (render_shape s Hs) as (Hn & Hp & Hc). destruct Ht as [->|[t ->]].
  - rewrite app_nil_r, index_byte_none by done. done.
  - rewrite index_byte_app, take_app_length by done. by apply plain_trim.
Qed.

Lemma lower_prefix u p x : ascii_lower u = p -> has_lower_prefix p (u ++ x) = true.
Proof.
  intros <-. unfold has_lower_prefix, ascii_lower. rewrite map_app, take_app_length. by apply bool_decide_eq_true.
Qed.

(** A header with the unit in any case and the range first. *)
Lemma ParseRange_render unit s tail size : ascii_lower unit = bytes_unit -> spec_ok s -> 0 < size <= maxInt64 ->
  comma_tail tail -> ParseRange (unit ++ render s ++ tail) size = parse_spec (render s) size.
Proof.
  intros Hu Hs Hz Htail. destruct (unit_shape unit Hu) as (u0 & us & u & Eu & Hu0 & Hu5 & Hl).
  destruct (render_shape s Hs) as (Hn & Hp & Hc). destruct (render s) as [|r0 rs] eqn:Er; [done|].
  assert (Hp0 : plain r0 = true) by (cbn in Hp; by bool_hyps).
  destruct (trim_comma u0 (us ++ [u] ++ r0 :: rs) tail Hu0) as (tail1 & E1 & Ht1); [|done|].
  { replace (u0 :: us ++ [u] ++ r0 :: rs) with ((u0 :: us ++ [u]) ++ r0 :: rs) by (cbn; by rewrite <-app_assoc).
    by apply last_plain. }
  destruct (trim_comma r0 rs tail1 Hp0) as (tail2 & E2 & Ht2); [by apply (last_plain [])|done|].
  assert (E : TrimSpace (unit ++ (r0 :: rs) ++ tail) = unit ++ (r0 :: rs) ++ tail1).
  { rewrite Eu. cbn [app] in *. rewrite <-!app_assoc in *. cbn [app] in *. exact E1. }
  unfold ParseRange. rewrite E. rewrite (bool_decide_false (unit ++ _ = [])) by (by rewrite Eu).
  destruct (Z.leb_spec size 0); [lia|]. cbn [orb].
  rewrite lower_prefix by done. cbn [negb]. change (length bytes_unit) with 6%nat. rewrite <-Hl, drop_app_length, E2.
  rewrite bool_decide_false by done. pose proof (first_range s tail2 Hs Ht2) as Hf. rewrite Er in Hf. by rewrite Hf.
Qed.

Lemma itoa_dec n : 0 <= n -> itoa n = dec n.
Proof. intros H. unfold itoa. by destruct (Z.ltb_spec n 0); [lia|]. Qed.

Lemma itoa_plain n : forallb plain (itoa n) = true /\ itoa n <> [].
Proof.
  unfold itoa. destruct (Z.ltb_spec n 0); [split; [cbn [forallb]; by rewrite dec_plain by lia|done]|].
  split; [by apply dec_plain|]. by destruct (dec_nonempty n) as (c & ds & ->).
Qed.

(** A Content-Range header whose span and total are printable. *)
Lemma Validate_plain span total want : forallb plain span = true -> span <> [] -> 47 ∉ span ->
  forallb plain total = true -> total <> [] ->
  ValidateUpstream206 (content_unit ++ span ++ 47 :: total) want =
  match index_byte 45 span with
  | None => Err (UpstreamMalformed (str "206 Content-Range missing span"))
  | Some dash =>
      match ParseInt (TrimSpace (take dash span)) 64, ParseInt (TrimSpace (drop (S dash) span)) 64 with
      | Some start, Some fin =>
          if (start <? 0) || (fin <? start)
          then Err (UpstreamMalformed (str "206 Content-Range span not parseable"))
          else if negb (start =? Start want) || negb (fin =? End want)
          then Err (UpstreamMalformed (str "206 Content-Range does not match requested range"))
          else if bool_decide (total = str "*") then Ok 0
          else
          match ParseInt total 64 with
          | None => Err (UpstreamMalformed (str "206 Content-Range total incoherent"))
          | Some t => if t <=? fin then Err (UpstreamMalformed (str "206 Content-Range total incoherent")) else Ok t
          end
      | _, _ => Err (UpstreamMalformed (str "206 Content-Range span not parseable"))
      end
  end.
Proof.
  intros Hs Hsn Hslash Ht Htn.
  assert (Hrest : TrimSpace (span ++ 47 :: total) = span ++ 47 :: total).
  { apply plain_trim. rewrite forallb_app, Hs. cbn [forallb]. by rewrite Ht. }
  assert (Hall : TrimSpace (content_unit ++ span ++ 47 :: total) = content_unit ++ span ++ 47 :: total).
  { apply TrimSpace_plain. change (content_unit ++ span ++ 47 :: total) with (98 :: (str "ytes " ++ span ++ 47 :: total)).
    change (plain 98) with true. cbn [andb].
    replace (98 :: str "ytes " ++ span ++ 47 :: total) with ((98 :: str "ytes " ++ span ++ [47]) ++ total)
      by (cbn [app]; by rewrite <-!app_assoc). by apply last_plain. }
  unfold ValidateUpstream206. rewrite Hall, lower_prefix by done. cbn [negb].
  rewrite drop_app_length, Hrest, index_byte_app, take_app_length by done.
  replace (S (length span)) with (length span + 1)%nat by lia. rewrite <-drop_drop, drop_app_length.
  change (drop 1 (47 :: total)) with total. rewrite !plain_trim by done. done.
Qed.

(** C17. Ranges keep their meaning through the relay.  For every header and size,
    a range that is accepted lies inside the object and is not empty, a header that
    is ignored has no range in bytes to honour, and nothing else is accepted; a
    header with the unit in any case and a range of each form first selects exactly
    the bytes the form asks for and is unsatisfiable exactly when there are none,
    whatever follows the first comma; the header sent upstream for a range parses
    back to that range, and the Content-Range rendered for it is accepted for that
    range and for no other; whatever is accepted names a valid span and an unknown
    total or one beyond it; and the header of an unsatisfied range is never
    accepted. *)
Theorem range_exchange :
  (forall header size, is_i64 size ->
     match ParseRange header size with
     | (Some r, ok) => ok = true /\ 0 <= Start r <= End r /\ End r < size
     | (None, true) => size <= 0 \/ TrimSpace header = [] \/ has_lower_prefix bytes_unit (TrimSpace header) = false
     | (None, false) => 0 < size
     end) /\
  (forall unit s tail size, ascii_lower unit = bytes_unit -> spec_ok s -> 0 < size <= maxInt64 -> comma_tail tail ->
     ParseRange (unit ++ render s ++ tail) size =
     match select s size with Some r => (Some r, true) | None => (None, false) end) /\
  (forall r size, 0 <= Start r <= End r -> End r < size <= maxInt64 ->
     ParseRange (UpstreamRangeHeader r) size = (Some r, true) /\
     forall want, ValidateUpstream206 (ContentRange r size) want = Ok size <-> want = r) /\
  (forall header want total, ValidateUpstream206 header want = Ok total ->
     0 <= Start want <= End want /\ (total = 0 \/ End want < total)) /\
  (forall size want, exists err, ValidateUpstream206 (UnsatisfiedContentRange size) want = Err err).
Proof.
  split_and!.
  - intros header size Hz. unfold ParseRange. destruct (bool_decide _) eqn:E; bool_hyps; cbn [orb]; [auto|].
    destruct (Z.leb_spec size 0); [auto|]. destruct (has_lower_prefix _ _); cbn [negb]; [|auto].
    destruct (bool_decide _); [done|]. set (spec := match index_byte 44 _ with Some i => _ | None => _ end).
    pose proof (parse_spec_sound spec size) as Hp. destruct (parse_spec spec size) as [[r|] ok]; [apply Hp; unfold is_i64 in Hz; lia|].
    by rewrite Hp by (unfold is_i64 in Hz; lia).
  - intros unit s tail size Hu Hs Hz Ht. rewrite ParseRange_render by done. by apply parse_spec_select.
  - intros [a b] size Hab Hz. cbn [Start End] in *. split.
    + unfold UpstreamRangeHeader. cbn [Start End]. rewrite !itoa_dec by lia.
      replace (str "bytes=" ++ dec a ++ 45 :: dec b) with (bytes_unit ++ render (FirstLast a b) ++ [])
        by (cbn [render]; by rewrite app_nil_r).
      rewrite ParseRange_render by (done || (by left) || (unfold spec_ok; lia) || lia).
      rewrite parse_spec_select by (unfold spec_ok; lia). cbn [select].
      destruct (Z.ltb_spec a size), (Z.leb_spec a b); try lia. cbn [andb]. by rewrite Z.min_l by lia.
    + intros [a' b']. unfold ContentRange. cbn [Start End]. rewrite !itoa_dec by lia.
      replace (str "bytes " ++ dec a ++ 45 :: dec b ++ 47 :: dec size)
        with (content_unit ++ (dec a ++ 45 :: dec b) ++ 47 :: dec size) by (by rewrite <-!app_assoc).
      rewrite Validate_plain; [|by rewrite forallb_app; cbn [forallb]; rewrite !dec_plain by lia|by destruct (dec a)
        |rewrite elem_of_app, list.elem_of_cons; intros [Hin|[Hin|Hin]]; [|done|]; apply dec_no in Hin; (done || lia)
        |apply dec_plain; lia|by destruct (dec_nonempty size) as (c & ds & ->)].
      destruct (split_dash (dec a) (dec b)) as (-> & -> & ->); [by apply dec_no; [lia|]|].
      rewrite !plain_trim, !ParseInt_dec64 by (lia || (apply dec_plain; lia)). cbn [Start End].
      destruct (Z.ltb_spec a 0); [lia|]. destruct (Z.ltb_spec b a); [lia|]. cbn [orb].
      rewrite (bool_decide_false (dec size = str "*")).
      2: { intros E. pose proof (dec_all size ltac:(lia)) as Hd. by rewrite E in Hd. }
      destruct (Z.leb_spec size b); [lia|]. destruct (Z.eqb_spec a a'), (Z.eqb_spec b b'); cbn [negb orb]; subst;
        split; intros E; try done; by injection E.
  - intros header want total. unfold ValidateUpstream206. destruct (has_lower_prefix _ _); cbn [negb]; [|done].
    destruct (index_byte 47 _); [|done]. destruct (index_byte 45 _); [|done].
    destruct (ParseInt _ 64) as [a|]; [|done]. destruct (ParseInt _ 64) as [b|]; [|done].
    destruct ((a <? 0) || (b <? a)) eqn:E1; [done|]. destruct (negb (a =? Start want) || negb (b =? End want)) eqn:E2; [done|]. bool_hyps. destruct (bool_decide _); [intros [= <-]; lia|].
    destruct (ParseInt _ 64) as [t|]; [|done]. destruct (Z.leb_spec t b); [done|]. intros [= <-]. lia.
  - intros size want. unfold UnsatisfiedContentRange. destruct (itoa_plain size) as [Hp Hn].
    replace (str "bytes */" ++ itoa size) with (content_unit ++ [42] ++ 47 :: itoa size) by done.
    rewrite Validate_plain; [eauto|done|done|by intros ?%list_elem_of_singleton|done|done].
Qed.
