(* ===== verification/RangeStream.v ===== *)
(** Streaming a range: [Cache.stream] of internal/rangecache/rangecache.go.

    A request is mapped to the chunks that overlap its range, each chunk is taken from the
    session's buffer or read through the cache, and its bytes are written.  The cache, the
    session, the context, the volume of polls and the client are calls on a world
    ([Player]); the sections of the session are those of Readahead.v, run under its lock.
    What was sent is a record: the response line, the body, the deliveries reported to the
    coverage tracker, and whether the first byte was warm. *)

From Stdlib Require Import ZArith Lia.
From stdpp Require Import base list numbers strings gmap.
From S2P Require Import Prelude Outcome Bencode Text ContentProof HTTPRange Inflight RangeCache Readahead.

Local Open Scope Z_scope.
Local Open Scope harbor_scope.

(** ** The range *)

(** Start and end, inclusive, and whether the request is partial. *)
Definition parseRange (rangeHeader : bytes) (totalBytes : Z) : Z * Z * bool :=
  let whole := (0, i64 (totalBytes - 1), false) in
  if bool_decide (rangeHeader = []) || negb (has_prefix bytes_unit rangeHeader) then whole
  else
    let spec := drop (length bytes_unit) rangeHeader in
    match index_byte 45 spec with
    | None => whole
    | Some dash =>
        let first := take dash spec in
        let last := drop (S dash) spec in
        if bool_decide (first = []) then
          if bool_decide (last = []) then whole
          else
            match ParseInt last 64 with
            | None => whole
            | Some n =>
                if n <=? 0 then whole
                else
                  let start := i64 (totalBytes - n) in
                  ((if start <? 0 then 0 else start), i64 (totalBytes - 1), true)
            end
        else
          match ParseInt first 64 with
          | None => whole
          | Some start =>
              if bool_decide (last = []) then (start, i64 (totalBytes - 1), true)
              else match ParseInt last 64 with None => whole | Some v => (start, v, true) end
          end
    end.

(** ** Chunks *)

Fixpoint declared_starts (offset : Z) (refs : list ChunkRef) : list Z :=
  match refs with
  | [] => []
  | ref :: refs => offset :: declared_starts (i64 (offset + r_Size ref)) refs
  end.

(** The start of each chunk, and the total, raised to the corrected one. *)
Definition chunk_starts (refs : list ChunkRef) (corrected : list Z) (totalBytes : Z) : list Z * Z :=
  if Nat.eqb (length corrected) (S (length refs)) then
    let ct := List.last corrected 0 in (take (length refs) corrected, if totalBytes <? ct then ct else totalBytes)
  else (declared_starts 0 refs, totalBytes).

(** The chunks that overlap a range, with their starts. *)
Fixpoint overlapping (rangeStart rangeEnd : Z) (i : nat) (refs : list ChunkRef) (starts : list Z) : list (nat * Z) :=
  match refs, starts with
  | ref :: refs, start :: starts =>
      let rest := overlapping rangeStart rangeEnd (S i) refs starts in
      if (i64 (start + r_Size ref) <=? rangeStart) || (rangeEnd <? start) then rest else (i, start) :: rest
  | _, _ => []
  end.

(** ** Responses *)

Record response := MkResponse { status : Z; content_range : option bytes; content_length : option bytes }.

Definition writeRangeNotSatisfiable (totalBytes : Z) : response :=
  MkResponse 416 (Some (UnsatisfiedContentRange (if totalBytes <? 0 then 0 else totalBytes))) None.

Record sent := MkSent { s_response : option response; body : bytes; emitted : Z; deliveries : list (Z * Z); firstByte : option bool }.

Definition nothing_sent : sent := MkSent None [] 0 [] None.

Definition stream_error (msg : string) (causes : list goerror) : goerror := Error (TPlain (str "rangecache: " ++ str msg)) causes.

(** ** The world *)

Inductive tick : Type := Ticked | TimedOut | CtxDone.

Class Player (W : Type) := {
  get_chunk : nat -> W -> W * result goerror bytes;                   (* c.GetChunk(ctx, src, mode, refs[i]) *)
  on_disk : nat -> W -> W * bool;                                     (* c.diskEntries holds refs[i] *)
  client_write : bytes -> W -> W * (Z * option goerror);              (* w.Write *)
  open_session : (option session -> session) -> W -> W * unit;        (* c.sessions, under c.sessionMu *)
  locked : forall A, (session -> session * A) -> W -> W * A;          (* sess.mu *)
  wait_tick : W -> W * tick;                                          (* the select of the wait *)
  clock : W -> W * Z                                                  (* c.now *)
}.
Arguments locked {W Player A}.

Section Stream.
Context {W : Type} `{Context W} `{Player W} (cfg : Config).

(** ** The wait for the first chunks

    [polls] is how many the timer leaves time for. *)
Fixpoint wait_buffered (polls : nat) (effectiveMinBuffer lenWork : Z) : W -> W * option goerror :=
  match polls with
  | O => call_ret None
  | S polls =>
      let! count := locked (fun s => (s, Z.of_nat (size (buf s)))) in
      if (effectiveMinBuffer <=? count) || (lenWork <=? count) then call_ret None
      else
        let! t := wait_tick in
        match t with
        | CtxDone => ctx_Err
        | TimedOut => call_ret None
        | Ticked => wait_buffered polls effectiveMinBuffer lenWork
        end
  end.

(** ** The write loop *)

Record request := MkRequest {
  rq_mode : Mode; rangeStart : Z; rangeEnd : Z; isPartial : bool; raActive : bool; playback : bool
}.

Definition span_of (q : request) : Z := i64 (i64 (rangeEnd q - rangeStart q) + 1).

(** A chunk of the session's buffer, and the move of its position. *)
Definition take_buffered (q : request) (wi : nat) : W -> W * option bytes :=
  if raActive q
  then let! _ := locked (fun s => (advance (Z.of_nat wi) s, tt)) in locked (take_chunk (Z.of_nat wi))
  else call_ret None.

Definition is_warm (q : request) (wi : nat) (hit : option bytes) (o : sent) : W -> W * bool :=
  match hit with
  | Some _ => call_ret true
  | None =>
      if playback q && bool_decide (firstByte o = None) && (bool_decide (rq_mode q = ModeDisk) || bool_decide (rq_mode q = ModeFull))
      then on_disk wi
      else call_ret false
  end.

(** [w.Write] and what follows it. *)
Definition write_chunk (q : request) (warm : bool) (data : bytes) (o : sent) : W -> W * (sent * option goerror) :=
  if Z.of_nat (length data) <=? 0 then call_ret (o, None)
  else
    let! (n, err) := client_write data in
    let sent_now := take (Z.to_nat n) data in
    let delivered := if 0 <? n then deliveries o ++ [(i64 (rangeStart q + emitted o), n)] else deliveries o in
    let o' := MkSent (s_response o) (body o ++ sent_now) (emitted o) delivered (firstByte o) in
    match err with
    | Some err => call_ret (o', Some (stream_error "write error" [err]))
    | None =>
        if negb (n =? Z.of_nat (length data)) then call_ret (o', Some (stream_error "write error" [Error (TPlain (str "short write")) []]))
        else
          let first := if playback q && bool_decide (firstByte o = None) && (0 <? n) then Some warm else firstByte o in
          call_ret (MkSent (s_response o') (body o') (i64 (emitted o + n)) (deliveries o') first, None)
    end.

(** The bytes of a chunk that the range has not been given yet: [None] to go on with the
    next chunk, [Some None] to stop. *)
Definition cut_chunk (q : request) (start : Z) (o : sent) (data : bytes) : option (option bytes) :=
  let frontSkip := i64 (rangeStart q - start) in
  if (0 <? frontSkip) && (Z.of_nat (length data) <=? frontSkip) then None
  else
    let data := if 0 <? frontSkip then drop (Z.to_nat frontSkip) data else data in
    if isPartial q then
      let remain := i64 (span_of q - emitted o) in
      if remain <=? 0 then Some None
      else Some (Some (if remain <? Z.of_nat (length data) then take (Z.to_nat remain) data else data))
    else Some (Some data).

(** The session is kept alive, and drops what is behind the reader. *)
Definition after_chunk (q : request) (wi : nat) : W -> W * unit :=
  if raActive q then
    let! now := clock in
    let! _ := locked (fun s => (keep_alive now s, tt)) in
    locked (fun s => (drop_behind cfg (Z.of_nat wi) s, tt))
  else call_ret tt.

Fixpoint write_loop (q : request) (work : list (nat * Z)) (o : sent) : W -> W * (sent * option goerror) :=
  match work with
  | [] => call_ret (o, None)
  | (wi, start) :: work =>
      let! err := ctx_Err in
      check! err or o in
      let! hit := take_buffered q wi in
      let! warm := is_warm q wi hit o in
      let! res := match hit with Some data => call_ret (Ok data) | None => get_chunk wi end in
      match res with
      | Err err => call_ret (o, Some (stream_error "chunk fetch error" [err]))
      | Ok data =>
          match cut_chunk q start o data with
          | None => write_loop q work o
          | Some None => call_ret (o, None)
          | Some (Some data) =>
              let! (o, err) := write_chunk q warm data o in
              check! err or o in
              let! _ := after_chunk q wi in
              if isPartial q && (span_of q <=? emitted o) then call_ret (o, None)
              else write_loop q work o
          end
      end
  end.

(** ** The stream *)

Definition headers (q : request) (totalBytes : Z) : response :=
  if isPartial q
  then MkResponse 206 (Some (ContentRange (MkRange (rangeStart q) (rangeEnd q)) totalBytes)) (Some (itoa (span_of q)))
  else MkResponse 200 None (if 0 <? totalBytes then Some (itoa totalBytes) else None).

(** The session of the source is opened and its first chunks are waited for. *)
Definition begin_readahead (q : request) (polls : nat) (effectiveMinBuffer : Z) (maxWorkers steadyWorkers : option Z)
    (first : nat) (lenWork : Z) : W -> W * option goerror :=
  if raActive q then
    let! now := clock in
    let! _ := open_session (fun s => match s with
      | None => new_session cfg maxWorkers steadyWorkers (Z.of_nat first) now
      | Some s => reaim cfg (Z.of_nat first) now s
      end) in
    let! onDisk := if bool_decide (rq_mode q = ModeDisk) || bool_decide (rq_mode q = ModeFull) then on_disk first else call_ret false in
    if onDisk then call_ret None else wait_buffered polls effectiveMinBuffer lenWork
  else call_ret None.

Definition stream (refs : list ChunkRef) (mode : Mode) (totalBytes : Z) (rangeHeader : bytes) (minBuffer : Z) (corrected : list Z)
    (maxWorkers steadyWorkers : option Z) (playback : bool) (polls : nat) : W -> W * (sent * option goerror) :=
  let effectiveMinBuffer := if 0 <? minBuffer then minBuffer else MinBufferSegments cfg in
  if bool_decide (refs = []) then call_ret (nothing_sent, Some (stream_error "stream: source has no chunks" []))
  else
    let mode := if ValidMode mode then mode else ModeReadahead in
    let '(rStart, rEnd, partial) := parseRange rangeHeader totalBytes in
    if partial && ((totalBytes <=? 0) || (rStart <? 0) || (totalBytes <=? rStart) || (rEnd <? rStart))
    then call_ret (MkSent (Some (writeRangeNotSatisfiable totalBytes)) [] 0 [] None, Some (stream_error "unsatisfiable range" []))
    else
      let rEnd := if partial && (totalBytes <=? rEnd) then i64 (totalBytes - 1) else rEnd in
      let (starts, totalBytes) := chunk_starts refs corrected totalBytes in
      let work := overlapping rStart rEnd 0 refs starts in
      match work with
      | [] =>
          if partial
          then call_ret (MkSent (Some (writeRangeNotSatisfiable totalBytes)) [] 0 [] None, Some (stream_error "unsatisfiable range" []))
          else call_ret (nothing_sent, None)
      | (first, _) :: _ =>
          let q := MkRequest mode rStart rEnd partial (raActiveFor cfg mode) playback in
          let o := MkSent (Some (headers q totalBytes)) [] 0 [] None in
          let! err := begin_readahead q polls effectiveMinBuffer maxWorkers steadyWorkers first (Z.of_nat (length work)) in
          check! err or o in
          write_loop q work o
      end.
End Stream.

(** ** The content of the chunks *)

Definition start_of (D : list bytes) (i : nat) : nat := length (concat (take i D)).

Definition offsets (D : list bytes) : list Z := map (fun i => Z.of_nat (start_of D i)) (seq 0 (S (length D))).

Lemma start_of_S D i d : D !! i = Some d -> start_of D (S i) = (start_of D i + length d)%nat.
Proof. intros H. unfold start_of. rewrite (take_S_r _ _ _ H), concat_app, length_app. cbn. rewrite app_nil_r. lia. Qed.

Lemma start_of_le D i d : D !! i = Some d -> (start_of D i + length d <= length (concat D))%nat.
Proof.
  intros H. rewrite <-(start_of_S D i d H). unfold start_of. rewrite <-(take_drop (S i) D) at 2. rewrite concat_app, length_app. lia.
Qed.

(** The range of the content that the first chunks give. *)
Definition given (skip lim : nat) (D : list bytes) (i : nat) : bytes := take lim (drop skip (concat (take i D))).

Lemma given_S skip lim D i d : D !! i = Some d ->
  given skip lim D (S i) = given skip lim D i ++ take (lim - length (given skip lim D i)) (drop (skip - start_of D i) d).
Proof.
  intros H. unfold given, start_of. rewrite (take_S_r _ _ _ H), concat_app. cbn [concat]. rewrite app_nil_r, drop_app, take_app.
  f_equal. f_equal. rewrite length_take. lia.
Qed.

Lemma given_length skip lim D i : length (given skip lim D i) = Nat.min lim (start_of D i - skip).
Proof. unfold given, start_of. by rewrite length_take, length_drop. Qed.

Lemma given_all skip lim D i : (length D <= i)%nat -> given skip lim D i = take lim (drop skip (concat D)).
Proof. intros H. unfold given. by rewrite (take_ge D) by done. Qed.

Lemma given_prefix skip lim D i : given skip lim D i `prefix_of` take lim (drop skip (concat D)).
Proof.
  unfold given. replace (concat D) with (concat (take i D) ++ concat (drop i D)) by (by rewrite <-concat_app, take_drop).
  rewrite drop_app, take_app. by apply prefix_app_r.
Qed.

Lemma given_full skip lim D i : (lim <= length (given skip lim D i))%nat -> given skip lim D i = take lim (drop skip (concat D)).
Proof.
  intros H. destruct (given_prefix skip lim D i) as [r E]. rewrite E. destruct r as [|x r]; [by rewrite app_nil_r|].
  apply (f_equal length) in E. rewrite length_take, length_app in E. cbn in E. lia.
Qed.

Lemma overlapping_index rs re refs starts : forall i, Forall (fun x => (x.1 < i + length refs)%nat) (overlapping rs re i refs starts).
Proof.
  revert starts. induction refs as [|ref refs IH]; intros [|start starts] i; cbn [overlapping length]; try constructor.
  assert (H' : Forall (fun x : nat * Z => (x.1 < i + S (length refs))%nat) (overlapping rs re (S i) refs starts)).
  { eapply list.Forall_impl; [apply IH|]. cbn. intros x. lia. }
  destruct (_ || _); [done|]. constructor; [cbn; lia|done].
Qed.

(** ** Deliveries that tile a span *)

Fixpoint tiles (pos : Z) (l : list (Z * Z)) (stop : Z) : Prop :=
  match l with
  | [] => pos = stop
  | (offset, n) :: l => offset = pos /\ 0 < n /\ tiles (pos + n) l stop
  end.

Lemma tiles_snoc pos l mid n : tiles pos l mid -> 0 < n -> tiles pos (l ++ [(mid, n)]) (mid + n).
Proof.
  revert pos. induction l as [|[o m] l IH]; intros pos H Hn; cbn in *; [by subst|].
  destruct H as (-> & Hm & H). split_and!; [done..|]. by apply IH.
Qed.

(** ** What the world answers *)

Section Exact.
Context {W : Type} `{Context W} `{Player W} (cfg : Config) (D : list bytes).

Definition buffered (s : session) : Prop := forall i d, buf s !! Z.of_nat i = Some d -> D !! i = Some d.

(** Chunks that are answered or buffered are those of the content, and a client takes a
    part of what it is given. *)
Record honest : Prop := {
  h_get i w d : (get_chunk i w).2 = Ok d -> D !! i = Some d;
  h_locked A (f : session -> session * A) w : (forall s, buffered s -> buffered (f s).1) ->
    exists s, buffered s /\ (locked f w).2 = (f s).2;
  h_write data w : 0 <= (client_write data w).2.1 <= Z.of_nat (length data)
}.

(** Nothing fails. *)
Record willing : Prop := {
  w_ctx w : (ctx_Err w).2 = None;
  w_get i w : (i < length D)%nat -> exists d, (get_chunk i w).2 = Ok d;
  w_write data w : (client_write data w).2 = (Z.of_nat (length data), None)
}.

(** The chunks as they are declared: each at its place, at least as long as it is. *)
Record laid_out (refs : list ChunkRef) (starts : list Z) : Prop := {
  l_refs : length refs = length D;
  l_starts : starts = map (fun i => Z.of_nat (start_of D i)) (seq 0 (length D));
  l_size i ref d : refs !! i = Some ref -> D !! i = Some d -> Z.of_nat (length d) <= r_Size ref < 2 ^ 62
}.

Context (Hhonest : honest) (Hsmall : Z.of_nat (length (concat D)) < 2 ^ 62).

Section Loop.
Context (q : request) (lim : nat).
Context (Hstart : 0 <= rangeStart q <= rangeEnd q + 1) (Hend : rangeEnd q < 2 ^ 62).
Context (Hlim : if isPartial q then Z.of_nat lim = rangeEnd q - rangeStart q + 1 /\ rangeStart q <= rangeEnd q
  else lim = length (concat D) /\ rangeStart q = 0 /\ Z.of_nat (length (concat D)) <= rangeEnd q + 1).

Abbreviation skip := (Z.to_nat (rangeStart q)).
Abbreviation wanted := (take lim (drop skip (concat D))).
Abbreviation upto := (given skip lim D).

Lemma span_exact : isPartial q = true -> span_of q = Z.of_nat lim.
Proof.
  intros Hp. rewrite Hp in Hlim. destruct Hlim as [E _]. unfold span_of.
  rewrite (i64_small (rangeEnd q - rangeStart q)), i64_small; unfold is_i64, minInt64, maxInt64; lia.
Qed.

Record upto_date (i : nat) (o : sent) : Prop := {
  u_body : body o = upto i;
  u_emitted : emitted o = Z.of_nat (length (body o));
  u_tiles : tiles (rangeStart q) (deliveries o) (rangeStart q + emitted o)
}.

(** What is left of the answer. *)
Definition finishes (o : sent) (res : sent * option goerror) : Prop :=
  s_response res.1 = s_response o /\ body res.1 `prefix_of` wanted /\
  tiles (rangeStart q) (deliveries res.1) (rangeStart q + Z.of_nat (length (body res.1))) /\
  (res.2 = None -> body res.1 = wanted).

Lemma finish_early i o err : upto_date i o -> (err = None -> body o = wanted) -> finishes o (o, err).
Proof.
  intros [Hb He Ht] Hn. split_and!; [done|cbn; rewrite Hb; apply given_prefix|cbn; by rewrite <-He|done].
Qed.

Lemma lim_small : Z.of_nat lim <= 2 ^ 62.
Proof. destruct (isPartial q); destruct Hlim; lia. Qed.

Lemma skip_none i d start : D !! i = Some d -> start = Z.of_nat (start_of D i) ->
  (start + Z.of_nat (length d) <= rangeStart q \/ rangeEnd q < start) -> upto (S i) = upto i.
Proof.
  intros Hd -> Hor. rewrite (given_S _ _ _ _ _ Hd). pose proof (start_of_le D i d Hd) as Hle.
  destruct Hor as [Hor|Hor].
  - rewrite drop_ge by lia. by rewrite take_nil, app_nil_r.
  - destruct (isPartial q).
    + destruct Hlim as [El _]. rewrite given_length. replace (lim - _)%nat with 0%nat by lia. by rewrite take_0, app_nil_r.
    + destruct Hlim as (-> & E0 & Hall). assert (length d = 0)%nat as E by lia. apply nil_length_inv in E as ->.
      by rewrite drop_nil, take_nil, app_nil_r.
Qed.

(** What [cut_chunk] gives is what the chunk adds. *)
Lemma cut_chunk_adds i o d start : D !! i = Some d -> start = Z.of_nat (start_of D i) -> upto_date i o ->
  match cut_chunk q start o d with
  | None => upto (S i) = upto i
  | Some None => body o = wanted
  | Some (Some data) => upto (S i) = upto i ++ data
  end.
Proof.
  intros Hd -> [Hb He Ht]. pose proof (start_of_le D i d Hd) as Hle. pose proof lim_small as Hls. assert (Hspan := span_exact). unfold cut_chunk.
  rewrite (i64_small (rangeStart q - _)) by (unfold is_i64, minInt64, maxInt64; lia).
  destruct (Z.ltb_spec 0 (rangeStart q - Z.of_nat (start_of D i))) as [Hf|Hf]; cbn [andb].
  - destruct (Z.leb_spec (Z.of_nat (length d)) (rangeStart q - Z.of_nat (start_of D i))) as [Hg|Hg].
    { apply (skip_none i d (Z.of_nat (start_of D i))); [done..|]. left. lia. }
    assert (Es : (skip - start_of D i = Z.to_nat (rangeStart q - Z.of_nat (start_of D i)))%nat) by lia.
    rewrite (given_S _ _ _ _ _ Hd), Es. destruct (isPartial q) eqn:Ep.
    + rewrite Hspan, He, Hb by done. rewrite i64_small.
      2: { rewrite given_length. unfold is_i64, minInt64, maxInt64; lia. }
      destruct (Z.leb_spec (Z.of_nat lim - Z.of_nat (length (upto i))) 0); [apply given_full; lia|]. f_equal.
      destruct (Z.ltb_spec (Z.of_nat lim - Z.of_nat (length (upto i))) (Z.of_nat (length (drop (Z.to_nat (rangeStart q - Z.of_nat (start_of D i))) d)))).
      * f_equal. lia.
      * by rewrite take_ge by lia.
    + destruct Hlim as (-> & E0 & _). lia.
  - assert (Es : (skip - start_of D i = 0)%nat) by lia. rewrite (given_S _ _ _ _ _ Hd), Es, drop_0. destruct (isPartial q) eqn:Ep.
    + rewrite Hspan, He, Hb by done. rewrite i64_small.
      2: { rewrite given_length. unfold is_i64, minInt64, maxInt64; lia. }
      destruct (Z.leb_spec (Z.of_nat lim - Z.of_nat (length (upto i))) 0); [apply given_full; lia|]. f_equal.
      destruct (Z.ltb_spec (Z.of_nat lim - Z.of_nat (length (upto i))) (Z.of_nat (length d))); [f_equal; lia|by rewrite take_ge by lia].
    + destruct Hlim as (-> & E0 & _). rewrite given_length, take_ge; [done|]. lia.
Qed.

Lemma upto_date_S i o : upto_date i o -> upto (S i) = upto i -> upto_date (S i) o.
Proof. intros [Hb He Ht] E. split; [by rewrite E|done..]. Qed.

Lemma write_chunk_finishes i warm data o w : upto_date i o -> upto (S i) = upto i ++ data -> is_Some (D !! i) ->
  let res := (write_chunk q warm data o w).2 in
  s_response res.1 = s_response o /\ match res.2 with None => upto_date (S i) res.1 | Some _ => finishes o res end.
Proof.
  intros Hu Hup [d Hd] res. pose proof (start_of_le D i d Hd) as Hle. pose proof lim_small as Hls.
  assert (Hpre : upto (S i) `prefix_of` wanted) by apply given_prefix.
  assert (Hlen := f_equal length Hup). rewrite length_app in Hlen. pose proof (given_length skip lim D (S i)) as Hgl.
  rewrite (start_of_S D i d Hd) in Hgl. pose proof (given_length skip lim D i) as Hgi.
  destruct Hu as [Hb He Ht] eqn:Eu. clear Eu. assert (Hbl : emitted o = Z.of_nat (length (upto i))) by (by rewrite He, Hb).
  unfold res, write_chunk. destruct (Z.leb_spec (Z.of_nat (length data)) 0) as [Hz|Hz].
  { split; [done|]. cbn. assert (data = []) as -> by (apply nil_length_inv; lia). rewrite app_nil_r in Hup. by apply (upto_date_S i). }
  unfold call_bind. pose proof (h_write Hhonest data w) as Hw. destruct (client_write data w) as [w1 [n err]]. cbn [snd fst] in Hw.
  rewrite (i64_small (rangeStart q + emitted o)) by (unfold is_i64, minInt64, maxInt64; lia).
  set (dl := if 0 <? n then _ else _).
  assert (Hdl : tiles (rangeStart q) dl (rangeStart q + emitted o + n)).
  { unfold dl. destruct (Z.ltb_spec 0 n); [by apply tiles_snoc|]. replace n with 0 by lia. by rewrite Z.add_0_r. }
  assert (Hpart : finishes o (MkSent (s_response o) (body o ++ take (Z.to_nat n) data) (emitted o) dl (firstByte o), Some (stream_error "" []))).
  { split_and!; [done| | |done]; cbn [fst body deliveries].
    - rewrite Hb. etrans; [|exact Hpre]. rewrite Hup. exists (drop (Z.to_nat n) data). by rewrite <-app_assoc, take_drop.
    - replace (rangeStart q + Z.of_nat _) with (rangeStart q + emitted o + n); [done|].
      rewrite length_app, length_take, Nat.min_l, He by lia. lia. }
  destruct Hpart as (P1 & P2 & P3 & _).
  destruct err as [err|]; [split; [done|split_and!; done]|]. destruct (Z.eqb_spec n (Z.of_nat (length data))) as [->|Hne]; cbn [negb].
  - split; [done|]. split; cbn [call_ret fst snd body emitted deliveries].
    + by rewrite Hup, Hb, Nat2Z.id, firstn_all.
    + rewrite i64_small by (unfold is_i64, minInt64, maxInt64; lia). rewrite length_app, Nat2Z.id, firstn_all. lia.
    + rewrite i64_small by (unfold is_i64, minInt64, maxInt64; lia). by rewrite Z.add_assoc.
  - split; [done|]. split_and!; done.
Qed.

Lemma finishes_response o o' res : s_response o' = s_response o -> finishes o' res -> finishes o res.
Proof. unfold finishes. intros ->. done. Qed.

Lemma take_buffered_content wi w d : (take_buffered q wi w).2 = Some d -> D !! wi = Some d.
Proof.
  unfold take_buffered. destruct (raActive q); [|done]. unfold call_bind. destruct (locked _ w) as [w1 []].
  destruct (h_locked Hhonest _ (take_chunk (Z.of_nat wi)) w1) as (s & Hs & E).
  - intros s Hs i d' Hi. unfold take_chunk in Hi. destruct (buf s !! Z.of_nat wi); [|by apply Hs].
    cbn in Hi. apply lookup_delete_Some in Hi as [_ Hi]. by apply Hs.
  - rewrite E. unfold take_chunk. destruct (buf s !! Z.of_nat wi) eqn:Eb; [|done]. cbn. intros [= <-]. by apply Hs.
Qed.

Lemma loop_finishes refs : forall i o w,
  (forall k ref, refs !! k = Some ref -> exists d, D !! (i + k)%nat = Some d /\ Z.of_nat (length d) <= r_Size ref < 2 ^ 62) ->
  (i + length refs)%nat = length D -> upto_date i o ->
  finishes o (write_loop cfg q (overlapping (rangeStart q) (rangeEnd q) i refs (map (fun i => Z.of_nat (start_of D i)) (seq i (length refs)))) o w).2.
Proof.
  induction refs as [|ref refs IH]; intros i o w Hrefs Hn Hu; cbn [overlapping length seq map].
  { apply (finish_early i); [done|]. intros _. rewrite (u_body _ _ Hu). apply given_all. cbn in Hn. lia. }
  destruct (Hrefs 0%nat ref eq_refl) as (d & Hd & Hsize). rewrite Nat.add_0_r in Hd.
  assert (Hrest : forall k ref, refs !! k = Some ref -> exists d, D !! (S i + k)%nat = Some d /\ Z.of_nat (length d) <= r_Size ref < 2 ^ 62).
  { intros k ref' Hk. destruct (Hrefs (S k) ref' Hk) as (d' & Hd' & ?). exists d'. by rewrite <-Nat.add_succ_comm in Hd'. }
  assert (Hn' : (S i + length refs)%nat = length D) by (cbn in Hn; lia).
  pose proof (start_of_le D i d Hd) as Hle. rewrite i64_small by (unfold is_i64, minInt64, maxInt64; lia).
  destruct ((Z.of_nat (start_of D i) + r_Size ref <=? rangeStart q) || (rangeEnd q <? Z.of_nat (start_of D i))) eqn:Ex.
  { apply IH; [done..|]. apply upto_date_S; [done|]. apply (skip_none i d _ Hd eq_refl). apply orb_true_iff in Ex as [E|E]; [apply Z.leb_le in E; left; lia|apply Z.ltb_lt in E; by right]. }
  cbn [write_loop]. unfold call_bind at 1. destruct (ctx_Err w) as [w1 [err|]]; [by apply (finish_early i)|].
  unfold call_bind at 1. pose proof (take_buffered_content i w1) as Hhit. destruct (take_buffered q i w1) as [w2 hit]. cbn [snd] in Hhit.
  unfold call_bind at 1. destruct (is_warm q i hit o w2) as [w3 warm]. unfold call_bind at 1.
  assert (Hres : forall w d', ((match hit with Some data => call_ret (Ok data) | None => get_chunk i end) w).2 = Ok d' -> D !! i = Some d').
  { destruct hit as [d0|]; [intros w' d' [= ->]; by apply Hhit|]. intros w' d'. apply (h_get Hhonest). }
  specialize (Hres w3). destruct ((match hit with Some data => call_ret (Ok data) | None => get_chunk i end) w3) as [w4 [data|err]]; [|by apply (finish_early i)].
  specialize (Hres data eq_refl). rewrite Hd in Hres. injection Hres as ->.
  pose proof (cut_chunk_adds i o data _ Hd eq_refl Hu) as Hcut. destruct (cut_chunk q _ o data) as [[piece|]|].
  - unfold call_bind at 1. pose proof (write_chunk_finishes i warm piece o w4 Hu Hcut ltac:(by eexists)) as [Hr Hf].
    destruct (write_chunk q warm piece o w4) as [w5 [o' err]]. cbn [fst snd] in Hr, Hf. destruct err as [err|]; [done|].
    cbn beta iota. unfold call_bind at 1. destruct (after_chunk cfg q i w5) as [w6 []].
    destruct (isPartial q && (span_of q <=? emitted o')) eqn:Edone.
    + apply (finishes_response o o'); [done|]. apply (finish_early (S i)); [done|]. intros _. rewrite (u_body _ _ Hf). apply given_full.
      bool_hyps. rewrite span_exact in * by done. rewrite <-(u_body _ _ Hf). pose proof (u_emitted _ _ Hf). lia.
    + apply (finishes_response o o'); [done|]. by apply IH.
  - apply (finish_early i); done.
  - apply IH; [done..|]. by apply upto_date_S.
Qed.
End Loop.

(** ** When nothing fails *)

Lemma willing_loop (Hw : willing) q work : Forall (fun x => (x.1 < length D)%nat) work ->
  forall o w, (write_loop cfg q work o w).2.2 = None.
Proof.
  induction work as [|[wi start] work IH]; intros Hf o w; [done|]. apply list.Forall_cons in Hf as [Hi Hf]. cbn [fst] in Hi.
  cbn [write_loop]. unfold call_bind at 1. pose proof (w_ctx Hw w) as Hc. destruct (ctx_Err w) as [w1 err]. cbn in Hc. subst err.
  unfold call_bind at 1. destruct (take_buffered q wi w1) as [w2 hit]. unfold call_bind at 1. destruct (is_warm q wi hit o w2) as [w3 warm].
  unfold call_bind at 1. assert (Hres : exists d, ((match hit with Some data => call_ret (Ok data) | None => get_chunk wi end) w3).2 = Ok d).
  { destruct hit as [d|]; [by exists d|by apply (w_get Hw)]. }
  destruct Hres as [d Hd]. destruct ((match hit with Some data => call_ret (Ok data) | None => get_chunk wi end) w3) as [w4 res].
  cbn in Hd. subst res. destruct (cut_chunk q start o d) as [[piece|]|]; [|done|by apply IH].
  unfold call_bind at 1. assert (Hwc : (write_chunk q warm piece o w4).2.2 = None).
  { unfold write_chunk. destruct (_ <=? 0); [done|]. unfold call_bind. pose proof (w_write Hw piece w4) as E.
    destruct (client_write piece w4) as [w5 [n err]]. cbn in E. injection E as -> ->. by rewrite Z.eqb_refl. }
  destruct (write_chunk q warm piece o w4) as [w5 [o' err]]. cbn in Hwc. subst err. cbn beta iota.
  unfold call_bind at 1. destruct (after_chunk cfg q wi w5) as [w6 []]. destruct (_ && _); [done|by apply IH].
Qed.

Lemma willing_begin (Hw : willing) q polls mb mw sw first len w : (begin_readahead cfg q polls mb mw sw first len w).2 = None.
Proof.
  assert (Hwait : forall w, (wait_buffered polls mb len w).2 = None).
  { induction polls as [|polls IH]; intros w'; cbn [wait_buffered]; [done|]. unfold call_bind at 1. destruct (locked _ w') as [w1 count].
    destruct (_ || _); [done|]. unfold call_bind. destruct (wait_tick w1) as [w2 []]; [apply IH|done|apply (w_ctx Hw)]. }
  unfold begin_readahead. destruct (raActive q); [|done]. unfold call_bind at 1. destruct (clock w) as [w1 now].
  unfold call_bind at 1. destruct (open_session _ w1) as [w2 []]. unfold call_bind. destruct (_ || _).
  - destruct (on_disk first w2) as [w3 []]; [done|apply Hwait].
  - apply Hwait.
Qed.

(** ** The starts *)

Lemma declared_exact refs k : (k + length refs)%nat = length D ->
  (forall i ref, refs !! i = Some ref -> exists d, D !! (k + i)%nat = Some d /\ r_Size ref = Z.of_nat (length d)) ->
  declared_starts (Z.of_nat (start_of D k)) refs = map (fun i => Z.of_nat (start_of D i)) (seq k (length refs)).
Proof.
  revert k. induction refs as [|ref refs IH]; intros k Hl Hr; cbn [declared_starts length seq map]; [done|]. f_equal.
  destruct (Hr 0%nat ref eq_refl) as (d & Hd & Es). rewrite Nat.add_0_r in Hd. pose proof (start_of_le D k d Hd).
  rewrite Es, i64_small by (unfold is_i64, minInt64, maxInt64; lia). rewrite <-Nat2Z.inj_add, <-(start_of_S D k d Hd). apply IH.
  - cbn in Hl. lia.
  - intros i ref' Hi. destruct (Hr (S i) ref' Hi) as (d' & Hd' & ?). exists d'. by rewrite <-Nat.add_succ_comm in Hd'.
Qed.

Lemma offsets_split : offsets D = map (fun i => Z.of_nat (start_of D i)) (seq 0 (length D)) ++ [Z.of_nat (length (concat D))].
Proof. unfold offsets. rewrite seq_S, map_app. cbn. unfold start_of at 2. by rewrite firstn_all. Qed.

Lemma starts_exact refs corrected total : length refs = length D -> Z.of_nat (length (concat D)) <= total ->
  corrected = offsets D \/ (length corrected <> S (length refs) /\
    forall i ref d, refs !! i = Some ref -> D !! i = Some d -> r_Size ref = Z.of_nat (length d)) ->
  chunk_starts refs corrected total = (map (fun i => Z.of_nat (start_of D i)) (seq 0 (length refs)), total).
Proof.
  intros Hl Ht [->|[Hne Hs]]; unfold chunk_starts.
  - rewrite offsets_split, length_app, length_map, length_seq, Hl. cbn [length]. rewrite Nat.add_1_r, Nat.eqb_refl.
    rewrite last_last. rewrite take_app_length' by (by rewrite length_map, length_seq). destruct (Z.ltb_spec total (Z.of_nat (length (concat D)))); [lia|done].
  - destruct (Nat.eqb_spec (length corrected) (S (length refs))); [done|]. f_equal. apply (declared_exact refs 0); [done|].
    intros i ref Hi. destruct (lookup_lt_is_Some_2 D i) as [d Hd]; [rewrite <-Hl; by eapply lookup_lt_Some|]. exists d. split; [done|]. by eapply Hs.
Qed.
End Exact.

(** ** Reading the range header *)

Lemma parseRange_whole header total : 0 <= total < 2 ^ 62 ->
  match parseRange header total with (rs, re, partial) => partial = false -> rs = 0 /\ re = total - 1 end.
Proof.
  intros Ht. assert (Hi : i64 (total - 1) = total - 1) by (apply i64_small; unfold is_i64, minInt64, maxInt64; lia).
  unfold parseRange. rewrite Hi. repeat match goal with
  | |- context [if ?b then _ else _] => destruct b
  | |- context [match ?o with Some _ => _ | None => _ end] => destruct o
  end; done.
Qed.

(** The end that is used: not past the object. *)
Definition clip (total re : Z) : Z := if total <=? re then total - 1 else re.

Lemma parseRange_select s total : spec_ok s -> s <> Suffix 0 -> 0 < total < 2 ^ 62 ->
  match parseRange (bytes_unit ++ render s) total with
  | (rs, re, partial) => partial = true /\
      match select s total with
      | Some r => rs = Start r /\ clip total re = End r /\ 0 <= rs < total /\ rs <= re
      | None => rs < 0 \/ total <= rs \/ re < rs
      end
  end.
Proof.
  intros Hs Hz Ht. assert (Hi : i64 (total - 1) = total - 1) by (apply i64_small; unfold is_i64, minInt64, maxInt64; lia).
  unfold parseRange. rewrite bool_decide_false by (by destruct s). rewrite prefix_app. cbn [orb negb].
  rewrite drop_app_length, Hi. unfold clip. destruct s as [a b|a|n]; cbn [render select spec_ok] in *.
  - destruct (split_dash (dec a) (dec b)) as (-> & -> & ->); [apply dec_no; [lia|done]|].
    rewrite !dec_not_nil, !ParseInt_dec64 by lia. split; [done|].
    destruct (Z.ltb_spec a total), (Z.leb_spec a b), (Z.leb_spec total b); cbn [andb Start End]; lia.
  - destruct (split_dash (dec a) []) as (-> & -> & ->); [apply dec_no; [lia|done]|].
    rewrite dec_not_nil, ParseInt_dec64 by lia. rewrite bool_decide_true by done. split; [done|].
    destruct (Z.ltb_spec a total), (Z.leb_spec total (total - 1)); cbn [Start End]; lia.
  - destruct (split_dash [] (dec n)) as (E1 & E2 & E3); [by apply not_elem_of_nil|]. cbn [app] in *. rewrite E1, E2, E3.
    rewrite bool_decide_true by done. rewrite dec_not_nil, ParseInt_dec64 by lia.
    assert (n <> 0) by (intros ->; done). destruct (Z.leb_spec n 0), (Z.ltb_spec 0 n); try lia.
    rewrite i64_small by (unfold is_i64, minInt64, maxInt64 in *; lia). split; [done|]. cbn [Start End].
    destruct (Z.ltb_spec (total - n) 0), (Z.leb_spec total (total - 1)); lia.
Qed.

(** ** Properties *)

(** C3. A stream is the range, byte for byte.  Take chunks whose declared sizes are exact, or
    corrected offsets under declared sizes that are no smaller than the chunks, and a total
    that covers the content.  Whatever fails, what the client got is a prefix of the bytes
    the header selects, and the deliveries reported to the coverage tracker tile exactly
    what it got; without an error it got all of them.  An unsatisfiable range gets a 416
    and no bytes.  When the total is exact and nothing fails the stream succeeds, whether
    the chunks come from the readahead buffer or from the cache, with the status, the
    Content-Range and the Content-Length of exactly the bytes sent.  A header of each form
    selects what its form asks for. *)
Theorem stream_exact {W} `{Context W} `{Player W} cfg D refs mode total header minBuffer corrected mw sw playback polls w :
  honest D -> length refs = length D -> refs <> [] -> Z.of_nat (length (concat D)) <= total < 2 ^ 62 ->
  (forall i ref d, refs !! i = Some ref -> D !! i = Some d -> Z.of_nat (length d) <= r_Size ref < 2 ^ 62) ->
  corrected = offsets D \/ (length corrected <> S (length refs) /\
    forall i ref d, refs !! i = Some ref -> D !! i = Some d -> r_Size ref = Z.of_nat (length d)) ->
  (forall s, spec_ok s -> s <> Suffix 0 -> 0 < total ->
    match parseRange (bytes_unit ++ render s) total with
    | (rs, re, partial) => partial = true /\
        match select s total with
        | Some r => rs = Start r /\ clip total re = End r /\ 0 <= rs < total /\ rs <= re
        | None => rs < 0 \/ total <= rs \/ re < rs
        end
    end) /\
  let '(rs, re, partial) := parseRange header total in
  let '(r, err) := (stream cfg refs mode total header minBuffer corrected mw sw playback polls w).2 in
  let wanted := if partial then take (Z.to_nat (clip total re - rs + 1)) (drop (Z.to_nat rs) (concat D)) else concat D in
  if partial && ((total <=? 0) || (rs <? 0) || (total <=? rs) || (re <? rs))
  then s_response r = Some (writeRangeNotSatisfiable total) /\ body r = [] /\ err <> None
  else
    body r `prefix_of` wanted /\ tiles rs (deliveries r) (rs + Z.of_nat (length (body r))) /\ (err = None -> body r = wanted) /\
    (willing D -> total = Z.of_nat (length (concat D)) -> err = None /\
      (wanted <> [] -> s_response r = Some (
        if partial then MkResponse 206 (Some (ContentRange (MkRange rs (clip total re)) total)) (Some (itoa (Z.of_nat (length (body r)))))
        else MkResponse 200 None (Some (itoa (Z.of_nat (length (body r)))))))).
Proof.
  intros Hh Hl Hne Ht Hsize Hcor. split; [intros s Hs Hz Hp; apply parseRange_select; [done..|lia]|].
  pose proof (parseRange_whole header total ltac:(lia)) as Hwhole. destruct (parseRange header total) as [[rs re] partial] eqn:Ep.
  unfold stream. rewrite bool_decide_false by done. rewrite Ep.
  destruct (partial && ((total <=? 0) || (rs <? 0) || (total <=? rs) || (re <? rs))) eqn:Ebad; [done|].
  rewrite (i64_small (total - 1)) by (unfold is_i64, minInt64, maxInt64; lia).
  set (rEnd := if partial && (total <=? re) then total - 1 else re).
  assert (HrEnd : rEnd = if partial then clip total re else total - 1).
  { unfold rEnd, clip. destruct partial; [done|]. by destruct (Hwhole eq_refl) as [_ ->]. }
  rewrite (starts_exact D) by (done || lia).
  set (mode' := if ValidMode mode then mode else ModeReadahead).
  set (q := MkRequest mode' rs rEnd partial (raActiveFor cfg mode') playback).
  set (o := MkSent (Some (headers q total)) [] 0 [] None).
  set (wanted := if partial then _ else concat D).
  set (lim := if partial then Z.to_nat (rEnd - rs + 1) else length (concat D)).
  assert (Hrs : 0 <= rs <= rEnd + 1 /\ rEnd < 2 ^ 62 /\ (partial = true -> rs <= rEnd)).
  { destruct partial; [|destruct (Hwhole eq_refl) as [-> _]; rewrite HrEnd; lia]. cbn [andb] in Ebad. bool_hyps.
    rewrite HrEnd. unfold clip. destruct (Z.leb_spec total re); lia. }
  assert (Hlim : if partial then Z.of_nat lim = rEnd - rs + 1 /\ rs <= rEnd
    else lim = length (concat D) /\ rs = 0 /\ Z.of_nat (length (concat D)) <= rEnd + 1).
  { unfold lim. destruct partial; [destruct Hrs as (? & ? & Hr); specialize (Hr eq_refl); lia|].
    destruct (Hwhole eq_refl) as [-> _]. rewrite HrEnd. lia. }
  assert (Hwanted : take lim (drop (Z.to_nat rs) (concat D)) = wanted).
  { unfold wanted, lim. destruct partial; [by rewrite HrEnd|]. destruct (Hwhole eq_refl) as [-> _]. by rewrite drop_0, firstn_all. }
  assert (Hloop : forall w, finishes D q lim o (write_loop cfg q (overlapping rs rEnd 0 refs
    (map (fun i => Z.of_nat (start_of D i)) (seq 0 (length refs)))) o w).2).
  { intros w'. apply (loop_finishes cfg D Hh ltac:(lia) q lim ltac:(cbn; lia) ltac:(cbn; lia) Hlim).
    - intros k ref Hk. destruct (lookup_lt_is_Some_2 D k) as [d Hd]; [rewrite <-Hl; by eapply lookup_lt_Some|].
      exists d. split; [done|]. by eapply Hsize.
    - done.
    - split; [|done|cbn; lia]. cbn. unfold given. rewrite take_0. cbn [concat]. by rewrite drop_nil, take_nil. }
  pose proof (overlapping_index rs rEnd refs (map (fun i => Z.of_nat (start_of D i)) (seq 0 (length refs))) 0) as Hidx.
  assert (Hhead : forall n, Z.of_nat (length (concat D)) = total -> wanted <> [] -> n = Z.of_nat (length wanted) ->
    headers q total = if partial then MkResponse 206 (Some (ContentRange (MkRange rs (clip total re)) total)) (Some (itoa n)) else MkResponse 200 None (Some (itoa n))).
  { assert (Hspan : partial = true -> Z.of_nat (length (concat D)) = total -> span_of q = Z.of_nat (length wanted)).
    { intros Hp Etot. rewrite (span_exact D q lim ltac:(cbn; lia) ltac:(cbn; lia) Hlim) by done.
      rewrite <-Hwanted, length_take, length_drop. clearbody wanted lim. subst partial. unfold clip in HrEnd. destruct Hrs as (? & ? & Hr). specialize (Hr eq_refl).
      destruct (Z.leb_spec total re); lia. }
    assert (Hfull : partial = false -> wanted = concat D) by (unfold wanted; by intros ->).
    intros n Etot Hw ->. clearbody wanted. unfold headers. cbn [q isPartial rangeStart rangeEnd]. fold q. destruct partial.
    - by rewrite HrEnd, Hspan by done.
    - rewrite Hfull in * by done. destruct (Z.ltb_spec 0 total); [by rewrite Etot|]. destruct Hw. apply nil_length_inv. lia. }
  destruct (overlapping rs rEnd 0 refs _) as [|[first start] work] eqn:Ework.
  - assert (Hnil : wanted = []).
    { destruct (Hloop w) as (_ & _ & _ & Hb). specialize (Hb eq_refl). cbn in Hb. by rewrite <-Hwanted, <-Hb. }
    assert (Hsome : partial = true -> Z.of_nat (length (concat D)) = total -> wanted <> []).
    { intros Hp Etot Hw. apply (f_equal length) in Hw. rewrite <-Hwanted, length_take, length_drop in Hw. cbn [length] in Hw.
      clear Hhead Hloop Hnil. clearbody wanted lim. subst partial. unfold clip in HrEnd. destruct Hrs as (? & ? & Hr). specialize (Hr eq_refl).
      destruct (Z.leb_spec total re); lia. }
    clear Hhead. clearbody wanted. subst wanted.
    destruct partial; cbn [call_ret snd s_response body deliveries nothing_sent length tiles]; rewrite ?Z.add_0_r;
      (split; [apply prefix_nil|split; [done|split; [done|]]]).
    + intros _ Etot. by destruct (Hsome eq_refl).
    + intros _ _. split; [done|]. intros Hx. by destruct Hx.
  - unfold call_bind at 1. pose proof (willing_begin cfg D) as Hbegin.
    specialize (fun Hw => Hbegin Hw q polls (if 0 <? minBuffer then minBuffer else MinBufferSegments cfg) mw sw first (Z.of_nat (length ((first, start) :: work))) w).
    destruct (begin_readahead _ _ _ _ _ _ _ _ w) as [w1 berr]. cbn [snd] in Hbegin. destruct berr as [berr|]; cbn beta iota.
    + cbn [call_ret snd o body s_response deliveries length]. split_and!; [apply prefix_nil|cbn; lia|done|].
      intros Hw. by specialize (Hbegin Hw).
    + destruct (Hloop w1) as (Hr & Hp & Htl & Hb).
      pose proof (fun Hw => willing_loop cfg D Hw q ((first, start) :: work)) as Hwl. rewrite Hl in Hidx.
      specialize (fun Hw => Hwl Hw Hidx o w1). destruct (write_loop cfg q ((first, start) :: work) o w1) as [w2 [r err]].
      cbn [fst snd] in *. change (rangeStart q) with rs in *. rewrite Hwanted in Hp, Hb. split_and!; try done. intros Hw Etot. specialize (Hwl Hw). subst err. split; [done|].
      intros Hwn. rewrite Hr. cbn [o s_response]. f_equal. apply Hhead; [by symmetry|done|by rewrite Hb].
Qed.

(** ** What a stream does not promise *)

(** A world of one session, whose cache answers the same each time, and a client that
    takes everything. *)
Record studio := MkStudio { the_session : session; the_chunks : list (result goerror bytes) }.

#[local] Instance studio_context : Context studio := { ctx_Err w := (w, None) }.
#[local] Instance studio_player : Player studio := {
  get_chunk i w := (w, default (Err (Error (TPlain (str "no chunk")) [])) (the_chunks w !! i));
  on_disk i w := (w, false);
  client_write data w := (w, (Z.of_nat (length data), None));
  open_session f w := (MkStudio (f (Some (the_session w))) (the_chunks w), tt);
  locked A f w := let (s, a) := f (the_session w) in (MkStudio s (the_chunks w), a);
  wait_tick w := (w, TimedOut);
  clock w := (w, 0)
}.

Definition prefetched_seven : session := MkSession {[0 := [7]]} ∅ 0 0 1 1 1 0.
Definition reading : Config := with_defaults (MkConfig true 0 0 0 false 0 0 0 [] [] 0 0 0).

(** A source whose validator rejects every chunk. *)
Definition rejected : goerror := Error (TPlain (str "rejected")) [].
Definition suspect : ChunkSource := MkSource (str "s") None None (Some (fun _ _ => Some rejected)) (fun _ _ r => r = seven_answer).

(** What a stream does not promise.  In readahead mode a chunk that the source's validator
    rejects is served all the same when it was prefetched: the cache refuses it, the
    prefetch does not ask.  And when the corrected offsets exceed the declared total, a
    full request announces the corrected length but leaves out the chunks that start past
    the declared one, and reports no error. *)
Theorem stream_limits :
  (forall ref, visible suspect ref [7] = Err rejected /\
    exists f, PrefetchChunk suspect ModeReadahead ref = inr f /\ f seven_answer = seven_answer) /\
  (stream reading [MkRef 0 (str "0") 1] ModeReadahead 1 [] 1 [] None None false 9 (MkStudio prefetched_seven [Err rejected])).2 =
    (MkSent (Some (MkResponse 200 None (Some (itoa 1)))) [7] 1 [(0, 1)] None, None) /\
  (stream reading [MkRef 0 (str "0") 1; MkRef 1 (str "1") 2] ModeNone 1 [] 1 [0; 1; 3] None None false 9
      (MkStudio prefetched_seven [Ok [1]; Ok [2; 3]])).2 =
    (MkSent (Some (MkResponse 200 None (Some (itoa 3)))) [1] 1 [(0, 1)] None, None).
Proof.
  split_and!; [|vm_compute; reflexivity..]. intros ref. split; [done|]. eexists. split; [done|]. done.
Qed.

(** ** A witness *)

(** A world whose buffer only ever holds chunks of the content. *)
Definition film : list bytes := [[1; 2]; [3]].
Definition of_film (s : session) : session :=
  set_buf s (filter (fun kd => film !! Z.to_nat kd.1 = Some kd.2) (buf s)).

Record screen := MkScreen { screen_session : session }.
#[local] Instance screen_context : Context screen := { ctx_Err w := (w, None) }.
#[local] Instance screen_player : Player screen := {
  get_chunk i w := (w, match film !! i with Some d => Ok d | None => Err (Error (TPlain (str "no chunk")) []) end);
  on_disk i w := (w, false);
  client_write data w := (w, (Z.of_nat (length data), None));
  open_session f w := (MkScreen (f (Some (screen_session w))), tt);
  locked A f w := let (s, a) := f (of_film (screen_session w)) in (MkScreen s, a);
  wait_tick w := (w, TimedOut);
  clock w := (w, 0)
}.

Lemma film_honest : honest (W := screen) film.
Proof.
  split.
  - intros i w d. cbn. destruct (film !! i); [|done]. by intros [= ->].
  - intros A f w _. exists (of_film (screen_session w)). split.
    + intros i d Hi. cbn in Hi. apply map_lookup_filter_Some in Hi as [_ Hi]. cbn in Hi. by rewrite Nat2Z.id in Hi.
    + cbn. by destruct (f _).
  - intros data w. cbn. lia.
Qed.

Lemma film_willing : willing (W := screen) film.
Proof.
  split; [done| |done]. intros i w Hi. cbn. destruct (lookup_lt_is_Some_2 film i Hi) as [d Hd]. exists d. by rewrite Hd.
Qed.

Definition film_refs : list ChunkRef := [MkRef 0 (str "0") 3; MkRef 1 (str "1") 2].
Definition film_header : bytes := str "bytes=1-".
Definition film_screen : screen := MkScreen (MkSession {[1 := [3]]} ∅ 0 0 1 1 1 0).
Definition film_stream : sent * option goerror :=
  (stream reading film_refs ModeReadahead 3 film_header 1 [0; 2; 3] None None true 9 film_screen).2.

Lemma film_sizes i ref d : film_refs !! i = Some ref -> film !! i = Some d -> Z.of_nat (length d) <= r_Size ref < 2 ^ 62.
Proof. destruct i as [|[|i]]; cbn; intros Hr Hd; [injection Hr as <-; injection Hd as <-; cbn; lia..|done]. Qed.

Lemma film_range : parseRange film_header 3 = (1, 2, true).
Proof. vm_compute. reflexivity. Qed.

Lemma stream_exact_witness :
  film_stream = (MkSent (Some (MkResponse 206 (Some (str "bytes 1-2/3")) (Some (str "2")))) [2; 3] 2 [(1, 1); (2, 1)] (Some false), None) /\
  body film_stream.1 = take 2 (drop 1 (concat film)).
Proof.
  split; [vm_compute; reflexivity|].
  destruct (stream_exact reading film film_refs ModeReadahead 3 film_header 1 [0; 2; 3] None None true 9 film_screen
    film_honest eq_refl ltac:(done) ltac:(cbn; lia) film_sizes (or_introl eq_refl)) as [_ H].
  rewrite film_range in H. fold film_stream in H. destruct film_stream as [r err].
  destruct H as (_ & _ & Hb & Hw). apply Hb. by destruct (Hw film_willing eq_refl).
Defined.
