(* ===== verification/YEnc.v ===== *)
(** The yEnc decoder: internal/nntp/yenc.go.

    A body is the bytes a reader gives and the error it ends with.  The scanner of
    the standard library is modelled by what the code asks of it: lines without
    their end, up to a length.  The context is polled before every line. *)

From Stdlib Require Import ZArith Lia.
From stdpp Require Import base list numbers strings sets.
From S2P Require Import Prelude Outcome ContentProof Bencode Torrentmeta Text.

Local Open Scope Z_scope.
Local Open Scope harbor_scope.

Definition yEncMaxLineBytes : Z := Z.shiftl 1 20.
Definition yEncMaxEncodedBytes : Z := Z.shiftl 80 20.
Definition yEncMaxDecodedBytes : Z := Z.shiftl 64 20.

Definition errYEncUndrained : goerror := errors_New (str "nntp: yenc: response not fully drained").
Definition undrained (causes : list goerror) : goerror := Error (TPlain []) (errYEncUndrained :: causes).
Definition yenc_error (msg : string) : goerror := errors_New (str "nntp: yenc: " ++ str msg).

(** ** Bytes *)

(** Go's remainder, brought into the range of a byte. *)
Definition byte_mod (n : Z) : Z :=
  let val := Z.rem n 256 in
  if val <? 0 then val + 256 else val.

Fixpoint decodeYEncBytes (out line : bytes) : bytes :=
  match line with
  | [] => out
  | b :: rest =>
      match rest with
      | n :: rest' =>
          if b =? 61 then decodeYEncBytes (out ++ [byte_mod (n - 64 - 42)]) rest'
          else decodeYEncBytes (out ++ [byte_mod (b - 42)]) rest
      | [] => decodeYEncBytes (out ++ [byte_mod (b - 42)]) rest
      end
  end.

Definition decodeYEncLine (line : bytes) : bytes := decodeYEncBytes [] line.

(** ** Fields *)

(** [bytes.Fields]: the runs between spaces, which are those of [unicode.IsSpace]. *)
Fixpoint fields_from (fuel : nat) (field : bytes) (s : bytes) : list bytes :=
  let flush := if bool_decide (field = []) then [] else [field] in
  match fuel with
  | O => flush
  | S fuel =>
      match s with
      | [] => flush
      | c :: rest =>
          match strip_one space_encodings s with
          | Some rest => flush ++ fields_from fuel [] rest
          | None => fields_from fuel (field ++ [c]) rest
          end
      end
  end.

Definition Fields (s : bytes) : list bytes := fields_from (S (length s)) [] s.

Fixpoint int_field (prefix : bytes) (fields : list bytes) : Z * bool :=
  match fields with
  | [] => (0, false)
  | field :: fields =>
      if has_prefix prefix field then
        match ParseInt (drop (length prefix) field) 64 with
        | Some n => (n, 0 <=? n)
        | None => (0, false)
        end
      else int_field prefix fields
  end.

Definition yEncIntField (line : bytes) (name : string) : Z * bool := int_field (str name ++ [61]) (Fields line).

(** [strings.Index]: what follows the first occurrence. *)
Fixpoint after (p s : bytes) : option bytes :=
  if has_prefix p s then Some (drop (length p) s)
  else match s with [] => None | _ :: s => after p s end.

(** The text before the first of the characters of [IndexAny]. *)
Fixpoint before_space (s : bytes) : bytes :=
  match s with
  | [] => []
  | c :: s => if bool_decide (c ∈ [32; 9; 13; 10]) then [] else c :: before_space s
  end.

Fixpoint hex_number (acc : Z) (s : bytes) : option Z :=
  match s with
  | [] => Some acc
  | c :: s => match hex_value c with Some d => hex_number (16 * acc + d) s | None => None end
  end.

(** The loop over the prefixes of the checksum field. *)
Fixpoint crc_field (prefixes : list bytes) (line : bytes) : option Z :=
  match prefixes with
  | [] => None
  | prefix :: prefixes =>
      match after prefix line with
      | None => crc_field prefixes line
      | Some rest =>
          let hexStr := before_space rest in
          if Nat.eqb (length hexStr) 8 then
            match hex_number 0 hexStr with
            | Some crc => Some crc
            | None => crc_field prefixes line
            end
          else crc_field prefixes line
      end
  end.

(** [crc32.ChecksumIEEE]. *)
Definition crc_bit (crc : Z) : Z :=
  if Z.testbit crc 0 then Z.lxor (Z.shiftr crc 1) 3988292384 else Z.shiftr crc 1.
Definition crc_byte (crc b : Z) : Z := Nat.iter 8 crc_bit (Z.lxor crc b).
Definition ChecksumIEEE (data : bytes) : Z := Z.lxor (fold_left crc_byte data 4294967295) 4294967295.

Definition validateYEnd (line data : bytes) : option goerror :=
  match crc_field [str " pcrc32="; str " crc32="] line with
  | None => None
  | Some expectedCRC =>
      if negb (ChecksumIEEE data =? expectedCRC) then Some (yenc_error "crc32 mismatch") else None
  end.

(** ** Lines *)

Definition drop_cr (line : bytes) : bytes :=
  match rev line with
  | 13 :: l => rev l
  | _ => line
  end.

(** The tokens of the scanner, and whether it stopped at a line that does not
    fit its buffer. *)
Fixpoint scan_lines (cur body : bytes) : list bytes * bool :=
  match body with
  | [] =>
      if bool_decide (cur = []) then ([], false)
      else if yEncMaxLineBytes <=? Z.of_nat (length cur) then ([], true)
      else ([drop_cr cur], false)
  | c :: body =>
      if c =? 10 then
        if yEncMaxLineBytes <? Z.of_nat (length cur) + 1 then ([], true)
        else let (tokens, too_long) := scan_lines [] body in (drop_cr cur :: tokens, too_long)
      else scan_lines (cur ++ [c]) body
  end.

Record state := MkState {
  result : bytes;
  seenBegin : bool;
  seenData : bool;
  seenEnd : bool;
  semanticErr : option goerror;
  yendLine : bytes;
  totalOut : option Z
}.

Definition initial : state := MkState [] false false false None [] None.

Definition fail (st : state) (err : goerror) : state :=
  MkState (result st) (seenBegin st) (seenData st) (seenEnd st) (Some err) (yendLine st) (totalOut st).

Definition begin_line (st : state) (line : bytes) : state :=
  let (size, ok) := yEncIntField line "size" in
  let (_, multipart) := yEncIntField line "part" in
  MkState (if negb multipart && ok && (size <=? yEncMaxDecodedBytes) then [] else result st)
    true (seenData st) (seenEnd st) None (yendLine st) (if ok then Some size else totalOut st).

Definition part_line (st : state) (line : bytes) : state :=
  let (begin, beginOK) := yEncIntField line "begin" in
  let (fin, endOK) := yEncIntField line "end" in
  MkState (if beginOK && endOK && (begin <=? fin) && (i64 (fin - begin) <? yEncMaxDecodedBytes) then [] else result st)
    (seenBegin st) (seenData st) (seenEnd st) None (yendLine st) (totalOut st).

(** The body of the scanner loop, after the context was polled. *)
Definition line_turn (st : state) (line : bytes) : state :=
  if negb (bool_decide (semanticErr st = None)) then st
  else if bool_decide (line = []) then st
  else if has_prefix (str "=ybegin") line then
    if seenBegin st || seenData st || seenEnd st then fail st (yenc_error "contradictory begin line")
    else begin_line st line
  else if has_prefix (str "=ypart") line then
    if negb (seenBegin st) || seenData st || seenEnd st then fail st (yenc_error "misplaced part line")
    else part_line st line
  else if has_prefix (str "=yend") line then
    if negb (seenBegin st) || negb (seenData st) || seenEnd st then fail st (yenc_error "misplaced end line")
    else MkState (result st) (seenBegin st) (seenData st) true None line (totalOut st)
  else
    if negb (seenBegin st) || seenEnd st then fail st (yenc_error "data outside framed body")
    else if List.last line 0 =? 61 then fail st (yenc_error "truncated escape")
    else if yEncMaxDecodedBytes <? Z.of_nat (length (result st)) + Z.of_nat (length line)
    then fail st (yenc_error "decoded body exceeds the limit")
    else MkState (decodeYEncBytes (result st) line) (seenBegin st) true (seenEnd st) None (yendLine st) (totalOut st).

(** The checks after the loop. *)
Definition conclude (st : state) (verifyCRC : bool) : Prelude.result goerror bytes :=
  match semanticErr st with
  | Some err => Err err
  | None =>
      if negb (seenBegin st) || negb (seenData st) || negb (seenEnd st) then Err (yenc_error "incomplete body")
      else
        let (size, ok) := yEncIntField (yendLine st) "size" in
        if negb (bool_decide (after (str "size=") (yendLine st) = None)) &&
           (negb ok || negb (size =? Z.of_nat (length (result st))))
        then Err (yenc_error "contradictory decoded size")
        else if verifyCRC then
          match validateYEnd (yendLine st) (result st) with
          | Some err => Err err
          | None => Ok (result st)
          end
        else Ok (result st)
  end.

Record Reader := MkReader { r_body : bytes; r_err : option goerror }.

Section Decode.
Context {W : Type} `{Context W}.

Fixpoint lines_loop (tokens : list bytes) (st : state) : W -> W * (state * option goerror) :=
  match tokens with
  | [] => call_ret (st, None)
  | line :: tokens =>
      let! err := ctx_Err in
      match err with
      | Some err => call_ret (st, Some (undrained [err]))
      | None => lines_loop tokens (line_turn st line)
      end
  end.

(** The result and what was written through [totalOut]. *)
Definition decodeYEncReaderWithTotal (r : Reader) (verifyCRC : bool)
    : W -> W * (Prelude.result goerror bytes * option Z) :=
  let body := take (Z.to_nat (yEncMaxEncodedBytes + 1)) (r_body r) in
  let exhausted := yEncMaxEncodedBytes <? Z.of_nat (length (r_body r)) in
  let (tokens, too_long) := scan_lines [] body in
  let! (st, err) := lines_loop tokens initial in
  match err with
  | Some err => call_ret (Err err, totalOut st)
  | None =>
      call_ret
        (if too_long || (negb exhausted && negb (bool_decide (r_err r = None))) then Err (undrained [])
         else if exhausted then Err (undrained [])
         else conclude st verifyCRC, totalOut st)
  end.

Definition decodeYEncReader (r : Reader) (verifyCRC : bool) : W -> W * Prelude.result goerror bytes :=
  let! (res, _) := decodeYEncReaderWithTotal r verifyCRC in call_ret res.

End Decode.

(** [context.Background] never ends. *)
Definition background : Context unit := {| ctx_Err := fun w => (w, None) |}.

Definition wire (lines : list bytes) : bytes := concat (map (fun l => l ++ [13; 10]) lines).

Definition decodeYEncLines (lines : list bytes) (verifyCRC : bool) : Prelude.result goerror bytes :=
  (decodeYEncReader (H := background) (MkReader (wire lines) None) verifyCRC tt).2.

Definition DecodeYEncLines (lines : list bytes) : Prelude.result goerror bytes := decodeYEncLines lines true.

Example crc_demo : ChecksumIEEE (str "123456789") = 3421780262.
Proof. vm_compute. reflexivity. Qed.
Example decode_demo :
  DecodeYEncLines [str "=ybegin line=128 size=3 name=x"; [139; 61; 77; 140]; str "=yend size=3"] = Ok [97; 227; 98].
Proof. vm_compute. reflexivity. Qed.

(** ** The shape of an accepted body *)

Lemma decodeYEncBytes_cons out b c l : decodeYEncBytes out (b :: c :: l) =
  if b =? 61 then decodeYEncBytes (out ++ [byte_mod (c - 64 - 42)]) l
  else decodeYEncBytes (out ++ [byte_mod (b - 42)]) (c :: l).
Proof. done. Qed.

Lemma decodeYEncBytes_app out line : decodeYEncBytes out line = out ++ decodeYEncLine line.
Proof.
  unfold decodeYEncLine. revert out.
  assert (H : forall n line, (length line <= n)%nat -> forall out, decodeYEncBytes out line = out ++ decodeYEncBytes [] line).
  { intros n. induction n as [|n IH]; intros l Hl out.
    { destruct l; [by rewrite app_nil_r|cbn in Hl; lia]. }
    destruct l as [|b [|c l]]; [by rewrite app_nil_r|done|]. cbn [length] in Hl. rewrite !decodeYEncBytes_cons.
    destruct (b =? 61).
    - rewrite (IH l), (IH l ltac:(lia) ([] ++ _)) by lia. by rewrite <-app_assoc.
    - rewrite (IH (c :: l)), (IH (c :: l) ltac:(cbn; lia) ([] ++ _)) by (cbn; lia). by rewrite <-app_assoc. }
  intros out. by apply (H (length line)).
Qed.

(** A line that carries data. *)
Definition data_line (line : bytes) : Prop :=
  line <> [] /\ has_prefix (str "=ybegin") line = false /\ has_prefix (str "=ypart") line = false /\
  has_prefix (str "=yend") line = false /\ List.last line 0 <> 61.

(** The decoded lines, while they fit. *)
Fixpoint decode_data (out : bytes) (ds : list bytes) : option bytes :=
  match ds with
  | [] => Some out
  | d :: ds =>
      if yEncMaxDecodedBytes <? Z.of_nat (length out) + Z.of_nat (length d) then None
      else decode_data (decodeYEncBytes out d) ds
  end.

Lemma decode_data_snoc out ds d : decode_data out (ds ++ [d]) =
  match decode_data out ds with
  | Some out => if yEncMaxDecodedBytes <? Z.of_nat (length out) + Z.of_nat (length d) then None else Some (decodeYEncBytes out d)
  | None => None
  end.
Proof.
  revert out. induction ds as [|x ds IH]; intros out; cbn [app decode_data]; [by destruct (_ <? _)|].
  destruct (yEncMaxDecodedBytes <? Z.of_nat (length out) + Z.of_nat (length x)); [done|apply IH].
Qed.

Lemma decode_data_concat out ds data : decode_data out ds = Some data -> data = out ++ concat (map decodeYEncLine ds).
Proof.
  revert out. induction ds as [|d ds IH]; intros out; cbn [decode_data map concat]; [intros [= <-]; by rewrite app_nil_r|].
  destruct (_ <? _); [done|]. intros E%IH. by rewrite E, decodeYEncBytes_app, <-app_assoc.
Qed.

(** The lines read so far, without the empty ones, and the state they lead to. *)
Inductive shape : list bytes -> state -> Prop :=
| shape_start : shape [] initial
| shape_begun b ps t : has_prefix (str "=ybegin") b = true -> Forall (fun p => has_prefix (str "=ypart") p = true) ps ->
    shape (b :: ps) (MkState [] true false false None [] t)
| shape_data b ps ds data t : has_prefix (str "=ybegin") b = true -> Forall (fun p => has_prefix (str "=ypart") p = true) ps ->
    ds <> [] -> Forall data_line ds -> decode_data [] ds = Some data ->
    shape (b :: ps ++ ds) (MkState data true true false None [] t)
| shape_end b ps ds data e t : has_prefix (str "=ybegin") b = true -> Forall (fun p => has_prefix (str "=ypart") p = true) ps ->
    ds <> [] -> Forall data_line ds -> decode_data [] ds = Some data -> has_prefix (str "=yend") e = true ->
    shape (b :: ps ++ ds ++ [e]) (MkState data true true true None e t).

Lemma begin_line_state b :
  exists t', begin_line initial b = MkState [] true false false None [] t'.
Proof. unfold begin_line. destruct (yEncIntField b "size"), (yEncIntField b "part"). destruct (_ && _); eauto. Qed.

Lemma part_line_state p t :
  exists t', part_line (MkState [] true false false None [] t) p = MkState [] true false false None [] t'.
Proof. unfold part_line. destruct (yEncIntField p "begin"), (yEncIntField p "end"). destruct (_ && _); eauto. Qed.

(** A turn without an error extends the shape by its line. *)
Lemma line_turn_shape ls st line : shape ls st -> semanticErr (line_turn st line) = None ->
  shape (ls ++ filter (fun l => l <> []) [line]) (line_turn st line).
Proof.
  intros Hs. unfold line_turn. assert (Hn : semanticErr st = None) by by destruct Hs. rewrite Hn.
  rewrite (bool_decide_true (None = None)) by done. cbn [negb].
  destruct (bool_decide (line = [])) eqn:El; bool_hyps.
  { subst. rewrite filter_cons_False, filter_nil, app_nil_r; [done|]. intros H. by apply H. }
  rewrite filter_cons_True, filter_nil by done.
  destruct (has_prefix (str "=ybegin") line) eqn:Eb.
  { destruct Hs; cbn [seenBegin seenData seenEnd orb]; try done. intros _.
    destruct (begin_line_state line) as [t ->]. by apply (shape_begun line []). }
  destruct (has_prefix (str "=ypart") line) eqn:Ep.
  { destruct Hs; cbn [seenBegin seenData seenEnd orb negb]; try done. intros _.
    destruct (part_line_state line t) as [t' ->]. apply (shape_begun b (ps ++ [line])); [done|]. by apply Forall_app_2; [|constructor]. }
  destruct (has_prefix (str "=yend") line) eqn:Ee.
  { destruct Hs; cbn [seenBegin seenData seenEnd orb negb]; try done. intros _. cbn [app]. rewrite <-app_assoc.
    by apply shape_end. }
  destruct Hs; cbn [seenBegin seenData seenEnd orb negb result yendLine totalOut]; try done;
    (destruct (Z.eqb_spec (List.last line 0) 61); [done|]); destruct (_ <? _) eqn:Elen; try done; intros _.
  - apply (shape_data b ps [line]); [done|done|done|by constructor|]. cbn [decode_data length]. cbn in Elen. by rewrite Elen.
  - cbn [app]. rewrite <-app_assoc. apply shape_data; [done|done|by destruct ds|by apply Forall_app_2; [|constructor]|].
    rewrite decode_data_snoc. match goal with H : decode_data _ _ = _ |- _ => rewrite H end. by rewrite Elen.
Qed.

(** An error stays. *)
Lemma line_turn_err st line : semanticErr st <> None -> line_turn st line = st.
Proof. intros H. unfold line_turn. by rewrite bool_decide_false. Qed.

Lemma turns_shape tokens st : fold_left line_turn tokens initial = st -> semanticErr st = None ->
  shape (filter (fun l => l <> []) tokens) st.
Proof.
  revert st. induction tokens as [|line tokens IH] using rev_ind; intros st E Hn; [subst; apply shape_start|].
  rewrite fold_left_app in E. cbn [fold_left] in E. rewrite filter_app. subst st.
  destruct (decide (semanticErr (fold_left line_turn tokens initial) = None)) as [Hp|Hp].
  - by apply line_turn_shape; [apply IH|].
  - rewrite line_turn_err in Hn |- * by done. done.
Qed.

(** ** Encodings *)

(** The lines a yEnc encoder may write for some bytes: each byte shifted by 42, or
    escaped and shifted by 64 more; a line end and '=' must be escaped, other
    bytes may be, and no escape spells a line end, '=' or a keyword line. *)
Inductive encodes : bytes -> bytes -> Prop :=
| encodes_nil : encodes [] []
| encodes_plain b c data line : is_byte b -> c = (b + 42) mod 256 -> c <> 10 -> c <> 13 -> c <> 61 ->
    encodes data line -> encodes (b :: data) (c :: line)
| encodes_escaped b c data line : is_byte b -> c = (b + 42 + 64) mod 256 -> c <> 10 -> c <> 13 -> c <> 61 -> c <> 121 ->
    encodes data line -> encodes (b :: data) (61 :: c :: line).

(** The encoder that escapes only NUL, line ends and '='. *)
Definition yenc_byte (b : Z) : bytes :=
  let c := (b + 42) mod 256 in
  if bool_decide (c ∈ [0; 10; 13; 61]) then [61; (c + 64) mod 256] else [c].

Lemma yenc_encodes data : Forall is_byte data -> encodes data (concat (map yenc_byte data)).
Proof.
  induction 1 as [|b data Hb _ IH]; [constructor|]. cbn [map concat]. unfold yenc_byte.
  destruct (bool_decide _) eqn:E; bool_hyps.
  - assert (Em : ((b + 42) mod 256 + 64) mod 256 = (b + 42 + 64) mod 256) by (by rewrite Zplus_mod_idemp_l).
    assert (Hc : (b + 42) mod 256 = 0 \/ (b + 42) mod 256 = 10 \/ (b + 42) mod 256 = 13 \/ (b + 42) mod 256 = 61) by set_solver.
    apply encodes_escaped; [done|exact Em|..|exact IH]; destruct Hc as [E0|[E0|[E0|E0]]]; rewrite E0; done.
  - rewrite !not_elem_of_cons in E. apply encodes_plain; try done; naive_solver.
Qed.

Lemma byte_mod_spec x : -256 < x < 256 -> byte_mod x = x mod 256.
Proof.
  intros Hx. unfold byte_mod. destruct (Z.ltb_spec x 0).
  - replace x with (- (- x)) by lia. rewrite Z.rem_opp_l by lia. rewrite Z.rem_small by lia.
    destruct (Z.ltb_spec (- - x) 0); [|lia]. replace (- - x) with (x + 256 + -1 * 256) at 2 by lia.
    rewrite Z_mod_plus_full, Z.mod_small by lia. lia.
  - rewrite Z.rem_small by lia. destruct (Z.ltb_spec x 0); [lia|]. by rewrite Z.mod_small by lia.
Qed.

Lemma byte_mod_shift b k : is_byte b -> 0 <= k < 256 -> byte_mod ((b + k) mod 256 - k) = b.
Proof.
  intros Hb Hk. pose proof (Z.mod_pos_bound (b + k) 256). rewrite byte_mod_spec by lia.
  rewrite Zminus_mod_idemp_l. replace (b + k - k) with b by lia. unfold is_byte in Hb. by rewrite Z.mod_small by lia.
Qed.

(** Decoding inverts every encoding. *)
Lemma decode_encodes data line : encodes data line -> forall out, decodeYEncBytes out line = out ++ data.
Proof.
  induction 1 as [|b c data line Hb Hc _ _ H61 _ IH|b c data line Hb Hc _ _ _ _ _ IH]; intros out; [by rewrite app_nil_r| |].
  - assert (E : byte_mod (c - 42) = b) by (subst c; by apply byte_mod_shift).
    assert (Hd : decodeYEncBytes out (c :: line) = decodeYEncBytes (out ++ [byte_mod (c - 42)]) line).
    { destruct line as [|d line]; [done|]. rewrite decodeYEncBytes_cons. by destruct (Z.eqb_spec c 61). }
    rewrite Hd, E, IH, <-app_assoc. done.
  - rewrite decodeYEncBytes_cons, Z.eqb_refl.
    assert (E : byte_mod (c - 64 - 42) = b).
    { subst c. replace (b + 42 + 64) with (b + 106) by lia. replace ((b + 106) mod 256 - 64 - 42) with ((b + 106) mod 256 - 106) by lia.
      by apply byte_mod_shift. }
    by rewrite E, IH, <-app_assoc.
Qed.

Lemma encodes_line data line : encodes data line -> data <> [] -> data_line line.
Proof.
  assert (Hp : forall c l, c <> 61 -> has_prefix (str "=ybegin") (c :: l) = false /\
    has_prefix (str "=ypart") (c :: l) = false /\ has_prefix (str "=yend") (c :: l) = false).
  { intros c l Hc. unfold has_prefix. split_and!; apply bool_decide_eq_false; intros E;
      assert (Some c = Some 61) by exact (f_equal head E); congruence. }
  assert (He : forall c l, c <> 121 -> has_prefix (str "=ybegin") (61 :: c :: l) = false /\
    has_prefix (str "=ypart") (61 :: c :: l) = false /\ has_prefix (str "=yend") (61 :: c :: l) = false).
  { intros c l Hc. unfold has_prefix. split_and!; apply bool_decide_eq_false; intros E;
      assert (Some c = Some 121) by exact (f_equal (fun x => head (tail x)) E); congruence. }
  assert (Hlast : forall d l, encodes d l -> d <> [] -> l <> [] /\ List.last l 0 <> 61).
  { induction 1 as [|b c d l _ _ _ _ H61 Hd IH|b c d l _ _ _ _ H61 _ Hd IH]; intros Hn; [done|..].
    - split; [done|]. destruct d as [|x d]; [inversion Hd; subst; done|]. destruct IH as [Hl Hs]; [done|]. by destruct l.
    - split; [done|]. destruct d as [|x d]; [inversion Hd; subst; done|]. destruct IH as [Hl Hs]; [done|]. by destruct l. }
  intros Henc Hn. destruct (Hlast _ _ Henc Hn) as [Hl Hs]. unfold data_line.
  destruct Henc; [done|..].
  - destruct (Hp c line) as (? & ? & ?); done.
  - destruct (He c line) as (? & ? & ?); done.
Qed.

Lemma encodes_no_lf data line : encodes data line -> 10 ∉ line.
Proof. induction 1; rewrite ?list.elem_of_cons; [by apply not_elem_of_nil|naive_solver..]. Qed.

Lemma encodes_length data line : encodes data line -> (length data <= length line)%nat.
Proof. induction 1; cbn; lia. Qed.

(** ** The wire *)

Lemma scan_skip l : forall cur rest, 10 ∉ l -> scan_lines cur (l ++ rest) = scan_lines (cur ++ l) rest.
Proof.
  induction l as [|c l IH]; intros cur rest Hl; [by rewrite app_nil_r|]. rewrite list.elem_of_cons in Hl.
  cbn [app scan_lines]. destruct (Z.eqb_spec c 10); [naive_solver|]. rewrite IH by naive_solver. by rewrite <-app_assoc.
Qed.

Lemma drop_cr_end l : drop_cr (l ++ [13]) = l.
Proof. unfold drop_cr. rewrite rev_app_distr. cbn [rev app]. by rewrite rev_involutive. Qed.

Definition fits_line (l : bytes) : Prop := 10 ∉ l /\ Z.of_nat (length l) + 2 <= yEncMaxLineBytes.

(** Scanning gives back the lines that were sent. *)
Lemma scan_wire lines : Forall fits_line lines -> scan_lines [] (wire lines) = (lines, false).
Proof.
  unfold wire. induction 1 as [|l lines [Hl Hf] _ IH]; [done|]. cbn [map concat]. rewrite <-app_assoc.
  rewrite scan_skip by done. cbn [app scan_lines]. change (13 =? 10) with false. cbn iota. change (10 =? 10) with true. cbn iota.
  rewrite length_app. cbn [length]. destruct (Z.ltb_spec yEncMaxLineBytes (Z.of_nat (length l + 1) + 1)); [lia|].
  rewrite IH. by rewrite drop_cr_end.
Qed.

(** *** The end line *)

Fixpoint hex_digits (k : nat) (n : Z) : bytes :=
  match k with
  | O => []
  | S k => hex_digit ((n / 16 ^ Z.of_nat k) mod 16) :: hex_digits k n
  end.

Definition end_line (data : bytes) : bytes :=
  str "=yend size=" ++ dec (Z.of_nat (length data)) ++ str " crc32=" ++ hex_digits 8 (ChecksumIEEE data).

Lemma hex_value_digit d : 0 <= d < 16 -> hex_value (hex_digit d) = Some d.
Proof.
  intros Hd. assert (H : Forall (fun d => hex_value (hex_digit d) = Some d) (seqZ 0 16)) by (repeat constructor).
  rewrite list.Forall_forall in H. apply H. apply elem_of_seqZ. lia.
Qed.

Lemma hex_digit_plain d : 0 <= d < 16 -> plain (hex_digit d) = true.
Proof.
  intros Hd. assert (H : Forall (fun d => plain (hex_digit d) = true) (seqZ 0 16)) by (repeat constructor).
  rewrite list.Forall_forall in H. apply H. apply elem_of_seqZ. lia.
Qed.

Lemma hex_number_digits k n acc : 0 <= n -> hex_number acc (hex_digits k n) = Some (acc * 16 ^ Z.of_nat k + n mod 16 ^ Z.of_nat k).
Proof.
  intros Hn. revert acc. induction k as [|k IH]; intros acc; cbn [hex_digits hex_number].
  { rewrite Z.mod_1_r. f_equal. lia. }
  rewrite hex_value_digit by (apply Z.mod_pos_bound; lia). rewrite IH. f_equal.
  rewrite Nat2Z.inj_succ, Z.pow_succ_r by lia. rewrite (Z.mul_comm 16 (16 ^ Z.of_nat k)), (Z.rem_mul_r n) by lia. lia.
Qed.

Lemma hex_digits_plain k n : forallb plain (hex_digits k n) = true.
Proof. induction k as [|k IH]; cbn [hex_digits forallb]; [done|]. rewrite hex_digit_plain, IH; [done|]. apply Z.mod_pos_bound. lia. Qed.

Lemma length_hex_digits k n : length (hex_digits k n) = k.
Proof. induction k as [|k IH]; cbn; [done|]. by rewrite IH. Qed.

Lemma crc_bit_fits c : fits 32 c -> fits 32 (crc_bit c).
Proof.
  intros Hc. assert (Hs : fits 32 (Z.shiftr c 1)).
  { rewrite Z.shiftr_div_pow2 by lia. unfold fits in *. split; [apply Z.div_pos; lia|]. apply Z.div_lt_upper_bound; lia. }
  unfold crc_bit. destruct (Z.testbit c 0); [|done]. apply fits_lxor; [lia|done|unfold fits; lia].
Qed.

Lemma crc_iter_fits k x : fits 32 x -> fits 32 (Nat.iter k crc_bit x).
Proof. intros Hx. induction k as [|k IH]; [done|]. by apply crc_bit_fits. Qed.

Lemma ChecksumIEEE_fits data : Forall is_byte data -> fits 32 (ChecksumIEEE data).
Proof.
  intros Hd. unfold ChecksumIEEE. apply fits_lxor; [lia| |unfold fits; lia].
  assert (H : forall acc, fits 32 acc -> fits 32 (fold_left crc_byte data acc)).
  { induction Hd as [|b data Hb _ IH]; intros acc Hacc; [done|]. cbn [fold_left]. apply IH. unfold crc_byte.
    assert (Hx : fits 32 (Z.lxor acc b)) by (apply fits_lxor; [lia|done|unfold fits, is_byte in *; lia]).
    by apply crc_iter_fits. }
  apply H. unfold fits. lia.
Qed.

Lemma after_skip p a s : 32 ∉ a -> after (32 :: p) (a ++ s) = after (32 :: p) s.
Proof.
  induction a as [|c a IH]; intros Ha; [done|]. rewrite list.elem_of_cons in Ha. cbn [app after].
  assert (Hp : has_prefix (32 :: p) (c :: a ++ s) = false).
  { unfold has_prefix. apply bool_decide_eq_false. cbn [length take]. intros [= E _]. naive_solver. }
  rewrite Hp. apply IH. naive_solver.
Qed.

Lemma after_here p s : after p (p ++ s) = Some (drop (length p) (p ++ s)).
Proof. destruct (p ++ s) as [|c l] eqn:E; cbn [after]; rewrite <-E, prefix_app; done. Qed.

Lemma plain_no_space s : forallb plain s = true -> 32 ∉ s.
Proof. intros Hp Hin. rewrite forallb_forall in Hp. apply list_elem_of_In in Hin. by apply Hp in Hin. Qed.

Lemma before_space_plain s : forallb plain s = true -> before_space s = s.
Proof.
  induction s as [|c s IH]; [done|]. cbn [forallb before_space]. intros H. bool_hyps. rewrite bool_decide_false; [by rewrite IH|].
  rewrite !not_elem_of_cons. unfold plain in *. bool_hyps. split_and!; try lia. apply not_elem_of_nil.
Qed.

(** The checksum of an end line. *)
Lemma end_line_crc data : Forall is_byte data ->
  crc_field [str " pcrc32="; str " crc32="] (end_line data) = Some (ChecksumIEEE data).
Proof.
  intros Hd. pose proof (ChecksumIEEE_fits data Hd) as Hc. set (n := dec (Z.of_nat (length data))).
  assert (Hn : 32 ∉ n) by (apply plain_no_space, dec_plain; lia).
  set (h := hex_digits 8 (ChecksumIEEE data)).
  assert (Hh : 32 ∉ h) by (apply plain_no_space, hex_digits_plain).
  assert (Hline : end_line data = str "=yend" ++ 32 :: str "size=" ++ n ++ 32 :: str "crc32=" ++ h) by done.
  assert (Hno : forall p, 32 ∉ str "=yend" /\ 32 ∉ str "size=" -> has_prefix (32 :: p) (32 :: str "size=" ++ n ++ 32 :: str "crc32=" ++ h) = false ->
    after (32 :: p) (end_line data) = after (32 :: p) (32 :: str "crc32=" ++ h)).
  { intros p [H1 H2] Hp. rewrite Hline, after_skip by done. cbn [after]. rewrite Hp.
    rewrite after_skip by done. by rewrite after_skip. }
  assert (Hsp : 32 ∉ str "=yend" /\ 32 ∉ str "size=").
  { split; intros Hin; repeat (apply list.elem_of_cons in Hin as [Hin|Hin]; [by vm_compute in Hin|]); by apply not_elem_of_nil in Hin. }
  change (str " pcrc32=") with (32 :: str "pcrc32="). change (str " crc32=") with (32 :: str "crc32=").
  cbn [crc_field]. rewrite (Hno _ Hsp) by (apply bool_decide_eq_false; intros E; by apply (f_equal (fun x => head (tail x))) in E).
  assert (Hnone : after (32 :: str "pcrc32=") (32 :: str "crc32=" ++ h) = None).
  { cbn [after]. assert (Hp : has_prefix (32 :: str "pcrc32=") (32 :: str "crc32=" ++ h) = false)
      by (apply bool_decide_eq_false; intros E; by apply (f_equal (fun x => head (tail x))) in E).
    rewrite Hp. replace (str "crc32=" ++ h) with ((str "crc32=" ++ h) ++ []) by (by rewrite app_nil_r).
    rewrite after_skip; [done|]. rewrite elem_of_app. intros [Hin|Hin]; [|done].
    repeat (apply list.elem_of_cons in Hin as [Hin|Hin]; [by vm_compute in Hin|]); by apply not_elem_of_nil in Hin. }
  rewrite Hnone, (Hno _ Hsp) by (apply bool_decide_eq_false; intros E; by apply (f_equal (fun x => head (tail x))) in E).
  change (32 :: str "crc32=" ++ h) with ((32 :: str "crc32=") ++ h). rewrite after_here, drop_app_length.
  rewrite before_space_plain by apply hex_digits_plain. unfold h. rewrite length_hex_digits. cbn [Nat.eqb].
  rewrite hex_number_digits by apply Hc. f_equal. rewrite Z.mod_small; [lia|]. unfold fits in Hc. cbn [Z.of_nat] in *. lia.
Qed.

(** *** The fields of an end line *)

Lemma strip_plain c l : plain c = true -> strip_one space_encodings (c :: l) = None.
Proof.
  intros Hc. pose proof encodings_plain as He. rewrite forallb_app in He. apply andb_true_iff in He as [He _].
  destruct (strip_one space_encodings (c :: l)) as [l'|] eqn:E; [|done].
  by apply (strip_one_plain _ []) in E as [_ ?].
Qed.

Lemma fields_word w k f rest : forallb plain w = true ->
  fields_from (length w + k) f (w ++ rest) = fields_from k (f ++ w) rest.
Proof.
  revert f. induction w as [|c w IH]; intros f Hw; [by rewrite app_nil_r|]. cbn [forallb] in Hw. bool_hyps.
  cbn [length plus app fields_from]. rewrite strip_plain, IH by done. by rewrite <-app_assoc.
Qed.

Lemma fields_space w k rest : forallb plain w = true -> w <> [] ->
  fields_from (length w + S k) [] (w ++ 32 :: rest) = w :: fields_from k [] rest.
Proof.
  intros Hw Hn. rewrite fields_word by done. cbn [app fields_from].
  assert (E : strip_one space_encodings (32 :: rest) = Some rest) by done. rewrite E. by rewrite bool_decide_false.
Qed.

Lemma fields_end w k : forallb plain w = true -> w <> [] -> fields_from (length w + k) [] w = [w].
Proof.
  intros Hw Hn. pose proof (fields_word w k [] [] Hw) as E. rewrite app_nil_r in E. rewrite E. cbn [app].
  destruct k; cbn [fields_from]; by rewrite bool_decide_false.
Qed.

Lemma Fields_three a b c : forallb plain a = true -> forallb plain b = true -> forallb plain c = true ->
  a <> [] -> b <> [] -> c <> [] -> Fields (a ++ 32 :: b ++ 32 :: c) = [a; b; c].
Proof.
  intros. unfold Fields.
  replace (S (length (a ++ 32 :: b ++ 32 :: c))) with (length a + S (length b + S (length c + 1)))%nat
    by (rewrite !length_app; cbn [length]; rewrite length_app; cbn [length]; lia).
  by rewrite fields_space, fields_space, fields_end.
Qed.

(** The size of an end line. *)
Lemma end_line_size data : Z.of_nat (length data) < 2 ^ 63 ->
  yEncIntField (end_line data) "size" = (Z.of_nat (length data), true).
Proof.
  intros Hb. unfold yEncIntField. set (n := dec (Z.of_nat (length data))). set (h := hex_digits 8 (ChecksumIEEE data)).
  assert (Hn : forallb plain n = true) by (apply dec_plain; lia).
  change (end_line data) with (str "=yend" ++ 32 :: (str "size=" ++ n) ++ 32 :: (str "crc32=" ++ h)).
  assert (Hh : forallb plain h = true) by apply hex_digits_plain.
  rewrite Fields_three; [|done|rewrite forallb_app; by rewrite Hn|rewrite forallb_app; by rewrite Hh|done..].
  change (str "size" ++ [61]) with (str "size="). cbn [int_field].
  assert (Hp : has_prefix (str "size=") (str "=yend") = false) by done. rewrite Hp, prefix_app, drop_app_length.
  unfold n. rewrite ParseInt_dec by lia. f_equal. apply Z.leb_le. lia.
Qed.

(** ** Reading a framed body *)

Lemma line_turn_begin b : has_prefix (str "=ybegin") b = true -> exists t, line_turn initial b = MkState [] true false false None [] t.
Proof.
  intros Hb. unfold line_turn. cbn [semanticErr initial]. rewrite (bool_decide_true (None = None)) by done. cbn [negb].
  rewrite bool_decide_false by by intros ->. rewrite Hb. cbn [seenBegin seenData seenEnd orb]. apply begin_line_state.
Qed.

Lemma turns_parts ps : Forall (fun p => has_prefix (str "=ypart") p = true) ps -> forall t,
  exists t', fold_left line_turn ps (MkState [] true false false None [] t) = MkState [] true false false None [] t'.
Proof.
  induction 1 as [|p ps Hp _ IH]; intros t; [by eexists|]. cbn [fold_left].
  assert (Hb : has_prefix (str "=ybegin") p = false).
  { apply prefix_inv in Hp as [s ->]. done. }
  assert (E : line_turn (MkState [] true false false None [] t) p = part_line (MkState [] true false false None [] t) p).
  { unfold line_turn. cbn [semanticErr]. rewrite (bool_decide_true (None = None)) by done. cbn [negb].
    rewrite bool_decide_false by by intros ->. by rewrite Hb, Hp. }
  rewrite E. destruct (part_line_state p t) as [t' ->]. apply IH.
Qed.

Lemma turns_data ds : Forall data_line ds -> forall out flag t data, decode_data out ds = Some data ->
  fold_left line_turn ds (MkState out true flag false None [] t) =
  MkState data true (flag || negb (bool_decide (ds = []))) false None [] t.
Proof.
  induction 1 as [|d ds (Hn & Hb & Hp & He & Hl) _ IH]; intros out flag t data Hd; cbn [decode_data fold_left] in *.
  { injection Hd as ->. by rewrite orb_false_r. }
  destruct (_ <? _) eqn:Elen in Hd; [done|].
  assert (E : line_turn (MkState out true flag false None [] t) d = MkState (decodeYEncBytes out d) true true false None [] t).
  { unfold line_turn. cbn [semanticErr result]. rewrite (bool_decide_true (None = None)) by done. cbn [negb].
    rewrite bool_decide_false by done. rewrite Hb, Hp, He. cbn [seenBegin seenEnd negb orb].
    destruct (Z.eqb_spec (List.last d 0) 61); [done|]. by rewrite Elen. }
  rewrite E, (IH _ _ _ _ Hd). rewrite (bool_decide_false (d :: ds = [])) by done. by rewrite orb_true_r.
Qed.

Lemma line_turn_end data e t : has_prefix (str "=yend") e = true ->
  line_turn (MkState data true true false None [] t) e = MkState data true true true None e t.
Proof.
  intros He. unfold line_turn. cbn [semanticErr]. rewrite (bool_decide_true (None = None)) by done. cbn [negb].
  rewrite bool_decide_false by by intros ->. rewrite He.
  apply prefix_inv in He as [s ->]. done.
Qed.

Lemma decode_chunks chunks lines : Forall2 encodes chunks lines -> forall out,
  Z.of_nat (length out + length (concat lines)) <= yEncMaxDecodedBytes -> decode_data out lines = Some (out ++ concat chunks).
Proof.
  induction 1 as [|c l chunks lines Hc _ IH]; intros out Hb; cbn [decode_data concat]; [by rewrite app_nil_r|].
  cbn [concat] in Hb. rewrite length_app in Hb. destruct (Z.ltb_spec yEncMaxDecodedBytes (Z.of_nat (length out) + Z.of_nat (length l))); [lia|].
  rewrite (decode_encodes _ _ Hc), app_assoc. pose proof (encodes_length _ _ Hc). apply IH. rewrite length_app. lia.
Qed.

Lemma encodes_data_lines chunks lines : Forall2 encodes chunks lines -> Forall (fun c => c <> []) chunks -> Forall data_line lines.
Proof.
  induction 1 as [|c l chunks lines Hc _ IH]; [constructor|]. intros [H1 H2]%list.Forall_cons.
  constructor; [by eapply encodes_line|by apply IH].
Qed.

(** The state after a framed body. *)
Lemma turns_framed b ps ls data e : has_prefix (str "=ybegin") b = true -> Forall (fun p => has_prefix (str "=ypart") p = true) ps ->
  Forall data_line ls -> ls <> [] -> decode_data [] ls = Some data -> has_prefix (str "=yend") e = true ->
  exists t, fold_left line_turn (b :: ps ++ ls ++ [e]) initial = MkState data true true true None e t.
Proof.
  intros Hb Hp Hl Hn Hd He. cbn [fold_left]. rewrite !fold_left_app.
  destruct (line_turn_begin b Hb) as [t0 ->]. destruct (turns_parts ps Hp t0) as [t ->].
  rewrite (turns_data ls Hl _ _ _ _ Hd). cbn [fold_left]. rewrite bool_decide_false by done. exists t. by apply line_turn_end.
Qed.

(** ** Reading a wire *)

Lemma decodeYEncBytes_length out line : (length (decodeYEncBytes out line) <= length out + length line)%nat.
Proof.
  rewrite decodeYEncBytes_app, length_app. unfold decodeYEncLine. apply Nat.add_le_mono_l.
  assert (H : forall n l, (length l <= n)%nat -> (length (decodeYEncBytes [] l) <= length l)%nat).
  { intros n. induction n as [|n IH]; intros l Hl; [destruct l; [done|cbn in Hl; lia]|].
    destruct l as [|b [|c l]]; [done|done|]. cbn [length] in Hl. rewrite decodeYEncBytes_cons.
    destruct (b =? 61); rewrite decodeYEncBytes_app, length_app; unfold decodeYEncLine; cbn [length app].
    - specialize (IH l ltac:(lia)). lia.
    - specialize (IH (c :: l) ltac:(cbn; lia)). cbn [length] in IH. lia. }
  by apply (H (length line)).
Qed.

Lemma decode_data_bound ds out data : Z.of_nat (length out) <= yEncMaxDecodedBytes -> decode_data out ds = Some data ->
  Z.of_nat (length data) <= yEncMaxDecodedBytes.
Proof.
  revert out. induction ds as [|d ds IH]; intros out Ho; cbn [decode_data]; [by intros [= <-]|].
  destruct (Z.ltb_spec yEncMaxDecodedBytes (Z.of_nat (length out) + Z.of_nat (length d))); [done|].
  apply IH. pose proof (decodeYEncBytes_length out d). lia.
Qed.

Section Reading.
Context {W : Type} `{Context W}.

Lemma lines_loop_run tokens st w st' : (lines_loop tokens st w).2 = (st', None) -> st' = fold_left line_turn tokens st.
Proof.
  revert st w. induction tokens as [|line tokens IH]; intros st w; cbn [lines_loop fold_left]; [by intros [= <-]|].
  unfold call_bind. destruct (ctx_Err w) as [w' [err|]]; [done|]. apply IH.
Qed.

Lemma lines_loop_alive tokens st w : (forall w, (ctx_Err w).2 = None) ->
  (lines_loop tokens st w).2 = (fold_left line_turn tokens st, None).
Proof.
  intros Hc. revert st w. induction tokens as [|line tokens IH]; intros st w; cbn [lines_loop fold_left]; [done|].
  unfold call_bind. specialize (Hc w). destruct (ctx_Err w) as [w' [err|]]; [done|]. apply IH.
Qed.

(** What the limits, the scanner and the context let through. *)
Lemma reader_ok r verifyCRC w data : (decodeYEncReaderWithTotal r verifyCRC w).2.1 = Ok data ->
  r_err r = None /\ Z.of_nat (length (r_body r)) <= yEncMaxEncodedBytes /\ (scan_lines [] (r_body r)).2 = false /\
  conclude (fold_left line_turn (scan_lines [] (r_body r)).1 initial) verifyCRC = Ok data.
Proof.
  unfold decodeYEncReaderWithTotal. destruct (Z.ltb_spec yEncMaxEncodedBytes (Z.of_nat (length (r_body r)))) as [Hx|Hx].
  - destruct (scan_lines _ _) as [tokens too_long]. unfold call_bind.
    destruct (lines_loop tokens initial w) as [w' [st [err|]]]; [done|]. cbn. rewrite orb_false_r. by destruct too_long.
  - rewrite take_ge by lia. destruct (scan_lines [] (r_body r)) as [tokens too_long]. unfold call_bind.
    destruct (lines_loop tokens initial w) as [w' [st [err|]]] eqn:E; [done|]. cbn.
    destruct too_long; [done|]. cbn [orb]. destruct (bool_decide (r_err r = None)) eqn:Er; [|done]. bool_hyps. cbn [negb].
    intros Hok. split_and!; [done..|].
    assert (Est : st = fold_left line_turn tokens initial) by (apply (lines_loop_run _ _ w); by rewrite E). by rewrite <-Est.
Qed.

Lemma reader_runs body verifyCRC w : (forall w, (ctx_Err w).2 = None) -> Z.of_nat (length body) <= yEncMaxEncodedBytes ->
  (scan_lines [] body).2 = false ->
  (decodeYEncReaderWithTotal (MkReader body None) verifyCRC w).2.1 = conclude (fold_left line_turn (scan_lines [] body).1 initial) verifyCRC.
Proof.
  intros Hc Hb Hs. unfold decodeYEncReaderWithTotal. cbn [r_body r_err].
  destruct (Z.ltb_spec yEncMaxEncodedBytes (Z.of_nat (length body))); [lia|]. rewrite take_ge by lia.
  destruct (scan_lines [] body) as [tokens too_long]. cbn in Hs. subst too_long. unfold call_bind. cbn [fst].
  pose proof (lines_loop_alive tokens initial w Hc) as E. destruct (lines_loop tokens initial w) as [w' [st err]].
  cbn in E. by injection E as -> ->.
Qed.

End Reading.

(** ** Soundness and round trip *)

(** What the trailer says of the data: a size field is its size, a checksum its
    checksum when it is verified. *)
Definition trailer_agrees (e data : bytes) (verifyCRC : bool) : Prop :=
  (after (str "size=") e <> None -> yEncIntField e "size" = (Z.of_nat (length data), true)) /\
  (verifyCRC = true -> forall crc, crc_field [str " pcrc32="; str " crc32="] e = Some crc -> ChecksumIEEE data = crc).

Lemma conclude_spec data e t verifyCRC res :
  conclude (MkState data true true true None e t) verifyCRC = Ok res <-> res = data /\ trailer_agrees e data verifyCRC.
Proof.
  unfold conclude, trailer_agrees, validateYEnd. cbn [semanticErr seenBegin seenData seenEnd negb orb yendLine result].
  destruct (yEncIntField e "size") as [size ok], (crc_field _ e) as [crc|];
    destruct (after (str "size=") e) as [x|]; destruct verifyCRC; cbn [negb];
    rewrite ?bool_decide_false, ?bool_decide_true by done; cbn [negb andb];
    destruct ok; cbn [negb orb]; try (destruct (Z.eqb_spec size (Z.of_nat (length data)))); cbn [negb];
    try (destruct (Z.eqb_spec (ChecksumIEEE data) crc)); cbn [negb]; naive_solver congruence.
Qed.

(** A framed body: a begin line, part lines, data and an end line. *)
Definition framed (b : bytes) (ps ds : list bytes) (e : bytes) : Prop :=
  has_prefix (str "=ybegin") b = true /\ Forall (fun p => has_prefix (str "=ypart") p = true) ps /\
  ds <> [] /\ Forall data_line ds /\ has_prefix (str "=yend") e = true.

Lemma conclude_framed tokens verifyCRC data : conclude (fold_left line_turn tokens initial) verifyCRC = Ok data ->
  exists b ps ds e, filter (fun l => l <> []) tokens = b :: ps ++ ds ++ [e] /\ framed b ps ds e /\
    data = concat (map decodeYEncLine ds) /\ Z.of_nat (length data) <= yEncMaxDecodedBytes /\ trailer_agrees e data verifyCRC.
Proof.
  intros Hc. assert (Hn : semanticErr (fold_left line_turn tokens initial) = None).
  { unfold conclude in Hc. by destruct (semanticErr _). }
  pose proof (turns_shape tokens _ eq_refl Hn) as Hs. revert Hc.
  inversion Hs as [E E'|b ps t Hb Hp E E'|b ps ds d t Hb Hp Hd Hl Hdec E E'|b ps ds d e t Hb Hp Hd Hl Hdec He E E']; try done.
  intros [-> Ht]%conclude_spec. exists b, ps, ds, e. split_and!; [done|done| |by eapply (decode_data_bound ds []); [done|]|done].
  by apply decode_data_concat in Hdec.
Qed.

(** C18. The decoder serves only what a framed body says, and undoes every encoder.
    A result is returned only when the reader ended without an error within
    the encoded limit, the lines that are not empty are a begin line, part lines, at
    least one data line and an end line in this order, the data is the
    decoding of the data lines, at most the decoded limit, and agrees with the size
    of the end line, and with its checksum when that is verified.  And for every
    way an encoder may cut data into lines and escape its bytes, the body with any
    begin and part lines and the end line of the data decodes to exactly this
    data while the context lives. *)
Theorem yenc_exact {W : Type} `{Context W} :
  (forall r verifyCRC w data, (decodeYEncReaderWithTotal r verifyCRC w).2.1 = Ok data ->
     r_err r = None /\ Z.of_nat (length (r_body r)) <= yEncMaxEncodedBytes /\
     exists b ps ds e, filter (fun l => l <> []) (scan_lines [] (r_body r)).1 = b :: ps ++ ds ++ [e] /\ framed b ps ds e /\
       data = concat (map decodeYEncLine ds) /\ Z.of_nat (length data) <= yEncMaxDecodedBytes /\
       trailer_agrees e data verifyCRC) /\
  (forall b ps chunks lines verifyCRC w,
     let data := concat chunks in
     let ls := b :: ps ++ lines ++ [end_line data] in
     (forall w, (ctx_Err w).2 = None) ->
     has_prefix (str "=ybegin") b = true -> Forall (fun p => has_prefix (str "=ypart") p = true) ps ->
     Forall2 encodes chunks lines -> chunks <> [] -> Forall (fun c => c <> [] /\ Forall is_byte c) chunks ->
     Forall fits_line ls -> Z.of_nat (length (wire ls)) <= yEncMaxEncodedBytes ->
     Z.of_nat (length (concat lines)) <= yEncMaxDecodedBytes ->
     (decodeYEncReaderWithTotal (MkReader (wire ls) None) verifyCRC w).2.1 = Ok data).
Proof.
  split.
  - intros r verifyCRC w data (Hr & Hb & _ & Hc)%reader_ok. split_and!; [done..|]. by apply conclude_framed.
  - intros b ps chunks lines verifyCRC w data ls Hctx Hb Hp Henc Hn Hch Hfit Hwire Hdec.
    rewrite reader_runs, (scan_wire ls Hfit); [|done|done|by rewrite (scan_wire ls Hfit)]. cbn [fst].
    pose proof (decode_chunks chunks lines Henc [] Hdec) as Hdata. cbn [app] in Hdata.
    assert (Hlen : Z.of_nat (length data) <= yEncMaxDecodedBytes) by (eapply (decode_data_bound lines []); done).
    assert (Hbytes : Forall is_byte data) by (apply Forall_concat; eapply Forall_impl; [exact Hch|]; by intros c [_ ?]).
    destruct (turns_framed b ps lines data (end_line data)) as [t Et]; [done|done| |by intros ->; inversion Henc; subst|done|done|].
    { eapply encodes_data_lines; [done|]. eapply Forall_impl; [exact Hch|]. by intros c [? _]. }
    fold ls in Et. rewrite Et. apply conclude_spec. split; [done|]. split; [intros _|intros _ crc].
    + apply end_line_size. assert (yEncMaxDecodedBytes < 2 ^ 63) by done. lia.
    + rewrite end_line_crc by done. congruence.
Qed.
