(* ===== verification/SearchBudget.v ===== *)
(** Search budgets: internal/searchbudget/searchbudget.go and
    internal/store/search_budgets.go.

    [Repository] is the interface of the service, the store's table an instance of
    it.  Instants count nanoseconds from the zero time.  The admissions of
    [Begin] live at addresses of a heap, which is what its closures hold; each
    locked section is one function, and the step relation interleaves callers that
    begin, record and release. *)

From Stdlib Require Import ZArith Lia.
From stdpp Require Import base list numbers strings sets gmap.
From S2P Require Import Prelude Outcome ContentProof Bencode Torrentmeta Text.

Local Open Scope Z_scope.
Local Open Scope harbor_scope.

(** ** The service *)

Inductive Result : Type :=
| ResultFound
| ResultNoResult
| ResultFiltered
| ResultTransient
| ResultAccount
| ResultOther (s : bytes).

Record State := MkState { ConsecutiveNoResults : Z; SuppressedUntil : Z }.

Definition zero_state : State := MkState 0 0.

Class Repository (W : Type) := {
  GetSearchBudget : bytes -> W -> W * (State * bool * option goerror);
  RecordSearchNoResult : bytes -> Z -> Z -> Z -> W -> W * (State * option goerror);
  ResetSearchBudget : bytes -> W -> W * option goerror
}.

Record Options := MkOptions { Cap : Z; Suppress : Z }.

Definition budget_error (msg : string) : goerror := errors_New (str "searchbudget: " ++ str msg).

Definition New (opts : Options) : result goerror Options :=
  if (Cap opts <? 1) || (Suppress opts <=? 0) then Err (budget_error "invalid limits") else Ok opts.

Section Service.
Context {W : Type} `{Repository W}.
Context (opts : Options).

(** [now] is the reading of the clock. *)
Definition Allowed (key : bytes) (now : Z) : W -> W * (bool * option goerror) :=
  let! (st, found, err) := GetSearchBudget key in
  match err with
  | Some err => call_ret (negb found, Some err)
  | None => if negb found then call_ret (true, None) else call_ret (negb (now <? SuppressedUntil st), None)
  end.

Definition Record_ (key : bytes) (res : Result) (now : Z) : W -> W * option goerror :=
  match res with
  | ResultFound => ResetSearchBudget key
  | ResultNoResult => let! (_, err) := RecordSearchNoResult key (Cap opts) (Suppress opts) now in call_ret err
  | ResultFiltered | ResultTransient | ResultAccount => call_ret None
  | ResultOther _ => call_ret (Some (budget_error "unknown result"))
  end.

End Service.

(** ** The table *)

Record budget_row := MkRow {
  consecutive_no_results : Z;
  suppressed_until : option Z;
  updated_at : Z
}.

Abbreviation budget_table := (gmap bytes budget_row).

Definition StoreGet (key : bytes) (t : budget_table) : budget_table * (State * bool * option goerror) :=
  match t !! key with
  | None => (t, (zero_state, false, None))
  | Some row => (t, (MkState (consecutive_no_results row) (default 0 (suppressed_until row)), true, None))
  end.

(** The row of a first search without results, and the update of a row that
    exists. *)
Definition first_row (cap deadline now : Z) : budget_row :=
  MkRow 1 (if cap <=? 1 then Some deadline else None) now.

Definition next_row (row : budget_row) (cap deadline now : Z) : budget_row :=
  MkRow (Z.min (consecutive_no_results row + 1) cap)
    (if cap <=? consecutive_no_results row + 1 then Some deadline else suppressed_until row) now.

Definition StoreNoResult (key : bytes) (cap suppress now : Z) (t : budget_table) : budget_table * (State * option goerror) :=
  if bool_decide (key = []) || (cap <? 1) || (suppress <=? 0)
  then (t, (zero_state, Some (errors_New (str "store: invalid search budget update"))))
  else
    let deadline := now + suppress in
    let row := match t !! key with
      | None => first_row cap deadline now
      | Some row => next_row row cap deadline now
      end in
    let '(t, (st, _, err)) := StoreGet key (<[key := row]> t) in
    (t, (st, err)).

Definition StoreReset (key : bytes) (t : budget_table) : budget_table * option goerror :=
  if bool_decide (key = []) then (t, None) else (delete key t, None).

#[export] Instance budget_store : Repository budget_table :=
  {| GetSearchBudget := StoreGet; RecordSearchNoResult := StoreNoResult; ResetSearchBudget := StoreReset |}.

(** ** The budget of a history *)

Section History.
Context (opts : Options).

(** What was recorded: the key, the result and the reading of the clock. *)
Abbreviation event := (bytes * Result * Z)%type.

Definition replay (h : list event) : budget_table :=
  fold_left (fun t '(key, res, now) => (Record_ opts key res now t).1) h ∅.

(** The searches without results since the last one that found something, and when
    the last of them was. *)
Definition tally (key : bytes) (acc : Z * Z) (e : event) : Z * Z :=
  let '(k, res, now) := e in
  if bool_decide (k = key) then
    match res with
    | ResultFound => (0, 0)
    | ResultNoResult => (acc.1 + 1, now)
    | _ => acc
    end
  else acc.

Definition no_results (key : bytes) (h : list event) : Z * Z := fold_left (tally key) h (0, 0).

(** The row the table keeps for a tally. *)
Definition row_of (n last : Z) : option budget_row :=
  if n =? 0 then None
  else Some (MkRow (Z.min n (Cap opts)) (if Cap opts <=? n then Some (last + Suppress opts) else None) last).

Lemma no_results_snoc key h e : no_results key (h ++ [e]) = tally key (no_results key h) e.
Proof. unfold no_results. by rewrite fold_left_app. Qed.

Lemma no_results_nonneg key h : 0 <= (no_results key h).1.
Proof.
  induction h as [|[[k res] now] h IH] using rev_ind; [done|]. rewrite no_results_snoc. unfold tally.
  destruct (bool_decide (k = key)), res; cbn; lia.
Qed.

Lemma record_other key k res now t : k <> key -> (Record_ opts k res now t).1 !! key = t !! key.
Proof.
  intros Hk. destruct res; cbn; try done.
  - unfold StoreReset. destruct (bool_decide (k = [])); [done|]. cbn. by rewrite lookup_delete_ne.
  - unfold call_bind, StoreNoResult. destruct (_ || _); [done|]. unfold StoreGet. rewrite lookup_insert_eq. cbn.
    by rewrite lookup_insert_ne.
Qed.

Lemma replay_row key h : key <> [] -> 1 <= Cap opts -> 0 < Suppress opts ->
  replay h !! key = row_of (no_results key h).1 (no_results key h).2.
Proof.
  intros Hkey Hcap Hsup. induction h as [|[[k res] now] h IH] using rev_ind; [done|].
  unfold replay. rewrite fold_left_app, no_results_snoc. cbn [fold_left]. fold (replay h). unfold tally.
  destruct (decide (k = key)) as [->|Hk]; [|rewrite bool_decide_false by done; by rewrite record_other].
  rewrite bool_decide_true by done. destruct res; cbn; try done.
  - unfold StoreReset. rewrite bool_decide_false by done. cbn. by rewrite lookup_delete_eq.
  - unfold call_bind, StoreNoResult. rewrite (bool_decide_false (key = [])) by done.
    destruct (Z.ltb_spec (Cap opts) 1); [lia|]. destruct (Z.leb_spec (Suppress opts) 0); [lia|]. cbn [orb].
    unfold StoreGet. rewrite lookup_insert_eq. cbn. rewrite lookup_insert_eq, IH.
    pose proof (no_results_nonneg key h). destruct (no_results key h) as [n last]. cbn [fst snd] in *. unfold row_of.
    destruct (Z.eqb_spec (n + 1) 0); [lia|]. destruct (Z.eqb_spec n 0) as [->|]; unfold first_row, next_row.
    + f_equal. rewrite Z.min_l by lia. change (0 + 1) with 1. done.
    + cbn. f_equal. destruct (Z.leb_spec (Cap opts) n), (Z.leb_spec (Cap opts) (Z.min n (Cap opts) + 1)),
        (Z.leb_spec (Cap opts) (n + 1)); try lia; f_equal; lia.
Qed.

End History.

(** A budget counts.  After any history of results recorded for any
    identities, an identity may search exactly when it has seen fewer searches
    without results than the limit since its last find, or when the suppression after
    the last of them is over; the table never holds a count above the limit, results
    of filters, providers and accounts change nothing, nor does another
    identity's, and a result that is unknown or an identity without a key fails and
    changes nothing. *)
Theorem budget_history opts h : 1 <= Cap opts -> 0 < Suppress opts ->
  (forall key now, key <> [] -> 0 <= now ->
     (Allowed key now (replay opts h)).2 =
       ((if (no_results key h).1 <? Cap opts then true else (no_results key h).2 + Suppress opts <=? now), None)) /\
  (forall key row, replay opts h !! key = Some row -> key <> [] -> 1 <= consecutive_no_results row <= Cap opts) /\
  (forall key res now t, res <> ResultFound -> res <> ResultNoResult -> (Record_ opts key res now t).1 = t) /\
  (forall key k res now t, k <> key -> (Record_ opts k res now t).1 !! key = t !! key) /\
  (forall key s now t, (Record_ opts key (ResultOther s) now t).2 <> None) /\
  (forall now t, (Record_ opts [] ResultNoResult now t).1 = t /\ (Record_ opts [] ResultNoResult now t).2 <> None).
Proof.
  intros Hcap Hsup. split_and!.
  - intros key now Hkey Hnow. pose proof (replay_row opts key h Hkey Hcap Hsup) as E. unfold Allowed, call_bind. cbn. unfold StoreGet.
    rewrite E. pose proof (no_results_nonneg key h). destruct (no_results key h) as [n last]. unfold row_of. cbn [fst snd] in *.
    destruct (Z.eqb_spec n 0) as [->|]; cbn; [by destruct (Z.ltb_spec 0 (Cap opts)); [|lia]|].
    destruct (Z.leb_spec (Cap opts) n), (Z.ltb_spec n (Cap opts)); try lia; cbn; do 2 f_equal;
      [destruct (Z.ltb_spec now (last + Suppress opts)), (Z.leb_spec (last + Suppress opts) now); try done; lia|].
    destruct (Z.ltb_spec now 0); [lia|done].
  - intros key row Hrow Hkey. rewrite (replay_row opts key h Hkey Hcap Hsup) in Hrow. pose proof (no_results_nonneg key h).
    unfold row_of in Hrow. destruct (Z.eqb_spec (no_results key h).1 0); [done|]. injection Hrow as <-. cbn. lia.
  - intros key [] now t ? ?; done.
  - intros key k res now t. apply record_other.
  - done.
  - intros now t. done.
Qed.

Lemma budget_history_witness : exists h key now, (Allowed key now (replay (MkOptions 2 100) h)).2 = (false, None).
Proof.
  exists [([1], ResultNoResult, 5); ([2], ResultFound, 6); ([1], ResultNoResult, 7)], [1], 50.
  destruct (budget_history (MkOptions 2 100) [([1], ResultNoResult, 5); ([2], ResultFound, 6); ([1], ResultNoResult, 7)])
    as (H & _); [done|done|]. rewrite H; done.
Defined.

(** ** Canonical keys *)

Record ProviderIDs := MkIDs { TVDB : bytes; TMDB : bytes; IMDB : bytes }.

Record EpisodeProviderIDs := MkEpisodeIDs {
  e_Season : Z; e_Episode : Z; e_TVDB : bytes; e_TMDB : bytes; e_IMDB : bytes; e_RuntimeMinutes : Z
}.

Record ProviderIdentity := MkIdentity {
  Kind : bytes; Title : bytes; IDs : ProviderIDs; Episodes : list EpisodeProviderIDs;
  Year : Z; RuntimeMinutes : Z
}.

Definition numericID (raw : bytes) : bytes :=
  let raw := TrimSpace raw in
  if bool_decide (raw = []) || (20 <? Z.of_nat (length raw)) then []
  else if negb (forallb is_digit raw) then []
  else drop_zeros raw.

Definition imdbID (raw : bytes) : bytes :=
  let raw := ascii_lower (TrimSpace raw) in
  if (Z.of_nat (length raw) <? 3) || (20 <? Z.of_nat (length raw)) || negb (bool_decide (take 2 raw = str "tt")) then []
  else if bool_decide (numericID (drop 2 raw) = []) then []
  else str "tt" ++ numericID (drop 2 raw).

Definition firstID (identity : ProviderIdentity) : bytes * bytes :=
  if negb (bool_decide (numericID (TVDB (IDs identity)) = [])) then (str "tvdb", numericID (TVDB (IDs identity)))
  else if negb (bool_decide (numericID (TMDB (IDs identity)) = [])) then (str "tmdb", numericID (TMDB (IDs identity)))
  else if negb (bool_decide (imdbID (IMDB (IDs identity)) = [])) then (str "imdb", imdbID (IMDB (IDs identity)))
  else ([], []).

(** [None] is the key the code abstains from. *)
Definition CanonicalKey (identity : option ProviderIdentity) (season episode : Z) : option bytes :=
  match identity with
  | None => None
  | Some identity =>
      if negb (bool_decide (Kind identity = str "series")) && negb (bool_decide (Kind identity = str "movie")) then None
      else if (season <? 0) || (episode <? 0) || ((0 <? episode) && (season <? 1)) then None
      else
        let (idType, id) := firstID identity in
        if bool_decide (id = []) then None
        else
          let parts := [Kind identity; idType; id] in
          let parts := if bool_decide (Kind identity = str "series") then parts ++ [itoa season; itoa episode] else parts in
          Some (strings_Join 58 parts)
  end.

(** *** What a key stands for *)

(** The number an identifier is, when it is positive and short enough. *)
Definition id_number (raw : bytes) : option Z :=
  let raw := TrimSpace raw in
  if (Z.of_nat (length raw) <=? 20) && forallb is_digit raw && (0 <? digits_value raw) then Some (digits_value raw) else None.

Definition imdb_number (raw : bytes) : option Z :=
  let raw := ascii_lower (TrimSpace raw) in
  if (Z.of_nat (length raw) <=? 20) && bool_decide (take 2 raw = str "tt") then id_number (drop 2 raw) else None.

Inductive catalog : Type := Tvdb | Tmdb | Imdb.

Definition catalog_number (ids : ProviderIDs) : option (catalog * Z) :=
  match id_number (TVDB ids), id_number (TMDB ids), imdb_number (IMDB ids) with
  | Some n, _, _ => Some (Tvdb, n)
  | None, Some n, _ => Some (Tmdb, n)
  | None, None, Some n => Some (Imdb, n)
  | None, None, None => None
  end.

(** The subject of a search: a movie, or an episode, a season or a whole series. *)
Definition subject (identity : option ProviderIdentity) (season episode : Z) : option (catalog * Z * option (Z * Z)) :=
  match identity with
  | None => None
  | Some identity =>
      if (0 <=? season) && (0 <=? episode) && ((episode =? 0) || (1 <=? season)) then
        match catalog_number (IDs identity) with
        | Some (c, n) =>
            if bool_decide (Kind identity = str "series") then Some (c, n, Some (season, episode))
            else if bool_decide (Kind identity = str "movie") then Some (c, n, None)
            else None
        | None => None
        end
      else None
  end.

Definition catalog_text (c : catalog) : bytes := match c with Tvdb => str "tvdb" | Tmdb => str "tmdb" | Imdb => str "imdb" end.

Definition subject_parts (s : catalog * Z * option (Z * Z)) : list bytes :=
  let '(c, n, ep) := s in
  [match ep with Some _ => str "series" | None => str "movie" end; catalog_text c; (match c with Imdb => str "tt" | _ => [] end) ++ dec n] ++
  match ep with Some (season, episode) => [dec season; dec episode] | None => [] end.

Lemma numericID_number raw : numericID raw = match id_number raw with Some n => dec n | None => [] end.
Proof.
  unfold numericID, id_number. set (s := TrimSpace raw). destruct (Z.ltb_spec 20 (Z.of_nat (length s))).
  - destruct (Z.leb_spec (Z.of_nat (length s)) 20); [lia|]. by rewrite orb_true_r.
  - destruct (Z.leb_spec (Z.of_nat (length s)) 20); [|lia]. rewrite orb_false_r. destruct (bool_decide (s = [])) eqn:E; bool_hyps.
    + by rewrite E.
    + destruct (forallb is_digit s) eqn:Hd; [|done]. cbn [negb andb]. rewrite drop_zeros_dec by done. by destruct (0 <? digits_value s).
Qed.

Lemma id_number_pos raw n : id_number raw = Some n -> 0 < n.
Proof. unfold id_number. destruct (_ && _) eqn:E; [|done]. intros [= <-]. bool_hyps. lia. Qed.

Lemma budget_dec_not_nil n : dec n <> [].
Proof. destruct (dec_nonempty n) as (c & l & ->). done. Qed.

Lemma imdbID_number raw : imdbID raw = match imdb_number raw with Some n => str "tt" ++ dec n | None => [] end.
Proof.
  unfold imdbID, imdb_number. set (s := ascii_lower (TrimSpace raw)). rewrite numericID_number.
  destruct (Z.ltb_spec 20 (Z.of_nat (length s))), (Z.leb_spec (Z.of_nat (length s)) 20); try lia; [by rewrite orb_true_r|].
  destruct (bool_decide (take 2 s = str "tt")) eqn:Ht; cbn [negb andb]; [|by rewrite orb_true_r]. bool_hyps.
  destruct (Z.ltb_spec (Z.of_nat (length s)) 3) as [Hl|]; cbn [orb].
  - assert (E : drop 2 s = []) by (apply drop_ge; lia). by rewrite E.
  - destruct (id_number (drop 2 s)) as [n|]; [|done]. by rewrite bool_decide_false by apply budget_dec_not_nil.
Qed.

Lemma firstID_number identity : firstID identity =
  match catalog_number (IDs identity) with
  | Some (c, n) => (catalog_text c, (match c with Imdb => str "tt" | _ => [] end) ++ dec n)
  | None => ([], [])
  end.
Proof.
  unfold firstID, catalog_number. rewrite !numericID_number, imdbID_number.
  destruct (id_number (TVDB _)) as [n|]; [by rewrite (bool_decide_false (dec n = [])) by apply budget_dec_not_nil|].
  destruct (id_number (TMDB _)) as [n|]; [by rewrite (bool_decide_false (dec n = [])) by apply budget_dec_not_nil|].
  destruct (imdb_number _) as [n|]; [|done]. by rewrite (bool_decide_false (str "tt" ++ dec n = [])) by done.
Qed.

Lemma season_guard season episode :
  (season <? 0) || (episode <? 0) || ((0 <? episode) && (season <? 1)) =
  negb ((0 <=? season) && (0 <=? episode) && ((episode =? 0) || (1 <=? season))).
Proof.
  destruct (Z.ltb_spec season 0), (Z.leb_spec 0 season), (Z.ltb_spec episode 0), (Z.leb_spec 0 episode), (Z.ltb_spec 0 episode),
    (Z.eqb_spec episode 0), (Z.ltb_spec season 1), (Z.leb_spec 1 season); try lia; done.
Qed.

Lemma CanonicalKey_subject identity season episode :
  CanonicalKey identity season episode = (strings_Join 58 ∘ subject_parts) <$> subject identity season episode.
Proof.
  destruct identity as [identity|]; [|done]. unfold CanonicalKey, subject. rewrite firstID_number, season_guard.
  destruct ((0 <=? season) && (0 <=? episode) && ((episode =? 0) || (1 <=? season))) eqn:E.
  2: { by destruct (negb (bool_decide (Kind identity = str "series")) && negb (bool_decide (Kind identity = str "movie"))). }
  bool_hyps. unfold itoa. destruct (Z.ltb_spec season 0); [lia|]. destruct (Z.ltb_spec episode 0); [lia|]. cbn [negb].
  destruct (catalog_number (IDs identity)) as [[c n]|];
    [|by destruct (negb (bool_decide (Kind identity = str "series")) && negb (bool_decide (Kind identity = str "movie")))].
  assert (Hid : (match c with Imdb => str "tt" | _ => [] end) ++ dec n <> []) by (destruct c; [apply budget_dec_not_nil..|done]).
  rewrite (bool_decide_false (_ ++ dec n = [])) by exact Hid.
  destruct (bool_decide (Kind identity = str "series")) eqn:Es; bool_hyps; [by rewrite Es|].
  destruct (bool_decide (Kind identity = str "movie")) eqn:Em; bool_hyps; [by rewrite Em|done].
Qed.

Lemma catalog_number_pos ids c n : catalog_number ids = Some (c, n) -> 0 < n.
Proof.
  unfold catalog_number. destruct (id_number (TVDB ids)) as [n1|] eqn:E1; [intros [= _ <-]; by apply id_number_pos in E1|].
  destruct (id_number (TMDB ids)) as [n2|] eqn:E2; [intros [= _ <-]; by apply id_number_pos in E2|].
  unfold imdb_number. set (s := ascii_lower _). destruct ((Z.of_nat (length s) <=? 20) && _); [|done].
  destruct (id_number (drop 2 s)) as [n3|] eqn:E3; [|done]. intros [= _ <-]. by apply id_number_pos in E3.
Qed.

Lemma subject_ranges identity season episode c n ep : subject identity season episode = Some (c, n, ep) ->
  0 < n /\ match ep with Some (s, e) => 0 <= s /\ 0 <= e | None => True end.
Proof.
  destruct identity as [identity|]; [|done]. unfold subject.
  destruct ((0 <=? season) && (0 <=? episode) && ((episode =? 0) || (1 <=? season))) eqn:E; [|done]. bool_hyps.
  destruct (catalog_number (IDs identity)) as [[c' n']|] eqn:Ec; [|done]. apply catalog_number_pos in Ec.
  repeat case_bool_decide; intros [= <- <- <-]; done.
Qed.

(** *** Keys are plain text and tell subjects apart *)

Definition key_char (c : Z) : bool := is_digit c || is_lower c.

Lemma key_char_no_colon s : forallb key_char s = true -> 58 ∉ s.
Proof. intros H Hin. rewrite forallb_forall in H. apply list_elem_of_In in Hin. by apply H in Hin. Qed.

Lemma dec_key_char n : 0 <= n -> forallb key_char (dec n) = true.
Proof.
  intros Hn. pose proof (dec_all n Hn) as Hd. rewrite forallb_forall in *. intros c Hc. unfold key_char. by rewrite Hd.
Qed.

Lemma parts_key_char identity season episode s : subject identity season episode = Some s ->
  Forall (fun p => forallb key_char p = true) (subject_parts s).
Proof.
  destruct s as [[c n] ep]. intros Hs%subject_ranges. destruct Hs as [Hn Hep].
  assert (Hd : forallb key_char (dec n) = true) by (apply dec_key_char; lia).
  unfold subject_parts. apply Forall_app. split.
  - repeat constructor; [by destruct ep|by destruct c|destruct c; [done..|by rewrite forallb_app, Hd]].
  - destruct ep as [[a b]|]; [|constructor]. repeat constructor; apply dec_key_char; lia.
Qed.

Lemma parts_inj i1 s1 e1 i2 s2 e2 a b : subject i1 s1 e1 = Some a -> subject i2 s2 e2 = Some b ->
  subject_parts a = subject_parts b -> a = b.
Proof.
  destruct a as [[c n] ep], b as [[c' n'] ep']. intros [Hn Hep]%subject_ranges [Hn' Hep']%subject_ranges E.
  unfold subject_parts in E. cbn [app] in E. injection E as _ Hc Hid Ht.
  assert (c = c') as <- by (destruct c, c'; done). assert (n = n') as <-.
  { apply dec_inj; [lia|lia|]. by apply app_inv_head in Hid. }
  destruct ep as [[a b]|], ep' as [[a' b']|]; try done. injection Ht as Ha Hb.
  apply dec_inj in Ha, Hb; try lia. by subst.
Qed.

(** A canonical key stands for one subject.  An identity has a key exactly when
    it is a movie or a series, the season and the episode are in range, and one of
    its catalog identifiers is a positive number; two searches share a key exactly
    when they are for the same number of the same catalog and, for a series, the same
    season and episode, however the identifiers are written; and a key has only digits,
    lower-case letters and colons. *)
Theorem canonical_key_identity :
  (forall identity season episode,
     CanonicalKey identity season episode = None <-> subject identity season episode = None) /\
  (forall i1 s1 e1 i2 s2 e2,
     CanonicalKey i1 s1 e1 = CanonicalKey i2 s2 e2 <-> subject i1 s1 e1 = subject i2 s2 e2) /\
  (forall identity season episode k, CanonicalKey identity season episode = Some k ->
     forallb (fun c => key_char c || (c =? 58)) k = true).
Proof.
  split_and!.
  - intros *. rewrite CanonicalKey_subject. by destruct (subject _ _ _).
  - intros *. rewrite !CanonicalKey_subject. split; [|by intros ->].
    destruct (subject i1 s1 e1) as [a|] eqn:Ea, (subject i2 s2 e2) as [b|] eqn:Eb; try done. intros [= E]. f_equal.
    assert (Hc : forall i s e x, subject i s e = Some x -> Forall (fun p => 58 ∉ p) (subject_parts x)).
    { intros i s e x Hx%parts_key_char. eapply list.Forall_impl; [exact Hx|]. apply key_char_no_colon. }
    apply strings_Join_inj in E; [by eapply parts_inj|by destruct a as [[? ?] ?]|by destruct b as [[? ?] ?]|by eapply Hc..].
  - intros identity season episode k. rewrite CanonicalKey_subject. destruct (subject _ _ _) as [s|] eqn:Es; [|done].
    intros [= <-]. apply parts_key_char in Es. cbn [compose]. revert Es. generalize (subject_parts s) as ps.
    assert (Hp : forall p, forallb key_char p = true -> forallb (fun c => key_char c || (c =? 58)) p = true).
    { intros p H. rewrite forallb_forall in *. intros c Hc. by rewrite H. }
    induction 1 as [|p ps H Hps IH]; [done|]. destruct ps as [|q ps]; [by apply Hp|]. cbn [strings_Join].
    rewrite forallb_app, Hp by done. cbn [forallb andb]. exact IH.
Qed.

(** ** Admissions *)

Definition maxActiveIdentities : nat := 1024.

(** The gate is a channel of one token. *)
Record admission := MkAdmission { gate : bool; refs : Z }.

Record admissions := MkAdmissions {
  active : gmap bytes nat;
  heap : gmap nat admission;
  next : nat
}.

Definition no_admissions : admissions := MkAdmissions ∅ ∅ 0.

(** The first locked section of [Begin]; [None] is the error of a full service. *)
Definition enter (s : admissions) (key : bytes) : option (admissions * nat) :=
  match active s !! key with
  | Some a =>
      match heap s !! a with
      | Some adm => Some (MkAdmissions (active s) (<[a := MkAdmission (gate adm) (refs adm + 1)]> (heap s)) (next s), a)
      | None => None
      end
  | None =>
      if (maxActiveIdentities <=? size (active s))%nat then None
      else
        let a := next s in
        Some (MkAdmissions (<[key := a]> (active s)) (<[a := MkAdmission true 1]> (heap s)) (S a), a)
  end.

(** [<-a.gate]; [None] blocks. *)
Definition receive (s : admissions) (a : nat) : option admissions :=
  match heap s !! a with
  | Some adm => if gate adm then Some (MkAdmissions (active s) (<[a := MkAdmission false (refs adm)]> (heap s)) (next s)) else None
  | None => None
  end.

Definition dropAdmissionLocked (s : admissions) (key : bytes) (a : nat) : admissions :=
  match heap s !! a with
  | Some adm =>
      let heap' := <[a := MkAdmission (gate adm) (refs adm - 1)]> (heap s) in
      MkAdmissions (if refs adm - 1 =? 0 then delete key (active s) else active s) heap' (next s)
  | None => s
  end.

(** [a.gate <- struct{}{}]; [None] blocks, with the service locked. *)
Definition send (s : admissions) (a : nat) : option admissions :=
  match heap s !! a with
  | Some adm => if gate adm then None else Some (MkAdmissions (active s) (<[a := MkAdmission true (refs adm)]> (heap s)) (next s))
  | None => None
  end.

(** The closure [release], over its variable [released]. *)
Definition release (s : admissions) (key : bytes) (a : nat) (released : bool) : option admissions :=
  if released then Some s else (fun s => dropAdmissionLocked s key a) <$> send s a.

(** *** Callers

    A caller calls [Begin] and, when that returns a [release], may record one
    result before it releases, as a search does; [Begin] itself releases when the
    budget cannot be read.  [seen] is the row the budget was judged by. *)
Inductive thread : Type :=
| TBegin (key : bytes) (a : nat)                          (* in the select *)
| TAllowed (key : bytes) (a : nat)                        (* about to read the budget *)
| THeld (key : bytes) (a : nat) (seen : option budget_row) (recorded : bool)
| TReleased (key : bytes) (a : nat).

Record sys := Sys { service : admissions; table : budget_table; threads : list thread }.

Inductive step (opts : Options) : sys -> sys -> Prop :=
| step_begin s t ts key s' a : enter s key = Some (s', a) ->
    step opts (Sys s t ts) (Sys s' t (TBegin key a :: ts))
| step_cancel s t ts rest key a : ts ≡ₚ TBegin key a :: rest ->
    step opts (Sys s t ts) (Sys (dropAdmissionLocked s key a) t rest)
| step_gate s t ts rest key a s' : ts ≡ₚ TBegin key a :: rest -> receive s a = Some s' ->
    step opts (Sys s t ts) (Sys s' t (TAllowed key a :: rest))
| step_allowed s t ts rest key a : ts ≡ₚ TAllowed key a :: rest ->
    step opts (Sys s t ts) (Sys s t (THeld key a (t !! key) false :: rest))
| step_unread s t ts rest key a s' : ts ≡ₚ TAllowed key a :: rest -> release s key a false = Some s' ->
    step opts (Sys s t ts) (Sys s' t rest)
| step_record s t ts rest key a seen res now : ts ≡ₚ THeld key a seen false :: rest ->
    step opts (Sys s t ts) (Sys s (Record_ opts key res now t).1 (THeld key a seen true :: rest))
| step_release s t ts rest key a seen recorded s' : ts ≡ₚ THeld key a seen recorded :: rest -> release s key a false = Some s' ->
    step opts (Sys s t ts) (Sys s' t (TReleased key a :: rest))
| step_again s t ts rest key a s' : ts ≡ₚ TReleased key a :: rest -> release s key a true = Some s' ->
    step opts (Sys s t ts) (Sys s' t ts).

Inductive reachable (opts : Options) : sys -> Prop :=
| reach_init t : reachable opts (Sys no_admissions t [])
| reach_step x y : reachable opts x -> step opts x y -> reachable opts y.

(** Who refers to an admission, and who is past its gate. *)
Definition user (t : thread) : option (bytes * nat) :=
  match t with TBegin k a | TAllowed k a | THeld k a _ _ => Some (k, a) | TReleased _ _ => None end.
Definition uses (a : nat) (t : thread) : bool := match user t with Some (_, a') => Nat.eqb a' a | None => false end.
Definition past (a : nat) (t : thread) : bool :=
  match t with TAllowed _ a' | THeld _ a' _ _ => Nat.eqb a' a | _ => false end.
Definition inside (key : bytes) (t : thread) : bool :=
  match t with TAllowed k _ | THeld k _ _ _ => bool_decide (k = key) | _ => false end.

Record inv (s : admissions) (t : budget_table) (ts : list thread) : Prop := {
  v_fresh : forall a adm, heap s !! a = Some adm -> (a < next s)%nat;
  v_refs : forall a adm, heap s !! a = Some adm -> refs adm = count_by (uses a) ts;
  v_gate : forall a adm, heap s !! a = Some adm -> count_by (past a) ts = if gate adm then 0 else 1;
  v_map : forall key a, active s !! key = Some a -> exists adm, heap s !! a = Some adm /\ 0 < refs adm;
  v_user : forall x key a, x ∈ ts -> user x = Some (key, a) -> active s !! key = Some a;
  v_inj : forall k1 k2 a, active s !! k1 = Some a -> active s !! k2 = Some a -> k1 = k2;
  v_size : (size (active s) <= maxActiveIdentities)%nat;
  v_seen : forall key a seen, THeld key a seen false ∈ ts -> t !! key = seen
}.

Lemma budget_inv_perm s t ts ts' : ts ≡ₚ ts' -> inv s t ts -> inv s t ts'.
Proof.
  intros P []. split; try done.
  - intros a adm. rewrite <-(count_perm _ _ _ P). auto.
  - intros a adm. rewrite <-(count_perm _ _ _ P). auto.
  - intros x key a. rewrite <-P. eauto.
  - intros key a seen. rewrite <-P. eauto.
Qed.

Lemma count_zero {A} (f : A -> bool) l : (forall x, x ∈ l -> f x = false) -> count_by f l = 0.
Proof.
  intros H. pose proof (count_nonneg f l). destruct (decide (0 < count_by f l)) as [Hp|]; [|lia].
  apply count_pos in Hp as (x & Hx & Hf). rewrite H in Hf by done. done.
Qed.

(** A caller begins. *)
Lemma enter_inv s t ts key s' a : inv s t ts -> enter s key = Some (s', a) -> inv s' t (TBegin key a :: ts).
Proof.
  intros [Hfresh Hrefs Hgate Hmap Huser Hinj Hsize Hseen] E. unfold enter in E.
  destruct (active s !! key) as [b|] eqn:Hk.
  - destruct (Hmap key b Hk) as (adm & Hadm & Hpos). rewrite Hadm in E. injection E as <- <-.
    split; cbn [active heap next]; try done.
    + intros a' adm' [[<- _]|[_ H]]%lookup_insert_Some; eauto.
    + intros a' adm' [[<- <-]|[Hne H]]%lookup_insert_Some; rewrite count_cons; unfold uses at 1; cbn [user refs].
      * rewrite Nat.eqb_refl. rewrite (Hrefs b adm Hadm). lia.
      * destruct (Nat.eqb_spec b a'); [done|]. rewrite (Hrefs a' adm' H). lia.
    + intros a' adm' [[<- <-]|[Hne H]]%lookup_insert_Some; rewrite count_cons; cbn [past gate]; [rewrite (Hgate b adm Hadm)|rewrite (Hgate a' adm' H)]; lia.
    + intros k a' H. destruct (Hmap k a' H) as (adm' & H' & Hp). destruct (decide (a' = b)) as [->|Hne].
      * rewrite lookup_insert_eq. eexists. split; [done|]. cbn. lia.
      * rewrite lookup_insert_ne by done. eauto.
    + intros x k a' [->|Hx]%list.elem_of_cons Hu; [by injection Hu as <- <-|eauto].
    + intros k a' seen [?|H]%list.elem_of_cons; [done|eauto].
  - destruct (Nat.leb_spec maxActiveIdentities (size (active s))); [done|]. injection E as <- <-.
    assert (Hnone : heap s !! next s = None).
    { destruct (heap s !! next s) as [adm|] eqn:Ha; [|done]. apply Hfresh in Ha. lia. }
    assert (Hno : forall x k a', x ∈ ts -> user x = Some (k, a') -> a' <> next s).
    { intros x k a' Hx Hu ->. destruct (Hmap k _ (Huser x k _ Hx Hu)) as (adm & Ha & _). congruence. }
    assert (Huses : count_by (uses (next s)) ts = 0).
    { apply count_zero. intros x Hx. unfold uses. destruct (user x) as [[k a']|] eqn:Hu; [|done].
      apply Nat.eqb_neq. eauto. }
    assert (Hpast : count_by (past (next s)) ts = 0).
    { apply count_zero. intros x Hx. destruct x; try done; cbn; apply Nat.eqb_neq; by eapply Hno. }
    split; cbn [active heap next].
    + intros a' adm' [[<- _]|[_ H']]%lookup_insert_Some; [lia|]. apply Hfresh in H'. lia.
    + intros a' adm' [[<- <-]|[Hne H']]%lookup_insert_Some; rewrite count_cons; unfold uses at 1; cbn [user refs].
      * rewrite Nat.eqb_refl, Huses. done.
      * destruct (Nat.eqb_spec (next s) a'); [done|]. rewrite (Hrefs a' adm' H'). lia.
    + intros a' adm' [[<- <-]|[Hne H']]%lookup_insert_Some; rewrite count_cons; cbn [past gate]; [lia|rewrite (Hgate a' adm' H'); lia].
    + intros k a' [[<- <-]|[Hne H']]%lookup_insert_Some; [rewrite lookup_insert_eq; eexists; split; [done|]; cbn; lia|].
      destruct (Hmap k a' H') as (adm' & Ha' & Hp). rewrite lookup_insert_ne by congruence. eauto.
    + intros x k a' [->|Hx]%list.elem_of_cons Hu; [injection Hu as <- <-; by rewrite lookup_insert_eq|].
      pose proof (Huser x k a' Hx Hu). rewrite lookup_insert_ne by congruence. done.
    + intros k1 k2 a' [[<- <-]|[Hne1 H1]]%lookup_insert_Some [[<- E2]|[Hne2 H2]]%lookup_insert_Some; try done; [| |eauto].
      * destruct (Hmap k2 _ H2) as (adm & Ha & _). congruence.
      * subst a'. destruct (Hmap k1 _ H1) as (adm & Ha & _). congruence.
    + rewrite map_size_insert_None by done. lia.
    + intros k a' seen [?|H']%list.elem_of_cons; [done|eauto].
Qed.

Definition with_admission (s : admissions) (a : nat) (adm : admission) : admissions :=
  MkAdmissions (active s) (<[a := adm]> (heap s)) (next s).

Lemma with_same s a adm : heap s !! a = Some adm -> with_admission s a adm = s.
Proof. intros H. destruct s. unfold with_admission. cbn in *. by rewrite insert_id. Qed.

Lemma past_user a x : past a x = true -> exists key, user x = Some (key, a).
Proof. destruct x; try done; cbn; intros ->%Nat.eqb_eq; eauto. Qed.

Lemma past_other x a a' key : user x = Some (key, a) -> a' <> a -> past a' x = false.
Proof. intros Hu Hne. destruct (past a' x) eqn:E; [|done]. apply past_user in E as (k & E). congruence. Qed.

Lemma uses_user x a a' key : user x = Some (key, a) -> uses a' x = Nat.eqb a a'.
Proof. intros Hu. unfold uses. by rewrite Hu. Qed.

(** The admission a caller refers to. *)
Lemma user_admission s t ts x key a : inv s t ts -> x ∈ ts -> user x = Some (key, a) ->
  exists adm, heap s !! a = Some adm /\ 0 < refs adm.
Proof. intros Hi Hx Hu. eapply v_map; [done|]. by eapply v_user. Qed.

(** A caller moves on without letting go of its admission. *)
Lemma move_inv s t t' rest x y key a adm (g : bool) : inv s t (x :: rest) -> user x = Some (key, a) -> user y = Some (key, a) ->
  heap s !! a = Some adm -> count_by (past a) (y :: rest) = (if g then 0 else 1) ->
  (forall k a' seen, THeld k a' seen false ∈ y :: rest -> t' !! k = seen) ->
  inv (with_admission s a (MkAdmission g (refs adm))) t' (y :: rest).
Proof.
  intros [Hfresh Hrefs Hgate Hmap Huser Hinj Hsize Hseen] Hux Huy Ha Hg Hs. unfold with_admission.
  assert (Hc : forall a', count_by (uses a') (y :: rest) = count_by (uses a') (x :: rest)).
  { intros a'. by rewrite !count_cons, (uses_user x a a' key), (uses_user y a a' key). }
  split; cbn [active heap next]; try done.
  - intros a' adm' [[<- _]|[_ H]]%lookup_insert_Some; eauto.
  - intros a' adm' [[<- <-]|[Hne H]]%lookup_insert_Some; rewrite Hc; cbn; eauto.
  - intros a' adm' [[<- <-]|[Hne H]]%lookup_insert_Some; [done|]. rewrite count_cons, (past_other y a a' key) by done.
    pose proof (Hgate a' adm' H) as E. by rewrite count_cons, (past_other x a a' key) in E by done.
  - intros k a' H. destruct (Hmap k a' H) as (adm' & H' & Hp). destruct (decide (a' = a)) as [->|Hne].
    + rewrite lookup_insert_eq. eexists. split; [done|]. cbn. congruence.
    + rewrite lookup_insert_ne by done. eauto.
  - intros z k a' [->|Hz]%list.elem_of_cons Hu; [apply (Huser x); [left|congruence]|apply (Huser z); [by right|done]].
Qed.

(** A caller lets go of its admission. *)
Lemma budget_leave_inv s t rest x key a adm (g : bool) : inv s t (x :: rest) -> user x = Some (key, a) -> heap s !! a = Some adm ->
  count_by (past a) rest = (if g then 0 else 1) ->
  inv (dropAdmissionLocked (with_admission s a (MkAdmission g (refs adm))) key a) t rest.
Proof.
  intros [Hfresh Hrefs Hgate Hmap Huser Hinj Hsize Hseen] Hu Ha Hg. unfold dropAdmissionLocked, with_admission.
  cbn [heap active next]. rewrite lookup_insert_eq. cbn [gate refs]. rewrite insert_insert_eq.
  pose proof (Hrefs a adm Ha) as Hr. rewrite count_cons, (uses_user x a a key Hu), Nat.eqb_refl in Hr.
  pose proof (Huser x key a ltac:(left) Hu) as Hk.
  assert (Hin : forall z, z ∈ rest -> z ∈ x :: rest) by (intros; by right).
  assert (Hgone : refs adm - 1 = 0 -> forall z k, z ∈ rest -> user z <> Some (k, a)).
  { intros Hz z k Hin' Hu'. assert (0 < count_by (uses a) rest); [|lia]. apply count_pos. exists z.
    by rewrite (uses_user z a a k Hu'), Nat.eqb_refl. }
  set (act := if refs adm - 1 =? 0 then delete key (active s) else active s).
  assert (Hact : forall k b, act !! k = Some b <-> active s !! k = Some b /\ (refs adm - 1 = 0 -> k <> key)).
  { intros k b. unfold act. destruct (Z.eqb_spec (refs adm - 1) 0); [|naive_solver]. rewrite lookup_delete_Some. naive_solver. }
  split; cbn [active heap next].
  - intros a' adm' [[<- _]|[_ H]]%lookup_insert_Some; eauto.
  - intros a' adm' [[<- <-]|[Hne H]]%lookup_insert_Some; [cbn; lia|]. pose proof (Hrefs a' adm' H) as E.
    rewrite count_cons, (uses_user x a a' key Hu) in E. destruct (Nat.eqb_spec a a'); [done|lia].
  - intros a' adm' [[<- <-]|[Hne H]]%lookup_insert_Some; [done|]. pose proof (Hgate a' adm' H) as E.
    by rewrite count_cons, (past_other x a a' key) in E by done.
  - intros k a' [H Hd]%Hact. destruct (Hmap k a' H) as (adm' & H' & Hp). destruct (decide (a' = a)) as [->|Hne].
    + rewrite lookup_insert_eq. eexists. split; [done|]. cbn. pose proof (count_nonneg (uses a) rest).
      destruct (decide (refs adm - 1 = 0)) as [Hz|]; [|lia]. by destruct (Hd Hz); eapply Hinj.
    + rewrite lookup_insert_ne by done. eauto.
  - intros z k a' Hz Hu'. apply Hact. split; [by apply (Huser z); [apply Hin|]|]. intros H0 ->.
    assert (a' = a) as -> by (pose proof (Huser z key a' (Hin z Hz) Hu'); congruence). by apply (Hgone H0 z key).
  - intros k1 k2 b [H1 _]%Hact [H2 _]%Hact. eauto.
  - unfold act. destruct (refs adm - 1 =? 0); [|done]. rewrite map_size_delete_Some by eauto. lia.
  - intros k b seen H. eapply Hseen. by right.
Qed.

(** At most one caller is past a gate. *)
Lemma past_alone s t rest x a z key : inv s t (x :: rest) -> past a x = true -> user x = Some (key, a) -> z ∈ rest ->
  user z = Some (key, a) -> past a z = false.
Proof.
  intros Hi Hx Hu Hz Huz. destruct (user_admission s t _ x key a Hi ltac:(left) Hu) as (adm & Ha & _).
  pose proof (v_gate _ _ _ Hi a adm Ha) as Hg. rewrite count_cons, Hx in Hg. destruct (past a z) eqn:E; [|done].
  assert (0 < count_by (past a) rest) by (apply count_pos; eauto). destruct (gate adm); lia.
Qed.

Lemma release_runs s t rest x key a : inv s t (x :: rest) -> user x = Some (key, a) -> past a x = true ->
  exists adm, heap s !! a = Some adm /\ count_by (past a) rest = 0 /\
    release s key a false = Some (dropAdmissionLocked (with_admission s a (MkAdmission true (refs adm))) key a).
Proof.
  intros Hi Hu Hp. destruct (user_admission s t _ x key a Hi ltac:(left) Hu) as (adm & Ha & _). exists adm. split; [done|].
  pose proof (v_gate _ _ _ Hi a adm Ha) as Hg. rewrite count_cons, Hp in Hg. pose proof (count_nonneg (past a) rest).
  unfold release, send. rewrite Ha. destruct (gate adm); [lia|]. split; [lia|done].
Qed.

(** A row that was seen stays while nobody inside records. *)
Lemma seen_kept s t x rest y : inv s t (x :: rest) -> (forall k a seen, y = THeld k a seen false -> t !! k = seen) ->
  forall k a seen, THeld k a seen false ∈ y :: rest -> t !! k = seen.
Proof. intros Hi Hy k a seen [E|H]%list.elem_of_cons; [by eapply Hy|]. eapply v_seen; [done|]. by right. Qed.

Lemma gate_inv s t rest key a s' : inv s t (TBegin key a :: rest) -> receive s a = Some s' -> inv s' t (TAllowed key a :: rest).
Proof.
  intros Hi E. unfold receive in E. destruct (heap s !! a) as [adm|] eqn:Ha; [|done]. destruct (gate adm) eqn:Hg; [|done].
  injection E as <-. apply (move_inv s t t rest (TBegin key a) _ key a adm false Hi); try done.
  - pose proof (v_gate _ _ _ Hi a adm Ha) as Hc. rewrite Hg, count_cons in Hc. rewrite count_cons. cbn [past] in *.
    rewrite Nat.eqb_refl. lia.
  - by eapply seen_kept; [done|].
Qed.

Lemma allowed_inv s t rest key a : inv s t (TAllowed key a :: rest) -> inv s t (THeld key a (t !! key) false :: rest).
Proof.
  intros Hi. destruct (user_admission s t _ (TAllowed key a) key a Hi ltac:(left) eq_refl) as (adm & Ha & _).
  rewrite <-(with_same s a adm Ha). destruct adm as [g r]. change r with (refs (MkAdmission g r)) at 1.
  apply (move_inv s t t rest (TAllowed key a) _ key a (MkAdmission g r) g Hi); try done.
  - pose proof (v_gate _ _ _ Hi a _ Ha) as Hc. by rewrite count_cons in *.
  - eapply seen_kept; [done|]. by intros k b seen [= -> _ ->].
Qed.

Lemma record_inv opts s t rest key a seen res now : inv s t (THeld key a seen false :: rest) ->
  inv s (Record_ opts key res now t).1 (THeld key a seen true :: rest).
Proof.
  intros Hi. destruct (user_admission s t _ (THeld key a seen false) key a Hi ltac:(left) eq_refl) as (adm & Ha & _).
  rewrite <-(with_same s a adm Ha). destruct adm as [g r]. change r with (refs (MkAdmission g r)) at 1.
  apply (move_inv s t _ rest (THeld key a seen false) _ key a (MkAdmission g r) g Hi); try done.
  - pose proof (v_gate _ _ _ Hi a _ Ha) as Hc. by rewrite count_cons in *.
  - intros k b seen' [?|H]%list.elem_of_cons; [done|]. destruct (decide (k = key)) as [->|Hne].
    + exfalso. pose proof (v_user _ _ _ Hi (THeld key b seen' false) key b ltac:(by right) eq_refl) as H1.
      pose proof (v_user _ _ _ Hi (THeld key a seen false) key a ltac:(left) eq_refl) as H2. assert (b = a) as -> by congruence.
      pose proof (past_alone s t rest (THeld key a seen false) a (THeld key a seen' false) key Hi) as Hp. cbn in Hp.
      rewrite Nat.eqb_refl in Hp. by discriminate Hp.
    + rewrite record_other by done. eapply v_seen; [done|]. by right.
Qed.

Lemma budget_release_inv s t rest x key a s' : inv s t (x :: rest) -> user x = Some (key, a) -> past a x = true ->
  release s key a false = Some s' -> inv s' t rest.
Proof.
  intros Hi Hu Hp E. destruct (release_runs s t rest x key a Hi Hu Hp) as (adm & Ha & Hz & Hr). rewrite Hr in E. injection E as <-.
  by apply (budget_leave_inv s t rest x key a adm true Hi).
Qed.

Lemma released_inv s t rest key a : inv s t rest -> inv s t (TReleased key a :: rest).
Proof.
  intros []. split; try done.
  - intros x k b [->|H]%list.elem_of_cons; [done|eauto].
  - intros k b seen [?|H]%list.elem_of_cons; [done|eauto].
Qed.

Lemma budget_step_inv opts x y : step opts x y -> inv (service x) (table x) (threads x) -> inv (service y) (table y) (threads y).
Proof.
  intros [s t ts key s' a E|s t ts rest key a P|s t ts rest key a s' P E|s t ts rest key a P|s t ts rest key a s' P E
    |s t ts rest key a seen res now P|s t ts rest key a seen recorded s' P E|s t ts rest key a s' P E]; cbn [service table threads];
    intros Hi; try (apply (budget_inv_perm _ _ _ _ P) in Hi).
  - by eapply enter_inv.
  - destruct (user_admission s t _ (TBegin key a) key a Hi ltac:(left) eq_refl) as (adm & Ha & _).
    rewrite <-(with_same s a adm Ha). destruct adm as [g r]. change r with (refs (MkAdmission g r)) at 1.
    apply (budget_leave_inv s t rest (TBegin key a) key a (MkAdmission g r) g Hi); try done.
    pose proof (v_gate _ _ _ Hi a _ Ha) as Hc. by rewrite count_cons in Hc.
  - by eapply gate_inv.
  - by apply allowed_inv.
  - eapply budget_release_inv; [done|done| |done]. cbn. apply Nat.eqb_refl.
  - by apply record_inv.
  - apply released_inv. eapply budget_release_inv; [done|done| |done]. cbn. apply Nat.eqb_refl.
  - injection E as <-. eapply budget_inv_perm; [symmetry; exact P|done].
Qed.

Lemma budget_reachable_inv opts x : reachable opts x -> inv (service x) (table x) (threads x).
Proof.
  induction 1 as [t|x y _ IH Hs]; [|by eapply budget_step_inv].
  split; cbn; try (by intros *; rewrite lookup_empty); try (by intros * H; exfalso; apply not_elem_of_nil in H).
  rewrite map_size_empty. unfold maxActiveIdentities. lia.
Qed.

Lemma inside_past k x : inside k x = true -> exists a, past a x = true /\ user x = Some (k, a).
Proof. destruct x; try done; cbn; intros H; bool_hyps; subst; eexists; (split; [apply Nat.eqb_refl|done]). Qed.

(** C19. Searches of one identity are serialised.  Whatever callers begin, give up,
    search, record and release, in any order: at most one caller is inside an
    identity at a time, so the budget it was judged by is the one in the table until
    it records its own result; an identity is kept exactly while somebody waits or
    works on it, for at most the limit of identities; a caller that waits can enter
    now or somebody is inside; and a release never blocks while it holds the service's
    lock, and does nothing the second time. *)
Theorem searches_serialised opts x : reachable opts x ->
  (size (active (service x)) <= maxActiveIdentities)%nat /\
  (forall key, is_Some (active (service x) !! key) <-> exists y a, y ∈ threads x /\ user y = Some (key, a)) /\
  (forall key, count_by (inside key) (threads x) <= 1) /\
  (forall key a seen, THeld key a seen false ∈ threads x -> table x !! key = seen) /\
  (forall key a, TBegin key a ∈ threads x ->
     is_Some (receive (service x) a) \/ exists y, y ∈ threads x /\ inside key y = true) /\
  (forall y key a, y ∈ threads x -> user y = Some (key, a) -> past a y = true ->
     is_Some (release (service x) key a false)) /\
  (forall s key a, release s key a true = Some s).
Proof.
  intros Hi%budget_reachable_inv. destruct x as [s t ts]. cbn [service table threads] in *. split_and!.
  - by eapply v_size.
  - intros key. split; [|intros (y & a & Hy & Hu); exists a; by eapply v_user]. intros [a Ha].
    destruct (v_map _ _ _ Hi key a Ha) as (adm & Hadm & Hp). rewrite (v_refs _ _ _ Hi a adm Hadm) in Hp.
    apply count_pos in Hp as (y & Hy & Hu). unfold uses in Hu. destruct (user y) as [[k b]|] eqn:E; [|done].
    apply Nat.eqb_eq in Hu as ->. exists y, a. split; [done|]. rewrite E. do 2 f_equal.
    eapply v_inj; [done|by eapply v_user|done].
  - intros key. destruct (decide (1 < count_by (inside key) ts)) as [Hgt|]; [|lia]. exfalso.
    assert (Hp : 0 < count_by (inside key) ts) by lia. apply count_pos in Hp as (x & Hx & Hix).
    apply list_elem_of_split in Hx as (l1 & l2 & ->).
    assert (P : l1 ++ x :: l2 ≡ₚ x :: l1 ++ l2) by (symmetry; apply Permutation_middle).
    rewrite (count_perm _ _ _ P), count_cons, Hix in Hgt. assert (Hp : 0 < count_by (inside key) (l1 ++ l2)) by lia.
    apply count_pos in Hp as (z & Hz & Hiz). apply (budget_inv_perm _ _ _ _ P) in Hi.
    apply inside_past in Hix as (a & Hpa & Hua), Hiz as (b & Hpb & Hub).
    pose proof (v_user _ _ _ Hi x key a ltac:(left) Hua). pose proof (v_user _ _ _ Hi z key b ltac:(by right) Hub).
    assert (b = a) as -> by congruence. by rewrite (past_alone s t (l1 ++ l2) x a z key) in Hpb.
  - intros key a seen. by eapply v_seen.
  - intros key a Hin. destruct (user_admission s t ts (TBegin key a) key a Hi Hin eq_refl) as (adm & Ha & _).
    unfold receive. rewrite Ha. destruct (gate adm) eqn:Hg; [left; eauto|right].
    pose proof (v_gate _ _ _ Hi a adm Ha) as Hc. rewrite Hg in Hc. assert (Hp : 0 < count_by (past a) ts) by lia.
    apply count_pos in Hp as (y & Hy & Hp). exists y. split; [done|]. pose proof (past_user a y Hp) as [k Hu].
    pose proof (v_inj _ _ _ Hi k key a ltac:(by eapply v_user) (v_user _ _ _ Hi _ key a Hin eq_refl)) as ->.
    destruct y; try done; cbn in *; apply bool_decide_eq_true; congruence.
  - intros y key a Hy Hu Hp. apply list_elem_of_split in Hy as (l1 & l2 & ->).
    apply (budget_inv_perm _ _ _ (y :: l1 ++ l2)) in Hi; [|symmetry; apply Permutation_middle].
    destruct (release_runs s t (l1 ++ l2) y key a Hi Hu Hp) as (adm & _ & _ & ->). eauto.
  - done.
Qed.

Lemma searches_serialised_witness : exists x, reachable (MkOptions 3 60) x /\
  TBegin [1] 0 ∈ threads x /\ count_by (inside [1]) (threads x) <= 1.
Proof.
  set (o := MkOptions 3 60). set (s0 := no_admissions).
  destruct (enter s0 [1]) as [[s1 a1]|] eqn:E1; [|by vm_compute in E1].
  destruct (enter s1 [1]) as [[s2 a2]|] eqn:E2; [|injection E1 as <- <-; by vm_compute in E2].
  destruct (receive s2 0) as [s3|] eqn:E3; [|injection E1 as <- <-; injection E2 as <- <-; by vm_compute in E3].
  assert (a1 = 0%nat) as -> by by injection E1.
  assert (a2 = 0%nat) as -> by (injection E1 as <-; by injection E2).
  set (x := Sys s3 ∅ [TAllowed [1] 0; TBegin [1] 0]).
  assert (Hx : reachable o x).
  { eapply (reach_step o (Sys s2 ∅ [TBegin [1] 0; TBegin [1] 0])); [|by eapply step_gate].
    eapply (reach_step o (Sys s1 ∅ [TBegin [1] 0])); [|by apply step_begin].
    eapply (reach_step o (Sys s0 ∅ [])); [apply reach_init|by apply step_begin]. }
  exists x. split; [exact Hx|]. split; [right; left|]. apply (searches_serialised o x Hx).
Defined.
