(* ===== verification/Par2Packets.v ===== *)
(** PAR2 packets: internal/archive/par2.go.

    A prefix of a source is walked packet by packet; what the packets say is merged
    into the description of a recovery set.  Fields of a packet are spans of its
    bytes and numbers are read little-endian at their width. *)

From Stdlib Require Import ZArith Lia.
From stdpp Require Import base list numbers strings gmap.
From S2P Require Import Prelude Outcome Bencode ContentProof Text ByteSource.

Local Open Scope Z_scope.
Local Open Scope harbor_scope.

Definition maxPAR2PrefixBytes : Z := Z.shiftl 8 20.
Definition maxPAR2IFSCBlocks : Z := 262144.
Definition par2HeaderSize : Z := 64.
Definition maxPAR2Packets : Z := 100000.

Definition par2Magic : bytes := [80; 65; 82; 50; 0; 80; 75; 84].
Definition par2TypePrefix : bytes := str "PAR 2.0" ++ [0].

Definition par2_error (msg : string) (causes : list goerror) : goerror := Error (TPlain (str "par2: " ++ str msg)) causes.

(** [b[i:j]]. *)
Definition sub (b : bytes) (i j : nat) : bytes := take (j - i) (drop i b).

(** [binary.LittleEndian]. *)
Fixpoint le (b : bytes) : Z := match b with [] => 0 | c :: b => c + 256 * le b end.

Fixpoint drop_nuls (s : bytes) : bytes := match s with 0 :: s => drop_nuls s | _ => s end.
(** [strings.TrimRight(s, "\x00")]. *)
Definition trim_nuls (s : bytes) : bytes := rev (drop_nuls (rev s)).

(** ** The description of a recovery set *)

Record PAR2FileDesc := MkDesc { FileID : bytes; Hash16K : bytes; Name : bytes; Length : Z }.
Record PAR2IFSC := MkIFSC { i_FileID : bytes; BlockMD5 : bytes }.

#[export] Instance PAR2FileDesc_eq_dec : EqDecision PAR2FileDesc.
Proof. solve_decision. Defined.

#[export] Instance PAR2IFSC_eq_dec : EqDecision PAR2IFSC.
Proof. solve_decision. Defined.

Record PAR2Info := MkInfo {
  SliceSize : Z;
  RecoverySetID : bytes;
  Files : list PAR2FileDesc;
  IFSC : list PAR2IFSC;
  RecoverySetIDs : list bytes;
  nonRecovery : list bytes
}.

Definition FileByID (info : PAR2Info) (id : bytes) : option PAR2FileDesc :=
  List.find (fun f => bool_decide (FileID f = id)) (Files info).
Definition IFSCByFileID (info : PAR2Info) (id : bytes) : option PAR2IFSC :=
  List.find (fun x => bool_decide (i_FileID x = id)) (IFSC info).

(** ** Packet bodies *)

Definition parsePAR2IFSC (body : bytes) : result goerror PAR2IFSC :=
  let n := Z.of_nat (length body) in
  if (n <? 36) || negb (Z.rem (n - 16) 20 =? 0) then Err (par2_error "invalid IFSC packet length" [])
  else
    let blocks := Z.quot (n - 16) 20 in
    if (blocks <=? 0) || (maxPAR2IFSCBlocks <? blocks) then Err (par2_error "IFSC block count exceeds bound" [])
    else Ok (MkIFSC (hex_encode (take 16 body))
               (concat (map (fun i => take 16 (drop (16 + 20 * i) body)) (seq 0 (Z.to_nat blocks))))).

(** The identifiers of 16 bytes a span holds. *)
Fixpoint file_ids (n : nat) (b : bytes) : list bytes :=
  match n with O => [] | S n => hex_encode (take 16 b) :: file_ids n (drop 16 b) end.

(** The slice size, the recoverable files and the others. *)
Definition parsePAR2Main (body : bytes) : result goerror (Z * list bytes * list bytes) :=
  if Z.of_nat (length body) <? 12 then Err (par2_error "main packet too short" [])
  else
    let sliceSize := le (sub body 0 8) in
    let numFiles := le (sub body 8 12) in
    let need := 12 + numFiles * 16 in
    if (1000000 <? numFiles) || (need <? 0) || (Z.of_nat (length body) <? need)
    then Err (par2_error "main packet file count exceeds body" [])
    else
      let rest := drop (Z.to_nat need) body in
      Ok (i64 sliceSize, file_ids (Z.to_nat numFiles) (drop 12 body), file_ids (length rest / 16) rest).

Definition parsePAR2FileDesc (body : bytes) : result goerror PAR2FileDesc :=
  if Z.of_nat (length body) <? 56 then Err (par2_error "filedesc packet too short" [])
  else
    let len := i64 (le (sub body 48 56)) in
    if len <? 0 then Err (par2_error "filedesc negative length" [])
    else
      let name := trim_nuls (drop 56 body) in
      if bool_decide (name = []) then Err (par2_error "filedesc empty name" [])
      else Ok (MkDesc (hex_encode (sub body 0 16)) (hex_encode (sub body 32 48)) name len).

Definition IsPAR2Prefix (data : bytes) : bool := (8 <=? Z.of_nat (length data)) && bool_decide (take 8 data = par2Magic).

(** ** The walk *)

(** An IFSC packet with the recovery set it came from. *)
Abbreviation par2IFSCRecord := (bytes * PAR2IFSC)%type.

Record par2_walk := MkWalk {
  mainSeen : bool;
  w_SliceSize : Z;
  w_RecoverySetID : bytes;
  recoverOrder : list bytes;
  w_nonRecovery : list bytes;
  fileDescs : gmap bytes PAR2FileDesc;
  fileDescSets : gmap bytes bytes;
  ifscPackets : gmap bytes (list par2IFSCRecord);
  packetsSeen : Z
}.

Definition empty_walk : par2_walk := MkWalk false 0 [] [] [] ∅ ∅ ∅ 0.

Definition isPAR2PacketType (typeField name : bytes) : bool :=
  has_prefix par2TypePrefix typeField && bool_decide (trim_nuls (drop (length par2TypePrefix) typeField) = name).

(** The switch over the type of a packet. *)
Definition par2_packet (st : par2_walk) (recoverySetID typeField body : bytes) : par2_walk :=
  if negb (mainSeen st) && isPAR2PacketType typeField (str "Main") then
    match parsePAR2Main body with
    | Ok (size, ids, others) =>
        MkWalk true size recoverySetID ids others (fileDescs st) (fileDescSets st) (ifscPackets st) (packetsSeen st)
    | Err _ => st
    end
  else if isPAR2PacketType typeField (str "FileDesc") then
    match parsePAR2FileDesc body with
    | Ok fd =>
        MkWalk (mainSeen st) (w_SliceSize st) (w_RecoverySetID st) (recoverOrder st) (w_nonRecovery st)
          (<[FileID fd := fd]> (fileDescs st)) (<[FileID fd := recoverySetID]> (fileDescSets st)) (ifscPackets st) (packetsSeen st)
    | Err _ => st
    end
  else if isPAR2PacketType typeField (str "IFSC") then
    match parsePAR2IFSC body with
    | Ok index =>
        MkWalk (mainSeen st) (w_SliceSize st) (w_RecoverySetID st) (recoverOrder st) (w_nonRecovery st)
          (fileDescs st) (fileDescSets st)
          (<[i_FileID index := default [] (ifscPackets st !! i_FileID index) ++ [(recoverySetID, index)]]> (ifscPackets st))
          (packetsSeen st)
    | Err _ => st
    end
  else st.

Definition count_packet (st : par2_walk) : par2_walk :=
  MkWalk (mainSeen st) (w_SliceSize st) (w_RecoverySetID st) (recoverOrder st) (w_nonRecovery st)
    (fileDescs st) (fileDescSets st) (ifscPackets st) (packetsSeen st + 1).

(** The length a header declares, when the packet is whole. *)
Definition packet_length (available : Z) (header : bytes) : option Z :=
  if negb (bool_decide (take 8 header = par2Magic)) then None
  else
    let n := le (sub header 8 16) in
    if (n <? par2HeaderSize) || negb (n mod 4 =? 0) || (available <? n) then None else Some n.

(** What all IFSC packets of a file in the recovery set agree on. *)
Fixpoint unambiguous_loop (selected : PAR2IFSC) (packets : list par2IFSCRecord) (recoverySetID : bytes) : option PAR2IFSC :=
  match packets with
  | [] => if bool_decide (i_FileID selected = []) then None else Some selected
  | (set, index) :: packets =>
      if negb (bool_decide (set = recoverySetID)) then unambiguous_loop selected packets recoverySetID
      else if bool_decide (i_FileID selected = []) then unambiguous_loop index packets recoverySetID
      else if negb (bool_decide (i_FileID selected = i_FileID index)) || negb (bool_decide (BlockMD5 selected = BlockMD5 index))
      then None
      else unambiguous_loop selected packets recoverySetID
  end.

Definition unambiguousPAR2IFSC (packets : list par2IFSCRecord) (recoverySetID : bytes) : option PAR2IFSC :=
  unambiguous_loop (MkIFSC [] []) packets recoverySetID.

(** The order of a range over the descriptions, which the language leaves open. *)
Class MapOrder := {
  range_descs : gmap bytes PAR2FileDesc -> list PAR2FileDesc;
  range_descs_perm m : range_descs m ≡ₚ map snd (map_to_list m)
}.

Section Parse.
Context {W : Type} `{Context W} `{MapOrder}.

(** What follows the loop. *)
Definition par2_info (st : par2_walk) : result goerror PAR2Info :=
  if negb (mainSeen st) && bool_decide (fileDescs st = ∅) then Err (par2_error "no recognised packets" [])
  else if bool_decide (recoverOrder st = []) then
    Ok (MkInfo (w_SliceSize st) (w_RecoverySetID st) (range_descs (fileDescs st)) [] (recoverOrder st) (w_nonRecovery st))
  else
    Ok (MkInfo (w_SliceSize st) (w_RecoverySetID st) (omap (fun id => fileDescs st !! id) (recoverOrder st))
          (omap (fun id =>
             if negb (bool_decide (default [] (fileDescSets st !! id) = w_RecoverySetID st)) then None
             else unambiguousPAR2IFSC (default [] (ifscPackets st !! id)) (w_RecoverySetID st)) (recoverOrder st))
          (recoverOrder st) (w_nonRecovery st)).

Fixpoint par2_loop (fuel : nat) (data : bytes) (st : par2_walk) : W -> W * result goerror par2_walk :=
  match fuel with
  | O => call_ret (Ok st)
  | S fuel =>
      if Z.of_nat (length data) <? par2HeaderSize then call_ret (Ok st)
      else
        let! err := ctx_Err in
        match err with
        | Some err => call_ret (Err err)
        | None =>
            match packet_length (Z.of_nat (length data)) data with
            | None => call_ret (Ok st)
            | Some n =>
                let st := par2_packet st (hex_encode (sub data 32 48)) (sub data 48 64) (sub data 64 (Z.to_nat n)) in
                let st := count_packet st in
                if maxPAR2Packets <? packetsSeen st then call_ret (Ok st)
                else par2_loop fuel (drop (Z.to_nat n) data) st
            end
        end
  end.

Definition readPAR2PrefixBestEffort (src : option (ByteSource W)) : W -> W * result goerror bytes :=
  match src with
  | None => call_ret (Err (par2_error "nil byte source" []))
  | Some src =>
      if Size src <=? 0 then call_ret (Err (par2_error "empty byte source" []))
      else
        let size := if maxPAR2PrefixBytes <? Size src then maxPAR2PrefixBytes else Size src in
        let! (buf, n, err) := read_block src size 0 in
        if n =? 0 then call_ret (Err (par2_error "read prefix" [match err with Some err => err | None => io_ErrUnexpectedEOF end]))
        else call_ret (Ok (take (Z.to_nat n) buf))
  end.

(** A packet is at least a header long, so the bytes bound the loop. *)
Definition ParsePAR2Metadata (src : option (ByteSource W)) : W -> W * result goerror PAR2Info :=
  let! res := readPAR2PrefixBestEffort src in
  match res with
  | Err err => call_ret (Err err)
  | Ok data =>
      let! res := par2_loop (S (length data)) data empty_walk in
      match res with
      | Err err => call_ret (Err err)
      | Ok st => call_ret (par2_info st)
      end
  end.

End Parse.

(** ** Volumes and counts *)

Definition PAR2SourceBlockCount (info : PAR2Info) (sliceSize : Z) : Z :=
  if sliceSize <=? 0 then 0
  else
    let total := fold_left (fun total f => i64 (total + Length f)) (Files info) 0 in
    if total <=? 0 then 0 else Z.quot (i64 (i64 (total + sliceSize) - 1)) sliceSize.

Definition word_char (c : Z) : bool := is_digit c || is_upper c || is_lower c || (c =? 95).

Definition digits_of (s : bytes) : bytes * bytes := (take (digit_run s) s, drop (digit_run s) s).

(** The pattern [(?i)\.vol(\d+)\+(\d+)\.par2\b] at the front of a text; the
    second group. *)
Definition volume_here (s : bytes) : option bytes :=
  if has_prefix (str ".vol") (ascii_lower s) then
    let (first, rest) := digits_of (drop 4 s) in
    match first, rest with
    | _ :: _, 43 :: rest =>
        let (count, rest) := digits_of rest in
        if negb (bool_decide (count = [])) && has_prefix (str ".par2") (ascii_lower rest) &&
           negb (match drop 5 rest with c :: _ => word_char c | [] => false end)
        then Some count else None
    | _, _ => None
    end
  else None.

(** The leftmost match. *)
Fixpoint par2VolumePattern (subject : bytes) : option bytes :=
  match volume_here subject with
  | Some count => Some count
  | None => match subject with [] => None | _ :: subject => par2VolumePattern subject end
  end.

Definition PAR2IsVolumeFile (subject : bytes) : bool := match par2VolumePattern subject with Some _ => true | None => false end.

Definition volume_count (total : Z) (subject : bytes) : Z :=
  match par2VolumePattern subject with
  | None => total
  | Some count =>
      match ParseInt count 64 with
      | Some n => if n <? 0 then total else i64 (total + n)
      | None => total
      end
  end.

Definition PAR2RecoveryBlocksFromSubjects (subjects : list bytes) : Z := fold_left volume_count subjects 0.

Example volume_demo : PAR2RecoveryBlocksFromSubjects [str "x.VOL012+034.par2 y"; str "a.vol1+2.par2x"; str "b.vol3+5.par2"] = 39.
Proof. vm_compute. reflexivity. Qed.

(** ** The type of a description *)

Lemma length_hex_encode b : length (hex_encode b) = (2 * length b)%nat.
Proof. unfold hex_encode. induction b as [|c b IH]; cbn; [done|]. lia. Qed.

Lemma file_ids_ids n b : (16 * n <= length b)%nat -> Forall (fun id => length id = 32%nat) (file_ids n b) /\ length (file_ids n b) = n.
Proof.
  revert b. induction n as [|n IH]; intros b Hb; cbn [file_ids length]; [split; [constructor|done]|].
  destruct (IH (drop 16 b)) as [Hf Hl]; [rewrite length_drop; lia|]. split; [|by rewrite Hl].
  constructor; [|done]. cbv beta. rewrite length_hex_encode, length_take. lia.
Qed.

Definition wf_desc (fd : PAR2FileDesc) : Prop :=
  length (FileID fd) = 32%nat /\ length (Hash16K fd) = 32%nat /\ Name fd <> [] /\ List.last (Name fd) 0 <> 0 /\
  0 <= Length fd <= maxInt64.

Definition wf_ifsc (x : PAR2IFSC) : Prop :=
  length (i_FileID x) = 32%nat /\ exists n, (0 < n)%nat /\ Z.of_nat n <= maxPAR2IFSCBlocks /\ length (BlockMD5 x) = (16 * n)%nat.

Lemma drop_nuls_head s : head (drop_nuls s) <> Some 0.
Proof. induction s as [|c s IH]; cbn; [done|]. destruct c; done. Qed.

Lemma trim_nuls_last s : trim_nuls s <> [] -> List.last (trim_nuls s) 0 <> 0.
Proof.
  unfold trim_nuls. pose proof (drop_nuls_head (rev s)) as H. destruct (drop_nuls (rev s)) as [|c l]; [done|].
  cbn [rev]. rewrite last_last. cbn in H. congruence.
Qed.

Lemma parsePAR2FileDesc_wf body fd : parsePAR2FileDesc body = Ok fd -> wf_desc fd.
Proof.
  unfold parsePAR2FileDesc. destruct (Z.ltb_spec (Z.of_nat (length body)) 56) as [|Hb]; [done|].
  pose proof (i64_range (le (sub body 48 56))) as Hr. destruct (Z.ltb_spec (i64 (le (sub body 48 56))) 0); [done|].
  destruct (bool_decide (trim_nuls (drop 56 body) = [])) eqn:En; [done|]. bool_hyps. intros [= <-]. unfold wf_desc. cbn [FileID Hash16K Name Length].
  rewrite !length_hex_encode. unfold sub in *. rewrite !length_take, !length_drop. unfold is_i64 in Hr. split_and!; try lia; try done.
  by apply trim_nuls_last.
Qed.

Lemma concat_fixed {A B} (f : A -> list B) k l : (forall x, x ∈ l -> length (f x) = k) -> length (concat (map f l)) = (k * length l)%nat.
Proof.
  induction l as [|x l IH]; intros H; cbn [map concat length]; [lia|]. rewrite length_app, (H x) by left.
  rewrite IH by (intros; apply H; by right). lia.
Qed.

Lemma parsePAR2IFSC_wf body x : parsePAR2IFSC body = Ok x -> wf_ifsc x.
Proof.
  unfold parsePAR2IFSC. set (n := Z.of_nat (length body)). destruct (Z.ltb_spec n 36); [done|].
  destruct (Z.eqb_spec (Z.rem (n - 16) 20) 0) as [Hm|]; [|done]. cbn [negb orb].
  destruct (Z.leb_spec (Z.quot (n - 16) 20) 0); [done|]. destruct (Z.ltb_spec maxPAR2IFSCBlocks (Z.quot (n - 16) 20)); [done|].
  intros [= <-]. unfold wf_ifsc. cbn [i_FileID BlockMD5]. set (k := Z.quot (n - 16) 20) in *.
  split; [rewrite length_hex_encode, length_take; lia|]. exists (Z.to_nat k). split_and!; [lia|lia|].
  rewrite (concat_fixed _ 16), length_seq; [done|].
  intros i Hi. apply elem_of_seq in Hi. rewrite length_take, length_drop.
  assert (n - 16 = 20 * k) by (unfold k; pose proof (Z.quot_rem' (n - 16) 20); lia). unfold n in *. lia.
Qed.

Lemma parsePAR2Main_wf body size ids others : parsePAR2Main body = Ok (size, ids, others) ->
  is_i64 size /\ Forall (fun id => length id = 32%nat) ids /\ Z.of_nat (length ids) <= 1000000 /\
  Forall (fun id => length id = 32%nat) others.
Proof.
  unfold parsePAR2Main. destruct (Z.ltb_spec (Z.of_nat (length body)) 12); [done|]. set (k := le (sub body 8 12)).
  destruct (Z.ltb_spec 1000000 k); [done|]. destruct (Z.ltb_spec (12 + k * 16) 0); [done|].
  destruct (Z.ltb_spec (Z.of_nat (length body)) (12 + k * 16)); [done|]. cbn [orb]. intros [= <- <- <-].
  destruct (file_ids_ids (Z.to_nat k) (drop 12 body)) as [Hf Hl]; [rewrite length_drop; lia|].
  set (rest := drop (Z.to_nat (12 + k * 16)) body).
  destruct (file_ids_ids (length rest / 16) rest) as [Hg _]; [pose proof (Nat.Div0.mul_div_le (length rest) 16); lia|].
  split_and!; [apply i64_range|done|rewrite Hl; lia|done].
Qed.

(** What the walk keeps. *)
Record wf_walk (st : par2_walk) : Prop := {
  ww_main : mainSeen st = false -> recoverOrder st = [] /\ w_SliceSize st = 0;
  ww_size : is_i64 (w_SliceSize st);
  ww_ids : Forall (fun id => length id = 32%nat) (recoverOrder st);
  ww_count : Z.of_nat (length (recoverOrder st)) <= 1000000;
  ww_descs : forall id fd, fileDescs st !! id = Some fd -> FileID fd = id /\ wf_desc fd;
  ww_sets : forall id, is_Some (fileDescSets st !! id) <-> is_Some (fileDescs st !! id);
  ww_ifsc : forall id l, ifscPackets st !! id = Some l -> Forall (fun x => i_FileID x.2 = id /\ wf_ifsc x.2) l
}.

Lemma empty_walk_wf : wf_walk empty_walk.
Proof. split; cbn; try done; try lia; intros *; by rewrite !lookup_empty. Qed.

Lemma par2_packet_wf st set type body : wf_walk st -> wf_walk (par2_packet st set type body).
Proof.
  intros [Hm Hs Hi Hc Hd Hds Hp]. unfold par2_packet. destruct (negb (mainSeen st) && _) eqn:E.
  { destruct (parsePAR2Main body) as [[[size ids] others]|] eqn:Eb; [|by split]. apply parsePAR2Main_wf in Eb as (? & ? & ? & _). by split. }
  destruct (isPAR2PacketType type (str "FileDesc")).
  { destruct (parsePAR2FileDesc body) as [fd|] eqn:Eb; [|by split]. apply parsePAR2FileDesc_wf in Eb.
    split; cbn; try done.
    - intros id fd' [[<- <-]|[_ H]]%lookup_insert_Some; [done|eauto].
    - intros id. destruct (decide (FileID fd = id)) as [->|Hne]; [rewrite !lookup_insert_eq; split; eauto|].
      rewrite !lookup_insert_ne by done. apply Hds. }
  destruct (isPAR2PacketType type (str "IFSC")); [|by split].
  destruct (parsePAR2IFSC body) as [x|] eqn:Eb; [|by split]. apply parsePAR2IFSC_wf in Eb.
  split; cbn; try done. intros id l [[<- <-]|[_ H]]%lookup_insert_Some; [|eauto].
  apply Forall_app_2; [|by constructor]. destruct (ifscPackets st !! i_FileID x) as [l|] eqn:El; cbn; [eauto|constructor].
Qed.

Lemma count_packet_wf st : wf_walk st -> wf_walk (count_packet st).
Proof. by intros []. Qed.

Lemma unambiguous_from sel packets set x : unambiguous_loop sel packets set = Some x ->
  (x = sel /\ i_FileID x <> []) \/ (exists s, (s, x) ∈ packets).
Proof.
  revert sel. induction packets as [|[s y] packets IH]; intros sel; cbn [unambiguous_loop].
  - destruct (bool_decide (i_FileID sel = [])) eqn:E; [done|]. bool_hyps. intros [= ->]. by left.
  - assert (Hin : forall z, (exists s0, (s0, z) ∈ packets) -> exists s0, (s0, z) ∈ (s, y) :: packets)
      by (intros z [s0 H]; exists s0; by right).
    destruct (bool_decide (s = set)) eqn:Es; cbn [negb].
    + destruct (bool_decide (i_FileID sel = [])) eqn:En; bool_hyps.
      * intros [[-> H]|H]%IH; [right; exists s; left|right; auto].
      * destruct (negb (bool_decide (i_FileID sel = i_FileID y)) || negb (bool_decide (BlockMD5 sel = BlockMD5 y))); [done|].
        intros [H|H]%IH; [by left|right; auto].
    + intros [H|H]%IH; [by left|right; auto].
Qed.

(** ** Writing packets *)

Fixpoint le_bytes (n : nat) (x : Z) : bytes := match n with O => [] | S n => x mod 256 :: le_bytes n (x / 256) end.

Lemma le_le_bytes n x : 0 <= x < 256 ^ Z.of_nat n -> le (le_bytes n x) = x.
Proof.
  revert x. induction n as [|n IH]; intros x Hx; cbn [le_bytes le]; [cbn in Hx; lia|].
  rewrite Nat2Z.inj_succ, Z.pow_succ_r in Hx by lia. rewrite IH.
  - pose proof (Z.div_mod x 256). lia.
  - split; [apply Z.div_pos; lia|apply Z.div_lt_upper_bound; lia].
Qed.

Lemma length_le_bytes n x : length (le_bytes n x) = n.
Proof. revert x. induction n as [|n IH]; intros x; cbn; [done|]. by rewrite IH. Qed.

Inductive packet : Type :=
| PMain (size : Z) (ids others : list bytes)
| PDesc (id md5 md5_16k : bytes) (len : Z) (name : bytes) (pad : nat)
| PIFSC (id : bytes) (blocks : list (bytes * bytes))
| POther (type body : bytes).

Definition type_field (p : packet) : bytes :=
  match p with
  | PMain _ _ _ => par2TypePrefix ++ str "Main" ++ repeat 0 4
  | PDesc _ _ _ _ _ _ => par2TypePrefix ++ str "FileDesc"
  | PIFSC _ _ => par2TypePrefix ++ str "IFSC" ++ repeat 0 4
  | POther type _ => type
  end.

Definition body (p : packet) : bytes :=
  match p with
  | PMain size ids others => le_bytes 8 size ++ le_bytes 4 (Z.of_nat (length ids)) ++ concat ids ++ concat others
  | PDesc id md5 md5_16k len name pad => id ++ md5 ++ md5_16k ++ le_bytes 8 len ++ name ++ repeat 0 pad
  | PIFSC id blocks => id ++ concat (map (fun b => b.1 ++ b.2) blocks)
  | POther _ body => body
  end.

Definition wf_packet (p : packet) : Prop :=
  match p with
  | PMain size ids others =>
      0 <= size < 2 ^ 63 /\ Z.of_nat (length ids) <= 1000000 /\ Forall (fun id => length id = 16%nat) ids /\
      Forall (fun id => length id = 16%nat) others
  | PDesc id md5 md5_16k len name pad =>
      length id = 16%nat /\ length md5 = 16%nat /\ length md5_16k = 16%nat /\ 0 <= len < 2 ^ 63 /\ name <> [] /\ List.last name 0 <> 0
  | PIFSC id blocks =>
      length id = 16%nat /\ 0 < Z.of_nat (length blocks) <= maxPAR2IFSCBlocks /\
      Forall (fun b => length b.1 = 16%nat /\ length b.2 = 4%nat) blocks
  | POther type _ =>
      length type = 16%nat /\ isPAR2PacketType type (str "Main") = false /\ isPAR2PacketType type (str "FileDesc") = false /\
      isPAR2PacketType type (str "IFSC") = false
  end.

(** A packet in its recovery set, with the checksum the header carries. *)
Record framed := MkFramed { set_id : bytes; checksum : bytes; payload : packet }.

Definition wf_framed (f : framed) : Prop :=
  length (set_id f) = 16%nat /\ length (checksum f) = 16%nat /\ wf_packet (payload f) /\ Z.of_nat (length (body (payload f))) mod 4 = 0.

Definition frame (f : framed) : bytes :=
  par2Magic ++ le_bytes 8 (64 + Z.of_nat (length (body (payload f)))) ++ checksum f ++ set_id f ++ type_field (payload f) ++ body (payload f).

Definition frames (fs : list framed) : bytes := concat (map frame fs).

(** *** Reading bodies back *)

Lemma file_ids_concat ids rest : Forall (fun id => length id = 16%nat) ids -> file_ids (length ids) (concat ids ++ rest) = map hex_encode ids.
Proof.
  induction 1 as [|id ids Hid _ IH]; [done|]. cbn [length file_ids concat map]. rewrite <-app_assoc.
  rewrite <-Hid at 1. rewrite take_app_length. rewrite <-Hid at 1. by rewrite drop_app_length, IH.
Qed.

Lemma length_concat_ids (ids : list bytes) : Forall (fun id => length id = 16%nat) ids -> length (concat ids) = (16 * length ids)%nat.
Proof. induction 1 as [|id ids Hid _ IH]; cbn [concat length]; [done|]. rewrite length_app, Hid. lia. Qed.

Lemma sub_app_skip (a b : bytes) i j : (length a <= i)%nat -> sub (a ++ b) i j = sub b (i - length a) (j - length a).
Proof. intros H. unfold sub. rewrite drop_app_ge by done. f_equal. lia. Qed.

Lemma sub_app_here (a b : bytes) : sub (a ++ b) 0 (length a) = a.
Proof. unfold sub. rewrite drop_0, Nat.sub_0_r. apply take_app_length. Qed.

Lemma sub_front (a b : bytes) i j : i = 0%nat -> j = length a -> sub (a ++ b) i j = a.
Proof. intros -> ->. apply sub_app_here. Qed.

Lemma parse_main size ids others : wf_packet (PMain size ids others) ->
  parsePAR2Main (body (PMain size ids others)) = Ok (size, map hex_encode ids, map hex_encode others).
Proof.
  intros (Hs & Hn & Hi & Ho). unfold parsePAR2Main. cbn [body]. set (b := _ ++ _).
  assert (Hl : length b = (12 + 16 * length ids + 16 * length others)%nat)
    by (unfold b; rewrite !length_app, !length_le_bytes, !length_concat_ids by done; lia).
  destruct (Z.ltb_spec (Z.of_nat (length b)) 12); [lia|].
  assert (E1 : sub b 0 8 = le_bytes 8 size) by (apply sub_front; [done|by rewrite length_le_bytes]).
  assert (E2 : sub b 8 12 = le_bytes 4 (Z.of_nat (length ids))).
  { unfold b. rewrite sub_app_skip by (rewrite length_le_bytes; lia). rewrite length_le_bytes. apply sub_front; [done|by rewrite length_le_bytes]. }
  rewrite E1, E2, !le_le_bytes by lia. destruct (Z.ltb_spec 1000000 (Z.of_nat (length ids))); [lia|].
  destruct (Z.ltb_spec (12 + Z.of_nat (length ids) * 16) 0); [lia|].
  destruct (Z.ltb_spec (Z.of_nat (length b)) (12 + Z.of_nat (length ids) * 16)); [lia|]. cbn [orb].
  rewrite i64_small by (unfold is_i64, minInt64, maxInt64; lia).
  assert (E3 : drop 12 b = concat ids ++ concat others).
  { unfold b. rewrite app_assoc. rewrite drop_app_ge by (rewrite length_app, !length_le_bytes; lia). by rewrite length_app, !length_le_bytes. }
  assert (E4 : drop (Z.to_nat (12 + Z.of_nat (length ids) * 16)) b = concat others).
  { replace (Z.to_nat (12 + Z.of_nat (length ids) * 16)) with (12 + length (concat ids))%nat by (rewrite length_concat_ids by done; lia).
    rewrite <-drop_drop, E3. apply drop_app_length. }
  rewrite E3, E4, Nat2Z.id, file_ids_concat by done. rewrite length_concat_ids by done.
  replace (16 * length others)%nat with (length others * 16)%nat by lia. rewrite Nat.div_mul by done.
  rewrite <-(app_nil_r (concat others)), file_ids_concat by done. done.
Qed.

Lemma drop_nuls_zeros n s : drop_nuls (repeat 0 n ++ s) = drop_nuls s.
Proof. induction n as [|n IH]; cbn; done. Qed.

Lemma trim_nuls_pad name n : List.last name 0 <> 0 -> trim_nuls (name ++ repeat 0 n) = name.
Proof.
  intros Hl. unfold trim_nuls. rewrite rev_app_distr.
  assert (Er : rev (repeat 0 n) = repeat 0 n) by apply rev_repeat. rewrite Er, drop_nuls_zeros.
  destruct name as [|x name] using rev_ind; [done|]. rewrite last_last in Hl. rewrite rev_app_distr. cbn [rev app drop_nuls].
  destruct x; [done| |]; cbn [rev]; by rewrite rev_involutive.
Qed.

Lemma parse_desc id md5 md5_16k len name pad : wf_packet (PDesc id md5 md5_16k len name pad) ->
  parsePAR2FileDesc (body (PDesc id md5 md5_16k len name pad)) = Ok (MkDesc (hex_encode id) (hex_encode md5_16k) name len).
Proof.
  intros (Hi & Hm & Hk & Hl & Hn & Ht). unfold parsePAR2FileDesc. cbn [body]. set (b := _ ++ _).
  assert (Hb : (56 <= length b)%nat) by (unfold b; rewrite !length_app, length_le_bytes; lia).
  destruct (Z.ltb_spec (Z.of_nat (length b)) 56); [lia|].
  assert (E1 : sub b 0 16 = id) by (by apply sub_front).
  assert (E2 : sub b 32 48 = md5_16k).
  { unfold b. rewrite sub_app_skip by lia. rewrite Hi, sub_app_skip by lia. rewrite Hm. by apply sub_front. }
  assert (E3 : sub b 48 56 = le_bytes 8 len).
  { unfold b. rewrite sub_app_skip by lia. rewrite Hi, sub_app_skip by lia. rewrite Hm, sub_app_skip by lia. rewrite Hk.
    apply sub_front; [done|by rewrite length_le_bytes]. }
  assert (E4 : drop 56 b = name ++ repeat 0 pad).
  { unfold b. rewrite !app_assoc, <-(app_assoc _ name). rewrite drop_app_ge by (rewrite !length_app, length_le_bytes; lia).
    rewrite !length_app, length_le_bytes. by replace (56 - _)%nat with 0%nat by lia. }
  rewrite E1, E2, E3, E4, le_le_bytes, i64_small, trim_nuls_pad by (done || (unfold is_i64, minInt64, maxInt64; lia) || lia).
  destruct (Z.ltb_spec len 0); [lia|]. by rewrite bool_decide_false.
Qed.

Lemma parse_ifsc id blocks : wf_packet (PIFSC id blocks) ->
  parsePAR2IFSC (body (PIFSC id blocks)) = Ok (MkIFSC (hex_encode id) (concat (map fst blocks))).
Proof.
  intros (Hi & Hn & Hb). unfold parsePAR2IFSC. cbn [body]. set (b := _ ++ _).
  assert (Hc : length (concat (map (fun b : bytes * bytes => b.1 ++ b.2) blocks)) = (20 * length blocks)%nat).
  { apply concat_fixed. intros x Hx. rewrite list.Forall_forall in Hb. destruct (Hb x Hx). rewrite length_app. lia. }
  assert (Hl : Z.of_nat (length b) = 16 + 20 * Z.of_nat (length blocks)) by (unfold b; rewrite length_app, Hc; lia).
  rewrite Hl. destruct (Z.ltb_spec (16 + 20 * Z.of_nat (length blocks)) 36); [lia|].
  replace (16 + 20 * Z.of_nat (length blocks) - 16) with (Z.of_nat (length blocks) * 20) by lia.
  rewrite Z.rem_mul, Z.quot_mul by lia. cbn [Z.eqb negb orb]. destruct (Z.leb_spec (Z.of_nat (length blocks)) 0); [lia|].
  destruct (Z.ltb_spec maxPAR2IFSCBlocks (Z.of_nat (length blocks))); [lia|]. cbn [orb].
  assert (E1 : take 16 b = id) by (unfold b; rewrite <-Hi; apply take_app_length). rewrite E1, Nat2Z.id. do 3 f_equal.
  assert (Hgen : forall pre, map (fun i => take 16 (drop (length pre + 20 * i) (pre ++ concat (map (fun b : bytes * bytes => b.1 ++ b.2) blocks))))
    (seq 0 (length blocks)) = map fst blocks); [|by specialize (Hgen id); rewrite Hi in Hgen].
  clear -Hb. induction Hb as [|x blocks [H1 H2] _ IH]; intros pre; [done|]. cbn [length seq map concat].
  f_equal.
  - rewrite Nat.mul_0_r, Nat.add_0_r, drop_app_length, <-app_assoc, <-H1. apply take_app_length.
  - rewrite <-seq_shift, map_map. rewrite <-(IH (pre ++ x.1 ++ x.2)). apply map_ext. intros i. f_equal.
    rewrite <-!app_assoc. f_equal. rewrite !length_app. lia.
Qed.

(** *** Walking packets *)

Lemma length_frame f : wf_framed f -> length (frame f) = (64 + length (body (payload f)))%nat.
Proof.
  intros (Hs & Hc & Hp & _). unfold frame. rewrite !length_app, length_le_bytes, Hs, Hc.
  assert (length (type_field (payload f)) = 16%nat) as ->; [|cbn; lia].
  destruct (payload f); cbn [type_field]; try done. by destruct Hp as (? & _).
Qed.

(** The fields of a frame in front of more bytes. *)
Lemma frame_fields f rest : wf_framed f -> Z.of_nat (length (frame f)) < 2 ^ 63 ->
  let data := frame f ++ rest in
  packet_length (Z.of_nat (length data)) data = Some (Z.of_nat (length (frame f))) /\
  sub data 32 48 = set_id f /\ sub data 48 64 = type_field (payload f) /\
  sub data 64 (length (frame f)) = body (payload f) /\ drop (length (frame f)) data = rest.
Proof.
  intros Hw Hl data. pose proof (length_frame f Hw) as Hlen. destruct Hw as (Hs & Hc & Hp & Hm).
  assert (Ht : length (type_field (payload f)) = 16%nat).
  { unfold frame in Hlen. rewrite !length_app, length_le_bytes, Hs, Hc in Hlen. cbn [length par2Magic] in Hlen. lia. }
  assert (Hd : data = par2Magic ++ le_bytes 8 (64 + Z.of_nat (length (body (payload f)))) ++ checksum f ++ set_id f ++
    type_field (payload f) ++ body (payload f) ++ rest) by (unfold data, frame; by rewrite <-!app_assoc).
  assert (Hmagic : length par2Magic = 8%nat) by done.
  assert (E8 : sub data 8 16 = le_bytes 8 (64 + Z.of_nat (length (body (payload f))))).
  { rewrite Hd, sub_app_skip by lia. apply sub_front; [done|by rewrite length_le_bytes]. }
  assert (Hskip : forall i j, (32 <= i)%nat -> sub data i j = sub (set_id f ++ type_field (payload f) ++ body (payload f) ++ rest) (i - 32) (j - 32)).
  { intros i j Hi. rewrite Hd. do 2 (rewrite sub_app_skip by (rewrite ?length_le_bytes; lia)). rewrite length_le_bytes, Hmagic.
    rewrite sub_app_skip by lia. rewrite Hc. f_equal; lia. }
  split_and!.
  - unfold packet_length. assert (Em : take 8 data = par2Magic) by (rewrite Hd; rewrite <-Hmagic at 1; apply take_app_length).
    rewrite Em, bool_decide_true by done. cbn [negb]. rewrite E8, le_le_bytes by lia. unfold par2HeaderSize.
    destruct (Z.ltb_spec (64 + Z.of_nat (length (body (payload f)))) 64); [lia|].
    assert (E4 : (64 + Z.of_nat (length (body (payload f)))) mod 4 = 0).
    { rewrite Z.add_comm. replace 64 with (16 * 4) by lia. by rewrite Z_mod_plus_full. }
    rewrite E4. assert (Hfit : (Z.of_nat (length data) <? 64 + Z.of_nat (length (body (payload f)))) = false)
      by (apply Z.ltb_ge; unfold data; rewrite length_app; lia).
    rewrite Hfit. change (0 =? 0) with true. cbn [negb orb]. f_equal. lia.
  - rewrite Hskip by lia. by apply sub_front.
  - rewrite Hskip by lia. rewrite sub_app_skip by lia. rewrite Hs. by apply sub_front.
  - rewrite Hskip by lia. rewrite sub_app_skip by lia. rewrite Hs, sub_app_skip by lia. rewrite Ht. apply sub_front; lia.
  - unfold data. apply drop_app_length.
Qed.

(** The state after one packet. *)
Definition after_packet (st : par2_walk) (f : framed) : par2_walk :=
  count_packet (par2_packet st (hex_encode (set_id f)) (type_field (payload f)) (body (payload f))).

Lemma after_packet_seen st f : packetsSeen (after_packet st f) = packetsSeen st + 1.
Proof.
  unfold after_packet, par2_packet. cbn [count_packet packetsSeen]. f_equal.
  destruct (_ && isPAR2PacketType _ _); [destruct (parsePAR2Main _) as [[[? ?] ?]|]; done|].
  destruct (isPAR2PacketType _ _); [by destruct (parsePAR2FileDesc _)|].
  destruct (isPAR2PacketType _ _); [by destruct (parsePAR2IFSC _)|done].
Qed.

Section Walk.
Context {W : Type} `{Context W}.
Context (Halive : alive W).

Lemma par2_loop_frames fs : Forall wf_framed fs -> forall fuel st w, (length (frames fs) < fuel)%nat ->
  Z.of_nat (length (frames fs)) < 2 ^ 63 -> packetsSeen st + Z.of_nat (length fs) <= maxPAR2Packets ->
  (par2_loop fuel (frames fs) st w).2 = Ok (fold_left after_packet fs st).
Proof.
  induction 1 as [|f fs Hf _ IH]; intros fuel st w Hfuel Hsize Hseen; (destruct fuel as [|fuel]; [cbn in Hfuel; lia|]); [done|].
  unfold frames in *. cbn [map concat fold_left] in *. cbn [par2_loop]. pose proof (length_frame f Hf) as Hlen. rewrite length_app in *.
  destruct (Z.ltb_spec (Z.of_nat (length (frame f) + length (concat (map frame fs)))) par2HeaderSize); [unfold par2HeaderSize in *; lia|].
  match goal with |- context [call_bind ctx_Err ?k] => destruct (poll Halive w k) as [w1 ->] end. cbn beta iota.
  destruct (frame_fields f (concat (map frame fs)) Hf ltac:(lia)) as (E1 & E2 & E3 & E4 & E5).
  rewrite length_app in E1. rewrite E1. rewrite Nat2Z.id, E2, E3, E4, E5.
  change (count_packet (par2_packet st (hex_encode (set_id f)) (type_field (payload f)) (body (payload f)))) with (after_packet st f).
  rewrite after_packet_seen. cbn [length] in Hseen. destruct (Z.ltb_spec maxPAR2Packets (packetsSeen st + 1)); [lia|].
  apply IH; [lia|lia|]. rewrite after_packet_seen. lia.
Qed.

Lemma readPAR2Prefix_all (src : ByteSource W) data w : reads_as src data -> data <> [] -> Z.of_nat (length data) <= maxPAR2PrefixBytes ->
  (readPAR2PrefixBestEffort (Some src) w).2 = Ok data.
Proof.
  intros Hr Hn Hb. unfold readPAR2PrefixBestEffort. rewrite (proj1 Hr).
  assert (0 < Z.of_nat (length data)) by (destruct data; [done|cbn; lia]).
  destruct (Z.leb_spec (Z.of_nat (length data)) 0); [lia|]. destruct (Z.ltb_spec maxPAR2PrefixBytes (Z.of_nat (length data))); [lia|].
  unfold call_bind. pose proof (read_block_inside src data (Z.of_nat (length data)) 0 w Hr ltac:(lia) ltac:(lia) ltac:(lia)) as E.
  destruct (read_block src _ 0 w) as [w1 r]. cbn in E. subst r. destruct (Z.eqb_spec (Z.of_nat (length data)) 0); [lia|].
  cbn. unfold span. rewrite drop_0, Nat2Z.id, take_take, Nat.min_id. by rewrite take_ge.
Qed.

End Walk.

(** *** What the packets say *)

Definition main_packet (fs : list framed) : option (bytes * Z * list bytes * list bytes) :=
  match omap (fun f => match payload f with PMain size ids others => Some (set_id f, size, ids, others) | _ => None end) fs with
  | m :: _ => Some m
  | [] => None
  end.

(** The last description of a file, and its set. *)
Definition described (id : bytes) (f : framed) : option (bytes * PAR2FileDesc) :=
  match payload f with
  | PDesc i _ k len name _ =>
      if bool_decide (hex_encode i = id) then Some (hex_encode (set_id f), MkDesc (hex_encode i) (hex_encode k) name len) else None
  | _ => None
  end.
Definition last_desc (fs : list framed) (id : bytes) : option (bytes * PAR2FileDesc) := last (omap (described id) fs).

Definition hashed (id : bytes) (f : framed) : option par2IFSCRecord :=
  match payload f with
  | PIFSC i blocks =>
      if bool_decide (hex_encode i = id) then Some (hex_encode (set_id f), MkIFSC (hex_encode i) (concat (map fst blocks))) else None
  | _ => None
  end.

(** The hashes of a file that all packets of a set agree on. *)
Definition agreed (set : bytes) (packets : list par2IFSCRecord) : option PAR2IFSC :=
  match filter (fun x => x.1 = set) packets with
  | [] => None
  | (_, x) :: rest => if forallb (fun y => bool_decide (y.2 = x)) rest then Some x else None
  end.

Lemma main_packet_snoc fs f : main_packet (fs ++ [f]) = match main_packet fs with Some m => Some m | None => main_packet [f] end.
Proof.
  unfold main_packet. rewrite omap_app. destruct (omap _ fs); [done|]. done.
Qed.

Lemma last_desc_snoc fs f id : last_desc (fs ++ [f]) id = match described id f with Some d => Some d | None => last_desc fs id end.
Proof.
  unfold last_desc. rewrite omap_app. cbn [omap list_omap]. destruct (described id f); [by rewrite last_snoc|by rewrite app_nil_r].
Qed.

(** The walk has read what the packets say. *)
Record reads_packets (fs : list framed) (st : par2_walk) : Prop := {
  rp_main : match main_packet fs with
    | Some (set, size, ids, others) =>
        mainSeen st = true /\ w_SliceSize st = size /\ w_RecoverySetID st = hex_encode set /\
        recoverOrder st = map hex_encode ids /\ w_nonRecovery st = map hex_encode others
    | None => mainSeen st = false
    end;
  rp_descs id : fileDescs st !! id = snd <$> last_desc fs id;
  rp_sets id : fileDescSets st !! id = fst <$> last_desc fs id;
  rp_ifsc id : default [] (ifscPackets st !! id) = omap (hashed id) fs
}.

Section Packets.
Context (st : par2_walk) (set : bytes).

Lemma packet_main size ids others : wf_packet (PMain size ids others) ->
  par2_packet st set (type_field (PMain size ids others)) (body (PMain size ids others)) =
  if mainSeen st then st else
    MkWalk true size set (map hex_encode ids) (map hex_encode others) (fileDescs st) (fileDescSets st) (ifscPackets st) (packetsSeen st).
Proof. intros Hp. unfold par2_packet. rewrite parse_main by done. by destruct (mainSeen st). Qed.

Lemma packet_desc i m k len name pad : wf_packet (PDesc i m k len name pad) ->
  par2_packet st set (type_field (PDesc i m k len name pad)) (body (PDesc i m k len name pad)) =
  MkWalk (mainSeen st) (w_SliceSize st) (w_RecoverySetID st) (recoverOrder st) (w_nonRecovery st)
    (<[hex_encode i := MkDesc (hex_encode i) (hex_encode k) name len]> (fileDescs st)) (<[hex_encode i := set]> (fileDescSets st))
    (ifscPackets st) (packetsSeen st).
Proof. intros Hp. unfold par2_packet. rewrite parse_desc by done. by destruct (mainSeen st). Qed.

Lemma packet_ifsc i blocks : wf_packet (PIFSC i blocks) ->
  par2_packet st set (type_field (PIFSC i blocks)) (body (PIFSC i blocks)) =
  MkWalk (mainSeen st) (w_SliceSize st) (w_RecoverySetID st) (recoverOrder st) (w_nonRecovery st) (fileDescs st) (fileDescSets st)
    (<[hex_encode i := default [] (ifscPackets st !! hex_encode i) ++ [(set, MkIFSC (hex_encode i) (concat (map fst blocks)))]]> (ifscPackets st))
    (packetsSeen st).
Proof. intros Hp. unfold par2_packet. rewrite parse_ifsc by done. by destruct (mainSeen st). Qed.

Lemma packet_other type b : wf_packet (POther type b) -> par2_packet st set (type_field (POther type b)) (body (POther type b)) = st.
Proof. intros (_ & H1 & H2 & H3). unfold par2_packet. cbn [type_field]. by rewrite H1, H2, H3, andb_false_r. Qed.

End Packets.

Lemma after_packet_reads fs f st : wf_framed f -> reads_packets fs st -> reads_packets (fs ++ [f]) (after_packet st f).
Proof.
  intros (_ & _ & Hp & _) [Hm Hd Hs Hi]. unfold after_packet.
  assert (Hmain : (forall size ids others, payload f <> PMain size ids others) -> main_packet (fs ++ [f]) = main_packet fs).
  { intros Hno. rewrite main_packet_snoc. destruct (main_packet fs); [done|]. unfold main_packet. cbn [omap list_omap].
    destruct (payload f); try done. by destruct (Hno size ids others). }
  destruct (payload f) as [size ids others|i m k len name pad|i blocks|type b] eqn:E;
    [rewrite packet_main by done|rewrite packet_desc by done|rewrite packet_ifsc by done|rewrite packet_other by done];
    split; intros; rewrite ?Hmain, ?last_desc_snoc, ?omap_app by done; unfold described; cbn [omap list_omap]; unfold hashed at 2 || idtac; rewrite ?E, ?app_nil_r;
    try (by destruct (mainSeen st)); try done.
  - rewrite main_packet_snoc. destruct (main_packet fs) as [[[[set sz] ix] ox]|].
    + destruct Hm as (Hm & ?). by rewrite Hm.
    + rewrite Hm. unfold main_packet. cbn [omap list_omap]. by rewrite E.
  - cbn [fileDescs count_packet]. destruct (decide (hex_encode i = id)) as [->|Hne];
      [by rewrite lookup_insert_eq, bool_decide_true|by rewrite lookup_insert_ne, bool_decide_false].
  - cbn [fileDescSets count_packet]. destruct (decide (hex_encode i = id)) as [->|Hne];
      [by rewrite lookup_insert_eq, bool_decide_true|by rewrite lookup_insert_ne, bool_decide_false].
  - cbn [ifscPackets count_packet]. destruct (decide (hex_encode i = id)) as [<-|Hne].
    + rewrite lookup_insert_eq, bool_decide_true by done. cbn [default]. by rewrite Hi.
    + rewrite lookup_insert_ne, bool_decide_false, app_nil_r by done. apply Hi.
Qed.

Lemma walk_reads fs : Forall wf_framed fs -> reads_packets fs (fold_left after_packet fs empty_walk).
Proof.
  induction fs as [|f fs IH] using rev_ind; intros Hf; [by split; intros; cbn; rewrite ?lookup_empty|].
  apply Forall_app in Hf as [Hf H1]. rewrite fold_left_app. cbn [fold_left]. apply after_packet_reads; [by inversion H1|auto].
Qed.

Lemma unambiguous_selected sel set l : i_FileID sel <> [] ->
  unambiguous_loop sel l set = if forallb (fun y : par2IFSCRecord => bool_decide (y.2 = sel)) (filter (fun x => x.1 = set) l) then Some sel else None.
Proof.
  intros Hn. induction l as [|[s x] l IH]; cbn [unambiguous_loop]; [by rewrite bool_decide_false|].
  rewrite (bool_decide_false (i_FileID sel = [])) by done. destruct (decide (s = set)) as [->|Hs].
  - rewrite filter_cons_True by done. rewrite bool_decide_true by done. cbn [negb forallb snd]. rewrite IH.
    destruct sel as [a1 b1], x as [a2 b2]. cbn [i_FileID BlockMD5].
    destruct (decide (a1 = a2)) as [->|], (decide (b1 = b2)) as [->|];
      rewrite ?(bool_decide_true (a2 = a2)), ?(bool_decide_true (b2 = b2)), ?(bool_decide_false (a1 = a2)), ?(bool_decide_false (b1 = b2)) by done;
      cbn [negb orb]; first [by rewrite bool_decide_true by done|by rewrite bool_decide_false by congruence].
  - rewrite filter_cons_False by done. by rewrite bool_decide_false by done.
Qed.

Lemma unambiguous_agreed set l : Forall (fun x : par2IFSCRecord => i_FileID x.2 <> []) l ->
  unambiguousPAR2IFSC l set = agreed set l.
Proof.
  unfold unambiguousPAR2IFSC, agreed. induction 1 as [|[s x] l Hx _ IH]; [done|]. cbn [unambiguous_loop].
  destruct (decide (s = set)) as [->|Hs].
  - rewrite filter_cons_True by done. rewrite bool_decide_true by done. cbn [negb]. rewrite bool_decide_true by done.
    by apply unambiguous_selected.
  - rewrite filter_cons_False by done. by rewrite bool_decide_false by done.
Qed.

Lemma hex_encode_16 id : length id = 16%nat -> hex_encode id <> [].
Proof. intros H E. apply (f_equal length) in E. rewrite length_hex_encode, H in E. done. Qed.

Section Sound.
Context {W : Type} `{Context W} `{MapOrder}.

Lemma par2_loop_wf fuel : forall data st w st', (par2_loop fuel data st w).2 = Ok st' -> wf_walk st -> wf_walk st'.
Proof.
  induction fuel as [|fuel IH]; intros data st w st'; cbn [par2_loop]; [by intros [= <-]|].
  destruct (_ <? par2HeaderSize); [by intros [= <-]|]. unfold call_bind. destruct (ctx_Err w) as [w1 [err|]]; [done|].
  destruct (packet_length _ data) as [n|]; [|by intros [= <-]].
  intros E Hw. assert (Hw' : wf_walk (count_packet (par2_packet st (hex_encode (sub data 32 48)) (sub data 48 64) (sub data 64 (Z.to_nat n)))))
    by by apply count_packet_wf, par2_packet_wf.
  destruct (maxPAR2Packets <? _); [by injection E as <-|]. by eapply IH.
Qed.

Lemma range_descs_elem m fd : fd ∈ range_descs m -> exists id, m !! id = Some fd.
Proof.
  rewrite range_descs_perm. intros Hin. apply list_elem_of_In, in_map_iff in Hin as ([id x] & <- & Hx).
  apply list_elem_of_In, elem_of_map_to_list in Hx. eauto.
Qed.

Lemma par2_info_wf st info : wf_walk st -> par2_info st = Ok info ->
  is_i64 (SliceSize info) /\ Forall wf_desc (Files info) /\ Forall wf_ifsc (IFSC info) /\
  Forall (fun id => length id = 32%nat) (RecoverySetIDs info) /\
  (RecoverySetIDs info <> [] -> Forall (fun fd => FileID fd ∈ RecoverySetIDs info) (Files info)) /\
  Forall (fun x => i_FileID x ∈ RecoverySetIDs info) (IFSC info).
Proof.
  intros [_ Hs Hi _ Hd _ Hp]. unfold par2_info. destruct (negb _ && _); [done|].
  destruct (bool_decide (recoverOrder st = [])) eqn:E; bool_hyps; intros [= <-]; cbn [SliceSize Files IFSC RecoverySetIDs].
  - split_and!; try done. rewrite list.Forall_forall. intros fd (id & Hid)%range_descs_elem. by destruct (Hd id fd Hid).
  - assert (Hf : forall fd, fd ∈ omap (fun id => fileDescs st !! id) (recoverOrder st) -> wf_desc fd /\ FileID fd ∈ recoverOrder st).
    { intros fd (id & Hid & Hfd)%list_elem_of_omap. destruct (Hd id fd Hfd) as [-> ?]. done. }
    assert (Hx : forall x, x ∈ omap (fun id =>
        if negb (bool_decide (default [] (fileDescSets st !! id) = w_RecoverySetID st)) then None
        else unambiguousPAR2IFSC (default [] (ifscPackets st !! id)) (w_RecoverySetID st)) (recoverOrder st) ->
      wf_ifsc x /\ i_FileID x ∈ recoverOrder st).
    { intros x (id & Hid & Hu)%list_elem_of_omap. destruct (negb _) in Hu; [done|].
      apply unambiguous_from in Hu as [[-> Hu]|[s Hu]]; [done|].
      destruct (ifscPackets st !! id) as [l|] eqn:El; cbn in Hu; [|by apply not_elem_of_nil in Hu].
      pose proof (Hp id l El) as Hl. rewrite list.Forall_forall in Hl. destruct (Hl _ Hu) as [Ei ?]. cbn in Ei. by rewrite Ei. }
    split_and!; try done; [| |intros _|]; rewrite list.Forall_forall; intros y Hy; [by destruct (Hf y Hy)|by destruct (Hx y Hy)|by destruct (Hf y Hy)|by destruct (Hx y Hy)].
Qed.

Lemma metadata_sound src w info : (ParsePAR2Metadata src w).2 = Ok info -> exists st, wf_walk st /\ par2_info st = Ok info.
Proof.
  unfold ParsePAR2Metadata, call_bind. destruct (readPAR2PrefixBestEffort src w) as [w1 [data|]]; [|done].
  destruct (par2_loop _ data empty_walk w1) as [w2 res] eqn:E. destruct res as [st|]; [|done]. intros Hi. exists st. split; [|done].
  apply (par2_loop_wf (S (length data)) data empty_walk w1); [by rewrite E|apply empty_walk_wf].
Qed.

End Sound.

Lemma main_packet_set fs set size ids others : Forall wf_framed fs -> main_packet fs = Some (set, size, ids, others) -> length set = 16%nat.
Proof.
  intros Hf. unfold main_packet. destruct (omap _ fs) as [|m l] eqn:E; [done|]. intros [= ->].
  assert (Hin : (set, size, ids, others) ∈ omap (fun f => match payload f with PMain size ids others => Some (set_id f, size, ids, others) | _ => None end) fs)
    by (rewrite E; left).
  apply list_elem_of_omap in Hin as (f & Hin & Hm). destruct (payload f); try done. injection Hm as <- <- <- <-.
  rewrite list.Forall_forall in Hf. by destruct (Hf f Hin).
Qed.

(** C20. The metadata of a PAR2 file is what its packets say.  Whatever a source holds,
    a description that is returned has identifiers and hashes of their size, names
    that are not empty, lengths that are not negative, and block hashes of whole
    digests, each of a file of the set; and for every sequence of packets within the bounds,
    in any order and mixed with packets of other kinds or sets, whose first main packet
    names files, the description read from a source of their bytes has the slice size and
    the files of that packet in its order, each file as its last description says, and
    the block hashes of exactly the files described in the set on which all hash
    packets of the set agree. *)
Theorem par2_metadata {W} `{Context W} `{MapOrder} : alive W ->
  (forall src w info, (ParsePAR2Metadata src w).2 = Ok info ->
     is_i64 (SliceSize info) /\ Forall wf_desc (Files info) /\ Forall wf_ifsc (IFSC info) /\
     Forall (fun id => length id = 32%nat) (RecoverySetIDs info) /\
     (RecoverySetIDs info <> [] -> Forall (fun fd => FileID fd ∈ RecoverySetIDs info) (Files info)) /\
     Forall (fun x => i_FileID x ∈ RecoverySetIDs info) (IFSC info)) /\
  (forall src fs set size ids others w, Forall wf_framed fs -> reads_as src (frames fs) ->
     Z.of_nat (length (frames fs)) <= maxPAR2PrefixBytes -> Z.of_nat (length fs) <= maxPAR2Packets ->
     main_packet fs = Some (set, size, ids, others) -> ids <> [] ->
     (ParsePAR2Metadata (Some src) w).2 =
       Ok (MkInfo size (hex_encode set) (omap (fun id => snd <$> last_desc fs id) (map hex_encode ids))
             (omap (fun id =>
                if bool_decide (fst <$> last_desc fs id = Some (hex_encode set))
                then agreed (hex_encode set) (omap (hashed id) fs) else None) (map hex_encode ids))
             (map hex_encode ids) (map hex_encode others))).
Proof.
  intros Halive. split.
  - intros src w info (st & Hw & Hi)%metadata_sound. by apply (par2_info_wf st).
  - intros src fs set size ids others w Hf Hr Hsize Hcount Hmain Hids. unfold ParsePAR2Metadata, call_bind.
    assert (Hne : frames fs <> []).
    { intros E. destruct fs as [|f fs]; [done|]. apply (f_equal length) in E. unfold frames in E. cbn [map concat] in E.
      rewrite length_app, length_frame in E by by inversion Hf. cbn in E. lia. }
    pose proof (readPAR2Prefix_all src (frames fs) w Hr Hne Hsize) as E.
    destruct (readPAR2PrefixBestEffort (Some src) w) as [w1 res]. cbn in E. subst res.
    assert (maxPAR2PrefixBytes < 2 ^ 63) by done.
    pose proof (par2_loop_frames Halive fs Hf (S (length (frames fs))) empty_walk w1 ltac:(lia) ltac:(lia) ltac:(cbn [empty_walk packetsSeen]; lia)) as El.
    destruct (par2_loop _ (frames fs) empty_walk w1) as [w2 res]. cbn in El. subst res. cbn [snd call_ret].
    destruct (walk_reads fs Hf) as [Hm Hd Hs Hi]. rewrite Hmain in Hm. destruct Hm as (Hseen & Hz & Hset & Hord & Hnon).
    unfold par2_info. rewrite Hseen, Hz, Hset, Hord, Hnon. cbn [negb andb]. rewrite bool_decide_false by (by destruct ids).
    do 2 f_equal; apply list_omap_ext, Forall_Forall2_diag, list.Forall_forall; intros id _; [apply Hd|].
    rewrite Hs, Hi. destruct (last_desc fs id) as [[s fd]|] eqn:El; cbn [fmap option_fmap option_map default fst].
    + destruct (decide (s = hex_encode set)) as [->|Hne']; [rewrite (bool_decide_true (_ = hex_encode set)), (bool_decide_true (Some _ = _)) by done
        |rewrite (bool_decide_false (s = _)), (bool_decide_false (Some s = _)) by congruence; done].
      cbn [negb]. apply unambiguous_agreed. rewrite list.Forall_forall. intros x (f & Hin & Hx)%list_elem_of_omap.
      unfold hashed in Hx. destruct (payload f) as [| |i blocks|] eqn:Ep; try done. destruct (bool_decide _); [|done]. injection Hx as <-.
      cbn. apply hex_encode_16. rewrite list.Forall_forall in Hf. destruct (Hf f Hin) as (_ & _ & Hp & _). rewrite Ep in Hp. apply Hp.
    + rewrite !bool_decide_false; [done|done|]. intros E. symmetry in E. revert E. apply hex_encode_16.
      by eapply main_packet_set.
Qed.

(** A set of one file, read from memory. *)
Module Par2Sample.
#[export] Instance forever : Context unit := {| ctx_Err := fun w => (w, None) |}.
#[export] Instance some_order : MapOrder :=
  {| range_descs := fun m => map snd (map_to_list m); range_descs_perm := fun m => Permutation_refl _ |}.
Definition packets : list framed :=
  [MkFramed (repeat 7 16) (repeat 0 16) (PMain 4 [repeat 1 16] []);
   MkFramed (repeat 7 16) (repeat 0 16) (PDesc (repeat 1 16) (repeat 2 16) (repeat 3 16) 10 (str "file") 0)].
End Par2Sample.
Import Par2Sample.

Lemma sample_wf : Forall wf_framed packets.
Proof.
  repeat (apply list.Forall_cons; split); [..|constructor]; unfold wf_framed, wf_packet; cbn; split_and!; try done; try lia; repeat constructor.
Qed.

Lemma par2_metadata_witness : exists (src : ByteSource unit) info,
  (ParsePAR2Metadata (Some src) tt).2 = Ok info /\ map Name (Files info) = [str "file"].
Proof.
  destruct (par2_metadata (H := forever) ltac:(intros w; reflexivity)) as [_ Hr].
  exists (NewMemSource [97] (frames packets)). eexists. split.
  - apply (Hr (NewMemSource [97] (frames packets)) packets (repeat 7 16) 4 [repeat 1 16] [] tt);
      [exact sample_wf|apply mem_reads_as; intros w; reflexivity|vm_compute; discriminate|vm_compute; discriminate|reflexivity|discriminate].
  - reflexivity.
Defined.
