(* ===== verification/Par2Recovery.v ===== *)
(** PAR2 recovery volumes: internal/archive/par2recovery.go.

    The walk over packet headers is a function of what a visitor does with each
    recovery slice; the visitor's captured variables are a state it passes on.  The
    number of packets a walk may visit is its fuel. *)

From Stdlib Require Import ZArith Lia.
From stdpp Require Import base list numbers strings gmap sets.
From S2P Require Import Par2Solver Prelude Outcome Bencode ContentProof Text ByteSource Par2Packets.

Local Open Scope Z_scope.
Local Open Scope harbor_scope.

Definition maxPAR2RecoveryPackets : Z := 100000.
Definition maxPAR2RecoveryWalkBytes : Z := Z.shiftl 512 20.
Definition par2TypeRecoverySlice : bytes := str "RecvSlic".

Definition ErrPAR2NoRecoverySlices : goerror := errors_New (str "par2: no matching recovery slices").
Definition no_slices : goerror := Error (TPlain []) [ErrPAR2NoRecoverySlices].

Record PAR2RecoverySlice := MkSlice { Exponent : Z; Data : bytes }.

Definition validateRecoveryScan {W} (src : option (ByteSource W)) (sliceSize : Z) : result goerror (ByteSource W) :=
  match src with
  | None => Err (errors_New (str "par2: nil recovery byte source"))
  | Some src =>
      if (sliceSize <=? 0) || negb (Z.rem sliceSize 4 =? 0) || (MaxPAR2SliceBytes <? sliceSize)
      then Err (par2_error "unusable recovery slice size" [])
      else if Size src <=? 0 then Err (errors_New (str "par2: empty recovery byte source"))
      else Ok src
  end.

Section Volume.
Context {W : Type} `{Context W}.

(** ** The walk *)

Section Walk.
Context {V : Type} (src : ByteSource W) (recoverySetID : bytes) (sliceSize : Z).
(** Of an exponent and the offset of its body: whether to keep going. *)
Context (visit : Z -> Z -> V -> W -> W * (V * result goerror bool)).

(** A read failed: the context's error, or a clean stop. *)
Definition stop_or_cancel (v : V) : W -> W * (V * option goerror) :=
  let! err := ctx_Err in call_ret (v, err).

Definition walk_size : Z := if maxPAR2RecoveryWalkBytes <? Size src then maxPAR2RecoveryWalkBytes else Size src.

(** A recovery slice of the set, of exactly one slice and its exponent. *)
Definition wanted_header (header : bytes) (length_ : Z) : bool :=
  (length_ - par2HeaderSize =? sliceSize + 4) && isPAR2PacketType (sub header 48 64) par2TypeRecoverySlice &&
  (bool_decide (recoverySetID = []) || bool_decide (hex_encode (sub header 32 48) = recoverySetID)).

Fixpoint walk_loop (fuel : nat) (pos packets : Z) (v : V) : W -> W * (V * option goerror) :=
  match fuel with
  | O => call_ret (v, None)
  | S fuel =>
      if walk_size <? pos + par2HeaderSize then call_ret (v, None)
      else
        let! err := ctx_Err in
        match err with
        | Some err => call_ret (v, Some err)
        | None =>
            let! (header, _, err) := read_block src par2HeaderSize pos in
            match err with
            | Some _ => stop_or_cancel v
            | None =>
                match packet_length (walk_size - pos) header with
                | None => call_ret (v, None)
                | Some n =>
                    let next v :=
                      if maxPAR2RecoveryPackets <? packets + 1 then call_ret (v, None)
                      else walk_loop fuel (pos + n) (packets + 1) v in
                    if wanted_header header n then
                      let! (expBuf, _, err) := read_block src 4 (pos + par2HeaderSize) in
                      match err with
                      | Some _ => stop_or_cancel v
                      | None =>
                          let! (v, res) := visit (le expBuf) (pos + par2HeaderSize) v in
                          match res with
                          | Err err => call_ret (v, Some err)
                          | Ok keepGoing => if keepGoing then next v else call_ret (v, None)
                          end
                      end
                    else next v
                end
            end
        end
  end.

(** The counter stops the loop before the fuel does. *)
Definition walkPAR2RecoveryPackets : V -> W -> W * (V * option goerror) :=
  walk_loop (S (Z.to_nat maxPAR2RecoveryPackets)) 0 0.

End Walk.

(** ** Discovery *)

Record discovery := MkDiscovery { found : list Z; seen : gset Z }.

Definition discover (need : Z) (exponent _bodyOffset : Z) (v : discovery) : W -> W * (discovery * result goerror bool) :=
  if bool_decide (exponent ∈ seen v) then call_ret (v, Ok true)
  else
    let v := MkDiscovery (found v ++ [exponent]) ({[exponent]} ∪ seen v) in
    call_ret (v, Ok (Z.of_nat (length (found v)) <? need)).

Definition PAR2RecoveryExponents (src : option (ByteSource W)) (recoverySetID : bytes) (sliceSize need : Z)
    : W -> W * result goerror (list Z) :=
  let! err := ctx_Err in
  match err with
  | Some err => call_ret (Err err)
  | None =>
      if need <=? 0 then call_ret (Err (errors_New (str "par2: exponent discovery needs a positive count")))
      else
        match validateRecoveryScan src sliceSize with
        | Err err => call_ret (Err err)
        | Ok src =>
            let! (v, err) := walkPAR2RecoveryPackets src recoverySetID sliceSize (discover need) (MkDiscovery [] ∅) in
            match err with
            | Some err => call_ret (Err err)
            | None => if Z.of_nat (length (found v)) <? need then call_ret (Err no_slices) else call_ret (Ok (found v))
            end
        end
  end.

(** ** Collection *)

Record collection := MkCollection { out : list PAR2RecoverySlice; byExponent : gmap Z nat; spent : Z }.

Definition collect_slice (src : ByteSource W) (sliceSize : Z) (want : gset Z) (byteBudget : Z)
    (exponent bodyOffset : Z) (v : collection) : W -> W * (collection * result goerror bool) :=
  if negb (bool_decide (exponent ∈ want)) then call_ret (v, Ok true)
  else
    let! (payload, _, err) := read_block src sliceSize (bodyOffset + 4) in
    match err with
    | Some _ => let! err := ctx_Err in call_ret (v, match err with Some err => Err err | None => Ok true end)
    | None =>
        match byExponent v !! exponent with
        | Some prior =>
            match out v !! prior with
            | Some slice =>
                if negb (bool_decide (Data slice = payload)) then call_ret (v, Err (par2_error "conflicting recovery slices" []))
                else call_ret (v, Ok true)
            | None => call_ret (v, Ok true)
            end
        | None =>
            if byteBudget - sliceSize <? spent v then call_ret (v, Ok false)
            else
              let v := MkCollection (out v ++ [MkSlice exponent payload]) (<[exponent := length (out v)]> (byExponent v)) (spent v + sliceSize) in
              call_ret (v, Ok (Z.of_nat (length (out v)) <? Z.of_nat (size want)))
        end
    end.

Definition ScanPAR2RecoverySlices (src : option (ByteSource W)) (recoverySetID : bytes) (sliceSize : Z) (want : gset Z)
    (byteBudget : Z) : W -> W * result goerror (list PAR2RecoverySlice) :=
  let! err := ctx_Err in
  match err with
  | Some err => call_ret (Err err)
  | None =>
      if bool_decide (want = ∅) then call_ret (Err (errors_New (str "par2: no recovery exponents requested")))
      else
        match validateRecoveryScan src sliceSize with
        | Err err => call_ret (Err err)
        | Ok src =>
            if byteBudget <? sliceSize then call_ret (Err (par2_error "byte budget cannot hold one slice" []))
            else
              let! (v, err) := walkPAR2RecoveryPackets src recoverySetID sliceSize (collect_slice src sliceSize want byteBudget)
                (MkCollection [] ∅ 0) in
              match err with
              | Some err => call_ret (Err err)
              | None => if bool_decide (out v = []) then call_ret (Err no_slices) else call_ret (Ok (out v))
              end
        end
  end.

End Volume.

(** ** Any volume *)

Section Sound.
Context {W : Type} `{Context W}.

(** What every visit keeps while it goes on, and has when it stops, the walk has. *)
Lemma walk_keeps {V} (P Q : V -> Prop) src set ss (visit : Z -> Z -> V -> W -> W * (V * result goerror bool)) :
  (forall v, P v -> Q v) ->
  (forall e o v w, P v -> match (visit e o v w).2 with (v', Ok true) => P v' | (v', _) => Q v' end) ->
  forall fuel pos packets v w, P v -> Q (walk_loop src set ss visit fuel pos packets v w).2.1.
Proof.
  intros Hpq Hv fuel. induction fuel as [|fuel IH]; intros pos packets v w Hp; cbn [walk_loop]; [by apply Hpq|].
  destruct (_ <? pos + par2HeaderSize); [by apply Hpq|]. unfold call_bind at 1. destruct (ctx_Err w) as [w1 [err|]]; [by apply Hpq|].
  unfold call_bind at 1. destruct (read_block src par2HeaderSize pos w1) as [w2 [[header n] err]].
  destruct err as [err|]; [unfold stop_or_cancel, call_bind; destruct (ctx_Err w2); by apply Hpq|].
  destruct (packet_length _ header) as [m|]; [|by apply Hpq].
  destruct (wanted_header _ _ _ _); [|destruct (maxPAR2RecoveryPackets <? packets + 1); [by apply Hpq|by apply IH]].
  unfold call_bind at 1. destruct (read_block src 4 _ w2) as [w3 [[expBuf k] err]].
  destruct err as [err|]; [unfold stop_or_cancel, call_bind; destruct (ctx_Err w3); by apply Hpq|].
  unfold call_bind at 1. pose proof (Hv (le expBuf) (pos + par2HeaderSize) v w3 Hp) as Hp'.
  destruct (visit (le expBuf) (pos + par2HeaderSize) v w3) as [w4 [v' res]]. cbn in Hp'.
  destruct res as [[]|err]; [destruct (maxPAR2RecoveryPackets <? packets + 1); [by apply Hpq|by apply IH]|done..].
Qed.

(** What a collection holds. *)
Record collected (ss : Z) (want : gset Z) (budget : Z) (v : collection) : Prop := {
  co_index : forall e i, byExponent v !! e = Some i <-> exists d, out v !! i = Some (MkSlice e d);
  co_slices : Forall (fun s => Exponent s ∈ want /\ Z.of_nat (length (Data s)) = ss) (out v);
  co_spent : spent v = ss * Z.of_nat (length (out v));
  co_budget : spent v <= Z.max 0 budget
}.

Lemma collected_add ss want budget v e d : collected ss want budget v -> e ∈ want -> byExponent v !! e = None ->
  Z.of_nat (length d) = ss -> spent v <= budget - ss -> 0 < ss ->
  collected ss want budget (MkCollection (out v ++ [MkSlice e d]) (<[e := length (out v)]> (byExponent v)) (spent v + ss)).
Proof.
  intros [Hi Hs Hsp Hb] Hw Hno Hd Hbud Hss. split; cbn [byExponent out spent].
  - intros e' i. destruct (decide (e = e')) as [<-|Hne].
    + rewrite lookup_insert_eq. split.
      * intros [= <-]. exists d. by rewrite lookup_app_r, Nat.sub_diag.
      * intros [d' Hd']. apply lookup_app_Some in Hd' as [Hd'|[Hle Hd']].
        -- assert (Hc : byExponent v !! e = Some i) by (apply Hi; eauto). congruence.
        -- f_equal. apply list_lookup_singleton_Some in Hd' as [? _]. lia.
    + rewrite lookup_insert_ne by done. rewrite Hi. split; intros [d' Hd']; exists d'.
      * by apply lookup_app_l_Some.
      * apply lookup_app_Some in Hd' as [Hd'|[_ Hd']]; [done|]. apply list_lookup_singleton_Some in Hd' as [_ [= ? _]]. done.
  - apply Forall_app_2; [done|]. by constructor; [|constructor].
  - rewrite Hsp, length_app. cbn [length]. lia.
  - lia.
Qed.

Lemma collect_keeps src ss want budget e o v (w : W) : 0 < ss -> collected ss want budget v ->
  collected ss want budget (collect_slice src ss want budget e o v w).2.1.
Proof.
  intros Hss Hv. unfold collect_slice. destruct (bool_decide (e ∈ want)) eqn:Ew; [|done]. bool_hyps. cbn [negb].
  unfold call_bind at 1. destruct (read_block src ss (o + 4) w) as [w1 [[payload n] err]] eqn:Er.
  destruct err as [err|]; [unfold call_bind; by destruct (ctx_Err w1) as [w2 [|]]|].
  destruct (byExponent v !! e) as [prior|] eqn:Ep.
  { destruct (out v !! prior) as [s|]; [|done]. by destruct (negb _). }
  destruct (Z.ltb_spec (budget - ss) (spent v)); [done|]. cbn [call_ret snd fst]. apply collected_add; try done.
  unfold read_block, call_bind in Er. destruct (ReadAt src ss (o + 4) w) as [w2 [[written k] err']].
  injection Er as _ <- _ _. rewrite fill_length. lia.
Qed.

Lemma collected_nodup ss want budget v : collected ss want budget v -> NoDup (map Exponent (out v)).
Proof.
  intros [Hi _ _ _]. apply NoDup_alt. intros i j e. rewrite !list_map_lookup. intros E1 E2.
  destruct (out v !! i) as [[e1 d1]|] eqn:H1, (out v !! j) as [[e2 d2]|] eqn:H2; try done. cbn in E1, E2. injection E1 as ->. injection E2 as ->.
  assert (A1 : byExponent v !! e = Some i) by (apply Hi; eauto). assert (A2 : byExponent v !! e = Some j) by (apply Hi; eauto). congruence.
Qed.

Lemma empty_collected ss want budget : collected ss want budget (MkCollection [] ∅ 0).
Proof. split; cbn; [|constructor|lia|lia]. intros e i. rewrite lookup_empty. split; [done|]. by intros [d ?]. Qed.

(** What a discovery holds. *)
Record discovered (need : Z) (v : discovery) : Prop := {
  di_seen : forall e, e ∈ seen v <-> e ∈ found v;
  di_nodup : NoDup (found v)
}.

Lemma empty_discovered need : discovered need (MkDiscovery [] ∅).
Proof. split; [intros e; cbn; set_solver|constructor]. Qed.

Lemma discover_keeps need e o (v : discovery) (w : W) : discovered need v -> discovered need (discover need e o v w).2.1.
Proof.
  intros [Hs Hn]. unfold discover. destruct (bool_decide (e ∈ seen v)) eqn:E; bool_hyps; [by split|]. cbn. split; cbn.
  - intros x. rewrite elem_of_union, elem_of_singleton, elem_of_app, list_elem_of_singleton, Hs. tauto.
  - apply NoDup_app. split_and!; [done| |apply NoDup_singleton]. intros x Hx ->%list_elem_of_singleton. apply E, Hs, Hx.
Qed.

(** The walk stops once enough exponents are found. *)
Lemma discover_stops need e o (v : discovery) (w : W) : 0 < need -> Z.of_nat (length (found v)) < need ->
  match (discover need e o v w).2 with
  | (v', Ok true) => Z.of_nat (length (found v')) < need
  | (v', _) => Z.of_nat (length (found v')) <= need
  end.
Proof.
  intros Hn Hl. unfold discover. destruct (bool_decide _); [done|]. cbn [call_ret snd found].
  rewrite length_app. cbn [length]. destruct (Z.ltb_spec (Z.of_nat (length (found v) + 1)) need); lia.
Qed.

End Sound.

(** ** A volume of packets *)

Lemma sub_take i j k (d : bytes) : (j <= k)%nat -> sub (take k d) i j = sub d i j.
Proof. intros H. unfold sub. rewrite skipn_firstn_comm, take_take. f_equal. lia. Qed.

Lemma packet_length_take n d : packet_length n (take 64 d) = packet_length n d.
Proof. unfold packet_length. rewrite take_take, sub_take by lia. done. Qed.

(** The exponent and the payload of a recovery slice of a set. *)
Definition volume_slice (set : bytes) (ss : Z) (f : framed) : option (Z * bytes) :=
  match payload f with
  | POther type b =>
      if (Z.of_nat (length b) =? ss + 4) && isPAR2PacketType type par2TypeRecoverySlice &&
         (bool_decide (set = []) || bool_decide (hex_encode (set_id f) = set))
      then Some (le (take 4 b), drop 4 b) else None
  | _ => None
  end.

Definition volume_slices (set : bytes) (ss : Z) (fs : list framed) : list (Z * bytes) := omap (volume_slice set ss) fs.

Lemma wanted_frame set ss f d : wf_framed f -> sub d 32 48 = set_id f -> sub d 48 64 = type_field (payload f) ->
  wanted_header set ss (take 64 d) (Z.of_nat (length (frame f))) = bool_decide (is_Some (volume_slice set ss f)).
Proof.
  intros Hf E1 E2. pose proof (length_frame f Hf) as Hl. unfold wanted_header, volume_slice. rewrite !sub_take, E1, E2, Hl by lia.
  unfold par2HeaderSize. replace (Z.of_nat (64 + length (body (payload f))) - 64) with (Z.of_nat (length (body (payload f)))) by lia.
  destruct (payload f) as [| | |type b]; cbn [type_field body];
    try (rewrite (bool_decide_false (is_Some None)) by (by intros [? ?]); rewrite andb_false_r; by rewrite ?andb_false_l).
  destruct ((Z.of_nat (length b) =? ss + 4) && _ && _); symmetry; [by apply bool_decide_eq_true|].
  apply bool_decide_eq_false. by intros [? ?].
Qed.

(** What a walk over the slices does, visit by visit. *)
Fixpoint run_visits {V} (pv : Z -> bytes -> V -> V * result goerror bool) (l : list (Z * bytes)) (v : V) : V * option goerror :=
  match l with
  | [] => (v, None)
  | (e, d) :: l =>
      match pv e d v with
      | (v, Err err) => (v, Some err)
      | (v, Ok true) => run_visits pv l v
      | (v, Ok false) => (v, None)
      end
  end.

Section Frames.
Context {W : Type} `{Context W}.
Context (Halive : alive W).
Context {V : Type} (src : ByteSource W) (data : bytes) (set : bytes) (ss : Z).
Context (visit : Z -> Z -> V -> W -> W * (V * result goerror bool)) (pv : Z -> bytes -> V -> V * result goerror bool).
Context (Hreads : reads_as src data) (Hss : 0 < ss) (Hsize : Z.of_nat (length data) <= maxPAR2RecoveryWalkBytes).
Context (Hvisit : forall e o v w, 0 <= o -> o + 4 + ss <= Z.of_nat (length data) ->
  (visit e o v w).2 = pv e (span data (o + 4) ss) v).

Lemma walk_size_all : walk_size src = Z.of_nat (length data).
Proof. unfold walk_size. rewrite (proj1 Hreads). by destruct (Z.ltb_spec maxPAR2RecoveryWalkBytes (Z.of_nat (length data))); [lia|]. Qed.

Lemma read_at pre rest n w : data = pre ++ rest -> 0 < n -> n <= Z.of_nat (length rest) ->
  (read_block src n (Z.of_nat (length pre)) w).2 = (take (Z.to_nat n) rest, n, None).
Proof.
  intros Hd Hn Hl. rewrite (read_block_inside src data); [|done|lia|lia|rewrite Hd, length_app; lia].
  unfold span. rewrite Nat2Z.id, Hd, drop_app_length. done.
Qed.

Lemma walk_frames fs : Forall wf_framed fs -> forall pre fuel packets v w, data = pre ++ frames fs -> (length fs < fuel)%nat ->
  packets + Z.of_nat (length fs) <= maxPAR2RecoveryPackets ->
  (walk_loop src set ss visit fuel (Z.of_nat (length pre)) packets v w).2 = run_visits pv (volume_slices set ss fs) v.
Proof.
  assert (Hbig : maxPAR2RecoveryWalkBytes < 2 ^ 63) by done.
  induction 1 as [|f fs Hf _ IH]; intros pre fuel packets v w Hd Hfuel Hp; (destruct fuel as [|fuel]; [cbn in Hfuel; lia|]);
    cbn [walk_loop]; rewrite walk_size_all.
  { unfold frames in Hd. cbn in Hd. rewrite app_nil_r in Hd. subst pre. unfold par2HeaderSize.
    by destruct (Z.ltb_spec (Z.of_nat (length data)) (Z.of_nat (length data) + 64)); [|lia]. }
  unfold frames in Hd. cbn [map concat] in Hd. fold (frames fs) in Hd. pose proof (length_frame f Hf) as Hl.
  assert (Hlen : length data = (length pre + (length (frame f) + length (frames fs)))%nat) by (by rewrite Hd, !length_app).
  unfold par2HeaderSize at 1. destruct (Z.ltb_spec (Z.of_nat (length data)) (Z.of_nat (length pre) + 64)); [lia|].
  match goal with |- context [call_bind ctx_Err ?k] => destruct (poll Halive w k) as [w1 ->] end. cbn beta iota.
  unfold call_bind at 1. pose proof (read_at pre (frame f ++ frames fs) par2HeaderSize w1 Hd ltac:(done)) as E.
  specialize (E ltac:(unfold par2HeaderSize; rewrite length_app; lia)).
  destruct (read_block src par2HeaderSize (Z.of_nat (length pre)) w1) as [w2 r]. cbn [snd] in E. subst r.
  destruct (frame_fields f (frames fs) Hf ltac:(lia)) as (E1 & E2 & E3 & E4 & E5).
  change (Z.to_nat par2HeaderSize) with 64%nat. rewrite packet_length_take.
  replace (Z.of_nat (length data) - Z.of_nat (length pre)) with (Z.of_nat (length (frame f ++ frames fs))) by (rewrite length_app; lia).
  rewrite E1, wanted_frame by done. cbn [length] in Hfuel, Hp.
  assert (Hnext : forall v w, (if maxPAR2RecoveryPackets <? packets + 1 then call_ret (v, None)
      else walk_loop src set ss visit fuel (Z.of_nat (length pre) + Z.of_nat (length (frame f))) (packets + 1) v) w =
    walk_loop src set ss visit fuel (Z.of_nat (length (pre ++ frame f))) (packets + 1) v w).
  { intros v' w'. destruct (Z.ltb_spec maxPAR2RecoveryPackets (packets + 1)); [lia|]. by rewrite length_app, Nat2Z.inj_add. }
  unfold volume_slices. cbn [omap list_omap]. fold (volume_slices set ss fs).
  assert (Hd' : data = (pre ++ frame f) ++ frames fs) by (by rewrite <-app_assoc).
  destruct (volume_slice set ss f) as [[e d]|] eqn:Ev.
  2: { rewrite bool_decide_false by (by intros [? ?]). rewrite Hnext. apply IH; [done|lia|lia]. }
  rewrite bool_decide_true by done. cbn [run_visits].
  unfold volume_slice in Ev. destruct (payload f) as [| | |type b] eqn:Ep; try done.
  destruct ((Z.of_nat (length b) =? ss + 4) && _ && _) eqn:Eg; [|done]. bool_hyps. injection Ev as <- <-. cbn [body] in *.
  set (o := Z.of_nat (length pre) + par2HeaderSize).
  assert (Hdrop : frame f ++ frames fs = take 64 (frame f ++ frames fs) ++ b ++ frames fs).
  { rewrite <-(take_drop 64 (frame f ++ frames fs)) at 1. f_equal. rewrite drop_app_le by lia. f_equal.
    assert (Eb : sub (frame f ++ frames fs) 64 (length (frame f)) = b) by exact E4.
    unfold sub in Eb. rewrite drop_app_le in Eb by lia. rewrite <-Eb, take_app_le by (rewrite length_drop; lia).
    rewrite take_ge; [done|rewrite length_drop; lia]. }
  set (pre' := pre ++ take 64 (frame f ++ frames fs)).
  assert (Hpre' : Z.of_nat (length pre') = o).
  { unfold pre', o. rewrite length_app, length_take, length_app. unfold par2HeaderSize. lia. }
  assert (Hd2 : data = pre' ++ b ++ frames fs) by (unfold pre'; rewrite <-app_assoc; by rewrite <-Hdrop).
  unfold call_bind at 1. pose proof (read_at pre' (b ++ frames fs) 4 w2 Hd2 ltac:(lia) ltac:(rewrite length_app; lia)) as E.
  rewrite Hpre' in E. destruct (read_block src 4 o w2) as [w3 r]. cbn [snd] in E. subst r.
  change (Z.to_nat 4) with 4%nat. rewrite take_app_le by lia.
  assert (Hspan : span data (o + 4) ss = drop 4 b).
  { unfold span. rewrite Hd2. replace (Z.to_nat (o + 4)) with (length pre' + 4)%nat by lia. rewrite <-drop_drop, drop_app_length.
    rewrite drop_app_le by lia. rewrite take_app_le by (rewrite length_drop; lia). apply take_ge. rewrite length_drop. lia. }
  unfold call_bind at 1. assert (Hoff : o + 4 + ss <= Z.of_nat (length data)) by (unfold o, par2HeaderSize in *; lia).
  pose proof (Hvisit (le (take 4 b)) o v w3 ltac:(lia) Hoff) as Ex. rewrite Hspan in Ex.
  destruct (visit (le (take 4 b)) o v w3) as [w4 r]. cbn [snd] in Ex. subst r.
  destruct (pv (le (take 4 b)) (drop 4 b) v) as [v' [[]|err]]; [|done..].
  rewrite Hnext. apply IH; [done|lia|lia].
Qed.

End Frames.

(** ** What a volume gives *)

(** The first slice of each exponent that is not held yet. *)
Fixpoint first_slices (held : gset Z) (l : list (Z * bytes)) : list (Z * bytes) :=
  match l with
  | [] => []
  | (e, d) :: l => if bool_decide (e ∈ held) then first_slices held l else (e, d) :: first_slices ({[e]} ∪ held) l
  end.

Definition consistent (l : list (Z * bytes)) : Prop := forall e d1 d2, (e, d1) ∈ l -> (e, d2) ∈ l -> d1 = d2.

Lemma first_slices_held held held' l : (forall e, e ∈ held <-> e ∈ held') -> first_slices held l = first_slices held' l.
Proof.
  revert held held'. induction l as [|[e d] l IH]; intros h h' Hh; cbn [first_slices]; [done|].
  assert (E : bool_decide (e ∈ h) = bool_decide (e ∈ h')) by (apply bool_decide_ext, Hh). rewrite E.
  destruct (bool_decide (e ∈ h')); [by apply IH|]. f_equal. apply IH. intros x. rewrite !elem_of_union, Hh. done.
Qed.

Lemma first_slices_none held l : (forall e d, (e, d) ∈ l -> e ∈ held) -> first_slices held l = [].
Proof.
  induction l as [|[e d] l IH]; intros Hh; cbn [first_slices]; [done|]. rewrite bool_decide_true by (eapply Hh; left).
  apply IH. intros e' d' H. eapply Hh. by right.
Qed.

(** As many exponents as are wanted are all of them. *)
Lemma all_wanted (want : gset Z) (l : list Z) : NoDup l -> Forall (fun e => e ∈ want) l -> (size want <= length l)%nat ->
  forall e, e ∈ want -> e ∈ l.
Proof.
  intros Hn Hf Hs e He. rewrite list.Forall_forall in Hf. destruct (decide (e ∈ l)) as [|Hno]; [done|exfalso].
  assert (Hsub : list_to_set l ∪ {[e]} ⊆ want).
  { intros x. rewrite elem_of_union, elem_of_list_to_set, elem_of_singleton. intros [H| ->]; auto. }
  apply subseteq_size in Hsub. rewrite size_union in Hsub.
  - rewrite size_list_to_set, size_singleton in Hsub by done. lia.
  - intros x Hx Hy. apply elem_of_list_to_set in Hx. apply elem_of_singleton in Hy. by subst.
Qed.

Definition collect_pure (ss : Z) (want : gset Z) (budget e : Z) (d : bytes) (v : collection) : collection * result goerror bool :=
  if negb (bool_decide (e ∈ want)) then (v, Ok true)
  else
    match byExponent v !! e with
    | Some prior =>
        match out v !! prior with
        | Some s => if negb (bool_decide (Data s = d)) then (v, Err (par2_error "conflicting recovery slices" [])) else (v, Ok true)
        | None => (v, Ok true)
        end
    | None =>
        if budget - ss <? spent v then (v, Ok false)
        else
          let v := MkCollection (out v ++ [MkSlice e d]) (<[e := length (out v)]> (byExponent v)) (spent v + ss) in
          (v, Ok (Z.of_nat (length (out v)) <? Z.of_nat (size want)))
    end.

Lemma collect_slice_pure {W} `{Context W} (src : ByteSource W) data ss want budget e o v w : reads_as src data -> 0 < ss ->
  0 <= o -> o + 4 + ss <= Z.of_nat (length data) ->
  (collect_slice src ss want budget e o v w).2 = collect_pure ss want budget e (span data (o + 4) ss) v.
Proof.
  intros Hr Hss Ho Hb. unfold collect_slice, collect_pure. destruct (negb _); [done|]. unfold call_bind.
  pose proof (read_block_inside src data ss (o + 4) w Hr Hss ltac:(lia) ltac:(lia)) as E.
  destruct (read_block src ss (o + 4) w) as [w1 r]. cbn in E. subst r. destruct (byExponent v !! e) as [i|].
  - destruct (out v !! i) as [s|]; [|done]. by destruct (negb _).
  - by destruct (_ <? spent v).
Qed.

Definition held (v : collection) : gset Z := list_to_set (map Exponent (out v)).

Definition to_slices (l : list (Z * bytes)) : list PAR2RecoverySlice := map (fun x => MkSlice x.1 x.2) l.

Lemma held_elem ss want budget v e : collected ss want budget v -> e ∈ held v <-> is_Some (byExponent v !! e).
Proof.
  intros [Hi _ _ _]. unfold held. rewrite elem_of_list_to_set, list_elem_of_In, in_map_iff. split.
  - intros ([e' d] & <- & Hin). apply list_elem_of_In, list_elem_of_lookup in Hin as [i Hl]. exists i. apply Hi. eauto.
  - intros [i [d Hd]%Hi]. exists (MkSlice e d). split; [done|]. apply list_elem_of_In. by eapply list_elem_of_lookup_2.
Qed.

Lemma collect_run ss want budget l : 0 < ss -> ss * Z.of_nat (size want) <= budget ->
  forall v pre, collected ss want budget v -> (length (out v) < size want)%nat -> consistent (filter (fun x => x.1 ∈ want) (pre ++ l)) ->
  (forall e d, MkSlice e d ∈ out v -> (e, d) ∈ pre) -> Forall (fun x => Z.of_nat (length x.2) = ss) l ->
  run_visits (collect_pure ss want budget) l v =
    ((run_visits (collect_pure ss want budget) l v).1, None) /\
  out (run_visits (collect_pure ss want budget) l v).1 =
    out v ++ to_slices (first_slices (held v) (filter (fun x => x.1 ∈ want) l)).
Proof.
  intros Hss Hbud. induction l as [|[e d] l IH]; intros v pre Hv Hlen Hcons Hpre Hl; cbn [run_visits].
  { split; [done|]. by rewrite app_nil_r. }
  apply list.Forall_cons in Hl as [Hd Hl]. unfold collect_pure at 1 3 5.
  assert (Hmove : pre ++ (e, d) :: l = (pre ++ [(e, d)]) ++ l) by by rewrite <-app_assoc.
  destruct (decide (e ∈ want)) as [He|He].
  2: { rewrite bool_decide_false by done. cbn [negb]. rewrite filter_cons_False by done. rewrite Hmove in Hcons.
       apply (IH v (pre ++ [(e, d)])); try done. intros e' d' H. apply elem_of_app. left. auto. }
  rewrite bool_decide_true by done. cbn [negb]. rewrite filter_cons_True by done. cbn [first_slices].
  destruct (byExponent v !! e) as [i|] eqn:Ei.
  - assert (Hh : e ∈ held v) by (apply (held_elem ss want budget v e Hv); eauto). rewrite (bool_decide_true (e ∈ held v)) by done.
    apply (co_index _ _ _ _ Hv) in Ei as [d' Hi]. rewrite Hi. cbn [Data].
    assert (d' = d) as ->.
    { apply (Hcons e); apply list_elem_of_filter; (split; [done|]); apply elem_of_app; [left|right; left].
      apply Hpre. by eapply list_elem_of_lookup_2. }
    rewrite bool_decide_true by done. cbn [negb]. rewrite Hmove in Hcons.
    apply (IH v (pre ++ [(e, d)])); try done. intros e' d' H. apply elem_of_app. left. auto.
  - assert (Hh : e ∉ held v) by (rewrite (held_elem ss want budget v e Hv), Ei; by intros [? ?]).
    rewrite (bool_decide_false (e ∈ held v)) by done. pose proof (co_spent _ _ _ _ Hv) as Hsp.
    assert (ss * (Z.of_nat (length (out v)) + 1) <= ss * Z.of_nat (size want)) by (apply Z.mul_le_mono_nonneg_l; lia).
    destruct (Z.ltb_spec (budget - ss) (spent v)); [lia|].
    set (v' := MkCollection _ _ _).
    assert (Hv' : collected ss want budget v') by (apply collected_add; done).
    assert (Hheld : forall x, x ∈ {[e]} ∪ held v <-> x ∈ held v').
    { intros x. unfold held, v'. cbn [out]. rewrite map_app, list_to_set_app. cbn [map list_to_set foldr Exponent]. set_solver. }
    cbn [to_slices map fst snd]. destruct (Z.ltb_spec (Z.of_nat (length (out v'))) (Z.of_nat (size want))) as [Hmore|Hfull].
    + rewrite Hmove in Hcons. destruct (IH v' (pre ++ [(e, d)]) Hv' ltac:(lia) Hcons) as [E1 E2]; [|done|].
      { intros e' d' [H'|H']%elem_of_app; apply elem_of_app; [left; auto|right]. apply list_elem_of_singleton in H' as [= -> ->]. left. }
      split; [exact E1|]. rewrite E2, (first_slices_held _ _ _ Hheld). unfold v' at 1. cbn [out]. by rewrite <-app_assoc.
    + cbn [fst]. split; [done|]. unfold v'. cbn [out]. rewrite first_slices_none; [done|].
      intros e' d' [Hw _]%list_elem_of_filter. apply Hheld, elem_of_list_to_set.
      apply (all_wanted want); [by eapply collected_nodup| |rewrite length_map; lia|done].
      apply list.Forall_forall. intros x Hx. apply list_elem_of_In, in_map_iff in Hx as (s & <- & Hs).
      pose proof (co_slices _ _ _ _ Hv') as Hc. rewrite list.Forall_forall in Hc. apply list_elem_of_In in Hs. by destruct (Hc s Hs).
Qed.

Definition discover_pure (need e : Z) (_ : bytes) (v : discovery) : discovery * result goerror bool :=
  if bool_decide (e ∈ seen v) then (v, Ok true)
  else
    let v := MkDiscovery (found v ++ [e]) ({[e]} ∪ seen v) in
    (v, Ok (Z.of_nat (length (found v)) <? need)).

Lemma discover_run need l : forall v, Z.of_nat (length (found v)) < need ->
  run_visits (discover_pure need) l v = ((run_visits (discover_pure need) l v).1, None) /\
  found (run_visits (discover_pure need) l v).1 = take (Z.to_nat need) (found v ++ map fst (first_slices (seen v) l)).
Proof.
  induction l as [|[e d] l IH]; intros v Hl; cbn [run_visits first_slices].
  { split; [done|]. cbn. rewrite app_nil_r, take_ge by lia. done. }
  unfold discover_pure at 1 3 5. destruct (bool_decide (e ∈ seen v)); [by apply IH|].
  cbn [found]. destruct (Z.ltb_spec (Z.of_nat (length (found v ++ [e]))) need) as [Hm|Hm].
  - destruct (IH (MkDiscovery (found v ++ [e]) ({[e]} ∪ seen v)) Hm) as [E1 E2]. split; [exact E1|]. rewrite E2. cbn [found seen map fst].
    by rewrite <-app_assoc.
  - cbn [fst]. split; [done|]. cbn [found]. rewrite length_app in Hm. cbn [length map fst] in *.
    replace (found v ++ e :: map fst (first_slices ({[e]} ∪ seen v) l)) with ((found v ++ [e]) ++ map fst (first_slices ({[e]} ∪ seen v) l))
      by (by rewrite <-app_assoc).
    rewrite take_app_le by (rewrite length_app; cbn; lia). rewrite take_ge; [done|]. rewrite length_app. cbn. lia.
Qed.

(** A slice size the solver takes. *)
Definition usable (ss : Z) : Prop := 0 < ss /\ Z.rem ss 4 = 0 /\ ss <= MaxPAR2SliceBytes.

Lemma validate_usable {W} (src : ByteSource W) ss : usable ss -> 0 < Size src -> validateRecoveryScan (Some src) ss = Ok src.
Proof.
  intros (H1 & H2 & H3) Hs. unfold validateRecoveryScan. destruct (Z.leb_spec ss 0); [lia|]. rewrite H2. cbn [Z.eqb negb orb].
  destruct (Z.ltb_spec MaxPAR2SliceBytes ss); [lia|]. by destruct (Z.leb_spec (Size src) 0); [lia|].
Qed.

Lemma validate_ok {W} (src : option (ByteSource W)) ss src' : validateRecoveryScan src ss = Ok src' -> 0 < ss.
Proof.
  unfold validateRecoveryScan. destruct src as [src|]; [|done]. destruct (Z.leb_spec ss 0); [done|]. done.
Qed.

Lemma volume_slices_length set ss fs : 0 < ss -> Forall (fun x => Z.of_nat (length x.2) = ss) (volume_slices set ss fs).
Proof.
  intros Hss. apply list.Forall_forall. intros [e d] (f & _ & Hf)%list_elem_of_omap. unfold volume_slice in Hf.
  destruct (payload f) as [| | |type b]; try done. destruct ((Z.of_nat (length b) =? ss + 4) && _ && _) eqn:E; [|done]. bool_hyps.
  injection Hf as <- <-. cbn. rewrite length_drop. lia.
Qed.

Section Exact.
Context {W : Type} `{Context W}.
Context (Halive : alive W).
Context (src : ByteSource W) (fs : list framed) (set : bytes) (ss : Z).
Context (Hf : Forall wf_framed fs) (Hreads : reads_as src (frames fs)) (Hne : fs <> []) (Hss : usable ss).
Context (Hsize : Z.of_nat (length (frames fs)) <= maxPAR2RecoveryWalkBytes) (Hcount : Z.of_nat (length fs) <= maxPAR2RecoveryPackets).

Lemma frames_size : 0 < Size src.
Proof.
  rewrite (proj1 Hreads). destruct fs as [|f fs']; [done|]. unfold frames. cbn [map concat]. rewrite length_app, length_frame by by inversion Hf. lia.
Qed.

Lemma walk_all {V} visit pv (v : V) w :
  (forall e o v w, 0 <= o -> o + 4 + ss <= Z.of_nat (length (frames fs)) -> (visit e o v w).2 = pv e (span (frames fs) (o + 4) ss) v) ->
  (walkPAR2RecoveryPackets src set ss visit v w).2 = run_visits pv (volume_slices set ss fs) v.
Proof.
  intros Hv. unfold walkPAR2RecoveryPackets.
  apply (walk_frames Halive src (frames fs) set ss visit pv Hreads (proj1 Hss) Hsize Hv fs Hf [] _ 0 v w); [done|lia|lia].
Qed.

Lemma exponents_exact need w : 0 < need ->
  (PAR2RecoveryExponents (Some src) set ss need w).2 =
    let all := map fst (first_slices ∅ (volume_slices set ss fs)) in
    if Z.of_nat (length all) <? need then Err no_slices else Ok (take (Z.to_nat need) all).
Proof.
  intros Hn. unfold PAR2RecoveryExponents.
  match goal with |- context [call_bind ctx_Err ?k] => destruct (poll Halive w k) as [w1 ->] end. cbn beta iota.
  destruct (Z.leb_spec need 0); [lia|]. rewrite validate_usable by (done || apply frames_size). unfold call_bind.
  pose proof (walk_all (discover need) (discover_pure need) (MkDiscovery [] ∅) w1) as E.
  specialize (E ltac:(intros e o v w' _ _; unfold discover, discover_pure; by destruct (bool_decide _))).
  destruct (walkPAR2RecoveryPackets src set ss (discover need) (MkDiscovery [] ∅) w1) as [w2 [v err]]. cbn [snd] in E.
  destruct (discover_run need (volume_slices set ss fs) (MkDiscovery [] ∅) ltac:(cbn; lia)) as [E1 E2]. rewrite E1 in E.
  injection E as -> ->. rewrite E2. cbn [found seen app]. rewrite length_take. set (all := map fst _).
  destruct (Z.ltb_spec (Z.of_nat (Nat.min (Z.to_nat need) (length all))) need), (Z.ltb_spec (Z.of_nat (length all)) need); try done; lia.
Qed.

Lemma scan_exact want budget w : want <> ∅ -> consistent (filter (fun x => x.1 ∈ want) (volume_slices set ss fs)) ->
  ss * Z.of_nat (size want) <= budget ->
  (ScanPAR2RecoverySlices (Some src) set ss want budget w).2 =
    let l := to_slices (first_slices ∅ (filter (fun x => x.1 ∈ want) (volume_slices set ss fs))) in
    if bool_decide (l = []) then Err no_slices else Ok l.
Proof.
  intros Hw Hcons Hb. assert (Hpos : (0 < size want)%nat).
  { destruct (size want) eqn:Es; [|lia]. apply size_empty_inv in Es. apply leibniz_equiv in Es. done. }
  unfold ScanPAR2RecoverySlices.
  match goal with |- context [call_bind ctx_Err ?k] => destruct (poll Halive w k) as [w1 ->] end. cbn beta iota.
  rewrite bool_decide_false by done. rewrite validate_usable by (done || apply frames_size). pose proof (proj1 Hss).
  destruct (Z.ltb_spec budget ss); [nia|]. unfold call_bind.
  pose proof (walk_all (collect_slice src ss want budget) (collect_pure ss want budget) (MkCollection [] ∅ 0) w1) as E.
  specialize (E ltac:(intros e o v w' ? ?; by apply collect_slice_pure)).
  destruct (walkPAR2RecoveryPackets src set ss (collect_slice src ss want budget) (MkCollection [] ∅ 0) w1) as [w2 [v err]]. cbn [snd] in E.
  destruct (collect_run ss want budget (volume_slices set ss fs) (proj1 Hss) Hb (MkCollection [] ∅ 0) []) as [E1 E2];
    [apply empty_collected|done|done|by intros e d ?%not_elem_of_nil|by apply volume_slices_length|].
  rewrite E1 in E. injection E as -> ->. rewrite E2. cbn [out app held map list_to_set]. by destruct (bool_decide _).
Qed.

End Exact.

(** A recovery slice as a packet. *)
Definition recovery_packet (set checksum : bytes) (e : Z) (d : bytes) : framed :=
  MkFramed set checksum (POther (par2TypePrefix ++ par2TypeRecoverySlice) (le_bytes 4 e ++ d)).

Lemma exponents_sound {W} `{Context W} src set ss need (w : W) es : (PAR2RecoveryExponents src set ss need w).2 = Ok es ->
  NoDup es /\ Z.of_nat (length es) = need.
Proof.
  unfold PAR2RecoveryExponents, call_bind. destruct (ctx_Err w) as [w1 [|]]; [done|].
  destruct (Z.leb_spec need 0); [done|]. destruct (validateRecoveryScan src ss) as [src'|]; [|done].
  pose proof (walk_keeps (discovered need) (discovered need) src' set ss (discover need) ltac:(done)) as Hk.
  specialize (Hk ltac:(intros e o v w' Hv; pose proof (discover_keeps need e o v w' Hv) as Hd; by destruct (discover need e o v w').2 as [v' [[]|]])
    (S (Z.to_nat maxPAR2RecoveryPackets)) 0 0 (MkDiscovery [] ∅) w1 (empty_discovered need)).
  pose proof (walk_keeps (fun v => Z.of_nat (length (found v)) < need) (fun v => Z.of_nat (length (found v)) <= need) src' set ss (discover need)
    ltac:(cbn; lia) ltac:(intros e o v w'; by apply discover_stops)
    (S (Z.to_nat maxPAR2RecoveryPackets)) 0 0 (MkDiscovery [] ∅) w1 ltac:(done)) as Hl.
  fold (walkPAR2RecoveryPackets src' set ss (discover need)) in Hk, Hl.
  destruct (walkPAR2RecoveryPackets src' set ss (discover need) (MkDiscovery [] ∅) w1) as [w2 [v [|]]]; [done|]. cbn [snd fst] in Hk, Hl.
  destruct (Z.ltb_spec (Z.of_nat (length (found v))) need); [done|]. intros [= <-]. split; [by destruct Hk|lia].
Qed.

Lemma scan_sound {W} `{Context W} src set ss want budget (w : W) slices : (ScanPAR2RecoverySlices src set ss want budget w).2 = Ok slices ->
  slices <> [] /\ NoDup (map Exponent slices) /\ ss * Z.of_nat (length slices) <= budget /\
  Forall (fun s => Exponent s ∈ want /\ Z.of_nat (length (Data s)) = ss) slices.
Proof.
  unfold ScanPAR2RecoverySlices, call_bind. destruct (ctx_Err w) as [w1 [|]]; [done|].
  destruct (bool_decide (want = ∅)); [done|]. destruct (validateRecoveryScan src ss) as [src'|] eqn:Ev; [|done]. apply validate_ok in Ev.
  destruct (Z.ltb_spec budget ss); [done|].
  pose proof (walk_keeps (collected ss want budget) (collected ss want budget) src' set ss (collect_slice src' ss want budget) ltac:(done)) as Hk.
  specialize (Hk ltac:(intros e o v w' Hv; pose proof (collect_keeps src' ss want budget e o v w' Ev Hv) as Hd; by destruct (collect_slice src' ss want budget e o v w').2 as [v' [[]|]])
    (S (Z.to_nat maxPAR2RecoveryPackets)) 0 0 (MkCollection [] ∅ 0) w1 (empty_collected ss want budget)).
  fold (walkPAR2RecoveryPackets src' set ss (collect_slice src' ss want budget)) in Hk.
  destruct (walkPAR2RecoveryPackets src' set ss _ (MkCollection [] ∅ 0) w1) as [w2 [v [|]]]; [done|]. cbn [snd fst] in Hk.
  destruct (bool_decide (out v = [])) eqn:Eo; [done|]. bool_hyps. intros [= <-]. split_and!; [done|by eapply collected_nodup| |by apply Hk].
  pose proof (co_spent _ _ _ _ Hk). pose proof (co_budget _ _ _ _ Hk). lia.
Qed.

(** A recovery volume is read for what it holds.  Whatever a source answers,
    discovered exponents are distinct and as many as needed, and collected slices
    have distinct exponents that were wanted, payloads of the slice size, and fit
    the budget.  A volume of packets, in any order and mixed with other packets and
    other sets, is read exactly: discovery gives the first exponents of the set's
    slices of this size in the order of the volume, or fails when there are too few; and
    when the wanted exponents have one payload each and the budget holds them, collection
    gives the first slice of each wanted exponent that the volume has. *)
Theorem par2_volume {W} `{Context W} : alive W ->
  (forall src set ss need (w : W) es, (PAR2RecoveryExponents src set ss need w).2 = Ok es ->
     NoDup es /\ Z.of_nat (length es) = need) /\
  (forall src set ss want budget (w : W) slices, (ScanPAR2RecoverySlices src set ss want budget w).2 = Ok slices ->
     slices <> [] /\ NoDup (map Exponent slices) /\ ss * Z.of_nat (length slices) <= budget /\
     Forall (fun s => Exponent s ∈ want /\ Z.of_nat (length (Data s)) = ss) slices) /\
  (forall (src : ByteSource W) fs set ss, Forall wf_framed fs -> reads_as src (frames fs) -> fs <> [] -> usable ss ->
     Z.of_nat (length (frames fs)) <= maxPAR2RecoveryWalkBytes -> Z.of_nat (length fs) <= maxPAR2RecoveryPackets ->
     (forall need w, 0 < need -> (PAR2RecoveryExponents (Some src) set ss need w).2 =
        let all := map fst (first_slices ∅ (volume_slices set ss fs)) in
        if Z.of_nat (length all) <? need then Err no_slices else Ok (take (Z.to_nat need) all)) /\
     (forall want budget w, want <> ∅ -> consistent (filter (fun x => x.1 ∈ want) (volume_slices set ss fs)) ->
        ss * Z.of_nat (size want) <= budget ->
        (ScanPAR2RecoverySlices (Some src) set ss want budget w).2 =
          let l := to_slices (first_slices ∅ (filter (fun x => x.1 ∈ want) (volume_slices set ss fs))) in
          if bool_decide (l = []) then Err no_slices else Ok l)).
Proof.
  intros Halive. split_and!.
  - intros. by eapply exponents_sound.
  - intros. by eapply scan_sound.
  - intros src fs set ss Hf Hr Hn Hs Hsz Hc. split; intros; [by apply exponents_exact|by apply scan_exact].
Qed.

Import Par2Sample.

Lemma par2_volume_witness : exists (src : ByteSource unit),
  (ScanPAR2RecoverySlices (W := unit) (H := Par2Sample.forever) (Some src) [] 4 {[5]} 4 tt).2 = Ok [MkSlice 5 [1; 2; 3; 4]].
Proof.
  set (fs := [recovery_packet (repeat 7 16) (repeat 0 16) 3 [9; 9; 9; 9]; recovery_packet (repeat 7 16) (repeat 0 16) 5 [1; 2; 3; 4]]).
  destruct (par2_volume (H := Par2Sample.forever) ltac:(intros w; reflexivity)) as (_ & _ & Hv).
  assert (Hf : Forall wf_framed fs).
  { repeat (apply list.Forall_cons; split); [..|constructor]; unfold wf_framed, wf_packet; cbn; split_and!; done. }
  destruct (Hv (NewMemSource [97] (frames fs)) fs [] 4 Hf) as [_ Hs];
    [apply mem_reads_as; intros w; reflexivity|discriminate|split; [lia|split; [reflexivity|vm_compute; discriminate]]|vm_compute; discriminate|vm_compute; discriminate|].
  exists (NewMemSource [97] (frames fs)). rewrite Hs; [vm_compute; reflexivity|set_solver| |rewrite size_singleton; lia].
  assert (E : filter (fun x : Z * bytes => x.1 ∈ ({[5]} : gset Z)) (volume_slices [] 4 fs) = [(5, [1; 2; 3; 4])]) by (vm_compute; reflexivity).
  rewrite E. intros e d1 d2 H1%list_elem_of_singleton H2%list_elem_of_singleton. congruence.
Defined.
