(* ===== verification/Par2Proof.v ===== *)
(** PAR2 block proofs: internal/nntp/par2proof.go.

    The index that is persisted binds files of a post to their block hashes; a
    proof domain is the view of one file, which gives the proof of any offset and
    adapts it to the content proof graph.  MD5 is a parameter. *)

From Stdlib Require Import ZArith Lia.
From stdpp Require Import base list numbers strings gmap sets.
From S2P Require Import Prelude Outcome Bencode ContentProof LaneCandidate Text ByteSource Par2Packets.

Local Open Scope Z_scope.
Local Open Scope harbor_scope.

Definition MaxPAR2ProofBlockBytes : Z := Z.shiftl 64 20.
Definition maxPAR2ProofDigestBytes : Z := Z.shiftl 4 20.
Definition md5_Size : Z := 16.

Record PAR2Proof := MkProof { p_Offset : Z; p_Length : Z; p_digest : bytes }.

Record PAR2ProofFile := MkProofFile { NZBFileIndex : Z; pf_Length : Z; pf_BlockMD5 : bytes }.
Record PAR2ProofIndex := MkProofIndex { px_SliceSize : Z; px_Files : list PAR2ProofFile }.

Record PAR2ProofDomain := MkDomain { pd_sliceSize : Z; pd_file : PAR2ProofFile }.

(** The file of the post a description was matched to. *)
Record PAR2FileMatch := MkMatch { NZBFileIdx : Z; Desc : PAR2FileDesc }.

(** ** The index *)

Definition block_count_of (len sliceSize : Z) : Z := Z.quot (len - 1) sliceSize + 1.

(** The block hashes of a file that are worth persisting. *)
Definition hashes_fit (len sliceSize : Z) (hashes : bytes) : bool :=
  let blocks := block_count_of len sliceSize in
  negb ((blocks <=? 0) || (Z.quot maxPAR2ProofDigestBytes md5_Size <? blocks) ||
        negb (Z.of_nat (length hashes) =? blocks * md5_Size)).

Record proof_index_state := MkIndexState {
  seenIndexes : gset Z;
  seenFiles : gset bytes;
  totalDigestBytes : Z;
  x_files : list PAR2ProofFile
}.

(** The body of the loop over the matches. *)
Definition index_match (info : PAR2Info) (st : proof_index_state) (m : PAR2FileMatch) : result goerror proof_index_state :=
  if (NZBFileIdx m <? 0) || (Length (Desc m) <=? 0) || negb (bool_decide (FileByID info (FileID (Desc m)) = Some (Desc m)))
  then Ok st
  else if bool_decide (NZBFileIdx m ∈ seenIndexes st) then Err (errors_New (str "nntp: duplicate PAR2 proof file index"))
  else if bool_decide (FileID (Desc m) ∈ seenFiles st) then Err (errors_New (str "nntp: duplicate PAR2 proof file identity"))
  else
    match IFSCByFileID info (FileID (Desc m)) with
    | None => Ok st
    | Some ifsc =>
        if negb (hashes_fit (Length (Desc m)) (SliceSize info) (BlockMD5 ifsc)) then Ok st
        else
          let n := Z.of_nat (length (BlockMD5 ifsc)) in
          if maxPAR2ProofDigestBytes - n <? totalDigestBytes st
          then Err (errors_New (str "nntp: PAR2 proof index exceeds persisted byte bound"))
          else Ok (MkIndexState ({[NZBFileIdx m]} ∪ seenIndexes st) ({[FileID (Desc m)]} ∪ seenFiles st) (totalDigestBytes st + n)
                     (x_files st ++ [MkProofFile (NZBFileIdx m) (Length (Desc m)) (BlockMD5 ifsc)]))
    end.

(** [Ok None] is an index that is not worth persisting. *)
Definition BuildPAR2ProofIndex (info : PAR2Info) (matches : list PAR2FileMatch) : result goerror (option PAR2ProofIndex) :=
  if (SliceSize info <=? 0) || (MaxPAR2ProofBlockBytes <? SliceSize info) then Ok None
  else
    let? st := rfold (index_match info) (MkIndexState ∅ ∅ 0 []) matches in
    if bool_decide (x_files st = []) then Ok None else Ok (Some (MkProofIndex (SliceSize info) (x_files st))).

(** ** Domains *)

(** The one file of an index; [None] when there are two or none. *)
Fixpoint select_file (selected : option PAR2ProofFile) (files : list PAR2ProofFile) (nzbFileIndex : Z) : option PAR2ProofFile :=
  match files with
  | [] => selected
  | file :: files =>
      if negb (NZBFileIndex file =? nzbFileIndex) then select_file selected files nzbFileIndex
      else match selected with Some _ => None | None => select_file (Some file) files nzbFileIndex end
  end.

Definition NewPAR2ProofDomain (index : option PAR2ProofIndex) (nzbFileIndex : Z) : option PAR2ProofDomain :=
  match index with
  | None => None
  | Some index =>
      if (px_SliceSize index <=? 0) || (MaxPAR2ProofBlockBytes <? px_SliceSize index) then None
      else
        match select_file None (px_Files index) nzbFileIndex with
        | None => None
        | Some file =>
            if (pf_Length file <=? 0) || negb (hashes_fit (pf_Length file) (px_SliceSize index) (pf_BlockMD5 file)) then None
            else Some (MkDomain (px_SliceSize index) file)
        end
  end.

Definition domain_Length (d : PAR2ProofDomain) : Z := pf_Length (pd_file d).
Definition domain_SliceSize (d : PAR2ProofDomain) : Z := pd_sliceSize d.
Definition domain_Blocks (d : PAR2ProofDomain) : Z :=
  if (pd_sliceSize d <=? 0) || (pf_Length (pd_file d) <=? 0) then 0 else block_count_of (pf_Length (pd_file d)) (pd_sliceSize d).

Definition ProofAt (d : PAR2ProofDomain) (offset : Z) : option PAR2Proof :=
  if (offset <? 0) || (pf_Length (pd_file d) <=? offset) || (pd_sliceSize d <=? 0) then None
  else
    let block := Z.quot offset (pd_sliceSize d) in
    let start := block * pd_sliceSize d in
    let remaining := pf_Length (pd_file d) - start in
    let len := if remaining <? pd_sliceSize d then remaining else pd_sliceSize d in
    let digestStart := block * md5_Size in
    if (len <=? 0) || (digestStart <? 0) || (Z.of_nat (length (pf_BlockMD5 (pd_file d))) <? digestStart + md5_Size) then None
    else Some (MkProof start len (span (pf_BlockMD5 (pd_file d)) digestStart md5_Size)).

(** [Evidence] of a proof. *)
Definition proof_Evidence (p : PAR2Proof) (representationID : bytes) (observedAt : Z) : Evidence :=
  MkEvidence representationID ScopeBlock (p_Offset p) (p_Length p) KindAuthoritative AlgorithmMD5 (p_digest p)
    ProvenancePAR2IFSC [] None observedAt.

Definition DigestEquals (p : PAR2Proof) (candidate : bytes) : bool :=
  (Z.of_nat (length candidate) =? Z.of_nat (length (p_digest p))) && bool_decide (candidate = p_digest p).

Section Digest.
Context (md5 : bytes -> bytes).
Context {W : Type} `{Context W}.

(** The chunks of 64 KiB are those of the graph's own digest. *)
Definition proof_CandidateDigest (p : PAR2Proof) (data : bytes) : W -> W * result goerror bytes :=
  let! err := ctx_Err in
  match err with
  | Some err => call_ret (Err err)
  | None =>
      if (p_Length p <=? 0) || (MaxPAR2ProofBlockBytes <? p_Length p) || negb (Z.of_nat (length data) =? p_Length p)
      then call_ret (Err (errors_New (str "nntp: candidate bytes do not match PAR2 proof span")))
      else
        let! r := digest_loop (S (length data)) data 0 [] in
        match r with
        | Err err => call_ret (Err err)
        | Ok written => call_ret (Ok (md5 written))
        end
  end.

End Digest.

(** ** Digests *)

Lemma digest_loop_data {W} `{Context W} fuel data : forall offset written w x, 0 <= offset ->
  written = take (Z.to_nat offset) data -> Z.of_nat (length data) < offset + Z.of_nat fuel ->
  (digest_loop fuel data offset written w).2 = Ok x -> x = data.
Proof.
  induction fuel as [|fuel IH]; intros offset written w x Ho -> Hf; cbn [digest_loop].
  { intros [= <-]. apply take_ge. lia. }
  destruct (Z.ltb_spec offset (Z.of_nat (length data))); [|intros [= <-]; apply take_ge; lia].
  unfold call_bind. destruct (ctx_Err w) as [w1 [|]]; [done|]. assert (Hk : 0 < Z.shiftl 64 10) by done. revert Hk. generalize (Z.shiftl 64 10) as k.
  intros k Hk. apply IH; [lia| |lia].
  rewrite take_take_drop. destruct (Z.ltb_spec (Z.of_nat (length data)) (offset + k)).
  - rewrite !take_ge; [done|lia|lia].
  - f_equal. lia.
Qed.

Lemma digest_loop_alive {W} `{Context W} fuel data offset written w : alive W -> exists x, (digest_loop fuel data offset written w).2 = Ok x.
Proof.
  intros Ha. revert offset written w. induction fuel as [|fuel IH]; intros offset written w; cbn [digest_loop]; [by eexists|].
  destruct (_ <? _); [|by eexists]. unfold call_bind. pose proof (Ha w) as E. destruct (ctx_Err w) as [w1 err]. cbn in E. subst err. apply IH.
Qed.

(** What a candidate digest is. *)
Lemma CandidateDigest_md5 {W} `{Context W} md5 p data w x : (proof_CandidateDigest md5 p data w).2 = Ok x ->
  x = md5 data /\ Z.of_nat (length data) = p_Length p.
Proof.
  unfold proof_CandidateDigest, call_bind. destruct (ctx_Err w) as [w1 [|]]; [done|]. destruct (_ || _ || _) eqn:E; [done|]. bool_hyps.
  pose proof (digest_loop_data (S (length data)) data 0 [] w1) as Hd. destruct (digest_loop _ data 0 [] w1) as [w2 [y|]]; [|done].
  cbn. intros [= <-]. rewrite (Hd y); [done|lia|done|lia|done].
Qed.

Lemma CandidateDigest_alive {W} `{Context W} md5 p data w : alive W -> 0 < p_Length p <= MaxPAR2ProofBlockBytes ->
  Z.of_nat (length data) = p_Length p -> (proof_CandidateDigest md5 p data w).2 = Ok (md5 data).
Proof.
  intros Ha Hp Hl. unfold proof_CandidateDigest.
  match goal with |- context [call_bind ctx_Err ?k] => destruct (poll Ha w k) as [w1 ->] end. cbn beta iota.
  rewrite Hl, Z.eqb_refl. destruct (Z.leb_spec (p_Length p) 0); [lia|]. destruct (Z.ltb_spec MaxPAR2ProofBlockBytes (p_Length p)); [lia|].
  cbn [orb negb]. unfold call_bind. destruct (digest_loop_alive (S (length data)) data 0 [] w1 Ha) as [y Hy].
  pose proof (digest_loop_data (S (length data)) data 0 [] w1 y ltac:(lia) eq_refl ltac:(lia) Hy) as ->.
  destruct (digest_loop _ data 0 [] w1) as [w2 r]. cbn in Hy. by subst r.
Qed.

(** ** What the index holds *)

Lemma hashes_fit_spec len sliceSize hashes : hashes_fit len sliceSize hashes = true ->
  0 < block_count_of len sliceSize <= 262144 /\ Z.of_nat (length hashes) = 16 * block_count_of len sliceSize.
Proof.
  unfold hashes_fit. change (Z.quot maxPAR2ProofDigestBytes md5_Size) with 262144. change md5_Size with 16. intros H. bool_hyps. lia.
Qed.

(** A domain that the constructor gives. *)
Record wf_domain (d : PAR2ProofDomain) : Prop := {
  wd_slice : 0 < pd_sliceSize d <= MaxPAR2ProofBlockBytes;
  wd_length : 0 < pf_Length (pd_file d);
  wd_hashes : hashes_fit (pf_Length (pd_file d)) (pd_sliceSize d) (pf_BlockMD5 (pd_file d)) = true
}.

Lemma NewPAR2ProofDomain_wf index idx d : NewPAR2ProofDomain index idx = Some d -> wf_domain d.
Proof.
  unfold NewPAR2ProofDomain. destruct index as [ix|]; [|done]. destruct (_ || _) eqn:E; [done|]. bool_hyps.
  destruct (select_file _ _ _) as [file|]; [|done]. destruct (_ || _) eqn:F; [done|]. bool_hyps.
  intros [= <-]. split; cbn [pd_sliceSize pd_file]; [lia|lia|done].
Qed.

Lemma select_file_none sel files idx : idx ∉ map NZBFileIndex files -> select_file sel files idx = sel.
Proof.
  induction files as [|f files IH]; cbn; [done|]. intros [Hn Hi]%list.not_elem_of_cons.
  destruct (Z.eqb_spec (NZBFileIndex f) idx); [congruence|]. cbn. by apply IH.
Qed.

Lemma select_file_unique files f : NoDup (map NZBFileIndex files) -> f ∈ files -> select_file None files (NZBFileIndex f) = Some f.
Proof.
  induction files as [|g files IH]; cbn; [by intros _ ?%not_elem_of_nil|]. intros [Hn Hd]%list.NoDup_cons [->|Hf]%list.elem_of_cons.
  - rewrite Z.eqb_refl. cbn. by apply select_file_none.
  - destruct (Z.eqb_spec (NZBFileIndex g) (NZBFileIndex f)) as [E|]; [|by apply IH].
    exfalso. apply Hn. rewrite E. apply list_elem_of_In, in_map, list_elem_of_In, Hf.
Qed.

(** What one file of the index is, of the matches. *)
Definition proven_by (info : PAR2Info) (matches : list PAR2FileMatch) (f : PAR2ProofFile) : Prop :=
  exists desc ifsc, MkMatch (NZBFileIndex f) desc ∈ matches /\ FileByID info (FileID desc) = Some desc /\
    IFSCByFileID info (FileID desc) = Some ifsc /\ 0 <= NZBFileIndex f /\ 0 < pf_Length f /\
    pf_Length f = Length desc /\ pf_BlockMD5 f = BlockMD5 ifsc /\ hashes_fit (pf_Length f) (SliceSize info) (pf_BlockMD5 f) = true.

Definition digest_bytes (files : list PAR2ProofFile) : Z := foldr (fun f n => Z.of_nat (length (pf_BlockMD5 f)) + n) 0 files.

Lemma digest_bytes_snoc files f : digest_bytes (files ++ [f]) = digest_bytes files + Z.of_nat (length (pf_BlockMD5 f)).
Proof. unfold digest_bytes. induction files as [|g files IH]; cbn; [lia|]. rewrite IH. lia. Qed.

Record indexed (info : PAR2Info) (matches : list PAR2FileMatch) (st : proof_index_state) : Prop := {
  ix_proven : Forall (proven_by info matches) (x_files st);
  ix_seen : forall i, i ∈ map NZBFileIndex (x_files st) -> i ∈ seenIndexes st;
  ix_distinct : NoDup (map NZBFileIndex (x_files st));
  ix_total : totalDigestBytes st = digest_bytes (x_files st);
  ix_bound : totalDigestBytes st <= maxPAR2ProofDigestBytes
}.

Lemma index_match_indexed info matches st m st' : m ∈ matches -> indexed info matches st -> index_match info st m = Ok st' ->
  indexed info matches st'.
Proof.
  intros Hm Hi. unfold index_match. destruct (_ || _ || _) eqn:E; [by intros [= <-]|].
  destruct (bool_decide (NZBFileIdx m ∈ seenIndexes st)) eqn:E1; [done|]. destruct (bool_decide (FileID (Desc m) ∈ seenFiles st)); [done|].
  destruct (IFSCByFileID info (FileID (Desc m))) as [ifsc|] eqn:Ei; [|by intros [= <-]].
  destruct (hashes_fit _ _ _) eqn:Eh; [|by intros [= <-]]. cbn [negb].
  destruct (Z.ltb_spec (maxPAR2ProofDigestBytes - Z.of_nat (length (BlockMD5 ifsc))) (totalDigestBytes st)); [done|].
  bool_hyps. destruct Hi as [Hp Hs Hd Ht Hb]. intros [= <-]. split; cbn [x_files seenIndexes totalDigestBytes].
  - apply Forall_app_2; [done|]. constructor; [|constructor]. exists (Desc m), ifsc. cbn. destruct m. cbn in *. split_and!; (done || lia).
  - intros i. rewrite map_app, elem_of_app, elem_of_union. intros [Hin|Hin]; [right; by apply Hs|left].
    cbn in Hin. apply list_elem_of_singleton in Hin as ->. by apply elem_of_singleton.
  - rewrite map_app. apply NoDup_app. split_and!; [done| |apply NoDup_singleton].
    intros i Hin ->%list_elem_of_singleton. apply Hs in Hin. cbn in Hin. congruence.
  - rewrite digest_bytes_snoc. cbn. lia.
  - lia.
Qed.

Lemma BuildPAR2ProofIndex_indexed info matches ix : BuildPAR2ProofIndex info matches = Ok (Some ix) ->
  0 < SliceSize info <= MaxPAR2ProofBlockBytes /\ px_SliceSize ix = SliceSize info /\
  exists st, indexed info matches st /\ px_Files ix = x_files st /\ x_files st <> [].
Proof.
  unfold BuildPAR2ProofIndex. destruct (_ || _) eqn:E; [done|]. bool_hyps.
  destruct (rfold (index_match info) (MkIndexState ∅ ∅ 0 []) matches) as [st|] eqn:Ef; [|done]. cbn [rbind].
  destruct (bool_decide (x_files st = [])) eqn:En; [done|]. bool_hyps. intros [= <-]. split; [lia|]. split; [done|].
  exists st. split_and!; [|done|done]. clear En.
  assert (Hinv : forall l s s', (forall m, m ∈ l -> m ∈ matches) -> indexed info matches s -> rfold (index_match info) s l = Ok s' -> indexed info matches s').
  { induction l as [|m l IH]; intros s s' Hl Hs; cbn [rfold]; [by intros [= <-]|].
    intros (s1 & H1 & H2)%rbind_ok. eapply (IH s1); [intros; apply Hl; by right| |done].
    eapply index_match_indexed; [apply Hl; by left|done|done]. }
  eapply Hinv; [done| |done]. split; cbn; try constructor; try done. by intros i ?%not_elem_of_nil.
Qed.

(** ** What a proof covers *)

(** Block [b] of a domain. *)
Definition block_proof (d : PAR2ProofDomain) (b : Z) : PAR2Proof :=
  MkProof (b * pd_sliceSize d) (Z.min (pd_sliceSize d) (pf_Length (pd_file d) - b * pd_sliceSize d))
    (span (pf_BlockMD5 (pd_file d)) (16 * b) 16).

Lemma block_count_div len s : 0 < s -> 0 < len -> forall b, 0 <= b < block_count_of len s <-> 0 <= b /\ b * s < len.
Proof.
  intros Hs Hl b. unfold block_count_of. rewrite Z.quot_div_nonneg by lia. pose proof (Z.div_mod (len - 1) s ltac:(lia)).
  pose proof (Z.mod_pos_bound (len - 1) s Hs). split; intros [? ?]; (split; [done|nia]).
Qed.

Lemma ProofAt_block d offset : wf_domain d -> 0 <= offset < domain_Length d ->
  ProofAt d offset = Some (block_proof d (offset / pd_sliceSize d)) /\ 0 <= offset / pd_sliceSize d < domain_Blocks d.
Proof.
  intros [Hs Hl Hh] Ho. unfold domain_Length in *. apply hashes_fit_spec in Hh as [Hb Hn]. unfold ProofAt, domain_Blocks, block_proof.
  set (s := pd_sliceSize d) in *. set (n := pf_Length (pd_file d)) in *.
  destruct (Z.ltb_spec offset 0); [lia|]. destruct (Z.leb_spec n offset); [lia|]. destruct (Z.leb_spec s 0); [lia|].
  destruct (Z.leb_spec n 0); [lia|]. cbn [orb].
  rewrite Z.quot_div_nonneg by lia. pose proof (Z.div_mod offset s ltac:(lia)). pose proof (Z.mod_pos_bound offset s ltac:(lia)).
  set (b := offset / s) in *. assert (Hbn : 0 <= b < block_count_of n s) by (apply block_count_div; nia). split; [|done].
  assert (Hmin : (if n - b * s <? s then n - b * s else s) = Z.min s (n - b * s)) by (destruct (Z.ltb_spec (n - b * s) s); lia).
  rewrite Hmin. change md5_Size with 16. rewrite (Z.mul_comm b 16).
  destruct (Z.leb_spec (Z.min s (n - b * s)) 0); [nia|]. destruct (Z.ltb_spec (16 * b) 0); [lia|].
  destruct (Z.ltb_spec (Z.of_nat (length (pf_BlockMD5 (pd_file d)))) (16 * b + 16)); [lia|]. done.
Qed.

(** The assertion a proof adapts to is one the content proof graph accepts. *)
Lemma proof_Evidence_valid p id t : 0 <= p_Offset p -> 0 < p_Length p -> length (p_digest p) = 16%nat -> opaque id -> t <> 0 ->
  validateEvidence (proof_Evidence p id t) = None.
Proof.
  intros Ho Hl Hd Hi Ht. apply validateEvidence_spec. split; cbn; try done; try (by right); try (by left).
  - split; [rewrite Hd; done|]. by destruct (p_digest p).
  - by apply allow_par2.
Qed.

Lemma DigestEquals_spec p candidate : DigestEquals p candidate = true <-> candidate = p_digest p.
Proof.
  unfold DigestEquals. split; [intros H; by bool_hyps|intros ->]. by rewrite Z.eqb_refl, bool_decide_true by done.
Qed.

(** Block proofs are built, selected and used for the blocks they name.  Each file
    of an index that is built belongs to one match whose description and block hashes
    are the metadata's own, no two files share an index, and the digests stay within 4
    MiB; each of them has a domain.  In a domain that is given, every offset inside the
    file, and none outside, has a proof: that of the one block that holds it, whose
    digest is the hash at that place of the file's hashes, and which every offset of
    the block has in common.  The assertion a proof adapts to is one the content proof
    graph accepts, and under a context that is not cancelled the candidate digest of the
    bytes of a block is their MD5 and passes exactly when it is the proof's. *)
Theorem block_proofs_cover (md5 : bytes -> bytes) :
  (forall info matches ix, BuildPAR2ProofIndex info matches = Ok (Some ix) ->
     px_Files ix <> [] /\ digest_bytes (px_Files ix) <= maxPAR2ProofDigestBytes /\ NoDup (map NZBFileIndex (px_Files ix)) /\
     Forall (proven_by info matches) (px_Files ix) /\
     forall f, f ∈ px_Files ix -> NewPAR2ProofDomain (Some ix) (NZBFileIndex f) = Some (MkDomain (SliceSize info) f)) /\
  (forall index idx d, NewPAR2ProofDomain index idx = Some d ->
     (forall offset, ProofAt d offset = None <-> ~ 0 <= offset < domain_Length d) /\
     (forall offset p, ProofAt d offset = Some p ->
        exists b, 0 <= b < domain_Blocks d /\ p = block_proof d b /\
          p_Offset p <= offset < p_Offset p + p_Length p /\ 0 < p_Length p <= MaxPAR2ProofBlockBytes /\
          p_Offset p + p_Length p = Z.min (p_Offset p + domain_SliceSize d) (domain_Length d) /\
          (forall offset', p_Offset p <= offset' < p_Offset p + p_Length p -> ProofAt d offset' = Some p) /\
          (forall id t, opaque id -> t <> 0 -> validateEvidence (proof_Evidence p id t) = None) /\
          (forall {W} `{Context W} data (w : W), alive W -> Z.of_nat (length data) = p_Length p ->
             exists x, (proof_CandidateDigest md5 p data w).2 = Ok x /\ x = md5 data /\ (DigestEquals p x = true <-> md5 data = p_digest p)))).
Proof.
  split.
  - intros info matches ix (Hs & Hss & st & [Hp _ Hd Ht Hb] & Hx & Hne)%BuildPAR2ProofIndex_indexed. rewrite Hx.
    split_and!; [done|lia|done|done|]. intros f Hf. unfold NewPAR2ProofDomain. rewrite Hss, Hx, (select_file_unique _ _ Hd Hf).
    rewrite list.Forall_forall in Hp. destruct (Hp f Hf) as (desc & ifsc & _ & _ & _ & _ & Hl & _ & _ & Hh).
    destruct (Z.leb_spec (SliceSize info) 0); [lia|]. destruct (Z.ltb_spec MaxPAR2ProofBlockBytes (SliceSize info)); [lia|].
    destruct (Z.leb_spec (pf_Length f) 0); [lia|]. by rewrite Hh.
  - intros index idx d Hw%NewPAR2ProofDomain_wf. split.
    { intros offset. split; [|intros Ho].
      - intros Hn Ho. destruct (ProofAt_block d offset Hw Ho) as [E _]. congruence.
      - unfold ProofAt. unfold domain_Length in Ho. destruct (Z.ltb_spec offset 0); [done|]. by destruct (Z.leb_spec (pf_Length (pd_file d)) offset); [|lia]. }
    intros offset p Hp. assert (Ho : 0 <= offset < domain_Length d).
    { unfold domain_Length. unfold ProofAt in Hp. destruct (_ || _ || _) eqn:E; [done|]. bool_hyps. lia. }
    destruct (ProofAt_block d offset Hw Ho) as [Hpb Hb]. rewrite Hp in Hpb. injection Hpb as ->.
    pose proof (wd_slice _ Hw) as Hs. pose proof (wd_hashes _ Hw) as [Hbn Hn]%hashes_fit_spec.
    pose proof (Z.div_mod offset (pd_sliceSize d) ltac:(lia)) as Hdm. pose proof (Z.mod_pos_bound offset (pd_sliceSize d) ltac:(lia)) as Hmb.
    exists (offset / pd_sliceSize d). unfold domain_Length, domain_SliceSize in *.
    set (b := offset / pd_sliceSize d) in *. split; [done|]. split; [done|]. unfold block_proof. cbn [p_Offset p_Length p_digest].
    split_and!; try nia.
    + intros offset' Ho'. assert (Hq : offset' / pd_sliceSize d = b) by (symmetry; apply Z.div_unique with (offset' - b * pd_sliceSize d); nia).
      destruct (ProofAt_block d offset' Hw) as [-> _]; [unfold domain_Length; nia|]. by rewrite Hq.
    + intros id t Hid Ht. apply proof_Evidence_valid; cbn [p_Offset p_Length p_digest]; try done; try nia.
      apply Nat2Z.inj. rewrite span_length; [done|nia|done|]. unfold domain_Blocks in Hb. destruct (_ || _); lia.
    + intros W HW data w Ha Hl. eexists. split; [apply CandidateDigest_alive; cbn [p_Length]; [done|nia|done]|].
      split; [done|]. apply DigestEquals_spec.
Qed.
