(* ===== verification/Par2Repair.v ===== *)
(** PAR2 repair: internal/nntp/par2repair.go.

    One damaged segment is rebuilt out of the surviving ones: the numbering of the
    recovery set's blocks, the account that bounds bytes and time, the measure pass,
    the choice of recovery slices, the pass over every block of the set, and the check
    of each rebuilt block.  The reader is the interface of the code: any function on a
    world.  The context is the one derived with the budget's duration. *)

From Stdlib Require Import ZArith Lia.
From stdpp Require Import base list numbers strings gmap sets.
From S2P Require Import GF16 Par2Solver.
From S2P Require Import Prelude Outcome Bencode ContentProof LaneCandidate Text ByteSource Par2Packets Par2Recovery Par2Proof.

Local Open Scope Z_scope.
Local Open Scope harbor_scope.

(** ** Calls that fail, in a loop *)

(** [x, err := c; if err != nil { return err }]. *)
Notation "'try!' x ':=' c 'in' k" :=
  (call_bind c (fun res => match res with Ok x => k | Err err => call_ret (Err err) end))
  (at level 200, x pattern, c at level 100, k at level 200, right associativity) : harbor_scope.

(** [if err := c; err != nil { return err }]. *)
Notation "'pass!' c 'in' k" :=
  (call_bind c (fun res => match res with Some err => call_ret (Err err) | None => k end))
  (at level 200, c at level 100, k at level 200, right associativity) : harbor_scope.

(** A loop whose body may return an error. *)
Fixpoint wfold {W S A} (f : S -> A -> W -> W * result goerror S) (s : S) (l : list A) : W -> W * result goerror S :=
  match l with
  | [] => call_ret (Ok s)
  | x :: l => try! s := f s x in wfold f s l
  end.

Definition ErrPAR2RepairAbstain : goerror := errors_New (str "par2repair: abstained").
Definition abstain (msg : string) : goerror := Error (TPlain (str msg)) [ErrPAR2RepairAbstain].

Definition maxRepairRecoveryVolumes : Z := 32.
Definition repairSegmentChunk : Z := Z.shiftl 1 20.

Record PAR2RepairBudget := MkBudget { MaxBytes : Z; MaxDuration : Z }.

Definition Enabled (b : PAR2RepairBudget) : bool := (0 <? MaxBytes b) && (0 <? MaxDuration b).

(** ** Geometry *)

Record PAR2GeometryFile := MkGeometryFile {
  g_FileID : Prelude.bytes; g_Length : Z; g_NZBFileIndex : Z; FirstBlock : Z; Blocks : Z
}.
Record PAR2Geometry := MkGeometry {
  g_SliceSize : Z; g_RecoverySetID : Prelude.bytes; g_Files : list PAR2GeometryFile; g_total : Z
}.

Definition TotalBlocks (g : PAR2Geometry) : Z := g_total g.

Definition PayloadBytes (g : PAR2Geometry) : Z := fold_left (fun sum f => i64 (sum + g_Length f)) (g_Files g) 0.

Definition FileByNZBIndex (g : PAR2Geometry) (nzbFileIndex : Z) : option PAR2GeometryFile :=
  find (fun f => g_NZBFileIndex f =? nzbFileIndex) (g_Files g).

Definition matched (matchByID : gmap Prelude.bytes Z) (m : PAR2FileMatch) : result goerror (gmap Prelude.bytes Z) :=
  if (NZBFileIdx m <? 0) || bool_decide (FileID (Desc m) = []) then Ok matchByID
  else
    match matchByID !! FileID (Desc m) with
    | Some prior => if negb (prior =? NZBFileIdx m) then Err (abstain "ambiguous file identity") else Ok (<[FileID (Desc m) := NZBFileIdx m]> matchByID)
    | None => Ok (<[FileID (Desc m) := NZBFileIdx m]> matchByID)
    end.

(** The files numbered so far, the posts they use and the next block. *)
Record numbering := MkNumbering { n_Files : list PAR2GeometryFile; usedNZB : gset Z; next : Z }.

Definition number_file (sliceSize : Z) (byID : gmap Prelude.bytes PAR2FileDesc) (matchByID : gmap Prelude.bytes Z)
    (n : numbering) (id : Prelude.bytes) : result goerror numbering :=
  match byID !! id with
  | None => Err (abstain "recovery-set member has no usable description")
  | Some desc =>
      if Length desc <=? 0 then Err (abstain "recovery-set member has no usable description")
      else
        match matchByID !! id with
        | None => Err (abstain "recovery-set member is unmatched")
        | Some nzbIdx =>
            if bool_decide (nzbIdx ∈ usedNZB n) then Err (abstain "two recovery-set members claim one NZB file")
            else
              let blocks := Z.quot (Length desc - 1) sliceSize + 1 in
              if (blocks <=? 0) || (MaxPAR2TotalBlocks - blocks <? next n) then Err (abstain "recovery set exceeds the field's block ceiling")
              else Ok (MkNumbering (n_Files n ++ [MkGeometryFile id (Length desc) nzbIdx (next n) blocks]) ({[nzbIdx]} ∪ usedNZB n) (next n + blocks))
        end
  end.

Definition descriptions (info : PAR2Info) : gmap Prelude.bytes PAR2FileDesc :=
  fold_left (fun m desc => <[FileID desc := desc]> m) (Files info) ∅.

Definition BuildPAR2Geometry (info : PAR2Info) (matches : list PAR2FileMatch) : result goerror PAR2Geometry :=
  if (SliceSize info <=? 0) || negb (Z.rem (SliceSize info) 4 =? 0) || (MaxPAR2SliceBytes <? SliceSize info)
  then Err (abstain "unusable slice size")
  else if bool_decide (RecoverySetIDs info = []) then Err (abstain "no Main packet recovery set")
  else if bool_decide (RecoverySetID info = []) then Err (abstain "no recovery set identity")
  else
    let? matchByID := rfold matched ∅ matches in
    let? n := rfold (number_file (SliceSize info) (descriptions info) matchByID) (MkNumbering [] ∅ 0) (RecoverySetIDs info) in
    if next n <=? 0 then Err (abstain "empty recovery set")
    else Ok (MkGeometry (SliceSize info) (RecoverySetID info) (n_Files n) (next n)).

Section Repair.
Context {W : Type} `{Context W} (md5 : Prelude.bytes -> Prelude.bytes).

(** ** The account *)

Record repairAccount := MkAccount { a_budget : PAR2RepairBudget; a_now : W -> W * Z; a_deadline : Z; a_spent : Z }.

Definition check (a : repairAccount) : W -> W * option goerror :=
  let! err := ctx_Err in
  stop! err in
  let! now := a_now a in
  call_ret (if now <? a_deadline a then None else Some (abstain "repair exceeded its wallclock budget")).

Definition spend (a : repairAccount) (n : Z) : result goerror repairAccount :=
  if n <? 0 then Err (abstain "negative read accounting")
  else if MaxBytes (a_budget a) - n <? a_spent a then Err (abstain "repair exceeded its byte budget")
  else Ok (MkAccount (a_budget a) (a_now a) (a_deadline a) (a_spent a + n)).

Definition remaining (a : repairAccount) : Z :=
  if MaxBytes (a_budget a) <=? a_spent a then 0 else MaxBytes (a_budget a) - a_spent a.

(** ** The reader and the request *)

Record PAR2RepairReader := MkReader {
  SegmentCount : Z -> W -> W * option Z;
  ReadSegment : Z -> Z -> W -> W * result goerror Prelude.bytes;
  RecoveryVolumeIndexes : W -> W * list Z;
  RecoverySource : Z -> W -> W * result goerror (ByteSource W)
}.

Record PAR2RepairRequest := MkRequest {
  Geometry : PAR2Geometry; Proof_ : PAR2ProofDomain; r_NZBFileIndex : Z; SegIndex : Z;
  Budget : PAR2RepairBudget; Now : option (W -> W * Z)
}.

Record PAR2RepairResult := MkResult { r_Data : Prelude.bytes; BytesRead : Z; r_Blocks : Z }.

(** The context's error when it has one, and otherwise the given one. *)
Definition ctx_or {A} (err : goerror) : W -> W * result goerror A :=
  let! ctxErr := ctx_Err in call_ret (Err (default err ctxErr)).

(** ** The measure pass *)

Record measure := MkMeasure { m_sizes : list Z; m_known : Z; m_acct : repairAccount }.

Definition measure_segment (r : PAR2RepairReader) (fileIndex segIndex : Z) (m : measure) (i : Z) : W -> W * result goerror measure :=
  if i =? segIndex then call_ret (Ok (MkMeasure (m_sizes m ++ [0]) (m_known m) (m_acct m)))
  else
    pass! check (m_acct m) in
    let! res := ReadSegment r fileIndex i in
    match res with
    | Err _ => ctx_or (abstain "a second segment of the damaged file is unavailable")
    | Ok data =>
        let n := Z.of_nat (length data) in
        match spend (m_acct m) n with
        | Err err => call_ret (Err err)
        | Ok acct => call_ret (Ok (MkMeasure (m_sizes m ++ [n]) (m_known m + n) acct))
        end
    end.

Definition sum_sizes (sizes : list Z) : Z := fold_left Z.add sizes 0.

(** The start and the length of the damaged segment. *)
Definition measureDamagedSegment (r : PAR2RepairReader) (fileIndex segIndex fileLength : Z) (acct : repairAccount)
    : W -> W * result goerror (Z * Z * repairAccount) :=
  let! segCount := SegmentCount r fileIndex in
  match segCount with
  | None => call_ret (Err (abstain "damaged segment index is out of range"))
  | Some segCount =>
      if (segCount <=? 0) || (segIndex <? 0) || (segCount <=? segIndex) || (fileLength <=? 0)
      then call_ret (Err (abstain "damaged segment index is out of range"))
      else
        try! m := wfold (measure_segment r fileIndex segIndex) (MkMeasure [] 0 acct) (seqZ 0 segCount) in
        let damagedLen := fileLength - m_known m in
        if damagedLen <=? 0 then call_ret (Err (abstain "damaged span is not determinate"))
        else
          let damagedStart := sum_sizes (take (Z.to_nat segIndex) (m_sizes m)) in
          if (damagedStart <? 0) || (fileLength <? damagedStart) || (fileLength - damagedStart <? damagedLen)
          then call_ret (Err (abstain "damaged span exceeds the described file"))
          else call_ret (Ok (damagedStart, damagedLen, m_acct m))
  end.

(** ** The choice of recovery slices *)

Record choice := MkChoice {
  c_want : gset Z; perVolume : gmap Z (list Z); c_sources : gmap Z (ByteSource W); c_acct : repairAccount
}.

(** The loop over the exponents of a volume: those not wanted yet, up to [need]. *)
Fixpoint want_exponents (need : Z) (want : gset Z) (chosen exps : list Z) : gset Z * list Z :=
  match exps with
  | [] => (want, chosen)
  | e :: exps =>
      if need <=? Z.of_nat (size want) then (want, chosen)
      else if bool_decide (e ∈ want) then want_exponents need want chosen exps
      else want_exponents need ({[e]} ∪ want) (chosen ++ [e]) exps
  end.

Definition open_volume (r : PAR2RepairReader) (geo : PAR2Geometry) (need : Z) (c : choice) (idx : Z) : W -> W * result goerror choice :=
  if need <=? Z.of_nat (size (c_want c)) then call_ret (Ok c)
  else
    pass! check (c_acct c) in
    let! src := RecoverySource r idx in
    match src with
    | Err _ => call_ret (Ok c)
    | Ok src =>
        match spend (c_acct c) (Size src) with
        | Err err => call_ret (Err err)
        | Ok acct =>
            let c := MkChoice (c_want c) (perVolume c) (<[idx := src]> (c_sources c)) acct in
            let! exps := PAR2RecoveryExponents (Some src) (g_RecoverySetID geo) (g_SliceSize geo) need in
            match exps with
            | Err _ => let! ctxErr := ctx_Err in call_ret (match ctxErr with Some err => Err err | None => Ok c end)
            | Ok exps =>
                let (want, chosen) := want_exponents need (c_want c) (default [] (perVolume c !! idx)) exps in
                call_ret (Ok (MkChoice want (<[idx := chosen]> (perVolume c)) (c_sources c) acct))
            end
        end
    end.

Definition scan_volume (r : PAR2RepairReader) (geo : PAR2Geometry) (c : choice) (out : list PAR2RecoverySlice) (idx : Z)
    : W -> W * result goerror (list PAR2RecoverySlice) :=
  match default [] (perVolume c !! idx) with
  | [] => call_ret (Ok out)
  | exps =>
      pass! check (c_acct c) in
      let! slices := ScanPAR2RecoverySlices (c_sources c !! idx) (g_RecoverySetID geo) (g_SliceSize geo) (list_to_set exps) (remaining (c_acct c)) in
      match slices with
      | Err _ => ctx_or (abstain "recovery slice read failed")
      | Ok slices => call_ret (Ok (out ++ slices))
      end
  end.

Definition collectRecoverySlices (r : PAR2RepairReader) (geo : PAR2Geometry) (need : Z) (acct : repairAccount)
    : W -> W * result goerror (list PAR2RecoverySlice * repairAccount) :=
  let! volumes := RecoveryVolumeIndexes r in
  if bool_decide (volumes = []) then call_ret (Err (abstain "no recovery volumes in this post"))
  else
    let volumes := take (Z.to_nat maxRepairRecoveryVolumes) volumes in
    try! c := wfold (open_volume r geo need) (MkChoice ∅ ∅ ∅ acct) volumes in
    if Z.of_nat (size (c_want c)) <? need then call_ret (Err (abstain "too few required recovery slices are available"))
    else
      try! out := wfold (scan_volume r geo c) [] volumes in
      if negb (Z.of_nat (length out) =? need) then call_ret (Err (abstain "recovery slice collection is incomplete"))
      else call_ret (Ok (out, c_acct c)).

(** ** The edges *)

(** Of [head] and [tail], [None] is not held yet. *)
Record repairEdges := MkEdges {
  firstBlock : Z; lastBlock : Z; e_damagedStart : Z; e_damagedEnd : Z;
  head : option Prelude.bytes; tail : option Prelude.bytes
}.

Definition observe (e : repairEdges) (block : Z) (data : Prelude.bytes) : repairEdges :=
  let h := if (block =? firstBlock e) && (0 <? e_damagedStart e) && match head e with None => true | Some _ => false end
           then Some (take (Z.to_nat (if Z.of_nat (length data) <? e_damagedStart e then Z.of_nat (length data) else e_damagedStart e)) data)
           else head e in
  let t := if (block =? lastBlock e) && match tail e with None => true | Some _ => false end && (e_damagedEnd e <? Z.of_nat (length data))
           then Some (drop (Z.to_nat (e_damagedEnd e)) data) else tail e in
  MkEdges (firstBlock e) (lastBlock e) (e_damagedStart e) (e_damagedEnd e) h t.

Definition verify_head (e : repairEdges) (solved : list Prelude.bytes) : option goerror :=
  match head e, solved with
  | Some h, got :: _ =>
      if (length got <? length h)%nat || negb (bool_decide (take (length h) got = h))
      then Some (abstain "reconstructed head disagrees with bytes already held") else None
  | _, _ => None
  end.

Definition verify_tail (e : repairEdges) (solved : list Prelude.bytes) : option goerror :=
  match tail e, List.last solved [], solved with
  | Some t, got, _ :: _ =>
      if (e_damagedEnd e <? 0) || (Z.of_nat (length got) <? e_damagedEnd e + Z.of_nat (length t))
      then Some (abstain "reconstructed tail is out of range")
      else if negb (bool_decide (span got (e_damagedEnd e) (Z.of_nat (length t)) = t))
      then Some (abstain "reconstructed tail disagrees with bytes already held") else None
  | _, _, _ => None
  end.

Definition edges_verify (e : repairEdges) (solved : list Prelude.bytes) : option goerror :=
  first_error (verify_head e solved) (verify_tail e solved).

(** ** The pass over the blocks *)

(** What the closure that emits bytes shares: the bytes short of a block, the next
    block, the solver and the edges. *)
Record stream := MkStream { s_buf : Prelude.bytes; s_block : Z; s_solver : PAR2Solver; s_edges : repairEdges }.

(** One block, unknown or known. *)
Definition take_block (unknown : gset Z) (s : stream) (data rest : Prelude.bytes) : result goerror stream :=
  if bool_decide (s_block s ∈ unknown)
  then Ok (MkStream rest (s_block s + 1) (s_solver s) (observe (s_edges s) (s_block s) data))
  else
    match AddKnownBlock (s_solver s) (s_block s) data with
    | Err _ => Err (abstain "")
    | Ok solver => Ok (MkStream rest (s_block s + 1) solver (s_edges s))
    end.

Fixpoint emit_blocks (fuel : nat) (sliceSize : Z) (unknown : gset Z) (acct : repairAccount) (s : stream) : W -> W * result goerror stream :=
  match fuel with
  | O => call_ret (Ok s)
  | S fuel =>
      if Z.of_nat (length (s_buf s)) <? sliceSize then call_ret (Ok s)
      else
        pass! check acct in
        match take_block unknown s (take (Z.to_nat sliceSize) (s_buf s)) (drop (Z.to_nat sliceSize) (s_buf s)) with
        | Err err => call_ret (Err err)
        | Ok s => emit_blocks fuel sliceSize unknown acct s
        end
  end.

(** A slice is at least a byte, so the bytes bound the loop. *)
Definition emit (sliceSize : Z) (unknown : gset Z) (acct : repairAccount) (s : stream) (data : Prelude.bytes) : W -> W * result goerror stream :=
  let buf := s_buf s ++ data in
  emit_blocks (S (length buf)) sliceSize unknown acct (MkStream buf (s_block s) (s_solver s) (s_edges s)).

Fixpoint emit_zeros (fuel : nat) (sliceSize : Z) (unknown : gset Z) (acct : repairAccount) (chunk rest : Z) (s : stream)
    : W -> W * result goerror stream :=
  match fuel with
  | O => call_ret (Ok s)
  | S fuel =>
      if rest <=? 0 then call_ret (Ok s)
      else
        let n := Z.min rest chunk in
        try! s := emit sliceSize unknown acct s (repeat 0 (Z.to_nat n)) in
        emit_zeros fuel sliceSize unknown acct chunk (rest - n) s
  end.

Record pass_state := MkPass { p_stream : stream; produced : Z; p_acct : repairAccount }.

Definition pass_segment (r : PAR2RepairReader) (f : PAR2GeometryFile) (sliceSize skipSeg skipLen : Z) (unknown : gset Z)
    (p : pass_state) (i : Z) : W -> W * result goerror pass_state :=
  pass! check (p_acct p) in
  if i =? skipSeg then
    try! s := emit_zeros (Z.to_nat skipLen) sliceSize unknown (p_acct p) (Z.min skipLen repairSegmentChunk) skipLen (p_stream p) in
    call_ret (Ok (MkPass s (produced p + Z.max 0 skipLen) (p_acct p)))
  else
    let! res := ReadSegment r (g_NZBFileIndex f) i in
    match res with
    | Err _ => ctx_or (abstain "recovery-set member segment unavailable")
    | Ok data =>
        let n := Z.of_nat (length data) in
        match spend (p_acct p) n with
        | Err err => call_ret (Err err)
        | Ok acct =>
            if g_Length f <? produced p + n then call_ret (Err (abstain "member payload exceeds its described length"))
            else
              try! s := emit sliceSize unknown acct (p_stream p) data in
              call_ret (Ok (MkPass s (produced p + n) acct))
        end
    end.

(** The solver, the edges and the account after one file. *)
Definition accumulateFileBlocks (r : PAR2RepairReader) (f : PAR2GeometryFile) (sliceSize skipSeg skipLen : Z) (unknown : gset Z)
    (solver : PAR2Solver) (edges : repairEdges) (acct : repairAccount)
    : W -> W * result goerror (PAR2Solver * repairEdges * repairAccount) :=
  let! segCount := SegmentCount r (g_NZBFileIndex f) in
  match segCount with
  | None => call_ret (Err (abstain "recovery-set member has no segments"))
  | Some segCount =>
      if segCount <=? 0 then call_ret (Err (abstain "recovery-set member has no segments"))
      else
        try! p := wfold (pass_segment r f sliceSize skipSeg skipLen unknown) (MkPass (MkStream [] (FirstBlock f) solver edges) 0 acct) (seqZ 0 segCount) in
        if negb (produced p =? g_Length f) then call_ret (Err (abstain "member payload disagrees with its described length"))
        else
          let s := p_stream p in
          try! s := (match s_buf s with
                     | [] => call_ret (Ok s)
                     | buf =>
                         pass! check (p_acct p) in
                         call_ret (take_block unknown s buf [])
                     end) in
          if negb (s_block s =? FirstBlock f + Blocks f) then call_ret (Err (abstain "member block count disagrees with its geometry"))
          else call_ret (Ok (s_solver s, s_edges s, p_acct p))
  end.

(** ** The check of the rebuilt blocks *)

(** The body of the loop over the solved blocks: the bytes of the damaged span in block
    [firstBlock + i]. *)
Definition verify_block (domain : PAR2ProofDomain) (sliceSize firstBlock lastBlock damagedStart damagedEnd : Z)
    (out : Prelude.bytes) (ib : Z * Prelude.bytes) : W -> W * result goerror Prelude.bytes :=
  let (i, block) := ib in
  let fileBlock := firstBlock + i in
  let blockOffset := fileBlock * sliceSize in
  match ProofAt domain blockOffset with
  | None => call_ret (Err (abstain "no IFSC proof for a reconstructed block"))
  | Some proof =>
      if negb (p_Offset proof =? blockOffset) || (p_Length proof <=? 0) || (sliceSize <? p_Length proof)
      then call_ret (Err (abstain "IFSC proof geometry disagrees"))
      else if negb (Z.of_nat (length block) =? sliceSize) then call_ret (Err (abstain "reconstructed block has the wrong length"))
      else if negb (forallb (fun b => b =? 0) (drop (Z.to_nat (p_Length proof)) block))
      then call_ret (Err (abstain "reconstructed tail padding is not zero"))
      else
        let! digest := proof_CandidateDigest md5 proof (take (Z.to_nat (p_Length proof)) block) in
        match digest with
        | Err _ => call_ret (Err (abstain ""))
        | Ok digest =>
            if negb (DigestEquals proof digest) then call_ret (Err (abstain "reconstructed block failed IFSC verification"))
            else
              let lo := if fileBlock =? firstBlock then damagedStart - blockOffset else 0 in
              let hi := if fileBlock =? lastBlock then damagedEnd - blockOffset else p_Length proof in
              if (lo <? 0) || (Z.of_nat (length block) <? hi) || (hi <? lo)
              then call_ret (Err (abstain "damaged span does not lie inside its blocks"))
              else call_ret (Ok (out ++ span block lo (hi - lo)))
        end
  end.

(** ** The repair *)

Definition solver_or {A} (res : result solver_error A) : result goerror A :=
  match res with Ok a => Ok a | Err _ => Err (abstain "") end.

Definition add_slice (solver : PAR2Solver) (s : PAR2RecoverySlice) : result goerror PAR2Solver :=
  solver_or (AddRecoverySlice solver (Exponent s) (Data s)).

Definition pass_file (r : PAR2RepairReader) (req : PAR2RepairRequest) (damagedLen : Z) (unknown : gset Z)
    (s : PAR2Solver * repairEdges * repairAccount) (f : PAR2GeometryFile) : W -> W * result goerror (PAR2Solver * repairEdges * repairAccount) :=
  let '(solver, edges, acct) := s in
  let skip := if g_NZBFileIndex f =? r_NZBFileIndex req then SegIndex req else -1 in
  accumulateFileBlocks r f (g_SliceSize (Geometry req)) skip damagedLen unknown solver edges acct.

(** From the measured span on. *)
Definition repair_span (r : PAR2RepairReader) (req : PAR2RepairRequest) (target : PAR2GeometryFile) (damagedStart damagedLen : Z)
    (acct : repairAccount) : W -> W * result goerror PAR2RepairResult :=
  let geo := Geometry req in
  let sliceSize := g_SliceSize geo in
  if i64 (sliceSize * MaxPAR2UnknownBlocks) <? damagedLen then call_ret (Err (abstain "damaged span is not determinate"))
  else
    let damagedEnd := damagedStart + damagedLen in
    if g_Length target <? damagedEnd then call_ret (Err (abstain "damaged span exceeds the described file"))
    else
      let first := Z.quot damagedStart sliceSize in
      let last := Z.quot (damagedEnd - 1) sliceSize in
      let unknownCount := last - first + 1 in
      if (unknownCount <=? 0) || (MaxPAR2UnknownBlocks <? unknownCount) then call_ret (Err (abstain "unknown block count out of bounds"))
      else
        let unknown := seqZ (FirstBlock target + first) unknownCount in
        if MaxBytes (Budget req) <? i64 (a_spent acct + PayloadBytes geo) then call_ret (Err (abstain "projected bytes exceed the repair budget"))
        else
          try! (slices, acct) := collectRecoverySlices r geo unknownCount acct in
          match (let? solver := solver_or (NewPAR2Solver sliceSize (g_total geo) unknown (map Exponent slices)) in
                 rfold add_slice solver slices) with
          | Err err => call_ret (Err err)
          | Ok solver =>
              let edges := MkEdges (FirstBlock target + first) (FirstBlock target + last) (Z.rem damagedStart sliceSize)
                             (damagedEnd - last * sliceSize) None None in
              try! (solver, edges, acct) := wfold (pass_file r req damagedLen (list_to_set unknown)) (solver, edges, acct) (g_Files geo) in
              pass! check acct in
              match solver_or (Solve solver) with
              | Err err => call_ret (Err err)
              | Ok (solved, _) =>
                  if negb (Z.of_nat (length solved) =? unknownCount) then call_ret (Err (abstain "solver returned the wrong block count"))
                  else
                    try! out := wfold (verify_block (Proof_ req) sliceSize first last damagedStart damagedEnd) [] (zip (seqZ 0 unknownCount) solved) in
                    match edges_verify edges solved with
                    | Some err => call_ret (Err err)
                    | None =>
                        if negb (Z.of_nat (length out) =? damagedLen) then call_ret (Err (abstain "reconstructed span length disagrees"))
                        else call_ret (Ok (MkResult out (a_spent acct) unknownCount))
                    end
              end
          end.

Definition RepairSegment (r : option PAR2RepairReader) (req : PAR2RepairRequest) : W -> W * result goerror PAR2RepairResult :=
  match r with
  | None => call_ret (Err (abstain "no repair reader"))
  | Some r =>
      if negb (Enabled (Budget req)) then call_ret (Err (abstain "repair budget disabled"))
      else
        match Now req with
        | None => call_ret (Err (abstain "no injected clock"))
        | Some now =>
            let geo := Geometry req in
            if g_SliceSize geo <=? 0 then call_ret (Err (abstain "unusable geometry"))
            else
              match FileByNZBIndex geo (r_NZBFileIndex req) with
              | None => call_ret (Err (abstain "damaged file is outside the recovery set"))
              | Some target =>
                  if negb (domain_Length (Proof_ req) =? g_Length target) then call_ret (Err (abstain "proof domain does not describe this file"))
                  else if negb (domain_SliceSize (Proof_ req) =? g_SliceSize geo) then call_ret (Err (abstain "proof slice size disagrees with recovery set"))
                  else
                    let! start := now in
                    let acct := MkAccount (Budget req) now (start + MaxDuration (Budget req)) 0 in
                    try! (damagedStart, damagedLen, acct) :=
                      measureDamagedSegment r (r_NZBFileIndex req) (SegIndex req) (g_Length target) acct in
                    repair_span r req target damagedStart damagedLen acct
              end
        end
  end.

End Repair.

(** ** Loops of calls *)

Lemma wfold_inv {W S A} (f : S -> A -> W -> W * result goerror S) (P : list A -> S -> Prop) l :
  (forall pre x post s w w' s', l = pre ++ x :: post -> P pre s -> f s x w = (w', Ok s') -> P (pre ++ [x]) s') ->
  forall s w w' s', P [] s -> wfold f s l w = (w', Ok s') -> P l s'.
Proof.
  intros Hf. assert (Hg : forall post pre s w w' s', l = pre ++ post -> P pre s -> wfold f s post w = (w', Ok s') -> P l s').
  { induction post as [|x post IH]; intros pre s w w' s' -> Hp Hr; cbn [wfold] in Hr.
    - unfold call_ret in Hr. injection Hr as <- <-. by rewrite app_nil_r.
    - apply call_bind_inv in Hr as (w1 & [s1|] & H1 & H2); [|by injection H2].
      apply (IH (pre ++ [x]) s1 w1 w' s'); [by rewrite <-app_assoc| |done]. by eapply Hf. }
  intros s w w' s'. by apply (Hg l []).
Qed.

(** ** What a repair may fail with *)

Section Failures.
Context {W : Type} `{Context W} (md5 : Prelude.bytes -> Prelude.bytes).

(** The context's own error, or an abstention. *)
Definition expected (e : goerror) : Prop := (exists w : W, (ctx_Err w).2 = Some e) \/ exists msg, e = abstain msg.

Definition errs {A} (c : W -> W * result goerror A) : Prop := forall w, match (c w).2 with Ok _ => True | Err e => expected e end.
Definition may_err (c : W -> W * option goerror) : Prop := forall w, match (c w).2 with None => True | Some e => expected e end.

Lemma errs_ok {A} (a : A) : errs (call_ret (Ok a)).
Proof. done. Qed.

Lemma errs_abstain {A} msg : errs (call_ret (A := result goerror A) (Err (abstain msg))).
Proof. intros w. right. by eexists. Qed.

Lemma errs_bind {A B} (c : W -> W * A) (f : A -> W -> W * result goerror B) : (forall a, errs (f a)) -> errs (call_bind c f).
Proof. intros Hf w. unfold call_bind. destruct (c w) as [w1 a]. apply Hf. Qed.

Lemma errs_try {A B} (c : W -> W * result goerror A) (f : A -> W -> W * result goerror B) :
  errs c -> (forall a, errs (f a)) -> errs (try! x := c in f x).
Proof.
  intros Hc Hf w. unfold call_bind. specialize (Hc w). destruct (c w) as [w1 [a|e]]; [apply Hf|done].
Qed.

Lemma errs_pass {B} (c : W -> W * option goerror) (k : W -> W * result goerror B) : may_err c -> errs k -> errs (pass! c in k).
Proof. intros Hc Hk w. unfold call_bind. specialize (Hc w). destruct (c w) as [w1 [e|]]; [done|apply Hk]. Qed.

Lemma errs_wfold {S A} (f : S -> A -> W -> W * result goerror S) l : (forall s x, errs (f s x)) -> forall s, errs (wfold f s l).
Proof. intros Hf. induction l as [|x l IH]; intros s; [apply errs_ok|]. cbn [wfold]. by apply errs_try. Qed.

Lemma check_errs (a : repairAccount) : may_err (check a).
Proof.
  intros w. unfold check, call_bind. pose proof (ex_intro (fun v => (ctx_Err v).2 = (ctx_Err w).2) w eq_refl) as He.
  destruct (ctx_Err w) as [w1 [e|]]; cbn in He; [by left|]. destruct (a_now a w1) as [w2 n]. cbn. destruct (_ <? _); [done|]. right. by eexists.
Qed.

Lemma ctx_or_errs {A} msg : errs (ctx_or (A := A) (abstain msg)).
Proof.
  intros w. unfold ctx_or, call_bind. pose proof (ex_intro (fun v => (ctx_Err v).2 = (ctx_Err w).2) w eq_refl) as He.
  destruct (ctx_Err w) as [w1 [e|]]; cbn in *; [by left|]. right. by eexists.
Qed.

Lemma ctx_ok_errs {A} (a : A) : errs (let! ctxErr := ctx_Err in call_ret (match ctxErr with Some err => Err err | None => Ok a end)).
Proof.
  intros w. unfold call_bind. pose proof (ex_intro (fun v => (ctx_Err v).2 = (ctx_Err w).2) w eq_refl) as He.
  destruct (ctx_Err w) as [w1 [e|]]; cbn in *; [by left|done].
Qed.

(** A result that can only be an abstention. *)
Definition abstains {A} (res : result goerror A) : Prop := match res with Ok _ => True | Err e => exists msg, e = abstain msg end.

Lemma abstains_errs {A} (res : result goerror A) : abstains res -> errs (call_ret res).
Proof. intros Hr w. destruct res as [a|e]; [done|by right]. Qed.

Lemma abstains_match {A B} (res : result goerror A) (k : A -> W -> W * result goerror B) : abstains res -> (forall a, errs (k a)) ->
  errs (match res with Ok a => k a | Err e => call_ret (Err e) end).
Proof. intros Hr Hk. destruct res as [a|e]; [apply Hk|]. intros w. by right. Qed.

Lemma spend_abstains (a : repairAccount (W := W)) n : abstains (spend a n).
Proof. unfold spend. destruct (_ <? _); [by eexists|]. destruct (_ <? _); [by eexists|done]. Qed.

Lemma take_block_abstains unknown s data rest : abstains (take_block unknown s data rest).
Proof. unfold take_block. destruct (bool_decide _); [done|]. destruct (AddKnownBlock _ _ _); [done|by eexists]. Qed.

Lemma solver_or_abstains {A} (res : result solver_error A) : abstains (solver_or res).
Proof. destruct res; [done|by eexists]. Qed.

Lemma rfold_abstains {S A} (f : S -> A -> result goerror S) l : (forall s x, abstains (f s x)) -> forall s, abstains (rfold f s l).
Proof.
  intros Hf. induction l as [|x l IH]; intros s; [done|]. cbn [rfold]. specialize (Hf s x). destruct (f s x); [apply IH|done].
Qed.

Lemma rbind_abstains {A B} (c : result goerror A) (k : A -> result goerror B) : abstains c -> (forall a, abstains (k a)) -> abstains (rbind c k).
Proof. intros Hc Hk. destruct c; [apply Hk|done]. Qed.

Lemma edges_verify_abstains e solved err : edges_verify e solved = Some err -> exists msg, err = abstain msg.
Proof.
  unfold edges_verify. destruct (verify_head e solved) as [e1|] eqn:E1; cbn [first_error].
  - intros [= <-]. unfold verify_head in E1. destruct (head e), solved; try done. destruct (_ || _); [|done]. injection E1 as <-. by eexists.
  - unfold verify_tail. destruct (tail e), solved; try done. destruct (_ || _); [intros [= <-]; by eexists|]. destruct (negb _); [|done].
    intros [= <-]. by eexists.
Qed.

Lemma errs_verify {A} e solved (k : W -> W * result goerror A) : errs k ->
  errs (match edges_verify e solved with Some err => call_ret (Err err) | None => k end).
Proof. intros Hk. destruct (edges_verify e solved) eqn:E; [|done]. intros w. right. by eapply edges_verify_abstains. Qed.

Hint Resolve errs_ok errs_abstain check_errs ctx_or_errs ctx_ok_errs spend_abstains take_block_abstains solver_or_abstains abstains_errs : errors.

(** Follow the code, a call or a test at a time. *)
Ltac errors :=
  repeat first
    [ progress intros
    | solve [auto with errors]
    | apply errs_pass
    | apply errs_try
    | apply errs_wfold
    | apply abstains_match
    | apply errs_bind
    | apply errs_verify
    | match goal with |- errs (match ?x with _ => _ end) => destruct x end ].

Lemma measure_errs r f i len acct : errs (measureDamagedSegment (W := W) r f i len acct).
Proof. unfold measureDamagedSegment. unfold measure_segment. errors. Qed.

Lemma collect_errs r geo need acct : errs (collectRecoverySlices (W := W) r geo need acct).
Proof. unfold collectRecoverySlices, open_volume, scan_volume. errors. Qed.

Lemma emit_errs ss unknown acct s data : errs (emit (W := W) ss unknown acct s data).
Proof.
  unfold emit. generalize (S (length (s_buf s ++ data))) as fuel, (MkStream (s_buf s ++ data) (s_block s) (s_solver s) (s_edges s)) as st.
  induction fuel as [|fuel IH]; cbn [emit_blocks]; errors.
Qed.

Lemma emit_zeros_errs fuel ss unknown acct chunk rest s : errs (emit_zeros (W := W) fuel ss unknown acct chunk rest s).
Proof. revert rest s. induction fuel as [|fuel IH]; cbn [emit_zeros]; intros; [errors|]. destruct (_ <=? _); [errors|]. apply errs_try; [apply emit_errs|]. intros. apply IH. Qed.

Hint Resolve measure_errs collect_errs emit_errs emit_zeros_errs : errors.

Lemma accumulate_errs r f ss skip len unknown solver edges acct : errs (accumulateFileBlocks (W := W) r f ss skip len unknown solver edges acct).
Proof. unfold accumulateFileBlocks, pass_segment. errors. Qed.

Lemma verify_block_errs d ss a b c e out ib : errs (verify_block (W := W) md5 d ss a b c e out ib).
Proof. unfold verify_block. errors. Qed.

Lemma repair_errs r req : errs (RepairSegment (W := W) md5 r req).
Proof.
  unfold RepairSegment, repair_span, pass_file. errors; try apply accumulate_errs; try apply verify_block_errs.
  apply rbind_abstains; [auto with errors|]. intros. apply rfold_abstains. intros. unfold add_slice. auto with errors.
Qed.

End Failures.

(** ** The byte budget *)

Section Budgets.
Context {W : Type} `{Context W} (B : PAR2RepairBudget).

Definition within (a : repairAccount (W := W)) : Prop := a_budget a = B /\ 0 <= a_spent a <= MaxBytes B.

Lemma ctx_or_fails {A} err (w : W) w' (x : A) : ctx_or err w <> (w', Ok x).
Proof. unfold ctx_or, call_bind. by destruct (ctx_Err w). Qed.

Lemma spend_within a n a' : spend a n = Ok a' -> within a -> within a' /\ 0 <= n /\ a_spent a' = a_spent a + n.
Proof.
  unfold spend, within. destruct (Z.ltb_spec n 0); [done|]. destruct (Z.ltb_spec (MaxBytes (a_budget a) - n) (a_spent a)); [done|].
  intros [= <-] [E ?]. rewrite E in *. cbn [a_budget a_spent]. split_and!; (done || lia).
Qed.

Lemma measure_within r fileIndex segIndex fileLength acct w w' start len acct' :
  measureDamagedSegment r fileIndex segIndex fileLength acct w = (w', Ok (start, len, acct')) -> within acct ->
  within acct' /\ 0 <= start /\ 0 < len /\ start + len <= fileLength.
Proof.
  unfold measureDamagedSegment. intros Hm Ha. calls Hm.
  cut (within (m_acct a)); [intros; bool_hyps; split_and!; (done || lia)|].
  refine (wfold_inv _ (fun _ m => within (m_acct m)) _ _ _ _ _ _ _ Hc0); [|done].
  intros pre i post m v v' m' _ Hw Hs. unfold measure_segment in Hs.
  calls Hs; [done| |by eapply ctx_or_fails in Hs]. cbn [m_acct]. by eapply spend_within.
Qed.

Lemma collect_within r geo need acct w w' slices acct' : collectRecoverySlices r geo need acct w = (w', Ok (slices, acct')) ->
  within acct -> within acct' /\ Z.of_nat (length slices) = need.
Proof.
  unfold collectRecoverySlices. intros Hm Ha. calls Hm. bool_hyps. split; [|done].
  refine (wfold_inv _ (fun _ c => within (c_acct c)) _ _ _ _ _ _ _ Hc0); [|done].
  intros pre i post c v v' c' _ Hw Hs. unfold open_volume in Hs. calls Hs; try done.
  - cbn [c_acct]. by eapply spend_within.
  - destruct a3 as [|]; [done|]. injection H1 as <-. cbn [c_acct]. by eapply spend_within.
Qed.

Lemma accumulate_within r f ss skip len unknown solver edges acct w w' solver' edges' acct' :
  accumulateFileBlocks r f ss skip len unknown solver edges acct w = (w', Ok (solver', edges', acct')) -> within acct -> within acct'.
Proof.
  unfold accumulateFileBlocks. intros Hm Ha. calls Hm.
  refine (wfold_inv _ (fun _ p => within (p_acct p)) _ _ _ _ _ _ _ Hc0); [|done].
  intros pre i post p v v' p' _ Hw Hs. unfold pass_segment in Hs.
  calls Hs; [done| |by eapply ctx_or_fails in Hs]. cbn [p_acct]. by eapply spend_within.
Qed.

End Budgets.

(** ** What a rebuilt block is *)

Lemma span_app (data : Prelude.bytes) off n m : 0 <= off -> 0 <= n -> 0 <= m -> span data off n ++ span data (off + n) m = span data off (n + m).
Proof.
  intros. unfold span. replace (Z.to_nat (off + n)) with (Z.to_nat off + Z.to_nat n)%nat by lia. rewrite <-drop_drop.
  replace (Z.to_nat (n + m)) with (Z.to_nat n + Z.to_nat m)%nat by lia. by rewrite take_take_drop.
Qed.

Lemma span_take (data : Prelude.bytes) k off n : 0 <= off -> 0 <= n -> off + n <= k -> span (take (Z.to_nat k) data) off n = span data off n.
Proof.
  intros. unfold span. rewrite skipn_firstn_comm, take_take. f_equal. lia.
Qed.

Section Verified.
Context {W : Type} `{Context W} (md5 : Prelude.bytes -> Prelude.bytes).

(** A block that was checked against block [b] of the domain. *)
Definition proven_block (d : PAR2ProofDomain) (b : Z) (block : Prelude.bytes) : Prop :=
  0 <= b < domain_Blocks d /\ Z.of_nat (length block) = domain_SliceSize d /\
  md5 (take (Z.to_nat (p_Length (block_proof d b))) block) = p_digest (block_proof d b).

Lemma block_proof_length d b : wf_domain d -> 0 <= b < domain_Blocks d ->
  0 < p_Length (block_proof d b) <= domain_SliceSize d /\
  b * domain_SliceSize d + p_Length (block_proof d b) = Z.min ((b + 1) * domain_SliceSize d) (domain_Length d).
Proof.
  intros [Hs Hl _] Hb. unfold domain_Blocks, domain_SliceSize, domain_Length, block_proof in *. cbn [p_Length].
  destruct (Z.leb_spec (pd_sliceSize d) 0); [lia|]. destruct (Z.leb_spec (pf_Length (pd_file d)) 0); [lia|]. cbn [orb] in Hb.
  apply block_count_div in Hb; [|lia..]. nia.
Qed.

Lemma verify_block_ok d first last start stop out i block w w' out' : wf_domain d ->
  verify_block md5 d (domain_SliceSize d) first last start stop out (i, block) w = (w', Ok out') ->
  proven_block d (first + i) block /\
  let lo := if first + i =? first then start - (first + i) * domain_SliceSize d else 0 in
  let hi := if first + i =? last then stop - (first + i) * domain_SliceSize d else p_Length (block_proof d (first + i)) in
  0 <= lo <= hi /\ hi <= domain_SliceSize d /\ out' = out ++ span block lo (hi - lo).
Proof.
  intros Hw. unfold verify_block. set (b := first + i). destruct (ProofAt d (b * domain_SliceSize d)) as [p|] eqn:Ep; [|done].
  pose proof (wd_slice _ Hw) as Hs. fold (domain_SliceSize d) in Hs.
  assert (Hr : 0 <= b * domain_SliceSize d < domain_Length d).
  { unfold domain_Length. unfold ProofAt in Ep. destruct (_ || _ || _) eqn:E in Ep; [done|]. bool_hyps. lia. }
  destruct (ProofAt_block d _ Hw Hr) as [Eb Hb]. rewrite Ep in Eb. injection Eb as ->.
  fold (domain_SliceSize d) in *. rewrite Z.div_mul in * by lia. intros Hv. calls Hv.
  apply negb_false_iff, DigestEquals_spec in Heqb3. bool_hyps.
  pose proof (CandidateDigest_md5 md5 (block_proof d b) (take (Z.to_nat (p_Length (block_proof d b))) block) w a) as [Hd _]; [by rewrite Hc|].
  split; [|split_and!; (done || lia)]. split_and!; [lia|lia|done|]. congruence.
Qed.

(** The checked blocks put together to the span of any file they are blocks of. *)
Lemma verify_blocks_span d first last start stop solved F w w' out : wf_domain d ->
  0 <= start -> start < stop -> stop <= domain_Length d -> Z.of_nat (length F) = domain_Length d ->
  first = start / domain_SliceSize d -> last = (stop - 1) / domain_SliceSize d ->
  Z.of_nat (length solved) = last - first + 1 ->
  (forall i block, solved !! i = Some block -> proven_block d (first + Z.of_nat i) block ->
     let p := block_proof d (first + Z.of_nat i) in
     take (Z.to_nat (p_Length p)) block = span F (p_Offset p) (p_Length p)) ->
  wfold (verify_block md5 d (domain_SliceSize d) first last start stop) [] (zip (seqZ 0 (last - first + 1)) solved) w = (w', Ok out) ->
  out = span F start (stop - start).
Proof.
  intros Hw Hs0 Hs1 Hs2 HF Hfirst Hlast Hlen Hblocks Hrun. set (s := domain_SliceSize d) in *.
  assert (Hs : 0 < s) by (pose proof (wd_slice _ Hw); unfold s, domain_SliceSize; lia).
  pose proof (Z.div_mod start s ltac:(lia)) as D1. pose proof (Z.mod_pos_bound start s Hs) as M1. rewrite <-Hfirst in D1.
  pose proof (Z.div_mod (stop - 1) s ltac:(lia)) as D2. pose proof (Z.mod_pos_bound (stop - 1) s Hs) as M2. rewrite <-Hlast in D2.
  set (at_ := fun k : nat => Z.max start (Z.min stop ((first + Z.of_nat k) * s))).
  assert (Hinv : out = span F start (at_ (length (zip (seqZ 0 (last - first + 1)) solved)) - start)).
  { refine (wfold_inv _ (fun pre o => o = span F start (at_ (length pre) - start)) _ _ _ _ _ _ _ Hrun).
    2: { cbn [length]. replace (at_ 0%nat - start) with 0 by (unfold at_; nia). done. }
    intros pre [i block] post o v v' o' Hl -> Hv.
    assert (Hk : zip (seqZ 0 (last - first + 1)) solved !! length pre = Some (i, block)) by (rewrite Hl, list_lookup_middle; done).
    apply lookup_zip_with_Some in Hk as (i' & block' & [= <- <-] & Hi & Hblk). apply lookup_seqZ in Hi as [Hi Hn]. rewrite Z.add_0_l in Hi. subst i.
    destruct (verify_block_ok d first last start stop _ _ _ _ _ _ Hw Hv) as [Hp Ho]. cbv zeta in Ho. fold s in Ho.
    specialize (Hblocks _ _ Hblk Hp). cbv zeta in Hblocks.
    pose proof (block_proof_length d _ Hw (proj1 Hp)) as [Hpl Hpe]. fold s in Hpl, Hpe.
    unfold block_proof in Hblocks at 2. cbn [p_Offset] in Hblocks. fold (domain_SliceSize d) s in Hblocks.
    set (k := length pre) in *. set (b := first + Z.of_nat k) in *. set (n := p_Length (block_proof d b)) in *.
    rewrite length_app. cbn [length]. destruct Ho as (Hlo & Hhi & ->).
    assert (Ek : at_ k - b * s = if b =? first then start - b * s else 0) by (unfold at_; fold b; destruct (Z.eqb_spec b first); nia).
    assert (Ek1 : at_ (k + 1)%nat - b * s = if b =? last then stop - b * s else n).
    { unfold at_. replace (first + Z.of_nat (k + 1)) with (b + 1) by lia. destruct (Z.eqb_spec b last); nia. }
    rewrite <-Ek, <-Ek1 in *. assert (Hn' : at_ (k + 1)%nat - b * s <= n).
    { rewrite Ek1. destruct (Z.eqb_spec b last); nia. }
    assert (Hbs : 0 <= b * s) by (destruct Hp as [[? ?] _]; nia). assert (Hks : start <= at_ k) by (unfold at_; lia).
    rewrite <-(span_take block n) by lia. rewrite Hblocks, span_span by lia.
    replace (b * s + (at_ k - b * s)) with (start + (at_ k - start)) by lia. rewrite span_app by lia. fold k. f_equal. lia. }
  rewrite Hinv. f_equal. unfold at_. rewrite length_zip_with, length_seqZ. nia.
Qed.

End Verified.

(** A file with the given blocks from block [first] on. *)
Definition file_of (len first s : Z) (blocks : list Prelude.bytes) : Prelude.bytes :=
  take (Z.to_nat len) (repeat 0 (Z.to_nat (first * s)) ++ concat blocks ++ repeat 0 (Z.to_nat len)).

Lemma file_of_length len first s blocks : 0 <= len -> Z.of_nat (length (file_of len first s blocks)) = len.
Proof. intros. unfold file_of. rewrite length_take, !length_app, !repeat_length. lia. Qed.

Lemma concat_span s (blocks : list Prelude.bytes) rest i block n : 0 < s -> Forall (fun b => Z.of_nat (length b) = s) blocks ->
  blocks !! i = Some block -> 0 <= n <= s -> span (concat blocks ++ rest) (Z.of_nat i * s) n = take (Z.to_nat n) block.
Proof.
  intros Hs Hf Hi Hn. revert i Hi. induction blocks as [|b blocks IH]; intros i Hi; [done|].
  apply list.Forall_cons in Hf as [Hb Hf]. cbn [concat]. rewrite <-app_assoc. destruct i as [|i].
  - injection Hi as ->. unfold span. replace (Z.to_nat (Z.of_nat 0 * s)) with 0%nat by lia. by rewrite drop_0, take_app_le by lia.
  - unfold span in *. replace (Z.to_nat (Z.of_nat (S i) * s)) with (length b + Z.to_nat (Z.of_nat i * s))%nat by lia.
    rewrite <-drop_drop, drop_app_length. by apply IH.
Qed.

Lemma file_of_block len first s blocks i block n : 0 < s -> 0 <= first -> Forall (fun b => Z.of_nat (length b) = s) blocks ->
  blocks !! i = Some block -> 0 <= n <= s -> (first + Z.of_nat i) * s + n <= len ->
  span (file_of len first s blocks) ((first + Z.of_nat i) * s) n = take (Z.to_nat n) block.
Proof.
  intros Hs Hf Hb Hi Hn Hl. unfold file_of. rewrite span_take by nia. rewrite <-(concat_span s blocks (repeat 0 (Z.to_nat len)) i block n) by done.
  unfold span. f_equal. replace (Z.to_nat ((first + Z.of_nat i) * s)) with (length (repeat 0%Z (Z.to_nat (first * s))) + Z.to_nat (Z.of_nat i * s))%nat
    by (rewrite repeat_length; nia).
  by rewrite <-drop_drop, drop_app_length.
Qed.

Section Theorem_.
Context {W : Type} `{Context W} (md5 : Prelude.bytes -> Prelude.bytes).

(** What a repair that succeeds has gone through. *)
Lemma repair_span_ok r req target start len acct w w' res B : within B acct -> B = Budget req ->
  domain_SliceSize (Proof_ req) = g_SliceSize (Geometry req) -> 0 <= start -> 0 < len -> 0 < g_SliceSize (Geometry req) ->
  repair_span (W := W) md5 r req target start len acct w = (w', Ok res) ->
  let s := g_SliceSize (Geometry req) in
  let first := start / s in let last := (start + len - 1) / s in
  start + len <= g_Length target /\ 0 <= BytesRead res <= MaxBytes (Budget req) /\ r_Blocks res = last - first + 1 /\
  0 < r_Blocks res <= MaxPAR2UnknownBlocks /\ Z.of_nat (length (r_Data res)) = len /\
  exists solved w1 w2, Z.of_nat (length solved) = last - first + 1 /\
    wfold (verify_block md5 (Proof_ req) s first last start (start + len)) [] (zip (seqZ 0 (last - first + 1)) solved) w1 = (w2, Ok (r_Data res)).
Proof.
  intros Ha -> Hd Hs0 Hlen Hs. unfold repair_span. intros Hr. calls Hr. cbn [r_Data r_Blocks BytesRead].
  pose proof (collect_within _ _ _ _ _ _ _ _ _ Hc Ha) as [Ha1 _].
  assert (Hw : within (Budget req) r1).
  { refine (wfold_inv _ (fun _ s => within (Budget req) s.2) _ _ _ _ _ _ _ Hc0); [|done].
    intros pre f post [[? ?] ?] v v' [[? ?] ?] _ Hw Hp. cbn [snd] in *. by eapply accumulate_within in Hp. }
  bool_hyps. rewrite !Z.quot_div_nonneg in * by lia. destruct Hw. split_and!; try (done || lia).
  exists l0, w2, w'. split; [lia|]. done.
Qed.

Lemma verify_all d first last start stop solved w w' out : wf_domain d -> Z.of_nat (length solved) = last - first + 1 ->
  wfold (verify_block (W := W) md5 d (domain_SliceSize d) first last start stop) [] (zip (seqZ 0 (last - first + 1)) solved) w = (w', Ok out) ->
  forall i block, solved !! i = Some block -> proven_block md5 d (first + Z.of_nat i) block.
Proof.
  intros Hw Hlen Hrun.
  assert (Hall : Forall (fun ib => proven_block md5 d (first + ib.1) ib.2) (zip (seqZ 0 (last - first + 1)) solved)).
  { refine (wfold_inv _ (fun pre _ => Forall (fun ib => proven_block md5 d (first + ib.1) ib.2) pre) _ _ _ _ _ _ _ Hrun); [|constructor].
    intros pre [i block] post o v v' o' _ Hpre Hv. apply Forall_app. split; [done|]. constructor; [|constructor]. by apply verify_block_ok in Hv as []. }
  intros i block Hi. rewrite list.Forall_forall in Hall. apply (Hall (Z.of_nat i, block)). apply list_elem_of_lookup. exists i.
  apply lookup_zip_with_Some. exists (Z.of_nat i), block. split; [done|]. split; [|done]. apply lookup_lt_Some in Hi. rewrite lookup_seqZ. lia.
Qed.

(** The bytes that pass are the span of a file with the recorded hashes. *)
Lemma verified_file d start len solved w w' out : wf_domain d -> 0 <= start -> 0 < len -> start + len <= domain_Length d ->
  let s := domain_SliceSize d in let first := start / s in let last := (start + len - 1) / s in
  Z.of_nat (length solved) = last - first + 1 ->
  wfold (verify_block (W := W) md5 d s first last start (start + len)) [] (zip (seqZ 0 (last - first + 1)) solved) w = (w', Ok out) ->
  (exists F, Z.of_nat (length F) = domain_Length d /\ out = span F start len /\
     forall b, first <= b <= last -> md5 (span F (b * s) (p_Length (block_proof d b))) = p_digest (block_proof d b)) /\
  (forall G, Z.of_nat (length G) = domain_Length d ->
     (forall b x, first <= b <= last -> Z.of_nat (length x) = p_Length (block_proof d b) -> md5 x = p_digest (block_proof d b) ->
        x = span G (b * s) (p_Length (block_proof d b))) -> out = span G start len).
Proof.
  intros Hw Hs0 Hl0 Hle s first last Hlen Hrun. pose proof (verify_all _ _ _ _ _ _ _ _ _ Hw Hlen Hrun) as Hall.
  assert (Hs : 0 < s) by (pose proof (wd_slice _ Hw); unfold s, domain_SliceSize; lia).
  assert (Hfirst : 0 <= first) by (apply Z.div_pos; lia).
  assert (Hspan : forall F, Z.of_nat (length F) = domain_Length d ->
    (forall i block, solved !! i = Some block -> let n := p_Length (block_proof d (first + Z.of_nat i)) in
       take (Z.to_nat n) block = span F ((first + Z.of_nat i) * s) n) -> out = span F start len).
  { intros F HF Hb. replace len with (start + len - start) by lia.
    refine (verify_blocks_span md5 d first last start (start + len) solved F w w' out Hw Hs0 _ Hle HF eq_refl eq_refl Hlen _ Hrun); [lia|].
    intros i block Hi _. by apply Hb. }
  assert (Hn : forall i block, solved !! i = Some block -> let n := p_Length (block_proof d (first + Z.of_nat i)) in
    0 <= n <= s /\ (first + Z.of_nat i) * s + n <= domain_Length d /\ Z.of_nat (length (take (Z.to_nat n) block)) = n).
  { intros i block Hi n. destruct (Hall i block Hi) as (Hb & Hbl & _). pose proof (block_proof_length d _ Hw Hb) as [Hp1 Hp2].
    fold s in Hp1, Hp2, Hbl. fold n in Hp1, Hp2. rewrite length_take. lia. }
  split.
  - assert (Hf : Forall (fun b => Z.of_nat (length b) = s) solved).
    { apply list.Forall_forall. intros block [i Hi]%list_elem_of_lookup. by destruct (Hall i block Hi) as (_ & ? & _). }
    assert (Hfile : forall i block, solved !! i = Some block -> let n := p_Length (block_proof d (first + Z.of_nat i)) in
      span (file_of (domain_Length d) first s solved) ((first + Z.of_nat i) * s) n = take (Z.to_nat n) block).
    { intros i block Hi n. destruct (Hn i block Hi) as (? & ? & _). by apply file_of_block. }
    exists (file_of (domain_Length d) first s solved). rewrite file_of_length by lia. split; [done|]. split.
    + apply Hspan; [rewrite file_of_length by lia; done|]. intros i block Hi. symmetry. by apply Hfile.
    + intros b Hb. destruct (lookup_lt_is_Some_2 solved (Z.to_nat (b - first))) as [block Hi]; [lia|].
      specialize (Hfile _ _ Hi). destruct (Hall _ _ Hi) as (_ & _ & Hm). replace (first + Z.of_nat (Z.to_nat (b - first))) with b in * by lia.
      cbv zeta in Hfile. by rewrite Hfile.
  - intros G HG Hbind. apply Hspan; [done|]. intros i block Hi. destruct (Hn i block Hi) as (_ & _ & Hbl).
    destruct (Hall i block Hi) as (_ & _ & Hm). apply lookup_lt_Some in Hi. apply Hbind; [lia|done|done].
Qed.

(** What a repair that succeeds serves. *)
Lemma repair_served r req : forall index idx w res, NewPAR2ProofDomain index idx = Some (Proof_ req) -> (RepairSegment md5 r req w).2 = Ok res ->
     let s := g_SliceSize (Geometry req) in
     exists target F start, FileByNZBIndex (Geometry req) (r_NZBFileIndex req) = Some target /\
       let len := Z.of_nat (length (r_Data res)) in
       let touched b := start / s <= b <= (start + len - 1) / s in
       0 <= start /\ 0 < len /\ start + len <= g_Length target /\
       0 <= BytesRead res <= MaxBytes (Budget req) /\ r_Blocks res = (start + len - 1) / s - start / s + 1 /\ r_Blocks res <= MaxPAR2UnknownBlocks /\
       Z.of_nat (length F) = g_Length target /\ r_Data res = span F start len /\
       (forall b, touched b -> md5 (span F (b * s) (p_Length (block_proof (Proof_ req) b))) = p_digest (block_proof (Proof_ req) b)) /\
       (forall G, Z.of_nat (length G) = g_Length target ->
          (forall b x, touched b -> Z.of_nat (length x) = p_Length (block_proof (Proof_ req) b) ->
             md5 x = p_digest (block_proof (Proof_ req) b) -> x = span G (b * s) (p_Length (block_proof (Proof_ req) b))) ->
          r_Data res = span G start len).
Proof.
  intros index idx w res Hd%NewPAR2ProofDomain_wf Hres s.
  destruct (RepairSegment md5 r req w) as [w' res'] eqn:Hrun. cbn [snd] in Hres. subst res'.
  unfold RepairSegment in Hrun. destruct r as [r|]; [|done]. calls Hrun. bool_hyps. rename Heqo0 into Ht.
  apply (measure_within (Budget req)) in Hc0 as (Ha & Hs0 & Hl0 & Hle); [|split; cbn; [done|]; unfold Enabled in *; bool_hyps; lia].
  eapply repair_span_ok in Hrun as (_ & Hbytes & Hblocks & Hmax & Hlen & solved & v1 & v2 & Hsolved & Hv); [|done..|lia].
  assert (Es : s = domain_SliceSize (Proof_ req)) by done. assert (El : g_Length p0 = domain_Length (Proof_ req)) by done.
  fold s in Hv, Hblocks, Hsolved. rewrite Es in *. rewrite El in *.
  destruct (verified_file _ _ _ _ _ _ _ Hd Hs0 Hl0 Hle Hsolved Hv) as [(F & HF & Hout & Hm) Hbind].
  exists p0, F, z. split; [done|]. cbv zeta. rewrite Hlen, El. split_and!; try done; try lia.
Qed.

(** Bytes that are a span of a file in which every block they touch has the recorded hash;
    so they are that span of any file whose blocks are the only ones with these hashes. *)
Definition verified_span (d : PAR2ProofDomain) (start : Z) (data : Prelude.bytes) : Prop :=
  let s := domain_SliceSize d in let len := Z.of_nat (length data) in
  let touched b := start / s <= b <= (start + len - 1) / s in
  0 <= start /\ 0 < len /\ start + len <= domain_Length d /\
  exists F, Z.of_nat (length F) = domain_Length d /\ data = span F start len /\
    (forall b, touched b -> md5 (span F (b * s) (p_Length (block_proof d b))) = p_digest (block_proof d b)) /\
    (forall G, Z.of_nat (length G) = domain_Length d ->
       (forall b x, touched b -> Z.of_nat (length x) = p_Length (block_proof d b) -> md5 x = p_digest (block_proof d b) ->
          x = span G (b * s) (p_Length (block_proof d b))) -> data = span G start len).

Lemma repair_verified_span r req index idx w res : NewPAR2ProofDomain index idx = Some (Proof_ req) ->
  (RepairSegment md5 r req w).2 = Ok res -> exists start, verified_span (Proof_ req) start (r_Data res).
Proof.
  intros Hd Hres. destruct (repair_served r req index idx w res Hd Hres) as (target & F & start & Ht & H1 & H2 & H3 & _ & _ & _ & H4 & H5 & H6 & H7).
  assert (Hg : g_Length target = domain_Length (Proof_ req) /\ g_SliceSize (Geometry req) = domain_SliceSize (Proof_ req)).
  { unfold RepairSegment in Hres. destruct r as [r|]; [|done]. destruct (negb _); [done|]. destruct (Now req); [|done].
    destruct (_ <=? 0); [done|]. rewrite Ht in Hres. destruct (negb (domain_Length _ =? _)) eqn:E1; [done|].
    destruct (negb (domain_SliceSize _ =? _)) eqn:E2; [done|]. bool_hyps. done. }
  destruct Hg as [Hg1 Hg2]. rewrite Hg1, Hg2 in *. exists start. split_and!; try done. exists F. split_and!; done.
Qed.

(** C2. A repair serves nothing that was not checked, and never reports another error.
    What it fails with is the context's own error or an abstention.  When it succeeds,
    the request's file is in the recovery set, the bytes read stay within the budget, at
    most 256 blocks were rebuilt, and the bytes it gives are the span it measured of
    some file of the described length in which every block the span touches has the
    hash the proof domain records; so they are the span of the original file whenever
    no other block has the hash of one of its blocks. *)
Theorem repair_verified r req :
  (forall w e, (RepairSegment md5 r req w).2 = Err e -> expected (W := W) e) /\
  (forall index idx w res, NewPAR2ProofDomain index idx = Some (Proof_ req) -> (RepairSegment md5 r req w).2 = Ok res ->
     let s := g_SliceSize (Geometry req) in
     exists target F start, FileByNZBIndex (Geometry req) (r_NZBFileIndex req) = Some target /\
       let len := Z.of_nat (length (r_Data res)) in
       let touched b := start / s <= b <= (start + len - 1) / s in
       0 <= start /\ 0 < len /\ start + len <= g_Length target /\
       0 <= BytesRead res <= MaxBytes (Budget req) /\ r_Blocks res = (start + len - 1) / s - start / s + 1 /\ r_Blocks res <= MaxPAR2UnknownBlocks /\
       Z.of_nat (length F) = g_Length target /\ r_Data res = span F start len /\
       (forall b, touched b -> md5 (span F (b * s) (p_Length (block_proof (Proof_ req) b))) = p_digest (block_proof (Proof_ req) b)) /\
       (forall G, Z.of_nat (length G) = g_Length target ->
          (forall b x, touched b -> Z.of_nat (length x) = p_Length (block_proof (Proof_ req) b) ->
             md5 x = p_digest (block_proof (Proof_ req) b) -> x = span G (b * s) (p_Length (block_proof (Proof_ req) b))) ->
          r_Data res = span G start len)).
Proof.
  split; [|apply repair_served].
  intros w e He. pose proof (repair_errs md5 r req w) as Hr. by rewrite He in Hr.
Qed.

End Theorem_.

(** ** The numbering *)

Lemma rfold_prefix {E S A} (f : S -> A -> result E S) (P : list A -> S -> Prop) l :
  (forall pre x s s', P pre s -> f s x = Ok s' -> P (pre ++ [x]) s') ->
  forall s s', P [] s -> rfold f s l = Ok s' -> P l s'.
Proof.
  intros Hf. assert (Hg : forall post pre s s', P pre s -> rfold f s post = Ok s' -> P (pre ++ post) s').
  { induction post as [|x post IH]; intros pre s s' Hp Hr; cbn [rfold] in Hr.
    - injection Hr as <-. by rewrite app_nil_r.
    - apply rbind_ok in Hr as (s1 & H1 & H2). replace (pre ++ x :: post) with ((pre ++ [x]) ++ post) by by rewrite <-app_assoc.
      by eapply IH, H2; eapply Hf. }
  intros s s'. by apply (Hg l []).
Qed.

(** The post a file of the recovery set is matched to. *)
Definition matched_to (matches : list PAR2FileMatch) (id : Prelude.bytes) (i : Z) : Prop :=
  exists m, m ∈ matches /\ FileID (Desc m) = id /\ id <> [] /\ NZBFileIdx m = i /\ 0 <= i.

Lemma matched_spec matches m : rfold matched ∅ matches = Ok m -> forall id i, m !! id = Some i <-> matched_to matches id i.
Proof.
  intros Hr. refine (rfold_prefix matched (fun pre m => forall id i, m !! id = Some i <-> matched_to pre id i) _ _ _ _ _ Hr); clear Hr m.
  2: { intros id i. rewrite lookup_empty. split; [done|]. by intros (m & ?%not_elem_of_nil & _). }
  intros pre x m m' Hm Hx id i. unfold matched in Hx.
  assert (Hsnoc : matched_to (pre ++ [x]) id i <-> matched_to pre id i \/ (FileID (Desc x) = id /\ id <> [] /\ NZBFileIdx x = i /\ 0 <= i)).
  { split.
    - intros (y & [Hy|Hy%list_elem_of_singleton]%elem_of_app & Hr); [left; by exists y|right; by subst].
    - intros [(y & Hy & Hr)|Hr]; [exists y; split; [apply elem_of_app; by left|done]|exists x; split; [apply elem_of_app; right; left|done]]. }
  rewrite Hsnoc. destruct ((NZBFileIdx x <? 0) || bool_decide (FileID (Desc x) = [])) eqn:E.
  - injection Hx as <-. rewrite Hm. apply orb_true_iff in E as [E|E]; bool_hyps; split; intuition (congruence || lia || auto).
  - bool_hyps. destruct (m !! FileID (Desc x)) as [prior|] eqn:Ep.
    + destruct (Z.eqb_spec prior (NZBFileIdx x)) as [->|]; [|done]. cbn [negb] in Hx. injection Hx as <-.
      rewrite lookup_insert_Some, Hm. apply Hm in Ep. split; [naive_solver congruence|]. intros [Hp|(<- & ? & <- & ?)]; [|by left].
      destruct (decide (FileID (Desc x) = id)) as [<-|]; [left|by right]. split; [done|]. apply Hm in Ep, Hp. congruence.
    + injection Hx as <-. rewrite lookup_insert_Some, Hm. split; [intros [[<- <-]|[? ?]]; [right|by left]; split_and!; (done || lia)|].
      intros [Hp|(<- & ? & <- & ?)]; [|by left]. destruct (decide (FileID (Desc x) = id)) as [<-|]; [|by right].
      apply Hm in Hp. congruence.
Qed.

(** Files numbered one after the other, from block [n] to block [stop]. *)
Fixpoint numbered (s n : Z) (files : list PAR2GeometryFile) (stop : Z) : Prop :=
  match files with
  | [] => n = stop
  | f :: files => FirstBlock f = n /\ 0 < g_Length f /\ Blocks f = block_count_of (g_Length f) s /\ numbered s (n + Blocks f) files stop
  end.

Lemma numbered_app s n a b stop : numbered s n (a ++ b) stop <-> exists mid, numbered s n a mid /\ numbered s mid b stop.
Proof.
  revert n. induction a as [|f a IH]; intros n; cbn [app numbered]; [naive_solver|]. rewrite IH. naive_solver.
Qed.

Lemma block_count_bounds len s : 0 < s -> 0 < len -> 0 < block_count_of len s /\ (block_count_of len s - 1) * s < len <= block_count_of len s * s.
Proof.
  intros Hs Hl. pose proof (block_count_div len s Hs Hl) as Hd. assert (H0 : 0 < block_count_of len s) by (apply Hd; lia).
  split; [done|]. split; [apply Hd; lia|]. destruct (Z.le_gt_cases len (block_count_of len s * s)) as [|Hgt]; [done|].
  assert (0 <= block_count_of len s < block_count_of len s) by (apply Hd; lia). lia.
Qed.

Lemma numbered_bounds s n files stop : 0 < s -> numbered s n files stop ->
  n <= stop /\ Forall (fun f => n <= FirstBlock f /\ 0 < Blocks f /\ FirstBlock f + Blocks f <= stop) files.
Proof.
  intros Hs. revert n. induction files as [|f files IH]; intros n; cbn [numbered]; [intros ->; split; [lia|constructor]|].
  intros (<- & Hl & Hb & [Hle Hf]%IH).
  assert (0 < Blocks f) by (rewrite Hb; by apply block_count_bounds).
  split; [lia|]. constructor; [lia|]. eapply Forall_impl; [exact Hf|]. cbv beta. lia.
Qed.

(** Every block of the numbering lies in exactly one file. *)
Lemma numbered_block s n files stop i : 0 < s -> numbered s n files stop -> n <= i < stop ->
  exists pre f post, files = pre ++ f :: post /\ FirstBlock f <= i < FirstBlock f + Blocks f /\
    forall g, g ∈ pre ++ post -> ~ FirstBlock g <= i < FirstBlock g + Blocks g.
Proof.
  intros Hs. revert n. induction files as [|f files IH]; intros n; cbn [numbered]; [lia|]. intros (<- & Hl & Hb & Hn) Hi.
  pose proof (numbered_bounds _ _ _ _ Hs Hn) as [_ Hf]. rewrite list.Forall_forall in Hf.
  destruct (decide (i < FirstBlock f + Blocks f)) as [Hlt|Hge].
  - exists [], f, files. split_and!; [done|lia|lia|]. intros g Hg%Hf. lia.
  - destruct (IH _ Hn ltac:(lia)) as (pre & g & post & -> & Hg & Hu). exists (f :: pre), g, post. split_and!; [done|lia|lia|].
    intros h [->|Hh]%list.elem_of_cons; [lia|by apply Hu].
Qed.

Definition lengths (files : list PAR2GeometryFile) : Z := foldr (fun f n => g_Length f + n) 0 files.

Lemma numbered_lengths s n files stop : 0 < s -> numbered s n files stop -> 0 <= lengths files <= (stop - n) * s.
Proof.
  intros Hs. revert n. induction files as [|f files IH]; intros n; cbn [numbered lengths foldr]; [intros ->; lia|].
  intros (_ & Hl & Hb & Hn%IH). fold (lengths files).
  assert (g_Length f <= Blocks f * s) by (rewrite Hb; by apply block_count_bounds).
  nia.
Qed.

Lemma PayloadBytes_sum files : Forall (fun f => 0 < g_Length f) files -> forall acc, 0 <= acc -> acc + lengths files <= maxInt64 ->
  fold_left (fun sum f => i64 (sum + g_Length f)) files acc = acc + lengths files.
Proof.
  intros Hp. induction Hp as [|f files Hf Hp IH]; intros acc Ha Hm; cbn [fold_left lengths foldr] in *; [lia|].
  fold (lengths files) in *. assert (0 <= lengths files).
  { clear -Hp. unfold lengths. induction Hp; cbn [foldr]; lia. }
  rewrite i64_small by (unfold is_i64, minInt64; lia). rewrite IH; lia.
Qed.

(** A file of the numbering is a described member of the set and is matched. *)
Definition member (info : PAR2Info) (matches : list PAR2FileMatch) (f : PAR2GeometryFile) : Prop :=
  exists desc, descriptions info !! g_FileID f = Some desc /\ Length desc = g_Length f /\ 0 < g_Length f /\
    matched_to matches (g_FileID f) (g_NZBFileIndex f).

Lemma matched_total matches : (forall id i j, matched_to matches id i -> matched_to matches id j -> i = j) ->
  exists m, rfold matched ∅ matches = Ok m.
Proof.
  intros Hc. assert (Hg : forall post pre m, matches = pre ++ post -> rfold matched ∅ pre = Ok m -> exists m', rfold matched m post = Ok m').
  { induction post as [|x post IH]; intros pre m -> Hm; cbn [rfold]; [by eexists|].
    assert (Hx : exists m1, matched m x = Ok m1).
    { unfold matched. destruct (_ || _) eqn:E; [by eexists|]. bool_hyps. destruct (m !! FileID (Desc x)) as [prior|] eqn:Ep; [|by eexists].
      apply (matched_spec _ _ Hm) in Ep as (y & Hy & ? & ? & ? & ?). destruct (Z.eqb_spec prior (NZBFileIdx x)) as [|Hne]; [by eexists|].
      exfalso. apply Hne, (Hc (FileID (Desc x))); [exists y|exists x]; split_and!; try done; apply elem_of_app; [by left|right; left]. }
    destruct Hx as [m1 Hx]. rewrite Hx. cbn [rbind]. apply (IH (pre ++ [x])); [by rewrite <-app_assoc|].
    rewrite rfold_app, Hm. cbn [rbind rfold]. by rewrite Hx. }
  by apply (Hg matches [] ∅).
Qed.

Section Numbering.
Context (info : PAR2Info) (matches : list PAR2FileMatch) (m : gmap Prelude.bytes Z).
Hypothesis Hm : forall id i, m !! id = Some i <-> matched_to matches id i.
Hypothesis Hs : 0 < SliceSize info.

(** The state after the files so far. *)
Definition numbering_of (files : list PAR2GeometryFile) (stop : Z) : numbering :=
  MkNumbering files (list_to_set (map g_NZBFileIndex files)) stop.

Lemma number_file_ok files stop id n' : number_file (SliceSize info) (descriptions info) m (numbering_of files stop) id = Ok n' <->
  exists f, n' = numbering_of (files ++ [f]) (stop + Blocks f) /\ g_FileID f = id /\ member info matches f /\
    g_NZBFileIndex f ∉ map g_NZBFileIndex files /\ FirstBlock f = stop /\ Blocks f = block_count_of (g_Length f) (SliceSize info) /\
    stop + Blocks f <= MaxPAR2TotalBlocks.
Proof.
  unfold number_file. cbn [n_Files usedNZB next numbering_of].
  assert (Eset : forall i, list_to_set (map g_NZBFileIndex files ++ [i]) =@{gset Z} {[i]} ∪ list_to_set (map g_NZBFileIndex files)).
  { intros i. rewrite list_to_set_app_L. cbn. set_solver. }
  split.
  - intros Hn. destruct (descriptions info !! id) as [desc|] eqn:Ed; [|done]. destruct (Z.leb_spec (Length desc) 0); [done|].
    destruct (m !! id) as [idx|] eqn:Ei; [|done]. destruct (bool_decide _) eqn:Eu; [done|]. destruct (_ || _) eqn:Eb; [done|].
    injection Hn as <-. bool_hyps.
    exists (MkGeometryFile id (Length desc) idx stop (Z.quot (Length desc - 1) (SliceSize info) + 1)). unfold numbering_of. rewrite map_app. cbn [map]. rewrite Eset.
    split_and!; [reflexivity|done|exists desc; split_and!; try done; by apply Hm| |done|done|cbn; lia].
    cbn. by rewrite elem_of_list_to_set in Eu.
  - intros (f & -> & <- & (desc & Hd & Hl & Hp & Hi) & Hu & Hf & Hb & Hle). apply Hm in Hi. rewrite Hd, Hi.
    pose proof (block_count_bounds (g_Length f) (SliceSize info) Hs Hp) as [Hc _]. rewrite Hl.
    change (Z.quot (g_Length f - 1) (SliceSize info) + 1) with (block_count_of (g_Length f) (SliceSize info)). rewrite <-Hb in *.
    destruct (Z.leb_spec (g_Length f) 0); [lia|]. rewrite bool_decide_false by by rewrite elem_of_list_to_set.
    destruct (Z.leb_spec (Blocks f) 0); [lia|]. destruct (Z.ltb_spec (MaxPAR2TotalBlocks - Blocks f) stop); [lia|]. cbn [orb].
    unfold numbering_of. rewrite map_app. cbn [map]. rewrite Eset. do 2 f_equal. rewrite <-Hf. by destruct f.
Qed.

Lemma number_files_ok ids n : rfold (number_file (SliceSize info) (descriptions info) m) (numbering_of [] 0) ids = Ok n <->
  exists files stop, n = numbering_of files stop /\ map g_FileID files = ids /\ Forall (member info matches) files /\
    NoDup (map g_NZBFileIndex files) /\ numbered (SliceSize info) 0 files stop /\ stop <= MaxPAR2TotalBlocks.
Proof.
  revert n. induction ids as [|id ids IH] using rev_ind; intros n.
  - cbn [rfold]. split.
    + intros [= <-]. exists [], 0. split_and!; try done; constructor.
    + intros (files & stop & -> & Hids%map_eq_nil & _ & _ & Hn & _). subst. cbn in Hn. by subst.
  - rewrite rfold_app, rbind_ok. setoid_rewrite IH. cbn [rfold]. split.
    + intros (n0 & (files & stop & -> & <- & Hf & Hd & Hn & Hle) & (n1 & Hx & [= ->])%rbind_ok).
      apply number_file_ok in Hx as (f & -> & <- & Hf' & Hu & Hfb & Hb & Hle'). exists (files ++ [f]), (stop + Blocks f).
      rewrite !map_app. split_and!; try done.
      * apply Forall_app. split; [done|]. by constructor.
      * apply NoDup_app. split_and!; [done| |apply NoDup_singleton]. intros i Hi ->%list_elem_of_singleton. done.
      * apply numbered_app. exists stop. split; [done|]. destruct Hf' as (? & _ & _ & ? & _). cbn. done.
    + intros (files & stop & -> & Hids & Hf & Hd & Hn & Hle).
      destruct files as [|f files _] using rev_ind; [by destruct ids|]. rewrite !map_app in *. apply app_inj_tail in Hids as [<- <-].
      apply Forall_app in Hf as [Hf1 Hf2]. apply list.Forall_cons in Hf2 as [Hf2 _]. apply NoDup_app in Hd as (Hd & Hu & _).
      apply numbered_app in Hn as (mid & Hn1 & Hn2). cbn [numbered] in Hn2. destruct Hn2 as (Hfb & Hl & Hb & <-).
      exists (numbering_of files mid). pose proof (block_count_bounds _ _ Hs Hl) as [Hc _]. rewrite <-Hb in Hc. split.
      * exists files, mid. split_and!; try done. lia.
      * apply rbind_ok. eexists. split; [|reflexivity]. apply number_file_ok. exists f. split_and!; try done.
        intros Hi. apply (Hu _ Hi). left.
Qed.

End Numbering.

Lemma find_post files f : NoDup (map g_NZBFileIndex files) -> f ∈ files -> find (fun g => g_NZBFileIndex g =? g_NZBFileIndex f) files = Some f.
Proof.
  induction files as [|g files IH]; cbn; [by intros _ ?%not_elem_of_nil|]. intros [Hn Hd]%list.NoDup_cons [->|Hf]%list.elem_of_cons.
  - by rewrite Z.eqb_refl.
  - destruct (Z.eqb_spec (g_NZBFileIndex g) (g_NZBFileIndex f)) as [E|]; [|by apply IH].
    exfalso. apply Hn. rewrite E. by apply list_elem_of_In, in_map, list_elem_of_In.
Qed.

Lemma numbered_payload s stop geo : 0 < s -> numbered s 0 (g_Files geo) stop -> stop * s <= maxInt64 -> PayloadBytes geo = lengths (g_Files geo).
Proof.
  intros Hs Hn Hm. pose proof (numbered_lengths _ _ _ _ Hs Hn). unfold PayloadBytes. rewrite PayloadBytes_sum; [lia| |lia|lia].
  assert (Hf : forall l n, numbered s n l stop -> Forall (fun f => 0 < g_Length f) l); [|by eapply Hf].
  induction l as [|f l IH]; intros n; cbn [numbered]; [constructor|].
  intros (_ & Hl & _ & Hn2). constructor; [exact Hl|]. eapply IH, Hn2.
Qed.

Lemma BuildPAR2Geometry_ok info matches geo : BuildPAR2Geometry info matches = Ok geo <->
  usable (SliceSize info) /\ RecoverySetIDs info <> [] /\ RecoverySetID info <> [] /\
  (forall id i j, matched_to matches id i -> matched_to matches id j -> i = j) /\
  g_SliceSize geo = SliceSize info /\ g_RecoverySetID geo = RecoverySetID info /\
  map g_FileID (g_Files geo) = RecoverySetIDs info /\ Forall (member info matches) (g_Files geo) /\
  NoDup (map g_NZBFileIndex (g_Files geo)) /\
  numbered (SliceSize info) 0 (g_Files geo) (TotalBlocks geo) /\ TotalBlocks geo <= MaxPAR2TotalBlocks.
Proof.
  unfold BuildPAR2Geometry, usable, TotalBlocks. split.
  - destruct (_ || _ || _) eqn:E; [done|]. destruct (bool_decide (RecoverySetIDs info = [])) eqn:E1; [done|].
    destruct (bool_decide (RecoverySetID info = [])) eqn:E2; [done|]. bool_hyps.
    intros (m & Hm & (n & Hn & Hr)%rbind_ok)%rbind_ok. pose proof (matched_spec _ _ Hm) as Hspec.
    apply (number_files_ok info matches m Hspec) in Hn as (files & stop & -> & Hids & Hf & Hd & Hn & Hle); [|lia].
    cbn [next numbering_of n_Files] in Hr. destruct (Z.leb_spec stop 0); [done|]. injection Hr as <-.
    cbn [g_SliceSize g_RecoverySetID g_Files g_total]. split_and!; try done. intros id i j Hi%Hspec Hj%Hspec. congruence.
  - intros ((Hs & Hs4 & Hsm) & Hids & Hset & Hc & Hgs & Hgr & Hmap & Hf & Hd & Hn & Hle).
    destruct (Z.leb_spec (SliceSize info) 0); [lia|]. rewrite Hs4, Z.eqb_refl. destruct (Z.ltb_spec MaxPAR2SliceBytes (SliceSize info)); [lia|].
    rewrite !bool_decide_false by done. cbn [orb negb]. destruct (matched_total _ Hc) as [m Hm]. rewrite Hm. cbn [rbind].
    destruct (number_files_ok info matches m (matched_spec _ _ Hm) Hs (RecoverySetIDs info) (numbering_of (g_Files geo) (g_total geo))) as [_ Hok].
    change (MkNumbering [] ∅ 0) with (numbering_of [] 0). rewrite Hok by (exists (g_Files geo), (g_total geo); done). cbn [rbind next numbering_of n_Files].
    destruct (g_Files geo) as [|f files] eqn:Eg; [by destruct (RecoverySetIDs info)|].
    pose proof (numbered_bounds _ _ _ _ Hs Hn) as [_ Hb]. apply list.Forall_cons in Hb as [Hb _].
    destruct (Z.leb_spec (g_total geo) 0); [lia|]. rewrite <-Hgs, <-Hgr, <-Eg. by destruct geo.
Qed.

(** The numbering is the only right one.  A geometry is given exactly when the
    slice size is usable, the set has an identity and members, no file is matched to two
    posts, and each member has a description and a post of its own; then it lists the
    members in the order of the set, each starting at the block where the one before it
    stops, within the field's ceiling.  Every block up to the total lies in exactly one
    file, and the payload sum does not overflow. *)
Theorem geometry_numbers_blocks info matches geo :
  (BuildPAR2Geometry info matches = Ok geo <->
     usable (SliceSize info) /\ RecoverySetIDs info <> [] /\ RecoverySetID info <> [] /\
     (forall id i j, matched_to matches id i -> matched_to matches id j -> i = j) /\
     g_SliceSize geo = SliceSize info /\ g_RecoverySetID geo = RecoverySetID info /\
     map g_FileID (g_Files geo) = RecoverySetIDs info /\ Forall (member info matches) (g_Files geo) /\
     NoDup (map g_NZBFileIndex (g_Files geo)) /\
     numbered (SliceSize info) 0 (g_Files geo) (TotalBlocks geo) /\ TotalBlocks geo <= MaxPAR2TotalBlocks) /\
  (BuildPAR2Geometry info matches = Ok geo ->
     (forall i, 0 <= i < TotalBlocks geo -> exists pre f post, g_Files geo = pre ++ f :: post /\
        FirstBlock f <= i < FirstBlock f + Blocks f /\ forall g, g ∈ pre ++ post -> ~ FirstBlock g <= i < FirstBlock g + Blocks g) /\
     (forall f, f ∈ g_Files geo -> FileByNZBIndex geo (g_NZBFileIndex f) = Some f) /\
     PayloadBytes geo = lengths (g_Files geo) /\ lengths (g_Files geo) <= TotalBlocks geo * g_SliceSize geo).
Proof.
  assert (Hiff := BuildPAR2Geometry_ok info matches geo). split; [exact Hiff|].
  intros Hg%Hiff. destruct Hg as (Hs & _ & _ & _ & Hss & _ & _ & _ & Hd & Hn & Hle). pose proof Hs as (Hs0 & _ & Hsm). rewrite Hss.
  split_and!.
  - intros i Hi. by apply (numbered_block _ _ _ _ _ Hs0 Hn).
  - intros f Hf. unfold FileByNZBIndex. by apply find_post.
  - apply (numbered_payload (SliceSize info) (TotalBlocks geo)); try done. pose proof (numbered_bounds _ _ _ _ Hs0 Hn) as [H0 _].
    change MaxPAR2SliceBytes with 67108864 in Hsm. change MaxPAR2TotalBlocks with 32768 in Hle. change maxInt64 with 9223372036854775807. nia.
  - apply (numbered_lengths _ _ _ _ Hs0) in Hn. lia.
Qed.

(** ** Where the slices come from *)

Section OneVolume.
Context {W : Type} `{Context W} (r : PAR2RepairReader (W := W)) (geo : PAR2Geometry) (need : Z).
Hypothesis Hneed : 0 < need.

(** A volume that was opened and offered so many exponents by itself. *)
Definition offers (v : Z) (src : ByteSource W) (exps : list Z) : Prop :=
  (exists w, (RecoverySource r v w).2 = Ok src) /\
  (exists w, (PAR2RecoveryExponents (Some src) (g_RecoverySetID geo) (g_SliceSize geo) need w).2 = Ok exps).

(** Nothing is wanted, or all that is wanted is of one volume. *)
Definition one_volume (c : choice (W := W)) : Prop :=
  (c_want c = ∅ /\ forall i, default [] (perVolume c !! i) = []) \/
  exists v src exps, offers v src exps /\ need <= Z.of_nat (size (c_want c)) /\
    perVolume c !! v = Some exps /\ (forall i, i <> v -> default [] (perVolume c !! i) = []) /\ c_sources c !! v = Some src.

Lemma want_fresh exps chosen (want : gset Z) : NoDup exps -> (forall e, e ∈ exps -> e ∉ want) ->
  Z.of_nat (size want) + Z.of_nat (length exps) = need ->
  want_exponents need want chosen exps = (list_to_set exps ∪ want, chosen ++ exps).
Proof.
  revert want chosen. induction exps as [|e exps IH]; intros want chosen Hn Hw Hs; cbn [want_exponents list_to_set foldr].
  { rewrite app_nil_r. f_equal. set_solver. }
  apply list.NoDup_cons in Hn as [He Hn]. cbn [length] in Hs. destruct (Z.leb_spec need (Z.of_nat (size want))); [lia|].
  assert (He' : e ∉ want) by (apply Hw; left). rewrite bool_decide_false by done. rewrite IH.
  - rewrite <-app_assoc. f_equal. cbn. set_solver.
  - done.
  - intros x Hx [->%elem_of_singleton|Hx']%elem_of_union; [done|]. by apply (Hw x); [right|].
  - rewrite size_union by set_solver. rewrite size_singleton. lia.
Qed.

Lemma open_one_volume c i w w' c' : one_volume c -> open_volume r geo need c i w = (w', Ok c') -> one_volume c'.
Proof.
  intros Hc Ho. unfold open_volume in Ho. destruct (Z.leb_spec need (Z.of_nat (size (c_want c)))); [by injection Ho as <- <-|].
  destruct Hc as [[Hw Hp]|(v & src & exps & _ & Hfull & _)]; [|lia]. calls Ho; [|left|left; done].
  - right. exists i, a, a1. assert (Hex : (PAR2RecoveryExponents (Some a) (g_RecoverySetID geo) (g_SliceSize geo) need w1).2 = Ok a1) by by rewrite Hc1.
    pose proof (exponents_sound _ _ _ _ _ _ Hex) as [Hnd Hlen]. cbn [c_want perVolume c_sources c_acct] in *.
    rewrite Hw, Hp in Heqp. rewrite (want_fresh a1 [] ∅) in Heqp; [|done|set_solver|rewrite size_empty; lia]. injection Heqp as <- <-.
    split; [split; [exists w0; by rewrite Hc0|by exists w1]|]. cbn [c_want perVolume c_sources]. split_and!.
    + rewrite size_union by set_solver. rewrite size_list_to_set by done. lia.
    + by rewrite lookup_insert_eq.
    + intros j Hj. by rewrite lookup_insert_ne.
    + by rewrite lookup_insert_eq.
  - destruct a1; [done|]. match goal with E : Ok _ = Ok c' |- _ => injection E as <- end. by split.
Qed.

Lemma collected_from a w w' slices a' : collectRecoverySlices r geo need a w = (w', Ok (slices, a')) ->
  exists v src exps, offers v src exps /\ Z.of_nat (length slices) = need /\
    Forall (fun s => Exponent s ∈ exps /\ exists budget w1 found,
      (ScanPAR2RecoverySlices (Some src) (g_RecoverySetID geo) (g_SliceSize geo) (list_to_set exps) budget w1).2 = Ok found /\ s ∈ found) slices.
Proof.
  unfold collectRecoverySlices. intros Hc. calls Hc. bool_hyps. rename a0 into vols, a1 into c.
  assert (Hone : one_volume c).
  { refine (wfold_inv _ (fun _ c => one_volume c) _ _ _ _ _ _ _ Hc1).
    - intros pre i post c0 v v' c1 _ H0 Ho. by eapply open_one_volume.
    - left. split; [done|]. intros i. cbn [perVolume]. by rewrite lookup_empty. }
  destruct Hone as [[Hw _]|(v & src & exps & Hof & _ & Hv & Hno & Hs)]; [rewrite Hw, size_empty in Heqb0; lia|].
  exists v, src, exps. split; [done|]. split; [done|].
  refine (wfold_inv _ (fun _ out => Forall _ out) _ _ _ _ _ _ _ Hc2); [|constructor].
  intros pre i post out u u' out' _ Hout Hscan. unfold scan_volume in Hscan. destruct (decide (i = v)) as [->|Hi].
  - rewrite Hv in Hscan. change (default [] (Some exps)) with exps in Hscan. destruct exps as [|e es]; [by injection Hscan as <- <-|].
    calls Hscan; [|by eapply ctx_or_fails in Hscan]. rewrite Hs in *. apply Forall_app. split; [done|].
    match goal with Hf : ScanPAR2RecoverySlices _ _ _ _ ?b ?x = (_, Ok ?found) |- _ =>
      assert (Hsc : (ScanPAR2RecoverySlices (Some src) (g_RecoverySetID geo) (g_SliceSize geo) (list_to_set (e :: es)) b x).2 = Ok found) by (by rewrite Hf) end.
    pose proof (scan_sound _ _ _ _ _ _ _ Hsc) as (_ & _ & _ & Hall). rewrite list.Forall_forall in Hall. apply list.Forall_forall.
    intros s Hin. destruct (Hall s Hin) as [He _]. rewrite elem_of_list_to_set in He. split; [exact He|]. by do 3 eexists.
  - rewrite Hno in Hscan by done. by injection Hscan as <- <-.
Qed.

End OneVolume.

(** The slices of a repair are all of one volume.  Whatever the reader answers, when
    slices are collected there is one volume that offered every exponent they have by
    itself, and a scan of that volume found each of them; so volumes that hold enough
    slices together but not alone are of no use, although the wanted exponents are kept
    across them. *)
Theorem slices_of_one_volume {W} `{Context W} (r : PAR2RepairReader (W := W)) geo need a w w' slices a' : 0 < need ->
  collectRecoverySlices r geo need a w = (w', Ok (slices, a')) ->
  exists v src exps, offers r geo need v src exps /\ NoDup exps /\ Z.of_nat (length exps) = need /\ Z.of_nat (length slices) = need /\
    Forall (fun s => Exponent s ∈ exps /\ exists budget w1 found,
      (ScanPAR2RecoverySlices (Some src) (g_RecoverySetID geo) (g_SliceSize geo) (list_to_set exps) budget w1).2 = Ok found /\ s ∈ found) slices.
Proof.
  intros Hneed Hc. destruct (collected_from r geo need Hneed _ _ _ _ _ Hc) as (v & src & exps & Hof & Hl & Hall).
  exists v, src, exps. pose proof Hof as [_ [w1 Hex]]. apply exponents_sound in Hex as [Hn He]. by split_and!.
Qed.
