(* ===== verification/Par2RepairExact.v ===== *)
(** PAR2 repair on a post that can be repaired: internal/nntp/par2repair.go.

    Par2Repair shows that what a repair serves was checked.  Here the other half: with
    one segment lost, a recovery volume that holds enough slices and a budget that
    covers the reads, a repair gives exactly the lost segment.  Every component it is
    built of takes part: the measure pass, the volumes, the solver over GF(2^16), the
    pass over the blocks, the block proofs. *)

From Stdlib Require Import ZArith Lia.
From stdpp Require Import base list numbers strings gmap sets.
From S2P Require Import GF16 GF16Linear Par2Solver.
From S2P Require Import Prelude Outcome Bencode ContentProof LaneCandidate Text ByteSource Par2Packets Par2Recovery Par2Proof Par2Repair.

Local Open Scope Z_scope.
Local Open Scope harbor_scope.

(** ** Calls whose answers are known *)

Section Answers.
Context {W : Type}.

Lemma bind_answer {A B} (c : W -> W * A) (f : A -> W -> W * B) w a b : (c w).2 = a -> (forall w', (f a w').2 = b) -> (call_bind c f w).2 = b.
Proof. unfold call_bind. destruct (c w) as [w1 a']. cbn [snd]. intros -> Hf. apply Hf. Qed.

Lemma bind_answer' {A B} (P : B -> Prop) (c : W -> W * A) (f : A -> W -> W * B) w a : (c w).2 = a -> (forall w', P (f a w').2) -> P (call_bind c f w).2.
Proof. unfold call_bind. destruct (c w) as [w1 a']. cbn [snd]. intros -> Hf. apply Hf. Qed.

(** A loop all of whose turns succeed, with an invariant. *)
Lemma wfold_answer {S A} (f : S -> A -> W -> W * result goerror S) (P : list A -> S -> Prop) l :
  (forall pre x post s w, l = pre ++ x :: post -> P pre s -> exists s', (f s x w).2 = Ok s' /\ P (pre ++ [x]) s') ->
  forall s w, P [] s -> exists s', (wfold f s l w).2 = Ok s' /\ P l s'.
Proof.
  intros Hf. assert (Hg : forall post pre s w, l = pre ++ post -> P pre s -> exists s', (wfold f s post w).2 = Ok s' /\ P l s').
  { induction post as [|x post IH]; intros pre s w -> Hp; cbn [wfold].
    - exists s. by rewrite app_nil_r in *.
    - destruct (Hf pre x post s w eq_refl Hp) as (s1 & E1 & H1). unfold call_bind. destruct (f s x w) as [w1 r1]. cbn [snd] in E1. subst r1.
      apply (IH (pre ++ [x])); [by rewrite <-app_assoc|done]. }
  intros s w. by apply (Hg l []).
Qed.

End Answers.

(** ** The account *)

Section Account.
Context {W : Type} `{Context W}.
Context (Halive : alive W) (now : W -> W * Z) (B : PAR2RepairBudget).
Hypothesis Hclock : forall w w', (now w').2 < (now w).2 + MaxDuration B.

(** An account of this clock, started at a reading of it, with so much spent. *)
Definition account (n : Z) (a : repairAccount (W := W)) : Prop :=
  a_now a = now /\ a_budget a = B /\ a_spent a = n /\ exists w, a_deadline a = (now w).2 + MaxDuration B.

Lemma check_answer n a w : account n a -> (check a w).2 = None.
Proof.
  intros (Hn & _ & _ & w0 & Hd). unfold check. eapply bind_answer; [apply Halive|]. cbn beta iota. intros w1.
  eapply bind_answer; [reflexivity|]. intros w2. rewrite Hn, Hd. cbn [call_ret snd]. pose proof (Hclock w0 w1).
  by destruct (Z.ltb_spec (now w1).2 ((now w0).2 + MaxDuration B)); [|lia].
Qed.

Lemma check_bind {A} (k : option goerror -> W -> W * A) n a w : account n a -> exists w', call_bind (check a) k w = k None w'.
Proof.
  intros Ha. pose proof (check_answer n a w Ha) as E. unfold call_bind. destruct (check a w) as [w1 r]. cbn in E. subst r. by exists w1.
Qed.

Lemma spend_answer n a m : account n a -> 0 <= m -> n + m <= MaxBytes B -> exists a', spend a m = Ok a' /\ account (n + m) a'.
Proof.
  intros (Hn & Hb & Hs & Hd) Hm Hle. unfold spend. rewrite Hb, Hs. destruct (Z.ltb_spec m 0); [lia|].
  destruct (Z.ltb_spec (MaxBytes B - m) n); [lia|]. eexists. split; [done|]. by split_and!.
Qed.

(** ** The measure pass *)

Context (r : PAR2RepairReader (W := W)) (idx lost : Z) (count : Z) (data : Z -> Prelude.bytes).
Hypothesis Hcount : forall w, (SegmentCount r idx w).2 = Some count.
Hypothesis Hlost : 0 <= lost < count.
Hypothesis Hread : forall i w, 0 <= i < count -> i <> lost -> (ReadSegment r idx i w).2 = Ok (data i).

(** The bytes of the first segments. *)
Definition segments (n : Z) : Prelude.bytes := concat (map data (seqZ 0 n)).

Definition size_of (i : Z) : Z := Z.of_nat (length (data i)).

Definition total_of (l : list Z) : Z := sum_sizes (map size_of l).

Lemma sum_sizes_app a b : sum_sizes (a ++ b) = sum_sizes a + sum_sizes b.
Proof.
  unfold sum_sizes. rewrite fold_left_app. generalize (fold_left Z.add a 0) as n. clear. induction b as [|x b IH] using rev_ind; intros n; [cbn; lia|].
  rewrite !fold_left_app. cbn. rewrite IH. lia.
Qed.

Lemma total_of_segments n : 0 <= n -> total_of (seqZ 0 n) = Z.of_nat (length (segments n)).
Proof.
  intros _. unfold total_of, segments. generalize (seqZ 0 n) as l. clear. intros l.
  induction l as [|i l IH] using rev_ind; [done|]. rewrite !map_app, sum_sizes_app, concat_app, length_app, IH. cbn. rewrite app_nil_r. unfold size_of. lia.
Qed.

Lemma segments_split : segments count = segments lost ++ data lost ++ concat (map data (seqZ (lost + 1) (count - lost - 1))).
Proof.
  unfold segments. replace count with (lost + (1 + (count - lost - 1))) at 1 by lia.
  rewrite seqZ_app, map_app, concat_app by lia. f_equal. rewrite seqZ_app, map_app, concat_app by lia. cbn [Z.add].
  change (seqZ (0 + lost) 1) with [0 + lost]. cbn [map concat]. by rewrite app_nil_r.
Qed.

(** What the pass reads: every segment but the lost one. *)
Definition others : Z := Z.of_nat (length (segments count)) - size_of lost.

Lemma measure_answer n a w : account n a -> data lost <> [] -> n + others <= MaxBytes B ->
  exists a', (measureDamagedSegment r idx lost (Z.of_nat (length (segments count))) a w).2 =
    Ok (Z.of_nat (length (segments lost)), size_of lost, a') /\ account (n + others) a'.
Proof.
  intros Ha Hne Hle. pose proof segments_split as Hsplit. apply (f_equal length) in Hsplit. rewrite !length_app in Hsplit.
  assert (Hpos : 0 < size_of lost) by (unfold size_of; destruct (data lost); [done|cbn; lia]).
  set (read := fun i : Z => if i =? lost then 0 else size_of i).
  assert (Hsum : forall l, sum_sizes (map read l) = total_of l - (if decide (lost ∈ l) then size_of lost else 0) \/ ~ NoDup l).
  { intros l. destruct (decide (NoDup l)) as [Hn|]; [left|by right]. induction l as [|i l IH] using rev_ind; [done|].
    apply NoDup_app in Hn as (Hl & Hi & _). unfold total_of. rewrite !map_app, !sum_sizes_app. fold (total_of l). rewrite IH by done.
    assert (H1 : sum_sizes (map read [i]) = read i) by done. assert (H2 : sum_sizes (map size_of [i]) = size_of i) by done. rewrite H1, H2. unfold read.
    specialize (Hi lost). destruct (Z.eqb_spec i lost) as [->|Hne'].
    - rewrite (decide_False (P := lost ∈ l)) by (intros Hin; apply (Hi Hin); left). rewrite decide_True by (apply elem_of_app; right; left). lia.
    - destruct (decide (lost ∈ l)) as [Hin|Hin]; [rewrite decide_True by (apply elem_of_app; by left); lia|].
      rewrite decide_False; [lia|]. intros [?|?%list_elem_of_singleton]%elem_of_app; congruence. }
  unfold measureDamagedSegment. eapply bind_answer'; [apply Hcount|]. intros w1. cbn beta iota.
  destruct (Z.leb_spec count 0); [lia|]. destruct (Z.ltb_spec lost 0); [lia|]. destruct (Z.leb_spec count lost); [lia|].
  destruct (Z.leb_spec (Z.of_nat (length (segments count))) 0); [unfold size_of in *; lia|]. cbn [orb].
  assert (Hall : sum_sizes (map read (seqZ 0 count)) = others).
  { destruct (Hsum (seqZ 0 count)) as [->|Hno]; [|by destruct Hno; apply NoDup_seqZ].
    rewrite decide_True by (apply elem_of_seqZ; lia). by rewrite total_of_segments by lia. }
  assert (Hnonneg : forall l, 0 <= sum_sizes (map read l)).
  { induction l as [|i l IH] using rev_ind; [done|]. rewrite map_app, sum_sizes_app.
    assert (Hone : sum_sizes (map read [i]) = read i) by done. rewrite Hone. assert (0 <= read i) by (unfold read, size_of; destruct (i =? lost); lia). lia. }
  destruct (wfold_answer (measure_segment r idx lost)
    (fun pre m => m_sizes m = map read pre /\ m_known m = sum_sizes (map read pre) /\ account (n + m_known m) (m_acct m)) (seqZ 0 count)) with (s := MkMeasure [] 0 a) (w := w1)
    as (m & Em & Hsizes & Hknown & Hacct).
  - intros pre i post m w0 Hl (Hs & Hk & Hm). rewrite map_app, sum_sizes_app. cbn [map].
    assert (Hone : sum_sizes [read i] = read i) by done. rewrite Hone. clear Hone. unfold measure_segment.
    assert (Hi : i ∈ seqZ 0 count) by (rewrite Hl; apply elem_of_app; right; left). apply elem_of_seqZ in Hi. rewrite Z.add_0_l in Hi.
    assert (Hbound : m_known m + read i <= others).
    { rewrite <-Hall, Hl, Hk, map_app, sum_sizes_app. cbn [map]. change (read i :: map read post) with ([read i] ++ map read post).
      rewrite sum_sizes_app. assert (Hone : sum_sizes [read i] = read i) by done. specialize (Hnonneg post). lia. }
    destruct (Z.eqb_spec i lost) as [->|Hne'].
    + assert (Hr0 : read lost = 0) by (unfold read; by rewrite Z.eqb_refl). rewrite Hr0 in *. eexists. split; [reflexivity|]. cbn [m_sizes m_known m_acct]. rewrite Hs. split_and!; [done|lia|done].
    + assert (Hri : read i = size_of i) by (unfold read; by rewrite (proj2 (Z.eqb_neq i lost))). rewrite Hri in *.
      match goal with |- context [call_bind (check ?a) ?k ?w] => destruct (check_bind k _ a w Hm) as [w2 ->] end. cbn beta iota. unfold call_bind.
      pose proof (Hread i w2 Hi Hne') as Er. destruct (ReadSegment r idx i w2) as [w3 res]. cbn [snd] in Er. subst res.
      destruct (spend_answer _ _ (size_of i) Hm) as (a' & Es & Ha'); [unfold size_of; lia|lia|]. unfold size_of in Es. rewrite Es.
      eexists. split; [reflexivity|]. cbn [m_sizes m_known m_acct]. rewrite Hs. split_and!; [done|unfold size_of; lia|].
      unfold size_of in Ha'. by rewrite Z.add_assoc.
  - cbn [m_sizes m_known m_acct]. rewrite Z.add_0_r. by split_and!.
  - unfold call_bind. destruct (wfold _ _ _ w1) as [w2 res]. cbn [snd] in Em. subst res. rewrite Hknown, Hall in *. unfold others in *.
    replace (Z.of_nat (length (segments count)) - (Z.of_nat (length (segments count)) - size_of lost)) with (size_of lost) by lia.
    destruct (Z.leb_spec (size_of lost) 0); [lia|]. rewrite Hsizes.
    assert (Hstart : sum_sizes (take (Z.to_nat lost) (map read (seqZ 0 count))) = Z.of_nat (length (segments lost))).
    { replace count with (lost + (count - lost)) by lia. rewrite seqZ_app, map_app by lia.
      rewrite take_app_length' by (rewrite length_map, length_seqZ; lia).
      destruct (Hsum (seqZ 0 lost)) as [->|Hno]; [|by destruct Hno; apply NoDup_seqZ].
      rewrite decide_False by (rewrite elem_of_seqZ; lia). rewrite total_of_segments by lia. lia. }
    rewrite Hstart. unfold size_of in *. destruct (Z.ltb_spec (Z.of_nat (length (segments lost))) 0); [lia|].
    destruct (Z.ltb_spec (Z.of_nat (length (segments count))) (Z.of_nat (length (segments lost)))); [lia|].
    destruct (Z.ltb_spec (Z.of_nat (length (segments count)) - Z.of_nat (length (segments lost))) (Z.of_nat (length (data lost)))); [lia|].
    cbn [orb call_ret snd]. by exists (m_acct m).
Qed.

End Account.

(** ** The choice of slices *)

Lemma first_slices_filter (P : gset Z) held l : first_slices held (filter (fun x => x.1 ∈ P) l) = filter (fun x => x.1 ∈ P) (first_slices held l).
Proof.
  revert held. induction l as [|[e d] l IH]; intros held; [done|]. cbn [first_slices]. destruct (decide (e ∈ P)) as [He|He].
  - rewrite filter_cons_True by done. cbn [first_slices]. destruct (bool_decide (e ∈ held)); [apply IH|]. rewrite filter_cons_True by done. by rewrite IH.
  - rewrite filter_cons_False by done. destruct (bool_decide (e ∈ held)); [apply IH|]. rewrite filter_cons_False by done. rewrite IH.
    (* an exponent outside of [P] makes no difference *)
    clear IH. revert held. induction l as [|[e' d'] l IH]; intros held; [done|]. cbn [first_slices].
    destruct (decide (e' = e)) as [->|Hne].
    + rewrite (bool_decide_true (e ∈ {[e]} ∪ held)) by set_solver. destruct (bool_decide (e ∈ held)) eqn:E; [by rewrite IH|].
      rewrite filter_cons_False by done. done.
    + assert (E : bool_decide (e' ∈ {[e]} ∪ held) = bool_decide (e' ∈ held)) by (apply bool_decide_ext; set_solver). rewrite E.
      destruct (bool_decide (e' ∈ held)); [apply IH|]. destruct (decide (e' ∈ P)) as [HP|HP].
      * rewrite !filter_cons_True by done. f_equal. rewrite IH. f_equal. apply first_slices_held. set_solver.
      * rewrite !filter_cons_False by done. rewrite IH. f_equal. apply first_slices_held. set_solver.
Qed.

Lemma first_slices_nodup held l : NoDup (map fst (first_slices held l)) /\ forall e, e ∈ map fst (first_slices held l) -> e ∉ held.
Proof.
  revert held. induction l as [|[e d] l IH]; intros held; cbn [first_slices map]; [split; [constructor|by intros e ?%not_elem_of_nil]|].
  destruct (bool_decide (e ∈ held)) eqn:E; [apply IH|]. bool_hyps. destruct (IH ({[e]} ∪ held)) as [Hn Hh]. cbn [map fst]. split.
  - constructor; [|done]. intros Hin. apply (Hh e Hin). set_solver.
  - intros x [->|Hx]%list.elem_of_cons; [done|]. intros Hxh. apply (Hh x Hx). set_solver.
Qed.

Lemma filter_same (P Q : gset Z) (l : list (Z * Prelude.bytes)) : (forall x, x ∈ l -> x.1 ∈ P <-> x.1 ∈ Q) ->
  filter (fun x => x.1 ∈ P) l = filter (fun x => x.1 ∈ Q) l.
Proof.
  induction l as [|x l IH]; intros Hx; [done|]. specialize (IH ltac:(intros y Hy; apply Hx; by right)). pose proof (Hx x ltac:(left)) as Hiff.
  destruct (decide (x.1 ∈ P)); [rewrite !filter_cons_True by tauto|rewrite !filter_cons_False by tauto]; by rewrite IH.
Qed.

Lemma filter_take_keys n (l : list (Z * Prelude.bytes)) : NoDup (map fst l) ->
  filter (fun x => x.1 ∈ (list_to_set (take n (map fst l)) : gset Z)) l = take n l.
Proof.
  intros Hn. revert n. induction l as [|[e d] l IH]; intros n; [by rewrite take_nil|]. cbn [map fst] in Hn. apply list.NoDup_cons in Hn as [He Hn].
  destruct n as [|n]; cbn [take map fst].
  - rewrite filter_cons_False by set_solver. exact (IH Hn 0%nat).
  - rewrite filter_cons_True by set_solver. f_equal. rewrite <-(IH Hn n). apply filter_same. intros [e' d'] Hin. cbn [fst].
    rewrite list_to_set_cons, elem_of_union, elem_of_singleton. split; [intros [->|?]; [|done]|by right].
    destruct He. apply list_elem_of_In, in_map_iff. exists (e, d'). split; [done|]. by apply list_elem_of_In.
Qed.

Lemma wfold_app_answer {W S A} (f : S -> A -> W -> W * result goerror S) (P Q : S -> Prop) l1 l2 s w :
  (exists s1, (wfold f s l1 w).2 = Ok s1 /\ P s1) -> (forall s1 w1, P s1 -> exists s2, (wfold f s1 l2 w1).2 = Ok s2 /\ Q s2) ->
  exists s2, (wfold f s (l1 ++ l2) w).2 = Ok s2 /\ Q s2.
Proof.
  revert s w. induction l1 as [|x l1 IH]; intros s w (s1 & E & HP) HQ.
  - injection E as <-. by apply HQ.
  - cbn [app wfold] in *. unfold call_bind in *. destruct (f s x w) as [w1 [s'|e]]; [|done]. apply IH; [by exists s1|done].
Qed.

Lemma sum_nonneg l : Forall (fun n => 0 <= n) l -> 0 <= sum_sizes l.
Proof.
  induction l as [|n l IH] using rev_ind; [done|]. intros [Hl Hn]%Forall_app. apply list.Forall_cons in Hn as [Hn _].
  rewrite sum_sizes_app. specialize (IH Hl). change (sum_sizes [n]) with (0 + n). lia.
Qed.

Section Collect.
Context {W : Type} `{Context W}.
Context (Halive : alive W) (now : W -> W * Z) (B : PAR2RepairBudget).
Hypothesis Hclock : forall w w', (now w').2 < (now w).2 + MaxDuration B.
Context (r : PAR2RepairReader (W := W)) (geo : PAR2Geometry) (need : Z).
Hypothesis Hneed : 0 < need.

(** A volume that gives no exponents, and what it costs to find out. *)
Definition useless (idx cost : Z) : Prop :=
  (0 <= cost /\ forall w, exists e, (RecoverySource r idx w).2 = Err e) \/
  exists src, (forall w, (RecoverySource r idx w).2 = Ok src) /\ cost = Size src /\ 0 <= cost /\
    forall w, exists e, (PAR2RecoveryExponents (Some src) (g_RecoverySetID geo) (g_SliceSize geo) need w).2 = Err e.

(** Nothing is chosen yet. *)
Definition untouched (n : Z) (c : choice (W := W)) : Prop :=
  c_want c = ∅ /\ (forall i, default [] (perVolume c !! i) = []) /\ exists n', n' <= n /\ account now B n' (c_acct c).

Lemma useless_answer idx cost n c w : useless idx cost -> untouched n c -> n + cost <= MaxBytes B ->
  exists c', (open_volume r geo need c idx w).2 = Ok c' /\ untouched (n + cost) c'.
Proof.
  intros Hu (Hw & Hp & n' & Hn' & Ha) Hle. unfold open_volume. rewrite Hw, size_empty. destruct (Z.leb_spec need (Z.of_nat 0)); [lia|].
  match goal with |- context [call_bind (check ?a) ?k ?w] => destruct (check_bind Halive now B Hclock k n' a w Ha) as [w1 ->] end. cbn beta iota. unfold call_bind.
  destruct Hu as [[Hc Hu]|(src & Hsrc & -> & Hc & Hu)].
  - destruct (Hu w1) as [e Ee]. destruct (RecoverySource r idx w1) as [w2 res]. cbn [snd] in Ee. subst res.
    exists c. split; [done|]. split_and!; [done|done|]. exists n'. split; [lia|done].
  - pose proof (Hsrc w1) as Es. destruct (RecoverySource r idx w1) as [w2 res]. cbn [snd] in Es. subst res.
    destruct (spend_answer now B n' (c_acct c) (Size src) Ha) as (a' & -> & Ha'); [done|lia|]. destruct (Hu w2) as [e Ee].
    destruct (PAR2RecoveryExponents _ _ _ _ w2) as [w3 res]. cbn [snd] in Ee. subst res.
    pose proof (Halive w3) as Ec. destruct (ctx_Err w3) as [w4 err]. cbn in Ec. subst err.
    eexists. split; [reflexivity|]. split_and!; [done|done|]. exists (n' + Size src). split; [lia|done].
Qed.

Context (vols pre post : list Z) (v : Z) (cost : Z -> Z) (src : ByteSource W) (fs : list framed).
Hypothesis Hvols : forall w, (RecoveryVolumeIndexes r w).2 = vols.
Hypothesis Hsplit : take (Z.to_nat maxRepairRecoveryVolumes) vols = pre ++ v :: post.
Hypothesis Hv : v ∉ pre ++ post.
Hypothesis Hpre : forall idx, idx ∈ pre -> useless idx (cost idx).
Hypothesis Hsrc : forall w, (RecoverySource r v w).2 = Ok src.
Hypothesis Hfs : Forall wf_framed fs /\ reads_as src (frames fs) /\ fs <> [] /\ usable (g_SliceSize geo) /\
  Z.of_nat (length (frames fs)) <= maxPAR2RecoveryWalkBytes /\ Z.of_nat (length fs) <= maxPAR2RecoveryPackets.

Let offered := first_slices ∅ (volume_slices (g_RecoverySetID geo) (g_SliceSize geo) fs).
Hypothesis Hoffered : need <= Z.of_nat (length offered).
Hypothesis Hcons : consistent (volume_slices (g_RecoverySetID geo) (g_SliceSize geo) fs).

Let exps := map fst (take (Z.to_nat need) offered).

Lemma exps_take : exps = take (Z.to_nat need) (map fst offered).
Proof. unfold exps. symmetry. apply firstn_map. Qed.

Lemma exps_length : Z.of_nat (length exps) = need.
Proof. unfold exps. rewrite length_map, length_take. lia. Qed.

Lemma exps_nodup : NoDup exps.
Proof. rewrite exps_take. apply NoDup_take. apply first_slices_nodup. Qed.

(** The cost of the volumes up to the one that is used. *)
Definition volumes_cost : Z := sum_sizes (map cost pre) + Size src.

(** Everything is chosen. *)
Definition chosen (n : Z) (c : choice (W := W)) : Prop :=
  c_want c = list_to_set exps /\ perVolume c !! v = Some exps /\ (forall i, i <> v -> default [] (perVolume c !! i) = []) /\
  c_sources c !! v = Some src /\ exists n', n' <= n /\ account now B n' (c_acct c).

Lemma source_nonneg : 0 <= Size src.
Proof. destruct Hfs as (_ & [-> _] & _). lia. Qed.

Lemma useful_answer n c w : untouched n c -> n + Size src <= MaxBytes B ->
  exists c', (open_volume r geo need c v w).2 = Ok c' /\ chosen (n + Size src) c'.
Proof.
  intros (Hw & Hp & n' & Hn' & Ha) Hle. unfold open_volume. rewrite Hw, size_empty. destruct (Z.leb_spec need (Z.of_nat 0)); [lia|].
  match goal with |- context [call_bind (check ?a) ?k ?w] => destruct (check_bind Halive now B Hclock k n' a w Ha) as [w1 ->] end. cbn beta iota. unfold call_bind.
  pose proof (Hsrc w1) as Es. destruct (RecoverySource r v w1) as [w2 res]. cbn [snd] in Es. subst res.
  destruct (spend_answer now B n' (c_acct c) (Size src) Ha) as (a' & -> & Ha'); [apply source_nonneg|lia|].
  destruct Hfs as (F1 & F2 & F3 & F4 & F5 & F6).
  pose proof (exponents_exact Halive src fs (g_RecoverySetID geo) (g_SliceSize geo) F1 F2 F3 F4 F5 F6 need w2 Hneed) as Ee. cbv zeta in Ee. fold offered in Ee.
  rewrite length_map in Ee. destruct (Z.ltb_spec (Z.of_nat (length offered)) need); [lia|]. rewrite <-exps_take in Ee.
  destruct (PAR2RecoveryExponents _ _ _ _ w2) as [w3 res]. cbn [snd] in Ee. subst res. cbn [c_want perVolume c_sources].
  rewrite Hp, (want_fresh need Hneed exps [] ∅); [|apply exps_nodup|set_solver|rewrite size_empty, exps_length; lia].
  eexists. split; [reflexivity|]. unfold chosen. cbn [c_want perVolume c_sources c_acct app]. split_and!.
  - set_solver.
  - by rewrite lookup_insert_eq.
  - intros i Hi. by rewrite lookup_insert_ne.
  - by rewrite lookup_insert_eq.
  - exists (n' + Size src). split; [lia|done].
Qed.

Lemma later_answer n c idx w : chosen n c -> (open_volume r geo need c idx w).2 = Ok c.
Proof.
  intros (Hw & _). unfold open_volume. rewrite Hw, size_list_to_set by apply exps_nodup. rewrite exps_length.
  by destruct (Z.leb_spec need need); [|lia].
Qed.

(** The slices that are collected. *)
Definition collected_slices : list PAR2RecoverySlice := to_slices (take (Z.to_nat need) offered).

Lemma scan_answer n c out w : chosen n c -> n + g_SliceSize geo * need <= MaxBytes B ->
  (scan_volume r geo c out v w).2 = Ok (out ++ collected_slices).
Proof.
  intros (_ & Hx & _ & Hs & n' & Hn' & Ha) Hle. unfold scan_volume. rewrite Hx. change (default [] (Some exps)) with exps.
  destruct Hfs as (F1 & F2 & F3 & F4 & F5 & F6). pose proof exps_length as Hel. assert (Hne : exists e es, exps = e :: es) by (destruct exps as [|e es]; [cbn in Hel; lia|by exists e, es]).
  destruct Hne as (e & es & Ee). rewrite Ee. cbn beta iota. rewrite <-Ee.
  match goal with |- context [call_bind (check ?a) ?k ?w] => destruct (check_bind Halive now B Hclock k n' a w Ha) as [w1 ->] end. cbn beta iota.
  rewrite Hs. assert (Hsz : size (list_to_set exps : gset Z) = length exps) by apply size_list_to_set, exps_nodup.
  destruct Ha as (_ & Hb & Hsp & _). assert (Hrem : g_SliceSize geo * need <= remaining (c_acct c)).
  { unfold remaining. rewrite Hb, Hsp. pose proof (proj1 F4). destruct (Z.leb_spec (MaxBytes B) n'); nia. }
  eapply bind_answer.
  - apply (scan_exact Halive src fs (g_RecoverySetID geo) (g_SliceSize geo) F1 F2 F3 F4 F5 F6 (list_to_set exps)).
    + rewrite Ee. set_solver.
    + intros e0 d1 d2 [_ H1]%list_elem_of_filter [_ H2]%list_elem_of_filter. by apply (Hcons e0).
    + rewrite Hsz, exps_length. lia.
  - intros w2. cbv zeta. rewrite first_slices_filter. fold offered. rewrite exps_take, filter_take_keys by apply first_slices_nodup.
    fold collected_slices. rewrite bool_decide_false; [done|]. unfold collected_slices, to_slices. intros E%(f_equal length). rewrite length_map, length_take in E. cbn in E. lia.
Qed.

Lemma wfold_same {S A} (f : S -> A -> W -> W * result goerror S) s l w : (forall x w, x ∈ l -> (f s x w).2 = Ok s) -> (wfold f s l w).2 = Ok s.
Proof.
  revert w. induction l as [|x l IH]; intros w Hf; [done|]. cbn [wfold]. eapply bind_answer; [apply Hf; left|]. cbn beta iota. intros w1. apply IH.
  intros y w2 Hy. apply Hf. by right.
Qed.

(** The slices of the first volume that has enough of them. *)
Lemma collect_answer n a w : account now B n a -> n + volumes_cost <= MaxBytes B -> n + volumes_cost + g_SliceSize geo * need <= MaxBytes B ->
  exists a' n', (collectRecoverySlices r geo need a w).2 = Ok (collected_slices, a') /\ n' <= n + volumes_cost /\ account now B n' a'.
Proof.
  intros Ha Hle1 Hle2. unfold collectRecoverySlices. pose proof source_nonneg as Hsn. unfold volumes_cost in *.
  assert (Hcost : Forall (fun m => 0 <= m) (map cost pre)).
  { apply list.Forall_forall. intros m (i & <- & Hi)%list_elem_of_In%in_map_iff. apply list_elem_of_In in Hi.
    destruct (Hpre i Hi) as [[? _]|(? & _ & _ & ? & _)]; done. }
  eapply bind_answer'; [apply Hvols|]. intros w1. cbn beta iota zeta. rewrite bool_decide_false.
  2: { intros ->. rewrite take_nil in Hsplit. by destruct pre. }
  rewrite Hsplit. destruct (wfold_app_answer (open_volume r geo need) (untouched (n + sum_sizes (map cost pre)))
    (chosen (n + sum_sizes (map cost pre) + Size src)) pre (v :: post) (MkChoice ∅ ∅ ∅ a) w1) as (c & Ec & Hc).
  - assert (Hu : exists c, (wfold (open_volume r geo need) (MkChoice ∅ ∅ ∅ a) pre w1).2 = Ok c /\
      untouched (n + sum_sizes (map cost pre)) c).
    { apply (wfold_answer (open_volume r geo need) (fun l c => untouched (n + sum_sizes (map cost l)) c)).
      - intros l x l' c w' Hl Hc. rewrite map_app, sum_sizes_app. cbn [map]. change (sum_sizes [cost x]) with (0 + cost x).
        destruct (useless_answer x (cost x) (n + sum_sizes (map cost l)) c w') as (c' & E & Hc'); [apply Hpre; rewrite Hl; apply elem_of_app; right; left|done| |].
        + rewrite Hl, map_app in Hle1, Hcost. rewrite sum_sizes_app in Hle1. cbn [map] in *. change (cost x :: map cost l') with ([cost x] ++ map cost l') in *.
          rewrite sum_sizes_app in Hle1. change (sum_sizes [cost x]) with (0 + cost x) in *. apply Forall_app in Hcost as [_ Hc2].
          apply Forall_app in Hc2 as [_ Hc2]. apply sum_nonneg in Hc2. lia.
        + exists c'. split; [done|]. by rewrite Z.add_assoc.
      - split_and!; [done|intros i; cbn [perVolume]; by rewrite lookup_empty|]. exists n. split; [cbn; lia|done]. }
    done.
  - intros c w2 Hc. cbn [wfold]. destruct (useful_answer _ c w2 Hc ltac:(lia)) as (c' & E & Hc'). exists c'. split; [|done].
    eapply bind_answer; [exact E|]. cbn beta iota. intros w3. apply wfold_same. intros x w4 _. by eapply later_answer.
  - unfold call_bind at 1. destruct (wfold _ _ (pre ++ v :: post) w1) as [w2 res]. cbn [snd] in Ec. subst res.
    pose proof Hc as (Hw & Hx & Hno & Hs & n' & Hn' & Hacct). rewrite Hw, size_list_to_set, exps_length by apply exps_nodup.
    destruct (Z.ltb_spec need need); [lia|].
    assert (Hscan : (wfold (scan_volume r geo c) [] (pre ++ v :: post) w2).2 = Ok collected_slices).
    { assert (Hskip : forall out x w, x ∈ pre ++ post -> (scan_volume r geo c out x w).2 = Ok out).
      { intros out x w' Hin. unfold scan_volume. rewrite Hno; [done|]. intros ->. done. }
      destruct (wfold_app_answer (scan_volume r geo c) (fun out => out = []) (fun out => out = collected_slices) pre (v :: post) [] w2) as (out & E & ->); [| |exact E].
      - exists []. split; [|done]. apply wfold_same. intros x w' Hin. apply Hskip, elem_of_app. by left.
      - intros ? w' ->. exists collected_slices. split; [|done]. cbn [wfold]. eapply bind_answer; [eapply (scan_answer _ c [] w' Hc); lia|]. cbn beta iota. intros w3.
        apply wfold_same. intros x w4 Hin. apply Hskip, elem_of_app. by right. }
    unfold call_bind. destruct (wfold (scan_volume r geo c) [] _ w2) as [w3 res]. cbn [snd] in Hscan. subst res.
    assert (Hlen : Z.of_nat (length collected_slices) = need) by (unfold collected_slices, to_slices; rewrite length_map, length_take; lia).
    rewrite Hlen, Z.eqb_refl. cbn [negb call_ret snd]. exists (c_acct c), n'. split_and!; [done|lia|done].
Qed.

End Collect.

(** ** The pass over the blocks *)

Section Pass.
Context {W : Type} `{Context W}.
Context (Halive : alive W) (now : W -> W * Z) (B : PAR2RepairBudget).
Hypothesis Hclock : forall w w', (now w').2 < (now w).2 + MaxDuration B.
(** The input blocks, and which of them are rebuilt. *)
Context (s tot : Z) (unk exps : list Z) (block : Z -> Prelude.bytes).
Hypothesis Hgeo : geometry s tot unk exps.
Hypothesis Hexps : Forall (fits 32) exps.
Hypothesis Hblock : valid_blocks s tot block.
(** The edges of the damaged span. *)
Context (eb0 eb1 ds de : Z).

Definition edges_true (e : repairEdges) : Prop :=
  firstBlock e = eb0 /\ lastBlock e = eb1 /\ e_damagedStart e = ds /\ e_damagedEnd e = de /\
  (head e = None \/ head e = Some (take (Z.to_nat ds) (block eb0))) /\
  (tail e = None \/ tail e = Some (drop (Z.to_nat de) (block eb1))).

(** Every block before [n] is in. *)
Definition progress (n : Z) (solver : PAR2Solver) (e : repairEdges) : Prop :=
  sinv s tot unk exps block solver /\ slicesSeen solver = Z.of_nat (length unk) /\
  (forall i, i ∈ known solver <-> 0 <= i < n /\ i ∉ unk) /\ edges_true e.

(** What the pass is given for block [n]: the block, or one to rebuild that is right
    outside of the damaged span. *)
Definition served (n : Z) (data : Prelude.bytes) : Prop :=
  length data = length (block n) /\ (n ∉ unk -> data = block n) /\
  (n = eb0 -> take (Z.to_nat ds) data = take (Z.to_nat ds) (block eb0)) /\
  (n = eb1 -> drop (Z.to_nat de) data = drop (Z.to_nat de) (block eb1)).

Lemma observe_true e n data : edges_true e -> served n data -> edges_true (observe e n data).
Proof.
  intros (E1 & E2 & E3 & E4 & Hh & Ht) (Hl & _ & S1 & S2). unfold observe. split_and!; cbn [firstBlock lastBlock e_damagedStart e_damagedEnd head tail]; try done.
  - destruct (_ && _ && _) eqn:E; [|done]. right. f_equal. bool_hyps. rewrite E1 in *. rewrite E3 in *. rewrite <-S1 by done.
    destruct (Z.ltb_spec (Z.of_nat (length data)) ds); [|done]. rewrite !take_ge by lia. done.
  - destruct (_ && _ && _) eqn:E; [|done]. right. f_equal. bool_hyps. rewrite E2 in *. rewrite E4 in *. by rewrite <-S2.
Qed.

Lemma take_block_answer n solver e buf data rest : 0 <= n < tot -> progress n solver e -> served n data ->
  exists solver' e', take_block (list_to_set unk) (MkStream buf n solver e) data rest = Ok (MkStream rest (n + 1) solver' e') /\
    progress (n + 1) solver' e'.
Proof.
  intros Hn (Hs & Hseen & Hk & He) Hd. unfold take_block. cbn [s_block s_solver s_edges]. destruct (decide (n ∈ unk)) as [Hu|Hu].
  - rewrite bool_decide_true by by apply elem_of_list_to_set. exists solver, (observe e n data). split; [done|].
    split_and!; [done|done| |by apply observe_true]. intros i. rewrite Hk. split; [intros [? ?]; split; (done || lia)|].
    intros [Hi Hno]. split; [|done]. assert (i <> n) by (intros ->; done). lia.
  - rewrite bool_decide_false by by rewrite elem_of_list_to_set. destruct Hd as (_ & Hd & _). rewrite (Hd Hu).
    destruct (AddKnownBlock_all s tot unk exps block Hgeo Hexps Hblock [n] solver Hs) as (s' & E & Hs' & Hseen' & Hk').
    { apply NoDup_singleton. }
    { intros i ->%list_elem_of_singleton. split_and!; [lia|lia|done|]. rewrite Hk. lia. }
    cbn [rfold] in E. destruct (AddKnownBlock solver n (block n)) as [s1|]; [|done]. injection E as ->.
    exists s', e. split; [done|]. split_and!; [done|congruence| |done]. intros i. rewrite Hk'. cbn [list_to_set foldr].
    rewrite elem_of_union, elem_of_union, elem_of_singleton, Hk. split.
    + intros [[->|Hi]|Hi]; [|by apply not_elem_of_empty in Hi|]; split_and!; try done; try lia; tauto.
    + intros [Hi Hno]. destruct (decide (i = n)); [by left; left|right; split; [lia|done]].
Qed.

(** *** One file *)

(** The bytes the pass is given for a file whose first block is [base], in blocks. *)
Context (base : Z) (served_data : Prelude.bytes).
Let size := Z.of_nat (length served_data).
Let blocks := block_count_of size s.
Hypothesis Hsize : 0 < size.
Hypothesis Hbase : 0 <= base /\ base + blocks <= tot.
Hypothesis Hserved : forall b, 0 <= b < blocks -> served (base + b) (span served_data (b * s) s).

(** After [pos] bytes: [k] blocks are in and the rest waits in the buffer. *)
Definition passed (pos k : Z) (st : stream) : Prop :=
  0 <= k /\ k * s <= pos <= size /\ s_block st = base + k /\ s_buf st = span served_data (k * s) (pos - k * s) /\
  progress (base + k) (s_solver st) (s_edges st).

Lemma s_pos : 0 < s.
Proof. apply (geo_ss _ _ _ _ Hgeo). Qed.

Lemma buf_length pos k st : passed pos k st -> Z.of_nat (length (s_buf st)) = pos - k * s.
Proof. pose proof s_pos. intros (Hk & Hp & _ & -> & _). apply span_length; fold size; nia. Qed.

Lemma emit_blocks_answer fuel n a pos k st w : account now B n a -> passed pos k st -> pos - k * s < Z.of_nat fuel ->
  exists st' k', (emit_blocks fuel s (list_to_set unk) a st w).2 = Ok st' /\ passed pos k' st' /\ pos - k' * s < s.
Proof.
  pose proof s_pos as Hs. intros Ha. revert k st w. induction fuel as [|fuel IH]; intros k st w Hp Hf; cbn [emit_blocks].
  { pose proof (proj1 (proj2 Hp)). lia. }
  rewrite (buf_length _ _ _ Hp). destruct (Z.ltb_spec (pos - k * s) s); [by exists st, k|].
  match goal with |- context [call_bind (check ?a) ?k ?w] => destruct (check_bind Halive now B Hclock k n a w Ha) as [w1 ->] end. cbn beta iota.
  destruct st as [buf b solver e]. destruct Hp as (Hk & Hpos & Hb & Hbuf & Hpr). cbn [s_buf s_block s_solver s_edges] in *. subst b buf.
  assert (Hkb : 0 <= k < blocks) by (apply block_count_div; nia).
  assert (Htake : take (Z.to_nat s) (span served_data (k * s) (pos - k * s)) = span served_data (k * s) s).
  { unfold span. rewrite take_take. f_equal. lia. }
  rewrite Htake. edestruct take_block_answer as (solver' & e' & E & Hpr'); [|exact Hpr|exact (Hserved k Hkb)|]; [lia|].
  rewrite E. apply (IH (k + 1)); [|lia]. split_and!; cbn [s_buf s_block s_solver s_edges]; [lia|lia|lia|lia| |by rewrite <-Z.add_assoc in Hpr'].
  unfold span. rewrite skipn_firstn_comm, drop_drop. f_equal; [lia|]. f_equal. lia.
Qed.

Lemma emit_answer n a pos k st data w : account now B n a -> passed pos k st -> data = span served_data pos (Z.of_nat (length data)) ->
  pos + Z.of_nat (length data) <= size ->
  exists st' k', (emit s (list_to_set unk) a st data w).2 = Ok st' /\ passed (pos + Z.of_nat (length data)) k' st' /\
    pos + Z.of_nat (length data) - k' * s < s.
Proof.
  intros Ha Hp Hd Hle. unfold emit. pose proof (buf_length _ _ _ Hp) as Hl. destruct Hp as (Hk & Hpos & Hb & Hbuf & Hpr).
  apply (emit_blocks_answer _ n a _ k _ w Ha); [|rewrite length_app; lia]. split_and!; cbn [s_buf s_block s_solver s_edges]; try done; try lia.
  pose proof s_pos. pose proof (span_app served_data (k * s) (pos - k * s) (Z.of_nat (length data)) ltac:(nia) ltac:(lia) ltac:(lia)) as Hsp.
  replace (k * s + (pos - k * s)) with pos in Hsp by lia. rewrite <-Hd in Hsp. rewrite Hbuf, Hsp. f_equal. lia.
Qed.

Lemma emit_zeros_answer n a chunk : account now B n a -> 0 < chunk -> forall fuel rest pos k st w, passed pos k st -> pos - k * s < s ->
  0 <= rest -> rest <= Z.of_nat fuel -> pos + rest <= size -> span served_data pos rest = repeat 0 (Z.to_nat rest) ->
  exists st' k', (emit_zeros fuel s (list_to_set unk) a chunk rest st w).2 = Ok st' /\ passed (pos + rest) k' st' /\ pos + rest - k' * s < s.
Proof.
  intros Ha Hc. induction fuel as [|fuel IH]; intros rest pos k st w Hp Hk Hr Hf Hle Hz; cbn [emit_zeros].
  { exists st, k. replace (pos + rest) with pos by lia. done. }
  destruct (Z.leb_spec rest 0); [exists st, k; by replace (pos + rest) with pos by lia|].
  set (m := Z.min rest chunk). assert (Hpos : 0 <= pos) by (pose proof s_pos; destruct Hp as (? & ? & _); nia).
  pose proof (span_app served_data pos m (rest - m) Hpos ltac:(lia) ltac:(lia)) as Hsp. replace (m + (rest - m)) with rest in Hsp by lia.
  assert (Hrep : repeat 0 (Z.to_nat rest) = repeat 0 (Z.to_nat m) ++ repeat 0 (Z.to_nat (rest - m))) by (rewrite <-repeat_app; f_equal; lia).
  rewrite Hz, Hrep in Hsp. apply app_inj_1 in Hsp as [Hz1 Hz2].
  2: { apply Nat2Z.inj. rewrite span_length, repeat_length by (fold size; lia). lia. }
  destruct (emit_answer n a pos k st (repeat 0 (Z.to_nat m)) w Ha Hp) as (st' & k' & E & Hp' & Hk').
  { rewrite repeat_length, Z2Nat.id by lia. done. }
  { rewrite repeat_length. lia. }
  rewrite repeat_length, Z2Nat.id in Hp', Hk' by lia. unfold call_bind. destruct (emit _ _ _ _ _ w) as [w1 res]. cbn [snd] in E. subst res.
  destruct (IH (rest - m) (pos + m) k' st' w1 Hp' Hk') as (st2 & k2 & E2 & Hp2 & Hk2); [lia|lia|lia|done|].
  exists st2, k2. by replace (pos + rest) with (pos + m + (rest - m)) by lia.
Qed.

(** The segments of the file, and the one that is skipped. *)
Context (r : PAR2RepairReader (W := W)) (f : PAR2GeometryFile) (count : Z) (data : Z -> Prelude.bytes) (skip skipLen : Z).
Hypothesis Hf : FirstBlock f = base /\ g_Length f = size /\ Blocks f = blocks.
Hypothesis Hcount : forall w, (SegmentCount r (g_NZBFileIndex f) w).2 = Some count.
Hypothesis Hpositive : 0 < count.
Hypothesis Hread : forall i w, 0 <= i < count -> i <> skip -> (ReadSegment r (g_NZBFileIndex f) i w).2 = Ok (data i).
Hypothesis Hskip : 0 <= skip < count -> 0 < skipLen /\ skipLen = Z.of_nat (length (data skip)).

Definition served_segment (i : Z) : Prelude.bytes := if i =? skip then repeat 0 (length (data i)) else data i.

Hypothesis Hdata : served_data = concat (map served_segment (seqZ 0 count)).

Lemma pass_answer n a solver e w : account now B n a -> n + size <= MaxBytes B -> progress base solver e ->
  exists p, (wfold (pass_segment r f s skip skipLen (list_to_set unk)) (MkPass (MkStream [] base solver e) 0 a) (seqZ 0 count) w).2 = Ok p /\
    produced p = size /\ (exists k, passed size k (p_stream p) /\ size - k * s < s) /\ exists n', n' <= n + size /\ account now B n' (p_acct p).
Proof.
  intros Ha Hle Hpr. pose proof s_pos as Hs.
  destruct (wfold_answer (pass_segment r f s skip skipLen (list_to_set unk)) (fun pre p =>
    produced p = Z.of_nat (length (concat (map served_segment pre))) /\
    (exists k, passed (produced p) k (p_stream p) /\ produced p - k * s < s) /\
    exists n', n' <= n + produced p /\ account now B n' (p_acct p)) (seqZ 0 count)) with (s := MkPass (MkStream [] base solver e) 0 a) (w := w)
    as (p & E & Hprod & Hpass & Hacct).
  - intros pre i post [st prod acct] w0 Hl (Hprod & (k & Hp & Hk) & n' & Hn' & Hacct). cbn [produced p_stream p_acct] in *.
    assert (Hi : i ∈ seqZ 0 count) by (rewrite Hl; apply elem_of_app; right; left). apply elem_of_seqZ in Hi. rewrite Z.add_0_l in Hi.
    assert (Hcat : served_data = concat (map served_segment pre) ++ served_segment i ++ concat (map served_segment post))
      by (rewrite Hdata, Hl, map_app, concat_app; done).
    assert (Hlen : Z.of_nat (length (served_segment i)) = Z.of_nat (length (data i))).
    { unfold served_segment. destruct (i =? skip); [by rewrite repeat_length|done]. }
    assert (Hsz : size = prod + Z.of_nat (length (data i)) + Z.of_nat (length (concat (map served_segment post)))).
    { unfold size. rewrite Hcat, !length_app. lia. }
    assert (Hspan : span served_data prod (Z.of_nat (length (data i))) = served_segment i).
    { unfold span. rewrite Hcat, Hprod, !Nat2Z.id, drop_app_length. rewrite take_app_le by lia. by rewrite take_ge by lia. }
    rewrite map_app, concat_app, length_app. cbn [map concat]. rewrite app_nil_r.
    unfold pass_segment. cbn [p_stream produced p_acct].
    match goal with |- context [call_bind (check ?a) ?k ?w] => destruct (check_bind Halive now B Hclock k n' a w Hacct) as [w1 ->] end. cbn beta iota.
    destruct (Z.eqb_spec i skip) as [->|Hne].
    + destruct (Hskip Hi) as [Hlp Hlq]. rewrite <-Hlq in Hspan, Hsz.
      destruct (emit_zeros_answer n' acct (Z.min skipLen repairSegmentChunk) Hacct ltac:(change repairSegmentChunk with 1048576; lia) (Z.to_nat skipLen) skipLen prod k st w1 Hp Hk) as (st' & k' & E & Hp' & Hk');
        [lia|lia|lia|rewrite Hspan; unfold served_segment; rewrite Z.eqb_refl; f_equal; lia|].
      unfold call_bind. destruct (emit_zeros _ _ _ _ _ _ _ w1) as [w2 res]. cbn [snd] in E. subst res. eexists. split; [reflexivity|].
      cbn [produced p_stream p_acct]. replace (Z.max 0 skipLen) with skipLen by lia. split_and!; [lia|by exists k'|]. exists n'. split; [lia|done].
    + unfold call_bind. pose proof (Hread i w1 Hi Hne) as Er. destruct (ReadSegment r _ i w1) as [w2 res]. cbn [snd] in Er. subst res.
      assert (Es : served_segment i = data i) by (unfold served_segment; by rewrite (proj2 (Z.eqb_neq i skip))).
      destruct (spend_answer now B n' acct (Z.of_nat (length (data i))) Hacct) as (a' & -> & Ha'); [lia|lia|].
      rewrite (proj1 (proj2 Hf)). destruct (Z.ltb_spec size (prod + Z.of_nat (length (data i)))); [lia|].
      rewrite Es in Hspan. destruct (emit_answer _ a' prod k st (data i) w2 Ha' Hp) as (st' & k' & E & Hp' & Hk'); [done|lia|].
      destruct (emit _ _ _ _ _ w2) as [w3 res]. cbn [snd] in E. subst res. eexists. split; [reflexivity|].
      cbn [produced p_stream p_acct]. split_and!; [lia|by exists k'|]. exists (n' + Z.of_nat (length (data i))). split; [lia|done].
  - cbn [produced p_stream p_acct map concat length]. split; [done|]. split.
    + exists 0. split; [|lia]. split_and!; cbn [s_buf s_block s_solver s_edges]; try lia; [done|]. by rewrite Z.add_0_r.
    + exists n. split; [lia|done].
  - exists p. rewrite <-Hdata in Hprod. fold size in Hprod. rewrite Hprod in *. by split_and!.
Qed.

Lemma accumulate_answer n a solver e w : account now B n a -> n + size <= MaxBytes B -> progress base solver e ->
  exists solver' e' a' n', (accumulateFileBlocks r f s skip skipLen (list_to_set unk) solver e a w).2 = Ok (solver', e', a') /\
    n' <= n + size /\ account now B n' a' /\ progress (base + blocks) solver' e'.
Proof.
  intros Ha Hle Hpr. pose proof s_pos as Hs. unfold accumulateFileBlocks. destruct Hf as (F1 & F2 & F3).
  eapply bind_answer'; [apply Hcount|]. cbn beta iota. intros w1. destruct (Z.leb_spec count 0); [lia|].
  destruct (pass_answer n a solver e w1 Ha Hle Hpr) as (p & E & Hprod & (k & Hp & Hk) & n' & Hn' & Hacct).
  rewrite F1. unfold call_bind at 1. destruct (wfold _ _ _ w1) as [w2 res]. cbn [snd] in E. subst res.
  rewrite Hprod, F2, Z.eqb_refl. cbn [negb]. rewrite F3. pose proof (buf_length _ _ _ Hp) as Hl.
  destruct (p_stream p) as [buf b sv ed]. destruct Hp as (Hk0 & Hpos & Hb & Hbuf & Hpr'). cbn [s_buf s_block s_solver s_edges] in *. subst b.
  pose proof (block_count_bounds size s Hs Hsize) as [Hb0 Hb1]. fold blocks in Hb0, Hb1.
  destruct buf as [|x rest].
  - cbn [length] in Hl. assert (k = blocks) as -> by nia. unfold call_bind, call_ret. cbn [s_block s_solver s_edges]. rewrite Z.eqb_refl. cbn [negb snd].
    exists sv, ed, (p_acct p), n'. split_and!; done.
  - cbn [length] in Hl. assert (Hkb : k + 1 = blocks) by nia.
    assert (Hspan : x :: rest = span served_data (k * s) s).
    { rewrite Hbuf. apply span_end; fold size; lia. }
    unfold call_bind at 1.
    match goal with |- context [call_bind (check ?a) ?k ?w] => destruct (check_bind Halive now B Hclock k n' a w Hacct) as [w3 ->] end. cbn beta iota.
    edestruct take_block_answer as (solver' & e' & E & Hpr2); [|exact Hpr'|exact (Hserved k ltac:(lia))|]; [lia|].
    rewrite <-Hspan in E. unfold call_ret. rewrite E. cbn [s_block s_solver s_edges]. replace (base + k + 1) with (base + blocks) in * by lia.
    rewrite Z.eqb_refl. cbn [negb snd]. exists solver', e', (p_acct p), n'. split_and!; done.
Qed.

End Pass.

(** ** The check of the blocks and of the edges *)

Lemma padded_take s (x : Prelude.bytes) : take (length x) (padded s x) = x.
Proof. unfold padded. by rewrite take_app_length. Qed.

Lemma padded_drop s (x : Prelude.bytes) : drop (length x) (padded s x) = replicate (Z.to_nat s - length x) 0.
Proof. unfold padded. by rewrite drop_app_length. Qed.

Lemma padded_length s (x : Prelude.bytes) : 0 <= s -> Z.of_nat (length x) <= s -> Z.of_nat (length (padded s x)) = s.
Proof. intros. unfold padded. rewrite length_app, length_replicate. lia. Qed.

Section Check.
Context {W : Type} `{Context W} (md5 : Prelude.bytes -> Prelude.bytes).
Context (Halive : alive W) (d : PAR2ProofDomain) (start stop : Z).
Hypothesis Hd : wf_domain d.
Hypothesis Hspan : 0 <= start < stop /\ stop <= domain_Length d.
Let s := domain_SliceSize d.
Let first := start / s.
Let last := (stop - 1) / s.

Lemma verify_block_answer out i (x : Prelude.bytes) w : first <= first + i <= last ->
  Z.of_nat (length x) = p_Length (block_proof d (first + i)) -> md5 x = p_digest (block_proof d (first + i)) ->
  exists out', (verify_block md5 d s first last start stop out (i, padded s x) w).2 = Ok out'.
Proof.
  intros Hi Hx Hm. set (b := first + i) in *. pose proof (wd_slice _ Hd) as Hs. fold (domain_SliceSize d) s in Hs.
  pose proof (Z.div_mod start s ltac:(lia)) as D1. pose proof (Z.mod_pos_bound start s ltac:(lia)) as M1. fold first in D1.
  pose proof (Z.div_mod (stop - 1) s ltac:(lia)) as D2. pose proof (Z.mod_pos_bound (stop - 1) s ltac:(lia)) as M2. fold last in D2.
  assert (Hf : 0 <= first) by (apply Z.div_pos; lia).
  assert (Hr : 0 <= b * s < domain_Length d) by nia. destruct (ProofAt_block d _ Hd Hr) as [Ep Hb]. fold (domain_SliceSize d) s in Ep, Hb.
  rewrite Z.div_mul in Ep, Hb by lia. pose proof (block_proof_length d b Hd Hb) as [Hpl Hpe]. fold s in Hpl, Hpe.
  unfold verify_block. fold b. rewrite Ep. change (p_Offset (block_proof d b)) with (b * s). rewrite Z.eqb_refl. cbn [negb orb].
  destruct (Z.leb_spec (p_Length (block_proof d b)) 0); [lia|]. destruct (Z.ltb_spec s (p_Length (block_proof d b))); [lia|]. cbn [orb].
  rewrite padded_length, Z.eqb_refl by lia. cbn [negb]. rewrite <-Hx, Nat2Z.id, padded_drop, padded_take.
  assert (Hz : forallb (fun c => c =? 0) (replicate (Z.to_nat s - length x) 0) = true).
  { generalize (Z.to_nat s - length x)%nat as n. clear. induction n; cbn; done. }
  rewrite Hz. cbn [negb]. eapply bind_answer'; [apply (CandidateDigest_alive md5 _ _ _ Halive); lia|]. intros w1. cbn beta iota.
  rewrite (proj2 (DigestEquals_spec _ _)) by done. cbn [negb].
  set (lo := if b =? first then _ else _). set (hi := if b =? last then _ else _).
  assert (Hlo : 0 <= lo /\ lo <= hi <= s).
  { unfold lo, hi. destruct (Z.eqb_spec b first) as [Eb1|], (Z.eqb_spec b last) as [Eb2|]; nia. }
  destruct (Z.ltb_spec lo 0); [lia|]. destruct (Z.ltb_spec s hi); [lia|]. destruct (Z.ltb_spec hi lo); [lia|]. cbn [orb]. by eexists.
Qed.

End Check.

Lemma edges_answer s (block : Z -> Prelude.bytes) first n ds de e : 0 < n -> 0 < ds \/ ds = 0 -> 0 <= de <= s ->
  (forall i, first <= i < first + n -> Z.of_nat (length (block i)) <= s) ->
  edges_true block first (first + n - 1) ds de e -> edges_verify e (map (fun i => padded s (block i)) (seqZ first n)) = None.
Proof.
  intros Hn Hds Hde Hl (_ & _ & _ & E4 & Hh & Ht). unfold edges_verify.
  assert (E : exists rest, map (fun i => padded s (block i)) (seqZ first n) = padded s (block first) :: rest).
  { rewrite seqZ_cons by lia. cbn [map]. by eexists. }
  assert (Hlast : List.last (map (fun i => padded s (block i)) (seqZ first n)) [] = padded s (block (first + n - 1))).
  { replace n with ((n - 1) + 1) at 1 by lia. rewrite seqZ_app, map_app by lia. cbn [map]. change (seqZ (first + (n - 1)) 1) with [first + (n - 1)].
    cbn [map]. rewrite last_last. do 2 f_equal. lia. }
  assert (Hv : verify_head e (map (fun i => padded s (block i)) (seqZ first n)) = None).
  { unfold verify_head. destruct Hh as [->| ->]; [done|]. destruct E as [rest ->].
    destruct (Nat.ltb_spec (length (padded s (block first))) (length (take (Z.to_nat ds) (block first)))) as [Hlt|_].
    { unfold padded in Hlt. rewrite length_app, length_take in Hlt. lia. }
    rewrite bool_decide_true; [done|]. unfold padded. rewrite take_app_le by (rewrite length_take; lia). rewrite length_take.
    destruct (decide (Z.to_nat ds <= length (block first))%nat); [f_equal; lia|]. rewrite !take_ge; [done|lia|lia]. }
  rewrite Hv. cbn [first_error]. unfold verify_tail. rewrite Hlast. destruct Ht as [->| ->]; [done|]. destruct E as [rest ->].
  set (x := block (first + n - 1)). pose proof (Hl (first + n - 1) ltac:(lia)) as Hx. fold x in Hx.
  rewrite E4. destruct (Z.ltb_spec de 0); [lia|]. rewrite padded_length by lia.
  destruct (Z.ltb_spec s (de + Z.of_nat (length (drop (Z.to_nat de) x)))); [rewrite length_drop in *; lia|]. cbn [orb].
  rewrite bool_decide_true; [done|]. unfold span, padded. rewrite Nat2Z.id. destruct (decide (Z.to_nat de <= length x)%nat).
  - rewrite drop_app_le by done. rewrite take_app_le by done. by rewrite take_ge.
  - rewrite (drop_ge x) by lia. done.
Qed.

(** ** The repair *)

Lemma span_outside (p x y q : Prelude.bytes) o n : length x = length y -> 0 <= o -> 0 <= n ->
  o + n <= Z.of_nat (length p) \/ Z.of_nat (length p) + Z.of_nat (length x) <= o ->
  span (p ++ x ++ q) o n = span (p ++ y ++ q) o n.
Proof.
  intros Hl Ho Hn Hor. unfold span. destruct (decide (o <= Z.of_nat (length p))) as [Hle|Hgt].
  - rewrite !drop_app_le by lia. destruct Hor as [Hor|Hor].
    + rewrite !take_app_le by (rewrite length_drop; lia). done.
    + assert (length x = 0)%nat as Hx by lia. assert (length y = 0)%nat as Hy by lia. by apply nil_length_inv in Hx, Hy as ->; subst.
  - destruct Hor as [Hor|Hor]; [lia|]. rewrite !(drop_app_ge p) by lia. f_equal. rewrite !drop_app_ge by lia. f_equal. lia.
Qed.

Lemma numbered_member s n files stop f : numbered s n files stop -> f ∈ files -> 0 < g_Length f /\ Blocks f = block_count_of (g_Length f) s.
Proof.
  revert n. induction files as [|g files IH]; intros n; cbn [numbered]; [by intros _ ?%not_elem_of_nil|].
  intros (_ & Hl & Hbl & Hn) [->|Hf]%list.elem_of_cons; [done|by eapply IH].
Qed.

Section Exact.
Context {W : Type} `{Context W} (md5 : Prelude.bytes -> Prelude.bytes).
Context (r : PAR2RepairReader (W := W)) (req : PAR2RepairRequest (W := W)) (now : W -> W * Z).
(** The decoded segments of the post's files: how many, and the bytes of each. *)
Context (count : Z -> Z) (data : Z -> Z -> Prelude.bytes).

Let geo := Geometry req.
Let s := g_SliceSize geo.
Let idx := r_NZBFileIndex req.
Let seg := SegIndex req.

(** A file, the lost segment, and where it starts. *)
Definition content (i : Z) : Prelude.bytes := segments (data i) (count i).
Definition lost : Prelude.bytes := data idx seg.
Definition lost_start : Z := Z.of_nat (length (segments (data idx) seg)).
Definition lost_stop : Z := lost_start + Z.of_nat (length lost).

(** Block [i] of the recovery set. *)
Definition input_block (i : Z) : Prelude.bytes :=
  match find (fun f => (FirstBlock f <=? i) && (i <? FirstBlock f + Blocks f)) (g_Files geo) with
  | Some f => span (content (g_NZBFileIndex f)) ((i - FirstBlock f) * s) s
  | None => []
  end.

(** The context lives, the clock stays within the budget, and the reader gives every
    segment of the recovery set but the lost one. *)
Record responsive : Prop := {
  rs_alive : alive W;
  rs_now : Now req = Some now;
  rs_clock : forall w w', (now w').2 < (now w).2 + MaxDuration (Budget req);
  rs_count : forall f w, f ∈ g_Files geo -> (SegmentCount r (g_NZBFileIndex f) w).2 = Some (count (g_NZBFileIndex f));
  rs_read : forall f i w, f ∈ g_Files geo -> 0 <= i < count (g_NZBFileIndex f) -> ~ (g_NZBFileIndex f = idx /\ i = seg) ->
    (ReadSegment r (g_NZBFileIndex f) i w).2 = Ok (data (g_NZBFileIndex f) i)
}.

(** The post is what the geometry and the proofs say it is. *)
Record described (target : PAR2GeometryFile) : Prop := {
  ds_slice : usable s;
  ds_posts : NoDup (map g_NZBFileIndex (g_Files geo));
  ds_numbered : numbered s 0 (g_Files geo) (g_total geo);
  ds_total : g_total geo <= MaxPAR2TotalBlocks;
  ds_target : FileByNZBIndex geo idx = Some target;
  ds_files : forall f, f ∈ g_Files geo -> 0 < count (g_NZBFileIndex f) /\
    Z.of_nat (length (content (g_NZBFileIndex f))) = g_Length f /\ Par2Solver.bytes (content (g_NZBFileIndex f));
  ds_lost : 0 <= seg < count idx /\ lost <> [];
  ds_domain : wf_domain (Proof_ req) /\ domain_SliceSize (Proof_ req) = s /\ domain_Length (Proof_ req) = g_Length target;
  ds_hashes : forall b, 0 <= b < Blocks target -> md5 (span (content idx) (b * s) s) = p_digest (block_proof (Proof_ req) b)
}.

(** The blocks the lost segment touches. *)
Definition first_lost : Z := lost_start / s.
Definition lost_count : Z := (lost_stop - 1) / s - lost_start / s + 1.

(** One of the first volumes holds slices of consecutive exponents for them, and those
    before it give nothing. *)
Record supplied (pre post : list Z) (v : Z) (cost : Z -> Z) (src : ByteSource W) (fs : list framed) (e0 : Z) : Prop := {
  sp_count : lost_count <= MaxPAR2UnknownBlocks /\ lost_count * s <= maxPAR2SolverBytes;
  sp_volumes : exists vols, (forall w, (RecoveryVolumeIndexes r w).2 = vols) /\
    take (Z.to_nat maxRepairRecoveryVolumes) vols = pre ++ v :: post;
  sp_once : v ∉ pre ++ post;
  sp_useless : forall i, i ∈ pre -> useless r geo lost_count i (cost i);
  sp_source : forall w, (RecoverySource r v w).2 = Ok src;
  sp_packets : Forall wf_framed fs /\ reads_as src (frames fs) /\ fs <> [] /\ usable s /\
    Z.of_nat (length (frames fs)) <= maxPAR2RecoveryWalkBytes /\ Z.of_nat (length fs) <= maxPAR2RecoveryPackets;
  sp_slices : forall e x, (e, x) ∈ volume_slices (g_RecoverySetID geo) s fs ->
    x = recovery_slice s (g_total geo) (fun i => padded s (input_block i)) e;
  sp_exponents : 0 <= e0 /\ e0 + lost_count <= 2 ^ 32 /\
    take (Z.to_nat lost_count) (map fst (first_slices ∅ (volume_slices (g_RecoverySetID geo) s fs))) = seqZ e0 lost_count
}.

(** What may be read: the file twice but for the lost segment, the set, the volumes. *)
Definition read_cost (pre : list Z) (cost : Z -> Z) (src : ByteSource W) : Z :=
  Z.of_nat (length (content idx)) - Z.of_nat (length lost) + volumes_cost pre cost src.

Record affordable (pre : list Z) (cost : Z -> Z) (src : ByteSource W) : Prop := {
  af_enabled : 0 < MaxDuration (Budget req) /\ 0 < MaxBytes (Budget req) <= maxInt64;
  af_set : read_cost pre cost src + lengths (g_Files geo) <= MaxBytes (Budget req);
  af_slices : read_cost pre cost src + s * lost_count <= MaxBytes (Budget req)
}.

Section Described.
Context (target : PAR2GeometryFile) (Hds : described target).

Lemma slice_pos : 0 < s.
Proof. apply (ds_slice _ Hds). Qed.

Lemma target_file : target ∈ g_Files geo /\ g_NZBFileIndex target = idx.
Proof.
  pose proof (ds_target _ Hds) as Ht. unfold FileByNZBIndex in Ht. apply find_some in Ht as [Hin Heq]. apply Z.eqb_eq in Heq.
  split; [by apply list_elem_of_In|done].
Qed.

Lemma numbered_file f : f ∈ g_Files geo -> 0 <= FirstBlock f /\ 0 < Blocks f /\ FirstBlock f + Blocks f <= g_total geo /\
  0 < g_Length f /\ Blocks f = block_count_of (g_Length f) s.
Proof.
  intros Hf. pose proof (ds_numbered _ Hds) as Hn. pose proof (numbered_bounds _ _ _ _ slice_pos Hn) as [_ Hb]. rewrite list.Forall_forall in Hb.
  destruct (Hb f Hf) as (? & ? & ?). destruct (numbered_member _ _ _ _ f Hn Hf). by split_and!.
Qed.

Lemma input_block_file f b : f ∈ g_Files geo -> 0 <= b < Blocks f -> input_block (FirstBlock f + b) = span (content (g_NZBFileIndex f)) (b * s) s.
Proof.
  intros Hf Hb. destruct (numbered_file f Hf) as (Hf0 & _ & Hft & _). unfold input_block.
  destruct (numbered_block s 0 (g_Files geo) (g_total geo) (FirstBlock f + b) slice_pos (ds_numbered _ Hds) ltac:(lia)) as (pre & g & post & Hsplit & Hg & Hu).
  assert (Hfg : forall h, h ∈ g_Files geo -> FirstBlock h <= FirstBlock f + b < FirstBlock h + Blocks h -> h = g).
  { intros h Hh Hr. rewrite Hsplit in Hh. apply elem_of_app in Hh as [Hh|[->|Hh]%list.elem_of_cons]; [|done|]; exfalso; apply (Hu h); try done; apply elem_of_app; auto. }
  rewrite <-(Hfg f Hf ltac:(lia)) in Hg.
  destruct (find _ (g_Files geo)) as [h|] eqn:Eh.
  - apply find_some in Eh as [Hh Hr]. apply list_elem_of_In in Hh. bool_hyps. rewrite (Hfg h Hh ltac:(lia)), <-(Hfg f Hf ltac:(lia)).
    do 2 f_equal. lia.
  - exfalso. apply list_elem_of_In in Hf. pose proof (find_none _ _ Eh f Hf) as Hno. cbn in Hno. rewrite andb_false_iff, Z.leb_gt, Z.ltb_ge in Hno. lia.
Qed.

Lemma input_block_valid : valid_blocks s (g_total geo) input_block.
Proof.
  intros i Hi. destruct (numbered_block s 0 (g_Files geo) (g_total geo) i slice_pos (ds_numbered _ Hds) Hi) as (pre & g & post & Hsplit & Hg & _).
  assert (Hin : g ∈ g_Files geo) by (rewrite Hsplit; apply elem_of_app; right; left).
  replace i with (FirstBlock g + (i - FirstBlock g)) by lia. rewrite input_block_file by (done || lia).
  destruct (ds_files _ Hds g Hin) as (_ & _ & Hb). pose proof slice_pos. unfold span. split; [|rewrite length_take; lia].
  unfold Par2Solver.bytes in *. by apply Forall_take, Forall_drop.
Qed.

(** *** What the pass is given *)

Let unk := seqZ (FirstBlock target + first_lost) lost_count.
Let last_lost := (lost_stop - 1) / s.
Let eb0 := FirstBlock target + first_lost.
Let eb1 := FirstBlock target + last_lost.
Let ds := Z.rem lost_start s.
Let de := lost_stop - last_lost * s.

Definition skip_of (f : PAR2GeometryFile) : Z := if g_NZBFileIndex f =? idx then seg else -1.

Definition served_of (f : PAR2GeometryFile) : Prelude.bytes :=
  concat (map (served_segment (data (g_NZBFileIndex f)) (skip_of f)) (seqZ 0 (count (g_NZBFileIndex f)))).

Lemma served_segments_same (d : Z -> Prelude.bytes) skip l : skip ∉ l -> map (served_segment d skip) l = map d l.
Proof.
  intros Hs. apply map_ext_in. intros i Hi. unfold served_segment. destruct (Z.eqb_spec i skip) as [->|]; [|done].
  destruct Hs. by apply list_elem_of_In.
Qed.

Lemma served_other f : g_NZBFileIndex f <> idx -> served_of f = content (g_NZBFileIndex f).
Proof.
  intros Hf. unfold served_of, skip_of, content, segments. rewrite (proj2 (Z.eqb_neq _ _) Hf). rewrite served_segments_same; [done|].
  rewrite elem_of_seqZ. lia.
Qed.

Lemma served_target : exists q, content idx = segments (data idx) seg ++ lost ++ q /\
  served_of target = segments (data idx) seg ++ repeat 0 (length lost) ++ q.
Proof.
  destruct target_file as [_ Ht]. destruct (ds_lost _ Hds) as [Hseg _].
  exists (concat (map (data idx) (seqZ (seg + 1) (count idx - seg - 1)))). split; [by apply segments_split|].
  unfold served_of, skip_of. rewrite Ht, Z.eqb_refl.
  assert (Hseq : seqZ 0 (count idx) = seqZ 0 seg ++ [seg] ++ seqZ (seg + 1) (count idx - seg - 1)).
  { replace (count idx) with (seg + (1 + (count idx - seg - 1))) at 1 by lia. rewrite seqZ_app by lia. f_equal. rewrite seqZ_app by lia. done. }
  rewrite Hseq, !map_app, !concat_app. rewrite (served_segments_same _ _ (seqZ 0 seg)), (served_segments_same _ _ (seqZ (seg + 1) _)) by (rewrite elem_of_seqZ; lia).
  cbn [map concat]. unfold served_segment at 1. by rewrite Z.eqb_refl, app_nil_r.
Qed.

Lemma same_post f : f ∈ g_Files geo -> g_NZBFileIndex f = idx -> f = target.
Proof.
  intros Hf E. destruct target_file as [Hin Ht]. eapply (NoDup_map_inj g_NZBFileIndex); [apply (ds_posts _ Hds)|done|done|congruence].
Qed.

Lemma served_length f : f ∈ g_Files geo -> Z.of_nat (length (served_of f)) = g_Length f.
Proof.
  intros Hf. destruct (ds_files _ Hds f Hf) as (_ & Hl & _). destruct (decide (g_NZBFileIndex f = idx)) as [E|E]; [|by rewrite served_other].
  pose proof (same_post f Hf E); subst f.
  destruct served_target as (q & Hc & Hs). rewrite E, Hc in Hl. rewrite Hs. rewrite !length_app in *. rewrite repeat_length. lia.
Qed.

Lemma lost_bounds : 0 <= lost_start < lost_stop /\ lost_stop <= g_Length target.
Proof.
  destruct target_file as [Hin Ht]. destruct (ds_files _ Hds _ Hin) as (_ & Hl & _). destruct served_target as (q & Hc & _).
  rewrite Ht, Hc, !length_app in Hl. destruct (ds_lost _ Hds) as [_ Hne]. unfold lost_stop, lost_start. destruct lost; [done|cbn [length] in *; lia].
Qed.

Lemma lost_blocks : 0 <= first_lost <= last_lost /\ last_lost < Blocks target /\ lost_count = last_lost - first_lost + 1 /\
  lost_start = first_lost * s + ds /\ 0 <= ds < s /\ lost_stop = last_lost * s + de /\ 0 < de <= s.
Proof.
  pose proof lost_bounds as (Hb1 & Hb2). pose proof slice_pos as Hs. destruct target_file as [Hin _]. destruct (numbered_file target Hin) as (_ & _ & _ & Hl & Hbl).
  pose proof (Z.div_mod lost_start s ltac:(lia)) as D1. pose proof (Z.mod_pos_bound lost_start s Hs) as M1.
  pose proof (Z.div_mod (lost_stop - 1) s ltac:(lia)) as D2. pose proof (Z.mod_pos_bound (lost_stop - 1) s Hs) as M2.
  unfold de, ds, last_lost, first_lost, lost_count. rewrite Z.rem_mod_nonneg by lia.
  assert (0 <= lost_start / s) by (apply Z.div_pos; lia). assert (lost_start / s <= (lost_stop - 1) / s) by (apply Z.div_le_mono; lia).
  assert ((lost_stop - 1) / s < Blocks target) by (rewrite Hbl; apply block_count_div; nia). lia.
Qed.

Lemma served_ok f b : f ∈ g_Files geo -> 0 <= b < Blocks f ->
  served unk input_block eb0 eb1 ds de (FirstBlock f + b) (span (served_of f) (b * s) s).
Proof.
  intros Hf Hb. pose proof slice_pos as Hs. pose proof lost_blocks as (L1 & L2 & L3 & L4 & L5 & L6 & L7). destruct target_file as [Hin Ht].
  assert (Hlen : length (span (served_of f) (b * s) s) = length (input_block (FirstBlock f + b))).
  { rewrite input_block_file by done. unfold span. rewrite !length_take, !length_drop. pose proof (served_length f Hf). destruct (ds_files _ Hds f Hf) as (_ & ? & _). lia. }
  destruct (decide (g_NZBFileIndex f = idx)) as [E|Hni].
  - pose proof (same_post f Hf E); subst f. clear E. destruct served_target as (q & Hc & Hsv). set (p := segments (data idx) seg) in *.
    assert (Hout : forall o n, 0 <= o -> 0 <= n -> o + n <= lost_start \/ lost_stop <= o ->
      span (served_of target) o n = span (content idx) o n).
    { intros o n Ho Hn Hor. rewrite Hc, Hsv. apply span_outside; try done; [by rewrite repeat_length|]. rewrite repeat_length.
      unfold lost_stop, lost_start in Hor. fold p in Hor. lia. }
    assert (Hsame : forall o n, 0 <= o -> 0 <= n -> o + n <= s -> b * s + o + n <= lost_start \/ lost_stop <= b * s + o ->
      span (span (served_of target) (b * s) s) o n = span (input_block (FirstBlock target + b)) o n).
    { intros o n Ho Hn Hle Hor. rewrite input_block_file, Ht by done. rewrite !span_span by nia. apply Hout; nia. }
    assert (Hall : forall x, span x 0 s = take (Z.to_nat s) x) by (intros x; unfold span; done).
    assert (Hfull : forall g o, take (Z.to_nat s) (span g o s) = span g o s) by (intros g o; unfold span; by rewrite take_take, Nat.min_id).
    split_and!; [done| | |].
    + intros Hno. unfold unk in Hno. rewrite elem_of_seqZ in Hno. specialize (Hsame 0 s ltac:(lia) ltac:(lia) ltac:(lia)).
      rewrite !Hall, Hfull in Hsame. rewrite Hsame by nia. by rewrite input_block_file, Hfull by done.
    + unfold eb0. intros E. assert (b = first_lost) as -> by lia. specialize (Hsame 0 ds ltac:(lia) ltac:(lia) ltac:(lia) ltac:(lia)). done.
    + unfold eb1. intros E. assert (b = last_lost) as -> by lia. specialize (Hsame de (s - de) ltac:(lia) ltac:(lia) ltac:(lia) ltac:(lia)).
      unfold span at 1 3 in Hsame. rewrite !take_ge in Hsame; [done| |]; rewrite length_drop; [|unfold span; rewrite length_take; lia].
      pose proof (input_block_valid (FirstBlock target + last_lost)) as [_ Hv]; [destruct (numbered_file target Hin); lia|]. lia.
  - assert (Hspan : span (served_of f) (b * s) s = input_block (FirstBlock f + b)) by (rewrite input_block_file by done; by rewrite served_other).
    rewrite Hspan. split_and!; try done; by intros <-.
Qed.

(** *** The run *)

Context (Hrs : responsive).
Let B := Budget req.

Section Run.
Context (exps : list Z).
Hypothesis Hgeo : geometry s (g_total geo) unk exps.
Hypothesis Hexps : Forall (fits 32) exps.

Let reached := progress s (g_total geo) unk exps input_block eb0 eb1 ds de.

Lemma file_answer f n a solver e w : f ∈ g_Files geo -> account now B n a -> n + g_Length f <= MaxBytes B -> reached (FirstBlock f) solver e ->
  exists solver' e' a' n', (pass_file r req (Z.of_nat (length lost)) (list_to_set unk) (solver, e, a) f w).2 = Ok (solver', e', a') /\
    n' <= n + g_Length f /\ account now B n' a' /\ reached (FirstBlock f + Blocks f) solver' e'.
Proof.
  intros Hf Ha Hle Hr. destruct (numbered_file f Hf) as (Hf0 & Hb & Hft & Hl & Hbl). pose proof (served_length f Hf) as Hsl.
  destruct (ds_files _ Hds f Hf) as (Hc & _ & _). unfold pass_file. fold geo s idx seg (skip_of f).
  rewrite <-Hsl in *. rewrite Hbl.
  apply (accumulate_answer (rs_alive Hrs) now B (rs_clock Hrs) s (g_total geo) unk exps input_block Hgeo Hexps input_block_valid eb0 eb1 ds de
    (FirstBlock f) (served_of f)) with (count := count (g_NZBFileIndex f)) (data := data (g_NZBFileIndex f)); try done.
  - lia.
  - intros b Hbb. apply served_ok; [done|lia].
  - intros w'. by apply (rs_count Hrs).
  - intros i w' Hi Hne. apply (rs_read Hrs); [done|done|]. intros [E1 E2]. apply Hne. unfold skip_of. by rewrite E1, Z.eqb_refl.
  - unfold skip_of. destruct (Z.eqb_spec (g_NZBFileIndex f) idx) as [E|]; [|lia]. intros _. rewrite E. fold lost.
    split; [|done]. destruct (ds_lost _ Hds) as [_ Hne]. destruct lost; [done|cbn [length]; lia].
Qed.

Lemma files_answer files : (forall f, f ∈ files -> f ∈ g_Files geo) -> forall base stop n a solver e w, numbered s base files stop ->
  account now B n a -> n + lengths files <= MaxBytes B -> reached base solver e ->
  exists solver' e' a' n', (wfold (pass_file r req (Z.of_nat (length lost)) (list_to_set unk)) (solver, e, a) files w).2 = Ok (solver', e', a') /\
    n' <= n + lengths files /\ account now B n' a' /\ reached stop solver' e'.
Proof.
  induction files as [|f files IH]; intros Hin base stop n a solver e w Hn Ha Hle Hr; cbn [numbered lengths foldr wfold] in *.
  { subst. exists solver, e, a, n. split_and!; try done. lia. }
  fold (lengths files) in *. destruct Hn as (Hfb & Hl & Hb & Hn). subst base. pose proof (numbered_lengths _ _ _ _ slice_pos Hn) as [Hpos _].
  destruct (file_answer f n a solver e w (Hin f ltac:(left)) Ha ltac:(lia) Hr) as (s1 & e1 & a1 & n1 & E & Hle1 & Ha1 & Hr1).
  unfold call_bind. destruct (pass_file _ _ _ _ _ f w) as [w1 res]. cbn [snd] in E. subst res.
  destruct (IH ltac:(intros g Hg; apply Hin; by right) _ _ n1 a1 s1 e1 w1 Hn Ha1 ltac:(lia) Hr1) as (s2 & e2 & a2 & n2 & E2 & Hle2 & Ha2 & Hr2).
  exists s2, e2, a2, n2. split_and!; try done. lia.
Qed.

(** The solver has every slice, then every surviving block. *)
Lemma slices_answer : exists solver,
  (let? solver := solver_or (NewPAR2Solver s (g_total geo) unk exps) in
   rfold add_slice solver (map (fun e => MkSlice e (recovery_slice s (g_total geo) (fun i => padded s (input_block i)) e)) exps)) = Ok solver /\
  reached 0 solver (MkEdges eb0 eb1 ds de None None).
Proof.
  pose proof input_block_valid as Hv.
  assert (Hnew : NewPAR2Solver s (g_total geo) unk exps = Ok (initial_solver s (g_total geo) unk exps)) by by apply NewPAR2Solver_Ok.
  destruct (AddRecoverySlice_all s (g_total geo) unk exps input_block Hgeo Hexps Hv exps _ (initial_sinv s (g_total geo) unk exps input_block Hgeo) eq_refl)
    as (solver & E & Hs & Hk & Hseen).
  { exact (geo_exps _ _ _ _ Hgeo). }
  { intros e [row Hrow]%list_elem_of_lookup. exists row. split; [done|]. cbn [haveSlice initial_solver].
    apply lookup_replicate. split; [done|]. rewrite (geo_dims _ _ _ _ Hgeo). by eapply lookup_lt_Some. }
  exists solver. rewrite Hnew. cbn [solver_or rbind]. rewrite rfold_map. split.
  - revert E. generalize (initial_solver s (g_total geo) unk exps) as st. generalize exps as l. clear. intros l.
    induction l as [|e l IH]; intros st; cbn [rfold]; [by intros [= ->]|]. unfold add_slice at 1. cbn [Exponent Data].
    destruct (AddRecoverySlice st e _) as [s1|]; [|done]. cbn [solver_or rbind]. apply IH.
  - split; [done|]. split; [rewrite Hseen; cbn [slicesSeen initial_solver]; rewrite <-(geo_dims _ _ _ _ Hgeo); lia|]. split.
    + intros i. rewrite Hk. split; [by intros ?%not_elem_of_empty|lia].
    + unfold edges_true. cbn. split_and!; auto.
Qed.

Lemma solve_answer solver e : reached (g_total geo) solver e -> (exists inv, invertGF16Matrix (coeff_matrix unk exps) = Ok inv) ->
  exists solver', Solve solver = Ok (map (fun i => padded s (input_block i)) unk, solver').
Proof.
  intros (Hs & Hseen & Hk & _) [inv Hinv]. pose proof input_block_valid as Hv.
  assert (Hsz : Z.of_nat (base.size (known solver)) = g_total geo - Z.of_nat (length exps)).
  { rewrite <-(surviving_size s (g_total geo) unk exps (elements (known solver)) Hgeo); [|apply NoDup_elements|].
    - by rewrite list_to_set_elements_L.
    - intros i. by rewrite elem_of_elements. }
  assert (E : exists out s', Solve solver = Ok (out, s')).
  { unfold Solve. pose proof Hs as []. rewrite sv_solved, sv_unknown, sv_coeff, sv_total, Hinv, Hseen, Z.eqb_refl. cbn [negb].
    rewrite Hsz, (geo_dims _ _ _ _ Hgeo), Z.eqb_refl. cbn [negb]. eauto. }
  destruct E as (out & s' & E). pose proof (Solve_blocks s (g_total geo) unk exps input_block Hgeo Hexps Hv solver out s' Hs E) as ->. by exists s'.
Qed.

End Run.

Lemma target_block b : 0 <= b < Blocks target -> input_block (FirstBlock target + b) = span (content idx) (b * s) s /\
  Z.of_nat (length (input_block (FirstBlock target + b))) = p_Length (block_proof (Proof_ req) b).
Proof.
  intros Hb. destruct target_file as [Hin Ht]. rewrite input_block_file, Ht by done. split; [done|].
  destruct (ds_domain _ Hds) as (Hd & Hss & Hdl). destruct (ds_files _ Hds _ Hin) as (_ & Hl & _). rewrite Ht in Hl.
  destruct (numbered_file target Hin) as (_ & _ & _ & Hpos & Hbl). pose proof slice_pos.
  assert (Hr : 0 <= b /\ b * s < g_Length target) by (apply block_count_div; [done|done|lia]).
  unfold block_proof. cbn [p_Length]. unfold domain_SliceSize, domain_Length in *. rewrite Hss, Hdl.
  unfold span. rewrite length_take, length_drop. nia.
Qed.

(** Every rebuilt block passes, and together they give the lost segment. *)
Lemma verify_answer w : exists out,
  (wfold (verify_block md5 (Proof_ req) s first_lost last_lost lost_start lost_stop) []
     (zip (seqZ 0 lost_count) (map (fun i => padded s (input_block i)) unk)) w).2 = Ok out /\ out = lost.
Proof.
  pose proof lost_blocks as (L1 & L2 & L3 & _). pose proof lost_bounds as [Hb1 Hb2]. destruct target_file as [Hin Ht].
  destruct (ds_domain _ Hds) as (Hd & Hss & Hdl). pose proof slice_pos as Hs.
  assert (Hlk : forall i x, map (fun i => padded s (input_block i)) unk !! i = Some x ->
    0 <= first_lost + Z.of_nat i <= last_lost /\ x = padded s (input_block (FirstBlock target + (first_lost + Z.of_nat i)))).
  { intros i x Hi. rewrite list_map_lookup in Hi. unfold unk in Hi. destruct (seqZ _ _ !! i) as [u|] eqn:Eu; [|done]. injection Hi as <-.
    apply lookup_seqZ in Eu as [-> Hi]. split; [lia|]. do 2 f_equal. lia. }
  assert (Hex : exists out, (wfold (verify_block md5 (Proof_ req) s first_lost last_lost lost_start lost_stop) []
     (zip (seqZ 0 lost_count) (map (fun i => padded s (input_block i)) unk)) w).2 = Ok out /\ True).
  { apply (wfold_answer _ (fun _ _ => True)); [|done]. intros pre [i x] post out w0 Hsplit _.
    assert (Hk : zip (seqZ 0 lost_count) (map (fun i => padded s (input_block i)) unk) !! length pre = Some (i, x)) by (rewrite Hsplit, list_lookup_middle; done).
    apply lookup_zip_with_Some in Hk as (i' & x' & [= <- <-] & Hi & Hx). apply lookup_seqZ in Hi as [-> _]. apply Hlk in Hx as [Hr ->].
    destruct (target_block (first_lost + Z.of_nat (length pre)) ltac:(lia)) as [Eb El]. rewrite Z.add_0_l.
    destruct (verify_block_answer md5 (rs_alive Hrs) (Proof_ req) lost_start lost_stop Hd ltac:(lia) out (Z.of_nat (length pre))
      (input_block (FirstBlock target + (first_lost + Z.of_nat (length pre)))) w0) as [out' E]; rewrite ?Hss; fold last_lost first_lost; [lia|done|rewrite Eb; apply (ds_hashes _ Hds); lia|].
    exists out'. split; [|done]. rewrite Hss in E. exact E. }
  destruct Hex as (out & E & _). exists out. split; [done|].
  destruct (wfold _ _ _ w) as [w' res] eqn:Erun. cbn [snd] in E. subst res. rewrite <-Hss, L3 in Erun.
  destruct (ds_files _ Hds _ Hin) as (_ & Hl & _). rewrite Ht in Hl.
  apply (verify_blocks_span md5 (Proof_ req) first_lost last_lost lost_start lost_stop _ (content idx)) in Erun; try done; try lia.
  - rewrite Erun. destruct served_target as (q & -> & _). unfold span, lost_start, lost_stop, lost_start. rewrite Nat2Z.id, drop_app_length.
    rewrite take_app_le by lia. rewrite take_ge by lia. done.
  - by rewrite Hss.
  - by rewrite Hss.
  - rewrite length_map. unfold unk. rewrite length_seqZ. lia.
  - intros i x Hi _. rewrite Hss in Hi. apply Hlk in Hi as [Hr ->]. destruct (target_block (first_lost + Z.of_nat i) ltac:(lia)) as [Eb El].
    cbv zeta. rewrite <-El, Nat2Z.id, padded_take, Eb. change (p_Offset (block_proof (Proof_ req) (first_lost + Z.of_nat i))) with
      ((first_lost + Z.of_nat i) * domain_SliceSize (Proof_ req)). rewrite Hss, <-Eb, El. rewrite Eb at 1. symmetry.
    assert (Hoff : (first_lost + Z.of_nat i) * s < g_Length target) by (pose proof lost_blocks as (_ & _ & _ & _ & _ & L6 & L7); nia).
    apply span_end; [nia|rewrite <-El; lia|]. rewrite <-El, Eb. unfold span. rewrite length_take, length_drop. nia.
Qed.

Context (pre post : list Z) (v : Z) (cost : Z -> Z) (src : ByteSource W) (fs : list framed) (e0 : Z).
Hypothesis Hsp : supplied pre post v cost src fs e0.
Hypothesis Haf : affordable pre cost src.

Let exps := seqZ e0 lost_count.

Lemma repair_geometry : geometry s (g_total geo) unk exps.
Proof.
  pose proof lost_blocks as (L1 & L2 & L3 & _). destruct target_file as [Hin _]. destruct (numbered_file target Hin) as (Hf0 & _ & Hft & _).
  destruct (ds_slice _ Hds) as (Hs0 & Hs4 & Hsm). pose proof (ds_total _ Hds) as Ht. destruct (sp_count _ _ _ _ _ _ _ Hsp) as [Hc1 Hc2].
  unfold unk, exps. split; rewrite ?length_seqZ; try done; try lia; try apply NoDup_seqZ.
  apply list.Forall_forall. intros i Hi%elem_of_seqZ. lia.
Qed.

Lemma exps_fit : Forall (fits 32) exps.
Proof.
  destruct (sp_exponents _ _ _ _ _ _ _ Hsp) as (He0 & He1 & _). apply list.Forall_forall. intros e He%elem_of_seqZ. unfold fits. lia.
Qed.

Lemma exps_invertible : exists inv, invertGF16Matrix (coeff_matrix unk exps) = Ok inv.
Proof.
  destruct (sp_exponents _ _ _ _ _ _ _ Hsp) as (He0 & _). apply (contiguous_invertible s (g_total geo) unk exps repair_geometry exps_fit e0 He0).
  intros k Hk. unfold unk in Hk. rewrite length_seqZ in Hk. apply nth_lookup_Some. unfold exps. rewrite lookup_seqZ_lt; [done|lia].
Qed.

Lemma slices_offered : to_slices (take (Z.to_nat lost_count) (first_slices ∅ (volume_slices (g_RecoverySetID geo) s fs))) =
  map (fun e => MkSlice e (recovery_slice s (g_total geo) (fun i => padded s (input_block i)) e)) exps.
Proof.
  destruct (sp_exponents _ _ _ _ _ _ _ Hsp) as (_ & _ & He). unfold exps. rewrite <-He, firstn_map, map_map. unfold to_slices.
  apply map_ext_in. intros [e x] Hin. cbn [fst snd]. f_equal. apply (sp_slices _ _ _ _ _ _ _ Hsp).
  apply list_elem_of_In, elem_of_take_in in Hin. revert Hin. generalize (∅ : gset Z). generalize (volume_slices (g_RecoverySetID geo) s fs) as l. clear.
  induction l as [|[e' x'] l IH]; intros h; cbn [first_slices]; [done|]. destruct (bool_decide (e' ∈ h)).
  - intros Hin. right. by eapply IH.
  - intros [->|Hin]%list.elem_of_cons; [left|right; by eapply IH].
Qed.

Lemma volumes_cost_nonneg : 0 <= volumes_cost pre cost src.
Proof.
  unfold volumes_cost. assert (0 <= Size src) by (destruct (sp_packets _ _ _ _ _ _ _ Hsp) as (_ & [-> _] & _); lia).
  assert (0 <= sum_sizes (map cost pre)); [|lia]. apply sum_nonneg, list.Forall_forall. intros m (i & <- & Hi)%list_elem_of_In%in_map_iff.
  apply list_elem_of_In in Hi. destruct (sp_useless _ _ _ _ _ _ _ Hsp i Hi) as [[? _]|(? & _ & _ & ? & _)]; done.
Qed.

(** From the measured span on. *)
Lemma span_answer a w : account now B (others seg (count idx) (data idx)) a ->
  exists n, n <= MaxBytes B /\ (repair_span md5 r req target lost_start (Z.of_nat (length lost)) a w).2 = Ok (MkResult lost n lost_count).
Proof.
  intros Ha. pose proof lost_blocks as (L1 & L2 & L3 & L4 & L5 & L6 & L7). pose proof lost_bounds as [Hb1 Hb2]. pose proof slice_pos as Hs.
  destruct target_file as [Hin Ht]. destruct (numbered_file target Hin) as (Hf0 & _ & Hft & _). destruct (sp_count _ _ _ _ _ _ _ Hsp) as [Hc1 Hc2].
  destruct (ds_slice _ Hds) as (_ & _ & Hsm). destruct Haf as [[Hen1 Hen2] Haf1 Haf2]. unfold read_cost in *.
  change (Z.of_nat (length (content idx)) - Z.of_nat (length lost)) with (others seg (count idx) (data idx)) in *. set (o := others seg (count idx) (data idx)) in *.
  assert (Ho : 0 <= o).
  { unfold o, others. rewrite (segments_split seg (count idx) (data idx)) by apply (ds_lost _ Hds). rewrite !length_app. unfold size_of. lia. }
  pose proof volumes_cost_nonneg as Hvc.
  pose proof (numbered_lengths _ _ _ _ Hs (ds_numbered _ Hds)) as [Hlen0 Hlen1].
  unfold repair_span. fold geo s. fold lost_stop. change MaxPAR2UnknownBlocks with 256 in *. change MaxPAR2SliceBytes with 67108864 in Hsm.
  rewrite i64_small by (unfold is_i64, minInt64, maxInt64; nia). destruct (Z.ltb_spec (s * 256) (Z.of_nat (length lost))) as [Hbig|_].
  { unfold lost_stop in *. nia. }
  destruct (Z.ltb_spec (g_Length target) lost_stop); [lia|].
  rewrite !Z.quot_div_nonneg by lia. fold last_lost first_lost. rewrite <-L3.
  destruct (Z.leb_spec lost_count 0); [lia|]. destruct (Z.ltb_spec 256 lost_count); [lia|]. cbn [orb].
  assert (Hpay : PayloadBytes geo = lengths (g_Files geo)).
  { apply (numbered_payload s (g_total geo)); [done|apply (ds_numbered _ Hds)|]. pose proof (ds_total _ Hds) as Htot. change MaxPAR2TotalBlocks with 32768 in Htot.
    change maxInt64 with 9223372036854775807. nia. }
  destruct Ha as (Ha1 & Ha2 & Ha3 & Ha4). rewrite Hpay, Ha3, i64_small by (unfold is_i64, minInt64; lia).
  destruct (Z.ltb_spec (MaxBytes (Budget req)) (o + lengths (g_Files geo))); [lia|]. assert (Ha : account now B o a) by done.
  destruct (sp_volumes _ _ _ _ _ _ _ Hsp) as (vols & Hv1 & Hv2). destruct (sp_exponents _ _ _ _ _ _ _ Hsp) as (He0 & He1 & He).
  destruct (collect_answer (rs_alive Hrs) now B (rs_clock Hrs) r geo lost_count ltac:(lia) vols pre post v cost src fs Hv1 Hv2
    (sp_once _ _ _ _ _ _ _ Hsp) (sp_useless _ _ _ _ _ _ _ Hsp) (sp_source _ _ _ _ _ _ _ Hsp) (sp_packets _ _ _ _ _ _ _ Hsp)) with (n := o) (a := a) (w := w)
    as (a1 & n1 & Ec & Hn1 & Ha1').
  { apply (f_equal length) in He. rewrite length_take, length_map, length_seqZ in He. fold s. lia. }
  { intros e d1 d2 Hd1 Hd2. rewrite (sp_slices _ _ _ _ _ _ _ Hsp _ _ Hd1), (sp_slices _ _ _ _ _ _ _ Hsp _ _ Hd2). done. }
  { done. } { unfold B. lia. } { fold s. unfold B. lia. }
  unfold call_bind at 1. destruct (collectRecoverySlices _ _ _ _ w) as [w1 res]. cbn [snd] in Ec. subst res.
  assert (Hcs : collected_slices geo lost_count fs = map (fun e => MkSlice e (recovery_slice s (g_total geo) (fun i => padded s (input_block i)) e)) exps)
    by exact slices_offered.
  rewrite Hcs. assert (Hex : map Exponent (map (fun e => MkSlice e (recovery_slice s (g_total geo) (fun i => padded s (input_block i)) e)) exps) = exps)
    by (rewrite map_map; apply map_id).
  rewrite Hex. fold unk eb0 eb1 ds de.
  destruct (slices_answer exps repair_geometry exps_fit) as (solver & -> & Hr0).
  destruct (files_answer exps repair_geometry exps_fit (g_Files geo) (fun f Hf => Hf) 0 (g_total geo) n1 a1 solver _ w1 (ds_numbered _ Hds) Ha1' ltac:(unfold B in *; lia) Hr0)
    as (solver2 & e2 & a2 & n2 & Ef & Hn2 & Ha2' & Hr2).
  unfold call_bind at 1. destruct (wfold (pass_file _ _ _ _) _ _ w1) as [w2 res]. cbn [snd] in Ef. subst res.
  match goal with |- context [call_bind (check ?a) ?k ?w] => destruct (check_bind (rs_alive Hrs) now B (rs_clock Hrs) k n2 a w Ha2') as [w3 ->] end. cbn beta iota.
  destruct (solve_answer exps repair_geometry exps_fit solver2 e2 Hr2 exps_invertible) as (solver3 & ->). cbn [solver_or].
  rewrite length_map. unfold unk at 1. rewrite length_seqZ, Z2Nat.id, Z.eqb_refl by lia. cbn [negb].
  destruct (verify_answer w3) as (out & Ev & ->).
  unfold call_bind at 1. destruct (wfold (verify_block _ _ _ _ _ _ _) _ _ w3) as [w4 res]. cbn [snd] in Ev. subst res.
  assert (Hedges : edges_verify e2 (map (fun i => padded s (input_block i)) unk) = None).
  { destruct Hr2 as (_ & _ & _ & Hed). apply (edges_answer s input_block eb0 lost_count ds de); [lia|lia|lia| |].
    - intros i Hi. apply input_block_valid. unfold eb0 in Hi. lia.
    - replace (eb0 + lost_count - 1) with eb1 by (unfold eb0, eb1; lia). done. }
  rewrite Hedges, Z.eqb_refl. cbn [negb call_ret snd]. destruct Ha2' as (_ & _ & -> & _). exists n2. split; [unfold B in *; lia|done].
Qed.

End Described.

(** C1. A post that can be repaired is repaired, exactly.  When the reader answers, the
    context lives and the clock stays within the budget's duration; when the geometry
    numbers the recovery set, each file has the length it is described with and each
    block of the damaged file has the hash its proof records; when the lost segment
    touches at most 256 blocks and one of the first 32 volumes holds intact slices of as
    many consecutive exponents, those before it giving nothing; and when the budget
    covers the reads: then a repair succeeds, the bytes it gives are those of the lost
    segment, and it has rebuilt no more blocks than the segment touches. *)
Theorem repair_exact target pre post v cost src fs e0 w :
  responsive -> described target -> supplied pre post v cost src fs e0 -> affordable pre cost src ->
  exists n, n <= MaxBytes (Budget req) /\ (RepairSegment md5 (Some r) req w).2 = Ok (MkResult lost n lost_count).
Proof.
  intros Hrs Hds Hsp Haf. destruct (ds_domain _ Hds) as (Hd & Hss & Hdl). destruct (ds_lost _ Hds) as [Hseg Hne].
  destruct (target_file target Hds) as [Hin Ht]. destruct (ds_files _ Hds _ Hin) as (_ & Hl & _). rewrite Ht in Hl.
  destruct Haf as [[Hen1 Hen2] Haf1 Haf2] eqn:Eaf. pose proof (numbered_lengths _ _ _ _ (slice_pos _ Hds) (ds_numbered _ Hds)) as [Hlen0 _].
  unfold RepairSegment, Enabled. destruct (Z.ltb_spec 0 (MaxBytes (Budget req))); [|lia]. destruct (Z.ltb_spec 0 (MaxDuration (Budget req))); [|lia].
  cbn [andb negb]. rewrite (rs_now Hrs). fold geo s idx seg. destruct (Z.leb_spec s 0); [pose proof (slice_pos _ Hds); lia|].
  rewrite (ds_target _ Hds), Hdl, Hss, !Z.eqb_refl. cbn [negb].
  unfold call_bind at 1. destruct (now w) as [w1 t] eqn:En.
  set (a := MkAccount (Budget req) now (t + MaxDuration (Budget req)) 0).
  assert (Ha : account now (Budget req) 0 a) by (split_and!; try done; exists w; by rewrite En).
  assert (Hvc : 0 <= volumes_cost pre cost src) by (by apply (volumes_cost_nonneg target pre post v cost src fs e0)).
  destruct (measure_answer (rs_alive Hrs) now (Budget req) (rs_clock Hrs) r idx seg (count idx) (data idx)) with (n := 0) (a := a) (w := w1) as (a1 & Em & Ha1).
  - intros w'. rewrite <-Ht. by apply (rs_count Hrs).
  - done.
  - intros i w' Hi Hni. rewrite <-Ht in *. apply (rs_read Hrs); [done|done|]. intros [_ ?]. done.
  - done.
  - done.
  - unfold read_cost in *. unfold others, size_of. fold (content idx) lost. lia.
  - fold (content idx) in Em. rewrite Hl in Em. unfold call_bind at 1.
    destruct (measureDamagedSegment _ _ _ _ _ w1) as [w2 res]. cbn [snd] in Em. subst res. unfold size_of. fold lost lost_start.
    rewrite Z.add_0_l in Ha1. eapply span_answer; try done.
Qed.



End Exact.

(** ** A post of two segments, the first of them lost *)

Module RepairSample.
Import Par2Sample.

Definition segment (_ i : Z) : Prelude.bytes := if i =? 0 then [1; 2; 3; 4] else [5; 6; 7; 8].
Definition hash (x : Prelude.bytes) : Prelude.bytes := take 16 (x ++ repeat 0 16).
Definition file : PAR2GeometryFile := MkGeometryFile [97] 8 0 0 2.
Definition domain : PAR2ProofDomain := MkDomain 4 (MkProofFile 0 8 (hash [1; 2; 3; 4] ++ hash [5; 6; 7; 8])).
Definition slice : Prelude.bytes := [4; 4; 4; 12].
Definition packet_ : framed := MkFramed (repeat 7 16) (repeat 0 16) (POther (par2TypePrefix ++ par2TypeRecoverySlice) (le_bytes 4 0 ++ slice)).
Definition volume : ByteSource unit := NewMemSource [118] (frames [packet_]).
Definition request : PAR2RepairRequest (W := unit) :=
  MkRequest (MkGeometry 4 [] [file] 2) domain 0 0 (MkBudget 1000 1) (Some (fun w => (w, 0))).
Definition reader : PAR2RepairReader (W := unit) :=
  MkReader (fun _ w => (w, Some 2)) (fun f i w => (w, if i =? 0 then Err io_EOF else Ok (segment f i)))
    (fun w => (w, [1])) (fun _ w => (w, Ok volume)).

Lemma sample_responsive : responsive (H := forever) reader request (fun w => (w, 0)) (fun _ => 2) segment.
Proof.
  split; [intros w; reflexivity|reflexivity|intros; reflexivity|intros; reflexivity|].
  intros f i w Hf Hi Hno. apply list_elem_of_singleton in Hf as ->. cbn in *. destruct (Z.eqb_spec i 0); [lia|]. done.
Qed.

Lemma sample_described : described hash request (fun _ => 2) segment file.
Proof.
  split.
  - split; [reflexivity|]. split; [reflexivity|]. vm_compute. discriminate.
  - apply NoDup_singleton.
  - vm_compute. done.
  - vm_compute. discriminate.
  - reflexivity.
  - intros f ->%list_elem_of_singleton. split; [lia|]. split; [reflexivity|]. repeat constructor; vm_compute; discriminate.
  - split; [cbn; lia|discriminate].
  - split; [split; [split; [reflexivity|vm_compute; discriminate]|reflexivity|reflexivity]|done].
  - intros b Hb. cbn in Hb. assert (b = 0 \/ b = 1) as [->| ->] by lia; reflexivity.
Qed.

Lemma sample_supplied : supplied (H := forever) reader request (fun _ => 2) segment [] [] 1 (fun _ => 0) volume [packet_] 0.
Proof.
  assert (Hf : Forall wf_framed [packet_]).
  { apply list.Forall_cons. split; [|constructor]. unfold wf_framed, wf_packet. cbn. split_and!; done. }
  split.
  - vm_compute. split; discriminate.
  - exists [1]. split; reflexivity.
  - apply not_elem_of_nil.
  - intros i ?%not_elem_of_nil. done.
  - reflexivity.
  - split; [done|]. split; [apply mem_reads_as; intros w; reflexivity|]. split; [discriminate|].
    split; [split; [reflexivity|]; split; [reflexivity|vm_compute; discriminate]|]. split; vm_compute; discriminate.
  - intros e x Hin. assert (E : volume_slices (g_RecoverySetID (Geometry request)) (g_SliceSize (Geometry request)) [packet_] = [(0, slice)]) by reflexivity.
    rewrite E in Hin. apply list_elem_of_singleton in Hin as [= -> ->]. reflexivity.
  - split; [lia|]. split; [vm_compute; discriminate|reflexivity].
Qed.

Lemma sample_affordable : affordable request (fun _ => 2) segment [] (fun _ => 0) volume.
Proof. split; [split; [reflexivity|split; [reflexivity|vm_compute; discriminate]]|vm_compute; discriminate|vm_compute; discriminate]. Qed.

End RepairSample.
Import RepairSample.

Lemma repair_exact_witness : exists n, (RepairSegment (H := Par2Sample.forever) hash (Some reader) request tt).2 = Ok (MkResult [1; 2; 3; 4] n 1).
Proof.
  destruct (repair_exact (H := Par2Sample.forever) hash reader request (fun w => (w, 0)) (fun _ => 2) segment file [] [] 1 (fun _ => 0) volume [packet_] 0 tt
    sample_responsive sample_described sample_supplied sample_affordable) as (n & _ & E).
  exists n. rewrite E. reflexivity.
Defined.

Lemma slices_of_one_volume_witness : exists v src exps, offers (H := Par2Sample.forever) reader (Geometry request) 1 v src exps.
Proof.
  pose (a := MkAccount (W := unit) (Budget request) (fun w => (w, 0)) 1 0).
  destruct (sp_packets _ _ _ _ _ _ _ _ _ _ _ sample_supplied) as (F1 & F2 & F3 & F4 & F5 & F6).
  destruct (collect_answer (H := Par2Sample.forever) ltac:(intros w; reflexivity) (fun w => (w, 0)) (Budget request) ltac:(intros; reflexivity) reader (Geometry request) 1
    ltac:(reflexivity) [1] [] [] 1 (fun _ => 0) volume [packet_] ltac:(reflexivity) ltac:(reflexivity) ltac:(apply not_elem_of_nil)
    ltac:(by intros i ?%not_elem_of_nil) ltac:(reflexivity) ltac:(done) ltac:(vm_compute; discriminate)) with (n := 0) (a := a) (w := tt) as (a' & n' & E & _).
  - intros e d1 d2 H1 H2. assert (E : volume_slices (g_RecoverySetID (Geometry request)) (g_SliceSize (Geometry request)) [packet_] = [(0, slice)]) by reflexivity.
    rewrite E in H1, H2. apply list_elem_of_singleton in H1, H2. congruence.
  - split_and!; try done. by exists tt.
  - vm_compute. discriminate.
  - vm_compute. discriminate.
  - destruct (collectRecoverySlices (H := Par2Sample.forever) reader (Geometry request) 1 a tt) as [w' res] eqn:Ec. cbn [snd] in E. subst res.
    destruct (slices_of_one_volume (H := Par2Sample.forever) reader (Geometry request) 1 a tt w' _ a' ltac:(reflexivity) Ec) as (v & src & exps & Ho & _).
    by exists v, src, exps.
Defined.
