(* ===== verification/Par2Match.v ===== *)
(** PAR2 discovery: internal/nntp/par2fetch.go and par2match.go, over the documents
    of nzb.go.

    The index file of a post is found by its name or by its first bytes; the files it
    describes are matched to the files of the post by the hash of their first 16 KiB.
    Sources of files are what the provider gives for a list of segments, a parameter.
    Sizes are compared as doubles. *)

From Stdlib Require Import ZArith Lia SpecFloat Sorting.Sorted.
From stdpp Require Import base list numbers strings gmap sets.
From S2P Require Import GF16 Par2Solver.
From S2P Require Import Prelude Outcome Bencode ContentProof LaneCandidate Text ByteSource Par2Packets Par2Recovery Par2Proof Par2Repair Doubles.

Local Open Scope Z_scope.
Local Open Scope harbor_scope.

(** ** The document *)

Record NZBSegment := MkSegment { Number : Z; s_Bytes : Z; MessageID : Prelude.bytes; PostedAt : Z }.

Record NZBFile := MkNZBFile {
  Subject : Prelude.bytes; Poster : Prelude.bytes; Date : Z; Groups : list Prelude.bytes;
  Segments : list NZBSegment; TotalBytes : Z
}.

Record NZB := MkNZB { Password : Prelude.bytes; Title : Prelude.bytes; Category : Prelude.bytes; nzb_Files : list NZBFile }.

(** The files with their indexes. *)
Definition indexed (files : list NZBFile) : list (Z * NZBFile) := zip (seqZ 0 (Z.of_nat (length files))) files.

Fixpoint strings_Contains (s sub : Prelude.bytes) : bool :=
  has_prefix sub s || match s with [] => false | _ :: s => strings_Contains s sub end.

(** [strings.Contains(strings.ToLower(subject), ".par2")]: no letter outside ASCII
    lowers to one of these. *)
Definition names_par2 (subject : Prelude.bytes) : bool := strings_Contains (ascii_lower subject) (str ".par2").

(** [strings.EqualFold] where one side is hexadecimal: no letter outside ASCII folds to
    a digit of it. *)
Definition EqualFold (a b : Prelude.bytes) : bool := bool_decide (ascii_lower a = ascii_lower b).

(** The declared size of the first segment, cut to what is read of it. *)
Definition first_bytes (file : NZBFile) (limit : Z) : Z :=
  let first := match Segments file with seg :: _ => s_Bytes seg | [] => 0 end in
  let first := if first <=? 0 then TotalBytes file else first in
  Z.min first limit.

(** ** Sizes *)

Definition par2IdentityPrefixBytes : Z := Z.shiftl 16 10.
Definition maxPAR2IdentityCandidates : Z := 256.
Definition maxPAR2IdentityDeclaredBytes : Z := Z.shiftl 64 20.
Definition par2IdentitySizeTolerance : spec_float := Eval vm_compute in fdiv (float64 8) (float64 100).
Definition par2IdentityAmbiguityTolerance : spec_float := Eval vm_compute in fdiv (float64 1) (float64 1000).

Definition par2RelativeSizeDiff (declared recovered : Z) : spec_float :=
  if (declared <=? 0) || (recovered <=? 0) then inf
  else
    let diff := fdiv (float64 (declared - recovered)) (float64 recovered) in
    if SFltb diff (S754_zero false) then SFopp diff else diff.

Definition par2SizePlausible (declared recovered : Z) : bool :=
  SFleb (par2RelativeSizeDiff declared recovered) par2IdentitySizeTolerance.

(** ** Candidates *)

(** An index stands with its file. *)
Record scan := MkScan { s_indexes : list (Z * NZBFile); s_declared : Z; s_truncated : bool }.

(** The tests that skip a file before the bounds are asked. *)
Definition plausible (info : PAR2Info) (par2FileIndex : Z) (f : Z * NZBFile) : bool :=
  let (idx, file) := f in
  negb ((idx =? par2FileIndex) || match Segments file with [] => true | _ => false end || (TotalBytes file <=? 0)) &&
  negb (names_par2 (Subject file)) &&
  existsb (fun desc => par2SizePlausible (TotalBytes file) (Length desc)) (Files info).

Definition scan_file (info : PAR2Info) (par2FileIndex : Z) (s : scan) (f : Z * NZBFile) : scan :=
  if negb (plausible info par2FileIndex f) then s
  else if maxPAR2IdentityCandidates <=? Z.of_nat (length (s_indexes s)) then MkScan (s_indexes s) (s_declared s) true
  else
    let first := first_bytes f.2 par2IdentityPrefixBytes in
    if maxPAR2IdentityDeclaredBytes - s_declared s <? first then MkScan (s_indexes s) (s_declared s) true
    else MkScan (s_indexes s ++ [f]) (s_declared s + first) (s_truncated s).

Definition par2IdentityCandidateIndexes (info : PAR2Info) (files : list NZBFile) (par2FileIndex : Z)
    : list (Z * NZBFile) * bool :=
  let s := fold_left (scan_file info par2FileIndex) (indexed files) (MkScan [] 0 false) in
  (s_indexes s, s_truncated s).

(** ** The assignment *)

Record par2CandidateIdentity := MkIdentity { NZBFileIdx_ : Z; File_ : NZBFile; Hash16K_ : Prelude.bytes }.

(** The best candidate so far, its distance and the second distance. *)
Record nearest := MkNearest { best : option par2CandidateIdentity; bestDiff : spec_float; secondDiff : spec_float }.

(** The candidates of a description: not used, with its hash, within the tolerance. *)
Definition distance (desc : PAR2FileDesc) (identity : par2CandidateIdentity) : spec_float :=
  par2RelativeSizeDiff (TotalBytes (File_ identity)) (Length desc).

Definition rival (used : gset Z) (desc : PAR2FileDesc) (identity : par2CandidateIdentity) : bool :=
  negb (bool_decide (NZBFileIdx_ identity ∈ used) || negb (EqualFold (Hash16K_ identity) (Hash16K desc))) &&
  negb (SFltb par2IdentitySizeTolerance (distance desc identity)).

Definition nearer (used : gset Z) (desc : PAR2FileDesc) (n : nearest) (identity : par2CandidateIdentity) : nearest :=
  if negb (rival used desc identity) then n
  else
    let diff := distance desc identity in
    if SFltb diff (bestDiff n) then MkNearest (Some identity) diff (bestDiff n)
    else if SFltb diff (secondDiff n) then MkNearest (best n) (bestDiff n) diff
    else n.

Definition match_desc (identities : list par2CandidateIdentity) (st : gset Z * list PAR2FileMatch) (desc : PAR2FileDesc)
    : gset Z * list PAR2FileMatch :=
  let (used, matches) := st in
  if bool_decide (Hash16K desc = []) || (Length desc <=? 0) then st
  else
    let n := fold_left (nearer used desc) identities (MkNearest None inf inf) in
    match best n with
    | None => st
    | Some identity =>
        if SFleb (fsub (secondDiff n) (bestDiff n)) par2IdentityAmbiguityTolerance then st
        else ({[NZBFileIdx_ identity]} ∪ used, matches ++ [MkMatch (NZBFileIdx_ identity) desc])
    end.

Definition matchPAR2FileIdentities (info : PAR2Info) (identities : list par2CandidateIdentity) : list PAR2FileMatch :=
  (fold_left (match_desc identities) (Files info) (∅, [])).2.

(** ** The index file *)

Definition maxPAR2MagicCandidates : Z := 16.
Definition maxPAR2MagicDeclaredBytes : Z := Z.shiftl 32 20.

(** The smaller of a held file and another one; the first stays on a tie. *)
Definition smaller (held : option (Z * NZBFile)) (f : Z * NZBFile) : option (Z * NZBFile) :=
  match held with
  | Some h => if TotalBytes f.2 <? TotalBytes h.2 then Some f else held
  | None => Some f
  end.

(** The best index and the best volume so far. *)
Definition find_turn (st : option (Z * NZBFile) * option (Z * NZBFile)) (f : Z * NZBFile) : option (Z * NZBFile) * option (Z * NZBFile) :=
  let (bestIdx, bestVolIdx) := st in
  if negb (names_par2 (Subject f.2)) then st
  else if PAR2IsVolumeFile (Subject f.2) then (bestIdx, smaller bestVolIdx f)
  else (smaller bestIdx f, bestVolIdx).

Definition FindPAR2File (files : list NZBFile) : option (Z * NZBFile) :=
  match fold_left find_turn (indexed files) (None, None) with
  | (Some f, _) => Some f
  | (None, vol) => vol
  end.

(** The loop over the candidates in the order of their sizes. *)
Fixpoint magic_select (l selected : list (Z * NZBFile)) (declared : Z) : list (Z * NZBFile) :=
  match l with
  | [] => selected
  | f :: l =>
      let first := first_bytes f.2 8 in
      if maxPAR2MagicCandidates <=? Z.of_nat (length selected) then selected
      else if maxPAR2MagicDeclaredBytes - declared <? first then magic_select l selected declared
      else magic_select l (selected ++ [f]) (declared + first)
  end.

Definition par2MagicCandidateIndexes (files : list NZBFile) : list (Z * NZBFile) :=
  let indexes := filter (fun f => negb (match Segments f.2 with [] => true | _ => false end || (TotalBytes f.2 <=? 0)) = true) (indexed files) in
  magic_select (sort_by (fun a b => TotalBytes a.2 <? TotalBytes b.2) indexes) [] 0.

Definition nzb_error (msg : string) (causes : list goerror) : goerror := Error (TPlain (str msg)) causes.

Section Reading.
Context {W : Type} `{Context W} (md5 : Prelude.bytes -> Prelude.bytes).

(** The provider's sources: of an item, a file index and its segments. *)
Context (archiveByteSource : Prelude.bytes -> Z -> list NZBSegment -> W -> W * result goerror (ByteSource W)).

Definition readNZBFilePrefix (itemID : Prelude.bytes) (fileIndex : Z) (file : NZBFile) (maxBytes : Z) : W -> W * result goerror Prelude.bytes :=
  if match Segments file with [] => true | _ => false end then call_ret (Err (errors_New (str "nntp: prefix source has no segments")))
  else
    let! src := archiveByteSource itemID fileIndex (Segments file) in
    match src with
    | Err err => call_ret (Err (nzb_error "nntp: prefix byte source" [err]))
    | Ok src =>
        if Size src <=? 0 then call_ret (Err (errors_New (str "nntp: prefix source is empty")))
        else
          let! (buf, n, readErr) := read_block src (if maxBytes <? Size src then maxBytes else Size src) 0 in
          if n =? 0 then call_ret (Err (nzb_error "nntp: prefix read" [default io_ErrUnexpectedEOF readErr]))
          else call_ret (Ok (take (Z.to_nat n) buf))
    end.

(** The loop over the candidates; an error of a read is counted unless the context ended. *)
Fixpoint locate_loop (itemID : Prelude.bytes) (l : list (Z * NZBFile)) (readFailures : Z) : W -> W * result goerror (option (Z * NZBFile)) :=
  match l with
  | [] =>
      call_ret (if 0 <? readFailures then Err (errors_New (str "par2: magic discovery had bounded read failures")) else Ok None)
  | f :: l =>
      let! prefix := readNZBFilePrefix itemID f.1 f.2 8 in
      match prefix with
      | Err _ =>
          let! ctxErr := ctx_Err in
          match ctxErr with Some err => call_ret (Err err) | None => locate_loop itemID l (readFailures + 1) end
      | Ok prefix => if IsPAR2Prefix prefix then call_ret (Ok (Some f)) else locate_loop itemID l readFailures
      end
  end.

Definition locatePAR2File (itemID : Prelude.bytes) (nzb : NZB) : W -> W * result goerror (option (Z * NZBFile)) :=
  match FindPAR2File (nzb_Files nzb) with
  | Some f => call_ret (Ok (Some f))
  | None => locate_loop itemID (par2MagicCandidateIndexes (nzb_Files nzb)) 0
  end.

(** [Ok None] is a post without an index file. *)
Definition FetchPAR2ForItem `{!MapOrder} (itemID : Prelude.bytes) (nzb : NZB) : W -> W * result goerror (option (PAR2Info * Z)) :=
  let! found := locatePAR2File itemID nzb in
  match found with
  | Err err => call_ret (Err err)
  | Ok None => call_ret (Ok None)
  | Ok (Some (idx, file)) =>
      if match Segments file with [] => true | _ => false end then call_ret (Err (errors_New (str "par2: metadata source has no segments")))
      else
        let! src := archiveByteSource itemID idx (Segments file) in
        match src with
        | Err err => call_ret (Err (nzb_error "par2: byte source" [err]))
        | Ok src =>
            let! info := ParsePAR2Metadata (Some src) in
            match info with
            | Err err => call_ret (Err (nzb_error "par2: parse metadata" [err]))
            | Ok info => call_ret (Ok (Some (info, idx)))
            end
        end
  end.

(** The loop that reads the candidates: what they hash to, and the failed reads. *)
Fixpoint read_identities (itemID : Prelude.bytes) (l : list (Z * NZBFile)) (identities : list par2CandidateIdentity)
    (readFailures : Z) : W -> W * result goerror (list par2CandidateIdentity * Z) :=
  match l with
  | [] => call_ret (Ok (identities, readFailures))
  | (idx, file) :: l =>
      let! prefix := readNZBFilePrefix itemID idx file par2IdentityPrefixBytes in
      match prefix with
      | Err _ =>
          let! ctxErr := ctx_Err in
          match ctxErr with Some err => call_ret (Err err) | None => read_identities itemID l identities (readFailures + 1) end
      | Ok prefix => read_identities itemID l (identities ++ [MkIdentity idx file (hex_encode (md5 prefix))]) readFailures
      end
  end.

(** The matches, with the error that accompanies them. *)
Definition MatchPAR2FilesForItem (itemID : Prelude.bytes) (nzb : NZB) (info : PAR2Info) (par2FileIndex : Z)
    : W -> W * (list PAR2FileMatch * option goerror) :=
  let (indexes, truncated) := par2IdentityCandidateIndexes info (nzb_Files nzb) par2FileIndex in
  let! identities := read_identities itemID indexes [] 0 in
  match identities with
  | Err err => call_ret ([], Some err)
  | Ok (identities, readFailures) =>
      call_ret (matchPAR2FileIdentities info identities,
                if truncated || (0 <? readFailures) then Some (errors_New (str "par2: identity scan incomplete")) else None)
  end.

End Reading.

(** ** The nearest candidate *)

Section Nearest.
Context (used : gset Z) (desc : PAR2FileDesc).

Local Notation rivals := (fun j => rival used desc j = true).

(** [i] is the candidate a description is given out of [identities]: no other is nearer,
    and the second distance, if there is another, is not within the ambiguity. *)
Definition chosen (identities : list par2CandidateIdentity) (i : par2CandidateIdentity) : Prop :=
  exists a b second, identities = a ++ i :: b /\ rival used desc i = true /\ SFltb (distance desc i) inf = true /\
    (forall j, j ∈ a ++ b -> rival used desc j = true -> SFltb (distance desc j) (distance desc i) = false /\ SFltb (distance desc j) second = false) /\
    (second = inf \/ SFltb second inf = true /\ exists j, j ∈ a ++ b /\ rival used desc j = true /\ second = distance desc j) /\
    SFleb (fsub second (distance desc i)) par2IdentityAmbiguityTolerance = false.

(** What the loop holds after the candidates [pre]. *)
Definition nearest_of (pre : list par2CandidateIdentity) (n : nearest) : Prop :=
  match best n with
  | None => bestDiff n = inf /\ secondDiff n = inf /\ forall j, j ∈ pre -> rivals j -> SFltb (distance desc j) inf = false
  | Some i =>
      exists a b, pre = a ++ i :: b /\ rivals i /\ bestDiff n = distance desc i /\ SFltb (bestDiff n) inf = true /\
        (forall j, j ∈ a ++ b -> rivals j -> SFltb (distance desc j) (bestDiff n) = false /\ SFltb (distance desc j) (secondDiff n) = false) /\
        (secondDiff n = inf \/ SFltb (secondDiff n) inf = true /\ exists j, j ∈ a ++ b /\ rivals j /\ secondDiff n = distance desc j)
  end.

Lemma nearer_spec pre n i : nearest_of pre n -> nearest_of (pre ++ [i]) (nearer used desc n i).
Proof.
  intros Hn. unfold nearer. destruct (rival used desc i) eqn:Er; cbn [negb].
  2: { unfold nearest_of in *. destruct (best n) as [k|].
       - destruct Hn as (a & b & -> & Hk & Hd & Hlt & Hall & Hsec). exists a, (b ++ [i]). rewrite <-app_assoc. split_and!; try done.
         + intros j. rewrite app_assoc, elem_of_app, list_elem_of_singleton. intros [Hj| ->]; [by apply Hall|congruence].
         + destruct Hsec as [?|(? & j & Hj & ?)]; [by left|right]. split; [done|]. exists j. split; [|done]. rewrite app_assoc. apply elem_of_app. by left.
       - destruct Hn as (? & ? & Hall). split_and!; try done. intros j [Hj| ->%list_elem_of_singleton]%elem_of_app; [by apply Hall|congruence]. }
  set (d := distance desc i). unfold nearest_of in Hn. destruct (best n) as [k|] eqn:Ek.
  - destruct Hn as (a & b & -> & Hk & Hd & Hlt & Hall & Hsec). destruct (SFltb d (bestDiff n)) eqn:E1.
    + unfold nearest_of. cbn [best bestDiff secondDiff]. exists (a ++ k :: b), []. rewrite app_nil_r. split_and!; try done.
      * by eapply SFltb_trans.
      * intros j Hj Hr.
        assert (Hjb : SFltb (distance desc j) (bestDiff n) = false).
        { apply elem_of_app in Hj as [Hj|[->|Hj]%list.elem_of_cons]; [apply Hall; [apply elem_of_app; by left|done]| |apply Hall; [apply elem_of_app; by right|done]].
          rewrite Hd. apply SFltb_irrefl. }
        split; [|done]. by eapply SFltb_false_trans.
      * right. split; [done|]. exists k. split; [|done]. rewrite elem_of_app. right. left.
    + assert (Hmem : forall j, j ∈ a ++ b ++ [i] -> j ∈ a ++ b \/ j = i).
      { intros j. rewrite app_assoc, elem_of_app, list_elem_of_singleton. done. }
      assert (Hin : i ∈ a ++ b ++ [i]) by (rewrite app_assoc; apply elem_of_app; right; left).
      assert (Hold : forall j, j ∈ a ++ b -> j ∈ a ++ b ++ [i]) by (intros; rewrite app_assoc; apply elem_of_app; by left).
      destruct (SFltb d (secondDiff n)) eqn:E2; unfold nearest_of; cbn [best bestDiff secondDiff]; rewrite ?Ek;
        exists a, (b ++ [i]); rewrite <-app_assoc; (split_and!; try done).
      * intros j [Hj| ->]%Hmem Hr; [|split; [done|apply SFltb_irrefl]]. destruct (Hall j Hj Hr). split; [done|]. by eapply SFltb_false_trans.
      * right. split; [|by exists i]. destruct Hsec as [Es|[Es _]]; [by rewrite <-Es|by eapply SFltb_trans].
      * intros j [Hj| ->]%Hmem Hr; [by apply Hall|done].
      * destruct Hsec as [?|(? & j & Hj & ?)]; [by left|right]. split; [done|]. exists j. split; [by apply Hold|done].
  - destruct Hn as (E1 & E2 & Hall). rewrite E1, E2. destruct (SFltb d inf) eqn:E.
    + unfold nearest_of. cbn [best bestDiff secondDiff]. exists pre, []. rewrite app_nil_r. split_and!; try done; [|by left].
      intros j Hj Hr. specialize (Hall j Hj Hr). split; [|done]. by eapply SFltb_false_trans.
    + unfold nearest_of. rewrite Ek. split_and!; try done. intros j [Hj| ->%list_elem_of_singleton]%elem_of_app; [by apply Hall|done].
Qed.

Lemma nearest_spec identities : nearest_of identities (fold_left (nearer used desc) identities (MkNearest None inf inf)).
Proof.
  induction identities as [|i l IH] using rev_ind; [by cbn; split_and!; try done; intros j ?%not_elem_of_nil|].
  rewrite fold_left_app. cbn [fold_left]. by apply nearer_spec.
Qed.

End Nearest.
(** ** One description *)

Lemma distance_sign declared recovered : SFltb (par2RelativeSizeDiff declared recovered) (S754_zero false) = false.
Proof.
  unfold par2RelativeSizeDiff. destruct (_ || _); [done|]. set (d := fdiv _ _). clearbody d.
  destruct d as [[]|[]| |[] m e]; done.
Qed.

Lemma tolerance_inf : SFltb par2IdentitySizeTolerance inf = true.
Proof. vm_compute. reflexivity. Qed.

Lemma zero_ambiguous s : SFleb (S754_zero s) par2IdentityAmbiguityTolerance = true.
Proof. destruct s; vm_compute; reflexivity. Qed.

(** A description takes a candidate exactly when it is the one to take. *)
Lemma nearest_chosen used desc identities i : let n := fold_left (nearer used desc) identities (MkNearest None inf inf) in
  chosen used desc identities i <-> best n = Some i /\ SFleb (fsub (secondDiff n) (bestDiff n)) par2IdentityAmbiguityTolerance = false.
Proof.
  intros n. pose proof (nearest_spec used desc identities) as Hn. fold n in Hn. split.
  2: { intros [Eb Ha]. unfold nearest_of in Hn. rewrite Eb in Hn. destruct Hn as (a & b & -> & Hr & Hd & Hlt & Hall & Hsec).
       exists a, b, (secondDiff n). rewrite Hd in *. done. }
  intros (a & b & second & -> & Hr & Hlt & Hall & Hsec & Ha). unfold nearest_of in Hn.
  set (d := distance desc i) in *. pose proof (distance_sign (TotalBytes (File_ i)) (Length desc)) as Hs. fold (distance desc i) d in Hs.
  destruct (best n) as [k|].
  2: { destruct Hn as (_ & _ & Hn). specialize (Hn i). fold d in Hn. rewrite Hn in Hlt; [done| |done]. apply elem_of_app. right. left. }
  destruct Hn as (a' & b' & E & Hrk & Hdk & Hltk & Hallk & Hseck). rewrite Hdk in *. set (dk := distance desc k) in *.
  assert (Hsplit : (a = a' /\ i = k /\ b = b') \/ (i ∈ a' ++ b' /\ k ∈ a ++ b)).
  { apply app_eq_app in E as [l [[-> E]|[-> E]]].
    - destruct l as [|x l]; [injection E as <- <-; left; by rewrite app_nil_r|]. injection E as -> ->. right.
      split; [apply elem_of_app; right; apply elem_of_app; right; left|apply elem_of_app; left; apply elem_of_app; right; left].
    - destruct l as [|x l]; [injection E as <- <-; left; by rewrite app_nil_r|]. injection E as -> ->. right.
      split; [apply elem_of_app; left; apply elem_of_app; right; left|apply elem_of_app; right; apply elem_of_app; right; left]. }
  destruct Hsplit as [(<- & <- & <-)|[Hi Hk]].
  - split; [done|]. rewrite <-Ha. fold d.
    destruct Hsec as [->|(Hs1 & j & Hj & Hrj & Ej)], Hseck as [Es|(Hs2 & j' & Hj' & Hrj' & Ej')]; [by rewrite Es| | |].
    + destruct (Hall j' Hj' Hrj'). congruence.
    + destruct (Hallk j Hj Hrj). congruence.
    + assert (Er : rank (secondDiff n) = rank second).
      { apply rank_total; try done; [rewrite Ej'; by apply Hall|rewrite Ej; by apply Hallk]. }
      destruct (rank_same _ _ Er) as [->|(s & t & -> & ->)]; [by destruct (secondDiff n) as [|[]| |[]]|done|apply fsub_zeros].
  - exfalso. destruct (Hallk i Hi Hr) as [H1 _]. destruct (Hall k Hk Hrk) as [H2 H3]. fold d dk in H1, H2, H3.
    assert (Er : rank second = rank d).
    { destruct Hsec as [->|(Hs1 & j & Hj & Hrj & Ej)]; [congruence|].
      pose proof (rank_total _ _ Hltk Hlt H2 H1) as Ek. apply rank_total; [done|done| |].
      - rewrite Ej. by apply Hall.
      - destruct (SFltb d second) eqn:E2; [|done]. exfalso. apply SFltb_rank in E2 as (x & y & Ex & Ey & Hl). rewrite <-Ek in Ex.
        assert (SFltb dk second = true) by (apply SFltb_rank; by exists x, y). congruence. }
    assert (Hsec' : SFltb second inf = true).
    { destruct Hsec as [->|[? _]]; [|done]. congruence. }
    destruct (fsub_same second d Er Hsec') as [s Ef].
    + destruct (SFltb second (S754_zero false)) eqn:E2; [|done]. apply SFltb_rank in E2 as (x & y & Ex & Ey & Hl). rewrite Er in Ex.
      assert (SFltb d (S754_zero false) = true) by (apply SFltb_rank; by exists x, y). congruence.
    + rewrite Ef, zero_ambiguous in Ha. done.
Qed.

(** ** The assignment *)

Definition usable_desc (desc : PAR2FileDesc) : Prop := Hash16K desc <> [] /\ 0 < Length desc.

(** Description after description, each takes the candidate it is to take among those
    that are left, or none when there is none. *)
Inductive assignment (identities : list par2CandidateIdentity) : gset Z -> list PAR2FileDesc -> list PAR2FileMatch -> Prop :=
| assign_nil used : assignment identities used [] []
| assign_none used desc descs ms : (usable_desc desc -> forall i, ~ chosen used desc identities i) ->
    assignment identities used descs ms -> assignment identities used (desc :: descs) ms
| assign_some used desc descs ms i : usable_desc desc -> chosen used desc identities i ->
    assignment identities ({[NZBFileIdx_ i]} ∪ used) descs ms ->
    assignment identities used (desc :: descs) (MkMatch (NZBFileIdx_ i) desc :: ms).

(** What [match_desc] does. *)
Lemma match_desc_cases identities used matches desc :
  (exists i, usable_desc desc /\ chosen used desc identities i /\
     match_desc identities (used, matches) desc = ({[NZBFileIdx_ i]} ∪ used, matches ++ [MkMatch (NZBFileIdx_ i) desc])) \/
  ((usable_desc desc -> forall i, ~ chosen used desc identities i) /\ match_desc identities (used, matches) desc = (used, matches)).
Proof.
  unfold match_desc, usable_desc. destruct (_ || _) eqn:Eu.
  { right. split; [|done]. intros [H1 H2]. apply orb_true_iff in Eu as [E|E]; bool_hyps; [done|lia]. }
  bool_hyps. pose proof (nearest_chosen used desc identities) as Hc. cbv zeta in Hc. set (n := fold_left _ _ _) in *. clearbody n.
  destruct (best n) as [i|] eqn:Eb.
  2: { right. split; [|done]. intros _ i [Hb _]%Hc. done. }
  destruct (SFleb _ _) eqn:Ea.
  - right. split; [|done]. intros _ j [Hb Ha]%Hc. congruence.
  - left. exists i. split_and!; [done|lia|by apply Hc|done].
Qed.

Lemma matches_assigned identities descs : forall used matches, exists ms used',
  fold_left (match_desc identities) descs (used, matches) = (used', matches ++ ms) /\ assignment identities used descs ms.
Proof.
  induction descs as [|desc descs IH]; intros used matches.
  - exists [], used. rewrite app_nil_r. split; [done|constructor].
  - cbn [fold_left]. destruct (match_desc_cases identities used matches desc) as [(i & Hu & Hc & ->)|[Hn ->]].
    + destruct (IH ({[NZBFileIdx_ i]} ∪ used) (matches ++ [MkMatch (NZBFileIdx_ i) desc])) as (ms & used' & -> & Ha).
      exists (MkMatch (NZBFileIdx_ i) desc :: ms), used'. rewrite <-app_assoc. split; [done|]. by constructor.
    + destruct (IH used matches) as (ms & used' & -> & Ha). exists ms, used'. split; [done|]. by constructor.
Qed.

Lemma chosen_unique used desc identities i j : chosen used desc identities i -> chosen used desc identities j -> i = j.
Proof. intros [Hi _]%nearest_chosen [Hj _]%nearest_chosen. congruence. Qed.

Lemma assignment_unique identities used descs ms ms' : assignment identities used descs ms -> assignment identities used descs ms' -> ms = ms'.
Proof.
  intros Ha. revert ms'. induction Ha as [used|used desc descs ms Hn Ha IH|used desc descs ms i Hu Hc Ha IH]; intros ms' Hb;
    inversion Hb as [|? ? ? ? Hn' Hb'|? ? ? ? i' Hu' Hc' Hb']; subst.
  - done.
  - by apply IH.
  - by destruct (Hn Hu' i').
  - by destruct (Hn' Hu i).
  - assert (i = i') as <- by by eapply chosen_unique. f_equal. by apply IH.
Qed.

Lemma rival_spec used desc i : rival used desc i = true <->
  NZBFileIdx_ i ∉ used /\ EqualFold (Hash16K_ i) (Hash16K desc) = true /\ SFltb par2IdentitySizeTolerance (distance desc i) = false.
Proof.
  unfold rival. rewrite andb_true_iff, !negb_true_iff, orb_false_iff, negb_false_iff, bool_decide_eq_false. tauto.
Qed.

Lemma chosen_plausible used desc identities i : chosen used desc identities i -> i ∈ identities /\ NZBFileIdx_ i ∉ used /\
  EqualFold (Hash16K_ i) (Hash16K desc) = true /\ par2SizePlausible (TotalBytes (File_ i)) (Length desc) = true.
Proof.
  intros (a & b & second & -> & (Hu & Hh & Ht)%rival_spec & Hlt & _). split_and!; [apply elem_of_app; right; left|done..|].
  apply SFleb_of_ltb; [done|apply tolerance_inf|done].
Qed.

(** Another candidate of the same size leaves a description without a match. *)
Lemma chosen_no_tie used desc identities i j : chosen used desc identities i -> NoDup (map NZBFileIdx_ identities) -> j ∈ identities ->
  NZBFileIdx_ j <> NZBFileIdx_ i -> NZBFileIdx_ j ∉ used -> EqualFold (Hash16K_ j) (Hash16K desc) = true -> TotalBytes (File_ j) <> TotalBytes (File_ i).
Proof.
  intros (a & b & second & -> & (Hu & Hh & Ht)%rival_spec & Hlt & Hall & Hsec & Ha) Hd Hj Hne Huj Hhj Hs.
  assert (Ed : distance desc j = distance desc i) by (unfold distance; by rewrite Hs).
  assert (Hj' : j ∈ a ++ b).
  { apply elem_of_app in Hj as [Hj|[->|Hj]%list.elem_of_cons]; [apply elem_of_app; by left|done|apply elem_of_app; by right]. }
  destruct (Hall j Hj') as [_ H2]; [apply rival_spec; by rewrite Ed|]. rewrite Ed in H2.
  destruct Hsec as [->|(Hs2 & k & Hk & Hrk & Ek)]; [congruence|].
  destruct (fsub_same second (distance desc i)) as [s Ef]; [|done| |by rewrite Ef, zero_ambiguous in Ha].
  - apply rank_total; try done. rewrite Ek. by apply Hall.
  - rewrite Ek. apply distance_sign.
Qed.

(** A candidate alone with its hash is taken. *)
Lemma chosen_alone used desc identities i : NoDup identities -> i ∈ identities -> NZBFileIdx_ i ∉ used ->
  EqualFold (Hash16K_ i) (Hash16K desc) = true -> par2SizePlausible (TotalBytes (File_ i)) (Length desc) = true ->
  (forall j, j ∈ identities -> EqualFold (Hash16K_ j) (Hash16K desc) = true -> j = i) -> chosen used desc identities i.
Proof.
  intros Hd (a & b & ->)%list_elem_of_split Hu Hh Hp Hone.
  apply SFleb_inf in Hp as [Hlt Ht]; [|apply tolerance_inf]. exists a, b, inf. split_and!; try done.
  - by apply rival_spec.
  - intros j Hj (_ & Hhj & _)%rival_spec. assert (j = i) as ->.
    { apply Hone; [|done]. apply elem_of_app in Hj as [Hj|Hj]; apply elem_of_app; [by left|right; by right]. }
    exfalso. apply NoDup_app in Hd as (_ & Hd1 & [Hd2 _]%list.NoDup_cons). apply elem_of_app in Hj as [Hj|Hj]; [|done].
    apply (Hd1 _ Hj). left.
  - by left.
  - rewrite fsub_inf; [vm_compute; reflexivity|done|apply distance_sign].
Qed.

(** What the matches of an assignment are. *)
Lemma assignment_sound identities used descs ms : NoDup (map NZBFileIdx_ identities) -> assignment identities used descs ms ->
  NoDup (map NZBFileIdx ms) /\ sublist (map Desc ms) descs /\
  forall m, m ∈ ms -> exists i, i ∈ identities /\ NZBFileIdx_ i = NZBFileIdx m /\ NZBFileIdx m ∉ used /\ usable_desc (Desc m) /\
    EqualFold (Hash16K_ i) (Hash16K (Desc m)) = true /\ par2SizePlausible (TotalBytes (File_ i)) (Length (Desc m)) = true /\
    forall j, j ∈ identities -> j <> i -> NZBFileIdx_ j ∉ used -> NZBFileIdx_ j ∉ map NZBFileIdx ms ->
      EqualFold (Hash16K_ j) (Hash16K (Desc m)) = true -> TotalBytes (File_ j) <> TotalBytes (File_ i).
Proof.
  intros Hd Ha. induction Ha as [used|used desc descs ms Hn Ha IH|used desc descs ms i Hu Hc Ha IH].
  - split_and!; [constructor|done|]. intros m ?%not_elem_of_nil. done.
  - destruct IH as (H1 & H2 & H3). split_and!; [done| |done]. by constructor.
  - destruct IH as (H1 & H2 & H3). pose proof (chosen_plausible _ _ _ _ Hc) as (Hi & Hiu & Hh & Hp). cbn [map NZBFileIdx Desc]. split_and!.
    + constructor; [|done]. intros (m & E & Hm)%list_elem_of_fmap. destruct (H3 m Hm) as (_ & _ & _ & Hmu & _). apply Hmu. rewrite E. set_solver+.
    + by constructor.
    + intros m [->|Hm]%list.elem_of_cons.
      * cbn [NZBFileIdx Desc]. exists i. split_and!; try done. intros j Hj Hne Hju Hjm Hjh.
        apply (chosen_no_tie used desc identities i j); try done. intros E. apply Hjm. rewrite E. left.
      * destruct (H3 m Hm) as (k & Hk & Ek & Hku & Huk & Hhk & Hpk & Hone). exists k. split_and!; try done; [intros E; apply Hku; set_solver+E|].
        intros j Hj Hne Hju Hjm Hjh. apply Hone; try done; [|intros E; apply Hjm; by right].
        intros [E%elem_of_singleton|E]%elem_of_union; [|done]. apply Hjm. rewrite E. left.
Qed.

Lemma identity_inj identities i j : NoDup (map NZBFileIdx_ identities) -> i ∈ identities -> j ∈ identities -> NZBFileIdx_ i = NZBFileIdx_ j -> i = j.
Proof.
  intros Hd [x Hx]%list_elem_of_lookup [y Hy]%list_elem_of_lookup E. assert (x = y) as <-; [|congruence].
  apply (NoDup_lookup _ _ _ (NZBFileIdx_ i) Hd); rewrite list_map_lookup; [by rewrite Hx|by rewrite Hy, E].
Qed.

Lemma NoDup_map {A B} (f : A -> B) l : NoDup (map f l) -> NoDup l.
Proof. apply NoDup_fmap_1. Qed.

(** No two files described have one hash, and no two candidates. *)
Definition separated (identities : list par2CandidateIdentity) : Prop :=
  forall i j, i ∈ identities -> j ∈ identities -> EqualFold (Hash16K_ i) (Hash16K_ j) = true -> i = j.

Lemma EqualFold_trans a b c : EqualFold a b = true -> EqualFold b c = true -> EqualFold a c = true.
Proof. unfold EqualFold. rewrite !bool_decide_eq_true. congruence. Qed.

Lemma EqualFold_sym a b : EqualFold a b = true -> EqualFold b a = true.
Proof. unfold EqualFold. rewrite !bool_decide_eq_true. congruence. Qed.

Lemma assignment_complete identities used descs ms desc i : assignment identities used descs ms ->
  NoDup (map NZBFileIdx_ identities) -> separated identities -> NoDup (map (fun d => ascii_lower (Hash16K d)) descs) ->
  (forall k d, k ∈ identities -> NZBFileIdx_ k ∈ used -> d ∈ descs -> EqualFold (Hash16K_ k) (Hash16K d) = false) ->
  desc ∈ descs -> usable_desc desc -> i ∈ identities -> EqualFold (Hash16K_ i) (Hash16K desc) = true ->
  par2SizePlausible (TotalBytes (File_ i)) (Length desc) = true -> MkMatch (NZBFileIdx_ i) desc ∈ ms.
Proof.
  intros Ha Hd Hsep. induction Ha as [used|used d descs ms Hn Ha IH|used d descs ms k Hu Hc Ha IH]; intros Hnd Hused Hdesc Hud Hi Hh Hp.
  - by apply not_elem_of_nil in Hdesc.
  - cbn [map] in Hnd. apply list.NoDup_cons in Hnd as [Hnd1 Hnd2]. apply list.elem_of_cons in Hdesc as [->|Hdesc].
    + exfalso. apply (Hn Hud i). apply chosen_alone; try done; [by apply NoDup_map in Hd| |].
      * intros Hiu. specialize (Hused i d Hi Hiu ltac:(left)). congruence.
      * intros j Hj Hjh. apply Hsep; try done. by eapply EqualFold_trans, EqualFold_sym.
    + apply IH; try done. intros k' d' Hk Hku Hd'. apply Hused; [done|done|by right].
  - cbn [map] in Hnd. apply list.NoDup_cons in Hnd as [Hnd1 Hnd2]. pose proof (chosen_plausible _ _ _ _ Hc) as (Hk & Hku & Hkh & _).
    apply list.elem_of_cons in Hdesc as [->|Hdesc].
    + assert (k = i) as -> by (apply Hsep; try done; by eapply EqualFold_trans, EqualFold_sym). left.
    + right. apply IH; try done. intros k' d' Hk' Hku' Hd'. destruct (decide (NZBFileIdx_ k' = NZBFileIdx_ k)) as [E|Hne].
      * assert (k' = k) as -> by by eapply identity_inj. destruct (EqualFold (Hash16K_ k) (Hash16K d')) eqn:E'; [|done]. exfalso.
        apply Hnd1. apply list_elem_of_fmap. exists d'. split; [|done].
        pose proof (EqualFold_trans _ _ _ (EqualFold_sym _ _ Hkh) E') as E2. unfold EqualFold in E2. by apply bool_decide_eq_true in E2.
      * apply Hused; [done|set_solver+Hku' Hne|by right].
Qed.

(** Files are matched without ambiguity.  The matches are the one assignment in which
    each description in turn takes, of the candidates left that have its hash within the size
    tolerance, the strictly nearest one, provided the second is not within the ambiguity.
    No post is given twice, the order is that of the descriptions, a match has the hash and
    a plausible size, and no candidate left over has its hash and the same size.  When no two
    candidates and no two descriptions share a hash, every plausible pair is matched. *)
Theorem files_matched info identities : NoDup (map NZBFileIdx_ identities) ->
  let ms := matchPAR2FileIdentities info identities in
  (forall ms', assignment identities ∅ (Files info) ms' <-> ms' = ms) /\
  NoDup (map NZBFileIdx ms) /\ sublist (map Desc ms) (Files info) /\
  (forall m, m ∈ ms -> exists i, i ∈ identities /\ NZBFileIdx_ i = NZBFileIdx m /\ usable_desc (Desc m) /\
     EqualFold (Hash16K_ i) (Hash16K (Desc m)) = true /\ par2SizePlausible (TotalBytes (File_ i)) (Length (Desc m)) = true /\
     forall j, j ∈ identities -> j <> i -> NZBFileIdx_ j ∉ map NZBFileIdx ms ->
       EqualFold (Hash16K_ j) (Hash16K (Desc m)) = true -> TotalBytes (File_ j) <> TotalBytes (File_ i)) /\
  (separated identities -> NoDup (map (fun d => ascii_lower (Hash16K d)) (Files info)) ->
     forall desc i, desc ∈ Files info -> usable_desc desc -> i ∈ identities -> EqualFold (Hash16K_ i) (Hash16K desc) = true ->
       par2SizePlausible (TotalBytes (File_ i)) (Length desc) = true -> MkMatch (NZBFileIdx_ i) desc ∈ ms).
Proof.
  intros Hd ms. unfold ms, matchPAR2FileIdentities. destruct (matches_assigned identities (Files info) ∅ []) as (ms' & used & -> & Ha).
  cbn [snd app]. destruct (assignment_sound _ _ _ _ Hd Ha) as (H1 & H2 & H3). split_and!; [|done|done| |].
  - intros l. split; [intros Hl; by eapply assignment_unique|by intros ->].
  - intros m Hm. destruct (H3 m Hm) as (i & Hi & Ei & _ & Hu & Hh & Hp & Hone). exists i. split_and!; try done.
    intros j Hj Hne. apply Hone; [done|done|apply not_elem_of_empty].
  - intros Hsep Hnd desc i Hdesc Hu Hi Hh Hp. by eapply assignment_complete.
Qed.

(** ** The candidates *)

Definition empty_file (file : NZBFile) : bool := match Segments file with [] => true | _ => false end || (TotalBytes file <=? 0).

Lemma first_bytes_bounds file limit : empty_file file = false -> 0 < limit -> 0 < first_bytes file limit <= limit.
Proof.
  unfold empty_file, first_bytes. intros [_ Ht]%orb_false_iff Hl. apply Z.leb_gt in Ht.
  destruct (Segments file) as [|seg segs]; [cbn; lia|]. destruct (Z.leb_spec (s_Bytes seg) 0); lia.
Qed.

Lemma identity_scan_exact info p l : forall s, 0 <= s_declared s <= 16384 * Z.of_nat (length (s_indexes s)) -> Z.of_nat (length (s_indexes s)) <= 256 ->
  let ok := filter (fun f => plausible info p f = true) l in
  let s' := fold_left (scan_file info p) l s in
  s_indexes s' = take 256 (s_indexes s ++ ok) /\
  s_truncated s' = s_truncated s || (256 <? Z.of_nat (length (s_indexes s ++ ok))).
Proof.
  induction l as [|f l IH]; intros s Hs Hn; cbn [fold_left].
  { rewrite filter_nil, app_nil_r, take_ge by lia. destruct (Z.ltb_spec 256 (Z.of_nat (length (s_indexes s)))); [lia|]. by rewrite orb_false_r. }
  cbv zeta. set (s1 := scan_file info p s f). assert (E1 : s1 = scan_file info p s f) by done. clearbody s1. unfold scan_file in E1.
  destruct (plausible info p f) eqn:Ep; cbn [negb] in E1.
  2: { rewrite filter_cons_False by congruence. subst s1. by apply IH. }
  rewrite filter_cons_True by done. revert E1. change maxPAR2IdentityCandidates with 256. change maxPAR2IdentityDeclaredBytes with 67108864.
  destruct (Z.leb_spec 256 (Z.of_nat (length (s_indexes s)))) as [Hf|Hf].
  - intros ->. destruct (IH (MkScan (s_indexes s) (s_declared s) true) Hs Hn) as [E1 E2]. cbn [s_indexes s_truncated] in *.
    rewrite E1, E2. rewrite !take_app_ge, !length_app by lia. replace (256 - length (s_indexes s))%nat with 0%nat by lia. split; [done|].
    cbn [length]. destruct (Z.ltb_spec 256 (Z.of_nat (length (s_indexes s) + S (length (filter (fun f => plausible info p f = true) l))))); [|lia].
    by rewrite orb_true_r.
  - assert (He : empty_file f.2 = false).
    { unfold plausible in Ep. destruct f as [idx file]. cbn. unfold empty_file. rewrite !andb_true_iff, negb_true_iff, <-orb_assoc, orb_false_iff in Ep. tauto. }
    pose proof (first_bytes_bounds f.2 16384 He ltac:(lia)) as Hb. change par2IdentityPrefixBytes with 16384.
    destruct (Z.ltb_spec (67108864 - s_declared s) (first_bytes f.2 16384)); [lia|]. intros ->.
    destruct (IH (MkScan (s_indexes s ++ [f]) (s_declared s + first_bytes f.2 16384) (s_truncated s))) as [E1 E2]; cbn [s_indexes s_declared s_truncated] in *.
    + rewrite length_app. cbn [length]. lia.
    + rewrite length_app. cbn [length]. lia.
    + rewrite E1, E2, <-!app_assoc. done.
Qed.

(** All plausible candidates, up to their number; the bound on bytes is never reached. *)
Lemma candidates_exact info files p : let ok := filter (fun f => plausible info p f = true) (indexed files) in
  par2IdentityCandidateIndexes info files p = (take 256 ok, 256 <? Z.of_nat (length ok)).
Proof. intros ok. unfold par2IdentityCandidateIndexes. destruct (identity_scan_exact info p (indexed files) (MkScan [] 0 false)) as [-> ->]; cbn; done || lia. Qed.

Lemma magic_exact l : Forall (fun f => empty_file f.2 = false) l -> forall selected declared, 0 <= declared <= 8 * Z.of_nat (length selected) ->
  Z.of_nat (length selected) <= 16 -> magic_select l selected declared = take 16 (selected ++ l).
Proof.
  induction 1 as [|f l Hf Hl IH]; intros selected declared Hd Hn; cbn [magic_select].
  { rewrite app_nil_r, take_ge by lia. done. }
  change maxPAR2MagicCandidates with 16. change maxPAR2MagicDeclaredBytes with 33554432. pose proof (first_bytes_bounds f.2 8 Hf ltac:(lia)).
  destruct (Z.leb_spec 16 (Z.of_nat (length selected))).
  - rewrite take_app_le by lia. by rewrite take_ge by lia.
  - destruct (Z.ltb_spec (33554432 - declared) (first_bytes f.2 8)); [lia|]. rewrite IH by (rewrite length_app; cbn [length]; lia).
    by rewrite <-app_assoc.
Qed.

#[export] Instance size_weak : StrictWeak (fun a b : Z * NZBFile => TotalBytes a.2 <? TotalBytes b.2).
Proof. split; intros; [lia|]. destruct (Z.ltb_spec (TotalBytes a.2) (TotalBytes b.2)); [by left|right; lia]. Qed.

Lemma sorted_take {A} (R : A -> A -> Prop) n l x y : StronglySorted R l -> x ∈ take n l -> y ∈ drop n l -> R x y.
Proof.
  revert n. induction l as [|z l IH]; intros [|n] Hs; cbn; [by intros ?%not_elem_of_nil..|by intros ?%not_elem_of_nil|].
  inversion Hs as [|? ? Hl Hz]; subst. intros [->|Hx]%list.elem_of_cons Hy; [|by eapply IH].
  rewrite list.Forall_forall in Hz. apply Hz. rewrite <-(take_drop n l). apply elem_of_app. by right.
Qed.

Lemma magic_candidates files : let c := par2MagicCandidateIndexes files in
  Z.of_nat (length c) <= 16 /\ (forall f, f ∈ c -> f ∈ indexed files /\ empty_file f.2 = false) /\
  (forall f g, f ∈ c -> g ∈ indexed files -> empty_file g.2 = false -> g ∉ c -> TotalBytes f.2 <= TotalBytes g.2 /\ length c = 16%nat).
Proof.
  unfold par2MagicCandidateIndexes. set (ok := filter _ (indexed files)). set (l := sort_by _ ok).
  assert (Hin : forall f, f ∈ l <-> f ∈ indexed files /\ empty_file f.2 = false).
  { intros f. unfold l. rewrite sort_by_perm. unfold ok. rewrite list_elem_of_filter, negb_true_iff. fold (empty_file f.2). tauto. }
  rewrite magic_exact; [|apply list.Forall_forall; by intros f [_ ?]%Hin|cbn; lia|cbn; lia]. cbn [app].
  pose proof (sort_by_sorted (fun a b : Z * NZBFile => TotalBytes a.2 <? TotalBytes b.2) ok) as Hs. fold l in Hs.
  split_and!.
  - rewrite length_take. lia.
  - intros f Hf. apply Hin. rewrite <-(take_drop 16 l). apply elem_of_app. by left.
  - intros f g Hf Hg He Hng. assert (Hgl : g ∈ l) by by apply Hin. rewrite <-(take_drop 16 l) in Hgl. apply elem_of_app in Hgl as [Hgl|Hgl]; [done|].
    split; [pose proof (sorted_take _ _ _ _ _ Hs Hf Hgl) as Hr; cbn in Hr; lia|].
    rewrite length_take. apply Nat.min_l. destruct (decide (16 <= length l)%nat) as [|Hlt]; [lia|]. rewrite drop_ge in Hgl by lia. by apply not_elem_of_nil in Hgl.
Qed.

(** The first of the smallest files of a kind. *)
Definition first_smallest (kind : Z * NZBFile -> bool) (l : list (Z * NZBFile)) (r : option (Z * NZBFile)) : Prop :=
  match r with
  | None => forall f, f ∈ l -> kind f = false
  | Some f => exists a b, l = a ++ f :: b /\ kind f = true /\
      (forall g, g ∈ a -> kind g = true -> TotalBytes f.2 < TotalBytes g.2) /\ (forall g, g ∈ b -> kind g = true -> TotalBytes f.2 <= TotalBytes g.2)
  end.

Lemma first_smallest_skip kind l f r : kind f = false -> first_smallest kind l r -> first_smallest kind (l ++ [f]) r.
Proof.
  intros Hk. destruct r as [g|]; cbn.
  - intros (a & b & -> & Hg & Ha & Hb). exists a, (b ++ [f]). rewrite <-app_assoc. split_and!; try done.
    intros x [Hx| ->%list_elem_of_singleton]%elem_of_app; [by apply Hb|congruence].
  - intros Hl x [Hx| ->%list_elem_of_singleton]%elem_of_app; [by apply Hl|done].
Qed.

Lemma first_smallest_turn kind l f r : kind f = true -> first_smallest kind l r -> first_smallest kind (l ++ [f]) (smaller r f).
Proof.
  intros Hk. unfold smaller. destruct r as [g|]; cbn.
  - intros (a & b & -> & Hg & Ha & Hb). destruct (Z.ltb_spec (TotalBytes f.2) (TotalBytes g.2)).
    + exists (a ++ g :: b), []. split_and!; [done|done| |by intros x ?%not_elem_of_nil].
      intros x [Hx|[->|Hx]%list.elem_of_cons]%elem_of_app Hkx; [specialize (Ha x Hx Hkx)| |specialize (Hb x Hx Hkx)]; lia.
    + exists a, (b ++ [f]). rewrite <-app_assoc. split_and!; try done.
      intros x [Hx| ->%list_elem_of_singleton]%elem_of_app Hkx; [by apply Hb|lia].
  - intros Hl. exists l, []. split_and!; [done|done| |by intros x ?%not_elem_of_nil]. intros x Hx Hkx. by rewrite Hl in Hkx.
Qed.

Definition bare_index (f : Z * NZBFile) : bool := names_par2 (Subject f.2) && negb (PAR2IsVolumeFile (Subject f.2)).
Definition named_volume (f : Z * NZBFile) : bool := names_par2 (Subject f.2) && PAR2IsVolumeFile (Subject f.2).

Lemma find_spec files : let st := fold_left find_turn (indexed files) (None, None) in
  first_smallest bare_index (indexed files) st.1 /\ first_smallest named_volume (indexed files) st.2.
Proof.
  generalize (indexed files) as l. intros l. induction l as [|f l IH] using rev_ind; [by cbn; split; intros f ?%not_elem_of_nil|].
  rewrite fold_left_app. cbn [fold_left]. destruct (fold_left find_turn l (None, None)) as [x y]. cbn [fst snd] in *. destruct IH as [Hx Hy].
  unfold find_turn. destruct (names_par2 (Subject f.2)) eqn:En; cbn [negb].
  - destruct (PAR2IsVolumeFile (Subject f.2)) eqn:Ev; cbn [fst snd].
    + split; [apply first_smallest_skip|apply first_smallest_turn]; try done; unfold bare_index, named_volume; by rewrite En, Ev.
    + split; [apply first_smallest_turn|apply first_smallest_skip]; try done; unfold bare_index, named_volume; by rewrite En, Ev.
  - split; apply first_smallest_skip; try done; unfold bare_index, named_volume; by rewrite En.
Qed.

(** The candidates are the right ones.  The index file is the first of the smallest files
    named as one, or of the smallest named volumes when there is none.  Without a name, at
    most 16 files are read: ones that are not empty, and never a larger one while a smaller
    one is left out.  The candidates for a match are the first 256 plausible files, and the
    scan is reported as truncated exactly when there are more; the bounds on declared bytes
    never decide. *)
Theorem candidates_chosen info files p :
  (match FindPAR2File files with
   | None => forall f, f ∈ indexed files -> names_par2 (Subject f.2) = false
   | Some f => first_smallest bare_index (indexed files) (Some f) \/
       first_smallest bare_index (indexed files) None /\ first_smallest named_volume (indexed files) (Some f)
   end) /\
  (let c := par2MagicCandidateIndexes files in
   Z.of_nat (length c) <= 16 /\ (forall f, f ∈ c -> f ∈ indexed files /\ empty_file f.2 = false) /\
   (forall f g, f ∈ c -> g ∈ indexed files -> empty_file g.2 = false -> g ∉ c -> TotalBytes f.2 <= TotalBytes g.2 /\ length c = 16%nat)) /\
  (let ok := filter (fun f => plausible info p f = true) (indexed files) in
   par2IdentityCandidateIndexes info files p = (take 256 ok, 256 <? Z.of_nat (length ok))).
Proof.
  split_and!; [|apply magic_candidates..|apply candidates_exact].
  unfold FindPAR2File. destruct (find_spec files) as [Hx Hy]. destruct (fold_left find_turn (indexed files) (None, None)) as [[f|] y]; cbn [fst snd] in *.
  { by left. }
  destruct y as [f|]; [by right|]. intros f Hf. specialize (Hx f Hf). specialize (Hy f Hf). unfold bare_index, named_volume in *.
  destruct (names_par2 (Subject f.2)), (PAR2IsVolumeFile (Subject f.2)); done.
Qed.

(** ** A post that can be read *)

Section Post.
Context {W : Type} `{Context W} (md5 : Prelude.bytes -> Prelude.bytes).
Context (archiveByteSource : Prelude.bytes -> Z -> list NZBSegment -> W -> W * result goerror (ByteSource W)).
Context (itemID : Prelude.bytes) (nzb : NZB) (content : Z -> Prelude.bytes).

(** What a file of the post hashes to. *)
Definition identity_of (idx : Z) : Prelude.bytes := hex_encode (md5 (take (Z.to_nat par2IdentityPrefixBytes) (content idx))).

(** Every file of the post that is not empty reads as its content. *)
Definition readable : Prop := forall f, f ∈ indexed (nzb_Files nzb) -> empty_file f.2 = false -> content f.1 <> [] /\
  forall w, exists src, (archiveByteSource itemID f.1 (Segments f.2) w).2 = Ok src /\ reads_as src (content f.1).

Lemma prefix_read f w n : readable -> f ∈ indexed (nzb_Files nzb) -> empty_file f.2 = false -> 0 < n ->
  (readNZBFilePrefix archiveByteSource itemID f.1 f.2 n w).2 = Ok (take (Z.to_nat n) (content f.1)).
Proof.
  intros Hr Hf He Hn. destruct (Hr f Hf He) as [Hc Hs]. destruct (Hs w) as (src & Es & Hsrc). unfold readNZBFilePrefix.
  assert (Hseg : match Segments f.2 with [] => true | _ => false end = false) by (unfold empty_file in He; by apply orb_false_iff in He as [? _]).
  rewrite Hseg. unfold call_bind at 1. destruct (archiveByteSource itemID f.1 (Segments f.2) w) as [w1 r]. cbn in Es. subst r.
  pose proof Hsrc as [Esz _]. assert (Hpos : 0 < Z.of_nat (length (content f.1))) by (destruct (content f.1); [done|cbn; lia]).
  destruct (Z.leb_spec (Size src) 0); [lia|]. set (m := if n <? Size src then n else Size src).
  assert (Hm : 0 < m /\ m = Z.min n (Size src)) by (unfold m; destruct (Z.ltb_spec n (Size src)); lia). clearbody m.
  pose proof (read_block_inside src (content f.1) m 0 w1 Hsrc ltac:(lia) ltac:(lia) ltac:(lia)) as E.
  unfold call_bind. destruct (read_block src m 0 w1) as [w2 r]. cbn in E. subst r.
  destruct (Z.eqb_spec m 0); [lia|]. cbn. f_equal. unfold span. change (Z.to_nat 0) with 0%nat. rewrite drop_0, take_take. destruct Hm as [_ ->].
  destruct (Z.le_ge_cases n (Size src)); [f_equal; lia|]. rewrite !take_ge by lia. done.
Qed.

Lemma identities_read l : readable -> (forall f, f ∈ l -> f ∈ indexed (nzb_Files nzb) /\ empty_file f.2 = false) -> forall acc w,
  (read_identities md5 archiveByteSource itemID l acc 0 w).2 = Ok (acc ++ map (fun f => MkIdentity f.1 f.2 (identity_of f.1)) l, 0).
Proof.
  intros Hr Hl. induction l as [|f l IH]; intros acc w; cbn [read_identities map]; [by rewrite app_nil_r|].
  destruct (Hl f) as [Hf He]; [left|]. destruct f as [idx file].
  pose proof (prefix_read (idx, file) w par2IdentityPrefixBytes Hr Hf He ltac:(done)) as Hp. cbn [fst snd] in *.
  unfold call_bind. destruct (readNZBFilePrefix _ _ _ _ _ w) as [w1 r]. cbn in Hp. subst r.
  rewrite IH by (intros; apply Hl; by right). by rewrite <-app_assoc.
Qed.

(** The blocks of the files of a recovery set. *)
Definition total_blocks (info : PAR2Info) : Z :=
  foldr (fun id n => match descriptions info !! id with Some desc => block_count_of (Length desc) (SliceSize info) + n | None => n end) 0 (RecoverySetIDs info).

(** A description and the file of the post it is of. *)
Record described (info : PAR2Info) (p : Z) (id : Prelude.bytes) (desc : PAR2FileDesc) (f : Z * NZBFile) : Prop := {
  d_desc : desc ∈ Files info;
  d_id : FileID desc = id /\ id <> [];
  d_usable : usable_desc desc;
  d_file : f ∈ indexed (nzb_Files nzb);
  d_candidate : plausible info p f = true;
  d_hash : EqualFold (identity_of f.1) (Hash16K desc) = true;
  d_size : par2SizePlausible (TotalBytes f.2) (Length desc) = true
}.

(** A post whose recovery set can be matched: its files can be read, what they begin with
    tells them apart, and each member of the set is one of them. *)
Record matchable (info : PAR2Info) (p : Z) : Prop := {
  m_readable : readable;
  m_slice : usable (SliceSize info);
  m_set : RecoverySetIDs info <> [] /\ RecoverySetID info <> [];
  m_ids : NoDup (map FileID (Files info));
  m_members : NoDup (RecoverySetIDs info);
  m_hashes : NoDup (map (fun d => ascii_lower (Hash16K d)) (Files info));
  m_few : Z.of_nat (length (filter (fun f => plausible info p f = true) (indexed (nzb_Files nzb)))) <= 256;
  m_apart : forall f g, f ∈ indexed (nzb_Files nzb) -> g ∈ indexed (nzb_Files nzb) -> plausible info p f = true -> plausible info p g = true ->
    EqualFold (identity_of f.1) (identity_of g.1) = true -> f = g;
  m_described : forall id, id ∈ RecoverySetIDs info -> exists desc f, described info p id desc f;
  m_blocks : total_blocks info <= MaxPAR2TotalBlocks
}.

End Post.

(** ** The geometry of a matched post *)

Lemma indexed_spec files f : f ∈ indexed files <-> 0 <= f.1 /\ files !! Z.to_nat f.1 = Some f.2.
Proof.
  unfold indexed. rewrite list_elem_of_lookup. split.
  - intros [i (x & y & -> & Hx & Hy)%lookup_zip_with_Some]. apply lookup_seqZ in Hx as [-> Hi]. cbn. rewrite Z.add_0_l, Nat2Z.id. split; [lia|done].
  - intros [H0 Hf]. exists (Z.to_nat f.1). apply lookup_zip_with_Some. exists f.1, f.2. split; [by destruct f|]. split; [|done].
    apply lookup_lt_Some in Hf. rewrite lookup_seqZ. lia.
Qed.

Lemma indexed_NoDup files : NoDup (map fst (indexed files)).
Proof.
  unfold indexed. replace (map fst (zip (seqZ 0 (Z.of_nat (length files))) files)) with (seqZ 0 (Z.of_nat (length files))); [apply NoDup_seqZ|].
  symmetry. apply (fst_zip (seqZ 0 _) files). rewrite length_seqZ. lia.
Qed.

Lemma descriptions_lookup info desc : NoDup (map FileID (Files info)) -> desc ∈ Files info -> descriptions info !! FileID desc = Some desc.
Proof.
  unfold descriptions. generalize (∅ : gmap Prelude.bytes PAR2FileDesc) as m.
  induction (Files info) as [|d l IH] using rev_ind; intros m Hd Hin; [by apply not_elem_of_nil in Hin|].
  rewrite fold_left_app. cbn [fold_left]. rewrite map_app in Hd. apply NoDup_app in Hd as (Hd & Hu & _). cbn [map] in Hu.
  apply elem_of_app in Hin as [Hin| ->%list_elem_of_singleton]; [|by rewrite lookup_insert_eq].
  rewrite lookup_insert_ne; [by apply IH|]. intros E. apply (Hu (FileID desc)); [apply list_elem_of_fmap; by exists desc|]. rewrite E. left.
Qed.

(** Members numbered one after the other. *)
Lemma layout info matches ids n : (forall id, id ∈ ids -> exists desc i, descriptions info !! id = Some desc /\ 0 < Length desc /\ matched_to matches id i) ->
  exists files, map g_FileID files = ids /\ Forall (member info matches) files /\
    numbered (SliceSize info) n files
      (n + foldr (fun id k => match descriptions info !! id with Some desc => block_count_of (Length desc) (SliceSize info) + k | None => k end) 0 ids).
Proof.
  revert n. induction ids as [|id ids IH]; intros n Hids; [exists []; cbn; split_and!; try done; lia|].
  destruct (Hids id) as (desc & i & Hd & Hl & Hi); [left|]. set (k := block_count_of (Length desc) (SliceSize info)).
  destruct (IH (n + k)) as (files & Hf & Hm & Hn); [intros; apply Hids; by right|].
  exists (MkGeometryFile id (Length desc) i n k :: files). cbn [map g_FileID foldr]. rewrite Hf, Hd. fold k. split_and!; [done| |].
  - constructor; [|done]. exists desc. done.
  - cbn [numbered FirstBlock g_Length Blocks]. split_and!; try done. by rewrite Z.add_assoc.
Qed.

Section Resolved.
Context {W : Type} `{Context W} (md5 : Prelude.bytes -> Prelude.bytes).
Context (archiveByteSource : Prelude.bytes -> Z -> list NZBSegment -> W -> W * result goerror (ByteSource W)).
Context (itemID : Prelude.bytes) (nzb : NZB) (content : Z -> Prelude.bytes).

Local Notation identity_of := (identity_of md5 content).

Definition identities (info : PAR2Info) (p : Z) : list par2CandidateIdentity :=
  map (fun f => MkIdentity f.1 f.2 (identity_of f.1)) (filter (fun f => plausible info p f = true) (indexed (nzb_Files nzb))).

Lemma identities_spec info p i : i ∈ identities info p <->
  exists f, i = MkIdentity f.1 f.2 (identity_of f.1) /\ f ∈ indexed (nzb_Files nzb) /\ plausible info p f = true.
Proof.
  unfold identities. rewrite list_elem_of_fmap. setoid_rewrite list_elem_of_filter. split; intros (f & -> & ? & ?); by exists f.
Qed.

Lemma identities_NoDup info p : NoDup (map NZBFileIdx_ (identities info p)).
Proof. unfold identities. rewrite map_map. cbn. apply NoDup_map_filter, indexed_NoDup. Qed.

Lemma MatchPAR2FilesForItem_reads info p w : matchable md5 archiveByteSource itemID nzb content info p ->
  (MatchPAR2FilesForItem md5 archiveByteSource itemID nzb info p w).2 = (matchPAR2FileIdentities info (identities info p), None).
Proof.
  intros Hm. unfold MatchPAR2FilesForItem. rewrite candidates_exact. set (ok := filter _ _). pose proof (m_few _ _ _ _ _ _ _ Hm) as Hf. fold ok in Hf.
  rewrite take_ge by lia. destruct (Z.ltb_spec 256 (Z.of_nat (length ok))); [lia|].
  assert (Hr := identities_read md5 archiveByteSource itemID nzb content ok (m_readable _ _ _ _ _ _ _ Hm)).
  unfold call_bind. specialize (Hr ltac:(intros f Hin; apply list_elem_of_filter in Hin as [Hp Hin]; split; [done|];
    unfold plausible in Hp; destruct f as [idx file]; rewrite !andb_true_iff, negb_true_iff, <-orb_assoc, orb_false_iff in Hp; tauto) [] w).
  destruct (read_identities _ _ _ _ _ _ w) as [w1 r]. cbn in Hr. by subst r.
Qed.

Lemma described_match info p id desc f : matchable md5 archiveByteSource itemID nzb content info p -> described md5 nzb content info p id desc f ->
  MkMatch f.1 desc ∈ matchPAR2FileIdentities info (identities info p).
Proof.
  intros Hm [Hd Hid Hu Hf Hp Hh Hs]. unfold matchPAR2FileIdentities.
  destruct (matches_assigned (identities info p) (Files info) ∅ []) as (ms & used & -> & Ha). cbn [snd app].
  apply (assignment_complete _ _ _ _ desc (MkIdentity f.1 f.2 (identity_of f.1)) Ha); try done.
  - apply identities_NoDup.
  - intros i j (g & -> & Hg & Hpg)%identities_spec (h & -> & Hh' & Hph)%identities_spec E. cbn in E.
    by rewrite (m_apart _ _ _ _ _ _ _ Hm g h Hg Hh' Hpg Hph E).
  - apply Hm.
  - apply identities_spec. by exists f.
Qed.

(** C22. A post that can be read is resolved.  When every file reads as its content, the first
    16 KiB tell the candidates apart and hash to what the descriptions say, and each member
    of a usable recovery set is one of them with a plausible size, then the match succeeds
    without an error, a geometry is built from it, and every file of the geometry is the
    file of the post whose content has the hash of that member. *)
Theorem post_resolved info p w : matchable md5 archiveByteSource itemID nzb content info p ->
  exists matches geo, (MatchPAR2FilesForItem md5 archiveByteSource itemID nzb info p w).2 = (matches, None) /\
    BuildPAR2Geometry info matches = Ok geo /\ map g_FileID (g_Files geo) = RecoverySetIDs info /\
    TotalBlocks geo = total_blocks info /\
    forall g, g ∈ g_Files geo -> exists desc f, described md5 nzb content info p (g_FileID g) desc f /\
      g_Length g = Length desc /\ g_NZBFileIndex g = f.1.
Proof.
  intros Hm. set (ms := matchPAR2FileIdentities info (identities info p)).
  destruct (matches_assigned (identities info p) (Files info) ∅ []) as (ms' & used & Ems & Ha).
  assert (Hms : ms = ms') by (unfold ms, matchPAR2FileIdentities; by rewrite Ems).
  destruct (assignment_sound _ _ _ _ (identities_NoDup info p) Ha) as (Hnd & Hsub & Hsound). rewrite <-Hms in *.
  assert (Hto : forall id i, matched_to ms id i -> exists m, m ∈ ms /\ Desc m ∈ Files info /\ FileID (Desc m) = id /\ NZBFileIdx m = i).
  { intros id i (m & Hin & E & _ & Ei & _). exists m. split_and!; try done. eapply elem_of_sublist; [|apply Hsub]. apply list_elem_of_fmap. by exists m. }
  assert (Hfun : forall id i j, matched_to ms id i -> matched_to ms id j -> i = j).
  { intros id i j (m & Hin & Hdm & Em & <-)%Hto (m' & Hin' & Hdm' & Em' & <-)%Hto.
    assert (Desc m = Desc m') as E by (apply (NoDup_map_inj FileID (Files info)); [apply Hm|done|done|congruence]).
    f_equal. apply (NoDup_map_inj Desc ms); try done. eapply sublist_NoDup; [|apply Hsub]. eapply NoDup_map, (m_ids _ _ _ _ _ _ _ Hm). }
  assert (Hmem : forall id desc f, described md5 nzb content info p id desc f -> matched_to ms id f.1 /\ descriptions info !! id = Some desc).
  { intros id desc f Hd. pose proof (described_match _ _ _ _ _ Hm Hd) as Hin. destruct Hd as [Hd1 [<- Hne] _ Hf _ _ _]. split.
    - exists (MkMatch f.1 desc). split_and!; try done. by apply indexed_spec in Hf as [? _].
    - by apply descriptions_lookup; [apply Hm|]. }
  destruct (layout info ms (RecoverySetIDs info) 0) as (files & Hids & Hf & Hn).
  { intros id (desc & f & Hd)%(m_described _ _ _ _ _ _ _ Hm). exists desc, f.1. destruct (Hmem _ _ _ Hd). split_and!; try done. by destruct Hd as [_ _ [_ ?] _ _ _ _]. }
  exists ms, (MkGeometry (SliceSize info) (RecoverySetID info) files (total_blocks info)). split_and!; [by apply MatchPAR2FilesForItem_reads| |done|done|].
  - apply BuildPAR2Geometry_ok. cbn [g_SliceSize g_RecoverySetID g_Files TotalBlocks g_total]. destruct (m_set _ _ _ _ _ _ _ Hm).
    split_and!; try done; try apply Hm.
    apply NoDup_fmap_2_strong.
    + intros g h Hg Hh E. rewrite list.Forall_forall in Hf. destruct (Hf g Hg) as (_ & _ & _ & _ & Hmg), (Hf h Hh) as (_ & _ & _ & _ & Hmh).
      apply Hto in Hmg as (m1 & Hm1 & _ & E1 & Ei1), Hmh as (m2 & Hm2 & _ & E2 & Ei2).
      assert (m1 = m2) as -> by (apply (NoDup_map_inj NZBFileIdx ms); try done; congruence).
      apply (NoDup_map_inj g_FileID files); [rewrite Hids; apply Hm|done|done|congruence].
    + apply (NoDup_map g_FileID). rewrite Hids. apply Hm.
  - cbn [g_Files]. intros g Hg. assert (Hid : g_FileID g ∈ RecoverySetIDs info) by (rewrite <-Hids; apply list_elem_of_fmap; by exists g).
    destruct (m_described _ _ _ _ _ _ _ Hm _ Hid) as (desc & f & Hd). exists desc, f. destruct (Hmem _ _ _ Hd) as [Hmt Hdl].
    rewrite list.Forall_forall in Hf. destruct (Hf g Hg) as (desc' & Hd' & Hl & _ & Hi). split_and!; [done|congruence|]. by eapply Hfun.
Qed.

End Resolved.

(** ** A post of two files and an index *)

Module PostDemo.
#[local] Instance forever : Context unit := {| ctx_Err := fun w => (w, None) |}.
Definition toy_md5 (data : Prelude.bytes) : Prelude.bytes := [fold_right Z.add 0 data].
Definition content (idx : Z) : Prelude.bytes := if idx =? 0 then [1; 2; 3; 4; 5; 6; 7; 8] else if idx =? 1 then [7; 7; 7; 7] else [1; 2; 3].
Definition file (subject : string) (n : Z) : NZBFile := MkNZBFile (str subject) [] 0 [] [MkSegment 1 n (str "<m>") 0] n.
Definition nzb : NZB := MkNZB [] [] [] [file "a" 8; file "b" 4; file "set.PAR2" 100].
Definition source (_ : Prelude.bytes) (idx : Z) (_ : list NZBSegment) (w : unit) : unit * result goerror (ByteSource unit) :=
  (w, Ok (NewMemSource [] (content idx))).
Definition desc (idx : Z) (n : Z) : PAR2FileDesc := MkDesc [idx + 1] (identity_of toy_md5 content idx) [97] n.
Definition info : PAR2Info := MkInfo 4 [1] [desc 0 8; desc 1 4] [] [[1]; [2]] [].

Lemma files : indexed (nzb_Files nzb) = [(0, file "a" 8); (1, file "b" 4); (2, file "set.PAR2" 100)].
Proof. reflexivity. Qed.

Lemma post_matchable : matchable toy_md5 source [] nzb content info 2.
Proof.
  constructor.
  - intros f Hf _. split; [rewrite files, !list.elem_of_cons in Hf; destruct Hf as [->|[->|[->|?%not_elem_of_nil]]]; done|].
    intros w. eexists. split; [reflexivity|]. apply (mem_reads_as (H := forever)). intros v. done.
  - vm_compute. done.
  - done.
  - apply (bool_decide_unpack _). vm_compute. exact I.
  - apply (bool_decide_unpack _). vm_compute. exact I.
  - apply (bool_decide_unpack _). vm_compute. exact I.
  - vm_compute. done.
  - intros f g Hf Hg _ _. rewrite files, !list.elem_of_cons in Hf, Hg.
    destruct Hf as [->|[->|[->|?%not_elem_of_nil]]], Hg as [->|[->|[->|?%not_elem_of_nil]]]; try done; vm_compute; discriminate.
  - intros id Hid. cbn [RecoverySetIDs info] in Hid. rewrite !list.elem_of_cons in Hid. destruct Hid as [->|[->|?%not_elem_of_nil]]; [| |done].
    + exists (desc 0 8), (0, file "a" 8). split; [by left|done|vm_compute; done|rewrite files; left|vm_compute; reflexivity..].
    + exists (desc 1 4), (1, file "b" 4). split; [by right; left|done|vm_compute; done|rewrite files; right; left|vm_compute; reflexivity..].
  - vm_compute. done.
Qed.

Lemma matched_ids : NoDup (map NZBFileIdx_ (identities toy_md5 nzb content info 2)).
Proof. apply (bool_decide_unpack _). vm_compute. exact I. Qed.
End PostDemo.

Lemma files_matched_witness : NoDup (map NZBFileIdx (matchPAR2FileIdentities PostDemo.info (identities PostDemo.toy_md5 PostDemo.nzb PostDemo.content PostDemo.info 2))) /\
  length (matchPAR2FileIdentities PostDemo.info (identities PostDemo.toy_md5 PostDemo.nzb PostDemo.content PostDemo.info 2)) = 2%nat.
Proof.
  split; [|vm_compute; reflexivity].
  apply (files_matched PostDemo.info (identities PostDemo.toy_md5 PostDemo.nzb PostDemo.content PostDemo.info 2) PostDemo.matched_ids).
Defined.

Lemma post_resolved_witness : exists matches geo,
  (MatchPAR2FilesForItem (H := PostDemo.forever) PostDemo.toy_md5 PostDemo.source [] PostDemo.nzb PostDemo.info 2 tt).2 = (matches, None) /\
  BuildPAR2Geometry PostDemo.info matches = Ok geo /\ TotalBlocks geo = 3.
Proof.
  destruct (post_resolved (H := PostDemo.forever) _ _ _ _ _ _ _ tt PostDemo.post_matchable) as (matches & geo & Hm & Hg & _ & Ht & _).
  exists matches, geo. split; [exact Hm|]. split; [exact Hg|]. rewrite Ht. vm_compute. reflexivity.
Defined.
