(* ===== verification/CrossLaneSpan.v ===== *)
(** A damaged span from another lane: internal/nntp/par2crosslane.go.

    The blocks a lost segment touches are asked of a recovery one at a time, each with the
    proof of its hash; what comes back is checked against that proof again before its part
    of the span is kept.  The account and the measure pass are those of the repair, and so
    is the argument: what passes here is what a repair with the same blocks, padded to the
    slice, would have verified. *)

From Stdlib Require Import ZArith Lia.
From stdpp Require Import base list numbers strings gmap sets.
From S2P Require Import GF16 Par2Solver.
From S2P Require Import Prelude Outcome Bencode ContentProof LaneCandidate Text ByteSource Par2Packets Par2Recovery Par2Proof Par2Repair Par2RepairExact.

Local Open Scope Z_scope.
Local Open Scope harbor_scope.

Definition ErrCrossLaneAbstain : goerror := errors_New (str "nntp: cross-lane recovery abstained").
Definition cross_abstain (msg : string) : goerror := Error (TPlain (str msg)) [ErrCrossLaneAbstain].

Record CrossLaneBlock := MkCrossBlock { x_Data : Prelude.bytes; x_Lane : Lane }.

(** [CrossLaneRecover]: of an item, a file, its size and the proof of a block. *)
Definition CrossLaneRecover (W : Type) : Type := Prelude.bytes -> Z -> Z -> PAR2Proof -> W -> W * result goerror CrossLaneBlock.

Record crossLaneSpanResult := MkSpanResult { sp_data : Prelude.bytes; sp_spent : Z; sp_blocks : Z; torrentBlocks : Z; httpBlocks : Z }.

Section Span.
Context {W : Type} `{Context W} (md5 : Prelude.bytes -> Prelude.bytes).

Record span_state := MkSpan { x_out : Prelude.bytes; x_torrent : Z; x_http : Z; x_acct : repairAccount (W := W) }.

(** The bytes of a verified block that lie in the span. *)
Definition block_part (proof : PAR2Proof) (block first last start stop : Z) (data : Prelude.bytes) : result goerror Prelude.bytes :=
  let lo := if block =? first then start - p_Offset proof else 0 in
  let hi := if block =? last then stop - p_Offset proof else p_Length proof in
  if (lo <? 0) || (hi <? lo) || (Z.of_nat (length data) <? hi) then Err (cross_abstain "alternate block span disagrees")
  else Ok (span data lo (hi - lo)).

Definition cross_block (recover : CrossLaneRecover W) (itemID : Prelude.bytes) (fileIndex fileSize : Z) (domain : PAR2ProofDomain)
    (first last start stop : Z) (s : span_state) (block : Z) : W -> W * result goerror span_state :=
  pass! check (x_acct s) in
  match ProofAt domain (block * domain_SliceSize domain) with
  | None => call_ret (Err (cross_abstain "IFSC proof is absent"))
  | Some proof =>
      if remaining (x_acct s) <? p_Length proof then call_ret (Err (abstain "alternate block exceeds the remaining byte budget"))
      else
        let! recovered := recover itemID fileIndex fileSize proof in
        match recovered with
        | Err _ => ctx_or (cross_abstain "no verified alternate block")
        | Ok recovered =>
            let data := x_Data recovered in
            if negb (Z.of_nat (length data) =? p_Length proof) then call_ret (Err (cross_abstain "alternate block length disagrees"))
            else
              let! digest := proof_CandidateDigest md5 proof data in
              match digest with
              | Err _ => call_ret (Err (cross_abstain "alternate block failed IFSC verification"))
              | Ok digest =>
                  if negb (DigestEquals proof digest) then call_ret (Err (cross_abstain "alternate block failed IFSC verification"))
                  else
                    call_ret (
                      let? acct := spend (x_acct s) (Z.of_nat (length data)) in
                      let? part := block_part proof block first last start stop data in
                      Ok (MkSpan (x_out s ++ part)
                            (match x_Lane recovered with LaneTorrent => x_torrent s + 1 | _ => x_torrent s end)
                            (match x_Lane recovered with LaneHTTP => x_http s + 1 | _ => x_http s end) acct))
              end
        end
  end.

Definition recoverCrossLaneSpan (reader : option (PAR2RepairReader (W := W))) (itemID : Prelude.bytes) (fileIndex segIndex fileSize : Z)
    (domain : PAR2ProofDomain) (budget : PAR2RepairBudget) (now : option (W -> W * Z)) (recover : option (CrossLaneRecover W))
    : W -> W * result goerror crossLaneSpanResult :=
  match reader, recover, now with
  | Some reader, Some recover, Some now =>
      if negb (Enabled budget) || (domain_SliceSize domain <=? 0) || negb (domain_Length domain =? fileSize)
      then call_ret (Err ErrCrossLaneAbstain)
      else
        let! t := now in
        let acct := MkAccount budget now (t + MaxDuration budget) 0 in
        try! (start, len, acct) := measureDamagedSegment reader fileIndex segIndex fileSize acct in
        if i64 (domain_SliceSize domain * MaxPAR2UnknownBlocks) <? len then call_ret (Err (cross_abstain "damaged span exceeds the block bound"))
        else
          let stop := start + len in
          let first := Z.quot start (domain_SliceSize domain) in
          let last := Z.quot (stop - 1) (domain_SliceSize domain) in
          try! s := wfold (cross_block recover itemID fileIndex fileSize domain first last start stop) (MkSpan [] 0 0 acct)
                      (seqZ first (last - first + 1)) in
          if negb (Z.of_nat (length (x_out s)) =? len) then call_ret (Err (cross_abstain "recovered segment length disagrees"))
          else call_ret (Ok (MkSpanResult (x_out s) (a_spent (x_acct s)) (last - first + 1) (x_torrent s) (x_http s)))
  | _, _, _ => call_ret (Err ErrCrossLaneAbstain)
  end.

End Span.

(** ** What a block that passed is *)

Lemma wfold_app {W S A} (f : S -> A -> W -> W * result goerror S) l1 l2 : forall s w, wfold f s (l1 ++ l2) w =
  call_bind (wfold f s l1) (fun r => match r with Ok s1 => wfold f s1 l2 | Err e => call_ret (Err e) end) w.
Proof.
  induction l1 as [|x l1 IH]; intros s w; [done|]. cbn [app wfold]. unfold call_bind in *. destruct (f s x w) as [w1 [s1|e]]; [apply IH|done].
Qed.

#[local] Instance forever : Context unit := {| ctx_Err := fun w => (w, None) |}.

Lemma forever_alive : alive unit.
Proof. by intros w. Qed.

Section Blocks.
Context {W : Type} `{Context W} (md5 : Prelude.bytes -> Prelude.bytes).
Context (recover : CrossLaneRecover W) (itemID : Prelude.bytes) (fileIndex fileSize : Z) (d : PAR2ProofDomain) (start stop : Z).
Context (B : PAR2RepairBudget).
Hypothesis Hd : wf_domain d.
Hypothesis Hspan : 0 <= start < stop /\ stop <= domain_Length d.
Let s := domain_SliceSize d.
Let first := start / s.
Let last := (stop - 1) / s.

(** A block the recovery gave for its proof and that has the hash. *)
Definition recovered_block (b : Z) (x : Prelude.bytes) : Prop :=
  Z.of_nat (length x) = p_Length (block_proof d b) /\ md5 x = p_digest (block_proof d b) /\
  exists w block, (recover itemID fileIndex fileSize (block_proof d b) w).2 = Ok block /\ x_Data block = x.

Lemma span_blocks : 0 < s /\ 0 <= first /\ first * s <= start < (first + 1) * s /\ last * s <= stop - 1 < (last + 1) * s /\ first <= last /\
  forall b, first <= b <= last -> ProofAt d (b * s) = Some (block_proof d b) /\ 0 <= b < domain_Blocks d.
Proof.
  pose proof (wd_slice _ Hd) as Hs. fold (domain_SliceSize d) s in Hs.
  pose proof (Z.div_mod start s ltac:(lia)) as D1. pose proof (Z.mod_pos_bound start s ltac:(lia)) as M1. fold first in D1.
  pose proof (Z.div_mod (stop - 1) s ltac:(lia)) as D2. pose proof (Z.mod_pos_bound (stop - 1) s ltac:(lia)) as M2. fold last in D2.
  assert (Hf : 0 <= first) by (apply Z.div_pos; lia). split_and!; try nia. intros b Hb.
  destruct (ProofAt_block d (b * s) Hd ltac:(nia)) as [Ep Hr]. fold (domain_SliceSize d) s in Ep, Hr. by rewrite Z.div_mul in Ep, Hr by lia.
Qed.

(** A step of the loop is a step of the check of a repair, on the padded block. *)
Lemma cross_block_ok st b w w' st' : first <= b <= last -> within B (x_acct st) ->
  cross_block md5 recover itemID fileIndex fileSize d first last start stop st b w = (w', Ok st') ->
  within B (x_acct st') /\ x_torrent st + x_http st <= x_torrent st' + x_http st' <= x_torrent st + x_http st + 1 /\
  a_spent (x_acct st') = a_spent (x_acct st) + p_Length (block_proof d b) /\
  exists x, recovered_block b x /\
    (verify_block (W := unit) md5 d s first last start stop (x_out st) (b - first, padded s x) tt).2 = Ok (x_out st').
Proof.
  intros Hb Hw. unfold cross_block. fold s. destruct span_blocks as (Hs & Hf & _ & _ & _ & Hp). destruct (Hp b Hb) as [-> Hbd].
  intros Hr. calls Hr; [|by eapply ctx_or_fails in Hr].
  destruct (spend (x_acct st) (Z.of_nat (length (x_Data a)))) as [acct|] eqn:Esp; [|done]. cbn [rbind] in H1.
  destruct (block_part _ _ _ _ _ _ _) as [part|] eqn:Epart; [|done]. cbn [rbind] in H1. injection H1 as <-.
  apply (spend_within B) in Esp as (Hw' & _ & Hsp); [|done]. bool_hyps. apply DigestEquals_spec in Heqb2.
  pose proof (CandidateDigest_md5 md5 (block_proof d b) (x_Data a) w1 a0) as [Hdig _]; [by rewrite Hc1|].
  assert (Hx : recovered_block b (x_Data a)).
  { split_and!; [lia|congruence|]. exists w0, a. by rewrite Hc0. }
  cbn [x_out x_acct x_torrent x_http]. split_and!; [done|destruct (x_Lane a); lia|destruct (x_Lane a); lia|lia|].
  exists (x_Data a). split; [done|]. destruct Hx as (Hlen & Hm & _).
  destruct (verify_block_answer (H := forever) md5 forever_alive d start stop Hd Hspan (x_out st) (b - first) (x_Data a) tt) as [out' Eo];
    [change (first <= first + (b - first) <= last); lia
    |change (Z.of_nat (length (x_Data a)) = p_Length (block_proof d (first + (b - first)))); by replace (first + (b - first)) with b by lia
    |change (md5 (x_Data a) = p_digest (block_proof d (first + (b - first)))); by replace (first + (b - first)) with b by lia|].
  fold s first last in Eo.
  destruct (verify_block (W := unit) md5 d s first last start stop (x_out st) (b - first, padded s (x_Data a)) tt) as [[] r] eqn:Ev.
  cbn [snd] in Eo. subst r. cbn [snd]. f_equal.
  destruct (verify_block_ok md5 d first last start stop _ _ _ _ _ _ Hd Ev) as [_ Ho]. cbv zeta in Ho. fold s in Ho.
  replace (first + (b - first)) with b in Ho by lia. destruct Ho as (Hlo & Hhi & ->). f_equal.
  unfold block_part in Epart. change (p_Offset (block_proof d b)) with (b * s) in Epart.
  set (lo := if b =? first then start - b * s else 0) in *. set (hi := if b =? last then stop - b * s else p_Length (block_proof d b)) in *.
  destruct (_ || _ || _) eqn:Eb in Epart; [done|]. injection Epart as <-. bool_hyps.
  transitivity (span (take (Z.to_nat (Z.of_nat (length (x_Data a)))) (padded s (x_Data a))) lo (hi - lo)).
  - by rewrite span_take by lia.
  - by rewrite Nat2Z.id, padded_take.
Qed.

Lemma cross_blocks_ok st w w' st' : within B (x_acct st) -> x_out st = [] ->
  wfold (cross_block md5 recover itemID fileIndex fileSize d first last start stop) st (seqZ first (last - first + 1)) w = (w', Ok st') ->
  within B (x_acct st') /\ x_torrent st + x_http st <= x_torrent st' + x_http st' <= x_torrent st + x_http st + (last - first + 1) /\
  exists xs, Z.of_nat (length xs) = last - first + 1 /\ (forall i x, xs !! i = Some x -> recovered_block (first + Z.of_nat i) x) /\
    (wfold (verify_block (W := unit) md5 d s first last start stop) [] (zip (seqZ 0 (last - first + 1)) (map (padded s) xs)) tt).2 = Ok (x_out st').
Proof.
  intros Hw Ho Hrun. destruct span_blocks as (Hs & Hf & _ & _ & Hle & _).
  cut (within B (x_acct st') /\
    x_torrent st + x_http st <= x_torrent st' + x_http st' <= x_torrent st + x_http st + Z.of_nat (length (seqZ first (last - first + 1))) /\
    exists xs, length xs = length (seqZ first (last - first + 1)) /\ (forall i x, xs !! i = Some x -> recovered_block (first + Z.of_nat i) x) /\
      (wfold (verify_block (W := unit) md5 d s first last start stop) [] (zip (seqZ 0 (Z.of_nat (length xs))) (map (padded s) xs)) tt).2 = Ok (x_out st')).
  { rewrite length_seqZ. intros (H1 & H2 & xs & Hl & H3 & H4). split_and!; [done|lia|lia|]. exists xs. split_and!; [lia|done|].
    by replace (last - first + 1) with (Z.of_nat (length xs)) by lia. }
  refine (wfold_inv _ (fun pre st' => within B (x_acct st') /\
    x_torrent st + x_http st <= x_torrent st' + x_http st' <= x_torrent st + x_http st + Z.of_nat (length pre) /\
    exists xs, length xs = length pre /\ (forall i x, xs !! i = Some x -> recovered_block (first + Z.of_nat i) x) /\
      (wfold (verify_block (W := unit) md5 d s first last start stop) [] (zip (seqZ 0 (Z.of_nat (length xs))) (map (padded s) xs)) tt).2 = Ok (x_out st'))
    _ _ _ _ _ _ _ Hrun).
  2: { split_and!; [done|cbn; lia|cbn; lia|]. exists []. rewrite Ho. done. }
  intros pre b post st1 v v' st2 Hl (Hw1 & Hn1 & xs & Hlen & Hxs & Hv) Hstep.
  assert (Hb : seqZ first (last - first + 1) !! length pre = Some b) by (rewrite Hl, list_lookup_middle; done).
  apply lookup_seqZ in Hb as [-> Hlt].
  destruct (cross_block_ok st1 (first + Z.of_nat (length pre)) v v' st2 ltac:(lia) Hw1 Hstep) as (Hw2 & Hn2 & _ & x & Hx & Hvx).
  rewrite length_app. cbn [length]. split_and!; [done|lia|lia|]. exists (xs ++ [x]). rewrite length_app. cbn [length]. split_and!; [lia| |].
  - intros i y Hy. apply lookup_snoc_Some in Hy as [[_ Hy]|[-> <-]]; [by apply Hxs|]. by rewrite Hlen.
  - rewrite Nat2Z.inj_add. change (Z.of_nat 1) with 1. rewrite seqZ_app by lia. rewrite map_app. cbn [map].
    rewrite zip_with_app by (rewrite length_seqZ, length_map; lia). rewrite wfold_app. unfold call_bind.
    destruct (wfold (verify_block (W := unit) _ _ _ _ _ _ _) [] _ tt) as [[] r]. cbn [snd] in Hv. subst r.
    replace (0 + Z.of_nat (length xs)) with (Z.of_nat (length xs)) by lia.
    replace (first + Z.of_nat (length pre) - first) with (Z.of_nat (length xs)) in Hvx by lia. rewrite seqZ_cons by lia. cbn [zip zip_with wfold].
    unfold call_bind. destruct (verify_block (W := unit) _ _ _ _ _ _ _ _ _ tt) as [[] r]. cbn [snd] in Hvx. by subst r.
Qed.

End Blocks.

(** ** What a recovery may fail with *)

(** A sentinel or one that wraps it. *)
Definition abstention (e : goerror) : Prop := e = ErrCrossLaneAbstain \/ exists msg, e = cross_abstain msg.

Section Failures.
Context {W : Type} `{Context W} (md5 : Prelude.bytes -> Prelude.bytes).

Definition cross_errs {A} (c : W -> W * result goerror A) : Prop :=
  forall w, match (c w).2 with Ok _ => True | Err e => expected (W := W) e \/ abstention e end.

Lemma cross_of_errs {A} (c : W -> W * result goerror A) : errs c -> cross_errs c.
Proof. intros Hc w. specialize (Hc w). destruct (c w).2; [done|by left]. Qed.

Lemma cross_ok {A} (a : A) : cross_errs (call_ret (Ok a)).
Proof. done. Qed.

Lemma cross_abstain_errs {A} msg : cross_errs (call_ret (A := result goerror A) (Err (cross_abstain msg))).
Proof. intros w. right. right. by eexists. Qed.

Lemma cross_sentinel {A} : cross_errs (call_ret (A := result goerror A) (Err ErrCrossLaneAbstain)).
Proof. intros w. right. by left. Qed.

Lemma cross_bind {A B} (c : W -> W * A) (f : A -> W -> W * result goerror B) : (forall a, cross_errs (f a)) -> cross_errs (call_bind c f).
Proof. intros Hf w. unfold call_bind. destruct (c w) as [w1 a]. apply Hf. Qed.

Lemma cross_try {A B} (c : W -> W * result goerror A) (f : A -> W -> W * result goerror B) :
  cross_errs c -> (forall a, cross_errs (f a)) -> cross_errs (try! x := c in f x).
Proof. intros Hc Hf w. unfold call_bind. specialize (Hc w). destruct (c w) as [w1 [a|e]]; [apply Hf|done]. Qed.

Lemma cross_pass {B} (c : W -> W * option goerror) (k : W -> W * result goerror B) : may_err c -> cross_errs k -> cross_errs (pass! c in k).
Proof. intros Hc Hk w. unfold call_bind. specialize (Hc w). destruct (c w) as [w1 [e|]]; [by left|apply Hk]. Qed.

Lemma cross_fold {S A} (f : S -> A -> W -> W * result goerror S) l : (forall s x, cross_errs (f s x)) -> forall s, cross_errs (wfold f s l).
Proof. intros Hf. induction l as [|x l IH]; intros s; [apply cross_ok|]. cbn [wfold]. by apply cross_try. Qed.

Lemma cross_ctx_or {A} msg : cross_errs (ctx_or (A := A) (cross_abstain msg)).
Proof.
  intros w. unfold ctx_or, call_bind. pose proof (ex_intro (fun v => (ctx_Err v).2 = (ctx_Err w).2) w eq_refl) as He.
  destruct (ctx_Err w) as [w1 [e|]]; cbn in *; [left; by left|]. right. right. by eexists.
Qed.

Lemma cross_spend {A} (a : repairAccount (W := W)) n (k : repairAccount -> result goerror A) :
  (forall a', match k a' with Ok _ => True | Err e => abstention e end) -> cross_errs (call_ret (let? a' := spend a n in k a')).
Proof.
  intros Hk w. cbn. pose proof (spend_abstains a n) as Ha. destruct (spend a n) as [a'|e]; cbn [rbind].
  - specialize (Hk a'). destruct (k a'); [done|by right].
  - left. right. exact Ha.
Qed.

Lemma cross_block_errs recover itemID fileIndex fileSize d first last start stop s b :
  cross_errs (cross_block md5 recover itemID fileIndex fileSize d first last start stop s b).
Proof.
  unfold cross_block. apply cross_pass; [apply check_errs|]. destruct (ProofAt d _) as [p|]; [|apply cross_abstain_errs].
  destruct (_ <? _); [apply cross_of_errs, errs_abstain|]. apply cross_bind. intros [blk|e]; [|apply cross_ctx_or].
  destruct (negb _); [apply cross_abstain_errs|]. apply cross_bind. intros [dig|e]; [|apply cross_abstain_errs].
  destruct (negb _); [apply cross_abstain_errs|]. apply cross_spend. intros a'. unfold block_part.
  destruct (_ || _ || _); cbn [rbind]; [right; by eexists|done].
Qed.

Lemma cross_span_errs reader itemID fileIndex segIndex fileSize d B now recover :
  cross_errs (recoverCrossLaneSpan md5 reader itemID fileIndex segIndex fileSize d B now recover).
Proof.
  unfold recoverCrossLaneSpan. destruct reader as [r|], recover as [rec|], now as [now|]; try apply cross_sentinel.
  destruct (_ || _ || _); [apply cross_sentinel|]. apply cross_bind. intros t. apply cross_try; [apply cross_of_errs, measure_errs|].
  intros [[start len] acct]. destruct (_ <? _); [apply cross_abstain_errs|]. apply cross_try; [apply cross_fold, cross_block_errs|].
  intros s. destruct (negb _); [apply cross_abstain_errs|apply cross_ok].
Qed.

End Failures.

(** ** The span *)

Section Recovered.
Context {W : Type} `{Context W} (md5 : Prelude.bytes -> Prelude.bytes).

(** The run of the loop of a recovery that succeeds. *)
Lemma cross_span_ok r itemID fileIndex segIndex fileSize d B now recover w w' res :
  recoverCrossLaneSpan md5 (Some r) itemID fileIndex segIndex fileSize d B (Some now) (Some recover) w = (w', Ok res) -> wf_domain d ->
  let s := domain_SliceSize d in
  exists start acct w1 w2 st, domain_Length d = fileSize /\ 0 <= start /\
    let len := Z.of_nat (length (sp_data res)) in let first := start / s in let last := (start + len - 1) / s in
    0 < len /\ start + len <= fileSize /\ len <= s * 256 /\ within B acct /\
    (exists w0, (measureDamagedSegment r fileIndex segIndex fileSize (MkAccount B now ((now w).2 + MaxDuration B) 0) w0).2 = Ok (start, len, acct)) /\
    wfold (cross_block md5 recover itemID fileIndex fileSize d first last start (start + len)) (MkSpan [] 0 0 acct) (seqZ first (last - first + 1)) w1 = (w2, Ok st) /\
    res = MkSpanResult (x_out st) (a_spent (x_acct st)) (last - first + 1) (x_torrent st) (x_http st).
Proof.
  intros Hrun Hd s. assert (Hs : 0 < s <= 67108864) by exact (wd_slice _ Hd). assert (Es : domain_SliceSize d = s) by done. clearbody s.
  unfold recoverCrossLaneSpan in Hrun. calls Hrun. cbn [sp_data]. bool_hyps. unfold Enabled in *. bool_hyps. change MaxPAR2UnknownBlocks with 256 in *.
  pose proof Hc0 as Hm. apply (measure_within B) in Hm as (Hw & Hs0 & Hl0 & Hle); [|split; cbn; [done|lia]].
  rewrite i64_small in * by (unfold is_i64, minInt64, maxInt64; lia). rewrite !Z.quot_div_nonneg in * by lia.
  rewrite Heqb1. exists z, r0, w1, w', a0. split_and!; try done.
  exists w0. rewrite Hc. cbn [snd]. by rewrite Hc0.
Qed.

Lemma map_padded_lookup s (xs : list Prelude.bytes) i y : map (padded s) xs !! i = Some y -> exists x, xs !! i = Some x /\ y = padded s x.
Proof. rewrite list_map_lookup. intros (x & -> & Hx)%fmap_Some. by exists x. Qed.

(** What a recovery that succeeds serves. *)
Lemma cross_served reader itemID fileIndex segIndex fileSize d B now recover : forall index idx w res, NewPAR2ProofDomain index idx = Some d ->
     (recoverCrossLaneSpan md5 reader itemID fileIndex segIndex fileSize d B now recover w).2 = Ok res ->
     let s := domain_SliceSize d in let len := Z.of_nat (length (sp_data res)) in
     exists start F rec, recover = Some rec /\
       let touched b := start / s <= b <= (start + len - 1) / s in
       0 <= start /\ 0 < len /\ start + len <= fileSize /\ 0 <= sp_spent res <= MaxBytes B /\
       sp_blocks res = (start + len - 1) / s - start / s + 1 /\ sp_blocks res <= 257 /\ 0 <= torrentBlocks res + httpBlocks res <= sp_blocks res /\
       Z.of_nat (length F) = fileSize /\ sp_data res = span F start len /\
       (forall b, touched b -> md5 (span F (b * s) (p_Length (block_proof d b))) = p_digest (block_proof d b) /\
          exists x, recovered_block md5 rec itemID fileIndex fileSize d b x) /\
       (forall G, Z.of_nat (length G) = fileSize ->
          (forall b x, touched b -> Z.of_nat (length x) = p_Length (block_proof d b) -> md5 x = p_digest (block_proof d b) ->
             x = span G (b * s) (p_Length (block_proof d b))) -> sp_data res = span G start len).
Proof.
  intros index idx w res Hd%NewPAR2ProofDomain_wf Hres s len.
  destruct (recoverCrossLaneSpan _ _ _ _ _ _ _ _ _ _ w) as [w' res'] eqn:Hrun. cbn [snd] in Hres. subst res'.
  destruct reader as [r|], recover as [rec|], now as [now|]; try done.
  destruct (cross_span_ok _ _ _ _ _ _ _ _ _ _ _ _ Hrun Hd) as (start & acct & w1 & w2 & st & Hl & Hs0 & Hl0 & Hle & Hmax & Hw & _ & Hfold & Er).
  fold s len in Hl0, Hle, Hmax, Hfold, Er. assert (Hs : 0 < s) by (pose proof (wd_slice _ Hd); unfold s, domain_SliceSize; lia).
  rewrite <-Hl in *.
  destruct (cross_blocks_ok md5 rec itemID fileIndex (domain_Length d) d start (start + len) B Hd ltac:(lia) (MkSpan [] 0 0 acct) _ _ _ Hw eq_refl Hfold)
    as (Hw' & Hn & xs & Hlen & Hxs & Hv). cbn [x_torrent x_http x_out] in Hn.
  assert (Eo : x_out st = sp_data res) by by rewrite Er.
  destruct (wfold (verify_block (W := unit) _ _ _ _ _ _ _) [] _ tt) as [[] r'] eqn:Hrv. cbn [snd] in Hv. subst r'. rewrite Eo in Hrv.
  fold s in Hlen, Hrv, Hxs, Hn.
  destruct (verified_file (W := unit) md5 d start len (map (padded s) xs) tt tt (sp_data res) Hd Hs0 Hl0 Hle) as [(F & HF & Hout & Hmd) Hbind].
  { rewrite length_map. exact Hlen. } { exact Hrv. }
  exists start, F, rec. split; [done|]. cbv zeta. destruct Hw' as [_ Hsp]. cbn [sp_blocks sp_spent torrentBlocks httpBlocks] in *.
  assert (H257 : (start + len - 1) / s - start / s + 1 <= 257).
  { pose proof (Z.div_mod start s ltac:(lia)). pose proof (Z.mod_pos_bound start s Hs).
    pose proof (Z.div_mod (start + len - 1) s ltac:(lia)). pose proof (Z.mod_pos_bound (start + len - 1) s Hs). nia. }
  assert (Hb : sp_blocks res = (start + len - 1) / s - start / s + 1) by by rewrite Er.
  assert (Hspent : sp_spent res = a_spent (x_acct st)) by by rewrite Er.
  assert (Htb : torrentBlocks res + httpBlocks res = x_torrent st + x_http st) by by rewrite Er.
  split_and!; try done; try lia.
  intros b Hbt. split; [by apply Hmd|]. destruct (lookup_lt_is_Some_2 xs (Z.to_nat (b - start / s))) as [x Hx]; [lia|].
  exists x. specialize (Hxs _ _ Hx). by replace (start / s + Z.of_nat (Z.to_nat (b - start / s))) with b in Hxs by lia.
Qed.

Lemma cross_verified_span reader itemID fileIndex segIndex fileSize d B now recover index idx w res : NewPAR2ProofDomain index idx = Some d ->
  (recoverCrossLaneSpan md5 reader itemID fileIndex segIndex fileSize d B now recover w).2 = Ok res ->
  exists start, verified_span md5 d start (sp_data res).
Proof.
  intros Hd Hres. destruct (cross_served _ _ _ _ _ _ _ _ _ _ _ _ _ Hd Hres) as (start & F & rec & _ & H1 & H2 & H3 & _ & _ & _ & _ & H4 & H5 & H6 & H7).
  assert (Hl : domain_Length d = fileSize).
  { unfold recoverCrossLaneSpan in Hres. destruct reader, recover, now; try done. destruct (_ || _ || _) eqn:E; [done|]. by bool_hyps. }
  rewrite <-Hl in *. exists start. split_and!; try done. exists F. split_and!; try done. intros b Hb. by apply H6.
Qed.

(** C23. A recovery from another lane serves nothing that was not checked.  It fails only with
    the context's error or an abstention.  When it succeeds, the bytes are the span that was
    measured of some file of the described length, in which every block the span touches was
    given by the recovery for its proof and has the hash the proof records; so they are the
    span of the original file whenever no other block has the hash of one of its blocks.
    The bytes read stay within the budget, and the blocks are counted. *)
Theorem crosslane_span_verified reader itemID fileIndex segIndex fileSize d B now recover :
  (forall w e, (recoverCrossLaneSpan md5 reader itemID fileIndex segIndex fileSize d B now recover w).2 = Err e ->
     expected (W := W) e \/ abstention e) /\
  (forall index idx w res, NewPAR2ProofDomain index idx = Some d ->
     (recoverCrossLaneSpan md5 reader itemID fileIndex segIndex fileSize d B now recover w).2 = Ok res ->
     let s := domain_SliceSize d in let len := Z.of_nat (length (sp_data res)) in
     exists start F rec, recover = Some rec /\
       let touched b := start / s <= b <= (start + len - 1) / s in
       0 <= start /\ 0 < len /\ start + len <= fileSize /\ 0 <= sp_spent res <= MaxBytes B /\
       sp_blocks res = (start + len - 1) / s - start / s + 1 /\ sp_blocks res <= 257 /\ 0 <= torrentBlocks res + httpBlocks res <= sp_blocks res /\
       Z.of_nat (length F) = fileSize /\ sp_data res = span F start len /\
       (forall b, touched b -> md5 (span F (b * s) (p_Length (block_proof d b))) = p_digest (block_proof d b) /\
          exists x, recovered_block md5 rec itemID fileIndex fileSize d b x) /\
       (forall G, Z.of_nat (length G) = fileSize ->
          (forall b x, touched b -> Z.of_nat (length x) = p_Length (block_proof d b) -> md5 x = p_digest (block_proof d b) ->
             x = span G (b * s) (p_Length (block_proof d b))) -> sp_data res = span G start len)).
Proof.
  split; [|apply cross_served].
  intros w e He. pose proof (cross_span_errs md5 reader itemID fileIndex segIndex fileSize d B now recover w) as Hr. by rewrite He in Hr.
Qed.

End Recovered.

(** ** A lane that has the bytes *)

Section Exact.
Context {W : Type} `{Context W} (md5 : Prelude.bytes -> Prelude.bytes).
Context (r : PAR2RepairReader (W := W)) (itemID : Prelude.bytes) (fileIndex lost : Z) (d : PAR2ProofDomain) (B : PAR2RepairBudget).
Context (now : W -> W * Z) (recover : CrossLaneRecover W) (count : Z) (data : Z -> Prelude.bytes).
Local Notation s := (domain_SliceSize d).

Definition lost_from : Z := Z.of_nat (length (segments data lost)).
Definition lost_to : Z := lost_from + Z.of_nat (length (data lost)).
Definition from_block : Z := lost_from / s.
Definition to_block : Z := (lost_to - 1) / s.
Local Notation file := (segments data count).

(** The surviving segments can be read, the other lane gives the blocks of the file, these
    have the recorded hashes, and the budget covers the reads. *)
Record recoverable : Prop := {
  rc_alive : alive W;
  rc_clock : forall w w', (now w').2 < (now w).2 + MaxDuration B;
  rc_enabled : Enabled B = true;
  rc_count : forall w, (SegmentCount r fileIndex w).2 = Some count;
  rc_lost : 0 <= lost < count /\ data lost <> [];
  rc_read : forall i w, 0 <= i < count -> i <> lost -> (ReadSegment r fileIndex i w).2 = Ok (data i);
  rc_domain : wf_domain d /\ domain_Length d = Z.of_nat (length file);
  rc_blocks : forall b w, from_block <= b <= to_block -> exists block,
    (recover itemID fileIndex (domain_Length d) (block_proof d b) w).2 = Ok block /\
    x_Data block = span file (b * s) (p_Length (block_proof d b)) /\ md5 (x_Data block) = p_digest (block_proof d b);
  rc_size : Z.of_nat (length (data lost)) <= s * 256;
  rc_budget : others lost count data + (to_block - from_block + 1) * s <= MaxBytes B
}.

Hypothesis Hrc : recoverable.

Lemma lost_span : 0 <= lost_from < lost_to /\ lost_to <= domain_Length d /\ span file lost_from (lost_to - lost_from) = data lost /\ 0 < s <= 67108864.
Proof.
  destruct (rc_domain Hrc) as [Hd Hl], (rc_lost Hrc) as [Hn Hne]. unfold lost_to. rewrite Hl.
  pose proof (segments_split lost count data Hn) as Hsplit.
  assert (0 < Z.of_nat (length (data lost))) by (destruct (data lost); [done|cbn; lia]). unfold lost_from. split_and!; try lia.
  - rewrite Hsplit, !length_app. lia.
  - rewrite Hsplit. unfold span. rewrite Nat2Z.id, drop_app_length. replace (Z.to_nat _) with (length (data lost)) by lia. by rewrite take_app_length.
  - exact (proj1 (wd_slice _ Hd)).
  - exact (proj2 (wd_slice _ Hd)).
Qed.

Lemma cross_block_answer st b n w : from_block <= b <= to_block -> account now B n (x_acct st) -> n + s <= MaxBytes B ->
  exists st', (cross_block md5 recover itemID fileIndex (domain_Length d) d from_block to_block lost_from lost_to st b w).2 = Ok st' /\
    exists n', account now B n' (x_acct st') /\ n' <= n + s.
Proof.
  intros Hb Ha Hn. destruct lost_span as (Hf & Ht & _ & Hs). destruct (rc_domain Hrc) as [Hd _].
  destruct (span_blocks d lost_from lost_to Hd ltac:(lia)) as (_ & H0 & Hfirst & Hlast & _ & Hp).
  destruct (Hp b Hb) as [Ep Hbd]. pose proof (block_proof_length d b Hd Hbd) as [Hpl Hpe].
  destruct (rc_blocks Hrc b w Hb) as (blk0 & _ & Hx0 & Hm0).
  unfold cross_block. rewrite Ep.
  match goal with |- context [call_bind (check ?a) ?k ?w] => destruct (check_bind (rc_alive Hrc) now B (rc_clock Hrc) k n a w Ha) as [w1 ->] end.
  cbn beta iota. destruct Ha as (Ha1 & Ha2 & Ha3 & Ha4).
  assert (Hrem : remaining (x_acct st) = MaxBytes B - n) by (unfold remaining; rewrite Ha2, Ha3; destruct (Z.leb_spec (MaxBytes B) n); lia).
  rewrite Hrem. destruct (Z.ltb_spec (MaxBytes B - n) (p_Length (block_proof d b))); [lia|].
  destruct (rc_blocks Hrc b w1 Hb) as (blk & Eb & Hx & Hm). eapply bind_answer'; [exact Eb|]. intros w2. cbn beta iota.
  assert (Hlen : Z.of_nat (length (x_Data blk)) = p_Length (block_proof d b)).
  { rewrite Hx. apply span_length; [nia|lia|]. destruct (rc_domain Hrc) as [_ <-]. lia. }
  rewrite Hlen, Z.eqb_refl. cbn [negb]. eapply bind_answer'.
  { apply (CandidateDigest_alive md5 _ _ _ (rc_alive Hrc)); [|done]. unfold domain_SliceSize in *. change MaxPAR2ProofBlockBytes with 67108864. lia. }
  intros w3. cbn beta iota. rewrite (proj2 (DigestEquals_spec _ _)) by done. cbn [negb call_ret snd].
  destruct (spend_answer now B n (x_acct st) (p_Length (block_proof d b))) as (acct & -> & Hacct); [done|lia|lia|]. cbn [rbind].
  unfold block_part. change (p_Offset (block_proof d b)) with (b * s). rewrite Hlen.
  set (lo := if b =? from_block then _ else _). set (hi := if b =? to_block then _ else _).
  assert (Hlo : 0 <= lo /\ lo <= hi <= p_Length (block_proof d b)).
  { unfold lo, hi. fold from_block in Hfirst. fold to_block in Hlast. destruct (Z.eqb_spec b from_block) as [Eb1|], (Z.eqb_spec b to_block) as [Eb2|]; nia. }
  destruct (Z.ltb_spec lo 0); [lia|]. destruct (Z.ltb_spec hi lo); [lia|]. destruct (Z.ltb_spec (p_Length (block_proof d b)) hi); [lia|]. cbn [orb rbind].
  eexists. split; [reflexivity|]. cbn [x_acct]. exists (n + p_Length (block_proof d b)). split; [done|lia].
Qed.

(** A lane that has the bytes restores them.  When the surviving segments can be read,
    the recovery gives, for the proof of each block the lost segment touches, the bytes of
    that block of the file, these have the recorded hashes, the segment is within 256 slices
    and the budget covers the reads, then the recovery succeeds and gives exactly the lost
    segment. *)
Theorem crosslane_span_exact w : exists n t h,
  (recoverCrossLaneSpan md5 (Some r) itemID fileIndex lost (domain_Length d) d B (Some now) (Some recover) w).2 =
    Ok (MkSpanResult (data lost) n (to_block - from_block + 1) t h) /\ n <= MaxBytes B.
Proof.
  destruct lost_span as (Hf & Ht & Hspan & Hs). destruct (rc_domain Hrc) as [Hd Hl]. destruct (rc_lost Hrc) as [Hn Hne].
  pose proof (rc_size Hrc) as Hsize. pose proof (rc_budget Hrc) as Hbud.
  destruct (span_blocks d lost_from lost_to Hd ltac:(lia)) as (_ & H0 & Hfirst & Hlast & Hle & _). fold from_block to_block in *.
  unfold recoverCrossLaneSpan. rewrite (rc_enabled Hrc), Z.eqb_refl. destruct (Z.leb_spec s 0); [lia|]. cbn [negb orb].
  unfold call_bind at 1. destruct (now w) as [w1 t0] eqn:En. set (a := MkAccount B now (t0 + MaxDuration B) 0).
  assert (Ha : account now B 0 a) by (split_and!; try done; exists w; by rewrite En).
  assert (Hoth : 0 <= others lost count data) by (unfold others, size_of; rewrite (segments_split lost count data Hn), !length_app; lia).
  destruct (measure_answer (rc_alive Hrc) now B (rc_clock Hrc) r fileIndex lost count data (rc_count Hrc) Hn (rc_read Hrc) 0 a w1 Ha Hne) as (a1 & Em & Ha1); [nia|].
  rewrite <-Hl in Em. rewrite Z.add_0_l in Ha1. unfold call_bind at 1. destruct (measureDamagedSegment _ _ _ _ _ w1) as [w2 res]. cbn [snd] in Em. subst res.
  fold lost_from. unfold size_of. fold lost_to. change MaxPAR2UnknownBlocks with 256. rewrite i64_small by (unfold is_i64, minInt64, maxInt64; lia).
  destruct (Z.ltb_spec (s * 256) (Z.of_nat (length (data lost)))); [lia|]. rewrite !Z.quot_div_nonneg by lia. fold from_block to_block.
  destruct (wfold_answer (cross_block md5 recover itemID fileIndex (domain_Length d) d from_block to_block lost_from lost_to)
    (fun pre st => exists n, account now B n (x_acct st) /\ n <= others lost count data + Z.of_nat (length pre) * s)
    (seqZ from_block (to_block - from_block + 1))) with (s := MkSpan [] 0 0 a1) (w := w2) as (st & Ef & n & Hacct & _).
  { intros pre b post st v Hsplit (n & Hacct & Hnle).
    assert (Hb : seqZ from_block (to_block - from_block + 1) !! length pre = Some b) by (rewrite Hsplit, list_lookup_middle; done).
    apply lookup_seqZ in Hb as [-> Hlt].
    destruct (cross_block_answer st (from_block + Z.of_nat (length pre)) n v) as (st' & E & n' & Hacct' & Hn'); [lia|done|nia|].
    exists st'. split; [done|]. exists n'. split; [done|]. rewrite length_app. cbn [length]. lia. }
  { exists (others lost count data). split; [done|cbn; lia]. }
  unfold call_bind at 1. destruct (wfold _ _ _ w2) as [w3 res] eqn:Erun. cbn [snd] in Ef. subst res.
  destruct (cross_blocks_ok md5 recover itemID fileIndex (domain_Length d) d lost_from lost_to B Hd ltac:(lia) (MkSpan [] 0 0 a1) w2 w3 st) as (Hw' & _ & xs & Hlen & Hxs & Hv).
  { destruct Ha1 as (_ & ? & ? & _). cbn. split; [done|nia]. } { done. } { exact Erun. }
  fold from_block to_block in Hlen, Hxs, Hv.
  destruct (wfold (verify_block (W := unit) _ _ _ _ _ _ _) [] _ tt) as [[] r'] eqn:Hrv. cbn [snd] in Hv. subst r'.
  assert (Hout : x_out st = data lost).
  { rewrite <-Hspan. refine (verify_blocks_span (W := unit) md5 d from_block to_block lost_from lost_to (map (padded s) xs) file tt tt _ Hd _ _ Ht _ eq_refl eq_refl _ _ Hrv);
      [lia|lia|done|rewrite length_map; lia|].
    intros i y Hi _. apply map_padded_lookup in Hi as (x & Hx & ->). pose proof (Hxs i x Hx) as (Hxl & _ & v & blk & Eb & Ed).
    apply lookup_lt_Some in Hx. destruct (rc_blocks Hrc (from_block + Z.of_nat i) v ltac:(lia)) as (blk' & Eb' & Ed' & _).
    rewrite Eb in Eb'. injection Eb' as <-. cbv zeta. rewrite <-Hxl, Nat2Z.id, padded_take, Hxl. change (p_Offset (block_proof d (from_block + Z.of_nat i))) with ((from_block + Z.of_nat i) * s).
    congruence. }
  rewrite Hout, Z.eqb_refl. cbn [negb call_ret snd]. exists (a_spent (x_acct st)), (x_torrent st), (x_http st). split; [done|].
  destruct Hw' as [_ ?]. lia.
Qed.

End Exact.

(** ** A post of two segments, the first restored from another lane *)

Module CrossSample.
Import RepairSample.

Definition lane (_ : Prelude.bytes) (_ _ : Z) (p : PAR2Proof) (w : unit) : unit * result goerror CrossLaneBlock :=
  (w, Ok (MkCrossBlock (span [1; 2; 3; 4; 5; 6; 7; 8] (p_Offset p) (p_Length p)) LaneTorrent)).
Definition budget : PAR2RepairBudget := MkBudget 1000 1.
Definition index : PAR2ProofIndex := MkProofIndex 4 [pd_file domain].
Definition recovered : unit * result goerror crossLaneSpanResult :=
  recoverCrossLaneSpan (H := forever) hash (Some reader) [] 0 0 8 domain budget (Some (fun w => (w, 0))) (Some lane) tt.

Lemma sample_recoverable : recoverable (H := forever) hash reader [] 0 0 domain budget (fun w => (w, 0)) lane 2 (segment 0).
Proof.
  split.
  - intros w. reflexivity.
  - intros w w'. reflexivity.
  - reflexivity.
  - intros w. reflexivity.
  - split; [lia|discriminate].
  - intros i w Hi Hne. cbn. destruct (Z.eqb_spec i 0); [done|]. done.
  - split; [|reflexivity]. constructor; [split; [reflexivity|vm_compute; discriminate]|reflexivity|reflexivity].
  - intros b w Hb. assert (Hb' : 0 <= b <= 0) by exact Hb. assert (b = 0) as -> by lia. eexists. split; [reflexivity|]. split; [reflexivity|]. reflexivity.
  - vm_compute. discriminate.
  - vm_compute. discriminate.
Qed.
End CrossSample.

Lemma crosslane_span_exact_witness : exists n t h, (CrossSample.recovered).2 = Ok (MkSpanResult [1; 2; 3; 4] n 1 t h).
Proof.
  destruct (crosslane_span_exact (H := forever) _ _ _ _ _ _ _ _ _ _ _ CrossSample.sample_recoverable tt) as (n & t & h & E & _).
  exists n, t, h. exact E.
Defined.

Lemma crosslane_span_verified_witness : exists res F, (CrossSample.recovered).2 = Ok res /\ Z.of_nat (length F) = 8 /\
  exists start, sp_data res = span F start (Z.of_nat (length (sp_data res))) /\ 0 <= sp_spent res <= 1000.
Proof.
  destruct (CrossSample.recovered).2 as [res|e] eqn:E; [|vm_compute in E; discriminate].
  destruct (crosslane_span_verified (H := forever) RepairSample.hash (Some RepairSample.reader) [] 0 0 8 RepairSample.domain CrossSample.budget
    (Some (fun w => (w, 0))) (Some CrossSample.lane)) as [_ Hv].
  destruct (Hv (Some CrossSample.index) 0 tt res eq_refl E) as (start & F & rec & _ & _ & _ & _ & Hsp & _ & _ & _ & HF & Hout & _).
  exists res, F. split; [reflexivity|]. split; [exact HF|]. exists start. split; [exact Hout|exact Hsp].
Defined.
