(* ===== verification/Par2Rung.v ===== *)
(** Rungs 4 and 5 of a segment fetch: internal/nntp/par2rung4.go and par2crosslane.go, and
    [repairSegment] of cache.go, where a fetch that failed asks for them.

    A session serves one stream.  It finds the index of the post and its geometry once,
    repairs one segment at a time, and asks another lane when the repair fails.  Several
    goroutines may recover segments of one session, and the slot of the other lanes is
    shared with other sessions; each section between two waits is one function on the
    state they share.  Each call has a context, already bounded by the budget's duration:
    the inner deadline of the repair is no earlier.  The cache of segments, the sources of
    files, the lookup of an index and the parser of XML are parameters. *)

From Stdlib Require Import ZArith Lia.
From stdpp Require Import base list numbers strings gmap sets.
From S2P Require Import GF16 Par2Solver.
From S2P Require Import Prelude Outcome Bencode ContentProof LaneCandidate Text ByteSource Par2Packets Par2Recovery Par2Proof Par2Repair Par2RepairExact Par2Match CrossLaneSpan Inflight.

Local Open Scope Z_scope.
Local Open Scope harbor_scope.

(** ** Errors *)

Definition ErrArticleMissing : string := "nntp: provider does not have this article".
Definition ErrDeadPost : string := "nntp: dead post (consecutive missing segments)".
Definition context_Canceled : string := "context canceled".
Definition context_DeadlineExceeded : string := "context deadline exceeded".
Definition ladder_ErrAccountLevel : string := "ladder: account-level outcome, stopping walk".
Definition ladder_ErrExhausted : string := "ladder: all rungs exhausted".

Definition eligibleForRepair (err : option goerror) : bool :=
  match err with
  | None => false
  | Some err =>
      if errors_Is err context_Canceled || errors_Is err context_DeadlineExceeded then false
      else if errors_Is err ladder_ErrAccountLevel then false
      else errors_Is err ErrArticleMissing || errors_Is err ErrDeadPost || errors_Is err ladder_ErrExhausted
  end.

Definition errors_Join (a b : goerror) : goerror := Error (TPlain (str "joined")) [a; b].

(** ** The session *)

(** The loop over the files: the one that matched so far; two matches are none. *)
Fixpoint locate_loop (count : nat) (first : Prelude.bytes) (files : list (Z * NZBFile)) (found : option Z) : option Z :=
  match files with
  | [] => found
  | (i, f) :: files =>
      if negb (Nat.eqb (length (Segments f)) count) ||
         negb (bool_decide (match Segments f with seg :: _ => MessageID seg | [] => [] end = first))
      then locate_loop count first files found
      else match found with Some _ => None | None => locate_loop count first files (Some i) end
  end.

Definition locateNZBFileIndex (files : list NZBFile) (streamed : NZBFile) : option Z :=
  match Segments streamed with
  | [] => None
  | seg :: _ =>
      if bool_decide (MessageID seg = []) then None
      else locate_loop (length (Segments streamed)) (MessageID seg) (indexed files) None
  end.

Record par2RepairSession := MkSession {
  itemID : Prelude.bytes; contentKey : Prelude.bytes; nzb : NZB; targetIdx : Z;
  proofIndex : PAR2ProofIndex; budget : PAR2RepairBudget; proof : PAR2ProofDomain
}.

(** The order of the parts does not matter: they are sorted. *)
Definition SegmentOffsetKey (sha1Hex : Prelude.bytes -> Prelude.bytes) (contentKey : Prelude.bytes) (segments : list NZBSegment) : Prelude.bytes :=
  let parts := map (fun seg => MessageID seg ++ 0 :: itoa (Number seg)) segments in
  contentKey ++ str ":file:" ++ sha1Hex (strings_Join 10 (sort_by str_ltb parts)).

(** The geometry of a session, once it was looked for. *)
Record geometry_state := MkGeo { resolved : bool; s_geo : PAR2Geometry; geoErr : option goerror }.

Definition no_geometry : PAR2Geometry := MkGeometry 0 [] [] 0.

Section Provider.
Context {W : Type} `{!MapOrder} (md5 sha1Hex : Prelude.bytes -> Prelude.bytes).
Context (archiveByteSource recoveryByteSource : Prelude.bytes -> Z -> list NZBSegment -> W -> W * result goerror (ByteSource W)).

(** [cache.GetSegmentWithMeta] of a segment, an item, a key, a file index and a segment
    index; no cache; [Ok None] is no bytes. *)
Context (cache : option (NZBSegment -> Prelude.bytes -> Prelude.bytes -> Z -> Z -> W -> W * result goerror (option Prelude.bytes))).
Context (proofLookup : option (Prelude.bytes -> W -> W * option PAR2ProofIndex)).
Context (crossLaneRecover : option (CrossLaneRecover W)).
Context (ParseNZB : Prelude.bytes -> result goerror NZB).
Context (repairBudget : PAR2RepairBudget) (repairClock : W -> W * Z).

Definition newPAR2RepairSession (itemID contentKey nzbData : Prelude.bytes) (streamed : NZBFile) : W -> W * option par2RepairSession :=
  match cache, proofLookup with
  | Some _, Some lookup =>
      if bool_decide (itemID = []) then call_ret None
      else if negb (Enabled repairBudget) then call_ret None
      else
        let! index := lookup itemID in
        call_ret
          match index with
          | None => None
          | Some index =>
              if bool_decide (length (px_Files index) = 0%nat) then None
              else
                match ParseNZB nzbData with
                | Err _ => None
                | Ok nzb =>
                    if bool_decide (length (nzb_Files nzb) = 0%nat) then None
                    else
                      match locateNZBFileIndex (nzb_Files nzb) streamed with
                      | None => None
                      | Some targetIdx =>
                          match NewPAR2ProofDomain (Some index) targetIdx with
                          | None => None
                          | Some proof => Some (MkSession itemID contentKey nzb targetIdx index repairBudget proof)
                          end
                      end
                end
          end
  | _, _ => call_ret None
  end.

(** ** The reader of a repair *)

Definition file (s : par2RepairSession) (nzbFileIndex : Z) : option NZBFile :=
  if nzbFileIndex <? 0 then None else nzb_Files (nzb s) !! Z.to_nat nzbFileIndex.

Definition nzb_SegmentCount (s : par2RepairSession) (nzbFileIndex : Z) : option Z :=
  match file s nzbFileIndex with
  | Some f => match Segments f with [] => None | segs => Some (Z.of_nat (length segs)) end
  | None => None
  end.

Definition nzb_ReadSegment (s : par2RepairSession) (nzbFileIndex segIndex : Z) : W -> W * result goerror Prelude.bytes :=
  match file s nzbFileIndex with
  | None => call_ret (Err (errors_New (str "par2repair: segment coordinate out of range")))
  | Some f =>
      if segIndex <? 0 then call_ret (Err (errors_New (str "par2repair: segment coordinate out of range")))
      else
        match Segments f !! Z.to_nat segIndex with
        | None => call_ret (Err (errors_New (str "par2repair: segment coordinate out of range")))
        | Some seg =>
            match cache with
            | None => call_ret (Err (errors_New (str "par2repair: no segment cache")))
            | Some get =>
                let! data := get seg (itemID s) (SegmentOffsetKey sha1Hex (contentKey s) (Segments f)) nzbFileIndex segIndex in
                call_ret (match data with
                          | Err err => Err err
                          | Ok None => Err (errors_New (str "par2repair: segment read produced no bytes"))
                          | Ok (Some data) => Ok data
                          end)
            end
        end
  end.

Definition nzb_RecoveryVolumeIndexes (s : par2RepairSession) : list Z :=
  map fst (sort_by (fun a b : Z * NZBFile => TotalBytes a.2 <? TotalBytes b.2)
    (filter (fun f => negb (empty_file f.2) && PAR2IsVolumeFile (Subject f.2) = true) (indexed (nzb_Files (nzb s))))).

Definition nzb_RecoverySource (s : par2RepairSession) (nzbFileIndex : Z) : W -> W * result goerror (ByteSource W) :=
  match file s nzbFileIndex with
  | Some f =>
      match Segments f with
      | [] => call_ret (Err (errors_New (str "par2repair: recovery volume coordinate out of range")))
      | segs => recoveryByteSource (itemID s) nzbFileIndex segs
      end
  | None => call_ret (Err (errors_New (str "par2repair: recovery volume coordinate out of range")))
  end.

Definition par2NZBRepairReader (s : par2RepairSession) : PAR2RepairReader (W := W) :=
  MkReader (fun i => call_ret (nzb_SegmentCount s i)) (nzb_ReadSegment s) (call_ret (nzb_RecoveryVolumeIndexes s)) (nzb_RecoverySource s).

(** ** The geometry of the stream *)

Section Call.
Context `{CTX : Context W}.

(** [if ctx.Err() != nil { return ctx.Err() }], the geometry being left as it was. *)
Definition or_cancelled (st : geometry_state) (k : geometry_state * result goerror PAR2Geometry) : W -> W * (geometry_state * result goerror PAR2Geometry) :=
  let! ctxErr := ctx_Err in
  call_ret (match ctxErr with Some err => (st, Err err) | None => k end).

Definition found_geometry (info : PAR2Info) (matches : list PAR2FileMatch) : geometry_state * result goerror PAR2Geometry :=
  match BuildPAR2Geometry info matches with
  | Err err => (MkGeo true no_geometry (Some err), Err err)
  | Ok geo => (MkGeo true geo None, Ok geo)
  end.

Definition resolveGeometry (s : par2RepairSession) (st : geometry_state) : W -> W * (geometry_state * result goerror PAR2Geometry) :=
  if resolved st then call_ret (st, match geoErr st with Some err => Err err | None => Ok (s_geo st) end)
  else
    let! found := FetchPAR2ForItem archiveByteSource (itemID s) (nzb s) in
    match found with
    | Ok (Some (info, par2Idx)) =>
        let! (matches, matchErr) := MatchPAR2FilesForItem md5 archiveByteSource (itemID s) (nzb s) info par2Idx in
        match matchErr with
        | Some _ => or_cancelled st (found_geometry info matches)
        | None => call_ret (found_geometry info matches)
        end
    | _ =>
        let err := abstain "no PAR2 index is reachable for this post" in
        or_cancelled st (MkGeo true no_geometry (Some err), Err err)
    end.

(** ** A call of [RecoverSegment] *)

(** Where a call is: the two rungs, each from the wait for its slot to its release. *)
Inductive call_phase : Type :=
| R4Wait (seg : Z)                          (* [select] on the session's slot *)
| R4Resolve (seg : Z)
| R4Repair (seg : Z) (geo : PAR2Geometry)
| R4Failed (seg : Z) (err : goerror)          (* back in [RecoverSegment], without the slot *)
| R5Wait (seg : Z) (repairErr : goerror)      (* [select] on the provider's slot *)
| R5Resolve (seg : Z) (repairErr : goerror)
| R5Span (seg : Z) (repairErr : goerror) (geo : PAR2Geometry)
| Returned (r : result goerror Prelude.bytes).

(** Who holds the provider's slot. *)
Inductive holder : Type := Free | Ours | Theirs.

Record rungs := MkRungs { r_geo : geometry_state; r_slot : bool; crossLaneSlot : holder }.

(** The branch of a [select] that takes the slot; [None] when it is taken. *)
Definition take_slot (st : rungs) (ph : call_phase) : option (rungs * call_phase) :=
  match ph with
  | R4Wait seg => if r_slot st then None else Some (MkRungs (r_geo st) true (crossLaneSlot st), R4Resolve seg)
  | R5Wait seg repairErr =>
      match crossLaneSlot st with Free => Some (MkRungs (r_geo st) (r_slot st) Ours, R5Resolve seg repairErr) | _ => None end
  | _ => None
  end.

(** The branch of a [select] on the context. *)
Definition cancel_wait (ph : call_phase) : W -> W * option call_phase :=
  let! ctxErr := ctx_Err in
  call_ret (match ctxErr, ph with
            | Some err, R4Wait seg => Some (R4Failed seg err)
            | Some err, R5Wait seg repairErr => Some (Returned (Err (errors_Join repairErr err)))
            | _, _ => None
            end).

Definition repair_request (s : par2RepairSession) (geo : PAR2Geometry) (seg : Z) : PAR2RepairRequest :=
  MkRequest geo (proof s) (targetIdx s) seg (budget s) (Some repairClock).

Definition set_geo (st : rungs) (g : geometry_state) : rungs := MkRungs g (r_slot st) (crossLaneSlot st).
Definition release4 (st : rungs) : rungs := MkRungs (r_geo st) false (crossLaneSlot st).
Definition release5 (st : rungs) : rungs := MkRungs (r_geo st) (r_slot st) Free.

(** The rest of [recoverCrossLaneSegment] after the geometry. *)
Definition cross_segment (s : par2RepairSession) (geo : PAR2Geometry) (seg : Z) : W -> W * result goerror Prelude.bytes :=
  match FileByNZBIndex geo (targetIdx s) with
  | None => call_ret (Err (cross_abstain "IFSC domain does not describe the streamed file"))
  | Some target =>
      if negb (domain_Length (proof s) =? g_Length target)
      then call_ret (Err (cross_abstain "IFSC domain does not describe the streamed file"))
      else
        let! res := recoverCrossLaneSpan md5 (Some (par2NZBRepairReader s)) (itemID s) (targetIdx s) seg (g_Length target) (proof s)
                      (budget s) (Some repairClock) crossLaneRecover in
        call_ret (match res with Err err => Err err | Ok res => Ok (sp_data res) end)
  end.

(** The section a call runs where it does not wait. *)
Definition advance (s : par2RepairSession) (st : rungs) (ph : call_phase) : W -> W * option (rungs * call_phase) :=
  match ph with
  | R4Resolve seg =>
      let! (g, geo) := resolveGeometry s (r_geo st) in
      call_ret (Some (match geo with
                      | Err err => (release4 (set_geo st g), R4Failed seg err)
                      | Ok geo => (set_geo st g, R4Repair seg geo)
                      end))
  | R4Repair seg geo =>
      let! res := RepairSegment md5 (Some (par2NZBRepairReader s)) (repair_request s geo seg) in
      call_ret (Some (release4 st, match res with Err err => R4Failed seg err | Ok res => Returned (Ok (r_Data res)) end))
  | R4Failed seg err =>
      let! ctxErr := ctx_Err in
      call_ret (Some (st, match ctxErr with
                          | Some cerr => Returned (Err cerr)
                          | None => match crossLaneRecover with
                                    | None => Returned (Err (errors_Join err ErrCrossLaneAbstain))
                                    | Some _ => R5Wait seg err
                                    end
                          end))
  | R5Resolve seg repairErr =>
      let! (g, geo) := resolveGeometry s (r_geo st) in
      call_ret (Some (match geo with
                      | Err err => (release5 (set_geo st g), Returned (Err (errors_Join repairErr err)))
                      | Ok geo => (set_geo st g, R5Span seg repairErr geo)
                      end))
  | R5Span seg repairErr geo =>
      let! res := cross_segment s geo seg in
      call_ret (Some (release5 st, Returned (match res with Err err => Err (errors_Join repairErr err) | Ok data => Ok data end)))
  | R4Wait _ | R5Wait _ _ | Returned _ => call_ret None
  end.

End Call.

(** ** Any number of calls *)

Context (ctx_of : nat -> Context W).

Record world := MkWorld { w_world : W; w_rungs : rungs; w_calls : list call_phase }.

(** Call [i] runs one section. *)
Inductive call_step (s : par2RepairSession) (i : nat) : world -> world -> Prop :=
| step_slot w st calls ph st' ph' : calls !! i = Some ph -> take_slot st ph = Some (st', ph') ->
    call_step s i (MkWorld w st calls) (MkWorld w st' (<[i := ph']> calls))
| step_cancel_wait w w' st calls ph ph' : calls !! i = Some ph -> cancel_wait (CTX := ctx_of i) ph w = (w', Some ph') ->
    call_step s i (MkWorld w st calls) (MkWorld w' st (<[i := ph']> calls))
| step_section w w' st calls ph st' ph' : calls !! i = Some ph -> advance (CTX := ctx_of i) s st ph w = (w', Some (st', ph')) ->
    call_step s i (MkWorld w st calls) (MkWorld w' st' (<[i := ph']> calls)).

(** The rest of the program: new calls, and other sessions that use the provider's slot. *)
Inductive other_step : world -> world -> Prop :=
| other_call w st calls seg : other_step (MkWorld w st calls) (MkWorld w st (calls ++ [R4Wait seg]))
| other_takes w g slot calls : other_step (MkWorld w (MkRungs g slot Free) calls) (MkWorld w (MkRungs g slot Theirs) calls)
| other_leaves w g slot calls : other_step (MkWorld w (MkRungs g slot Theirs) calls) (MkWorld w (MkRungs g slot Free) calls)
| other_world w w' st calls : other_step (MkWorld w st calls) (MkWorld w' st calls).

Inductive reachable (s : par2RepairSession) : world -> Prop :=
| reach_start w : reachable s (MkWorld w (MkRungs (MkGeo false no_geometry None) false Free) [])
| reach_call i x y : reachable s x -> call_step s i x y -> reachable s y
| reach_other x y : reachable s x -> other_step x y -> reachable s y.

(** ** The geometry *)

Lemma BuildPAR2Geometry_abstains info matches : abstains (BuildPAR2Geometry info matches).
Proof.
  unfold BuildPAR2Geometry. do 3 (destruct (_ : bool); [by eexists|]). apply rbind_abstains.
  { apply rfold_abstains. intros m x. unfold matched. destruct (_ || _); [done|]. destruct (m !! _); [|done]. destruct (negb _); [by eexists|done]. }
  intros m. apply rbind_abstains.
  { apply rfold_abstains. intros n id. unfold number_file. destruct (descriptions info !! id) as [desc|]; [|by eexists].
    destruct (_ <=? 0); [by eexists|]. destruct (m !! id); [|by eexists]. destruct (bool_decide _); [by eexists|].
    cbv zeta. destruct (_ || _); [by eexists|done]. }
  intros n. destruct (_ <=? 0); [by eexists|done].
Qed.

(** What was resolved is a geometry of the post, or an abstention. *)
Definition settled (g : geometry_state) : Prop :=
  resolved g = true ->
  match geoErr g with
  | None => exists info matches, BuildPAR2Geometry info matches = Ok (s_geo g)
  | Some e => exists msg, e = abstain msg
  end.

Lemma resolveGeometry_spec `{CTX : Context W} s g w w' g' res : resolveGeometry s g w = (w', (g', res)) -> settled g ->
  settled g' /\ (resolved g = true -> g' = g) /\
  match res with Ok geo => resolved g' = true /\ geoErr g' = None /\ s_geo g' = geo | Err e => expected (W := W) e end.
Proof.
  intros Hr Hg. unfold resolveGeometry in Hr. destruct (resolved g) eqn:Er.
  { injection Hr as <- <- <-. split_and!; [done|done|]. specialize (Hg Er). destruct (geoErr g); [by right|done]. }
  assert (Hfound : forall info matches, let (g', res) := found_geometry info matches in settled g' /\
    match res with Ok geo => resolved g' = true /\ geoErr g' = None /\ s_geo g' = geo | Err e => expected (W := W) e end).
  { intros info matches. unfold found_geometry. pose proof (BuildPAR2Geometry_abstains info matches) as Ha.
    destruct (BuildPAR2Geometry info matches) as [geo|e] eqn:E; [|split; [by intros _|by right]].
    split; [|done]. intros _. by exists info, matches. }
  assert (Hcan : forall k w1, or_cancelled g k w1 = (w', (g', res)) -> settled k.1 /\ match k.2 with Ok geo => resolved k.1 = true /\ geoErr k.1 = None /\ s_geo k.1 = geo | Err e => expected (W := W) e end ->
    settled g' /\ match res with Ok geo => resolved g' = true /\ geoErr g' = None /\ s_geo g' = geo | Err e => expected (W := W) e end).
  { intros k w1 Hc Hk. unfold or_cancelled, call_bind in Hc.
    pose proof (ex_intro (fun v => (ctx_Err v).2 = (ctx_Err w1).2) w1 eq_refl) as He.
    destruct (ctx_Err w1) as [w2 [e|]]; cbn in He, Hc; injection Hc as <- E; [|by rewrite E in Hk].
    subst. split; [done|by left]. }
  cut (settled g' /\ match res with Ok geo => resolved g' = true /\ geoErr g' = None /\ s_geo g' = geo | Err e => expected (W := W) e end); [intros [? ?]; by split_and!|].
  unfold call_bind in Hr. destruct (FetchPAR2ForItem _ _ _ w) as [w1 [[[info idx]|]|e]].
  - destruct (MatchPAR2FilesForItem _ _ _ _ _ _ w1) as [w2 [matches [e|]]]; specialize (Hfound info matches);
      destruct (found_geometry info matches) as [g1 r1] eqn:E; cbn in Hr.
    + by apply Hcan in Hr.
    + injection Hr as _ <- <-. done.
  - apply Hcan in Hr; [done|]. split; [by intros _; eexists|by right; eexists].
  - apply Hcan in Hr; [done|]. split; [by intros _; eexists|by right; eexists].
Qed.

(** ** The invariant *)

Definition expected_of (i : nat) (e : goerror) : Prop := expected (H := ctx_of i) e.

(** A geometry a call goes on with is the one that was resolved. *)
Definition held (g : geometry_state) (geo : PAR2Geometry) : Prop := resolved g = true /\ geoErr g = None /\ s_geo g = geo.

(** The errors a call returns: the context's, or those of both rungs. *)
Definition outcome (s : par2RepairSession) (i : nat) (r : result goerror Prelude.bytes) : Prop :=
  match r with
  | Ok data => exists start, verified_span md5 (proof s) start data
  | Err e => (exists w, (@ctx_Err W (ctx_of i) w).2 = Some e) \/
      exists a b, e = errors_Join a b /\ expected_of i a /\ (expected_of i b \/ abstention b)
  end.

Definition phase_ok (s : par2RepairSession) (g : geometry_state) (i : nat) (ph : call_phase) : Prop :=
  match ph with
  | R4Wait _ | R4Resolve _ => True
  | R4Repair _ geo => held g geo
  | R4Failed _ e | R5Wait _ e | R5Resolve _ e => expected_of i e
  | R5Span _ e geo => expected_of i e /\ held g geo
  | Returned r => outcome s i r
  end.

Definition in4 (ph : call_phase) : bool := match ph with R4Resolve _ | R4Repair _ _ => true | _ => false end.
Definition in5 (ph : call_phase) : bool := match ph with R5Resolve _ _ | R5Span _ _ _ => true | _ => false end.
Definition ours (st : rungs) : bool := match crossLaneSlot st with Ours => true | _ => false end.

(** A session that [newPAR2RepairSession] gave. *)
Definition made (s : par2RepairSession) : Prop := NewPAR2ProofDomain (Some (proofIndex s)) (targetIdx s) = Some (proof s).

Lemma new_session_made itemID contentKey nzbData streamed w w' s :
  newPAR2RepairSession itemID contentKey nzbData streamed w = (w', Some s) -> made s.
Proof.
  unfold newPAR2RepairSession. destruct cache as [get|]; [|done]. destruct proofLookup as [lookup|]; [|done].
  destruct (bool_decide _); [done|]. destruct (negb _); [done|]. unfold call_bind. destruct (lookup itemID w) as [w1 [index|]]; [|done].
  destruct (bool_decide _); [done|]. destruct (ParseNZB nzbData) as [z|]; [|done]. destruct (bool_decide _); [done|].
  destruct (locateNZBFileIndex _ _) as [t|]; [|done]. destruct (NewPAR2ProofDomain (Some index) t) as [p|] eqn:E; [|done].
  intros [= _ <-]. exact E.
Qed.

(** What one section does to the call and to the shared state. *)
Record section_effect (s : par2RepairSession) (i : nat) (st st' : rungs) (ph ph' : call_phase) : Prop := {
  se_settled : settled (r_geo st');
  se_once : resolved (r_geo st) = true -> r_geo st' = r_geo st;
  se_phase : phase_ok s (r_geo st') i ph';
  se_slot : Z.b2z (in4 ph') - Z.b2z (in4 ph) = Z.b2z (r_slot st') - Z.b2z (r_slot st);
  se_cross : Z.b2z (in5 ph') - Z.b2z (in5 ph) = Z.b2z (ours st') - Z.b2z (ours st)
}.

(** The fields that follow from the case alone. *)
Ltac effect :=
  split; cbn; unfold ours; cbn; try done;
  try match goal with
  | |- _ - _ = _ - _ => repeat match goal with H : r_slot _ = _ |- _ => rewrite H end; repeat case_match; cbn; (congruence || lia || done)
  end.

Lemma take_slot_effect s i st ph st' ph' : take_slot st ph = Some (st', ph') -> settled (r_geo st) -> phase_ok s (r_geo st) i ph ->
  section_effect s i st st' ph ph'.
Proof.
  intros Ht Hg Hp. unfold take_slot in Ht. destruct ph; try done.
  - destruct (r_slot st) eqn:E; [done|]. injection Ht as <- <-. split; cbn; unfold ours; cbn; try done; rewrite ?E; cbn; lia.
  - destruct (crossLaneSlot st) eqn:Ec; try done. injection Ht as <- <-. split; cbn; try done; [lia|]. unfold ours. by rewrite Ec.
Qed.

Lemma cancel_wait_effect s i st ph ph' w w' : cancel_wait (CTX := ctx_of i) ph w = (w', Some ph') -> settled (r_geo st) -> phase_ok s (r_geo st) i ph ->
  section_effect s i st st ph ph'.
Proof.
  intros Ht Hg Hp. unfold cancel_wait, call_bind in Ht.
  pose proof (ex_intro (fun v => (@ctx_Err W (ctx_of i) v).2 = (@ctx_Err W (ctx_of i) w).2) w eq_refl) as He.
  destruct (ctx_Err w) as [w1 [e|]]; [|done]. cbn in He. destruct ph; try done; injection Ht as _ <-; split; cbn; try done; try lia.
  - by left.
  - right. exists repairErr, e. split_and!; [done|done|left; by left].
Qed.

Lemma cross_segment_outcome `{CTX : Context W} s geo seg w w' r : made s -> cross_segment s geo seg w = (w', r) ->
  match r with Ok data => exists start, verified_span md5 (proof s) start data | Err e => expected (W := W) e \/ abstention e end.
Proof.
  intros Hm Hr. unfold cross_segment in Hr. destruct (FileByNZBIndex geo (targetIdx s)) as [target|]; [|injection Hr as _ <-; right; right; by eexists].
  destruct (negb _); [injection Hr as _ <-; right; right; by eexists|]. unfold call_bind in Hr.
  destruct (recoverCrossLaneSpan _ _ _ _ _ _ _ _ _ _ w) as [w1 [res|e]] eqn:E; injection Hr as _ <-.
  - eapply cross_verified_span; [apply Hm|]. by rewrite E.
  - pose proof (cross_span_errs md5 (Some (par2NZBRepairReader s)) (itemID s) (targetIdx s) seg (g_Length target) (proof s) (budget s)
      (Some repairClock) crossLaneRecover w) as Hc. by rewrite E in Hc.
Qed.

Lemma advance_effect s i st ph st' ph' w w' : made s -> advance (CTX := ctx_of i) s st ph w = (w', Some (st', ph')) ->
  settled (r_geo st) -> phase_ok s (r_geo st) i ph -> (in4 ph = true -> r_slot st = true) -> (in5 ph = true -> ours st = true) ->
  section_effect s i st st' ph ph'.
Proof.
  intros Hm Ha Hg Hp H4 H5. unfold ours in H5. unfold advance in Ha. destruct ph; try done; unfold call_bind in Ha.
  - destruct (resolveGeometry s (r_geo st) w) as [w1 [g res]] eqn:Er. apply resolveGeometry_spec in Er as (Hs & Ho & Hres); [|done].
    specialize (H4 eq_refl). destruct res as [geo|e]; injection Ha as _ <- <-; by effect.
  - specialize (H4 eq_refl). destruct (RepairSegment _ _ _ w) as [w1 res] eqn:Er. injection Ha as _ <- <-. destruct res as [res|e]; effect.
    + apply (repair_verified_span (H := ctx_of i) md5 (Some (par2NZBRepairReader s)) (repair_request s geo seg) (Some (proofIndex s)) (targetIdx s) w res Hm). by rewrite Er.
    + pose proof (repair_errs (H := ctx_of i) md5 (Some (par2NZBRepairReader s)) (repair_request s geo seg) w) as He. by rewrite Er in He.
  - pose proof (ex_intro (fun v => (@ctx_Err W (ctx_of i) v).2 = (@ctx_Err W (ctx_of i) w).2) w eq_refl) as He.
    destruct (ctx_Err w) as [w1 [e|]]; cbn in He; injection Ha as _ <- <-; [effect; by left|].
    destruct crossLaneRecover; effect. right. exists err, ErrCrossLaneAbstain. split_and!; [done|done|right; by left].
  - destruct (resolveGeometry s (r_geo st) w) as [w1 [g res]] eqn:Er. apply resolveGeometry_spec in Er as (Hs & Ho & Hres); [|done].
    specialize (H5 eq_refl). destruct res as [geo|e]; injection Ha as _ <- <-; effect.
    right. exists repairErr, e. split_and!; [done|done|by left].
  - specialize (H5 eq_refl). destruct (cross_segment s geo seg w) as [w1 res] eqn:Er. injection Ha as _ <- <-. destruct Hp as [Hp1 Hp2].
    apply cross_segment_outcome in Er; [|done]. destruct res as [data|e]; effect. right. by exists repairErr, e.
Qed.

Record inv (s : par2RepairSession) (x : world) : Prop := {
  v_settled : settled (r_geo (w_rungs x));
  v_slot : count_by in4 (w_calls x) = Z.b2z (r_slot (w_rungs x));
  v_cross : count_by in5 (w_calls x) = Z.b2z (ours (w_rungs x));
  v_calls : forall i ph, w_calls x !! i = Some ph -> phase_ok s (r_geo (w_rungs x)) i ph
}.

Lemma calls_insert {A} (f : A -> bool) l i a b : l !! i = Some a -> count_by f (<[i := b]> l) = count_by f l - Z.b2z (f a) + Z.b2z (f b).
Proof. intros Hi. rewrite (count_insert f l i a b Hi). destruct (f a), (f b); cbn; lia. Qed.

Lemma calls_app {A} (f : A -> bool) l x : count_by f (l ++ [x]) = count_by f l + Z.b2z (f x).
Proof. rewrite count_app, count_cons, count_nil. destruct (f x); cbn; lia. Qed.

(** A step of a call, whichever it is. *)
Lemma call_step_effect s i x y : made s -> inv s x -> call_step s i x y ->
  exists ph ph', w_calls x !! i = Some ph /\ w_calls y = <[i := ph']> (w_calls x) /\ section_effect s i (w_rungs x) (w_rungs y) ph ph'.
Proof.
  intros Hm [Hg H4 H5 Hc] Hs.
  assert (Hslot : forall ph, w_calls x !! i = Some ph -> (in4 ph = true -> r_slot (w_rungs x) = true) /\ (in5 ph = true -> ours (w_rungs x) = true)).
  { intros ph Hi. split; intros Hin.
    - assert (0 < count_by in4 (w_calls x)) by (apply count_pos; exists ph; split; [by eapply list_elem_of_lookup_2|done]). destruct (r_slot _); cbn in H4; [done|lia].
    - assert (0 < count_by in5 (w_calls x)) by (apply count_pos; exists ph; split; [by eapply list_elem_of_lookup_2|done]). destruct (ours _); cbn in H5; [done|lia]. }
  destruct Hs as [w st calls ph st' ph' Hi Ht|w w' st calls ph ph' Hi Ht|w w' st calls ph st' ph' Hi Ht]; cbn [w_calls w_rungs] in *;
    exists ph, ph'; (split; [done|]); (split; [done|]); specialize (Hc i ph Hi); destruct (Hslot ph Hi).
  - by apply take_slot_effect.
  - by eapply cancel_wait_effect.
  - by eapply advance_effect.
Qed.

(** What a resolved geometry allows, it still allows. *)
Lemma phase_ok_mono s g g' i ph : (resolved g = true -> g' = g) -> phase_ok s g i ph -> phase_ok s g' i ph.
Proof.
  intros Hg. assert (Hh : forall geo, held g geo -> held g' geo) by (intros geo Hh; by rewrite (Hg (proj1 Hh))).
  destruct ph; cbn; [done|done|apply Hh|done|done|done| |done]. intros [? ?]. split; [done|by apply Hh].
Qed.

Lemma call_step_inv s i x y : made s -> inv s x -> call_step s i x y -> inv s y.
Proof.
  intros Hm Hx Hs. destruct (call_step_effect s i x y Hm Hx Hs) as (ph & ph' & Hi & Hy & [E1 E2 E3 E4 E5]). destruct Hx as [Hg H4 H5 Hc].
  split.
  - done.
  - rewrite Hy, (calls_insert _ _ _ _ _ Hi), H4. lia.
  - rewrite Hy, (calls_insert _ _ _ _ _ Hi), H5. lia.
  - rewrite Hy. intros j pj Hj. apply list_lookup_insert_Some in Hj as [(<- & <- & _)|(_ & Hj)]; [done|]. apply (phase_ok_mono s (r_geo (w_rungs x))); [done|by apply Hc].
Qed.

Lemma other_step_inv s x y : inv s x -> other_step x y -> inv s y.
Proof.
  intros [Hg H4 H5 Hc] Hs. destruct Hs; cbn [w_calls w_rungs r_geo r_slot ours crossLaneSlot] in *; split; cbn [w_calls w_rungs r_geo r_slot ours crossLaneSlot]; try done.
  - rewrite calls_app, H4. cbn. lia.
  - rewrite calls_app, H5. cbn. lia.
  - intros i ph [[_ Hi]|[-> <-]]%lookup_snoc_Some; [by apply Hc|done].
Qed.

Lemma rungs_inv s x : made s -> reachable s x -> inv s x.
Proof.
  intros Hm. induction 1 as [w|i x y _ IH Hs|x y _ IH Hs].
  - split; cbn; done.
  - by eapply call_step_inv.
  - by eapply other_step_inv.
Qed.

(** ** The end of a call *)

(** How many sections are left at most. *)
Definition sections_left (ph : call_phase) : nat :=
  match ph with
  | R4Wait _ => 7 | R4Resolve _ => 6 | R4Repair _ _ => 5 | R4Failed _ _ => 4
  | R5Wait _ _ => 3 | R5Resolve _ _ => 2 | R5Span _ _ _ => 1 | Returned _ => 0
  end.

Definition all_left (calls : list call_phase) : nat := sum_list_with sections_left calls.

Lemma all_left_insert calls i ph ph' : calls !! i = Some ph -> (all_left (<[i := ph']> calls) + sections_left ph = all_left calls + sections_left ph')%nat.
Proof.
  unfold all_left. revert i. induction calls as [|c calls IH]; intros [|i] Hi; [done..| |].
  - injection Hi as ->. cbn [insert list_insert sum_list_with]. lia.
  - specialize (IH i Hi). change (<[S i := ph']> (c :: calls)) with (c :: <[i := ph']> calls). cbn [sum_list_with]. lia.
Qed.

Lemma call_step_left s i x y : call_step s i x y -> (all_left (w_calls y) < all_left (w_calls x))%nat.
Proof.
  intros Hs. assert (Hcase : exists ph ph', w_calls x !! i = Some ph /\ w_calls y = <[i := ph']> (w_calls x) /\ (sections_left ph' < sections_left ph)%nat).
  { destruct Hs as [w st calls ph st' ph' Hi Ht|w w' st calls ph ph' Hi Ht|w w' st calls ph st' ph' Hi Ht]; cbn [w_calls]; exists ph, ph'; (split; [done|]); (split; [done|]).
    - unfold take_slot in Ht. destruct ph; try done; [destruct (r_slot st)|destruct (crossLaneSlot st)]; try done; injection Ht as <- <-; cbn; lia.
    - unfold cancel_wait, call_bind in Ht. destruct (ctx_Err w) as [w1 [e|]]; [|done]. destruct ph; try done; injection Ht as _ <-; cbn; lia.
    - unfold advance, call_bind in Ht. destruct ph; try done.
      + destruct (resolveGeometry s (r_geo st) w) as [w1 [g [geo|e]]]; injection Ht as _ <- <-; cbn; lia.
      + destruct (RepairSegment _ _ _ w) as [w1 [res|e]]; injection Ht as _ <- <-; cbn; lia.
      + destruct (ctx_Err w) as [w1 [e|]]; [|destruct crossLaneRecover]; injection Ht as _ <- <-; cbn; lia.
      + destruct (resolveGeometry s (r_geo st) w) as [w1 [g [geo|e]]]; injection Ht as _ <- <-; cbn; lia.
      + destruct (cross_segment s geo seg w) as [w1 res]. injection Ht as _ <- <-; cbn; lia. }
  destruct Hcase as (ph & ph' & Hi & -> & Hl). pose proof (all_left_insert _ _ _ ph' Hi). lia.
Qed.

Definition waits (ph : call_phase) : bool := match ph with R4Wait _ | R5Wait _ _ | Returned _ => true | _ => false end.

(** A section that does not wait can be run. *)
Lemma advance_total s i st ph w : waits ph = false -> exists w' st' ph', advance (CTX := ctx_of i) s st ph w = (w', Some (st', ph')).
Proof.
  destruct ph; try done; intros _; unfold advance, call_bind.
  - destruct (resolveGeometry s (r_geo st) w) as [w1 [g [geo|e]]]; by do 3 eexists.
  - destruct (RepairSegment _ _ _ w) as [w1 [res|e]]; by do 3 eexists.
  - destruct (ctx_Err w) as [w1 [e|]]; [|destruct crossLaneRecover]; by do 3 eexists.
  - destruct (resolveGeometry s (r_geo st) w) as [w1 [g [geo|e]]]; by do 3 eexists.
  - destruct (cross_segment s geo seg w) as [w1 res]; by do 3 eexists.
Qed.

Definition has_returned (ph : call_phase) : bool := match ph with Returned _ => true | _ => false end.

Lemma call_progress s x : inv s x -> crossLaneSlot (w_rungs x) <> Theirs -> (exists ph, ph ∈ w_calls x /\ has_returned ph = false) -> exists i y, call_step s i x y.
Proof.
  intros [_ H4 H5 _] Hn (ph & Hin & Hr). destruct x as [w st calls]. cbn [w_calls w_rungs] in *.
  assert (Hrun : forall ph, ph ∈ calls -> waits ph = false -> exists i y, call_step s i (MkWorld w st calls) y).
  { intros q [i Hi]%list_elem_of_lookup Hw. destruct (advance_total s i st q w Hw) as (w' & st' & ph' & E). exists i. eexists. by eapply step_section. }
  destruct (waits ph) eqn:Hw; [|by eapply Hrun].
  assert (Hslot : forall f, (0 < count_by f calls) -> (forall q, f q = true -> waits q = false) -> exists i y, call_step s i (MkWorld w st calls) y).
  { intros f (q & Hq & Hf)%count_pos Hfw. apply (Hrun q); [done|by apply Hfw]. }
  apply list_elem_of_lookup in Hin as [i Hi]. destruct ph; try done.
  - destruct (r_slot st) eqn:E.
    + apply (Hslot in4); [rewrite H4; cbn; lia|by intros []].
    + exists i. eexists. eapply step_slot; [done|]. cbn. by rewrite E.
  - destruct (crossLaneSlot st) eqn:E; [| |done].
    + exists i. eexists. eapply step_slot; [done|]. cbn. by rewrite E.
    + apply (Hslot in5); [rewrite H5; unfold ours; rewrite E; cbn; lia|by intros []].
Qed.

(** C24. The rungs serve nothing unverified, whatever interleaves.  In every reachable state
    of a session at most one call is inside a repair and at most one inside a recovery from
    another lane.  A geometry, once resolved, does not change; it is one that the post's
    index gives, and every call that goes on with a geometry goes on with that one.  A call
    that returned bytes returned a verified span of the streamed file; one that failed
    returned its own context's error, or the errors of both rungs, each the context's or an
    abstention. *)
Theorem rungs_sound s x : made s -> reachable s x ->
  (count_by in4 (w_calls x) <= 1 /\ count_by in5 (w_calls x) <= 1) /\
  (forall i y, call_step s i x y -> resolved (r_geo (w_rungs x)) = true -> r_geo (w_rungs y) = r_geo (w_rungs x)) /\
  (forall i seg geo, w_calls x !! i = Some (R4Repair seg geo) \/ (exists e, w_calls x !! i = Some (R5Span seg e geo)) ->
     held (r_geo (w_rungs x)) geo /\ exists info matches, BuildPAR2Geometry info matches = Ok geo) /\
  (forall i data, w_calls x !! i = Some (Returned (Ok data)) -> exists start, verified_span md5 (proof s) start data) /\
  (forall i e, w_calls x !! i = Some (Returned (Err e)) -> (exists w, (@ctx_Err W (ctx_of i) w).2 = Some e) \/
     exists a b, e = errors_Join a b /\ expected_of i a /\ (expected_of i b \/ abstention b)).
Proof.
  intros Hm Hr. pose proof (rungs_inv s x Hm Hr) as Hx. pose proof Hx as [Hg H4 H5 Hc].
  split_and!; [rewrite H4; destruct (r_slot _); cbn; lia|rewrite H5; destruct (ours _); cbn; lia| | | |].
  - intros i y Hs. destruct (call_step_effect s i x y Hm Hx Hs) as (ph & ph' & _ & _ & []). done.
  - intros i seg geo Hi. assert (Hh : held (r_geo (w_rungs x)) geo) by (destruct Hi as [Hi|[e Hi]]; [exact (Hc _ _ Hi)|exact (proj2 (Hc _ _ Hi))]).
    split; [done|]. destruct Hh as (H1 & H2 & <-). specialize (Hg H1). by rewrite H2 in Hg.
  - intros i data Hi. exact (Hc _ _ Hi).
  - intros i e Hi. exact (Hc _ _ Hi).
Qed.

(** C25. Every call returns.  A section of a call leaves fewer sections, so without new calls
    a run has at most seven per call; and as long as a call has not returned and no other
    session holds the provider's slot, some call can run a section, so no call is left
    waiting for a slot that nobody gives back. *)
Theorem rungs_drain s x : made s -> reachable s x ->
  (all_left (w_calls x) <= 7 * length (w_calls x))%nat /\
  (forall i y, call_step s i x y -> (all_left (w_calls y) < all_left (w_calls x))%nat) /\
  (crossLaneSlot (w_rungs x) <> Theirs -> (exists ph, ph ∈ w_calls x /\ has_returned ph = false) -> exists i y, call_step s i x y).
Proof.
  intros Hm Hr. split_and!.
  - generalize (w_calls x) as l. unfold all_left. induction l as [|ph l IH]; cbn [sum_list_with length]; [lia|].
    assert (sections_left ph <= 7)%nat by (destruct ph; cbn; lia). lia.
  - intros i y. apply call_step_left.
  - apply call_progress. by apply rungs_inv.
Qed.

End Provider.

(** ** The fetch that asks for a repair *)

Section Fetch.
Context {W : Type}.

(** [nntpChunkSource.repairSegment], of the source's segments, its repair, the chunk's index,
    whether the fetch is a demand and the provider's error. *)
Definition repairSegment (segments : list NZBSegment) (repair : option (Z -> W -> W * result goerror Prelude.bytes))
    (index : Z) (demand : bool) (fetchErr : goerror) : W -> W * option Prelude.bytes :=
  match repair with
  | None => call_ret None
  | Some repair =>
      if negb demand then call_ret None
      else if (index <? 0) || (Z.of_nat (length segments) <=? index) then call_ret None
      else if negb (eligibleForRepair (Some fetchErr)) then call_ret None
      else
        let! data := repair index in
        call_ret (match data with
                  | Err _ => None
                  | Ok data => if bool_decide (length data = 0%nat) then None else Some data
                  end)
  end.

(** A repair is asked for only on a demand for a segment the source has, when the provider's
    error says that the article is not there; else nothing is called at all. *)
Lemma repairSegment_asks segments repair index demand fetchErr w : repair <> None ->
  demand = true /\ 0 <= index < Z.of_nat (length segments) /\ eligibleForRepair (Some fetchErr) = true \/
  repairSegment segments repair index demand fetchErr w = (w, None).
Proof.
  intros Hr. destruct repair as [repair|]; [|done]. unfold repairSegment. destruct demand; [|by right]. cbn [negb].
  destruct ((_ <? _) || _) eqn:E; [by right|]. destruct (eligibleForRepair _); [|by right].
  left. split_and!; [done|bool_hyps; lia|bool_hyps; lia|done].
Qed.

End Fetch.

(** ** Witnesses *)

(** A post without files, of which another call's slot is asked after the repair fails. *)
Module RungSample.
Import RepairSample.

Definition source (_ : Prelude.bytes) (_ : Z) (_ : list NZBSegment) (w : unit) : unit * result goerror (ByteSource unit) :=
  (w, Err (errors_New (str "no source"))).
Definition key (l : Prelude.bytes) : Prelude.bytes := firstn 4 l.
Definition ctxs (_ : nat) : Context unit := forever.
Definition sample_session : par2RepairSession := MkSession (str "item") (str "key") (MkNZB [] [] [] []) 0 CrossSample.index CrossSample.budget domain.
Definition clock (w : unit) : unit * Z := (w, 0).
Definition steps : world (W := unit) -> Prop := reachable (H := Par2Sample.some_order) hash key source source None (Some CrossSample.lane) clock ctxs sample_session.
Definition no_index : goerror := abstain "no PAR2 index is reachable for this post".
Definition geo : geometry_state := MkGeo true no_geometry (Some no_index).
Definition final : world (W := unit) := MkWorld tt (MkRungs geo false Free) [Returned (Err (errors_Join no_index no_index))].
Definition waiting : world (W := unit) := MkWorld tt (MkRungs geo false Free) [R5Wait 0 no_index; R4Wait 1].

Lemma final_reached : steps final.
Proof.
  eapply (reach_call _ _ _ _ _ _ _ _ _ 0).
  2: { unfold final. change [Returned (Err (errors_Join no_index no_index))] with (<[0%nat := Returned (Err (errors_Join no_index no_index))]> [R5Resolve 0 no_index]).
       eapply (step_section _ _ _ _ _ _ _ _ _ _ tt tt (MkRungs geo false Ours)); reflexivity. }
  eapply (reach_call _ _ _ _ _ _ _ _ _ 0).
  2: { change [R5Resolve 0 no_index] with (<[0%nat := R5Resolve 0 no_index]> [R5Wait 0 no_index]).
       eapply (step_slot _ _ _ _ _ _ _ _ _ _ tt (MkRungs geo false Free)); reflexivity. }
  eapply (reach_call _ _ _ _ _ _ _ _ _ 0).
  2: { change [R5Wait 0 no_index] with (<[0%nat := R5Wait 0 no_index]> [R4Failed 0 no_index]).
       eapply (step_section _ _ _ _ _ _ _ _ _ _ tt tt (MkRungs geo false Free)); reflexivity. }
  eapply (reach_call _ _ _ _ _ _ _ _ _ 0).
  2: { change [R4Failed 0 no_index] with (<[0%nat := R4Failed 0 no_index]> [R4Resolve 0]).
       eapply (step_section _ _ _ _ _ _ _ _ _ _ tt tt (MkRungs (MkGeo false no_geometry None) true Free)); reflexivity. }
  eapply (reach_call _ _ _ _ _ _ _ _ _ 0).
  2: { change [R4Resolve 0] with (<[0%nat := R4Resolve 0]> [R4Wait 0]).
       eapply (step_slot _ _ _ _ _ _ _ _ _ _ tt (MkRungs (MkGeo false no_geometry None) false Free)); reflexivity. }
  eapply reach_other; [apply (reach_start _ _ _ _ _ _ _ _ _ tt)|apply (other_call tt _ [] 0)].
Qed.
End RungSample.

Lemma rungs_sound_witness : exists a b, RungSample.final.(w_calls) !! 0%nat = Some (Returned (Err (errors_Join a b))) /\
  expected_of RungSample.ctxs 0 a /\ (expected_of RungSample.ctxs 0 b \/ abstention b).
Proof.
  destruct (rungs_sound (H := Par2Sample.some_order) RepairSample.hash RungSample.key RungSample.source RungSample.source None (Some CrossSample.lane)
    RungSample.clock RungSample.ctxs RungSample.sample_session RungSample.final eq_refl RungSample.final_reached) as (_ & _ & _ & _ & He).
  destruct (He 0%nat _ eq_refl) as [[w Hw]|(a & b & E & Hb)]; [discriminate Hw|].
  exists a, b. split; [by rewrite <- E|exact Hb].
Defined.

Lemma rungs_drain_witness : (all_left (w_calls RungSample.final) <= 7)%nat /\ RungSample.steps RungSample.final.
Proof.
  split; [|exact RungSample.final_reached].
  exact (proj1 (rungs_drain (H := Par2Sample.some_order) RepairSample.hash RungSample.key RungSample.source RungSample.source None (Some CrossSample.lane)
    RungSample.clock RungSample.ctxs RungSample.sample_session RungSample.final eq_refl RungSample.final_reached)).
Defined.
