(* ===== verification/IdentityCheck.v ===== *)
(** What a release says against what the catalogue says: internal/identitycheck/identitycheck.go.

    Each check abstains unless both sides are known.  The package's regular expressions are
    parameters: the years they find in a title, and whether a pattern matches one.  Languages
    are ASCII codes. *)

From Stdlib Require Import ZArith Lia.
From stdpp Require Import base list numbers strings sets.
From S2P Require Import Prelude Bencode Torrentmeta Text SearchBudget.

Local Open Scope Z_scope.

(** The facts of a probe that the checks read. *)
Record Facts := MkFacts { f_DurationMS : Z; f_AudioLangs : list bytes }.

Inductive Reason : Type :=
| ReasonYearMismatch | ReasonRuntimeMismatch | ReasonAudioLanguageMismatch | ReasonConflictingSourceTags.

Definition reason_text (r : Reason) : bytes :=
  str match r with
      | ReasonYearMismatch => "year_mismatch"
      | ReasonRuntimeMismatch => "runtime_mismatch"
      | ReasonAudioLanguageMismatch => "audio_language_mismatch"
      | ReasonConflictingSourceTags => "conflicting_source_tags"
      end.

(** Milliseconds; the percentage is taken of the wrapped product. *)
Definition runtimeTolerance (expectedMinutes : Z) : Z :=
  let pct := Z.quot (i64 (expectedMinutes * 12 * 60 * 1000)) 100 in
  let floor := 12 * 60 * 1000 in
  if floor <? pct then pct else floor.

Section Checks.
Context (FindYears : bytes -> list Z) (MatchString : string -> bytes -> bool).

(** The one distinct year of a title, or 0. *)
Definition extractReleaseYear (releaseTitle : bytes) : Z :=
  match remove_dups (FindYears releaseTitle) with [y] => y | _ => 0 end.

Definition discs : string := "(?i)\b(BluRay|BDRip|BRRip|UHD|REMUX)\b".
Definition conflictingSourceGroups : list (string * string) :=
  [("(?i)\bCAM\b", discs);
   ("(?i)\bTELESYNC\b|\bTS\b", discs);
   ("(?i)\bHDTV\b", "(?i)\b(BluRay|BDRip|BRRip|UHD|REMUX|WEB-?DL)\b");
   ("(?i)\bCAM\b", "(?i)\bWEB-?DL\b")]%string.

Definition checkConflictingSourceTags (releaseTitle : bytes) : option Reason :=
  if existsb (fun pair => MatchString pair.1 releaseTitle && MatchString pair.2 releaseTitle) conflictingSourceGroups
  then Some ReasonConflictingSourceTags else None.

Definition checkYear (identity : option ProviderIdentity) (releaseTitle : bytes) : option Reason :=
  match identity with
  | None => None
  | Some id =>
      if Year id =? 0 then None
      else
        let releaseYear := extractReleaseYear releaseTitle in
        if releaseYear =? 0 then None
        else if bool_decide (Kind id = str "movie") then if negb (releaseYear =? Year id) then Some ReasonYearMismatch else None
        else if bool_decide (Kind id = str "series") then
          if (releaseYear <? Year id) || (Year id + 50 <? releaseYear) then Some ReasonYearMismatch else None
        else None
  end.

Definition episode_runtime (season episode : Z) (ep : EpisodeProviderIDs) : bool :=
  (e_Season ep =? season) && (e_Episode ep =? episode) && (0 <? e_RuntimeMinutes ep).

Definition expectedRuntimeMinutes (identity : option ProviderIdentity) (season episode : Z) : Z :=
  match identity with
  | None => 0
  | Some id =>
      if bool_decide (Kind id = str "series") && (0 <? season) && (0 <? episode) then
        match find (episode_runtime season episode) (Episodes id) with
        | Some ep => e_RuntimeMinutes ep
        | None => RuntimeMinutes id
        end
      else RuntimeMinutes id
  end.

Definition checkRuntime (identity : option ProviderIdentity) (season episode : Z) (facts : option Facts) : option Reason :=
  match facts with
  | None => None
  | Some f =>
      if f_DurationMS f <=? 0 then None
      else
        let expected := expectedRuntimeMinutes identity season episode in
        if expected <=? 0 then None
        else
          let diff := i64 (f_DurationMS f - i64 (expected * 60 * 1000)) in
          let diff := if diff <? 0 then i64 (- diff) else diff in
          if runtimeTolerance expected <? diff then Some ReasonRuntimeMismatch else None
  end.

(** [strings.EqualFold] with three ASCII letters of the expected code. *)
Definition checkAudioLanguage (expectedLangCode : bytes) (facts : option Facts) : option Reason :=
  let code := ascii_lower (TrimSpace expectedLangCode) in
  match facts with
  | None => None
  | Some f =>
      if bool_decide (code = []) || negb (Z.of_nat (length code) =? 3) || bool_decide (length (f_AudioLangs f) = 0%nat) then None
      else if existsb (fun lang => bool_decide (ascii_lower (TrimSpace lang) = code)) (f_AudioLangs f) then None
      else Some ReasonAudioLanguageMismatch
  end.

Definition verdict (v : option Reason) : list Reason := match v with Some r => [r] | None => [] end.

Definition Verify (identity : option ProviderIdentity) (releaseTitle : bytes) (season episode : Z) (facts : option Facts)
    (expectedAudioLangCode : bytes) : list Reason :=
  verdict (checkYear identity releaseTitle) ++ verdict (checkRuntime identity season episode facts) ++
  verdict (checkAudioLanguage expectedAudioLangCode facts) ++ verdict (checkConflictingSourceTags releaseTitle).

(** ** What a verdict rests on *)

(** A release is told apart from its identity only by facts that contradict it. *)
Definition contradicts (id : ProviderIdentity) (releaseTitle : bytes) (season episode : Z) (facts : option Facts) (lang : bytes) (r : Reason) : Prop :=
  match r with
  | ReasonYearMismatch => Year id <> 0 /\ exists y, y <> 0 /\ (forall z, z ∈ FindYears releaseTitle <-> z = y) /\
      (Kind id = str "movie" /\ y <> Year id \/ Kind id = str "series" /\ ~ (Year id <= y <= Year id + 50))
  | ReasonRuntimeMismatch => exists f, facts = Some f /\ 0 < f_DurationMS f /\
      let expected := expectedRuntimeMinutes (Some id) season episode in
      0 < expected /\ Z.max 720000 (expected * 7200) < Z.abs (f_DurationMS f - expected * 60000)
  | ReasonAudioLanguageMismatch => exists f, facts = Some f /\ f_AudioLangs f <> [] /\ length (ascii_lower (TrimSpace lang)) = 3%nat /\
      forall l, l ∈ f_AudioLangs f -> ascii_lower (TrimSpace l) <> ascii_lower (TrimSpace lang)
  | ReasonConflictingSourceTags => exists a b, (a, b) ∈ conflictingSourceGroups /\ MatchString a releaseTitle = true /\ MatchString b releaseTitle = true
  end.

(** What is stored fits: an identity as [Validate] accepts it, a duration of 64 bits. *)
Definition plausible_inputs (id : ProviderIdentity) (facts : option Facts) : Prop :=
  0 <= RuntimeMinutes id <= 600 /\ (forall ep, ep ∈ Episodes id -> 0 <= e_RuntimeMinutes ep <= 600) /\
  (forall f, facts = Some f -> is_i64 (f_DurationMS f)).

Lemma expected_range id facts season episode : plausible_inputs id facts -> 0 <= expectedRuntimeMinutes (Some id) season episode <= 600.
Proof.
  intros (Hr & He & _). cbn. destruct (_ && _ && _); [|done]. destruct (find _ _) as [ep|] eqn:E; [|done].
  apply find_some in E as [Hin _]. apply He. by apply list_elem_of_In.
Qed.

Lemma extracted_year title y : y <> 0 -> (extractReleaseYear title = y <-> FindYears title <> [] /\ forall z, z ∈ FindYears title -> z = y).
Proof.
  intros Hy. unfold extractReleaseYear.
  assert (Hm : forall z, z ∈ remove_dups (FindYears title) <-> z ∈ FindYears title) by (intros z; apply elem_of_remove_dups).
  pose proof (NoDup_remove_dups (FindYears title)) as Hn. destruct (remove_dups (FindYears title)) as [|a [|b l]].
  - split; [congruence|]. intros [Hne _]. destruct (FindYears title) as [|x l] eqn:E; [done|].
    destruct (not_elem_of_nil x). apply Hm. left.
  - split.
    + intros <-. split; [intros E; rewrite E in Hm; destruct (not_elem_of_nil a); apply Hm; left|].
      intros z [?|[]%not_elem_of_nil]%Hm%list.elem_of_cons. done.
    + intros [_ Ha]. apply Ha, Hm. left.
  - split; [congruence|]. intros [_ Ha]. apply list.NoDup_cons in Hn as [Hn _]. destruct Hn.
    rewrite (Ha a), (Ha b); [left|apply Hm; right; left|apply Hm; left].
Qed.

Lemma checkYear_iff id title : checkYear (Some id) title = Some ReasonYearMismatch <->
  contradicts id title 0 0 None [] ReasonYearMismatch.
Proof.
  unfold checkYear, contradicts. destruct (Z.eqb_spec (Year id) 0) as [E|E]; [split; [done|intros [? _]; done]|].
  set (y := extractReleaseYear title). assert (Hy : forall z, z <> 0 -> (y = z <-> FindYears title <> [] /\ forall x, x ∈ FindYears title -> x = z)) by apply extracted_year.
  assert (Hone : forall z, z <> 0 -> (forall x, x ∈ FindYears title <-> x = z) -> y = z).
  { intros z Hz Hx. apply Hy; [done|]. split; [|intros x; apply Hx]. intros En. rewrite En in Hx. apply (not_elem_of_nil z), Hx. done. }
  destruct (Z.eqb_spec y 0) as [E0|E0].
  { split; [done|]. intros (_ & z & Hz & Hx & _). apply Hone in Hx; [congruence|done]. }
  assert (Hx : forall x, x ∈ FindYears title <-> x = y).
  { destruct (proj1 (Hy y E0) eq_refl) as [Hne Ha]. intros x. split; [apply Ha|]. intros ->. destruct (FindYears title) as [|z l]; [done|].
    rewrite <- (Ha z); left. }
  assert (Hne : str "movie" <> str "series") by done.
  split.
  - intros H. split; [done|]. exists y. split_and!; [done|done|]. destruct (decide (Kind id = str "movie")) as [Em|Em].
    + rewrite bool_decide_true in H by done. destruct (Z.eqb_spec y (Year id)); [done|]. by left.
    + rewrite bool_decide_false in H by done. destruct (decide (Kind id = str "series")) as [Es|Es]; [|by rewrite bool_decide_false in H by done].
      rewrite bool_decide_true in H by done. destruct ((_ <? _) || _) eqn:Eo; [|done]. right. split; [done|]. apply orb_true_iff in Eo as [?%Z.ltb_lt|?%Z.ltb_lt]; lia.
  - intros (_ & z & Hz & Hxz & Hk). apply Hone in Hxz as <-; [|done]. destruct Hk as [[Ek Hd]|[Ek Hd]].
    + rewrite bool_decide_true by done. by destruct (Z.eqb_spec y (Year id)).
    + rewrite bool_decide_false by congruence. rewrite bool_decide_true by done.
      destruct (Z.ltb_spec y (Year id)); [done|]. destruct (Z.ltb_spec (Year id + 50) y); [done|]. lia.
Qed.

Lemma checkRuntime_iff id season episode facts lang : plausible_inputs id facts ->
  (checkRuntime (Some id) season episode facts = Some ReasonRuntimeMismatch <-> contradicts id [] season episode facts lang ReasonRuntimeMismatch).
Proof.
  intros Hp. pose proof (expected_range id facts season episode Hp) as He. destruct Hp as (_ & _ & Hf). unfold checkRuntime, contradicts.
  destruct facts as [f|]; [|split; [done|by intros (? & ? & _)]]. specialize (Hf f eq_refl). unfold is_i64, minInt64, maxInt64 in Hf.
  set (x := expectedRuntimeMinutes (Some id) season episode) in *. cbv zeta. destruct (Z.leb_spec (f_DurationMS f) 0) as [Hd|Hd].
  { split; [done|]. intros (g & [= <-] & ? & _). lia. }
  destruct (Z.leb_spec x 0) as [Hx|Hx]; [split; [done|intros (g & _ & _ & ? & _); lia]|].
  rewrite (i64_small (x * 60 * 1000)) by (unfold is_i64, minInt64, maxInt64; lia).
  rewrite (i64_small (f_DurationMS f - x * 60 * 1000)) by (unfold is_i64, minInt64, maxInt64; lia).
  assert (Ht : runtimeTolerance x = Z.max 720000 (x * 7200)).
  { unfold runtimeTolerance. rewrite i64_small by (unfold is_i64, minInt64, maxInt64; lia).
    replace (x * 12 * 60 * 1000) with (x * 7200 * 100) by lia. rewrite Z.quot_mul by lia. destruct (Z.ltb_spec (12 * 60 * 1000) (x * 7200)); lia. }
  rewrite Ht. replace (x * 60 * 1000) with (x * 60000) by lia.
  assert (Ea : (if f_DurationMS f - x * 60000 <? 0 then i64 (- (f_DurationMS f - x * 60000)) else f_DurationMS f - x * 60000) = Z.abs (f_DurationMS f - x * 60000)).
  { destruct (Z.ltb_spec (f_DurationMS f - x * 60000) 0); [|lia]. rewrite i64_small by (unfold is_i64, minInt64, maxInt64; lia). lia. }
  rewrite Ea. split.
  - intros H. exists f. destruct (Z.ltb_spec (Z.max 720000 (x * 7200)) (Z.abs (f_DurationMS f - x * 60000))); [|done]. split_and!; (done || lia).
  - intros (g & [= <-] & _ & _ & Hl). destruct (Z.ltb_spec (Z.max 720000 (x * 7200)) (Z.abs (f_DurationMS f - x * 60000))); [done|lia].
Qed.

Lemma checkAudio_iff id season episode facts lang :
  checkAudioLanguage lang facts = Some ReasonAudioLanguageMismatch <-> contradicts id [] season episode facts lang ReasonAudioLanguageMismatch.
Proof.
  unfold checkAudioLanguage, contradicts. set (code := ascii_lower (TrimSpace lang)). destruct facts as [f|]; [|split; [done|by intros (? & ? & _)]].
  destruct (bool_decide (code = [])) eqn:E1; bool_hyps.
  { cbn [orb]. split; [done|]. intros (g & _ & _ & Hl & _). by rewrite E1 in Hl. }
  destruct (Z.eqb_spec (Z.of_nat (length code)) 3) as [E2|E2]; cbn [orb negb]; [|split; [done|intros (g & _ & _ & Hl & _); lia]].
  destruct (f_AudioLangs f) as [|l ls] eqn:E3; cbn [length].
  { rewrite bool_decide_true by done. split; [done|]. intros (g & [= <-] & Hne & _). done. }
  rewrite bool_decide_false by done. rewrite <- E3. destruct (existsb _ _) eqn:E4.
  - split; [done|]. intros (g & [= <-] & _ & _ & Hall). apply existsb_exists in E4 as (a & Ha & Hb). bool_hyps.
    destruct (Hall a); [by apply list_elem_of_In|done].
  - split; [|done]. intros _. exists f. split_and!; [done|by rewrite E3|lia|]. intros a Ha Hb.
    apply (proj2 (Bool.not_true_iff_false _) E4), existsb_exists. exists a. split; [by apply list_elem_of_In|]. by rewrite bool_decide_true.
Qed.

Lemma checkTags_iff title id season episode facts lang :
  checkConflictingSourceTags title = Some ReasonConflictingSourceTags <-> contradicts id title season episode facts lang ReasonConflictingSourceTags.
Proof.
  unfold checkConflictingSourceTags, contradicts. destruct (existsb _ _) eqn:E.
  - split; [|done]. intros _. apply existsb_exists in E as ([a b] & Hin & [Ha Hb]%andb_true_iff). exists a, b. split_and!; [by apply list_elem_of_In|done|done].
  - split; [done|]. intros (a & b & Hin & Ha & Hb). apply (proj2 (Bool.not_true_iff_false _)) in E. destruct E. apply existsb_exists. exists (a, b).
    split; [by apply list_elem_of_In|]. cbn [fst snd]. by rewrite Ha, Hb.
Qed.

Lemma elem_of_verdict v r : r ∈ verdict v <-> v = Some r.
Proof. destruct v; cbn; [rewrite list_elem_of_singleton; split; congruence|split; [by intros ?%not_elem_of_nil|done]]. Qed.

(** A verdict is a contradiction, and every contradiction is a verdict.  For an identity
    as it is stored and facts of 64 bits, the reasons are exactly: a title whose one year is
    not the movie's, or lies outside the fifty years of the series; a duration off by more
    than twelve minutes and twelve percent of the episode's, or else the identity's, runtime;
    languages none of which is the expected one; a title with two tags that exclude each
    other.  Each is given once, and whatever is unknown gives none. *)
Theorem verdicts_contradict id title season episode facts lang : plausible_inputs id facts ->
  (forall r, r ∈ Verify (Some id) title season episode facts lang <-> contradicts id title season episode facts lang r) /\
  NoDup (Verify (Some id) title season episode facts lang).
Proof.
  intros Hp.
  assert (H1 : forall r, checkYear (Some id) title = Some r -> r = ReasonYearMismatch) by (intros r; unfold checkYear; repeat case_match; congruence).
  assert (H2 : forall r, checkRuntime (Some id) season episode facts = Some r -> r = ReasonRuntimeMismatch) by (intros r; unfold checkRuntime; repeat case_match; congruence).
  assert (H3 : forall r, checkAudioLanguage lang facts = Some r -> r = ReasonAudioLanguageMismatch) by (intros r; unfold checkAudioLanguage; repeat case_match; congruence).
  assert (H4 : forall r, checkConflictingSourceTags title = Some r -> r = ReasonConflictingSourceTags) by (intros r; unfold checkConflictingSourceTags; case_match; congruence).
  split.
  - intros r. unfold Verify. rewrite !elem_of_app, !elem_of_verdict.
    pose proof (checkYear_iff id title) as I1. pose proof (checkRuntime_iff id season episode facts lang Hp) as I2.
    pose proof (checkAudio_iff id season episode facts lang) as I3. pose proof (checkTags_iff title id season episode facts lang) as I4.
    split.
    + intros [E|[E|[E|E]]]; [pose proof (H1 _ E)|pose proof (H2 _ E)|pose proof (H3 _ E)|pose proof (H4 _ E)]; subst r; [by apply I1|by apply I2|by apply I3|by apply I4].
    + destruct r; intros Hc; [left; by apply I1|right; left; by apply I2|do 2 right; left; by apply I3|do 3 right; by apply I4].
  - unfold Verify. destruct (checkYear _ _) as [r1|]; [rewrite (H1 r1 eq_refl)|]; destruct (checkRuntime _ _ _ _) as [r2|]; try rewrite (H2 r2 eq_refl);
      destruct (checkAudioLanguage _ _) as [r3|]; try rewrite (H3 r3 eq_refl); destruct (checkConflictingSourceTags _) as [r4|]; try rewrite (H4 r4 eq_refl);
      cbn; repeat (apply NoDup_cons_2; [set_solver|]); apply NoDup_nil_2.
Qed.

End Checks.

(** A movie of 1999 in a release named for 2001. *)
Lemma verdicts_contradict_witness :
  ReasonYearMismatch ∈ Verify (fun _ => [2001]) (fun _ _ => false) (Some (MkIdentity (str "movie") [] (MkIDs [] [] []) [] 1999 120)) (str "A.Title.2001") 0 0
    (Some (MkFacts 7300000 [])) [].
Proof.
  apply (proj1 (verdicts_contradict (fun _ => [2001]) (fun _ _ => false) (MkIdentity (str "movie") [] (MkIDs [] [] []) [] 1999 120) (str "A.Title.2001") 0 0
    (Some (MkFacts 7300000 [])) [] ltac:(split; [cbn; lia|split; [intros ep Hep; cbn in Hep; by apply not_elem_of_nil in Hep|intros f [= <-]; cbn; unfold is_i64, minInt64, maxInt64; lia]]))).
  cbn. split; [lia|]. exists 2001. split; [lia|]. split; [intros z; rewrite list_elem_of_singleton; done|]. left. split; [reflexivity|lia].
Defined.
