(* ===== verification/ReactiveStore.v ===== *)
(** The tables of reactive acquisition: internal/store/reactive_commits.go,
    reactive_pending.go and the events of reactive_metrics.go, with the triggers of
    migrations 0038 to 0042 that tie them to the proposals of playback.

    A statement, or a transaction, is one function on the tables: it fails and leaves them as
    they were, or it gives the tables after it and its answer; a row of a commit is read with
    its files and episodes, which the code reads with two more queries.  The text of an instant and
    its parse are inverse, so a row keeps the instant; an instant that is zero is 0. *)

From Stdlib Require Import ZArith Lia.
From stdpp Require Import base list numbers strings gmap sets.
From S2P Require Import Prelude Bencode Torrentmeta Text Outcome PlaybackCoverage ContentProof Tables.

Local Open Scope Z_scope.
Local Open Scope harbor_scope.

(** ** Rows *)

Inductive commit_state : Type := Committing | Parked | Committed | Undoing | Undone.
Inductive commit_mode : Type := ModeAuto | ModeSupervised | ModeOther (s : bytes).

Inductive pending_reason : Type :=
| SupervisedReview | WeakEvidence | PositiveMismatch | RoutingUnresolved | RoutingAmbiguous | OtherReason (s : bytes).

Inductive pending_action : Type :=
| Approve | Acknowledge | Assign | JellyfinOnly | Remove | UndoAction | OtherAction (s : bytes).

#[export] Instance commit_state_eq_dec : EqDecision commit_state.
Proof. solve_decision. Defined.
#[export] Instance commit_mode_eq_dec : EqDecision commit_mode.
Proof. solve_decision. Defined.
#[export] Instance pending_reason_eq_dec : EqDecision pending_reason.
Proof. solve_decision. Defined.
#[export] Instance pending_action_eq_dec : EqDecision pending_action.
Proof. solve_decision. Defined.

(** The column's default, the empty text. *)
Definition no_action : pending_action := OtherAction [].

Record ReactiveCommitEpisode := MkEpisode { ep_ID : Z; ep_PriorMonitored : bool }.

(** What a registrar did, and what its undoing needs. *)
Record Registration := MkRegistration {
  g_ArrName : bytes; g_Kind : bytes; g_ItemID : Z; g_FileIDs : list Z; g_OwnerCreated : bool;
  g_PriorMonitored : option bool; g_Episodes : list ReactiveCommitEpisode
}.

#[export] Instance ReactiveCommitEpisode_eq_dec : EqDecision ReactiveCommitEpisode.
Proof. solve_decision. Defined.
#[export] Instance Registration_eq_dec : EqDecision Registration.
Proof. solve_decision. Defined.

Definition no_registration : Registration := MkRegistration [] [] 0 [] false None [].

(** A row, with its rows in the tables of files and episodes; the columns that a registration
    fills are kept together. *)
Record ReactiveCommit := MkCommit {
  c_RepresentationID : bytes; c_ItemID : bytes; c_FileID : bytes; c_State : commit_state; c_Mode : commit_mode;
  c_ReviewRequired : bool; c_Reason : bytes; c_Registration : Registration; c_CreatedAt : Z; c_UpdatedAt : Z
}.

Record ReactivePending := MkPending {
  n_RepresentationID : bytes; n_ItemID : bytes; n_Reason : pending_reason; n_Resolved : bool; n_ExitAction : pending_action;
  n_ArrName : bytes; n_CreatedAt : Z; n_UpdatedAt : Z
}.

Record ReactiveAssignment := MkAssignment { as_Kind : bytes; as_Provider : bytes; as_Value : bytes; as_ArrName : bytes }.

Inductive event_kind : Type := EventCommit | EventPark | EventUndo | EventPromotion.
Inductive event_outcome : Type := NoOutcome | StrongOutcome | WeakOutcome | MismatchOutcome.

Record event := MkEvent { v_id : Z; v_kind : event_kind; v_mode : option commit_mode; v_outcome : event_outcome; v_bytes : Z; v_at : Z }.

Record reactive_tables := MkTables {
  coverage : tables;
  commits : gmap bytes ReactiveCommit;
  pending : gmap bytes ReactivePending;
  assignments : gmap (bytes * bytes * bytes) (bytes * Z * Z);
  events : list event;
  next_event : Z
}.

Definition set_commits (t : reactive_tables) (c : gmap bytes ReactiveCommit) : reactive_tables :=
  MkTables (coverage t) c (pending t) (assignments t) (events t) (next_event t).
Definition set_pending (t : reactive_tables) (p : gmap bytes ReactivePending) : reactive_tables :=
  MkTables (coverage t) (commits t) p (assignments t) (events t) (next_event t).

Definition proposed (t : reactive_tables) (rep : bytes) : bool :=
  match GetPlaybackProposal (coverage t) rep with Some _ => true | None => false end.

Definition fail {A} (s : string) : result goerror A := Err (errors_New (str s)).

Definition constraint_failed : goerror := errors_New (str "constraint failed").

(** ** Events *)

Definition maxReactiveEvents : Z := 100000.
Definition reactiveEventDays : Z := 366.

Definition newest_events (es : list event) : list Z :=
  map v_id (take (Z.to_nat maxReactiveEvents) (sort_by (newer v_id v_at) es)).

Definition appendReactiveEvent (t : reactive_tables) (kind : event_kind) (mode : option commit_mode) (outcome : event_outcome)
    (n at_ : Z) : result goerror reactive_tables :=
  if (at_ =? 0) || (n <? 0) then fail "store: invalid reactive event"
  else
    let es := events t ++ [MkEvent (next_event t) kind mode outcome n at_] in
    let kept := filter (fun e => v_id e ∈ newest_events es /\ time_text_ltb (v_at e) (at_ - reactiveEventDays * 24 * 3600 * second) = false) es in
    Ok (MkTables (coverage t) (commits t) (pending t) (assignments t) kept (next_event t + 1)).

(** ** The pending queue *)

Definition validPendingReason (reason : pending_reason) : bool := match reason with OtherReason _ => false | _ => true end.

Definition validPendingAction (reason : pending_reason) (action : pending_action) : bool :=
  match reason with
  | SupervisedReview => match action with Approve | JellyfinOnly | Remove | Assign => true | _ => false end
  | WeakEvidence => match action with Acknowledge | UndoAction => true | _ => false end
  | PositiveMismatch => match action with JellyfinOnly | Remove => true | _ => false end
  | RoutingUnresolved | RoutingAmbiguous => match action with Assign | JellyfinOnly | Remove => true | _ => false end
  | OtherReason _ => false
  end.

Definition fresh_pending (rep item : bytes) (reason : pending_reason) (created updated : Z) : ReactivePending :=
  MkPending rep item reason false no_action [] created updated.

(** The body of both triggers on commits: the entry is there, pending, for the reason. *)
Definition reopen (t : reactive_tables) (c : ReactiveCommit) (reason : pending_reason) : reactive_tables :=
  let rep := c_RepresentationID c in
  if negb (proposed t rep) then t
  else
    set_pending t (<[rep :=
      match pending t !! rep with
      | None => fresh_pending rep (c_ItemID c) reason (c_CreatedAt c) (c_UpdatedAt c)
      | Some n => MkPending rep (n_ItemID n) reason false no_action [] (n_CreatedAt n) (c_UpdatedAt c)
      end]> (pending t)).

(** An update of the state of a row, and the triggers it fires. *)
Definition update_commit (t : reactive_tables) (c : ReactiveCommit) : reactive_tables :=
  let t := set_commits t (<[c_RepresentationID c := c]> (commits t)) in
  match c_State c with
  | Parked => reopen t c PositiveMismatch
  | Committed => if c_ReviewRequired c then reopen t c WeakEvidence else t
  | _ => t
  end.

(** The insert of a proposal and its trigger. *)
Definition CreateProposal (t : reactive_tables) (p : Proposal) : result goerror (reactive_tables * bool) :=
  match CreatePlaybackProposal (coverage t) p with
  | Err _ => fail "store: invalid playback proposal"
  | Ok (cov, false) => Ok (t, false)
  | Ok (cov, true) =>
      let rep := pr_RepresentationID p in
      match pending t !! rep with
      | Some _ => Err constraint_failed
      | None =>
          Ok (MkTables cov (commits t) (<[rep := fresh_pending rep (pr_ItemID p) SupervisedReview (pr_CreatedAt p) (pr_CreatedAt p)]> (pending t))
                (assignments t) (events t) (next_event t), true)
      end
  end.

(** INSERT OR IGNORE of one row; a row without its proposal breaks the foreign key. *)
Definition insert_or_ignore (t : reactive_tables) (n : ReactivePending) : result goerror reactive_tables :=
  match pending t !! n_RepresentationID n with
  | Some _ => Ok t
  | None =>
      if proposed t (n_RepresentationID n) then Ok (set_pending t (<[n_RepresentationID n := n]> (pending t)))
      else Err constraint_failed
  end.

(** The rows the three queries select. *)
Definition reviews (t : reactive_tables) (now : Z) : list ReactivePending :=
  map (fun p => fresh_pending (pr_RepresentationID p) (pr_ItemID p) SupervisedReview (pr_CreatedAt p) now)
    (filter (fun p => commits t !! pr_RepresentationID p = None) (playback_proposals (coverage t))).

Definition of_commits (t : reactive_tables) (reason : pending_reason) (sel : ReactiveCommit -> bool) (now : Z) : list ReactivePending :=
  map (fun rc => fresh_pending rc.1 (c_ItemID rc.2) reason (c_CreatedAt rc.2) now)
    (filter (fun rc => sel rc.2 = true) (map_to_list (commits t))).

Definition is_parked (c : ReactiveCommit) : bool := bool_decide (c_State c = Parked).
Definition is_weak (c : ReactiveCommit) : bool := bool_decide (c_State c = Committed) && c_ReviewRequired c.

Definition SyncReactivePending (now : Z) (t : reactive_tables) : result goerror (reactive_tables * unit) :=
  if now =? 0 then fail "store: zero reactive pending sync time"
  else
    let? t := rfold insert_or_ignore t (reviews t now) in
    let? t := rfold insert_or_ignore t (of_commits t PositiveMismatch is_parked now) in
    let? t := rfold insert_or_ignore t (of_commits t WeakEvidence is_weak now) in
    Ok (t, tt).

Definition EnqueueReactivePending (rep item : bytes) (reason : pending_reason) (now : Z) (t : reactive_tables) : result goerror (reactive_tables * unit) :=
  if bool_decide (rep = []) || bool_decide (item = []) || negb (validPendingReason reason) || (now =? 0)
  then fail "store: invalid reactive pending entry"
  else
    match pending t !! rep with
    | Some n =>
        Ok (if n_Resolved n then t
            else set_pending t (<[rep := MkPending rep (n_ItemID n) reason false (n_ExitAction n) (n_ArrName n) (n_CreatedAt n) now]> (pending t)), tt)
    | None =>
        if proposed t rep then Ok (set_pending t (<[rep := fresh_pending rep item reason now now]> (pending t)), tt)
        else Err constraint_failed
    end.

Definition MaxReactivePendingPage : Z := 100.
Definition forbidden_text : bytes := [13; 10; 0].

Definition by_representation (a b : ReactivePending) : bool := str_ltb (n_RepresentationID a) (n_RepresentationID b).

(** The rows that are pending, in the order of the page. *)
Definition open_entries (t : reactive_tables) : list ReactivePending :=
  sort_by by_representation (filter (fun n => n_Resolved n = false) (map snd (map_to_list (pending t)))).

Definition ListReactivePending (after : bytes) (limit : Z) (t : reactive_tables) : result goerror (reactive_tables * list ReactivePending) :=
  if (limit <=? 0) || (MaxReactivePendingPage <? limit) || contains_any after forbidden_text
  then fail "store: invalid reactive pending page"
  else Ok (t, take (Z.to_nat limit) (filter (fun n => str_ltb after (n_RepresentationID n) = true) (open_entries t))).

Definition GetReactivePending (rep : bytes) (t : reactive_tables) : result goerror (reactive_tables * option ReactivePending) :=
  Ok (t, pending t !! rep).

(** UPDATE ... WHERE state='pending', and how many rows it affected. *)
Definition resolve_row (rep : bytes) (action : pending_action) (arrName : bytes) (now : Z) (t : reactive_tables)
    : result goerror (reactive_tables * Z) :=
  match pending t !! rep with
  | Some n =>
      if n_Resolved n then Ok (t, 0)
      else
        match action with
        | OtherAction (_ :: _) => Err constraint_failed
        | _ => Ok (set_pending t (<[rep := MkPending rep (n_ItemID n) (n_Reason n) true action arrName (n_CreatedAt n) now]> (pending t)), 1)
        end
  | None => Ok (t, 0)
  end.

(** ** Commits *)

(** The rows an INSERT OR IGNORE keeps of a list: the first of each key, in the order of the key. *)
Definition first_of {A} (key : A -> Z) (l : list A) : list A :=
  sort_by (fun a b => key a <? key b)
    (fold_left (fun acc x => if existsb (fun y => key y =? key x) acc then acc else acc ++ [x]) l []).

Definition stored_registration (g : Registration) : Registration :=
  MkRegistration (g_ArrName g) (g_Kind g) (g_ItemID g) (first_of id (g_FileIDs g)) (g_OwnerCreated g) (g_PriorMonitored g)
    (first_of ep_ID (g_Episodes g)).

(** INSERT ... ON CONFLICT DO NOTHING, and whether it inserted. *)
Definition insert_commit (rep item file : bytes) (mode : commit_mode) (now : Z) (t : reactive_tables) : result goerror (reactive_tables * bool) :=
  match commits t !! rep with
  | Some _ => Ok (t, false)
  | None => Ok (set_commits t (<[rep := MkCommit rep item file Committing mode false [] no_registration now now]> (commits t)), true)
  end.

Definition GetReactiveCommit (rep : bytes) (t : reactive_tables) : result goerror (reactive_tables * option ReactiveCommit) :=
  Ok (t, commits t !! rep).

Definition ParkReactiveCommit (rep reason : bytes) (now : Z) (t : reactive_tables) : result goerror (reactive_tables * unit) :=
  if bool_decide (reason = []) || (now =? 0) then fail "store: invalid reactive park"
  else
    match commits t !! rep with
    | Some c =>
        if bool_decide (c_State c = Committing) then
          let t := update_commit t (MkCommit rep (c_ItemID c) (c_FileID c) Parked (c_Mode c) (c_ReviewRequired c) reason
                     (c_Registration c) (c_CreatedAt c) now) in
          let? t := appendReactiveEvent t EventPark None MismatchOutcome 0 now in
          Ok (t, tt)
        else fail "store: reactive commit cannot park"
    | None => fail "store: reactive commit cannot park"
    end.

Definition AbortReactiveCommit (rep : bytes) (t : reactive_tables) : result goerror (reactive_tables * unit) :=
  if bool_decide (rep = []) then fail "store: invalid reactive abort"
  else
    match commits t !! rep with
    | Some c => Ok (if bool_decide (c_State c = Committing) then set_commits t (delete rep (commits t)) else t, tt)
    | None => Ok (t, tt)
    end.

Definition good_registration (g : Registration) : bool :=
  negb (bool_decide (g_ArrName g = [])) && (bool_decide (g_Kind g = str "series") || bool_decide (g_Kind g = str "movie")) &&
  (0 <? g_ItemID g) && negb (bool_decide (length (g_FileIDs g) = 0%nat)).

Definition CompleteReactiveCommit (r : ReactiveCommit) (now : Z) (t : reactive_tables) : result goerror (reactive_tables * unit) :=
  let rep := c_RepresentationID r in
  let g := c_Registration r in
  if bool_decide (rep = []) || negb (good_registration g) || (now =? 0) then fail "store: invalid reactive completion"
  else
    match commits t !! rep with
    | Some c =>
        if bool_decide (c_State c = Committing) then
          if negb (forallb (Z.ltb 0) (g_FileIDs g)) then fail "store: invalid reactive file id"
          else if negb (forallb (fun ep => 0 <? ep_ID ep) (g_Episodes g)) then fail "store: invalid reactive episode id"
          else
            let t := update_commit t (MkCommit rep (c_ItemID c) (c_FileID c) Committed (c_Mode c) (c_ReviewRequired r) (c_Reason r)
                       (stored_registration g) (c_CreatedAt c) now) in
            let? t := appendReactiveEvent t EventCommit (Some (c_Mode r)) (if c_ReviewRequired r then WeakOutcome else StrongOutcome) 0 now in
            Ok (t, tt)
        else fail "store: reactive commit cannot complete"
    | None => fail "store: reactive commit cannot complete"
    end.

Definition with_state (c : ReactiveCommit) (s : commit_state) (now : Z) : ReactiveCommit :=
  MkCommit (c_RepresentationID c) (c_ItemID c) (c_FileID c) s (c_Mode c) (c_ReviewRequired c) (c_Reason c) (c_Registration c) (c_CreatedAt c) now.

(** UPDATE ... SET state='undoing' WHERE state='committed', and how many rows it affected. *)
Definition undo_row (rep : bytes) (now : Z) (t : reactive_tables) : result goerror (reactive_tables * Z) :=
  match commits t !! rep with
  | Some c => if bool_decide (c_State c = Committed) then Ok (update_commit t (with_state c Undoing now), 1) else Ok (t, 0)
  | None => Ok (t, 0)
  end.

Definition CompleteReactiveUndo (rep : bytes) (now : Z) (t : reactive_tables) : result goerror (reactive_tables * unit) :=
  match commits t !! rep with
  | Some c =>
      if bool_decide (c_State c = Undoing) then
        let? t := appendReactiveEvent (update_commit t (with_state c Undone now)) EventUndo None NoOutcome 0 now in
        Ok (t, tt)
      else fail "store: reactive undo cannot complete"
  | None => fail "store: reactive undo cannot complete"
  end.

(** ** Assignments *)

Definition one_of (s : bytes) (l : list string) : bool := existsb (fun x => bool_decide (s = str x)) l.

Definition validAssignmentKey (a : ReactiveAssignment) : bool :=
  if negb (one_of (as_Kind a) ["series"; "movie"]) then false
  else if negb (one_of (as_Provider a) ["tvdb"; "imdb"; "tmdb"]) then false
  else negb (bool_decide (as_Value a = [])) && (Z.of_nat (length (as_Value a)) <=? 64) && negb (contains_any (as_Value a) forbidden_text).

Definition validAssignment (a : ReactiveAssignment) : bool :=
  validAssignmentKey a && negb (bool_decide (as_ArrName a = [])) && (Z.of_nat (length (as_ArrName a)) <=? 128) &&
  negb (contains_any (as_ArrName a) forbidden_text).

Definition trim_assignment (a : ReactiveAssignment) : ReactiveAssignment :=
  MkAssignment (TrimSpace (as_Kind a)) (TrimSpace (as_Provider a)) (TrimSpace (as_Value a)) (TrimSpace (as_ArrName a)).

Definition PutReactiveAssignment (a : ReactiveAssignment) (now : Z) (t : reactive_tables) : result goerror (reactive_tables * unit) :=
  let a := trim_assignment a in
  if negb (validAssignment a) || (now =? 0) then fail "store: invalid reactive assignment"
  else
    let key := (as_Kind a, as_Provider a, as_Value a) in
    let created := match assignments t !! key with Some (_, created, _) => created | None => now end in
    Ok (MkTables (coverage t) (commits t) (pending t) (<[key := (as_ArrName a, created, now)]> (assignments t)) (events t) (next_event t), tt).

Definition GetReactiveAssignment (kind provider value : bytes) (t : reactive_tables) : result goerror (reactive_tables * option ReactiveAssignment) :=
  let key := trim_assignment (MkAssignment kind provider value []) in
  if negb (validAssignmentKey key) then fail "store: invalid reactive assignment key"
  else
    Ok (t, match assignments t !! (as_Kind key, as_Provider key, as_Value key) with
           | Some (arr, _, _) => Some (MkAssignment (as_Kind key) (as_Provider key) (as_Value key) arr)
           | None => None
           end).
