(* ===== verification/ReactiveLogic.v ===== *)
(** Programs over the tables of reactive acquisition, and why their interleavings are safe.

    A function of the reactive packages is a program: a tree of statements on the tables and
    of questions to its surroundings (the context, the clock, the items, an Arr instance, the
    output), which the functions are written with as the code composes them.  A system is the
    tables, what the registrar was asked, and any number of programs that run one statement
    or question at a time, in any order; a statement may fail for reasons of the database,
    and the process may stop at any point, which leaves the tables.

    [secure] is a small program logic.  A program may hold a claim on one representation, the
    right to move the row of its commit, and may know facts of the tables that no program
    takes back.  A system of secure programs keeps the claims apart and the rows in step with
    what the registrar holds. *)

From Stdlib Require Import ZArith Lia.
From stdpp Require Import base list numbers strings gmap sets.
From S2P Require Import Prelude Outcome PlaybackCoverage SearchBudget ContentProof Continuity IdentityCheck ReactiveStore.

Local Open Scope Z_scope.
Local Open Scope harbor_scope.

(** ** The surroundings *)

Record Item := MkItem {
  i_ID : bytes; i_DisplayName : bytes; i_StrmPath : option bytes; i_ProviderIdentity : option ProviderIdentity;
  i_MediaFacts : option Facts; i_MediaFactsFileID : bytes
}.

Record ArrTarget := MkTarget { a_Name : bytes; a_BaseURL : bytes; a_APIKey : bytes; a_RootFolder : bytes; a_QualityProfile : Z }.

Record arrRow := MkRow { w_IMDBID : bytes }.

Record CommitRequest := MkCommitRequest {
  q_Identity : ProviderIdentity; q_SourcePath : bytes; q_TargetName : bytes; q_RootFolder : bytes; q_QualityProfile : Z;
  q_MonitorEpisodes : bool; q_MonitorMovie : bool
}.

(** The questions.  The registrar's carry the representation they are for, which the code does
    not pass: it is what the theorems speak of. *)
Inductive ask : Type -> Type :=
| CtxErr : ask (option goerror)
| Now : ask Z
| GetItemByID (id : bytes) : ask (result goerror (option Item))
| StatFile (path : bytes) : ask (option goerror)
| AskContinuity (rep : bytes) : ask (result goerror (list ContinuityEntry))
| AskProofs (reps : list bytes) (now : Z) : ask (result goerror (list Evidence))
| RegCommit (rep : bytes) (req : CommitRequest) : ask (result goerror Registration)
| RegUndo (rep : bytes) (g : Registration) : ask (option goerror)
| RemoveCommitted (item : option Item) : ask (option goerror)
| ArrRows (target : ArrTarget) (path : bytes) : ask (result goerror (Z * list arrRow)).

Inductive prog (A : Type) : Type :=
| Ret (a : A)
| Stmt {B : Type} (f : reactive_tables -> result goerror (reactive_tables * B)) (k : result goerror B -> prog A)
| Ask {B : Type} (q : ask B) (k : B -> prog A).
Arguments Ret {A}.
Arguments Stmt {A B}.
Arguments Ask {A B}.

Fixpoint prog_bind {A B} (p : prog A) (f : A -> prog B) : prog B :=
  match p with
  | Ret a => f a
  | Stmt s k => Stmt s (fun r => prog_bind (k r) f)
  | Ask q k => Ask q (fun b => prog_bind (k b) f)
  end.

Definition stmt {B} (f : reactive_tables -> result goerror (reactive_tables * B)) : prog (result goerror B) := Stmt f Ret.
Definition question {B} (q : ask B) : prog B := Ask q Ret.

Declare Scope prog_scope.
Notation "'do!' x ':=' c 'in' k" := (prog_bind c (fun x => k))
  (at level 200, x pattern, c at level 100, k at level 200, right associativity) : prog_scope.
(** [x, err := c; if err != nil { return r err }]. *)
Notation "'get!' x ':=' c 'or' r 'in' k" :=
  (prog_bind c (fun res => match res with Ok x => k | Err err => Ret (r err) end))
  (at level 200, x pattern, c at level 100, r at level 100, k at level 200, right associativity) : prog_scope.
(** [if err := c; err != nil { return r err }]. *)
Notation "'guard!' c 'or' r 'in' k" :=
  (prog_bind c (fun res => match res with None => k | Some err => Ret (r err) end))
  (at level 200, c at level 100, r at level 100, k at level 200, right associativity) : prog_scope.
Local Open Scope prog_scope.

(** ** Claims *)

Inductive stage : Type :=
| Fresh                        (* the row was inserted, nothing is registered *)
| Held (g : Registration)        (* registered, the row is not complete *)
| Undoes (g : Registration)      (* the row is being undone, its registration was not touched *)
| Cleared.                     (* the registrar was asked to undo it *)
Abbreviation claim := (option (bytes * stage)).

(** ** Systems *)

Inductive reg_event : Type :=
| CommitAsked (rep : bytes) (g : option Registration)
| UndoAsked (rep : bytes) (g : Registration).

Definition record_ask {B} (q : ask B) : B -> list reg_event :=
  match q with
  | RegCommit rep _ => fun b => [CommitAsked rep (match b with Ok g => Some g | Err _ => None end)]
  | RegUndo rep g => fun _ => [UndoAsked rep g]
  | _ => fun _ => []
  end.

Definition rep_of_event (e : reg_event) : bytes := match e with CommitAsked rep _ | UndoAsked rep _ => rep end.

(** The registrations of a representation that the registrar was not asked to undo, as a row
    keeps them. *)
Definition live_step (rep : bytes) (l : list Registration) (e : reg_event) : list Registration :=
  match e with
  | CommitAsked r (Some g) => if bool_decide (r = rep) then l ++ [stored_registration g] else l
  | CommitAsked r None => l
  | UndoAsked r g => if bool_decide (r = rep) then filter (fun x => x <> g /\ x <> stored_registration g) l else l
  end.
Definition live (log : list reg_event) (rep : bytes) : list Registration := fold_left (live_step rep) log [].

Record system := MkSystem { y_tables : reactive_tables; y_log : list reg_event; y_threads : list (prog unit) }.

(** One program on its own, with answers that do not change. *)
Fixpoint run {A} (answer : forall B, ask B -> B) (p : prog A) (t : reactive_tables) (log : list reg_event) : A * reactive_tables * list reg_event :=
  match p with
  | Ret a => (a, t, log)
  | Stmt f k =>
      match f t with
      | Ok (t', b) => run answer (k (Ok b)) t' log
      | Err e => run answer (k (Err e)) t log
      end
  | @Ask _ B q k => run answer (k (answer B q)) t (log ++ record_ask q (answer B q))
  end.

Lemma run_bind {A B} answer (p : prog A) (f : A -> prog B) : forall t log,
  run answer (prog_bind p f) t log = let '(a, t', log') := run answer p t log in run answer (f a) t' log'.
Proof.
  induction p as [a|C s k IH|C q k IH]; intros t log; cbn [prog_bind run]; [done| |apply IH]. destruct (s t) as [[t' b]|e]; apply IH.
Qed.

Section System.
(** The calls that may start. *)
Context (entry : prog unit -> Prop).

Inductive step : system -> system -> Prop :=
| step_stmt i t log ths {B} (f : reactive_tables -> result goerror (reactive_tables * B)) k t' b :
    ths !! i = Some (Stmt f k) -> f t = Ok (t', b) -> step (MkSystem t log ths) (MkSystem t' log (<[i := k (Ok b)]> ths))
| step_refused i t log ths {B} (f : reactive_tables -> result goerror (reactive_tables * B)) k e :
    ths !! i = Some (Stmt f k) -> step (MkSystem t log ths) (MkSystem t log (<[i := k (Err e)]> ths))
| step_ask i t log ths {B} (q : ask B) k b :
    ths !! i = Some (Ask q k) -> step (MkSystem t log ths) (MkSystem t (log ++ record_ask q b) (<[i := k b]> ths))
| step_start t log ths p : entry p -> step (MkSystem t log ths) (MkSystem t log (ths ++ [p]))
| step_proposal t log ths p t' created : CreateProposal t p = Ok (t', created) -> step (MkSystem t log ths) (MkSystem t' log ths)
| step_restart t log ths : step (MkSystem t log ths) (MkSystem t log []).

Definition no_tables : reactive_tables := MkTables (Tables [] [] []) ∅ ∅ ∅ [] 1.

Inductive reached : system -> Prop :=
| reached_start : reached (MkSystem no_tables [] [])
| reached_step x y : reached x -> step x y -> reached y.

(** A program on its own is one of the interleavings. *)
Lemma run_steps answer (p : prog unit) i : forall t log ths, ths !! i = Some p ->
  let '(u, t', log') := run answer p t log in rtc step (MkSystem t log ths) (MkSystem t' log' (<[i := Ret u]> ths)).
Proof.
  induction p as [a|C s k IH|C q k IH]; intros t log ths Hi; cbn [run].
  - by rewrite list_insert_id.
  - destruct (s t) as [[t' b]|e] eqn:E.
    + specialize (IH (Ok b) t' log (<[i := k (Ok b)]> ths)). destruct (run _ _ _ _) as [[u t2] log2].
      eapply rtc_l; [by eapply step_stmt|]. rewrite list_insert_insert_eq in IH. apply IH, list_lookup_insert_eq. by eapply lookup_lt_Some.
    + specialize (IH (Err e) t log (<[i := k (Err e)]> ths)). destruct (run _ _ _ _) as [[u t2] log2].
      eapply rtc_l; [by eapply (step_refused _ _ _ _ _ _ e)|]. rewrite list_insert_insert_eq in IH. apply IH, list_lookup_insert_eq. by eapply lookup_lt_Some.
  - specialize (IH (answer C q) t (log ++ record_ask q (answer C q)) (<[i := k (answer C q)]> ths)). destruct (run _ _ _ _) as [[u t2] log2].
    eapply rtc_l; [by eapply step_ask|]. rewrite list_insert_insert_eq in IH. apply IH, list_lookup_insert_eq. by eapply lookup_lt_Some.
Qed.

Lemma reached_steps x y : reached x -> rtc step x y -> reached y.
Proof. intros Hx Hs. induction Hs as [|x z y Hxz _ IH]; [done|]. apply IH. by eapply reached_step. Qed.

(** ** The tables on their own *)

Definition row_in (t : reactive_tables) (rep : bytes) (states : list commit_state) : Prop :=
  exists c, commits t !! rep = Some c /\ c_State c ∈ states.
Definition row_done (t : reactive_tables) (rep : bytes) : Prop := row_in t rep [Committed; Undoing; Undone].
Definition row_undone (t : reactive_tables) (rep : bytes) : Prop := row_in t rep [Undone].

Record pending_ok (t : reactive_tables) (rep : bytes) (n : ReactivePending) : Prop := {
  po_key : n_RepresentationID n = rep;
  po_reason : validPendingReason (n_Reason n) = true;
  po_open : n_Resolved n = false -> n_ExitAction n = no_action /\ n_ArrName n = [];
  po_closed : n_Resolved n = true -> n_ExitAction n <> no_action;
  po_done : n_Resolved n = true -> n_ExitAction n = Approve \/ n_ExitAction n = Assign -> row_done t rep;
  po_undone : n_Resolved n = true -> n_ExitAction n = UndoAction -> row_undone t rep
}.

Record tables_ok (t : reactive_tables) : Prop := {
  to_pending : forall rep n, pending t !! rep = Some n -> pending_ok t rep n /\ proposed t rep = true;
  to_commits : forall rep c, commits t !! rep = Some c -> c_RepresentationID c = rep /\ proposed t rep = true;
  to_valid : forall rep, proposed t rep = true -> ValidateRepresentationID rep = true
}.

(** What no program takes back. *)
Definition advance (t t' : reactive_tables) : Prop :=
  (forall rep, row_done t rep -> row_done t' rep) /\ (forall rep, row_undone t rep -> row_undone t' rep) /\
  (forall rep, proposed t rep = true -> proposed t' rep = true).
Definition stable (K : reactive_tables -> Prop) : Prop := forall t t', advance t t' -> K t -> K t'.

Definition stage_state (s : stage) : commit_state := match s with Fresh | Held _ => Committing | Undoes _ | Cleared => Undoing end.

Definition claim_holds (c : claim) (t : reactive_tables) : Prop :=
  match c with
  | None => True
  | Some (rep, s) => exists row, commits t !! rep = Some row /\ c_State row = stage_state s /\
      match s with Undoes g => c_Registration row = g | _ => True end
  end.

Definition stage_live (s : stage) : list Registration :=
  match s with Fresh | Cleared => [] | Held g => [stored_registration g] | Undoes g => [g] end.

(** What a statement may do to the rows of commits under a claim. *)
Inductive moves (t t' : reactive_tables) : claim -> claim -> Prop :=
| m_same c : commits t' = commits t -> moves t t' c c
| m_begin rep row : commits t !! rep = None -> c_State row = Committing -> commits t' = <[rep := row]> (commits t) ->
    moves t t' None (Some (rep, Fresh))
| m_park rep row : c_State row = Parked -> commits t' = <[rep := row]> (commits t) -> moves t t' (Some (rep, Fresh)) None
| m_complete rep row g : c_State row = Committed -> c_Registration row = stored_registration g ->
    commits t' = <[rep := row]> (commits t) -> moves t t' (Some (rep, Held g)) None
| m_abort rep : commits t' = delete rep (commits t) -> moves t t' (Some (rep, Fresh)) None
| m_undo rep row row' : commits t !! rep = Some row -> c_State row = Committed -> c_State row' = Undoing ->
    c_Registration row' = c_Registration row -> commits t' = <[rep := row']> (commits t) ->
    moves t t' None (Some (rep, Undoes (c_Registration row)))
| m_undone rep row' : c_State row' = Undone -> commits t' = <[rep := row']> (commits t) -> moves t t' (Some (rep, Cleared)) None.

(** What a question does to a claim. *)
Definition ask_moves {B} (q : ask B) : B -> claim -> claim -> Prop :=
  match q with
  | RegCommit rep _ => fun b c c' =>
      c = Some (rep, Fresh) /\ c' = match b with Ok g => Some (rep, Held g) | Err _ => c end
  | RegUndo rep g => fun _ c c' =>
      c = Some (rep, Held g) /\ c' = Some (rep, Fresh) \/ c = Some (rep, Undoes g) /\ c' = Some (rep, Cleared)
  | _ => fun _ c c' => c' = c
  end.

(** A program may give a claim up for good: the row stays as it is. *)
Definition dropped (c c' : claim) : Prop := c' = c \/ c' = None.

Fixpoint secure {A} (p : prog A) (c : claim) (K : reactive_tables -> Prop) (Q : A -> claim -> (reactive_tables -> Prop) -> Prop) {struct p} : Prop :=
  match p with
  | Ret a => Q a c K
  | Stmt f k =>
      (forall e, exists c', dropped c c' /\ secure (k (Err e)) c' K Q) /\
      forall t t' b, tables_ok t -> K t -> claim_holds c t -> f t = Ok (t', b) ->
        tables_ok t' /\ advance t t' /\ exists c1 c' (K' : reactive_tables -> Prop), moves t t' c c1 /\ dropped c1 c' /\ stable K' /\ K' t' /\ secure (k (Ok b)) c' K' Q
  | Ask q k => forall b, exists c1 c', ask_moves q b c c1 /\ dropped c1 c' /\ secure (k b) c' K Q
  end.

Lemma secure_bind {A B} (p : prog A) (f : A -> prog B) Q Q' : forall c K, stable K -> secure p c K Q' ->
  (forall a c' K', stable K' -> Q' a c' K' -> secure (f a) c' K' Q) -> secure (prog_bind p f) c K Q.
Proof.
  induction p as [a|C s k IH|C q k IH]; intros c K Hst Hp Hf; cbn [prog_bind secure] in *.
  - by apply Hf.
  - destruct Hp as [He Hs]. split; [intros e; destruct (He e) as (c' & Hd & Hk); exists c'; split; [done|by apply IH]|]. intros t t' b Ht HK Hc Hr.
    destruct (Hs t t' b Ht HK Hc Hr) as (Ht' & Ha & c1 & c' & K' & Hm & Hd & Hst' & HK' & Hk). split_and!; [done|done|]. exists c1, c', K'. split_and!; [done..|]. by apply IH.
  - intros b. destruct (Hp b) as (c1 & c' & Hm & Hd & Hk). exists c1, c'. split_and!; [done|done|]. by apply IH.
Qed.

(** ** The invariant of a system *)

Definition claims_rep (c : claim) (rep : bytes) : bool := match c with Some (r, _) => bool_decide (r = rep) | None => false end.

(** A representation that nobody claims. *)
Definition in_step (t : reactive_tables) (l : list Registration) (rep : bytes) : Prop :=
  match commits t !! rep with
  | None => l = []
  | Some row =>
      match c_State row with
      | Committing => (length l <= 1)%nat
      | Parked | Undone => l = []
      | Committed => l = [c_Registration row]
      | Undoing => l = [] \/ l = [c_Registration row]
      end
  end.

Definition rep_ok (t : reactive_tables) (log : list reg_event) (claims : list claim) (rep : bytes) : Prop :=
  (exists i s, claims !! i = Some (Some (rep, s)) /\ claim_holds (Some (rep, s)) t /\ live log rep = stage_live s) \/
  ((forall i c, claims !! i = Some c -> claims_rep c rep = false) /\ in_step t (live log rep) rep).

Definition apart (claims : list claim) : Prop :=
  forall i j c c' rep, claims !! i = Some c -> claims !! j = Some c' -> claims_rep c rep = true -> claims_rep c' rep = true -> i = j.

Definition thread_ok (t : reactive_tables) (p : prog unit) (c : claim) : Prop :=
  exists K : reactive_tables -> Prop, stable K /\ K t /\ secure p c K (fun _ _ _ => True).

Record system_ok (y : system) (claims : list claim) : Prop := {
  so_tables : tables_ok (y_tables y);
  so_threads : Forall2 (thread_ok (y_tables y)) (y_threads y) claims;
  so_apart : apart claims;
  so_reps : forall rep, rep_ok (y_tables y) (y_log y) claims rep
}.

Lemma advance_refl t : advance t t.
Proof. by split_and!. Qed.

Lemma row_in_same t t' rep states : commits t' !! rep = commits t !! rep -> row_in t rep states -> row_in t' rep states.
Proof. intros E (c & Hc & Hs). exists c. by rewrite E. Qed.

(** A step that leaves a row, or moves it forward, is an advance. *)
Lemma advance_rows t t' : (forall rep, proposed t rep = true -> proposed t' rep = true) ->
  (forall rep c, commits t !! rep = Some c -> c_State c <> Committing -> exists c', commits t' !! rep = Some c' /\
     (c_State c' = c_State c \/ (c_State c = Committed /\ c_State c' = Undoing) \/ (c_State c = Undoing /\ c_State c' = Undone))) -> advance t t'.
Proof.
  intros Hp Hr. split_and!; [intros rep (c & Hc & Hs)|intros rep (c & Hc & Hs)|done];
    (destruct (Hr rep c Hc) as (c' & Hc' & Hm); [intros E; rewrite E in Hs; set_solver|]); exists c'; (split; [done|]);
    destruct Hm as [->|[[E ->]|[E ->]]]; rewrite ?E in Hs; try done; set_solver.
Qed.

Lemma thread_advance t t' p c : advance t t' -> thread_ok t p c -> thread_ok t' p c.
Proof. intros Ha (K & Hst & HK & Hp). exists K. split_and!; [done|by eapply Hst|done]. Qed.

Lemma claim_holds_same c t t' : (forall rep, claims_rep c rep = true -> commits t' !! rep = commits t !! rep) -> claim_holds c t -> claim_holds c t'.
Proof.
  destruct c as [[rep s]|]; [|done]. cbn. intros E (row & Hr & Hs). exists row. rewrite E; [done|]. by apply bool_decide_true.
Qed.

(** Where a move may happen. *)
Lemma moves_elsewhere t t' c c' rep : moves t t' c c' -> claims_rep c rep = false -> claims_rep c' rep = false -> commits t' !! rep = commits t !! rep.
Proof. intros Hm Hc Hc'. destruct Hm as [c E|r ? ? ? E|r ? ? E|r ? ? ? ? E|r E|r ? ? ? ? ? ? E|r ? ? E]; cbn in Hc, Hc'; bool_hyps; rewrite E; [done|by rewrite ?lookup_insert_ne, ?lookup_delete_ne by done..]. Qed.

Lemma live_app log es rep : live (log ++ es) rep = fold_left (live_step rep) es (live log rep).
Proof. apply fold_left_app. Qed.

(** What a move does to the one representation it concerns. *)
Lemma moves_here t t' c c' rep l : moves t t' c c' -> claims_rep c rep = true \/ claims_rep c' rep = true ->
  match c with Some (_, s) => claim_holds c t /\ l = stage_live s | None => in_step t l rep end ->
  claim_holds c t -> c' = c /\ commits t' = commits t \/
  match c' with Some (_, s) => claim_holds c' t' /\ l = stage_live s | None => in_step t' l rep end.
Proof.
  intros Hm Hrep Hl Hc. destruct Hm as [c E|r row Hn Hs E|r row Hs E|r row g Hs Hg E|r E|r row row' Hn Hs Hs' Hg E|r row' Hs E]; [by left|right..];
    cbn in Hrep; destruct Hrep as [Hrep|Hrep]; bool_hyps; subst; try done.
  - unfold in_step in Hl. rewrite Hn in Hl. split; [|done]. exists row. by rewrite E, lookup_insert_eq.
  - unfold in_step. rewrite E, lookup_insert_eq, Hs. by destruct Hl.
  - unfold in_step. rewrite E, lookup_insert_eq, Hs, Hg. by destruct Hl.
  - unfold in_step. rewrite E, lookup_delete_eq. by destruct Hl.
  - unfold in_step in Hl. rewrite Hn, Hs in Hl. split; [|done]. exists row'. by rewrite E, lookup_insert_eq.
  - unfold in_step. rewrite E, lookup_insert_eq, Hs. by destruct Hl.
Qed.

Lemma claims_rep_true c rep : claims_rep c rep = true <-> exists s, c = Some (rep, s).
Proof. destruct c as [[r s]|]; cbn; [|by split; [|intros (? & ?)]]. rewrite bool_decide_eq_true. split; [intros ->; by exists s|by intros (? & [= -> _])]. Qed.

(** The claim of a program is as the system has it. *)
Lemma own_claim t log claims i rep s : apart claims -> (forall rep, rep_ok t log claims rep) -> claims !! i = Some (Some (rep, s)) ->
  claim_holds (Some (rep, s)) t /\ live log rep = stage_live s.
Proof.
  intros Ha Hr Hi. destruct (Hr rep) as [(j & s' & Hj & Hh & Hl)|[Hn _]].
  - assert (i = j) as <- by (eapply Ha; [apply Hi|apply Hj|by apply bool_decide_true..]). rewrite Hi in Hj. by injection Hj as <-.
  - specialize (Hn i _ Hi). cbn in Hn. by bool_hyps.
Qed.

(** A claim that moves: the others stay apart and in step. *)
Lemma reps_move t log t' log' claims i c c' : claims !! i = Some c -> apart claims -> (forall rep, rep_ok t log claims rep) ->
  (forall rep, claims_rep c rep = false -> claims_rep c' rep = false -> commits t' !! rep = commits t !! rep /\ live log' rep = live log rep) ->
  (forall rep, claims_rep c' rep = true -> claims_rep c rep = true \/ forall j d, claims !! j = Some d -> claims_rep d rep = false) ->
  (forall rep s, c' = Some (rep, s) -> claim_holds c' t' /\ live log' rep = stage_live s) ->
  (forall rep, claims_rep c rep = true -> claims_rep c' rep = false -> in_step t' (live log' rep) rep) ->
  apart (<[i := c']> claims) /\ forall rep, rep_ok t' log' (<[i := c']> claims) rep.
Proof.
  intros Hi Ha Hr Hoff Hnew Hhold Hfree. assert (Hlen : (i < length claims)%nat) by by eapply lookup_lt_Some.
  assert (Hat : forall j d, <[i := c']> claims !! j = Some d -> (j = i /\ d = c') \/ (j <> i /\ claims !! j = Some d)).
  { intros j d Hj. apply list_lookup_insert_Some in Hj as [(-> & -> & _)|(? & ?)]; [by left|right; by split]. }
  split.
  - intros j1 j2 d1 d2 rep [[-> ->]|[H1 E1]]%Hat [[-> ->]|[H2 E2]]%Hat C1 C2; [done| | |by eapply Ha].
    + destruct (Hnew rep C1) as [C|C]; [by eapply Ha|]. by rewrite (C j2 d2 E2) in C2.
    + destruct (Hnew rep C2) as [C|C]; [by eapply Ha|]. by rewrite (C j1 d1 E1) in C1.
  - intros rep. destruct (claims_rep c' rep) eqn:Ec'.
    { apply claims_rep_true in Ec' as [s ->]. left. exists i, s. split; [by apply list_lookup_insert_eq|by apply Hhold]. }
    destruct (claims_rep c rep) eqn:Ec.
    + right. split; [|by apply Hfree]. intros j d [[-> ->]|[Hj E]]%Hat; [done|]. destruct (claims_rep d rep) eqn:Ed; [|done]. destruct Hj. by eapply Ha.
    + destruct (Hoff rep Ec Ec') as [Hrow Hlive]. destruct (Hr rep) as [(j & s & Hj & Hh & Hl)|[Hn Hu]].
      * left. assert (j <> i) by (intros E; rewrite E, Hi in Hj; injection Hj as ->; cbn in Ec; by bool_hyps).
        exists j, s. split; [by rewrite list_lookup_insert_ne|]. split; [|by rewrite Hlive]. eapply claim_holds_same; [|apply Hh].
        intros r Hrr. apply claims_rep_true in Hrr as [? [= <- _]]. done.
      * right. split; [|unfold in_step in *; by rewrite Hrow, Hlive]. intros j d [[-> ->]|[Hj E]]%Hat; [done|by eapply Hn].
Qed.

Lemma unclaimed_row t log claims rep row : rep_ok t log claims rep -> commits t !! rep = Some row -> c_State row <> Committing -> c_State row <> Undoing ->
  (forall j d, claims !! j = Some d -> claims_rep d rep = false) /\ in_step t (live log rep) rep.
Proof.
  intros [(j & s & Hj & (row' & Hr & Hs & _) & _)|H] Hrow H1 H2; [|done]. rewrite Hr in Hrow. injection Hrow as ->. destruct s; by rewrite Hs in H1, H2.
Qed.

Lemma unclaimed_none t log claims rep : rep_ok t log claims rep -> commits t !! rep = None ->
  (forall j d, claims !! j = Some d -> claims_rep d rep = false) /\ in_step t (live log rep) rep.
Proof. intros [(j & s & Hj & (row' & Hr & _) & _)|H] Hrow; [by rewrite Hr in Hrow|done]. Qed.

(** A statement under a claim. *)
Lemma reps_stmt t t' log claims i c c' : claims !! i = Some c -> apart claims -> (forall rep, rep_ok t log claims rep) -> moves t t' c c' ->
  apart (<[i := c']> claims) /\ forall rep, rep_ok t' log (<[i := c']> claims) rep.
Proof.
  intros Hi Ha Hr Hm.
  assert (Hown : forall rep s, c = Some (rep, s) -> claim_holds c t /\ live log rep = stage_live s) by (intros rep s ->; by eapply own_claim).
  assert (Hnew : c = None -> forall rep, claims_rep c' rep = true -> (forall j d, claims !! j = Some d -> claims_rep d rep = false) /\ in_step t (live log rep) rep).
  { intros -> rep Hc'. apply claims_rep_true in Hc' as [s ->]. inversion Hm; subst; (by eapply unclaimed_none) || (eapply unclaimed_row; [apply Hr|done|congruence..]). }
  assert (Hhere : forall rep, claims_rep c rep = true \/ claims_rep c' rep = true -> c' = c /\ commits t' = commits t \/
    match c' with Some (_, s) => claim_holds c' t' /\ live log rep = stage_live s | None => in_step t' (live log rep) rep end).
  { intros rep Hc. apply (moves_here t t' c c' rep (live log rep) Hm Hc).
    - destruct c as [[r s]|]; [|apply Hnew; [done|by destruct Hc]]. destruct (Hown r s eq_refl). split; [done|].
      destruct Hc as [Hc|Hc]; [cbn in Hc; bool_hyps; by subst|]. apply claims_rep_true in Hc as [s' ->]. inversion Hm; subst. done.
    - destruct c as [[r s]|]; [|done]. by apply (Hown r s). }
  eapply reps_move; [done..| | | |].
  - intros rep E E'. split; [by eapply moves_elsewhere|done].
  - intros rep E'. destruct c as [[r s]|]; [|right; by apply Hnew]. left. apply claims_rep_true in E' as [s' ->]. inversion Hm; subst. by apply bool_decide_true.
  - intros rep s ->. destruct (Hhere rep) as [[<- E]|H]; [right; by apply bool_decide_true| |done].
    destruct (Hown rep s eq_refl) as [Hh Hl]. split; [|done]. eapply claim_holds_same; [|apply Hh]. intros; by rewrite E.
  - intros rep E E'. destruct (Hhere rep) as [[-> _]|H]; [by left|congruence|]. destruct c' as [[r s]|]; [|done].
    apply claims_rep_true in E as [s0 ->]. inversion Hm; subst. cbn in E'. by bool_hyps.
Qed.

(** ** Every step keeps it *)

Lemma pending_ok_advance t t' rep n : advance t t' -> pending_ok t rep n -> pending_ok t' rep n.
Proof. intros (Hd & Hu & _) []. split; [done..| |]; auto. Qed.

Lemma CreateProposal_ok t p t' b : tables_ok t -> CreateProposal t p = Ok (t', b) ->
  tables_ok t' /\ advance t t' /\ commits t' = commits t.
Proof.
  intros [Hp Hc Hv] H. unfold CreateProposal in H. destruct (CreatePlaybackProposal (coverage t) p) as [[cov []]|] eqn:E; [|injection H as <- _|done].
  2: { split_and!; [done|apply advance_refl|done]. }
  destruct (pending t !! pr_RepresentationID p) eqn:Ep; [done|]. injection H as <- _.
  assert (Hprop : forall rep, proposed (MkTables cov (commits t) (pending t) (assignments t) (events t) (next_event t)) rep = proposed t rep || bool_decide (pr_RepresentationID p = rep)).
  { intros rep. unfold CreatePlaybackProposal in E. destruct (_ || _); [done|]. destruct (existsb _ _) eqn:Ex; [done|]. injection E as <-.
    unfold proposed, GetPlaybackProposal. cbn [coverage playback_proposals]. induction (playback_proposals (coverage t)) as [|q l IH]; cbn [app find].
    - cbn. by case_bool_decide.
    - cbn [existsb] in Ex. apply orb_false_iff in Ex as [_ Ex]. destruct (bool_decide (pr_RepresentationID q = rep)); [done|]. by apply IH. }
  assert (Ha : advance t (MkTables cov (commits t) (<[pr_RepresentationID p := fresh_pending (pr_RepresentationID p) (pr_ItemID p) SupervisedReview (pr_CreatedAt p) (pr_CreatedAt p)]> (pending t)) (assignments t) (events t) (next_event t))).
  { apply advance_rows; [|intros rep c Hr _; exists c; split; [done|by left]]. intros rep Hr. change (proposed (MkTables cov (commits t) (pending t) (assignments t) (events t) (next_event t)) rep = true). by rewrite Hprop, Hr. }
  split_and!; [|done|done]. split.
  - intros rep n Hn. cbn [pending] in Hn. apply lookup_insert_Some in Hn as [[<- <-]|[Hne Hn]].
    + split; [by split|]. change (proposed (MkTables cov (commits t) (pending t) (assignments t) (events t) (next_event t)) (pr_RepresentationID p) = true).
      rewrite Hprop, bool_decide_true by done. apply orb_true_r.
    + destruct (Hp rep n Hn) as [Ho Hr]. split; [by eapply pending_ok_advance|by apply Ha].
  - intros rep c Hr. destruct (Hc rep c Hr). split; [done|by apply Ha].
  - intros rep Hr. change (proposed (MkTables cov (commits t) (pending t) (assignments t) (events t) (next_event t)) rep = true) in Hr.
    rewrite Hprop in Hr. apply orb_true_iff in Hr as [Hr|Hr]; [by apply Hv|]. bool_hyps. subst. unfold CreatePlaybackProposal in E.
    destruct (ValidateRepresentationID _); [done|done].
Qed.

(** What the registrar is asked moves its record and the claim together. *)
Lemma reps_ask {B} (q : ask B) b t log claims i c c' : claims !! i = Some c -> apart claims -> (forall rep, rep_ok t log claims rep) -> ask_moves q b c c' ->
  apart (<[i := c']> claims) /\ forall rep, rep_ok t (log ++ record_ask q b) (<[i := c']> claims) rep.
Proof.
  intros Hi Ha Hr Hm.
  assert (Hsame : c' = c -> (forall rep, live (log ++ record_ask q b) rep = live log rep) ->
    apart (<[i := c']> claims) /\ forall rep, rep_ok t (log ++ record_ask q b) (<[i := c']> claims) rep).
  { intros -> Hl. rewrite (list_insert_id claims i c) by done. split; [done|]. intros rep. destruct (Hr rep) as [(j & s & ? & ? & ?)|[? ?]]; [left; exists j, s; by rewrite Hl|right; by rewrite Hl]. }
  assert (Hmove : forall rep s s', c = Some (rep, s) -> c' = Some (rep, s') -> stage_state s = stage_state s' ->
    match s' with Undoes _ => False | _ => True end ->
    live (log ++ record_ask q b) rep = stage_live s' -> (forall r, r <> rep -> live (log ++ record_ask q b) r = live log r) ->
    apart (<[i := c']> claims) /\ forall rep, rep_ok t (log ++ record_ask q b) (<[i := c']> claims) rep).
  { intros rep s s' -> -> Hst Hu Hl Hoff. destruct (own_claim t log claims i rep s Ha Hr Hi) as [(row & Hrow & Hs & _) _].
    eapply reps_move; [done..| | | |].
    - intros r E _. split; [done|]. apply Hoff. cbn in E. by bool_hyps.
    - intros r E. by left.
    - intros r s0 [= <- <-]. split; [|done]. exists row. split_and!; [done|by rewrite Hs|by destruct s'].
    - intros r E E'. cbn in E, E'. by rewrite E in E'. }
  destruct q; cbn [ask_moves record_ask] in *; try (apply Hsame; [done|intros; by rewrite app_nil_r]).
  - destruct Hm as [-> ->]. destruct (own_claim t log claims i rep Fresh Ha Hr Hi) as [_ Hl]. destruct b as [g|e].
    + eapply (Hmove rep Fresh (Held g)); [done..| |].
      * rewrite live_app, Hl. cbn. by rewrite bool_decide_true.
      * intros r Hne. rewrite live_app. cbn. by rewrite bool_decide_false.
    + apply Hsame; [done|]. intros r. by rewrite live_app.
  - assert (Hoff : forall r, r <> rep -> live (log ++ [UndoAsked rep g]) r = live log r) by (intros r Hne; rewrite live_app; cbn; by rewrite bool_decide_false).
    destruct Hm as [[-> ->]|[-> ->]]; destruct (own_claim t log claims i rep _ Ha Hr Hi) as [_ Hl].
    + eapply (Hmove rep (Held g) Fresh); try done. rewrite live_app, Hl. cbn [fold_left live_step stage_live]. rewrite bool_decide_true by done. rewrite filter_cons_False; [done|]. by intros [_ ?].
    + eapply (Hmove rep (Undoes g) Cleared); try done. rewrite live_app, Hl. cbn [fold_left live_step stage_live]. rewrite bool_decide_true by done. rewrite filter_cons_False; [done|]. by intros [? _].
Qed.

Context (entries_secure : forall p, entry p -> secure p None (fun _ => True) (fun _ _ _ => True)).

Lemma unclaimed_weaker t log rep s : claim_holds (Some (rep, s)) t -> live log rep = stage_live s -> in_step t (live log rep) rep.
Proof.
  intros (row & Hr & Hs & Hg) Hl. unfold in_step. rewrite Hr, Hs, Hl. destruct s; cbn; [lia|lia|right; by rewrite Hg|by left].
Qed.

Lemma reps_drop t log claims i c c' : claims !! i = Some c -> apart claims -> (forall rep, rep_ok t log claims rep) -> dropped c c' ->
  apart (<[i := c']> claims) /\ forall rep, rep_ok t log (<[i := c']> claims) rep.
Proof.
  intros Hi Ha Hr [->| ->]; [by rewrite list_insert_id|]. eapply reps_move; try done. intros rep [s ->]%claims_rep_true _.
  destruct (own_claim t log claims i rep s Ha Hr Hi). by eapply unclaimed_weaker.
Qed.

Lemma reps_drop_at t log claims i c0 c c' : claims !! i = Some c0 -> apart (<[i := c]> claims) -> (forall rep, rep_ok t log (<[i := c]> claims) rep) -> dropped c c' ->
  apart (<[i := c']> claims) /\ forall rep, rep_ok t log (<[i := c']> claims) rep.
Proof.
  intros Hi Ha Hr Hd. rewrite <- (list_insert_insert_eq claims i c' c). apply (reps_drop t log _ i c c'); [|done..].
  apply list_lookup_insert_eq. by eapply lookup_lt_Some.
Qed.

Lemma threads_insert t t' ths claims i p c : advance t t' -> Forall2 (thread_ok t) ths claims -> thread_ok t' p c ->
  Forall2 (thread_ok t') (<[i := p]> ths) (<[i := c]> claims).
Proof. intros Ha Hf Hp. apply Forall2_insert; [|done]. eapply Forall2_impl; [done|]. intros; by eapply thread_advance. Qed.

(** A representation that nobody claims and whose row is not committed stays so: nobody can
    claim it, and the registrar is not asked about it. *)
Definition unclaimed (claims : list claim) (rep : bytes) : Prop := forall j d, claims !! j = Some d -> claims_rep d rep = false.
Definition about (rep : bytes) (log : list reg_event) : list reg_event := filter (fun e => rep_of_event e = rep) log.
Definition settled (t t' : reactive_tables) (log log' : list reg_event) (claims claims' : list claim) : Prop :=
  forall rep row, unclaimed claims rep -> commits t !! rep = Some row -> c_State row <> Committed ->
    unclaimed claims' rep /\ commits t' !! rep = Some row /\ about rep log' = about rep log.

Lemma unclaimed_insert claims i c rep : unclaimed claims rep -> claims_rep c rep = false -> unclaimed (<[i := c]> claims) rep.
Proof. intros Hu Hc j d [(_ & -> & _)|[_ Hj]]%list_lookup_insert_Some; [done|by eapply Hu]. Qed.

Lemma dropped_rep c c' rep : dropped c c' -> claims_rep c rep = false -> claims_rep c' rep = false.
Proof. by intros [->| ->]. Qed.

Lemma settled_stmt t t' log claims i c c1 c' : claims !! i = Some c -> moves t t' c c1 -> dropped c1 c' -> settled t t' log log claims (<[i := c']> claims).
Proof.
  intros Hi Hm Hd rep row Hu Hr Hs. specialize (Hu i c Hi) as Hc. assert (H1 : claims_rep c1 rep = false).
  { destruct (claims_rep c1 rep) eqn:E; [|done]. apply claims_rep_true in E as [s ->]. inversion Hm; subst; cbn in Hc; try (by rewrite bool_decide_true in Hc); congruence. }
  split_and!; [apply unclaimed_insert; [done|by eapply dropped_rep]| |done]. by rewrite (moves_elsewhere _ _ _ _ rep Hm Hc H1).
Qed.

Lemma about_app rep l l' : about rep (l ++ l') = about rep l ++ about rep l'.
Proof. apply filter_app. Qed.

Lemma settled_ask {B} (q : ask B) b t log claims i c c1 c' : claims !! i = Some c -> ask_moves q b c c1 -> dropped c1 c' ->
  settled t t log (log ++ record_ask q b) claims (<[i := c']> claims).
Proof.
  intros Hi Hm Hd rep row Hu Hr Hs. specialize (Hu i c Hi) as Hc. rewrite about_app.
  assert (H : claims_rep c1 rep = false /\ about rep (record_ask q b) = []).
  { destruct q; cbn [ask_moves record_ask] in *; try (by subst).
    - destruct Hm as [-> ->]. cbn in Hc. bool_hyps. unfold about. rewrite filter_cons_False by done. split; [destruct b; cbn; by rewrite bool_decide_false|done].
    - unfold about. destruct Hm as [[-> ->]|[-> ->]]; cbn in Hc; bool_hyps; (rewrite filter_cons_False by done); cbn; by rewrite bool_decide_false. }
  destruct H as [H1 ->]. rewrite app_nil_r. split_and!; [apply unclaimed_insert; [done|by eapply dropped_rep]|done|done].
Qed.

Lemma settled_same t t' log claims claims' : (forall rep, unclaimed claims rep -> unclaimed claims' rep) -> commits t' = commits t -> settled t t' log log claims claims'.
Proof. intros Hu E rep row H Hr Hs. split_and!; [by apply Hu|by rewrite E|done]. Qed.

Lemma system_step x y claims : system_ok x claims -> step x y ->
  exists claims', system_ok y claims' /\ settled (y_tables x) (y_tables y) (y_log x) (y_log y) claims claims'.
Proof.
  intros [Ht Hf Ha Hr] Hs. destruct Hs as [i t log ths B f k t' b Hi E|i t log ths B f k e Hi|i t log ths B q k b Hi|t log ths p Hp|t log ths p t' b E|t log ths];
    cbn [y_tables y_log y_threads] in *.
  - destruct (Forall2_lookup_l _ _ _ _ _ Hf Hi) as (c & Hc & K & Hst & HK & Hp). cbn [secure] in Hp. destruct Hp as [_ Hp].
    destruct (Hp t t' b Ht HK) as (Ht' & Hadv & c1 & c' & K' & Hm & Hd & Hst' & HK' & Hk); [|done|].
    { destruct c as [[rep s]|]; [|done]. by apply (own_claim t log claims i). }
    destruct (reps_stmt t t' log claims i c c1 Hc Ha Hr Hm) as [Ha1 Hr1].
    destruct (reps_drop_at t' log claims i c c1 c' Hc Ha1 Hr1 Hd) as [Ha' Hr']. exists (<[i := c']> claims). split; [|by eapply settled_stmt]. split; [done| |done|done].
    apply (threads_insert t); [done|done|]. by exists K'.
  - destruct (Forall2_lookup_l _ _ _ _ _ Hf Hi) as (c & Hc & K & Hst & HK & Hp). destruct (proj1 Hp e) as (c' & Hd & Hk).
    destruct (reps_drop t log claims i c c' Hc Ha Hr Hd) as [Ha' Hr']. exists (<[i := c']> claims). split; [|by apply (settled_stmt _ _ _ _ _ c c); [|apply m_same|]]. split; [done| |done|done]. cbn.
    apply (threads_insert t); [apply advance_refl|done|]. by exists K.
  - destruct (Forall2_lookup_l _ _ _ _ _ Hf Hi) as (c & Hc & K & Hst & HK & Hp). destruct (Hp b) as (c1 & c' & Hm & Hd & Hk).
    destruct (reps_ask q b t log claims i c c1 Hc Ha Hr Hm) as [Ha1 Hr1].
    destruct (reps_drop_at t _ claims i c c1 c' Hc Ha1 Hr1 Hd) as [Ha' Hr'].
    exists (<[i := c']> claims). split; [|by eapply settled_ask]. split; [done| |done|done].
    apply (threads_insert t); [apply advance_refl|done|]. by exists K.
  - exists (claims ++ [None]). split; [|by apply settled_same; [intros rep H j d [[_ Hj]|[_ <-]]%lookup_snoc_Some; [by eapply H|]|]]. split; [done| | |]; cbn.
    + apply Forall2_app; [done|]. repeat constructor. exists (fun _ => True). split_and!; [done|done|by apply entries_secure].
    + intros j1 j2 c1 c2 rep [[_ E1]|[-> <-]]%lookup_snoc_Some [[_ E2]|[-> <-]]%lookup_snoc_Some C1 C2; try done. by eapply Ha.
    + intros rep. destruct (Hr rep) as [(j & s & Hj & H)|[Hn Hu]]; [left; exists j, s; split; [by apply lookup_app_l_Some|done]|].
      right. split; [|done]. intros j c [[_ Hj]|[-> <-]]%lookup_snoc_Some; [by eapply Hn|done].
  - destruct (CreateProposal_ok t p t' b Ht E) as (Ht' & Hadv & Hc). exists claims. split; [|by apply settled_same]. split; [done| |done|]; cbn.
    + eapply Forall2_impl; [done|]. intros; by eapply thread_advance.
    + intros rep. destruct (Hr rep) as [(j & s & Hj & Hh & Hl)|[Hn Hu]]; [left; exists j, s; split_and!; [done| |done]; eapply claim_holds_same; [|apply Hh]; by rewrite Hc|].
      right. split; [done|]. unfold in_step in *. by rewrite Hc.
  - exists []. split; [|by apply settled_same]. split; [done|constructor|by intros ? ? ? ? ? ?|]. cbn. intros rep. right. split; [done|].
    destruct (Hr rep) as [(j & s & Hj & Hh & Hl)|[_ Hu]]; [by eapply unclaimed_weaker|done].
Qed.

Lemma reached_claims x : reached x -> exists claims, system_ok x claims.
Proof.
  induction 1 as [|x y _ [claims Hx] Hs]; [|destruct (system_step x y claims Hx Hs) as (claims' & ? & _); by exists claims']. exists []. split; cbn.
  - split; cbn [pending commits no_tables]; [by intros ? ? ?%lookup_empty_Some|by intros ? ? ?%lookup_empty_Some|done].
  - constructor.
  - by intros ? ? ? ? ? ?.
  - intros rep. right. split; [done|]. unfold in_step. cbn. by rewrite lookup_empty.
Qed.
End System.
