(* ===== verification/ReactiveCommit.v ===== *)
(** The commit of a proposal and its undoing: internal/reactivecommit/reactivecommit.go over
    internal/store/reactive_commits.go.

    [Commit] claims a row for the proposal, classifies what is known of the release, and
    either parks it or has the registrar import it and completes the row; any failure after
    the claim removes the row again.  [Undo] goes the other way.  The registrar, the clock,
    the items and the ledgers of content are questions; patterns over titles are those of
    the identity check.  The context of the cleanup is a context of its own, which the model
    does not distinguish: a statement may fail at any time. *)

From Stdlib Require Import ZArith Lia.
From stdpp Require Import base list numbers strings gmap sets.
From S2P Require Import Prelude Outcome PlaybackCoverage SearchBudget ContentProof Continuity IdentityCheck ReactiveStore ReactiveLogic.

Local Open Scope Z_scope.
Local Open Scope harbor_scope.
Local Open Scope prog_scope.

Definition ErrReactiveNoRecommit : goerror := errors_New (str "store: reactive item was undone").
Definition joined (es : list goerror) : goerror := Error (TPlain (str "joined")) es.
Definition wrapped (s : string) (e : goerror) : goerror := Error (TPlain (str s)) [e].

Definition MaxEpisodes : Z := 256.

Record Service := MkService { monitorEp : bool; monitorMv : bool }.

Record Request := MkRequest { rq_RepresentationID : bytes; rq_Mode : commit_mode; rq_TargetName : bytes; rq_RootFolder : bytes; rq_QualityProfile : Z }.

Inductive result_state : Type := StateCommitted | StateParked | StatePending | StateResolved | StateUndone | StateOther (s : bytes).
#[export] Instance result_state_eq_dec : EqDecision result_state.
Proof. solve_decision. Defined.

Record Result := MkResult { State : result_state; rs_ReviewRequired : bool; rs_Reason : bytes }.

(** The two reads of a proposal and of a row, as statements. *)
Definition get_proposal (rep : bytes) : prog (result goerror (option Proposal)) :=
  stmt (fun t => Ok (t, GetPlaybackProposal (coverage t) rep)).

Section Commit.
Context (FindYears : bytes -> list Z) (MatchString : string -> bytes -> bool).

(** ** The store's composed operations *)

Definition valid_begin (rep item file : bytes) (mode : commit_mode) (now : Z) : bool :=
  negb (bool_decide (rep = []) || bool_decide (item = []) || bool_decide (file = []) ||
        match mode with ModeOther _ => true | _ => false end || (now =? 0)).

(** The decision after the row was read back; no row is the zero record. *)
Definition begin_decision (created : bool) (item file : bytes) (mode : commit_mode) (row : option ReactiveCommit)
    : result goerror (option ReactiveCommit * bool) :=
  match row with
  | None => Ok (None, false)
  | Some record =>
      if bool_decide (c_State record = Undone) || bool_decide (c_State record = Undoing) then Err ErrReactiveNoRecommit
      else if negb (bool_decide (c_ItemID record = item)) || negb (bool_decide (c_FileID record = file)) then fail "store: conflicting reactive commit"
      else if bool_decide (c_State record = Committed) || bool_decide (c_State record = Parked) then Ok (Some record, false)
      else if negb (bool_decide (c_Mode record = mode)) then fail "store: conflicting reactive commit"
      else Ok (Some record, created)
  end.

Definition BeginReactiveCommit (rep item file : bytes) (mode : commit_mode) (now : Z) : prog (result goerror (option ReactiveCommit * bool)) :=
  if negb (valid_begin rep item file mode now) then Ret (fail "store: invalid reactive commit")
  else
    get! created := stmt (insert_commit rep item file mode now) or (fun err => Err (wrapped "store: begin reactive commit" err)) in
    get! row := stmt (GetReactiveCommit rep) or Err in
    Ret (begin_decision created item file mode row).

Definition BeginReactiveUndo (rep : bytes) (now : Z) : prog (result goerror (option ReactiveCommit)) :=
  get! n := stmt (undo_row rep now) or Err in
  get! row := stmt (GetReactiveCommit rep) or Err in
  if n =? 0 then
    match row with
    | Some r => if bool_decide (c_State r = Undone) then Ret (Ok (Some r)) else Ret (fail "store: reactive commit cannot undo")
    | None => Ret (fail "store: reactive commit cannot undo")
    end
  else Ret (Ok row).

(** ** Classification *)

(** The first reason a release contradicts its identity; for a series, episode by episode. *)
Fixpoint verify_episodes (id : ProviderIdentity) (title : bytes) (facts : option Facts) (eps : list EpisodeProviderIDs) : option Reason :=
  match eps with
  | [] => None
  | ep :: eps =>
      match Verify FindYears MatchString (Some id) title (e_Season ep) (e_Episode ep) facts [] with
      | r :: _ => Some r
      | [] => verify_episodes id title facts eps
      end
  end.

Definition identity_mismatch (id : ProviderIdentity) (title : bytes) (facts : option Facts) : option Reason :=
  if bool_decide (SearchBudget.Kind id = str "series") && negb (bool_decide (length (Episodes id) = 0%nat)) then verify_episodes id title facts (Episodes id)
  else match Verify FindYears MatchString (Some id) title 0 0 facts [] with r :: _ => Some r | [] => None end.

Definition probe_of (proposal : Proposal) (item : Item) : option Facts :=
  if negb (bool_decide (i_MediaFactsFileID item = [])) && negb (bool_decide (i_MediaFactsFileID item = pr_FileID proposal)) then None
  else i_MediaFacts item.

Definition strong_proof (e : Evidence) : bool :=
  bool_decide (e_Kind e = KindAuthoritative) &&
  match e_Provenance e with ProvenancePAR2IFSC | ProvenanceHTTPDigest | ProvenanceTorrentMerkle | ProvenanceIADigest => true | _ => false end.

(** The reason to park, which may be empty, and whether the evidence is strong. *)
Definition classify (id : ProviderIdentity) (proposal : Proposal) (item : Item) : prog (result goerror (bytes * bool)) :=
  match identity_mismatch id (i_DisplayName item) (probe_of proposal item) with
  | Some r => Ret (Ok (str "identity_" ++ reason_text r, false))
  | None =>
      get! continuity := question (AskContinuity (pr_RepresentationID proposal)) or Err in
      if existsb (fun e => bool_decide (ce_Relation e = ContinuityConflict)) continuity then Ret (Ok (str "continuity_conflict", false))
      else
        do! now := question Now in
        get! proofs := question (AskProofs [pr_RepresentationID proposal] now) or Err in
        Ret (Ok ([], existsb strong_proof proofs))
  end.

(** ** The commit *)

Definition not_empty (p : option bytes) : option bytes := match p with Some [] => None | _ => p end.

(** What the record becomes with its registration. *)
Definition completed (r : ReactiveCommit) (g : Registration) (strong : bool) : ReactiveCommit :=
  MkCommit (c_RepresentationID r) (c_ItemID r) (c_FileID r) (c_State r) (c_Mode r) (negb strong)
    (if strong then c_Reason r else str "weak_evidence") g (c_CreatedAt r) (c_UpdatedAt r).

(** The part of [Commit] that its cleanup covers. *)
Definition attempt (s : Service) (req : Request) (proposal : Proposal) (record : ReactiveCommit) : prog (result goerror Result) :=
  let rep := pr_RepresentationID proposal in
  get! item := question (GetItemByID (pr_ItemID proposal)) or Err in
  match item with
  | None => Ret (fail "reactivecommit: incomplete proposal identity or output")
  | Some item =>
      match not_empty (i_StrmPath item), i_ProviderIdentity item with
      | Some path, Some identity =>
          if MaxEpisodes <? Z.of_nat (length (Episodes identity)) then Ret (fail "reactivecommit: episode bound exceeded")
          else
            guard! question (StatFile path) or (fun err => Err (wrapped "reactivecommit: committed source unavailable" err)) in
            get! (reason, strong) := classify identity proposal item or Err in
            if negb (bool_decide (reason = [])) then
              do! now := question Now in
              get! _ := stmt (ParkReactiveCommit rep reason now) or Err in
              Ret (Ok (MkResult StateParked false reason))
            else
              get! g := question (RegCommit rep (MkCommitRequest identity path (rq_TargetName req) (rq_RootFolder req) (rq_QualityProfile req)
                                    (monitorEp s) (monitorMv s))) or Err in
              let record := completed record g strong in
              do! now := question Now in
              do! done := stmt (CompleteReactiveCommit record now) in
              match done with
              | Err err => do! _ := question (RegUndo rep g) in Ret (Err err)
              | Ok _ => Ret (Ok (MkResult StateCommitted (c_ReviewRequired record) (c_Reason record)))
              end
      | _, _ => Ret (fail "reactivecommit: incomplete proposal identity or output")
      end
  end.

Definition Commit (s : Service) (req : Request) : prog (result goerror Result) :=
  guard! question CtxErr or Err in
  if bool_decide (rq_RepresentationID req = []) || match rq_Mode req with ModeOther _ => true | _ => false end
  then Ret (fail "reactivecommit: invalid request")
  else
    get! proposal := get_proposal (rq_RepresentationID req) or Err in
    match proposal with
    | None => Ret (fail "reactivecommit: proposal not found")
    | Some proposal =>
        let rep := pr_RepresentationID proposal in
        do! now := question Now in
        get! (record, created) := BeginReactiveCommit rep (pr_ItemID proposal) (pr_FileID proposal) (rq_Mode req) now or Err in
        match record with
        | None => Ret (fail "reactivecommit: commit already in progress")
        | Some record =>
            if bool_decide (c_State record = Committed) || bool_decide (c_State record = Parked) then
              Ret (Ok (MkResult (if bool_decide (c_State record = Committed) then StateCommitted else StateParked)
                         (c_ReviewRequired record) (c_Reason record)))
            else if negb created then Ret (fail "reactivecommit: commit already in progress")
            else
              do! res := attempt s req proposal record in
              match res with
              | Ok res => Ret (Ok res)
              | Err err =>
                  do! aborted := stmt (AbortReactiveCommit rep) in
                  Ret (Err (joined (err :: match aborted with Err e => [e] | Ok _ => [] end)))
              end
        end
    end.

(** ** Undo *)

(** The record of no row. *)
Definition zero_commit : ReactiveCommit := MkCommit [] [] [] Committing (ModeOther []) false [] no_registration 0 0.

Definition Undo (rep : bytes) : prog (option goerror) :=
  if bool_decide (rep = []) then Ret (Some (errors_New (str "reactivecommit: empty representation")))
  else
    do! now := question Now in
    get! row := BeginReactiveUndo rep now or Some in
    let record := default zero_commit row in
    if bool_decide (c_State record = Undone) then Ret None
    else
      guard! question (RegUndo rep (c_Registration record)) or Some in
      get! item := question (GetItemByID (c_ItemID record)) or Some in
      guard! question (RemoveCommitted item) or Some in
      do! now := question Now in
      do! done := stmt (CompleteReactiveUndo rep now) in
      Ret (match done with Err err => Some err | Ok _ => None end).

End Commit.

(** ** The statements *)

Lemma advance_same t t' : commits t' = commits t -> coverage t' = coverage t -> advance t t'.
Proof.
  intros Ec Ev. unfold advance, row_done, row_undone, row_in, proposed. by rewrite Ec, Ev.
Qed.

Lemma pending_ok_same t t' rep n : commits t' = commits t -> coverage t' = coverage t -> pending_ok t rep n -> pending_ok t' rep n.
Proof. intros. eapply pending_ok_advance; [by apply advance_same|done]. Qed.

Lemma tables_ok_pending t p : tables_ok t -> (forall rep n, p !! rep = Some n -> pending_ok t rep n /\ proposed t rep = true) -> tables_ok (set_pending t p).
Proof.
  intros [_ Hc Hv] Hp. split; [|exact Hc|exact Hv]. intros rep n Hn. destruct (Hp rep n Hn). split; [|done]. by apply (pending_ok_same t).
Qed.

Lemma fresh_pending_ok t rep item reason created updated : validPendingReason reason = true -> pending_ok t rep (fresh_pending rep item reason created updated).
Proof. intros. by split. Qed.

(** The tables but for the events. *)
Lemma append_event_same t kind mode outcome n at_ t' : appendReactiveEvent t kind mode outcome n at_ = Ok t' ->
  coverage t' = coverage t /\ commits t' = commits t /\ pending t' = pending t.
Proof. unfold appendReactiveEvent. destruct (_ || _); [done|]. by intros [= <-]. Qed.

Lemma tables_ok_same t t' : coverage t' = coverage t -> commits t' = commits t -> pending t' = pending t -> tables_ok t -> tables_ok t'.
Proof.
  intros Ev Ec Ep [Hp Hc Hv]. split.
  - intros rep n Hn. rewrite Ep in Hn. destruct (Hp rep n Hn). split; [by apply (pending_ok_same t)|]. unfold proposed in *. by rewrite Ev.
  - intros rep c Hr. rewrite Ec in Hr. destruct (Hc rep c Hr). unfold proposed in *. by rewrite Ev.
  - intros rep. unfold proposed in *. rewrite Ev. apply Hv.
Qed.

Lemma reopen_ok t c reason : tables_ok t -> validPendingReason reason = true ->
  tables_ok (reopen t c reason) /\ commits (reopen t c reason) = commits t /\ coverage (reopen t c reason) = coverage t.
Proof.
  intros Ht Hv. unfold reopen. destruct (proposed t (c_RepresentationID c)) eqn:Ep; cbn [negb]; [|done]. split_and!; [|done|done].
  apply tables_ok_pending; [done|]. intros rep n [[<- <-]|[_ Hn]]%lookup_insert_Some; [|by apply Ht]. split; [|done].
  destruct (pending t !! c_RepresentationID c); [by split|by apply fresh_pending_ok].
Qed.

(** Where a row may go: it completes, or it moves on to being undone. *)
Definition moves_on (a b : commit_state) : Prop := a = Committing \/ (a = Committed /\ b = Undoing) \/ (a = Undoing /\ b = Undone).

Lemma update_commit_ok t c c0 : tables_ok t -> commits t !! c_RepresentationID c = Some c0 -> moves_on (c_State c0) (c_State c) ->
  let t' := update_commit t c in tables_ok t' /\ advance t t' /\ commits t' = <[c_RepresentationID c := c]> (commits t).
Proof.
  intros Ht Hr Hm. set (rep := c_RepresentationID c) in *. set (t1 := set_commits t (<[rep := c]> (commits t))).
  assert (Ha : advance t t1).
  { apply advance_rows; [done|]. intros r row Hrow Hne. destruct (decide (r = rep)) as [->|Hn]; [|exists row; split; [by apply lookup_insert_Some; right|by left]].
    exists c. split; [by apply lookup_insert_eq|]. rewrite Hr in Hrow. injection Hrow as <-. destruct Hm as [?|[?|?]]; [done|by right; left|by right; right]. }
  assert (Ht1 : tables_ok t1).
  { split.
    - intros r n Hn. destruct (to_pending _ Ht r n Hn) as [Ho Hp]. split; [by eapply pending_ok_advance|done].
    - intros r row Hrow. change (<[rep := c]> (commits t) !! r = Some row) in Hrow. apply lookup_insert_Some in Hrow as [[<- <-]|[_ Hrow]]; [split; [done|apply (to_commits _ Ht rep c0 Hr)]|by apply (to_commits _ Ht)].
    - exact (to_valid _ Ht). }
  cbv zeta. assert (Hre : forall reason, validPendingReason reason = true -> tables_ok (reopen t1 c reason) /\ advance t (reopen t1 c reason) /\ commits (reopen t1 c reason) = <[rep := c]> (commits t)).
  { intros reason Hv. destruct (reopen_ok t1 c reason Ht1 Hv) as (H1 & H2 & H3). split_and!; [done| |by rewrite H2].
    destruct (advance_same t1 (reopen t1 c reason) H2 H3) as (A1 & A2 & A3), Ha as (B1 & B2 & B3). split_and!; auto. }
  unfold update_commit. fold rep t1. destruct (c_State c); [done|by apply Hre| |done|done]. destruct (c_ReviewRequired c); [by apply Hre|done].
Qed.

Lemma insert_commit_ok rep item file mode now t t' b : tables_ok t -> proposed t rep = true -> insert_commit rep item file mode now t = Ok (t', b) ->
  tables_ok t' /\ advance t t' /\
  if b then exists row, commits t !! rep = None /\ c_State row = Committing /\ commits t' = <[rep := row]> (commits t) else t' = t.
Proof.
  intros Ht Hp H. unfold insert_commit in H. destruct (commits t !! rep) eqn:E; injection H as <- <-; [by split_and!|].
  set (row := MkCommit rep item file Committing mode false [] no_registration now now). set (t1 := set_commits t _).
  assert (Ha : advance t t1).
  { apply advance_rows; [done|]. intros r c Hr _. exists c. split; [|by left]. apply lookup_insert_Some. right. split; [|done]. intros ->. by rewrite Hr in E. }
  split_and!; [|done|by exists row]. split.
  - intros r n Hn. destruct (to_pending _ Ht r n Hn) as [Ho Hq]. split; [by eapply pending_ok_advance|done].
  - intros r c Hr. change (<[rep := row]> (commits t) !! r = Some c) in Hr. apply lookup_insert_Some in Hr as [[<- <-]|[_ Hr]]; [done|by apply (to_commits _ Ht)].
  - exact (to_valid _ Ht).
Qed.

Lemma claimed_row t rep s : claim_holds (Some (rep, s)) t -> exists row, commits t !! rep = Some row /\ c_State row = stage_state s.
Proof. intros (row & ? & ? & _). by exists row. Qed.

Lemma ParkReactiveCommit_ok rep reason now t t' b : tables_ok t -> claim_holds (Some (rep, Fresh)) t -> ParkReactiveCommit rep reason now t = Ok (t', b) ->
  tables_ok t' /\ advance t t' /\ moves t t' (Some (rep, Fresh)) None.
Proof.
  intros Ht (c & Hr & Hs)%claimed_row H. unfold ParkReactiveCommit in H. destruct (_ || _); [done|]. rewrite Hr, Hs in H. cbn [stage_state] in H.
  rewrite bool_decide_true in H by done. set (row := MkCommit rep _ _ Parked _ _ _ _ _ _) in H.
  apply rbind_ok in H as (t1 & H & [= <- _]). apply append_event_same in H as (H1 & H2 & H3).
  destruct (update_commit_ok t row c Ht Hr) as (Ht' & Ha & Hc); [by left|]. split_and!.
  - by eapply tables_ok_same.
  - destruct (advance_same _ _ H2 H1) as (A1 & A2 & A3), Ha as (B1 & B2 & B3). split_and!; auto.
  - by apply (m_park _ _ rep row); [|rewrite H2].
Qed.

Lemma AbortReactiveCommit_ok rep t t' b : tables_ok t -> claim_holds (Some (rep, Fresh)) t -> AbortReactiveCommit rep t = Ok (t', b) ->
  tables_ok t' /\ advance t t' /\ moves t t' (Some (rep, Fresh)) None.
Proof.
  intros Ht (c & Hr & Hs)%claimed_row H. unfold AbortReactiveCommit in H. destruct (bool_decide _); [done|]. rewrite Hr, Hs in H.
  rewrite bool_decide_true in H by done. injection H as <- _.
  assert (Ha : advance t (set_commits t (delete rep (commits t)))).
  { apply advance_rows; [done|]. intros r c' Hr' Hne. exists c'. split; [|by left]. cbn. rewrite lookup_delete_ne; [done|]. intros <-. rewrite Hr in Hr'. by injection Hr' as <-. }
  split_and!; [|done|by apply m_abort]. split.
  - intros r n Hn. destruct (to_pending _ Ht r n Hn). split; [by eapply pending_ok_advance|done].
  - intros r c' Hr'. change (delete rep (commits t) !! r = Some c') in Hr'. apply lookup_delete_Some in Hr' as [_ Hr']. by apply (to_commits _ Ht).
  - exact (to_valid _ Ht).
Qed.

Lemma CompleteReactiveCommit_ok r now t t' b rep g : tables_ok t -> c_RepresentationID r = rep -> c_Registration r = g ->
  claim_holds (Some (rep, Held g)) t -> CompleteReactiveCommit r now t = Ok (t', b) ->
  tables_ok t' /\ advance t t' /\ moves t t' (Some (rep, Held g)) None /\ row_done t' rep.
Proof.
  intros Ht Er Eg (c & Hr & Hs)%claimed_row H. unfold CompleteReactiveCommit in H. rewrite Er, Eg in H. destruct (_ || _); [done|]. rewrite Hr, Hs in H.
  rewrite bool_decide_true in H by done. do 2 (destruct (negb _); [done|]). set (row := MkCommit rep _ _ Committed _ _ _ _ _ _) in H.
  apply rbind_ok in H as (t1 & H & [= <- _]). apply append_event_same in H as (H1 & H2 & H3).
  destruct (update_commit_ok t row c Ht Hr) as (Ht' & Ha & Hc); [by left|]. split_and!.
  - by eapply tables_ok_same.
  - destruct (advance_same _ _ H2 H1) as (A1 & A2 & A3), Ha as (B1 & B2 & B3). split_and!; auto.
  - by apply (m_complete _ _ rep row); [| |rewrite H2].
  - exists row. rewrite H2, Hc. split; [by apply lookup_insert_eq|set_solver].
Qed.

Lemma undo_row_ok rep now t t' n : tables_ok t -> undo_row rep now t = Ok (t', n) ->
  tables_ok t' /\ advance t t' /\
  (n = 0 /\ t' = t \/ n = 1 /\ exists row, moves t t' None (Some (rep, Undoes (c_Registration row))) /\ commits t' !! rep = Some row /\ c_State row = Undoing).
Proof.
  intros Ht H. unfold undo_row in H. destruct (commits t !! rep) as [c|] eqn:Er; [|injection H as <- <-; by split_and!; [| |left]].
  destruct (bool_decide (c_State c = Committed)) eqn:Es; [|injection H as <- <-; by split_and!; [| |left]]. bool_hyps. injection H as <- <-.
  set (row := with_state c Undoing now). assert (Ek : c_RepresentationID row = rep) by apply (to_commits _ Ht rep c Er).
  destruct (update_commit_ok t row c Ht) as (Ht' & Ha & Hc); [by rewrite Ek|right; left; done|]. split_and!; [done|done|]. right. split; [done|].
  exists row. rewrite Hc, Ek. split_and!; [|by apply lookup_insert_eq|done]. by apply (m_undo t _ rep c row); [| | | |rewrite Hc, Ek].
Qed.

Lemma CompleteReactiveUndo_ok rep now t t' b : tables_ok t -> claim_holds (Some (rep, Cleared)) t -> CompleteReactiveUndo rep now t = Ok (t', b) ->
  tables_ok t' /\ advance t t' /\ moves t t' (Some (rep, Cleared)) None /\ row_undone t' rep.
Proof.
  intros Ht (c & Hr & Hs)%claimed_row H. unfold CompleteReactiveUndo in H. rewrite Hr, Hs in H. rewrite bool_decide_true in H by done.
  set (row := with_state c Undone now) in H. apply rbind_ok in H as (t1 & H & [= <- _]). apply append_event_same in H as (H1 & H2 & H3).
  assert (Ek : c_RepresentationID row = rep) by apply (to_commits _ Ht rep c Hr).
  destruct (update_commit_ok t row c Ht) as (Ht' & Ha & Hc); [by rewrite Ek|right; right; by rewrite Hs|]. split_and!.
  - by eapply tables_ok_same.
  - destruct (advance_same _ _ H2 H1) as (A1 & A2 & A3), Ha as (B1 & B2 & B3). split_and!; auto.
  - by apply (m_undone _ _ rep row); [|rewrite H2, Hc, Ek].
  - exists row. rewrite H2, Hc, Ek. split; [by apply lookup_insert_eq|set_solver].
Qed.

(** ** Steps of the logic *)

Section Rules.
Context {A B : Type}.
Implicit Types (K : reactive_tables -> Prop) (Q : A -> claim -> (reactive_tables -> Prop) -> Prop).

Lemma secure_ask (q : ask B) (k : B -> prog A) c K Q : (forall b, ask_moves q b c c) -> (forall b, secure (k b) c K Q) -> secure (prog_bind (question q) k) c K Q.
Proof. intros Hm Hk b. exists c, c. split_and!; [apply Hm|by left|apply Hk]. Qed.

Lemma secure_stmt (f : reactive_tables -> result goerror (reactive_tables * B)) (k : result goerror B -> prog A) c K Q :
  (forall e, exists c', dropped c c' /\ secure (k (Err e)) c' K Q) ->
  (forall t t' b, tables_ok t -> K t -> claim_holds c t -> f t = Ok (t', b) ->
     tables_ok t' /\ advance t t' /\ exists c' (K' : reactive_tables -> Prop), moves t t' c c' /\ stable K' /\ K' t' /\ secure (k (Ok b)) c' K' Q) ->
  secure (prog_bind (stmt f) k) c K Q.
Proof.
  intros He Hk. split; [done|]. intros t t' b Ht HK Hc H. destruct (Hk t t' b Ht HK Hc H) as (? & ? & c' & K' & ? & ? & ? & ?).
  split_and!; [done|done|]. exists c', c', K'. split_and!; [done|by left|done..].
Qed.

(** A statement that only reads. *)
Lemma secure_read (f : reactive_tables -> B) (k : result goerror B -> prog A) c K Q :
  (forall e, exists c', dropped c c' /\ secure (k (Err e)) c' K Q) ->
  (forall t, tables_ok t -> K t -> claim_holds c t -> exists c' (K' : reactive_tables -> Prop), dropped c c' /\ stable K' /\ K' t /\ secure (k (Ok (f t))) c' K' Q) ->
  secure (prog_bind (stmt (fun t => Ok (t, f t))) k) c K Q.
Proof.
  intros He Hk. split; [done|]. intros t t' b Ht HK Hc [= <- <-]. destruct (Hk t Ht HK Hc) as (c' & K' & ? & ? & ? & ?).
  split_and!; [done|apply advance_refl|]. exists c, c', K'. split_and!; [by apply m_same|done..].
Qed.

End Rules.

(** What is known from the start, and of a row. *)
Lemma stable_true : stable (fun _ => True).
Proof. done. Qed.
Lemma stable_proposed rep : stable (fun t => proposed t rep = true).
Proof. intros t t' (_ & _ & Hp). apply Hp. Qed.
Lemma stable_done rep : stable (fun t => row_done t rep).
Proof. intros t t' (Hd & _ & _). apply Hd. Qed.
Lemma stable_undone rep : stable (fun t => row_undone t rep).
Proof. intros t t' (_ & Hu & _). apply Hu. Qed.

Lemma found_proposal t rep p : GetPlaybackProposal (coverage t) rep = Some p -> pr_RepresentationID p = rep /\ proposed t rep = true.
Proof.
  intros H. split; [|unfold proposed; by rewrite H]. apply find_some in H as [_ H]. by bool_hyps.
Qed.

Definition keep {A} : A -> claim -> (reactive_tables -> Prop) -> Prop := fun _ _ _ => True.

Section Secure.
Context (FindYears : bytes -> list Z) (MatchString : string -> bytes -> bool).

(** What a commit answers: committed only when the row is. *)
Definition commit_post (rep : bytes) (r : result goerror Result) (c : claim) (K : reactive_tables -> Prop) : Prop :=
  c = None /\ match r with
              | Ok res => State res = StateCommitted /\ (forall t, K t -> row_done t rep) \/ State res = StateParked
              | Err _ => True
              end.

(** The claim after [attempt]: gone when it succeeded, to be aborted when it failed. *)
Definition attempt_post (rep : bytes) (r : result goerror Result) (c : claim) (K : reactive_tables -> Prop) : Prop :=
  match r with
  | Ok res => c = None /\ (State res = StateCommitted /\ (forall t, K t -> row_done t rep) \/ State res = StateParked)
  | Err _ => c = Some (rep, Fresh)
  end.

Lemma classify_secure id proposal item c K : secure (classify FindYears MatchString id proposal item) c K (fun _ c' _ => c' = c).
Proof.
  unfold classify. destruct (identity_mismatch _ _ _ _ _); [done|]. apply secure_ask; [done|]. intros [l|e]; [|done].
  destruct (existsb _ l); [done|]. apply secure_ask; [done|]. intros now. apply secure_ask; [done|]. by intros [ps|e].
Qed.

Lemma attempt_secure s req proposal record rep K : stable K -> pr_RepresentationID proposal = rep -> c_RepresentationID record = rep ->
  secure (attempt FindYears MatchString s req proposal record) (Some (rep, Fresh)) K (attempt_post rep).
Proof.
  intros Hst Ep Er. unfold attempt. rewrite Ep. apply secure_ask; [done|]. intros [[item|]|e]; [|done..].
  destruct (not_empty _) as [path|]; [|done]. destruct (i_ProviderIdentity item) as [id|]; [|done]. destruct (_ <? _); [done|].
  apply secure_ask; [done|]. intros [e|]; [done|]. eapply secure_bind; [done|apply classify_secure|]. intros [[reason strong]|e] c' K' Hst' ->; [|done].
  destruct (negb _).
  - apply secure_ask; [done|]. intros now. apply secure_stmt; [intros e; exists (Some (rep, Fresh)); by split; [left|]|].
    intros t t' b Ht HK Hc H. destruct (ParkReactiveCommit_ok _ _ _ _ _ _ Ht Hc H) as (Ht' & Ha & Hm). split_and!; [done|done|].
    exists None, (fun _ => True). split_and!; [done..|]. split; [done|by right].
  - intros b. destruct b as [g|e]; [|exists (Some (rep, Fresh)), (Some (rep, Fresh)); by split_and!; [|left|]].
    exists (Some (rep, Held g)), (Some (rep, Held g)). split_and!; [done|by left|]. cbn zeta. apply secure_ask; [done|]. intros now.
    apply secure_stmt.
    + intros e. exists (Some (rep, Held g)). split; [by left|]. intros b. exists (Some (rep, Fresh)), (Some (rep, Fresh)). split_and!; [by left|by left|done].
    + intros t t' b Ht HK Hc H.
      destruct (CompleteReactiveCommit_ok (completed record g strong) now t t' b rep g Ht Er eq_refl Hc H) as (Ht' & Ha & Hm & Hd).
      split_and!; [done|done|]. exists None, (fun t => row_done t rep). split_and!; [done|apply stable_done|done|]. split; [done|left; by split].
Qed.

(** After the row was read back: the claim stays with a row that this call made. *)
Lemma begin_decision_ok created item file mode rep t row : tables_ok t -> commits t !! rep = Some row ->
  match begin_decision created item file mode (Some row) with
  | Ok (Some r, fresh) => r = row /\ (c_State row = Committed \/ c_State row = Parked \/ c_State row = Committing /\ fresh = created)
  | Ok (None, _) => False
  | Err _ => True
  end.
Proof.
  intros Ht Hr. unfold begin_decision. destruct (_ || _) eqn:E1; [done|]. apply orb_false_iff in E1 as [E1 E2]. bool_hyps.
  destruct (_ || _); [done|]. destruct (_ || _) eqn:E3.
  - split; [done|]. apply orb_true_iff in E3 as [?|?]; bool_hyps; [by left|by right; left].
  - apply orb_false_iff in E3 as [E3 E4]. bool_hyps. destruct (negb _); [done|]. split; [done|]. right; right. split; [|done]. by destruct (c_State row).
Qed.

Lemma Commit_secure s req K : stable K -> secure (Commit FindYears MatchString s req) None K (commit_post (rq_RepresentationID req)).
Proof.
  intros Hst. unfold Commit. set (rep := rq_RepresentationID req). apply secure_ask; [done|]. intros [e|]; [done|]. destruct (_ || _); [done|].
  apply secure_read; [intros e; exists None; by split; [left|]|]. intros t Ht HK _.
  destruct (GetPlaybackProposal (coverage t) rep) as [p|] eqn:Ep; [|exists None, K; split_and!; [by left|done..]]. apply found_proposal in Ep as [Ep Hp].
  exists None, (fun t => proposed t rep = true). split_and!; [by left|apply stable_proposed|done|]. cbn zeta. rewrite Ep. apply secure_ask; [done|]. intros now.
  unfold BeginReactiveCommit. destruct (negb _); [done|]. apply secure_stmt; [intros e; exists None; by split; [left|]|].
  clear t Ht HK Hp. intros t t' created Ht Hp _ Hi. apply insert_commit_ok in Hi as (Ht' & Ha & Hb); [|done..]. split_and!; [done|done|].
  assert (Hcl : exists c' : claim, moves t t' None c' /\ (if created then c' = Some (rep, Fresh) else c' = None)).
  { destruct created; [destruct Hb as (row & H1 & H2 & H3); exists (Some (rep, Fresh)); split; [by eapply m_begin|done]|subst; exists None; split; [by apply m_same|done]]. }
  destruct Hcl as (c' & Hm & Hc'). exists c', (fun _ => True). split_and!; [done..|]. clear t t' Ht Hp Ht' Ha Hb Hm.
  apply secure_read; [intros e; exists None; by split; [right|]|]. intros t Ht _ Hh. cbn [prog_bind].
  destruct (commits t !! rep) as [row|] eqn:Er.
  2: { destruct created; subst c'; [destruct Hh as (row & Hr & _); congruence|]. exists None, (fun _ => True). split_and!; [by left|done..]. }
  pose proof (begin_decision_ok created (pr_ItemID p) (pr_FileID p) (rq_Mode req) rep t row Ht Er) as Hd. destruct (to_commits _ Ht rep row Er) as [Ek _].
  destruct (begin_decision _ _ _ _ _) as [[[r|] fresh]|e]; [|done|exists None, (fun _ => True); split_and!; [by right|done..]]. destruct Hd as [-> Hs].
  destruct Hs as [Hs|[Hs|[Hs ->]]]; rewrite Hs.
  - exists None, (fun t => row_done t rep). split_and!; [by right|apply stable_done|exists row; rewrite Hs; split; [done|set_solver]|]. split; [done|left; by split].
  - exists None, (fun _ => True). split_and!; [by right|done..|]. split; [done|by right].
  - destruct created; cbn [negb]; subst c'; [|exists None, (fun _ => True); split_and!; [by left|done..]].
    exists (Some (rep, Fresh)), (fun _ => True). split_and!; [by left|done..|]. cbn [bool_decide decide orb negb].
    eapply secure_bind; [done|by apply attempt_secure|]. intros [res|e] c' K' Hst' Hq; [by destruct Hq as [-> ?]|]. cbn in Hq. subst c'.
    apply secure_stmt; [intros e'; exists None; by split; [right|]|]. intros t0 t' b Ht0 _ Hc Hb.
    destruct (AbortReactiveCommit_ok rep t0 t' b Ht0 Hc Hb) as (Ht' & Ha & Hm). split_and!; [done|done|]. exists None, (fun _ => True). by split_and!.
Qed.

(** What an undo answers: no error only when the row is undone. *)
Definition undo_post (rep : bytes) (r : option goerror) (c : claim) (K : reactive_tables -> Prop) : Prop :=
  c = None /\ (r = None -> forall t, K t -> row_undone t rep).

Lemma Undo_secure rep K : stable K -> secure (Undo rep) None K (undo_post rep).
Proof.
  intros Hst. unfold Undo. destruct (bool_decide _); [done|]. apply secure_ask; [done|]. intros now. unfold BeginReactiveUndo.
  apply secure_stmt; [intros e; exists None; by split; [left|]|]. intros t t' n Ht _ _ H.
  destruct (undo_row_ok rep now t t' n Ht H) as (Ht' & Ha & [[-> ->]|[-> (row & Hm & Hr & Hs)]]); (split_and!; [done|done|]).
  - exists None, (fun _ => True). split_and!; [by apply m_same|done..|]. apply secure_read; [intros e; exists None; by split; [left|]|].
    clear t now H Ht Ht' Ha. intros t Ht _ _. destruct (commits t !! rep) as [row|] eqn:Er; [|exists None, (fun _ => True); split_and!; [by left|done..]].
    cbn [Z.eqb]. destruct (bool_decide (c_State row = Undone)) eqn:Es; bool_hyps.
    + exists None, (fun t => row_undone t rep). split_and!; [by left|apply stable_undone|exists row; rewrite Es; split; [done|set_solver]|].
      cbn [prog_bind default from_option id]. rewrite Es. cbn. by split.
    + exists None, (fun _ => True). split_and!; [by left|done..].
  - exists (Some (rep, Undoes (c_Registration row))), (fun _ => True). split_and!; [done..|].
    apply secure_read; [intros e; exists None; by split; [right|]|]. clear t t' Ht Ht' Ha H Hm Hr Hs. intros t Ht _ (r & Hr & Hs & Hg).
    rewrite Hr. exists (Some (rep, Undoes (c_Registration row))), (fun _ => True). split_and!; [by left|done..|].
    cbn [prog_bind Z.eqb default from_option id]. rewrite Hs. cbn [stage_state bool_decide decide]. rewrite bool_decide_false by done.
    intros [e|].
    { exists (Some (rep, Cleared)), None. split_and!; [right; by rewrite Hg|by right|done]. }
    exists (Some (rep, Cleared)), (Some (rep, Cleared)). split_and!; [right; by rewrite Hg|by left|].
    intros [item|e]; [|exists (Some (rep, Cleared)), None; by split_and!; [|right|]].
    exists (Some (rep, Cleared)), (Some (rep, Cleared)). split_and!; [done|by left|].
    intros [e|]; [exists (Some (rep, Cleared)), None; by split_and!; [|right|]|].
    exists (Some (rep, Cleared)), (Some (rep, Cleared)). split_and!; [done|by left|].
    apply secure_ask; [done|]. intros now'. apply secure_stmt; [intros e; exists None; by split; [right|]|].
    clear t Ht r Hr Hs Hg. intros t t' b Ht _ Hc H. destruct (CompleteReactiveUndo_ok rep now' t t' b Ht Hc H) as (Ht' & Ha & Hm & Hu).
    split_and!; [done|done|]. exists None, (fun t => row_undone t rep). split_and!; [done|apply stable_undone|done|]. by split.
Qed.

End Secure.
