(* ===== verification/ReactiveQueue.v ===== *)
(** Deciding what becomes of a proposal: internal/reactivequeue (the operator's queue and the
    routing to Arr instances) and internal/reactivedispatch (the automatic cycle), over
    internal/store/reactive_pending.go.

    An identity is routed to the one instance it can go to, or to a reason to park.  The
    operator decides entry by entry; the dispatcher walks the queue page by page.  An Arr
    instance answers a query with a status and rows; identifiers are ASCII. *)

From Stdlib Require Import ZArith Lia.
From stdpp Require Import base list numbers strings gmap sets.
From S2P Require Import Prelude Bencode Torrentmeta Text Outcome PlaybackCoverage SearchBudget ContentProof Continuity IdentityCheck.
From S2P Require Import ReactiveStore ReactiveLogic ReactiveCommit.

Local Open Scope Z_scope.
Local Open Scope harbor_scope.
Local Open Scope prog_scope.

Definition error_of {A} (r : result goerror A) : option goerror := match r with Ok _ => None | Err err => Some err end.

(** ** The store's decision on an entry *)

Definition ResolveReactivePending (rep : bytes) (action : pending_action) (arrName : bytes) (now : Z) : prog (option goerror) :=
  get! found := stmt (GetReactivePending rep) or Some in
  match found with
  | None => Ret (Some (errors_New (str "store: reactive pending entry not found")))
  | Some entry =>
      if n_Resolved entry then
        Ret (if bool_decide (n_ExitAction entry = action) && bool_decide (n_ArrName entry = arrName) then None
             else Some (errors_New (str "store: reactive pending decision conflicts")))
      else if negb (validPendingAction (n_Reason entry) action) || (now =? 0) || contains_any arrName forbidden_text || (128 <? Z.of_nat (length arrName))
      then Ret (Some (errors_New (str "store: invalid reactive pending decision")))
      else if bool_decide (action = Assign) && bool_decide (TrimSpace arrName = []) then Ret (Some (errors_New (str "store: assignment requires Arr target")))
      else
        get! n := stmt (resolve_row rep action (TrimSpace arrName) now) or Some in
        if n =? 1 then Ret None
        else
          do! current := stmt (GetReactivePending rep) in
          Ret (match current with
               | Err getErr => Some getErr
               | Ok current =>
                   match current with
                   | Some c =>
                       if n_Resolved c && bool_decide (n_ExitAction c = action) && bool_decide (n_ArrName c = TrimSpace arrName) then None
                       else Some (errors_New (str "store: reactive pending decision raced"))
                   | None => Some (errors_New (str "store: reactive pending decision raced"))
                   end
               end)
  end.

(** ** Targets *)

Record ArrInstance := MkInstance { in_Name : bytes; in_URL : bytes; in_AppType : bytes; in_APIKeyRef : bytes; in_RootFolder : bytes; in_QualityProfile : Z }.

(** [strings.TrimRight(s, "/")]. *)
Fixpoint trim_slashes (s : bytes) : bytes :=
  match s with
  | [] => []
  | c :: s => match trim_slashes s with [] => if c =? 47 then [] else [c] | s' => c :: s' end
  end.

Definition target_of (lookup : option (bytes -> option bytes)) (inst : ArrInstance) : option (result bytes ArrTarget) :=
  let app := ascii_lower (TrimSpace (in_AppType inst)) in
  if negb (bool_decide (app = str "sonarr") || bool_decide (app = str "radarr")) then None
  else
    let url := trim_slashes (TrimSpace (in_URL inst)) in
    if bool_decide (url = []) then None
    else
      let apiKey := match lookup with
                    | Some lookup => match lookup (TrimSpace (in_APIKeyRef inst)) with Some resolved => TrimSpace resolved | None => [] end
                    | None => []
                    end in
      if bool_decide (apiKey = []) then Some (Err (in_Name inst))
      else Some (Ok (MkTarget (in_Name inst) url apiKey (TrimSpace (in_RootFolder inst)) (in_QualityProfile inst))).

Definition TargetsFromInstances (instances : list ArrInstance) (lookup : option (bytes -> option bytes)) : list ArrTarget * list bytes :=
  let l := omap (target_of lookup) instances in
  (omap (fun r => match r with Ok t => Some t | Err _ => None end) l, omap (fun r => match r with Err name => Some name | Ok _ => None end) l).

Definition ResolveTargets (instances : list ArrInstance) (envTargets : list ArrTarget) (lookup : option (bytes -> option bytes)) : list ArrTarget * list bytes :=
  let (targets, unresolved) := TargetsFromInstances instances lookup in
  match targets with [] => (envTargets, unresolved) | _ => (targets, unresolved) end.

Definition CanAdd (t : ArrTarget) : bool := negb (bool_decide (a_RootFolder t = [])) && (0 <? a_QualityProfile t).

(** ** Routing *)

Definition maxArrTargets : Z := 64.
Definition maxArrRows : Z := 10000.

Record Router := MkRouter { targets : list ArrTarget; default_series : bytes; default_movie : bytes }.

Definition NewRouter (ts : list ArrTarget) : result goerror Router :=
  if maxArrTargets <? Z.of_nat (length ts) then fail "reactivequeue: invalid routing dependencies" else Ok (MkRouter ts [] []).

Definition SetDefaultDestinations (r : Router) (series movie : bytes) : Router := MkRouter (targets r) (TrimSpace series) (TrimSpace movie).

Definition default_for (r : Router) (kind : bytes) : bytes :=
  if bool_decide (kind = str "series") then default_series r else if bool_decide (kind = str "movie") then default_movie r else [].

(** The reason of a route that is one is the empty text. *)
Record RouteResult := MkRoute {
  t_ArrName : bytes; t_Reason : pending_reason; t_Tier : Z; t_Owned : bool; t_Declared : bool; t_RootFolder : bytes; t_QualityProfile : Z
}.

Definition no_reason : pending_reason := OtherReason [].
Definition parked_route (reason : pending_reason) (tier : Z) : RouteResult := MkRoute [] reason tier false false [] 0.
Definition route_to (name : bytes) (tier : Z) (owned : bool) : RouteResult := MkRoute name no_reason tier owned false [] 0.

Definition addableRoute (target : ArrTarget) (r : RouteResult) : RouteResult :=
  if negb (CanAdd target) then r
  else MkRoute (t_ArrName r) (t_Reason r) (t_Tier r) (t_Owned r) true (a_RootFolder target) (a_QualityProfile target).

Definition first_id (a b : string * bytes) : option (bytes * bytes) :=
  if negb (bool_decide (TrimSpace a.2 = [])) then Some (str a.1, TrimSpace a.2)
  else if negb (bool_decide (TrimSpace b.2 = [])) then Some (str b.1, TrimSpace b.2)
  else None.

Definition routingKey (identity : option ProviderIdentity) : option (bytes * bytes) :=
  match identity with
  | None => None
  | Some id =>
      if bool_decide (SearchBudget.Kind id = str "series") then first_id ("tvdb"%string, TVDB (IDs id)) ("imdb"%string, IMDB (IDs id))
      else if bool_decide (SearchBudget.Kind id = str "movie") then first_id ("tmdb"%string, TMDB (IDs id)) ("imdb"%string, IMDB (IDs id))
      else None
  end.

(** [url.QueryEscape]. *)
Definition upper_hex (n : Z) : Z := if n <? 10 then 48 + n else 55 + n.
Definition query_byte (c : Z) : bytes :=
  if ((48 <=? c) && (c <=? 57)) || ((65 <=? c) && (c <=? 90)) || ((97 <=? c) && (c <=? 122)) ||
     (c =? 45) || (c =? 95) || (c =? 46) || (c =? 126) then [c]
  else if c =? 32 then [43]
  else [37; upper_hex (Z.shiftr c 4); upper_hex (Z.land c 15)].
Definition QueryEscape (s : bytes) : bytes := concat (map query_byte s).

Definition arr_path (kind provider value : bytes) : bytes :=
  let series := bool_decide (kind = str "series") in
  let path := str "/api/v3/" ++ (if series then str "series" else str "movie") in
  if bool_decide (provider = str "imdb") then path
  else path ++ str "?" ++ (if series then str "tvdbId" else str "tmdbId") ++ str "=" ++ QueryEscape value.

(** Whether an instance owns the identity, and whether it is of its kind at all. *)
Definition targetState (target : ArrTarget) (identity : option ProviderIdentity) : prog (result goerror (bool * bool)) :=
  match identity, routingKey identity with
  | Some id, Some (provider, value) =>
      get! (status, rows) := question (ArrRows target (arr_path (SearchBudget.Kind id) provider value)) or Err in
      Ret (if negb (status =? 200) then Ok (false, false)
           else if maxArrRows <? Z.of_nat (length rows) then fail "reactivequeue: Arr row limit exceeded"
           else if negb (bool_decide (provider = str "imdb")) then Ok (negb (bool_decide (length rows = 0%nat)), true)
           else Ok (existsb (fun row => bool_decide (ascii_lower (TrimSpace (w_IMDBID row)) = ascii_lower value)) rows, true))
  | _, _ => Ret (Ok (false, false))
  end.

(** The instances of the identity's kind, with whether each owns it. *)
Fixpoint compatible_targets (l : list ArrTarget) (identity : option ProviderIdentity) : prog (result goerror (list (ArrTarget * bool))) :=
  match l with
  | [] => Ret (Ok [])
  | target :: l =>
      get! (owns, app) := targetState target identity or Err in
      get! rest := compatible_targets l identity or Err in
      Ret (Ok (if app then (target, owns) :: rest else rest))
  end.

(** Where a remembered assignment leads. *)
Definition assigned_route (r : Router) (identity : option ProviderIdentity) (arrName : bytes) : prog (result goerror RouteResult) :=
  match find (fun target => bool_decide (a_Name target = arrName)) (targets r) with
  | None => Ret (Ok (parked_route RoutingUnresolved 2))
  | Some target =>
      get! (owns, app) := targetState target identity or Err in
      Ret (Ok (if app then
                 let route := route_to arrName 2 owns in
                 if owns then route else addableRoute target route
               else parked_route RoutingUnresolved 2))
  end.

(** Nobody owns the identity: the named default, if it can add. *)
Definition default_route (name : bytes) (compatible : list (ArrTarget * bool)) : RouteResult :=
  if bool_decide (name = []) then parked_route RoutingUnresolved 2
  else
    match find (fun c => bool_decide (a_Name c.1 = name) && CanAdd c.1) compatible with
    | Some c => addableRoute c.1 (route_to (a_Name c.1) 2 false)
    | None => parked_route RoutingUnresolved 2
    end.

(** Several instances: the one that owns the identity, which is remembered, or none. *)
Definition owners_route (r : Router) (kind provider value : bytes) (compatible : list (ArrTarget * bool)) : prog (result goerror RouteResult) :=
  match filter (fun c : ArrTarget * bool => c.2 = true) compatible with
  | [(owner, _)] =>
      do! now := question Now in
      get! _ := stmt (PutReactiveAssignment (MkAssignment kind provider value (a_Name owner)) now) or Err in
      Ret (Ok (route_to (a_Name owner) 1 true))
  | [] => Ret (Ok (default_route (default_for r kind) compatible))
  | _ => Ret (Ok (parked_route RoutingAmbiguous 3))
  end.

Definition Resolve (r : Router) (identity : option ProviderIdentity) : prog (result goerror RouteResult) :=
  match identity, routingKey identity with
  | Some id, Some (provider, value) =>
      get! assignment := stmt (GetReactiveAssignment (SearchBudget.Kind id) provider value) or Err in
      match assignment with
      | Some a => assigned_route r identity (as_ArrName a)
      | None =>
          get! compatible := compatible_targets (targets r) identity or Err in
          match compatible with
          | [(target, owns)] => Ret (Ok (let route := route_to (a_Name target) 0 owns in if owns then route else addableRoute target route))
          | _ => owners_route r (SearchBudget.Kind id) provider value compatible
          end
      end
  | _, _ => Ret (Ok (parked_route RoutingAmbiguous 3))
  end.

Definition hasTarget (r : Router) (name : bytes) : bool := existsb (fun t => bool_decide (a_Name t = name)) (targets r).

Definition Remember (r : Router) (identity : option ProviderIdentity) (arrName : bytes) : prog (option goerror) :=
  match identity, routingKey identity with
  | Some id, Some (provider, value) =>
      if negb (hasTarget r arrName) then Ret (Some (errors_New (str "reactivequeue: invalid explicit assignment")))
      else
        do! now := question Now in
        do! res := stmt (PutReactiveAssignment (MkAssignment (SearchBudget.Kind id) provider value arrName) now) in
        Ret (error_of res)
  | _, _ => Ret (Some (errors_New (str "reactivequeue: invalid explicit assignment")))
  end.

(** ** The operator's queue *)

Record Decision := MkDecision {
  d_RepresentationID : bytes; d_Action : pending_action; d_ArrName : bytes; d_RootFolder : bytes; d_QualityProfile : Z
}.

(** The reactivecommit.Result that is its zero value. *)
Definition no_result : Result := MkResult (StateOther []) false [].
Definition refused (err : goerror) : Result * option goerror := (no_result, Some err).
Definition resolved : Result := MkResult StateResolved false [].
Definition undone : Result := MkResult StateUndone false [].

Definition Actions (reason : pending_reason) : list pending_action :=
  match reason with
  | SupervisedReview => [Approve; Assign; JellyfinOnly; Remove]
  | WeakEvidence => [Acknowledge; UndoAction]
  | PositiveMismatch => [JellyfinOnly; Remove]
  | RoutingUnresolved | RoutingAmbiguous => [Assign; JellyfinOnly; Remove]
  | OtherReason _ => []
  end.

Section Manager.
Context (FindYears : bytes -> list Z) (MatchString : string -> bytes -> bool) (s : Service).

Definition List (after : bytes) (limit : Z) : prog (result goerror (list ReactivePending)) :=
  guard! question CtxErr or Err in
  do! now := question Now in
  get! _ := stmt (SyncReactivePending now) or Err in
  stmt (ListReactivePending after limit).

(** The entry stays in the queue, for the reason. *)
Definition enqueue (entry : ReactivePending) (reason : pending_reason) : prog (option goerror) :=
  do! now := question Now in
  do! res := stmt (EnqueueReactivePending (n_RepresentationID entry) (n_ItemID entry) reason now) in
  Ret (error_of res).

Definition resolve (entry : ReactivePending) (action : pending_action) (arrName : bytes) : prog (option goerror) :=
  do! now := question Now in
  ResolveReactivePending (n_RepresentationID entry) action arrName now.

Definition decide_commit (d : Decision) (entry : ReactivePending) : prog (Result * option goerror) :=
  if bool_decide (d_Action d = Assign) && bool_decide (d_ArrName d = [])
  then Ret (refused (errors_New (str "reactivequeue: assignment requires Arr target")))
  else
    get! res := Commit FindYears MatchString s (MkRequest (d_RepresentationID d) ModeSupervised (d_ArrName d) (d_RootFolder d) (d_QualityProfile d)) or refused in
    if bool_decide (State res = StateParked) then do! err := enqueue entry PositiveMismatch in Ret (res, err)
    else if rs_ReviewRequired res then do! err := enqueue entry WeakEvidence in Ret (res, err)
    else do! err := resolve entry (d_Action d) (d_ArrName d) in Ret (res, err).

Definition decide_remove (d : Decision) (entry : ReactivePending) : prog (Result * option goerror) :=
  get! proposal := get_proposal (n_RepresentationID entry) or refused in
  match proposal with
  | None => Ret (refused (errors_New (str "reactivequeue: proposal unavailable")))
  | Some proposal =>
      get! item := question (GetItemByID (pr_ItemID proposal)) or refused in
      match item with
      | None => Ret (refused (errors_New (str "reactivequeue: item unavailable")))
      | Some _ =>
          guard! question (RemoveCommitted item) or refused in
          do! err := resolve entry (d_Action d) [] in Ret (resolved, err)
      end
  end.

Definition Decide (d : Decision) : prog (Result * option goerror) :=
  guard! question CtxErr or refused in
  do! now := question Now in
  get! _ := stmt (SyncReactivePending now) or refused in
  get! found := stmt (GetReactivePending (d_RepresentationID d)) or refused in
  match found with
  | None => Ret (refused (errors_New (str "reactivequeue: pending entry unavailable")))
  | Some entry =>
      if n_Resolved entry then Ret (refused (errors_New (str "reactivequeue: pending entry unavailable")))
      else
        match d_Action d with
        | Approve | Assign => decide_commit d entry
        | JellyfinOnly | Acknowledge => do! err := resolve entry (d_Action d) (d_ArrName d) in Ret (resolved, err)
        | Remove => decide_remove d entry
        | UndoAction =>
            guard! Undo (n_RepresentationID entry) or refused in
            do! err := resolve entry (d_Action d) [] in Ret (undone, err)
        | OtherAction _ => Ret (refused (errors_New (str "reactivequeue: invalid decision")))
        end
  end.

(** ** The automatic cycle *)

Definition BatchSize : Z := 25.

Inductive dispatch_mode : Type := Off | Supervised | Auto.

(** The dependencies are told apart from nil only. *)
Definition New (mode : bytes) (repo router committer : bool) : result goerror dispatch_mode :=
  match (if bool_decide (mode = str "off") then Some Off else if bool_decide (mode = str "supervised") then Some Supervised
         else if bool_decide (mode = str "auto") then Some Auto else None) with
  | None => fail "reactivedispatch: invalid mode"
  | Some m =>
      if match m with Off => false | _ => negb repo end then fail "reactivedispatch: missing repository"
      else if match m with Auto => negb router || negb committer | _ => false end then fail "reactivedispatch: missing automatic dependency"
      else Ok m
  end.

Record DispatchResult := MkDispatch { Examined : Z; r_Committed : Z; r_Parked : Z; Errors : Z }.
Definition no_dispatch : DispatchResult := MkDispatch 0 0 0 0.

(** What one entry adds to the result. *)
Inductive entry_outcome : Type := WasCommitted | WasParked | WasError.
Definition count (r : DispatchResult) (o : entry_outcome) : DispatchResult :=
  match o with
  | WasCommitted => MkDispatch (Examined r) (r_Committed r + 1) (r_Parked r) (Errors r)
  | WasParked => MkDispatch (Examined r) (r_Committed r) (r_Parked r + 1) (Errors r)
  | WasError => MkDispatch (Examined r) (r_Committed r) (r_Parked r) (Errors r + 1)
  end.
Definition examined (r : DispatchResult) : DispatchResult := MkDispatch (Examined r + 1) (r_Committed r) (r_Parked r) (Errors r).

Definition outcome_of (o : entry_outcome) (err : option goerror) : entry_outcome := match err with Some _ => WasError | None => o end.

Definition commits_route (route : RouteResult) : bool := negb (bool_decide (t_ArrName route = [])) && (t_Owned route || t_Declared route).

(** The reason a route is parked for; that of a route without one is the default. *)
Definition park_reason (route : RouteResult) : pending_reason :=
  if bool_decide (t_Reason route = no_reason) then RoutingUnresolved else t_Reason route.

Definition dispatch_commit (entry : ReactivePending) (route : RouteResult) : prog entry_outcome :=
  do! res := Commit FindYears MatchString s (MkRequest (n_RepresentationID entry) ModeAuto (t_ArrName route) (t_RootFolder route) (t_QualityProfile route)) in
  match res with
  | Err err =>
      if errors_Is err "reactivecommit: Arr file already present"
      then do! err := resolve entry JellyfinOnly [] in Ret (outcome_of WasParked err)
      else Ret WasError
  | Ok res =>
      match State res with
      | StateCommitted =>
          if rs_ReviewRequired res then Ret WasParked
          else do! err := resolve entry Approve (t_ArrName route) in Ret (outcome_of WasCommitted err)
      | StateParked | StatePending => Ret WasParked
      | _ => Ret WasError
      end
  end.

Definition dispatch_entry (router : Router) (entry : ReactivePending) : prog entry_outcome :=
  get! proposal := get_proposal (n_RepresentationID entry) or (fun _ => WasError) in
  match proposal with
  | None => Ret WasError
  | Some proposal =>
      get! item := question (GetItemByID (pr_ItemID proposal)) or (fun _ => WasError) in
      match item with
      | None => Ret WasError
      | Some item =>
          match i_ProviderIdentity item with
          | None => do! err := enqueue entry RoutingUnresolved in Ret (outcome_of WasParked err)
          | Some identity =>
              get! route := Resolve router (Some identity) or (fun _ => WasError) in
              if commits_route route then dispatch_commit entry route
              else do! err := enqueue entry (park_reason route) in Ret (outcome_of WasParked err)
          end
      end
  end.

Fixpoint dispatch_entries (router : Router) (entries : list ReactivePending) (r : DispatchResult) : prog (DispatchResult * option goerror) :=
  match entries with
  | [] => Ret (r, None)
  | entry :: entries =>
      guard! question CtxErr or (fun err => (r, Some err)) in
      if bool_decide (n_Reason entry = SupervisedReview) then
        do! o := dispatch_entry router entry in dispatch_entries router entries (count (examined r) o)
      else dispatch_entries router entries r
  end.

(** The page from the cursor; an empty one starts over. *)
Definition next_page (after : bytes) : prog (result goerror (list ReactivePending)) :=
  get! entries := stmt (ListReactivePending after BatchSize) or Err in
  match entries, after with
  | [], _ :: _ => stmt (ListReactivePending [] BatchSize)
  | _, _ => Ret (Ok entries)
  end.

(** Where the next page starts. *)
Definition next_after (entries : list ReactivePending) : bytes :=
  if bool_decide (Z.of_nat (length entries) = BatchSize) then match last entries with Some n => n_RepresentationID n | None => [] end else [].

(** The dispatcher's cursor goes in and comes out: one loop runs the cycles, one after another. *)
Definition Process (mode : dispatch_mode) (router : Router) (after : bytes) : prog (DispatchResult * option goerror * bytes) :=
  guard! question CtxErr or (fun err => (no_dispatch, Some err, after)) in
  match mode with
  | Off => Ret (no_dispatch, None, after)
  | _ =>
      do! now := question Now in
      get! _ := stmt (SyncReactivePending now) or (fun err => (no_dispatch, Some err, after)) in
      match mode with
      | Auto =>
          get! entries := next_page after or (fun err => (no_dispatch, Some err, after)) in
          do! (r, err) := dispatch_entries router entries no_dispatch in
          Ret (r, err, next_after entries)
      | _ => Ret (no_dispatch, None, after)
      end
  end.

End Manager.

(** ** The statements on the queue *)

(** A statement that leaves the rows of commits. *)
Definition quiet {B} (f : reactive_tables -> result goerror (reactive_tables * B)) : Prop :=
  forall t t' b, tables_ok t -> f t = Ok (t', b) -> tables_ok t' /\ advance t t' /\ commits t' = commits t.

Lemma secure_quiet {A B} (f : reactive_tables -> result goerror (reactive_tables * B)) (k : result goerror B -> prog A) c K Q :
  stable K -> quiet f -> (forall r, secure (k r) c K Q) -> secure (prog_bind (stmt f) k) c K Q.
Proof.
  intros Hst Hf Hk. apply secure_stmt; [intros e; exists c; by split; [left|]|]. intros t t' b Ht HK _ H. destruct (Hf t t' b Ht H) as (Ht' & Ha & Hc).
  split_and!; [done|done|]. exists c, K. split_and!; [by apply m_same|done|by eapply Hst|done].
Qed.

(** The queue changes, with entries that are as they should be. *)
Lemma set_pending_quiet t p : tables_ok t -> (forall rep n, p !! rep = Some n -> pending_ok t rep n /\ proposed t rep = true) ->
  tables_ok (set_pending t p) /\ advance t (set_pending t p) /\ commits (set_pending t p) = commits t.
Proof. intros Ht Hp. split_and!; [by apply tables_ok_pending|by apply advance_same|done]. Qed.

Lemma insert_pending_quiet t rep n : tables_ok t -> pending_ok t rep n -> proposed t rep = true ->
  let t' := set_pending t (<[rep := n]> (pending t)) in tables_ok t' /\ advance t t' /\ commits t' = commits t.
Proof. intros Ht Hn Hp. apply set_pending_quiet; [done|]. intros r m [[<- <-]|[_ Hm]]%lookup_insert_Some; [done|by apply Ht]. Qed.

Lemma insert_or_ignore_quiet t n t' : n_Resolved n = false -> n_ExitAction n = no_action -> n_ArrName n = [] -> validPendingReason (n_Reason n) = true ->
  tables_ok t -> insert_or_ignore t n = Ok t' -> tables_ok t' /\ advance t t' /\ commits t' = commits t.
Proof.
  intros Hr Hx Ha Hv Ht H. unfold insert_or_ignore in H. destruct (pending t !! _); [injection H as <-; by split_and!|].
  destruct (proposed t _) eqn:Hp; [|done]. injection H as <-. apply insert_pending_quiet; [done| |done]. split; [done|done|by split|intros; congruence..].
Qed.

Lemma rfold_quiet {A} (f : reactive_tables -> A -> result goerror reactive_tables) (l : list A) : forall t t',
  (forall t x t', x ∈ l -> tables_ok t -> f t x = Ok t' -> tables_ok t' /\ advance t t' /\ commits t' = commits t) ->
  tables_ok t -> rfold f t l = Ok t' -> tables_ok t' /\ advance t t' /\ commits t' = commits t.
Proof.
  induction l as [|x l IH]; intros t t' Hf Ht H; cbn in H; [injection H as <-; by split_and!|].
  apply rbind_ok in H as (t1 & H1 & H). destruct (Hf t x t1 (list_elem_of_here _ _) Ht H1) as (Ht1 & (A1 & A2 & A3) & E1).
  destruct (IH t1 t') as (Ht' & (B1 & B2 & B3) & E2); [intros; eapply Hf; [by apply list.elem_of_cons; right|done..]|done|done|].
  split_and!; [done| |congruence]. split_and!; auto.
Qed.

Lemma insert_fresh_quiet {X} (g : X -> ReactivePending) (l : list X) t t' : (forall x, exists rep item reason a b, g x = fresh_pending rep item reason a b /\ validPendingReason reason = true) ->
  tables_ok t -> rfold insert_or_ignore t (map g l) = Ok t' -> tables_ok t' /\ advance t t' /\ commits t' = commits t.
Proof.
  intros Hg Ht H. eapply rfold_quiet; [|done|exact H]. intros t0 n t1 Hn Ht0 H0. apply list_elem_of_fmap in Hn as (x & -> & _).
  destruct (Hg x) as (rep & item & reason & a & b & E & Hv). rewrite E in H0. by apply insert_or_ignore_quiet in H0.
Qed.

Lemma SyncReactivePending_quiet now : quiet (SyncReactivePending now).
Proof.
  intros t t' b Ht H. unfold SyncReactivePending in H. destruct (_ =? _); [done|]. apply rbind_ok in H as (t1 & H1 & H). apply rbind_ok in H as (t2 & H2 & H).
  apply rbind_ok in H as (t3 & H3 & H). injection H as <- _.
  apply insert_fresh_quiet in H1 as (Ht1 & (A1 & A2 & A3) & E1); [|by intros; do 5 eexists|done].
  apply insert_fresh_quiet in H2 as (Ht2 & (B1 & B2 & B3) & E2); [|by intros; do 5 eexists|done].
  apply insert_fresh_quiet in H3 as (Ht3 & (C1 & C2 & C3) & E3); [|by intros; do 5 eexists|done].
  split_and!; [done| |congruence]. split_and!; auto.
Qed.

Lemma EnqueueReactivePending_quiet rep item reason now : quiet (EnqueueReactivePending rep item reason now).
Proof.
  intros t t' b Ht H. unfold EnqueueReactivePending in H. destruct (_ || _) eqn:Eg; [done|]. apply orb_false_iff in Eg as [Eg _].
  apply orb_false_iff in Eg as [_ Ev]. bool_hyps.
  destruct (pending t !! rep) as [n|] eqn:En.
  - destruct (to_pending _ Ht rep n En) as [Hn Hp]. injection H as <- _. destruct (n_Resolved n) eqn:Er; [by split_and!|].
    apply insert_pending_quiet; [done| |done]. destruct Hn as [K1 K2 K3 K4 K5 K6]. destruct (K3 Er). split; cbn; try done; intros; by apply K3.
  - destruct (proposed t rep) eqn:Hp; [|done]. injection H as <- _. apply insert_pending_quiet; [done|by apply fresh_pending_ok|done].
Qed.

Lemma ListReactivePending_quiet after limit : quiet (ListReactivePending after limit).
Proof. intros t t' b Ht H. unfold ListReactivePending in H. destruct (_ || _); [done|]. injection H as <- _. by split_and!. Qed.

Lemma GetReactivePending_quiet rep : quiet (GetReactivePending rep).
Proof. intros t t' b Ht [= <- _]. by split_and!. Qed.

Lemma get_proposal_quiet rep : quiet (fun t => Ok (t, GetPlaybackProposal (coverage t) rep)).
Proof. intros t t' b Ht [= <- _]. by split_and!. Qed.

Lemma PutReactiveAssignment_quiet a now : quiet (PutReactiveAssignment a now).
Proof.
  intros t t' b Ht H. unfold PutReactiveAssignment in H. destruct (_ || _); [done|]. injection H as <- _.
  split_and!; [by apply (tables_ok_same t)|by apply advance_same|done].
Qed.

Lemma GetReactiveAssignment_quiet kind provider value : quiet (GetReactiveAssignment kind provider value).
Proof. intros t t' b Ht H. unfold GetReactiveAssignment in H. destruct (negb _); [done|]. injection H as <- _. by split_and!. Qed.

(** An entry is closed with what its action says of the row. *)
Lemma resolve_row_quiet rep action arrName now t t' n : tables_ok t -> action <> no_action ->
  (action = Approve \/ action = Assign -> row_done t rep) -> (action = UndoAction -> row_undone t rep) ->
  resolve_row rep action arrName now t = Ok (t', n) -> tables_ok t' /\ advance t t' /\ commits t' = commits t.
Proof.
  intros Ht Hne Hd Hu H. unfold resolve_row in H. destruct (pending t !! rep) as [m|] eqn:Em; [|injection H as <- _; by split_and!].
  destruct (n_Resolved m); [injection H as <- _; by split_and!|]. destruct (to_pending _ Ht rep m Em) as [[Hk Hv _ _ _ _] Hp].
  assert (E : t' = set_pending t (<[rep := MkPending rep (n_ItemID m) (n_Reason m) true action arrName (n_CreatedAt m) now]> (pending t))) by (destruct action as [| | | | | |[|]]; first [done|by injection H as <- _]).
  subst t'. apply insert_pending_quiet; [done|by split|done].
Qed.

(** ** The operations on the queue and the routes *)

Definition same {A} (c : claim) : A -> claim -> (reactive_tables -> Prop) -> Prop := fun _ c' _ => c' = c.

Lemma ResolveReactivePending_secure rep action arrName now c (K : reactive_tables -> Prop) : stable K ->
  (action = Approve \/ action = Assign -> forall t, K t -> row_done t rep) -> (action = UndoAction -> forall t, K t -> row_undone t rep) ->
  secure (ResolveReactivePending rep action arrName now) c K (same c).
Proof.
  intros Hst Hd Hu. unfold ResolveReactivePending. apply secure_quiet; [done|apply GetReactivePending_quiet|]. intros [[n|]|e]; [|done..].
  destruct (n_Resolved n); [done|]. destruct (_ || _) eqn:Eg; [done|]. do 3 apply orb_false_iff in Eg as [Eg _]. apply negb_false_iff in Eg.
  destruct (_ && _); [done|]. apply secure_stmt; [intros e; exists c; by split; [left|]|]. intros t t' b Ht HK _ H.
  apply resolve_row_quiet in H as (Ht' & Ha & Hc); [|done|intros ->; by destruct (n_Reason n)|by intros; apply Hd|by intros; apply Hu].
  split_and!; [done|done|]. exists c, K. split_and!; [by apply m_same|done|by eapply Hst|]. destruct (b =? 1); [done|].
  apply secure_quiet; [done|apply GetReactivePending_quiet|]. by intros [[m|]|e].
Qed.

Lemma resolve_secure entry action arrName c (K : reactive_tables -> Prop) : stable K ->
  (action = Approve \/ action = Assign -> forall t, K t -> row_done t (n_RepresentationID entry)) ->
  (action = UndoAction -> forall t, K t -> row_undone t (n_RepresentationID entry)) ->
  secure (resolve entry action arrName) c K (same c).
Proof. intros. apply secure_ask; [done|]. intros now. by apply ResolveReactivePending_secure. Qed.

Lemma enqueue_secure entry reason c (K : reactive_tables -> Prop) : stable K -> secure (enqueue entry reason) c K (same c).
Proof. intros. apply secure_ask; [done|]. intros now. apply secure_quiet; [done|apply EnqueueReactivePending_quiet|done]. Qed.

Lemma targetState_secure target identity c (K : reactive_tables -> Prop) : secure (targetState target identity) c K (same c).
Proof.
  unfold targetState. destruct identity as [id|]; [|done]. destruct (routingKey _) as [[provider value]|]; [|done].
  apply secure_ask; [done|]. by intros [[status rows]|e].
Qed.

Lemma compatible_targets_secure l identity c : forall K : reactive_tables -> Prop, stable K -> secure (compatible_targets l identity) c K (same c).
Proof.
  induction l as [|target l IH]; intros K Hst; [done|]. cbn [compatible_targets]. eapply secure_bind; [done|apply targetState_secure|].
  intros [[owns app]|e] c' K' Hst' ->; [|done]. eapply secure_bind; [done|by apply IH|]. by intros [rest|e] c' K2 Hst2 ->.
Qed.

Lemma assigned_route_secure r identity arrName c (K : reactive_tables -> Prop) : stable K -> secure (assigned_route r identity arrName) c K (same c).
Proof.
  intros Hst. unfold assigned_route. destruct (find _ _) as [target|]; [|done]. eapply secure_bind; [done|apply targetState_secure|].
  by intros [[owns app]|e] c' K' Hst' ->.
Qed.

Lemma Resolve_secure r identity c (K : reactive_tables -> Prop) : stable K -> secure (Resolve r identity) c K (same c).
Proof.
  intros Hst. unfold Resolve. destruct identity as [id|]; [|done]. destruct (routingKey _) as [[provider value]|]; [|done].
  apply secure_quiet; [done|apply GetReactiveAssignment_quiet|]. intros [[a|]|e]; [by apply assigned_route_secure| |done].
  eapply secure_bind; [done|by apply compatible_targets_secure|]. intros [l|e] c' K' Hst' ->; [|done].
  assert (Hown : secure (owners_route r (SearchBudget.Kind id) provider value l) c K' (same c)).
  { unfold owners_route. destruct (filter _ l) as [|[owner b] [|? ?]]; [done| |done]. apply secure_ask; [done|]. intros now.
    apply secure_quiet; [done|apply PutReactiveAssignment_quiet|]. by intros [u|e]. }
  by destruct l as [|[target owns] [|? ?]].
Qed.

Lemma Remember_secure r identity arrName c (K : reactive_tables -> Prop) : stable K -> secure (Remember r identity arrName) c K (same c).
Proof.
  intros Hst. unfold Remember. destruct identity as [id|]; [|done]. destruct (routingKey _) as [[provider value]|]; [|done].
  destruct (negb _); [done|]. apply secure_ask; [done|]. intros now. apply secure_quiet; [done|apply PutReactiveAssignment_quiet|done].
Qed.

Section Secure.
Context (FindYears : bytes -> list Z) (MatchString : string -> bytes -> bool) (s : Service).
Implicit Type K : reactive_tables -> Prop.

Lemma decide_commit_secure d entry K : stable K -> n_RepresentationID entry = d_RepresentationID d -> d_Action d = Approve \/ d_Action d = Assign ->
  secure (decide_commit FindYears MatchString s d entry) None K keep.
Proof.
  intros Hst E Ha. unfold decide_commit. destruct (_ && _); [done|]. eapply secure_bind; [done|by apply Commit_secure|].
  intros [res|e] c' K' Hst' [-> Hp]; [|done]. case_bool_decide as Es.
  - eapply secure_bind; [done|by apply enqueue_secure|done].
  - destruct (rs_ReviewRequired res); [eapply secure_bind; [done|by apply enqueue_secure|done]|].
    destruct Hp as [[_ Hd]|?]; [|done].
    assert (Hrow : forall t, K' t -> row_done t (n_RepresentationID entry)) by (intros; rewrite E; by apply Hd).
    eapply secure_bind; [done|apply resolve_secure; [done|done|intros Ea; by destruct Ha; congruence]|done].
Qed.

Lemma decide_remove_secure d entry K : stable K -> d_Action d = Remove -> secure (decide_remove d entry) None K keep.
Proof.
  intros Hst Ea. unfold decide_remove. apply secure_quiet; [done|apply get_proposal_quiet|]. intros [[p|]|e]; [|done..].
  apply secure_ask; [done|]. intros [[item|]|e]; [|done..]. apply secure_ask; [done|]. intros [e|]; [done|].
  eapply secure_bind; [done|apply resolve_secure; rewrite ?Ea; [done|by intros [?|?]|done]|done].
Qed.

Lemma Decide_secure d K : stable K -> secure (Decide FindYears MatchString s d) None K keep.
Proof.
  intros Hst. unfold Decide. apply secure_ask; [done|]. intros [e|]; [done|]. apply secure_ask; [done|]. intros now.
  apply secure_quiet; [done|apply SyncReactivePending_quiet|]. intros [u|e]; [|done].
  apply secure_stmt; [intros e; exists None; by split; [left|]|]. intros t t' found Ht HK _ [= <- <-]. split_and!; [done|apply advance_refl|].
  exists None, K. split_and!; [by apply m_same|done|done|]. destruct (pending t !! d_RepresentationID d) as [entry|] eqn:En; [|done].
  destruct (to_pending _ Ht _ _ En) as [[Ek _ _ _ _ _] _]. destruct (n_Resolved entry); [done|].
  destruct (d_Action d) eqn:Ea; rewrite <- ?Ea.
  - apply decide_commit_secure; auto.
  - eapply secure_bind; [done|apply resolve_secure; rewrite ?Ea; [done|by intros [?|?]|done]|done].
  - apply decide_commit_secure; auto.
  - eapply secure_bind; [done|apply resolve_secure; rewrite ?Ea; [done|by intros [?|?]|done]|done].
  - by apply decide_remove_secure.
  - eapply secure_bind; [done|by apply Undo_secure|]. intros [e|] c' K' Hst' [-> Hu]; [done|].
    eapply secure_bind; [done|apply resolve_secure; rewrite ?Ea; [done|by intros [?|?]|by intros _; apply Hu]|done].
  - done.
Qed.

Lemma List_secure after limit K : stable K -> secure (List after limit) None K keep.
Proof.
  intros Hst. unfold List. apply secure_ask; [done|]. intros [e|]; [done|]. apply secure_ask; [done|]. intros now.
  apply secure_quiet; [done|apply SyncReactivePending_quiet|]. intros [u|e]; [|done]. split; [intros e; exists None; by split; [left|]|].
  intros t t' b Ht HK Hc H. apply ListReactivePending_quiet in H as (Ht' & Ha & E); [|done]. split_and!; [done|done|].
  exists None, None, K. split_and!; [by apply m_same|by left|done|by eapply Hst|done].
Qed.

(** An outcome keeps no claim. *)
Definition no_claim {A} : A -> claim -> (reactive_tables -> Prop) -> Prop := fun _ c' _ => c' = None.

Lemma dispatch_commit_secure entry route K : stable K -> secure (dispatch_commit FindYears MatchString s entry route) None K no_claim.
Proof.
  intros Hst. unfold dispatch_commit. eapply secure_bind; [done|by apply Commit_secure|]. intros [res|e] c' K' Hst' [-> Hp].
  - destruct Hp as [[Es Hd]|Es]; rewrite Es; [|done]. destruct (rs_ReviewRequired res); [done|].
    eapply secure_bind; [done|by apply resolve_secure|]. by intros ? ? ? ? ->.
  - destruct (errors_Is _ _); [|done]. eapply secure_bind; [done|apply resolve_secure; [done|by intros [?|?]|done]|]. by intros ? ? ? ? ->.
Qed.

Lemma dispatch_entry_secure router entry K : stable K -> secure (dispatch_entry FindYears MatchString s router entry) None K no_claim.
Proof.
  intros Hst. unfold dispatch_entry. apply secure_quiet; [done|apply get_proposal_quiet|]. intros [[p|]|e]; [|done..].
  apply secure_ask; [done|]. intros [[item|]|e]; [|done..]. destruct (i_ProviderIdentity item) as [id|].
  - eapply secure_bind; [done|by apply Resolve_secure|]. intros [route|e] c' K' Hst' ->; [|done]. destruct (commits_route route).
    + by apply dispatch_commit_secure.
    + eapply secure_bind; [done|by apply enqueue_secure|]. by intros ? ? ? ? ->.
  - eapply secure_bind; [done|by apply enqueue_secure|]. by intros ? ? ? ? ->.
Qed.

Lemma dispatch_entries_secure router entries : forall r K, stable K -> secure (dispatch_entries FindYears MatchString s router entries r) None K no_claim.
Proof.
  induction entries as [|entry entries IH]; intros r K Hst; [done|]. cbn [dispatch_entries]. apply secure_ask; [done|]. intros [e|]; [done|].
  destruct (bool_decide _); [|by apply IH]. eapply secure_bind; [done|by apply dispatch_entry_secure|]. intros o c' K' Hst' ->. by apply IH.
Qed.

Lemma next_page_secure after K : stable K -> secure (next_page after) None K no_claim.
Proof.
  intros Hst. unfold next_page. apply secure_quiet; [done|apply ListReactivePending_quiet|]. intros [[|n l]|e]; [|done..].
  destruct after as [|x after]; [done|]. split; [intros e; exists None; by split; [left|]|].
  intros t t' b Ht HK Hc H. apply ListReactivePending_quiet in H as (Ht' & Ha & E); [|done]. split_and!; [done|done|].
  exists None, None, K. split_and!; [by apply m_same|by left|done|by eapply Hst|done].
Qed.

Lemma Process_secure mode router after K : stable K -> secure (Process FindYears MatchString s mode router after) None K keep.
Proof.
  intros Hst. unfold Process. apply secure_ask; [done|]. intros [e|]; [done|].
  assert (Hrun : forall k : prog (DispatchResult * option goerror * bytes), (forall K', stable K' -> secure k None K' keep) ->
    secure (do! now := question Now in get! _ := stmt (SyncReactivePending now) or (fun err => (no_dispatch, Some err, after)) in k) None K keep).
  { intros k Hk. apply secure_ask; [done|]. intros now. apply secure_quiet; [done|apply SyncReactivePending_quiet|]. intros [u|e]; [by apply Hk|done]. }
  destruct mode; [done|by apply Hrun|]. apply Hrun. clear K Hst Hrun. intros K Hst. eapply secure_bind; [done|by apply next_page_secure|].
  intros [entries|e] c' K' Hst' ->; [|done]. eapply secure_bind; [done|by apply dispatch_entries_secure|]. by intros [r err] c' K2 Hst2 ->.
Qed.
End Secure.
