(* ===== verification/Reactive.v ===== *)
(** Reactive acquisition as a whole: what holds of the tables, of the queue and of what the
    registrar was asked, in every interleaving of the calls; where automatic dispatch may
    send an identity; and that its cycles come past every entry. *)

From Stdlib Require Import ZArith Lia Sorted.
From stdpp Require Import base list numbers strings gmap sets relations sorting.
From S2P Require Import Prelude Outcome PlaybackCoverage SearchBudget ContentProof Continuity IdentityCheck.
From S2P Require Import ReactiveStore ReactiveLogic ReactiveCommit ReactiveQueue.

Local Open Scope Z_scope.
Local Open Scope harbor_scope.
Local Open Scope prog_scope.

(** ** The calls *)

Section Calls.
Context (FindYears : bytes -> list Z) (MatchString : string -> bytes -> bool) (s : Service).

Inductive call : prog unit -> Prop :=
| call_Commit req : call (do! _ := Commit FindYears MatchString s req in Ret tt)
| call_Undo rep : call (do! _ := Undo rep in Ret tt)
| call_List after limit : call (do! _ := List after limit in Ret tt)
| call_Decide d : call (do! _ := Decide FindYears MatchString s d in Ret tt)
| call_Process mode router after : call (do! _ := Process FindYears MatchString s mode router after in Ret tt)
| call_Resolve r identity : call (do! _ := Resolve r identity in Ret tt)
| call_Remember r identity arrName : call (do! _ := Remember r identity arrName in Ret tt).

Lemma call_secure p : call p -> secure p None (fun _ => True) (fun _ _ _ => True).
Proof.
  pose proof stable_true as Hst. intros [req|rep|after limit|d|mode router after|r identity|r identity arrName];
    (eapply secure_bind; [done| |by intros]).
  - by apply Commit_secure.
  - by apply Undo_secure.
  - by apply List_secure.
  - by apply Decide_secure.
  - by apply Process_secure.
  - by apply Resolve_secure.
  - by apply Remember_secure.
Qed.

Lemma reached_system x : reached call x -> exists claims, system_ok x claims.
Proof. apply reached_claims, call_secure. Qed.

Lemma calls_step x y claims : system_ok x claims -> step call x y ->
  exists claims', system_ok y claims' /\ settled (y_tables x) (y_tables y) (y_log x) (y_log y) claims claims'.
Proof. apply system_step, call_secure. Qed.

(** A row that nobody claims and that is not committed never changes. *)
Lemma settled_steps x y : rtc (step call) x y -> forall claims rep row, system_ok x claims -> unclaimed claims rep ->
  commits (y_tables x) !! rep = Some row -> c_State row <> Committed ->
  commits (y_tables y) !! rep = Some row /\ about rep (y_log y) = about rep (y_log x).
Proof.
  induction 1 as [|x z y Hxz _ IH]; intros claims rep row Hx Hu Hr Hs; [done|].
  destruct (calls_step x z claims Hx Hxz) as (claims' & Hz & Hset). destruct (Hset rep row Hu Hr Hs) as (Hu' & Hr' & E).
  rewrite <- E. by apply (IH claims').
Qed.

(** What was done about a proposal is what its row says. *)
Definition row_tells (row : option ReactiveCommit) (l : list Registration) : Prop :=
  match row with
  | None => l = []
  | Some row =>
      match c_State row with
      | Committing => (length l <= 1)%nat
      | Committed => l = [c_Registration row]
      | Undoing => l = [] \/ l = [c_Registration row]
      | Parked | Undone => l = []
      end
  end.

Lemma in_step_tells t l rep : in_step t l rep -> row_tells (commits t !! rep) l.
Proof. unfold in_step. by destruct (commits t !! rep) as [row|]. Qed.

(** C26. However commits, undos, operator decisions, dispatch cycles, failing statements and
    restarts of the process interleave, the registrations of a proposal that the registrar
    was not asked to undo are the ones its row tells: none without a row or when the row is
    parked or undone, exactly the row's own when it is committed, that or none while it is
    being undone, and never more than one. *)
Theorem registrations_told x : reached call x -> forall rep, row_tells (commits (y_tables x) !! rep) (live (y_log x) rep).
Proof.
  intros Hx rep. destruct (reached_system x Hx) as (claims & [_ _ _ Hr]). apply in_step_tells.
  destruct (Hr rep) as [(i & st & _ & Hh & Hl)|[_ Hu]]; [by eapply unclaimed_weaker|done].
Qed.

(** C27. A proposal that was parked or undone stays so: whatever runs afterwards, its row is
    the same and the registrar is never asked about it again.  After a restart the same is
    true of a row that was left in the middle, committing or being undone. *)
Theorem settled_for_good x y rep row : reached call x -> commits (y_tables x) !! rep = Some row ->
  c_State row = Parked \/ c_State row = Undone \/ (y_threads x = [] /\ c_State row <> Committed) -> rtc (step call) x y ->
  commits (y_tables y) !! rep = Some row /\ about rep (y_log y) = about rep (y_log x).
Proof.
  intros Hx Hr Hs Hxy. destruct (reached_system x Hx) as (claims & Hok).
  assert (H : unclaimed claims rep /\ c_State row <> Committed).
  { destruct Hs as [Hs|[Hs|[Hn Hs]]].
    - split; [|by rewrite Hs]. exact (proj1 (unclaimed_row _ _ _ _ _ (so_reps _ _ Hok rep) Hr ltac:(by rewrite Hs) ltac:(by rewrite Hs))).
    - split; [|by rewrite Hs]. exact (proj1 (unclaimed_row _ _ _ _ _ (so_reps _ _ Hok rep) Hr ltac:(by rewrite Hs) ltac:(by rewrite Hs))).
    - split; [|done]. pose proof (so_threads _ _ Hok) as Hf. rewrite Hn in Hf. apply Forall2_nil_inv_l in Hf as ->. by intros j d ?. }
  destruct H as [Hu Hc]. by eapply settled_steps.
Qed.

(** C28. In every interleaving, an entry of the queue is for a proposal that exists and for a
    known reason; an open entry carries no decision; and one that was closed as approved or
    assigned is of a proposal that was committed, one that was closed as undone of a proposal
    that is undone. *)
Theorem decisions_hold x rep n : reached call x -> pending (y_tables x) !! rep = Some n ->
  proposed (y_tables x) rep = true /\ n_RepresentationID n = rep /\ n_Reason n ∈ [SupervisedReview; WeakEvidence; PositiveMismatch; RoutingUnresolved; RoutingAmbiguous] /\
  if n_Resolved n then
    n_ExitAction n <> no_action /\
    match n_ExitAction n with
    | Approve | Assign => exists row, commits (y_tables x) !! rep = Some row /\ c_State row ∈ [Committed; Undoing; Undone]
    | UndoAction => exists row, commits (y_tables x) !! rep = Some row /\ c_State row = Undone
    | _ => True
    end
  else n_ExitAction n = no_action /\ n_ArrName n = [].
Proof.
  intros Hx Hn. destruct (reached_system x Hx) as (claims & [Ht _ _ _]). destruct (to_pending _ Ht rep n Hn) as [[Hk Hv Ho Hc Hd Hu] Hp].
  split_and!; [done|done|destruct (n_Reason n); (done || set_solver)|]. destruct (n_Resolved n); [|by apply Ho]. split; [by apply Hc|].
  destruct (n_ExitAction n) eqn:E; try done; [by apply Hd; [|left]|by apply Hd; [|right]|].
  destruct Hu as (row & Hr & Hs); [done|done|]. exists row. split; [done|]. by apply list_elem_of_singleton.
Qed.
End Calls.

(** ** A proposal that runs through *)

Module Demo.
Definition FindYears : bytes -> list Z := fun _ => [].
Definition MatchString : string -> bytes -> bool := fun _ _ => false.
Definition s : Service := MkService false true.
Definition rep : bytes := str "rep-1".
Definition proposal : Proposal := MkProposal rep (str "item-1") (str "file-1") ExtentDeclaredBytes 90 100 float_one 5.
Definition identity : ProviderIdentity := MkIdentity (str "movie") (str "Heat") (MkIDs [] (str "949") []) [] 0 0.
Definition item : Item := MkItem (str "item-1") (str "Heat") (Some (str "/library/heat.strm")) (Some identity) None [].
Definition registration : Registration := MkRegistration (str "radarr") (str "movie") 3 [8] true None [].

(** The registrar imports; every instance answers with one row. *)
Definition answer (B : Type) (q : ask B) : B :=
  match q in ask B return B with
  | CtxErr => None
  | Now => 7 * second
  | GetItemByID _ => Ok (Some item)
  | StatFile _ => None
  | AskContinuity _ => Ok []
  | AskProofs _ _ => Ok []
  | RegCommit _ _ => Ok registration
  | RegUndo _ _ => None
  | RemoveCommitted _ => None
  | ArrRows _ _ => Ok (200, [MkRow []])
  end.

Definition start : reactive_tables := match CreateProposal no_tables proposal with Ok (t, _) => t | Err _ => no_tables end.
Definition request : Request := MkRequest rep ModeAuto (str "radarr") [] 0.
Definition decide_ (action : pending_action) : prog (Result * option goerror) := Decide FindYears MatchString s (MkDecision rep action [] [] 0).

(** One more call, run to its end. *)
Definition ran {A} (p : prog A) (y : system) : system :=
  let '(_, t, log) := run answer p (y_tables y) (y_log y) in MkSystem t log (y_threads y ++ [Ret tt]).
Definition proposed_ : system := MkSystem start [] [].
Definition committed : system := ran (Commit FindYears MatchString s request) proposed_.
Definition undone_ : system := ran (Undo rep) committed.
End Demo.

Abbreviation demo_call := (call Demo.FindYears Demo.MatchString Demo.s).

Lemma ran_steps {A} (p : prog A) y : demo_call (do! _ := p in Ret tt) -> rtc (step demo_call) y (Demo.ran p y).
Proof.
  intros Hp. destruct y as [t log ths]. unfold Demo.ran. cbn [y_tables y_log y_threads].
  pose proof (run_steps demo_call Demo.answer (do! _ := p in Ret tt) (length ths) t log (ths ++ [do! _ := p in Ret tt]) (list_lookup_middle ths [] _ _ eq_refl)) as H.
  rewrite run_bind in H. destruct (run Demo.answer p t log) as [[a t'] log']. cbn [run] in H.
  eapply rtc_l; [by apply step_start|]. replace (ths ++ [Ret tt]) with (<[length ths := Ret tt]> (ths ++ [do! _ := p in Ret tt])); [done|].
  replace (length ths) with (length ths + 0)%nat by lia. by rewrite insert_app_r.
Qed.

Lemma demo_proposed : reached demo_call Demo.proposed_.
Proof.
  assert (H : CreateProposal no_tables Demo.proposal = Ok (Demo.start, true)) by (vm_compute; reflexivity).
  eapply reached_step; [apply reached_start|]. by eapply step_proposal.
Qed.

Lemma demo_committed : reached demo_call Demo.committed.
Proof. eapply reached_steps; [apply demo_proposed|]. apply ran_steps, call_Commit. Qed.

Lemma demo_undone : reached demo_call Demo.undone_.
Proof. eapply reached_steps; [apply demo_committed|]. apply ran_steps, call_Undo. Qed.

Lemma demo_decided : reached demo_call (Demo.ran (Demo.decide_ UndoAction) (Demo.ran (Demo.decide_ Approve) Demo.proposed_)).
Proof. eapply reached_steps; [eapply reached_steps; [apply demo_proposed|apply (ran_steps (Demo.decide_ Approve)), call_Decide]|]. apply (ran_steps (Demo.decide_ UndoAction)), call_Decide. Qed.

Lemma registrations_told_witness :
  live (y_log Demo.committed) Demo.rep = [Demo.registration] /\
  row_tells (commits (y_tables Demo.committed) !! Demo.rep) (live (y_log Demo.committed) Demo.rep).
Proof. split; [vm_compute; reflexivity|]. exact (registrations_told Demo.FindYears Demo.MatchString Demo.s Demo.committed demo_committed Demo.rep). Defined.

Lemma settled_for_good_witness :
  exists row, commits (y_tables Demo.undone_) !! Demo.rep = Some row /\ c_State row = Undone /\
    let y := Demo.ran (Commit Demo.FindYears Demo.MatchString Demo.s Demo.request) Demo.undone_ in
    commits (y_tables y) !! Demo.rep = Some row /\ about Demo.rep (y_log y) = about Demo.rep (y_log Demo.undone_).
Proof.
  eexists. split; [vm_compute; reflexivity|]. split; [reflexivity|]. cbv zeta.
  apply (settled_for_good Demo.FindYears Demo.MatchString Demo.s Demo.undone_ _ Demo.rep); [exact demo_undone|vm_compute; reflexivity|right; left; reflexivity|].
  apply ran_steps, call_Commit.
Defined.

Lemma decisions_hold_witness :
  let y := Demo.ran (Demo.decide_ UndoAction) (Demo.ran (Demo.decide_ Approve) Demo.proposed_) in
  exists n, pending (y_tables y) !! Demo.rep = Some n /\ n_Resolved n = true /\ n_ExitAction n = UndoAction /\
    exists row, commits (y_tables y) !! Demo.rep = Some row /\ c_State row = Undone.
Proof.
  cbv zeta. set (y := Demo.ran _ _). eexists. split; [vm_compute; reflexivity|]. split; [reflexivity|]. split; [reflexivity|].
  eassert (H : _) by (apply (decisions_hold Demo.FindYears Demo.MatchString Demo.s y Demo.rep); [exact demo_decided|vm_compute; reflexivity]).
  apply H.
Defined.

(** The calls act before the queue says whether it takes the decision: an entry that could not
    be routed is committed when it is approved, with strong evidence and all, and then the
    approval is refused and the entry stays open. *)
Example approval_refused_after_commit :
  let unrouted := match EnqueueReactivePending Demo.rep (str "item-1") RoutingUnresolved 6 Demo.start with Ok (t, _) => t | Err _ => Demo.start end in
  let strong (B : Type) (q : ask B) : B := match q in ask B return B with
    | AskProofs _ _ => Ok [MkEvidence Demo.rep ScopeWhole 0 1 KindAuthoritative AlgorithmSHA256 [] ProvenanceHTTPDigest [] None 0]
    | q => Demo.answer _ q end in
  let '(_, err, t, log) := run strong (Demo.decide_ Approve) unrouted [] in
  err = Some (errors_New (str "store: invalid reactive pending decision")) /\ log = [CommitAsked Demo.rep (Some Demo.registration)] /\
  option_map c_State (commits t !! Demo.rep) = Some Committed /\ option_map n_Resolved (pending t !! Demo.rep) = Some false.
Proof. vm_compute. repeat split. Qed.

(** A removal of an entry of weak evidence takes the output away and is refused. *)
Example removal_refused_after_removing :
  let gone (B : Type) (q : ask B) : B := match q in ask B return B with
    | RemoveCommitted _ => Some (errors_New (str "asked to remove"))
    | q => Demo.answer _ q end in
  let t := y_tables (Demo.ran (Demo.decide_ Approve) Demo.proposed_) in
  option_map n_Reason (pending t !! Demo.rep) = Some WeakEvidence /\
  (run gone (Demo.decide_ Remove) t []).1.1.2 = Some (errors_New (str "asked to remove")) /\
  (run Demo.answer (Demo.decide_ Remove) t []).1.1.2 = Some (errors_New (str "store: invalid reactive pending decision")).
Proof. vm_compute. repeat split. Qed.

(** ** Where an identity goes *)

Section Routing.
Context (answer : forall B, ask B -> B).

(** What an instance says of an identity: whether it owns it, and whether it is of its kind. *)
Definition view (identity : option ProviderIdentity) (target : ArrTarget) : result goerror (bool * bool) :=
  (run answer (targetState target identity) no_tables []).1.1.

Lemma run_targetState target identity t log : run answer (targetState target identity) t log = (view identity target, t, log).
Proof.
  unfold view, targetState. destruct identity as [id|]; [|done]. destruct (routingKey _) as [[provider value]|]; [|done].
  cbn. rewrite !app_nil_r. by destruct (answer _ _) as [[status rows]|e].
Qed.

Definition kin (identity : option ProviderIdentity) (target : ArrTarget) : option (ArrTarget * bool) :=
  match view identity target with Ok (owns, true) => Some (target, owns) | _ => None end.

Lemma run_compatible l identity t log : exists res, run answer (compatible_targets l identity) t log = (res, t, log) /\
  match res with Ok c => c = omap (kin identity) l | Err _ => True end.
Proof.
  induction l as [|target l IH]; [by eexists|]. cbn [compatible_targets]. rewrite run_bind, run_targetState.
  destruct (view identity target) as [[owns app]|e] eqn:Ev; [|by eexists]. rewrite run_bind. destruct IH as (res & -> & Hres).
  destruct res as [c|e]; [|by eexists]. eexists. split; [done|]. subst c. cbn. unfold kin. rewrite Ev. by destruct app.
Qed.

Lemma kin_in identity (l : list ArrTarget) target owns : (target, owns) ∈ omap (kin identity) l -> target ∈ l /\ view identity target = Ok (owns, true).
Proof.
  intros H. apply list_elem_of_omap in H as (x & Hx & H). unfold kin in H. destruct (view identity x) as [[o []]|e] eqn:E; try done.
  injection H as <- <-. done.
Qed.

Lemma in_kin identity (l : list ArrTarget) target owns : target ∈ l -> view identity target = Ok (owns, true) -> (target, owns) ∈ omap (kin identity) l.
Proof. intros H E. apply list_elem_of_omap. exists target. split; [done|]. unfold kin. by rewrite E. Qed.

(** The instance a route leads to, and why it may. *)
Definition leads (r : Router) (identity : option ProviderIdentity) (route : RouteResult) (target : ArrTarget) : Prop :=
  target ∈ targets r /\ a_Name target = t_ArrName route /\ view identity target = Ok (t_Owned route, true) /\
  (t_Owned route = false -> CanAdd target = true /\ t_RootFolder route = a_RootFolder target /\ t_QualityProfile route = a_QualityProfile target).

Lemma leads_to r identity target owns tier : target ∈ targets r -> view identity target = Ok (owns, true) ->
  let route := route_to (a_Name target) tier owns in
  let route := if owns then route else addableRoute target route in
  commits_route route = true -> leads r identity route target.
Proof.
  intros Hin Hv. destruct owns; cbv zeta.
  - intros _. by split_and!.
  - unfold addableRoute. destruct (CanAdd target) eqn:Ec; cbn [negb]; [intros _; by split_and!|]. intros H. exfalso. unfold commits_route in H. cbn in H. by rewrite andb_false_r in H.
Qed.

Lemma parked_route_waits reason tier : commits_route (parked_route reason tier) = false.
Proof. done. Qed.

Definition sole (r : Router) (identity : option ProviderIdentity) (target : ArrTarget) : Prop :=
  forall other, other ∈ targets r -> view identity other = Ok (true, true) -> other = target.

Lemma owners_lead r identity kind provider value t log route t' log' :
  run answer (owners_route r kind provider value (omap (kin identity) (targets r))) t log = (Ok route, t', log') -> commits_route route = true ->
  exists target, leads r identity route target /\ sole r identity target.
Proof.
  set (c := omap (kin identity) (targets r)). unfold owners_route. intros H Hr.
  assert (Howner : forall other, other ∈ targets r -> view identity other = Ok (true, true) -> (other, true) ∈ filter (fun c : ArrTarget * bool => c.2 = true) c).
  { intros other Ho Hv. apply list_elem_of_filter. split; [done|by apply in_kin]. }
  destruct (filter _ c) as [|[owner b] [|? ?]] eqn:Ef.
  - injection H as <- _ _. unfold default_route in *. destruct (bool_decide _); [done|]. destruct (find _ c) as [[target owns]|] eqn:E; [|done].
    apply find_some in E as [Hin E]. apply list_elem_of_In in Hin. apply andb_true_iff in E as [_ Hc]. cbn [fst snd] in *.
    destruct (kin_in _ _ _ _ Hin) as [Ht Hv].
    assert (owns = false) as -> by (destruct owns; [|done]; by specialize (Howner target Ht Hv); apply not_elem_of_nil in Howner).
    exists target. split; [exact (leads_to r identity target false 2 Ht Hv Hr)|]. intros other Ho Hv'. by specialize (Howner other Ho Hv'); apply not_elem_of_nil in Howner.
  - assert (Hin : (owner, b) ∈ filter (fun c : ArrTarget * bool => c.2 = true) c) by (rewrite Ef; by apply list_elem_of_singleton).
    apply list_elem_of_filter in Hin as [Hb Hin]. cbn in Hb. subst b. destruct (kin_in _ _ _ _ Hin) as [Ht Hv].
    rewrite run_bind in H. cbn [question run] in H. rewrite run_bind in H. cbn [stmt run] in H. destruct (PutReactiveAssignment _ _ _) as [[t1 u]|e]; [|done]. cbn in H.
    injection H as <- _ _. exists owner. split; [exact (leads_to r identity owner true 1 Ht Hv Hr)|].
    intros other Ho Hv'. specialize (Howner other Ho Hv'). apply list_elem_of_singleton in Howner. by injection Howner.
  - by injection H as <- _ _.
Qed.

(** C29. The route that automatic dispatch commits leads to one of the configured instances,
    which answered that it is of the identity's kind; it owns the identity, or nothing more is
    done than adding to an instance that declares its root folder and quality profile, with
    exactly these.  Unless it is a remembered assignment that says so, no other instance owns
    the identity. *)
Theorem route_justified r id t log route t' log' :
  run answer (Resolve r (Some id)) t log = (Ok route, t', log') -> commits_route route = true ->
  exists target, leads r (Some id) route target /\
    ((exists provider value a, routingKey (Some id) = Some (provider, value) /\
        GetReactiveAssignment (SearchBudget.Kind id) provider value t = Ok (t, Some a) /\ as_ArrName a = t_ArrName route) \/
     sole r (Some id) target).
Proof.
  intros H Hr. unfold Resolve in H. destruct (routingKey (Some id)) as [[provider value]|] eqn:Ek; [|by injection H as <- _ _].
  rewrite run_bind in H. cbn [stmt run] in H. destruct (GetReactiveAssignment _ _ _ t) as [[t1 found]|e] eqn:Ea; [|done].
  assert (t1 = t) as -> by (unfold GetReactiveAssignment in Ea; destruct (negb _); [done|by injection Ea]). cbn [run] in H.
  destruct found as [a|].
  - unfold assigned_route in H. destruct (find _ _) as [target|] eqn:Ef; [|by injection H as <- _ _].
    apply find_some in Ef as [Hin Hname]. apply list_elem_of_In in Hin. bool_hyps. rewrite run_bind, run_targetState in H.
    destruct (view (Some id) target) as [[owns app]|e] eqn:Ev; [|done]. cbn [run] in H. injection H as <- _ _. destruct app; [|done].
    exists target. split; [|left; exists provider, value, a; split_and!; [done..|unfold addableRoute; by destruct owns, (negb (CanAdd target))]].
    revert Hr. rewrite <- Hname. by apply leads_to.
  - rewrite run_bind in H. destruct (run_compatible (targets r) (Some id) t log) as (res & E & Hres). rewrite E in H. destruct res as [c|e]; [|done].
    subst c. destruct (omap (kin (Some id)) (targets r)) as [|[target owns] [|x c]] eqn:Ec; [rewrite <- Ec in H|cbn in H; injection H as <- _ _|rewrite <- Ec in H].
    + destruct (owners_lead _ _ _ _ _ _ _ _ _ _ H Hr) as (target & ? & ?). exists target. by split; [|right].
    + destruct (kin_in (Some id) (targets r) target owns) as [Ht Hv]; [rewrite Ec; by apply list_elem_of_singleton|].
      exists target. split; [by apply leads_to|right]. intros other Ho Hv'. apply (in_kin _ _ _ _ Ho) in Hv'. rewrite Ec in Hv'.
      apply list_elem_of_singleton in Hv'. by injection Hv'.
    + destruct (owners_lead _ _ _ _ _ _ _ _ _ _ H Hr) as (target' & ? & ?). exists target'. by split; [|right].
Qed.
End Routing.

(** Two instances of which one has the film, and a default that can add. *)
Definition demo_router : Router :=
  SetDefaultDestinations (MkRouter [MkTarget (str "hd") (str "http://hd") (str "k") (str "/hd") 4; MkTarget (str "uhd") (str "http://uhd") (str "k") [] 0] [] []) [] (str "hd").

Lemma route_justified_witness :
  let answer (B : Type) (q : ask B) : B := match q in ask B return B with
    | ArrRows target _ => Ok (200, if bool_decide (a_Name target = str "uhd") then [MkRow []] else [])
    | q => Demo.answer _ q end in
  exists route t' log', run answer (Resolve demo_router (Some Demo.identity)) Demo.start [] = (Ok route, t', log') /\
    exists target, leads answer demo_router (Some Demo.identity) route target /\ a_Name target = str "uhd".
Proof.
  cbv zeta. do 3 eexists. split; [vm_compute; reflexivity|].
  edestruct (route_justified (fun B (q : ask B) => match q in ask B return B with
    | ArrRows target _ => Ok (200, if bool_decide (a_Name target = str "uhd") then [MkRow []] else [])
    | q => Demo.answer _ q end) demo_router Demo.identity Demo.start []) as (target & H & _); [vm_compute; reflexivity|vm_compute; reflexivity|].
  exists target. split; [exact H|]. destruct H as (_ & -> & _). vm_compute. reflexivity.
Defined.

(** ** A cursor over a shrinking order *)

Lemma str_ltb_trans a b c : str_ltb a b = true -> str_ltb b c = true -> str_ltb a c = true.
Proof. intros H1 H2. destruct (weak_split a c b H1) as [H|H]; [done|]. by rewrite (weak_asym _ _ H2) in H. Qed.

Lemma str_ltb_total a : forall b, str_ltb a b = false -> str_ltb b a = false -> a = b.
Proof.
  induction a as [|x a IH]; intros [|y b]; cbn; try done. rewrite (Z.eqb_sym y x). destruct (Z.eqb_spec x y) as [->|]; [intros; f_equal; by apply IH|].
  rewrite !Z.ltb_ge. lia.
Qed.

Lemma str_ltb_irrefl a : str_ltb a a = false.
Proof. destruct (str_ltb a a) eqn:E; [|done]. by rewrite (weak_asym _ _ E) in E. Qed.

Section Turns.
Context (B : nat) (Bpos : (0 < B)%nat).
Abbreviation sorted_reps := (StronglySorted (fun a b => str_ltb a b = true)).

Definition after_ (c : bytes) (l : list bytes) : list bytes := filter (fun x => str_ltb c x = true) l.
Definition up_to (c e : bytes) (l : list bytes) : list bytes := filter (fun x => str_ltb c x = true /\ str_ltb e x = false) l.
Definition turn (l : list bytes) (c : bytes) : list bytes :=
  match take B (after_ c l), c with [], _ :: _ => take B (after_ [] l) | p, _ => p end.
Definition turned (p : list bytes) : bytes := if bool_decide (length p = B) then default [] (last p) else [].

Lemma sorted_nodup l : sorted_reps l -> NoDup l.
Proof.
  induction 1 as [|x l _ IH Hx]; [constructor|]. apply list.NoDup_cons. split; [|done]. intros Hin. rewrite list.Forall_forall in Hx.
  specialize (Hx x Hin). by rewrite str_ltb_irrefl in Hx.
Qed.

Lemma sorted_filter (P : bytes -> Prop) `{!forall x, base.Decision (P x)} l : sorted_reps l -> sorted_reps (filter P l).
Proof.
  induction 1 as [|x l Hl IH Hx]; [constructor|]. rewrite filter_cons. destruct (decide (P x)); [|done]. constructor; [done|].
  apply list.Forall_forall. intros y Hy. apply list_elem_of_filter in Hy as [_ Hy]. by rewrite list.Forall_forall in Hx; apply Hx.
Qed.

Lemma sorted_split l k x y : sorted_reps l -> x ∈ take k l -> y ∈ drop k l -> str_ltb x y = true.
Proof.
  intros Hl Hx Hy. rewrite <- (take_drop k l) in Hl. apply StronglySorted_app in Hl as (H & _ & _). by apply H.
Qed.

Lemma sorted_last l z x : sorted_reps l -> last l = Some z -> x ∈ l -> str_ltb z x = false.
Proof.
  intros Hl Hz Hx. apply last_Some in Hz as [l' ->]. apply elem_of_app in Hx as [Hx|Hx%list_elem_of_singleton]; [|subst; apply str_ltb_irrefl].
  apply StronglySorted_app in Hl as (H & _ & _). apply weak_asym, H; [done|by apply list_elem_of_singleton].
Qed.

Lemma shrunk (l l' : list bytes) : NoDup l' -> l' ⊆ l -> (length l' <= length l)%nat.
Proof. intros. by apply submseteq_length, NoDup_submseteq. Qed.

(** A full page moves the cursor past [B] of what was in front of it. *)
Lemma full_page (P : bytes -> Prop) `{!forall x, base.Decision (P x)} l l' c z : sorted_reps l -> sorted_reps l' -> l' ⊆ l ->
  last (take B (after_ c l)) = Some z -> length (take B (after_ c l)) = B -> (forall x, x ∈ take B (after_ c l) -> P x) ->
  (length (filter (fun x => str_ltb z x = true /\ P x) l') + B <= length (filter (fun x => str_ltb c x = true /\ P x) l))%nat.
Proof.
  intros Hl Hl' Hsub Hz Hlen HP. set (p := take B (after_ c l)) in *. assert (Hp : sorted_reps p) by (eapply StronglySorted_app_1_l; unfold p; rewrite (take_drop B (after_ c l)); by apply sorted_filter).
  assert (Hin : forall x, x ∈ p -> x ∈ l /\ str_ltb c x = true).
  { intros x Hx. apply (subseteq_take B) in Hx. by apply list_elem_of_filter in Hx as [? ?]. }
  assert (Hcz : str_ltb c z = true) by (apply Hin; apply last_Some in Hz as [p' ->]; apply elem_of_app; right; by apply list_elem_of_singleton).
  rewrite Nat.add_comm, <- Hlen, <- length_app. apply shrunk.
  - apply NoDup_app. split_and!; [by apply sorted_nodup| |by apply sorted_nodup, sorted_filter].
    intros x Hx Hx'. apply list_elem_of_filter in Hx' as [[Hx' _] _]. by rewrite (sorted_last p z x Hp Hz Hx) in Hx'.
  - intros x [Hx|Hx]%elem_of_app; apply list_elem_of_filter.
    + destruct (Hin x Hx). split_and!; [done|by apply HP|done].
    + apply list_elem_of_filter in Hx as [[H1 H2] H3]. split_and!; [by eapply str_ltb_trans|done|by apply Hsub].
Qed.

(** What is still in front of [e]: the rest of the round when the cursor is past it. *)
Context (L : nat -> list bytes) (c : nat -> bytes) (e : bytes).
Context (Lsorted : forall i, sorted_reps (L i)) (Lempty : forall i, [] ∉ L i) (Lshrinks : forall i, L (S i) ⊆ L i) (Le : forall i, e ∈ L i).
Context (c_moves : forall i, c (S i) = turned (turn (L i) (c i))).

Definition ahead (i : nat) : nat :=
  if str_ltb (c i) e then length (up_to (c i) e (L i)) else (length (after_ (c i) (L i)) + B + length (L 0))%nat.

Lemma L_bound i : (length (L i) <= length (L 0))%nat.
Proof. induction i as [|i IH]; [done|]. etransitivity; [|exact IH]. apply shrunk; [by apply sorted_nodup|done]. Qed.

Lemma filter_bound (P : bytes -> Prop) `{!forall x, base.Decision (P x)} i : (length (filter P (L i)) <= length (L 0))%nat.
Proof. etransitivity; [apply length_filter|apply L_bound]. Qed.

Lemma nil_before : str_ltb [] e = true.
Proof. pose proof (Le 0%nat) as H. assert (e <> []) by (intros E; rewrite E in H; by apply (Lempty 0%nat)). by destruct e. Qed.

(** A page from in front of [e] that is without it is full, and ends in front of it. *)
Lemma missed i cur : str_ltb cur e = true -> e ∉ take B (after_ cur (L i)) ->
  length (take B (after_ cur (L i))) = B /\ exists z, last (take B (after_ cur (L i))) = Some z /\ str_ltb z e = true /\
    forall x, x ∈ take B (after_ cur (L i)) -> str_ltb e x = false.
Proof.
  intros Hc Hn. assert (Hin : e ∈ after_ cur (L i)) by by apply list_elem_of_filter. set (l := after_ cur (L i)) in *.
  assert (Hl : sorted_reps l) by by apply sorted_filter. rewrite <- (take_drop B l) in Hin. apply elem_of_app in Hin as [?|Hin]; [done|].
  assert (Hlen : length (take B l) = B).
  { rewrite length_take. destruct (drop B l) eqn:E; [by apply not_elem_of_nil in Hin|]. apply (f_equal length) in E. rewrite length_drop in E. cbn in E. lia. }
  split; [done|]. destruct (last (take B l)) as [z|] eqn:Ez; [|apply last_None in Ez; rewrite Ez in Hlen; cbn in Hlen; lia].
  assert (Hb : forall x, x ∈ take B l -> str_ltb x e = true) by (intros x Hx; by apply (sorted_split l B)).
  exists z. split_and!; [done| |intros x Hx; by apply weak_asym, Hb]. apply Hb. apply last_Some in Ez as [p ->]. apply elem_of_app. right. by apply list_elem_of_singleton.
Qed.

Lemma missed_moves i cur : str_ltb cur e = true -> e ∉ take B (after_ cur (L i)) -> c (S i) = turned (take B (after_ cur (L i))) ->
  (ahead (S i) + B <= length (up_to cur e (L i)))%nat.
Proof.
  intros Hc Hn Hm. destruct (missed i cur Hc Hn) as (Hlen & z & Hz & Hze & Hall). unfold turned in Hm. rewrite bool_decide_true, Hz in Hm by done. cbn in Hm.
  unfold ahead. rewrite Hm, Hze. unfold up_to. by apply full_page.
Qed.

Lemma turn_moves i : e ∉ turn (L i) (c i) -> (ahead (S i) + B <= ahead i)%nat.
Proof.
  intros Hn. specialize (c_moves i) as Hm. unfold ahead at 2. destruct (str_ltb (c i) e) eqn:Hc.
  - assert (Ht : turn (L i) (c i) = take B (after_ (c i) (L i))).
    { unfold turn. destruct (take B (after_ (c i) (L i))) eqn:E; [|done]. exfalso.
      assert (Hin : e ∈ after_ (c i) (L i)) by by apply list_elem_of_filter. destruct (after_ (c i) (L i)); [by apply not_elem_of_nil in Hin|]. destruct B; [lia|done]. }
    rewrite Ht in Hm, Hn. by apply missed_moves.
  - unfold turn in Hm, Hn. destruct (take B (after_ (c i) (L i))) as [|x p] eqn:E.
    + destruct (c i) as [|y cs]; [by rewrite nil_before in Hc|]. pose proof (missed_moves i [] nil_before Hn Hm) as H.
      pose proof (filter_bound (fun x => str_ltb [] x = true /\ str_ltb e x = false) i). unfold up_to in H. lia.
    + rewrite <- E in Hm.
      unfold turned in Hm. case_bool_decide as Hlen; [|unfold ahead; rewrite Hm, nil_before; pose proof (filter_bound (fun x => str_ltb [] x = true /\ str_ltb e x = false) (S i)); unfold up_to; lia].
      destruct (last (take B (after_ (c i) (L i)))) as [z|] eqn:Ez; [|by rewrite E in Ez; apply last_None in Ez]. cbn in Hm.
      assert (Hze : str_ltb z e = false).
      { destruct (str_ltb z e) eqn:Hze; [|done]. rewrite (str_ltb_trans (c i) z e) in Hc; [done| |done]. apply last_Some in Ez as [q Eq].
        assert (Hz : z ∈ take B (after_ (c i) (L i))) by (rewrite Eq; apply elem_of_app; right; by apply list_elem_of_singleton).
        apply (subseteq_take B) in Hz. by apply list_elem_of_filter in Hz as [? _]. }
      unfold ahead. rewrite Hm, Hze. pose proof (full_page (fun _ => True) (L i) (L (S i)) (c i) z (Lsorted i) (Lsorted (S i)) (Lshrinks i) Ez Hlen (fun _ _ => I)) as H.
      unfold after_. rewrite (list_filter_iff _ (fun x => str_ltb z x = true /\ True)), (list_filter_iff (fun x => str_ltb (c i) x = true) (fun x => str_ltb (c i) x = true /\ True)) by (intros; tauto). lia.
Qed.

Lemma turns_come : exists i, (B * i <= 2 * length (L 0) + B)%nat /\ e ∈ turn (L i) (c i).
Proof.
  assert (H : forall k, (exists i, (B * i <= 2 * length (L 0) + B)%nat /\ e ∈ turn (L i) (c i)) \/ (ahead k + B * k <= 2 * length (L 0) + B)%nat).
  { intros k. induction k as [|k [IH|IH]]; [right|by left|].
    - unfold ahead. destruct (str_ltb (c 0) e); [pose proof (filter_bound (fun x => str_ltb (c 0%nat) x = true /\ str_ltb e x = false) 0)|pose proof (filter_bound (fun x => str_ltb (c 0%nat) x = true) 0)];
        unfold up_to, after_; lia.
    - destruct (decide (e ∈ turn (L k) (c k))) as [He|He]; [left; exists k; split; [lia|done]|right]. apply turn_moves in He. lia. }
  destruct (H (2 * length (L 0) + B + 1)%nat) as [?|Hk]; [done|]. nia.
Qed.
End Turns.

(** ** Every entry has its turn *)

Section Cycles.
Context (answer : forall B, ask B -> B).

(** The page a cycle looks at. *)
Definition page (t : reactive_tables) (cursor : bytes) : list ReactivePending :=
  match (run answer (next_page cursor) t []).1.1 with Ok l => l | Err _ => [] end.

Lemma by_representation_weak : StrictWeak by_representation.
Proof. split; unfold by_representation; [intros a b; apply weak_asym|intros a b c; apply weak_split]. Qed.

Definition beyond (cursor : bytes) (l : list ReactivePending) : list ReactivePending := filter (fun n => str_ltb cursor (n_RepresentationID n) = true) l.

Definition good_cursor (cursor : bytes) : Prop := contains_any cursor forbidden_text = false.

Lemma run_page t cursor : good_cursor cursor ->
  page t cursor = match take 25 (beyond cursor (open_entries t)), cursor with
                  | [], _ :: _ => take 25 (beyond [] (open_entries t))
                  | l, _ => l
                  end.
Proof.
  intros Hc. unfold page, next_page. rewrite run_bind. cbn [stmt run]. unfold ListReactivePending at 1. rewrite Hc. cbn [orb Z.leb Z.ltb Z.compare BatchSize].
  change (Z.to_nat BatchSize) with 25%nat. fold (beyond cursor (open_entries t)). destruct (take 25 (beyond cursor (open_entries t))); [|done].
  by destruct cursor.
Qed.
Definition reps (l : list ReactivePending) : list bytes := map n_RepresentationID l.

Lemma reps_after c l : reps (beyond c l) = after_ c (reps l).
Proof. unfold reps, beyond, after_. induction l as [|n l IH]; [done|]. cbn [map]. rewrite !filter_cons. destruct (decide (str_ltb c (n_RepresentationID n) = true)); cbn [map]; by rewrite IH. Qed.

Lemma reps_page t c : good_cursor c -> reps (page t c) = turn 25 (reps (open_entries t)) c.
Proof.
  intros Hc. rewrite run_page by done. unfold turn. rewrite <- !reps_after. unfold reps. rewrite !firstn_map.
  by destruct (take 25 (beyond c (open_entries t))), c.
Qed.

Lemma next_after_reps l : next_after l = turned 25 (reps l).
Proof.
  unfold next_after, turned, reps. rewrite length_map, fmap_last. change (Z.of_nat (length l) = BatchSize) with (Z.of_nat (length l) = 25).
  destruct (decide (length l = 25%nat)) as [E|E]; [rewrite !bool_decide_true by lia; by destruct (last l)|by rewrite !bool_decide_false by lia].
Qed.

(** A cycle on its own goes on from the page it looked at. *)
Lemma Process_cursor FindYears MatchString s router cursor t t1 log : answer _ CtxErr = None -> SyncReactivePending (answer _ Now) t = Ok (t1, tt) -> good_cursor cursor ->
  (run answer (Process FindYears MatchString s Auto router cursor) t log).1.1.2 = next_after (page t1 cursor).
Proof.
  intros Hx Hs Hc. assert (H : forall log, run answer (next_page cursor) t1 log = (Ok (page t1 cursor), t1, log)).
  { clear log. intros log. rewrite run_page by done. unfold next_page. rewrite run_bind. cbn [stmt run]. unfold ListReactivePending at 1. rewrite Hc. cbn [orb Z.leb Z.ltb Z.compare BatchSize].
    change (Z.to_nat BatchSize) with 25%nat. fold (beyond cursor (open_entries t1)). destruct (take 25 (beyond cursor (open_entries t1))); [|done]. by destruct cursor. }
  unfold Process. rewrite run_bind. cbn [question run]. rewrite Hx, run_bind. cbn [question run]. rewrite run_bind. cbn [stmt run]. rewrite Hs. cbn [run].
  rewrite run_bind, H, run_bind. by destruct (run answer (dispatch_entries _ _ _ _ _ _) _ _) as [[[r err] t2] log2].
Qed.

Lemma open_in t n : n ∈ open_entries t <-> n_Resolved n = false /\ exists rep, pending t !! rep = Some n.
Proof.
  unfold open_entries. rewrite sort_by_perm, list_elem_of_filter, list_elem_of_fmap. split; (intros [H1 H2]; split; [done|]).
  - destruct H2 as ([rep m] & -> & H). exists rep. by apply elem_of_map_to_list.
  - destruct H2 as [rep H]. exists (rep, n). split; [done|by apply elem_of_map_to_list].
Qed.

Lemma open_reps (l : list (bytes * ReactivePending)) : NoDup l.*1 -> (forall rn, rn ∈ l -> n_RepresentationID rn.2 = rn.1) ->
  NoDup (reps (filter (fun n => n_Resolved n = false) (map snd l))).
Proof.
  intros Hn Hl. assert (Hs : sublist (reps (filter (fun n => n_Resolved n = false) (map snd l))) l.*1); [|by eapply sublist_NoDup].
  clear Hn. induction l as [|[rep n] l IH]; [constructor|]. specialize (IH ltac:(intros rn H; by apply Hl, list.elem_of_cons; right)).
  cbn [map fmap list_fmap snd fst]. rewrite filter_cons. destruct (decide (n_Resolved n = false)); [|by constructor].
  cbn [reps map]. specialize (Hl (rep, n) (list_elem_of_here _ _)). cbn [fst snd] in Hl. rewrite Hl. by constructor.
Qed.

Lemma open_sorted t : tables_ok t -> StronglySorted (fun a b => str_ltb a b = true) (reps (open_entries t)).
Proof.
  intros Ht. assert (Hd : NoDup (reps (open_entries t))).
  { unfold open_entries, reps. rewrite (sort_by_perm by_representation). apply open_reps; [apply NoDup_fst_map_to_list|].
    intros [rep n] H. apply elem_of_map_to_list in H. apply (to_pending _ Ht rep n H). }
  unfold open_entries in *. pose proof (@sort_by_sorted _ by_representation by_representation_weak (filter (fun n => n_Resolved n = false) (map snd (map_to_list (pending t))))) as Hs.
  induction Hs as [|n l Hs IH Hn]; cbn; [constructor|]. cbn in Hd. apply list.NoDup_cons in Hd as [Hx Hd]. constructor; [by apply IH|].
  apply list.Forall_forall. intros y Hy. pose proof Hy as Hy'. apply list_elem_of_fmap in Hy as (m & -> & Hm). rewrite list.Forall_forall in Hn. specialize (Hn m Hm). cbn in Hn. unfold by_representation in Hn.
  destruct (str_ltb (n_RepresentationID n) (n_RepresentationID m)) eqn:E; [done|]. destruct Hx. by rewrite (str_ltb_total _ _ E Hn).
Qed.

Lemma open_valid t n : tables_ok t -> n ∈ open_entries t -> ValidateRepresentationID (n_RepresentationID n) = true.
Proof. intros Ht [_ [rep H]]%open_in. destruct (to_pending _ Ht rep n H) as [[-> _ _ _ _ _] Hp]. by apply (to_valid _ Ht). Qed.

Lemma valid_cursor rep : ValidateRepresentationID rep = true -> rep <> [] /\ good_cursor rep.
Proof.
  unfold ValidateRepresentationID. destruct (_ || _) eqn:E; [done|]. intros _. apply orb_false_iff in E as [E E4]. do 2 apply orb_false_iff in E as [E _]. bool_hyps.
  split; [done|]. unfold good_cursor, contains_any in *. induction rep as [|x rep IH]; [done|]. cbn [existsb] in *. apply orb_false_iff in E4 as [E4 E5]. apply orb_false_iff. split.
  - cbn in *. destruct (x =? 13), (x =? 10), (x =? 0); done.
  - destruct rep; [done|]. by apply IH.
Qed.

Lemma next_cursor_good t c : tables_ok t -> good_cursor c -> good_cursor (next_after (page t c)).
Proof.
  intros Ht Hc. unfold next_after. destruct (bool_decide _); [|done]. destruct (last _) as [n|] eqn:E; [|done].
  apply (valid_cursor (n_RepresentationID n)), (open_valid t n Ht). apply last_Some in E as [l E].
  assert (Hn : n ∈ page t c) by (rewrite E; apply elem_of_app; right; by apply list_elem_of_singleton).
  assert (Hb : forall k c', n ∈ take k (beyond c' (open_entries t)) -> n ∈ open_entries t).
  { intros k c' H. apply (subseteq_take k) in H. by apply list_elem_of_filter in H as [_ ?]. }
  rewrite run_page in Hn by done. destruct (take 25 (beyond c (open_entries t))) eqn:Et; [destruct c; [by apply not_elem_of_nil in Hn|by eapply Hb]|].
  apply (Hb 25%nat c). by rewrite Et.
Qed.

(** C30. Automatic dispatch reaches every entry of the queue.  Whatever happens between the
    cycles, as long as nothing new arrives in the queue, an entry that stays open is on the
    page of one of the first 2n/25 + 1 cycles after the first, n being the open entries at the
    start, wherever the cursor was. *)
Theorem every_entry_has_its_turn FindYears MatchString s (x : nat -> system) (cursor : nat -> bytes) (e : bytes) :
  (forall i, reached (call FindYears MatchString s) (x i)) -> contains_any (cursor 0%nat) forbidden_text = false ->
  (forall i, cursor (S i) = next_after (page (y_tables (x i)) (cursor i))) ->
  (forall i n, n ∈ open_entries (y_tables (x (S i))) -> exists n', n' ∈ open_entries (y_tables (x i)) /\ n_RepresentationID n' = n_RepresentationID n) ->
  (forall i, exists n, n ∈ open_entries (y_tables (x i)) /\ n_RepresentationID n = e) ->
  exists i n, (25 * i <= 2 * length (open_entries (y_tables (x 0%nat))) + 25)%nat /\ n ∈ page (y_tables (x i)) (cursor i) /\ n_RepresentationID n = e.
Proof.
  intros Hx Hc Hm Hs He. assert (Ht : forall i, tables_ok (y_tables (x i))) by (intros i; by destruct (reached_system _ _ _ _ (Hx i)) as (claims & [? _ _ _])).
  assert (Hg : forall i, good_cursor (cursor i)) by (induction i; [done|]; rewrite Hm; by apply next_cursor_good).
  destruct (turns_come 25 ltac:(lia) (fun i => reps (open_entries (y_tables (x i)))) cursor e) as (i & Hi & Hin).
  - intros i. by apply open_sorted.
  - intros i H. apply list_elem_of_fmap in H as (n & E & Hn). apply (open_valid _ _ (Ht i)), valid_cursor in Hn as [Hn _]. by rewrite <- E in Hn.
  - intros i y Hy. apply list_elem_of_fmap in Hy as (n & -> & Hn). destruct (Hs i n Hn) as (n' & Hn' & <-). by apply list_elem_of_fmap_2.
  - intros i. destruct (He i) as (n & Hn & <-). by apply list_elem_of_fmap_2.
  - intros i. by rewrite Hm, next_after_reps, reps_page.
  - rewrite <- reps_page in Hin by done. apply list_elem_of_fmap in Hin as (n & -> & Hn). exists i, n. split_and!; [|done|done].
    unfold reps in Hi. by rewrite length_map in Hi.
Qed.
End Cycles.

Lemma every_entry_has_its_turn_witness :
  contains_any (str "rep-0") forbidden_text = false /\
  exists i n, (25 * i <= 2 * length (open_entries (y_tables Demo.proposed_)) + 25)%nat /\
    n ∈ page Demo.answer (y_tables Demo.proposed_) (match i with O => str "rep-0" | _ => [] end) /\ n_RepresentationID n = Demo.rep.
Proof.
  assert (Ho : exists n, n ∈ open_entries (y_tables Demo.proposed_) /\ n_RepresentationID n = Demo.rep).
  { exists (fresh_pending Demo.rep (str "item-1") SupervisedReview 5 5). split; [|reflexivity]. apply open_in. split; [reflexivity|]. exists Demo.rep. vm_compute. reflexivity. }
  split; [vm_compute; reflexivity|].
  apply (every_entry_has_its_turn Demo.answer Demo.FindYears Demo.MatchString Demo.s (fun _ => Demo.proposed_)
    (fun i => match i with O => str "rep-0" | _ => [] end) Demo.rep).
  - intros _. exact demo_proposed.
  - vm_compute. reflexivity.
  - intros [|i]; vm_compute; reflexivity.
  - intros _ n Hn. exists n. split; [exact Hn|reflexivity].
  - intros _. exact Ho.
Defined.
