(* ===== verification/NntpPool.v ===== *)
(** The pool of authenticated connections: internal/nntp/pool.go, with the attempts of
    provider.go and healthaudit.go that lease from it.

    A buffered channel holds what may be taken: an empty slot for each connection that is not
    dialed, and [PipelineDepth] tokens for each that is.  A function is a program of locked
    sections, sends and receives on the channel, the mutex of dialing, and questions to the
    surroundings (the clock, the ceiling, the wire); several programs run one such step at a
    time, in any order.  A connection is known by its number. *)

From Stdlib Require Import ZArith Lia.
From stdpp Require Import base list numbers strings.
From S2P Require Import Prelude Outcome PlaybackCoverage ContentProof.

Local Open Scope Z_scope.
Local Open Scope harbor_scope.

(** ** Connections *)

Record Conn := MkConn {
  k_lastUsed : Z; k_err : option goerror; k_dead : bool; k_closed : bool; k_replaced : bool; k_leases : Z; k_serial : bool; k_warm : bool
}.

Definition fresh_conn (now : Z) : Conn := MkConn now None false false false 0 false false.

(** [c.setError(err)] with an error. *)
Definition setError (err : goerror) (c : Conn) : Conn :=
  MkConn (k_lastUsed c) (match k_err c with None => Some err | e => e end) true (k_closed c) (k_replaced c) (k_leases c) (k_serial c) (k_warm c).

Definition with_life (c : Conn) (dead replaced : bool) (leases : Z) : Conn :=
  MkConn (k_lastUsed c) (k_err c) dead (k_closed c) replaced leases (k_serial c) (k_warm c).

(** [ok, pipelined, replace]. *)
Definition beginLease (depth idleTimeout now : Z) (c : Conn) : Conn * (bool * bool * bool) :=
  if k_dead c || k_closed c then
    if (k_leases c =? 0) && negb (k_replaced c) then (with_life c (k_dead c) true (k_leases c), (false, false, true))
    else (c, (false, false, false))
  else if (k_leases c =? 0) && (0 <? idleTimeout) && (idleTimeout <? now - k_lastUsed c) then (with_life c true true (k_leases c), (false, false, true))
  else if (k_serial c && (0 <? k_leases c)) || (depth <=? k_leases c) then (c, (false, false, false))
  else (with_life c (k_dead c) (k_replaced c) (k_leases c + 1), (true, 0 <? k_leases c, false)).

(** [reusable, replace, wireFailure]. *)
Definition releaseLease (err : option goerror) (now : Z) (c : Conn) : Conn * (bool * bool * bool) :=
  let wireFailure := match k_err c with Some _ => true | None => false end in
  let dead := k_dead c || wireFailure || match err with Some _ => true | None => false end in
  let leases := if 0 <? k_leases c then k_leases c - 1 else k_leases c in
  if negb dead then (MkConn now (k_err c) dead (k_closed c) (k_replaced c) leases (k_serial c) (k_warm c), (true, false, false))
  else if (leases =? 0) && negb (k_replaced c) then (with_life c dead true leases, (false, true, wireFailure))
  else (with_life c dead (k_replaced c) leases, (false, false, wireFailure)).

Definition markSerial (c : Conn) : Conn :=
  MkConn (k_lastUsed c) (k_err c) (k_dead c) (k_closed c) (k_replaced c) (k_leases c) true (k_warm c).
Definition setWarm (c : Conn) : Conn :=
  MkConn (k_lastUsed c) (k_err c) (k_dead c) (k_closed c) (k_replaced c) (k_leases c) (k_serial c) true.
Definition touch (now : Z) (c : Conn) : Conn :=
  MkConn now (k_err c) (k_dead c) (k_closed c) (k_replaced c) (k_leases c) (k_serial c) (k_warm c).
Definition Close (c : Conn) : Conn :=
  if k_closed c then c else MkConn (k_lastUsed c) (k_err c) true true (k_replaced c) (k_leases c) (k_serial c) (k_warm c).

(** ** The pool *)

(** The wiring: [ceiled] when a ceiling is set. *)
Record PoolConfig := MkConfig { MaxConns : Z; IdleTimeout : Z; DialTimeout : Z; WarmConns : Z; PipelineDepth : Z; Username : bytes; ceiled : bool }.

(** A slot that is not dialed, or a token of a connection. *)
Abbreviation chan_item := (option nat).

(** [conns] are the connections ever dialed, by their number; [disabled] is the state the pools
    of a provider share; [dialing] is the mutex of dialing. *)
Record Pool := MkPool {
  conns : list Conn; ch : list chan_item; opened : list nat; parked : Z; disabled : bool; dialing : bool;
  coldAcquires : Z; warmAcquires : Z; pipelineCommands : Z
}.

Definition set_conns (p : Pool) (l : list Conn) : Pool :=
  MkPool l (ch p) (opened p) (parked p) (disabled p) (dialing p) (coldAcquires p) (warmAcquires p) (pipelineCommands p).
Definition set_ch (p : Pool) (l : list chan_item) : Pool :=
  MkPool (conns p) l (opened p) (parked p) (disabled p) (dialing p) (coldAcquires p) (warmAcquires p) (pipelineCommands p).
Definition set_opened (p : Pool) (l : list nat) : Pool :=
  MkPool (conns p) (ch p) l (parked p) (disabled p) (dialing p) (coldAcquires p) (warmAcquires p) (pipelineCommands p).
Definition set_parked (p : Pool) (n : Z) : Pool :=
  MkPool (conns p) (ch p) (opened p) n (disabled p) (dialing p) (coldAcquires p) (warmAcquires p) (pipelineCommands p).
Definition set_disabled (p : Pool) : Pool :=
  MkPool (conns p) (ch p) (opened p) (parked p) true (dialing p) (coldAcquires p) (warmAcquires p) (pipelineCommands p).
Definition set_dialing (p : Pool) (b : bool) : Pool :=
  MkPool (conns p) (ch p) (opened p) (parked p) (disabled p) b (coldAcquires p) (warmAcquires p) (pipelineCommands p).
Definition counted (p : Pool) (cold warm commands : Z) : Pool :=
  MkPool (conns p) (ch p) (opened p) (parked p) (disabled p) (dialing p) (coldAcquires p + cold) (warmAcquires p + warm) (pipelineCommands p + commands).

(** The configuration a pool runs with, and the pool it starts as. *)
Definition normal (cfg : PoolConfig) : PoolConfig :=
  let max := if MaxConns cfg <=? 0 then 8 else MaxConns cfg in
  let warm := if WarmConns cfg <? 0 then 0 else WarmConns cfg in
  let depth := if PipelineDepth cfg <? 1 then 1 else PipelineDepth cfg in
  MkConfig max (if IdleTimeout cfg <=? 0 then 300 * second else IdleTimeout cfg) (if DialTimeout cfg <=? 0 then 30 * second else DialTimeout cfg)
    (if max <? warm then max else warm) (if 32 <? depth then 32 else depth) (Username cfg) (ceiled cfg).

Definition NewPool (cfg : PoolConfig) : Pool := MkPool [] (replicate (Z.to_nat (MaxConns (normal cfg))) None) [] 0 false false 0 0 0.

(** ** Programs *)

Inductive cmd_outcome : Type := CmdOk | CmdReply (code : Z) (msg : bytes) | CmdBroken (text : bytes).

(** What the surroundings are asked.  The wire's questions carry the connection. *)
Inductive pool_ask : Type -> Type :=
| Now : pool_ask Z
| CeilingCurrent : pool_ask Z
| OnRejected : pool_ask unit
| CtxErr : pool_ask (option goerror)
| Connect : pool_ask bool
| Greeting : pool_ask (option (Z * bytes))
| AuthUser : pool_ask cmd_outcome
| AuthPass : pool_ask cmd_outcome
| ArmDeadline (c : nat) : pool_ask (option goerror)
| Cmd (c : nat) (line : bytes) : pool_ask (option goerror)
| ReadCodeLine (c : nat) (expect : Z) : pool_ask (option (Z * goerror))
| DecodeBody (c : nat) : pool_ask (result goerror (bytes * Z))
| Consume (data : bytes) (total : Z) : pool_ask (option goerror).

(** The ceiling an account learned is at least one. *)
Definition possible {B} (q : pool_ask B) : B -> Prop := match q with CeilingCurrent => fun n => 1 <= n | _ => fun _ => True end.

Inductive pprog (A : Type) : Type :=
| PRet (a : A)
| PSect {B : Type} (f : Pool -> Pool * B) (k : B -> pprog A)
| PSend (x : chan_item) (k : pprog A)
| PRecv (k : option chan_item -> pprog A)      (* nothing when the context ended *)
| PLock (k : pprog A)
| PUnlock (k : pprog A)
| PAsk {B : Type} (q : pool_ask B) (k : B -> pprog A).
Arguments PRet {A}.
Arguments PSect {A B}.
Arguments PSend {A}.
Arguments PRecv {A}.
Arguments PLock {A}.
Arguments PUnlock {A}.
Arguments PAsk {A B}.

Fixpoint pbind {A B} (p : pprog A) (f : A -> pprog B) : pprog B :=
  match p with
  | PRet a => f a
  | PSect g k => PSect g (fun b => pbind (k b) f)
  | PSend x k => PSend x (pbind k f)
  | PRecv k => PRecv (fun x => pbind (k x) f)
  | PLock k => PLock (pbind k f)
  | PUnlock k => PUnlock (pbind k f)
  | PAsk q k => PAsk q (fun b => pbind (k b) f)
  end.

Definition section {B} (f : Pool -> Pool * B) : pprog B := PSect f PRet.
Definition view {B} (f : Pool -> B) : pprog B := PSect (fun p => (p, f p)) PRet.
Definition update (f : Pool -> Pool) : pprog unit := PSect (fun p => (f p, tt)) PRet.
Definition send (x : chan_item) : pprog unit := PSend x (PRet tt).
Definition lock_ : pprog unit := PLock (PRet tt).
Definition unlock_ : pprog unit := PUnlock (PRet tt).
Definition ask_ {B} (q : pool_ask B) : pprog B := PAsk q PRet.

Declare Scope pprog_scope.
Notation "'run!' x ':=' c 'in' k" := (pbind c (fun x => k))
  (at level 200, x pattern, c at level 100, k at level 200, right associativity) : pprog_scope.
Notation "'also!' c 'in' k" := (pbind c (fun _ => k))
  (at level 200, c at level 100, k at level 200, right associativity) : pprog_scope.
Local Open Scope pprog_scope.

(** A section on one connection. *)
Definition on_conn {B} (c : nat) (f : Conn -> Conn * B) (none : B) (p : Pool) : Pool * B :=
  match conns p !! c with
  | Some k => let (k', b) := f k in (set_conns p (<[c := k']> (conns p)), b)
  | None => (p, none)
  end.
Definition change (c : nat) (f : Conn -> Conn) : pprog unit := section (on_conn c (fun k => (f k, tt)) tt).

(** ** The wire *)

Definition Err_ (c : nat) : pprog (option goerror) := section (on_conn c (fun k => (k, k_err k)) None).

(** [return c.setError(err)]. *)
Definition failed (c : nat) (err : goerror) : pprog (option goerror) := also! change c (setError err) in PRet (Some err).

Definition isArticleMissingCode (code : Z) : bool := (code =? 430) || (code =? 423).
Definition ErrArticleMissing : goerror := errors_New (str "nntp: provider does not have this article").
Definition with_text (s : string) (e : goerror) : goerror := Error (TPlain (str s)) [e].

(** The request of [Body], [Stat] and [Ping]: the command and its code line. *)
Definition request (c : nat) (line : bytes) (expect : Z) (missing : bool) (what : string) : pprog (option goerror) :=
  run! err := Err_ c in
  match err with
  | Some err => PRet (Some err)
  | None =>
      run! err := ask_ (ArmDeadline c) in
      match err with
      | Some err => failed c err
      | None =>
          run! err := ask_ (Cmd c line) in
          match err with
          | Some err => failed c err
          | None =>
              run! reply := ask_ (ReadCodeLine c expect) in
              match reply with
              | None => PRet None
              | Some (code, err) =>
                  if missing && isArticleMissingCode code then PRet (Some (with_text what ErrArticleMissing))
                  else failed c (with_text what err)
              end
          end
      end
  end.

Definition Stat (c : nat) (messageID : bytes) : pprog (option goerror) := request c (str "STAT <" ++ messageID ++ str ">") 223 true "nntp: stat".
Definition Ping (c : nat) : pprog (option goerror) := request c (str "DATE") 111 false "nntp: ping (date)".

Definition BodyDecodedWithTotal (c : nat) (messageID : bytes) : pprog (result goerror (bytes * Z)) :=
  run! err := request c (str "BODY <" ++ messageID ++ str ">") 222 true "nntp: body" in
  match err with
  | Some err => PRet (Err err)
  | None =>
      run! body := ask_ (DecodeBody c) in
      match body with
      | Ok body => PRet (Ok body)
      | Err err =>
          if errors_Is err "nntp: yenc: response not fully drained" then run! _ := failed c err in PRet (Err err)
          else PRet (Err err)
      end
  end.

(** ** Dialing *)

(** What a failed dial is to its caller: the sentinel, a reply of the provider, or neither. *)
Inductive dial_error : Type := CapRejected | Reply (code : Z) (msg : bytes) | OtherError.

Definition looksLikeConnCapRejection (code : Z) (message : bytes) : bool :=
  if negb (code =? 400) && negb (code =? 502) then false
  else
    let lower := ascii_lower message in
    existsb (fun s => contains lower (str s))
      ["too many connections"; "max connections"; "maximum connections"; "connection limit"; "concurrent connections"]%string.

Definition isConnCapRejection (err : dial_error) : bool :=
  match err with CapRejected => true | Reply code msg => looksLikeConnCapRejection code msg | OtherError => false end.

(** [strings.Contains(err.Error(), "281")]; a reply's text is its three digits and its message. *)
Definition digit (n : Z) : Z := 48 + n mod 10.
Definition mentions_281 (o : cmd_outcome) : bool :=
  match o with
  | CmdOk => false
  | CmdReply code msg => contains ([digit (code / 100); digit (code / 10); digit code; 32] ++ msg) (str "281")
  | CmdBroken text => contains text (str "281")
  end.

Definition dial_failed (o : cmd_outcome) : option dial_error :=
  match o with CmdOk => None | CmdReply code msg => Some (Reply code msg) | CmdBroken _ => Some OtherError end.

(** The AUTHINFO exchange. *)
Definition authenticate (cfg : PoolConfig) : pprog (option dial_error) :=
  if bool_decide (Username cfg = []) then PRet None
  else
    run! user := ask_ AuthUser in
    match dial_failed user with
    | Some err => if mentions_281 user then run! pass := ask_ AuthPass in PRet (dial_failed pass) else PRet (Some err)
    | None => run! pass := ask_ AuthPass in PRet (dial_failed pass)
    end.

(** A dial that succeeds makes the next connection. *)
Definition dial (cfg : PoolConfig) : pprog (result dial_error nat) :=
  run! connected := ask_ Connect in
  if negb connected then PRet (Err OtherError)
  else
    run! greeting := ask_ Greeting in
    match greeting with
    | None => PRet (Err OtherError)
    | Some (code, message) =>
        if negb (code / 100 =? 2) then PRet (Err (if looksLikeConnCapRejection code message then CapRejected else OtherError))
        else
          run! err := authenticate cfg in
          match err with
          | Some err => PRet (Err err)
          | None =>
              run! now := ask_ Now in
              section (fun p => (set_conns p (conns p ++ [fresh_conn now]), Ok (length (conns p))))
          end
    end.

(** ** Leases *)

Section Pool.
Context (cfg : PoolConfig).

Definition effectivePipelineDepth (p : Pool) : Z := if disabled p then 1 else PipelineDepth cfg.

Definition disablePipelining : pprog unit :=
  if PipelineDepth cfg <=? 1 then PRet tt
  else
    run! swapped := section (fun p => (set_disabled p, negb (disabled p))) in
    if negb swapped then PRet tt
    else update (fun p => set_conns p (imap (fun c k => if bool_decide (c ∈ opened p) then markSerial k else k) (conns p))).

(** [p.ch <- conn], n times. *)
Fixpoint returnConnTokens (c : nat) (n : nat) : pprog unit :=
  match n with O => PRet tt | S n => also! send (Some c) in returnConnTokens c n end.

(** A receive that does not wait. *)
Definition try_receive : pprog (option chan_item) :=
  section (fun p => match ch p with x :: l => (set_ch p l, Some x) | [] => (p, None) end).

Fixpoint take_scan (limit : nat) : pprog (option nat) :=
  match limit with
  | O => PRet None
  | S limit =>
      run! x := try_receive in
      match x with
      | Some (Some c) => PRet (Some c)
      | Some None => also! send None in take_scan limit
      | None => PRet None
      end
  end.
Definition takeConnToken : pprog (option nat) := run! limit := view (fun p => length (ch p)) in take_scan limit.

Definition removeConn (c : nat) (p : Pool) : Pool :=
  set_opened p (match list_find (fun x => x = c) (opened p) with Some (i, _) => delete i (opened p) | None => opened p end).

Definition parkIfOverCeiling : pprog bool :=
  if negb (ceiled cfg) then PRet false
  else
    run! current := ask_ CeilingCurrent in
    section (fun p => if current <=? Z.of_nat (length (opened p)) then (set_parked p (parked p + 1), true) else (p, false)).

(** The loop under the mutex: a send that does not wait, for each parked slot. *)
Fixpoint unpark_loop (n : nat) (p : Pool) : Pool :=
  match n with
  | O => p
  | S n =>
      if Z.of_nat (length (ch p)) <? MaxConns cfg * PipelineDepth cfg then unpark_loop n (set_parked (set_ch p (ch p ++ [None])) (parked p - 1)) else p
  end.

Definition unparkIfRoom : pprog unit :=
  if negb (ceiled cfg) then PRet tt
  else
    run! current := ask_ CeilingCurrent in
    update (fun p => if Z.of_nat (length (opened p)) <? current then unpark_loop (Z.to_nat (parked p)) p else p).

(** A connection whose place is given back. *)
Definition retire (c : nat) : pprog unit := also! change c Close in also! update (removeConn c) in send None.

(** What a turn of [Acquire] comes to. *)
Inductive turn_result : Type := Again | Acquired (c : nat) | Refused (err : goerror).

Definition ErrDial : goerror := errors_New (str "nntp: pool: dial").
Definition ErrContext : goerror := errors_New (str "context ended").

Definition lease (c : nat) (depth : Z) : pprog turn_result :=
  run! now := ask_ Now in
  run! (ok, pipelined, replace) := section (on_conn c (beginLease depth (IdleTimeout cfg) now) (false, false, false)) in
  if replace then also! retire c in PRet Again
  else if negb ok then PRet Again
  else also! update (fun p => counted p 0 1 (if pipelined : bool then 1 else 0)) in PRet (Acquired c).

(** The slot that was received, under the mutex of dialing. *)
Definition dial_turn (depth : Z) : pprog turn_result :=
  run! over := parkIfOverCeiling in
  if over : bool then also! unlock_ in PRet Again
  else
    run! dialed := dial cfg in
    match dialed with
    | Err err =>
        also! (if ceiled cfg && isConnCapRejection err then ask_ OnRejected else PRet tt) in
        also! send None in
        also! unlock_ in PRet (Refused ErrDial)
    | Ok c =>
        run! now := ask_ Now in
        run! (ok, _, _) := section (on_conn c (beginLease depth (IdleTimeout cfg) now) (false, false, false)) in
        if negb ok then
          also! change c Close in
          also! send None in
          also! unlock_ in PRet Again
        else
          also! update (fun p => set_opened p (opened p ++ [c])) in
          also! returnConnTokens c (Z.to_nat (depth - 1)) in
          also! unlock_ in
          also! update (fun p => counted p 1 0 0) in PRet (Acquired c)
    end.

Definition acquire_turn : pprog turn_result :=
  PRecv (fun x =>
    match x with
    | None => PRet (Refused ErrContext)
    | Some item =>
        run! depth := view effectivePipelineDepth in
        match item with
        | Some c => lease c depth
        | None =>
            also! lock_ in
            run! existing := takeConnToken in
            match existing with
            | Some c => also! send None in also! unlock_ in lease c depth
            | None => dial_turn depth
            end
        end
    end).

(** At most [fuel] turns of the loop. *)
Fixpoint acquire_loop (fuel : nat) : pprog (option (result goerror nat)) :=
  match fuel with
  | O => PRet None
  | S fuel =>
      run! r := acquire_turn in
      match r with
      | Again => acquire_loop fuel
      | Acquired c => PRet (Some (Ok c))
      | Refused err => PRet (Some (Err err))
      end
  end.
Definition Acquire (fuel : nat) : pprog (option (result goerror nat)) := also! unparkIfRoom in acquire_loop fuel.

Definition Release (c : nat) (err : option goerror) : pprog unit :=
  run! now := ask_ Now in
  run! (reusable, replace, wireFailure) := section (on_conn c (releaseLease err now) (false, false, false)) in
  also! (if wireFailure : bool then disablePipelining else PRet tt) in
  if reusable : bool then send (Some c)
  else if replace : bool then also! retire c in unparkIfRoom
  else PRet tt.

(** ** Keeping connections warm *)

Definition warmOpenCount (p : Pool) : Z :=
  Z.of_nat (length (filter (fun c => match conns p !! c with Some k => k_warm k | None => false end = true) (opened p))).

Definition warm_dial : pprog (option nat) :=
  run! dialed := dial cfg in
  match dialed with
  | Err _ => also! send None in PRet None
  | Ok c =>
      also! change c setWarm in
      also! update (fun p => set_opened p (opened p ++ [c])) in
      run! depth := view effectivePipelineDepth in
      also! returnConnTokens c (Z.to_nat depth) in PRet (Some c)
  end.

(** The keepalive of an idle connection; whether it answered. *)
Definition keepalive (c : nat) : pprog bool :=
  run! err := Ping c in
  match err with
  | Some err =>
      run! now := ask_ Now in
      run! (_, replace, _) := section (on_conn c (releaseLease (Some err) now) (false, false, false)) in
      also! (if replace : bool then retire c else PRet tt) in
      also! disablePipelining in PRet false
  | None =>
      run! now := ask_ Now in
      also! change c (touch now) in
      also! send (Some c) in PRet true
  end.

Fixpoint warm_loop (limit : nat) (warmOpen : Z) (seen : list nat) : pprog unit :=
  match limit with
  | O => PRet tt
  | S limit =>
      run! x := try_receive in
      match x with
      | None => PRet tt
      | Some None =>
          if WarmConns cfg <=? warmOpen then also! send None in warm_loop limit warmOpen seen
          else
            run! dialed := warm_dial in
            match dialed with
            | None => PRet tt
            | Some c => warm_loop limit (warmOpen + 1) (c :: seen)
            end
      | Some (Some c) =>
          if bool_decide (c ∈ seen) then also! send (Some c) in warm_loop limit warmOpen seen
          else
            run! (warm, leases, err) := section (on_conn c (fun k => (k, (k_warm k, k_leases k, k_err k))) (false, 0, None)) in
            match err with
            | Some _ => warm_loop limit warmOpen (c :: seen)
            | None =>
                if (0 <? leases) || negb warm then also! send (Some c) in warm_loop limit warmOpen (c :: seen)
                else
                  run! alive := keepalive c in
                  warm_loop limit (if negb alive && (0 <? warmOpen) then warmOpen - 1 else warmOpen) (c :: seen)
            end
      end
  end.

Definition WarmTick : pprog unit :=
  if WarmConns cfg <=? 0 then PRet tt
  else
    run! warmOpen := view warmOpenCount in
    run! limit := view (fun p => length (ch p)) in
    warm_loop limit warmOpen [].

(** [Pool.Close]. *)
Definition close_all (p : Pool) : Pool :=
  set_opened (set_conns p (imap (fun c k => if bool_decide (c ∈ opened p) then Close k else k) (conns p))) [].

(** ** The callers *)

(** One attempt of [fetchArticleFromPoolTotal]; nothing when the fuel ran out. *)
Definition fetch_attempt (fuel : nat) (messageID : bytes) : pprog (option (result goerror (bytes * Z))) :=
  run! acquired := Acquire fuel in
  match acquired with
  | None => PRet None
  | Some (Err err) => PRet (Some (Err err))
  | Some (Ok c) =>
      run! body := BodyDecodedWithTotal c messageID in
      match body with
      | Ok (data, total) =>
          run! cancelled := ask_ CtxErr in
          match cancelled with
          | Some err => also! Release c None in PRet (Some (Err err))
          | None =>
              run! consumeErr := ask_ (Consume data total) in
              also! Release c consumeErr in
              PRet (Some (match consumeErr with Some err => Err err | None => Ok (data, total) end))
          end
      | Err err =>
          also! Release c (if errors_Is err "nntp: provider does not have this article" then None else Some err) in
          PRet (Some (Err err))
      end
  end.

(** [TestConnection]: a connection is taken and given back. *)
Definition TestConnection (fuel : nat) : pprog (option (option goerror)) :=
  run! acquired := Acquire fuel in
  match acquired with
  | None => PRet None
  | Some (Err err) => PRet (Some (Some err))
  | Some (Ok c) => also! Release c None in PRet (Some None)
  end.

Definition statFromPool (fuel : nat) (messageID : bytes) : pprog (option (option goerror)) :=
  run! cancelled := ask_ CtxErr in
  match cancelled with
  | Some err => PRet (Some (Some err))
  | None =>
      run! acquired := Acquire fuel in
      match acquired with
      | None => PRet None
      | Some (Err err) => PRet (Some (Some err))
      | Some (Ok c) =>
          run! statErr := Stat c messageID in
          match statErr with
          | Some err =>
              also! Release c (if errors_Is err "nntp: provider does not have this article" then None else Some err) in PRet (Some (Some err))
          | None => also! Release c None in PRet (Some None)
          end
      end
  end.

End Pool.
