(* ===== verification/NntpPoolLogic.v ===== *)
(** Who owns what of the pool: a program logic for the programs of NntpPool.

    A running program holds resources: slots it received and did not give back, tokens and
    leases of connections, connections it is closing, the mutex of dialing.  [pool_ok] says
    how the pool and everything that is held add up: every one of the [MaxConns] slots is in
    the channel, parked, held, or a connection; the leases a connection counts are the ones
    that are held; and a connection that lives has a token or a lease somewhere, at most
    [PipelineDepth] of them.  [safe] is the logic: each step keeps the sums, whatever the
    other programs hold. *)

From Stdlib Require Import ZArith Lia.
From stdpp Require Import base list numbers strings.
From S2P Require Import Prelude Outcome PlaybackCoverage ContentProof NntpPool.

Local Open Scope Z_scope.
Local Open Scope harbor_scope.
Local Open Scope pprog_scope.

(** ** Resources *)

Inductive res : Type :=
| Slot | Token (c : nat) | Leased (c : nat)
| Pinging (c : nat)       (* a token whose connection did not answer its ping *)
| Closing (c : nat)       (* a slot: its connection was given up and is not closed yet *)
| Removing (c : nat)      (* a slot: its connection is closed and may be listed as open *)
| Fresh (c : nat)         (* the connection was dialed, and nobody else has it *)
| First (c : nat)         (* the first lease of a connection that is not listed as open yet *)
| Unlisted (c : nat)      (* the connection was given up before it was listed *)
| Dialing.                (* the mutex *)

#[export] Instance res_eq_dec : EqDecision res.
Proof. solve_decision. Defined.

Definition is_slot (r : res) : bool := match r with Slot | Closing _ | Removing _ => true | _ => false end.
Definition is_token (c : nat) (r : res) : bool := match r with Token x | Pinging x => bool_decide (x = c) | _ => false end.

Definition is_lease (c : nat) (r : res) : bool := match r with Leased x | First x => bool_decide (x = c) | _ => false end.

Definition held (r : res) (h : list res) : Z := count_by (fun x => bool_decide (x = r)) h.
Definition empties (l : list chan_item) : Z := count_by (fun x => bool_decide (x = None)) l.
Definition tokens_in (c : nat) (l : list chan_item) : Z := count_by (fun x => bool_decide (x = Some c)) l.

(** The item a program sends or receives. *)
Definition item (x : chan_item) : res := match x with Some c => Token c | None => Slot end.

(** ** The sums *)

Definition tokens (p : Pool) (h : list res) (c : nat) : Z := tokens_in c (ch p) + count_by (is_token c) h.
(** What is held of a connection that is not listed yet, and of a connection at all. *)
Definition unborn (c : nat) (h : list res) : Z := held (Fresh c) h + held (First c) h + held (Unlisted c) h.
Definition mine (c : nat) (h : list res) : Z := count_by (is_token c) h + count_by (is_lease c) h + held (Closing c) h + held (Removing c) h + unborn c h.
Definition in_use (p : Pool) : Z := count_by (fun k => negb (k_replaced k)) (conns p).

Ltac resolve_decides := repeat match goal with
  | H : context [bool_decide (?x = ?x)] |- _ => rewrite (bool_decide_true (x = x) eq_refl) in H
  | |- context [bool_decide (?x = ?x)] => rewrite (bool_decide_true (x = x) eq_refl)
  | H : context [bool_decide (?x = ?y)] |- _ => rewrite (bool_decide_false (x = y)) in H by congruence
  | |- context [bool_decide (?x = ?y)] => rewrite (bool_decide_false (x = y)) by congruence
  end.
(** Sums over a list that begins with known resources. *)
Ltac sums := unfold tokens, mine, unborn, held; repeat rewrite ?count_app, ?count_cons, ?count_nil; cbn [is_slot is_token is_lease app item]; resolve_decides.

Section Logic.
Context (cfg : PoolConfig).

(** A connection against the sums of what is held of it: its tokens (those of failed pings
    among them), leases and failed pings, its places being closed and removed, and whether it is new. *)
Record sound (tk ls pg cl rm fr fi ul : Z) (listed : Prop) (k : Conn) : Prop := {
  so_signs : 0 <= tk /\ 0 <= ls /\ 0 <= pg /\ 0 <= cl /\ 0 <= rm /\ 0 <= fr /\ 0 <= fi /\ 0 <= ul;
  so_closed : k_closed k = true -> k_dead k = true;
  so_err : k_dead k = false -> k_err k = None;
  so_replaced : k_replaced k = true -> k_dead k = true;
  so_leases : k_replaced k = false -> 0 <= k_leases k <= ls /\ (1 <= ls -> 1 <= k_leases k);
  so_live : k_dead k = false -> k_leases k = ls /\ tk + ls <= PipelineDepth cfg;
  so_some : k_replaced k = false -> 1 <= tk + k_leases k + fr;
  so_failing : k_replaced k = false -> k_err k <> None -> 1 <= pg + k_leases k;
  so_closing : k_replaced k = true -> k_closed k = false -> 1 <= cl;
  so_gone : 1 <= cl + rm -> k_replaced k = true;
  so_listed : listed -> k_replaced k = true -> 1 <= cl + rm;
  so_unlisted : 1 <= fr + fi + ul -> ~ listed;
  so_fresh : 1 <= fr -> k_dead k = false /\ k_serial k = false /\ tk = 0 /\ ls = 0;
  so_first : 1 <= fi -> k_dead k = false /\ tk = 0 /\ ls = fi
}.

Lemma sound_iff tk ls pg cl rm fr fi ul (l l' : Prop) k : (l <-> l') -> sound tk ls pg cl rm fr fi ul l k -> sound tk ls pg cl rm fr fi ul l' k.
Proof. intros Hl []. split; intros; try tauto; eauto. Qed.

Definition conn_ok (p : Pool) (h : list res) (c : nat) (k : Conn) : Prop :=
  sound (tokens p h c) (count_by (is_lease c) h) (held (Pinging c) h) (held (Closing c) h) (held (Removing c) h) (held (Fresh c) h) (held (First c) h) (held (Unlisted c) h) (c ∈ opened p) k.

Record pool_ok (p : Pool) (h : list res) : Prop := {
  po_slots : empties (ch p) + parked p + count_by is_slot h + in_use p = MaxConns cfg;
  po_parked : 0 <= parked p < MaxConns cfg;
  po_conns : forall c k, conns p !! c = Some k -> conn_ok p h c k;
  po_known : forall c, (length (conns p) <= c)%nat -> tokens_in c (ch p) + mine c h = 0;
  po_opened : NoDup (opened p) /\ forall c, c ∈ opened p -> (c < length (conns p))%nat;
  po_once : forall c, unborn c h <= 1;
  po_dialing : held Dialing h = if dialing p then 1 else 0
}.

(** What the sums of one connection depend on. *)
Definition like (c : nat) (a b : list res) : Prop :=
  count_by (is_token c) a = count_by (is_token c) b /\ count_by (is_lease c) a = count_by (is_lease c) b /\ held (Pinging c) a = held (Pinging c) b /\
  held (Closing c) a = held (Closing c) b /\ held (Removing c) a = held (Removing c) b /\ held (Fresh c) a = held (Fresh c) b /\ held (First c) a = held (First c) b /\ held (Unlisted c) a = held (Unlisted c) b.

Lemma like_app c a b o : like c a b -> like c (a ++ o) (b ++ o).
Proof. intros (? & ? & ? & ? & ? & ? & ? & ?). unfold like, held in *. rewrite !count_app. split_and!; lia. Qed.

Lemma like_perm c h h' : h ≡ₚ h' -> like c h h'.
Proof. intros H. unfold like, held. split_and!; by apply count_perm. Qed.

Lemma like_sums c a b : like c a b -> count_by (is_token c) a = count_by (is_token c) b /\ unborn c a = unborn c b /\ mine c a = mine c b.
Proof. intros (? & ? & ? & ? & ? & ? & ? & ?). unfold mine, unborn. split_and!; lia. Qed.

(** A connection's sums depend on what is like. *)
Lemma conn_ok_like p p' h h' c k : like c h h' -> tokens_in c (ch p) = tokens_in c (ch p') -> (c ∈ opened p <-> c ∈ opened p') -> conn_ok p h c k -> conn_ok p' h' c k.
Proof.
  intros (E1 & E2 & E3 & E4 & E5 & E6 & E7 & E8) Et Eo H. unfold conn_ok, tokens in *. rewrite <- E1, <- E2, <- E3, <- E4, <- E5, <- E6, <- E7, <- E8, <- Et.
  by eapply sound_iff.
Qed.

(** Resources move, and items in and out of the channel, one for one. *)
Lemma pool_ok_moves p p' h h' : pool_ok p h -> conns p' = conns p -> opened p' = opened p -> dialing p' = dialing p -> parked p' = parked p ->
  held Dialing h' = held Dialing h -> empties (ch p') + count_by is_slot h' = empties (ch p) + count_by is_slot h ->
  (forall c, tokens_in c (ch p') + count_by (is_token c) h' = tokens_in c (ch p) + count_by (is_token c) h) ->
  (forall c, count_by (is_lease c) h' = count_by (is_lease c) h /\ held (Pinging c) h' = held (Pinging c) h /\ held (Closing c) h' = held (Closing c) h /\
     held (Removing c) h' = held (Removing c) h /\ held (Fresh c) h' = held (Fresh c) h /\ held (First c) h' = held (First c) h /\ held (Unlisted c) h' = held (Unlisted c) h) -> pool_ok p' h'.
Proof.
  intros [P1 P2 P3 P4 P5 P6 P7] Ec Eo Ed Ep Eh Es Et El.
  split.
  - unfold in_use in *. rewrite Ec, Ep. lia.
  - by rewrite Ep.
  - intros c k Hk. rewrite Ec in Hk. specialize (P3 c k Hk). destruct (El c) as (E2 & E3 & E4 & E5 & E6 & E7 & E8). unfold conn_ok, tokens in *.
    by rewrite Et, Eo, E2, E3, E4, E5, E6, E7, E8.
  - intros c Hc. rewrite Ec in Hc. specialize (P4 c Hc). specialize (Et c). destruct (El c) as (E2 & E3 & E4 & E5 & E6 & E7 & E8). unfold mine, unborn in *. lia.
  - by rewrite Eo, Ec.
  - intros c. destruct (El c) as (E2 & E3 & E4 & E5 & E6 & E7 & E8). unfold unborn. rewrite E6, E7, E8. apply P6.
  - by rewrite Eh, Ed.
Qed.

Lemma pool_ok_perm p h h' : h ≡ₚ h' -> pool_ok p h -> pool_ok p h'.
Proof.
  intros Hp H. apply (pool_ok_moves p p h h' H); try done; unfold held; [by rewrite !(count_perm _ _ _ Hp)..| |].
  - intros c. by rewrite !(count_perm _ _ _ Hp).
  - intros c. by rewrite !(count_perm _ _ _ Hp).
Qed.

(** An item is in the channel, or in a hand. *)
Lemma item_sums x (h : list res) : count_by is_slot (item x :: h) = (if bool_decide (x = None) then 1 else 0) + count_by is_slot h /\
  (forall c, count_by (is_token c) (item x :: h) = (if bool_decide (x = Some c) then 1 else 0) + count_by (is_token c) h) /\
  (forall c, count_by (is_lease c) (item x :: h) = count_by (is_lease c) h) /\ (forall r, (forall y, r <> item y) -> held r (item x :: h) = held r h).
Proof.
  split_and!.
  - destruct x; by rewrite count_cons.
  - intros c. rewrite count_cons. destruct x as [d|]; [|done]. cbn [item is_token].
    destruct (bool_decide_reflect (d = c)), (bool_decide_reflect (Some d = Some c)); congruence.
  - intros c. destruct x; by rewrite count_cons.
  - intros r Hr. unfold held. rewrite count_cons, bool_decide_false by (intros E; by apply (Hr x)). lia.
Qed.

Lemma pool_ok_received p x l h : pool_ok p h -> ch p = x :: l -> pool_ok (set_ch p l) (item x :: h).
Proof.
  intros H E. destruct (item_sums x h) as (E1 & E2 & E4 & E3). apply (pool_ok_moves p _ h _ H); try done; cbn [set_ch ch]; rewrite ?E; unfold empties, tokens_in.
  - apply E3. by intros [].
  - rewrite E1, count_cons. lia.
  - intros c. rewrite E2, count_cons. lia.
  - intros c. rewrite E4, !E3 by (by intros []). done.
Qed.

Lemma pool_ok_sent p x h : pool_ok p (item x :: h) -> pool_ok (set_ch p (ch p ++ [x])) h.
Proof.
  intros H. destruct (item_sums x h) as (E1 & E2 & E4 & E3). apply (pool_ok_moves p _ (item x :: h) _ H); try done; cbn [set_ch ch]; unfold empties, tokens_in.
  - symmetry. apply E3. by intros [].
  - rewrite E1, count_app, count_cons, count_nil. lia.
  - intros c. rewrite E2, count_app, count_cons, count_nil. lia.
  - intros c. rewrite E4, !E3 by (by intros []). done.
Qed.

(** One connection changes, with the resources about it. *)
Lemma pool_ok_conn p a b o c k k' : pool_ok p (a ++ o) -> conns p !! c = Some k ->
  (forall d, d <> c -> like d a b) -> held Dialing b = held Dialing a -> unborn c b <= unborn c a ->
  count_by is_slot b + (if k_replaced k' then 0 else 1) = count_by is_slot a + (if k_replaced k then 0 else 1) ->
  conn_ok p (b ++ o) c k' -> pool_ok (set_conns p (<[c := k']> (conns p))) (b ++ o).
Proof.
  intros [P1 P2 P3 P4 P5 P6 P7] Hc Hl Hd Hu Hs Hk'. assert (Hlt : (c < length (conns p))%nat) by by eapply lookup_lt_Some.
  assert (Hl' : forall d, d <> c -> like d (a ++ o) (b ++ o)) by (intros d Hne; by apply like_app, Hl).
  split; cbn [set_conns conns ch opened parked dialing].
  - unfold in_use in *. cbn [set_conns conns]. rewrite (count_insert _ _ _ _ _ Hc). rewrite !count_app in *. destruct (k_replaced k'), (k_replaced k); cbn [negb]; lia.
  - done.
  - intros d kd Hkd. apply list_lookup_insert_Some in Hkd as [(E1 & E2 & _)|[Hne Hkd]]; [subst d kd; by apply (conn_ok_like p _ (b ++ o))|]. apply (conn_ok_like p _ (a ++ o)); [apply Hl'; congruence|done|done|by apply P3].
  - intros d Hd'. rewrite length_insert in Hd'. destruct (like_sums d _ _ (Hl' d ltac:(lia))) as (_ & _ & <-). by apply P4.
  - by rewrite length_insert.
  - intros d. destruct (decide (d = c)) as [->|Hne]; [specialize (P6 c); unfold unborn, held in *; rewrite !count_app in *; lia|].
    destruct (like_sums d _ _ (Hl' d Hne)) as (_ & <- & _). apply P6.
  - unfold held in *. rewrite count_app in *. lia.
Qed.

(** ** One connection *)

Ltac arith_bools := repeat match goal with
  | H : context [?a =? ?b] |- _ => destruct (Z.eqb_spec a b)
  | H : context [?a <? ?b] |- _ => destruct (Z.ltb_spec a b)
  | H : context [?a <=? ?b] |- _ => destruct (Z.leb_spec a b)
  end; cbn [negb andb orb] in *; try discriminate.
Ltac facts := repeat match goal with
  | H : ?x = ?x -> _ |- _ => specialize (H eq_refl)
  | H : true = false -> _ |- _ => clear H
  | H : false = true -> _ |- _ => clear H
  | H : _ -> true = true |- _ => clear H
  | H : _ /\ _ |- _ => destruct H
  | H : ?P -> false = true |- _ => assert (~ P) by (intros HP; specialize (H HP); discriminate); clear H
  | H : ?P -> _, H' : ?P |- _ => match type of P with Prop => specialize (H H') end
  | H : 1 <= ?n -> _ /\ _ |- _ => destruct (Z.le_gt_cases 1 n); [specialize (H ltac:(assumption))|clear H]
  | H : 1 <= ?n -> 1 <= _ |- _ => destruct (Z.le_gt_cases 1 n); [specialize (H ltac:(assumption))|clear H]
  end.
Ltac sound_facts := split; cbn; intros; facts; [split_and!; lia|..]; subst; try congruence; try lia; try (exfalso; lia);
  try (match goal with K : 1 <= _ -> ?g |- ?g => apply K; lia end); try (match goal with K : _ -> ~ ?l |- ~ ?l => apply K; lia end); try (match goal with H : ?l, K : _ -> ~ ?l |- _ => destruct K; [lia|done] end).
Ltac open_conn k Hk := destruct k as [lu kerr dead closed repl leases serial warm]; destruct Hk as [(tk0 & ls0 & pg0 & cl0 & rm0 & fr0 & fi0 & ul0) K1 K2 K3 K4 K5 K6 K7 K8 K9 K10 K11 K12 K13]; cbn in *.

Section One.
Context (tk ls pg cl rm fr fi ul : Z) (listed : Prop).

Lemma begin_sound depth idle now k k' ok pl replace : 1 <= depth -> 1 <= tk -> sound tk ls pg cl rm fr fi ul listed k ->
  beginLease depth idle now k = (k', (ok, pl, replace)) ->
  sound (tk - 1) (ls + if ok then 1 else 0) pg (cl + if replace then 1 else 0) rm fr fi ul listed k' /\
  (ok = true -> replace = false) /\ k_replaced k' = (k_replaced k || replace) /\ (replace = true -> k_replaced k = false).
Proof.
  intros Hd Ht Hk E. open_conn k Hk. unfold beginLease in E. cbn in E.
  destruct dead.
  - cbn [orb] in E. destruct (leases =? 0) eqn:El; destruct repl; cbn in E; injection E as <- <- <- <-; (split; [|done]); arith_bools; sound_facts.
  - destruct closed; [by specialize (K1 eq_refl)|]. destruct repl; [by specialize (K3 eq_refl)|]. cbn [orb] in E.
    destruct ((leases =? 0) && (0 <? idle) && (idle <? now - lu)) eqn:Ei; [|destruct ((serial && (0 <? leases)) || (depth <=? leases)) eqn:Ef]; injection E as <- <- <- <-; (split; [|done]).
    + do 2 apply andb_true_iff in Ei as [Ei _]. arith_bools; sound_facts.
    + assert (1 <= leases) by (clear Ei; destruct serial; arith_bools; lia). sound_facts.
    + clear Ei. assert (leases < depth) by (destruct serial; arith_bools; lia). sound_facts.
Qed.

Lemma release_sound err now k k' reusable replace wire : fi + 1 <= ls -> sound tk ls pg cl rm fr fi ul listed k ->
  releaseLease err now k = (k', (reusable, replace, wire)) ->
  sound (tk + if reusable then 1 else 0) (ls - 1) pg (cl + if replace then 1 else 0) rm fr fi ul listed k' /\
  (reusable = true -> replace = false) /\ k_replaced k' = (k_replaced k || replace) /\ (replace = true -> k_replaced k = false).
Proof.
  intros Hl Hk E. open_conn k Hk. unfold releaseLease in E. cbn in E.
  destruct dead.
  - cbn [orb negb] in E. destruct (Z.ltb_spec 0 leases); (destruct repl; [rewrite andb_false_r in E|rewrite andb_true_r in E]); cbn in E;
      try (destruct (_ =? 0) eqn:El in E); cbn in E; injection E as <- <- <- <-; (split; [|done]); try arith_bools; sound_facts.
  - destruct closed; [by specialize (K1 eq_refl)|]. destruct repl; [by specialize (K3 eq_refl)|]. rewrite (K2 eq_refl) in E. cbn [orb] in E.
    assert (Hp : 0 < leases) by (facts; lia). destruct (Z.ltb_spec 0 leases); [|lia]. destruct err as [e|]; cbn [negb orb andb] in E.
    + rewrite andb_true_r in E. destruct (Z.eqb_spec (leases - 1) 0); injection E as <- <- <- <-; (split; [|done]); sound_facts.
    + injection E as <- <- <- <-. split; [|done]. sound_facts.
Qed.

(** The release after a ping that failed takes no lease of the pinger: what it takes off the
    count is a lease of somebody else, whose connection is dead. *)
Lemma ping_release_sound n e now k k' reusable replace wire : 0 <= n <= pg -> 1 <= tk -> sound tk ls pg cl rm fr fi ul listed k ->
  releaseLease (Some e) now k = (k', (reusable, replace, wire)) ->
  sound (tk - 1) ls (pg - n) (cl + if replace then 1 else 0) rm fr fi ul listed k' /\
  reusable = false /\ k_replaced k' = (k_replaced k || replace) /\ (replace = true -> k_replaced k = false).
Proof.
  intros Hg Ht Hk E. open_conn k Hk. unfold releaseLease in E. cbn in E.
  rewrite !orb_true_r in E. cbn [negb] in E.
  destruct (Z.ltb_spec 0 leases); (destruct repl; [rewrite andb_false_r in E|rewrite andb_true_r in E]); cbn in E;
    try (destruct (_ =? 0) eqn:El in E); cbn in E; injection E as <- <- <- <-; (split; [|done]); try arith_bools; destruct dead; sound_facts.
Qed.

Lemma error_sound e k : (fi + 1 <= ls \/ 1 <= pg) -> (1 <= pg -> 1 <= tk) -> sound tk ls pg cl rm fr fi ul listed k -> sound tk ls pg cl rm fr fi ul listed (setError e k).
Proof. intros Ho Hp Hk. open_conn k Hk. destruct Ho; sound_facts. Qed.

Lemma close_sound k : sound tk ls pg cl rm fr fi ul listed k -> 1 <= cl -> sound tk ls pg (cl - 1) (rm + 1) fr fi ul listed (Close k).
Proof.
  intros Hk Hc. open_conn k Hk. rewrite K9 in * by lia. rewrite K3 in * by done. unfold Close. cbn. destruct closed; cbn; sound_facts.
Qed.

(** Closing what is listed, and taking it off the list. *)
Lemma close_listed_sound k : sound tk ls pg cl rm fr fi ul listed k -> listed -> sound tk ls pg cl rm fr fi ul False (Close k).
Proof. intros Hk Hl. open_conn k Hk. unfold Close. cbn. destruct closed; cbn; sound_facts. Qed.

Lemma unlisted_sound k : sound tk ls pg cl rm fr fi ul listed k -> sound tk ls pg cl rm fr fi ul False k.
Proof. intros Hk. open_conn k Hk. split; cbn; try done; by intros ? []. Qed.

Lemma removed_sound k : sound tk ls pg cl rm fr fi ul listed k -> ~ listed -> 1 <= rm -> sound tk ls pg cl (rm - 1) fr fi ul listed k.
Proof. intros Hk Hl Hr. open_conn k Hk. sound_facts. Qed.

Lemma listed_now_sound n k : sound tk ls pg cl rm fr fi ul listed k -> fr = 0 -> fi = 1 -> ul = 0 -> 0 <= n < PipelineDepth cfg -> sound (tk + n) ls pg cl rm fr 0 ul True k.
Proof. intros Hk -> -> -> Hn. open_conn k Hk. sound_facts. Qed.

Lemma fresh_listed_sound n k : sound tk ls pg cl rm fr fi ul listed k -> fr = 1 -> fi = 0 -> ul = 0 -> 1 <= n <= PipelineDepth cfg -> sound (tk + n) ls pg cl rm 0 fi ul True k.
Proof. intros Hk -> -> -> Hn. open_conn k Hk. destruct (K12 ltac:(lia)) as (-> & -> & -> & ->). destruct repl; [by specialize (K3 eq_refl)|]. sound_facts. Qed.

Lemma serial_sound k : sound tk ls pg cl rm fr fi ul listed k -> listed -> sound tk ls pg cl rm fr fi ul listed (markSerial k).
Proof. intros Hk Hl. open_conn k Hk. sound_facts. Qed.

Lemma calm_sound k k' : k_err k' = k_err k -> k_dead k' = k_dead k -> k_closed k' = k_closed k -> k_replaced k' = k_replaced k -> k_leases k' = k_leases k ->
  k_serial k' = k_serial k -> sound tk ls pg cl rm fr fi ul listed k -> sound tk ls pg cl rm fr fi ul listed k'.
Proof. intros E1 E2 E3 E4 E5 E6 []. split; rewrite ?E1, ?E2, ?E3, ?E4, ?E5, ?E6; done. Qed.

(** Whoever gave up a connection that was not listed forgets it. *)
Lemma calm_unlisted k : sound tk ls pg cl rm fr fi ul listed k -> 1 <= ul -> sound tk ls pg cl rm fr fi (ul - 1) listed k.
Proof. intros Hk Hu. open_conn k Hk. sound_facts. Qed.

(** Tokens that are dropped. *)
Lemma drop_sound n k : 0 <= n -> n <= tk -> (k_replaced k = false -> 1 <= tk - n + k_leases k + fr) -> sound tk ls pg cl rm fr fi ul listed k -> sound (tk - n) ls pg cl rm fr fi ul listed k.
Proof. intros Hn Ht Hs Hk. open_conn k Hk. sound_facts. Qed.

Lemma pinging_sound k : sound tk ls pg cl rm fr fi ul listed k -> sound tk ls (pg + 1) cl rm fr fi ul listed k.
Proof. intros Hk. open_conn k Hk. sound_facts. Qed.

Lemma fresh_begin_sound depth idle now k k' ok pl replace : 1 <= depth <= PipelineDepth cfg -> fr = 1 -> sound tk ls pg cl rm fr fi ul listed k ->
  beginLease depth idle now k = (k', (ok, pl, replace)) ->
  (if ok then sound tk (ls + 1) pg cl rm 0 (fi + 1) ul listed k' else sound tk ls pg (cl + 1) rm 0 fi (ul + 1) listed k' /\ replace = true) /\
  (k_replaced k = false /\ k_replaced k' = negb ok).
Proof.
  intros Hd -> Hk E. open_conn k Hk. destruct (K12 ltac:(lia)) as (-> & -> & -> & ->). destruct repl; [by specialize (K3 eq_refl)|].
  destruct closed; [by specialize (K1 eq_refl)|]. rewrite (K2 eq_refl) in *. assert (leases = 0) as -> by (by destruct (K5 eq_refl)). unfold beginLease in E.
  cbn in E. destruct (_ && _); [injection E as <- <- <- <-; split; [|done]; split; [|done]; sound_facts|].
  destruct (Z.leb_spec depth 0); [lia|]. injection E as <- <- <- <-. split; [|done]. sound_facts.
Qed.
End One.

(** ** The logic *)

Fixpoint safe {A} (p : pprog A) (h : list res) (Q : A -> list res -> Prop) {struct p} : Prop :=
  match p with
  | PRet a => Q a h
  | PSect f k => forall P o, pool_ok P (h ++ o) -> exists h', pool_ok (f P).1 (h' ++ o) /\ safe (k (f P).2) h' Q
  | PSend x k => exists h', h ≡ₚ item x :: h' /\ safe k h' Q
  | PRecv k => h = [] /\ (forall x, safe (k (Some x)) [item x] Q) /\ safe (k None) [] Q
  | PLock k => Dialing ∉ h /\ safe k (Dialing :: h) Q
  | PUnlock k => exists h', h ≡ₚ Dialing :: h' /\ safe k h' Q
  | PAsk q k => forall b, possible q b -> safe (k b) h Q
  end.

Lemma safe_bind {A B} (p : pprog A) (f : A -> pprog B) Q Q' : forall h, safe p h Q' -> (forall a h', Q' a h' -> safe (f a) h' Q) -> safe (pbind p f) h Q.
Proof.
  induction p as [a|C g k IH|x k IH|k IH|k IH|k IH|C q k IH]; intros h Hp Hf; cbn [pbind safe] in *.
  - by apply Hf.
  - intros P o Ho. destruct (Hp P o Ho) as (h' & Hi & Hk). exists h'. split; [done|by apply IH].
  - destruct Hp as (h' & Hh & Hk). exists h'. split; [done|by apply IH].
  - destruct Hp as (Hh & Hk & Hn). split_and!; [done|intros x; by apply IH|by apply IH].
  - destruct Hp as (Hh & Hk). split; [done|by apply IH].
  - destruct Hp as (h' & Hh & Hk). exists h'. split; [done|by apply IH].
  - intros b Hb. by apply IH, Hf; auto.
Qed.

(** ** Rules *)

Lemma sound_sums tk ls pg cl rm fr fi ul tk' ls' pg' cl' rm' fr' fi' ul' listed k : sound tk ls pg cl rm fr fi ul listed k ->
  tk' = tk -> ls' = ls -> pg' = pg -> cl' = cl -> rm' = rm -> fr' = fr -> fi' = fi -> ul' = ul -> sound tk' ls' pg' cl' rm' fr' fi' ul' listed k.
Proof. by intros ? -> -> -> -> -> -> -> ->. Qed.

Lemma tokens_in_nonneg c l : 0 <= tokens_in c l.
Proof. apply count_nonneg. Qed.
Lemma held_nonneg r h : 0 <= held r h.
Proof. apply count_nonneg. Qed.
Lemma tokens_nonneg p h c : 0 <= tokens p h c.
Proof. unfold tokens. pose proof (tokens_in_nonneg c (ch p)). pose proof (count_nonneg (is_token c) h). lia. Qed.
Hint Resolve held_nonneg tokens_nonneg : pool.

(** Whoever holds something of a connection, it is one. *)
Lemma mine_nonneg c h : 0 <= mine c h.
Proof. unfold mine, unborn, held. repeat match goal with |- context [count_by ?f h] => lazymatch goal with H : 0 <= count_by f h |- _ => fail | _ => pose proof (count_nonneg f h) end end. lia. Qed.

Lemma held_known p a o c : pool_ok p (a ++ o) -> 0 < mine c a -> exists k, conns p !! c = Some k.
Proof.
  intros H Hp. destruct (conns p !! c) as [k|] eqn:E; [by exists k|]. apply lookup_ge_None in E. pose proof (po_known _ _ H c E) as H1.
  pose proof (mine_nonneg c o). pose proof (tokens_in_nonneg c (ch p)). unfold mine, unborn, held in *. rewrite !count_app in H1. lia.
Qed.

Lemma safe_perm {A} (p : pprog A) (Q : A -> list res -> Prop) : (forall a h1 h2, h1 ≡ₚ h2 -> Q a h1 -> Q a h2) -> forall h h', h ≡ₚ h' -> safe p h Q -> safe p h' Q.
Proof.
  intros HQ. induction p as [a|C g k IH|x k IH|k IH|k IH|k IH|C q k IH]; intros h h' Hp Hs; cbn [safe] in *.
  - by eapply HQ.
  - intros P o Ho. destruct (Hs P o) as (g' & Hg & Hk); [eapply pool_ok_perm; [|exact Ho]; by rewrite Hp|]. by exists g'.
  - destruct Hs as (g & Hg & Hk). exists g. split; [by rewrite <- Hp|done].
  - destruct Hs as (-> & Hk). apply Permutation_nil in Hp. subst h'. by split.
  - destruct Hs as (Hn & Hk). split; [by rewrite <- Hp|]. eapply IH; [|exact Hk]. by constructor.
  - destruct Hs as (g & Hg & Hk). exists g. split; [by rewrite <- Hp|done].
  - intros b Hb. by eapply IH; [|apply Hs].
Qed.

(** The rules: what a step does to the resources [a] at the head of the hand. *)
Lemma safe_assoc {A B C} (p : pprog A) (f : A -> pprog B) (k : B -> pprog C) Q : forall h, safe (pbind p (fun a => pbind (f a) k)) h Q -> safe (pbind (pbind p f) k) h Q.
Proof.
  induction p as [a|D g j IH|x j IH|j IH|j IH|j IH|D q j IH]; intros h Hp; cbn [pbind safe] in *.
  - done.
  - intros P o Ho. destruct (Hp P o Ho) as (h' & Hi & Hk). exists h'. split; [done|by apply IH].
  - destruct Hp as (h' & Hh & Hk). exists h'. split; [done|by apply IH].
  - destruct Hp as (Hh & Hk & Hn). split_and!; [done|intros x; by apply IH|by apply IH].
  - destruct Hp as (Hh & Hk). split; [done|by apply IH].
  - destruct Hp as (h' & Hh & Hk). exists h'. split; [done|by apply IH].
  - intros b Hb. by apply IH, Hp.
Qed.

Lemma safe_view {A B} (f : Pool -> B) (k : B -> pprog A) h Q : (forall P, safe (k (f P)) h Q) -> safe (pbind (view f) k) h Q.
Proof. intros Hk P o Ho. exists h. split; [done|apply Hk]. Qed.

Lemma safe_ask {A B} (q : pool_ask B) (k : B -> pprog A) h Q : (forall b, possible q b -> safe (k b) h Q) -> safe (pbind (ask_ q) k) h Q.
Proof. done. Qed.

Lemma safe_send {A} x (k : unit -> pprog A) h r Q : h ≡ₚ item x :: r -> safe (k tt) r Q -> safe (pbind (send x) k) h Q.
Proof. intros Hh Hk. by exists r. Qed.

Lemma safe_unlock {A} (k : unit -> pprog A) h r Q : h ≡ₚ Dialing :: r -> safe (k tt) r Q -> safe (pbind unlock_ k) h Q.
Proof. intros Hh Hk. by exists r. Qed.

(** A section on a connection that something is held of. *)
Lemma safe_conn {A B} c (f : Conn -> Conn * B) none (k : B -> pprog A) h a r Q : h ≡ₚ a ++ r ->
  0 < mine c a ->
  (forall P o kc, pool_ok P (a ++ o) -> conns P !! c = Some kc -> conn_ok P (a ++ o) c kc ->
     exists b, pool_ok (set_conns P (<[c := (f kc).1]> (conns P))) (b ++ o) /\ safe (k (f kc).2) (b ++ r) Q) ->
  safe (pbind (section (on_conn c f none)) k) h Q.
Proof.
  intros Hh Hc Hk P o Ho. assert (Ho' : pool_ok P (a ++ r ++ o)) by (eapply pool_ok_perm; [|exact Ho]; by rewrite Hh, app_assoc).
  destruct (held_known _ _ _ _ Ho' Hc) as [kc Hkc].
  destruct (Hk P (r ++ o) kc Ho' Hkc (po_conns _ _ Ho' c kc Hkc)) as (b & Hb & Hs). exists (b ++ r). unfold on_conn. rewrite Hkc. destruct (f kc) as [k' x].
  rewrite <- app_assoc. by split.
Qed.

Lemma safe_update {A} (f : Pool -> Pool) (k : unit -> pprog A) h a b r Q : h ≡ₚ a ++ r ->
  (forall P o, pool_ok P (a ++ o) -> pool_ok (f P) (b ++ o)) -> safe (k tt) (b ++ r) Q -> safe (pbind (update f) k) h Q.
Proof.
  intros Hh Hf Hk P o Ho. exists (b ++ r). split; [|done]. rewrite <- app_assoc. apply Hf. eapply pool_ok_perm; [|exact Ho]. by rewrite Hh, app_assoc.
Qed.

(** One connection changes with what is held of it. *)
Lemma safe_change {A} c (f : Conn -> Conn) (k : unit -> pprog A) h a b r Q : h ≡ₚ a ++ r ->
  0 < mine c a ->
  (forall d, d <> c -> like d a b) -> held Dialing b = held Dialing a -> unborn c b <= unborn c a ->
  count_by is_slot b = count_by is_slot a -> (forall kc, k_replaced (f kc) = k_replaced kc) ->
  (forall P o kc, pool_ok P (a ++ o) -> conn_ok P (a ++ o) c kc -> conn_ok P (b ++ o) c (f kc)) -> safe (k tt) (b ++ r) Q -> safe (pbind (change c f) k) h Q.
Proof.
  intros Hh Hc Hl Hd Hu Hs Hr Hk Hq. apply (safe_conn c _ tt _ h a r); [done..|]. intros P o kc Ho Hkc Hok. exists b. split; [|done].
  apply (pool_ok_conn P a b o c kc); [done..| |by apply Hk]. cbn [fst]. rewrite Hr, Hs. lia.
Qed.

(** What does not touch the sums. *)
Lemma pool_ok_calm p p' h : conns p' = conns p -> ch p' = ch p -> opened p' = opened p -> parked p' = parked p -> dialing p' = dialing p -> pool_ok p h -> pool_ok p' h.
Proof. intros E1 E2 E3 E4 E5 H. apply (pool_ok_moves p p' h h H); rewrite ?E2; done. Qed.

(** The list of open connections changes for one of them. *)
Lemma pool_ok_listing p a b o c l : pool_ok p (a ++ o) -> NoDup l -> (forall d, d <> c -> d ∈ l <-> d ∈ opened p) -> (c < length (conns p))%nat ->
  (forall d, d <> c -> like d a b) -> held Dialing b = held Dialing a -> unborn c b <= unborn c a ->
  count_by is_slot b = count_by is_slot a -> (forall k, conn_ok p (a ++ o) c k -> conn_ok (set_opened p l) (b ++ o) c k) -> pool_ok (set_opened p l) (b ++ o).
Proof.
  intros [P1 P2 P3 P4 P5 P6 P7] Hn Hi Hc Hl Hd Hu Hs Hk.
  assert (Hl' : forall d, d <> c -> like d (a ++ o) (b ++ o)) by (intros d Hne; by apply like_app, Hl).
  split; cbn [set_opened conns ch opened parked dialing].
  - unfold in_use in *. cbn [set_opened conns]. rewrite !count_app in *. lia.
  - done.
  - intros d kd Hkd. destruct (decide (d = c)) as [->|Hne]; [by apply Hk, P3|]. apply (conn_ok_like p _ (a ++ o)); [by apply Hl'|done|by symmetry; apply Hi|by apply P3].
  - intros d Hd'. destruct (like_sums d _ _ (Hl' d ltac:(lia))) as (_ & _ & <-). by apply P4.
  - split; [done|]. intros d Hd'. destruct (decide (d = c)) as [->|Hne]; [done|]. by apply P5, Hi.
  - intros d. destruct (decide (d = c)) as [->|Hne]; [specialize (P6 c); unfold unborn, held in *; rewrite !count_app in *; lia|].
    destruct (like_sums d _ _ (Hl' d Hne)) as (_ & <- & _). apply P6.
  - unfold held in *. rewrite count_app in *. lia.
Qed.

(** Every connection changes, and the list shrinks. *)
Lemma pool_ok_all p h g l : pool_ok p h -> NoDup l -> (forall c, c ∈ l -> c ∈ opened p) -> (forall c k, k_replaced (g c k) = k_replaced k) ->
  (forall c k, conn_ok p h c k -> conn_ok (set_opened p l) h c (g c k)) ->
  pool_ok (set_opened (set_conns p (imap g (conns p))) l) h.
Proof.
  intros [P1 P2 P3 P4 P5 P6 P7] Hn Hl Hr Hk. split; cbn [set_opened set_conns conns ch opened parked dialing]; try done.
  - unfold in_use in *. cbn [set_opened set_conns conns]. rewrite <- P1. f_equal. clear -Hr. revert g Hr. induction (conns p) as [|k l IH]; intros g Hr; [done|].
    cbn [imap]. rewrite !count_cons, Hr, (IH (g ∘ S)); [done|]. intros c k'. apply Hr.
  - intros c k Hk'. rewrite list_lookup_imap in Hk'. destruct (conns p !! c) as [k0|] eqn:E; [|done]. injection Hk' as <-. exact (Hk c k0 (P3 c k0 E)).
  - intros c. rewrite length_imap. apply P4.
  - split; [done|]. intros c Hc. rewrite length_imap. by apply P5, Hl.
Qed.

End Logic.
