(* ===== verification/NntpPoolSafe.v ===== *)
(** Every program of NntpPool keeps the sums of NntpPoolLogic: what each takes into its hand
    and gives back, for every answer of the wire, the clock and the ceiling, and whatever the
    other programs do between its steps. *)

From Stdlib Require Import ZArith Lia.
From stdpp Require Import base list numbers strings.
From S2P Require Import Prelude Outcome PlaybackCoverage ContentProof NntpPool NntpPoolLogic.

Local Open Scope Z_scope.
Local Open Scope harbor_scope.
Local Open Scope pprog_scope.

Ltac others := intros ? ?; unfold like; sums; by split_and!.
Ltac signs := repeat match goal with
  | |- context [count_by ?f ?l] => lazymatch goal with H : 0 <= count_by f l |- _ => fail | _ => pose proof (count_nonneg f l) end
  | H : context [count_by ?f ?l] |- _ => lazymatch goal with H : 0 <= count_by f l |- _ => fail | _ => pose proof (count_nonneg f l) end
  | |- context [tokens_in ?c ?l] => lazymatch goal with H : 0 <= tokens_in c l |- _ => fail | _ => pose proof (tokens_in_nonneg c l) end
  | H : context [tokens_in ?c ?l] |- _ => lazymatch goal with H : 0 <= tokens_in c l |- _ => fail | _ => pose proof (tokens_in_nonneg c l) end
  end.
Ltac total := sums; signs; lia.
(** The sums of a connection, resource by resource. *)
Ltac expand H := revert H; unfold conn_ok, tokens, held; rewrite ?count_app, ?count_cons, ?count_nil; cbn [is_slot is_token is_lease app item]; resolve_decides; intros H.
(** The sums that are known are the ones asked for. *)
Ltac settle H := cbn [set_opened set_conns opened ch]; unfold conn_ok, tokens; cbn [set_opened set_conns opened ch]; eapply sound_sums; [exact H|total..].

Section Safe.
Context (cfg : PoolConfig) (Mpos : 1 <= MaxConns cfg) (Dpos : 1 <= PipelineDepth cfg).
Local Notation safe := (safe cfg).
Local Notation pool_ok := (pool_ok cfg).
Local Notation conn_ok := (conn_ok cfg).

(** ** Giving connections up *)

Lemma close_safe {A} c (k : unit -> pprog A) h r Q : h ≡ₚ Closing c :: r -> safe (k tt) (Removing c :: r) Q -> safe (pbind (change c Close) k) h Q.
Proof.
  intros Hh Hk. apply (safe_change cfg c Close k h [Closing c] [Removing c] r); [done|total|others|done|total|done| | |done].
  - intros kc. unfold Close. by destruct (k_closed kc).
  - intros P o kc Ho H. expand H. apply close_sound in H; [|total]. settle H.
Qed.

Lemma removed_list c p : NoDup (opened p) -> let l := opened (removeConn c p) in NoDup l /\ c ∉ l /\ forall d, d <> c -> d ∈ l <-> d ∈ opened p.
Proof.
  intros Hn l. subst l. unfold removeConn. cbn [set_opened opened]. destruct (list_find _ _) as [[i x]|] eqn:E.
  - apply list_find_Some in E as (Hi & -> & _). rewrite (delete_take_drop (opened p) i). pose proof (take_drop_middle _ _ _ Hi) as Hm. rewrite <- Hm in Hn.
    apply list.NoDup_app in Hn as (N1 & N2 & N3). apply list.NoDup_cons in N3 as (N3 & N4). split_and!.
    + apply list.NoDup_app. split_and!; [done| |done]. intros d Hd Hd'. apply (N2 d Hd). by right.
    + rewrite elem_of_app. intros [Hc|Hc]; [apply (N2 c Hc); by left|done].
    + intros d Hd. rewrite <- Hm at 3. rewrite !elem_of_app, list.elem_of_cons. naive_solver.
  - apply list_find_None in E. split_and!; [done| |done]. rewrite list.Forall_forall in E. intros Hc. by apply (E c Hc).
Qed.

Lemma remove_safe {A} c (k : unit -> pprog A) h r Q : h ≡ₚ Removing c :: r -> safe (k tt) (Slot :: r) Q -> safe (pbind (update (removeConn c)) k) h Q.
Proof.
  intros Hh Hk. apply (safe_update cfg _ k h [Removing c] [Slot] r); [done| |done]. intros P o Ho.
  destruct (removed_list c P (proj1 (po_opened _ _ _ Ho))) as (Hn & Hc & Hi).
  destruct (held_known _ _ [Removing c] o c Ho) as [kc Hkc]; [total|].
  apply (pool_ok_listing cfg P [Removing c] [Slot] o c); [done|done|done|by eapply lookup_lt_Some|others|done|total|done|].
  intros k0 H. expand H. apply unlisted_sound, removed_sound in H; [|tauto|total]. apply (sound_iff _ _ _ _ _ _ _ _ _ False); [tauto|]. settle H.
Qed.

Lemma retire_safe {A} c (k : unit -> pprog A) h r Q : h ≡ₚ Closing c :: r -> safe (k tt) r Q -> safe (pbind (retire c) k) h Q.
Proof.
  intros Hh Hk. apply safe_assoc. eapply close_safe; [exact Hh|]. apply safe_assoc. eapply remove_safe; [done|]. by apply (safe_send _ None _ _ r).
Qed.

(** ** Pipelining, tokens and the channel *)

Lemma pool_ok_disabled p h : pool_ok p h -> pool_ok (set_disabled p) h.
Proof. by apply pool_ok_calm. Qed.

Lemma disablePipelining_safe {A} (k : unit -> pprog A) h Q : safe (k tt) h Q -> safe (pbind (disablePipelining cfg) k) h Q.
Proof.
  intros Hk. unfold disablePipelining. destruct (_ <=? _); [exact Hk|]. intros P o Ho. exists h. split; [by apply pool_ok_disabled|]. cbn [fst snd pbind].
  destruct (disabled P); [exact Hk|]. cbn [negb].
  intros P' o' Ho'. exists h. split; [|done]. cbn [fst].
  apply (pool_ok_all cfg P' (h ++ o') _ (opened P')); [done|apply (po_opened _ _ _ Ho')|done| |].
  - intros c kc. by destruct (bool_decide _).
  - intros c kc H. destruct (bool_decide_reflect (c ∈ opened P')) as [Hc|]; [|done]. expand H. settle (serial_sound _ _ _ _ _ _ _ _ _ _ kc H Hc).
Qed.

Lemma returnConnTokens_safe {A} c n (k : unit -> pprog A) r Q : safe (k tt) r Q -> safe (pbind (returnConnTokens c n) k) (replicate n (Token c) ++ r) Q.
Proof.
  intros Hk. induction n as [|n IH]; [exact Hk|]. cbn [returnConnTokens]. apply safe_assoc. by apply (safe_send _ (Some c) _ _ (replicate n (Token c) ++ r)).
Qed.

Lemma try_receive_safe {A} (k : option chan_item -> pprog A) h Q : (forall x, safe (k (Some x)) (item x :: h) Q) -> safe (k None) h Q -> safe (pbind try_receive k) h Q.
Proof.
  intros Hs Hn P o Ho. destruct (ch P) as [|x l] eqn:E; [by exists h|]. exists (item x :: h). split; [|apply Hs]. cbn [fst]. by apply pool_ok_received.
Qed.

Lemma take_scan_safe {A} limit (k : option nat -> pprog A) h Q : (forall c, safe (k (Some c)) (Token c :: h) Q) -> safe (k None) h Q -> safe (pbind (take_scan limit) k) h Q.
Proof.
  intros Hs Hn. induction limit as [|limit IH]; [done|]. cbn [take_scan]. apply safe_assoc, try_receive_safe; [|done]. intros [c|]; [apply Hs|].
  apply safe_assoc. by apply (safe_send _ None _ _ h).
Qed.
Lemma takeConnToken_safe {A} (k : option nat -> pprog A) h Q : (forall c, safe (k (Some c)) (Token c :: h) Q) -> safe (k None) h Q -> safe (pbind takeConnToken k) h Q.
Proof. intros Hs Hn. apply safe_assoc, safe_view. intros P. by apply take_scan_safe. Qed.

(** ** The ceiling *)

Lemma held_slot c h : 1 <= held (Closing c) h + held (Removing c) h -> 0 < count_by is_slot h.
Proof.
  intros H. pose proof (held_nonneg (Closing c) h). pose proof (held_nonneg (Removing c) h).
  assert (0 < held (Closing c) h \/ 0 < held (Removing c) h) as [Hc|Hc] by lia; apply count_pos in Hc as (x & Hx & E); apply bool_decide_eq_true in E as ->; apply count_pos; by eexists.
Qed.

(** Whatever is listed has a place. *)
Lemma listed_place p h c : pool_ok p h -> c ∈ opened p -> 1 <= held (Closing c) h + held (Removing c) h \/ 1 <= in_use p.
Proof.
  intros H Hc. destruct (lookup_lt_is_Some_2 (conns p) c) as [k Hk]; [by apply (po_opened _ _ _ H)|].
  destruct (k_replaced k) eqn:E.
  - left. by apply (so_listed _ _ _ _ _ _ _ _ _ _ _ (po_conns _ _ _ H c k Hk)).
  - right. assert (0 < in_use p); [|lia]. apply count_pos. exists k. split; [by eapply list_elem_of_lookup_2|]. by rewrite E.
Qed.

Lemma pool_ok_park p o : pool_ok p (Slot :: o) -> (1 <= length (opened p))%nat -> pool_ok (set_parked p (parked p + 1)) o.
Proof.
  intros H Hl. destruct (opened p) as [|c l] eqn:Eo; [cbn in Hl; lia|]. assert (Hc : c ∈ opened p) by (rewrite Eo; by left).
  assert (Hs : 1 <= count_by is_slot o + in_use p).
  { pose proof (count_nonneg is_slot o). pose proof (count_nonneg (fun k => negb (k_replaced k)) (conns p)). unfold in_use in *.
    destruct (listed_place _ _ _ H Hc) as [Hp|Hp]; [|unfold in_use in *; lia]. revert Hp. sums. intros Hp. pose proof (held_slot c o Hp). lia. }
  destruct H as [P1 P2 P3 P4 P5 P6 P7]. revert P1. unfold empties. sums. intros P1. split; cbn [set_parked conns ch opened parked dialing]; try done.
  - unfold in_use, empties in *. cbn [set_parked conns]. lia.
  - pose proof (count_nonneg (fun x => bool_decide (x = None)) (ch p)). lia.
Qed.

Lemma parkIfOverCeiling_safe {A} (k : bool -> pprog A) h r Q : h ≡ₚ Slot :: r -> safe (k false) h Q -> safe (k true) r Q -> safe (pbind (parkIfOverCeiling cfg) k) h Q.
Proof.
  intros Hh Hf Ht. unfold parkIfOverCeiling. destruct (negb _); [exact Hf|]. apply safe_assoc, safe_ask. intros current Hc. cbn in Hc. intros P o Ho.
  destruct (Z.leb_spec current (Z.of_nat (length (opened P)))); [|by exists h]. exists r. split; [|exact Ht]. apply pool_ok_park; [|lia].
  eapply pool_ok_perm; [|exact Ho]. by rewrite Hh.
Qed.

Lemma pool_ok_unpark h n : forall p, pool_ok p h -> Z.of_nat n <= parked p -> pool_ok (unpark_loop cfg n p) h.
Proof.
  induction n as [|n IH]; intros p H Hn; cbn [unpark_loop]; [done|]. destruct (_ <? _); [|done]. apply IH; [|cbn; lia].
  refine (pool_ok_sent cfg (set_parked p (parked p - 1)) None h _). destruct H as [P1 P2 P3 P4 P5 P6 P7]. split; cbn [set_parked set_ch conns ch opened parked dialing]; try done; [|lia].
  unfold in_use in *. sums. cbn [set_parked set_ch conns]. lia.
Qed.

Lemma unparkIfRoom_safe {A} (k : unit -> pprog A) h Q : safe (k tt) h Q -> safe (pbind (unparkIfRoom cfg) k) h Q.
Proof.
  intros Hk. unfold unparkIfRoom. destruct (negb _); [exact Hk|]. apply safe_assoc, safe_ask. intros current _.
  apply (safe_update cfg _ k h [] [] h); [done| |done]. intros P o Ho. destruct (_ <? _); [|done]. apply pool_ok_unpark; [done|]. destruct (po_parked _ _ _ Ho). lia.
Qed.

(** ** Dialing *)

Lemma pool_ok_dialed p o now : pool_ok p (Slot :: o) -> pool_ok (set_conns p (conns p ++ [fresh_conn now])) (Fresh (length (conns p)) :: o).
Proof.
  intros [P1 P2 P3 P4 P5 P6 P7]. set (n := length (conns p)) in *.
  pose proof (P4 n ltac:(lia)) as Z1. revert Z1. sums. intros Z1.
  assert (Hl : forall c, c <> n -> like c (Slot :: o) (Fresh n :: o)) by (intros c Hc; unfold like; sums; by split_and!).
  split; cbn [set_conns conns ch opened parked dialing].
  - revert P1. unfold in_use. cbn [set_conns conns]. sums. cbn [fresh_conn k_replaced negb]. lia.
  - done.
  - intros c k Hk. apply lookup_app_Some in Hk as [Hk|[Hc Hk]].
    + assert (c <> n) by (apply lookup_lt_Some in Hk; lia). by apply (conn_ok_like cfg p _ (Slot :: o) _ c k (Hl c ltac:(done))), P3.
    + apply list_lookup_singleton_Some in Hk as [Hk <-]. replace c with n by lia. unfold conn_ok. cbn [set_conns opened].
      assert (n ∉ opened p) by (intros Hn; apply P5 in Hn; lia). unfold tokens; cbn [set_conns ch]. sums.
      split; cbn [fresh_conn k_closed k_dead k_err k_replaced k_leases k_serial]; signs; first [done|lia].
  - intros c Hc. rewrite length_app in Hc. cbn in Hc. destruct (like_sums c _ _ (Hl c ltac:(lia))) as (_ & _ & <-). apply P4. lia.
  - destruct P5 as (N1 & N2). split; [done|]. intros c Hc. rewrite length_app. specialize (N2 c Hc). lia.
  - intros c. destruct (decide (c = n)) as [->|Hc]; [total|]. destruct (like_sums c _ _ (Hl c Hc)) as (_ & <- & _). apply P6.
  - revert P7. sums. done.
Qed.

Lemma authenticate_safe {A} (k : option dial_error -> pprog A) h Q : (forall e, safe (k e) h Q) -> safe (pbind (authenticate cfg) k) h Q.
Proof.
  intros Hk. unfold authenticate. destruct (bool_decide _); [apply Hk|]. apply safe_assoc, safe_ask. intros user _. destruct (dial_failed user).
  - destruct (mentions_281 user); [|apply Hk]. apply safe_assoc, safe_ask. intros pass _. apply Hk.
  - apply safe_assoc, safe_ask. intros pass _. apply Hk.
Qed.

Lemma dial_safe {A} (k : result dial_error nat -> pprog A) h r Q : h ≡ₚ Slot :: r -> (forall e, safe (k (Err e)) h Q) -> (forall c, safe (k (Ok c)) (Fresh c :: r) Q) ->
  safe (pbind (dial cfg) k) h Q.
Proof.
  intros Hh He Hk. apply safe_assoc, safe_ask. intros [] _; [|apply He]. apply safe_assoc, safe_ask. intros [[code msg]|] _; [|apply He].
  destruct (negb _); [apply He|]. apply safe_assoc, authenticate_safe. intros [e|]; [apply He|]. apply safe_assoc, safe_ask. intros now _ P o Ho.
  exists (Fresh (length (conns P)) :: r). split; [|apply Hk]. apply pool_ok_dialed. eapply pool_ok_perm; [|exact Ho]. by rewrite Hh.
Qed.

(** ** Leases *)

Lemma depth_range p : 1 <= effectivePipelineDepth cfg p <= PipelineDepth cfg.
Proof. unfold effectivePipelineDepth. destruct (disabled p); lia. Qed.

Definition owned (t : turn_result) : list res := match t with Acquired c => [Leased c] | _ => [] end.

Lemma begin_safe {A} c depth now (k : bool * bool * bool -> pprog A) h r Q : h ≡ₚ Token c :: r -> 1 <= depth ->
  (forall ok pl, safe (k (ok, pl, false)) ((if ok : bool then [Leased c] else []) ++ r) Q) -> (forall pl, safe (k (false, pl, true)) (Closing c :: r) Q) ->
  safe (pbind (section (on_conn c (beginLease depth (IdleTimeout cfg) now) (false, false, false))) k) h Q.
Proof.
  intros Hh Hd Hk Hr. apply (safe_conn cfg c _ _ _ h [Token c] r); [done|total|]. intros P o kc Ho Hkc H.
  destruct (beginLease _ _ _ kc) as [k' [[ok pl] replace]] eqn:E. cbn [fst snd].
  exists ((if ok then [Leased c] else []) ++ (if replace then [Closing c] else [])).
  expand H. eapply begin_sound in E as (H' & E1 & E2 & E3); [|done| |exact H]; [|total]. split.
  - apply (pool_ok_conn cfg P [Token c] _ o c kc); try done.
    + destruct ok, replace; try (by specialize (E1 eq_refl)); others.
    + destruct ok, replace; done.
    + destruct ok, replace; total.
    + rewrite E2. destruct replace; [rewrite E3 by done|rewrite orb_false_r]; destruct ok; sums; destruct (k_replaced kc); done.
    + destruct ok, replace; settle H'.
  - destruct replace; [|rewrite app_nil_r; apply Hk]. destruct ok; [by specialize (E1 eq_refl)|]. apply Hr.
Qed.

Lemma counted_safe {A} x y z (k : unit -> pprog A) h Q : safe (k tt) h Q -> safe (pbind (update (fun p => counted p x y z)) k) h Q.
Proof. intros Hk. apply (safe_update cfg _ k h [] [] h); [done| |done]. intros P o Ho. by apply (pool_ok_calm cfg P). Qed.

Lemma lease_safe {A} c depth (k : turn_result -> pprog A) h r Q : h ≡ₚ Token c :: r -> 1 <= depth -> (forall t, safe (k t) (owned t ++ r) Q) ->
  safe (pbind (lease cfg c depth) k) h Q.
Proof.
  intros Hh Hd Hk. apply safe_assoc, safe_ask. intros now _. apply safe_assoc. eapply begin_safe; [done|done| |].
  - intros [] pl; [|apply (Hk Again)]. apply safe_assoc, counted_safe. apply (Hk (Acquired c)).
  - intros pl. apply safe_assoc. eapply retire_safe; [done|]. apply (Hk Again).
Qed.

Lemma fresh_begin_safe {A} c depth now (k : bool * bool * bool -> pprog A) h r Q : h ≡ₚ Fresh c :: r -> 1 <= depth <= PipelineDepth cfg ->
  (forall pl replace, safe (k (true, pl, replace)) (First c :: r) Q) -> (forall pl replace, safe (k (false, pl, replace)) (Closing c :: Unlisted c :: r) Q) ->
  safe (pbind (section (on_conn c (beginLease depth (IdleTimeout cfg) now) (false, false, false))) k) h Q.
Proof.
  intros Hh Hd Hk Hr. apply (safe_conn cfg c _ _ _ h [Fresh c] r); [done|total|]. intros P o kc Ho Hkc H.
  destruct (beginLease _ _ _ kc) as [k' [[ok pl] replace]] eqn:E. cbn [fst snd].
  pose proof (po_once _ _ _ Ho c) as Hone. revert Hone. sums. intros Hone.
  expand H. eapply fresh_begin_sound in E as (H' & E1 & E2); [|done| |exact H]; [|total].
  assert (Hnone : count_by (fun x => bool_decide (x = Fresh c)) o = 0) by (signs; lia).
  destruct ok; [exists [First c]|destruct H' as (H' & ->); exists [Closing c; Unlisted c]]; (split; [|apply Hk || apply Hr]);
    (apply (pool_ok_conn cfg P [Fresh c] _ o c kc); try done; [others|total|by rewrite E1, E2; sums|settle H']).
Qed.

(** The connection is listed, and tokens of it are there: beside its first lease, or for a
    connection nobody leased. *)
Lemma list_safe {A} c x y n (k : unit -> pprog A) h r Q : h ≡ₚ x :: r ->
  (x = First c /\ y = [Leased c] /\ (n < Z.to_nat (PipelineDepth cfg))%nat) \/ (x = Fresh c /\ y = [] /\ n = Z.to_nat (PipelineDepth cfg)) ->
  safe (k tt) (replicate n (Token c) ++ y ++ r) Q -> safe (pbind (update (fun p => set_opened p (opened p ++ [c]))) k) h Q.
Proof.
  intros Hh Hx Hk. apply (safe_update cfg _ k h [x] (replicate n (Token c) ++ y) r); [done| |by rewrite <- app_assoc].
  intros P o Ho. destruct (held_known _ _ [x] o c Ho) as [kc Hkc]; [destruct Hx as [(-> & _)|(-> & _)]; total|].
  pose proof (po_conns _ _ _ Ho c kc Hkc) as H. pose proof (po_once _ _ _ Ho c) as Hone.
  assert (Hc : c ∉ opened P) by (destruct Hx as [(-> & _)|(-> & _)]; expand H; apply (so_unlisted _ _ _ _ _ _ _ _ _ _ _ H); signs; lia).
  assert (Hin : c ∈ opened P ++ [c] <-> True) by (rewrite elem_of_app, list_elem_of_singleton; tauto).
  apply (pool_ok_listing cfg P [x] _ o c); [done| | |by eapply lookup_lt_Some| | | | |].
  - apply list.NoDup_app. split_and!; [apply (po_opened _ _ _ Ho)| |apply NoDup_singleton]. intros d Hd. rewrite list_elem_of_singleton. by intros ->.
  - intros d Hd. rewrite elem_of_app, list_elem_of_singleton. tauto.
  - intros d Hd. destruct Hx as [(-> & -> & _)|(-> & -> & _)]; unfold like, held; rewrite !count_app, !count_replicate, !count_cons, !count_nil; cbn [is_token is_lease]; resolve_decides; by split_and!.
  - destruct Hx as [(-> & -> & _)|(-> & -> & _)]; unfold held; by rewrite count_app, count_replicate, !count_cons.
  - destruct Hx as [(-> & -> & _)|(-> & -> & _)]; unfold unborn, held; rewrite !count_app, !count_replicate, !count_cons, !count_nil; resolve_decides; lia.
  - destruct Hx as [(-> & -> & _)|(-> & -> & _)]; by rewrite count_app, count_replicate, !count_cons.
  - intros k0 H0. destruct Hx as [(-> & -> & Hn)|(-> & -> & Hn)]; revert Hone; sums; intros Hone; expand H0; unfold conn_ok, tokens, held;
      rewrite ?count_app, !count_replicate, ?count_cons; cbn [is_token is_lease set_opened ch opened]; resolve_decides; (eapply sound_iff; [symmetry; exact Hin|]).
    + eapply sound_sums; [apply (listed_now_sound _ _ _ _ _ _ _ _ _ _ (Z.of_nat n) k0 H0); signs; lia|..]; signs; lia.
    + eapply sound_sums; [apply (fresh_listed_sound _ _ _ _ _ _ _ _ _ _ (Z.of_nat n) k0 H0); signs; lia|..]; signs; lia.
Qed.

(** Closing what was never listed. *)
Lemma drop_safe {A} c (k : unit -> pprog A) h r Q : h ≡ₚ Closing c :: Unlisted c :: r -> safe (k tt) (Slot :: r) Q -> safe (pbind (change c Close) k) h Q.
Proof.
  intros Hh Hk. apply (safe_change cfg c Close k h [Closing c; Unlisted c] [Slot] r); [done|total|others|done|total|done| | |done].
  - intros kc. unfold Close. by destruct (k_closed kc).
  - intros P o kc Ho H. expand H. assert (Hc : c ∉ opened P) by (apply (so_unlisted _ _ _ _ _ _ _ _ _ _ _ H); signs; lia).
    apply close_sound in H; [|total]. apply removed_sound in H; [|done|total]. apply calm_unlisted in H; [|total]. settle H.
Qed.

Lemma dial_turn_safe {A} depth (k : turn_result -> pprog A) h r Q : h ≡ₚ Slot :: Dialing :: r -> 1 <= depth <= PipelineDepth cfg ->
  (forall t, safe (k t) (owned t ++ r) Q) -> safe (pbind (dial_turn cfg depth) k) h Q.
Proof.
  intros Hh Hd Hk. apply safe_assoc. eapply parkIfOverCeiling_safe; [done| |].
  - apply safe_assoc. eapply dial_safe; [done| |].
    + intros e. apply safe_assoc. assert (Hs : safe (pbind (also! send None in also! unlock_ in PRet (Refused ErrDial)) k) h Q).
      { apply safe_assoc, (safe_send _ None _ _ (Dialing :: r)); [done|]. apply safe_assoc. eapply safe_unlock; [done|]. apply (Hk (Refused ErrDial)). }
      destruct (_ && _); [|exact Hs]. by apply safe_ask.
    + intros c. apply safe_assoc, safe_ask. intros now _. apply safe_assoc. eapply fresh_begin_safe; [done|done| |].
      * intros pl replace. cbn [negb]. apply safe_assoc. eapply (list_safe c (First c) [Leased c] (Z.to_nat (depth - 1))); [done|left; split_and!; [done..|lia]|]. apply safe_assoc, returnConnTokens_safe.
        apply safe_assoc. apply (safe_unlock _ _ _ (Leased c :: r)); [constructor|]. apply safe_assoc, counted_safe. apply (Hk (Acquired c)).
      * intros pl replace. cbn [negb]. apply safe_assoc. eapply drop_safe; [done|]. apply safe_assoc, (safe_send _ None _ _ (Dialing :: r)); [done|].
        apply safe_assoc. eapply safe_unlock; [done|]. apply (Hk Again).
  - apply safe_assoc. eapply safe_unlock; [done|]. apply (Hk Again).
Qed.

Lemma acquire_turn_safe {A} (k : turn_result -> pprog A) Q : (forall t, safe (k t) (owned t) Q) -> safe (pbind (acquire_turn cfg) k) [] Q.
Proof.
  intros Hk. split; [done|]. split; [|apply (Hk (Refused ErrContext))]. intros x. apply safe_assoc, safe_view. intros P.
  pose proof (depth_range P) as Hd. generalize dependent (effectivePipelineDepth cfg P). intros depth Hd.
  destruct x as [c|]; [eapply lease_safe; [done|lia|]; intros t; by rewrite app_nil_r|].
  split; [by rewrite list_elem_of_singleton|]. cbn [pbind]. apply safe_assoc, takeConnToken_safe.
  - intros c. apply safe_assoc, (safe_send _ None _ _ [Token c; Dialing]); [apply (Permutation_app_comm [Token c; Dialing] [Slot])|].
    apply safe_assoc. apply (safe_unlock _ _ _ [Token c]); [apply Permutation_swap|]. eapply lease_safe; [done|lia|]. intros t. by rewrite app_nil_r.
  - eapply dial_turn_safe; [apply Permutation_swap|done|]. intros t. by rewrite app_nil_r.
Qed.

(** What a caller of [Acquire] holds when it returns. *)
Definition got (a : option (result goerror nat)) : list res := match a with Some (Ok c) => [Leased c] | _ => [] end.

Lemma Acquire_safe {A} fuel (k : option (result goerror nat) -> pprog A) Q : (forall a, safe (k a) (got a) Q) -> safe (pbind (Acquire cfg fuel) k) [] Q.
Proof.
  intros Hk. apply safe_assoc, unparkIfRoom_safe. induction fuel as [|fuel IH]; [apply (Hk None)|]. cbn [acquire_loop]. apply safe_assoc, acquire_turn_safe.
  intros [|c|e]; [apply IH|apply (Hk (Some (Ok c)))|apply (Hk (Some (Err e)))].
Qed.

(** ** Giving a lease back *)

Lemma first_leases c o : count_by (fun x => bool_decide (x = First c)) o <= count_by (is_lease c) o.
Proof. apply count_mono. intros x Hx. apply bool_decide_eq_true in Hx as ->. apply bool_decide_eq_true. done. Qed.
Lemma pinging_tokens c o : count_by (fun x => bool_decide (x = Pinging c)) o <= count_by (is_token c) o.
Proof. apply count_mono. intros x Hx. apply bool_decide_eq_true in Hx as ->. apply bool_decide_eq_true. done. Qed.

Lemma Release_safe {A} c err (k : unit -> pprog A) h r Q : h ≡ₚ Leased c :: r -> safe (k tt) r Q -> safe (pbind (Release cfg c err) k) h Q.
Proof.
  intros Hh Hk. apply safe_assoc, safe_ask. intros now _. apply safe_assoc. apply (safe_conn cfg c _ _ _ h [Leased c] r); [done|total|]. intros P o kc Ho Hkc H.
  destruct (releaseLease _ _ kc) as [k' [[reusable replace] wire]] eqn:E. cbn [fst snd].
  exists ((if reusable then [Token c] else []) ++ (if replace then [Closing c] else [])).
  expand H. pose proof (first_leases c o) as Hf. eapply release_sound in E as (H' & E1 & E2 & E3); [| |exact H]; [|lia]. split.
  - apply (pool_ok_conn cfg P [Leased c] _ o c kc); try done.
    + destruct reusable, replace; try (by specialize (E1 eq_refl)); others.
    + destruct reusable, replace; done.
    + destruct reusable, replace; total.
    + rewrite E2. destruct replace; [rewrite E3 by done|rewrite orb_false_r]; destruct reusable; sums; destruct (k_replaced kc); done.
    + destruct reusable, replace; settle H'.
  - apply safe_assoc. assert (Hs : safe (pbind (if reusable then send (Some c) else if replace then also! retire c in unparkIfRoom cfg else PRet tt) k)
      (((if reusable then [Token c] else []) ++ (if replace then [Closing c] else [])) ++ r) Q).
    { destruct reusable; [rewrite E1 by done; by apply (safe_send _ (Some c) _ _ r)|]. destruct replace; [|exact Hk]. apply safe_assoc. apply (retire_safe c _ _ r); [done|]. by apply unparkIfRoom_safe. }
    destruct wire; [by apply disablePipelining_safe|exact Hs].
Qed.

(** ** The wire *)

Lemma safe_look {A B} c (f : Conn -> B) none (k : B -> pprog A) h Q : (forall b, safe (k b) h Q) -> safe (pbind (section (on_conn c (fun kc => (kc, f kc)) none)) k) h Q.
Proof.
  intros Hk P o Ho. exists h. split; [|apply Hk]. unfold on_conn. destruct (conns P !! c) as [kc|] eqn:E; [|done]. cbn [fst]. rewrite list_insert_id by done. by destruct P.
Qed.

(** What a request is made with, and what is held of a connection that failed. *)
Definition usable (c : nat) (x x' : res) : Prop := (x = Leased c /\ x' = Leased c) \/ (x = Token c /\ x' = Pinging c).

Lemma failed_safe {A} c x x' err (k : option goerror -> pprog A) h r Q : usable c x x' -> h ≡ₚ x :: r -> safe (k (Some err)) (x' :: r) Q -> safe (pbind (failed c err) k) h Q.
Proof.
  intros Hx Hh Hk. apply safe_assoc. apply (safe_change cfg c (setError err) _ h [x] [x'] r); [done|..|done]; destruct Hx as [[-> ->]|[-> ->]]; try done; try total; try others.
  - intros P o kc _ H. expand H. pose proof (first_leases c o). pose proof (pinging_tokens c o). pose proof (tokens_in_nonneg c (ch P)). apply (error_sound _ _ _ _ _ _ _ _ _ _ err) in H; [settle H|lia..].
  - intros P o kc _ H. expand H. apply pinging_sound, (error_sound _ _ _ _ _ _ _ _ _ _ err) in H; [settle H|signs; lia..].
Qed.

Lemma request_safe {A} c x x' line expect missing what (k : option goerror -> pprog A) h r Q : usable c x x' -> h ≡ₚ x :: r -> safe (k None) h Q ->
  (forall err h', h' ≡ₚ x :: r \/ h' ≡ₚ x' :: r -> safe (k (Some err)) h' Q) -> safe (pbind (request c line expect missing what) k) h Q.
Proof.
  intros Hx Hh Hn Hs. assert (Hf : forall err, safe (pbind (failed c err) k) h Q) by (intros err; eapply failed_safe; [done|done|]; apply Hs; by right).
  assert (He : forall err, safe (k (Some err)) h Q) by (intros err; apply Hs; by left).
  apply safe_assoc, safe_look. intros [e|]; [apply He|]. apply safe_assoc, safe_ask. intros [e|] _; [apply Hf|]. apply safe_assoc, safe_ask. intros [e|] _; [apply Hf|].
  apply safe_assoc, safe_ask. intros [[code e]|] _; [|apply Hn]. destruct (_ && _); [apply He|apply Hf].
Qed.

Lemma BodyDecodedWithTotal_safe {A} c id (k : result goerror (bytes * Z) -> pprog A) h r Q : h ≡ₚ Leased c :: r ->
  (forall b h', h' ≡ₚ Leased c :: r -> safe (k b) h' Q) -> safe (pbind (BodyDecodedWithTotal c id) k) h Q.
Proof.
  intros Hh Hk. apply safe_assoc. apply (request_safe c (Leased c) (Leased c) _ _ _ _ _ h r); [by left|done| |].
  - apply safe_assoc, safe_ask. intros [body|err] _; [by apply Hk|]. destruct (errors_Is _ _); [|by apply Hk]. apply safe_assoc.
    eapply failed_safe; [by left|exact Hh|]. by apply Hk.
  - intros err h' Hh'. apply Hk. by destruct Hh'.
Qed.

(** ** The callers *)

Lemma fetch_attempt_safe fuel id : safe (fetch_attempt cfg fuel id) [] (fun _ h => h = []).
Proof.
  apply Acquire_safe. intros [[c|err]|]; [|exact eq_refl..]. apply (BodyDecodedWithTotal_safe c id _ [Leased c] []); [done|]. intros [[data total]|err] h Hh.
  - apply safe_ask. intros [err|] _; [by eapply Release_safe|]. apply safe_ask. intros e _. by eapply Release_safe.
  - by eapply Release_safe.
Qed.

Lemma statFromPool_safe fuel id : safe (statFromPool cfg fuel id) [] (fun _ h => h = []).
Proof.
  apply safe_ask. intros [err|] _; [exact eq_refl|]. apply Acquire_safe. intros [[c|err]|]; [|exact eq_refl..].
  apply (request_safe c (Leased c) (Leased c) _ _ _ _ _ [Leased c] []); [by left|done|by eapply Release_safe|]. intros err h Hh. eapply Release_safe; [|done]. by destruct Hh.
Qed.

Lemma TestConnection_safe fuel : safe (TestConnection cfg fuel) [] (fun _ h => h = []).
Proof. apply Acquire_safe. intros [[c|err]|]; [|exact eq_refl..]. by apply (Release_safe c None _ [Leased c] []). Qed.

(** ** Keeping connections warm *)

Lemma keepalive_safe {A} c (k : bool -> pprog A) h r Q : h ≡ₚ Token c :: r -> (forall b, safe (k b) r Q) -> safe (pbind (keepalive cfg c) k) h Q.
Proof.
  intros Hh Hk. apply safe_assoc. eapply (request_safe c (Token c) (Pinging c)); [by right|done| |].
  - apply safe_assoc, safe_ask. intros now _. apply safe_assoc. apply (safe_change cfg c (touch now) _ h [Token c] [Token c] r); [done|total|done..| | |].
    + done.
    + intros P o kc _. by apply calm_sound.
    + apply safe_assoc, (safe_send _ (Some c) _ _ r); [done|apply Hk].
  - intros err h' Hh'. assert (exists y n, h' ≡ₚ y :: r /\ (y = Token c /\ n = 0 \/ y = Pinging c /\ n = 1)) as (y & n & Hy & Ey) by naive_solver.
    apply safe_assoc, safe_ask. intros now _. apply safe_assoc. apply (safe_conn cfg c _ _ _ h' [y] r); [done|destruct Ey as [[-> _] | [-> _]]; total|].
    intros P o kc Ho Hkc H. destruct (releaseLease _ _ kc) as [k' [[reusable replace] wire]] eqn:E. cbn [fst snd].
    exists (if replace then [Closing c] else []). split.
    + assert (H' : conn_ok P ((if replace then [Closing c] else []) ++ o) c k' /\ k_replaced k' = (k_replaced kc || replace) /\ (replace = true -> k_replaced kc = false)).
      { destruct Ey as [[-> ->] | [-> ->]]; expand H; [eapply (ping_release_sound _ _ _ _ _ _ _ _ _ _ 0) in E|eapply (ping_release_sound _ _ _ _ _ _ _ _ _ _ 1) in E];
          try exact H; try (signs; lia); destruct E as (H' & _ & E2 & E3); (split; [|done]); destruct replace; settle H'. }
      destruct H' as (H' & E2 & E3). apply (pool_ok_conn cfg P [y] _ o c kc); [done|done|..|done]; try rewrite E2;
        destruct Ey as [[-> _] | [-> _]], replace; try rewrite E3 by done; rewrite ?orb_false_r; try done; try others; total.
    + apply safe_assoc. destruct replace; [apply safe_assoc, (retire_safe c _ _ r); [done|]|]; apply safe_assoc, disablePipelining_safe, Hk.
Qed.

(** Tokens that are not sent. *)
Lemma safe_depth {A} c (k : Z -> pprog A) r Q : (forall depth, 1 <= depth -> safe (k depth) (replicate (Z.to_nat depth) (Token c) ++ r) Q) ->
  safe (pbind (view (effectivePipelineDepth cfg)) k) (replicate (Z.to_nat (PipelineDepth cfg)) (Token c) ++ r) Q.
Proof.
  intros Hk P o Ho. cbn [fst snd]. pose proof (depth_range P) as Hd. generalize dependent (effectivePipelineDepth cfg P). intros depth Hd.
  exists (replicate (Z.to_nat depth) (Token c) ++ r). split; [|apply Hk; lia]. rewrite <- app_assoc in *. generalize dependent (r ++ o). clear o. intros o Ho.
  set (n := Z.to_nat (PipelineDepth cfg)) in *. destruct (held_known _ _ _ _ c Ho) as [kc Hkc].
  { unfold mine, unborn, held. rewrite !count_replicate. cbn [is_token is_lease]. resolve_decides. subst n. lia. }
  replace P with (set_conns P (<[c := kc]> (conns P))) by (rewrite list_insert_id by done; by destruct P).
  apply (pool_ok_conn cfg P (replicate n (Token c)) _ o c kc); try done; unfold like, unborn, held; rewrite ?count_replicate; try done.
  - intros d Hd'. rewrite !count_replicate. cbn [is_token is_lease]. resolve_decides. done.
  - pose proof (po_conns _ _ _ Ho c kc Hkc) as H. revert H. unfold conn_ok, tokens, held. rewrite !count_app, !count_replicate. cbn [is_token is_lease]. resolve_decides. intros H.
    eapply sound_sums; [eapply (drop_sound _ _ _ _ _ _ _ _ _ _ (Z.of_nat n - depth) kc); [| | |exact H]|..]; subst n; signs; try lia.
    intros E. pose proof (so_leases _ _ _ _ _ _ _ _ _ _ _ H E) as [Hl _]. pose proof (so_signs _ _ _ _ _ _ _ _ _ _ _ H). lia.
Qed.

Lemma warm_dial_safe {A} (k : option nat -> pprog A) h r Q : h ≡ₚ Slot :: r -> (forall o, safe (k o) r Q) -> safe (pbind (warm_dial cfg) k) h Q.
Proof.
  intros Hh Hk. apply safe_assoc. eapply dial_safe; [done| |].
  - intros e. apply safe_assoc, (safe_send _ None _ _ r); [done|apply Hk].
  - intros c. apply safe_assoc. apply (safe_change cfg c setWarm _ _ [Fresh c] [Fresh c] r); [done|total|done..| |].
    + intros P o kc _. by apply calm_sound.
    + apply safe_assoc. apply (list_safe c (Fresh c) [] (Z.to_nat (PipelineDepth cfg)) _ _ r); [done|by right|]. apply safe_assoc, safe_depth. intros depth Hd.
      apply safe_assoc, returnConnTokens_safe, Hk.
Qed.

(** The spare token of a connection that failed is dropped. *)
Lemma state_safe {A} c (k : bool * Z * option goerror -> pprog A) h r Q : h ≡ₚ Token c :: r ->
  (forall warm leases, safe (k (warm, leases, None)) (Token c :: r) Q) -> (forall warm leases e, safe (k (warm, leases, Some e)) r Q) ->
  safe (pbind (section (on_conn c (fun kc => (kc, (k_warm kc, k_leases kc, k_err kc))) (false, 0, None))) k) h Q.
Proof.
  intros Hh Hn Hs. apply (safe_conn cfg c _ _ _ h [Token c] r); [done|total|]. intros P o kc Ho Hkc H. cbn [fst snd].
  destruct (k_err kc) as [e|] eqn:E; [exists []; split; [|apply Hs]|exists [Token c]; split; [|apply Hn]]; [|rewrite list_insert_id by done; by destruct P].
  apply (pool_ok_conn cfg P [Token c] _ o c kc); try done; [others|]. expand H. pose proof (pinging_tokens c o).
  apply (drop_sound _ _ _ _ _ _ _ _ _ _ 1) in H; [settle H|lia|signs; lia|]. intros E'.
  pose proof (so_failing _ _ _ _ _ _ _ _ _ _ _ H E' ltac:(congruence)). pose proof (so_leases _ _ _ _ _ _ _ _ _ _ _ H E') as [? _].
  signs. lia.
Qed.

Lemma warm_loop_safe limit : forall warmOpen seen, safe (warm_loop cfg limit warmOpen seen) [] (fun _ h => h = []).
Proof.
  induction limit as [|limit IH]; intros warmOpen seen; [exact eq_refl|]. apply try_receive_safe; [|exact eq_refl]. intros [c|].
  - destruct (bool_decide _); [apply (safe_send _ (Some c) _ _ []); [done|apply IH]|]. apply (state_safe c _ _ []); [done|..]; [|intros warm leases e; apply IH].
    intros warm leases. destruct (_ || _); [apply (safe_send _ (Some c) _ _ []); [done|apply IH]|]. apply (keepalive_safe c _ _ []); [done|]. intros alive. apply IH.
  - destruct (_ <=? _); [apply (safe_send _ None _ _ []); [done|apply IH]|]. apply (warm_dial_safe _ _ []); [done|]. intros [c|]; [apply IH|exact eq_refl].
Qed.

Lemma WarmTick_safe : safe (WarmTick cfg) [] (fun _ h => h = []).
Proof. unfold WarmTick. destruct (_ <=? _); [exact eq_refl|]. apply safe_view. intros P. apply safe_view. intros P'. apply warm_loop_safe. Qed.

End Safe.
