(* ===== verification/NntpPoolSystem.v ===== *)
(** The pool with all its callers: any number of fetches, probes, connection tests and warm
    ticks, one step of any of them at a time, contexts that end at any moment, the pool closed
    under them, and another pool of the provider giving up pipelining.

    In every state this reaches the sums of NntpPoolLogic hold; the theorems say what that
    means for the provider's connections, for the slots, and for a caller that waits. *)

From Stdlib Require Import ZArith Lia.
From stdpp Require Import base list numbers strings relations.
From S2P Require Import Prelude Outcome PlaybackCoverage ContentProof NntpPool NntpPoolLogic NntpPoolSafe.

Local Open Scope Z_scope.
Local Open Scope harbor_scope.
Local Open Scope pprog_scope.

Inductive call : Type := Fetch (fuel : nat) (messageID : bytes) | Probe (fuel : nat) (messageID : bytes) | TestConn (fuel : nat) | Warm.

Section System.
Context (cfg : PoolConfig).

Definition ignore {A} (p : pprog A) : pprog unit := pbind p (fun _ => PRet tt).

Definition program (c : call) : pprog unit :=
  match c with
  | Fetch fuel id => ignore (fetch_attempt cfg fuel id)
  | Probe fuel id => ignore (statFromPool cfg fuel id)
  | TestConn fuel => ignore (TestConnection cfg fuel)
  | Warm => ignore (WarmTick cfg)
  end.

(** One step of a program.  A send waits while the channel is full, a receive while it is
    empty, a lock while it is taken. *)
Definition pstep (P : Pool) (p : pprog unit) (P' : Pool) (p' : pprog unit) : Prop :=
  match p with
  | PRet _ => False
  | PSect f k => P' = (f P).1 /\ p' = k (f P).2
  | PSend x k => Z.of_nat (length (ch P)) < MaxConns cfg * PipelineDepth cfg /\ P' = set_ch P (ch P ++ [x]) /\ p' = k
  | PRecv k => exists x l, ch P = x :: l /\ P' = set_ch P l /\ p' = k (Some x)
  | PLock k => dialing P = false /\ P' = set_dialing P true /\ p' = k
  | PUnlock k => P' = set_dialing P false /\ p' = k
  | PAsk q k => exists b, possible q b /\ P' = P /\ p' = k b
  end.

Definition returned (p : pprog unit) : bool := match p with PRet _ => true | _ => false end.
Definition receiving (p : pprog unit) : bool := match p with PRecv _ => true | _ => false end.

Definition state : Type := Pool * list (pprog unit).

Inductive pool_step : state -> state -> Prop :=
| step_call P ts c : pool_step (P, ts) (P, ts ++ [program c])
| step_thread P ts i p P' p' : ts !! i = Some p -> pstep P p P' p' -> pool_step (P, ts) (P', <[i := p']> ts)
| step_cancel P ts i k : ts !! i = Some (PRecv k) -> pool_step (P, ts) (P, <[i := k None]> ts)
| step_close P ts : pool_step (P, ts) (close_all P, ts)
| step_elsewhere P ts : pool_step (P, ts) (set_disabled P, ts).

Definition reached (s : state) : Prop := rtc pool_step (NewPool cfg, []) s.

(** Every program with what it holds. *)
Definition good (s : state) : Prop := exists hs, Forall2 (fun p h => safe cfg p h (fun _ h' => h' = [])) s.2 hs /\ pool_ok cfg s.1 (concat hs).

Lemma concat_at {A} (hs : list (list A)) i h : hs !! i = Some h -> exists o, concat hs ≡ₚ h ++ o /\ forall h', concat (<[i := h']> hs) ≡ₚ h' ++ o.
Proof.
  revert i. induction hs as [|g hs IH]; intros [|i] H; try done; cbn in H.
  - injection H as ->. exists (concat hs). done.
  - destruct (IH i H) as (o & E1 & E2). exists (g ++ o). split; [|intros h'].
    + cbn [concat]. rewrite E1. rewrite !app_assoc. by rewrite (Permutation_app_comm g h).
    + change (g ++ concat (<[i:=h']> hs) ≡ₚ h' ++ g ++ o). rewrite E2. rewrite !app_assoc. by rewrite (Permutation_app_comm g h').
Qed.

Context (Hcfg : normal cfg = cfg).

Lemma normal_bounds : 1 <= MaxConns cfg /\ 1 <= PipelineDepth cfg.
Proof. rewrite <- Hcfg. unfold normal. cbn [MaxConns PipelineDepth]. destruct (Z.leb_spec (MaxConns cfg) 0), (Z.ltb_spec (PipelineDepth cfg) 1), (Z.ltb_spec 32 1); cbn; try lia; destruct (Z.ltb_spec 32 (PipelineDepth cfg)); lia. Qed.

Lemma ignore_safe {A} (p : pprog A) : safe cfg p [] (fun _ h => h = []) -> safe cfg (ignore p) [] (fun _ h => h = []).
Proof. intros H. eapply safe_bind; [exact H|]. intros a h ->. exact eq_refl. Qed.

Lemma program_safe c : safe cfg (program c) [] (fun _ h => h = []).
Proof.
  destruct normal_bounds as [HM HD]. destruct c as [fuel id|fuel id|fuel|]; apply ignore_safe;
    [by apply fetch_attempt_safe|by apply statFromPool_safe|by apply TestConnection_safe|by apply WarmTick_safe].
Qed.

Lemma pool_ok_lock p h : pool_ok cfg p h -> dialing p = false -> pool_ok cfg (set_dialing p true) (Dialing :: h).
Proof.
  intros [P1 P2 P3 P4 P5 P6 P7] Hd. rewrite Hd in P7. split; cbn [set_dialing dialing conns ch opened parked]; try done.
  revert P7. sums. lia.
Qed.

Lemma pool_ok_unlock p h : pool_ok cfg p (Dialing :: h) -> pool_ok cfg (set_dialing p false) h.
Proof.
  intros [P1 P2 P3 P4 P5 P6 P7]. revert P7. sums. intros P7. split; cbn [set_dialing dialing conns ch opened parked]; try done.
  pose proof (count_nonneg (fun x => bool_decide (x = Dialing)) h). unfold held. destruct (dialing p); lia.
Qed.

Lemma pool_ok_closed p h : pool_ok cfg p h -> pool_ok cfg (close_all p) h.
Proof.
  intros H. refine (pool_ok_all cfg p h (fun c k => if bool_decide (c ∈ opened p) then Close k else k) [] H (NoDup_nil_2) _ _ _).
  - by intros c Hc%elem_of_nil.
  - intros c k. unfold Close. by destruct (bool_decide _), (k_closed k).
  - intros c k Hk. unfold conn_ok in *. cbn [set_opened opened]. apply (sound_iff _ _ _ _ _ _ _ _ _ False); [rewrite elem_of_nil; tauto|].
    destruct (bool_decide_reflect (c ∈ opened p)); [by eapply close_listed_sound|by eapply unlisted_sound].
Qed.

(** A step of a program changes what it holds, and nothing else that is held. *)
Lemma pstep_safe P p P' p' h o : pstep P p P' p' -> safe cfg p h (fun _ h' => h' = []) -> pool_ok cfg P (h ++ o) ->
  exists h', safe cfg p' h' (fun _ h' => h' = []) /\ pool_ok cfg P' (h' ++ o).
Proof.
  intros Hp Hs Ho. destruct p as [a|B f k|x k|k|k|k|B q k]; cbn [pstep safe] in *.
  - done.
  - destruct Hp as [-> ->]. destruct (Hs P o Ho) as (h' & Hi & Hk). by exists h'.
  - destruct Hp as (_ & -> & ->), Hs as (h' & Hh & Hk). exists h'. split; [done|]. apply pool_ok_sent. eapply pool_ok_perm; [|exact Ho]. by rewrite Hh.
  - destruct Hp as (x & l & E & -> & ->), Hs as (-> & Hk & _). exists [item x]. split; [apply Hk|]. by apply pool_ok_received.
  - destruct Hp as (E & -> & ->), Hs as (_ & Hk). exists (Dialing :: h). split; [done|]. by apply (pool_ok_lock P (h ++ o)).
  - destruct Hp as (-> & ->), Hs as (h' & Hh & Hk). exists h'. split; [done|]. apply pool_ok_unlock. eapply pool_ok_perm; [|exact Ho]. by rewrite Hh.
  - destruct Hp as (b & Hb & -> & ->). exists h. split; [by apply Hs|done].
Qed.

Lemma good_step s s' : good s -> pool_step s s' -> good s'.
Proof.
  intros (hs & Hf & Ho) Hs. destruct Hs as [P ts c|P ts i p P' p' Hi Hp|P ts i k Hi|P ts|P ts]; cbn [fst snd] in *.
  - exists (hs ++ [[]]). split; [apply Forall2_app; [done|]; constructor; [apply program_safe|done]|]. by rewrite concat_app, !app_nil_r.
  - destruct (Forall2_lookup_l _ _ _ _ _ Hf Hi) as (h & Hh & Hsafe). destruct (concat_at _ _ _ Hh) as (o & E1 & E2).
    destruct (pstep_safe P p P' p' h o Hp Hsafe) as (h' & Hs' & Ho'); [by eapply pool_ok_perm|].
    exists (<[i := h']> hs). split; [by apply Forall2_insert|]. eapply pool_ok_perm; [|exact Ho']. by rewrite E2.
  - destruct (Forall2_lookup_l _ _ _ _ _ Hf Hi) as (h & Hh & -> & _ & Hn). exists (<[i := []]> hs). split; [by apply Forall2_insert|].
    by rewrite (list_insert_id hs i [] Hh).
  - exists hs. split; [done|]. by apply pool_ok_closed.
  - exists hs. split; [done|]. by apply pool_ok_disabled.
Qed.

Lemma good_start : good (NewPool cfg, []).
Proof.
  exists []. split; [constructor|]. destruct normal_bounds as [HM _]. unfold NewPool. rewrite Hcfg. split; cbn [fst conns ch opened parked dialing concat]; try done.
  - unfold empties, in_use. rewrite count_replicate, !count_nil. cbn [bool_decide]. rewrite bool_decide_true by done. cbn [conns]. rewrite count_nil. lia.
  - lia.
  - intros c _. unfold tokens_in. rewrite count_replicate. by rewrite bool_decide_false by done.
  - split; [apply NoDup_nil_2|]. by intros c Hc%elem_of_nil.
Qed.

Lemma reached_good s : reached s -> good s.
Proof.
  unfold reached. assert (H : forall s1 s2, rtc pool_step s1 s2 -> good s1 -> good s2) by (intros s1 s2 H; induction H; eauto using good_step).
  intros Hs. apply (H _ _ Hs), good_start.
Qed.

(** ** Counting connections *)

Lemma held_in r h : 0 < held r h -> r ∈ h.
Proof. by intros (x & Hx & ->%bool_decide_eq_true)%count_pos. Qed.

(** Connections that each are in use, or hold a slot of their own, are no more than the slots. *)
Lemma places P h l : pool_ok cfg P h -> NoDup l ->
  (forall c, c ∈ l -> exists k, conns P !! c = Some k /\ (k_replaced k = true -> 1 <= held (Closing c) h + held (Removing c) h)) -> Z.of_nat (length l) <= MaxConns cfg.
Proof.
  intros Ho Hn Hl. set (used := fun c => from_option (fun k => negb (k_replaced k)) false (conns P !! c)).
  assert (H1 : count_by used l <= in_use P).
  { unfold in_use. rewrite <- (count_indices (fun k => negb (k_replaced k))). apply (count_within _ _ _ _ (fun c => c)); [done|done|]. intros c Hc Hu. split; [|exact Hu].
    destruct (Hl c Hc) as (k & Hk & _). apply elem_of_seq. apply lookup_lt_Some in Hk. lia. }
  assert (H2 : count_by (fun c => negb (used c)) l <= count_by is_slot h).
  { apply (count_within _ _ _ _ (fun c => if bool_decide (Closing c ∈ h) then Closing c else Removing c)); [done|intros c d; do 2 destruct (bool_decide _); congruence|].
    intros c Hc Hu. destruct (Hl c Hc) as (k & Hk & Hr). unfold used in Hu. rewrite Hk in Hu. cbn in Hu. rewrite negb_involutive in Hu. specialize (Hr Hu).
    destruct (bool_decide_reflect (Closing c ∈ h)) as [|Hno]; [done|]. split; [|done]. apply held_in. pose proof (held_nonneg (Closing c) h).
    destruct (Z.ltb_spec 0 (held (Closing c) h)) as [Hp|]; [|lia]. by apply held_in in Hp. }
  pose proof (po_slots _ _ _ Ho). pose proof (proj1 (po_parked _ _ _ Ho)). pose proof (count_nonneg (fun x => bool_decide (x = None)) (ch P)).
  rewrite <- (count_negb used l). unfold empties in *. lia.
Qed.

Lemma no_hands {A} (hs : list (list A)) : (forall h, h ∈ hs -> h = []) -> concat hs = [].
Proof. induction hs as [|h hs IH]; intros H; [done|]. cbn. rewrite (H h) by (by left). apply IH. intros h' Hh. apply H. by right. Qed.

Lemma holder {A} (x : A) hs : x ∈ concat hs -> exists i h, hs !! i = Some h /\ x ∈ h.
Proof.
  induction hs as [|g hs IH]; cbn; [by intros ?%elem_of_nil|]. intros [H|H]%elem_of_app; [by exists 0%nat, g|]. destruct (IH H) as (i & h & ? & ?). by exists (S i), h.
Qed.

(** ** What the sums mean *)

Lemma unclosed_bound P h : pool_ok cfg P h -> count_by (fun k => negb (k_closed k)) (conns P) <= MaxConns cfg.
Proof.
  intros Ho. rewrite <- count_indices. apply (places P h); [done|apply NoDup_filter, NoDup_seq|].
  intros c [Hc _]%list_elem_of_filter. destruct (conns P !! c) as [k|] eqn:Hk; [|done]. exists k. split; [done|]. intros Hr. cbn in Hc.
  pose proof (so_closing _ _ _ _ _ _ _ _ _ _ _ (po_conns _ _ _ Ho c k Hk) Hr ltac:(by destruct (k_closed k))). pose proof (held_nonneg (Removing c) h). lia.
Qed.

Lemma opened_bound P h : pool_ok cfg P h -> Z.of_nat (length (opened P)) <= MaxConns cfg.
Proof.
  intros Ho. destruct (po_opened _ _ _ Ho) as [Hn Hk]. apply (places P h); [done|done|]. intros c Hc. destruct (lookup_lt_is_Some_2 _ _ (Hk c Hc)) as [k E].
  exists k. split; [done|]. by apply (so_listed _ _ _ _ _ _ _ _ _ _ _ (po_conns _ _ _ Ho c k E)).
Qed.

Lemma quiet_sums P : pool_ok cfg P [] -> empties (ch P) + parked P + in_use P = MaxConns cfg /\ dialing P = false /\
  forall c k, conns P !! c = Some k ->
    if k_replaced k then k_closed k = true /\ c ∉ opened P else k_leases k = 0 /\ k_err k = None /\ 1 <= tokens_in c (ch P).
Proof.
  intros Ho. split; [|split].
  - pose proof (po_slots _ _ _ Ho) as H. rewrite count_nil in H. lia.
  - pose proof (po_dialing _ _ _ Ho) as H. by destruct (dialing P).
  - intros c k Hk. pose proof (po_conns _ _ _ Ho c k Hk) as H. revert H. unfold conn_ok, tokens, held. rewrite !count_nil. intros [].
    destruct (k_replaced k) eqn:E.
    + split; [destruct (k_closed k); [done|]; by specialize (so_closing eq_refl eq_refl)|]. intros Hc. by specialize (so_listed Hc eq_refl).
    + specialize (so_leases eq_refl). specialize (so_some eq_refl). specialize (so_failing eq_refl). split_and!; [lia| |lia].
      destruct (k_err k); [|done]. specialize (so_failing ltac:(done)). lia.
Qed.

(** Whether a program can move while the channel is [full], [empty], and the mutex [taken]. *)
Definition moves (P : Pool) (p : pprog unit) : bool :=
  match p with
  | PRet _ => false
  | PSect _ _ | PUnlock _ | PAsk _ _ => true
  | PSend _ _ => bool_decide (Z.of_nat (length (ch P)) < MaxConns cfg * PipelineDepth cfg)
  | PRecv _ => negb (bool_decide (ch P = []))
  | PLock _ => negb (dialing P)
  end.

Lemma answered {B} (q : pool_ask B) : exists b, possible q b.
Proof. destruct q; cbn; try (by exists 1); try (by exists tt); try (by exists None); try (by exists true); try (by exists CmdOk). by exists (Ok ([], 0)). Qed.

Lemma moves_pstep P p : moves P p = true -> exists P' p', pstep P p P' p'.
Proof.
  destruct p as [a|B f k|x k|k|k|k|B q k]; cbn [moves pstep]; intros H.
  - done.
  - by eexists _, _.
  - apply bool_decide_eq_true in H. by eexists _, _.
  - destruct (ch P) as [|x l] eqn:E; [done|]. by exists (set_ch P l), (k (Some x)), x, l.
  - apply negb_true_iff in H. by eexists _, _.
  - by eexists _, _.
  - destruct (answered q) as [b Hb]. by exists P, (k b), b.
Qed.

(** Nobody moves: then nobody holds anything. *)
Lemma stuck_empty P ts hs : Forall2 (fun p h => safe cfg p h (fun _ h' => h' = [])) ts hs -> pool_ok cfg P (concat hs) ->
  Z.of_nat (length (ch P)) < MaxConns cfg * PipelineDepth cfg -> (forall i p, ts !! i = Some p -> moves P p = false) -> concat hs = [].
Proof.
  intros Hf Ho Hroom Hm.
  assert (Hd : dialing P = false).
  { destruct (dialing P) eqn:E; [|done]. exfalso. pose proof (po_dialing _ _ _ Ho) as H. rewrite E in H.
    destruct (holder Dialing hs) as (i & h & Hi & Hh); [apply held_in; lia|]. destruct (Forall2_lookup_r _ _ _ _ _ Hf Hi) as (p & Hp & Hs).
    specialize (Hm i p Hp). destruct p as [a|B f k|x k|k|k|k|B q k]; cbn [moves safe] in *; try done.
    - subst. by apply elem_of_nil in Hh.
    - by apply bool_decide_eq_false in Hm.
    - destruct Hs as (-> & _). by apply elem_of_nil in Hh.
    - by destruct Hs. }
  apply no_hands. intros h [i Hi]%list_elem_of_lookup. destruct (Forall2_lookup_r _ _ _ _ _ Hf Hi) as (p & Hp & Hs). specialize (Hm i p Hp).
  destruct p as [a|B f k|x k|k|k|k|B q k]; cbn [moves safe] in *; try done.
  - by apply bool_decide_eq_false in Hm.
  - by destruct Hs.
  - by rewrite Hd in Hm.
Qed.

(** A pool where nothing is held has something in its channel. *)
Lemma quiet_nonempty P : pool_ok cfg P [] -> ch P <> [].
Proof.
  intros Ho E. destruct (quiet_sums P Ho) as (H1 & _ & H3). rewrite E in *. pose proof (po_parked _ _ _ Ho). assert (0 < in_use P) as (k & Hk & Hr)%count_pos by (unfold empties in H1; rewrite count_nil in H1; lia).
  apply list_elem_of_lookup in Hk as [c Hk]. specialize (H3 c k Hk). destruct (k_replaced k); [done|]. destruct H3 as (_ & _ & H3). unfold tokens_in in H3. rewrite count_nil in H3. lia.
Qed.

Lemma someone_moves P ts p : good (P, ts) -> p ∈ ts -> (receiving p = true \/ (returned p = false /\ Z.of_nat (length (ch P)) < MaxConns cfg * PipelineDepth cfg)) ->
  exists i q P' q', ts !! i = Some q /\ pstep P q P' q'.
Proof.
  intros (hs & Hf & Ho) Hp Hr. cbn [fst snd] in *. destruct (decide (Exists (fun q => moves P q = true) ts)) as [(q & Hq & Hm)%list.Exists_exists|Hn].
  - apply list_elem_of_lookup in Hq as [i Hi]. destruct (moves_pstep P q Hm) as (P' & q' & Hs). by exists i, q, P', q'.
  - exfalso. assert (Hm : forall q, q ∈ ts -> moves P q = false).
    { intros q Hq. destruct (moves P q) eqn:E; [|done]. destruct Hn. apply list.Exists_exists. by exists q. }
    destruct normal_bounds as [HM HD].
    assert (Hcap : Z.of_nat (length (ch P)) < MaxConns cfg * PipelineDepth cfg).
    { destruct Hr as [Hr|[_ Hr]]; [|done]. specialize (Hm p Hp). destruct p as [a|B f k|x k|k|k|k|B q k]; try done. cbn [moves] in Hm. apply negb_false_iff, bool_decide_eq_true in Hm. rewrite Hm. cbn. nia. }
    assert (Hc : concat hs = []) by (apply (stuck_empty P ts hs Hf Ho Hcap); intros i q Hi; apply Hm; by eapply list_elem_of_lookup_2).
    rewrite Hc in Ho. pose proof (quiet_nonempty P Ho) as Hne. destruct (quiet_sums P Ho) as (_ & Hd & _). specialize (Hm p Hp).
    destruct p as [a|B f k|x k|k|k|k|B q k]; cbn [moves receiving returned] in *; try done; [by destruct Hr as [Hr|[Hr _]]| | |].
    + by apply bool_decide_eq_false in Hm.
    + by apply negb_false_iff, bool_decide_eq_true in Hm.
    + by rewrite Hd in Hm.
Qed.

End System.

Lemma normal_idem cfg : normal (normal cfg) = normal cfg.
Proof.
  unfold normal. cbn [MaxConns IdleTimeout DialTimeout WarmConns PipelineDepth Username ceiled].
  set (m := if MaxConns cfg <=? 0 then 8 else MaxConns cfg). assert (Hm : 1 <= m) by (subst m; destruct (Z.leb_spec (MaxConns cfg) 0); lia).
  set (w := if WarmConns cfg <? 0 then 0 else WarmConns cfg). assert (Hw : 0 <= w) by (subst w; destruct (Z.ltb_spec (WarmConns cfg) 0); lia).
  set (d := if PipelineDepth cfg <? 1 then 1 else PipelineDepth cfg). assert (Hd : 1 <= d) by (subst d; destruct (Z.ltb_spec (PipelineDepth cfg) 1); lia).
  assert (Hi : forall a b, 0 < b -> (if (if a <=? 0 then b else a) <=? 0 then b else if a <=? 0 then b else a) = if a <=? 0 then b else a).
  { intros a b Hb. destruct (Z.leb_spec a 0) as [|Ha]; [by destruct (b <=? 0)|]. destruct (Z.leb_spec a 0); [lia|done]. }
  f_equal; try (apply Hi; done).
  - destruct (Z.leb_spec m 0); [lia|]. destruct (Z.ltb_spec m w); [destruct (Z.ltb_spec m 0); [lia|]; by rewrite Z.ltb_irrefl|].
    destruct (Z.ltb_spec w 0); [lia|]. destruct (Z.ltb_spec m w); [lia|done].
  - destruct (Z.ltb_spec 32 d); [done|]. destruct (Z.ltb_spec d 1); [lia|]. destruct (Z.ltb_spec 32 d); [lia|done].
Qed.

(** ** Running a program *)

(** The answers to every question, once and for all. *)
Definition answers : Type := forall B, pool_ask B -> B.

Definition turn (cfg : PoolConfig) (ans : answers) (P : Pool) (p : pprog unit) : option (Pool * pprog unit) :=
  match p with
  | PRet _ => None
  | PSect f k => Some ((f P).1, k (f P).2)
  | PSend x k => if Z.of_nat (length (ch P)) <? MaxConns cfg * PipelineDepth cfg then Some (set_ch P (ch P ++ [x]), k) else None
  | PRecv k => match ch P with x :: l => Some (set_ch P l, k (Some x)) | [] => None end
  | PLock k => if dialing P then None else Some (set_dialing P true, k)
  | PUnlock k => Some (set_dialing P false, k)
  | PAsk q k => Some (P, k (ans _ q))
  end.

(** [n] steps, or as many as there are. *)
Fixpoint run (cfg : PoolConfig) (ans : answers) (n : nat) (P : Pool) (p : pprog unit) : Pool * pprog unit :=
  match n with
  | O => (P, p)
  | S n => match turn cfg ans P p with Some (P, p) => run cfg ans n P p | None => (P, p) end
  end.

Lemma turn_pstep cfg ans P p P' p' : (forall B (q : pool_ask B), possible q (ans B q)) -> turn cfg ans P p = Some (P', p') -> pstep cfg P p P' p'.
Proof.
  intros Ha E. destruct p as [a|B f k|x k|k|k|k|B q k]; cbn [turn pstep] in *.
  - done.
  - by injection E as <- <-.
  - destruct (Z.ltb_spec (Z.of_nat (length (ch P))) (MaxConns cfg * PipelineDepth cfg)); [|done]. by injection E as <- <-.
  - destruct (ch P) as [|x l]; [done|]. injection E as <- <-. by exists x, l.
  - destruct (dialing P); [done|]. by injection E as <- <-.
  - by injection E as <- <-.
  - injection E as <- <-. exists (ans B q). split_and!; [apply Ha|done|done].
Qed.

Lemma run_reached cfg ans n i : (forall B (q : pool_ask B), possible q (ans B q)) ->
  forall P p ts, ts !! i = Some p -> reached cfg (P, ts) -> reached cfg ((run cfg ans n P p).1, <[i := (run cfg ans n P p).2]> ts).
Proof.
  intros Ha. induction n as [|n IH]; intros P p ts Hi Hr; cbn [run fst snd]; [by rewrite list_insert_id|].
  destruct (turn cfg ans P p) as [[P' p']|] eqn:E; [|by rewrite list_insert_id]. assert (Hl : (i < length ts)%nat) by by eapply lookup_lt_Some.
  rewrite <- (list_insert_insert_eq ts i _ p'). apply IH; [by apply list_lookup_insert_eq|]. eapply rtc_r; [exact Hr|]. eapply step_thread; [done|]. by eapply turn_pstep.
Qed.

(** ** The theorems *)

(** C31. However the fetches, probes, connection tests and warm ticks of a pool interleave, with
    contexts that end, dials that fail, connections that break and the pool closed under them:
    at most [MaxConns] connections are not closed, at most [MaxConns] are listed as open, and a
    connection that lives has at most [PipelineDepth] leases and waiting tokens together. *)
Theorem connections_bounded cfg P ts : reached (normal cfg) (P, ts) ->
  count_by (fun k => negb (k_closed k)) (conns P) <= MaxConns (normal cfg) /\ Z.of_nat (length (opened P)) <= MaxConns (normal cfg) /\
  forall c k, conns P !! c = Some k -> k_dead k = false -> 0 <= k_leases k /\ k_leases k + tokens_in c (ch P) <= PipelineDepth (normal cfg).
Proof.
  intros Hr. destruct (reached_good _ (normal_idem cfg) _ Hr) as (hs & _ & Ho). cbn [fst] in Ho.
  split_and!; [by eapply unclosed_bound|by eapply opened_bound|]. intros c k Hk Hd. pose proof (po_conns _ _ _ Ho c k Hk) as H.
  pose proof (so_signs _ _ _ _ _ _ _ _ _ _ _ H). destruct (so_live _ _ _ _ _ _ _ _ _ _ _ H Hd) as [E Hl]. unfold tokens in *. pose proof (count_nonneg (is_token c) (concat hs)). lia.
Qed.

(** C32. When every call has returned, nothing is lost: each of the [MaxConns] slots is in the
    channel, parked under the ceiling, or a connection that was not given up, never all of them
    parked; nobody dials; a connection that was given up is closed and not listed, and one that
    was not has no lease, no error, and a token in the channel, so that it can be taken. *)
Theorem nothing_lost cfg P ts : reached (normal cfg) (P, ts) -> (forall p, p ∈ ts -> returned p = true) ->
  empties (ch P) + parked P + in_use P = MaxConns (normal cfg) /\ 0 <= parked P < MaxConns (normal cfg) /\ dialing P = false /\
  forall c k, conns P !! c = Some k ->
    if k_replaced k then k_closed k = true /\ c ∉ opened P else k_leases k = 0 /\ k_err k = None /\ 1 <= tokens_in c (ch P).
Proof.
  intros Hr Hq. destruct (reached_good _ (normal_idem cfg) _ Hr) as (hs & Hf & Ho). cbn [fst snd] in *.
  assert (Hc : concat hs = []).
  { apply no_hands. intros h [i Hi]%list_elem_of_lookup. destruct (Forall2_lookup_r _ _ _ _ _ Hf Hi) as (p & Hp & Hs).
    specialize (Hq p ltac:(by eapply list_elem_of_lookup_2)). by destruct p. }
  rewrite Hc in Ho. destruct (quiet_sums _ P Ho) as (H1 & H2 & H3). split_and!; [done|apply (po_parked _ _ _ Ho)..|done|done].
Qed.

(** C33. A caller that waits for a connection waits for somebody: while a call waits to receive,
    or is unfinished and the channel has room, some call of the pool can take its next step.
    The pool never comes to rest with a caller waiting for a token or a slot. *)
Theorem waiters_wait_for_somebody cfg P ts p : reached (normal cfg) (P, ts) -> p ∈ ts ->
  receiving p = true \/ (returned p = false /\ Z.of_nat (length (ch P)) < MaxConns (normal cfg) * PipelineDepth (normal cfg)) ->
  exists i q P' q', ts !! i = Some q /\ pstep (normal cfg) P q P' q'.
Proof. intros Hr Hp Hw. exact (someone_moves _ (normal_idem cfg) P ts p (reached_good _ (normal_idem cfg) _ Hr) Hp Hw). Qed.

(** ** Witnesses *)

(** Two connections, two requests on each; every dial and request is answered. *)
Definition small : PoolConfig := MkConfig 2 0 0 0 2 [] false.
Definition works : answers := fun B q =>
  match q in pool_ask B return B with
  | Now => 5 | CeilingCurrent => 1 | OnRejected => tt | CtxErr => None | Connect => true | Greeting => Some (200, []) | AuthUser => CmdOk | AuthPass => CmdOk
  | ArmDeadline _ => None | Cmd _ _ => None | ReadCodeLine _ _ => None | DecodeBody _ => Ok ([7], 1) | Consume _ _ => None
  end.
(** The wire breaks when a body is read. *)
Definition breaks : answers := fun B q =>
  match q in pool_ask B return B with
  | Now => 5 | CeilingCurrent => 1 | OnRejected => tt | CtxErr => None | Connect => true | Greeting => Some (200, []) | AuthUser => CmdOk | AuthPass => CmdOk
  | ArmDeadline _ => None | Cmd _ _ => None | ReadCodeLine _ _ => Some (0, errors_New (str "EOF")) | DecodeBody _ => Ok ([7], 1) | Consume _ _ => None
  end.

Lemma works_possible B (q : pool_ask B) : possible q (works B q).
Proof. by destruct q. Qed.
Lemma breaks_possible B (q : pool_ask B) : possible q (breaks B q).
Proof. by destruct q. Qed.

(** A call that ran [n] steps in the new pool. *)
Definition ran (ans : answers) (n : nat) : Pool * pprog unit := run (normal small) ans n (NewPool small) (program (normal small) (Fetch 3 (str "a@b"))).

Lemma ran_reached ans n : (forall B (q : pool_ask B), possible q (ans B q)) -> reached (normal small) ((ran ans n).1, [(ran ans n).2]).
Proof.
  intros Ha. refine (run_reached (normal small) ans n 0 Ha (NewPool small) _ [program (normal small) (Fetch 3 (str "a@b"))] eq_refl _).
  eapply rtc_l; [|apply rtc_refl]. exact (step_call _ _ [] (Fetch 3 (str "a@b"))).
Qed.

Lemma connections_bounded_witness : k_leases <$> conns (ran works 14).1 = [1] /\ count_by (fun k => negb (k_closed k)) (conns (ran works 14).1) <= 2.
Proof. split; [vm_compute; reflexivity|]. exact (proj1 (connections_bounded small _ _ (ran_reached works 14 works_possible))). Defined.

Lemma nothing_lost_witness : (ran breaks 40).2 = PRet tt /\ ch (ran breaks 40).1 = [None; Some 0%nat; None] /\ opened (ran breaks 40).1 = [] /\
  empties (ch (ran breaks 40).1) + parked (ran breaks 40).1 + in_use (ran breaks 40).1 = 2.
Proof.
  split; [vm_compute; reflexivity|]. split; [vm_compute; reflexivity|]. split; [vm_compute; reflexivity|].
  refine (proj1 (nothing_lost small _ _ (ran_reached breaks 40 breaks_possible) _)). intros p Hp. apply list_elem_of_singleton in Hp. rewrite Hp. vm_compute. reflexivity.
Defined.

(** Another caller while the first is at work. *)
Lemma waiters_wait_for_somebody_witness : exists i q P' q',
  [(ran works 14).2; program (normal small) (Probe 3 (str "b@c"))] !! i = Some q /\ pstep (normal small) (ran works 14).1 q P' q'.
Proof.
  apply (waiters_wait_for_somebody small (ran works 14).1 [(ran works 14).2; program (normal small) (Probe 3 (str "b@c"))] (ran works 14).2).
  - eapply rtc_r; [exact (ran_reached works 14 works_possible)|]. exact (step_call _ _ [_] (Probe 3 (str "b@c"))).
  - apply list_elem_of_here.
  - right. vm_compute. split; reflexivity.
Defined.
