(* ===== verification/NntpHealth.v ===== *)
(** What is remembered of a Usenet provider: internal/nntp/negcache.go, the articles it said
    it does not have, and internal/nntp/health.go, its failures, the order in which providers
    are tried, and the lag of their articles.

    Both are guarded by a mutex: a method is one function on the state, and the clock and the
    order of a range over a map are arguments.  The lag is a float64, on the floats of
    [Doubles]. *)

From Stdlib Require Import ZArith Lia SpecFloat Sorted.
From stdpp Require Import base list numbers strings sets gmap.
From S2P Require Import Prelude Doubles.

Local Open Scope Z_scope.

(** ** Articles that are missing *)

(** No cache is a disabled one. *)
Record negativeCache := MkNegCache { n_ttl : Z; n_max : Z; n_entries : gmap bytes Z; n_hits : Z; n_writes : Z }.

Definition defaultNegCacheMaxEntries : Z := 50000.

Definition newNegativeCache (ttl max : Z) : option negativeCache :=
  if ttl <=? 0 then None else Some (MkNegCache ttl (if max <=? 0 then defaultNegCacheMaxEntries else max) ∅ 0 0).

Definition with_entries (n : negativeCache) (m : gmap bytes Z) (hits writes : Z) : negativeCache :=
  MkNegCache (n_ttl n) (n_max n) m (u64 (n_hits n + hits)) (u64 (n_writes n + writes)).

Definition Has (now : Z) (messageID : bytes) (n : negativeCache) : negativeCache * bool :=
  if bool_decide (messageID = []) then (n, false)
  else
    match n_entries n !! messageID with
    | None => (n, false)
    | Some exp =>
        if negb (now <? exp) then (with_entries n (delete messageID (n_entries n)) 0 0, false)
        else (with_entries n (n_entries n) 1 0, true)
    end.

(** The second loop deletes live entries in the order it meets them. *)
Fixpoint evict_live (low : Z) (order : list bytes) (m : gmap bytes Z) : gmap bytes Z :=
  match order with
  | [] => m
  | k :: order => if Z.of_nat (size m) <=? low then m else evict_live low order (delete k m)
  end.

Definition evictLocked (now : Z) (order : gmap bytes Z -> list bytes) (n : negativeCache) : negativeCache :=
  let live := filter (fun ke : bytes * Z => now < ke.2) (n_entries n) in
  with_entries n (evict_live (n_max n * 9 / 10) (order live) live) 0 0.

Definition Put (now : Z) (order : gmap bytes Z -> list bytes) (messageID : bytes) (n : negativeCache) : negativeCache :=
  if bool_decide (messageID = []) then n
  else
    let n := if n_max n <=? Z.of_nat (size (n_entries n)) then evictLocked now order n else n in
    with_entries n (<[messageID := now + n_ttl n]> (n_entries n)) 0 1.

(** ** Health *)

Record providerHealthState := MkHealthState { consecutiveFailures : Z; backoffUntil : option Z }.   (* none: the zero time *)
Record providerLagAvg := MkLag { samples : Z; meanSec : spec_float }.

Record ProviderHealth := MkHealth {
  h_state : gmap bytes providerHealthState; h_stripe : bool; retentionDays : gmap bytes Z; observedRoute : gset (bytes * bytes); stripeCursor : Z;
  lagYoungAgeSec : Z; lagMinSamples : Z; lagState : gmap bytes providerLagAvg
}.

Definition providerHealthBackoffBase : Z := 2 * second.
Definition providerHealthBackoffCap : Z := 120 * second.
Definition providerHealthBackoffThreshold : Z := 2.

Definition NewProviderHealthWithRouting (stripe : bool) (retention : list (bytes * Z)) : ProviderHealth :=
  MkHealth ∅ stripe (list_to_map (filter (fun nd : bytes * Z => nd.1 <> [] /\ 0 < nd.2) retention)) ∅ 0 0 0 ∅.

Definition set_state (h : ProviderHealth) (m : gmap bytes providerHealthState) : ProviderHealth :=
  MkHealth m (h_stripe h) (retentionDays h) (observedRoute h) (stripeCursor h) (lagYoungAgeSec h) (lagMinSamples h) (lagState h).
Definition set_lag (h : ProviderHealth) (age min : Z) (m : gmap bytes providerLagAvg) : ProviderHealth :=
  MkHealth (h_state h) (h_stripe h) (retentionDays h) (observedRoute h) (stripeCursor h) age min m.

Definition SetLagModel (youngAgeSec minSamples : Z) (h : ProviderHealth) : ProviderHealth :=
  if youngAgeSec <=? 0 then set_lag h 0 (lagMinSamples h) (lagState h)
  else set_lag h youngAgeSec (if minSamples <? 1 then 1 else minSamples) (lagState h).

Definition RecordSuccess (name : bytes) (h : ProviderHealth) : ProviderHealth :=
  if bool_decide (name = []) then h else set_state h (delete name (h_state h)).

(** [float64(0.2)] and [float64(1-0.2)], the constants of the average. *)
Definition lagEWMAAlpha : spec_float := fdiv (float64 1) (float64 5).
Definition lagEWMARest : spec_float := fdiv (float64 4) (float64 5).
Definition fmul : spec_float -> spec_float -> spec_float := SFmul 53 1024.
Definition fadd : spec_float -> spec_float -> spec_float := SFadd 53 1024.

Definition observe_lag (age : spec_float) (st : providerLagAvg) : providerLagAvg :=
  let n := i64 (samples st + 1) in
  MkLag n (if n =? 1 then age else fadd (fmul lagEWMAAlpha age) (fmul lagEWMARest (meanSec st))).

Definition RecordSuccessAt (now : Z) (name : bytes) (postedAt : Z) (h : ProviderHealth) : ProviderHealth :=
  let h := RecordSuccess name h in
  if bool_decide (name = []) || (postedAt <=? 0) || (lagYoungAgeSec h =? 0) then h
  else
    let nowUnix := now / second in
    if nowUnix <? postedAt then h
    else
      let st := default (MkLag 0 (float64 0)) (lagState h !! name) in
      set_lag h (lagYoungAgeSec h) (lagMinSamples h) (<[name := observe_lag (float64 (nowUnix - postedAt)) st]> (lagState h)).

Definition lagAverage (h : ProviderHealth) (name : bytes) : option spec_float :=
  if bool_decide (name = []) then None
  else
    match lagState h !! name with
    | Some st => if samples st <? lagMinSamples h then None else Some (meanSec st)
    | None => None
    end.

(** [providerHealthBackoffBase << shift] on an int64. *)
Definition backoff_window (failures : Z) : Z :=
  let backoff := i64 (Z.shiftl providerHealthBackoffBase (failures - providerHealthBackoffThreshold)) in
  if (backoff <=? 0) || (providerHealthBackoffCap <? backoff) then providerHealthBackoffCap else backoff.

Definition RecordFailure (now : Z) (name : bytes) (h : ProviderHealth) : ProviderHealth :=
  if bool_decide (name = []) then h
  else
    let st := default (MkHealthState 0 None) (h_state h !! name) in
    let n := i64 (consecutiveFailures st + 1) in
    set_state h (<[name := MkHealthState n (if n <? providerHealthBackoffThreshold then backoffUntil st else Some (now + backoff_window n))]> (h_state h)).

Definition Backoff (now : Z) (name : bytes) (h : ProviderHealth) : Z :=
  if bool_decide (name = []) then 0
  else
    match h_state h !! name with
    | Some (MkHealthState _ (Some until)) => let remaining := time_sub until now in if remaining <=? 0 then 0 else remaining
    | _ => 0
    end.

Definition firstSuccessfulRoute (provider policy : bytes) (h : ProviderHealth) : ProviderHealth * bool :=
  if bool_decide (provider = []) || bool_decide (policy = []) then (h, false)
  else if bool_decide ((policy, provider) ∈ observedRoute h) then (h, false)
  else (MkHealth (h_state h) (h_stripe h) (retentionDays h) ({[(policy, provider)]} ∪ observedRoute h) (stripeCursor h) (lagYoungAgeSec h) (lagMinSamples h) (lagState h), true).

(** ** The order of candidates *)

Inductive route_policy : Type := Preference | Retention | Lag | Stripe.
Definition policy_text (p : route_policy) : bytes :=
  match p with Preference => str "preference" | Retention => str "retention" | Lag => str "lag" | Stripe => str "stripe" end.

(** The two comparisons that are sorted by. *)
Definition deeper (left right : Z) : bool :=
  if left =? right then false else if left =? 0 then false else if right =? 0 then true else right <? left.
Definition sooner (left right : option spec_float) : bool :=
  match left, right with
  | Some l, Some r => SFltb l r
  | Some _, None => true
  | _, _ => false
  end.

Definition rotate {A} (start : nat) (l : list A) : list A := drop start l ++ take start l.

Section Order.
Context {C : Type} (name : C -> bytes).

(** One instant and one state; a candidate may be nil. *)
Definition orderCandidates (now : Z) (candidates : list (option C)) (postedAt : Z) (h : ProviderHealth) : ProviderHealth * (list (option C) * route_policy) :=
  if (length candidates <? 2)%nat then (h, (candidates, Preference))
  else
    let known := omap (fun c => c) candidates in
    let healthy := filter (fun c => ~ 0 < Backoff now (name c) h) known in
    let backedOff := filter (fun c => 0 < Backoff now (name c) h) known in
    if bool_decide (healthy = []) then (h, (candidates, Preference))
    else
      let nowUnix := now / second in
      let days c := default 0 (retentionDays h !! name c) in
      let dated := (0 <? postedAt) && (postedAt <=? nowUnix) in
      let ageDays := if dated then (nowUnix - postedAt) / 86400 else -1 in
      let retentionApplies := (0 <=? ageDays) && existsb (fun c => (0 <? days c) && (days c <? ageDays)) healthy in
      let lagApplies := negb retentionApplies && (0 <? lagYoungAgeSec h) && dated && (nowUnix - postedAt <? lagYoungAgeSec h) &&
        (2 <=? count_by (fun c => match lagAverage h (name c) with Some _ => true | None => false end) healthy) in
      let give l := map Some (l ++ backedOff) in
      if retentionApplies then (h, (give (sort_by (fun a b => deeper (days a) (days b)) healthy), Retention))
      else if lagApplies then (h, (give (sort_by (fun a b => sooner (lagAverage h (name a)) (lagAverage h (name b))) healthy), Lag))
      else if h_stripe h && (1 <? length healthy)%nat then
        (MkHealth (h_state h) (h_stripe h) (retentionDays h) (observedRoute h) (u64 (stripeCursor h + 1)) (lagYoungAgeSec h) (lagMinSamples h) (lagState h),
         (give (rotate (Z.to_nat (stripeCursor h mod Z.of_nat (length healthy))) healthy), Stripe))
      else (h, (give healthy, Preference)).

End Order.

(** ** The negative cache is small and truthful *)

Inductive cache_op : Type := OpHas (now : Z) (id : bytes) | OpPut (now : Z) (id : bytes).

Definition cache_step (order : gmap bytes Z -> list bytes) (n : negativeCache) (op : cache_op) : negativeCache :=
  match op with OpHas now id => (Has now id n).1 | OpPut now id => Put now order id n end.
Definition cache_run (order : gmap bytes Z -> list bytes) (n : negativeCache) (ops : list cache_op) : negativeCache := foldl (cache_step order) n ops.

(** Every key of a map, once. *)
Definition ranges (order : gmap bytes Z -> list bytes) : Prop := forall m, NoDup (order m) /\ forall k, k ∈ order m <-> is_Some (m !! k).

Lemma evict_live_sub low order m : evict_live low order m ⊆ m.
Proof. revert m. induction order as [|k order IH]; intros m; cbn; [done|]. destruct (_ <=? low); [done|]. etrans; [apply IH|apply delete_subseteq]. Qed.

Lemma evict_live_small low order m : 0 <= low -> (forall k, is_Some (m !! k) -> k ∈ order) -> Z.of_nat (size (evict_live low order m)) <= low.
Proof.
  intros Hl. revert m. induction order as [|k order IH]; intros m Hm; cbn.
  - assert (m = ∅) as ->; [|rewrite map_size_empty; lia]. apply map_empty. intros k. destruct (m !! k) eqn:E; [|done].
    exfalso. apply (not_elem_of_nil k), Hm. by rewrite E.
  - destruct (Z.leb_spec (Z.of_nat (size m)) low); [done|]. apply IH. intros k' Hk'. destruct (decide (k' = k)) as [->|Hne].
    + rewrite lookup_delete_eq in Hk'. by destruct Hk'.
    + rewrite lookup_delete_ne in Hk' by done. specialize (Hm k' Hk'). by apply list.elem_of_cons in Hm as [->|Hm].
Qed.

(** A verdict that was put and has not expired. *)
Definition put_before (ops : list cache_op) (ttl : Z) (id : bytes) (exp : Z) : Prop := id <> [] /\ exists t, OpPut t id ∈ ops /\ exp = t + ttl.

Record cache_inv (ttl max : Z) (ops : list cache_op) (n : negativeCache) : Prop := {
  ci_ttl : n_ttl n = ttl;
  ci_max : n_max n = max;
  ci_size : Z.of_nat (size (n_entries n)) <= max;
  ci_true : forall id exp, n_entries n !! id = Some exp -> put_before ops ttl id exp
}.

Lemma put_before_app ops op ttl id exp : put_before ops ttl id exp -> put_before (ops ++ [op]) ttl id exp.
Proof. intros (H & t & Ht & E). split; [done|]. exists t. split; [|done]. apply elem_of_app. by left. Qed.

Lemma evictLocked_spec now order n : ranges order -> 1 <= n_max n ->
  n_ttl (evictLocked now order n) = n_ttl n /\ n_max (evictLocked now order n) = n_max n /\
  n_entries (evictLocked now order n) ⊆ n_entries n /\ Z.of_nat (size (n_entries (evictLocked now order n))) < n_max n.
Proof.
  intros Hr Hm. unfold evictLocked. set (live := filter _ (n_entries n)). cbn [with_entries n_ttl n_max n_entries]. split_and!; [done..| |].
  - etrans; [apply evict_live_sub|apply map_filter_subseteq].
  - pose proof (evict_live_small (n_max n * 9 / 10) (order live) live ltac:(apply Z.div_pos; lia) ltac:(intros k; by apply Hr)).
    assert (n_max n * 9 / 10 < n_max n) by (apply Z.div_lt_upper_bound; lia). lia.
Qed.

Lemma cache_step_inv order ttl max ops op n : ranges order -> 1 <= max -> cache_inv ttl max ops n -> cache_inv ttl max (ops ++ [op]) (cache_step order n op).
Proof.
  intros Hr Hmax [E1 E2 Hs Ht]. destruct op as [now id|now id]; cbn [cache_step].
  - unfold Has. assert (Hk : cache_inv ttl max (ops ++ [OpHas now id]) n) by (split; eauto using put_before_app).
    destruct (bool_decide _); [done|]. destruct (n_entries n !! id) as [exp|] eqn:E; [|done]. destruct (negb _); cbn [fst]; split; cbn; try done; try (by destruct Hk).
    + pose proof (map_subseteq_size (delete id (n_entries n)) (n_entries n) ltac:(apply delete_subseteq)). lia.
    + intros k e Hke. apply lookup_delete_Some in Hke as [_ Hke]. by apply put_before_app, Ht.
  - unfold Put. destruct (bool_decide_reflect (id = [])) as [|Hid]; [split; eauto using put_before_app|].
    assert (Hn : exists n', n' = (if n_max n <=? Z.of_nat (size (n_entries n)) then evictLocked now order n else n) /\
      n_ttl n' = ttl /\ n_max n' = max /\ n_entries n' ⊆ n_entries n /\ Z.of_nat (size (n_entries n')) < max).
    { eexists. split; [reflexivity|]. destruct (Z.leb_spec (n_max n) (Z.of_nat (size (n_entries n)))); [|split_and!; [done..|lia]].
      destruct (evictLocked_spec now order n Hr ltac:(lia)) as (? & ? & ? & ?). split_and!; [congruence..|done|lia]. }
    destruct Hn as (n' & <- & F1 & F2 & F3 & F4). split; cbn [with_entries n_ttl n_max n_entries]; [done|done| |].
    + rewrite map_size_insert. destruct (n_entries n' !! id); unfold Datatypes.id; lia.
    + intros k e Hke. apply lookup_insert_Some in Hke as [[<- <-]|[_ Hke]].
      * split; [done|]. exists now. rewrite F1. split; [|done]. apply elem_of_app. right. by apply list_elem_of_singleton.
      * apply put_before_app, Ht. by eapply lookup_weaken.
Qed.

Lemma cache_run_inv order ttl max n ops : newNegativeCache ttl max = Some n -> ranges order -> cache_inv (n_ttl n) (n_max n) ops (cache_run order n ops) /\ 0 < n_ttl n /\ 1 <= n_max n.
Proof.
  unfold newNegativeCache. destruct (Z.leb_spec ttl 0); [done|]. intros [= <-] Hr. cbn [n_ttl n_max]. set (m := if max <=? 0 then _ else _).
  assert (Hm : 1 <= m) by (subst m; unfold defaultNegCacheMaxEntries; destruct (Z.leb_spec max 0); lia). split; [|done].
  induction ops as [|op ops IH] using rev_ind; [split; cbn; [done..|rewrite map_size_empty; lia|intros id exp E; by rewrite lookup_empty in E]|].
  unfold cache_run. rewrite foldl_app. by apply cache_step_inv.
Qed.

(** The negative cache is small and truthful.  Whatever is put and asked, in whatever order
    its map is ranged over: it never holds more than its bound, and it says that an article is
    missing only when the verdict was put less than the time to live ago. *)
Theorem negative_cache_truthful order ttl max n ops now id : newNegativeCache ttl max = Some n -> ranges order ->
  Z.of_nat (size (n_entries (cache_run order n ops))) <= n_max n /\
  ((Has now id (cache_run order n ops)).2 = true -> id <> [] /\ exists t, OpPut t id ∈ ops /\ now < t + ttl).
Proof.
  intros Hn Hr. destruct (cache_run_inv order ttl max n ops Hn Hr) as ([E1 E2 Hs Ht] & _). split; [done|].
  assert (Ettl : n_ttl n = ttl) by (unfold newNegativeCache in Hn; destruct (ttl <=? 0); [done|]; by injection Hn as <-).
  unfold Has. destruct (bool_decide_reflect (id = [])) as [|Hid]; [done|]. destruct (n_entries _ !! id) as [exp|] eqn:E; [|done].
  destruct (Z.ltb_spec now exp) as [Hlt|]; [|done]. intros _. destruct (Ht id exp E) as (_ & t & Hin & ->). split; [done|]. exists t. by rewrite <- Ettl.
Qed.

Definition keys_in_order (m : gmap bytes Z) : list bytes := (map_to_list m).*1.
Lemma keys_in_order_ranges : ranges keys_in_order.
Proof.
  intros m. split; [apply NoDup_fst_map_to_list|]. intros k. unfold keys_in_order. rewrite list_elem_of_fmap. split.
  - intros ([k' v] & -> & H%elem_of_map_to_list). by exists v.
  - intros [v H]. exists (k, v). split; [done|by apply elem_of_map_to_list].
Qed.

Lemma negative_cache_truthful_witness :
  let n := MkNegCache 10 3 ∅ 0 0 in
  let ops := [OpPut 0 (str "a"); OpPut 1 (str "b"); OpHas 2 (str "a"); OpPut 3 (str "c"); OpPut 4 (str "d")] in
  newNegativeCache 10 3 = Some n /\ ranges keys_in_order /\ (Has 5 (str "d") (cache_run keys_in_order n ops)).2 = true /\
  (Z.of_nat (size (n_entries (cache_run keys_in_order n ops))) <= n_max n /\
   ((Has 5 (str "d") (cache_run keys_in_order n ops)).2 = true -> str "d" <> [] /\ exists t, OpPut t (str "d") ∈ ops /\ 5 < t + 10)).
Proof.
  cbv zeta. split; [reflexivity|]. split; [exact keys_in_order_ranges|]. split; [vm_compute; reflexivity|].
  apply (negative_cache_truthful keys_in_order 10 3); [reflexivity|exact keys_in_order_ranges].
Defined.

(** ** The schedule of backoff *)

Inductive health_op : Type := OpSuccess (now : Z) (name : bytes) (postedAt : Z) | OpFailure (now : Z) (name : bytes) | OpLag (age min : Z) | OpRoute (provider policy : bytes).

Definition health_step (h : ProviderHealth) (op : health_op) : ProviderHealth :=
  match op with
  | OpSuccess now name postedAt => RecordSuccessAt now name postedAt h
  | OpFailure now name => RecordFailure now name h
  | OpLag age min => SetLagModel age min h
  | OpRoute provider policy => (firstSuccessfulRoute provider policy h).1
  end.
Definition health_run (h : ProviderHealth) (ops : list health_op) : ProviderHealth := foldl health_step h ops.

(** The instants of a provider's failures since its last success. *)
Definition note (name : bytes) (failures : list Z) (op : health_op) : list Z :=
  match op with
  | OpSuccess _ n _ => if bool_decide (n = name) then [] else failures
  | OpFailure now n => if bool_decide (n = name) then failures ++ [now] else failures
  | _ => failures
  end.
Definition failures_of (name : bytes) (ops : list health_op) : list Z := foldl (note name) [] ops.

(** Doubling from two seconds at the second failure, two minutes at most. *)
Definition schedule (n : nat) : Z := Z.min (2 ^ Z.of_nat (n - 2) * (2 * second)) (120 * second).

(** A shift that overflows is zero or beyond the cap. *)
Lemma backoff_window_exact n : (2 <= n)%nat -> backoff_window (Z.of_nat n) = schedule n.
Proof.
  intros Hn. unfold backoff_window, schedule, providerHealthBackoffThreshold, providerHealthBackoffBase, providerHealthBackoffCap.
  replace (Z.of_nat n - 2) with (Z.of_nat (n - 2)) by lia. set (s := Z.of_nat (n - 2)). assert (Hs : 0 <= s) by lia. clearbody s. clear Hn n.
  rewrite Z.shiftl_mul_pow2 by done. unfold second.
  destruct (Z.le_gt_cases s 32) as [Hle|Hgt].
  - assert (Hp : 0 < 2 ^ s <= 2 ^ 32) by (split; [lia|apply Z.pow_le_mono_r; lia]).
    rewrite i64_small by (unfold is_i64, minInt64, maxInt64; lia).
    destruct (Z.leb_spec (2 * 1000000000 * 2 ^ s) 0); [lia|]. cbn [orb]. destruct (Z.ltb_spec (120 * 1000000000) (2 * 1000000000 * 2 ^ s)); lia.
  - assert (Hp : 2 ^ 33 <= 2 ^ s) by (apply Z.pow_le_mono_r; lia). rewrite (Z.min_r (2 ^ s * _)) by lia.
    replace (2 ^ s) with (2 ^ 33 * 2 ^ (s - 33)) by (rewrite <- Z.pow_add_r by lia; f_equal; lia).
    set (q := 2 ^ (s - 33)). unfold i64. set (v := (_ + 2 ^ 63) mod 2 ^ 64 - 2 ^ 63).
    assert (Hv : exists z, v = 2 ^ 43 * z).
    { exists (1953125 * q - 2 ^ 21 * ((2 * 1000000000 * (2 ^ 33 * q) + 2 ^ 63) / 2 ^ 64)). subst v. rewrite Z.mod_eq by lia. lia. }
    destruct Hv as [z Hz]. destruct (Z.leb_spec v 0); [done|]. cbn [orb]. destruct (Z.ltb_spec (120 * 1000000000) v); [done|]. lia.
Qed.

Lemma RecordSuccessAt_state now name postedAt h : h_state (RecordSuccessAt now name postedAt h) = if bool_decide (name = []) then h_state h else delete name (h_state h).
Proof. unfold RecordSuccessAt, RecordSuccess. destruct (bool_decide (name = [])); cbn [orb]; [done|]. destruct (_ || _); [done|]. by destruct (_ <? _). Qed.

Lemma health_run_state stripe retention name ops : name <> [] -> Z.of_nat (length (failures_of name ops)) <= maxInt64 ->
  match h_state (health_run (NewProviderHealthWithRouting stripe retention) ops) !! name with
  | None => failures_of name ops = []
  | Some st => consecutiveFailures st = Z.of_nat (length (failures_of name ops)) /\ failures_of name ops <> [] /\
      backoffUntil st = (if (length (failures_of name ops) <? 2)%nat then None else (fun t => t + schedule (length (failures_of name ops))) <$> last (failures_of name ops))
  end.
Proof.
  intros Hname. unfold failures_of, health_run. induction ops as [|op ops IH] using rev_ind; [done|]. rewrite !foldl_app. cbn [foldl].
  set (h := foldl health_step _ ops) in *. set (fs := foldl (note name) [] ops) in *. intros Hlen.
  destruct op as [now n postedAt|now n|age min|provider policy]; cbn [note health_step] in *.
  - rewrite RecordSuccessAt_state. destruct (bool_decide_reflect (n = name)) as [->|Hne].
    + rewrite bool_decide_false by done. by rewrite lookup_delete_eq.
    + destruct (bool_decide (n = [])); [by apply IH|]. rewrite lookup_delete_ne by done. by apply IH.
  - unfold RecordFailure. destruct (bool_decide_reflect (n = name)) as [->|Hne].
    + rewrite bool_decide_false by done. cbn [set_state h_state]. rewrite lookup_insert_eq. cbn [consecutiveFailures backoffUntil].
      rewrite length_app in *. cbn [length] in *. specialize (IH ltac:(lia)). rewrite last_snoc. unfold providerHealthBackoffThreshold.
      assert (E : i64 (consecutiveFailures (default (MkHealthState 0 None) (h_state h !! name)) + 1) = Z.of_nat (length fs + 1) /\
        (length fs = 0%nat -> backoffUntil (default (MkHealthState 0 None) (h_state h !! name)) = None)).
      { destruct (h_state h !! name) as [st|]; cbn -[Z.of_nat].
        - destruct IH as (-> & Hne & _). split; [rewrite i64_small by (unfold is_i64, minInt64; unfold maxInt64 in *; lia); lia|]. intros ?%nil_length_inv. done.
        - rewrite IH. split; [done|done]. }
      destruct E as [-> E]. split_and!; [done|by destruct fs|]. destruct (Z.ltb_spec (Z.of_nat (length fs + 1)) 2), (Nat.ltb_spec (length fs + 1) 2); try lia.
      * apply E. lia.
      * cbn. by rewrite backoff_window_exact by lia.
    + destruct (bool_decide (n = [])); [by apply IH|]. cbn [set_state h_state]. rewrite lookup_insert_ne by done. by apply IH.
  - unfold SetLagModel. destruct (age <=? 0); by apply IH.
  - unfold firstSuccessfulRoute. destruct (_ || _); [by apply IH|]. destruct (bool_decide _); by apply IH.
Qed.

(** C36. Whatever happens to the other providers, a provider is avoided exactly when it failed at
    least twice in a row and its window since the last failure has not passed: two seconds at
    the second failure, doubled at every further one, two minutes at most, for any number of
    failures, those included whose shift overflows. *)
Theorem backoff_scheduled stripe retention ops name now : name <> [] -> Z.of_nat (length (failures_of name ops)) <= maxInt64 ->
  (0 < Backoff now name (health_run (NewProviderHealthWithRouting stripe retention) ops) <->
   exists t, last (failures_of name ops) = Some t /\ (2 <= length (failures_of name ops))%nat /\ now < t + schedule (length (failures_of name ops))).
Proof.
  intros Hn Hl. pose proof (health_run_state stripe retention name ops Hn Hl) as H. unfold Backoff. rewrite bool_decide_false by done.
  destruct (h_state _ !! name) as [[n until]|]; cbn [consecutiveFailures backoffUntil] in H.
  - destruct H as (_ & Hne & ->). destruct (Nat.ltb_spec (length (failures_of name ops)) 2).
    + split; [lia|]. intros (t & _ & H2 & _). lia.
    + destruct (last (failures_of name ops)) as [t|] eqn:El; [|by apply last_None in El]. cbn [fmap option_fmap option_map]. unfold time_sub, minInt64, maxInt64.
      split.
      * destruct (Z.leb_spec (Z.max (- 2 ^ 63) (Z.min (2 ^ 63 - 1) (t + schedule (length (failures_of name ops)) - now))) 0); [lia|]. intros _. exists t. split_and!; [done..|lia].
      * intros (t' & [= <-] & _ & Hlt). destruct (Z.leb_spec (Z.max (- 2 ^ 63) (Z.min (2 ^ 63 - 1) (t + schedule (length (failures_of name ops)) - now))) 0); lia.
  - rewrite H. split; [lia|]. by intros (t & ? & _).
Qed.

Lemma backoff_scheduled_witness :
  let ops := [OpFailure 0 (str "p"); OpFailure 5 (str "q"); OpFailure second (str "p"); OpFailure (2 * second) (str "p")] in
  let h := health_run (NewProviderHealthWithRouting false []) ops in
  Backoff (5 * second) (str "p") h = second /\
  (0 < Backoff (5 * second) (str "p") h <->
   exists t, last (failures_of (str "p") ops) = Some t /\ (2 <= length (failures_of (str "p") ops))%nat /\ 5 * second < t + schedule (length (failures_of (str "p") ops))).
Proof. cbv zeta. split; [vm_compute; reflexivity|]. apply backoff_scheduled; [done|vm_compute; done]. Defined.

(** ** The order that results *)

#[export] Instance deeper_weak : StrictWeak deeper.
Proof.
  assert (E : forall a b, deeper a b = true <-> a <> 0 /\ a <> b /\ (b = 0 \/ b < a)).
  { intros a b. unfold deeper. destruct (Z.eqb_spec a b), (Z.eqb_spec a 0), (Z.eqb_spec b 0), (Z.ltb_spec b a); split; intros; try done; try lia. }
  split.
  - intros a b H. apply E in H. destruct (deeper b a) eqn:E2; [|done]. apply E in E2. lia.
  - intros a b c H. apply E in H. rewrite !E. lia.
Qed.

(** The order of averages, by rank; NaN counts as unknown. *)
Definition lag_rank (x : option spec_float) : option (Z * Z * Z) := x ≫= rank.
Definition rank_before (l r : option (Z * Z * Z)) : bool :=
  match l, r with
  | Some (a1, a2, a3), Some (b1, b2, b3) => (a1 <? b1) || (a1 =? b1) && ((a2 <? b2) || (a2 =? b2) && (a3 <? b3))
  | Some _, None => true
  | _, _ => false
  end.

#[export] Instance rank_before_weak : StrictWeak rank_before.
Proof.
  assert (E : forall a1 a2 a3 b1 b2 b3, rank_before (Some (a1, a2, a3)) (Some (b1, b2, b3)) = true <-> rank_lt (a1, a2, a3) (b1, b2, b3)).
  { intros. cbn. rewrite orb_true_iff, andb_true_iff, orb_true_iff, andb_true_iff, !Z.ltb_lt, !Z.eqb_eq. done. }
  split.
  - intros [[[a1 a2] a3]|] [[[b1 b2] b3]|] H; try done. apply E in H. destruct (rank_before (Some (b1, b2, b3)) _) eqn:E2; [|done]. apply E in E2. cbn in *. lia.
  - intros [[[a1 a2] a3]|] [[[b1 b2] b3]|] [[[c1 c2] c3]|] H; try done; try (by left); try (by right). rewrite !E in *. cbn in *. lia.
Qed.

Lemma sooner_rank l r : (l <> Some S754_nan) -> (r <> Some S754_nan) -> sooner l r = rank_before (lag_rank l) (lag_rank r).
Proof.
  intros Hl Hr. assert (Hk : forall x, Some x <> Some S754_nan -> exists k, rank x = Some k) by (intros [[]|[]| |[]]; cbn; eauto; done).
  destruct l as [l|], r as [r|]; cbn; try done.
  - destruct (Hk l Hl) as [[[a1 a2] a3] El], (Hk r Hr) as [[[b1 b2] b3] Er]. rewrite El, Er. apply eq_true_iff_eq. rewrite SFltb_rank, El, Er. cbn.
    rewrite orb_true_iff, andb_true_iff, orb_true_iff, andb_true_iff, !Z.ltb_lt, !Z.eqb_eq. split; [|intros H; by do 2 eexists]. by intros (a & b & [= <-] & [= <-] & H).
  - destruct (Hk l Hl) as [[[a1 a2] a3] El]. by rewrite El.
Qed.

Lemma sort_by_ext {A} (f g : A -> A -> bool) l : (forall a b, a ∈ l -> b ∈ l -> f a b = g a b) -> sort_by f l = sort_by g l.
Proof.
  induction l as [|x l IH]; intros H; [done|]. change (insert_by f x (sort_by f l) = insert_by g x (sort_by g l)). rewrite (IH (fun a b Ha Hb => H a b ltac:(by right) ltac:(by right))).
  assert (Hs : forall k, (forall a, a ∈ k -> a ∈ l) -> insert_by f x k = insert_by g x k).
  { induction k as [|y k IHk]; intros Hk; [done|]. cbn. rewrite (H y x) by (first [right; apply Hk; left|left]). destruct (g y x); [|done]. f_equal. apply IHk. intros a Ha. apply Hk. by right. }
  apply Hs. intros a. by rewrite (sort_by_perm g l).
Qed.

Lemma order_members {C} (name : C -> bytes) now candidates postedAt h c : Some c ∈ (orderCandidates name now candidates postedAt h).2.1 <-> Some c ∈ candidates.
Proof.
  unfold orderCandidates. destruct (_ <? _)%nat; [done|]. destruct (bool_decide _); [done|].
  set (known := omap (fun c => c) candidates). set (healthy := filter (fun c => ~ 0 < Backoff now (name c) h) known). set (away := filter (fun c => 0 < Backoff now (name c) h) known).
  assert (Hg : forall hs, hs ≡ₚ healthy -> Some c ∈ map Some (hs ++ away) <-> Some c ∈ candidates).
  { intros hs Hp. rewrite Hp. split.
    - intros (d & [= <-] & Hd)%list_elem_of_fmap. assert (Hk : c ∈ known) by (apply elem_of_app in Hd as [[_ Hd]%list_elem_of_filter|[_ Hd]%list_elem_of_filter]; done).
      apply list_elem_of_omap in Hk as (x & Hx & E). by rewrite <- E.
    - intros Hc. apply list_elem_of_fmap. exists c. split; [done|]. assert (Hk : c ∈ known) by (apply list_elem_of_omap; by exists (Some c)).
      apply elem_of_app. subst healthy away. rewrite !list_elem_of_filter. destruct (Z.lt_decidable 0 (Backoff now (name c) h)); [by right|by left]. }
  destruct (_ && existsb _ healthy); [apply Hg, sort_by_perm|]. destruct (_ && _ && _ && _ && _); [apply Hg, sort_by_perm|].
  destruct (h_stripe h && _); [|by apply Hg]. apply Hg. unfold rotate. rewrite Permutation_app_comm. by rewrite take_drop.
Qed.


