(* ===== verification/NntpFetch.v ===== *)
(** Fetching an article from the providers that may have it: internal/nntp/provider.go, the
    attempts on one pool and the walk over the pools.

    The pools (NntpPool), the context, the clock, the consumer of an article and the reporter
    are calls of the world.  The negative caches and the health of the providers are those of
    NntpHealth, shared with every other goroutine: at every call of the world the others may
    have changed them.  The log of events is what the theorems speak of. *)

From Stdlib Require Import ZArith Lia SpecFloat.
From stdpp Require Import base list numbers strings sets gmap.
From S2P Require Import Prelude Doubles Outcome Ladder NntpHealth.
From S2P Require AccountGov.

Local Open Scope Z_scope.
Local Open Scope harbor_scope.

(** A pool, as the walk sees it.  Pools of one provider share a cache; [wired] when it has the
    shared health, [reports] when it has a reporter. *)
Record NPool := MkNPool { np_id : nat; providerName : bytes; np_cache : option nat; np_wired : bool; np_reports : bool }.

Record FinalRungEvent := MkFinalRung { fr_ItemID : bytes; fr_Provider : bytes; fr_Operation : bytes; fr_SegmentNumber : Z; fr_OutcomeClass : Class; fr_KnownMissing : bool }.

Record Shared := MkShared { caches : gmap nat negativeCache; health : ProviderHealth }.

Definition ErrArticleMissing : string := "nntp: provider does not have this article".

Class NntpWorld (W : Type) := {
  w_ctx : W -> W * option goerror;
  w_now : W -> W * Z;
  w_acquire : nat -> W -> W * result goerror nat;
  w_body : nat -> bytes -> bool -> W -> W * result goerror (bytes * Z);
  w_stat : nat -> bytes -> W -> W * option goerror;
  w_release : nat -> nat -> option goerror -> W -> W * unit;
  w_consume : bytes -> Z -> W -> W * option goerror;
  w_pause : Z -> W -> W * option goerror;
  w_report : FinalRungEvent -> W -> W * unit;
  w_others : W -> Shared -> Shared;
  w_range : W -> gmap bytes Z -> list bytes;
  (* the errors of a context are plain, no class is attached to them; an error of Acquire has
     some class; neither is the answer that an article is missing *)
  w_ctx_plain w e : (w_ctx w).2 = Some e -> Classify (Some e) = ClassUnknown /\ errors_Is e ErrArticleMissing = false;
  w_acquire_fails p w e : (w_acquire p w).2 = Err e -> Classify (Some e) <> ClassNone /\ errors_Is e ErrArticleMissing = false;
  w_pause_plain d w e : (w_pause d w).2 = Some e -> Classify (Some e) = ClassUnknown
}.

(** What happens: the context was seen to have ended, a provider was passed over, or a call. *)
Inductive event : Type :=
| ECtx (e : goerror)
| EMissing (p : nat) (id : bytes)
| EAvoided (p : nat)
| EAcquire (p : nat) (r : result goerror nat)
| EBody (p c : nat) (id : bytes) (crc : bool) (r : result goerror (bytes * Z))
| EStat (p c : nat) (id : bytes) (r : option goerror)
| EConsume (data : bytes) (total : Z) (r : option goerror)
| ERelease (p c : nat) (e : option goerror)
| EReport (e : FinalRungEvent).

Definition ladder_exhausted : goerror := Error (TPlain (str "ladder: all rungs exhausted")) [].
Definition ladder_account : goerror := Error (TPlain (str "ladder: account-level outcome, stopping walk")) [].
(** [fmt.Errorf("%w: %w", ...)], and one with the operation in its text. *)
Definition joined (causes : list goerror) : goerror := Error (TPlain []) causes.
Definition errorf (op : bytes) (causes : list goerror) : goerror := Error (TPlain (str "nntp: " ++ op ++ str ": ")) causes.

Definition nntpArticleFetchMaxAttempts : Z := 3.
Definition nntpArticleRetryBaseDelay : Z := 10 * 1000000.

Section Fetch.
Context {W : Type} `{!NntpWorld W}.

Record FState := MkF { world : W; shared : Shared; log : list event }.

(** A call of the world, and what the others did meanwhile. *)
Definition call {A} (f : W -> W * A) (ev : A -> list event) : FState -> FState * A :=
  fun s => let (w, a) := f (world s) in (MkF w (w_others w (shared s)) (log s ++ ev a), a).
Definition silent {A} (_ : A) : list event := [].
Definition tell (l : list event) : FState -> FState * unit := fun s => (MkF (world s) (shared s) (log s ++ l), tt).

Definition ctx_err : FState -> FState * option goerror := call w_ctx (fun r => match r with Some e => [ECtx e] | None => [] end).

(** Under the mutex of a cache; none when it is disabled. *)
Definition on_cache {A} (c : NPool) (f : negativeCache -> negativeCache * A) (none : A) : FState -> FState * A :=
  fun s =>
    match np_cache c with
    | None => (s, none)
    | Some k =>
        match caches (shared s) !! k with
        | None => (s, none)
        | Some n => let (n', a) := f n in (MkF (world s) (MkShared (<[k := n']> (caches (shared s))) (health (shared s))) (log s), a)
        end
    end.
(** Under the mutex of the health. *)
Definition on_health {A} (f : ProviderHealth -> ProviderHealth * A) : FState -> FState * A :=
  fun s => let (h, a) := f (health (shared s)) in (MkF (world s) (MkShared (caches (shared s)) h) (log s), a).

Definition knownMissing (c : NPool) (messageID : bytes) : FState -> FState * bool :=
  let! now := call w_now silent in
  let! known := on_cache c (Has now messageID) false in
  let! _ := tell (if known : bool then [EMissing (np_id c) messageID] else []) in call_ret known.

Definition recordMissing (c : NPool) (messageID : bytes) : FState -> FState * unit :=
  let! now := call w_now silent in
  fun s => on_cache c (fun n => (Put now (w_range (world s)) messageID n, tt)) tt s.

Definition avoided (c : NPool) : FState -> FState * bool :=
  let! now := call w_now silent in on_health (fun h => (h, 0 <? Backoff now (providerName c) h)).

Definition acquire_ (c : NPool) : FState -> FState * result goerror nat := call (w_acquire (np_id c)) (fun r => [EAcquire (np_id c) r]).
Definition release_ (c : NPool) (k : nat) (e : option goerror) : FState -> FState * unit := call (w_release (np_id c) k e) (fun _ => [ERelease (np_id c) k e]).

(** ** One pool *)

(** What an attempt comes to: an end, or an error after which it may be repeated. *)
Inductive attempt_end : Type := Ended (r : option goerror) | Repeat (e : goerror).

Definition body_attempt (c : NPool) (op messageID : bytes) (verifyCRC : bool) (k : nat) : FState -> FState * attempt_end :=
  let! body := call (w_body k messageID verifyCRC) (fun r => [EBody (np_id c) k messageID verifyCRC r]) in
  match body with
  | Ok (data, total) =>
      let! cancelled := ctx_err in
      match cancelled with
      | Some err => let! _ := release_ c k None in call_ret (Ended (Some err))
      | None =>
          let! consumeErr := call (w_consume data total) (fun r => [EConsume data total r]) in
          let! _ := release_ c k consumeErr in
          call_ret (Ended (Transient consumeErr))
      end
  | Err bodyErr =>
      if errors_Is bodyErr ErrArticleMissing then
        let! _ := recordMissing c messageID in
        let! _ := release_ c k None in
        call_ret (Ended (Permanent (Some (errorf op [bodyErr]))))
      else
        let! _ := release_ c k (Some bodyErr) in call_ret (Repeat bodyErr)
  end.

(** The loop from [attempt], [n] turns at most. *)
Fixpoint fetchArticleFromPool (n : nat) (attempt : Z) (lastErr : option goerror) (c : NPool) (op messageID : bytes) (verifyCRC : bool) : FState -> FState * option goerror :=
  let worn lastErr := call_ret (Transient (Some (errorf op (match lastErr with Some e => [e] | None => [] end)))) in
  match n with
  | O => worn lastErr
  | S n =>
      let! cancelled := ctx_err in
      match cancelled with
      | Some err => call_ret (Some err)
      | None =>
          let! acquired := acquire_ c in
          let! step := match acquired with Err err => call_ret (Repeat err) | Ok k => body_attempt c op messageID verifyCRC k end in
          match step with
          | Ended r => call_ret r
          | Repeat err =>
              if attempt =? nntpArticleFetchMaxAttempts then worn (Some err)
              else
                let! stopped := call (w_pause (attempt * nntpArticleRetryBaseDelay)) (fun r => match r with Some e => [ECtx e] | None => [] end) in
                match stopped with
                | Some err => call_ret (Some err)
                | None => fetchArticleFromPool n (attempt + 1) (Some err) c op messageID verifyCRC
                end
          end
      end
  end.
Definition fetchArticleFromPoolTotal (op messageID : bytes) (verifyCRC : bool) (c : NPool) : FState -> FState * option goerror :=
  fetchArticleFromPool (Z.to_nat nntpArticleFetchMaxAttempts) 1 None c op messageID verifyCRC.

(** ** The walk over the pools *)

Definition rungNameNNTPPrimary : bytes := str "nntp_primary".
Definition rung_name (pool c : NPool) : bytes := if bool_decide (np_id c = np_id pool) then rungNameNNTPPrimary else str "nntp_failover_" ++ providerName c.

(** The rungs of the candidates that are not passed over, and whether all were known missing. *)
Fixpoint build_rungs (pool : NPool) (messageID : bytes) (candidates : list (option NPool)) (rungs : list (bytes * NPool)) (allKnownMissing : bool)
    : FState -> FState * (list (bytes * NPool) * bool) :=
  match candidates with
  | [] => call_ret (rungs, allKnownMissing)
  | None :: candidates => build_rungs pool messageID candidates rungs allKnownMissing
  | Some c :: candidates =>
      let! known := knownMissing c messageID in
      if known : bool then build_rungs pool messageID candidates rungs allKnownMissing
      else
        let! away := if np_wired c && negb (bool_decide (np_id c = np_id pool)) then avoided c else call_ret false in
        if away : bool then let! _ := tell [EAvoided (np_id c)] in build_rungs pool messageID candidates rungs false
        else build_rungs pool messageID candidates (rungs ++ [(rung_name pool c, c)]) false
  end.

(** The priority of a call site. *)
Definition rungPriorityForOp (op : bytes) : Z :=
  if bool_decide (op ∈ [str "probe"; str "build"; str "rar manifest"]) then AccountGov.PriorityGrab
  else if bool_decide (op = str "prewarm") then AccountGov.PriorityPrewarm
  else if bool_decide (op = str "recovery") then AccountGov.PriorityRecovery
  else if bool_decide (op = str "audit") then AccountGov.PriorityAudit
  else AccountGov.PriorityPlayback.

(** [ladder.New(nil, rungs...).Run(ctx, "")]: no governor is asked. *)
Definition walk_rungs (op : bytes) (priority : Z) (attempt : NPool -> FState -> FState * option goerror) (rungs : list (bytes * NPool)) : FState -> FState * (Result * option run_error) :=
  fun s =>
    let '(s', _, res, err) := Run ctx_err (fun s _ _ _ => (s, None)) (fun s _ => s) false
      (map (fun nc : bytes * NPool => MkRung nc.1 op priority 1 (attempt nc.2)) rungs) [] s in
    (s', (res, err)).

(** The candidate of a name is the last one. *)
Definition by_name (pool : NPool) (candidates : list (option NPool)) (name : bytes) : option NPool :=
  foldl (fun found c => match c with Some c => if bool_decide (rung_name pool c = name) then Some c else found | None => found end) None candidates.

Fixpoint record_rungs (pool : NPool) (candidates : list (option NPool)) (rungs : list RungResult) (postedAt : Z) : FState -> FState * unit :=
  match rungs with
  | [] => call_ret tt
  | rr :: rungs =>
      let! _ :=
        match by_name pool candidates (rr_Name rr) with
        | None => call_ret tt
        | Some c =>
            let! now := call w_now silent in
            match rr_Class rr with
            | ClassNone | ClassPermanentHere => on_health (fun h => (RecordSuccessAt now (providerName c) postedAt h, tt))
            | ClassAccountLevel => call_ret tt
            | _ => on_health (fun h => (RecordFailure now (providerName c) h, tt))
            end
        end in
      record_rungs pool candidates rungs postedAt
  end.
Definition recordFailoverHealth (pool : NPool) (candidates : list (option NPool)) (res : Result) (postedAt : Z) : FState -> FState * unit :=
  if np_wired pool then record_rungs pool candidates (Rungs res) postedAt else call_ret tt.

Definition lastRungErr (res : Result) : option goerror := last (Rungs res) ≫= rr_Err.

Definition reportFinalRung (pool : NPool) (itemID op : bytes) (segNumber : Z) (finalErr : goerror) (knownMissing : bool) : FState -> FState * unit :=
  if np_reports pool && negb (bool_decide (itemID = [])) then
    let ev := MkFinalRung itemID (providerName pool) op segNumber (Classify (Some finalErr)) knownMissing in
    call (w_report ev) (fun _ => [EReport ev])
  else call_ret tt.

(** [fetchArticleWithRetryAtCRCTotal]; [itemID] is the one of the context. *)
Definition fetchArticleWithRetry (pool : option NPool) (failover : list (option NPool)) (itemID op : bytes) (segNumber : Z) (messageID : bytes) (postedAt : Z) (verifyCRC logged : bool)
    : FState -> FState * option goerror :=
  match pool with
  | None => call_ret (Some (errorf op []))
  | Some pool =>
      let candidates := Some pool :: failover in
      let! (candidates, policy) :=
        if np_wired pool then let! now := call w_now silent in on_health (orderCandidates providerName now candidates postedAt)
        else call_ret (candidates, Preference) in
      let! (rungs, allKnownMissing) := build_rungs pool messageID candidates [] true in
      if bool_decide (rungs = []) && allKnownMissing then
        let finalErr := Error (TClassifier ClassPermanentHere) [errorf op [Error (TPlain (str ErrArticleMissing)) []; ladder_exhausted]] in
        let! _ := reportFinalRung pool itemID op segNumber finalErr true in call_ret (Some finalErr)
      else
        let rungs := if bool_decide (rungs = []) then [(rungNameNNTPPrimary, pool)] else rungs in
        let! (res, err) := walk_rungs (str "nntp_article") (rungPriorityForOp op) (fetchArticleFromPoolTotal op messageID verifyCRC) rungs in
        let! _ := recordFailoverHealth pool candidates res postedAt in
        match err with
        | None =>
            if logged && np_wired pool then
              let provider := match list_find (fun nc : bytes * NPool => nc.1 = StoppedAt res) rungs with Some (_, nc) => providerName nc.2 | None => [] end in
              let! _ := on_health (firstSuccessfulRoute provider (policy_text policy)) in call_ret None
            else call_ret None
        | Some ErrExhausted =>
            let finalErr := match lastRungErr res with Some last => joined [last; ladder_exhausted] | None => Error (TClassifier ClassTransientHere) [errorf op [ladder_exhausted]] end in
            let! _ := reportFinalRung pool itemID op segNumber finalErr false in call_ret (Some finalErr)
        | Some ErrAccountLevel =>
            call_ret (Some (match lastRungErr res with Some last => joined [last; ladder_account] | None => ladder_account end))
        | Some (Aborted err) => call_ret (Some err)
        end
  end.

End Fetch.

(** ** What a log tells *)

Section Logs.
Context (messageID : bytes) (verifyCRC : bool).

(** An attempt that failed and may be repeated. *)
Inductive retry (p : nat) : list event -> goerror -> Prop :=
| retry_acquire e : retry p [EAcquire p (Err e)] e
| retry_body k e : errors_Is e ErrArticleMissing = false -> retry p [EAcquire p (Ok k); EBody p k messageID verifyCRC (Err e); ERelease p k (Some e)] e.

Inductive retries (p : nat) : nat -> list event -> option goerror -> Prop :=
| retries_none : retries p 0 [] None
| retries_more n l last l' e : retries p n l last -> retry p l' e -> retries p (S n) (l ++ l') (Some e).

(** The log of the attempts on one pool, with their result: at most three attempts; the last one
    delivers, is answered that the article is missing, is refused by the consumer, or is one
    more failure; or the context ends. *)
Inductive tried (p : nat) : list event -> option goerror -> Prop :=
| tried_delivered n l last k data total : retries p n l last -> (n < 3)%nat ->
    tried p (l ++ [EAcquire p (Ok k); EBody p k messageID verifyCRC (Ok (data, total)); EConsume data total None; ERelease p k None]) None
| tried_missing n l last k e err : retries p n l last -> (n < 3)%nat -> errors_Is e ErrArticleMissing = true -> Classify (Some err) = ClassPermanentHere ->
    tried p (l ++ [EAcquire p (Ok k); EBody p k messageID verifyCRC (Err e); ERelease p k None]) (Some err)
| tried_refused n l last k data total e : retries p n l last -> (n < 3)%nat ->
    tried p (l ++ [EAcquire p (Ok k); EBody p k messageID verifyCRC (Ok (data, total)); EConsume data total (Some e); ERelease p k (Some e)]) (Transient (Some e))
| tried_worn l last err : retries p 3 l last -> Classify (Some err) = ClassTransientHere -> tried p l (Some err).

(** The attempts end with the context: before an attempt, in a pause, or between the body and its consumer. *)
Inductive interrupted (p : nat) : list event -> Prop :=
| interrupted_between n l last e : retries p n l last -> (n < 3)%nat -> interrupted p (l ++ [ECtx e])
| interrupted_after n l last k data total e : retries p n l last -> (n < 3)%nat ->
    interrupted p (l ++ [EAcquire p (Ok k); EBody p k messageID verifyCRC (Ok (data, total)); ECtx e; ERelease p k None]).
End Logs.

(** A log written out: its connections and its deliveries. *)
Ltac settle_log := split; [cbn; rewrite ?bool_decide_true by done; done|done].

Section Appends.
Context {W : Type} `{!NntpWorld W}.
Local Notation FState := (FState (W := W)).

(** What a call appends to the log, with its answer. *)
Definition appends {A} (f : FState -> FState * A) (R : list event -> A -> Prop) : Prop := forall s, exists l, log (f s).1 = log s ++ l /\ R l (f s).2.

Lemma appends_ret {A} (a : A) (R : list event -> A -> Prop) : R [] a -> appends (call_ret a) R.
Proof. intros H s. exists []. by rewrite app_nil_r. Qed.

Lemma appends_bind {A B} (f : FState -> FState * A) (g : A -> FState -> FState * B) R R' :
  appends f R' -> (forall l a, R' l a -> appends (g a) (fun l' b => R (l ++ l') b)) -> appends (call_bind f g) R.
Proof.
  intros Hf Hg s. unfold call_bind. destruct (Hf s) as (l & El & Hl). destruct (f s) as [s1 a]. cbn in *. destruct (Hg l a Hl s1) as (l' & El' & Hl').
  exists (l ++ l'). by rewrite El', El, app_assoc.
Qed.

Lemma appends_impl {A} (f : FState -> FState * A) (R R' : list event -> A -> Prop) : appends f R -> (forall l a, R l a -> R' l a) -> appends f R'.
Proof. intros Hf Hi s. destruct (Hf s) as (l & ? & ?). eauto. Qed.

Lemma appends_call_answer {A} (f : W -> W * A) (ev : A -> list event) (R : list event -> A -> Prop) : (forall w, R (ev (f w).2) (f w).2) -> appends (call f ev) R.
Proof. intros H s. unfold call. specialize (H (world s)). destruct (f (world s)) as [w a]. by exists (ev a). Qed.
Lemma appends_call {A} (f : W -> W * A) (ev : A -> list event) (R : list event -> A -> Prop) : (forall a, R (ev a) a) -> appends (call f ev) R.
Proof. intros H. by apply appends_call_answer. Qed.

Lemma appends_silent {A B} (f : FState -> FState * A) (g : A -> FState -> FState * B) R : appends f (fun l _ => l = []) -> (forall a, appends (g a) R) -> appends (call_bind f g) R.
Proof. intros Hf Hg. eapply appends_bind; [exact Hf|]. intros l a ->. apply Hg. Qed.

Lemma now_silent : appends (call w_now silent) (fun l _ => l = []).
Proof. by apply appends_call. Qed.
Lemma on_cache_silent {A} c (f : negativeCache -> negativeCache * A) none : appends (on_cache c f none) (fun l _ => l = []).
Proof. intros s. exists []. rewrite app_nil_r. unfold on_cache. destruct (np_cache c) as [k|]; [|done]. destruct (_ !! k) as [n|]; [|done]. by destruct (f n). Qed.
Lemma on_health_silent {A} (f : ProviderHealth -> ProviderHealth * A) : appends (on_health f) (fun l _ => l = []).
Proof. intros s. exists []. rewrite app_nil_r. unfold on_health. by destruct (f _). Qed.
Lemma recordMissing_silent c id : appends (recordMissing c id) (fun l _ => l = []).
Proof. apply appends_silent; [apply now_silent|]. intros now s. apply on_cache_silent. Qed.
Lemma tell_appends l : appends (tell l) (fun l' _ => l' = l).
Proof. intros s. by exists l. Qed.

Lemma appends_release c k e : appends (release_ c k e) (fun l _ => l = [ERelease (np_id c) k e]).
Proof. by apply appends_call. Qed.
(** What the context or a pause answered. *)
Definition ended (l : list event) (r : option goerror) : Prop := match r with Some e => l = [ECtx e] /\ Classify (Some e) = ClassUnknown | None => l = [] end.
Lemma appends_ctx : appends ctx_err ended.
Proof. apply appends_call_answer. intros w. pose proof (w_ctx_plain w) as H. unfold ended. destruct (w_ctx w).2; [split; [done|by apply H]|done]. Qed.
Lemma appends_pause d : appends (call (w_pause d) (fun r => match r with Some e => [ECtx e] | None => [] end)) ended.
Proof. apply appends_call_answer. intros w. pose proof (w_pause_plain d w) as H. unfold ended. destruct (w_pause d w).2; [split; [done|by apply H]|done]. Qed.

Definition attempt_result (id : bytes) (crc : bool) (p : nat) (l : list event) (r : option goerror) : Prop := tried id crc p l r \/ (interrupted id crc p l /\ exists e, r = Some e /\ Classify (Some e) = ClassUnknown).

Lemma classify_wrapped c e : Classify (Some (Error (TClassifier c) [e])) = c.
Proof. done. Qed.

Lemma body_attempt_appends c op id crc k n l0 last : retries id crc (np_id c) n l0 last -> (n < 3)%nat ->
  appends (body_attempt c op id crc k) (fun l a =>
    match a with
    | Ended r => attempt_result id crc (np_id c) (l0 ++ [EAcquire (np_id c) (Ok k)] ++ l) r
    | Repeat e => retry id crc (np_id c) ([EAcquire (np_id c) (Ok k)] ++ l) e
    end).
Proof.
  intros Hr Hn. eapply appends_bind; [apply (appends_call _ _ (fun l a => l = [EBody (np_id c) k id crc a])); done|]. intros l [[data total]|err] ->.
  - eapply appends_bind; [apply appends_ctx|]. intros l [err|] Hc; cbn in Hc; [destruct Hc as [-> Hc]|subst l].
    + eapply appends_bind; [apply appends_release|]. intros l [] ->. apply appends_ret. right. split; [by eapply interrupted_after|by exists err].
    + eapply appends_bind; [apply (appends_call _ _ (fun l a => l = [EConsume data total a])); done|]. intros l e ->.
      eapply appends_bind; [apply appends_release|]. intros l [] ->. apply appends_ret. left. destruct e as [e|]; [by eapply tried_refused|by eapply tried_delivered].
  - destruct (errors_Is err ErrArticleMissing) eqn:E.
    + eapply appends_bind; [apply recordMissing_silent|]. intros l [] ->. eapply appends_bind; [apply appends_release|]. intros l [] ->. apply appends_ret. left. by eapply tried_missing.
    + eapply appends_bind; [apply appends_release|]. intros l [] ->. apply appends_ret. by apply retry_body.
Qed.

Lemma fetch_pool_appends n : forall attempt lastErr c op id crc l0, (n <= 2)%nat -> attempt = 3 - Z.of_nat n -> retries id crc (np_id c) (2 - n) l0 lastErr ->
  appends (fetchArticleFromPool (S n) attempt lastErr c op id crc) (fun l r => attempt_result id crc (np_id c) (l0 ++ l) r).
Proof.
  induction n as [|n IH]; intros attempt lastErr c op id crc l0 Hn Ha Hr; cbn [fetchArticleFromPool];
    (eapply appends_bind; [apply appends_ctx|]; intros l [err|] Hc; cbn in Hc; [destruct Hc as [-> Hc]|subst l];
     [apply appends_ret; right; split; [eapply (interrupted_between _ _ _ _ _ _ err Hr); lia|by exists err]|]);
    (eapply appends_bind; [apply (appends_call _ _ (fun l a => l = [EAcquire (np_id c) a])); done|]; intros l acquired ->);
    (eapply (appends_bind _ _ _ (fun l a =>
       match a with
       | Ended r => attempt_result id crc (np_id c) (l0 ++ [EAcquire (np_id c) acquired] ++ l) r
       | Repeat e => retry id crc (np_id c) ([EAcquire (np_id c) acquired] ++ l) e
       end));
     [destruct acquired as [k|e]; [eapply body_attempt_appends; [exact Hr|lia]|apply appends_ret; constructor]|]);
    intros l [r|e] Hl.
  - apply appends_ret. by rewrite app_nil_r.
  - assert (attempt =? nntpArticleFetchMaxAttempts = true) as -> by (unfold nntpArticleFetchMaxAttempts; lia). apply appends_ret. left. rewrite app_nil_r.
    eapply tried_worn; [|done]. by eapply (retries_more _ _ _ 2).
  - apply appends_ret. by rewrite app_nil_r.
  - assert (attempt =? nntpArticleFetchMaxAttempts = false) as -> by (unfold nntpArticleFetchMaxAttempts; lia).
    assert (Hr' : retries id crc (np_id c) (2 - n) (l0 ++ [EAcquire (np_id c) acquired] ++ l) (Some e)).
    { replace (2 - n)%nat with (S (2 - S n)) by lia. by eapply retries_more. }
    eapply appends_bind; [apply appends_pause|]. intros l' [err|] Hc; cbn in Hc; [destruct Hc as [-> Hc]|subst l'].
    + apply appends_ret. right. rewrite app_nil_r. split; [|by exists err].
      pose proof (interrupted_between _ _ _ _ _ _ err Hr' ltac:(lia)) as Hi. by rewrite <- !app_assoc in Hi.
    + eapply appends_impl; [apply (IH (attempt + 1) (Some e) c op id crc _ ltac:(lia) ltac:(lia) Hr')|]. intros l' r. cbn. by rewrite <- !app_assoc.
Qed.

Lemma fetch_total_appends op id crc c : appends (fetchArticleFromPoolTotal op id crc c) (attempt_result id crc (np_id c)).
Proof. apply (fetch_pool_appends 2 1 None c op id crc []); [lia|lia|constructor]. Qed.

(** ** The walk *)

Section Walk.
Context (R : nat -> list event -> option goerror -> Prop) (HR : forall p l e, R p l (Some e) -> Classify (Some e) <> ClassNone).

(** Every rung is tried in order, until one succeeds, the context ends, or the account is at fault. *)
Inductive walked : list (bytes * NPool) -> list event -> list RungResult -> option run_error -> Prop :=
| walked_exhausted : walked [] [] [] (Some ErrExhausted)
| walked_ended n c rungs e rr : walked ((n, c) :: rungs) [ECtx e] [rr] (Some (Aborted e))
| walked_success n c rungs l rr : R (np_id c) l None -> rr_Name rr = n -> walked ((n, c) :: rungs) l [rr] None
| walked_stopped n c rungs l e rr : R (np_id c) l (Some e) -> Classify (Some e) = ClassAccountLevel -> walked ((n, c) :: rungs) l [rr] (Some ErrAccountLevel)
| walked_failed n c rungs l e rr l' rrs err : R (np_id c) l (Some e) -> Classify (Some e) <> ClassAccountLevel -> rr_Name rr = n -> rr_Class rr = Classify (Some e) -> rr_Err rr = Some e ->
    walked rungs l' rrs err -> walked ((n, c) :: rungs) (l ++ l') (rr :: rrs) err.

Lemma run_loop_walked op priority (attempt : NPool -> FState -> FState * option goerror) rungs : (forall c, appends (attempt c) (R (np_id c))) ->
  forall res s tr s' tr' res' err,
  run_loop ctx_err (fun s _ _ _ => (s, None)) (fun s _ => s) false (map (fun nc : bytes * NPool => MkRung nc.1 op priority 1 (attempt nc.2)) rungs) [] res s tr = (s', tr', res', err) ->
  exists l rrs, log s' = log s ++ l /\ Rungs res' = Rungs res ++ rrs /\ walked rungs l rrs err.
Proof.
  intros Hat. induction rungs as [|[n c] rungs IH]; intros res s tr s' tr' res' err E; cbn [map run_loop] in E.
  - injection E as <- <- <- <-. exists [], []. rewrite !app_nil_r. split_and!; [done..|constructor].
  - unfold runRung, maxAttempts in E. cbn [r_MaxAttempts r_Name r_Op r_Priority fst snd] in E. change (Z.to_nat (if 1 <? 1 then 1 else 1)) with 1%nat in E. cbn [attempt_loop] in E. unfold attempt_turn in E. cbn [r_Attempt r_Name fst snd] in E.
    destruct (appends_ctx s) as (l0 & El0 & H0). destruct (ctx_err s) as [s1 [e|]]; cbn [fst snd ended] in *.
    { destruct H0 as [-> _]. cbn in E. injection E as <- <- <- <-. exists [ECtx e]. eexists. split_and!; [done|done|constructor]. }
    subst l0. rewrite app_nil_r in El0. destruct (Hat c s1) as (l & El & Hl). destruct (attempt c s1) as [s2 [e|]]; cbn [fst snd] in *.
    + pose proof (HR _ _ _ Hl) as Hn. assert (Hlt : bool_decide (Classify (Some e) = ClassTransientHere) && (1 <? (if 1 <? 1 then 1 else 1)) = false) by (by rewrite andb_false_r).
      rewrite Hlt in E. rewrite (bool_decide_false _ Hn) in E. destruct (bool_decide_reflect (Classify (Some e) = ClassAccountLevel)) as [Ha|Ha].
      { injection E as <- <- <- <-. exists l. eexists. split_and!; [by rewrite El, El0|done|by econstructor]. }
      apply IH in E as (l' & rrs & E1 & E2 & Hw). cbn [Rungs] in E2.
      exists (l ++ l'). eexists (_ :: rrs). split_and!; [by rewrite E1, El, El0, app_assoc|rewrite E2; by rewrite <- app_assoc|by econstructor].
    + cbn in E. injection E as <- <- <- <-. exists l. eexists. split_and!; [by rewrite El, El0|done|by constructor].
Qed.

Lemma walk_rungs_appends op priority attempt rungs : (forall c, appends (attempt c) (R (np_id c))) -> appends (walk_rungs op priority attempt rungs) (fun l a => walked rungs l (Rungs a.1) a.2).
Proof.
  intros Hat s. unfold walk_rungs, Run. destruct (run_loop _ _ _ _ _ _ _ _ _) as [[[s' tr] res] err] eqn:E. cbn [fst snd].
  destruct (run_loop_walked op priority attempt rungs Hat _ _ _ _ _ _ _ E) as (l & rrs & E1 & E2 & Hw). cbn in E2. exists l. by rewrite E2.
Qed.

(** At the end of a walk that was exhausted, every rung failed. *)
Lemma walked_all rungs l rrs : walked rungs l rrs (Some ErrExhausted) -> forall n c, (n, c) ∈ rungs -> exists l1 l2 l3 e, l = l1 ++ l2 ++ l3 /\ R (np_id c) l2 (Some e).
Proof.
  remember (Some ErrExhausted) as err eqn:E. induction 1 as [|n c rungs e rr|n c rungs l rr H1 H2|n c rungs l e rr H1 H2|n c rungs l e rr l' rrs err H1 Ha H2 H3 H4 Hw IH]; try done; intros m d Hin.
  - by apply not_elem_of_nil in Hin.
  - apply list.elem_of_cons in Hin as [[= -> ->]|Hin]; [by exists [], l, l', e|]. destruct (IH E m d Hin) as (l1 & l2 & l3 & e' & -> & H). exists (l ++ l1), l2, l3, e'. split; [by rewrite <- !app_assoc|done].
Qed.

Lemma walked_ctx rungs l rrs e : walked rungs l rrs (Some (Aborted e)) -> ECtx e ∈ l.
Proof.
  remember (Some (Aborted e)) as err eqn:E. induction 1; try done.
  - injection E as ->. apply list_elem_of_here.
  - apply elem_of_app. right. by apply IHwalked.
Qed.

Lemma walked_account rungs l rrs : (forall p l e, R p l (Some e) -> Classify (Some e) <> ClassAccountLevel) -> ~ walked rungs l rrs (Some ErrAccountLevel).
Proof. intros Hno H. remember (Some ErrAccountLevel) as err eqn:E. induction H; try done. by eapply Hno. Qed.

(** A walk that does not succeed ends with the failure of a rung, or with the context. *)
Lemma walked_failure rungs l rrs err : walked rungs l rrs (Some err) -> rungs <> [] ->
  match err with
  | ErrExhausted => exists l1 l2 n c e, l = l1 ++ l2 /\ (n, c) ∈ rungs /\ R (np_id c) l2 (Some e) /\ last rrs ≫= rr_Err = Some e
  | ErrAccountLevel => exists l1 l2 c e, l = l1 ++ l2 /\ R (np_id c) l2 (Some e) /\ Classify (Some e) = ClassAccountLevel
  | Aborted e => exists l1, l = l1 ++ [ECtx e]
  end.
Proof.
  remember (Some err) as err' eqn:E. induction 1 as [|n c rungs e rr|n c rungs l rr H1 H2|n c rungs l e rr H1 H2|n c rungs l e rr l' rrs err' H1 Ha H2 H3 H4 Hw IH]; intros Hne; try done.
  - injection E as <-. by exists [].
  - injection E as <-. by exists [], l, c, e.
  - destruct (decide (rungs = [])) as [->|Hne'].
    + assert (l' = [] /\ rrs = [] /\ err' = Some ErrExhausted) as (-> & -> & ->) by by inversion Hw. injection E as <-. exists [], l, n, c, e. rewrite app_nil_r. split_and!; [done|apply list_elem_of_here|done|done].
    + specialize (IH E Hne'). destruct err.
      * destruct IH as (l1 & l2 & d & e' & -> & H). exists (l ++ l1), l2, d, e'. by rewrite app_assoc.
      * destruct IH as (l1 & l2 & m & d & e' & -> & Hin & H & Hl). exists (l ++ l1), l2, m, d, e'. split_and!; [by rewrite app_assoc|by right|done|].
        destruct rrs as [|rr' rrs]; [done|exact Hl].
      * destruct IH as (l1 & ->). exists (l ++ l1). by rewrite app_assoc.
Qed.

(** What holds of the logs of the rungs, and of the context, holds of the log of the walk. *)
Lemma walked_each (P : list event -> Prop) rungs l rrs err : P [] -> (forall e, P [ECtx e]) -> (forall l1 l2, P l1 -> P l2 -> P (l1 ++ l2)) -> (forall p l r, R p l r -> P l) ->
  walked rungs l rrs err -> P l.
Proof. intros H0 Hc Ha HP. induction 1; eauto. Qed.

(** A walk that succeeds ends with the success. *)
Lemma walked_last rungs l rrs : walked rungs l rrs None -> exists l1 l2 n c, l = l1 ++ l2 /\ (n, c) ∈ rungs /\ R (np_id c) l2 None.
Proof.
  remember None as err eqn:E. induction 1 as [|n c rungs e rr|n c rungs l rr H1 H2|n c rungs l e rr H1 H2|n c rungs l e rr l' rrs err H1 Ha H2 H3 H4 Hw IH]; try done.
  - exists [], l, n, c. split_and!; [done|apply list_elem_of_here|done].
  - destruct (IH E) as (l1 & l2 & m & d & -> & Hin & H). exists (l ++ l1), l2, m, d. split_and!; [by rewrite app_assoc|by right|done].
Qed.

End Walk.

(** ** The rungs *)

(** A candidate is passed over for a reason. *)
Definition passed_over (id : bytes) (pool : NPool) (l : list event) (c : NPool) : Prop := EMissing (np_id c) id ∈ l \/ (EAvoided (np_id c) ∈ l /\ np_id c <> np_id pool).
Definition passing (e : event) : Prop := match e with EMissing _ _ | EAvoided _ => True | _ => False end.

Lemma known_appends c id : appends (knownMissing c id) (fun l known => l = if known then [EMissing (np_id c) id] else []).
Proof.
  apply appends_silent; [apply now_silent|]. intros now. apply appends_silent; [apply on_cache_silent|]. intros known.
  eapply appends_bind; [apply tell_appends|]. intros l [] ->. apply appends_ret. by rewrite app_nil_r.
Qed.

Lemma avoided_appends c : appends (avoided c) (fun l _ => l = []).
Proof. apply appends_silent; [apply now_silent|]. intros now. apply on_health_silent. Qed.

Definition rungs_result (id : bytes) (pool : NPool) (cands : list (option NPool)) (rungs : list (bytes * NPool)) (all : bool) (l : list event) (a : list (bytes * NPool) * bool) : Prop :=
  Forall passing l /\ exists new, a.1 = rungs ++ new /\ (forall nc, nc ∈ new -> Some nc.2 ∈ cands) /\
  (forall c, Some c ∈ cands -> passed_over id pool l c \/ exists n, (n, c) ∈ new) /\
  (a.2 = true -> all = true /\ new = [] /\ forall c, Some c ∈ cands -> EMissing (np_id c) id ∈ l).

Lemma passed_over_app id pool l l' c : passed_over id pool l' c -> passed_over id pool (l ++ l') c.
Proof. intros [H|[H Hn]]; [left|right; split; [|done]]; apply elem_of_app; by right. Qed.

Lemma build_rungs_appends pool id cands : forall rungs all, appends (build_rungs pool id cands rungs all) (rungs_result id pool cands rungs all).
Proof.
  induction cands as [|[c|] cands IH]; intros rungs all; cbn [build_rungs].
  - apply appends_ret. split; [constructor|]. exists []. rewrite app_nil_r. split_and!; [done|by intros nc ?%not_elem_of_nil|by intros c ?%not_elem_of_nil|].
    intros Ha. split_and!; [done..|by intros c ?%not_elem_of_nil].
  - eapply appends_bind; [apply known_appends|]. intros l [|] ->.
    + eapply appends_impl; [apply IH|]. intros l a (Hp & new & E & H1 & H2 & H3). split; [by constructor|]. exists new. split_and!; [done| | |].
      * intros nc Hnc. right. by apply H1.
      * intros d [[= ->]|Hd]%list.elem_of_cons; [left; left; apply list_elem_of_here|]. destruct (H2 d Hd) as [H|H]; [left; by apply (passed_over_app _ _ [_])|by right].
      * intros Ha. destruct (H3 Ha) as (-> & -> & H). split_and!; [done..|]. intros d [[= ->]|Hd]%list.elem_of_cons; [apply list_elem_of_here|]. right. by apply H.
    + eapply appends_bind; [instantiate (1 := fun l (b : bool) => l = [] /\ (b = true -> np_id c <> np_id pool))|].
      { destruct (np_wired c && _) eqn:E; [|by apply appends_ret]. eapply appends_impl; [apply avoided_appends|]. cbn. intros l b ->. split; [done|]. intros _. by bool_hyps. }
      intros l [|] [-> Hb].
      * eapply appends_bind; [apply tell_appends|]. intros l [] ->. eapply appends_impl; [apply IH|]. intros l a (Hp & new & E & H1 & H2 & H3). split; [by constructor|]. exists new. split_and!; [done| | |].
        -- intros nc Hnc. right. by apply H1.
        -- intros d [[= ->]|Hd]%list.elem_of_cons; [left; right; split; [apply list_elem_of_here|by apply Hb]|]. destruct (H2 d Hd) as [H|H]; [left; by apply (passed_over_app _ _ [_])|by right].
        -- intros Ha. by destruct (H3 Ha).
      * eapply appends_impl; [apply IH|]. intros l a (Hp & new & E & H1 & H2 & H3). split; [done|]. exists ((rung_name pool c, c) :: new). split_and!.
        -- rewrite E. by rewrite <- app_assoc.
        -- intros nc [->|Hnc]%list.elem_of_cons; [left|right; by apply H1].
        -- intros d [[= ->]|Hd]%list.elem_of_cons; [right; exists (rung_name pool c); apply list_elem_of_here|]. destruct (H2 d Hd) as [H|[n H]]; [by left|right; exists n; by right].
        -- intros Ha. by destruct (H3 Ha).
  - eapply appends_impl; [apply IH|]. intros l a (Hp & new & E & H1 & H2 & H3). split; [done|]. exists new. split_and!; [done| | |].
    + intros nc Hnc. right. by apply H1.
    + intros d [H|Hd]%list.elem_of_cons; [done|by apply H2].
    + intros Ha. destruct (H3 Ha) as (-> & -> & H). split_and!; [done..|]. intros d [?|Hd]%list.elem_of_cons; [done|by apply H].
Qed.

Lemma record_rungs_silent pool cands rungs postedAt : appends (record_rungs pool cands rungs postedAt) (fun l _ => l = []).
Proof.
  induction rungs as [|rr rungs IH]; cbn [record_rungs]; [by apply appends_ret|]. apply appends_silent; [|by intros []].
  destruct (by_name _ _ _) as [c|]; [|by apply appends_ret]. apply appends_silent; [apply now_silent|]. intros now.
  destruct (rr_Class rr); try apply on_health_silent; by apply appends_ret.
Qed.
Lemma recordFailoverHealth_silent pool cands res postedAt : appends (recordFailoverHealth pool cands res postedAt) (fun l _ => l = []).
Proof. unfold recordFailoverHealth. destruct (np_wired pool); [apply record_rungs_silent|by apply appends_ret]. Qed.

Definition reporting (e : event) : Prop := match e with EReport _ => True | _ => False end.
Lemma report_appends pool item op seg err known : appends (reportFinalRung pool item op seg err known) (fun l _ => Forall reporting l).
Proof. unfold reportFinalRung. destruct (_ && _); [|by apply appends_ret]. apply appends_call. intros []. by repeat constructor. Qed.

(** ** Connections and deliveries *)

(** The connection that is held: it is taken when none is, used and given back while it is held. *)
Definition lease_step (held : option (nat * nat)) (e : event) : option (option (nat * nat)) :=
  match e with
  | EAcquire p r => match held with Some _ => None | None => Some (match r with Ok k => Some (p, k) | Err _ => None end) end
  | EBody p k _ _ _ | EStat p k _ _ => if bool_decide (held = Some (p, k)) then Some held else None
  | EConsume _ _ _ => match held with Some _ => Some held | None => None end
  | ERelease p k _ => if bool_decide (held = Some (p, k)) then Some None else None
  | _ => Some held
  end.
Fixpoint leases (held : option (nat * nat)) (l : list event) : option (option (nat * nat)) :=
  match l with [] => Some held | e :: l => match lease_step held e with Some held => leases held l | None => None end end.

(** An article that was delivered to the consumer, and taken by it. *)
Definition accepted (e : event) : bool := match e with EConsume _ _ None => true | _ => false end.

Definition settled (n : Z) (l : list event) : Prop := leases None l = Some None /\ count_by accepted l = n.

Lemma leases_app l l' h : leases h (l ++ l') = match leases h l with Some h' => leases h' l' | None => None end.
Proof. revert h. induction l as [|e l IH]; intros h; cbn; [done|]. destruct (lease_step h e); [apply IH|done]. Qed.

Lemma settled_app n l n' l' : settled n l -> settled n' l' -> settled (n + n') (l ++ l').
Proof. intros [L1 C1] [L2 C2]. split; [by rewrite leases_app, L1|]. rewrite count_app. lia. Qed.
Lemma settled_more l n' l' : settled 0 l -> settled n' l' -> settled n' (l ++ l').
Proof. apply settled_app. Qed.

Lemma retries_settled id crc p n l last : retries id crc p n l last -> settled 0 l.
Proof. induction 1 as [|n l last l' e H IH H']; [done|]. apply settled_more; [done|]. destruct H'; settle_log. Qed.

Lemma tried_settled id crc p l r : tried id crc p l r -> settled (match r with None => 1 | Some _ => 0 end) l.
Proof. intros H. destruct H; first [by eapply retries_settled|apply settled_more; [by eapply retries_settled|settle_log]]. Qed.

Lemma interrupted_settled id crc p l : interrupted id crc p l -> settled 0 l /\ exists e, ECtx e ∈ l.
Proof.
  intros H. destruct H; (split; [apply settled_more; [by eapply retries_settled|settle_log]|exists e; apply elem_of_app; right]); [by left|by right; right; left].
Qed.

Lemma result_settled id crc p l r : attempt_result id crc p l r -> settled (match r with None => 1 | Some _ => 0 end) l.
Proof. intros [H|[H (e & -> & _)]]; [by eapply tried_settled|by apply interrupted_settled in H as [H _]]. Qed.

Lemma result_class id crc p l e : attempt_result id crc p l (Some e) -> Classify (Some e) <> ClassNone /\ Classify (Some e) <> ClassAccountLevel.
Proof.
  intros [H|[_ (e' & [= <-] & ->)]]; [|done]. remember (Some e) as r eqn:E. destruct H; simplify_eq; try done.
  - by rewrite H2.
  - by rewrite H0.
Qed.

Lemma walked_settled id crc rungs l rrs err : walked (attempt_result id crc) rungs l rrs err -> settled (match err with None => 1 | Some _ => 0 end) l.
Proof.
  induction 1 as [|n c rungs e rr|n c rungs l rr H1 H2|n c rungs l e rr H1 H2|n c rungs l e rr l' rrs err H1 Ha H2 H3 H4 Hw IH]; [done|settle_log|by apply result_settled in H1|by apply result_settled in H1|].
  apply settled_more; [by apply result_settled in H1|done].
Qed.

Lemma passing_settled l : Forall passing l -> settled 0 l.
Proof. induction 1 as [|e l He _ [IH1 IH2]]; [done|]. destruct e; try done; (split; [exact IH1|rewrite count_cons; exact IH2]). Qed.
Lemma reporting_settled l : Forall reporting l -> settled 0 l.
Proof. induction 1 as [|e l He _ [IH1 IH2]]; [done|]. destruct e; try done; (split; [exact IH1|rewrite count_cons; exact IH2]). Qed.

Definition ctx_event (e : event) : bool := match e with ECtx _ => true | _ => false end.

(** The log of a walk with its result. *)
Definition fetch_log (id : bytes) (crc : bool) (pool : NPool) (cands : list (option NPool)) (l : list event) (r : option goerror) : Prop :=
  settled (match r with None => 1 | Some _ => 0 end) l /\
  match r with
  | None => exists l0 c k data total, l = l0 ++ [EAcquire (np_id c) (Ok k); EBody (np_id c) k id crc (Ok (data, total)); EConsume data total None; ERelease (np_id c) k None] /\ Some c ∈ cands
  | Some _ => (exists e, ECtx e ∈ l) \/
      forall c, Some c ∈ cands -> passed_over id pool l c \/ exists l1 l2 l3 e, l = l1 ++ l2 ++ l3 /\ tried id crc (np_id c) l2 (Some e)
  end.

Lemma tried_none id crc p l : tried id crc p l None -> exists l0 k data total, l = l0 ++ [EAcquire p (Ok k); EBody p k id crc (Ok (data, total)); EConsume data total None; ERelease p k None].
Proof. intros H. remember None as r eqn:E. destruct H; try done. by do 4 eexists. Qed.

Lemma walk_fetched id crc pool cands rungs l l' rrs err tail : Forall passing l -> Forall reporting tail -> (err = None -> tail = []) ->
  (forall c, Some c ∈ cands -> passed_over id pool l c \/ exists n, (n, c) ∈ rungs) -> (forall nc, nc ∈ rungs -> Some nc.2 ∈ cands) ->
  walked (attempt_result id crc) rungs l' rrs err -> fetch_log id crc pool cands (l ++ l' ++ tail) (match err with None => None | Some _ => Some (errorf [] []) end).
Proof.
  intros Hl Ht Htail Hc Hr Hw. split.
  - apply settled_more; [by apply passing_settled|]. pose proof (walked_settled _ _ _ _ _ _ Hw) as H. pose proof (reporting_settled _ Ht) as H'. pose proof (settled_app _ _ _ _ H H') as Hs. by destruct err; rewrite Z.add_0_r in Hs.
  - destruct err as [[| |e]|].
    + by apply (walked_account (attempt_result id crc) _ _ _ (fun p l e H => proj2 (result_class id crc p l e H))) in Hw.
    + destruct (decide (Exists (fun e => ctx_event e = true) l')) as [(e & He & Hx)%list.Exists_exists|Hno].
      { left. destruct e; try done. eexists. rewrite !elem_of_app. right. by left. }
      right. intros c Hin. destruct (Hc c Hin) as [Hp|[n Hn]].
      * left. destruct Hp as [Hp|[Hp Hne]]; [left|right; split; [|done]]; apply elem_of_app; by left.
      * right. destruct (walked_all (attempt_result id crc) _ _ _ Hw n c Hn) as (l1 & l2 & l3 & e & -> & [Ht'|[Hi _]]).
        -- exists (l ++ l1), l2, (l3 ++ tail), e. split; [by rewrite <- !app_assoc|done].
        -- exfalso. apply interrupted_settled in Hi as [_ [x Hx]]. apply Hno, list.Exists_exists. exists (ECtx x). split; [|done]. rewrite !elem_of_app. tauto.
    + left. exists e. rewrite !elem_of_app. right. left. by eapply walked_ctx.
    + rewrite (Htail eq_refl), app_nil_r. destruct (walked_last (attempt_result id crc) _ _ _ Hw) as (l1 & l2 & n & c & -> & Hin & Hr'). destruct Hr' as [Hr'|[_ (e & ? & _)]]; [|done].
      destruct (tried_none _ _ _ _ Hr') as (l0 & k & data & total & ->). exists (l ++ l1 ++ l0), c, k, data, total. split; [by rewrite <- !app_assoc|]. exact (Hr _ Hin).
Qed.

Lemma fetched_any id crc pool cands l e e' : fetch_log id crc pool cands l (Some e) -> fetch_log id crc pool cands l (Some e').
Proof. done. Qed.

Lemma fetched_iff id crc pool cands cands' l r : (forall c, Some c ∈ cands <-> Some c ∈ cands') -> fetch_log id crc pool cands l r -> fetch_log id crc pool cands' l r.
Proof.
  intros Hc [Hs H]. split; [done|]. destruct r as [e|].
  - destruct H as [H|H]; [by left|right]. intros c Hin. by apply H, Hc.
  - destruct H as (l0 & c & k & data & total & E & Hin). exists l0, c, k, data, total. split; [done|by apply Hc].
Qed.

(** The last part of a fetch, on candidates that are ordered. *)
Lemma rungs_of_candidates id pool cands rungs all l : Some pool ∈ cands -> rungs_result id pool cands [] true l (rungs, all) ->
  let rungs' := if bool_decide (rungs = []) then [(rungNameNNTPPrimary, pool)] else rungs in
  Forall passing l /\ (forall c, Some c ∈ cands -> passed_over id pool l c \/ exists n, (n, c) ∈ rungs') /\ (forall nc, nc ∈ rungs' -> Some nc.2 ∈ cands).
Proof.
  intros Hpool (Hp & new & E & H1 & H2 & H3). cbn in E. subst rungs. split; [done|]. destruct (bool_decide_reflect (new = [])) as [->|Hne].
  - split; [|by intros nc ->%list_elem_of_singleton]. intros c Hc. destruct (H2 c Hc) as [H|[n H]]; [by left|by apply not_elem_of_nil in H].
  - done.
Qed.

Lemma fetch_appends pool failover item op seg id posted crc logged :
  appends (fetchArticleWithRetry (Some pool) failover item op seg id posted crc logged) (fetch_log id crc pool (Some pool :: failover)).
Proof.
  unfold fetchArticleWithRetry.
  eapply appends_bind; [instantiate (1 := fun l (a : list (option NPool) * route_policy) => l = [] /\ forall c, Some c ∈ a.1 <-> Some c ∈ Some pool :: failover)|].
  { destruct (np_wired pool); [|by apply appends_ret]. apply appends_silent; [apply now_silent|]. intros now s. exists []. rewrite app_nil_r.
    split; [unfold on_health; by destruct (orderCandidates _ _ _ _ _)|]. split; [done|]. intros c. unfold on_health.
    pose proof (order_members providerName now (Some pool :: failover) posted (NntpFetch.health (shared s)) c) as H. by destruct (orderCandidates _ _ _ _ _). }
  intros l [cands policy] [-> Hm]. cbn [fst] in Hm. eapply appends_impl; [|intros l r Hl; exact (fetched_iff id crc pool cands _ _ r Hm Hl)].
  assert (Hpool : Some pool ∈ cands) by (apply Hm; apply list_elem_of_here). clear Hm.
  eapply appends_bind; [apply build_rungs_appends|]. intros l [rungs all] Hr.
  destruct (bool_decide (rungs = []) && all) eqn:E.
  - eapply appends_bind; [apply report_appends|]. intros tail [] Ht. apply appends_ret. rewrite app_nil_r. destruct Hr as (Hp & new & _ & _ & _ & H3). apply andb_true_iff in E as [_ ->].
    destruct (H3 eq_refl) as (_ & _ & H). split; [exact (settled_more l 0 tail (passing_settled _ Hp) (reporting_settled _ Ht))|]. right. intros c Hc. left; left. cbn [app]. apply elem_of_app. left. by apply H.
  - destruct (rungs_of_candidates id pool cands rungs all l Hpool Hr) as (Hp & Hc & Hin). set (rungs' := if bool_decide (rungs = []) then _ else _) in *.
    eapply appends_bind; [apply (walk_rungs_appends (attempt_result id crc) (fun p l e H => proj1 (result_class id crc p l e H))); intros c; apply fetch_total_appends|]. intros l' [res err] Hw.
    apply appends_silent; [apply recordFailoverHealth_silent|]. intros []. pose proof (fun tail Ht1 Ht2 => walk_fetched id crc pool cands rungs' l l' (Rungs res) err tail Hp Ht1 Ht2 Hc Hin Hw) as Hf.
    destruct err as [[| |e]|]; cbn [fst snd] in *.
    + apply appends_ret. exact (fetched_any _ _ _ _ _ _ _ (Hf [] ltac:(constructor) ltac:(done))).
    + eapply appends_bind; [apply report_appends|]. intros tail [] Ht. apply appends_ret. rewrite app_nil_r. exact (fetched_any _ _ _ _ _ _ _ (Hf tail Ht ltac:(done))).
    + apply appends_ret. exact (fetched_any _ _ _ _ _ _ _ (Hf [] ltac:(constructor) ltac:(done))).
    + assert (Hn : appends (call_ret None) (fun l'' r => fetch_log id crc pool cands (l ++ l' ++ l'') r)) by (apply appends_ret; exact (Hf [] ltac:(constructor) ltac:(done))).
      destruct (logged && _); [|exact Hn]. apply appends_silent; [apply on_health_silent|]. intros _. exact Hn.
Qed.

End Appends.

(** C34. Fetching an article.  Whatever the pools, the context, the clock and the other goroutines
    do, every connection that is acquired is released once, before the next one is acquired, and
    the body and its consumer run while it is held.  The fetch succeeds exactly when the consumer
    took an article; that was the last thing it did, the bytes are what a candidate's connection
    gave for them, and no article was taken before.  When it fails, either the context had ended,
    or every candidate was passed over, as known to miss the article or as a failover in backoff,
    or it was tried in full: it answered that the article is missing, the consumer refused what
    it gave, or three attempts failed. *)
Theorem article_fetched {W} `{!NntpWorld W} pool failover item op seg id posted crc logged (s : FState (W := W)) : log s = [] ->
  let '(s', r) := fetchArticleWithRetry (Some pool) failover item op seg id posted crc logged s in
  leases None (log s') = Some None /\
  count_by accepted (log s') = match r with None => 1 | Some _ => 0 end /\
  match r with
  | None => exists l0 c k data total, log s' = l0 ++ [EAcquire (np_id c) (Ok k); EBody (np_id c) k id crc (Ok (data, total)); EConsume data total None; ERelease (np_id c) k None] /\
      Some c ∈ Some pool :: failover
  | Some _ => (exists e, ECtx e ∈ log s') \/
      forall c, Some c ∈ Some pool :: failover -> passed_over id pool (log s') c \/ exists l1 l2 l3 e, log s' = l1 ++ l2 ++ l3 /\ tried id crc (np_id c) l2 (Some e)
  end.
Proof.
  intros Hs. destruct (fetch_appends pool failover item op seg id posted crc logged s) as (l & El & [Hl Hc] & H). destruct (fetchArticleWithRetry _ _ _ _ _ _ _ _ _ s) as [s' r].
  cbn [fst snd] in *. rewrite Hs in El. cbn in El. rewrite El. done.
Qed.

(** Two providers: the first one misses every article, the other one has it. *)
Definition two_providers : NntpWorld unit.
Proof.
  refine {|
    w_ctx w := (w, None); w_now w := (w, 0); w_acquire p w := (w, Ok p);
    w_body k id crc w := (w, if bool_decide (k = 0%nat) then Err (Error (TPlain (str ErrArticleMissing)) []) else Ok (id, 7));
    w_stat k id w := (w, if bool_decide (k = 0%nat) then Some (Error (TPlain (str ErrArticleMissing)) []) else None);
    w_release p k e w := (w, tt); w_consume data total w := (w, None); w_pause d w := (w, None); w_report e w := (w, tt); w_others w s := s; w_range w m := []
  |}; by intros.
Defined.
Definition first_provider : NPool := MkNPool 0 (str "a") (Some 0%nat) true true.
Definition second_provider : NPool := MkNPool 1 (str "b") (Some 1%nat) true true.
Definition at_rest : FState (W := unit) :=
  MkF tt (MkShared {[ 0%nat := MkNegCache 10 3 ∅ 0 0; 1%nat := MkNegCache 10 3 ∅ 0 0 ]} (NewProviderHealthWithRouting false [])) [].

Lemma article_fetched_witness :
  let '(s', r) := fetchArticleWithRetry (W := unit) (NntpWorld0 := two_providers) (Some first_provider) [Some second_provider; None] [] (str "play") 1 (str "m") 0 true true at_rest in
  (r = None /\ length (log s') = 7%nat) /\
  leases None (log s') = Some None /\
  count_by accepted (log s') = match r with None => 1 | Some _ => 0 end /\
  match r with
  | None => exists l0 c k data total, log s' = l0 ++ [EAcquire (np_id c) (Ok k); EBody (np_id c) k (str "m") true (Ok (data, total)); EConsume data total None; ERelease (np_id c) k None] /\
      Some c ∈ [Some first_provider; Some second_provider; None]
  | Some _ => (exists e, ECtx e ∈ log s') \/
      forall c, Some c ∈ [Some first_provider; Some second_provider; None] ->
        passed_over (str "m") first_provider (log s') c \/ exists l1 l2 l3 e, log s' = l1 ++ l2 ++ l3 /\ tried (str "m") true (np_id c) l2 (Some e)
  end.
Proof.
  pose proof (article_fetched (NntpWorld0 := two_providers) first_provider [Some second_provider; None] [] (str "play") 1 (str "m") 0 true true at_rest eq_refl) as H.
  assert (E : let '(s', r) := fetchArticleWithRetry (W := unit) (NntpWorld0 := two_providers) (Some first_provider) [Some second_provider; None] [] (str "play") 1 (str "m") 0 true true at_rest in
    r = None /\ length (log s') = 7%nat) by (vm_compute; split; reflexivity).
  destruct (fetchArticleWithRetry _ _ _ _ _ _ _ _ _ at_rest) as [s' r]. split; [exact E|exact H].
Defined.
