(* ===== verification/NntpAudit.v ===== *)
(** The health audit: internal/nntp/healthaudit.go and grabhealth.go, which ask the providers of
    NntpFetch whether a sample of an item's articles is still there, and keep the list of the
    regions that are dead. *)

From Stdlib Require Import ZArith Lia SpecFloat.
From stdpp Require Import base list numbers strings sets gmap.
From S2P Require Import Prelude Doubles Outcome Ladder NntpHealth NntpFetch.
From S2P Require Par2Match.

Local Open Scope Z_scope.
Local Open Scope harbor_scope.

Section Audit.
Context {W : Type} `{!NntpWorld W}.
Local Notation FState := (FState (W := W)).

(** [statFromPool]. *)
Definition stat_attempt (messageID : bytes) (c : NPool) : FState -> FState * option goerror :=
  let! cancelled := ctx_err in
  match cancelled with
  | Some err => call_ret (Some err)
  | None =>
      let! acquired := acquire_ c in
      match acquired with
      | Err err => call_ret (Some err)
      | Ok k =>
          let! statErr := call (w_stat k messageID) (fun r => [EStat (np_id c) k messageID r]) in
          match statErr with
          | None => let! _ := release_ c k None in call_ret None
          | Some err =>
              if errors_Is err ErrArticleMissing then
                let! _ := recordMissing c messageID in
                let! _ := release_ c k None in
                call_ret (Permanent (Some (errorf (str "audit stat") [err])))
              else
                let! _ := release_ c k (Some err) in call_ret (Transient (Some err))
          end
      end
  end.

(** [present, conclusive]. *)
Definition statSegmentPresence (pool : option NPool) (failover : list (option NPool)) (messageID : bytes) : FState -> FState * (bool * bool) :=
  match pool with
  | None => call_ret (false, false)
  | Some pool =>
      let candidates := Some pool :: failover in
      let! (rungs, allKnownMissing) := build_rungs pool messageID candidates [] true in
      if bool_decide (rungs = []) && allKnownMissing then call_ret (false, true)
      else
        let rungs := if bool_decide (rungs = []) then [(rungNameNNTPPrimary, pool)] else rungs in
        let! (res, err) := walk_rungs (str "nntp_audit_stat") (rungPriorityForOp (str "audit")) (stat_attempt messageID) rungs in
        let! _ := recordFailoverHealth pool candidates res 0 in
        match err with
        | None => call_ret (true, true)
        | Some ErrExhausted =>
            call_ret (false, match lastRungErr res with Some last => errors_Is last ErrArticleMissing | None => false end)
        | Some _ => call_ret (false, false)
        end
  end.

Record SampledSegment := MkSampled { FileIndex : Z; SegmentNumber : Z; MessageID : bytes }.
Record AuditResult := MkAudit { SegmentsSampled : Z; SegmentsPresent : Z; Completeness : spec_float; Dead : list SampledSegment; Recovered : list SampledSegment }.

Definition add_sample (res : AuditResult) (seg : SampledSegment) (present : bool) : AuditResult :=
  if present then MkAudit (SegmentsSampled res + 1) (SegmentsPresent res + 1) (Completeness res) (Dead res) (Recovered res ++ [seg])
  else MkAudit (SegmentsSampled res + 1) (SegmentsPresent res) (Completeness res) (Dead res ++ [seg]) (Recovered res).

Fixpoint audit_loop (pool : option NPool) (failover : list (option NPool)) (segs : list SampledSegment) (res : AuditResult) : FState -> FState * AuditResult :=
  match segs with
  | [] => call_ret res
  | seg :: segs =>
      let! cancelled := ctx_err in
      match cancelled with
      | Some _ => call_ret res
      | None =>
          let! (present, conclusive) := statSegmentPresence pool failover (MessageID seg) in
          audit_loop pool failover segs (if conclusive : bool then add_sample res seg present else res)
      end
  end.

Definition RunHealthAudit (pool : option NPool) (failover : list (option NPool)) (segs : list SampledSegment) : FState -> FState * AuditResult :=
  let! res := audit_loop pool failover segs (MkAudit 0 0 (float64 0) [] []) in
  call_ret (MkAudit (SegmentsSampled res) (SegmentsPresent res)
    (if SegmentsSampled res =? 0 then float64 1 else fdiv (float64 (SegmentsPresent res)) (float64 (SegmentsSampled res))) (Dead res) (Recovered res)).

End Audit.

Definition CompletenessThresholdMet (completeness threshold : spec_float) : bool := SFleb threshold completeness.

(** ** Samples and dead regions *)

Definition sampled_of (fi : nat) (f : Par2Match.NZBFile) : list SampledSegment :=
  omap (fun seg => if bool_decide (Par2Match.MessageID seg = []) then None else Some (MkSampled (Z.of_nat fi) (Par2Match.Number seg) (Par2Match.MessageID seg)))
    (Par2Match.Segments f).

(** [rng.Shuffle] is a function of the list; none when there is no document or no source of numbers. *)
Definition SelectSampleSegments (files : option (list Par2Match.NZBFile)) (n : Z) (shuffle : option (list SampledSegment -> list SampledSegment)) : list SampledSegment :=
  match files, shuffle with
  | Some files, Some shuffle =>
      if n <=? 0 then []
      else
        let all := concat (imap sampled_of files) in
        if bool_decide (all = []) then [] else take (Z.to_nat (Z.min n (Z.of_nat (length all)))) (shuffle all)
  | _, _ => []
  end.

(** A dead region has the fields of a sample, and the key of one. *)
Definition region_key (s : SampledSegment) : Z * Z := (FileIndex s, SegmentNumber s).

(** [seen] and [merged]: what is new is appended. *)
Fixpoint merge_loop (skip : list (Z * Z)) (l : list SampledSegment) (merged : list SampledSegment) : list SampledSegment :=
  match l with
  | [] => merged
  | d :: l => merge_loop skip l (if bool_decide (region_key d ∈ skip) || bool_decide (region_key d ∈ map region_key merged) then merged else merged ++ [d])
  end.

Definition MergeDeadRegions (existing dead recovered : list SampledSegment) (maxRegions : Z) : list SampledSegment :=
  let merged := merge_loop [] dead (merge_loop (map region_key recovered) existing []) in
  if (0 <? maxRegions) && (maxRegions <? Z.of_nat (length merged)) then drop (length merged - Z.to_nat maxRegions) merged else merged.

(** [parsed] is what ParseNZB made of the document. *)
Definition GrabTimeHealthCheck {W} `{!NntpWorld W} (pool : option NPool) (failover : list (option NPool)) (parsed : result goerror (list Par2Match.NZBFile)) (sampleSize : Z)
    (shuffle : list SampledSegment -> list SampledSegment) : FState (W := W) -> FState (W := W) * (bool * Z * option goerror) :=
  match parsed with
  | Err perr => call_ret (false, 0, Some perr)
  | Ok files =>
      let segs := SelectSampleSegments (Some files) sampleSize (Some shuffle) in
      if bool_decide (segs = []) then call_ret (false, 0, None)
      else
        let! result := RunHealthAudit pool failover segs in
        call_ret ((0 <? SegmentsSampled result) && (SegmentsPresent result =? 0), SegmentsSampled result, None)
  end.

(** ** What a log tells of one article *)

(** One pool is asked: the log, and the error of the rung. *)
Inductive asked (messageID : bytes) (p : nat) : list event -> option goerror -> Prop :=
| asked_present k : asked messageID p [EAcquire p (Ok k); EStat p k messageID None; ERelease p k None] None
| asked_missing k e err : errors_Is e ErrArticleMissing = true -> errors_Is err ErrArticleMissing = true -> Classify (Some err) = ClassPermanentHere ->
    asked messageID p [EAcquire p (Ok k); EStat p k messageID (Some e); ERelease p k None] (Some err)
| asked_failed k e err : errors_Is err ErrArticleMissing = false -> Classify (Some err) = ClassTransientHere ->
    asked messageID p [EAcquire p (Ok k); EStat p k messageID (Some e); ERelease p k (Some e)] (Some err)
| asked_unreachable e : errors_Is e ErrArticleMissing = false -> Classify (Some e) <> ClassNone -> asked messageID p [EAcquire p (Err e)] (Some e)
| asked_ended e : errors_Is e ErrArticleMissing = false -> Classify (Some e) = ClassUnknown -> asked messageID p [ECtx e] (Some e).

(** The last answer was a definite one: the connection was given back in order. *)
Definition definite (l : list event) : bool := match last l with Some (ERelease _ _ None) => true | _ => false end.

(** What the log [l] of one sample must hold for the verdict [present, conclusive]. *)
Definition sample_verdict (pool : NPool) (cands : list (option NPool)) (messageID : bytes) (l : list event) (v : bool * bool) : Prop :=
  match v with
  | (true, conclusive) => conclusive = true /\
      exists l0 c k, l = l0 ++ [EAcquire (np_id c) (Ok k); EStat (np_id c) k messageID None; ERelease (np_id c) k None] /\ Some c ∈ cands
  | (false, true) =>
      (Forall passing l /\ forall c, Some c ∈ cands -> EMissing (np_id c) messageID ∈ l) \/
      ((exists l0 c k e, l = l0 ++ [EAcquire (np_id c) (Ok k); EStat (np_id c) k messageID (Some e); ERelease (np_id c) k None] /\
          Some c ∈ cands /\ errors_Is e ErrArticleMissing = true) /\
       forall c, Some c ∈ cands -> passed_over messageID pool l c \/ exists l1 l2 l3 e, l = l1 ++ l2 ++ l3 /\ asked messageID (np_id c) l2 (Some e))
  | (false, false) => definite l = false /\ ~ Forall passing l
  end.

Section Asked.
Context {W : Type} `{!NntpWorld W}.
Local Notation FState := (FState (W := W)).

Lemma Is_wrapped t e sentinel : t <> TPlain (str sentinel) -> errors_Is (Error t [e]) sentinel = errors_Is e sentinel.
Proof. intros Ht. unfold errors_Is. cbn [errors_As]. rewrite (bool_decide_false _ Ht). by destruct (errors_As _ e) as [[]|]. Qed.

Lemma stat_appends id c : appends (W := W) (stat_attempt id c) (asked id (np_id c)).
Proof.
  eapply appends_bind; [apply (appends_call_answer w_ctx _ (fun l r => match r with Some e => asked id (np_id c) l (Some e) | None => l = [] end));
    intros w; destruct (w_ctx w).2 eqn:E; [|done]; apply w_ctx_plain in E as [? ?]; by apply asked_ended|].
  intros l [e|] Hl; [apply appends_ret; by rewrite app_nil_r|subst l]. cbn [app].
  eapply appends_bind; [apply (appends_call_answer (w_acquire (np_id c)) _ (fun l r => l = [EAcquire (np_id c) r] /\ match r with Err e => asked id (np_id c) l (Some e) | Ok _ => True end));
    intros w; split; [done|]; destruct (w_acquire (np_id c) w).2 eqn:E; [done|]; apply w_acquire_fails in E as [? ?]; by apply asked_unreachable|].
  intros l [k|e] [-> Hl]; [|apply appends_ret; by rewrite app_nil_r].
  eapply appends_bind; [apply (appends_call _ _ (fun l a => l = [EStat (np_id c) k id a])); done|]. intros l [e|] ->.
  - destruct (errors_Is e ErrArticleMissing) eqn:E.
    + eapply appends_bind; [apply recordMissing_silent|]. intros l [] ->. eapply appends_bind; [apply appends_release|]. intros l [] ->. apply appends_ret. refine (asked_missing id _ k e (Error (TClassifier ClassPermanentHere) [errorf (str "audit stat") [e]]) E _ eq_refl). unfold errorf. by rewrite !Is_wrapped.
    + eapply appends_bind; [apply appends_release|]. intros l [] ->. apply appends_ret. refine (asked_failed id _ k e (Error (TClassifier ClassTransientHere) [e]) _ eq_refl). by rewrite Is_wrapped.
  - eapply appends_bind; [apply appends_release|]. intros l [] ->. apply appends_ret. apply asked_present.
Qed.

Lemma asked_class id p l e : asked id p l (Some e) -> Classify (Some e) <> ClassNone.
Proof. intros H. inversion H; subst; try done; congruence. Qed.

Lemma asked_settled id p l r : asked id p l r -> settled 0 l.
Proof. intros H. destruct H; settle_log. Qed.

Lemma asked_definite id p l r : asked id p l r -> definite l = match r with None => true | Some e => errors_Is e ErrArticleMissing end.
Proof. intros H. destruct H; cbn; by auto. Qed.

Lemma asked_tells id p l r : asked id p l r -> Exists (fun e => ~ passing e) l.
Proof. intros H. destruct H; left; exact (fun F => F). Qed.

Lemma definite_app l l' : l' <> [] -> definite (l ++ l') = definite l'.
Proof. intros Hne. unfold definite. rewrite last_app. destruct (last l') eqn:E; [done|]. by apply last_None in E. Qed.

Lemma asked_nonempty id p l r : asked id p l r -> l <> [].
Proof. intros H. by destruct H. Qed.

Lemma tells_app l l' : Exists (fun e => ~ passing e) l' -> ~ Forall passing (l ++ l').
Proof. intros (e & He & Hn)%list.Exists_exists Hf. apply Hn. rewrite list.Forall_forall in Hf. apply Hf. apply elem_of_app. by right. Qed.

(** An end of a log that settles nothing. *)
Lemma verdict_open pool cands id l l' : definite l' = false -> Exists (fun e => ~ passing e) l' -> sample_verdict pool cands id (l ++ l') (false, false).
Proof. intros Hd Ht. split; [rewrite definite_app; [done|]; intros ->; by apply list.Exists_exists in Ht as (e & ?%not_elem_of_nil & _)|by apply tells_app]. Qed.

Lemma exhausted_verdict pool cands rungs id l l' rrs : Forall passing l -> rungs <> [] ->
  (forall c, Some c ∈ cands -> passed_over id pool l c \/ exists n, (n, c) ∈ rungs) -> (forall nc, nc ∈ rungs -> Some nc.2 ∈ cands) ->
  walked (asked id) rungs l' rrs (Some ErrExhausted) ->
  sample_verdict pool cands id (l ++ l') (false, match last rrs ≫= rr_Err with Some e => errors_Is e ErrArticleMissing | None => false end).
Proof.
  intros Hp Hne Hc Hr Hw. destruct (walked_failure _ _ _ _ _ Hw Hne) as (l1 & l2 & n & c & e & El & Hin & Ha & ->).
  destruct (errors_Is e ErrArticleMissing) eqn:E.
  - right. split.
    + inversion Ha; subst; try congruence. exists (l ++ l1), c, k, e0. split_and!; [by rewrite app_assoc|exact (Hr _ Hin)|done].
    + intros d Hd. destruct (Hc d Hd) as [H|[m Hm]].
      * left. destruct H as [H|[H Hn]]; [left|right; split; [|done]]; apply elem_of_app; by left.
      * right. destruct (walked_all _ _ _ _ Hw m d Hm) as (x1 & x2 & x3 & e' & -> & H). exists (l ++ x1), x2, x3, e'. split; [by rewrite <- !app_assoc|done].
  - rewrite El, app_assoc. apply verdict_open; [by rewrite (asked_definite _ _ _ _ Ha)|by eapply asked_tells].
Qed.

Lemma walk_settled id rungs l rrs err : walked (asked id) rungs l rrs err -> settled 0 l.
Proof. apply walked_each; [done|intros e; settle_log|intros l1 l2; apply settled_more|apply asked_settled]. Qed.

Lemma presence_appends pool failover id :
  appends (W := W) (statSegmentPresence (Some pool) failover id) (fun l v => settled 0 l /\ sample_verdict pool (Some pool :: failover) id l v).
Proof.
  unfold statSegmentPresence. set (cands := Some pool :: failover).
  assert (Hpool : Some pool ∈ cands) by apply list_elem_of_here.
  eapply appends_bind; [apply build_rungs_appends|]. intros l [rungs all] Hr. destruct (bool_decide (rungs = []) && all) eqn:E.
  - apply appends_ret. rewrite app_nil_r. destruct Hr as (Hp & new & _ & _ & _ & H3). apply andb_true_iff in E as [_ ->].
    split; [by apply passing_settled|]. left. split; [done|]. by destruct (H3 eq_refl) as (_ & _ & H).
  - destruct (rungs_of_candidates id pool cands rungs all l Hpool Hr) as (Hp & Hc & Hin). set (rungs' := if bool_decide (rungs = []) then _ else _) in *.
    assert (Hne : rungs' <> []) by (unfold rungs'; by destruct (bool_decide_reflect (rungs = []))).
    eapply appends_bind; [apply (walk_rungs_appends (asked id) (asked_class id)); intros c; apply stat_appends|]. intros l' [res err] Hw. cbn [fst snd] in Hw.
    apply appends_silent; [apply recordFailoverHealth_silent|]. intros [].
    assert (Hs : settled 0 (l ++ l')) by exact (settled_more _ _ _ (passing_settled _ Hp) (walk_settled _ _ _ _ _ Hw)).
    destruct err as [err|].
    + pose proof (walked_failure _ _ _ _ _ Hw Hne) as Hf. destruct err as [| |e]; apply appends_ret; rewrite app_nil_r; (split; [exact Hs|]).
      * destruct Hf as (l1 & l2 & c & e & -> & Ha & Hcl). rewrite app_assoc. inversion Ha; subst; try congruence; (apply verdict_open; [done|left; exact (fun F => F)]).
      * by apply (exhausted_verdict _ _ rungs').
      * destruct Hf as (l1 & ->). rewrite app_assoc. apply verdict_open; [done|left; exact (fun F => F)].
    + apply appends_ret. rewrite app_nil_r. split; [exact Hs|]. split; [done|].
      destruct (walked_last _ _ _ _ Hw) as (l1 & l2 & n & c & -> & Hi & Ha). inversion Ha; subst. exists (l ++ l1), c, k. split; [by rewrite app_assoc|exact (Hin _ Hi)].
Qed.

(** What was asked of the samples in turn, and what it came to. *)
Inductive audited (pool : NPool) (cands : list (option NPool)) : list SampledSegment -> list event -> list SampledSegment -> list SampledSegment -> Prop :=
| audited_all : audited pool cands [] [] [] []
| audited_ended segs e : audited pool cands segs [ECtx e] [] []
| audited_dead seg segs l l' dead recovered : sample_verdict pool cands (MessageID seg) l (false, true) -> audited pool cands segs l' dead recovered ->
    audited pool cands (seg :: segs) (l ++ l') (seg :: dead) recovered
| audited_recovered seg segs l l' dead recovered : sample_verdict pool cands (MessageID seg) l (true, true) -> audited pool cands segs l' dead recovered ->
    audited pool cands (seg :: segs) (l ++ l') dead (seg :: recovered)
| audited_open seg segs l l' dead recovered : sample_verdict pool cands (MessageID seg) l (false, false) -> audited pool cands segs l' dead recovered ->
    audited pool cands (seg :: segs) (l ++ l') dead recovered.

Definition counts (res : AuditResult) : Prop :=
  SegmentsPresent res = Z.of_nat (length (Recovered res)) /\ SegmentsSampled res = Z.of_nat (length (Dead res) + length (Recovered res)).

Lemma add_counts res seg present : counts res -> counts (add_sample res seg present).
Proof. intros [H1 H2]. unfold counts, add_sample. destruct present; cbn; rewrite length_app; cbn; lia. Qed.

Lemma audit_loop_appends pool failover segs : forall res, counts res ->
  appends (W := W) (audit_loop (Some pool) failover segs res) (fun l res' => settled 0 l /\ counts res' /\
    exists dead recovered, Dead res' = Dead res ++ dead /\ Recovered res' = Recovered res ++ recovered /\ audited pool (Some pool :: failover) segs l dead recovered).
Proof.
  induction segs as [|seg segs IH]; intros res Hres; cbn [audit_loop].
  - apply appends_ret. split; [done|split; [done|]]. exists [], []. rewrite !app_nil_r. by repeat constructor.
  - eapply appends_bind; [apply appends_ctx|]. intros l [e|] Hc; cbn in Hc; [destruct Hc as [-> _]|subst l].
    { apply appends_ret. split; [settle_log|split; [exact Hres|]]. exists [], []. rewrite !app_nil_r. split_and!; [done..|constructor]. }
    eapply appends_bind; [apply presence_appends|]. intros l [present conclusive] [Hs Hv]. cbn [app].
    eapply appends_impl; [apply IH; destruct conclusive; [by apply add_counts|done]|].
    intros l' res' (Hs' & Hr & dead & recovered & Ed & Er & Ha). split; [exact (settled_more _ _ _ Hs Hs')|split; [exact Hr|]].
    destruct conclusive, present; try (by destruct Hv).
    + exists dead, (seg :: recovered). split_and!; [done|rewrite Er; cbn; by rewrite <- app_assoc|by constructor].
    + exists (seg :: dead), recovered. split_and!; [rewrite Ed; cbn; by rewrite <- app_assoc|done|by constructor].
    + exists dead, recovered. split_and!; [done|done|by constructor].
Qed.
End Asked.

(** ** The dead regions *)

Lemma merge_loop_app skip l merged : exists new, merge_loop skip l merged = merged ++ new /\ new `sublist_of` l.
Proof.
  revert merged. induction l as [|d l IH]; intros merged; cbn [merge_loop]; [by exists []; rewrite app_nil_r|].
  destruct (_ || _).
  - destruct (IH merged) as (new & -> & Hs). exists new. split; [done|by apply sublist_cons].
  - destruct (IH (merged ++ [d])) as (new & -> & Hs). exists (d :: new). split; [by rewrite <- app_assoc|by apply sublist_skip].
Qed.

Lemma merge_loop_NoDup skip l merged : NoDup (map region_key merged) -> NoDup (map region_key (merge_loop skip l merged)).
Proof.
  revert merged. induction l as [|d l IH]; intros merged Hn; cbn [merge_loop]; [done|]. destruct (_ || _) eqn:E; [by apply IH|]. apply IH.
  apply orb_false_iff in E as [_ E]. rewrite map_app. apply NoDup_app. split_and!; [done| |apply NoDup_singleton].
  intros k Hk ->%list_elem_of_singleton. by bool_hyps.
Qed.

Lemma merge_loop_keys skip l merged k : k ∈ map region_key (merge_loop skip l merged) <-> k ∈ map region_key merged \/ (k ∈ map region_key l /\ k ∉ skip).
Proof.
  revert merged. induction l as [|d l IH]; intros merged; cbn [merge_loop map]; [split; [by left|by intros [?|[?%not_elem_of_nil _]]]|].
  rewrite IH, list.elem_of_cons. destruct (bool_decide_reflect (region_key d ∈ skip)) as [Hd|Hd]; cbn [orb].
  - split; [tauto|]. intros [H|[[->|H] Hn]]; [by left|done|by right].
  - destruct (bool_decide_reflect (region_key d ∈ map region_key merged)) as [Hm|Hm].
    + split; [tauto|]. intros [H|[[->|H] Hn]]; [by left|by left|by right].
    + rewrite map_app, elem_of_app. cbn [map]. rewrite list_elem_of_singleton. split; [intros [[H| ->]|H]; tauto|]. intros [H|[[->|H] Hn]]; tauto.
Qed.

Lemma merged_parts existing dead recovered maxRegions : exists dropped kept, MergeDeadRegions existing dead recovered maxRegions = kept /\
  merge_loop [] dead (merge_loop (map region_key recovered) existing []) = dropped ++ kept /\ (0 < maxRegions -> Z.of_nat (length kept) <= maxRegions).
Proof.
  unfold MergeDeadRegions. set (merged := merge_loop _ _ _). destruct ((0 <? maxRegions) && _) eqn:E.
  - eexists (take (length merged - Z.to_nat maxRegions) merged), _. split; [done|]. split; [by rewrite take_drop|]. intros H. rewrite length_drop. lia.
  - exists [], merged. split_and!; [done..|]. intros H. lia.
Qed.


(** The map of the dead regions.  It holds a region once; what it holds, before the oldest
    are dropped, is exactly the regions it held and the audit did not find again, and those that
    are newly dead; it keeps the order, the older first, with the message that was recorded first;
    and past the limit it is the newest of them. *)
Theorem regions_merged existing dead recovered maxRegions :
  let merged := MergeDeadRegions existing dead recovered maxRegions in
  NoDup (map region_key merged) /\ merged `sublist_of` existing ++ dead /\
  (0 < maxRegions -> Z.of_nat (length merged) <= maxRegions) /\
  exists all, (forall k, k ∈ map region_key all <-> (k ∈ map region_key existing /\ k ∉ map region_key recovered) \/ k ∈ map region_key dead) /\
    merged = drop (if 0 <? maxRegions then length all - Z.to_nat maxRegions else 0) all.
Proof.
  cbn zeta. destruct (merged_parts existing dead recovered maxRegions) as (dropped & kept & E & Ep & Hmax). rewrite E.
  pose proof (merge_loop_NoDup [] dead _ (merge_loop_NoDup (map region_key recovered) existing [] (NoDup_nil_2))) as Hn. rewrite Ep, map_app in Hn.
  apply NoDup_app in Hn as (_ & _ & Hn). split; [done|]. split.
  { destruct (merge_loop_app (map region_key recovered) existing []) as (new & E1 & S1). destruct (merge_loop_app [] dead (merge_loop (map region_key recovered) existing [])) as (new' & E2 & S2).
    rewrite E1 in E2. cbn in E2. rewrite E1 in Ep. cbn in Ep. transitivity (dropped ++ kept); [by apply sublist_inserts_l|]. rewrite <- Ep, E2. by apply sublist_app. }
  split; [exact Hmax|]. exists (merge_loop [] dead (merge_loop (map region_key recovered) existing [])). split.
  - intros k. rewrite !merge_loop_keys. cbn. pose proof (not_elem_of_nil k) as H. pose proof (not_elem_of_nil k) as H'. tauto.
  - rewrite <- E. unfold MergeDeadRegions. set (all := merge_loop _ _ _). destruct (0 <? maxRegions) eqn:Em; cbn [andb]; [|done].
    destruct (maxRegions <? _) eqn:El; [done|]. by replace (length all - Z.to_nat maxRegions)%nat with 0%nat by lia.
Qed.

