(* ===== verification/RarHeader.v ===== *)
(** The headers of RAR volumes: internal/archive/rar.go, the parsers of both formats.

    A parser indexes into the prefix it was given.  An index out of range stops the program:
    that is an error with no value, [fault], and so is a loop that runs out of fuel; the errors
    of the code are errors with one.  Positions stay within a prefix of at most
    [maxRARHeaderBytes], so their sums do not wrap; the numbers of the headers are uint64. *)

From Stdlib Require Import ZArith Lia.
From stdpp Require Import base list numbers strings.
From S2P Require Import Prelude Outcome Bencode ContentProof Torrentmeta LaneCandidate Text ByteSource Par2Packets.

Local Open Scope Z_scope.
Local Open Scope harbor_scope.

Definition rar3Sig : bytes := [82; 97; 114; 33; 26; 7; 0].
Definition rar5Sig : bytes := [82; 97; 114; 33; 26; 7; 1; 0].
Definition maxRARHeaderBytes : Z := Z.shiftl 1 20.

Definition ErrCompressedRAR : goerror := errors_New (str "archive: compressed RAR not supported").
Definition ErrCompressedEncryptedRAR : goerror := errors_New (str "archive: compressed and encrypted RAR not supported").

Record RAREncryption := MkEnc { Version : Z; Salt : bytes; IV : bytes; KDFLog2 : Z; PasswordCheck : bytes }.
Record StoredRARMember := MkMember { m_Name : bytes; DataOffset : Z; DataSize : Z; PackedSize : Z; Encryption : option RAREncryption }.

(** ** Reading a prefix *)

Definition fault {A} : result (option goerror) A := Err None.
Definition parse_error {A} (msg : string) (causes : list goerror) : result (option goerror) A := Err (Some (Error (TPlain (str msg)) causes)).

Definition len (data : bytes) : Z := Z.of_nat (length data).
(** [data[i]], [data[i:j]] and [binary.LittleEndian] of it. *)
Definition at_ (data : bytes) (i : Z) : result (option goerror) Z := if i <? 0 then fault else match data !! Z.to_nat i with Some b => Ok b | None => fault end.
Definition slice (data : bytes) (i j : Z) : result (option goerror) bytes := if (0 <=? i) && (i <=? j) && (j <=? len data) then Ok (span data i (j - i)) else fault.
Definition le_at (data : bytes) (i n : Z) : result (option goerror) Z := let? s := slice data i (i + n) in Ok (le s).

(** [path.Clean]: empty elements and [.] go, and [..] takes the element before it. *)
Definition clean_step (rooted : bool) (stack : list bytes) (s : bytes) : list bytes :=
  if bool_decide (s = []) || bool_decide (s = str ".") then stack
  else if bool_decide (s = str "..") then
    match stack with
    | top :: rest => if bool_decide (top = str "..") then s :: stack else rest
    | [] => if rooted then [] else [s]
    end
  else s :: stack.
Definition Clean (p : bytes) : bytes :=
  let rooted := bool_decide (head p = Some 47) in
  let out := (if rooted then [47] else []) ++ join_slash (rev (foldl (clean_step rooted) [] (split_slash p))) in
  if bool_decide (out = []) then str "." else out.

Definition validateStoredRARMember (member : StoredRARMember) : result (option goerror) StoredRARMember :=
  if (DataOffset member <? 0) || (DataSize member <=? 0) || (PackedSize member <=? 0) then parse_error "rar: invalid stored member span" []
  else if bool_decide (m_Name member = []) then Ok member
  else
    let clean := Clean (map (fun c => if c =? 92 then 47 else c) (m_Name member)) in
    if bool_decide (clean = str ".") || bool_decide (clean = str "..") || has_prefix (str "../") clean || has_prefix (str "/") clean
    then parse_error "rar: unsafe member path" []
    else Ok (MkMember clean (DataOffset member) (DataSize member) (PackedSize member) (Encryption member)).

(** ** RAR 3 *)

(** The file header at [offset]. *)
Definition rar3_file (data : bytes) (offset headSize : Z) : result (option goerror) StoredRARMember :=
  if (headSize <? 32) || (len data <? offset + headSize) then parse_error "rar3: truncated file header" []
  else
    let? flags := le_at data (offset + 3) 2 in
    let encrypted := Z.testbit flags 2 in
    let? method := at_ data (offset + 25) in
    if negb (method =? 48) then parse_error "rar3: method" [if encrypted then ErrCompressedEncryptedRAR else ErrCompressedRAR]
    else
      let? packed := le_at data (offset + 7) 4 in
      let? unpacked := le_at data (offset + 11) 4 in
      let? nameLen := le_at data (offset + 26) 2 in
      let? (packed, unpacked, nameStart) :=
        if Z.testbit flags 8 then
          if headSize <? 40 then parse_error "rar3: truncated large-file header" []
          else
            let? hp := le_at data (offset + 32) 4 in
            let? hu := le_at data (offset + 36) 4 in
            Ok (Z.lor packed (u64 (Z.shiftl hp 32)), Z.lor unpacked (u64 (Z.shiftl hu 32)), offset + 40)
        else Ok (packed, unpacked, offset + 32) in
      let nameEnd := nameStart + nameLen in
      if (offset + headSize <? nameStart) || (offset + headSize <? nameEnd) then parse_error "rar3: invalid member name length" []
      else
        let? (encryption, unpacked) :=
          if encrypted then
            let? salt :=
              if Z.testbit flags 10 then
                if offset + headSize <? nameEnd + 8 then parse_error "rar3: truncated encryption salt" [] else slice data nameEnd (nameEnd + 8)
              else Ok [] in
            if packed =? 0 then parse_error "rar3: encrypted data is empty" [] else Ok (Some (MkEnc 3 salt [] 0 []), unpacked)
          else Ok (None, packed) in
        let? name := slice data nameStart nameEnd in
        validateStoredRARMember (MkMember name (offset + headSize) (i64 unpacked) (i64 packed) encryption).

Fixpoint rar3_loop (fuel : nat) (data : bytes) (offset : Z) : result (option goerror) StoredRARMember :=
  match fuel with
  | O => fault
  | S fuel =>
      let none := parse_error "rar3: no file header found" [] in
      if len data <=? offset then none
      else if len data <? offset + 7 then none
      else
        let? headType := at_ data (offset + 2) in
        let? headSize := le_at data (offset + 5) 2 in
        if headSize <? 7 then parse_error "rar3: invalid block header size" []
        else if headType =? 116 then rar3_file data offset headSize
        else if len data - offset <? headSize then none
        else rar3_loop fuel data (offset + headSize)
  end.

Definition parseRAR3StoredMember (data : bytes) : result (option goerror) StoredRARMember :=
  if len data <? 7 then parse_error "rar3: data too short for signature check" []
  else if negb (has_prefix rar3Sig data) then parse_error "rar3: invalid signature" []
  else rar3_loop (S (length data)) data 7.

(** ** RAR 5 *)

(** The value and the bytes read; [n] turns are left. *)
Fixpoint vint_loop (n : nat) (data : bytes) (offset value shift bytesRead : Z) : result (option goerror) (Z * Z) :=
  match n with
  | O => parse_error "rar5: vint too long" []
  | S n =>
      if len data <=? offset then parse_error "rar5: vint read out of bounds" []
      else
        let? b := at_ data offset in
        let value := Z.lor value (u64 (Z.shiftl (Z.land b 127) shift)) in
        if Z.land b 128 =? 0 then Ok (value, bytesRead) else vint_loop n data (offset + 1) value (shift + 7) (bytesRead + 1)
  end.
Definition readVint (data : bytes) (offset : Z) : result (option goerror) (Z * Z) := vint_loop 10 data offset 0 0 1.

(** An error of one call becomes another one, which may wrap it. *)
Definition or_failed {A} (r : result (option goerror) A) (msg : string) (wraps : bool) : result (option goerror) A :=
  match r with Ok a => Ok a | Err None => fault | Err (Some e) => parse_error msg (if wraps then [e] else []) end.

Section Hash.
Context (sha256 : bytes -> bytes).

(** The encryption record from its version on. *)
Definition encryption_record (extra : bytes) (pos recordEnd : Z) : result (option goerror) RAREncryption :=
  let? record := slice extra 0 recordEnd in
  let? (version, n) := or_failed (readVint record pos) "rar5: unsupported encryption version" false in
  if negb (version =? 0) then parse_error "rar5: unsupported encryption version" []
  else
    let pos := pos + n in
    let? (flags, n) := or_failed (readVint record pos) "rar5: unsupported encryption flags" false in
    if negb (Z.ldiff flags 3 =? 0) then parse_error "rar5: unsupported encryption flags" []
    else
      let pos := pos + n in
      if recordEnd <=? pos then parse_error "rar5: truncated encryption KDF" []
      else
        let? kdfLog2 := at_ extra pos in
        let pos := pos + 1 in
        if (24 <? kdfLog2) || (recordEnd - pos <? 32) then parse_error "rar5: invalid encryption parameters" []
        else
          let? salt := slice extra pos (pos + 16) in
          let? iv := slice extra (pos + 16) (pos + 32) in
          let pos := pos + 32 in
          let? (check, pos) :=
            if Z.testbit flags 0 then
              if recordEnd - pos <? 12 then parse_error "rar5: truncated password check" []
              else
                let? check := slice extra pos (pos + 8) in
                let? sum := slice extra (pos + 8) (pos + 12) in
                if negb (bool_decide (sum = take 4 (sha256 check))) then parse_error "rar5: invalid password-check checksum" [] else Ok (check, pos + 12)
            else Ok ([], pos) in
          if negb (pos =? recordEnd) then parse_error "rar5: trailing encryption parameters" [] else Ok (MkEnc 5 salt iv kdfLog2 check).

Fixpoint extra_loop (fuel : nat) (extra : bytes) (pos : Z) (encryption : option RAREncryption) : result (option goerror) (option RAREncryption) :=
  match fuel with
  | O => fault
  | S fuel =>
      if len extra <=? pos then Ok encryption
      else
        let? (recordSize, n) := or_failed (readVint extra pos) "rar5: malformed extra record" false in
        if (recordSize =? 0) || (len extra - pos - n <? recordSize) then parse_error "rar5: malformed extra record" []
        else
          let pos := pos + n in
          let recordEnd := pos + recordSize in
          let? record := slice extra 0 recordEnd in
          let? (recordType, n) := or_failed (readVint record pos) "rar5: malformed extra record type" false in
          let pos := pos + n in
          if negb (recordType =? 1) then extra_loop fuel extra recordEnd encryption
          else
            match encryption with
            | Some _ => parse_error "rar5: duplicate encryption record" []
            | None => let? e := encryption_record extra pos recordEnd in extra_loop fuel extra recordEnd (Some e)
            end
  end.
Definition parseRAR5Encryption (extra : bytes) : result (option goerror) (option RAREncryption) := extra_loop (S (length extra)) extra 0 None.

(** [readHeaderVint], with the position after it. *)
Definition header_vint (data : bytes) (headerEnd pos : Z) : result (option goerror) (Z * Z) :=
  if headerEnd <=? pos then parse_error "rar5: read beyond header" []
  else
    let? (value, n) := or_failed (readVint data pos) "rar5: truncated" false in
    if headerEnd <? pos + n then parse_error "rar5: truncated" [] else Ok (value, pos + n).

(** A field of four bytes that is skipped when its flag is set. *)
Definition skip4 (present : bool) (headerEnd pos : Z) : result (option goerror) Z :=
  if present then if headerEnd <? pos + 4 then parse_error "rar5: field crosses header" [] else Ok (pos + 4) else Ok pos.

(** The file header from its flags on. *)
Definition rar5_file (data : bytes) (headerEnd pos extraSize dataSize : Z) : result (option goerror) StoredRARMember :=
  let? (fileFlags, pos) := header_vint data headerEnd pos in
  if Z.testbit fileFlags 3 then parse_error "rar5: unknown unpacked size is not streamable" []
  else
    let? (unpackedSize, pos) := header_vint data headerEnd pos in
    let? (_, pos) := header_vint data headerEnd pos in
    let? pos := skip4 (Z.testbit fileFlags 1) headerEnd pos in
    let? pos := skip4 (Z.testbit fileFlags 2) headerEnd pos in
    let? (compressionInfo, pos) := header_vint data headerEnd pos in
    let method := Z.land (Z.shiftr compressionInfo 7) 15 in
    let? (_, pos) := header_vint data headerEnd pos in
    let? (nameSize, pos) := header_vint data headerEnd pos in
    let extraStart := headerEnd - extraSize in
    if (extraStart <? pos) || (extraStart - pos <? nameSize) then parse_error "rar5: member name crosses base header" []
    else
      let? name := slice data pos (pos + nameSize) in
      let? extra := slice data extraStart headerEnd in
      let? encryption := parseRAR5Encryption extra in
      if negb (method =? 0) then parse_error "rar5: method" [match encryption with Some _ => ErrCompressedEncryptedRAR | None => ErrCompressedRAR end]
      else
        match encryption with
        | Some _ =>
            if dataSize =? 0 then parse_error "rar5: encrypted data is empty" []
            else validateStoredRARMember (MkMember name headerEnd (i64 unpackedSize) (i64 dataSize) encryption)
        | None => validateStoredRARMember (MkMember name headerEnd (i64 dataSize) (i64 dataSize) None)
        end.

(** The common part of a block's header: the length of the extra area and of the data. *)
Definition areas (data : bytes) (flags headerEnd pos : Z) : result (option goerror) (Z * Z * Z) :=
  let? (extraSize, pos) :=
    if Z.testbit flags 0 then
      let? (extraSize, pos) := header_vint data headerEnd pos in
      if headerEnd - pos <? extraSize then parse_error "rar5: extra area crosses header" [] else Ok (extraSize, pos)
    else Ok (0, pos) in
  let? (dataSize, pos) := if Z.testbit flags 1 then header_vint data headerEnd pos else Ok (0, pos) in Ok (extraSize, dataSize, pos).

(** A block ends the search, is skipped, or holds the member. *)
Inductive block_step : Type := StopBlocks | NextBlock (pos : Z) | FoundMember (m : StoredRARMember).

Definition rar5_block (data : bytes) (blockStart : Z) : result (option goerror) block_step :=
  if len data <? blockStart + 4 then Ok StopBlocks
  else
    let pos := blockStart + 4 in
    let? (headerSize, sizeLen) := or_failed (readVint data pos) "rar5: read header_size" true in
    if headerSize =? 0 then Ok StopBlocks
    else
      let headerStart := pos + sizeLen in
      if len data - headerStart <? headerSize then Ok StopBlocks
      else
        let headerEnd := headerStart + headerSize in
        let? (headerType, pos) := header_vint data headerEnd headerStart in
        let? (headerFlags, pos) := header_vint data headerEnd pos in
        let? (extraSize, dataSize, pos) := areas data headerFlags headerEnd pos in
        if headerType =? 2 then let? m := rar5_file data headerEnd pos extraSize dataSize in Ok (FoundMember m)
        else if headerType =? 5 then Ok StopBlocks
        else if Z.testbit headerFlags 1 && (len data - headerEnd <? dataSize) then Ok StopBlocks
        else Ok (NextBlock (headerEnd + dataSize)).

Fixpoint rar5_loop (fuel : nat) (data : bytes) (pos : Z) : result (option goerror) StoredRARMember :=
  match fuel with
  | O => fault
  | S fuel =>
      if len data <=? pos then parse_error "rar5: no file block found" []
      else
        let? step := rar5_block data pos in
        match step with
        | StopBlocks => parse_error "rar5: no file block found" []
        | NextBlock pos => rar5_loop fuel data pos
        | FoundMember m => Ok m
        end
  end.

Definition parseRAR5StoredMember (data : bytes) : result (option goerror) StoredRARMember :=
  if len data <? 8 then parse_error "rar5: data too short for signature check" []
  else if negb (has_prefix rar5Sig data) then parse_error "rar5: invalid signature" []
  else rar5_loop (S (length data)) data 8.

(** The parser of the signature, on what was read. *)
Definition parse_member (data : bytes) : result (option goerror) StoredRARMember :=
  if (7 <=? len data) && has_prefix rar3Sig data then parseRAR3StoredMember data
  else if (8 <=? len data) && has_prefix rar5Sig data then parseRAR5StoredMember data
  else parse_error "rar: unrecognised RAR signature" [].

Definition ParseStoredRARMember {W} (src : option (ByteSource W)) : W -> W * result (option goerror) StoredRARMember :=
  let! data := readPrefix src maxRARHeaderBytes in
  match data with
  | Err e => call_ret (Err (Some e))
  | Ok data => call_ret (parse_member data)
  end.
Definition ParseRARDataOffset {W} (src : option (ByteSource W)) : W -> W * result (option goerror) Z :=
  let! member := ParseStoredRARMember src in call_ret (let? m := member in Ok (DataOffset m)).
End Hash.

(** ** The parsers never stop the program *)

(** A result that is no fault, with [P] of its value. *)
Definition sound {A} (P : A -> Prop) (r : result (option goerror) A) : Prop := match r with Ok a => P a | Err (Some _) => True | Err None => False end.

Lemma sound_bind {A B} (P : A -> Prop) (Q : B -> Prop) c f : sound P c -> (forall a, P a -> sound Q (f a)) -> sound Q (rbind c f).
Proof. destruct c as [a|[e|]]; cbn; auto. Qed.
Lemma sound_failed {A} (P : A -> Prop) msg causes : sound P (parse_error msg causes).
Proof. done. Qed.
Lemma sound_or {A} (P : A -> Prop) r msg w : sound P r -> sound P (or_failed r msg w).
Proof. by destruct r as [a|[e|]]. Qed.
Lemma sound_if {A} (P : A -> Prop) (b : bool) x y : (b = true -> sound P x) -> (b = false -> sound P y) -> sound P (if b then x else y).
Proof. destruct b; auto. Qed.

Section Sound.
Context (data : bytes) (Hdata : Forall (fits 8) data).

Lemma sound_at i : 0 <= i < len data -> sound (fits 8) (at_ data i).
Proof.
  intros Hi. unfold at_, len in *. destruct (Z.ltb_spec i 0); [lia|]. destruct (data !! Z.to_nat i) as [b|] eqn:E.
  - rewrite Forall_lookup in Hdata. by eapply Hdata.
  - apply lookup_ge_None in E. lia.
Qed.

Lemma sound_slice i j : 0 <= i <= j -> j <= len data -> sound (fun s => s = span data i (j - i) /\ len s = j - i /\ Forall (fits 8) s) (slice data i j).
Proof.
  intros Hi Hj. unfold slice. destruct (Z.leb_spec 0 i); [|lia]. destruct (Z.leb_spec i j); [|lia]. destruct (Z.leb_spec j (len data)); [|lia]. cbn [andb sound].
  split; [done|]. split; [unfold len in *; rewrite span_length; lia|]. unfold span. by apply Forall_take, Forall_drop.
Qed.

Lemma le_range s : Forall (fits 8) s -> 0 <= le s < 256 ^ len s.
Proof.
  unfold len. induction 1 as [|b s [Hb1 Hb2] _ IH]; [done|]. cbn [le length]. rewrite Nat2Z.inj_succ, Z.pow_succ_r by lia. change (2 ^ 8) with 256 in Hb2. lia.
Qed.

Lemma sound_le i n : 0 <= i -> 0 <= n -> i + n <= len data -> sound (fun v => 0 <= v < 256 ^ n) (le_at data i n).
Proof.
  intros Hi Hn Hl. unfold le_at. eapply sound_bind; [apply sound_slice; lia|]. cbn. intros s (_ & Hs & Hf). pose proof (le_range s Hf) as H. rewrite Hs in H. by replace (i + n - i) with n in H by lia.
Qed.

Lemma fits_lor n a b : 0 <= n -> fits n a -> fits n b -> fits n (Z.lor a b).
Proof.
  intros Hn [Ha1 Ha2] [Hb1 Hb2]. split; [by apply Z.lor_nonneg|]. destruct (decide (Z.lor a b = 0)) as [->|Hne]; [lia|].
  assert (0 <= Z.lor a b) by (by apply Z.lor_nonneg). apply Z.log2_lt_pow2; [lia|]. rewrite Z.log2_lor by done.
  destruct (decide (a = 0)) as [->|], (decide (b = 0)) as [->|]; try done; apply Z.max_lub_lt; try (apply Z.log2_lt_pow2; lia); cbn [Z.log2];
    (destruct (decide (n = 0)) as [->|]; [cbn in *; lia|lia]).
Qed.

Lemma u64_fits x : fits 64 (u64 x).
Proof. apply Z.mod_pos_bound. lia. Qed.

Lemma sound_vint_loop n : forall offset value shift k, 0 <= offset -> fits 64 value ->
  sound (fun vn => fits 64 vn.1 /\ k <= vn.2 < k + Z.of_nat n /\ offset + (vn.2 - k) < len data) (vint_loop n data offset value shift k).
Proof.
  induction n as [|n IH]; intros offset value shift k Ho Hv; cbn [vint_loop]; [done|]. apply sound_if; [done|]. intros Hl. bool_hyps.
  eapply sound_bind; [apply sound_at; lia|]. cbn. intros b Hb. set (value' := Z.lor value _).
  assert (Hv' : fits 64 value') by (apply fits_lor; [lia|done|apply u64_fits]). apply sound_if; intros _; [cbn; split; [done|]; lia|].
  pose proof (IH (offset + 1) value' (shift + 7) (k + 1) ltac:(lia) Hv') as H. revert H. clear. destruct (vint_loop _ _ _ _ _ _) as [[v m]|[e|]]; cbn; [|done..].
  intros (? & ? & ?). split_and!; [done|lia..].
Qed.

Lemma sound_vint offset : 0 <= offset -> sound (fun vn => fits 64 vn.1 /\ 1 <= vn.2 <= 10 /\ offset + vn.2 <= len data) (readVint data offset).
Proof.
  intros Ho. pose proof (sound_vint_loop 10 offset 0 0 1 Ho ltac:(done)) as H. unfold readVint. revert H. destruct (vint_loop _ _ _ _ _ _) as [[v m]|[e|]]; cbn; [|done..].
  intros (? & ? & ?). split_and!; [done|lia..].
Qed.
End Sound.

(** ** Names stay inside their root *)

(** An element of a path: it goes neither up nor nowhere. *)
Definition clean_element (s : bytes) : Prop := s <> [] /\ s <> str "." /\ s <> str ".." /\ 47 ∉ s /\ 92 ∉ s.

Lemma split_slash_chars p s c : s ∈ split_slash p -> c ∈ s -> c ∈ p /\ c <> 47.
Proof.
  revert s. induction p as [|x p IH]; intros s; cbn [split_slash].
  - intros ->%list_elem_of_singleton Hc. by apply not_elem_of_nil in Hc.
  - destruct (Z.eqb_spec x 47) as [->|Hx].
    + intros [->|Hs]%list.elem_of_cons Hc; [by apply not_elem_of_nil in Hc|]. destruct (IH s Hs Hc). split; [by right|done].
    + destruct (split_slash p) as [|s0 segs] eqn:E.
      * intros ->%list_elem_of_singleton ->%list_elem_of_singleton. split; [by left|done].
      * intros [->|Hs]%list.elem_of_cons Hc.
        -- apply list.elem_of_cons in Hc as [->|Hc]; [split; [by left|done]|]. destruct (IH s0 ltac:(by left) Hc). split; [by right|done].
        -- destruct (IH s ltac:(by right) Hc). split; [by right|done].
Qed.

(** The stack of a clean path: going up is at its bottom, and only when it is not rooted. *)
Definition stack_ok (rooted : bool) (stack : list bytes) : Prop :=
  Forall (fun s => s <> [] /\ s <> str "." /\ 47 ∉ s /\ 92 ∉ s) stack /\
  exists ups rest, stack = rest ++ ups /\ Forall (fun s => s = str "..") ups /\ Forall (fun s => s <> str "..") rest /\ (rooted = true -> ups = []).

Lemma stack_nil rooted : stack_ok rooted [].
Proof. split; [constructor|]. by exists [], []. Qed.

Lemma clean_step_ok rooted stack s : 47 ∉ s -> 92 ∉ s -> stack_ok rooted stack -> stack_ok rooted (clean_step rooted stack s).
Proof.
  intros H1 H2 (Hf & ups & rest & -> & Hu & Hr & Hroot). unfold clean_step.
  destruct (bool_decide_reflect (s = [])) as [|He]; [by repeat esplit|]. destruct (bool_decide_reflect (s = str ".")) as [|Hd]; [by repeat esplit|]. cbn [orb].
  destruct (bool_decide_reflect (s = str "..")) as [->|Hdd].
  - destruct rest as [|r rest]; cbn [app].
    + destruct ups as [|u ups]; [destruct rooted; [apply stack_nil|]|].
      * split; [by repeat constructor|]. exists [str ".."], []. by repeat constructor.
      * apply list.Forall_cons in Hu as [-> Hu]. rewrite bool_decide_true by done. split; [by constructor|].
        exists (str ".." :: str ".." :: ups), []. split_and!; [done|by repeat constructor|done|]. intros Ht. by specialize (Hroot Ht).
    + apply list.Forall_cons in Hr as [Hr1 Hr]. rewrite bool_decide_false by done. cbn [app] in Hf. apply list.Forall_cons in Hf as [_ Hf].
      split; [done|]. by exists ups, rest.
  - split; [by constructor|]. exists ups, (s :: rest). split; [done|]. split; [done|]. split; [by constructor|done].
Qed.

Lemma clean_stack rooted segs : Forall (fun s => 47 ∉ s /\ 92 ∉ s) segs -> stack_ok rooted (foldl (clean_step rooted) [] segs).
Proof.
  intros Hs. assert (H : forall stack, stack_ok rooted stack -> stack_ok rooted (foldl (clean_step rooted) stack segs)).
  { induction Hs as [|s segs [H1 H2] _ IH]; intros stack Hst; cbn [foldl]; [done|]. by apply IH, clean_step_ok. }
  apply H, stack_nil.
Qed.

Lemma split_joined segs : segs <> [] -> Forall (fun s => 47 ∉ s) segs -> split_slash (join_slash segs) = segs.
Proof.
  induction segs as [|s segs IH]; intros Hne Hs; [done|]. apply list.Forall_cons in Hs as [H Hs]. cbn [join_slash]. destruct segs as [|s' segs]; [by apply split_slash_one|].
  rewrite split_slash_cons by done. f_equal. by apply IH.
Qed.

Lemma join_up rest segs : segs <> [] -> segs = str ".." :: rest -> join_slash segs = str ".." \/ has_prefix (str "../") (join_slash segs) = true.
Proof. intros _ ->. destruct rest as [|s rest]; [by left|right]. cbn [join_slash]. apply bool_decide_eq_true. done. Qed.

(** What a cleaned name is when it passes the checks. *)
Lemma Clean_safe p : 92 ∉ p -> Clean p <> str "." -> Clean p <> str ".." -> has_prefix (str "../") (Clean p) = false -> has_prefix (str "/") (Clean p) = false ->
  Forall clean_element (split_slash (Clean p)).
Proof.
  intros Hp. unfold Clean. set (rooted := bool_decide (head p = Some 47)).
  assert (Hsegs : Forall (fun s => 47 ∉ s /\ 92 ∉ s) (split_slash p)).
  { apply list.Forall_forall. intros s Hs. split; intros Hc; destruct (split_slash_chars p s _ Hs Hc); [done|]. by apply Hp. }
  destruct (clean_stack rooted _ Hsegs) as (Hf & ups & rest & E & Hu & Hr & Hroot). rewrite E in *. clear E.
  set (out := _ ++ join_slash _). destruct (bool_decide_reflect (out = [])) as [|Hne]; [done|]. intros Hd Hdd Hup Hsl.
  assert (Er : rooted = false).
  { destruct rooted; [|done]. exfalso. revert Hsl. subst out. unfold has_prefix. cbn. by rewrite bool_decide_true. }
  subst out. rewrite Er in *. cbn [app] in *. rewrite rev_app_distr in *.
  assert (Eu : ups = []).
  { destruct ups as [|u ups' _] using rev_ind; [done|]. apply Forall_app in Hu as [_ Hu]. apply list.Forall_cons in Hu as [-> _]. rewrite rev_app_distr in Hdd, Hup. cbn [rev app] in Hdd, Hup.
    exfalso. destruct (join_up (rev ups' ++ rev rest) (str ".." :: (rev ups' ++ rev rest)) ltac:(done) eq_refl) as [H|H]; [by apply Hdd|by rewrite H in Hup]. }
  subst ups. cbn [rev app] in *. rewrite app_nil_r in *.
  rewrite split_joined.
  - apply Forall_rev. rewrite list.Forall_forall in Hf, Hr |- *. intros s Hs. destruct (Hf s Hs) as (? & ? & ? & ?). split_and!; auto.
  - intros E. by rewrite E in Hne.
  - apply Forall_rev. eapply list.Forall_impl; [exact Hf|]. by intros s (_ & _ & ? & _).
Qed.

(** ** What a member must be *)

Definition encryption_ok (e : RAREncryption) : Prop :=
  (Version e = 3 /\ (Salt e = [] \/ len (Salt e) = 8) /\ IV e = [] /\ PasswordCheck e = []) \/
  (Version e = 5 /\ len (Salt e) = 16 /\ len (IV e) = 16 /\ 0 <= KDFLog2 e <= 24 /\ (PasswordCheck e = [] \/ len (PasswordCheck e) = 8)).

(** A member whose header ends within [n] bytes. *)
Definition member_ok (n : Z) (m : StoredRARMember) : Prop :=
  0 < DataOffset m <= n /\ 0 < DataSize m <= maxInt64 /\ 0 < PackedSize m <= maxInt64 /\
  (m_Name m = [] \/ Forall clean_element (split_slash (m_Name m))) /\
  match Encryption m with Some e => encryption_ok e | None => DataSize m = PackedSize m end.

Lemma validate_sound n m : 0 < DataOffset m <= n -> is_i64 (DataSize m) -> is_i64 (PackedSize m) ->
  match Encryption m with Some e => encryption_ok e | None => DataSize m = PackedSize m end -> sound (member_ok n) (validateStoredRARMember m).
Proof.
  intros Ho Hd Hp He. unfold validateStoredRARMember, is_i64 in *. apply sound_if; [done|]. intros E. bool_hyps. apply sound_if.
  - intros Hn%bool_decide_eq_true. cbn. split_and!; try lia; [by left|done].
  - intros _. set (p := map _ (m_Name m)). apply sound_if; [done|]. intros Hc. bool_hyps. cbn. split_and!; cbn; try lia; [|done]. right.
    repeat match goal with H : bool_decide _ = false |- _ => apply bool_decide_eq_false in H end. apply Clean_safe; try done.
    subst p. intros (c & Hc & _)%list_elem_of_fmap. destruct (Z.eqb_spec c 92); lia.
Qed.

(** ** The parsers are sound *)

Section Parse.
Context (sha256 : bytes -> bytes).
Context (data : bytes) (Hdata : Forall (fits 8) data).

Lemma record_sound pos recordEnd : 0 <= pos -> recordEnd <= len data -> 0 <= recordEnd -> sound encryption_ok (encryption_record sha256 data pos recordEnd).
Proof.
  intros Hp Hr Hr0. unfold encryption_record. eapply sound_bind; [by apply sound_slice|]. intros record (_ & Hl & Hf). rewrite Z.sub_0_r in Hl.
  eapply sound_bind; [apply sound_or, sound_vint; [done|lia]|]. cbn. intros [version n] (_ & Hn & Hb). apply sound_if; [done|intros _].
  eapply sound_bind; [apply sound_or, sound_vint; [done|cbn in *; lia]|]. cbn in *. intros [flags n'] (_ & Hn' & Hb'). cbn in *. apply sound_if; [done|intros _].
  apply sound_if; [done|intros Hk]. bool_hyps. eapply sound_bind; [apply sound_at; [done|lia]|]. intros kdf [Hk1 Hk2]. apply sound_if; [done|]. intros Hc. bool_hyps.
  eapply sound_bind; [apply sound_slice; [done|lia..]|]. intros salt (_ & Hsalt & _). eapply sound_bind; [apply sound_slice; [done|lia..]|]. intros iv (_ & Hiv & _).
  eapply (sound_bind (fun cp => cp.1 = [] \/ len cp.1 = 8)).
  - apply sound_if; [intros _|intros _; by left]. apply sound_if; [done|]. intros H12. bool_hyps.
    eapply sound_bind; [apply sound_slice; [done|lia..]|]. intros check (_ & Hcheck & _). eapply sound_bind; [apply sound_slice; [done|lia..]|]. intros sum _.
    apply sound_if; [done|]. intros _. right. cbn. lia.
  - intros [check pos'] Hcheck. apply sound_if; [done|]. intros _. right. cbn in *. split_and!; try lia; done.
Qed.

Lemma extra_loop_sound fuel : forall pos e, 0 <= pos -> Z.max 0 (len data - pos) < Z.of_nat fuel -> match e with Some e => encryption_ok e | None => True end ->
  sound (fun e => match e with Some e => encryption_ok e | None => True end) (extra_loop sha256 fuel data pos e).
Proof.
  induction fuel as [|fuel IH]; intros pos e Hp Hf He; cbn [extra_loop].
  { exfalso. lia. }
  apply sound_if; [done|]. intros Hl. bool_hyps. eapply sound_bind; [by apply sound_or, sound_vint|]. cbn. intros [size n] (Hs & Hn & Hb). cbn in *.
  apply sound_if; [done|]. intros Hc. bool_hyps. unfold fits in Hs.
  eapply sound_bind; [apply sound_slice; [done|lia..]|]. intros record (_ & Hrl & Hrf). eapply sound_bind; [apply sound_or, sound_vint; [done|lia]|]. intros [type n'] (_ & Hn' & Hb'). cbn in *.
  apply sound_if; intros _; [apply IH; [lia|lia|done]|]. destruct e as [e|]; [done|]. eapply sound_bind; [apply record_sound; lia|]. intros e' He'. apply IH; [lia|lia|done].
Qed.

Lemma encryption_sound : sound (fun e => match e with Some e => encryption_ok e | None => True end) (parseRAR5Encryption sha256 data).
Proof. apply extra_loop_sound; [done|unfold len; lia|done]. Qed.
End Parse.

Section Parse.
Context (sha256 : bytes -> bytes).
Context (data : bytes) (Hdata : Forall (fits 8) data).

Lemma i64_is x : is_i64 (i64 x).
Proof. unfold is_i64, i64, minInt64, maxInt64. pose proof (Z.mod_pos_bound (x + 2 ^ 63) (2 ^ 64) ltac:(lia)). lia. Qed.

Lemma header_vint_sound headerEnd pos : 0 <= pos -> headerEnd <= len data -> sound (fun vp => fits 64 vp.1 /\ pos < vp.2 <= headerEnd) (header_vint data headerEnd pos).
Proof.
  intros Hp He. unfold header_vint. apply sound_if; [done|]. intros Hl. bool_hyps. eapply sound_bind; [by apply sound_or, sound_vint|]. intros [v n] (Hv & Hn & Hb). cbn in *.
  apply sound_if; [done|]. intros Hc. bool_hyps. cbn. split; [done|lia].
Qed.

Lemma skip4_sound present headerEnd pos : pos <= headerEnd -> sound (fun pos' => pos <= pos' <= headerEnd) (skip4 present headerEnd pos).
Proof. intros Hp. unfold skip4. apply sound_if; intros _; [|cbn; lia]. apply sound_if; [done|]. intros Hc. bool_hyps. cbn. lia. Qed.

Lemma rar5_file_sound headerEnd pos extraSize dataSize : 0 < pos -> headerEnd <= len data -> 0 <= extraSize ->
  sound (member_ok (len data)) (rar5_file sha256 data headerEnd pos extraSize dataSize).
Proof.
  intros Hp He Hx. unfold rar5_file.
  eapply sound_bind; [apply header_vint_sound; lia|]. intros [flags p1] (_ & H1). cbn in H1. apply sound_if; [done|intros _].
  eapply sound_bind; [apply header_vint_sound; lia|]. intros [unpacked p2] (_ & H2). cbn in H2.
  eapply sound_bind; [apply header_vint_sound; lia|]. intros [attrs p3] (_ & H3). cbn in H3.
  eapply sound_bind; [apply skip4_sound; lia|]. intros p4 H4. cbn in H4. eapply sound_bind; [apply skip4_sound; lia|]. intros p5 H5. cbn in H5.
  eapply sound_bind; [apply header_vint_sound; lia|]. intros [info p6] (_ & H6). cbn in H6.
  eapply sound_bind; [apply header_vint_sound; lia|]. intros [host p7] (_ & H7). cbn in H7.
  eapply sound_bind; [apply header_vint_sound; lia|]. intros [size p8] (Hs & H8). cbn in H8, Hs. unfold fits in Hs.
  apply sound_if; [done|]. intros Hc. bool_hyps. eapply sound_bind; [apply sound_slice; [done|lia..]|]. intros name _.
  eapply sound_bind; [apply sound_slice; [done|lia..]|]. intros extra (_ & _ & Hf).
  eapply sound_bind; [by apply encryption_sound|]. intros [e|] Henc; (apply sound_if; [done|intros _]).
  - apply sound_if; [done|intros _]. apply validate_sound; cbn; [lia|apply i64_is..|done].
  - apply validate_sound; cbn; [lia|apply i64_is..|done].
Qed.

Lemma areas_sound flags headerEnd p2 : 0 <= p2 <= headerEnd -> headerEnd <= len data ->
  sound (fun x => 0 <= x.1.1 /\ 0 <= x.1.2 /\ p2 <= x.2 <= headerEnd) (areas data flags headerEnd p2).
Proof.
  intros Hp He. unfold areas. eapply (sound_bind (fun vp => 0 <= vp.1 /\ p2 <= vp.2 <= headerEnd)).
  { apply sound_if; intros _; [|cbn; lia]. eapply sound_bind; [apply header_vint_sound; lia|]. intros [x p3] (Hx & H3). cbn in H3, Hx. unfold fits in Hx. apply sound_if; [done|intros _]. cbn. lia. }
  intros [extra p3] [Hx H3]. cbn in Hx, H3. eapply (sound_bind (fun vp => 0 <= vp.1 /\ p3 <= vp.2 <= headerEnd)).
  { apply sound_if; intros _; [|cbn; lia]. pose proof (header_vint_sound headerEnd p3 ltac:(lia) ltac:(lia)) as H. revert H. destruct (header_vint _ _ _) as [[v p]|[e|]]; cbn; [|done..]. unfold fits. lia. }
  intros [size p4] [Hd H4]. cbn in *. lia.
Qed.

Lemma rar5_block_sound pos : 0 <= pos ->
  sound (fun step => match step with StopBlocks => True | NextBlock pos' => pos < pos' | FoundMember m => member_ok (len data) m end) (rar5_block sha256 data pos).
Proof.
  intros Hp. unfold rar5_block. apply sound_if; [done|]. intros Hl. bool_hyps. eapply sound_bind; [apply sound_or, sound_vint; [done|lia]|]. intros [size n] (Hs & Hn & Hb). cbn in *. unfold fits in Hs.
  apply sound_if; [done|]. intros Hz. apply sound_if; [done|]. intros Hc. bool_hyps.
  eapply sound_bind; [apply header_vint_sound; lia|]. intros [type p1] (_ & H1). cbn in H1. eapply sound_bind; [apply header_vint_sound; lia|]. intros [flags p2] (_ & H2). cbn in H2.
  set (headerEnd := pos + 4 + n + size) in *.
  eapply sound_bind; [apply (areas_sound flags headerEnd p2); lia|]. intros [[extra size'] p4] (Hx & Hd & H4). cbn in Hx, Hd, H4. apply sound_if; intros _; [eapply sound_bind; [apply rar5_file_sound; lia|]; by intros m Hm|].
  apply sound_if; [done|intros _]. apply sound_if; [done|intros _]. cbn. lia.
Qed.

Lemma rar5_loop_sound fuel : forall pos, 0 <= pos -> Z.max 0 (len data - pos) < Z.of_nat fuel -> sound (member_ok (len data)) (rar5_loop sha256 fuel data pos).
Proof.
  induction fuel as [|fuel IH]; intros pos Hp Hf; cbn [rar5_loop]; [lia|]. apply sound_if; [done|]. intros Hl. bool_hyps.
  eapply sound_bind; [by apply rar5_block_sound|]. intros [|pos'|m] Hs; [done| |done]. apply IH; lia.
Qed.

Lemma word_fits v k : 0 <= v < 256 ^ k -> 0 <= k <= 8 -> fits 64 v.
Proof. intros H Hk. split; [lia|]. assert (256 ^ k <= 256 ^ 8) by (apply Z.pow_le_mono_r; lia). change (256 ^ 8) with (2 ^ 64) in *. lia. Qed.

Lemma rar3_file_sound offset headSize : 0 <= offset -> sound (member_ok (len data)) (rar3_file data offset headSize).
Proof.
  intros Ho. unfold rar3_file. apply sound_if; [done|]. intros Hc. bool_hyps. eapply sound_bind; [apply sound_le; [done|lia..]|]. intros flags _.
  eapply sound_bind; [apply sound_at; [done|lia]|]. intros method _. apply sound_if; [done|intros _].
  eapply sound_bind; [apply sound_le; [done|lia..]|]. intros packed Hpk. eapply sound_bind; [apply sound_le; [done|lia..]|]. intros unpacked Hun.
  eapply sound_bind; [apply sound_le; [done|lia..]|]. intros nameLen Hn. cbn beta in Hn.
  eapply (sound_bind (fun x => offset + 32 <= x.2)).
  { apply sound_if; intros _; [|cbn; lia]. apply sound_if; [done|]. intros H40. bool_hyps. eapply sound_bind; [apply sound_le; [done|lia..]|]. intros hp _.
    eapply sound_bind; [apply sound_le; [done|lia..]|]. intros hu _. cbn. lia. }
  intros [[pk un] start] Hs. cbn in Hs. apply sound_if; [done|]. intros Hb. bool_hyps.
  eapply (sound_bind (fun eu => match eu.1 with Some e => encryption_ok e | None => eu.2 = pk end)).
  { apply sound_if; intros _; [|done]. eapply (sound_bind (fun salt => salt = [] \/ len salt = 8)).
    - apply sound_if; intros _; [|by left]. apply sound_if; [done|]. intros H8. bool_hyps. pose proof (sound_slice data Hdata (start + nameLen) (start + nameLen + 8) ltac:(lia) ltac:(lia)) as Hsl.
      revert Hsl. destruct (slice _ _ _) as [s|[e|]]; cbn; [|done..]. intros (_ & Hsl & _). right. lia.
    - intros salt Hsalt. apply sound_if; [done|intros _]. left. cbn. done. }
  intros [e un'] He. eapply sound_bind; [apply sound_slice; [done|lia..]|]. intros name _. apply validate_sound; cbn in *; [lia|apply i64_is..|]. destruct e; [done|by subst].
Qed.

Lemma rar3_loop_sound fuel : forall offset, 0 <= offset -> Z.max 0 (len data - offset) < Z.of_nat fuel -> sound (member_ok (len data)) (rar3_loop fuel data offset).
Proof.
  induction fuel as [|fuel IH]; intros offset Ho Hf; cbn [rar3_loop]; [lia|]. apply sound_if; [done|]. intros Hl. apply sound_if; [done|]. intros H7. bool_hyps.
  eapply sound_bind; [apply sound_at; [done|lia]|]. intros type _. eapply sound_bind; [apply sound_le; [done|lia..]|]. intros size Hs. cbn beta in Hs. apply sound_if; [done|]. intros Hz. bool_hyps.
  apply sound_if; intros _; [by apply rar3_file_sound|]. apply sound_if; [done|intros _]. apply IH; lia.
Qed.

Lemma parse_member_sound : sound (member_ok (len data)) (parse_member sha256 data).
Proof.
  unfold parse_member, parseRAR3StoredMember, parseRAR5StoredMember. apply sound_if; intros _; [|apply sound_if; intros _; [|done]].
  - apply sound_if; [done|intros _]. apply sound_if; [done|intros _]. apply rar3_loop_sound; unfold len; lia.
  - apply sound_if; [done|intros _]. apply sound_if; [done|intros _]. apply rar5_loop_sound; unfold len; lia.
Qed.
End Parse.
