(* ===== verification/RarWrite.v ===== *)
(** Writing RAR volumes: the two formats that [RarHeader] parses, and that what is written is
    read back.

    A volume is its signature, blocks that are skipped, and the block of a member that is
    stored; what follows its header is the member's payload. *)

From Stdlib Require Import ZArith Lia.
From stdpp Require Import base list numbers strings.
From S2P Require Import Prelude Outcome Bencode ContentProof Torrentmeta LaneCandidate Text ByteSource Par2Packets RarHeader.

Local Open Scope Z_scope.
Local Open Scope harbor_scope.

(** ** The format with fields of variable length *)

(** Seven bits in a byte, the low ones first; the top bit says that more follow. *)
Fixpoint vint_bytes (n : nat) (v : Z) : bytes :=
  match n with O => [] | S n => if v <? 128 then [v] else (v mod 128 + 128) :: vint_bytes n (v / 128) end.
Definition vint (v : Z) : bytes := vint_bytes 10 v.

Record block5 := MkBlock5 { b_crc : bytes; b_type : Z; b_flags : Z; b_fields : bytes; b_extra : bytes; b_data : bytes }.

Definition header5 (type flags : Z) (fields extra : bytes) (dataSize : Z) : bytes :=
  vint type ++ vint flags ++ (if Z.testbit flags 0 then vint (len extra) else []) ++ (if Z.testbit flags 1 then vint dataSize else []) ++ fields ++ extra.
Definition write5 (b : block5) : bytes :=
  let header := header5 (b_type b) (b_flags b) (b_fields b) (b_extra b) (len (b_data b)) in
  b_crc b ++ vint (len header) ++ header ++ b_data b.

(** A block that is no file and no end, and says what it holds. *)
Definition skipped5 (b : block5) : Prop :=
  len (b_crc b) = 4 /\ fits 64 (b_type b) /\ b_type b <> 2 /\ b_type b <> 5 /\ fits 64 (b_flags b) /\
  (Z.testbit (b_flags b) 0 = false -> b_extra b = []) /\ (Z.testbit (b_flags b) 1 = false -> b_data b = []).

(** A record of the extra area: its type and what follows, or the encryption of the member. *)
Record password_check := MkCheck { pc_check : bytes; pc_sum : bytes }.
Inductive extra_record : Type :=
| OtherRecord (type : Z) (body : bytes)
| EncryptionRecord (flags kdf : Z) (salt iv : bytes) (check : option password_check).

Definition record_body (r : extra_record) : bytes :=
  match r with
  | OtherRecord type body => vint type ++ body
  | EncryptionRecord flags kdf salt iv check =>
      vint 1 ++ vint 0 ++ vint flags ++ [kdf] ++ salt ++ iv ++ match check with Some c => pc_check c ++ pc_sum c | None => [] end
  end.
Definition write_record (r : extra_record) : bytes := vint (len (record_body r)) ++ record_body r.
Definition write_records (rs : list extra_record) : bytes := concat (map write_record rs).

Definition record_encryption (r : extra_record) : option RAREncryption :=
  match r with
  | OtherRecord _ _ => None
  | EncryptionRecord _ kdf salt iv check => Some (MkEnc 5 salt iv kdf match check with Some c => pc_check c | None => [] end)
  end.
(** The encryption of the records: none or one has any. *)
Definition records_encryption (rs : list extra_record) : option RAREncryption := head (omap record_encryption rs).

Record file5 := MkFile5 {
  f_crc : bytes; f_flags : Z; f_fileFlags : Z; f_unpacked : Z; f_attributes : Z; f_mtime : bytes; f_crc32 : bytes; f_info : Z; f_host : Z; f_name : bytes;
  f_records : list extra_record; f_packed : Z
}.
Definition file5_fields (f : file5) : bytes :=
  vint (f_fileFlags f) ++ vint (f_unpacked f) ++ vint (f_attributes f) ++ (if Z.testbit (f_fileFlags f) 1 then f_mtime f else []) ++
  (if Z.testbit (f_fileFlags f) 2 then f_crc32 f else []) ++ vint (f_info f) ++ vint (f_host f) ++ vint (len (f_name f)) ++ f_name f.
(** The block of a member up to its payload. *)
Definition write_file5 (f : file5) : bytes :=
  let header := header5 2 (f_flags f) (file5_fields f) (write_records (f_records f)) (f_packed f) in
  f_crc f ++ vint (len header) ++ header.

(** ** Reading at a position *)

(** From [pos] on the data is [rest]. *)
Definition rest_at (data : bytes) (pos : Z) (rest : bytes) : Prop := exists pre, data = pre ++ rest /\ pos = len pre.

Lemma len_app (a b : bytes) : len (a ++ b) = len a + len b.
Proof. unfold len. rewrite length_app. lia. Qed.
Lemma len_natural (a : bytes) : 0 <= len a.
Proof. unfold len. lia. Qed.

Lemma rest_skip data pos x rest : rest_at data pos (x ++ rest) -> rest_at data (pos + len x) rest.
Proof. intros (pre & -> & ->). exists (pre ++ x). by rewrite <- app_assoc, len_app. Qed.

Lemma rest_len data pos rest : rest_at data pos rest -> 0 <= pos /\ pos + len rest = len data.
Proof. intros (pre & -> & ->). rewrite len_app. pose proof (len_natural pre). lia. Qed.

Lemma at_here data pos b rest : rest_at data pos (b :: rest) -> at_ data pos = Ok b.
Proof.
  intros (pre & -> & ->). unfold at_. pose proof (len_natural pre). destruct (Z.ltb_spec (len pre) 0); [lia|]. unfold len. rewrite Nat2Z.id.
  by rewrite list_lookup_middle.
Qed.

Lemma slice_here data pos x rest j : rest_at data pos (x ++ rest) -> j = pos + len x -> slice data pos j = Ok x.
Proof.
  intros Hr ->. pose proof (rest_len _ _ _ Hr) as [H1 H2]. rewrite len_app in H2. pose proof (len_natural x). pose proof (len_natural rest). unfold slice.
  destruct (Z.leb_spec 0 pos); [|lia]. destruct (Z.leb_spec pos (pos + len x)); [|lia]. destruct (Z.leb_spec (pos + len x) (len data)); [|lia]. cbn [andb].
  destruct Hr as (pre & -> & ->). unfold span, len. do 2 f_equal. rewrite Nat2Z.id, drop_app_length. replace (Z.to_nat _) with (length x) by lia. apply take_app_length.
Qed.

Lemma le_here data pos n v rest : rest_at data pos (le_bytes n v ++ rest) -> 0 <= v < 256 ^ Z.of_nat n -> le_at data pos (Z.of_nat n) = Ok v.
Proof.
  intros Hr Hv. unfold le_at. rewrite (slice_here _ _ _ _ _ Hr); [|unfold len; rewrite length_le_bytes; lia]. cbn. by rewrite le_le_bytes.
Qed.

(** ** Numbers of variable length are read back *)

Lemma lor_low a b s : 0 <= s -> 0 <= a < 2 ^ s -> Z.lor a (Z.shiftl b s) = a + b * 2 ^ s.
Proof.
  intros Hs Ha. rewrite Z.shiftl_mul_pow2 by done. rewrite <- Z.add_lor_land. assert (Z.land a (b * 2 ^ s) = 0) as ->; [|lia].
  apply Z.bits_inj'. intros i Hi. rewrite Z.land_spec, Z.bits_0. destruct (Z.lt_ge_cases i s).
  - rewrite Z.mul_pow2_bits_low by done. apply andb_false_r.
  - destruct (decide (a = 0)) as [->|]; [by rewrite Z.bits_0|]. rewrite (Z.bits_above_log2 a i); [done|lia|]. apply Z.lt_le_trans with s; [|done]. apply Z.log2_lt_pow2; lia.
Qed.

Lemma vint_bytes_length n v : (0 < n)%nat -> (1 <= length (vint_bytes n v) <= n)%nat.
Proof.
  revert v. induction n as [|n IH]; intros v Hn; [lia|]. cbn [vint_bytes]. destruct (v <? 128); [cbn; lia|]. cbn [length]. destruct n as [|n]; [cbn; lia|]. specialize (IH (v / 128) ltac:(lia)). lia.
Qed.
Lemma vint_len v : 1 <= len (vint v) <= 10.
Proof. unfold len, vint. pose proof (vint_bytes_length 10 v ltac:(lia)). lia. Qed.

Lemma vint_loop_here n : forall v acc shift k data pos rest, 0 <= v < 128 ^ Z.of_nat n -> 0 <= shift -> 0 <= acc < 2 ^ shift -> acc + v * 2 ^ shift < 2 ^ 64 ->
  rest_at data pos (vint_bytes n v ++ rest) -> (0 < n)%nat -> vint_loop n data pos acc shift k = Ok (acc + v * 2 ^ shift, k + len (vint_bytes n v) - 1).
Proof.
  induction n as [|n IH]; intros v acc shift k data pos rest Hv Hs Ha H64 Hr Hn; [lia|]. cbn [vint_loop vint_bytes] in *.
  pose proof (rest_len _ _ _ Hr) as [Hp Hl]. assert (Hpow : 0 < 2 ^ shift) by lia.
  destruct (Z.ltb_spec v 128) as [Hlt|Hge].
  - cbn [app] in Hr. rewrite len_app in Hl. change (len [v]) with 1 in *. pose proof (len_natural rest). destruct (Z.leb_spec (len data) pos); [lia|].
    rewrite (at_here _ _ _ _ Hr). cbn [rbind].
    assert (Z.land v 127 = v) as -> by (change 127 with (Z.ones 7); rewrite Z.land_ones by lia; apply Z.mod_small; lia).
    assert (Z.land v 128 =? 0 = true) as ->.
    { apply Z.eqb_eq. apply Z.bits_inj'. intros i Hi. rewrite Z.land_spec, Z.bits_0. change 128 with (2 ^ 7). destruct (decide (i = 7)) as [->|Hne].
      - destruct (decide (v = 0)) as [->|]; [done|]. rewrite (Z.bits_above_log2 v 7); [done|lia|]. apply Z.log2_lt_pow2; lia.
      - rewrite Z.pow2_bits_false by lia. apply andb_false_r. }
    rewrite u64_small; [rewrite lor_low by done; f_equal; f_equal; lia|]. rewrite Z.shiftl_mul_pow2 by done. unfold fits. nia.
  - cbn [app] in Hr. cbn [app] in Hl. destruct n as [|n]; [change (128 ^ Z.of_nat 1) with 128 in Hv; lia|].
    set (b := v mod 128 + 128) in *. pose proof (Z.mod_pos_bound v 128 ltac:(lia)) as Hm. pose proof (Z.div_mod v 128 ltac:(lia)) as Hd.
    change (b :: vint_bytes (S n) (v / 128) ++ rest) with ([b] ++ vint_bytes (S n) (v / 128) ++ rest) in Hl, Hr. rewrite len_app in Hl. change (len [b]) with 1 in Hl.
    pose proof (len_natural (vint_bytes (S n) (v / 128) ++ rest)). destruct (Z.leb_spec (len data) pos); [lia|]. rewrite (at_here _ _ _ _ Hr). cbn [rbind].
    assert (Z.land b 127 = v mod 128) as ->.
    { change 127 with (Z.ones 7). rewrite Z.land_ones by lia. change (2 ^ 7) with 128. subst b. rewrite Z.add_mod by lia. rewrite Z_mod_same_full, Z.add_0_r, !Z.mod_mod by lia. done. }
    assert (Z.land b 128 =? 0 = false) as ->.
    { apply Z.eqb_neq. intros E. assert (Ht : Z.testbit (Z.land b 128) 7 = true); [|by rewrite E in Ht]. rewrite Z.land_spec. change (Z.testbit 128 7) with true. rewrite andb_true_r.
      apply Z.testbit_true; [lia|]. change (2 ^ 7) with 128. subst b. replace ((v mod 128 + 128) / 128) with 1; [done|]. apply Z.div_unique with (v mod 128); lia. }
    rewrite u64_small by (rewrite Z.shiftl_mul_pow2 by done; unfold fits; nia). rewrite lor_low by done.
    assert (Hp7 : 2 ^ (shift + 7) = 128 * 2 ^ shift) by (rewrite Z.pow_add_r by lia; change (2 ^ 7) with 128; lia).
    rewrite (IH (v / 128) (acc + v mod 128 * 2 ^ shift) (shift + 7) (k + 1) data (pos + 1) rest).
    + do 2 f_equal; [rewrite Hp7; nia|]. change (b :: vint_bytes (S n) (v / 128)) with ([b] ++ vint_bytes (S n) (v / 128)). rewrite len_app. change (len [b]) with 1. lia.
    + split; [lia|]. rewrite (Nat2Z.inj_succ (S n)), Z.pow_succ_r in Hv by lia. apply Z.div_lt_upper_bound; lia.
    + lia.
    + rewrite Hp7. nia.
    + rewrite Hp7. nia.
    + exact (rest_skip _ _ _ _ Hr).
    + lia.
Qed.

Lemma readVint_here data pos v rest : fits 64 v -> rest_at data pos (vint v ++ rest) -> readVint data pos = Ok (v, len (vint v)).
Proof.
  intros [H1 H2] Hr. unfold readVint. rewrite (vint_loop_here 10 v 0 0 1 data pos rest); [do 2 f_equal; [lia|unfold vint; lia]| |lia|lia|lia|done|lia].
  split; [done|]. eapply Z.lt_le_trans; [exact H2|]. change 128 with (2 ^ 7). rewrite <- Z.pow_mul_r by lia. apply Z.pow_le_mono_r; lia.
Qed.

Lemma header_vint_here data headerEnd pos v rest : fits 64 v -> rest_at data pos (vint v ++ rest) -> pos + len (vint v) <= headerEnd ->
  header_vint data headerEnd pos = Ok (v, pos + len (vint v)).
Proof.
  intros Hv Hr He. pose proof (vint_len v). unfold header_vint. destruct (Z.leb_spec headerEnd pos); [lia|]. rewrite (readVint_here _ _ _ _ Hv Hr). cbn [or_failed rbind].
  destruct (Z.ltb_spec headerEnd (pos + len (vint v))); [lia|done].
Qed.

Lemma skip4_here present headerEnd pos (x : bytes) : (present = true -> len x = 4) -> pos + len (if present then x else []) <= headerEnd ->
  skip4 present headerEnd pos = Ok (pos + len (if present then x else [])).
Proof.
  intros Hx He. unfold skip4. destruct present; [|change (len []) with 0; by rewrite Z.add_0_r]. rewrite (Hx eq_refl) in *. destruct (Z.ltb_spec headerEnd (pos + 4)); [lia|done].
Qed.

Lemma areas_here data flags headerEnd pos fields extra dataSize rest : fits 64 (len extra) -> fits 64 dataSize ->
  (Z.testbit flags 0 = false -> extra = []) -> (Z.testbit flags 1 = false -> dataSize = 0) ->
  rest_at data pos ((if Z.testbit flags 0 then vint (len extra) else []) ++ (if Z.testbit flags 1 then vint dataSize else []) ++ fields ++ extra ++ rest) ->
  headerEnd = pos + len ((if Z.testbit flags 0 then vint (len extra) else []) ++ (if Z.testbit flags 1 then vint dataSize else []) ++ fields ++ extra) ->
  exists pos', areas data flags headerEnd pos = Ok (len extra, dataSize, pos') /\ rest_at data pos' (fields ++ extra ++ rest) /\ headerEnd = pos' + len fields + len extra /\ pos <= pos'.
Proof.
  intros Fe Fd H0 H1 Hr He. rewrite !len_app in He. pose proof (len_natural fields). pose proof (len_natural extra). pose proof (vint_len dataSize) as Vd. pose proof (vint_len (len extra)) as Ve.
  unfold areas. set (s0 := if Z.testbit flags 0 then vint (len extra) else []) in *. set (s1 := if Z.testbit flags 1 then vint dataSize else []) in *.
  pose proof (rest_skip _ _ _ _ Hr) as Hr1. pose proof (rest_skip _ _ _ _ Hr1) as Hr2. exists (pos + len s0 + len s1).
  assert (E0 : (if Z.testbit flags 0 then let? (extraSize, pos) := header_vint data headerEnd pos in
      if headerEnd - pos <? extraSize then parse_error "rar5: extra area crosses header" [] else Ok (extraSize, pos) else Ok (0, pos)) = Ok (len extra, pos + len s0)).
  { subst s0. pose proof (len_natural s1). destruct (Z.testbit flags 0).
    - rewrite (header_vint_here _ _ _ _ _ Fe Hr) by lia. cbn [rbind]. destruct (Z.ltb_spec (headerEnd - (pos + len (vint (len extra)))) (len extra)); [lia|done].
    - rewrite (H0 eq_refl). change (len []) with 0. by rewrite Z.add_0_r. }
  rewrite E0. cbn [rbind].
  assert (E1 : (if Z.testbit flags 1 then header_vint data headerEnd (pos + len s0) else Ok (0, pos + len s0)) = Ok (dataSize, pos + len s0 + len s1)).
  { subst s1. destruct (Z.testbit flags 1).
    - by rewrite (header_vint_here _ _ _ _ _ Fd Hr1) by lia.
    - rewrite (H1 eq_refl). change (len []) with 0. by rewrite Z.add_0_r. }
  rewrite E1. cbn [rbind]. split; [done|]. split; [done|]. pose proof (len_natural s0). pose proof (len_natural s1). lia.
Qed.

Section Write.
Context (sha256 : bytes -> bytes).

(** The start of a block that is written, up to what its areas say. *)
Lemma block_here data pos crc type flags fields extra dataSize rest : len crc = 4 -> fits 64 type -> fits 64 flags -> fits 64 dataSize -> len data < 2 ^ 64 ->
  (Z.testbit flags 0 = false -> extra = []) -> (Z.testbit flags 1 = false -> dataSize = 0) ->
  let header := header5 type flags fields extra dataSize in
  rest_at data pos (crc ++ vint (len header) ++ header ++ rest) ->
  let headerEnd := pos + 4 + len (vint (len header)) + len header in
  exists pos', rest_at data pos' (fields ++ extra ++ rest) /\ headerEnd = pos' + len fields + len extra /\ 0 < pos' /\ rest_at data headerEnd rest /\
  rar5_block sha256 data pos =
    (if type =? 2 then let? m := rar5_file sha256 data headerEnd pos' (len extra) dataSize in Ok (FoundMember m)
     else if type =? 5 then Ok StopBlocks
     else if Z.testbit flags 1 && (len data - headerEnd <? dataSize) then Ok StopBlocks
     else Ok (NextBlock (headerEnd + dataSize))).
Proof.
  intros Hcrc Ft Ff Fd Hlen H0 H1 header Hr headerEnd. pose proof (rest_len _ _ _ Hr) as [Hp Hl]. rewrite !len_app, Hcrc in Hl.
  pose proof (len_natural rest). pose proof (len_natural header). pose proof (vint_len (len header)) as Vh.
  pose proof (rest_skip _ _ _ _ Hr) as Hr1. rewrite Hcrc in Hr1. pose proof (rest_skip _ _ _ _ Hr1) as Hr2. pose proof (rest_skip _ _ _ _ Hr2) as Hr3. fold headerEnd in Hr3.
  assert (Fh : fits 64 (len header)) by (unfold fits; lia).
  pose proof (vint_len type) as Vt. pose proof (vint_len flags) as Vf.
  assert (Eh : len header = len (vint type) + (len (vint flags) + len ((if Z.testbit flags 0 then vint (len extra) else []) ++ (if Z.testbit flags 1 then vint dataSize else []) ++ fields ++ extra)))
    by (unfold header, header5; by rewrite !len_app).
  assert (Ehd : header ++ rest = vint type ++ vint flags ++ (if Z.testbit flags 0 then vint (len extra) else []) ++ (if Z.testbit flags 1 then vint dataSize else []) ++ fields ++ extra ++ rest)
    by (unfold header, header5; by rewrite <- !app_assoc).
  rewrite Ehd in Hr2. pose proof (rest_skip _ _ _ _ Hr2) as Hr4. pose proof (rest_skip _ _ _ _ Hr4) as Hr5.
  set (areas_text := (if Z.testbit flags 0 then vint (len extra) else []) ++ (if Z.testbit flags 1 then vint dataSize else []) ++ fields ++ extra) in *.
  pose proof (len_natural areas_text).
  assert (Fx : fits 64 (len extra)).
  { split; [apply len_natural|]. assert (len extra <= len areas_text) by (unfold areas_text; rewrite !len_app; pose proof (len_natural fields);
      pose proof (len_natural (if Z.testbit flags 0 then vint (len extra) else [])); pose proof (len_natural (if Z.testbit flags 1 then vint dataSize else [])); lia). lia. }
  destruct (areas_here data flags headerEnd _ fields extra dataSize rest Fx Fd H0 H1 Hr5 ltac:(unfold headerEnd; fold areas_text; lia)) as (pos' & Ea & Hr' & He & Hge).
  exists pos'. split; [done|]. split; [done|]. split; [lia|]. split; [exact Hr3|].
  unfold rar5_block. destruct (Z.ltb_spec (len data) (pos + 4)); [lia|]. rewrite (readVint_here _ _ _ _ Fh Hr1). cbn [or_failed rbind].
  destruct (Z.eqb_spec (len header) 0); [lia|]. destruct (Z.ltb_spec (len data - (pos + 4 + len (vint (len header)))) (len header)); [lia|]. fold headerEnd.
  rewrite (header_vint_here _ headerEnd _ _ _ Ft Hr2) by (unfold headerEnd; lia). cbn [rbind]. rewrite (header_vint_here _ headerEnd _ _ _ Ff Hr4) by (unfold headerEnd; lia). cbn [rbind].
  by rewrite Ea.
Qed.

Lemma skipped_here data pos b rest : skipped5 b -> len data < 2 ^ 64 -> rest_at data pos (write5 b ++ rest) -> rar5_block sha256 data pos = Ok (NextBlock (pos + len (write5 b))).
Proof.
  intros (Hcrc & Ft & H2 & H5 & Ff & H0 & H1) Hlen Hr. unfold write5 in *. set (header := header5 _ _ _ _ _) in *. rewrite <- !app_assoc in Hr.
  assert (Fd : fits 64 (len (b_data b))).
  { split; [apply len_natural|]. pose proof (rest_len _ _ _ Hr) as [Hp Hl]. rewrite !len_app in Hl. pose proof (len_natural (b_crc b)). pose proof (len_natural header). pose proof (len_natural rest). pose proof (len_natural (vint (len header))). lia. }
  destruct (block_here data pos (b_crc b) (b_type b) (b_flags b) (b_fields b) (b_extra b) (len (b_data b)) (b_data b ++ rest) Hcrc Ft Ff Fd Hlen H0) as (pos' & _ & _ & _ & Hre & ->).
  { intros Hf. by rewrite (H1 Hf). }
  { exact Hr. }
  fold header in Hre |- *. destruct (Z.eqb_spec (b_type b) 2); [done|]. destruct (Z.eqb_spec (b_type b) 5); [done|].
  pose proof (rest_len _ _ _ Hre) as [_ Hl]. rewrite len_app in Hl. pose proof (len_natural rest). destruct (Z.ltb_spec (len data - (pos + 4 + len (vint (len header)) + len header)) (len (b_data b))); [lia|].
  rewrite andb_false_r. rewrite !len_app, Hcrc. do 2 f_equal. lia.
Qed.

(** ** The extra area is read back *)

Definition record_ok (r : extra_record) : Prop :=
  match r with
  | OtherRecord type _ => fits 64 type /\ type <> 1
  | EncryptionRecord flags kdf salt iv check =>
      0 <= flags <= 3 /\ 0 <= kdf <= 24 /\ len salt = 16 /\ len iv = 16 /\
      match check with
      | None => Z.testbit flags 0 = false
      | Some c => Z.testbit flags 0 = true /\ len (pc_check c) = 8 /\ pc_sum c = take 4 (sha256 (pc_check c)) /\ len (pc_sum c) = 4
      end
  end.

Definition check_text (check : option password_check) : bytes := match check with Some c => pc_check c ++ pc_sum c | None => [] end.

Lemma slice_front pre rest : slice (pre ++ rest) 0 (len pre) = Ok pre.
Proof. apply (slice_here _ 0 pre rest); [by exists []|lia]. Qed.

Lemma small_flags flags : 0 <= flags <= 3 -> Z.ldiff flags 3 =? 0 = true.
Proof. intros H. apply Z.eqb_eq. assert (flags = 0 \/ flags = 1 \/ flags = 2 \/ flags = 3) as [->|[->|[->| ->]]] by lia; done. Qed.

Lemma encryption_here pre flags kdf salt iv check rest : record_ok (EncryptionRecord flags kdf salt iv check) ->
  let body := vint 0 ++ vint flags ++ [kdf] ++ salt ++ iv ++ check_text check in
  encryption_record sha256 (pre ++ body ++ rest) (len pre) (len (pre ++ body)) = Ok (MkEnc 5 salt iv kdf match check with Some c => pc_check c | None => [] end).
Proof.
  intros (Hf & Hk & Hs & Hi & Hc) body. unfold encryption_record. rewrite app_assoc, slice_front. cbn [rbind].
  assert (Eb : len body = len (vint 0) + (len (vint flags) + (1 + (16 + (16 + len (check_text check)))))) by (unfold body; rewrite !len_app, Hs, Hi; change (len [kdf]) with 1; lia).
  pose proof (len_natural (check_text check)) as Hc0. pose proof (vint_len 0) as V0. pose proof (vint_len flags) as Vf.
  assert (R0 : forall tail, rest_at ((pre ++ body) ++ tail) (len pre) (vint 0 ++ vint flags ++ [kdf] ++ salt ++ iv ++ check_text check ++ tail)).
  { intros tail. exists pre. split; [|done]. unfold body. by rewrite <- !app_assoc. }
  pose proof (R0 []) as A0. rewrite app_nil_r in A0. rewrite (readVint_here _ _ 0 _ ltac:(unfold fits; lia) A0). cbn [or_failed rbind]. cbn [Z.eqb negb].
  pose proof (rest_skip _ _ _ _ A0) as A1. rewrite (readVint_here _ _ flags _ ltac:(unfold fits; lia) A1). cbn [or_failed rbind]. rewrite (small_flags _ Hf). cbn [negb].
  rewrite len_app, Eb. destruct (Z.leb_spec (len pre + (len (vint 0) + (len (vint flags) + (1 + (16 + (16 + len (check_text check))))))) (len pre + len (vint 0) + len (vint flags))); [lia|].
  pose proof (rest_skip _ _ _ _ (rest_skip _ _ _ _ (R0 rest))) as B2. set (p := len pre + len (vint 0) + len (vint flags)) in *. rewrite (at_here _ _ _ _ B2). cbn [rbind].
  pose proof (rest_skip _ _ _ _ B2) as B3. change (len [kdf]) with 1 in B3. destruct (Z.ltb_spec 24 kdf); [lia|]. cbn [orb].
  destruct (Z.ltb_spec (len pre + (len (vint 0) + (len (vint flags) + (1 + (16 + (16 + len (check_text check)))))) - (p + 1)) 32); [lia|].
  rewrite (slice_here _ _ _ _ _ B3) by lia. cbn [rbind]. pose proof (rest_skip _ _ _ _ B3) as B4. rewrite Hs in B4. rewrite (slice_here _ _ _ _ _ B4) by lia. cbn [rbind].
  pose proof (rest_skip _ _ _ _ B4) as B5. rewrite Hi in B5. replace (p + 1 + 16 + 16) with (p + 1 + 32) in B5 by lia.
  destruct check as [c|]; cbn [check_text] in *.
  - destruct Hc as (Ht & Hc8 & Hsum & Hs4). rewrite Ht, len_app, Hc8, Hs4 in *. destruct (Z.ltb_spec (len pre + (len (vint 0) + (len (vint flags) + (1 + (16 + (16 + (8 + 4)))))) - (p + 1 + 32)) 12); [lia|].
    rewrite <- (app_assoc (pc_check c)) in B5. rewrite (slice_here _ _ _ _ _ B5) by lia. cbn [rbind]. pose proof (rest_skip _ _ _ _ B5) as B6. rewrite Hc8 in B6. rewrite (slice_here _ _ _ _ _ B6) by lia. cbn [rbind].
    rewrite (bool_decide_true _ Hsum). cbn [negb rbind]. destruct (Z.eqb_spec (p + 1 + 32 + 12) (len pre + (len (vint 0) + (len (vint flags) + (1 + (16 + (16 + (8 + 4)))))))); [done|lia].
  - rewrite Hc. cbn [rbind]. change (len []) with 0 in *. destruct (Z.eqb_spec (p + 1 + 32) (len pre + (len (vint 0) + (len (vint flags) + (1 + (16 + (16 + 0))))))); [done|lia].
Qed.

Lemma record_here fuel pre r rest e : record_ok r -> len (pre ++ write_record r ++ rest) < 2 ^ 64 -> e = None \/ record_encryption r = None ->
  extra_loop sha256 (S fuel) (pre ++ write_record r ++ rest) (len pre) e =
  extra_loop sha256 fuel (pre ++ write_record r ++ rest) (len (pre ++ write_record r)) match record_encryption r with Some x => Some x | None => e end.
Proof.
  intros Hr Hlen He. cbn [extra_loop]. unfold write_record in *. set (body := record_body r) in *.
  pose proof (vint_len (len body)) as Vb. pose proof (len_natural pre). pose proof (len_natural rest). rewrite !len_app in Hlen.
  set (data := pre ++ (vint (len body) ++ body) ++ rest) in *. assert (El : len data = len pre + (len (vint (len body)) + len body + len rest)) by (unfold data; by rewrite !len_app).
  assert (A0 : rest_at data (len pre) (vint (len body) ++ body ++ rest)) by (exists pre; unfold data; by rewrite <- !app_assoc).
  assert (Hb : exists t k, body = vint t ++ k /\ fits 64 t /\ (t = 1 <-> record_encryption r <> None)).
  { subst body. destruct r as [type k|flags kdf salt iv check]; cbn [record_body record_encryption]; eexists _, _; (split; [reflexivity|]); [split; [apply Hr|split; [by intros ->; destruct Hr|done]]|done]. }
  destruct Hb as (t & k & Ebody & Ft & Ht). pose proof (vint_len t) as Vt. pose proof (len_natural k) as Hk. assert (Ebl : len body = len (vint t) + len k) by (by rewrite Ebody, len_app).
  destruct (Z.leb_spec (len data) (len pre)); [lia|]. rewrite (readVint_here _ _ (len body) _ ltac:(unfold fits; lia) A0). cbn [or_failed rbind].
  destruct (Z.eqb_spec (len body) 0); [lia|]. destruct (Z.ltb_spec (len data - len pre - len (vint (len body))) (len body)); [lia|]. cbn [orb].
  set (p := len pre + len (vint (len body))). assert (Ep : p = len (pre ++ vint (len body))) by (unfold p; by rewrite len_app).
  assert (Epe : p + len body = len (pre ++ vint (len body) ++ body)) by (unfold p; rewrite !len_app; lia).
  assert (Ed : data = (pre ++ vint (len body) ++ body) ++ rest) by (unfold data; by rewrite <- !app_assoc).
  rewrite Epe. rewrite Ed at 1. rewrite slice_front. cbn [rbind].
  assert (A1 : rest_at (pre ++ vint (len body) ++ body) p (vint t ++ k)) by (exists (pre ++ vint (len body)); split; [by rewrite <- Ebody, <- app_assoc|done]).
  rewrite (readVint_here _ _ _ _ Ft A1). cbn [or_failed rbind].
  destruct (Z.eqb_spec t 1) as [E1|E1]; cbn [negb].
  - destruct r as [type k'|flags kdf salt iv check]; [exfalso; by apply Ht in E1|]. destruct He as [->|]; [|done]. cbn [record_encryption].
    assert (Ek : k = vint 0 ++ vint flags ++ [kdf] ++ salt ++ iv ++ check_text check).
    { subst body. cbn [record_body] in Ebody. rewrite E1 in Ebody. apply app_inv_head in Ebody. symmetry. exact Ebody. }
    pose proof (encryption_here (pre ++ vint (len body) ++ vint t) flags kdf salt iv check rest Hr) as Hx. cbn zeta in Hx. rewrite <- Ek in Hx.
    replace ((pre ++ vint (len body) ++ vint t) ++ k ++ rest) with data in Hx by (rewrite Ed, Ebody; by rewrite <- !app_assoc).
    replace (len (pre ++ vint (len body) ++ vint t)) with (p + len (vint t)) in Hx by (unfold p; rewrite !len_app; lia).
    replace ((pre ++ vint (len body) ++ vint t) ++ k) with (pre ++ vint (len body) ++ body) in Hx by (rewrite Ebody at 2; by rewrite <- !app_assoc).
    rewrite Hx. done.
  - destruct (record_encryption r) eqn:Er; [exfalso; apply E1, Ht; done|done].
Qed.

Lemma extra_here rs : forall fuel pre e, Forall record_ok rs -> len (pre ++ write_records rs) < 2 ^ 64 -> (length rs < fuel)%nat ->
  (length (omap record_encryption rs) + (match e with Some _ => 1 | None => 0 end) <= 1)%nat ->
  extra_loop sha256 fuel (pre ++ write_records rs) (len pre) e = Ok match e with Some x => Some x | None => records_encryption rs end.
Proof.
  induction rs as [|r rs IH]; intros fuel pre e Hrs Hlen Hf Hone; (destruct fuel as [|fuel]; [cbn in Hf; lia|]).
  - cbn [extra_loop]. change (write_records []) with (@nil Z). rewrite app_nil_r. destruct (Z.leb_spec (len pre) (len pre)); [by destruct e|lia].
  - apply list.Forall_cons in Hrs as [Hr Hrs]. change (write_records (r :: rs)) with (write_record r ++ write_records rs) in *. cbn [omap list_omap] in Hone.
    rewrite record_here; [|done|done|].
    + rewrite app_assoc in *. cbn [length] in Hf. rewrite IH; [|done|done|lia|].
      * unfold records_encryption. cbn [omap list_omap]. destruct (record_encryption r) as [x|]; cbn [head]; [|done]. destruct e; [cbn in Hone; lia|done].
      * destruct (record_encryption r) as [x|]; cbn [length] in Hone |- *; [destruct e; lia|lia].
    + destruct e; [|by left]. right. destruct (record_encryption r); [cbn in Hone; lia|done].
Qed.

Lemma records_here rs : Forall record_ok rs -> len (write_records rs) < 2 ^ 64 -> (length (omap record_encryption rs) <= 1)%nat ->
  parseRAR5Encryption sha256 (write_records rs) = Ok (records_encryption rs).
Proof.
  intros Hrs Hlen Hone. unfold parseRAR5Encryption. apply (extra_here rs (S (length (write_records rs))) [] None Hrs Hlen); [|cbn [length] in *; lia].
  clear. assert (length rs <= length (write_records rs))%nat; [|lia]. induction rs as [|r rs IH]; [done|]. change (write_records (r :: rs)) with (write_record r ++ write_records rs).
  rewrite length_app. unfold write_record at 1. rewrite length_app. pose proof (vint_bytes_length 10 (len (record_body r)) ltac:(lia)) as H. unfold vint. cbn [length]. lia.
Qed.
End Write.

(** ** Names that are clean stay as they are *)

Lemma split_slash_nonempty p : split_slash p <> [].
Proof. destruct p as [|c p]; cbn [split_slash]; [done|]. destruct (c =? 47); [done|]. by destruct (split_slash p). Qed.

Lemma join_split p : join_slash (split_slash p) = p.
Proof.
  induction p as [|c p IH]; [done|]. cbn [split_slash]. pose proof (split_slash_nonempty p) as Hne. destruct (Z.eqb_spec c 47) as [->|Hc].
  - cbn [join_slash]. destruct (split_slash p) as [|s segs]; [done|]. cbn [app]. by rewrite IH.
  - destruct (split_slash p) as [|s segs]; [done|]. rewrite <- IH. cbn [join_slash]. by destruct segs.
Qed.

Lemma split_slash_covers p c : c ∈ p -> c = 47 \/ exists s, s ∈ split_slash p /\ c ∈ s.
Proof.
  induction p as [|x p IH]; intros Hc; [by apply not_elem_of_nil in Hc|]. cbn [split_slash]. pose proof (split_slash_nonempty p) as Hne. apply list.elem_of_cons in Hc as [->|Hc].
  - destruct (Z.eqb_spec x 47) as [->|Hx]; [by left|]. right. destruct (split_slash p) as [|s segs]; [done|]. exists (x :: s). split; by left.
  - destruct (IH Hc) as [->|(s & Hs & Hcs)]; [by left|]. right. destruct (Z.eqb_spec x 47) as [->|Hx]; [exists s; split; [by right|done]|].
    destruct (split_slash p) as [|s0 segs]; [done|]. apply list.elem_of_cons in Hs as [->|Hs]; [exists (x :: s0); split; [by left|by right]|exists s; split; [by right|done]].
Qed.

Lemma clean_fold segs : forall stack, Forall clean_element segs -> foldl (clean_step false) stack segs = rev segs ++ stack.
Proof.
  induction segs as [|s segs IH]; intros stack Hs; [done|]. apply list.Forall_cons in Hs as [(H1 & H2 & H3 & _) Hs]. cbn [foldl rev]. unfold clean_step at 2.
  rewrite !bool_decide_false by done. cbn [orb]. rewrite IH by done. by rewrite <- app_assoc.
Qed.

Lemma Clean_clean p : Forall clean_element (split_slash p) -> Clean p = p /\ map (fun c => if c =? 92 then 47 else c) p = p /\
  Clean p <> str "." /\ Clean p <> str ".." /\ has_prefix (str "../") p = false /\ has_prefix (str "/") p = false.
Proof.
  intros Hp. pose proof (join_split p) as Ej. pose proof (split_slash_nonempty p) as Hne.
  assert (Hhead : exists c q, p = c :: q /\ c <> 47).
  { destruct p as [|c q]; [apply list.Forall_cons in Hp as [[? _] _]; done|]. exists c, q. split; [done|]. intros ->. cbn [split_slash] in Hp. apply list.Forall_cons in Hp as [[? _] _]. done. }
  destruct Hhead as (c & q & Ep & Hc).
  assert (Er : bool_decide (head p = Some 47) = false) by (rewrite Ep; apply bool_decide_eq_false; by intros [= ->]).
  assert (E : Clean p = p).
  { unfold Clean. rewrite Er, clean_fold, app_nil_r, rev_involutive by done. cbn [app]. rewrite Ej, bool_decide_false by (by rewrite Ep). done. }
  rewrite E. split; [done|]. split.
  { rewrite <- (map_id p) at 2. apply map_ext_in. intros x Hx. destruct (Z.eqb_spec x 92) as [->|]; [|done]. exfalso. apply list_elem_of_In in Hx.
    destruct (split_slash_covers p 92 Hx) as [|(s & Hs & Hxs)]; [done|]. rewrite list.Forall_forall in Hp. by destruct (Hp s Hs) as (_ & _ & _ & _ & ?). }
  split_and!.
  - intros ->. cbn in Hp. apply list.Forall_cons in Hp as [(_ & ? & _) _]. done.
  - intros ->. cbn in Hp. apply list.Forall_cons in Hp as [(_ & _ & ? & _) _]. done.
  - destruct (has_prefix (str "../") p) eqn:H; [|done]. apply prefix_inv in H as [s ->]. cbn in Hp. apply list.Forall_cons in Hp as [(_ & _ & ? & _) _]. done.
  - destruct (has_prefix (str "/") p) eqn:H; [|done]. apply prefix_inv in H as [s ->]. cbn in Ep. by injection Ep as <- _.
Qed.

(** A member with a clean name and sizes is accepted as it is. *)
Lemma validate_clean name off size packed enc : 0 <= off -> 0 < size -> 0 < packed -> name = [] \/ Forall clean_element (split_slash name) ->
  validateStoredRARMember (MkMember name off size packed enc) = Ok (MkMember name off size packed enc).
Proof.
  intros Ho Hs Hp Hn. unfold validateStoredRARMember. cbn [DataOffset DataSize PackedSize m_Name Encryption]. destruct (Z.ltb_spec off 0); [lia|]. destruct (Z.leb_spec size 0); [lia|]. destruct (Z.leb_spec packed 0); [lia|]. cbn [orb].
  destruct (bool_decide_reflect (name = [])) as [|Hne]; [done|]. destruct Hn as [->|Hn]; [done|]. destruct (Clean_clean name Hn) as (E & Em & Hc1 & Hc2 & Hc3 & Hc4). rewrite Em, E in *. by rewrite !bool_decide_false, Hc3, Hc4.
Qed.

Section ReadBack.
Context (sha256 : bytes -> bytes).

Definition member5 (f : file5) (off : Z) : StoredRARMember :=
  let e := records_encryption (f_records f) in MkMember (f_name f) off match e with Some _ => f_unpacked f | None => f_packed f end (f_packed f) e.

(** A member that is stored, whose sizes are int64 and whose name is clean. *)
Record file5_ok (f : file5) : Prop := {
  ok_crc : len (f_crc f) = 4;
  ok_flags : fits 64 (f_flags f) /\ Z.testbit (f_flags f) 1 = true /\ (Z.testbit (f_flags f) 0 = false -> f_records f = []);
  ok_fileFlags : fits 64 (f_fileFlags f) /\ Z.testbit (f_fileFlags f) 3 = false;
  ok_mtime : Z.testbit (f_fileFlags f) 1 = true -> len (f_mtime f) = 4;
  ok_crc32 : Z.testbit (f_fileFlags f) 2 = true -> len (f_crc32 f) = 4;
  ok_attributes : fits 64 (f_attributes f) /\ fits 64 (f_host f);
  ok_info : fits 64 (f_info f) /\ Z.land (Z.shiftr (f_info f) 7) 15 = 0;
  ok_name : f_name f = [] \/ Forall clean_element (split_slash (f_name f));
  ok_records : Forall (record_ok sha256) (f_records f) /\ (length (omap record_encryption (f_records f)) <= 1)%nat;
  ok_sizes : 0 < f_packed f <= maxInt64 /\ 0 < f_unpacked f <= maxInt64
}.

Lemma file_fields_here data pos f rest : file5_ok f -> len data < 2 ^ 64 ->
  let extra := write_records (f_records f) in
  rest_at data pos (file5_fields f ++ extra ++ rest) -> 0 < pos ->
  let headerEnd := pos + len (file5_fields f) + len extra in
  rar5_file sha256 data headerEnd pos (len extra) (f_packed f) = Ok (member5 f headerEnd).
Proof.
  intros [_ Hfl [Fff H3] Hmt Hcr [Fat Fho] [Fin Hin] Hname [Hrec Hone] [Hpk Hun]] Hlen extra Hr Hpos headerEnd.
  pose proof (rest_len _ _ _ Hr) as [_ Hl]. rewrite !len_app in Hl. pose proof (len_natural rest). pose proof (len_natural extra). pose proof (len_natural (file5_fields f)).
  set (s1 := if Z.testbit (f_fileFlags f) 1 then f_mtime f else []) in *. set (s2 := if Z.testbit (f_fileFlags f) 2 then f_crc32 f else []) in *.
  assert (Fun : fits 64 (f_unpacked f)) by (unfold fits, maxInt64 in *; lia). 
  assert (El : len (file5_fields f) = len (vint (f_fileFlags f)) + (len (vint (f_unpacked f)) + (len (vint (f_attributes f)) + (len s1 + (len s2 + (len (vint (f_info f)) + (len (vint (f_host f)) + (len (vint (len (f_name f))) + len (f_name f)))))))))
    by (unfold file5_fields; by rewrite !len_app).
  pose proof (len_natural s1). pose proof (len_natural s2). pose proof (len_natural (f_name f)). pose proof (vint_len (f_fileFlags f)). pose proof (vint_len (f_unpacked f)). pose proof (vint_len (f_attributes f)).
  pose proof (vint_len (f_info f)). pose proof (vint_len (f_host f)). pose proof (vint_len (len (f_name f))).
  assert (Fn : fits 64 (len (f_name f))) by (unfold fits; lia).
  unfold file5_fields in Hr. fold s1 s2 in Hr. rewrite <- !app_assoc in Hr.
  pose proof (rest_skip _ _ _ _ Hr) as R1. pose proof (rest_skip _ _ _ _ R1) as R2. pose proof (rest_skip _ _ _ _ R2) as R3. pose proof (rest_skip _ _ _ _ R3) as R4. pose proof (rest_skip _ _ _ _ R4) as R5.
  pose proof (rest_skip _ _ _ _ R5) as R6. pose proof (rest_skip _ _ _ _ R6) as R7. pose proof (rest_skip _ _ _ _ R7) as R8. pose proof (rest_skip _ _ _ _ R8) as R9.
  unfold rar5_file. rewrite (header_vint_here _ headerEnd _ _ _ Fff Hr) by lia. cbn [rbind]. rewrite H3. rewrite (header_vint_here _ headerEnd _ _ _ Fun R1) by lia. cbn [rbind].
  rewrite (header_vint_here _ headerEnd _ _ _ Fat R2) by lia. cbn [rbind]. rewrite (skip4_here _ _ _ (f_mtime f) Hmt) by (fold s1; lia). fold s1. cbn [rbind].
  rewrite (skip4_here _ _ _ (f_crc32 f) Hcr) by (fold s2; lia). fold s2. cbn [rbind]. rewrite (header_vint_here _ headerEnd _ _ _ Fin R5) by lia. cbn [rbind].
  rewrite (header_vint_here _ headerEnd _ _ _ Fho R6) by lia. cbn [rbind]. rewrite (header_vint_here _ headerEnd _ _ _ Fn R7) by lia. cbn [rbind].
  match type of R8 with rest_at _ ?p _ => set (p8 := p) in * end. assert (E8 : headerEnd - len extra = p8 + len (f_name f)) by (unfold headerEnd, p8; lia). rewrite E8.
  destruct (Z.ltb_spec (p8 + len (f_name f)) p8); [lia|]. destruct (Z.ltb_spec (p8 + len (f_name f) - p8) (len (f_name f))); [lia|]. cbn [orb].
  rewrite (slice_here _ _ _ _ _ R8) by done. cbn [rbind]. rewrite (slice_here _ _ _ _ _ R9) by (unfold headerEnd, p8 in *; lia). cbn [rbind].
  unfold extra at 1. rewrite (records_here sha256 (f_records f) Hrec) by (first [done|fold extra; lia]). cbn [rbind]. rewrite Hin. cbn [Z.eqb negb]. unfold member5, maxInt64 in *.
  destruct (records_encryption (f_records f)) as [e|].
  - destruct (Z.eqb_spec (f_packed f) 0); [lia|]. rewrite !i64_small by (unfold is_i64, minInt64, maxInt64; lia). apply validate_clean; first [done|lia].
  - rewrite !i64_small by (unfold is_i64, minInt64, maxInt64; lia). apply validate_clean; first [done|lia].
Qed.

Lemma file_here data pos f rest : file5_ok f -> len data < 2 ^ 63 -> rest_at data pos (write_file5 f ++ rest) ->
  rar5_block sha256 data pos = Ok (FoundMember (member5 f (pos + len (write_file5 f)))).
Proof.
  intros Hf Hlen Hr. pose proof (rest_len _ _ _ Hr) as [Hp Hl]. unfold write_file5 in *. set (header := header5 _ _ _ _ _) in *. rewrite <- !app_assoc in Hr. pose proof Hf as Hf'.
  destruct Hf' as [Hcrc (Ff & Hb1 & Hb0) _ _ _ _ _ _ [_ _] [Hpk _]]. unfold maxInt64 in Hpk.
  destruct (block_here sha256 data pos (f_crc f) 2 (f_flags f) (file5_fields f) (write_records (f_records f)) (f_packed f) rest Hcrc ltac:(unfold fits; lia) Ff ltac:(unfold fits; lia) ltac:(lia)) as (pos' & Hr' & He & Hpos & _ & ->).
  - intros Hx. by rewrite (Hb0 Hx).
  - by rewrite Hb1.
  - exact Hr.
  - fold header in He |- *. cbn [Z.eqb Pos.eqb]. rewrite He. rewrite (file_fields_here data pos' f rest Hf ltac:(lia) Hr' Hpos). cbn [rbind]. do 3 f_equal. rewrite !len_app, Hcrc. lia.
Qed.

Lemma loop_here blocks : forall fuel data pos f rest, Forall skipped5 blocks -> file5_ok f -> len data < 2 ^ 63 -> rest_at data pos (concat (map write5 blocks) ++ write_file5 f ++ rest) ->
  (length blocks < fuel)%nat -> rar5_loop sha256 fuel data pos = Ok (member5 f (pos + len (concat (map write5 blocks)) + len (write_file5 f))).
Proof.
  induction blocks as [|b blocks IH]; intros fuel data pos f rest Hb Hf Hlen Hr Hfuel; (destruct fuel as [|fuel]; [cbn in Hfuel; lia|]); cbn [rar5_loop map concat] in *.
  - pose proof (rest_len _ _ _ Hr) as [_ Hl]. cbn [app] in Hr, Hl. rewrite len_app in Hl. pose proof (len_natural rest). assert (4 <= len (write_file5 f)).
    { unfold write_file5. rewrite !len_app. destruct Hf as [Hcrc]. pose proof (len_natural (header5 2 (f_flags f) (file5_fields f) (write_records (f_records f)) (f_packed f))).
      pose proof (vint_len (len (header5 2 (f_flags f) (file5_fields f) (write_records (f_records f)) (f_packed f)))). lia. }
    destruct (Z.leb_spec (len data) pos); [lia|]. rewrite (file_here data pos f rest Hf Hlen Hr). cbn [rbind]. change (len []) with 0. by rewrite Z.add_0_r.
  - apply list.Forall_cons in Hb as [Hb Hbs]. rewrite <- app_assoc in Hr. pose proof (rest_len _ _ _ Hr) as [_ Hl]. rewrite len_app in Hl. pose proof (len_natural (concat (map write5 blocks) ++ write_file5 f ++ rest)).
    assert (4 <= len (write5 b)).
    { unfold write5. rewrite !len_app. destruct Hb as (Hcrc & _). pose proof (len_natural (b_data b)). pose proof (len_natural (header5 (b_type b) (b_flags b) (b_fields b) (b_extra b) (len (b_data b)))).
      pose proof (vint_len (len (header5 (b_type b) (b_flags b) (b_fields b) (b_extra b) (len (b_data b))))). lia. }
    destruct (Z.leb_spec (len data) pos); [lia|]. rewrite (skipped_here sha256 data pos b _ Hb ltac:(lia) Hr). cbn [rbind].
    rewrite (IH fuel data _ f rest Hbs Hf Hlen (rest_skip _ _ _ _ Hr)) by (cbn in Hfuel; lia). do 2 f_equal. rewrite len_app. lia.
Qed.
End ReadBack.

(** ** The older format *)

Record block3 := MkBlock3 { b3_crc : bytes; b3_type : Z; b3_flags : Z; b3_rest : bytes }.
Definition write3 (b : block3) : bytes := b3_crc b ++ [b3_type b] ++ le_bytes 2 (b3_flags b) ++ le_bytes 2 (7 + len (b3_rest b)) ++ b3_rest b.
Definition skipped3 (b : block3) : Prop := len (b3_crc b) = 2 /\ b3_type b <> 116 /\ 7 + len (b3_rest b) < 65536.

Record file3 := MkFile3 {
  f3_crc : bytes; f3_flags : Z; f3_packed : Z; f3_unpacked : Z; f3_times : bytes; f3_attributes : bytes; f3_name : bytes; f3_salt : bytes; f3_tail : bytes
}.
Definition file3_encrypted (f : file3) : bool := Z.testbit (f3_flags f) 2.
Definition file3_salt (f : file3) : bytes := if file3_encrypted f && Z.testbit (f3_flags f) 10 then f3_salt f else [].
Definition file3_rest (f : file3) : bytes :=
  le_bytes 4 (f3_packed f mod 2 ^ 32) ++ le_bytes 4 (f3_unpacked f mod 2 ^ 32) ++ f3_times f ++ [48] ++ le_bytes 2 (len (f3_name f)) ++ f3_attributes f ++
  (if Z.testbit (f3_flags f) 8 then le_bytes 4 (f3_packed f / 2 ^ 32) ++ le_bytes 4 (f3_unpacked f / 2 ^ 32) else []) ++ f3_name f ++ file3_salt f ++ f3_tail f.
Definition write_file3 (f : file3) : bytes := f3_crc f ++ [116] ++ le_bytes 2 (f3_flags f) ++ le_bytes 2 (7 + len (file3_rest f)) ++ file3_rest f.

Record file3_ok (f : file3) : Prop := {
  ok3_crc : len (f3_crc f) = 2;
  ok3_flags : 0 <= f3_flags f < 65536;
  ok3_fields : len (f3_times f) = 10 /\ len (f3_attributes f) = 4;
  ok3_name : (f3_name f = [] \/ Forall clean_element (split_slash (f3_name f))) /\ len (f3_name f) < 65536;
  ok3_salt : len (f3_salt f) = 8;
  ok3_size : 7 + len (file3_rest f) < 65536;
  ok3_sizes : 0 < f3_packed f <= maxInt64 /\ 0 < f3_unpacked f <= maxInt64;
  ok3_large : Z.testbit (f3_flags f) 8 = false -> f3_packed f < 2 ^ 32 /\ f3_unpacked f < 2 ^ 32
}.

Definition member3 (f : file3) (off : Z) : StoredRARMember :=
  if file3_encrypted f then MkMember (f3_name f) off (f3_unpacked f) (f3_packed f) (Some (MkEnc 3 (file3_salt f) [] 0 []))
  else MkMember (f3_name f) off (f3_packed f) (f3_packed f) None.

Lemma len_le_bytes n x : len (le_bytes n x) = Z.of_nat n.
Proof. unfold len. by rewrite length_le_bytes. Qed.

(** The fields every block starts with. *)
Lemma block3_here data pos crc type flags size rest : len crc = 2 -> 0 <= size < 65536 ->
  rest_at data pos (crc ++ [type] ++ le_bytes 2 flags ++ le_bytes 2 size ++ rest) ->
  at_ data (pos + 2) = Ok type /\ (0 <= flags < 65536 -> le_at data (pos + 3) 2 = Ok flags) /\ le_at data (pos + 5) 2 = Ok size /\ rest_at data (pos + 7) rest.
Proof.
  intros Hc Hs Hr. pose proof (rest_skip _ _ _ _ Hr) as R1. rewrite Hc in R1. pose proof (rest_skip _ _ _ _ R1) as R2. change (len [type]) with 1 in R2. pose proof (rest_skip _ _ _ _ R2) as R3.
  rewrite len_le_bytes in R3. pose proof (rest_skip _ _ _ _ R3) as R4. rewrite len_le_bytes in R4.
  replace (pos + 2 + 1) with (pos + 3) in * by lia. replace (pos + 3 + Z.of_nat 2) with (pos + 5) in * by lia. replace (pos + 5 + Z.of_nat 2) with (pos + 7) in * by lia.
  split; [by apply (at_here _ _ _ _ R1)|]. split; [intros Hf; by apply (le_here _ _ 2 _ _ R2)|]. split; [by apply (le_here _ _ 2 _ _ R3)|done].
Qed.

Lemma hi_lo x : 0 <= x < 2 ^ 64 -> Z.lor (x mod 2 ^ 32) (u64 (Z.shiftl (x / 2 ^ 32) 32)) = x.
Proof.
  intros Hx. pose proof (Z.mod_pos_bound x (2 ^ 32) ltac:(lia)). pose proof (Z.div_mod x (2 ^ 32) ltac:(lia)). assert (0 <= x / 2 ^ 32) by (apply Z.div_pos; lia).
  assert (x / 2 ^ 32 < 2 ^ 32) by (apply Z.div_lt_upper_bound; lia). rewrite u64_small by (rewrite Z.shiftl_mul_pow2 by lia; unfold fits; lia). rewrite lor_low by lia. lia.
Qed.

Lemma file3_here data pos f rest : file3_ok f -> rest_at data pos (write_file3 f ++ rest) ->
  rar3_file data pos (len (write_file3 f)) = Ok (member3 f (pos + len (write_file3 f))).
Proof.
  intros [Hcrc Hfl [Ht Hat] [Hname Hnl] Hsalt Hsize [Hpk Hun] Hlarge] Hr. pose proof (rest_len _ _ _ Hr) as [Hp Hl]. rewrite len_app in Hl. pose proof (len_natural rest). pose proof (len_natural (f3_tail f)). pose proof (len_natural (f3_name f)).
  unfold maxInt64 in *. set (hi := if Z.testbit (f3_flags f) 8 then le_bytes 4 (f3_packed f / 2 ^ 32) ++ le_bytes 4 (f3_unpacked f / 2 ^ 32) else []).
  assert (Er : len (file3_rest f) = 25 + len hi + len (f3_name f) + len (file3_salt f) + len (f3_tail f)).
  { unfold file3_rest. fold hi. rewrite !len_app, !len_le_bytes, Ht, Hat. change (len [48]) with 1. lia. }
  assert (Ew : len (write_file3 f) = 7 + len (file3_rest f)) by (unfold write_file3; rewrite !len_app, !len_le_bytes, Hcrc; change (len [116]) with 1; lia).
  pose proof (len_natural hi). pose proof (len_natural (file3_salt f)). rewrite Ew in *.
  assert (Ea : write_file3 f ++ rest = f3_crc f ++ [116] ++ le_bytes 2 (f3_flags f) ++ le_bytes 2 (7 + len (file3_rest f)) ++ file3_rest f ++ rest) by (unfold write_file3; by rewrite <- !app_assoc).
  rewrite Ea in Hr. destruct (block3_here _ _ _ _ _ (7 + len (file3_rest f)) _ Hcrc ltac:(pose proof (len_natural (file3_rest f)); lia) Hr) as (_ & Efl & _ & R0). specialize (Efl Hfl).
  unfold file3_rest in R0. fold hi in R0. rewrite <- !app_assoc in R0.
  pose proof (rest_skip _ _ _ _ R0) as R1. rewrite len_le_bytes in R1. pose proof (rest_skip _ _ _ _ R1) as R2. rewrite len_le_bytes in R2. pose proof (rest_skip _ _ _ _ R2) as R3. rewrite Ht in R3.
  pose proof (rest_skip _ _ _ _ R3) as R4. change (len [48]) with 1 in R4. pose proof (rest_skip _ _ _ _ R4) as R5. rewrite len_le_bytes in R5. pose proof (rest_skip _ _ _ _ R5) as R6. rewrite Hat in R6.
  pose proof (rest_skip _ _ _ _ R6) as R7. pose proof (rest_skip _ _ _ _ R7) as R8.
  replace (pos + 7 + Z.of_nat 4) with (pos + 11) in * by lia. replace (pos + 11 + Z.of_nat 4) with (pos + 15) in * by lia. replace (pos + 15 + 10) with (pos + 25) in * by lia. replace (pos + 25 + 1) with (pos + 26) in * by lia.
  replace (pos + 26 + Z.of_nat 2) with (pos + 28) in * by lia. replace (pos + 28 + 4) with (pos + 32) in * by lia.
  unfold rar3_file. destruct (Z.ltb_spec (7 + len (file3_rest f)) 32); [lia|]. destruct (Z.ltb_spec (len data) (pos + (7 + len (file3_rest f)))); [lia|]. cbn [orb].
  rewrite Efl. cbn [rbind]. rewrite (at_here _ _ _ _ R3). cbn [rbind]. cbn [Z.eqb Pos.eqb negb].
  pose proof (le_here _ _ 4 (f3_packed f mod 2 ^ 32) _ R0 ltac:(apply Z.mod_pos_bound; lia)) as L0. pose proof (le_here _ _ 4 (f3_unpacked f mod 2 ^ 32) _ R1 ltac:(apply Z.mod_pos_bound; lia)) as L1. pose proof (le_here _ _ 2 (len (f3_name f)) _ R4 ltac:(cbn; lia)) as L4.
  change (Z.of_nat 4) with 4 in *. change (Z.of_nat 2) with 2 in *. rewrite L0. cbn [rbind]. rewrite L1. cbn [rbind]. rewrite L4. cbn [rbind].
  match goal with |- rbind ?c _ = _ => assert (Eh : c = Ok (f3_packed f, f3_unpacked f, pos + 32 + len hi)) end.
  { subst hi. destruct (Z.testbit (f3_flags f) 8) eqn:E8.
    - rewrite len_app, !len_le_bytes in *. change (Z.of_nat 4) with 4 in *. destruct (Z.ltb_spec (7 + len (file3_rest f)) 40); [lia|].
      rewrite <- app_assoc in R6. pose proof (rest_skip _ _ _ _ R6) as R6'. rewrite len_le_bytes in R6'. change (Z.of_nat 4) with 4 in R6'. replace (pos + 32 + 4) with (pos + 36) in R6' by lia.
      pose proof (le_here _ _ 4 (f3_packed f / 2 ^ 32) _ R6 ltac:(split; [apply Z.div_pos; lia|apply Z.div_lt_upper_bound; cbn; lia])) as L6. pose proof (le_here _ _ 4 (f3_unpacked f / 2 ^ 32) _ R6' ltac:(split; [apply Z.div_pos; lia|apply Z.div_lt_upper_bound; cbn; lia])) as L6'.
      change (Z.of_nat 4) with 4 in *. rewrite L6. cbn [rbind]. rewrite L6'. cbn [rbind]. rewrite !hi_lo by lia. do 2 f_equal. lia.
    - destruct (Hlarge eq_refl). rewrite !Z.mod_small by lia. change (len []) with 0. by rewrite Z.add_0_r. }
  rewrite Eh. cbn [rbind]. destruct (Z.ltb_spec (pos + (7 + len (file3_rest f))) (pos + 32 + len hi)); [lia|]. destruct (Z.ltb_spec (pos + (7 + len (file3_rest f))) (pos + 32 + len hi + len (f3_name f))); [lia|]. cbn [orb].
  change (Z.testbit (f3_flags f) 2) with (file3_encrypted f). unfold member3. destruct (file3_encrypted f) eqn:Ee.
  - match goal with |- rbind (rbind ?c _) _ = _ => assert (Es : c = Ok (file3_salt f)) end.
    { unfold file3_salt in *. rewrite Ee in *. cbn [andb] in *. destruct (Z.testbit (f3_flags f) 10); [|done]. destruct (Z.ltb_spec (pos + (7 + len (file3_rest f))) (pos + 32 + len hi + len (f3_name f) + 8)); [lia|].
      apply (slice_here _ _ _ _ _ R8). lia. }
    rewrite Es. cbn [rbind]. destruct (Z.eqb_spec (f3_packed f) 0); [lia|]. cbn [rbind]. rewrite (slice_here _ _ _ _ _ R7) by done. cbn [rbind]. rewrite !i64_small by (unfold is_i64, minInt64, maxInt64; lia).
    apply validate_clean; first [done|lia].
  - cbn [rbind]. rewrite (slice_here _ _ _ _ _ R7) by done. cbn [rbind]. rewrite !i64_small by (unfold is_i64, minInt64, maxInt64; lia). apply validate_clean; first [done|lia].
Qed.

Lemma loop3_here blocks : forall fuel data pos f rest, Forall skipped3 blocks -> file3_ok f -> rest_at data pos (concat (map write3 blocks) ++ write_file3 f ++ rest) ->
  (length blocks < fuel)%nat -> rar3_loop fuel data pos = Ok (member3 f (pos + len (concat (map write3 blocks)) + len (write_file3 f))).
Proof.
  induction blocks as [|b blocks IH]; intros fuel data pos f rest Hb Hf Hr Hfuel; (destruct fuel as [|fuel]; [cbn in Hfuel; lia|]); cbn [rar3_loop map concat] in *; pose proof (rest_len _ _ _ Hr) as [_ Hl].
  - cbn [app] in *. rewrite len_app in Hl. pose proof (len_natural rest). pose proof (file3_here data pos f rest Hf Hr) as Hfile.
    assert (Ew : len (write_file3 f) = 7 + len (file3_rest f)) by (unfold write_file3; rewrite !len_app, !len_le_bytes, (ok3_crc f Hf); change (len [116]) with 1; lia). pose proof (len_natural (file3_rest f)) as Hn.
    assert (Ea : write_file3 f ++ rest = f3_crc f ++ [116] ++ le_bytes 2 (f3_flags f) ++ le_bytes 2 (7 + len (file3_rest f)) ++ file3_rest f ++ rest) by (unfold write_file3; by rewrite <- !app_assoc).
    rewrite Ea in Hr. destruct (block3_here _ _ _ _ _ (7 + len (file3_rest f)) _ (ok3_crc f Hf) ltac:(pose proof (ok3_size f Hf); lia) Hr) as (Et & _ & Es & _).
    destruct (Z.leb_spec (len data) pos); [lia|]. destruct (Z.ltb_spec (len data) (pos + 7)); [lia|]. rewrite Et. cbn [rbind]. rewrite Es. cbn [rbind]. destruct (Z.ltb_spec (7 + len (file3_rest f)) 7); [lia|]. cbn [Z.eqb Pos.eqb].
    rewrite <- Ew, Hfile. change (len []) with 0. by rewrite Z.add_0_r.
  - apply list.Forall_cons in Hb as [(Hc & Ht & Hs) Hbs]. rewrite <- app_assoc in Hr, Hl. rewrite len_app in Hl. pose proof (len_natural (concat (map write3 blocks) ++ write_file3 f ++ rest)).
    assert (Ew : len (write3 b) = 7 + len (b3_rest b)) by (unfold write3; rewrite !len_app, !len_le_bytes, Hc; change (len [b3_type b]) with 1; lia). pose proof (len_natural (b3_rest b)) as Hn.
    pose proof (rest_skip _ _ _ _ Hr) as Hnext. unfold write3 in Hr at 1. rewrite <- !app_assoc in Hr. destruct (block3_here _ _ _ _ _ (7 + len (b3_rest b)) _ Hc ltac:(lia) Hr) as (Et & _ & Es & _).
    destruct (Z.leb_spec (len data) pos); [lia|]. destruct (Z.ltb_spec (len data) (pos + 7)); [lia|]. rewrite Et. cbn [rbind]. rewrite Es. cbn [rbind]. destruct (Z.ltb_spec (7 + len (b3_rest b)) 7); [lia|].
    destruct (Z.eqb_spec (b3_type b) 116); [done|]. destruct (Z.ltb_spec (len data - pos) (7 + len (b3_rest b))); [lia|]. rewrite <- Ew.
    rewrite (IH fuel data _ f rest Hbs Hf Hnext) by (cbn in Hfuel; lia). do 2 f_equal. rewrite len_app. lia.
Qed.

(** ** What is written is read back *)

(** The start of a volume, up to the payload of its member. *)
Inductive volume_of (sha256 : bytes -> bytes) : bytes -> StoredRARMember -> Prop :=
| volume5 blocks f : Forall skipped5 blocks -> file5_ok sha256 f ->
    let v := rar5Sig ++ concat (map write5 blocks) ++ write_file5 f in volume_of sha256 v (member5 f (len v))
| volume3 blocks f : Forall skipped3 blocks -> file3_ok f ->
    let v := rar3Sig ++ concat (map write3 blocks) ++ write_file3 f in volume_of sha256 v (member3 f (len v)).

Lemma concat_longer {A} (f : A -> bytes) (l : list A) : (forall x, x ∈ l -> 1 <= len (f x)) -> (length l <= length (concat (map f l)))%nat.
Proof.
  induction l as [|x l IH]; intros H; [done|]. cbn [map concat length]. rewrite length_app. pose proof (H x ltac:(by left)). specialize (IH ltac:(intros y Hy; apply H; by right)). unfold len in *. lia.
Qed.

Lemma write5_pos b : skipped5 b -> 1 <= len (write5 b).
Proof.
  intros (Hc & _). unfold write5. rewrite !len_app, Hc. pose proof (len_natural (b_data b)). pose proof (len_natural (header5 (b_type b) (b_flags b) (b_fields b) (b_extra b) (len (b_data b)))).
  pose proof (vint_len (len (header5 (b_type b) (b_flags b) (b_fields b) (b_extra b) (len (b_data b))))). lia.
Qed.
Lemma write3_pos b : skipped3 b -> 1 <= len (write3 b).
Proof. intros (Hc & _). unfold write3. rewrite !len_app, Hc. pose proof (len_natural ([b3_type b] ++ le_bytes 2 (b3_flags b))). pose proof (len_natural (b3_rest b)). pose proof (len_natural [b3_type b]). rewrite !len_le_bytes. lia. Qed.

(** C38. Whatever the bytes, the parsers of RAR volumes return: no index is out of range and no
    loop goes on for ever.  What they return is a member whose header ends inside what was read,
    with sizes that are positive int64, with a name that is empty or stays inside its root, and
    with the encryption fields at the lengths of its version; without encryption both sizes agree. *)
Theorem rar_parse_safe sha256 data : Forall (fits 8) data ->
  match parse_member sha256 data with
  | Ok m => member_ok (len data) m
  | Err (Some _) => True
  | Err None => False
  end.
Proof. intros H. exact (parse_member_sound sha256 data H). Qed.

(** C39. What is written is read back.  A volume of either format, with any blocks that are
    skipped, any fields and any records in the extra area of its member, gives exactly the member
    that was written, and its payload starts where the header ends. *)
Theorem rar_read_back sha256 volume m rest : volume_of sha256 volume m -> len (volume ++ rest) < 2 ^ 63 ->
  parse_member sha256 (volume ++ rest) = Ok m /\ DataOffset m = len volume.
Proof.
  intros Hv Hlen. destruct Hv as [blocks f Hb Hf v|blocks f Hb Hf v].
  - split; [|done]. subst v. unfold parse_member, parseRAR5StoredMember. rewrite <- !app_assoc in *. rewrite len_app in Hlen |- *. change (len rar5Sig) with 8 in *.
    pose proof (len_natural (concat (map write5 blocks) ++ write_file5 f ++ rest)) as Hn.
    assert (E3 : has_prefix rar3Sig (rar5Sig ++ concat (map write5 blocks) ++ write_file5 f ++ rest) = false) by reflexivity. rewrite E3, andb_false_r.
    rewrite prefix_app, !len_app. change (len rar5Sig) with 8. rewrite !len_app in Hn. destruct (Z.leb_spec 8 (8 + (len (concat (map write5 blocks)) + (len (write_file5 f) + len rest)))); [|lia]. cbn [andb negb].
    destruct (Z.ltb_spec (8 + (len (concat (map write5 blocks)) + (len (write_file5 f) + len rest))) 8); [lia|].
    rewrite (loop_here sha256 blocks _ _ 8 f rest Hb Hf); [by rewrite Z.add_assoc|rewrite !len_app in Hlen; rewrite 3!len_app; change (len rar5Sig) with 8; lia|by exists rar5Sig|].
    rewrite !length_app. pose proof (concat_longer write5 blocks ltac:(intros x Hx; apply write5_pos; rewrite list.Forall_forall in Hb; by apply Hb)). lia.
  - split; [|subst v; unfold member3; by destruct (file3_encrypted f)]. subst v. unfold parse_member, parseRAR3StoredMember. rewrite <- !app_assoc in *. rewrite prefix_app, !len_app. change (len rar3Sig) with 7.
    pose proof (len_natural (concat (map write3 blocks))). pose proof (len_natural (write_file3 f)). pose proof (len_natural rest).
    destruct (Z.leb_spec 7 (7 + (len (concat (map write3 blocks)) + (len (write_file3 f) + len rest)))); [|lia]. cbn [andb negb].
    destruct (Z.ltb_spec (7 + (len (concat (map write3 blocks)) + (len (write_file3 f) + len rest))) 7); [lia|].
    rewrite (loop3_here blocks _ _ 7 f rest Hb Hf); [by rewrite Z.add_assoc|by exists rar3Sig|].
    rewrite !length_app. pose proof (concat_longer write3 blocks ltac:(intros x Hx; apply write3_pos; rewrite list.Forall_forall in Hb; by apply Hb)). lia.
Qed.

Definition zero_hash (b : bytes) : bytes := repeat 0 32.
Definition sample_block : block5 := MkBlock5 [1; 2; 3; 4] 1 1 [7] [9; 9] [].
Definition sample_file : file5 :=
  MkFile5 [5; 6; 7; 8] 3 2 1000 32 [1; 1; 1; 1] [] 0 1 (str "a/b.mkv")
    [OtherRecord 3 [0; 0]; EncryptionRecord 1 15 (repeat 3 16) (repeat 4 16) (Some (MkCheck (repeat 5 8) (repeat 0 4)))] 1008.

Lemma rar_parse_safe_witness : Forall (fits 8) (rar5Sig ++ write5 sample_block ++ write_file5 sample_file) /\
  match parse_member zero_hash (rar5Sig ++ write5 sample_block ++ write_file5 sample_file) with
  | Ok m => member_ok (len (rar5Sig ++ write5 sample_block ++ write_file5 sample_file)) m
  | Err (Some _) => True
  | Err None => False
  end.
Proof.
  assert (H : Forall (fits 8) (rar5Sig ++ write5 sample_block ++ write_file5 sample_file)).
  { apply list.Forall_forall. intros x Hx. assert (Hb : forallb (fun c => (0 <=? c) && (c <? 256)) (rar5Sig ++ write5 sample_block ++ write_file5 sample_file) = true) by (vm_compute; reflexivity).
    rewrite forallb_forall in Hb. apply list_elem_of_In in Hx. apply Hb in Hx. bool_hyps. unfold fits. lia. }
  split; [exact H|]. apply rar_parse_safe. exact H.
Defined.

Lemma sample_file_ok : file5_ok zero_hash sample_file.
Proof.
  split; cbn [f_crc f_flags f_fileFlags f_mtime f_crc32 f_records f_name f_attributes f_host f_info f_packed f_unpacked sample_file].
  - done.
  - split; [unfold fits; lia|done].
  - split; [unfold fits; lia|done].
  - done.
  - done.
  - split; unfold fits; lia.
  - split; [unfold fits; lia|done].
  - right. assert (E : split_slash (str "a/b.mkv") = [str "a"; str "b.mkv"]) by (vm_compute; reflexivity). rewrite E.
    repeat (apply list.Forall_cons; split; [split_and!; apply (bool_decide_unpack _); vm_compute; exact I|]). constructor.
  - split; [|cbn; lia]. apply list.Forall_cons; split; [split; [unfold fits; lia|lia]|]. apply list.Forall_cons; split; [split_and!; try done; lia|constructor].
  - unfold maxInt64. lia.
Qed.

Lemma rar_read_back_witness :
  let v := rar5Sig ++ concat (map write5 [sample_block]) ++ write_file5 sample_file in
  let m := MkMember (str "a/b.mkv") (len v) 1000 1008 (Some (MkEnc 5 (repeat 3 16) (repeat 4 16) 15 (repeat 5 8))) in
  (volume_of zero_hash v m /\ len (v ++ [1; 2; 3]) < 2 ^ 63) /\ parse_member zero_hash (v ++ [1; 2; 3]) = Ok m /\ DataOffset m = len v.
Proof.
  cbv zeta. assert (Hv : volume_of zero_hash (rar5Sig ++ concat (map write5 [sample_block]) ++ write_file5 sample_file) (MkMember (str "a/b.mkv")
    (len (rar5Sig ++ concat (map write5 [sample_block]) ++ write_file5 sample_file)) 1000 1008 (Some (MkEnc 5 (repeat 3 16) (repeat 4 16) 15 (repeat 5 8))))).
  { apply (volume5 zero_hash [sample_block] sample_file); [|apply sample_file_ok]. apply list.Forall_cons. split; [|constructor]. split_and!; cbn; unfold fits; try lia; try done. }
  assert (Hl : len ((rar5Sig ++ concat (map write5 [sample_block]) ++ write_file5 sample_file) ++ [1; 2; 3]) < 2 ^ 63) by (vm_compute; reflexivity).
  split; [split; [exact Hv|exact Hl]|]. apply rar_read_back; [exact Hv|exact Hl].
Defined.
