(* ===== verification/RarSource.v ===== *)
(** The member of a multi-volume RAR as one source of bytes: internal/archive/rar.go, the
    manifest of its parts and the source over them. *)

From Stdlib Require Import ZArith Lia.
From stdpp Require Import base list numbers strings.
From S2P Require Import Prelude Outcome Bencode ContentProof Torrentmeta LaneCandidate Text ByteSource RarHeader.

Local Open Scope Z_scope.
Local Open Scope harbor_scope.

Record StoredRARPart := MkPart { p_FileID : bytes; ArchiveSize : Z; p_DataOffset : Z; p_DataSize : Z }.
Record StoredRARManifest := MkManifest { MemberName : bytes; TotalSize : Z; Parts : list StoredRARPart }.

Definition rar_failed {A} (msg : string) : result goerror A := Err (Error (TPlain (str msg)) []).

Section Source.
Context {W : Type} `{Context W}.

(** One turn of the loop of [NewStoredRARByteSource]: the total so far, and the start of the part. *)
Definition check_part (state : Z * list Z) (ps : StoredRARPart * option (ByteSource W)) : result goerror (Z * list Z) :=
  let (total, starts) := state in
  let (part, source) := ps in
  match source with
  | None => rar_failed "rar: invalid manifest part"
  | Some source =>
      if bool_decide (p_FileID part = []) || strings_Contains (p_FileID part) (str "://") || (ArchiveSize part <=? 0) || (p_DataOffset part <? 0) || (p_DataSize part <=? 0) ||
        (ArchiveSize part <? p_DataOffset part) || (ArchiveSize part - p_DataOffset part <? p_DataSize part) || negb (Size source =? ArchiveSize part)
      then rar_failed "rar: invalid manifest part"
      else if maxInt64 - p_DataSize part <? total then rar_failed "rar: total size overflow"
      else Ok (total + p_DataSize part, starts ++ [total])
  end.

(** The loop over the parts that hold the rest; [p] is what the buffer holds. *)
Fixpoint read_parts (parts : list StoredRARPart) (starts : list Z) (sources : list (ByteSource W)) (off want : Z) (p : bytes) : W -> W * (bytes * Z * option goerror) :=
  match parts, starts, sources with
  | part :: parts, partStart :: (partEnd :: _) as starts, source :: sources =>
      if partEnd <=? off then read_parts parts starts sources off want p
      else
        let local := if partStart <? off then off - partStart else 0 in
        let n := Z.of_nat (length p) in
        let ask := Z.min (want - n) (partEnd - partStart - local) in
        let! (written, got, err) := ReadAt source ask (p_DataOffset part + local) in
        let failed := match err with Some e => if is_EOF e && (got =? ask) then None else Some e | None => None end in
        match failed with
        | Some e => call_ret (p ++ written, n + got, Some e)
        | None =>
            if negb (got =? ask) then call_ret (p ++ written, n + got, Some io_ErrUnexpectedEOF)
            else
              let p := p ++ fill ask written in
              if n + got =? want then call_ret (p, n + got, None) else read_parts parts starts sources (off + got) want p
        end
  | _, _, _ => call_ret (p, Z.of_nat (length p), Some io_EOF)
  end.

Definition storedRAR_ReadAt (manifest : StoredRARManifest) (starts : list Z) (sources : list (ByteSource W)) (n off : Z) : W -> W * (bytes * Z * option goerror) :=
  if off <? 0 then call_ret ([], 0, Some ErrNegativeOffset)
  else if n =? 0 then call_ret ([], 0, None)
  else
    let! err := ctx_Err in
    match err with
    | Some err => call_ret ([], 0, Some err)
    | None => if TotalSize manifest <=? off then call_ret ([], 0, Some io_EOF) else read_parts (Parts manifest) starts sources off n []
    end.

Definition NewStoredRARByteSource (key : bytes) (manifest : StoredRARManifest) (sources : list (option (ByteSource W))) : result goerror (ByteSource W) :=
  if bool_decide (key = []) || strings_Contains key (str "://") then rar_failed "rar: invalid source key"
  else if bool_decide (Parts manifest = []) || negb (length sources =? length (Parts manifest))%nat then rar_failed "rar: manifest/source count mismatch"
  else
    let? (total, starts) := rfold check_part (0, []) (zip (Parts manifest) sources) in
    if negb (TotalSize manifest =? total) then rar_failed "rar: manifest total does not match parts"
    else Ok (MkSource key (TotalSize manifest) (MkCaps true true TailCostCheap 0) (storedRAR_ReadAt manifest (starts ++ [total]) (omap (fun s => s) sources))).
End Source.

(** ** It reads as the payloads, one after the other *)

(** A volume: its part, its source and its bytes. *)
Record volume (W : Type) := MkVolume { v_part : StoredRARPart; v_source : ByteSource W; v_bytes : bytes }.
Arguments MkVolume {W}.
Arguments v_part {W}.
Arguments v_source {W}.
Arguments v_bytes {W}.

Definition payload {W} (v : volume W) : bytes := span (v_bytes v) (p_DataOffset (v_part v)) (p_DataSize (v_part v)).

Definition part_ok {W} (v : volume W) : Prop :=
  p_FileID (v_part v) <> [] /\ strings_Contains (p_FileID (v_part v)) (str "://") = false /\ ArchiveSize (v_part v) = len (v_bytes v) /\
  0 <= p_DataOffset (v_part v) /\ 0 < p_DataSize (v_part v) /\ p_DataOffset (v_part v) + p_DataSize (v_part v) <= len (v_bytes v).

Section Reads.
Context {W : Type} `{Context W}.
Context (Halive : alive W).

Definition payloads (vs : list (volume W)) : bytes := concat (map payload vs).

Fixpoint starts_of (base : Z) (vs : list (volume W)) : list Z := match vs with [] => [base] | v :: vs => base :: starts_of (base + p_DataSize (v_part v)) vs end.

Lemma payload_len v : part_ok (W := W) v -> Z.of_nat (length (payload v)) = p_DataSize (v_part v).
Proof. intros (_ & _ & _ & H1 & H2 & H3). unfold payload. apply span_length; unfold len in *; lia. Qed.

Lemma payloads_cons v vs : payloads (v :: vs) = payload v ++ payloads vs.
Proof. done. Qed.

(** The loop, from a part whose start is [base]: what is wanted, or what is left with the end. *)
Lemma read_parts_spec vs : forall base off want p w, Forall part_ok vs -> (forall v, v ∈ vs -> reads_as (v_source v) (v_bytes v)) ->
  base <= off -> Z.of_nat (length p) < want ->
  (read_parts (map v_part vs) (starts_of base vs) (map v_source vs) off want p w).2 =
    let got := take (Z.to_nat (want - Z.of_nat (length p))) (drop (Z.to_nat (off - base)) (payloads vs)) in
    (p ++ got, Z.of_nat (length p) + Z.of_nat (length got), if Z.of_nat (length p) + Z.of_nat (length got) <? want then Some io_EOF else None).
Proof.
  induction vs as [|v vs IH]; intros base off want p w Hok Hr Hb Hp.
  - cbn [map read_parts starts_of]. cbn zeta. unfold payloads. cbn [map concat]. rewrite drop_nil, take_nil, app_nil_r. cbn [length]. rewrite Z.add_0_r. cbn [call_ret snd]. destruct (Z.ltb_spec (Z.of_nat (length p)) want); [done|lia].
  - apply list.Forall_cons in Hok as [Hv Hok]. cbn [map starts_of read_parts]. pose proof (payload_len v Hv) as Hpl. set (sz := p_DataSize (v_part v)) in *.
    destruct Hv as (_ & _ & _ & Hd & Hsz & Hin). fold sz in Hsz, Hin. assert (Es : exists tl, starts_of (base + sz) vs = (base + sz) :: tl) by (destruct vs; cbn; eauto). destruct Es as [tl Es].
    assert (Hr' : forall u, u ∈ vs -> reads_as (v_source u) (v_bytes u)) by (intros u Hu; apply Hr; by right). rewrite payloads_cons.
    rewrite Es. destruct (Z.leb_spec (base + sz) off).
    + rewrite <- Es. rewrite (IH (base + sz) off want p w Hok Hr') by lia. cbn zeta. rewrite drop_app_ge by lia. replace (Z.to_nat (off - base) - length (payload v))%nat with (Z.to_nat (off - (base + sz))) by lia. done.
    + set (local := if base <? off then off - base else 0). assert (El : local = off - base) by (unfold local; destruct (Z.ltb_spec base off); lia).
      set (ask := Z.min (want - Z.of_nat (length p)) (base + sz - base - local)). assert (Hask : 0 < ask <= sz - local) by lia.
      unfold call_bind at 1. pose proof (reads_inside (v_source v) (v_bytes v) ask (p_DataOffset (v_part v) + local) w ltac:(apply Hr; by left) ltac:(lia) ltac:(lia) ltac:(unfold len in Hin; lia)) as Hread.
      destruct (ReadAt (v_source v) ask (p_DataOffset (v_part v) + local) w) as [w' res]. cbn [snd] in Hread. subst res. cbn iota beta. rewrite Z.eqb_refl. cbn [negb].
      assert (Eg : span (v_bytes v) (p_DataOffset (v_part v) + local) ask = take (Z.to_nat ask) (drop (Z.to_nat (off - base)) (payload v))).
      { unfold payload. fold sz. change (take (Z.to_nat ask) (drop (Z.to_nat (off - base)) (span (v_bytes v) (p_DataOffset (v_part v)) sz))) with (span (span (v_bytes v) (p_DataOffset (v_part v)) sz) (off - base) ask).
        rewrite span_span by lia. by rewrite El. }
      assert (Lg : length (span (v_bytes v) (p_DataOffset (v_part v) + local) ask) = Z.to_nat ask) by (pose proof (span_length (v_bytes v) (p_DataOffset (v_part v) + local) ask ltac:(lia) ltac:(lia) ltac:(unfold len in Hin; lia)); lia).
      rewrite fill_exact by done. destruct (Z.eqb_spec (Z.of_nat (length p) + ask) want) as [Ew|Ew].
      * cbn [call_ret snd]. cbn zeta. rewrite drop_app_le by lia. rewrite take_app_le by (rewrite length_drop; lia). replace (want - Z.of_nat (length p)) with ask by lia. rewrite <- Eg, Lg.
        destruct (Z.ltb_spec (Z.of_nat (length p) + Z.of_nat (Z.to_nat ask)) want); [lia|]. do 2 f_equal; lia.
      * assert (Ea : ask = sz - local) by lia. rewrite <- Es. rewrite (IH (base + sz) (off + ask) want _ w' Hok Hr') by (rewrite ?length_app, ?Lg; lia). cbn zeta.
        rewrite length_app, Lg. rewrite drop_app_le by lia. rewrite take_app_ge by (rewrite length_drop; lia). rewrite length_drop.
        replace (Z.to_nat (off + ask - (base + sz))) with 0%nat by lia. rewrite drop_0.
        assert (Ef : take (Z.to_nat ask) (drop (Z.to_nat (off - base)) (payload v)) = drop (Z.to_nat (off - base)) (payload v)) by (apply take_ge; rewrite length_drop; lia).
        rewrite Eg, Ef. replace (Z.to_nat (want - Z.of_nat (length p + Z.to_nat ask))) with (Z.to_nat (want - Z.of_nat (length p)) - (length (payload v) - Z.to_nat (off - base)))%nat by lia.
        set (more := take _ (payloads vs)). rewrite app_assoc. rewrite length_app, length_drop.
        replace (Z.of_nat (length p + Z.to_nat ask) + Z.of_nat (length more)) with (Z.of_nat (length p) + Z.of_nat (length (payload v) - Z.to_nat (off - base) + length more)) by lia. done.
Qed.

Lemma check_parts vs : forall total starts, Forall part_ok vs -> (forall v, v ∈ vs -> reads_as (v_source v) (v_bytes v)) -> total + len (payloads vs) <= maxInt64 ->
  rfold check_part (total, starts) (zip (map v_part vs) (map (fun v => Some (v_source v)) vs)) = Ok (total + len (payloads vs), starts ++ removelast (starts_of total vs)).
Proof.
  induction vs as [|v vs IH]; intros total starts Hok Hr Hm.
  - cbn. rewrite app_nil_r. do 2 f_equal. unfold payloads, len. cbn. lia.
  - apply list.Forall_cons in Hok as [Hv Hok]. pose proof (payload_len v Hv) as Hpl. destruct Hv as (H1 & H2 & H3 & H4 & H5 & H6). rewrite payloads_cons in *. unfold len in *. rewrite length_app in *.
    cbn [map zip zip_with rfold]. destruct (Hr v ltac:(by left)) as [Hsize _].
    assert (E : check_part (total, starts) (v_part v, Some (v_source v)) = Ok (total + p_DataSize (v_part v), starts ++ [total])).
    { unfold check_part. rewrite (bool_decide_false _ H1), H2, Hsize, H3, Z.eqb_refl. cbn [orb negb]. destruct (Z.leb_spec (Z.of_nat (length (v_bytes v))) 0); [lia|]. destruct (Z.ltb_spec (p_DataOffset (v_part v)) 0); [lia|].
      destruct (Z.leb_spec (p_DataSize (v_part v)) 0); [lia|]. destruct (Z.ltb_spec (Z.of_nat (length (v_bytes v))) (p_DataOffset (v_part v))); [lia|].
      destruct (Z.ltb_spec (Z.of_nat (length (v_bytes v)) - p_DataOffset (v_part v)) (p_DataSize (v_part v))); [lia|]. cbn [orb]. destruct (Z.ltb_spec (maxInt64 - p_DataSize (v_part v)) total); [lia|done]. }
    rewrite E. cbn [rbind]. change (zip_with pair (map v_part vs) (map (fun v => Some (v_source v)) vs)) with (zip (map v_part vs) (map (fun v => Some (v_source v)) vs)).
    rewrite IH; [|done|intros u Hu; apply Hr; by right|lia]. cbn [starts_of]. assert (Hne : exists x l, starts_of (total + p_DataSize (v_part v)) vs = x :: l) by (destruct vs; cbn; eauto).
    destruct Hne as (x & l & Ex). rewrite Ex. cbn [removelast]. rewrite <- app_assoc. do 2 f_equal. lia.
Qed.

Lemma starts_last vs : forall base, Forall part_ok vs -> starts_of base vs = removelast (starts_of base vs) ++ [base + len (payloads vs)].
Proof.
  induction vs as [|v vs IH]; intros base Hok; [cbn; f_equal; unfold payloads, len; cbn; lia|]. apply list.Forall_cons in Hok as [Hv Hok]. pose proof (payload_len v Hv) as Hpl. cbn [starts_of].
  assert (Hne : exists x l, starts_of (base + p_DataSize (v_part v)) vs = x :: l) by (destruct vs; cbn; eauto). destruct Hne as (x & l & Ex). specialize (IH (base + p_DataSize (v_part v)) Hok).
  rewrite payloads_cons. unfold len in *. rewrite length_app. rewrite Ex in *. cbn [removelast]. change (base :: x :: l = base :: (match l with [] => [] | _ :: _ => x :: removelast l end ++ [base + Z.of_nat (length (payload v) + length (payloads vs))])). f_equal.
  rewrite IH at 1. cbn [removelast]. do 2 f_equal. lia.
Qed.

Lemma omap_somes (vs : list (volume W)) : omap (fun s => s) (map (fun v => Some (v_source v)) vs) = map v_source vs.
Proof. induction vs as [|v vs IH]; [done|]. cbn. by f_equal. Qed.
End Reads.

(** C40. The source over the parts of a stored member.  For a manifest whose parts lie in volumes
    that read as their bytes, the source is given, and reads as the payloads of the parts one after
    the other: every read of any length at any offset, across any number of volumes, gives exactly
    those bytes, and the end where they end. *)
Theorem stored_source_exact {W} `{Context W} key name (vs : list (volume W)) : alive W -> key <> [] -> strings_Contains key (str "://") = false -> vs <> [] ->
  Forall part_ok vs -> (forall v, v ∈ vs -> reads_as (v_source v) (v_bytes v)) -> len (payloads vs) <= maxInt64 ->
  exists src, NewStoredRARByteSource key (MkManifest name (len (payloads vs)) (map v_part vs)) (map (fun v => Some (v_source v)) vs) = Ok src /\ reads_as src (payloads vs).
Proof.
  intros Halive Hk Hu Hne Hok Hr Hm. unfold NewStoredRARByteSource. cbn [Parts TotalSize]. rewrite (bool_decide_false _ Hk), Hu. cbn [orb]. rewrite bool_decide_false by (by destruct vs). rewrite !length_map, Nat.eqb_refl. cbn [orb negb].
  rewrite check_parts by done. cbn [rbind]. rewrite Z.add_0_l, Z.eqb_refl. cbn [negb]. eexists. split; [reflexivity|]. split; [done|]. intros n off w Hn. cbn [ReadAt]. unfold storedRAR_ReadAt, mem_answer. cbn [TotalSize Parts].
  destruct (Z.ltb_spec off 0); [done|]. destruct (Z.eqb_spec n 0); [done|]. match goal with |- context [call_bind ctx_Err ?k] => destruct (poll Halive w k) as [w1 ->] end. cbn beta iota.
  change (len (payloads vs)) with (Z.of_nat (length (payloads vs))). destruct (Z.leb_spec (Z.of_nat (length (payloads vs))) off); [done|].
  cbn [app]. change (Z.of_nat (length (payloads vs))) with (0 + len (payloads vs)). rewrite <- (starts_last vs 0 Hok), omap_somes.
  rewrite (read_parts_spec vs 0 off n [] w1 Hok Hr) by (cbn [length]; lia). cbn [length]. cbn zeta. rewrite !Z.sub_0_r, !Z.add_0_l. done.
Qed.

#[local] Instance calm : Context unit := {| ctx_Err w := (w, None) |}.
Definition sample_volumes : list (volume unit) :=
  [MkVolume (MkPart (str "1") 6 2 3) (NewMemSource (str "a") [0; 0; 10; 11; 12; 0]) [0; 0; 10; 11; 12; 0];
   MkVolume (MkPart (str "2") 4 1 3) (NewMemSource (str "b") [0; 13; 14; 15]) [0; 13; 14; 15]].

Lemma stored_source_exact_witness :
  (payloads sample_volumes = [10; 11; 12; 13; 14; 15] /\ alive unit /\ Forall part_ok sample_volumes /\ forall v, v ∈ sample_volumes -> reads_as (v_source v) (v_bytes v)) /\
  exists src, NewStoredRARByteSource (str "k") (MkManifest (str "m") (len (payloads sample_volumes)) (map v_part sample_volumes)) (map (fun v => Some (v_source v)) sample_volumes) = Ok src /\
    reads_as src (payloads sample_volumes).
Proof.
  assert (Ha : alive unit) by (intros w; reflexivity).
  assert (Hok : Forall part_ok sample_volumes).
  { repeat (apply list.Forall_cons; split; [split_and!; first [done|vm_compute; done]|]). constructor. }
  assert (Hr : forall v, v ∈ sample_volumes -> reads_as (v_source v) (v_bytes v)).
  { intros v [->|[->|Hv%not_elem_of_nil]%list.elem_of_cons]%list.elem_of_cons; [apply (mem_reads_as Ha)|apply (mem_reads_as Ha)|done]. }
  split; [split_and!; [reflexivity|exact Ha|exact Hok|exact Hr]|]. apply stored_source_exact; [exact Ha|done|reflexivity|done|exact Hok|exact Hr|vm_compute; discriminate].
Defined.
